(* ===== verification/_CoqProject ===== *)
-Q . S2P
Prelude.v
JsString.v
JsDate.v
JsMap.v
Bytes.v
Cron5.v
BridgeFrame.v
RconProtocol.v
Seeding.v
SquadTracker.v
SquadHistory.v
MapVote.v
JsJson.v
BanMerge.v
BanSync.v
BanAdapters.v
AdminsCfg.v
Rbac.v
RoleAdmin.v
ScheduledTasks.v
DepotLock.v
RconClient.v
Collections.v
SeedTime.v
Economy.v
AuditChain.v
NetworkHost.v
OutboundUrl.v
VipSubscriptions.v
BridgeClient.v
BanPublish.v
OperatorCommand.v
RedisTasks.v
RconQueue.v
RconReload.v
ConfigSecrets.v
Interleave.v
ServerFiles.v
BansFile.v
Moderation.v
ConfigSync.v
LiveSocket.v
LiveBus.v
StreamConsumer.v
Automation.v
LogTails.v
WorkerKit.v
RconPoller.v
PlayerIdentity.v
