(* ===== verification/Prelude.v ===== *)
(** Squad Admin Panel: a verification development.

    The repository is a web panel that runs a fleet of Squad game servers: a
    Fastify API ([apps/api]), workers that talk to the game servers and to
    outside services ([apps/workers]), shared packages ([packages]), a Go daemon
    on the host ([apps/bridge]) and a React interface ([apps/web]). This
    library models the TypeScript parts with rules of their own, translated
    from the source, and proves that they do what they are for. It uses stdpp
    and the Standard Library and assumes no axiom.

    * Conventions

    A JavaScript string is a list of UTF-16 code units ([jstr]); [js] writes an
    ASCII literal. A number is a [Z], wrapped to 32 bits where the source uses
    bitwise operators; a [Date] is its time value in milliseconds. Code that
    throws returns a [result], with [let!] for its sequence. A [Map] is an
    association list in insertion order (JsMap), a [Set] of keys a list without
    repetition. Functions are executable, so the witnesses evaluate them. State
    machines and interleavings are step relations or runs over event lists; what
    the environment answers (Redis, the database, the clock, random values) is
    an argument of the step, never a fixed choice.

    * Files

    - Prelude: notation, tactics ([bool_to_Prop], [result_inv]), list and
      sorting lemmas ([Array.prototype.sort] is stable, so insertion sort
      computes it), 32-bit integers.
    - JsString, JsDate, JsMap, JsJson, Bytes: the parts of the language and of
      Node the source uses: string splitting and trimming, UTC dates and ISO
      strings, maps, JSON values, little- and big-endian integers, UTF-8.
    - Cron5 ([packages/shared-types/src/cron5.ts]): the five-field cron matcher,
      its forward expansion and backward search.
    - ScheduledTasks ([apps/workers/scheduler/src/due-occurrence.ts],
      [scheduled-task-tick.ts]): which occurrence of a task is due, and the tick
      that dispatches tasks; a client of Cron5. Its monad carries the calls made
      and the retry map; which calls throw is given by [Deps].
    - BridgeFrame ([packages/bridge-client/src/frame.ts]): length-prefixed frames
      and the chunk accumulator.
    - BridgeClient ([packages/bridge-client/src/client.ts]): the client of the
      host bridge on BridgeFrame: connection, call table, retry, timers and
      microtask queue as a machine over events, and the method wrappers.
    - RconProtocol, RconClient ([apps/workers/rcon/src/protocol.ts],
      [client.ts]): the packet codec with Squad's malformed probe reply, and the
      client that runs commands one at a time on top of it.
    - Seeding, SquadTracker, SquadHistory ([apps/workers/rcon/src]): the seeding
      state machine, the diff of squad snapshots, and the per-server history
      that turns diffs into events and mirrors creator crowns into Redis, with
      every await as a point where other events may run.
    - MapVote ([packages/shared-config/src/map-vote-selection.ts]): the choice of
      the next layer.
    - BanMerge, BanSync, BanAdapters ([apps/workers/ban-sync/src]): merging an
      external ban list into a table with its unique index, one sync with all
      its failure paths and the poll cycle with back-off, and the Bans.cfg and
      CSV readers.
    - AdminsCfg ([packages/shared-config/src/admins-config.ts]): building and
      splicing the managed segment of a server's Admins.cfg.
    - Rbac ([packages/shared-config/src/permissions.ts], [squad-permissions.ts],
      [apps/api/src/lib/rbac.ts]): the permission catalogues, the context a role
      grants, API token narrowing, the permission cache.
    - RoleAdmin ([apps/api/src/lib/role-guards.ts], [role-hierarchy.ts],
      [routes/roles.ts], the role routes of [routes/players.ts]): the handlers
      that create, edit, delete, assign and remove roles, on Rbac.
    - DepotLock ([apps/api/src/lib/depot-lock.ts]): the fleet-wide lock for depot
      updates.
    - Collections: sums over lists, sets of objects, grouping, counters kept in a
      map.
    - SeedTime, Economy ([packages/db/src/economy/accrual.ts], [vip-grant.ts],
      [apps/api/src/routes/economy.ts]): seed seconds from transitions and
      sessions, and the bonus ledger: the daily accrual as a transaction over the
      tables with their constraints, grants of timed roles, adjustments.
    - AuditChain ([apps/api/src/lib/audit-chain.ts], [routes/audit.ts], the
      append trigger of migration 0135): the hash chain over the audit log, its
      verifier and the paging route with its lock (the Redis of DepotLock).
    - VipSubscriptions ([apps/api/src/routes/vip-subscriptions.ts],
      [apps/workers/role-expirer/src/renewal.ts], [tick.ts]): purchases,
      subscriptions, renewals and the expiry of roles, on Economy; any number of
      passes interleave with the routes.
    - NetworkHost ([packages/shared-types/src/network-host.ts],
      [apps/workers/rcon/src/address-guard.ts]): address literals, the ranges
      that must not be dialled, private networks and their allowlist.
    - OutboundUrl ([packages/shared-config/src/outbound-url.ts],
      [apps/workers/ban-sync/src/fetch-source.ts]): public addresses, the static
      URL check and the ban-list download against an adversarial network.
    - BanPublish ([apps/api/src/lib/banlist-publish.ts]): the ban list the panel
      publishes, in the format BanAdapters reads.
    - OperatorCommand ([packages/shared-types/src/rcon-commands.ts],
      [apps/workers/rcon/src/commands.ts]): the requests for RCON commands and
      the line each becomes.
    - RedisTasks, RconQueue, RconReload ([commands.ts],
      [apps/api/src/lib/rcon-worker-command.ts],
      [apps/workers/config-sync/src/rcon-reload.ts]): programs that interleave
      over one Redis and one stream, the command queue of a server with its
      consumers and callers, and the confirmed reload on top of it.
    - Interleave: programs over any shared state that await calls, their
      interleavings, and rely-guarantee triples.
    - ConfigSecrets, ServerFiles, BansFile ([apps/api/src/lib/config-secrets.ts],
      [server-configs/write.ts], [bans-cfg.ts]): secrets in config files, their
      versioned writes under a lock, and taking a player out of Bans.cfg.
    - Moderation ([apps/api/src/lib/moderation-enforce.ts], [panel-guard.ts],
      [routes/moderation-actions.ts]): enforcing and reverting bans, kicks and
      warnings, as programs of Interleave on RconQueue and BansFile.
    - ConfigSync ([packages/db/src/admins-cfg-outbox.ts], [admins-cfg-sync.ts],
      [apps/workers/config-sync/src]): the outbox of Admins.cfg changes, the
      relay to the streams, the consumer, the writer on AdminsCfg and the
      confirmation through RconReload.
    - LiveSocket, LiveBus ([apps/api/src/routes/live.ts] and its libraries,
      [apps/web/src/lib/live-bus.ts]): one socket of the push channel on the
      server, and the one socket of a browser tab; LiveBus has the theorem on
      both together.
    - StreamConsumer ([apps/workers/log-ingest/src/stream-consumer.ts],
      [apps/workers/automation/src/dispatch.ts], [registry.ts]): the readers of
      event streams and the dispatch to plugins and rules.
    - Automation ([packages/shared-types/src/automation.ts],
      [automation-engine.ts], [automation-actions.ts],
      [apps/workers/automation/src/rules]): the trigger rules, their evaluation,
      cooldowns, latches and firing.
    - LogTails ([apps/workers/log-ingest/src/line-splitter.ts], [manager.ts],
      [ssh-tail.ts], [bounded-chain.ts], the assembler of [parser/vote.ts]):
      following the logs of game servers, and votes.
    - WorkerKit ([packages/worker-kit/src], [packages/shared-config/src/graceful-shutdown.ts]):
      the life of a worker, from its start to its exit.
    - RconPoller ([apps/workers/rcon/src/supervisor/server-poller.ts],
      [status-publisher.ts], [roster-parse-guard.ts], [roster.ts]): who holds a
      server's RCON client (Gate), what the panel is told (Status), and what a
      reply is worth (Roster).
    - PlayerIdentity ([apps/workers/rcon/src/persist.ts],
      [apps/workers/log-ingest/src/player-identity], [combat/store.ts],
      [apps/api/src/lib/authenticated-player.ts],
      [packages/shared-config/src/player-name.ts]): the writers of the columns
      that say who a player is, as programs of Interleave over the tables, and
      normal names.

    * What the theorems show

    - Privileges: no sequence of role requests by players who are not Owners,
      with sessions or tokens and however stale their cached contexts, gives
      anybody a capability beyond their own and the actors' initial ones; the
      panel always keeps an Owner; players above the actor are out of reach;
      tokens only narrow; [panel_access] alone grants nothing dangerous; the
      cache is bounded, fresh to 30 seconds, and an invalidation with no load in
      flight is effective. The checks before a transaction race: shown for the
      last Owner and for an invalidation during a load.
    - Scheduling: the cron searches return exactly the matching minutes of their
      window; a task is due at the latest one after its cursor; an occurrence
      is executed at most once and fails at most five times; a failing task
      does not hold up the others.
    - Protocols: decoded packets and frames do not depend on how TCP cuts the
      stream; encoded ones come back; a command resolves with exactly its own
      answer and settles once; depot updates exclude each other while holders
      renew in time, and a crash blocks them for one lifetime.
    - Bridge calls: every call settles once, with the response written for it and
      read from its own connection's bytes; only repeatable calls are sent
      twice, and at most so; closing settles all. The code [not_found] is lost,
      and [close()] does not stop a dial.
    - History: a snapshot diff reports exactly what changed; crowns in Redis
      mirror the in-memory book; nothing is emitted between the end of a match
      and the first empty refresh; seeding transitions alternate.
    - Ban lists: a merge gives every listed ban a live row and revokes the rest,
      merging again changes nothing, a poll cycle attempts exactly the due
      sources, one alert per streak of failures, written files read back.
    - Admins.cfg: the segment reads back as the grants given, so no name or
      comment injects a line; splicing keeps the rest of the file.
    - Map vote: the pick does not depend on load order and inverts the
      cumulative weights.
    - Economy: over any history of operations every balance is the sum of its
      ledger rows, not negative and within its column; an accrual replaces
      exactly the earnings of its day, is idempotent, and pays the seconds a
      server was seeding counted one by one (the sweep line equals that count).
      A second forgiveness of a day fails on the ledger's unique index.
    - Subscriptions: in any interleaving every period is charged once, no role
      that opens the panel is sold, none is taken before it expired; a renewal
      pass serves every subscription whatever happens to the others; an expiry
      pass clears exactly the roles that have run out. A pass that overlaps
      another can end a subscription the first has renewed.
    - Audit log: two logs that verify against the same recorded head agree in
      every column, or the digest collides; an edit is reported at its row; what
      the trigger writes verifies; the page size does not matter.
    - Network: on every literal the guards refuse exactly their ranges, given as
      prefixes, and the two guards agree; a download never leaves the public
      addresses, whatever the network answers, nor leaks its header to another
      origin, nor exceeds its cap or its redirects.

    - RCON commands: the line sent reads back as the request, for every accepted
      request; in any interleaving of workers and callers, with faults and
      crashes, a request id runs at most once a day, a caller told of success is
      told the answer of the game server, polling ends, and a confirmed reload
      took place for the attempt that reports it.
    - Files: in any interleaving the history never holds an RCON password or a
      license key; a write that is left alone does what it says; masked text
      that comes back from the editor restores the secret.
    - Moderation: a ban is reverted only after the player's lines are gone from
      Bans.cfg, once, and each reply says what was done, in every interleaving.
    - Delivery of Admins.cfg: no change of roles is lost; a row finished other than
      by the removal of its server was delivered, with the change it stands for
      in the file; a delivery left alone does its work.
    - Live events: a socket is sent only what its owner may see, nothing after
      its session ended, and never more than its bound waits; what a tab
      declares is what the server has subscribed; a tab with listeners keeps
      trying, except in the case of [LiveBus.idle_loss_strands].
    - Streams: an entry is acknowledged only after it was handled, whatever
      crashes; subscribers are those the manifests name.
    - Rules: a time rule rests for its cooldown whatever fails, a time window is
      exactly its minutes of the week, and history and audit rows say what was
      sent.
    - Log tails: lines do not depend on chunks; one tail per server; one session
      or one timer per tail; a host key never changes once accepted; votes are
      recorded once.
    - Polling: one read at a time holds the RCON client; no hint and no full poll
      that found it taken is lost; whatever Redis refuses, the next message that
      goes through says what is in force.
    - Players: in any interleaving on stale reads a row never holds the ids of two
      people, unique ids stay unique and an EOS id stays with its row; the upsert
      of a polled player is given exactly, split identities included.
    - Workers: the cleanup begins once, no interval is armed after a signal,
      passes do not overlap, and a begun cleanup ends in an exit.

    * Fuel and bounds

    [Cron5.search_back] takes [MAX_LOOKBACK_DAYS] steps, the source's own bound,
    and the theorem says what a [null] means; the forward expansion is bounded by
    the source's iteration limit. [RconProtocol.push] and [BridgeFrame]'s decoder
    loop with fuel one above the buffer's length, enough because every round
    consumes a byte ([drain_fuel], [decode_loop_fuel]). [BanMerge.chunk] uses the
    length of its list. [Economy.days_loop] and [AuditChain.page_loop] have fuel
    for the days of the window and the rows of the table, shown to be enough;
    [OutboundUrl.follow] recurses on the source's own redirect limit, the retries
    of [BansFile] on [MAX_BANS_CFG_ATTEMPTS]. Loops that run as long as the process does
    (queue consumers, relays, stream readers, polling for a result) take the
    number of turns as an argument: safety theorems hold for every number, and
    [RconQueue.polling_ends] shows how many the polling for a result needs.
    [PlayerIdentity.strip_loop] has fuel one above the length of the name, which
    every turn but the last shortens. Machines over events (LiveSocket, LiveBus,
    LogTails, WorkerKit, Automation, RconPoller) run over the list of their
    events. No theorem is conditional on fuel.

    * Parameters

    [localeCompare] (AdminsCfg, with the laws of a total order), jsonb storage
    and [uuidv7] (BanMerge), the general [new Date(string)] (BanAdapters), the
    database over time (Rbac), the answers of Redis and of the calls of [deps],
    SHA-256 (AuditChain, ServerFiles, LogTails), JSON text, ids and the texts of
    validator messages (BridgeClient, whose listeners do not call back; RconQueue,
    Moderation, ConfigSync), the URL parser and the platform's test for an address
    (OutboundUrl, with their documented laws), every answer of the network, the size
    of a frame (LiveSocket), the integer a JSON number is, zones, lower case and
    the classes of characters (Automation, LogTails, PlayerIdentity, which also
    takes from the game which EOS account a Steam account has).

    * Not modelled

    The other API routes, alt detection, the alert engine, the parsers of log
    lines, statistics and the remaining workers, the database schema beyond the
    tables named above, the bridge daemon and the web interface apart from its
    live bus: they are SQL, I/O, floating-point scoring, large regular
    expressions or outside the language. The handlers of RoleAdmin run one at a time except
    where a theorem says otherwise; audit snapshots and reply bodies of successful
    requests are left out. In ConfigSync a statement that fails leaves its
    transaction usable, which allows more than Postgres does. LiveBus leaves out the random
    part of the delay and the status of RCON, StreamConsumer the cleanup of streams
    of deleted servers, Automation the trim of the command stream, LogTails
    the texts of logs and diagnostics and the lines a vote is parsed from,
    WorkerKit the opening of connections, RconPoller the regular expressions of
    the parsers, the connect loop and the writes of sessions and kit time,
    PlayerIdentity the time columns and what the geo database says of an
    address. *)
From stdpp Require Export prelude strings sorting.
From Stdlib Require Export Lia.
From Stdlib Require Import Ascii.

(** * Notation *)

Declare Scope panel_scope.
Delimit Scope panel_scope with panel.
Global Open Scope Z_scope.

(** A JavaScript string is a sequence of UTF-16 code units. *)
Abbreviation jstr := (list Z) (only parsing).

(** [js "lit"] is the JavaScript string of an ASCII literal. *)
Definition js (s : string) : jstr :=
  (fun c => Z.of_N (Ascii.N_of_ascii c)) <$> String.list_ascii_of_string s.
Arguments js !s / : simpl nomatch.

(** Fallible code that throws: the error carries a tag [E]. *)
Inductive result (E A : Type) : Type :=
| Ok (a : A)
| Throw (e : E).
Arguments Ok {E A} a.
Arguments Throw {E A} e.

Definition result_bind {E A B} (r : result E A) (f : A → result E B) : result E B :=
  match r with Ok a => f a | Throw e => Throw e end.

Notation "'let!' x ':=' r 'in' k" := (result_bind r (fun x => k))
  (at level 10, x pattern, r at level 100, k at level 200) : panel_scope.
Global Open Scope panel_scope.

Definition is_ok {E A} (r : result E A) : bool :=
  match r with Ok _ => true | Throw _ => false end.

Lemma Ok_inj {E A} (a b : A) : @Ok E A a = Ok b → a = b.
Proof. by intros [= ->]. Qed.

(** * Automation *)

(** [bool_to_Prop] turns the boolean tests of the modelled code into
    propositions, in the hypotheses and the goal. *)
Ltac bool_to_Prop :=
  repeat match goal with
  | H : (_ && _)%bool = true |- _ => apply andb_true_iff in H as [??]
  | H : (_ || _)%bool = false |- _ => apply orb_false_iff in H as [??]
  | H : (_ || _)%bool = true |- _ => apply orb_true_iff in H
  | H : (_ && _)%bool = false |- _ => apply andb_false_iff in H
  | H : negb _ = true |- _ => apply negb_true_iff in H
  | H : negb _ = false |- _ => apply negb_false_iff in H
  | H : (_ =? _) = true |- _ => apply Z.eqb_eq in H
  | H : (_ =? _) = false |- _ => apply Z.eqb_neq in H
  | H : (_ <? _) = true |- _ => apply Z.ltb_lt in H
  | H : (_ <? _) = false |- _ => apply Z.ltb_ge in H
  | H : (_ <=? _) = true |- _ => apply Z.leb_le in H
  | H : (_ <=? _) = false |- _ => apply Z.leb_gt in H
  | H : (_ >=? _) = _ |- _ => rewrite Z.geb_leb in H
  | H : (_ >? _) = _ |- _ => rewrite Z.gtb_ltb in H
  | H : bool_decide _ = true |- _ => apply bool_decide_eq_true in H
  | H : bool_decide _ = false |- _ => apply bool_decide_eq_false in H
  end.

(** [split_ifs] case-splits every [if] and [match] of the goal. *)
Ltac split_ifs :=
  repeat (case_match; bool_to_Prop; simplify_eq/=).

(** [result_inv H] takes apart a chain of [let!] that ended in [Ok]. *)
Ltac result_inv H :=
  repeat match type of H with
  | result_bind ?r _ = Ok _ =>
      let E := fresh "E" in destruct r eqn:E; cbn [result_bind] in H; [|discriminate H]
  end.

Create HintDb panel.
#[export] Hint Constants Opaque : panel.
Create Rewrite HintDb panel.

(** * Lists *)

Section Lists.
Context {A : Type}.
Implicit Types (l : list A) (x y : A) (f : A → bool).

(** [Array.prototype.filter] with a boolean predicate. *)
Definition jfilter f l : list A := List.filter f l.

Lemma elem_of_jfilter f l x : x ∈ jfilter f l ↔ f x = true ∧ x ∈ l.
Proof. unfold jfilter. rewrite !list_elem_of_In, filter_In. tauto. Qed.

Lemma jfilter_app f l k : jfilter f (l ++ k) = jfilter f l ++ jfilter f k.
Proof. apply List.filter_app. Qed.

Lemma jfilter_all f l : (∀ x, x ∈ l → f x = true) → jfilter f l = l.
Proof.
  induction l as [|x l IH]; intros H; [done|]; simpl.
  rewrite H by left. f_equal. apply IH. intros y Hy. apply H. by right.
Qed.

Lemma jfilter_none f l : (∀ x, x ∈ l → f x = false) → jfilter f l = [].
Proof.
  induction l as [|x l IH]; intros H; [done|]; simpl.
  rewrite H by left. apply IH. intros y Hy. apply H. by right.
Qed.

Lemma jfilter_sublist f l : jfilter f l `sublist_of` l.
Proof. induction l; simpl; [done|]. case_match; by constructor. Qed.

Lemma jfilter_perm f l k : l ≡ₚ k → jfilter f l ≡ₚ jfilter f k.
Proof.
  induction 1 as [|x l k _ IH|x y l|l k m _ IH1 _ IH2]; unfold jfilter in *; simpl; [done| | |].
  - destruct (f x); by rewrite IH.
  - destruct (f x), (f y); [apply Permutation_swap|done..].
  - by rewrite IH1.
Qed.

(** [Array.prototype.findIndex], as an option. *)
Fixpoint find_index f l : option nat :=
  match l with
  | [] => None
  | x :: l => if f x then Some 0%nat else S <$> find_index f l
  end.

Lemma find_index_None f l : find_index f l = None ↔ ∀ x, x ∈ l → f x = false.
Proof.
  induction l as [|x l IH]; simpl; [set_solver|].
  destruct (f x) eqn:E.
  - split; [done|]. intros H. specialize (H x). rewrite H in E; [done|by left].
  - rewrite fmap_None, IH. set_solver.
Qed.

Lemma find_index_Some f l i :
  find_index f l = Some i ↔
  (∃ x, l !! i = Some x ∧ f x = true) ∧ ∀ j y, (j < i)%nat → l !! j = Some y → f y = false.
Proof.
  revert i. induction l as [|x l IH]; intros i; simpl; [set_solver|].
  destruct (f x) eqn:E.
  - split; [intros [= <-]; split; [eauto|lia]|].
    intros [_ H]. destruct i as [|i]; [done|]. specialize (H 0%nat x).
    rewrite H in E; [done|lia|done].
  - rewrite fmap_Some. split.
    + intros (k & (Hx & Hlt)%IH & ->). split; [done|].
      intros [|j] y Hj Hy; simplify_eq/=; [done|]. apply (Hlt j); [lia|done].
    + destruct i as [|i]; intros [(y & Hy & Hf) Hlt]; simplify_eq/=; [congruence|].
      exists i. split; [|done]. apply IH. split; [eauto|].
      intros j z Hj Hz. apply (Hlt (S j)); [lia|done].
Qed.
End Lists.

#[export] Hint Rewrite @jfilter_app : panel.

(** Distinctness carries from [g] to a finer [f]. *)
Lemma NoDup_fmap_elem {A B C} (f : A → B) (g : A → C) (l : list A) :
  (∀ x y, x ∈ l → y ∈ l → f x = f y → g x = g y) → NoDup (g <$> l) → NoDup (f <$> l).
Proof.
  induction l as [|x l IH]; intros Hfg; [constructor|]. rewrite !fmap_cons, !NoDup_cons. intros [Hx Hl].
  split; [|apply IH; [|done]; intros y z Hy Hz; apply Hfg; by right].
  intros (y & Hy & Hin)%list_elem_of_fmap. apply Hx, list_elem_of_fmap. exists y. split; [|done].
  apply Hfg; [by left|by right|done].
Qed.

Lemma NoDup_fmap_inj_elem {A B} (f : A → B) (l : list A) x y :
  NoDup (f <$> l) → x ∈ l → y ∈ l → f x = f y → x = y.
Proof.
  intros Hnd [i Hi]%list_elem_of_lookup [j Hj]%list_elem_of_lookup Hf.
  assert (i = j) as ->; [|congruence].
  eapply NoDup_lookup; [exact Hnd|by rewrite list_lookup_fmap, Hi|by rewrite list_lookup_fmap, Hj, Hf].
Qed.

(** * Sorted lists *)

Lemma StronglySorted_impl {A} (R S : A → A → Prop) l :
  (∀ x y, R x y → S x y) → StronglySorted R l → StronglySorted S l.
Proof. intros HRS. induction 1; constructor; [done|]. eapply Forall_impl; eauto. Qed.

Lemma StronglySorted_strict {A} (R : A → A → Prop) l :
  NoDup l → StronglySorted R l → StronglySorted (fun x y => R x y ∧ x ≠ y) l.
Proof.
  intros Hnd. induction 1 as [|x l Hl IH Hx]; [constructor|].
  apply NoDup_cons in Hnd as [Hn Hnd]. constructor; [by apply IH|].
  rewrite Forall_forall in Hx |- *. intros y Hy. split; [by apply Hx|]. by intros ->.
Qed.

Lemma StronglySorted_reverse {A} (R : A → A → Prop) l :
  StronglySorted R l → StronglySorted (flip R) (reverse l).
Proof.
  induction 1 as [|x l Hl IH Hx]; [constructor|].
  rewrite reverse_cons. apply StronglySorted_app. split; [|split; [done|by repeat constructor]].
  intros y z Hy Hz. apply list_elem_of_singleton in Hz as ->. rewrite elem_of_reverse in Hy.
  rewrite Forall_forall in Hx. by apply Hx.
Qed.

Lemma StronglySorted_jfilter {A} (R : A → A → Prop) (p : A → bool) l : StronglySorted R l → StronglySorted R (jfilter p l).
Proof.
  induction 1 as [|x l Hl IH Hx]; simpl; [constructor|]. case_match; [|done]. constructor; [done|].
  rewrite Forall_forall in Hx |- *. intros y [_ Hy]%elem_of_jfilter. by apply Hx.
Qed.

Lemma StronglySorted_fmap {A B} (R : A → A → Prop) (S : B → B → Prop) (f : A → B) l :
  (∀ x y, R x y → S (f x) (f y)) → StronglySorted R l → StronglySorted S (f <$> l).
Proof. intros HRS. induction 1; [constructor|]. rewrite fmap_cons. constructor; [done|]. apply Forall_fmap. eapply Forall_impl; [done|]. intros. by apply HRS. Qed.

(** * Stable sorting ([Array.prototype.sort] with a comparator) *)

Section Sort.
Context {A : Type} (cmp : A → A → Z).
Implicit Types (l : list A) (x y : A).

(** The comparator's order: [x] may stand before [y]. *)
Definition cmp_le x y : Prop := cmp x y ≤ 0.

Fixpoint sort_insert x l : list A :=
  match l with
  | [] => [x]
  | y :: l' => if cmp x y <=? 0 then x :: y :: l' else y :: sort_insert x l'
  end.

(** ECMAScript requires the sort to be stable, so for a consistent comparator
    the result is determined; insertion sort computes it. *)
Definition jsort l : list A := foldr sort_insert [] l.

Lemma sort_insert_perm x l : sort_insert x l ≡ₚ x :: l.
Proof.
  induction l as [|y l IH]; simpl; [done|]. case_match; [done|].
  rewrite IH. by constructor.
Qed.

Lemma jsort_perm l : jsort l ≡ₚ l.
Proof.
  induction l as [|x l IH]; simpl; [done|]. by rewrite sort_insert_perm, IH.
Qed.

Lemma elem_of_jsort l x : x ∈ jsort l ↔ x ∈ l.
Proof. by rewrite jsort_perm. Qed.

Lemma length_jsort l : length (jsort l) = length l.
Proof. by rewrite jsort_perm. Qed.

Context (cmp_total : ∀ x y, cmp_le x y ∨ cmp_le y x).
Context (cmp_trans : ∀ x y z, cmp_le x y → cmp_le y z → cmp_le x z).

Lemma sort_insert_sorted x l :
  StronglySorted cmp_le l → StronglySorted cmp_le (sort_insert x l).
Proof.
  induction 1 as [|y l Hl IH Hy]; simpl; [by repeat constructor|].
  destruct (cmp x y <=? 0) eqn:E; bool_to_Prop.
  - constructor; [by constructor|]. constructor; [done|].
    eapply Forall_impl; [done|]. intros z Hz. by eapply cmp_trans.
  - constructor; [done|]. rewrite sort_insert_perm. constructor; [|done].
    destruct (cmp_total x y); [unfold cmp_le in *; lia|done].
Qed.

Lemma jsort_sorted l : StronglySorted cmp_le (jsort l).
Proof. induction l; simpl; [constructor|]. by apply sort_insert_sorted. Qed.

Lemma jsort_id l : StronglySorted cmp_le l → jsort l = l.
Proof.
  induction 1 as [|y l Hl IH Hy]; simpl; [done|]. rewrite IH.
  destruct l as [|z l]; simpl; [done|].
  inversion Hy as [|?? Hz]; subst. unfold cmp_le in Hz.
  by rewrite (proj2 (Z.leb_le _ _) Hz).
Qed.

Lemma jsort_idemp l : jsort (jsort l) = jsort l.
Proof. apply jsort_id, jsort_sorted. Qed.

(** When equal-ranked elements are equal, the order of the input is
    irrelevant: permutations sort to the same list. *)
Lemma jsort_permutation l k :
  (∀ x y, x ∈ l → y ∈ l → cmp_le x y → cmp_le y x → x = y) →
  l ≡ₚ k → jsort l = jsort k.
Proof.
  intros Hanti Hp.
  assert (jsort l ≡ₚ jsort k) as Hq by by rewrite !jsort_perm.
  pose proof (jsort_sorted l) as Hl. pose proof (jsort_sorted k) as Hk.
  assert (∀ x y, x ∈ jsort l → y ∈ jsort l → cmp_le x y → cmp_le y x → x = y) as Ha.
  { intros x y. rewrite !elem_of_jsort. apply Hanti. }
  clear Hanti Hp. revert Hq Hl Hk Ha.
  generalize (jsort l) (jsort k); clear. intros l.
  induction l as [|x l IH]; intros k Hp Hl Hk Ha.
  { by apply Permutation_nil_l in Hp as ->. }
  destruct k as [|y k]; [by apply Permutation_nil_r in Hp|].
  inversion_clear Hl as [|?? Hl' Hx]. inversion_clear Hk as [|?? Hk' Hy].
  assert (x = y) as ->.
  { assert (x ∈ y :: k) as [?|Hxk]%elem_of_cons by (rewrite <-Hp; by left); [done|].
    assert (y ∈ x :: l) as [?|Hyl]%elem_of_cons by (rewrite Hp; by left); [done|].
    rewrite Forall_forall in Hx, Hy.
    apply Ha; [by left|by right|by apply Hx|by apply Hy]. }
  apply Permutation_cons_inv in Hp. f_equal. apply IH; [done..|].
  intros a b ??. apply Ha; by right.
Qed.
End Sort.

(** * Machine integers of JavaScript's bitwise operators *)

Definition to_uint32 (x : Z) : Z := x mod 2 ^ 32.
Definition to_int32 (x : Z) : Z :=
  let u := to_uint32 x in if u <? 2 ^ 31 then u else u - 2 ^ 32.
(** [Math.imul], [^], [|], [>>>] and [+ ... | 0]. *)
Definition imul (x y : Z) : Z := to_int32 (x * y).
Definition jxor (x y : Z) : Z := to_int32 (Z.lxor (to_uint32 x) (to_uint32 y)).
Definition jor (x y : Z) : Z := to_int32 (Z.lor (to_uint32 x) (to_uint32 y)).
Definition jshru (x n : Z) : Z := Z.shiftr (to_uint32 x) n.

Lemma to_uint32_range x : 0 ≤ to_uint32 x < 2 ^ 32.
Proof. apply Z.mod_pos_bound. lia. Qed.

Lemma to_int32_range x : - 2 ^ 31 ≤ to_int32 x < 2 ^ 31.
Proof. unfold to_int32. pose proof (to_uint32_range x). case_match; bool_to_Prop; lia. Qed.

#[export] Hint Resolve to_uint32_range to_int32_range : panel.
