(* ===== verification/JsString.v ===== *)
(** JavaScript strings as sequences of UTF-16 code units: the part of
    [String.prototype] and of the regular-expression classes the modelled code
    uses, as executable functions on [list Z]. *)
From S2P Require Import Prelude.

(** * Character classes *)

(** [\d]. *)
Definition is_digit (c : Z) : bool := (48 <=? c) && (c <=? 57).

(** White space and line terminators: [\s] and what [trim] strips. *)
Definition is_space (c : Z) : bool :=
  bool_decide (c ∈ [9; 10; 11; 12; 13; 32; 160; 5760; 8232; 8233; 8239; 8287; 12288; 65279])
  || ((8192 <=? c) && (c <=? 8202)).

(** [\p{Cc}]: C0 controls, DEL and C1 controls. *)
Definition is_control (c : Z) : bool :=
  ((0 <=? c) && (c <=? 31)) || ((127 <=? c) && (c <=? 159)).

(** * Slicing, comparing *)

Definition starts_with (p s : jstr) : bool := bool_decide (p `prefix_of` s).

(** [a < b] on strings: lexicographic on code units. *)
Fixpoint str_lt (a b : jstr) : bool :=
  match a, b with
  | [], _ :: _ => true
  | x :: a, y :: b => (x <? y) || ((x =? y) && str_lt a b)
  | _, _ => false
  end.

(** The comparator [(a, b) => a < b ? -1 : a > b ? 1 : 0], also the default
    order of [sort()] on strings. *)
Definition str_cmp (a b : jstr) : Z :=
  if str_lt a b then -1 else if str_lt b a then 1 else 0.

Lemma str_lt_irrefl a : str_lt a a = false.
Proof. induction a as [|x a IH]; simpl; [done|]. by rewrite Z.ltb_irrefl, Z.eqb_refl, IH. Qed.

Lemma str_lt_trans a b c : str_lt a b = true → str_lt b c = true → str_lt a c = true.
Proof.
  revert b c. induction a as [|x a IH]; intros [|y b] [|z c]; simpl; try done.
  intros H1 H2. apply orb_true_iff.
  apply orb_true_iff in H1 as [?|[??]%andb_true_iff];
    apply orb_true_iff in H2 as [?|[??]%andb_true_iff]; bool_to_Prop.
  - left. lia.
  - left. lia.
  - left. lia.
  - right. apply andb_true_iff. split; [lia|]. by eapply IH.
Qed.

Lemma str_lt_total a b : str_lt a b = false → str_lt b a = false → a = b.
Proof.
  revert b. induction a as [|x a IH]; intros [|y b]; simpl; try done.
  intros [Hx H1]%orb_false_iff [Hy H2]%orb_false_iff.
  apply Z.ltb_ge in Hx, Hy. assert (x = y) as -> by lia.
  rewrite Z.eqb_refl in H1, H2. simpl in *. f_equal. by apply IH.
Qed.

Lemma str_cmp_le a b : str_cmp a b ≤ 0 ↔ str_lt b a = false.
Proof.
  unfold str_cmp. destruct (str_lt a b) eqn:E1, (str_lt b a) eqn:E2.
  - pose proof (str_lt_trans _ _ _ E1 E2) as H. rewrite str_lt_irrefl in H. done.
  - split; [done|lia].
  - split; [lia|done].
  - split; [done|lia].
Qed.

Lemma str_cmp_total a b : cmp_le str_cmp a b ∨ cmp_le str_cmp b a.
Proof.
  unfold cmp_le. rewrite !str_cmp_le. destruct (str_lt b a) eqn:E1; [|by left].
  right. destruct (str_lt a b) eqn:E2; [|done].
  pose proof (str_lt_trans _ _ _ E1 E2) as H. by rewrite str_lt_irrefl in H.
Qed.

Lemma str_cmp_trans a b c : cmp_le str_cmp a b → cmp_le str_cmp b c → cmp_le str_cmp a c.
Proof.
  unfold cmp_le. rewrite !str_cmp_le. intros H1 H2.
  destruct (str_lt c a) eqn:E; [|done].
  destruct (str_lt a b) eqn:E1.
  - rewrite (str_lt_trans _ _ _ E E1) in H2. done.
  - rewrite (str_lt_total _ _ E1 H1) in E. congruence.
Qed.

Lemma str_cmp_antisym a b : cmp_le str_cmp a b → cmp_le str_cmp b a → a = b.
Proof. unfold cmp_le. rewrite !str_cmp_le. intros. by apply str_lt_total. Qed.

Lemma str_cmp_refl a : cmp_le str_cmp a a.
Proof. unfold cmp_le. rewrite str_cmp_le. apply str_lt_irrefl. Qed.

(** * Searching *)

(** [s.indexOf(p)] as an option: the first position where [p] occurs. *)
Fixpoint index_of (p s : jstr) : option nat :=
  if starts_with p s then Some 0%nat else
  match s with
  | [] => None
  | _ :: s => S <$> index_of p s
  end.

Lemma index_of_Some p s i :
  index_of p s = Some i ↔
  p `prefix_of` drop i s ∧ ∀ j, (j < i)%nat → ¬ p `prefix_of` drop j s.
Proof.
  revert i. induction s as [|c s IH]; intros i; simpl; unfold starts_with; case_bool_decide as E.
  - split; [intros [= <-]; split; [done|lia]|].
    intros [_ H]. destruct i as [|i]; [done|]. destruct (H 0%nat); [lia|done].
  - split; [done|]. intros [H _]. destruct E. by rewrite drop_nil in H.
  - split; [intros [= <-]; split; [done|lia]|].
    intros [_ H]. destruct i as [|i]; [done|]. destruct (H 0%nat); [lia|done].
  - rewrite fmap_Some. split.
    + intros (k & [Hp Hlt]%IH & ->). split; [done|].
      intros [|j] Hj; simpl; [done|]. apply Hlt. lia.
    + intros [Hp Hlt]. destruct i as [|i]; [done|]. exists i. split; [|done].
      apply IH. split; [done|]. intros j Hj. apply (Hlt (S j)). lia.
Qed.

Lemma index_of_None p s :
  index_of p s = None ↔ ∀ j, ¬ p `prefix_of` drop j s.
Proof.
  induction s as [|c s IH]; simpl; unfold starts_with; case_bool_decide as E.
  - split; [done|]. intros H. by destruct (H 0%nat).
  - split; [|done]. intros _ j. by rewrite drop_nil.
  - split; [done|]. intros H. by destruct (H 0%nat).
  - rewrite fmap_None, IH. split.
    + intros H [|j]; simpl; [done|]. apply H.
    + intros H j. apply (H (S j)).
Qed.

(** [s.includes(p)]. *)
Definition includes (p s : jstr) : bool := bool_decide (is_Some (index_of p s)).

(** * Trimming, splitting, joining *)

Fixpoint trim_start (s : jstr) : jstr :=
  match s with
  | c :: s' => if is_space c then trim_start s' else s
  | [] => []
  end.
Definition trim_end (s : jstr) : jstr := reverse (trim_start (reverse s)).
Definition trim (s : jstr) : jstr := trim_end (trim_start s).

(** [s.split(c)] for a one-character separator; never empty. *)
Fixpoint split_on (sep : Z) (s : jstr) : list jstr :=
  match s with
  | [] => [[]]
  | c :: s =>
      if c =? sep then [] :: split_on sep s
      else match split_on sep s with
           | w :: ws => (c :: w) :: ws
           | [] => [[c]]
           end
  end.

(** [s.split(/\s+/)]: [in_run] says the last character was white space. *)
Fixpoint split_ws (in_run : bool) (cur s : jstr) : list jstr :=
  match s with
  | [] => [reverse cur]
  | c :: s =>
      if is_space c
      then if in_run then split_ws true cur s else reverse cur :: split_ws true [] s
      else split_ws false (c :: cur) s
  end.

(** [parts.join(sep)]. *)
Fixpoint join (sep : jstr) (parts : list jstr) : jstr :=
  match parts with
  | [] => []
  | [p] => p
  | p :: ps => p ++ sep ++ join sep ps
  end.

Lemma split_on_nonempty sep s : split_on sep s ≠ [].
Proof. destruct s; simpl; [done|]. case_match; [done|]. by case_match. Qed.

Lemma join_split_on sep s : join [sep] (split_on sep s) = s.
Proof.
  induction s as [|c s IH]; simpl; [done|].
  pose proof (split_on_nonempty sep s) as Hne.
  destruct (c =? sep) eqn:E; bool_to_Prop.
  - subst. destruct (split_on sep s) as [|w ws] eqn:Es; [done|]. simpl in *. by rewrite IH.
  - destruct (split_on sep s) as [|w ws] eqn:Es; [done|]. simpl in *.
    destruct ws; simpl in *; by rewrite <-IH.
Qed.

(** * Decimal numerals *)

(** [/^\d+$/.test(s)]. *)
Definition all_digits (s : jstr) : bool := negb (bool_decide (s = [])) && forallb is_digit s.

(** [Number(s)] of a string of decimal digits. *)
Definition digits_value (s : jstr) : Z := foldl (fun acc c => acc * 10 + (c - 48)) 0 s.

Lemma digits_value_acc s acc :
  foldl (fun a c => a * 10 + (c - 48)) acc s = acc * 10 ^ Z.of_nat (length s) + digits_value s.
Proof.
  revert acc. unfold digits_value. induction s as [|c s IH]; intros acc; cbn [foldl length]; [lia|].
  rewrite (IH (acc * 10 + (c - 48))), (IH (0 * 10 + (c - 48))).
  replace (Z.of_nat (S (length s))) with (Z.of_nat (length s) + 1) by lia.
  rewrite Z.pow_add_r by lia. ring.
Qed.

Lemma digits_value_nonneg s : forallb is_digit s = true → 0 ≤ digits_value s.
Proof.
  induction s as [|c s IH]; intros H; [done|]. cbn [forallb] in H.
  apply andb_true_iff in H as [Hc Hs]. unfold digits_value. cbn [foldl].
  rewrite digits_value_acc. unfold is_digit in Hc. bool_to_Prop.
  specialize (IH Hs). pose proof (Z.pow_nonneg 10 (Z.of_nat (length s))). nia.
Qed.

(** [String(n)] of a natural number. *)
Fixpoint digits_fuel (fuel : nat) (n : Z) : jstr :=
  match fuel with
  | O => []
  | S fuel => (if n <? 10 then [] else digits_fuel fuel (n / 10)) ++ [48 + n mod 10]
  end.
Definition nat_str (n : Z) : jstr := digits_fuel (S (Z.to_nat (Z.log2 n))) n.

Lemma digits_fuel_value fuel n :
  0 ≤ n < 2 ^ Z.of_nat fuel → digits_value (digits_fuel fuel n) = n ∧ forallb is_digit (digits_fuel fuel n) = true.
Proof.
  revert n. induction fuel as [|fuel IH]; intros n Hn.
  { simpl in Hn. assert (n = 0) as -> by lia. done. }
  cbn [digits_fuel]. pose proof (Z.mod_pos_bound n 10 ltac:(lia)) as Hm.
  pose proof (Z.div_mod n 10 ltac:(lia)) as Hd.
  assert (is_digit (48 + n mod 10) = true) as Hdig.
  { unfold is_digit. apply andb_true_iff. split; lia. }
  rewrite forallb_app. cbn [forallb]. rewrite Hdig.
  unfold digits_value. rewrite foldl_app. cbn [foldl].
  fold (digits_value (if n <? 10 then [] else digits_fuel fuel (n / 10))).
  destruct (n <? 10) eqn:E; bool_to_Prop.
  - split; [|done]. unfold digits_value. cbn [foldl]. rewrite Z.mod_small; lia.
  - destruct (IH (n / 10)) as [-> ->].
    { replace (Z.of_nat (S fuel)) with (Z.of_nat fuel + 1) in Hn by lia.
      rewrite Z.pow_add_r in Hn by lia. split; [apply Z.div_pos; lia|].
      apply Z.div_lt_upper_bound; lia. }
    split; [lia|done].
Qed.

Lemma nat_str_spec n : 0 ≤ n → digits_value (nat_str n) = n ∧ forallb is_digit (nat_str n) = true.
Proof.
  intros Hn. apply digits_fuel_value. split; [done|].
  destruct (decide (n = 0)) as [->|]; [done|].
  replace (Z.of_nat _) with (Z.succ (Z.log2 n)).
  - apply Z.log2_spec. lia.
  - pose proof (Z.log2_nonneg n). lia.
Qed.

Lemma nat_str_inj n m : 0 ≤ n → 0 ≤ m → nat_str n = nat_str m → n = m.
Proof.
  intros Hn Hm H. rewrite <-(proj1 (nat_str_spec n Hn)), <-(proj1 (nat_str_spec m Hm)). by rewrite H.
Qed.

(** [String(n)] of an integer. *)
Definition int_str (n : Z) : jstr := if n <? 0 then 45 :: nat_str (- n) else nat_str n.

Lemma nat_str_chars n c : 0 ≤ n → c ∈ nat_str n → 48 ≤ c ≤ 57.
Proof.
  intros Hn Hc. destruct (nat_str_spec n Hn) as [_ H]. rewrite forallb_forall in H.
  apply list_elem_of_In, H in Hc. unfold is_digit in Hc. bool_to_Prop. lia.
Qed.

Lemma int_str_chars n c : c ∈ int_str n → c = 45 ∨ 48 ≤ c ≤ 57.
Proof.
  unfold int_str. case_match; bool_to_Prop.
  - intros [->|Hc]%elem_of_cons; [by left|]. right. eapply nat_str_chars; [|done]. lia.
  - intros Hc. right. by eapply nat_str_chars.
Qed.

Lemma int_str_inj n m : int_str n = int_str m → n = m.
Proof.
  unfold int_str. destruct (n <? 0) eqn:E1, (m <? 0) eqn:E2; bool_to_Prop.
  - intros [= H]. apply nat_str_inj in H; lia.
  - intros H. assert (45 ∈ nat_str m) as Hc by (rewrite <-H; by left).
    apply nat_str_chars in Hc; lia.
  - intros H. assert (45 ∈ nat_str n) as Hc by (rewrite H; by left).
    apply nat_str_chars in Hc; lia.
  - intros H. by apply nat_str_inj.
Qed.

(** A separator that does not occur in the first field splits uniquely. *)
Lemma separator_inj (sep : Z) a b a' b' :
  sep ∉ a → sep ∉ a' → a ++ sep :: b = a' ++ sep :: b' → a = a' ∧ b = b'.
Proof.
  revert a'. induction a as [|x a IH]; intros [|x' a']; simpl; intros Ha Ha' H; simplify_eq.
  - done.
  - destruct Ha'. by left.
  - destruct Ha. by left.
  - destruct (IH a') as [-> ->]; set_solver.
Qed.

(** * Lines *)

Definition strip_cr (s : jstr) : jstr :=
  match last s with Some 13 => removelast s | _ => s end.

(** [text.split(/\r?\n/)]: the last piece keeps a trailing CR. *)
Fixpoint strip_crs (ps : list jstr) : list jstr :=
  match ps with
  | [] => []
  | [p] => [p]
  | p :: ps => strip_cr p :: strip_crs ps
  end.
Definition split_lines (text : jstr) : list jstr := strip_crs (split_on 10 text).

Lemma split_on_no_sep sep s : sep ∉ s → split_on sep s = [s].
Proof.
  induction s as [|c s IH]; intros Hs; [done|]. cbn [split_on].
  rewrite (proj2 (Z.eqb_neq _ _)) by set_solver. by rewrite IH by set_solver.
Qed.

Lemma split_on_app sep s rest : sep ∉ s → split_on sep (s ++ sep :: rest) = s :: split_on sep rest.
Proof.
  induction s as [|c s IH]; intros Hs; cbn [app split_on].
  - by rewrite Z.eqb_refl.
  - rewrite (proj2 (Z.eqb_neq _ _)) by set_solver. by rewrite IH by set_solver.
Qed.

(** The lines of a text, each ended by [eol] (LF or CRLF). *)
Definition write_lines (eol : jstr) (ls : list jstr) : jstr := concat ((fun l => l ++ eol) <$> ls).

Lemma split_lines_write eol ls : eol = [10] ∨ eol = [13; 10] →
  Forall (fun l => 10 ∉ l ∧ last l ≠ Some 13) ls → split_lines (write_lines eol ls) = ls ++ [[]].
Proof.
  intros Heol. unfold split_lines, write_lines. induction 1 as [|l ls [Hl Hlast] _ IH]; [done|].
  rewrite fmap_cons. cbn [concat]. rewrite <-app_assoc.
  set (rest := concat _) in *.
  assert (∃ p ps, split_on 10 rest = p :: ps) as (p & ps & Hrest).
  { pose proof (split_on_nonempty 10 rest). destruct (split_on 10 rest); [done|eauto]. }
  rewrite Hrest in IH. destruct Heol as [-> | ->].
  - change ([10] ++ rest) with (10 :: rest). rewrite split_on_app, Hrest by done.
    change (strip_crs (l :: p :: ps)) with (strip_cr l :: strip_crs (p :: ps)). rewrite IH.
    cbn [app]. f_equal. unfold strip_cr. destruct (last l) as [c|]; [|done].
    destruct (decide (c = 13)) as [->|]; [done|]. repeat (case_match; try done).
  - replace (l ++ [13; 10] ++ rest) with ((l ++ [13]) ++ 10 :: rest) by by rewrite <-app_assoc.
    rewrite split_on_app, Hrest by set_solver.
    change (strip_crs ((l ++ [13]) :: p :: ps)) with (strip_cr (l ++ [13]) :: strip_crs (p :: ps)). rewrite IH.
    cbn [app]. f_equal. unfold strip_cr. by rewrite last_snoc, removelast_last.
Qed.

Lemma split_lines_join ls : ls ≠ [] → Forall (fun l => 10 ∉ l ∧ last l ≠ Some 13) ls →
  split_lines (join [13; 10] ls) = ls.
Proof.
  unfold split_lines. intros Hne. induction 1 as [|l ls [Hl Hlast] Hls IH]; [done|].
  destruct ls as [|l' ls]; [cbn [join]; by rewrite split_on_no_sep|].
  replace (join [13; 10] (l :: l' :: ls)) with ((l ++ [13]) ++ 10 :: join [13; 10] (l' :: ls)) by by rewrite <-app_assoc.
  rewrite split_on_app by set_solver. specialize (IH ltac:(done)).
  pose proof (split_on_nonempty 10 (join [13; 10] (l' :: ls))) as Hn.
  destruct (split_on 10 (join [13; 10] (l' :: ls))) as [|p ps]; [done|].
  change (strip_crs ((l ++ [13]) :: p :: ps)) with (strip_cr (l ++ [13]) :: strip_crs (p :: ps)). rewrite IH.
  f_equal. unfold strip_cr. by rewrite last_snoc, removelast_last.
Qed.

Lemma split_on_join sep ps : ps ≠ [] → Forall (fun p => sep ∉ p) ps → split_on sep (join [sep] ps) = ps.
Proof.
  intros Hne. induction 1 as [|p ps Hp Hps IH]; [done|].
  destruct ps as [|p' ps]; [cbn [join]; by apply split_on_no_sep|].
  change (join [sep] (p :: p' :: ps)) with (p ++ sep :: join [sep] (p' :: ps)).
  rewrite split_on_app by done. by rewrite IH.
Qed.

(** The text before and after the first [c]. *)
Fixpoint cut_at (c : Z) (s : jstr) : option (jstr * jstr) :=
  match s with
  | [] => None
  | x :: s => if x =? c then Some ([], s) else (fun ab => (x :: ab.1, ab.2)) <$> cut_at c s
  end.

Lemma cut_at_app c a b : c ∉ a → cut_at c (a ++ c :: b) = Some (a, b).
Proof.
  induction a as [|x a IH]; intros Ha; cbn [app cut_at]; [by rewrite Z.eqb_refl|].
  rewrite (proj2 (Z.eqb_neq x c)) by set_solver. by rewrite IH by set_solver.
Qed.

Lemma cut_at_None c a : c ∉ a → cut_at c a = None.
Proof.
  induction a as [|x a IH]; intros Ha; cbn [cut_at]; [done|].
  rewrite (proj2 (Z.eqb_neq x c)) by set_solver. by rewrite IH by set_solver.
Qed.

(** Trimming cuts at both ends. *)
Lemma trim_start_suffix s : ∃ p, s = p ++ trim_start s.
Proof.
  induction s as [|c s [p IH]]; [by exists []|]. simpl. destruct (is_space c); [|by exists []].
  exists (c :: p). simpl. by rewrite <-IH.
Qed.

Lemma trim_infix s : ∃ p q, s = p ++ trim s ++ q.
Proof.
  destruct (trim_start_suffix s) as [p Hp]. destruct (trim_start_suffix (reverse (trim_start s))) as [q Hq].
  exists p, (reverse q). rewrite Hp at 1. f_equal. unfold trim, trim_end.
  rewrite <-(reverse_involutive (trim_start s)) at 1. rewrite Hq at 1. by rewrite reverse_app.
Qed.
