(* ===== verification/JsDate.v ===== *)
(** ECMAScript [Date] in UTC: a time value is a number of milliseconds since
    the epoch, and the getters and setters are those of ECMA-262 (21.4.1,
    21.4.4), with its day, month and year functions on day numbers. *)
From S2P Require Import Prelude JsString.

Definition ms_per_minute : Z := 60000.
Definition ms_per_hour : Z := 3600000.
Definition ms_per_day : Z := 86400000.

(** Day number and time within the day. *)
Definition day_of (t : Z) : Z := t / ms_per_day.
Definition time_within_day (t : Z) : Z := t mod ms_per_day.

Definition get_utc_hours (t : Z) : Z := time_within_day t / ms_per_hour.
Definition get_utc_minutes (t : Z) : Z := (time_within_day t / ms_per_minute) mod 60.
Definition get_utc_seconds (t : Z) : Z := (time_within_day t / 1000) mod 60.
Definition get_utc_ms (t : Z) : Z := time_within_day t mod 1000.
Definition get_utc_day (t : Z) : Z := (day_of t + 4) mod 7.

(** Day number of 1 January of year [y] (ECMA-262 [DayFromYear]). *)
Definition day_from_year (y : Z) : Z :=
  365 * (y - 1970) + (y - 1969) / 4 - (y - 1901) / 100 + (y - 1601) / 400.

Definition days_in_year (y : Z) : Z := day_from_year (y + 1) - day_from_year y.
Definition leap (y : Z) : Z := days_in_year y - 365.

(** The largest year that starts at or before day [d], from the mean length of
    a Gregorian year (146097 days in 400 years). *)
Definition year_from_day (d : Z) : Z :=
  let y := 1970 + (400 * d) / 146097 in
  if d <? day_from_year y then y - 1
  else if day_from_year (y + 1) <=? d then y + 1 else y.

Definition day_within_year (d : Z) : Z := d - day_from_year (year_from_day d).

(** First day of month [m] (0 = January) in a year with [l] leap days. *)
Definition month_start (l m : Z) : Z :=
  nth (Z.to_nat m) [0; 31; 59 + l; 90 + l; 120 + l; 151 + l; 181 + l; 212 + l; 243 + l;
                    273 + l; 304 + l; 334 + l] 0.

Definition month_from_day (d : Z) : Z :=
  let l := leap (year_from_day d) in
  let n := day_within_year d in
  if n <? 31 then 0 else if n <? 59 + l then 1 else if n <? 90 + l then 2
  else if n <? 120 + l then 3 else if n <? 151 + l then 4 else if n <? 181 + l then 5
  else if n <? 212 + l then 6 else if n <? 243 + l then 7 else if n <? 273 + l then 8
  else if n <? 304 + l then 9 else if n <? 334 + l then 10 else 11.

Definition date_from_day (d : Z) : Z :=
  day_within_year d - month_start (leap (year_from_day d)) (month_from_day d) + 1.

(** [MakeDay] for a month in [0, 11]. *)
Definition make_day (y m d : Z) : Z := day_from_year y + month_start (leap y) m + d - 1.

Definition get_utc_full_year (t : Z) : Z := year_from_day (day_of t).
Definition get_utc_month (t : Z) : Z := month_from_day (day_of t).
Definition get_utc_date (t : Z) : Z := date_from_day (day_of t).

Definition make_time (h m s ms : Z) : Z := h * ms_per_hour + m * ms_per_minute + s * 1000 + ms.
Definition make_date (day time : Z) : Z := day * ms_per_day + time.

(** The setters; each returns the new time value. *)
Definition set_utc_seconds (t s ms : Z) : Z :=
  make_date (day_of t) (make_time (get_utc_hours t) (get_utc_minutes t) s ms).
Definition set_utc_minutes (t m : Z) : Z :=
  make_date (day_of t) (make_time (get_utc_hours t) m (get_utc_seconds t) (get_utc_ms t)).
Definition set_utc_hours (t h m s ms : Z) : Z :=
  make_date (day_of t) (make_time h m s ms).
Definition set_utc_date (t d : Z) : Z :=
  make_date (make_day (get_utc_full_year t) (get_utc_month t) d) (time_within_day t).

(** * Facts *)

Ltac unfold_date := unfold set_utc_seconds, set_utc_minutes, set_utc_hours, make_date, make_time,
  get_utc_hours, get_utc_minutes, get_utc_seconds, get_utc_ms, time_within_day, day_of,
  ms_per_day, ms_per_hour, ms_per_minute in *.

Lemma set_utc_minutes_succ t : set_utc_minutes t (get_utc_minutes t + 1) = t + ms_per_minute.
Proof. unfold_date. Z.to_euclidean_division_equations. lia. Qed.

Lemma set_utc_seconds_floor t : set_utc_seconds t 0 0 = t - t mod ms_per_minute.
Proof. unfold_date. Z.to_euclidean_division_equations. lia. Qed.

Lemma set_utc_hours_midnight t : set_utc_hours t 0 0 0 0 = day_of t * ms_per_day.
Proof. unfold_date. Z.to_euclidean_division_equations. lia. Qed.

Lemma year_from_day_spec d :
  day_from_year (year_from_day d) ≤ d < day_from_year (year_from_day d + 1).
Proof.
  unfold year_from_day, day_from_year. cbv zeta.
  repeat case_match; bool_to_Prop; Z.to_euclidean_division_equations; lia.
Qed.

Lemma leap_range y : 0 ≤ leap y ≤ 1.
Proof. unfold leap, days_in_year, day_from_year. Z.to_euclidean_division_equations. lia. Qed.

Lemma month_from_day_range d : 0 ≤ month_from_day d ≤ 11.
Proof. unfold month_from_day. repeat case_match; lia. Qed.

Lemma date_from_day_range d : 1 ≤ date_from_day d ≤ 31.
Proof.
  pose proof (year_from_day_spec d) as H. pose proof (leap_range (year_from_day d)) as Hl.
  unfold date_from_day, month_from_day, day_within_year in *. unfold leap, days_in_year in *.
  repeat case_match; bool_to_Prop; cbn [month_start nth Z.to_nat] in *;
    unfold month_start; simpl; lia.
Qed.

Lemma make_day_civil d k :
  make_day (year_from_day d) (month_from_day d) (date_from_day d + k) = d + k.
Proof. unfold make_day, date_from_day, day_within_year. lia. Qed.

Lemma set_utc_date_pred t : set_utc_date t (get_utc_date t - 1) = t - ms_per_day.
Proof.
  unfold set_utc_date, get_utc_full_year, get_utc_month, get_utc_date.
  replace (date_from_day (day_of t) - 1) with (date_from_day (day_of t) + -1) by lia.
  rewrite make_day_civil. unfold_date. Z.to_euclidean_division_equations. lia.
Qed.

(** Calendar fields depend only on the day. *)
Lemma date_fields_day t u : day_of t = day_of u →
  get_utc_date t = get_utc_date u ∧ get_utc_month t = get_utc_month u ∧ get_utc_day t = get_utc_day u.
Proof. unfold get_utc_date, get_utc_month, get_utc_day. by intros ->. Qed.

Example date_example : (* 2024-12-01T00:00:00Z, a Sunday *)
  make_day 2024 11 1 * ms_per_day = 1733011200000 ∧
  get_utc_month 1735603200000 = 11 ∧ get_utc_date 1735603200000 = 31 ∧
  get_utc_month 1709164800000 = 1 ∧ get_utc_date 1709164800000 = 29 ∧ get_utc_day 1733011200000 = 0.
Proof. vm_compute. done. Qed.

(** * [Date.parse] *)

(** The number of days of month [m] (0-based) of year [y]. *)
Definition days_in_month (y m : Z) : Z :=
  if m =? 11 then 31 else make_day y (m + 1) 1 - make_day y m 1.

(** The fields of [s] at the fixed positions of [YYYY-MM-DDTHH:mm:ss.sssZ]. *)
Definition iso_field (s : jstr) (i n : nat) : option Z :=
  let f := take n (drop i s) in
  if all_digits f && bool_decide (length f = n) then Some (digits_value f) else None.
Definition iso_punct (s : jstr) : bool :=
  bool_decide (length s = 24%nat) &&
  forallb (fun ic => bool_decide (s !! ic.1 = Some ic.2))
    [(4%nat, 45); (7%nat, 45); (10%nat, 84); (13%nat, 58); (16%nat, 58); (19%nat, 46); (23%nat, 90)].

(** [Date.parse] on the form [toISOString] writes, the only one the modelled
    code hands it; [None] is [NaN]. *)
Definition date_parse (s : jstr) : option Z :=
  if negb (iso_punct s) then None else
  y ← iso_field s 0 4; mo ← iso_field s 5 2; d ← iso_field s 8 2;
  h ← iso_field s 11 2; mi ← iso_field s 14 2; sec ← iso_field s 17 2; ms ← iso_field s 20 3;
  if (1 <=? mo) && (mo <=? 12) && (1 <=? d) && (d <=? days_in_month y (mo - 1))
     && (h <=? 23) && (mi <=? 59) && (sec <=? 59)
  then Some (make_date (make_day y (mo - 1) d) (make_time h mi sec ms)) else None.

Example date_parse_epoch : date_parse (js "1970-01-01T00:00:00.000Z") = Some 0.
Proof. reflexivity. Qed.
Example date_parse_leap : date_parse (js "2024-02-29T12:30:15.250Z") = Some 1709209815250.
Proof. reflexivity. Qed.
Example date_parse_no_day : date_parse (js "2023-02-29T12:30:15.250Z") = None.
Proof. reflexivity. Qed.

(** * [Date.prototype.toISOString] *)

Definition pad_left (n : nat) (s : jstr) : jstr := repeat 48 (n - length s) ++ s.

(** Years outside 0..9999 are written with a sign and six digits. *)
Definition iso_year (y : Z) : jstr :=
  if (0 <=? y) && (y <=? 9999) then pad_left 4 (nat_str y)
  else (if y <? 0 then 45 else 43) :: pad_left 6 (nat_str (Z.abs y)).

Definition to_iso_string (t : Z) : jstr :=
  iso_year (get_utc_full_year t) ++ js "-" ++ pad_left 2 (nat_str (get_utc_month t + 1)) ++ js "-"
  ++ pad_left 2 (nat_str (get_utc_date t)) ++ js "T" ++ pad_left 2 (nat_str (get_utc_hours t)) ++ js ":"
  ++ pad_left 2 (nat_str (get_utc_minutes t)) ++ js ":" ++ pad_left 2 (nat_str (get_utc_seconds t)) ++ js "."
  ++ pad_left 3 (nat_str (get_utc_ms t)) ++ js "Z".

Example to_iso_string_epoch : to_iso_string 0 = js "1970-01-01T00:00:00.000Z".
Proof. reflexivity. Qed.
Example to_iso_string_leap : to_iso_string 1709209815250 = js "2024-02-29T12:30:15.250Z".
Proof. reflexivity. Qed.

Definition plain_year (t : Z) : Prop := 0 ≤ get_utc_full_year t ≤ 9999.

Lemma pad_left_chars n k c : 0 ≤ k → c ∈ pad_left n (nat_str k) → 48 ≤ c ≤ 57.
Proof.
  intros Hk. unfold pad_left. rewrite elem_of_app. intros [Hc|Hc]; [|by eapply nat_str_chars].
  apply list_elem_of_In, repeat_spec in Hc. lia.
Qed.

Lemma pad_left_inj n k l : 0 ≤ k → 0 ≤ l → pad_left n (nat_str k) = pad_left n (nat_str l) → k = l.
Proof.
  assert (∀ m s, digits_value (repeat 48 m ++ s) = digits_value s) as Hp.
  { intros m s. unfold digits_value. induction m as [|m IH]; [done|]. simpl. exact IH. }
  intros Hk Hl H. apply (f_equal digits_value) in H. unfold pad_left in H. rewrite !Hp in H.
  by rewrite (proj1 (nat_str_spec k Hk)), (proj1 (nat_str_spec l Hl)) in H.
Qed.

(** The fields of a time value are in range and determine it. *)
Lemma time_fields_range t :
  0 ≤ get_utc_hours t ∧ 0 ≤ get_utc_minutes t ∧ 0 ≤ get_utc_seconds t ∧ 0 ≤ get_utc_ms t ∧
  0 ≤ get_utc_month t + 1 ∧ 0 ≤ get_utc_date t.
Proof.
  pose proof (month_from_day_range (day_of t)). pose proof (date_from_day_range (day_of t)).
  unfold get_utc_month, get_utc_date. repeat split; try lia;
  unfold_date; Z.to_euclidean_division_equations; lia.
Qed.

Lemma time_from_fields t :
  t = make_date (make_day (get_utc_full_year t) (get_utc_month t) (get_utc_date t))
        (make_time (get_utc_hours t) (get_utc_minutes t) (get_utc_seconds t) (get_utc_ms t)).
Proof.
  unfold get_utc_full_year, get_utc_month, get_utc_date.
  rewrite <-(Z.add_0_r (date_from_day _)), make_day_civil. unfold_date. Z.to_euclidean_division_equations. lia.
Qed.

(** Peels one padded field and its separator off both sides. *)
Lemma padded_field_inj n (sep : Z) k l r r' :
  0 ≤ k → 0 ≤ l → ¬ (48 ≤ sep ≤ 57) →
  pad_left n (nat_str k) ++ [sep] ++ r = pad_left n (nat_str l) ++ [sep] ++ r' → k = l ∧ r = r'.
Proof.
  intros Hk Hl Hsep H. apply (separator_inj sep) in H as [H ->]; [by apply pad_left_inj in H| |];
    intros Hc%pad_left_chars; done.
Qed.

Lemma to_iso_string_inj t u : plain_year t → plain_year u → to_iso_string t = to_iso_string u → t = u.
Proof.
  unfold plain_year, to_iso_string, iso_year. intros Ht Hu.
  rewrite !(proj2 (andb_true_iff _ _)) by (split; apply Z.leb_le; lia).
  destruct (time_fields_range t) as (?&?&?&?&?&?), (time_fields_range u) as (?&?&?&?&?&?). intros E.
  apply (padded_field_inj 4 45) in E as [? E]; [|lia..].
  apply (padded_field_inj 2 45) in E as [? E]; [|lia..].
  apply (padded_field_inj 2 84) in E as [? E]; [|lia..].
  do 2 (apply (padded_field_inj 2 58) in E as [? E]; [|lia..]).
  apply (padded_field_inj 2 46) in E as [? E]; [|lia..].
  apply (padded_field_inj 3 90 _ _ [] []) in E as [? _]; [|lia..].
  rewrite (time_from_fields t), (time_from_fields u). assert (get_utc_month t = get_utc_month u) by lia. congruence.
Qed.
