(* ===== verification/JsMap.v ===== *)
(** JavaScript [Map]: keys in insertion order, [set] on a present key keeps its
    position. An association list with distinct keys. *)
From S2P Require Import Prelude.

Section JsMap.
Context {K V : Type} `{!EqDecision K}.
Implicit Types (m : list (K * V)) (k : K) (v : V).

Fixpoint map_get m k : option V :=
  match m with
  | [] => None
  | (k', v) :: m => if bool_decide (k' = k) then Some v else map_get m k
  end.

Definition map_has m k : bool := bool_decide (is_Some (map_get m k)).

Fixpoint map_set m k v : list (K * V) :=
  match m with
  | [] => [(k, v)]
  | (k', v') :: m => if bool_decide (k' = k) then (k', v) :: m else (k', v') :: map_set m k v
  end.

Fixpoint map_delete m k : list (K * V) :=
  match m with
  | [] => []
  | (k', v') :: m => if bool_decide (k' = k) then m else (k', v') :: map_delete m k
  end.

Definition map_keys m : list K := m.*1.

(** A [Map] never holds a key twice. *)
Definition map_ok m : Prop := NoDup (map_keys m).

Lemma map_get_set_eq m k v : map_get (map_set m k v) k = Some v.
Proof.
  induction m as [|[k' v'] m IH]; simpl; [by rewrite bool_decide_true|].
  case_bool_decide; simpl; [by rewrite bool_decide_true|by rewrite bool_decide_false].
Qed.

Lemma map_get_set_ne m k k' v : k ≠ k' → map_get (map_set m k v) k' = map_get m k'.
Proof.
  intros Hne. induction m as [|[k1 v1] m IH]; simpl; [by rewrite bool_decide_false|].
  destruct (decide (k1 = k)) as [->|].
  - rewrite bool_decide_true by done. simpl. by rewrite bool_decide_false.
  - rewrite bool_decide_false by done. simpl. by rewrite IH.
Qed.

Lemma map_get_set m k k' v :
  map_get (map_set m k v) k' = if bool_decide (k = k') then Some v else map_get m k'.
Proof. case_bool_decide; [subst; apply map_get_set_eq|by apply map_get_set_ne]. Qed.

Lemma map_get_Some_key m k v : map_get m k = Some v → k ∈ map_keys m.
Proof.
  induction m as [|[k' v'] m IH]; simpl; [done|]. case_bool_decide; [subst; by left|].
  intros. right. by apply IH.
Qed.

Lemma map_get_None m k : map_get m k = None ↔ k ∉ map_keys m.
Proof.
  induction m as [|[k' v'] m IH]; simpl; [set_solver|].
  case_bool_decide as E; [|rewrite IH; set_solver].
  split; [done|]. intros H. destruct H. subst. by left.
Qed.

Lemma map_has_key m k : map_has m k = true ↔ k ∈ map_keys m.
Proof.
  unfold map_has. rewrite bool_decide_eq_true. destruct (map_get m k) eqn:E.
  - split; [|by eauto]. intros _. by eapply map_get_Some_key.
  - apply map_get_None in E. split; [by intros []|]. intros. done.
Qed.

Lemma elem_of_map_get m k v : map_ok m → (k, v) ∈ m ↔ map_get m k = Some v.
Proof.
  unfold map_ok. induction m as [|[k' v'] m IH]; simpl; intros Hnd; [set_solver|].
  apply NoDup_cons in Hnd as [Hk Hnd]. rewrite elem_of_cons, (IH Hnd).
  case_bool_decide; subst.
  - split; [|intros [= ->]; by left]. intros [[= ->]|Hg%map_get_Some_key]; done.
  - split; [|by right]. by intros [[= <- <-]|?].
Qed.

Lemma map_keys_set m k v :
  map_keys (map_set m k v) = if bool_decide (k ∈ map_keys m) then map_keys m else map_keys m ++ [k].
Proof.
  unfold map_keys. induction m as [|[k' v'] m IH]; [done|]. cbn [map_set].
  destruct (decide (k' = k)) as [->|Hne].
  - rewrite bool_decide_true by done. rewrite !fmap_cons. cbn [fst].
    by rewrite bool_decide_true by left.
  - rewrite bool_decide_false by done. rewrite !fmap_cons, IH. cbn [fst].
    destruct (decide (k ∈ m.*1)).
    + rewrite !bool_decide_true by (done || by right). done.
    + rewrite !bool_decide_false by set_solver. done.
Qed.

Lemma map_set_new m k v : k ∉ map_keys m → map_set m k v = m ++ [(k, v)].
Proof.
  induction m as [|[k' v'] m IH]; cbn [map_set]; [done|]. unfold map_keys. rewrite fmap_cons. intros Hk.
  rewrite bool_decide_false by (intros ->; apply Hk; by left). cbn [app]. f_equal. apply IH. set_solver.
Qed.

Lemma map_set_ok m k v : map_ok m → map_ok (map_set m k v).
Proof.
  unfold map_ok. rewrite map_keys_set. case_bool_decide; [done|]. intros Hnd.
  apply NoDup_app. split; [done|]. split; [set_solver|apply NoDup_singleton].
Qed.

Lemma map_get_delete m k k' : map_ok m →
  map_get (map_delete m k) k' = if bool_decide (k = k') then None else map_get m k'.
Proof.
  unfold map_ok. induction m as [|[k1 v1] m IH]; simpl; intros Hnd; [by case_bool_decide|].
  apply NoDup_cons in Hnd as [Hk Hnd]. destruct (decide (k1 = k)) as [->|].
  - rewrite (bool_decide_true (k = k)) by done. case_bool_decide; [|done]. subst. by apply map_get_None.
  - rewrite (bool_decide_false (k1 = k)) by done. simpl. rewrite IH by done.
    destruct (decide (k1 = k')); [|by rewrite !(bool_decide_false (k1 = k'))].
    subst. rewrite (bool_decide_true (k' = k')) by done. by rewrite bool_decide_false by congruence.
Qed.

Lemma map_get_delete_ne m k k' : k ≠ k' → map_get (map_delete m k) k' = map_get m k'.
Proof.
  intros Hne. induction m as [|[k1 v1] m IH]; simpl; [done|].
  repeat (case_bool_decide; simplify_eq/=; try done).
Qed.

Lemma map_delete_sublist m k : map_delete m k `sublist_of` m.
Proof. induction m as [|[k' v'] m IH]; simpl; [done|]. case_bool_decide; by constructor. Qed.

Lemma map_delete_ok m k : map_ok m → map_ok (map_delete m k).
Proof.
  unfold map_ok, map_keys. intros H. eapply sublist_NoDup; [exact H|].
  apply fmap_sublist, map_delete_sublist.
Qed.

(** Without [map_ok]: what a lookup finds is there, and what is there after a
    store was there or was stored. *)
Lemma map_get_in m k v : map_get m k = Some v → (k, v) ∈ m.
Proof.
  induction m as [|[k' v'] m IH]; cbn [map_get]; [done|]. case_bool_decide; [|by intros ?%IH; right]. intros [= ->]. subst. by left.
Qed.
Lemma elem_of_map_set_inv m k v k' v' : (k', v') ∈ map_set m k v → v' = v ∨ (k', v') ∈ m.
Proof.
  induction m as [|[k0 v0] m IH]; cbn [map_set].
  - intros [= _ ->]%list_elem_of_singleton. by left.
  - case_bool_decide.
    + intros [[= _ ->]|?]%elem_of_cons; [by left|right; by right].
    + intros [->|?]%elem_of_cons; [right; by left|]. destruct IH as [?|?]; [done|by left|right; by right].
Qed.

Lemma elem_of_map_set m k v k' v' :
  map_ok m → (k', v') ∈ map_set m k v ↔ (k' = k ∧ v' = v) ∨ (k' ≠ k ∧ (k', v') ∈ m).
Proof.
  intros Hm. rewrite !elem_of_map_get by (done || by apply map_set_ok).
  rewrite map_get_set. case_bool_decide; naive_solver.
Qed.
End JsMap.

#[export] Hint Resolve map_set_ok map_delete_ok : panel.
