(* ===== verification/Bytes.v ===== *)
(** Node buffers as lists of bytes: the fixed-width integer accessors and the
    UTF-8 codec ([Buffer.from(s, 'utf-8')], [buf.toString('utf-8')]) the wire
    protocols use, with their round trips. *)
From S2P Require Import Prelude.

Abbreviation bytes := (list Z) (only parsing).

(** * Fixed-width integers *)

Definition byte_at (b : bytes) (i : nat) : Z := nth i b 0.

(** [buf.readInt32LE(off)], [buf.writeInt32LE(v)]. *)
Definition read_int32_le (b : bytes) (off : nat) : Z :=
  to_int32 (byte_at b off + byte_at b (off + 1) * 2 ^ 8 + byte_at b (off + 2) * 2 ^ 16
            + byte_at b (off + 3) * 2 ^ 24).
Definition int32_le (v : Z) : bytes :=
  let u := to_uint32 v in [u mod 256; (u / 2 ^ 8) mod 256; (u / 2 ^ 16) mod 256; u / 2 ^ 24].

(** [buf.readUInt32BE(off)], [buf.writeUInt32BE(v)]. *)
Definition read_uint32_be (b : bytes) (off : nat) : Z :=
  byte_at b off * 2 ^ 24 + byte_at b (off + 1) * 2 ^ 16 + byte_at b (off + 2) * 2 ^ 8
  + byte_at b (off + 3).
Definition uint32_be (u : Z) : bytes :=
  [u / 2 ^ 24; (u / 2 ^ 16) mod 256; (u / 2 ^ 8) mod 256; u mod 256].

Lemma to_int32_id v : - 2 ^ 31 ≤ v < 2 ^ 31 → to_int32 v = v.
Proof.
  intros H. unfold to_int32, to_uint32. case_match; bool_to_Prop; Z.to_euclidean_division_equations; lia.
Qed.

Lemma to_int32_uint32 v : to_int32 (to_uint32 v) = to_int32 v.
Proof. unfold to_int32, to_uint32. by rewrite Z.mod_mod. Qed.

Lemma int32_le_sum v :
  let b := int32_le v in
  byte_at b 0 + byte_at b 1 * 2 ^ 8 + byte_at b 2 * 2 ^ 16 + byte_at b 3 * 2 ^ 24 = to_uint32 v.
Proof.
  unfold int32_le, byte_at. cbn [nth]. pose proof (to_uint32_range v).
  generalize dependent (to_uint32 v). intros u Hu. Z.to_euclidean_division_equations. lia.
Qed.

Lemma byte_at_app b c i : byte_at (b ++ c) (length b + i) = byte_at c i.
Proof. unfold byte_at. rewrite app_nth2 by lia. f_equal. lia. Qed.

Lemma byte_at_app_l b c i : (i < length b)%nat → byte_at (b ++ c) i = byte_at b i.
Proof. unfold byte_at. intros. by rewrite app_nth1. Qed.

(** Reading at an offset only depends on what follows it. *)
Lemma read_int32_le_app b c off :
  read_int32_le (b ++ c) (length b + off) = read_int32_le c off.
Proof. unfold read_int32_le. rewrite <-!Nat.add_assoc, !byte_at_app. done. Qed.

Lemma read_int32_le_app_l b c off :
  (off + 4 ≤ length b)%nat → read_int32_le (b ++ c) off = read_int32_le b off.
Proof. intros. unfold read_int32_le. rewrite !byte_at_app_l by lia. done. Qed.

Lemma read_int32_le_write v c : - 2 ^ 31 ≤ v < 2 ^ 31 → read_int32_le (int32_le v ++ c) 0 = v.
Proof.
  intros Hv. rewrite read_int32_le_app_l by (simpl; lia). unfold read_int32_le.
  cbn [Nat.add]. rewrite int32_le_sum, to_int32_uint32. by apply to_int32_id.
Qed.

Lemma read_uint32_be_app_l b c off :
  (off + 4 ≤ length b)%nat → read_uint32_be (b ++ c) off = read_uint32_be b off.
Proof. intros. unfold read_uint32_be. rewrite !byte_at_app_l by lia. done. Qed.

Lemma read_uint32_be_write u c : 0 ≤ u < 2 ^ 32 → read_uint32_be (uint32_be u ++ c) 0 = u.
Proof.
  intros Hu. unfold read_uint32_be, uint32_be, byte_at. cbn [nth app Nat.add].
  Z.to_euclidean_division_equations. lia.
Qed.

(** Two encodings of distinct sizes differ. *)
Lemma int32_le_inj v w :
  - 2 ^ 31 ≤ v < 2 ^ 31 → - 2 ^ 31 ≤ w < 2 ^ 31 → int32_le v = int32_le w → v = w.
Proof.
  intros Hv Hw H. rewrite <-(read_int32_le_write v []), <-(read_int32_le_write w []) by done.
  by rewrite H.
Qed.

(** * UTF-8 *)

Definition is_high_surrogate (u : Z) : bool := (55296 <=? u) && (u <=? 56319).
Definition is_low_surrogate (u : Z) : bool := (56320 <=? u) && (u <=? 57343).
Definition replacement : Z := 65533.

Definition utf8_unit (u : Z) : bytes :=
  if u <? 128 then [u]
  else if u <? 2048 then [192 + u / 64; 128 + u mod 64]
  else [224 + u / 4096; 128 + (u / 64) mod 64; 128 + u mod 64].

Definition utf8_pair (hi lo : Z) : bytes :=
  let cp := 65536 + (hi - 55296) * 1024 + (lo - 56320) in
  [240 + cp / 262144; 128 + (cp / 4096) mod 64; 128 + (cp / 64) mod 64; 128 + cp mod 64].

(** A lone surrogate is written as U+FFFD. *)
Fixpoint utf8_encode (s : jstr) : bytes :=
  match s with
  | [] => []
  | u :: rest =>
      if is_high_surrogate u then
        match rest with
        | v :: rest' =>
            if is_low_surrogate v then utf8_pair u v ++ utf8_encode rest'
            else utf8_unit replacement ++ utf8_encode rest
        | [] => utf8_unit replacement
        end
      else if is_low_surrogate u then utf8_unit replacement ++ utf8_encode rest
      else utf8_unit u ++ utf8_encode rest
  end.

(** UTF-16 code units of a code point. *)
Definition cp_units (cp : Z) : jstr :=
  if cp <? 65536 then [cp] else [55296 + (cp - 65536) / 1024; 56320 + (cp - 65536) mod 1024].

(** A pending multi-byte sequence: bits so far, bytes needed, range of the next byte. *)
Record utf8_seq := Utf8Seq { seq_cp : Z; seq_needed : Z; seq_lower : Z; seq_upper : Z }.

(** What a byte starts: an ASCII unit, a sequence, or nothing valid. *)
Inductive utf8_lead := LeadAscii | LeadSeq (s : utf8_seq) | LeadInvalid.

Definition lead_of (b : Z) : utf8_lead :=
  if b <? 128 then LeadAscii
  else if b <? 194 then LeadInvalid
  else if b <? 224 then LeadSeq (Utf8Seq (b - 192) 1 128 191)
  else if b <? 240 then
    LeadSeq (Utf8Seq (b - 224) 2 (if b =? 224 then 160 else 128) (if b =? 237 then 159 else 191))
  else if b <? 245 then
    LeadSeq (Utf8Seq (b - 240) 3 (if b =? 240 then 144 else 128) (if b =? 244 then 143 else 191))
  else LeadInvalid.

(** The decoder of the Encoding Standard: an invalid byte ends the pending
    sequence with U+FFFD and is then read as a lead byte itself. *)
Fixpoint utf8_dec (st : option utf8_seq) (bs : bytes) : jstr :=
  match bs with
  | [] => match st with None => [] | Some _ => [replacement] end
  | b :: bs =>
      let lead pre :=
        match lead_of b with
        | LeadAscii => pre ++ b :: utf8_dec None bs
        | LeadSeq s => pre ++ utf8_dec (Some s) bs
        | LeadInvalid => pre ++ replacement :: utf8_dec None bs
        end in
      match st with
      | None => lead []
      | Some (Utf8Seq cp needed lower upper) =>
          if (lower <=? b) && (b <=? upper) then
            let cp' := cp * 64 + (b - 128) in
            if needed =? 1 then cp_units cp' ++ utf8_dec None bs
            else utf8_dec (Some (Utf8Seq cp' (needed - 1) 128 191)) bs
          else lead [replacement]
      end
  end.

Definition utf8_decode (bs : bytes) : jstr := utf8_dec None bs.

(** Strings without lone surrogates. *)
Fixpoint well_formed (s : jstr) : bool :=
  match s with
  | [] => true
  | u :: rest =>
      if is_high_surrogate u then
        match rest with
        | v :: rest' => is_low_surrogate v && well_formed rest'
        | [] => false
        end
      else negb (is_low_surrogate u) && (0 <=? u) && (u <? 65536) && well_formed rest
  end.

(** Decides the boolean comparisons of the goal by arithmetic. *)
Ltac decide_tests :=
  repeat match goal with
  | |- context [?a <? ?b] =>
      first [ rewrite (proj2 (Z.ltb_lt a b)) by lia | rewrite (proj2 (Z.ltb_ge a b)) by lia ]
  | |- context [?a <=? ?b] =>
      first [ rewrite (proj2 (Z.leb_le a b)) by lia | rewrite (proj2 (Z.leb_gt a b)) by lia ]
  | |- context [?a =? ?b] =>
      first [ rewrite (proj2 (Z.eqb_eq a b)) by lia | rewrite (proj2 (Z.eqb_neq a b)) by lia ]
  end.

Lemma utf8_unit_dec u bs : 0 ≤ u < 65536 → is_high_surrogate u = false → is_low_surrogate u = false →
  utf8_dec None (utf8_unit u ++ bs) = u :: utf8_dec None bs.
Proof.
  intros Hu Hh Hl. unfold utf8_unit.
  assert (u < 55296 ∨ 57343 < u) as Hs.
  { unfold is_high_surrogate, is_low_surrogate in *. bool_to_Prop. lia. }
  clear Hh Hl. destruct (u <? 128) eqn:E1; [|destruct (u <? 2048) eqn:E2]; bool_to_Prop.
  - cbn [app utf8_dec]. unfold lead_of. by decide_tests.
  - cbn [app utf8_dec]. unfold lead_of.
    assert (2 ≤ u / 64 < 32 ∧ 0 ≤ u mod 64 < 64 ∧ u = 64 * (u / 64) + u mod 64)
      as (Hq & Hr & Hqr) by (Z.to_euclidean_division_equations; lia).
    decide_tests. cbn [andb app]. unfold cp_units. decide_tests. cbn [app]. f_equal. lia.
  - cbn [app utf8_dec]. unfold lead_of.
    assert (0 ≤ u / 4096 < 16 ∧ 0 ≤ (u / 64) mod 64 < 64 ∧ 0 ≤ u mod 64 < 64 ∧
      u = 4096 * (u / 4096) + 64 * ((u / 64) mod 64) + u mod 64) as (Hq & Hr & Hr' & Hqr)
      by (Z.to_euclidean_division_equations; lia).
    decide_tests. cbn [app].
    assert ((if 224 + u / 4096 =? 224 then 160 else 128) <=? 128 + (u / 64) mod 64 = true) as ->.
    { apply Z.leb_le. case_match; bool_to_Prop; lia. }
    assert (128 + (u / 64) mod 64 <=? (if 224 + u / 4096 =? 237 then 159 else 191) = true) as ->.
    { apply Z.leb_le. case_match; bool_to_Prop; lia. }
    cbn [andb]. decide_tests. cbn [andb]. unfold cp_units. decide_tests. cbn [app]. f_equal. lia.
Qed.

Lemma utf8_pair_dec hi lo bs : is_high_surrogate hi = true → is_low_surrogate lo = true →
  utf8_dec None (utf8_pair hi lo ++ bs) = hi :: lo :: utf8_dec None bs.
Proof.
  unfold is_high_surrogate, is_low_surrogate, utf8_pair. intros Hh Hl. bool_to_Prop.
  set (cp := 65536 + (hi - 55296) * 1024 + (lo - 56320)).
  assert (65536 ≤ cp < 1114112) as Hcp by lia.
  assert (0 ≤ cp / 262144 ≤ 4 ∧ 0 ≤ (cp / 4096) mod 64 < 64 ∧ 0 ≤ (cp / 64) mod 64 < 64 ∧
    0 ≤ cp mod 64 < 64 ∧
    cp = 262144 * (cp / 262144) + 4096 * ((cp / 4096) mod 64) + 64 * ((cp / 64) mod 64) + cp mod 64)
    as (Hq & Hr & Hr' & Hr'' & Hqr) by (clearbody cp; Z.to_euclidean_division_equations; lia).
  cbn [app utf8_dec]. unfold lead_of. decide_tests. cbn [app].
  assert ((if 240 + cp / 262144 =? 240 then 144 else 128) <=? 128 + (cp / 4096) mod 64 = true) as ->.
  { apply Z.leb_le. case_match; bool_to_Prop; lia. }
  assert (128 + (cp / 4096) mod 64 <=? (if 240 + cp / 262144 =? 244 then 143 else 191) = true) as ->.
  { apply Z.leb_le. case_match; bool_to_Prop; lia. }
  cbn [andb]. decide_tests. cbn [andb].
  match goal with |- context [cp_units ?x] => replace x with cp by lia end.
  unfold cp_units. decide_tests. cbn [app].
  f_equal; [|f_equal]; subst cp; Z.to_euclidean_division_equations; lia.
Qed.

Lemma utf8_decode_encode s : well_formed s = true → utf8_decode (utf8_encode s) = s.
Proof.
  unfold utf8_decode. remember (length s) as n eqn:Hn.
  assert (length s ≤ n)%nat as Hle by lia. clear Hn.
  revert s Hle. induction n as [|n IH]; intros [|u rest] Hle; simpl in Hle; try done; [lia|].
  cbn [well_formed utf8_encode]. destruct (is_high_surrogate u) eqn:Eh.
  - destruct rest as [|v rest]; [done|]. intros [Hv Hr]%andb_true_iff. rewrite Hv.
    rewrite utf8_pair_dec by done. do 2 f_equal. apply IH; [simpl in Hle; lia|done].
  - destruct (is_low_surrogate u) eqn:El; [done|]. intros H. simpl in H. bool_to_Prop.
    rewrite utf8_unit_dec by (done || lia). f_equal. apply IH; [lia|done].
Qed.

Lemma utf8_encode_nil_inv s : well_formed s = true → utf8_encode s = [] → s = [].
Proof. intros Hw H. rewrite <-(utf8_decode_encode s Hw), H. done. Qed.
