(* ===== verification/Cron5.v ===== *)
(** [packages/shared-types/src/cron5.ts]: the five-field cron matcher shared by
    the API validation and the scheduler ticks.

    Parsing, matching, the forward expansion, the backward search for the last
    occurrence and the minimal-interval probe, with the theorems that the two
    searches return exactly the matching minutes of their window. *)
From S2P Require Import Prelude JsString JsDate.

(** * Definitions *)

Inductive cron_error := StepOutOfRange | UnsupportedSyntax | ValueOutOfRange | FieldCount.

Record Cron5Expression := Cron5 {
  minute : option (list Z);
  hour : option (list Z);
  dayOfMonth : option (list Z);
  month : option (list Z);
  dayOfWeek : option (list Z);
  dayOfMonthStar : bool;
  dayOfWeekStar : bool;
}.

(** [values.add(v)] on a [Set]. *)
Definition set_add (vs : list Z) (v : Z) : list Z := if bool_decide (v ∈ vs) then vs else vs ++ [v].

(** [for (let v = start; v <= max; v += step) values.add(v)]; the loop body runs
    at most [max - start + 1] times because [step] is positive. *)
Fixpoint add_steps (fuel : nat) (v step max : Z) (vs : list Z) : list Z :=
  match fuel with
  | O => vs
  | S fuel => if v <=? max then add_steps fuel (v + step) step max (set_add vs v) else vs
  end.

(** [/^(\*|\d+)\/(\d+)$/.exec(part)]: the start and step tokens. *)
Definition step_match (part : jstr) : option (jstr * jstr) :=
  match split_on 47 part with
  | [start; step] =>
      if (bool_decide (start = js "*") || all_digits start) && all_digits step
      then Some (start, step) else None
  | _ => None
  end.

(** One round of the loop over [raw.split(',')]. *)
Definition parse_part (min max : Z) (vs : list Z) (part : jstr) : result cron_error (list Z) :=
  match step_match part with
  | Some (startToken, stepToken) =>
      let start := if bool_decide (startToken = js "*") then min else digits_value startToken in
      let step := digits_value stepToken in
      if (step <=? 0) || (start <? min) || (start >? max) then Throw StepOutOfRange
      else Ok (add_steps (Z.to_nat (max - start + 1)) start step max vs)
  | None =>
      if negb (all_digits part) then Throw UnsupportedSyntax
      else
        let value := digits_value part in
        if (value <? min) || (value >? max) then Throw ValueOutOfRange
        else Ok (set_add vs value)
  end.

Fixpoint parse_parts (min max : Z) (vs : list Z) (parts : list jstr) : result cron_error (list Z) :=
  match parts with
  | [] => Ok vs
  | part :: parts => let! vs' := parse_part min max vs part in parse_parts min max vs' parts
  end.

Definition ascending (a b : Z) : Z := a - b.
Definition descending (a b : Z) : Z := b - a.

Definition parseField (raw : jstr) (min max : Z) : result cron_error (option (list Z)) :=
  if bool_decide (raw = js "*") then Ok None
  else let! vs := parse_parts min max [] (split_on 44 raw) in Ok (Some (jsort ascending vs)).

Definition parseCron5 (expression : jstr) : result cron_error Cron5Expression :=
  match split_ws false [] (trim expression) with
  | [minuteRaw; hourRaw; domRaw; monthRaw; dowRaw] =>
      let! m := parseField minuteRaw 0 59 in
      let! h := parseField hourRaw 0 23 in
      let! dom := parseField domRaw 1 31 in
      let! mon := parseField monthRaw 1 12 in
      let! dow := parseField dowRaw 0 6 in
      Ok (Cron5 m h dom mon dow (starts_with (js "*") domRaw) (starts_with (js "*") dowRaw))
  | _ => Throw FieldCount
  end.

Definition isValidCron5 (expression : jstr) : bool := is_ok (parseCron5 expression).

(** [!(field && !field.includes(v))]: a [null] field accepts everything. *)
Definition field_ok (field : option (list Z)) (v : Z) : bool :=
  match field with None => true | Some vs => bool_decide (v ∈ vs) end.

Definition cron5Matches (expr : Cron5Expression) (date : Z) : bool :=
  if negb (field_ok (minute expr) (get_utc_minutes date)) then false
  else if negb (field_ok (hour expr) (get_utc_hours date)) then false
  else if negb (field_ok (month expr) (get_utc_month date + 1)) then false
  else
    let domRestricted := bool_decide (dayOfMonth expr ≠ None) in
    let dowRestricted := bool_decide (dayOfWeek expr ≠ None) in
    if domRestricted && dowRestricted && negb (dayOfMonthStar expr) && negb (dayOfWeekStar expr)
    then field_ok (dayOfMonth expr) (get_utc_date date) || field_ok (dayOfWeek expr) (get_utc_day date)
    else if domRestricted && negb (field_ok (dayOfMonth expr) (get_utc_date date)) then false
    else if dowRestricted && negb (field_ok (dayOfWeek expr) (get_utc_day date)) then false
    else true.

Definition MAX_EXPANSION_MINUTES : Z := 60 * 24 * 40.

(** The [while] loop; [fuel] is what is left of [maxIterations]. *)
Fixpoint expand_loop (parsed : Cron5Expression) (cursor to : Z) (fuel : nat) : list Z :=
  match fuel with
  | O => []
  | S fuel =>
      if cursor <=? to
      then (if cron5Matches parsed cursor then [cursor] else [])
           ++ expand_loop parsed (set_utc_minutes cursor (get_utc_minutes cursor + 1)) to fuel
      else []
  end.

Definition expandCron5Occurrences (expression : jstr) (from to maxIterations : Z)
    : result cron_error (list Z) :=
  let! parsed := parseCron5 expression in
  Ok (expand_loop parsed (set_utc_seconds from 0 0) to (Z.to_nat maxIterations)).

Definition MAX_LOOKBACK_DAYS : Z := 366 * 5.

Definition cron5DayMatches (expr : Cron5Expression) (date : Z) : bool :=
  if negb (field_ok (month expr) (get_utc_month date + 1)) then false
  else
    let dayOfMonthMatches := field_ok (dayOfMonth expr) (get_utc_date date) in
    let dayOfWeekMatches := field_ok (dayOfWeek expr) (get_utc_day date) in
    if bool_decide (dayOfMonth expr ≠ None) && bool_decide (dayOfWeek expr ≠ None)
    then dayOfMonthMatches || dayOfWeekMatches
    else dayOfMonthMatches && dayOfWeekMatches.

(** A [for ... of] loop that returns at the first hit. *)
Fixpoint first_hit {A B} (f : A → option B) (l : list A) : option B :=
  match l with
  | [] => None
  | x :: l => match f x with Some y => Some y | None => first_hit f l end
  end.

(** [Array.from({ length: n }, (_, i) => n - 1 - i)]. *)
Definition countdown (n : Z) : list Z := reverse (seqZ 0 n).

(** The hour and minute loops over one day. *)
Definition search_day (hours minutes : option (list Z)) (day fromFloor toFloor : Z) : option Z :=
  first_hit (fun hour =>
    first_hit (fun minute =>
      let candidate := set_utc_hours day hour minute 0 0 in
      if candidate <? fromFloor then None
      else if candidate >? toFloor then None
      else Some candidate) (default (countdown 60) minutes))
    (default (countdown 24) hours).

(** The backward loop over days; [fuel] is what is left of [MAX_LOOKBACK_DAYS]. *)
Fixpoint search_back (parsed : Cron5Expression) (hours minutes : option (list Z))
    (day fromDay fromFloor toFloor : Z) (fuel : nat) : option Z :=
  match fuel with
  | O => None
  | S fuel =>
      if fromDay <=? day then
        match (if cron5DayMatches parsed day
               then search_day hours minutes day fromFloor toFloor else None) with
        | Some candidate => Some candidate
        | None => search_back parsed hours minutes (set_utc_date day (get_utc_date day - 1))
                    fromDay fromFloor toFloor fuel
        end
      else None
  end.

Definition findLastCron5Occurrence (expression : jstr) (from to : Z) : result cron_error (option Z) :=
  if from >? to then Ok None
  else
    let! parsed := parseCron5 expression in
    let fromFloor := set_utc_seconds from 0 0 in
    let toFloor := set_utc_seconds to 0 0 in
    let minutes := jsort descending <$> minute parsed in
    let hours := jsort descending <$> hour parsed in
    Ok (search_back parsed hours minutes (set_utc_hours toFloor 0 0 0 0)
          (set_utc_hours fromFloor 0 0 0 0) fromFloor toFloor (Z.to_nat MAX_LOOKBACK_DAYS)).

Definition PROBE_WINDOW_START_MS : Z := make_date (make_day 2024 11 1) 0.
Definition PROBE_WINDOW_MINUTES : Z := 31 * 24 * 60.

(** [None] stands for [Number.POSITIVE_INFINITY]. *)
Fixpoint min_gap (previous : Z) (occurrences : list Z) (min : option Z) : option Z :=
  match occurrences with
  | [] => min
  | current :: rest =>
      let delta := (current - previous) / ms_per_minute in
      min_gap current rest
        (match min with None => Some delta | Some m => if delta <? m then Some delta else min end)
  end.

Definition minCron5IntervalMinutes (expression : jstr) : result cron_error (option Z) :=
  let from := PROBE_WINDOW_START_MS in
  let to := PROBE_WINDOW_START_MS + (PROBE_WINDOW_MINUTES - 1) * ms_per_minute in
  let! occurrences := expandCron5Occurrences expression from to PROBE_WINDOW_MINUTES in
  Ok (match occurrences with
      | first :: rest => min_gap first rest None
      | [] => None
      end).

(** * Parsing *)

(** What a comma-separated part denotes within [min, max]. *)
Definition part_denotes (min max : Z) (part : jstr) (v : Z) : Prop :=
  match step_match part with
  | Some (startToken, stepToken) =>
      ∃ k, 0 ≤ k ∧ v ≤ max ∧
        v = (if bool_decide (startToken = js "*") then min else digits_value startToken)
            + k * digits_value stepToken
  | None => all_digits part = true ∧ v = digits_value part
  end.

Lemma elem_of_set_add vs v x : x ∈ set_add vs v ↔ x ∈ vs ∨ x = v.
Proof. unfold set_add. case_bool_decide; set_solver. Qed.

Lemma set_add_NoDup vs v : NoDup vs → NoDup (set_add vs v).
Proof.
  unfold set_add. case_bool_decide; [done|]. intros. apply NoDup_app.
  split; [done|]. split; [set_solver|apply NoDup_singleton].
Qed.

Lemma elem_of_add_steps fuel v step max vs x :
  0 < step → max - v < Z.of_nat fuel →
  x ∈ add_steps fuel v step max vs ↔ x ∈ vs ∨ ∃ k, 0 ≤ k ∧ x ≤ max ∧ x = v + k * step.
Proof.
  intros Hs. revert v vs. induction fuel as [|fuel IH]; intros v vs Hf; simpl.
  { split; [by left|]. intros [?|(k & ? & ? & ->)]; [done|nia]. }
  destruct (v <=? max) eqn:E; bool_to_Prop.
  - rewrite IH by lia. rewrite elem_of_set_add. split.
    + intros [[?| ->]|(k & ? & ? & ->)]; [by left| |].
      * right. exists 0. lia.
      * right. exists (k + 1). lia.
    + intros [?|(k & ? & ? & ->)]; [tauto|].
      destruct (decide (k = 0)) as [->|]; [left; right; lia|].
      right. exists (k - 1). lia.
  - split; [by left|]. intros [?|(k & ? & ? & ->)]; [done|nia].
Qed.

Lemma add_steps_NoDup fuel v step max vs : NoDup vs → NoDup (add_steps fuel v step max vs).
Proof.
  revert v vs. induction fuel as [|fuel IH]; intros v vs H; simpl; [done|].
  case_match; [|done]. by apply IH, set_add_NoDup.
Qed.

Lemma parse_part_spec min max vs part vs' :
  parse_part min max vs part = Ok vs' →
  (∀ x, x ∈ vs' ↔ x ∈ vs ∨ part_denotes min max part x) ∧
  (∀ x, part_denotes min max part x → min ≤ x ≤ max) ∧
  (∃ x, part_denotes min max part x) ∧ (NoDup vs → NoDup vs').
Proof.
  unfold parse_part, part_denotes. destruct (step_match part) as [[st sp]|].
  - set (start := if bool_decide _ then min else _). destruct (_ || _) eqn:E; [done|].
    intros [= <-]. bool_to_Prop. split; [|split; [|split]].
    + intros x. apply elem_of_add_steps; lia.
    + intros x (k & ? & ? & ->). split; [|done]. nia.
    + exists start, 0. lia.
    + apply add_steps_NoDup.
  - destruct (negb (all_digits part)) eqn:E1; [done|].
    destruct (_ || _) eqn:E2; [done|]. intros [= <-]. bool_to_Prop.
    split; [|split; [|split]].
    + intros x. rewrite elem_of_set_add. tauto.
    + intros x [_ ->]. lia.
    + eauto.
    + apply set_add_NoDup.
Qed.

Lemma parse_parts_spec min max parts vs vs' :
  parse_parts min max vs parts = Ok vs' →
  (∀ x, x ∈ vs' ↔ x ∈ vs ∨ ∃ part, part ∈ parts ∧ part_denotes min max part x) ∧
  (∀ part x, part ∈ parts → part_denotes min max part x → min ≤ x ≤ max) ∧
  (∀ part, part ∈ parts → ∃ x, part_denotes min max part x) ∧ (NoDup vs → NoDup vs').
Proof.
  revert vs. induction parts as [|p parts IH]; intros vs; simpl.
  { intros [= <-]. set_solver. }
  destruct (parse_part min max vs p) as [vs1|] eqn:E; simpl; [|done].
  intros (IH1 & IH2 & IH3 & IH4)%IH. apply parse_part_spec in E as (H1 & H2 & H3 & H4).
  split; [|split; [|split]].
  - intros x. rewrite IH1, H1. setoid_rewrite elem_of_cons. naive_solver.
  - intros q x [->|Hq]%elem_of_cons; eauto.
  - intros q [->|Hq]%elem_of_cons; eauto.
  - auto.
Qed.

Lemma ascending_total x y : cmp_le ascending x y ∨ cmp_le ascending y x.
Proof. unfold cmp_le, ascending. lia. Qed.
Lemma ascending_trans x y z : cmp_le ascending x y → cmp_le ascending y z → cmp_le ascending x z.
Proof. unfold cmp_le, ascending. lia. Qed.
Lemma descending_total x y : cmp_le descending x y ∨ cmp_le descending y x.
Proof. unfold cmp_le, descending. lia. Qed.
Lemma descending_trans x y z : cmp_le descending x y → cmp_le descending y z → cmp_le descending x z.
Proof. unfold cmp_le, descending. lia. Qed.

(** A parsed field: strictly increasing, within its bounds and never empty. *)
Definition field_wf (min max : Z) (field : option (list Z)) : Prop :=
  match field with
  | None => True
  | Some vs => StronglySorted Z.lt vs ∧ Forall (fun v => min ≤ v ≤ max) vs ∧ vs ≠ []
  end.

Definition expr_wf (e : Cron5Expression) : Prop :=
  field_wf 0 59 (minute e) ∧ field_wf 0 23 (hour e) ∧ field_wf 1 31 (dayOfMonth e) ∧
  field_wf 1 12 (month e) ∧ field_wf 0 6 (dayOfWeek e).

Lemma parseField_spec raw min max field :
  parseField raw min max = Ok field →
  field_wf min max field ∧
  ∀ vs, field = Some vs →
    ∀ x, x ∈ vs ↔ ∃ part, part ∈ split_on 44 raw ∧ part_denotes min max part x.
Proof.
  unfold parseField. case_bool_decide; [by intros [= <-]|].
  destruct (parse_parts min max [] (split_on 44 raw)) as [vs|] eqn:E; simpl; [|done].
  intros [= <-]. apply parse_parts_spec in E as (H1 & H2 & H3 & H4).
  specialize (H4 (NoDup_nil_2 : NoDup (@nil Z))). cbn [field_wf].
  assert (∀ x, x ∈ jsort ascending vs ↔ ∃ part, part ∈ split_on 44 raw ∧ part_denotes min max part x) as Hin.
  { intros x. rewrite elem_of_jsort, H1. set_solver. }
  split; [|by intros ? [= <-]]. split; [|split].
  - apply (StronglySorted_impl (fun x y => cmp_le ascending x y ∧ x ≠ y)).
    + unfold cmp_le, ascending. lia.
    + apply StronglySorted_strict; [by rewrite jsort_perm|].
      apply jsort_sorted; [apply ascending_total|apply ascending_trans].
  - apply Forall_forall. intros x (p & Hp & Hd)%Hin. by eapply H2.
  - pose proof (split_on_nonempty 44 raw) as Hne.
    destruct (split_on 44 raw) as [|p ps] eqn:Es; [done|].
    destruct (H3 p) as [x Hx]; [by left|].
    assert (x ∈ jsort ascending vs) as Hx' by (apply Hin; exists p; split; [by left|done]).
    intros Hnil. by rewrite Hnil in Hx'; apply not_elem_of_nil in Hx'.
Qed.

Lemma parseCron5_wf expression e : parseCron5 expression = Ok e → expr_wf e.
Proof.
  unfold parseCron5. repeat (case_match; try done).
  repeat match goal with
  | |- context [parseField ?r ?a ?b] =>
      let E := fresh "E" in destruct (parseField r a b) eqn:E; simpl; [|done];
      apply parseField_spec in E as [? _]
  end.
  by intros [= <-].
Qed.

(** * Matching *)

(** The two day rules differ only when both day fields are restricted and one
    of them starts with [*]. *)
Definition day_rules_agree (e : Cron5Expression) : bool :=
  negb (bool_decide (dayOfMonth e ≠ None) && bool_decide (dayOfWeek e ≠ None)
        && (dayOfMonthStar e || dayOfWeekStar e)).

Definition fields_match (e : Cron5Expression) (t : Z) : bool :=
  cron5DayMatches e t && field_ok (hour e) (get_utc_hours t) && field_ok (minute e) (get_utc_minutes t).

Lemma cron5Matches_fields e t :
  day_rules_agree e = true → cron5Matches e t = fields_match e t.
Proof.
  unfold day_rules_agree, fields_match, cron5Matches, cron5DayMatches.
  destruct (field_ok (minute e) _), (field_ok (hour e) _), (field_ok (month e) _); simpl;
    rewrite ?andb_false_r; try done; rewrite ?andb_true_r;
    destruct (dayOfMonth e), (dayOfWeek e), (dayOfMonthStar e), (dayOfWeekStar e); simpl; try done;
    repeat case_bool_decide; done.
Qed.

Lemma cron5DayMatches_day e t u : day_of t = day_of u → cron5DayMatches e t = cron5DayMatches e u.
Proof.
  intros H. unfold cron5DayMatches. destruct (date_fields_day t u H) as (-> & -> & ->). done.
Qed.

(** * The forward expansion *)

Definition minute_aligned (t : Z) : Prop := t mod ms_per_minute = 0.

Lemma elem_of_expand_loop e c to n t :
  t ∈ expand_loop e c to n ↔
  ∃ k, 0 ≤ k < Z.of_nat n ∧ t = c + k * ms_per_minute ∧ t ≤ to ∧ cron5Matches e t = true.
Proof.
  revert c. induction n as [|n IH]; intros c; cbn [expand_loop].
  { split; [by intros ?%not_elem_of_nil|]. intros (k & ? & _). lia. }
  rewrite set_utc_minutes_succ. unfold ms_per_minute in *.
  destruct (c <=? to) eqn:E; bool_to_Prop.
  - rewrite elem_of_app, IH. split.
    + intros [Ht|(k & ? & -> & ? & ?)].
      * exists 0. destruct (cron5Matches e c) eqn:Em; [|by apply not_elem_of_nil in Ht].
        apply list_elem_of_singleton in Ht as ->. rewrite Z.add_0_r. repeat split; [lia..|done].
      * exists (k + 1). split; [lia|]. split; [lia|]. done.
    + intros (k & ? & -> & ? & Hm). destruct (decide (k = 0)) as [->|].
      * left. rewrite Z.mul_0_l, Z.add_0_r in *. rewrite Hm. by left.
      * right. exists (k - 1). split; [lia|]. split; [lia|done].
  - split; [by intros ?%not_elem_of_nil|]. intros (k & ? & -> & ? & _). lia.
Qed.

Lemma expand_loop_sorted e c to n : StronglySorted Z.lt (expand_loop e c to n).
Proof.
  revert c. induction n as [|n IH]; intros c; cbn [expand_loop]; [constructor|].
  rewrite set_utc_minutes_succ. case_match; [|constructor].
  apply StronglySorted_app. split; [|split; [case_match; repeat constructor|apply IH]].
  intros x y Hx (k & ? & -> & _)%elem_of_expand_loop.
  case_match; [|by apply not_elem_of_nil in Hx].
  apply list_elem_of_singleton in Hx as ->. unfold ms_per_minute. lia.
Qed.

Lemma minute_floor_range t :
  t - ms_per_minute < set_utc_seconds t 0 0 ≤ t ∧ minute_aligned (set_utc_seconds t 0 0).
Proof.
  rewrite set_utc_seconds_floor. unfold minute_aligned, ms_per_minute.
  Z.to_euclidean_division_equations. lia.
Qed.

Lemma expand_spec expression from to maxIterations e occ :
  parseCron5 expression = Ok e →
  expandCron5Occurrences expression from to maxIterations = Ok occ →
  StronglySorted Z.lt occ ∧
  ∀ t, t ∈ occ ↔
    minute_aligned t ∧ set_utc_seconds from 0 0 ≤ t ≤ to ∧
    t < set_utc_seconds from 0 0 + Z.max 0 maxIterations * ms_per_minute ∧
    cron5Matches e t = true.
Proof.
  unfold expandCron5Occurrences. intros -> [= <-]. split; [apply expand_loop_sorted|].
  intros t. rewrite elem_of_expand_loop.
  destruct (minute_floor_range from) as [_ Ha]. unfold minute_aligned, ms_per_minute in *.
  set (c := set_utc_seconds from 0 0) in *. split.
  - intros (k & ? & -> & ? & ?). split; [|split; [lia|split; [lia|done]]].
    by rewrite Z.mod_add by lia.
  - intros (Ht & ? & ? & ?). exists ((t - c) / 60000).
    assert ((t - c) mod 60000 = 0) as Hd by (Z.to_euclidean_division_equations; lia).
    pose proof (Z.div_mod (t - c) 60000 ltac:(lia)). split; [|split; [lia|by split; [lia|]]].
    split; [apply Z.div_pos; lia|]. apply Z.div_lt_upper_bound; lia.
Qed.

(** * The backward search *)

Lemma first_hit_None {A B} (f : A → option B) l :
  first_hit f l = None ↔ ∀ x, x ∈ l → f x = None.
Proof.
  induction l as [|x l IH]; simpl; [set_solver|].
  destruct (f x) eqn:E; [|rewrite IH; set_solver].
  split; [done|]. intros H. rewrite H in E by left. done.
Qed.

Lemma first_hit_Some {A B} (f : A → option B) l y :
  first_hit f l = Some y →
  ∃ l1 x l2, l = l1 ++ x :: l2 ∧ f x = Some y ∧ ∀ z, z ∈ l1 → f z = None.
Proof.
  induction l as [|x l IH]; simpl; [done|]. destruct (f x) eqn:E.
  - intros [= <-]. exists [], x, l. set_solver.
  - intros (l1 & z & l2 & -> & Hz & Hl)%IH. exists (x :: l1), z, l2. set_solver.
Qed.

Lemma first_hit_ext {A B} (f g : A → option B) l :
  (∀ x, f x = g x) → first_hit f l = first_hit g l.
Proof. intros H. induction l as [|x l IH]; simpl; [done|]. by rewrite H, IH. Qed.

(** In a strictly decreasing list the first hit dominates every other hit. *)
Lemma first_hit_max {B} (f : Z → option B) l y :
  StronglySorted Z.gt l → first_hit f l = Some y →
  ∃ x, x ∈ l ∧ f x = Some y ∧ ∀ z, z ∈ l → is_Some (f z) → z ≤ x.
Proof.
  intros Hs (l1 & x & l2 & -> & Hx & Hl)%first_hit_Some. exists x.
  split; [set_solver|]. split; [done|]. intros z Hz [w Hw].
  apply elem_of_app in Hz as [Hz|[->|Hz]%elem_of_cons]; [|lia|].
  - rewrite Hl in Hw by done. done.
  - apply StronglySorted_app in Hs as (_ & _ & Hs). apply StronglySorted_inv in Hs as [_ Hs].
    rewrite Forall_forall in Hs. specialize (Hs _ Hz). lia.
Qed.

(** The hours (or minutes) a day is searched at. *)
Definition slots (n : Z) (field : option (list Z)) : list Z :=
  default (countdown n) (jsort descending <$> field).

Lemma slots_sorted n min field : field_wf min (n - 1) field → StronglySorted Z.gt (slots n field).
Proof.
  unfold slots, countdown. destruct field as [vs|]; simpl.
  - intros (Hs & _ & _). apply (StronglySorted_impl (fun x y => cmp_le descending x y ∧ x ≠ y)).
    { unfold cmp_le, descending. lia. }
    apply StronglySorted_strict; [|apply jsort_sorted; [apply descending_total|apply descending_trans]].
    rewrite jsort_perm. clear -Hs. induction Hs as [|x l Hl IH Hx]; constructor; [|done].
    rewrite Forall_forall in Hx. intros Hin%Hx. lia.
  - intros _. eapply StronglySorted_impl; [|apply StronglySorted_reverse].
    + intros x y. exact id.
    + unfold flip, Z.gt. clear. generalize 0. unfold seqZ. intros m.
      assert (∀ k i, StronglySorted (fun x y => (y ?= x) = Gt) ((λ j, Z.of_nat j + m) <$> seq i k)) as H.
      { induction k as [|k IH]; intros i; simpl; constructor; [apply IH|].
        apply Forall_fmap, Forall_seq. intros j Hj. simpl. apply Z.compare_gt_iff. lia. }
      apply H.
Qed.

Lemma elem_of_slots n field v :
  field_wf 0 (n - 1) field → v ∈ slots n field ↔ 0 ≤ v < n ∧ field_ok field v = true.
Proof.
  unfold slots, countdown, field_ok. destruct field as [vs|]; simpl.
  - intros (_ & Hr & _). rewrite elem_of_jsort, bool_decide_eq_true. rewrite Forall_forall in Hr.
    split; [|tauto]. intros Hv. specialize (Hr _ Hv). split; [lia|done].
  - intros _. rewrite elem_of_reverse, elem_of_seqZ. split; [|tauto]. intros. split; [lia|done].
Qed.

Definition slot_time (day h m : Z) : Z := day * ms_per_day + h * ms_per_hour + m * ms_per_minute.

Lemma set_utc_hours_slot day h m : set_utc_hours (day * ms_per_day) h m 0 0 = slot_time day h m.
Proof. unfold slot_time. unfold_date. rewrite Z.div_mul by lia. lia. Qed.

Lemma slot_time_fields day h m : 0 ≤ h < 24 → 0 ≤ m < 60 →
  day_of (slot_time day h m) = day ∧ get_utc_hours (slot_time day h m) = h ∧
  get_utc_minutes (slot_time day h m) = m ∧ minute_aligned (slot_time day h m).
Proof.
  unfold slot_time, minute_aligned. unfold_date. intros. Z.to_euclidean_division_equations. lia.
Qed.

Lemma aligned_slot t : minute_aligned t →
  t = slot_time (day_of t) (get_utc_hours t) (get_utc_minutes t) ∧
  0 ≤ get_utc_hours t < 24 ∧ 0 ≤ get_utc_minutes t < 60.
Proof. unfold slot_time, minute_aligned. unfold_date. Z.to_euclidean_division_equations. lia. Qed.

Section Search.
Context (e : Cron5Expression) (Hwf : expr_wf e) (from to : Z).

Let hours := jsort descending <$> hour e.
Let minutes := jsort descending <$> minute e.

Definition in_window (t : Z) : Prop := minute_aligned t ∧ from ≤ t ≤ to.

(** A minute of the window whose hour and minute fields match. *)
Definition hit (t : Z) : Prop :=
  in_window t ∧ field_ok (hour e) (get_utc_hours t) = true ∧
  field_ok (minute e) (get_utc_minutes t) = true.

Lemma hour_slots : StronglySorted Z.gt (slots 24 (hour e)) ∧
  ∀ v, v ∈ slots 24 (hour e) ↔ 0 ≤ v < 24 ∧ field_ok (hour e) v = true.
Proof.
  destruct Hwf as (_ & Hh & _). split; [by apply (slots_sorted 24 0)|].
  intros v. by apply (elem_of_slots 24).
Qed.

Lemma minute_slots : StronglySorted Z.gt (slots 60 (minute e)) ∧
  ∀ v, v ∈ slots 60 (minute e) ↔ 0 ≤ v < 60 ∧ field_ok (minute e) v = true.
Proof.
  destruct Hwf as (Hm & _). split; [by apply (slots_sorted 60 0)|].
  intros v. by apply (elem_of_slots 60).
Qed.

Definition in_window_slot (day h m : Z) : option Z :=
  if slot_time day h m <? from then None
  else if slot_time day h m >? to then None else Some (slot_time day h m).

Lemma in_window_slot_Some day h m t :
  in_window_slot day h m = Some t ↔ t = slot_time day h m ∧ from ≤ t ≤ to.
Proof. unfold in_window_slot. split_ifs; naive_solver lia. Qed.

Lemma search_day_slots day :
  search_day hours minutes (day * ms_per_day) from to =
  first_hit (fun h => first_hit (in_window_slot day h) (slots 60 (minute e))) (slots 24 (hour e)).
Proof.
  unfold search_day. apply first_hit_ext. intros h. apply first_hit_ext. intros m.
  cbv zeta. by rewrite set_utc_hours_slot.
Qed.

(** One day's search returns the latest hit of the day. *)
Lemma search_day_Some day t :
  search_day hours minutes (day * ms_per_day) from to = Some t →
  hit t ∧ day_of t = day ∧ ∀ u, hit u → day_of u = day → u ≤ t.
Proof.
  rewrite search_day_slots. destruct hour_slots as [Hhs Hh], minute_slots as [Hms Hm].
  intros (h & [Hh1 Hh2]%Hh & Hin & Hhmax)%first_hit_max; [|done].
  apply first_hit_max in Hin as (m & [Hm1 Hm2]%Hm & Hw & Hmmax); [|done].
  apply in_window_slot_Some in Hw as [-> Hw].
  destruct (slot_time_fields day h m) as (Hd & Hgh & Hgm & Hal); [lia..|].
  split; [unfold hit, in_window; by rewrite Hgh, Hgm|]. split; [done|].
  intros u ((Hua & Huw) & Huh & Hum) <-. destruct (aligned_slot u Hua) as (Hu & Hur & Hur').
  set (h' := get_utc_hours u) in *. set (m' := get_utc_minutes u) in *.
  assert (is_Some (in_window_slot (day_of u) h' m')) as Hus.
  { exists u. by apply in_window_slot_Some. }
  assert (h' ≤ h) as Hle.
  { apply Hhmax; [by apply Hh|].
    destruct (first_hit _ _) eqn:E; [by eexists|]. rewrite first_hit_None in E.
    rewrite (E m') in Hus; [by destruct Hus|]. by apply Hm. }
  enough (slot_time (day_of u) h' m' ≤ slot_time (day_of u) h m) by lia.
  unfold slot_time, ms_per_day, ms_per_hour, ms_per_minute.
  destruct (decide (h' = h)) as [Heq|]; [|lia].
  assert (m' ≤ m); [|lia]. apply Hmmax; [by apply Hm|]. by rewrite <-Heq.
Qed.

Lemma search_day_None day :
  search_day hours minutes (day * ms_per_day) from to = None →
  ∀ u, hit u → day_of u ≠ day.
Proof.
  rewrite search_day_slots, first_hit_None. destruct hour_slots as [_ Hh], minute_slots as [_ Hm].
  intros H u ((Hua & Huw) & Huh & Hum) <-. destruct (aligned_slot u Hua) as (Hu & Hur & Hur').
  specialize (H (get_utc_hours u)). rewrite first_hit_None in H.
  assert (in_window_slot (day_of u) (get_utc_hours u) (get_utc_minutes u) = Some u) as Hs
    by by apply in_window_slot_Some.
  rewrite H in Hs; [done|by apply Hh|by apply Hm].
Qed.

Lemma search_back_spec fuel day fromDay :
  fromDay = day_of from * ms_per_day →
  match search_back e hours minutes (day * ms_per_day) fromDay from to fuel with
  | Some t => hit t ∧ cron5DayMatches e t = true ∧
      ∀ u, hit u → cron5DayMatches e u = true → day_of u ≤ day → u ≤ t
  | None => ∀ u, hit u → cron5DayMatches e u = true → day_of u ≤ day →
      Z.of_nat fuel ≤ day - day_of u
  end.
Proof.
  intros ->. revert day. induction fuel as [|fuel IH]; intros day; [simpl; lia|].
  cbn [search_back].
  assert (day_of (day * ms_per_day) = day) as Hday.
  { unfold day_of. apply Z.div_mul. unfold ms_per_day. lia. }
  destruct (_ <=? _) eqn:E; bool_to_Prop.
  - rewrite set_utc_date_pred.
    replace (day * ms_per_day - ms_per_day) with ((day - 1) * ms_per_day) by lia.
    specialize (IH (day - 1)).
    assert (∀ u, day_of u = day → cron5DayMatches e (day * ms_per_day) = cron5DayMatches e u) as Hcd.
    { intros u Hu. apply cron5DayMatches_day. congruence. }
    destruct (if cron5DayMatches _ _ then _ else _) as [t|] eqn:Es.
    + destruct (cron5DayMatches e (day * ms_per_day)) eqn:Em; [|done].
      apply search_day_Some in Es as (Ht & Hd & Hmax). split; [done|]. split; [by rewrite <-Hcd|].
      intros u Hu _ Hud. destruct (decide (day_of u = day)); [by apply Hmax|].
      assert (day_of u < day_of t) as Hlt by lia. revert Hlt. unfold day_of, ms_per_day.
      Z.to_euclidean_division_equations. lia.
    + assert (∀ u, hit u → cron5DayMatches e u = true → day_of u ≠ day) as Hno.
      { intros u Hu Hum Hud. rewrite (Hcd u Hud), Hum in Es. by eapply search_day_None. }
      destruct (search_back _ _ _ _ _ _ _ _) as [t|].
      * destruct IH as (? & ? & Hmax). split; [done|]. split; [done|]. intros u Hu Hum Hud.
        apply Hmax; [done..|]. specialize (Hno u Hu Hum). lia.
      * intros u Hu Hum Hud. specialize (Hno u Hu Hum). specialize (IH u Hu Hum). lia.
  - intros u ((_ & Hw) & _) _ Hud.
    assert (day_of from ≤ day_of u) by (apply Z.div_le_mono; [unfold ms_per_day; lia|lia]).
    unfold ms_per_day in *. lia.
Qed.
End Search.

(** * The minimal interval *)

Definition gaps_at_least (m : Z) (occ : list Z) : Prop :=
  ∀ t u, t ∈ occ → u ∈ occ → t < u → m * ms_per_minute ≤ u - t.
Definition gap_attained (m : Z) (occ : list Z) : Prop :=
  ∃ t u, t ∈ occ ∧ u ∈ occ ∧ t < u ∧ u - t = m * ms_per_minute.

Lemma aligned_delta t u : minute_aligned t → minute_aligned u →
  (u - t) / ms_per_minute * ms_per_minute = u - t.
Proof. unfold minute_aligned, ms_per_minute. Z.to_euclidean_division_equations. lia. Qed.

Lemma min_gap_spec rest : ∀ previous acc,
  StronglySorted Z.lt (previous :: rest) → Forall minute_aligned (previous :: rest) →
  match min_gap previous rest acc with
  | None => rest = [] ∧ acc = None
  | Some m => (acc = Some m ∨ gap_attained m (previous :: rest)) ∧
      (∀ a, acc = Some a → m ≤ a) ∧ gaps_at_least m (previous :: rest)
  end.
Proof.
  unfold gap_attained, gaps_at_least.
  induction rest as [|cur rest IH]; intros previous acc Hs Ha; simpl.
  { destruct acc as [a|]; [|done]. split; [by left|]. split; [intros ? [= <-]; lia|].
    intros t u Ht Hu. apply list_elem_of_singleton in Ht, Hu. lia. }
  apply StronglySorted_inv in Hs as [Hs Hp]. apply Forall_cons in Ha as [Hap Ha].
  pose proof (aligned_delta previous cur Hap (Forall_inv Ha)) as Hdelta.
  set (delta := (cur - previous) / ms_per_minute) in *.
  set (acc' := match acc with None => Some delta | Some m => if delta <? m then Some delta else acc end).
  assert (∃ a, acc' = Some a ∧ a ≤ delta ∧ (∀ b, acc = Some b → a ≤ b) ∧ (acc = Some a ∨ a = delta))
    as (a & Hacc & Had & Hab & Ha').
  { subst acc'. destruct acc as [b|]; [|exists delta; naive_solver lia].
    destruct (delta <? b) eqn:E; bool_to_Prop; [exists delta|exists b]; naive_solver lia. }
  specialize (IH cur acc' Hs Ha). destruct (min_gap cur rest acc') as [m|]; [|naive_solver].
  destruct IH as (Hor & Hle & Hgaps). assert (m ≤ a) as Hma by by apply Hle.
  rewrite Forall_forall in Hp. split; [|split].
  - destruct Hor as [Hor|(t & u & Ht & Hu & ? & ?)].
    + assert (m = a) as -> by congruence. destruct Ha' as [?| ->]; [by left|]. right.
      exists previous, cur. specialize (Hp cur (list_elem_of_here _ _)).
      repeat split; [by left|by right; left|lia|lia].
    + right. exists t, u. by repeat split; [right..|lia|lia].
  - intros b Hb. specialize (Hab b Hb). lia.
  - assert (∀ u, u ∈ cur :: rest → cur ≤ u) as Hcur.
    { intros u [->|Hu]%elem_of_cons; [lia|]. apply StronglySorted_inv in Hs as [_ Hc].
      rewrite Forall_forall in Hc. specialize (Hc _ Hu). lia. }
    unfold ms_per_minute in *.
    intros t u [->|Ht]%elem_of_cons [->|Hu]%elem_of_cons Htu; [lia| |exfalso|by apply Hgaps].
    + specialize (Hcur u Hu). lia.
    + specialize (Hp t Ht). lia.
Qed.

(** * Properties *)

(** [parseField] accepts a field only if every comma-separated part denotes
    values inside [[min, max]]; the result is then strictly increasing, within
    bounds, non-empty, and contains exactly the values some part denotes. *)
Theorem parseField_denotes raw min max vs :
  parseField raw min max = Ok (Some vs) →
  StronglySorted Z.lt vs ∧ vs ≠ [] ∧ (∀ v, v ∈ vs → min ≤ v ≤ max) ∧
  (∀ v, v ∈ vs ↔ ∃ part, part ∈ split_on 44 raw ∧ part_denotes min max part v).
Proof.
  intros [(Hs & Hr & Hne) Hin]%parseField_spec. rewrite Forall_forall in Hr. eauto.
Qed.

Lemma parseField_denotes_witness :
  parseField (js "5,*/20") 0 59 = Ok (Some [0; 5; 20; 40]) ∧ [0; 5; 20; 40] ≠ [].
Proof.
  split; [reflexivity|].
  exact (proj1 (proj2 (parseField_denotes (js "5,*/20") 0 59 [0; 5; 20; 40] eq_refl))).
Defined.

(** The forward expansion returns, in strictly increasing order, exactly the
    whole minutes of [[from rounded down to the minute, to]] that match the
    expression and lie within the first [maxIterations] minutes. *)
Theorem expandCron5Occurrences_exact expression from to maxIterations e occ :
  parseCron5 expression = Ok e →
  expandCron5Occurrences expression from to maxIterations = Ok occ →
  StronglySorted Z.lt occ ∧
  ∀ t, t ∈ occ ↔
    minute_aligned t ∧ set_utc_seconds from 0 0 ≤ t ≤ to ∧
    t < set_utc_seconds from 0 0 + Z.max 0 maxIterations * ms_per_minute ∧
    cron5Matches e t = true.
Proof. apply expand_spec. Qed.

Lemma expandCron5Occurrences_exact_witness :
  StronglySorted Z.lt [1733011200000; 1733013000000].
Proof.
  refine (proj1 (expandCron5Occurrences_exact (js "*/30 * * * *") 1733011230000 1733014800000 60
    (Cron5 (Some [0; 30]) None None None None true true) [1733011200000; 1733013000000] _ _)).
  all: vm_compute; reflexivity.
Defined.

Lemma findLast_latest_aux expression from to e :
  parseCron5 expression = Ok e → day_rules_agree e = true → from ≤ to →
  match findLastCron5Occurrence expression from to with
  | Ok (Some t) =>
      minute_aligned t ∧ set_utc_seconds from 0 0 ≤ t ≤ to ∧ cron5Matches e t = true ∧
      ∀ u, minute_aligned u → set_utc_seconds from 0 0 ≤ u ≤ to →
           cron5Matches e u = true → u ≤ t
  | Ok None =>
      ∀ u, minute_aligned u → set_utc_seconds from 0 0 ≤ u ≤ to →
           cron5Matches e u = true → MAX_LOOKBACK_DAYS ≤ day_of to - day_of u
  | Throw _ => False
  end.
Proof.
  intros He Hagree Hft. unfold findLastCron5Occurrence.
  destruct (from >? to) eqn:E; bool_to_Prop; [lia|]. rewrite He. cbn [result_bind].
  destruct (minute_floor_range from) as [Hf Hfa], (minute_floor_range to) as [Ht Hta].
  rewrite !set_utc_hours_midnight.
  set (f := set_utc_seconds from 0 0) in *. set (g := set_utc_seconds to 0 0) in *.
  assert (∀ u, minute_aligned u → f ≤ u ≤ to → cron5Matches e u = true →
    hit e f g u ∧ cron5DayMatches e u = true ∧ day_of u ≤ day_of g) as Hhit.
  { intros u Hua Hu. rewrite cron5Matches_fields by done. unfold fields_match. intros Hm.
    bool_to_Prop. unfold hit, in_window, minute_aligned, ms_per_minute in *.
    assert (u ≤ g) by (Z.to_euclidean_division_equations; lia).
    split; [repeat split; done || lia|]. split; [done|]. apply Z.div_le_mono; [done|lia]. }
  assert (day_of g = day_of to) as Hdg.
  { subst g. rewrite set_utc_seconds_floor. unfold day_of, ms_per_day, ms_per_minute.
    Z.to_euclidean_division_equations. lia. }
  pose proof (search_back_spec e (parseCron5_wf _ _ He) f g (Z.to_nat MAX_LOOKBACK_DAYS) (day_of g)
    _ eq_refl) as H.
  destruct (search_back _ _ _ _ _ _ _ _) as [t|].
  - destruct H as (((Hta' & Htw) & Hth & Htm) & Htd & Hmax).
    split; [done|]. split; [lia|]. split.
    + rewrite cron5Matches_fields by done. unfold fields_match. by rewrite Htd, Hth, Htm.
    + intros u Hua Hu Hum. destruct (Hhit u Hua Hu Hum) as (? & ? & ?). by apply Hmax.
  - intros u Hua Hu Hum. destruct (Hhit u Hua Hu Hum) as (Huh & Hud & Hle).
    specialize (H u Huh Hud Hle). rewrite <-Hdg. unfold MAX_LOOKBACK_DAYS in *. lia.
Qed.

(** Whatever the day fields, a result is a whole minute of the window. *)
Lemma findLast_window expression from to t :
  findLastCron5Occurrence expression from to = Ok (Some t) →
  minute_aligned t ∧ set_utc_seconds from 0 0 ≤ t ≤ to.
Proof.
  unfold findLastCron5Occurrence. destruct (from >? to) eqn:E; [done|]. bool_to_Prop.
  destruct (parseCron5 expression) as [e|] eqn:He; [|done]. cbn [result_bind].
  destruct (minute_floor_range to) as [Ht _]. rewrite !set_utc_hours_midnight. intros Hs%Ok_inj.
  pose proof (search_back_spec e (parseCron5_wf _ _ He) (set_utc_seconds from 0 0) (set_utc_seconds to 0 0)
    (Z.to_nat MAX_LOOKBACK_DAYS) (day_of (set_utc_seconds to 0 0)) _ eq_refl) as H.
  rewrite Hs in H. destruct H as (((Ha & Hw) & _) & _). unfold in_window in Hw. bool_to_Prop. split; [done|lia].
Qed.



(** Where both day fields are restricted and one starts with [*], the
    backward search and [cron5Matches] disagree: for ["0 0 */2 * 1"] the search
    returns Monday 2 December 2024, an even day that [cron5Matches] rejects. *)
Theorem findLast_ignores_star_rule :
  ∃ e, parseCron5 (js "0 0 */2 * 1") = Ok e ∧
  findLastCron5Occurrence (js "0 0 */2 * 1") 1733097600000 1733101200000 = Ok (Some 1733097600000) ∧
  cron5Matches e 1733097600000 = false ∧
  expandCron5Occurrences (js "0 0 */2 * 1") 1733097600000 1733101200000 MAX_EXPANSION_MINUTES = Ok [].
Proof. eexists. vm_compute. done. Qed.

(** When [minCron5IntervalMinutes] returns a number of minutes, it is at
    least 1, no two occurrences of the probe month are closer than that, and two
    of them are exactly that far apart; it returns infinity exactly when the
    month has fewer than two occurrences. *)
Theorem minCron5IntervalMinutes_minimal expression :
  match minCron5IntervalMinutes expression,
        expandCron5Occurrences expression PROBE_WINDOW_START_MS
          (PROBE_WINDOW_START_MS + (PROBE_WINDOW_MINUTES - 1) * ms_per_minute) PROBE_WINDOW_MINUTES with
  | Ok (Some m), Ok occ => 1 ≤ m ∧ gaps_at_least m occ ∧ gap_attained m occ
  | Ok None, Ok occ => (length occ < 2)%nat
  | Throw err, Throw err' => err = err' ∧ isValidCron5 expression = false
  | _, _ => False
  end.
Proof.
  unfold minCron5IntervalMinutes.
  set (to := PROBE_WINDOW_START_MS + _).
  destruct (parseCron5 expression) as [e|err] eqn:He.
  2: { unfold expandCron5Occurrences, isValidCron5. rewrite He. done. }
  destruct (expandCron5Occurrences expression PROBE_WINDOW_START_MS to PROBE_WINDOW_MINUTES)
    as [occ|err] eqn:Hocc; cbn [result_bind].
  2: { unfold expandCron5Occurrences in Hocc. by rewrite He in Hocc. }
  destruct (expand_spec expression _ _ _ e occ He Hocc) as [Hs Hin].
  clear Hocc. destruct occ as [|first rest]; [simpl; lia|].
  pose proof (min_gap_spec rest first None Hs) as H.
  assert (Forall minute_aligned (first :: rest)) as Hal by (apply Forall_forall; naive_solver).
  specialize (H Hal). destruct (min_gap first rest None) as [m|].
  - destruct H as ([|Hat] & _ & Hg); [done|]. split; [|by split].
    destruct Hat as (t & u & _ & _ & ? & ?). unfold ms_per_minute in *. lia.
  - destruct H as [-> _]. simpl. lia.
Qed.
