(* ===== verification/BridgeFrame.v ===== *)
(** [packages/bridge-client/src/frame.ts]: the length-prefixed framing between
    the panel and the host bridge.

    [decodeFrames] is the reference decoder of a whole buffer; the incremental
    [FrameAccumulator] is proved to refine it on every way a byte stream can be
    cut into chunks. *)
From S2P Require Import Prelude Bytes.

(** * Definitions *)

(** [packages/shared-config/src/bridge-methods.ts]. *)
Definition BRIDGE_MAX_FRAME_BYTES : Z := 16 * 1024 * 1024.

(** The size a [FrameTooLargeError] reports. *)
Inductive frame_error := FrameTooLargeError (size : Z).

Section Encode.
Context {payload : Type} (JSON_stringify : payload → jstr).

Definition encodeFrame (p : payload) : result frame_error bytes :=
  let body := utf8_encode (JSON_stringify p) in
  if Z.of_nat (length body) >? BRIDGE_MAX_FRAME_BYTES
  then Throw (FrameTooLargeError (Z.of_nat (length body)))
  else Ok (uint32_be (Z.of_nat (length body)) ++ body).
End Encode.

(** The [while] loop on the unread part of the buffer; a round consumes at
    least the four header bytes, so the buffer's length bounds the rounds. *)
Fixpoint decode_loop (fuel : nat) (buffer : bytes) : result frame_error (list bytes * bytes) :=
  match fuel with
  | O => Ok ([], buffer)
  | S fuel =>
      if Z.of_nat (length buffer) <? 4 then Ok ([], buffer)
      else
        let size := read_uint32_be buffer 0 in
        if size >? BRIDGE_MAX_FRAME_BYTES then Throw (FrameTooLargeError size)
        else if Z.of_nat (length buffer) - 4 <? size then Ok ([], buffer)
        else
          let! (frames, remainder) := decode_loop fuel (drop (4 + Z.to_nat size) buffer) in
          Ok (take (Z.to_nat size) (drop 4 buffer) :: frames, remainder)
  end.

Definition decodeFrames (buffer : bytes) : result frame_error (list bytes * bytes) :=
  decode_loop (S (length buffer)) buffer.

Record FrameAccumulator := Accumulator { chunks : list bytes; queuedBytes : Z }.
Definition new_accumulator : FrameAccumulator := Accumulator [] 0.

(** [Buffer.concat(list, totalLength)]. *)
Definition buffer_concat (l : list bytes) (total : nat) : bytes :=
  take total (concat l) ++ replicate (total - length (concat l)) 0.

Definition nextFrameSize (acc : FrameAccumulator) : Z :=
  let head := default [] (List.hd_error (chunks acc)) in
  let header := if 4 <=? Z.of_nat (length head) then head else buffer_concat (chunks acc) 4 in
  read_uint32_be header 0.

(** [push] returns the new state and the completed frames, or the error. *)
Definition acc_push (acc : FrameAccumulator) (chunk : bytes)
    : FrameAccumulator * result frame_error (list bytes) :=
  let acc := Accumulator (chunks acc ++ [chunk]) (queuedBytes acc + Z.of_nat (length chunk)) in
  if queuedBytes acc <? 4 then (acc, Ok [])
  else
    let size := nextFrameSize acc in
    if size >? BRIDGE_MAX_FRAME_BYTES then (acc, Throw (FrameTooLargeError size))
    else if queuedBytes acc <? 4 + size then (acc, Ok [])
    else
      let joined := if bool_decide (length (chunks acc) = 1%nat) then chunk
                    else buffer_concat (chunks acc) (Z.to_nat (queuedBytes acc)) in
      match decodeFrames joined with
      | Throw e => (acc, Throw e)
      | Ok (frames, remainder) =>
          (Accumulator (if 0 <? Z.of_nat (length remainder) then [remainder] else [])
             (Z.of_nat (length remainder)), Ok frames)
      end.

Definition acc_reset (acc : FrameAccumulator) : FrameAccumulator := Accumulator [] 0.

(** Pushing a sequence of socket chunks, collecting the frames. *)
Fixpoint acc_run (acc : FrameAccumulator) (cs : list bytes)
    : FrameAccumulator * result frame_error (list bytes) :=
  match cs with
  | [] => (acc, Ok [])
  | c :: cs =>
      match acc_push acc c with
      | (acc', Ok frames) =>
          match acc_run acc' cs with
          | (acc'', Ok frames') => (acc'', Ok (frames ++ frames'))
          | (acc'', Throw e) => (acc'', Throw e)
          end
      | (acc', Throw e) => (acc', Throw e)
      end
  end.

(** * The reference decoder *)

Definition header_ok (buffer : bytes) : Prop :=
  4 ≤ Z.of_nat (length buffer) ∧ 0 ≤ read_uint32_be buffer 0.

Definition are_bytes (b : bytes) : Prop := Forall (fun x => 0 ≤ x < 256) b.

Lemma are_bytes_at b i : are_bytes b → 0 ≤ byte_at b i < 256.
Proof.
  intros H. unfold byte_at. destruct (nth_in_or_default i b 0) as [Hin| ->]; [|lia].
  unfold are_bytes in H. rewrite Forall_forall in H. apply H. by apply list_elem_of_In.
Qed.

Lemma read_uint32_be_range b off : are_bytes b → 0 ≤ read_uint32_be b off < 2 ^ 32.
Proof.
  intros H. unfold read_uint32_be.
  pose proof (are_bytes_at b off H). pose proof (are_bytes_at b (off + 1) H).
  pose proof (are_bytes_at b (off + 2) H). pose proof (are_bytes_at b (off + 3) H). lia.
Qed.

Lemma are_bytes_app b c : are_bytes (b ++ c) ↔ are_bytes b ∧ are_bytes c.
Proof. apply Forall_app. Qed.

Lemma are_bytes_drop n b : are_bytes b → are_bytes (drop n b).
Proof. apply Forall_drop. Qed.
#[local] Hint Resolve are_bytes_drop : core.

(** Any sufficient fuel gives the same result. *)
Lemma decode_loop_fuel n m buffer :
  (length buffer < n)%nat → (length buffer < m)%nat → decode_loop n buffer = decode_loop m buffer.
Proof.
  revert m buffer. induction n as [|n IH]; intros [|m] buffer Hn Hm; try lia.
  cbn [decode_loop]. repeat (case_match; try done). bool_to_Prop.
  rewrite (IH m); [done| |]; rewrite length_drop; lia.
Qed.

(** One round of the decoder, without fuel. *)
Lemma decodeFrames_eq buffer :
  decodeFrames buffer =
  if Z.of_nat (length buffer) <? 4 then Ok ([], buffer)
  else
    let size := read_uint32_be buffer 0 in
    if size >? BRIDGE_MAX_FRAME_BYTES then Throw (FrameTooLargeError size)
    else if Z.of_nat (length buffer) - 4 <? size then Ok ([], buffer)
    else
      let! (frames, remainder) := decodeFrames (drop (4 + Z.to_nat size) buffer) in
      Ok (take (Z.to_nat size) (drop 4 buffer) :: frames, remainder).
Proof.
  unfold decodeFrames at 1. cbn [decode_loop]. repeat (case_match; try done). bool_to_Prop.
  unfold decodeFrames. rewrite (decode_loop_fuel _ (S (length (drop (4 + Z.to_nat (read_uint32_be buffer 0)) buffer))));
    [done|rewrite length_drop; lia|lia].
Qed.

(** No complete frame is left in a remainder. *)
Lemma decodeFrames_remainder buffer frames remainder :
  decodeFrames buffer = Ok (frames, remainder) → decodeFrames remainder = Ok ([], remainder).
Proof.
  remember (length buffer) as n eqn:Hn. revert buffer frames Hn.
  induction (lt_wf n) as [n _ IH]. intros buffer frames ->. rewrite (decodeFrames_eq buffer).
  destruct (_ <? 4) eqn:E1; [intros [= <- <-]; rewrite decodeFrames_eq; by rewrite E1|].
  cbv zeta. destruct (_ >? _) eqn:E2; [done|].
  destruct (_ <? read_uint32_be _ _) eqn:E3.
  { intros [= <- <-]. rewrite decodeFrames_eq, E1. cbv zeta. by rewrite E2, E3. }
  destruct (decodeFrames (drop _ buffer)) as [[fs r]|] eqn:E4; simpl; [|done].
  intros [= <- <-]. bool_to_Prop. eapply IH; [|done|exact E4]. rewrite length_drop. lia.
Qed.

(** Appending bytes to a decoded buffer continues from its remainder. *)
Lemma decodeFrames_app buffer extra frames remainder :
  are_bytes buffer → decodeFrames buffer = Ok (frames, remainder) →
  decodeFrames (buffer ++ extra) =
  let! (frames', remainder') := decodeFrames (remainder ++ extra) in
  Ok (frames ++ frames', remainder').
Proof.
  remember (length buffer) as n eqn:Hn. revert buffer frames Hn.
  induction (lt_wf n) as [n _ IH]. intros buffer frames -> Hb.
  assert (∀ b : bytes, (let! (frames', remainder') := decodeFrames b in Ok (frames', remainder'))
    = decodeFrames b) as Hret by (intros b; by destruct (decodeFrames b) as [[]|]).
  rewrite (decodeFrames_eq buffer). destruct (_ <? 4) eqn:E1; [intros [= <- <-]; symmetry; apply Hret|].
  cbv zeta. destruct (_ >? _) eqn:E2; [done|].
  destruct (_ <? read_uint32_be _ _) eqn:E3; [intros [= <- <-]; symmetry; apply Hret|].
  destruct (decodeFrames (drop _ buffer)) as [[fs r]|] eqn:E4; simpl; [|done].
  intros [= <- <-]. bool_to_Prop. pose proof (read_uint32_be_range buffer 0 Hb) as Hr.
  rewrite (decodeFrames_eq (buffer ++ extra)), length_app. decide_tests. cbv zeta.
  rewrite read_uint32_be_app_l by lia.
  rewrite Z.gtb_ltb. decide_tests. rewrite !drop_app_le by lia.
  rewrite take_app_le by (rewrite length_drop; lia).
  rewrite (IH (length (drop (4 + Z.to_nat (read_uint32_be buffer 0)) buffer)) ltac:(rewrite length_drop; lia)
    _ fs eq_refl (are_bytes_drop _ _ Hb) E4).
  by destruct (decodeFrames (r ++ extra)) as [[]|].
Qed.

(** An error does not depend on what follows. *)
Lemma decodeFrames_app_throw buffer extra e :
  are_bytes buffer → decodeFrames buffer = Throw e → decodeFrames (buffer ++ extra) = Throw e.
Proof.
  remember (length buffer) as n eqn:Hn. revert buffer Hn.
  induction (lt_wf n) as [n _ IH]. intros buffer -> Hb. rewrite (decodeFrames_eq buffer).
  destruct (_ <? 4) eqn:E1; [done|]. cbv zeta.
  rewrite (decodeFrames_eq (buffer ++ extra)), length_app. bool_to_Prop. decide_tests. cbv zeta.
  rewrite read_uint32_be_app_l by lia. destruct (_ >? _) eqn:E2; [done|].
  destruct (_ <? read_uint32_be _ _) eqn:E3; [done|]. bool_to_Prop.
  pose proof (read_uint32_be_range buffer 0 Hb) as Hr. decide_tests.
  destruct (decodeFrames (drop _ buffer)) as [[fs r]|err] eqn:E4; simpl; [done|].
  intros [= ->]. rewrite !drop_app_le by lia.
  erewrite IH; [done| |reflexivity|by apply are_bytes_drop|exact E4]. rewrite length_drop; lia.
Qed.

Lemma decodeFrames_bytes buffer frames remainder :
  are_bytes buffer → decodeFrames buffer = Ok (frames, remainder) → are_bytes remainder.
Proof.
  remember (length buffer) as n eqn:Hn. revert buffer frames Hn.
  induction (lt_wf n) as [n _ IH]. intros buffer frames -> Hb. rewrite (decodeFrames_eq buffer).
  repeat (case_match; [naive_solver|]). bool_to_Prop. cbv zeta.
  destruct (read_uint32_be buffer 0 >? BRIDGE_MAX_FRAME_BYTES); [done|].
  case_match; [naive_solver|].
  destruct (decodeFrames (drop _ buffer)) as [[fs r]|] eqn:E4; cbn [result_bind]; [|done].
  intros [= <- <-]. eapply IH; [|done| |exact E4]; [rewrite length_drop; lia|auto].
Qed.

(** * The accumulator *)

Definition queued (acc : FrameAccumulator) : bytes := concat (chunks acc).

(** Between pushes: the byte count is right and no complete frame is queued. *)
Definition acc_ok (acc : FrameAccumulator) : Prop :=
  queuedBytes acc = Z.of_nat (length (queued acc)) ∧ are_bytes (queued acc) ∧
  decodeFrames (queued acc) = Ok ([], queued acc).

Lemma buffer_concat_take l n : (n ≤ length (concat l))%nat → buffer_concat l n = take n (concat l).
Proof.
  intros H. unfold buffer_concat. replace (n - length (concat l))%nat with 0%nat by lia.
  by rewrite app_nil_r.
Qed.

Lemma nextFrameSize_queued acc :
  (4 ≤ length (queued acc))%nat → nextFrameSize acc = read_uint32_be (queued acc) 0.
Proof.
  unfold nextFrameSize, queued. intros H. destruct (chunks acc) as [|h t] eqn:E; [simpl in H; lia|].
  cbv zeta. change (default [] (List.hd_error (h :: t))) with h. cbn [concat] in *. destruct (4 <=? Z.of_nat (length h)) eqn:Eh; bool_to_Prop.
  - by rewrite read_uint32_be_app_l by lia.
  - rewrite (buffer_concat_take (h :: t) 4) by done. cbn [concat].
    rewrite <-(take_drop 4 (h ++ concat t)) at 2.
    by rewrite read_uint32_be_app_l by (rewrite length_take; lia).
Qed.

Lemma acc_push_spec acc chunk : acc_ok acc → are_bytes chunk →
  match decodeFrames (queued acc ++ chunk), acc_push acc chunk with
  | Ok (frames, remainder), (acc', r) => r = Ok frames ∧ queued acc' = remainder ∧ acc_ok acc'
  | Throw e, (_, r) => r = Throw e
  end.
Proof.
  intros (Hq & Hb & Hd) Hc. set (b := queued acc ++ chunk).
  assert (are_bytes b) as Hbb by (by apply are_bytes_app).
  set (acc1 := Accumulator (chunks acc ++ [chunk]) (queuedBytes acc + Z.of_nat (length chunk))).
  assert (queued acc1 = b) as Hq1 by (unfold queued; simpl; by rewrite concat_app; simpl; rewrite app_nil_r).
  assert (queuedBytes acc1 = Z.of_nat (length b)) as Hn1 by (simpl; subst b; rewrite length_app; lia).
  assert (∀ x, decodeFrames b = Ok ([], x) → x = b → acc_ok acc1) as Hkeep.
  { intros x Hx ->. unfold acc_ok. by rewrite Hn1, Hq1. }
  unfold acc_push. fold acc1. rewrite Hn1. rewrite (decodeFrames_eq b) in *.
  destruct (Z.of_nat (length b) <? 4) eqn:E1; [by eauto|]. cbv zeta in *.
  bool_to_Prop. rewrite nextFrameSize_queued by (rewrite Hq1; lia). rewrite Hq1.
  destruct (_ >? _) eqn:E2; [done|]. bool_to_Prop.
  destruct (Z.of_nat (length b) - 4 <? _) eqn:E3; bool_to_Prop; decide_tests; [by eauto|].
  assert ((if bool_decide (length (chunks acc1) = 1%nat) then chunk
           else buffer_concat (chunks acc1) (Z.to_nat (Z.of_nat (length b)))) = b) as ->.
  { case_bool_decide as Hlen; simpl in Hlen.
    - rewrite length_app in Hlen. simpl in Hlen. subst b. unfold queued.
      destruct (chunks acc); [done|simpl in Hlen; lia].
    - rewrite Nat2Z.id, buffer_concat_take by (fold (queued acc1); rewrite Hq1; lia).
      fold (queued acc1). by rewrite Hq1, firstn_all. }
  rewrite (decodeFrames_eq b). decide_tests. cbv zeta. rewrite Z.gtb_ltb. decide_tests.
  pose proof (decodeFrames_remainder (drop (4 + Z.to_nat (read_uint32_be b 0)) b)) as Hrem.
  pose proof (decodeFrames_bytes (drop (4 + Z.to_nat (read_uint32_be b 0)) b)) as Hrb.
  destruct (decodeFrames (drop _ b)) as [[fs r]|e]; cbn [result_bind]; [|done].
  assert (queued (Accumulator (if 0 <? Z.of_nat (length r) then [r] else []) (Z.of_nat (length r))) = r) as Hqr.
  { unfold queued. destruct r as [|x r]; simpl; [done|]. by rewrite app_nil_r. }
  split; [done|]. split; [exact Hqr|]. unfold acc_ok. rewrite Hqr. split; [done|].
  split; [by eapply Hrb; auto|]. by eapply Hrem.
Qed.

Lemma acc_run_spec cs acc : acc_ok acc → Forall are_bytes cs →
  match decodeFrames (queued acc ++ concat cs), acc_run acc cs with
  | Ok (frames, remainder), (acc', r) => r = Ok frames ∧ queued acc' = remainder ∧ acc_ok acc'
  | Throw e, (_, r) => r = Throw e
  end.
Proof.
  revert acc. induction cs as [|c cs IH]; intros acc Hok Hcs.
  { simpl. rewrite app_nil_r. destruct Hok as (? & ? & Hd). rewrite Hd. done. }
  apply Forall_cons in Hcs as [Hc Hcs]. cbn [concat acc_run]. rewrite app_assoc.
  pose proof (acc_push_spec acc c Hok Hc) as Hpush.
  assert (are_bytes (queued acc ++ c)) as Hb by (apply are_bytes_app; by destruct Hok as (_ & ? & _)).
  destruct (decodeFrames (queued acc ++ c)) as [[fs r]|e] eqn:Ed;
    destruct (acc_push acc c) as [acc' res]; [|subst res].
  - destruct Hpush as (-> & Hq & Hok'). rewrite (decodeFrames_app _ _ _ _ Hb Ed), <-Hq.
    specialize (IH acc' Hok' Hcs).
    destruct (decodeFrames (queued acc' ++ concat cs)) as [[fs' r']|e']; destruct (acc_run acc' cs);
      cbn [result_bind]; naive_solver.
  - by rewrite (decodeFrames_app_throw _ _ _ Hb Ed).
Qed.

Lemma new_accumulator_ok : acc_ok new_accumulator.
Proof. split; [done|]. split; [constructor|]. by rewrite decodeFrames_eq. Qed.

(** * Properties *)

(** C37: the incremental accumulator refines the whole-buffer decoder: however
    the byte stream is cut into chunks, pushing them yields the frames (or the
    error) [decodeFrames] computes on the concatenation, and the bytes left
    queued are its remainder. *)
Theorem FrameAccumulator_refines cs :
  Forall are_bytes cs →
  match decodeFrames (concat cs), acc_run new_accumulator cs with
  | Ok (frames, remainder), (acc, r) => r = Ok frames ∧ concat (chunks acc) = remainder
  | Throw e, (_, r) => r = Throw e
  end.
Proof.
  intros Hcs. pose proof (acc_run_spec cs new_accumulator new_accumulator_ok Hcs) as H.
  cbn [queued chunks new_accumulator concat app] in H.
  destruct (decodeFrames (concat cs)) as [[]|]; destruct (acc_run _ _); unfold queued in *; naive_solver.
Qed.

Lemma FrameAccumulator_refines_witness :
  (acc_run new_accumulator [[0; 0]; [0; 2; 7]; [8; 0; 0; 0; 1]; [9]]).2 = Ok [[7; 8]; [9]].
Proof.
  pose proof (FrameAccumulator_refines [[0; 0]; [0; 2; 7]; [8; 0; 0; 0; 1]; [9]]
    ltac:(repeat constructor; lia)) as H.
  assert (decodeFrames (concat [[0; 0]; [0; 2; 7]; [8; 0; 0; 0; 1]; [9]]) = Ok ([[7; 8]; [9]], [])) as E
    by (vm_compute; reflexivity).
  rewrite E in H. destruct (acc_run _ _) as [acc r]. exact (proj1 H).
Defined.

Lemma decodeFrames_frame body rest :
  Z.of_nat (length body) ≤ BRIDGE_MAX_FRAME_BYTES →
  decodeFrames ((uint32_be (Z.of_nat (length body)) ++ body) ++ rest) =
  let! (frames, remainder) := decodeFrames rest in Ok (body :: frames, remainder).
Proof.
  intros Hn. unfold BRIDGE_MAX_FRAME_BYTES in Hn. rewrite <-app_assoc, decodeFrames_eq.
  rewrite !length_app. cbn [length uint32_be]. decide_tests. cbv zeta.
  rewrite read_uint32_be_write by lia. rewrite Z.gtb_ltb. unfold BRIDGE_MAX_FRAME_BYTES.
  decide_tests. rewrite Nat2Z.id.
  change (drop 4 (uint32_be (Z.of_nat (length body)) ++ body ++ rest)) with (body ++ rest).
  change (drop (4 + length body) (uint32_be (Z.of_nat (length body)) ++ body ++ rest))
    with (drop (length body) (body ++ rest)).
  by rewrite take_app_length, drop_app_length.
Qed.

(** Frame round trip. A payload is encoded unless its JSON text exceeds
    [BRIDGE_MAX_FRAME_BYTES]; the frames of any sequence of encoded payloads
    decode to exactly their JSON texts, with nothing left over.
    [JSON.stringify] is a parameter that yields well-formed strings. *)
Theorem encodeFrame_roundtrip {payload} (JSON_stringify : payload → jstr)
    (JSON_stringify_well_formed : ∀ p, well_formed (JSON_stringify p) = true) ps fs :
  Forall2 (fun p f => encodeFrame JSON_stringify p = Ok f) ps fs →
  ∃ bodies, decodeFrames (concat fs) = Ok (bodies, []) ∧
    utf8_decode <$> bodies = JSON_stringify <$> ps.
Proof.
  induction 1 as [|p f ps fs Hf _ (bodies & Hd & Hm)]; cbn [concat].
  { exists []. by rewrite decodeFrames_eq. }
  unfold encodeFrame in Hf. case_match; [done|]. bool_to_Prop. apply Ok_inj in Hf as <-.
  exists (utf8_encode (JSON_stringify p) :: bodies). rewrite decodeFrames_frame by done.
  rewrite Hd. split; [done|]. by rewrite !fmap_cons, Hm, utf8_decode_encode.
Qed.

Lemma encodeFrame_roundtrip_witness :
  ∃ bodies, decodeFrames [0; 0; 0; 4; 116; 114; 117; 101; 0; 0; 0; 5; 102; 97; 108; 115; 101]
    = Ok (bodies, []) ∧ utf8_decode <$> bodies = [js "true"; js "false"].
Proof.
  refine (encodeFrame_roundtrip (fun b : bool => if b then js "true" else js "false") _
    [true; false] [[0; 0; 0; 4; 116; 114; 117; 101]; [0; 0; 0; 5; 102; 97; 108; 115; 101]] _).
  - intros []; reflexivity.
  - repeat constructor.
Defined.
