(* ===== verification/RconProtocol.v ===== *)
(** [apps/workers/rcon/src/protocol.ts]: the Valve Source RCON codec with
    Squad's broken probe reply.

    [RconPacketStream.push] is modelled as a loop of [stream_step]s on the
    stream's three fields. The theorems: the packets do not depend on how TCP
    cuts the stream into chunks, encoded packets come back unchanged, the broken
    probe tail is stripped exactly where Squad sends it, and the buffer stays
    bounded. *)
From S2P Require Import Prelude Bytes.

(** * Definitions *)

Definition SERVERDATA_AUTH : Z := 3.
Definition SERVERDATA_EXECCOMMAND : Z := 2.
Definition SERVERDATA_AUTH_RESPONSE : Z := 2.
Definition SERVERDATA_RESPONSE_VALUE : Z := 0.
Definition SERVERDATA_CHAT_VALUE : Z := 1.

Record RconPacket := Packet { p_id : Z; p_type : Z; p_body : jstr }.

Definition encodePacket (packet : RconPacket) : bytes :=
  let body := utf8_encode (p_body packet) in
  let payload := int32_le (p_id packet) ++ int32_le (p_type packet) ++ body ++ [0; 0] in
  int32_le (Z.of_nat (length payload)) ++ payload.

Definition SQUAD_BROKEN_PROBE_TAIL : bytes := [0; 1; 0; 0; 0; 0; 0].
Definition MAX_RCON_PACKET_SIZE : Z := 1024 * 1024.
Definition EMPTY_FRAME_SIZE : Z := 10.

Record RconPacketStream := Stream {
  buf : bytes;
  lastEmptyResponseId : option Z;
  expectProbeTail : bool;
}.
Definition new_stream : RconPacketStream := Stream [] None false.

Definition trackProbeEcho (st : RconPacketStream) (id type size : Z) : RconPacketStream :=
  if negb (type =? SERVERDATA_RESPONSE_VALUE) || negb (size =? EMPTY_FRAME_SIZE) then st
  else if bool_decide (lastEmptyResponseId st = Some id) then Stream (buf st) None true
  else Stream (buf st) (Some id) (expectProbeTail st).

(** One round of the [while] loop: leave it, go on, or throw. *)
Inductive round :=
| Break (st : RconPacketStream)
| Continue (st : RconPacketStream) (out : list RconPacket)
| InvalidSize (st : RconPacketStream) (size : Z).

(** The rest of the round, once the probe tail has been dealt with. *)
Definition frame_step (st : RconPacketStream) : round :=
  if Z.of_nat (length (buf st)) <? 4 then Break st
  else
    let size := read_int32_le (buf st) 0 in
    if (size <? EMPTY_FRAME_SIZE) || (size >? MAX_RCON_PACKET_SIZE) then InvalidSize st size
    else if Z.of_nat (length (buf st)) - 4 <? size then Break st
    else
      let id := read_int32_le (buf st) 4 in
      let type := read_int32_le (buf st) 8 in
      let bodyEnd := 4 + size - 2 in
      let body := utf8_decode (take (Z.to_nat (bodyEnd - 12)) (drop 12 (buf st))) in
      Continue
        (trackProbeEcho
           (Stream (drop (4 + Z.to_nat size) (buf st)) (lastEmptyResponseId st) (expectProbeTail st))
           id type size)
        [Packet id type body].

Definition stream_step (st : RconPacketStream) : round :=
  if Z.of_nat (length (buf st)) <=? 0 then Break st
  else if expectProbeTail st then
    let n := Nat.min (length (buf st)) (length SQUAD_BROKEN_PROBE_TAIL) in
    if negb (bool_decide (take n (buf st) = take n SQUAD_BROKEN_PROBE_TAIL))
    then frame_step (Stream (buf st) (lastEmptyResponseId st) false)
    else if (n <? length SQUAD_BROKEN_PROBE_TAIL)%nat then Break st
    else Continue (Stream (drop n (buf st)) (lastEmptyResponseId st) false) []
  else frame_step st.

(** The loop; every [Continue] shortens the buffer, so its length bounds it. *)
Fixpoint drain (fuel : nat) (st : RconPacketStream) : RconPacketStream * result Z (list RconPacket) :=
  match fuel with
  | O => (st, Ok [])
  | S fuel =>
      match stream_step st with
      | Break st' => (st', Ok [])
      | InvalidSize st' size => (st', Throw size)
      | Continue st' out =>
          match drain fuel st' with
          | (st'', Ok out') => (st'', Ok (out ++ out'))
          | (st'', Throw size) => (st'', Throw size)
          end
      end
  end.

(** [push(chunk)]: the new stream and the packets, or the invalid size thrown. *)
Definition push (st : RconPacketStream) (chunk : bytes)
    : RconPacketStream * result Z (list RconPacket) :=
  let st := Stream (buf st ++ chunk) (lastEmptyResponseId st) (expectProbeTail st) in
  drain (S (length (buf st))) st.

(** A whole connection: pushing the TCP chunks one after the other. *)
Fixpoint push_all (st : RconPacketStream) (cs : list bytes)
    : RconPacketStream * result Z (list RconPacket) :=
  match cs with
  | [] => (st, Ok [])
  | c :: cs =>
      match push st c with
      | (st', Ok out) =>
          match push_all st' cs with
          | (st'', Ok out') => (st'', Ok (out ++ out'))
          | (st'', Throw size) => (st'', Throw size)
          end
      | (st', Throw size) => (st', Throw size)
      end
  end.

(** * The loop and its fuel *)

Definition extend (st : RconPacketStream) (b : bytes) : RconPacketStream :=
  Stream (buf st ++ b) (lastEmptyResponseId st) (expectProbeTail st).

Lemma trackProbeEcho_buf st id type size : buf (trackProbeEcho st id type size) = buf st.
Proof. unfold trackProbeEcho. by repeat case_match. Qed.

Lemma trackProbeEcho_extend st id type size b :
  trackProbeEcho (extend st b) id type size = extend (trackProbeEcho st id type size) b.
Proof. unfold trackProbeEcho, extend. by repeat (case_match; simpl). Qed.

Lemma frame_step_shorter st st' out :
  frame_step st = Continue st' out → (length (buf st') < length (buf st))%nat.
Proof.
  unfold frame_step. repeat (case_match; try done). bool_to_Prop. unfold EMPTY_FRAME_SIZE in *.
  intros [= <- _]. rewrite trackProbeEcho_buf. simpl. rewrite length_drop. lia.
Qed.

Lemma stream_step_shorter st st' out :
  stream_step st = Continue st' out → (length (buf st') < length (buf st))%nat.
Proof.
  unfold stream_step. repeat (case_match; try done); bool_to_Prop.
  - by intros ?%frame_step_shorter.
  - intros [= <- _]. cbn [buf]. rewrite length_drop. simpl length. lia.
  - by intros ?%frame_step_shorter.
Qed.

Lemma drain_fuel n m st :
  (length (buf st) < n)%nat → (length (buf st) < m)%nat → drain n st = drain m st.
Proof.
  revert m st. induction n as [|n IH]; intros [|m] st Hn Hm; try lia. cbn [drain].
  destruct (stream_step st) as [|st' out|] eqn:E; try done.
  apply stream_step_shorter in E. by rewrite (IH m st') by lia.
Qed.

Definition drained (st : RconPacketStream) : RconPacketStream * result Z (list RconPacket) :=
  drain (S (length (buf st))) st.

Definition prepend (out : list RconPacket) (r : RconPacketStream * result Z (list RconPacket)) :=
  match r with
  | (st, Ok out') => (st, Ok (out ++ out'))
  | (st, Throw size) => (st, Throw size)
  end.

Lemma drained_eq st :
  drained st = match stream_step st with
               | Break st' => (st', Ok [])
               | InvalidSize st' size => (st', Throw size)
               | Continue st' out => prepend out (drained st')
               end.
Proof.
  unfold drained. cbn [drain]. destruct (stream_step st) as [|st' out|] eqn:E; try done.
  apply stream_step_shorter in E. by rewrite (drain_fuel _ (S (length (buf st'))) st') by lia.
Qed.

Lemma push_drained st chunk : push st chunk = drained (extend st chunk).
Proof. done. Qed.

(** * Chunking *)

(** More bytes do not change a round that did not break, and a round that broke
    resumes from the state it left. *)
Lemma frame_step_extend st b :
  match frame_step st with
  | Break st' => st' = st
  | Continue st' out => frame_step (extend st b) = Continue (extend st' b) out
  | InvalidSize st' size => frame_step (extend st b) = InvalidSize (extend st' b) size
  end.
Proof.
  unfold frame_step. cbn [extend buf lastEmptyResponseId expectProbeTail].
  destruct (_ <? 4) eqn:E1; [done|]. bool_to_Prop. rewrite length_app.
  rewrite (read_int32_le_app_l (buf st) b 0) by lia. decide_tests. cbv zeta.
  set (size := read_int32_le (buf st) 0). destruct (_ || _) eqn:E2; [done|].
  destruct (_ <? size) eqn:E3; [done|]. bool_to_Prop. decide_tests. unfold EMPTY_FRAME_SIZE in *.
  rewrite !read_int32_le_app_l by lia. rewrite !drop_app_le by lia.
  rewrite take_app_le by (rewrite length_drop; lia).
  f_equal. apply (trackProbeEcho_extend (Stream _ _ _)).
Qed.

Lemma tail_mismatch_extend (a b : bytes) n m :
  n = Nat.min (length a) 7 → m = Nat.min (length (a ++ b)) 7 →
  take n a ≠ take n SQUAD_BROKEN_PROBE_TAIL → take m (a ++ b) ≠ take m SQUAD_BROKEN_PROBE_TAIL.
Proof.
  intros Hn Hm Hne Heq. apply Hne. rewrite length_app in Hm.
  assert (n ≤ m)%nat as Hle by lia.
  apply (f_equal (take n)) in Heq. rewrite !take_take, !Nat.min_l in Heq by lia.
  rewrite <-Heq, take_app_le by lia. done.
Qed.

Lemma stream_step_extend st b :
  match stream_step st with
  | Break st' => stream_step (extend st b) = stream_step (extend st' b)
  | Continue st' out => stream_step (extend st b) = Continue (extend st' b) out
  | InvalidSize st' size => stream_step (extend st b) = InvalidSize (extend st' b) size
  end.
Proof.
  unfold stream_step at 1. destruct (_ <=? 0) eqn:E0; [done|]. bool_to_Prop.
  assert (∀ st', st' = Stream (buf st) (lastEmptyResponseId st) false →
    stream_step (extend st b) = frame_step (extend st' b) →
    match frame_step st' with
    | Break st'' => stream_step (extend st b) = stream_step (extend st'' b)
    | Continue st'' out => stream_step (extend st b) = Continue (extend st'' b) out
    | InvalidSize st'' size => stream_step (extend st b) = InvalidSize (extend st'' b) size
    end) as Hframe.
  { intros st' -> Hs. pose proof (frame_step_extend (Stream (buf st) (lastEmptyResponseId st) false) b) as H.
    destruct (frame_step (Stream _ _ _)); rewrite Hs; [subst|done..].
    unfold stream_step. cbn [extend buf expectProbeTail]. rewrite length_app. by decide_tests. }
  destruct st as [a l []]; cbn [buf lastEmptyResponseId expectProbeTail] in *.
  - cbv zeta. set (n := Nat.min (length a) (length SQUAD_BROKEN_PROBE_TAIL)) in *.
    case_bool_decide as Ht; cbn [negb].
    + destruct (_ <? _)%nat eqn:En; [done|]. apply Nat.ltb_ge in En. simpl in En.
      unfold stream_step. cbn [extend buf expectProbeTail lastEmptyResponseId].
      subst n. simpl length in *. rewrite length_app. decide_tests. cbv zeta.
      assert (7 ≤ length a)%nat as Ha by lia.
      replace (Nat.min (length a) 7) with 7%nat in * by (clear -Ha; lia).
      replace (Nat.min (length a + length b) 7) with 7%nat by lia.
      rewrite take_app_le, Ht by lia. rewrite bool_decide_true by done. cbn [negb].
      rewrite drop_app_le by lia. done.
    + apply Hframe; [done|]. unfold stream_step. cbn [extend buf expectProbeTail lastEmptyResponseId].
      rewrite length_app. decide_tests. cbv zeta. rewrite bool_decide_false; [done|].
      eapply tail_mismatch_extend; [| |exact Ht]; [done|by rewrite length_app].
  - apply Hframe; [done|]. unfold stream_step. cbn [extend buf expectProbeTail].
    rewrite length_app. by decide_tests.
Qed.

Lemma extend_app st a b : extend (extend st a) b = extend st (a ++ b).
Proof. unfold extend. simpl. by rewrite app_assoc. Qed.

Lemma drained_extend st b :
  drained (extend st b) =
  match drained st with
  | (st', Ok out) => prepend out (drained (extend st' b))
  | (st', Throw size) => (extend st' b, Throw size)
  end.
Proof.
  remember (length (buf st)) as n eqn:Hn. revert st Hn. induction (lt_wf n) as [n _ IH].
  intros st ->. rewrite (drained_eq (extend st b)), (drained_eq st).
  pose proof (stream_step_extend st b) as Hs. destruct (stream_step st) as [st'|st' out|st' size] eqn:E.
  - rewrite Hs, <-drained_eq. by destruct (drained (extend st' b)) as [? []].
  - rewrite Hs. apply stream_step_shorter in E. rewrite (IH _ E st' eq_refl).
    destruct (drained st') as [st'' [out'|size]]; simpl; [|done].
    destruct (drained (extend st'' b)) as [? []]; simpl; by rewrite ?app_assoc.
  - by rewrite Hs.
Qed.

Lemma push_app st a b :
  push st (a ++ b) =
  match push st a with
  | (st', Ok out) => prepend out (push st' b)
  | (st', Throw size) => (extend st' b, Throw size)
  end.
Proof. rewrite !push_drained, <-extend_app, drained_extend. by destruct (drained _) as [? []]. Qed.

(** A broken round leaves a state with nothing to do until more bytes come. *)
Lemma stream_step_break st st' : stream_step st = Break st' → stream_step st' = Break st'.
Proof.
  intros H. pose proof (stream_step_extend st []) as He. rewrite H in He.
  assert (∀ s, extend s [] = s) as Hx by (intros []; unfold extend; simpl; by rewrite app_nil_r).
  rewrite !Hx in He. congruence.
Qed.

(** The state a successful [push] leaves. *)
Definition settled (st : RconPacketStream) : Prop := stream_step st = Break st.

Lemma drained_settled st st' out : drained st = (st', Ok out) → settled st'.
Proof.
  remember (length (buf st)) as n eqn:Hn. revert st out Hn. induction (lt_wf n) as [n _ IH].
  intros st out ->. rewrite drained_eq. destruct (stream_step st) as [s|s o|] eqn:E; [| |done].
  - intros [= <- <-]. by eapply stream_step_break.
  - apply stream_step_shorter in E. destruct (drained s) as [s' [o'|]] eqn:Ed; simpl; [|done].
    intros [= <- <-]. by eapply IH.
Qed.

Lemma push_settled st chunk st' out : push st chunk = (st', Ok out) → settled st'.
Proof. apply drained_settled. Qed.

Lemma push_nil st : settled st → push st [] = (st, Ok []).
Proof.
  intros H. rewrite push_drained. unfold extend. rewrite app_nil_r.
  replace (Stream _ _ _) with st by by destruct st. by rewrite drained_eq, H.
Qed.

(** Pushing chunk by chunk or all at once. *)
Lemma push_all_concat st cs : settled st →
  match push_all st cs with
  | (st', Ok out) => push st (concat cs) = (st', Ok out)
  | (_, Throw size) => ∃ st', push st (concat cs) = (st', Throw size)
  end.
Proof.
  revert st. induction cs as [|c cs IH]; intros st Hst; cbn [push_all concat].
  { by apply push_nil. }
  rewrite push_app. destruct (push st c) as [st' [out|size]] eqn:E; [|by eauto].
  specialize (IH st' (push_settled _ _ _ _ E)). destruct (push_all st' cs) as [st'' [out'|size]].
  - by rewrite IH.
  - destruct IH as [s ->]. by eexists.
Qed.

Lemma push_all_of_concat st cs st' out : settled st →
  push st (concat cs) = (st', Ok out) → push_all st cs = (st', Ok out).
Proof.
  intros Hst H. pose proof (push_all_concat st cs Hst) as Hc.
  destruct (push_all st cs) as [s [o|]]; [congruence|]. destruct Hc as [? ?]. congruence.
Qed.

Lemma new_stream_settled : settled new_stream.
Proof. done. Qed.

(** * Encoded packets *)

Definition packet_size (p : RconPacket) : Z := 10 + Z.of_nat (length (utf8_encode (p_body p))).

Definition packet_wf (p : RconPacket) : Prop :=
  - 2 ^ 31 ≤ p_id p < 2 ^ 31 ∧ - 2 ^ 31 ≤ p_type p < 2 ^ 31 ∧
  well_formed (p_body p) = true ∧ packet_size p ≤ MAX_RCON_PACKET_SIZE.

(** The packets whose first seven bytes are not the probe tail. *)
Definition unambiguous (p : RconPacket) : Prop := ¬ (packet_size p = 256 ∧ p_id p mod 2 ^ 24 = 0).

Lemma encodePacket_eq p :
  encodePacket p = int32_le (packet_size p) ++
    int32_le (p_id p) ++ int32_le (p_type p) ++ utf8_encode (p_body p) ++ [0; 0].
Proof.
  unfold encodePacket, packet_size. f_equal. f_equal. rewrite !length_app. simpl. lia.
Qed.

Lemma length_encodePacket p : Z.of_nat (length (encodePacket p)) = 4 + packet_size p.
Proof. rewrite encodePacket_eq, !length_app. unfold packet_size. simpl. lia. Qed.

Lemma frame_step_packet p rest l e : packet_wf p →
  frame_step (Stream (encodePacket p ++ rest) l e)
  = Continue (trackProbeEcho (Stream rest l e) (p_id p) (p_type p) (packet_size p)) [p].
Proof.
  intros (Hid & Hty & Hwf & Hsz). unfold frame_step. cbn [buf lastEmptyResponseId expectProbeTail].
  assert (10 ≤ packet_size p) as Hlo by (unfold packet_size; lia).
  unfold MAX_RCON_PACKET_SIZE in Hsz.
  rewrite length_app, Nat2Z.inj_add, length_encodePacket. decide_tests. cbv zeta.
  assert (read_int32_le (encodePacket p ++ rest) 0 = packet_size p) as ->.
  { rewrite encodePacket_eq, <-app_assoc. apply read_int32_le_write. lia. }
  assert (read_int32_le (encodePacket p ++ rest) 4 = p_id p) as ->.
  { rewrite encodePacket_eq, <-!app_assoc. rewrite (read_int32_le_app (int32_le _) _ 0).
    by apply read_int32_le_write. }
  assert (read_int32_le (encodePacket p ++ rest) 8 = p_type p) as ->.
  { rewrite encodePacket_eq, <-!app_assoc. rewrite (read_int32_le_app (int32_le _) _ 4).
    rewrite (read_int32_le_app (int32_le _) _ 0). by apply read_int32_le_write. }
  unfold EMPTY_FRAME_SIZE, MAX_RCON_PACKET_SIZE. rewrite Z.gtb_ltb. decide_tests. cbn [orb].
  assert (drop (4 + Z.to_nat (packet_size p)) (encodePacket p ++ rest) = rest) as ->.
  { rewrite drop_app_length'; [done|]. pose proof (length_encodePacket p). lia. }
  assert (take (Z.to_nat (4 + packet_size p - 2 - 12)) (drop 12 (encodePacket p ++ rest))
    = utf8_encode (p_body p)) as ->.
  { rewrite encodePacket_eq, <-!app_assoc.
    match goal with |- context [drop 12 (_ ++ _ ++ _ ++ ?r)] => change (drop 12 _) with r end.
    apply take_app_length'. unfold packet_size. lia. }
  rewrite utf8_decode_encode by done. by destruct p.
Qed.

Lemma probe_tail_packet p rest : packet_wf p → unambiguous p →
  take 7 (encodePacket p ++ rest) ≠ SQUAD_BROKEN_PROBE_TAIL.
Proof.
  intros (Hid & _ & _ & Hsz) Hu H. apply Hu. rewrite encodePacket_eq in H.
  assert (10 ≤ packet_size p) as Hlo by (unfold packet_size; lia).
  unfold MAX_RCON_PACKET_SIZE in Hsz. set (tl := int32_le (p_type p) ++ _) in H.
  unfold int32_le at 1 2 in H. cbn [app take] in H. injection H as H1 H2 H3 H4 H5 H6 H7.
  unfold to_uint32 in *. set (s := packet_size p) in *. clearbody s.
  rewrite (Z.mod_small s) in * by lia.
  split; [Z.to_euclidean_division_equations; lia|].
  set (i := p_id p) in *. clearbody i. clear -Hid H5 H6 H7.
  assert (i mod 2 ^ 32 mod 2 ^ 24 = i mod 2 ^ 24) as Hm.
  { Z.to_euclidean_division_equations. lia. }
  rewrite <-Hm. generalize dependent (i mod 2 ^ 32). intros u H5 H6 H7 _.
  Z.to_euclidean_division_equations. lia.
Qed.

Lemma stream_step_packet p rest l e : packet_wf p → (e = true → unambiguous p) →
  stream_step (Stream (encodePacket p ++ rest) l e)
  = Continue (trackProbeEcho (Stream rest l false) (p_id p) (p_type p) (packet_size p)) [p].
Proof.
  intros Hwf Hu. unfold stream_step. cbn [buf lastEmptyResponseId expectProbeTail].
  pose proof (length_encodePacket p) as Hlen. assert (10 ≤ packet_size p) by (unfold packet_size; lia).
  rewrite length_app. decide_tests. destruct e; [|by apply frame_step_packet].
  cbv zeta. simpl length. replace (Nat.min _ 7) with 7%nat by lia.
  rewrite bool_decide_false by (apply probe_tail_packet; auto). by apply frame_step_packet.
Qed.

Lemma push_packets ps l e :
  Forall (fun p => packet_wf p ∧ unambiguous p) ps →
  ∃ l' e', push (Stream [] l e) (concat (encodePacket <$> ps)) = (Stream [] l' e', Ok ps).
Proof.
  setoid_rewrite push_drained. unfold extend. cbn [buf lastEmptyResponseId expectProbeTail app].
  intros H. revert l e. induction H as [|p ps [Hp Hu] _ IH]; intros l e.
  { exists l, e. by rewrite drained_eq. }
  rewrite fmap_cons. cbn [concat].
  rewrite drained_eq, stream_step_packet by auto.
  unfold trackProbeEcho. cbn [buf lastEmptyResponseId expectProbeTail].
  repeat case_match.
  all: match goal with |- context [drained (Stream _ ?l' ?e')] => destruct (IH l' e') as (l'' & e'' & ->) end.
  all: by eexists _, _.
Qed.

(** * Properties *)

(** C23: packet boundaries do not depend on TCP chunking. Pushing a connection's
    chunks one by one gives the same packets, and the same final stream state,
    as pushing all the bytes at once; if one push throws, so does the other,
    with the same invalid size. *)
Theorem push_chunking_irrelevant cs :
  match push_all new_stream cs with
  | (st, Ok out) => push new_stream (concat cs) = (st, Ok out)
  | (_, Throw size) => ∃ st, push new_stream (concat cs) = (st, Throw size)
  end.
Proof. apply push_all_concat, new_stream_settled. Qed.

(** Codec round trip. However the bytes are chunked, the encodings of any
    sequence of well-formed packets decode to exactly those packets, from a
    fresh stream, provided none of them begins with the seven bytes of the probe
    tail (size 256 and an id divisible by 2^24). *)
Theorem encodePacket_roundtrip ps cs :
  Forall (fun p => packet_wf p ∧ unambiguous p) ps →
  concat cs = concat (encodePacket <$> ps) →
  ∃ st, push_all new_stream cs = (st, Ok ps) ∧ buf st = [].
Proof.
  intros Hps Hcs. destruct (push_packets ps None false Hps) as (l & e & H).
  exists (Stream [] l e). split; [|done].
  apply push_all_of_concat; [apply new_stream_settled|by rewrite Hcs].
Qed.

Lemma encodePacket_roundtrip_witness :
  ∃ st, push_all new_stream [[12; 0; 0]; [0; 7; 0; 0; 0; 2; 0; 0; 0; 104]; [105; 0; 0]]
    = (st, Ok [Packet 7 2 (js "hi")]) ∧ buf st = [].
Proof.
  apply (encodePacket_roundtrip [Packet 7 2 (js "hi")]); [|reflexivity].
  constructor; [|constructor]. split.
  - unfold packet_wf. vm_compute. intuition discriminate.
  - unfold unambiguous. vm_compute. intros []. discriminate.
Defined.

(** Squad's doubled probe reply. After two empty responses with the same id,
    the seven broken bytes are dropped and the next packet, whatever it is, is
    read correctly, for every chunking of the stream. *)
Theorem broken_probe_tail_stripped id p cs :
  packet_wf (Packet id SERVERDATA_RESPONSE_VALUE []) → packet_wf p →
  let echo := Packet id SERVERDATA_RESPONSE_VALUE [] in
  concat cs = encodePacket echo ++ encodePacket echo ++ SQUAD_BROKEN_PROBE_TAIL ++ encodePacket p →
  ∃ st, push_all new_stream cs = (st, Ok [echo; echo; p]).
Proof.
  intros He Hp echo Hcs.
  enough (∃ st, push new_stream (concat cs) = (st, Ok [echo; echo; p])) as [st H].
  { exists st. by apply push_all_of_concat; [apply new_stream_settled|]. }
  rewrite Hcs, push_drained. unfold extend, new_stream.
  cbn [buf lastEmptyResponseId expectProbeTail app].
  rewrite drained_eq, stream_step_packet by done.
  change (trackProbeEcho _ _ _ _) with
    (Stream (encodePacket echo ++ SQUAD_BROKEN_PROBE_TAIL ++ encodePacket p) (Some id) false).
  rewrite drained_eq, stream_step_packet by done.
  assert (trackProbeEcho (Stream (SQUAD_BROKEN_PROBE_TAIL ++ encodePacket p) (Some id) false)
    (p_id echo) (p_type echo) (packet_size echo)
    = Stream (SQUAD_BROKEN_PROBE_TAIL ++ encodePacket p) None true) as ->.
  { unfold trackProbeEcho. cbn [lastEmptyResponseId echo p_id p_type buf].
    rewrite bool_decide_true by done. reflexivity. }
  rewrite drained_eq. assert (stream_step (Stream (SQUAD_BROKEN_PROBE_TAIL ++ encodePacket p) None true)
    = Continue (Stream (encodePacket p) None false) []) as ->.
  { unfold stream_step. cbn [buf expectProbeTail lastEmptyResponseId]. rewrite length_app.
    simpl length. decide_tests. cbv zeta. rewrite Nat.min_r by lia.
    rewrite bool_decide_true by done. reflexivity. }
  rewrite drained_eq. rewrite <-(app_nil_r (encodePacket p)), stream_step_packet by done.
  rewrite drained_eq. unfold stream_step. rewrite trackProbeEcho_buf. by eexists.
Qed.

Lemma broken_probe_tail_stripped_witness :
  ∃ st, push_all new_stream
    [encodePacket (Packet 1002 0 []); encodePacket (Packet 1002 0 []) ++ [0; 1]; [0; 0; 0; 0; 0] ++
     encodePacket (Packet 0 1 (js "x"))]
    = (st, Ok [Packet 1002 0 []; Packet 1002 0 []; Packet 0 1 (js "x")]).
Proof.
  apply (broken_probe_tail_stripped 1002 (Packet 0 1 (js "x"))); try reflexivity.
  all: unfold packet_wf; vm_compute; intuition discriminate.
Defined.

(** Bounded memory. After a successful [push] the stream retains fewer than
    [4 + MAX_RCON_PACKET_SIZE] bytes, whatever a peer sends. *)
Theorem push_buffer_bounded st chunk st' out :
  push st chunk = (st', Ok out) → Z.of_nat (length (buf st')) < 4 + MAX_RCON_PACKET_SIZE.
Proof.
  intros Hs%push_settled. unfold settled, stream_step, frame_step, MAX_RCON_PACKET_SIZE in *.
  repeat (case_match; simplify_eq/=); bool_to_Prop;
    try match goal with H : (_ <? _)%nat = true |- _ => apply Nat.ltb_lt in H end;
    simpl in *; try lia.
  all: match goal with H : _ ∨ _ |- _ => destruct H; bool_to_Prop; lia | _ => idtac end.
Qed.

Lemma push_buffer_bounded_witness : Z.of_nat (length (buf (Stream [1; 0; 0] None false))) < 4 + MAX_RCON_PACKET_SIZE.
Proof. exact (push_buffer_bounded new_stream [1; 0; 0] (Stream [1; 0; 0] None false) [] eq_refl). Defined.
