(* ===== verification/Seeding.v ===== *)
(** [apps/workers/rcon/src/seeding.ts] and
    [apps/workers/rcon/src/supervisor/seeding-tracker.ts]: the per-server seeding
    state machine with its hysteresis band, and the tracker that feeds it polls
    and publishes its transitions.

    Player counts and thresholds are integers; the progress percentage is
    computed in IEEE binary64 as the code does (Standard Library [SpecFloat]). *)
From S2P Require Import Prelude JsString JsMap.
From Stdlib Require Import SpecFloat.

(** * Binary64 arithmetic *)

Definition f64_of_Z (z : Z) : spec_float := binary_normalize 53 1024 z 0 false.
Definition f64_div := SFdiv 53 1024.
Definition f64_mul := SFmul 53 1024.

(** [Math.floor] of a finite number; [None] for NaN and infinities. *)
Definition f64_floor (x : spec_float) : option Z :=
  match x with
  | S754_zero _ => Some 0
  | S754_finite s m e =>
      let n := if s then Zneg m else Zpos m in
      Some (if 0 <=? e then n * 2 ^ e else n / 2 ^ (- e))
  | _ => None
  end.

(** * The state machine *)

Inductive SeedingStateName := seeding | live.
#[export] Instance SeedingStateName_eq_dec : EqDecision SeedingStateName.
Proof. solve_decision. Defined.

Record SeedingState := mkSeedingState {
  state : SeedingStateName;
  started_at : option jstr;
  current_players : Z;
  live_at : Z;
  progress_pct : Z;
  layer : option jstr;
  updated_at : jstr;
}.
#[export] Instance SeedingState_eq_dec : EqDecision SeedingState.
Proof. solve_decision. Defined.

Record SeedingTickInput := mkTickInput {
  playerCount : Z;
  seedLayer : bool;
  liveAt : Z;
  hysteresis : Z;
  now : jstr;
  inputLayer : option jstr;
}.

Inductive SeedingTransition := started | ended.
#[export] Instance SeedingTransition_eq_dec : EqDecision SeedingTransition.
Proof. solve_decision. Defined.

(** ASCII case folding; [/seed/i] without the [u] flag folds nothing else onto
    these letters. *)
Definition fold_case (c : Z) : Z := if (65 <=? c) && (c <=? 90) then c + 32 else c.

Definition isSeedLayer (layerName : option jstr) (catalogIsSeed : option bool) : bool :=
  match catalogIsSeed with
  | Some b => b
  | None =>
      match layerName with
      | None | Some [] => false
      | Some name => includes (js "seed") (fold_case <$> name)
      end
  end.

Definition computeProgressPct (playerCount liveAt : Z) : Z :=
  if liveAt <=? 0 then 100
  else
    let ratio := f64_mul (f64_div (f64_of_Z playerCount) (f64_of_Z liveAt)) (f64_of_Z 100) in
    Z.min 100 (Z.max 0 (default 0 (f64_floor ratio))).

Definition computeSeedingTick (prev : option SeedingState) (input : SeedingTickInput)
    : SeedingState * option SeedingTransition :=
  let '(mkTickInput playerCount seedLayer liveAt hysteresis now layer) := input in
  let progressPct := computeProgressPct playerCount liveAt in
  match prev with
  | None =>
      let isSeeding := (playerCount <? liveAt) || seedLayer in
      (mkSeedingState (if isSeeding then seeding else live) (if isSeeding then Some now else None)
         playerCount liveAt progressPct layer now,
       if isSeeding then Some started else None)
  | Some prev =>
      match state prev with
      | live =>
          let enterSeeding := (playerCount <? liveAt - hysteresis) || seedLayer in
          if enterSeeding
          then (mkSeedingState seeding (Some now) playerCount liveAt progressPct layer now, Some started)
          else (mkSeedingState (state prev) (started_at prev) playerCount liveAt progressPct layer now, None)
      | seeding =>
          let exitToLive := (playerCount >=? liveAt) && negb seedLayer in
          if exitToLive
          then (mkSeedingState live None playerCount liveAt progressPct layer now, Some ended)
          else (mkSeedingState (state prev) (started_at prev) playerCount liveAt progressPct layer now, None)
      end
  end.

(** * The tracker *)

Definition DEFAULT_SEED_LIVE_AT : Z := 60.
Definition DEFAULT_SEED_HYSTERESIS : Z := 5.

(** The target's settings the tracker reads. *)
Record Target := mkTarget { serverId : jstr; seedLiveAt : option Z; seedHysteresis : option Z }.

Record SeedingTracker := mkTracker {
  seedingState : option SeedingState;
  seedingStateLoaded : bool;
  layerIsSeedCache : list (jstr * option bool);
}.

(** The payload of a transition event; the last two fields are the notification
    context added to [server.seeding_started]. *)
Record TransitionPayload := mkPayload {
  player_count : Z;
  pl_layer : option jstr;
  pl_live_at : Z;
  pl_hysteresis : Z;
  pl_progress_pct : Z;
  server_name : option jstr;
  join_link : option jstr;
}.

(** The outside calls, in the order they are attempted; each failure is caught. *)
Inductive effect :=
| SetStateKey (st : SeedingState)
| PublishLive (st : SeedingState)
| SplitOpenSessions (kind : SeedingTransition)
| XaddEvent (kind : SeedingTransition) (payload : TransitionPayload)
| InsertEvent (kind : SeedingTransition) (payload : TransitionPayload)
| NotifySeedSubscribers (payload : TransitionPayload).

(** What the database and the environment answer. A failed query is [None]. *)
Record World := mkWorld {
  (** [layers] rows of a name: the first row's [is_seed], if any. *)
  layer_rows : jstr → option (option bool);
  (** The server's display name and game port, when both rows exist. *)
  server_context : option (option (jstr * jstr));
  seedPublicHost : option jstr;
}.

(** [loadPriorSeedingState]; [stored] is the parsed cache entry, [None] when it
    is missing, unreadable or fails validation. *)
Definition loadPriorSeedingState (t : SeedingTracker) (stored : option SeedingState) : SeedingTracker :=
  if seedingStateLoaded t then t
  else mkTracker (match stored with Some st => Some st | None => seedingState t end) true
         (layerIsSeedCache t).

Definition resolveLayerIsSeed (w : World) (t : SeedingTracker) (layerName : option jstr)
    : SeedingTracker * option bool :=
  match layerName with
  | None | Some [] => (t, None)
  | Some name =>
      match map_get (layerIsSeedCache t) name with
      | Some cached => (t, cached)
      | None =>
          match layer_rows w name with
          | Some answer =>
              (mkTracker (seedingState t) (seedingStateLoaded t)
                 (map_set (layerIsSeedCache t) name answer), answer)
          | None => (t, None)
          end
      end
  end.

Definition emitSeedingTransition (w : World) (kind : SeedingTransition) (payload : TransitionPayload)
    : list effect :=
  let eventPayload :=
    match kind, server_context w with
    | started, Some (Some (displayName, gamePort)) =>
        mkPayload (player_count payload) (pl_layer payload) (pl_live_at payload)
          (pl_hysteresis payload) (pl_progress_pct payload) (Some displayName)
          ((fun host => js "steam://connect/" ++ host ++ js ":" ++ gamePort) <$> seedPublicHost w)
    | _, _ => payload
    end in
  [SplitOpenSessions kind; XaddEvent kind eventPayload; InsertEvent kind eventPayload]
  ++ match kind with started => [NotifySeedSubscribers eventPayload] | ended => [] end.

Definition tickSeeding (w : World) (target : Target) (t : SeedingTracker)
    (playerCount : Z) (layerName : option jstr) (polledAt : jstr) : SeedingTracker * list effect :=
  let '(t, catalogIsSeed) := resolveLayerIsSeed w t layerName in
  let seedLayer := isSeedLayer layerName catalogIsSeed in
  let liveAt := default DEFAULT_SEED_LIVE_AT (seedLiveAt target) in
  let hysteresis := default DEFAULT_SEED_HYSTERESIS (seedHysteresis target) in
  let previousProgressPct := progress_pct <$> seedingState t in
  let '(st, transition) :=
    computeSeedingTick (seedingState t)
      (mkTickInput playerCount seedLayer liveAt hysteresis polledAt layerName) in
  let t := mkTracker (Some st) (seedingStateLoaded t) (layerIsSeedCache t) in
  (t, SetStateKey st ::
      match transition with
      | Some kind =>
          emitSeedingTransition w kind
            (mkPayload (current_players st) (layer st) (live_at st) hysteresis (progress_pct st) None None)
          ++ [PublishLive st]
      | None =>
          if bool_decide (previousProgressPct = Some (progress_pct st)) then [] else [PublishLive st]
      end).

(** * Lemmas *)

(** A seeding period is open exactly in the [seeding] state, and the progress is
    a percentage. *)
Definition state_ok (st : SeedingState) : Prop :=
  (state st = seeding ↔ started_at st ≠ None) ∧ 0 ≤ progress_pct st ≤ 100.

Lemma computeProgressPct_range p l : 0 ≤ computeProgressPct p l ≤ 100.
Proof. unfold computeProgressPct. case_match; lia. Qed.

Lemma computeSeedingTick_ok prev input :
  (∀ st, prev = Some st → state_ok st) → state_ok (computeSeedingTick prev input).1.
Proof.
  destruct input as [p s l h n ly]. unfold computeSeedingTick, state_ok. cbv zeta.
  pose proof (computeProgressPct_range p l). intros Hprev.
  destruct prev as [st|]; [specialize (Hprev st eq_refl); destruct Hprev as [Hst _];
    destruct (state st) eqn:E|]; repeat case_match; simpl; rewrite ?E in *; split; try done; try lia;
    naive_solver.
Qed.

(** The run of the machine over a sequence of polls. *)
Fixpoint run_ticks (prev : option SeedingState) (inputs : list SeedingTickInput)
    : option SeedingState * list SeedingTransition :=
  match inputs with
  | [] => (prev, [])
  | i :: inputs =>
      let '(st, tr) := computeSeedingTick prev i in
      let '(last, trs) := run_ticks (Some st) inputs in
      (last, option_list tr ++ trs)
  end.

Definition in_seeding (prev : option SeedingState) : bool :=
  match prev with Some st => bool_decide (state st = seeding) | None => false end.

(** [started] and [ended] in turn; [b] says a period is open. *)
Fixpoint alternates (b : bool) (trs : list SeedingTransition) : bool :=
  match trs with
  | [] => true
  | started :: trs => negb b && alternates true trs
  | ended :: trs => b && alternates false trs
  end.

Lemma computeSeedingTick_transition prev input :
  let '(st, tr) := computeSeedingTick prev input in
  tr = match in_seeding prev, in_seeding (Some st) with
       | false, true => Some started
       | true, false => Some ended
       | _, _ => None
       end.
Proof.
  destruct input as [p s l h n ly]. unfold computeSeedingTick, in_seeding. cbv zeta.
  destruct prev as [st|]; [destruct (state st) eqn:E|]; repeat case_match; simplify_eq/=;
    rewrite ?E in *; repeat case_bool_decide; done.
Qed.

Lemma run_ticks_alternates inputs prev :
  alternates (in_seeding prev) (run_ticks prev inputs).2 = true.
Proof.
  revert prev. induction inputs as [|i inputs IH]; intros prev; simpl; [done|].
  pose proof (computeSeedingTick_transition prev i) as Ht.
  destruct (computeSeedingTick prev i) as [st tr]. subst tr.
  specialize (IH (Some st)). destruct (run_ticks (Some st) inputs) as [last trs]. cbn [snd] in *.
  destruct (in_seeding prev), (in_seeding (Some st)); simpl; by rewrite IH.
Qed.

Lemma run_ticks_ok inputs prev :
  (∀ st, prev = Some st → state_ok st) →
  ∀ st, (run_ticks prev inputs).1 = Some st → state_ok st.
Proof.
  revert prev. induction inputs as [|i inputs IH]; intros prev Hprev st; simpl; [apply Hprev|].
  pose proof (computeSeedingTick_ok prev i Hprev) as Hok.
  destruct (computeSeedingTick prev i) as [st1 tr]. cbn [fst] in Hok.
  specialize (IH (Some st1)). destruct (run_ticks (Some st1) inputs). cbn [fst] in *.
  apply IH. intros ? [= <-]. done.
Qed.

(** Inside the hysteresis band, off seed layers. *)
Definition in_band (i : SeedingTickInput) : Prop :=
  liveAt i - hysteresis i ≤ playerCount i < liveAt i ∧ seedLayer i = false.

Lemma run_ticks_band inputs st :
  Forall in_band inputs →
  ∃ st', run_ticks (Some st) inputs = (Some st', []) ∧
    state st' = state st ∧ started_at st' = started_at st.
Proof.
  intros H. revert st. induction H as [|[p s l h n ly] inputs [Hb Hs] _ IH]; intros st; simpl; [eauto|].
  simpl in *. subst s. unfold computeSeedingTick. cbv zeta.
  destruct (state st) eqn:E.
  - assert (p >=? l = false) as -> by lia. cbn [andb].
    destruct (IH (mkSeedingState seeding (started_at st) p l (computeProgressPct p l) ly n)) as (st' & -> & ? & ?).
    simpl. eauto.
  - assert (p <? l - h = false) as -> by lia. cbn [orb].
    destruct (IH (mkSeedingState live (started_at st) p l (computeProgressPct p l) ly n)) as (st' & -> & ? & ?).
    simpl. eauto.
Qed.

(** * Properties *)

(** From any starting point with a consistent state, every run of polls
    keeps the machine consistent (a start time is set exactly while seeding, the
    progress stays in 0..100) and its transitions alternate between [started]
    and [ended], beginning with [started] unless a seeding period was already
    open. *)
Theorem seeding_run_consistent inputs prev :
  (∀ st, prev = Some st → state_ok st) →
  (∀ st, (run_ticks prev inputs).1 = Some st → state_ok st) ∧
  alternates (in_seeding prev) (run_ticks prev inputs).2 = true.
Proof. intros H. split; [by apply run_ticks_ok|apply run_ticks_alternates]. Qed.

Lemma seeding_run_consistent_witness :
  (run_ticks None [mkTickInput 30 false 60 5 (js "t0") None; mkTickInput 60 false 60 5 (js "t1") None;
                   mkTickInput 54 false 60 5 (js "t2") None]).2 = [started; ended; started] ∧
  alternates false [started; ended; started] = true.
Proof.
  split; [vm_compute; reflexivity|].
  exact (proj2 (seeding_run_consistent
    [mkTickInput 30 false 60 5 (js "t0") None; mkTickInput 60 false 60 5 (js "t1") None;
     mkTickInput 54 false 60 5 (js "t2") None] None ltac:(discriminate))).
Defined.

(** No flapping. While the player count stays inside the band
    [[liveAt - hysteresis, liveAt)] and the layer is not a seed layer, no
    transition is emitted, and the state and its start time do not change,
    however many polls pass. *)
Theorem seeding_no_flapping inputs st :
  Forall in_band inputs →
  ∃ st', run_ticks (Some st) inputs = (Some st', []) ∧
    state st' = state st ∧ started_at st' = started_at st.
Proof. apply run_ticks_band. Qed.

Lemma seeding_no_flapping_witness :
  ∃ st', run_ticks (Some (mkSeedingState live None 70 60 100 None (js "t")))
    [mkTickInput 56 false 60 5 (js "u") None; mkTickInput 59 false 60 5 (js "v") None] = (Some st', []) ∧
    state st' = live ∧ started_at st' = None.
Proof.
  apply (seeding_no_flapping
    [mkTickInput 56 false 60 5 (js "u") None; mkTickInput 59 false 60 5 (js "v") None]
    (mkSeedingState live None 70 60 100 None (js "t"))).
  repeat constructor; simpl; lia.
Defined.

(** One poll of the tracker. The cached state always becomes the computed
    one, the transition effects (session split, stream event, durable event and,
    for [started] only, subscriber notification) run exactly when the seeding
    status flips, and the live bus hears of every flip and every change of the
    progress percentage. *)
Theorem tickSeeding_effects w target t playerCount layerName polledAt :
  let '(t', effects) := tickSeeding w target t playerCount layerName polledAt in
  ∃ st, seedingState t' = Some st ∧ SetStateKey st ∈ effects ∧
  (∀ kind, SplitOpenSessions kind ∈ effects ↔
     in_seeding (seedingState t) ≠ in_seeding (seedingState t') ∧
     kind = (if in_seeding (seedingState t') then started else ended)) ∧
  ((∃ pl, NotifySeedSubscribers pl ∈ effects) ↔
     in_seeding (seedingState t) = false ∧ in_seeding (seedingState t') = true) ∧
  (PublishLive st ∈ effects ↔
     in_seeding (seedingState t) ≠ in_seeding (seedingState t') ∨
     progress_pct <$> seedingState t ≠ Some (progress_pct st)).
Proof.
  unfold tickSeeding. destruct (resolveLayerIsSeed w t layerName) as [t1 cat] eqn:Er.
  assert (seedingState t1 = seedingState t) as ->.
  { unfold resolveLayerIsSeed in Er. repeat case_match; by simplify_eq/=. }
  set (input := mkTickInput _ _ _ _ _ _).
  pose proof (computeSeedingTick_transition (seedingState t) input) as Ht.
  destruct (computeSeedingTick (seedingState t) input) as [st tr]. subst tr. clear.
  exists st. cbn [seedingState]. split; [done|]. split; [by left|].
  set (b := in_seeding (seedingState t)). set (b' := in_seeding (Some st)). unfold emitSeedingTransition.
  destruct b, b'; simpl; try (case_bool_decide as Ep); rewrite ?Ep; set_solver.
Qed.

(** The displayed percentage is computed in floating point and can fall one
    below the exact value: 29 of 100 players show as 28%. *)
Theorem progress_rounds_below_exact :
  computeProgressPct 29 100 = 28 ∧ Z.min 100 (29 * 100 / 100) = 29.
Proof. vm_compute. done. Qed.
