(* ===== verification/SquadTracker.v ===== *)
(** [apps/workers/rcon/src/squad-tracker.ts]: squad history from consecutive
    roster snapshots. Creations, leader changes and disbands are inferred by
    comparing two refreshes of one server.

    The two [Map]s of a snapshot keep their insertion order ([JsMap]), because
    the order of the reported events is the order of [next.squads]. *)
From S2P Require Import Prelude JsString JsMap.

(** * Data *)

(** Rows of [parse-list-players.ts] and [parse-list-squads.ts]. *)
Record RconPlayer := mkPlayer {
  rcon_id : Z;
  player_eos_id : jstr;
  player_steam_id64 : option jstr;
  player_name : jstr;
  player_team_id : option Z;
  player_squad_id : option Z;
  is_leader : option bool;
  role : option jstr;
}.

Record RconSquad := mkSquad {
  sq_team_id : Z;
  sq_team_name : jstr;
  sq_squad_id : Z;
  sq_name : jstr;
  sq_size : Z;
  locked : bool;
  creator_name : jstr;
  creator_eos_id : option jstr;
  creator_steam_id64 : option jstr;
  is_command_squad : bool;
}.

(** [squad-broadcast.ts]. *)
Record SquadCreatedBroadcast := mkBroadcast {
  b_creatorName : jstr;
  b_creatorEosId : jstr;
  b_creatorSteamId64 : option jstr;
  b_squadId : Z;
  b_squadName : jstr;
  b_teamName : jstr;
  b_at : jstr;
}.

Record SquadPlayerRef := mkRef { eos_id : jstr; steam_id64 : option jstr; ref_name : jstr }.

Definition MASS_VANISH_MIN_SQUADS : nat := 3.

Record TrackedSquad := mkTracked {
  teamId : Z;
  teamName : jstr;
  squadId : Z;
  name : jstr;
  creator : SquadPlayerRef;
  leader : option SquadPlayerRef;
  lastLeader : option SquadPlayerRef;
}.

Record PlayerPlacement := mkPlacement { pl_teamId : option Z; pl_squadId : option Z }.

Record SquadSnapshot := mkSnapshot {
  polledAt : jstr;
  squads : list (jstr * TrackedSquad);
  players : list (jstr * PlayerPlacement);
}.

Inductive SquadLeaderChangeReason := passed | left_squad | disconnected.
#[export] Instance SquadLeaderChangeReason_eq_dec : EqDecision SquadLeaderChangeReason.
Proof. solve_decision. Defined.

Record SquadPayload := mkPayloadBase {
  p_team_id : Z;
  p_team_name : jstr;
  p_squad_id : Z;
  p_squad_name : jstr;
  p_creator : SquadPlayerRef;
}.

Inductive SquadEvent :=
| squad_created (at_ : jstr) (payload : SquadPayload)
| squad_leader_changed (at_ : jstr) (payload : SquadPayload) (from to : SquadPlayerRef)
    (reason : SquadLeaderChangeReason)
| squad_disbanded (at_ : jstr) (payload : SquadPayload) (last_leader : option SquadPlayerRef)
    (creator_was_leader : bool).

Record SquadDiff := mkDiff {
  events : list SquadEvent;
  d_state : SquadSnapshot;
  d_pending : list SquadCreatedBroadcast;
  reset : bool;
}.

(** * Operations *)

Definition slotKey (team squad : Z) : jstr := int_str team ++ js ":" ++ int_str squad.
Definition squadKey (team squad : Z) (creatorEosId : jstr) : jstr :=
  int_str team ++ js ":" ++ int_str squad ++ js ":" ++ creatorEosId.

Definition playerRef (p : RconPlayer) : SquadPlayerRef :=
  mkRef (player_eos_id p) (player_steam_id64 p) (player_name p).

(** The first loop of [buildSquadSnapshot]: placements, online players, leaders. *)
Fixpoint index_players (ps : list RconPlayer)
    (acc : list (jstr * PlayerPlacement) * list (jstr * RconPlayer) * list (jstr * SquadPlayerRef)) :=
  match ps with
  | [] => acc
  | p :: ps =>
      let '(placements, online, leaders) := acc in
      let placements := map_set placements (player_eos_id p)
                          (mkPlacement (player_team_id p) (player_squad_id p)) in
      let online := map_set online (player_eos_id p) p in
      let leaders :=
        match is_leader p, player_team_id p, player_squad_id p with
        | Some true, Some t, Some s => map_set leaders (slotKey t s) (playerRef p)
        | _, _, _ => leaders
        end in
      index_players ps (placements, online, leaders)
  end.

(** The second loop: the squads whose creator has an EOS id. *)
Fixpoint index_squads (online : list (jstr * RconPlayer)) (leaders : list (jstr * SquadPlayerRef))
    (sqs : list RconSquad) (tracked : list (jstr * TrackedSquad)) : list (jstr * TrackedSquad) :=
  match sqs with
  | [] => tracked
  | sq :: sqs =>
      match creator_eos_id sq with
      | None | Some [] => index_squads online leaders sqs tracked
      | Some creatorEosId =>
          let ldr := map_get leaders (slotKey (sq_team_id sq) (sq_squad_id sq)) in
          let steam := match creator_steam_id64 sq with
                       | Some s => Some s
                       | None => map_get online creatorEosId ≫= player_steam_id64
                       end in
          index_squads online leaders sqs
            (map_set tracked (squadKey (sq_team_id sq) (sq_squad_id sq) creatorEosId)
               (mkTracked (sq_team_id sq) (sq_team_name sq) (sq_squad_id sq) (sq_name sq)
                  (mkRef creatorEosId steam (creator_name sq)) ldr ldr))
      end
  end.

Definition buildSquadSnapshot (sqs : list RconSquad) (ps : list RconPlayer) (at_ : jstr) : SquadSnapshot :=
  let '(placements, online, leaders) := index_players ps ([], [], []) in
  mkSnapshot at_ (index_squads online leaders sqs []) placements.

Definition payloadBase (sq : TrackedSquad) : SquadPayload :=
  mkPayloadBase (teamId sq) (teamName sq) (squadId sq) (name sq) (creator sq).

Definition leaveReason (from : SquadPlayerRef) (sq : TrackedSquad) (next : SquadSnapshot)
    : SquadLeaderChangeReason :=
  match map_get (players next) (eos_id from) with
  | None => disconnected
  | Some pl =>
      if bool_decide (pl_teamId pl = Some (teamId sq)) && bool_decide (pl_squadId pl = Some (squadId sq))
      then passed else left_squad
  end.

(** [a ?? b]. *)
Definition nullish {A} (a b : option A) : option A := match a with Some x => Some x | None => b end.

Definition broadcast_matches (sq : TrackedSquad) (b : SquadCreatedBroadcast) : bool :=
  bool_decide (b_squadId b = squadId sq) && bool_decide (b_creatorEosId b = eos_id (creator sq)).

(** [matching.reduce(...)]: the first broadcast with the smallest [at]. *)
Definition earliest_of (matching : list SquadCreatedBroadcast) : option SquadCreatedBroadcast :=
  foldl (fun first b =>
    match first with
    | None => Some b
    | Some f => if str_lt (b_at b) (b_at f) then Some b else first
    end) None matching.

(** One round of the loop over [next.squads], on [events], [pending], [squads]. *)
Definition diff_squad (prev next : SquadSnapshot) (key : jstr) (sq : TrackedSquad)
    (acc : list SquadEvent * list SquadCreatedBroadcast * list (jstr * TrackedSquad)) :=
  let '(evs, pending, out) := acc in
  match map_get (squads prev) key with
  | None =>
      let matching := jfilter (broadcast_matches sq) pending in
      let pending := jfilter (fun b => negb (broadcast_matches sq b)) pending in
      let earliest := earliest_of matching in
      let created :=
        mkTracked (teamId sq) (teamName sq) (squadId sq) (name sq)
          (mkRef (eos_id (creator sq))
             (nullish (steam_id64 (creator sq)) (earliest ≫= b_creatorSteamId64))
             (ref_name (creator sq)))
          (leader sq) (lastLeader sq) in
      (evs ++ [squad_created (default (polledAt next) (b_at <$> earliest)) (payloadBase created)],
       pending, map_set out key created)
  | Some before =>
      let previousLeader := nullish (leader before) (lastLeader before) in
      let out := map_set out key
        (mkTracked (teamId sq) (teamName sq) (squadId sq) (name sq) (creator sq) (leader sq)
           (nullish (leader sq) previousLeader)) in
      match leader sq, previousLeader with
      | Some to, Some from =>
          if bool_decide (eos_id to = eos_id from) then (evs, pending, out)
          else (evs ++ [squad_leader_changed (polledAt next) (payloadBase sq) from to
                          (leaveReason from sq next)], pending, out)
      | _, _ => (evs, pending, out)
      end
  end.

Fixpoint diff_next (prev next : SquadSnapshot) (todo : list (jstr * TrackedSquad))
    (acc : list SquadEvent * list SquadCreatedBroadcast * list (jstr * TrackedSquad)) :=
  match todo with
  | [] => acc
  | (key, sq) :: todo => diff_next prev next todo (diff_squad prev next key sq acc)
  end.

Definition disband_event (next : SquadSnapshot) (sq : TrackedSquad) : SquadEvent :=
  let last := nullish (leader sq) (lastLeader sq) in
  squad_disbanded (polledAt next) (payloadBase sq) last
    (match last with Some l => bool_decide (eos_id l = eos_id (creator sq)) | None => false end).

Definition disbands (prev next : SquadSnapshot) : list SquadEvent :=
  (fun e : jstr * TrackedSquad => disband_event next e.2)
    <$> jfilter (fun e => negb (map_has (squads next) e.1)) (squads prev).

Definition diffSquads (prev : option SquadSnapshot) (next : SquadSnapshot)
    (pendingCreated : list SquadCreatedBroadcast) : SquadDiff :=
  match prev with
  | None => mkDiff [] next pendingCreated false
  | Some prev =>
      let everySquadVanished :=
        forallb (fun key => negb (map_has (squads next) key)) (map_keys (squads prev)) in
      if (MASS_VANISH_MIN_SQUADS <=? length (squads prev))%nat && everySquadVanished
      then mkDiff [] next [] true
      else
        let '(evs, pending, out) := diff_next prev next (squads next) ([], pendingCreated, []) in
        mkDiff (evs ++ disbands prev next) (mkSnapshot (polledAt next) out (players next)) pending false
  end.

(** * Identity and well-formed snapshots *)

Lemma squadKey_inj t s c t' s' c' :
  squadKey t s c = squadKey t' s' c' → t = t' ∧ s = s' ∧ c = c'.
Proof.
  assert (∀ n, 58 ∉ int_str n) as Hc by (intros n [?|?]%int_str_chars; lia).
  unfold squadKey. intros [H1 H]%(separator_inj 58); [|done..].
  apply (separator_inj 58) in H as [H2 ->]; [|done..].
  by apply int_str_inj in H1, H2.
Qed.

Definition tracked_key (sq : TrackedSquad) : jstr :=
  squadKey (teamId sq) (squadId sq) (eos_id (creator sq)).

Definition entry_ok (e : jstr * TrackedSquad) : Prop :=
  e.1 = tracked_key e.2 ∧ (leader e.2 ≠ None → lastLeader e.2 = leader e.2).

(** Distinct keys, each the identity of its squad; a current leader is also the
    last leader. *)
Definition snapshot_ok (s : SquadSnapshot) : Prop :=
  map_ok (squads s) ∧ Forall entry_ok (squads s).

Lemma Forall_map_set {K V} `{!EqDecision K} (P : K * V → Prop) m k v :
  Forall P m → P (k, v) → Forall P (map_set m k v).
Proof.
  intros Hm Hk. induction Hm as [|[k' v'] m H Hm IH]; simpl; [by repeat constructor|].
  case_bool_decide; subst; by constructor.
Qed.

Lemma index_squads_ok online leaders sqs tracked :
  map_ok tracked → Forall entry_ok tracked →
  map_ok (index_squads online leaders sqs tracked) ∧
  Forall entry_ok (index_squads online leaders sqs tracked).
Proof.
  revert tracked. induction sqs as [|sq sqs IH]; intros tracked Hm Hf; simpl; [done|].
  destruct (creator_eos_id sq) as [[|c cs]|]; [by apply IH| |by apply IH].
  apply IH; [by apply map_set_ok|]. by apply Forall_map_set.
Qed.

Lemma buildSquadSnapshot_ok sqs ps at_ : snapshot_ok (buildSquadSnapshot sqs ps at_).
Proof.
  unfold buildSquadSnapshot, snapshot_ok. destruct (index_players ps _) as [[? ?] ?]. simpl.
  apply index_squads_ok; [constructor|constructor].
Qed.

(** * What a diff reports *)

Definition event_payload (e : SquadEvent) : SquadPayload :=
  match e with
  | squad_created _ p | squad_leader_changed _ p _ _ _ | squad_disbanded _ p _ _ => p
  end.
Definition event_key (e : SquadEvent) : jstr :=
  let p := event_payload e in squadKey (p_team_id p) (p_squad_id p) (eos_id (p_creator p)).

Definition created_key (e : SquadEvent) : option jstr :=
  match e with squad_created _ _ => Some (event_key e) | _ => None end.
Definition disbanded_key (e : SquadEvent) : option jstr :=
  match e with squad_disbanded _ _ _ _ => Some (event_key e) | _ => None end.
(** Key, previous leader and new leader of a leader change. *)
Definition change_of (e : SquadEvent) : option (jstr * (jstr * jstr)) :=
  match e with
  | squad_leader_changed _ _ from to _ => Some (event_key e, (eos_id from, eos_id to))
  | _ => None
  end.

(** The change of leader between two records of one squad. *)
Definition leader_move (before sq : TrackedSquad) : option (jstr * jstr) :=
  match leader sq, nullish (leader before) (lastLeader before) with
  | Some to, Some from =>
      if bool_decide (eos_id to = eos_id from) then None else Some (eos_id from, eos_id to)
  | _, _ => None
  end.
Definition entry_move (prev : SquadSnapshot) (e : jstr * TrackedSquad) : option (jstr * (jstr * jstr)) :=
  before ← map_get (squads prev) e.1; pair e.1 <$> leader_move before e.2.

(** The record a squad of [next] gets in the new state, its creator's Steam id
    aside. *)
Definition carried_leader (prev : SquadSnapshot) (e : jstr * TrackedSquad) : option SquadPlayerRef :=
  match map_get (squads prev) e.1 with
  | Some before => nullish (leader e.2) (nullish (leader before) (lastLeader before))
  | None => lastLeader e.2
  end.

Definition same_squad (prev : SquadSnapshot) (e e' : jstr * TrackedSquad) : Prop :=
  e'.1 = e.1 ∧ tracked_key e'.2 = tracked_key e.2 ∧ leader e'.2 = leader e.2 ∧
  lastLeader e'.2 = carried_leader prev e.

Lemma map_set_fresh {K V} `{!EqDecision K} (m : list (K * V)) k v :
  k ∉ map_keys m → map_set m k v = m ++ [(k, v)].
Proof.
  induction m as [|[k' v'] m IH]; simpl; [done|]. intros Hk.
  rewrite bool_decide_false by (intros ->; apply Hk; by left). f_equal. apply IH. set_solver.
Qed.

(** Appending the contribution of one entry. *)
Lemma diff_squad_spec prev next key sq evs pending out :
  entry_ok (key, sq) → key ∉ map_keys out →
  ∃ evs1 sq' pending',
    diff_squad prev next key sq (evs, pending, out) = (evs ++ evs1, pending', out ++ [(key, sq')]) ∧
    same_squad prev (key, sq) (key, sq') ∧
    omap created_key evs1 = (if map_has (squads prev) key then [] else [key]) ∧
    omap change_of evs1 = option_list (entry_move prev (key, sq)) ∧
    omap disbanded_key evs1 = [] ∧
    pending' = (if map_has (squads prev) key then pending
                else jfilter (fun b => negb (broadcast_matches sq b)) pending).
Proof.
  intros [Hkey _] Hk. simpl in Hkey. unfold diff_squad, same_squad, carried_leader, entry_move, leader_move, map_has.
  cbn [fst snd]. destruct (map_get (squads prev) key) as [before|] eqn:Eb; rewrite ?map_set_fresh by done.
  - rewrite bool_decide_true by eauto.
    destruct (leader sq) as [to|] eqn:El; [destruct (nullish (leader before) (lastLeader before)) as [from|] eqn:Ef;
      [case_bool_decide|]|].
    all: first [ eexists [], _, _; rewrite app_nil_r; split; [reflexivity|] | eexists [_], _, _; split; [reflexivity|] ].
    all: simpl; rewrite ?El; repeat split; try done.
    all: rewrite ?Ef; simpl; rewrite ?(bool_decide_true (eos_id to = _)), ?(bool_decide_false (eos_id to = _)) by done.
    all: by rewrite ?Hkey.
  - rewrite bool_decide_false by (by intros []).
    eexists [_], _, _. split; [reflexivity|]. simpl. repeat split; try done.
    unfold event_key, tracked_key in *; simpl. by rewrite Hkey.
Qed.

Lemma diff_next_spec prev next todo evs pending out :
  Forall entry_ok todo → NoDup (map_keys out ++ map_keys todo) →
  ∃ evs1 out1 pending',
    diff_next prev next todo (evs, pending, out) = (evs ++ evs1, pending', out ++ out1) ∧
    Forall2 (same_squad prev) todo out1 ∧
    omap created_key evs1 = jfilter (fun k => negb (map_has (squads prev) k)) (map_keys todo) ∧
    omap change_of evs1 = omap (entry_move prev) todo ∧
    omap disbanded_key evs1 = [] ∧
    pending' = jfilter (fun b => negb (existsb (fun e => negb (map_has (squads prev) e.1)
                 && broadcast_matches e.2 b) todo)) pending.
Proof.
  intros Hok. revert evs pending out. induction Hok as [|[key sq] todo He Hok IH]; intros evs pending out Hnd.
  { exists [], [], pending. simpl. rewrite !app_nil_r. repeat split; [constructor|].
    symmetry. by apply jfilter_all. }
  cbn [diff_next]. unfold map_keys in Hnd. rewrite fmap_cons in Hnd. cbn [fst] in Hnd.
  apply NoDup_app in Hnd as (Hn1 & Hn2 & Hn3). apply NoDup_cons in Hn3 as [Hn3 Hn4].
  destruct (diff_squad_spec prev next key sq evs pending out He) as (e1 & sq' & p1 & -> & Hs & Hc & Hm & Hd & Hp).
  { intros Hin. apply (Hn2 key Hin). by left. }
  destruct (IH (evs ++ e1) p1 (out ++ [(key, sq')])) as (e2 & out2 & p2 & -> & Hs2 & Hc2 & Hm2 & Hd2 & Hp2).
  { unfold map_keys. rewrite fmap_app. cbn [fmap list_fmap fst]. rewrite <-app_assoc. simpl.
    apply NoDup_app. split; [done|]. split; [|by apply NoDup_cons]. exact Hn2. }
  exists (e1 ++ e2), ((key, sq') :: out2), p2. rewrite <-!app_assoc. split; [done|].
  split; [by constructor|]. rewrite !omap_app, Hc, Hm, Hd, Hc2, Hm2, Hd2. split.
  { unfold map_keys. rewrite fmap_cons. cbn [fst jfilter List.filter]. unfold jfilter. simpl.
    by destruct (map_has (squads prev) key). }
  split; [|split; [done|]].
  - simpl. destruct (entry_move prev (key, sq)); done.
  - rewrite Hp2, Hp. cbn [existsb fst snd]. destruct (map_has (squads prev) key); [done|].
    simpl. unfold jfilter. clear. induction pending as [|b l IH]; simpl; [done|].
    destruct (broadcast_matches sq b); simpl; [done|]. case_match; by rewrite IH.
Qed.

Lemma disbands_keys prev next : Forall entry_ok (squads prev) →
  omap disbanded_key (disbands prev next)
    = jfilter (fun k => negb (map_has (squads next) k)) (map_keys (squads prev)) ∧
  omap created_key (disbands prev next) = [] ∧ omap change_of (disbands prev next) = [].
Proof.
  unfold disbands, map_keys, jfilter. induction 1 as [|[k sq] l [Hk _] _ IH]; [done|].
  rewrite fmap_cons. cbn [List.filter fst snd]. destruct (map_has (squads next) k); [exact IH|].
  destruct IH as (IH1 & IH2 & IH3). simpl in Hk. split; [|split; [exact IH2|exact IH3]].
  cbn. f_equal; [by rewrite Hk|exact IH1].
Qed.

(** Every squad of a large snapshot gone at once. *)
Definition mass_vanish (prev next : SquadSnapshot) : bool :=
  (MASS_VANISH_MIN_SQUADS <=? length (squads prev))%nat
  && forallb (fun key => negb (map_has (squads next) key)) (map_keys (squads prev)).

Lemma diffSquads_spec prev next pending :
  snapshot_ok prev → snapshot_ok next → mass_vanish prev next = false →
  let d := diffSquads (Some prev) next pending in
  Forall2 (same_squad prev) (squads next) (squads (d_state d)) ∧
  omap created_key (events d)
    = jfilter (fun k => negb (map_has (squads prev) k)) (map_keys (squads next)) ∧
  omap change_of (events d) = omap (entry_move prev) (squads next) ∧
  omap disbanded_key (events d)
    = jfilter (fun k => negb (map_has (squads next) k)) (map_keys (squads prev)) ∧
  d_pending d = jfilter (fun b => negb (existsb (fun e => negb (map_has (squads prev) e.1)
                 && broadcast_matches e.2 b) (squads next))) pending.
Proof.
  intros [_ Hp] [Hn1 Hn2] Hv. unfold diffSquads. unfold mass_vanish in Hv. rewrite Hv.
  destruct (diff_next_spec prev next (squads next) [] pending [] Hn2 Hn1)
    as (evs & out & pend & -> & Hs & Hc & Hm & Hd & Hpe). cbn [events d_state d_pending squads app].
  destruct (disbands_keys prev next Hp) as (Hd1 & Hd2 & Hd3).
  split; [done|]. rewrite !omap_app, Hc, Hm, Hd, Hd1, Hd2, Hd3, !app_nil_r. done.
Qed.

Lemma diffSquads_state_ok prev next pending :
  (∀ s, prev = Some s → snapshot_ok s) → snapshot_ok next →
  snapshot_ok (d_state (diffSquads prev next pending)).
Proof.
  intros Hprev Hnext. destruct prev as [prev|]; [|done]. specialize (Hprev prev eq_refl).
  destruct (mass_vanish prev next) eqn:Hv.
  { unfold diffSquads, mass_vanish in *. by rewrite Hv. }
  destruct (diffSquads_spec prev next pending Hprev Hnext Hv) as (Hs & _).
  destruct Hnext as [Hm Hf]. unfold snapshot_ok, map_ok, map_keys in *.
  set (out := squads (d_state _)) in *. clearbody out. split.
  - assert (out.*1 = (squads next).*1) as ->; [|done]. clear -Hs.
    induction Hs as [|[k sq] [k' sq'] l l' H _ IH]; [done|]. rewrite !fmap_cons, IH.
    destruct H as [H _]. by f_equal.
  - clear Hm. induction Hs as [|[k sq] [k' sq'] l l' H _ IH]; [constructor|].
    apply Forall_cons in Hf as [[He1 He2] Hf]. constructor; [|by apply IH].
    destruct H as (H1 & H2 & H3 & H4). unfold entry_ok, carried_leader in *. simpl in *.
    split; [congruence|]. rewrite H3, H4. intros Hl. destruct (map_get (squads prev) k); [|by auto].
    by destruct (leader sq).
Qed.

(** * Runs of refreshes *)

(** [trackSquads] over consecutive snapshots: the state and the pending
    broadcasts are threaded through; the events are collected. *)
Fixpoint track_run (prev : option SquadSnapshot) (snaps : list SquadSnapshot)
    (pending : list SquadCreatedBroadcast) : list SquadEvent :=
  match snaps with
  | [] => []
  | s :: snaps =>
      let d := diffSquads prev s pending in
      events d ++ track_run (Some (d_state d)) snaps (d_pending d)
  end.

Definition select (k : jstr) (c : jstr * (jstr * jstr)) : option (jstr * jstr) :=
  if bool_decide (c.1 = k) then Some c.2 else None.
(** The (from, to) EOS ids of the leader changes reported for squad [k]. *)
Definition changes_of (k : jstr) (evs : list SquadEvent) : list (jstr * jstr) :=
  omap (select k) (omap change_of evs).

(** The leaders [ListPlayers] showed for squad [k], leaderless refreshes skipped. *)
Definition leaders_of (k : jstr) (snaps : list SquadSnapshot) : list jstr :=
  omap (fun s => eos_id <$> (map_get (squads s) k ≫= leader)) snaps.

(** Consecutive distinct leaders, starting from [last]. *)
Fixpoint moves (last : jstr) (ls : list jstr) : list (jstr * jstr) :=
  match ls with
  | [] => []
  | l :: ls => if bool_decide (l = last) then moves l ls else (last, l) :: moves l ls
  end.

Lemma omap_omap {A B C} (f : A → option B) (g : B → option C) (l : list A) :
  omap g (omap f l) = omap (fun x => f x ≫= g) l.
Proof. induction l as [|x l IH]; [done|]. csimpl. destruct (f x); csimpl; [|done]. by rewrite <-IH. Qed.

Lemma omap_entry {B} (f : TrackedSquad → option B) (g : jstr * TrackedSquad → option B) k l :
  map_ok l → (∀ e, e ∈ l → g e = if bool_decide (e.1 = k) then f e.2 else None) →
  omap g l = option_list (map_get l k ≫= f).
Proof.
  unfold map_ok, map_keys. induction l as [|[k' sq] l IH]; intros Hnd Hg; [done|].
  rewrite fmap_cons in Hnd. apply NoDup_cons in Hnd as [Hk Hnd]. csimpl.
  rewrite Hg by left. cbn [fst snd]. rewrite IH; [|done|intros; apply Hg; by right].
  case_bool_decide; [|done]. subst. simpl.
  assert (map_get l k = None) as -> by by apply map_get_None. destruct (f sq); done.
Qed.

Lemma same_squad_get prev l l' k sq :
  Forall2 (same_squad prev) l l' → map_get l k = Some sq →
  ∃ sq', map_get l' k = Some sq' ∧ same_squad prev (k, sq) (k, sq').
Proof.
  induction 1 as [|[k1 s1] [k2 s2] l l' H _ IH]; simpl; [done|].
  pose proof H as [Hk _]. simpl in Hk. subst k2.
  case_bool_decide; [|done]. intros [= ->]. subst. eauto.
Qed.

Lemma diffSquads_changes prev next pending k before sq :
  snapshot_ok prev → snapshot_ok next →
  map_get (squads prev) k = Some before → map_get (squads next) k = Some sq →
  changes_of k (events (diffSquads (Some prev) next pending)) = option_list (leader_move before sq) ∧
  ∃ sq', map_get (squads (d_state (diffSquads (Some prev) next pending))) k = Some sq' ∧
    leader sq' = leader sq ∧ lastLeader sq' = nullish (leader sq) (nullish (leader before) (lastLeader before)).
Proof.
  intros Hp Hn Hb Hs. assert (mass_vanish prev next = false) as Hv.
  { unfold mass_vanish. apply andb_false_iff. right. apply not_true_is_false. intros H.
    rewrite forallb_forall in H. specialize (H k).
    assert (map_has (squads next) k = true) as Hh by (apply bool_decide_eq_true; eauto).
    rewrite Hh in H. discriminate H. by apply list_elem_of_In, (map_get_Some_key _ _ before). }
  destruct (diffSquads_spec prev next pending Hp Hn Hv) as (Hsame & _ & Hc & _). split.
  - unfold changes_of. rewrite Hc, omap_omap. destruct Hn as [Hn _].
    rewrite (omap_entry (leader_move before) _ k _ Hn); [by rewrite Hs|].
    intros [k' sq1] _. unfold entry_move, select. cbn [fst snd].
    destruct (decide (k' = k)) as [->|Hne].
    + rewrite Hb, bool_decide_true by done. simpl. destruct (leader_move before sq1); simpl; [|done].
      by rewrite bool_decide_true.
    + rewrite bool_decide_false by done. destruct (map_get (squads prev) k'); simpl; [|done].
      destruct (leader_move _ sq1); simpl; [|done]. by rewrite bool_decide_false.
  - destruct (same_squad_get _ _ _ k sq Hsame Hs) as (sq' & Hg & _ & _ & Hl & Hll).
    exists sq'. split; [done|]. split; [done|]. simpl in Hll. unfold carried_leader in Hll. simpl in Hll.
    by rewrite Hb in Hll.
Qed.

Lemma track_run_changes k snaps prev pending before last :
  snapshot_ok prev → Forall (fun s => snapshot_ok s ∧ is_Some (map_get (squads s) k)) snaps →
  map_get (squads prev) k = Some before → nullish (leader before) (lastLeader before) = Some last →
  changes_of k (track_run (Some prev) snaps pending) = moves (eos_id last) (leaders_of k snaps).
Proof.
  intros Hp Hsn. revert prev pending before last Hp.
  induction Hsn as [|s snaps [Hs [sq Hsq]] _ IH]; intros prev pending before last Hp Hb Hlast; [done|].
  cbn [track_run]. destruct (diffSquads_changes prev s pending k before sq Hp Hs Hb Hsq) as [Hc (sq' & Hg & Hl & Hll)].
  unfold changes_of in *. rewrite !omap_app, Hc. unfold leader_move in *. rewrite Hlast in *.
  assert (snapshot_ok (d_state (diffSquads (Some prev) s pending))) as Hok.
  { apply diffSquads_state_ok; [|done]. by intros ? [= <-]. }
  unfold leaders_of. cbn [omap list_omap]. rewrite Hsq. cbn [mbind option_bind].
  destruct (leader sq) as [to|]; cbn [nullish fmap option_fmap option_map] in *.
  - rewrite (IH _ _ sq' to Hok Hg) by by rewrite Hl. cbn [moves].
    case_bool_decide; done.
  - rewrite (IH _ _ sq' last Hok Hg) by by rewrite Hl, Hll. done.
Qed.

(** * The properties *)

(** One roster refresh: the rows of [ListSquads] and [ListPlayers] and the poll time. *)
Abbreviation refresh := (list RconSquad * list RconPlayer * jstr)%type.
Definition snapshot_of (r : refresh) : SquadSnapshot := buildSquadSnapshot r.1.1 r.1.2 r.2.

(** Comparing two snapshots, either every squad of a large snapshot has
    vanished, and the diff is a baseline with [reset] set and the pending
    broadcasts dropped; or the created events are exactly the keys new in
    [next], the leader changes exactly the squads of both whose leader differs
    from the last known one, the disbands exactly the keys gone, the new state
    holds every squad of [next] with its last known leader carried over, and
    the broadcasts left are those no new squad matches. *)
Theorem diffSquads_exact prev next pending :
  snapshot_ok prev → snapshot_ok next →
  let d := diffSquads (Some prev) next pending in
  if mass_vanish prev next
  then events d = [] ∧ d_state d = next ∧ d_pending d = [] ∧ reset d = true
  else
    reset d = false ∧
    omap created_key (events d)
      = jfilter (fun k => negb (map_has (squads prev) k)) (map_keys (squads next)) ∧
    omap change_of (events d) = omap (entry_move prev) (squads next) ∧
    omap disbanded_key (events d)
      = jfilter (fun k => negb (map_has (squads next) k)) (map_keys (squads prev)) ∧
    Forall2 (same_squad prev) (squads next) (squads (d_state d)) ∧
    d_pending d = jfilter (fun b => negb (existsb (fun e => negb (map_has (squads prev) e.1)
                    && broadcast_matches e.2 b) (squads next))) pending.
Proof.
  intros Hp Hn d. destruct (mass_vanish prev next) eqn:Hv.
  { unfold d, diffSquads. unfold mass_vanish in Hv. by rewrite Hv. }
  destruct (diffSquads_spec prev next pending Hp Hn Hv) as (H1 & H2 & H3 & H4 & H5).
  split; [|done]. unfold d, diffSquads. unfold mass_vanish in Hv. rewrite Hv.
  by destruct (diff_next _ _ _ _) as [[? ?] ?].
Qed.

(** The leaders the refreshes show for squad [k]. *)
Definition shown_leaders (k : jstr) (rs : list refresh) : list jstr := leaders_of k (snapshot_of <$> rs).

(** Over any number of refreshes that list a squad, the leader changes
    reported for it are exactly the consecutive distinct leaders the refreshes
    show, in order: a leaderless refresh neither reports nor loses a change. *)
Theorem leader_history_exact k first l0 rs pending :
  eos_id <$> (map_get (squads (snapshot_of first)) k ≫= leader) = Some l0 →
  Forall (fun r => is_Some (map_get (squads (snapshot_of r)) k)) rs →
  changes_of k (track_run None (snapshot_of first :: (snapshot_of <$> rs)) pending)
    = moves l0 (shown_leaders k rs).
Proof.
  intros Hl Hrs. cbn [track_run diffSquads events d_state d_pending app].
  destruct (map_get (squads (snapshot_of first)) k) as [sq|] eqn:Hsq; [|done]. simpl in Hl.
  destruct (leader sq) as [ref|] eqn:Href; [|done]. simplify_eq/=.
  apply (track_run_changes k _ _ _ sq ref); [apply buildSquadSnapshot_ok| |done|by rewrite Href].
  apply Forall_fmap. eapply Forall_impl; [done|]. intros r Hr. split; [apply buildSquadSnapshot_ok|done].
Qed.

(** Two refreshes of one squad: Ann creates and leads it, then is not flagged,
    then Bob leads. *)
Definition ex_squad : RconSquad :=
  mkSquad 1 (js "US") 4 (js "ALPHA") 2 false (js "Ann") (Some (js "a")) None false.
Definition ex_player (eos : string) (ldr : bool) : RconPlayer :=
  mkPlayer 0 (js eos) None (js eos) (Some 1) (Some 4) (Some ldr) None.
Definition ex_refreshes : list refresh :=
  [([ex_squad], [ex_player "a" false; ex_player "b" false], js "t2");
   ([ex_squad], [ex_player "a" false; ex_player "b" true], js "t3")].

Lemma diffSquads_exact_witness :
  let prev := snapshot_of ([ex_squad], [ex_player "a" true], js "t1") in
  let next := snapshot_of ([], [ex_player "a" true], js "t2") in
  mass_vanish prev next = false ∧
  omap disbanded_key (events (diffSquads (Some prev) next [])) = [squadKey 1 4 (js "a")].
Proof.
  intros prev next.
  pose proof (diffSquads_exact prev next [] (buildSquadSnapshot_ok _ _ _) (buildSquadSnapshot_ok _ _ _)) as H.
  assert (mass_vanish prev next = false) as Hv by reflexivity. split; [done|].
  rewrite Hv in H. destruct H as (_ & _ & _ & H & _). rewrite H. reflexivity.
Defined.

Lemma leader_history_exact_witness :
  changes_of (squadKey 1 4 (js "a"))
    (track_run None (snapshot_of ([ex_squad], [ex_player "a" true], js "t1") :: (snapshot_of <$> ex_refreshes)) [])
  = [(js "a", js "b")].
Proof.
  rewrite (leader_history_exact (squadKey 1 4 (js "a")) ([ex_squad], [ex_player "a" true], js "t1") (js "a")
    ex_refreshes []); [reflexivity|reflexivity|].
  repeat constructor; eexists; reflexivity.
Defined.
