(* ===== verification/SquadHistory.v ===== *)
(** [apps/workers/rcon/src/squad-crowns.ts] and
    [apps/workers/rcon/src/supervisor/squad-history.ts]: the creator crowns of a
    match and the per-server history that owns the tracker's state.

    [trackSquads] awaits Redis, and broadcasts, match boundaries and reconnects
    may arrive while it does; the history is a state machine whose [phase] is
    the await it is suspended at. Calls of [trackSquads] themselves never
    overlap ([pollInFlight] of the poller). *)
From S2P Require Import Prelude JsString JsDate JsMap SquadTracker.

(** * Crowns *)

Inductive Color := grey | red.
#[export] Instance Color_eq_dec : EqDecision Color.
Proof. solve_decision. Defined.

Record SquadCrownHandoff := mkHandoff {
  to_name : jstr; h_reason : SquadLeaderChangeReason; h_at : jstr }.

Record SquadCrownSquad := mkCrownSquad {
  c_squad_name : jstr;
  c_team_id : Z;
  c_squad_id : Z;
  created_at : option jstr;
  handoffs : list SquadCrownHandoff;
  disbanded_at : option jstr;
  abandoned_at : option jstr;
}.

Record SquadCrown := mkCrown { crown_color : Color; crown_squads : list SquadCrownSquad }.

Record CreatorHistory := mkHistory { color : option Color; h_squads : list SquadCrownSquad }.

Abbreviation CrownBook := (list (jstr * CreatorHistory)).

Definition historyFor (book : CrownBook) (eosId : jstr) : CreatorHistory :=
  default (mkHistory None []) (map_get book eosId).

(** [Array.prototype.findLast], then an update of the element in place. *)
Fixpoint update_last {A} (p : A → bool) (f : A → A) (l : list A) : option (list A) :=
  match l with
  | [] => None
  | x :: l =>
      match update_last p f l with
      | Some l' => Some (x :: l')
      | None => if p x then Some (f x :: l) else None
      end
  end.

Definition live_record (sq : SquadPayload) (r : SquadCrownSquad) : bool :=
  bool_decide (c_team_id r = p_team_id sq) && bool_decide (c_squad_id r = p_squad_id sq)
  && bool_decide (disbanded_at r = None).

Definition rename_record (sq : SquadPayload) (r : SquadCrownSquad) : SquadCrownSquad :=
  mkCrownSquad (p_squad_name sq) (c_team_id r) (c_squad_id r) (created_at r) (handoffs r)
    (disbanded_at r) (abandoned_at r).

(** The record of the squad, renamed or added, with the caller's changes [f]
    made to it in place. *)
Definition squadRecord (squads : list SquadCrownSquad) (sq : SquadPayload)
    (f : SquadCrownSquad → SquadCrownSquad) : list SquadCrownSquad :=
  match update_last (live_record sq) (fun r => f (rename_record sq r)) squads with
  | Some squads' => squads'
  | None => squads ++ [f (mkCrownSquad (p_squad_name sq) (p_team_id sq) (p_squad_id sq) None [] None None)]
  end.

Definition add_handoff (h : SquadCrownHandoff) (r : SquadCrownSquad) : SquadCrownSquad :=
  mkCrownSquad (c_squad_name r) (c_team_id r) (c_squad_id r) (created_at r) (handoffs r ++ [h])
    (disbanded_at r) (abandoned_at r).
Definition set_abandoned (at_ : jstr) (r : SquadCrownSquad) : SquadCrownSquad :=
  mkCrownSquad (c_squad_name r) (c_team_id r) (c_squad_id r) (created_at r) (handoffs r)
    (disbanded_at r) (Some at_).
Definition set_disbanded (at_ : jstr) (r : SquadCrownSquad) : SquadCrownSquad :=
  mkCrownSquad (c_squad_name r) (c_team_id r) (c_squad_id r) (created_at r) (handoffs r)
    (Some at_) (abandoned_at r).

Definition applySquadEvent (book : CrownBook) (event : SquadEvent) : CrownBook * option jstr :=
  let creatorEosId := eos_id (p_creator (event_payload event)) in
  let history := historyFor book creatorEosId in
  match event with
  | squad_created at_ p =>
      (map_set book creatorEosId
         (mkHistory (color history)
            (h_squads history ++ [mkCrownSquad (p_squad_name p) (p_team_id p) (p_squad_id p) (Some at_) [] None None])),
       Some creatorEosId)
  | squad_leader_changed at_ p from to reason =>
      if bool_decide (eos_id from ≠ creatorEosId) then (book, None)
      else
        let h := mkHandoff (ref_name to) reason at_ in
        match reason with
        | passed =>
            (map_set book creatorEosId
               (mkHistory (nullish (color history) (Some grey)) (squadRecord (h_squads history) p (add_handoff h))),
             Some creatorEosId)
        | _ =>
            (map_set book creatorEosId
               (mkHistory (Some red)
                  (squadRecord (h_squads history) p (fun r => set_abandoned at_ (add_handoff h r)))),
             Some creatorEosId)
        end
  | squad_disbanded at_ p _ creator_was_leader =>
      let f r := if creator_was_leader then set_abandoned at_ (set_disbanded at_ r) else set_disbanded at_ r in
      (map_set book creatorEosId
         (mkHistory (if creator_was_leader then Some red else color history)
            (squadRecord (h_squads history) p f)),
       Some creatorEosId)
  end.

Definition crownOf (h : CreatorHistory) : option SquadCrown :=
  match color h with None => None | Some c => Some (mkCrown c (h_squads h)) end.

(** [parse] is [squadCrownSchema.safeParse(JSON.parse(value))]: [None] when
    either of the two fails. *)
Definition crownBookFromHash (parse : jstr → option SquadCrown) (raw : list (jstr * jstr)) : CrownBook :=
  foldl (fun book e =>
    match parse e.2 with
    | Some c => map_set book e.1 (mkHistory (Some (crown_color c)) (crown_squads c))
    | None => book
    end) [] raw.

(** * What the crowns mean *)

(** The event shows creator [c] abandoning a squad while leading it. *)
Definition abandons (c : jstr) (e : SquadEvent) : bool :=
  bool_decide (eos_id (p_creator (event_payload e)) = c) &&
  match e with
  | squad_created _ _ => false
  | squad_leader_changed _ _ from _ reason => bool_decide (eos_id from = c) && bool_decide (reason ≠ passed)
  | squad_disbanded _ _ _ creator_was_leader => creator_was_leader
  end.

(** The event shows creator [c] handing command over and staying. *)
Definition hands_over (c : jstr) (e : SquadEvent) : bool :=
  bool_decide (eos_id (p_creator (event_payload e)) = c) &&
  match e with
  | squad_leader_changed _ _ from _ passed => bool_decide (eos_id from = c)
  | _ => false
  end.

Definition crown_color_of (c : jstr) (evs : list SquadEvent) : option Color :=
  if existsb (abandons c) evs then Some red
  else if existsb (hands_over c) evs then Some grey else None.

Definition handoff_of (c : jstr) (e : SquadEvent) : option SquadCrownHandoff :=
  match e with
  | squad_leader_changed at_ p from to reason =>
      if bool_decide (eos_id (p_creator p) = c) && bool_decide (eos_id from = c)
      then Some (mkHandoff (ref_name to) reason at_) else None
  | _ => None
  end.

Definition apply_events (book : CrownBook) (evs : list SquadEvent) : CrownBook :=
  foldl (fun b e => (applySquadEvent b e).1) book evs.

Definition all_handoffs (h : CreatorHistory) : list SquadCrownHandoff := flat_map handoffs (h_squads h).

Lemma update_last_handoffs (p : SquadCrownSquad → bool) f extra l l' :
  (∀ r, handoffs (f r) = handoffs r ++ extra) → update_last p f l = Some l' →
  flat_map handoffs l' ≡ₚ flat_map handoffs l ++ extra.
Proof.
  intros Hf. revert l'. induction l as [|x l IH]; intros l'; simpl; [done|].
  destruct (update_last p f l) as [l1|].
  - intros [= <-]. simpl. by rewrite (IH l1 eq_refl), app_assoc.
  - destruct (p x); [|done]. intros [= <-]. simpl. rewrite Hf, <-!app_assoc.
    apply Permutation_app_head, Permutation_app_comm.
Qed.

Lemma squadRecord_handoffs squads sq f extra :
  (∀ r, handoffs (f r) = handoffs r ++ extra) →
  flat_map handoffs (squadRecord squads sq f) ≡ₚ flat_map handoffs squads ++ extra.
Proof.
  intros Hf. unfold squadRecord. destruct (update_last _ _ squads) as [l'|] eqn:E.
  - revert E. apply update_last_handoffs. intros r. by rewrite Hf.
  - rewrite flat_map_app. simpl. by rewrite Hf, app_nil_r.
Qed.

(** One event changes only its creator's history, and that one as follows. *)
Lemma applySquadEvent_history book e c :
  let h := historyFor book c in let h' := historyFor (applySquadEvent book e).1 c in
  color h' = (if abandons c e then Some red else if hands_over c e then nullish (color h) (Some grey) else color h)
  ∧ all_handoffs h' ≡ₚ all_handoffs h ++ option_list (handoff_of c e).
Proof.
  unfold abandons, hands_over, handoff_of, all_handoffs.
  destruct e as [a p|a p from to reason|a p last cwl]; cbn [event_payload applySquadEvent].
  - cbn [fst]. unfold historyFor. rewrite map_get_set.
    destruct (decide (eos_id (p_creator p) = c)) as [->|Hne].
    + rewrite !bool_decide_true by done. simpl. split; [done|]. rewrite flat_map_app. simpl. by rewrite !app_nil_r.
    + rewrite !bool_decide_false by done. simpl. by rewrite app_nil_r.
  - destruct (decide (eos_id (p_creator p) = c)) as [Hc|Hne].
    + rewrite !(bool_decide_true (eos_id (p_creator p) = c)) by done. cbn [andb].
      destruct (decide (eos_id from = c)) as [Hf|Hf].
      * rewrite (bool_decide_false (eos_id from ≠ _)) by (rewrite Hc; naive_solver).
        rewrite !(bool_decide_true (eos_id from = c)) by done. cbn [andb].
        unfold historyFor. rewrite Hc.
        destruct reason; cbn [fst]; rewrite map_get_set, bool_decide_true by done; cbn [default from_option id color h_squads];
          (split; [done|]); by apply squadRecord_handoffs.
      * rewrite (bool_decide_true (eos_id from ≠ _)) by (rewrite Hc; done). cbn [fst].
        rewrite !(bool_decide_false (eos_id from = c)) by done. simpl. rewrite app_nil_r.
        by destruct reason.
    + rewrite !(bool_decide_false (eos_id (p_creator p) = c)) by done. cbn [andb option_list].
      rewrite app_nil_r. case_bool_decide; [done|]. unfold historyFor.
      destruct reason; cbn [fst]; by rewrite map_get_set, bool_decide_false by done.
  - cbn [fst]. unfold historyFor. rewrite map_get_set.
    destruct (decide (eos_id (p_creator p) = c)) as [->|Hne].
    + rewrite !bool_decide_true by done. cbn [default from_option id color h_squads andb]. split; [by destruct cwl|].
      apply squadRecord_handoffs. intros r. destruct cwl; simpl; by rewrite app_nil_r.
    + rewrite !bool_decide_false by done. simpl. by rewrite app_nil_r.
Qed.

(** A colour never weakens. *)
Definition color_max (a b : option Color) : option Color :=
  match a, b with
  | Some red, _ | _, Some red => Some red
  | Some grey, _ | _, Some grey => Some grey
  | _, _ => None
  end.

Lemma apply_events_history book evs c :
  color (historyFor (apply_events book evs) c)
    = color_max (color (historyFor book c)) (crown_color_of c evs) ∧
  all_handoffs (historyFor (apply_events book evs) c)
    ≡ₚ all_handoffs (historyFor book c) ++ omap (handoff_of c) evs.
Proof.
  revert book. induction evs as [|e evs IH]; intros book.
  { simpl. rewrite app_nil_r. split; [|done]. by destruct (color _) as [[]|]. }
  cbn [apply_events foldl]. destruct (IH (applySquadEvent book e).1) as [IH1 IH2].
  destruct (applySquadEvent_history book e c) as [H1 H2]. unfold apply_events in *.
  rewrite IH1, IH2, H1, H2. split.
  - unfold crown_color_of. cbn [existsb].
    destruct (abandons c e), (hands_over c e); simpl;
      destruct (color (historyFor book c)) as [[]|], (existsb (abandons c) evs), (existsb (hands_over c) evs); done.
  - rewrite <-app_assoc. apply Permutation_app_head. csimpl. by destruct (handoff_of c e).
Qed.

(** After any events of a match, a creator's crown is red exactly when some
    event shows them leaving, disconnecting or disbanding while leading, grey
    exactly when they only ever handed command over, and there is none
    otherwise; and their records hold each of their handoffs exactly once. *)
Theorem crowns_exact evs c :
  let h := historyFor (apply_events [] evs) c in
  (crown_color <$> crownOf h) = crown_color_of c evs ∧
  all_handoffs h ≡ₚ omap (handoff_of c) evs.
Proof.
  destruct (apply_events_history [] evs c) as [H1 H2]. split.
  - unfold crownOf. rewrite H1. unfold historyFor at 1. simpl. by destruct (crown_color_of c evs) as [[]|].
  - rewrite H2. done.
Qed.

(** * The per-server history *)

Definition SQUAD_BROADCAST_TTL_MS : Z := 10000.

(** The await [trackSquads] is suspended at. *)
Inductive phase :=
| idle
| clearing_boundary (sqs : list RconSquad) (ps : list RconPlayer) (polled : jstr)
| clearing_reset
| emitting (todo : list SquadEvent) (changed : list jstr)
| writing (fields : list (jstr * SquadCrown)).

Record SquadHistory := mkSquadHistory {
  squadState : option SquadSnapshot;
  squadResetPending : bool;
  squadHoldUntilEmpty : bool;
  pendingSquadBroadcasts : list SquadCreatedBroadcast;
  crownBook : CrownBook;
  at_phase : phase;
}.

Definition new_history : SquadHistory := mkSquadHistory None false false [] [] idle.

Inductive boundary := match_ended | match_started | other_reason.

Definition noteMatchBoundary (s : SquadHistory) (reason : boundary) : SquadHistory :=
  match reason with
  | match_ended => mkSquadHistory (squadState s) true true (pendingSquadBroadcasts s) (crownBook s) (at_phase s)
  | match_started => mkSquadHistory (squadState s) true false (pendingSquadBroadcasts s) (crownBook s) (at_phase s)
  | other_reason => s
  end.

Definition resetBaseline (s : SquadHistory) : SquadHistory :=
  mkSquadHistory None (squadResetPending s) (squadHoldUntilEmpty s) (pendingSquadBroadcasts s)
    (crownBook s) (at_phase s).

Definition queueBroadcast (s : SquadHistory) (b : SquadCreatedBroadcast) : SquadHistory :=
  mkSquadHistory (squadState s) (squadResetPending s) (squadHoldUntilEmpty s)
    (pendingSquadBroadcasts s ++ [b]) (crownBook s) (at_phase s).

(** [hash] is the answer of [HGETALL], [None] when Redis fails. *)
Definition loadPriorCrowns (parse : jstr → option SquadCrown) (s : SquadHistory)
    (hash : option (list (jstr * jstr))) : SquadHistory :=
  mkSquadHistory (squadState s) (squadResetPending s) (squadHoldUntilEmpty s) (pendingSquadBroadcasts s)
    (match hash with Some raw => crownBookFromHash parse raw | None => [] end) (at_phase s).

(** What the history asks of the outside. *)
Inductive output :=
| Publish (actorId : jstr) (event : SquadEvent)   (** XADD to the server stream *)
| Persist (actorId : jstr) (event : SquadEvent)   (** the [events] row *)
| Del                                             (** DEL [rcon:squad-crowns:{id}] *)
| Hset (fields : list (jstr * SquadCrown))        (** HSET and EXPIRE of it *)
| Warn.

Definition emitSquadEvent (event : SquadEvent) : list output :=
  let actorId := match event with
                 | squad_leader_changed _ _ from _ _ => eos_id from
                 | _ => eos_id (p_creator (event_payload event))
                 end in
  [Publish actorId event; Persist actorId event].

(** The fields [writeCrowns] collects before its first await. *)
Definition crown_fields (book : CrownBook) (creators : list jstr) : list (jstr * SquadCrown) :=
  omap (fun eosId => pair eosId <$> (map_get book eosId ≫= crownOf)) creators.

Definition set_insert (x : jstr) (l : list jstr) : list jstr := if bool_decide (x ∈ l) then l else l ++ [x].

Definition broadcast_fresh (polled : jstr) (b : SquadCreatedBroadcast) : bool :=
  match date_parse polled, date_parse (b_at b) with
  | Some now, Some t => now - SQUAD_BROADCAST_TTL_MS <=? t
  | _, _ => false
  end.

(** The loop over [diff.events] up to its next await, or the end of the call:
    an event is emitted, and [trackSquads] awaits. *)
Definition emit_next (s : SquadHistory) (book : CrownBook) (todo : list SquadEvent) (changed : list jstr)
    : SquadHistory * list output :=
  let at_ ph := mkSquadHistory (squadState s) (squadResetPending s) (squadHoldUntilEmpty s)
                  (pendingSquadBroadcasts s) book ph in
  match todo with
  | e :: _ => (at_ (emitting todo changed), emitSquadEvent e)
  | [] =>
      match crown_fields book changed with
      | [] => (at_ idle, [])
      | fields => (at_ (writing fields), [Hset fields])
      end
  end.

(** From the hold check on: one synchronous run up to the next await. *)
Definition track_diff (s : SquadHistory) (sqs : list RconSquad) (ps : list RconPlayer) (polled : jstr)
    : SquadHistory * list output :=
  let prev := if squadHoldUntilEmpty s then None else squadState s in
  let hold := if squadHoldUntilEmpty s then negb (bool_decide (sqs = [])) else false in
  let fresh := jfilter (broadcast_fresh polled) (pendingSquadBroadcasts s) in
  let diff := diffSquads prev (buildSquadSnapshot sqs ps polled) fresh in
  let s' book ph := mkSquadHistory (Some (d_state diff)) (squadResetPending s) hold (d_pending diff) book ph in
  if reset diff then (s' [] clearing_reset, [Del])
  else emit_next (s' (crownBook s) idle) (crownBook s) (events diff) [].

(** A call of [trackSquads], up to its first await. *)
Definition trackSquads (s : SquadHistory) (sqs : list RconSquad) (ps : list RconPlayer) (polled : jstr)
    : SquadHistory * list output :=
  if squadResetPending s
  then (mkSquadHistory None false (squadHoldUntilEmpty s) [] [] (clearing_boundary sqs ps polled), [Del])
  else track_diff s sqs ps polled.

Definition to_idle (s : SquadHistory) : SquadHistory :=
  mkSquadHistory (squadState s) (squadResetPending s) (squadHoldUntilEmpty s) (pendingSquadBroadcasts s)
    (crownBook s) idle.

(** The awaited call settles; [ok] says whether it succeeded. [emitSquadEvent]
    catches its own failures, so its await always succeeds. *)
Definition resume (s : SquadHistory) (ok : bool) : SquadHistory * list output :=
  match at_phase s with
  | idle => (s, [])
  | clearing_boundary sqs ps polled => if ok then track_diff s sqs ps polled else (to_idle s, [Warn])
  | clearing_reset => (to_idle s, if ok then [] else [Warn])
  | emitting [] changed => emit_next s (crownBook s) [] changed
  | emitting (e :: todo) changed =>
      let '(book, creator) := applySquadEvent (crownBook s) e in
      let changed := match creator with Some (c :: cs) => set_insert (c :: cs) changed | _ => changed end in
      emit_next s book todo changed
  | writing fields => (to_idle s, if ok then [] else [Warn])
  end.

(** ** Runs *)

Inductive input :=
| Boundary (reason : boundary)
| Reconnect
| Broadcast (b : SquadCreatedBroadcast)
| Refresh (sqs : list RconSquad) (ps : list RconPlayer) (polled : jstr)
| Settle (ok : bool).

(** A refresh waits for the previous one ([pollInFlight]). *)
Definition step (s : SquadHistory) (i : input) : SquadHistory * list output :=
  match i with
  | Boundary r => (noteMatchBoundary s r, [])
  | Reconnect => (resetBaseline s, [])
  | Broadcast b => (queueBroadcast s b, [])
  | Refresh sqs ps polled => match at_phase s with idle => trackSquads s sqs ps polled | _ => (s, []) end
  | Settle ok => resume s ok
  end.

Fixpoint run (s : SquadHistory) (ins : list input) : SquadHistory * list output :=
  match ins with
  | [] => (s, [])
  | i :: ins =>
      let '(s1, out1) := step s i in
      let '(s2, out2) := run s1 ins in (s2, out1 ++ out2)
  end.

(** ** Silence between matches *)

Definition emits (o : output) : bool := match o with Publish _ _ | Persist _ _ => true | _ => false end.

(** No refresh lists an empty server and no match starts. *)
Definition still_ending (i : input) : bool :=
  match i with
  | Boundary match_started => false
  | Refresh sqs _ _ => negb (bool_decide (sqs = []))
  | _ => true
  end.

(** Between the matches, and not in the middle of an earlier refresh's events. *)
Definition holding (s : SquadHistory) : Prop :=
  squadHoldUntilEmpty s = true ∧
  match at_phase s with
  | idle | clearing_reset | writing _ => True
  | clearing_boundary sqs _ _ => sqs ≠ []
  | emitting _ _ => False
  end.

Lemma track_diff_holding s sqs ps polled :
  squadHoldUntilEmpty s = true → sqs ≠ [] →
  holding (track_diff s sqs ps polled).1 ∧ existsb emits (track_diff s sqs ps polled).2 = false.
Proof.
  intros Hh Hne. unfold track_diff. rewrite Hh, bool_decide_false by done.
  cbn. unfold holding. done.
Qed.

Lemma step_holding s i : holding s → still_ending i = true →
  holding (step s i).1 ∧ existsb emits (step s i).2 = false.
Proof.
  intros [Hh Hp] Hi. destruct i as [r| |b|sqs ps polled|ok].
  - by destruct r.
  - done.
  - done.
  - simpl in Hi. bool_to_Prop. cbn [step]. destruct (at_phase s) eqn:E; 
      [|split; [|done]; unfold holding; cbn [fst]; by rewrite E in *..].
    unfold trackSquads. destruct (squadResetPending s); [done|]. by apply track_diff_holding.
  - cbn [step resume]. unfold resume. destruct (at_phase s) eqn:E.
    + split; [|done]. unfold holding. cbn [fst]. by rewrite E.
    + destruct ok; [by apply track_diff_holding|done].
    + by destruct ok.
    + done.
    + by destruct ok.
Qed.

Lemma run_holding ins s : holding s → forallb still_ending ins = true →
  holding (run s ins).1 ∧ existsb emits (run s ins).2 = false.
Proof.
  revert s. induction ins as [|i ins IH]; intros s Hs Hi; [done|].
  cbn [forallb] in Hi. apply andb_true_iff in Hi as [Hi Hins]. cbn [run].
  destruct (step s i) as [s1 out1] eqn:E1. destruct (step_holding s i Hs Hi) as [H1 H2].
  rewrite E1 in H1, H2. destruct (run s1 ins) as [s2 out2] eqn:E2.
  destruct (IH s1 H1 Hins) as [H3 H4]. rewrite E2 in H3, H4. simpl in *. split; [done|].
  by rewrite existsb_app, H2, H4.
Qed.

(** Once [match.ended] arrived and the running refresh's own events are out,
    no squad event is published or stored, whatever refreshes, broadcasts,
    reconnects and Redis failures follow, until a refresh lists no squad or
    [match.started] arrives: the old map's squads vanishing is never reported
    as disbands. *)
Theorem match_end_silent s ins :
  match at_phase s with emitting _ _ => False | clearing_boundary sqs _ _ => sqs ≠ [] | _ => True end →
  forallb still_ending ins = true →
  existsb emits (run (noteMatchBoundary s match_ended) ins).2 = false ∧
  squadHoldUntilEmpty (run (noteMatchBoundary s match_ended) ins).1 = true.
Proof.
  intros Hp Hi. destruct (run_holding ins (noteMatchBoundary s match_ended)) as [[H1 _] H2]; [|done|done].
  split; [done|]. cbn. by destruct (at_phase s).
Qed.

(** ** The Redis mirror *)

Definition named (s : SquadSnapshot) : Prop := Forall (fun e => eos_id (creator e.2) ≠ []) (squads s).
Definition event_named (e : SquadEvent) : Prop := eos_id (p_creator (event_payload e)) ≠ [].

Lemma index_squads_named online leaders sqs tracked :
  Forall (fun e : jstr * TrackedSquad => eos_id (creator e.2) ≠ []) tracked →
  Forall (fun e : jstr * TrackedSquad => eos_id (creator e.2) ≠ []) (index_squads online leaders sqs tracked).
Proof.
  revert tracked. induction sqs as [|sq sqs IH]; intros tracked Ht; simpl; [done|].
  destruct (creator_eos_id sq) as [[|c cs]|]; [by apply IH| |by apply IH].
  by apply IH, Forall_map_set.
Qed.

Lemma buildSquadSnapshot_named sqs ps at_ : named (buildSquadSnapshot sqs ps at_).
Proof.
  unfold buildSquadSnapshot, named. destruct (index_players ps _) as [[? ?] ?]. simpl.
  by apply index_squads_named.
Qed.

Lemma diff_next_named prev next todo evs pending out :
  Forall (fun e : jstr * TrackedSquad => eos_id (creator e.2) ≠ []) todo →
  Forall event_named evs → Forall (fun e : jstr * TrackedSquad => eos_id (creator e.2) ≠ []) out →
  let r := diff_next prev next todo (evs, pending, out) in
  Forall event_named r.1.1 ∧ Forall (fun e : jstr * TrackedSquad => eos_id (creator e.2) ≠ []) r.2.
Proof.
  intros Ht. revert evs pending out. induction Ht as [|[k sq] todo Hsq _ IH]; intros evs pending out He Ho; [done|].
  cbn [diff_next]. unfold diff_squad. simpl in Hsq. split_ifs; apply IH.
  all: try (apply Forall_app; split); try apply Forall_map_set; try done; by repeat constructor.
Qed.

Lemma diffSquads_named prev next pending :
  (∀ s, prev = Some s → named s) → named next →
  Forall event_named (events (diffSquads prev next pending)) ∧ named (d_state (diffSquads prev next pending)).
Proof.
  intros Hp Hn. destruct prev as [prev|]; [|by split; [constructor|]].
  unfold diffSquads. destruct (_ && _); [by split; [constructor|]|].
  pose proof (diff_next_named prev next (squads next) [] pending [] Hn (Forall_nil_2 _) (Forall_nil_2 _)) as H.
  destruct (diff_next _ _ _ _) as [[evs pend] out]. destruct H as [H1 H2]. split; [|done].
  apply Forall_app. split; [done|]. unfold disbands. apply Forall_fmap, Forall_forall.
  intros e [_ He]%elem_of_jfilter. specialize (Hp prev eq_refl). unfold named in Hp.
  rewrite Forall_forall in Hp. by apply Hp.
Qed.

(** The crown the book holds for a creator. *)
Definition crown_for (book : CrownBook) (c : jstr) : option SquadCrown := map_get book c ≫= crownOf.

(** [HSET key fields]. *)
Definition hset (hash fields : list (jstr * SquadCrown)) : list (jstr * SquadCrown) :=
  foldl (fun h f => map_set h f.1 f.2) hash fields.

(** The Redis hash after an input: a call takes effect when it settles. *)
Definition redis_step (s : SquadHistory) (i : input) (hash : list (jstr * SquadCrown)) : list (jstr * SquadCrown) :=
  match i, at_phase s with
  | Settle true, (clearing_boundary _ _ _ | clearing_reset) => []
  | Settle true, writing fields => hset hash fields
  | _, _ => hash
  end.

Fixpoint run_redis (s : SquadHistory) (ins : list input) (hash : list (jstr * SquadCrown))
    : SquadHistory * list (jstr * SquadCrown) :=
  match ins with
  | [] => (s, hash)
  | i :: ins => run_redis (step s i).1 ins (redis_step s i hash)
  end.

Lemma map_get_hset hash fields c : map_ok fields →
  map_get (hset hash fields) c = nullish (map_get fields c) (map_get hash c).
Proof.
  unfold hset, map_ok, map_keys. revert hash. induction fields as [|[k v] fields IH]; intros hash Hnd; [done|].
  rewrite fmap_cons in Hnd. apply NoDup_cons in Hnd as [Hk Hnd]. cbn [foldl fst snd map_get].
  rewrite IH, map_get_set by done. case_bool_decide; [|done]. subst.
  assert (map_get fields c = None) as -> by by apply map_get_None. done.
Qed.

Lemma crown_fields_spec book creators c : NoDup creators →
  map_ok (crown_fields book creators) ∧
  map_get (crown_fields book creators) c = if bool_decide (c ∈ creators) then crown_for book c else None.
Proof.
  unfold crown_fields, map_ok, map_keys, crown_for. induction 1 as [|x l Hx _ [IH1 IH2]]; [by split; [constructor|]|].
  assert (∀ y, y ∈ (omap (λ eosId, pair eosId <$> (map_get book eosId ≫= crownOf)) l).*1 → y ∈ l) as Hsub.
  { intros y ([y' v] & -> & Hy)%list_elem_of_fmap. apply list_elem_of_omap in Hy as (z & Hz & Hf).
    apply fmap_Some in Hf as (? & _ & [= <- _]). done. }
  csimpl. destruct (map_get book x ≫= crownOf) as [cr|] eqn:E; csimpl.
  - split; [apply NoDup_cons; split; [by intros ?%Hsub|done]|].
    destruct (decide (x = c)) as [->|Hne].
    + rewrite !bool_decide_true by set_solver. done.
    + rewrite (bool_decide_false (x = c)) by done. rewrite IH2.
      by rewrite (bool_decide_ext (c ∈ x :: l) (c ∈ l)) by set_solver.
  - split; [done|]. rewrite IH2. destruct (decide (x = c)) as [->|Hne].
    + rewrite bool_decide_false, bool_decide_true by set_solver. done.
    + by rewrite (bool_decide_ext (c ∈ x :: l) (c ∈ l)) by set_solver.
Qed.

Lemma crown_for_history book c : crown_for book c = crownOf (historyFor book c).
Proof. unfold crown_for, historyFor. by destruct (map_get book c). Qed.

Lemma applySquadEvent_other book e c : c ≠ eos_id (p_creator (event_payload e)) →
  map_get (applySquadEvent book e).1 c = map_get book c.
Proof.
  intros Hne. destruct e; cbn [applySquadEvent event_payload] in *; [|case_bool_decide; [done|case_match]|];
    simpl; by rewrite map_get_set_ne.
Qed.

Lemma applySquadEvent_creator book e :
  applySquadEvent book e = (book, None) ∨
  (applySquadEvent book e).2 = Some (eos_id (p_creator (event_payload e))).
Proof. destruct e; cbn [applySquadEvent]; [by right|case_bool_decide; [by left|right; by case_match]|by right]. Qed.

Lemma applySquadEvent_crowned book e c :
  is_Some (crown_for book c) → is_Some (crown_for (applySquadEvent book e).1 c).
Proof.
  rewrite !crown_for_history. destruct (applySquadEvent_history book e c) as [H _].
  unfold crownOf. rewrite H. destruct (color (historyFor book c)); [|by intros []]. intros _.
  destruct (abandons c e), (hands_over c e); simpl; eauto.
Qed.

Definition partial_mirror (book : CrownBook) (hash : list (jstr * SquadCrown)) (changed : list jstr) : Prop :=
  ∀ c, (c ∉ changed → map_get hash c = crown_for book c) ∧
       (is_Some (map_get hash c) → is_Some (crown_for book c)).

Definition mirror (s : SquadHistory) (hash : list (jstr * SquadCrown)) : Prop :=
  (∀ st, squadState s = Some st → named st) ∧
  match at_phase s with
  | idle => ∀ c, map_get hash c = crown_for (crownBook s) c
  | clearing_boundary _ _ _ | clearing_reset => crownBook s = []
  | emitting todo changed =>
      Forall event_named todo ∧ NoDup changed ∧ partial_mirror (crownBook s) hash changed
  | writing fields => ∀ c, map_get (hset hash fields) c = crown_for (crownBook s) c
  end.

Lemma emit_next_mirror s book todo changed hash :
  (∀ st, squadState s = Some st → named st) → Forall event_named todo → NoDup changed →
  partial_mirror book hash changed → mirror (emit_next s book todo changed).1 hash.
Proof.
  intros Hs Ht Hnd Hp. unfold emit_next. destruct todo as [|e todo]; [|by split].
  assert (∀ c, map_get (hset hash (crown_fields book changed)) c = crown_for book c) as Hf.
  { intros c. destruct (crown_fields_spec book changed c Hnd) as [H1 H2].
    rewrite map_get_hset, H2 by done. destruct (Hp c) as [Hp1 Hp2]. case_bool_decide as Hc.
    - destruct (crown_for book c); [done|]. destruct (map_get hash c); [|done].
      by destruct Hp2 as [? ?].
    - by apply Hp1. }
  destruct (crown_fields book changed) eqn:E; split; done.
Qed.

Lemma track_diff_mirror s sqs ps polled hash :
  (∀ st, squadState s = Some st → named st) → (∀ c, map_get hash c = crown_for (crownBook s) c) →
  mirror (track_diff s sqs ps polled).1 hash.
Proof.
  intros Hs Hh. unfold track_diff.
  set (prev := if squadHoldUntilEmpty s then None else squadState s).
  set (fresh := jfilter _ _).
  destruct (diffSquads_named prev (buildSquadSnapshot sqs ps polled) fresh) as [He Hn].
  { intros st Hst. subst prev. destruct (squadHoldUntilEmpty s); [done|by apply Hs]. }
  { apply buildSquadSnapshot_named. }
  destruct (reset _).
  - split; [|done]. by intros ? [= <-].
  - apply emit_next_mirror; [by intros ? [= <-]|done|constructor|].
    intros c. rewrite Hh. done.
Qed.

Lemma resume_emitting_mirror s e todo changed hash :
  at_phase s = emitting (e :: todo) changed → mirror s hash → mirror (resume s true).1 hash.
Proof.
  intros Hph [Hs Hm]. rewrite Hph in Hm. destruct Hm as (Ht & Hnd & Hp).
  apply Forall_cons in Ht as [He Ht]. unfold resume. rewrite Hph.
  pose proof (applySquadEvent_creator (crownBook s) e) as Hc.
  pose proof (applySquadEvent_other (crownBook s) e) as Ho.
  pose proof (applySquadEvent_crowned (crownBook s) e) as Hcr.
  destruct (applySquadEvent (crownBook s) e) as [book creator]. cbn [fst snd] in *.
  destruct Hc as [[= -> ->]| ->]; [by apply emit_next_mirror|].
  unfold event_named in He. destruct (eos_id (p_creator (event_payload e))) as [|x xs] eqn:Ex; [done|].
  apply emit_next_mirror; [done|done| |].
  - unfold set_insert. case_bool_decide; [done|]. apply NoDup_app. split; [done|].
    split; [set_solver|apply NoDup_singleton].
  - intros c. destruct (Hp c) as [Hp1 Hp2]. split; [|by intros ?%Hp2%Hcr].
    unfold set_insert. intros Hc. unfold crown_for. rewrite Ho.
    + apply Hp1. case_bool_decide; set_solver.
    + intros ->. case_bool_decide; set_solver.
Qed.

Lemma step_mirror s i hash : i ≠ Settle false → mirror s hash → mirror (step s i).1 (redis_step s i hash).
Proof.
  intros Hi [Hs Hm]. destruct i as [r| |b|sqs ps polled|[|]]; [| | | | |done].
  - by destruct r.
  - by split.
  - by split.
  - cbn [step redis_step]. destruct (at_phase s) eqn:E; [|by split; [|cbn [fst]; rewrite E]..].
    unfold trackSquads. destruct (squadResetPending s); [by split|]. by apply track_diff_mirror.
  - cbn [step redis_step]. destruct (at_phase s) as [| | |[|e todo] changed|] eqn:E.
    + unfold resume. rewrite E. split; [done|]. cbn [fst]. by rewrite E.
    + unfold resume. rewrite E. apply track_diff_mirror; [done|]. by rewrite Hm.
    + unfold resume. rewrite E. split; [done|]. simpl. by rewrite Hm.
    + unfold resume. rewrite E. apply emit_next_mirror; naive_solver.
    + apply (resume_emitting_mirror _ e todo changed); [done|]. split; [done|]. by rewrite E.
    + unfold resume. rewrite E. by split.
Qed.

Lemma run_mirror ins s hash : Settle false ∉ ins → mirror s hash →
  mirror (run_redis s ins hash).1 (run_redis s ins hash).2.
Proof.
  revert s hash. induction ins as [|i ins IH]; intros s hash Hi Hm; [done|].
  cbn [run_redis]. apply IH; [set_solver|]. apply step_mirror; [set_solver|done].
Qed.


(** Ann's squad, Bob takes over, then the squad is gone. *)
Definition ex_run : list input :=
  [Refresh [ex_squad] [ex_player "a" true; ex_player "b" false] (js "2026-01-01T00:00:00.000Z");
   Refresh [ex_squad] [ex_player "a" false; ex_player "b" true] (js "2026-01-01T00:00:30.000Z");
   Settle true; Settle true].


Lemma match_end_silent_witness :
  existsb emits (run (noteMatchBoundary (run new_history ex_run).1 match_ended)
    [Refresh [ex_squad] [ex_player "a" true] (js "2026-01-01T00:01:00.000Z"); Settle false]).2 = false.
Proof. by apply match_end_silent. Defined.
