(* ===== verification/MapVote.v ===== *)
(** [packages/shared-config/src/map-vote-selection.ts]: the automatic choice of
    the next layer, shared by the panel's preview and the scheduler.

    Weights are integers between 1 and 100 (the API's schema). The draw is done
    in binary64 by the code; every intermediate value is a multiple of 2^-32 of
    magnitude at most the total weight, hence exact below a total of 2^21, and
    the model keeps the cursor as an integer scaled by 2^32. *)
From S2P Require Import Prelude JsString.

Inductive MapVoteSelection := weighted_random | least_recently_played.
Inductive MapVoteExclusionReason := disabled | deprecated | layer_cooldown | map_cooldown.
Inductive NoPickReason := no_candidates | all_excluded.

#[export] Instance MapVoteExclusionReason_eq_dec : EqDecision MapVoteExclusionReason.
Proof. solve_decision. Defined.

Record Candidate := mkCandidate {
  c_layer : jstr; c_map : jstr; weight : Z; enabled : bool; is_deprecated : bool }.
#[export] Instance Candidate_eq_dec : EqDecision Candidate.
Proof. solve_decision. Defined.
Record RecentMatch := mkMatch { m_layer : jstr; m_map : jstr; isSeed : bool }.
Record Settings := mkSettings { selection : MapVoteSelection; layerCooldown : Z; mapCooldown : Z }.
Record MapVoteSelectionInput := mkInput {
  candidates : list Candidate; recentMatches : list RecentMatch; settings : Settings; seed : jstr }.

(** A probability is the fraction [num / den]. *)
Record Eligible := mkEligible { e_layer : jstr; e_weight : Z; probability : Z * Z }.
Record MapVoteSelectionResult := mkResult {
  pick : option jstr;
  no_pick : option NoPickReason;
  eligible : list Eligible;
  excluded : list (jstr * MapVoteExclusionReason);
}.

(** * The seeded generator *)

Definition fnv1a (seed : jstr) : Z :=
  foldl (fun h c => imul (jxor h c) 0x01000193) 0x811c9dc5 seed.

(** [seededRandom seed] times 2^32. *)
Definition seededRandom (seed : jstr) : Z :=
  let t := to_int32 (fnv1a seed + 0x6d2b79f5) in
  let t := imul (jxor t (jshru t 15)) (jor t 1) in
  let t := jxor t (t + imul (jxor t (jshru t 7)) (jor t 61)) in
  to_uint32 (jxor t (jshru t 14)).

Lemma seededRandom_range seed : 0 ≤ seededRandom seed < 2 ^ 32.
Proof. apply to_uint32_range. Qed.

(** * The selection *)

Definition by_layer (a b : Candidate) : Z := str_cmp (c_layer a) (c_layer b).

Definition exclusion (recentLayers recentMaps : list jstr) (c : Candidate) : option MapVoteExclusionReason :=
  if negb (enabled c) then Some disabled
  else if is_deprecated c then Some deprecated
  else if bool_decide (c_layer c ∈ recentLayers) then Some layer_cooldown
  else if bool_decide (c_map c ∈ recentMaps) then Some map_cooldown
  else None.

Definition non_seed (input : MapVoteSelectionInput) : list RecentMatch :=
  jfilter (fun m => negb (isSeed m)) (recentMatches input).
Definition recent_layers (input : MapVoteSelectionInput) : list jstr :=
  m_layer <$> take (Z.to_nat (Z.max 0 (layerCooldown (settings input)))) (non_seed input).
Definition recent_maps (input : MapVoteSelectionInput) : list jstr :=
  m_map <$> take (Z.to_nat (Z.max 0 (mapCooldown (settings input)))) (non_seed input).

Fixpoint partition_pool (recentLayers recentMaps : list jstr) (cs : list Candidate)
    : list Candidate * list (jstr * MapVoteExclusionReason) :=
  match cs with
  | [] => ([], [])
  | c :: cs =>
      let '(pool, excl) := partition_pool recentLayers recentMaps cs in
      match exclusion recentLayers recentMaps c with
      | None => (c :: pool, excl)
      | Some reason => (pool, (c_layer c, reason) :: excl)
      end
  end.

(** Index of the last play, [None] for infinity. *)
Definition lastPlayed (nonSeed : list RecentMatch) (layer : jstr) : option nat :=
  find_index (fun m => bool_decide (m_layer m = layer)) nonSeed.

Definition age_gt (a b : option nat) : bool :=
  match a, b with
  | None, Some _ => true
  | Some i, Some j => (j <? i)%nat
  | _, None => false
  end.

Definition lrp_better (nonSeed : list RecentMatch) (c best : Candidate) : bool :=
  let age := lastPlayed nonSeed (c_layer c) in
  let bestAge := lastPlayed nonSeed (c_layer best) in
  age_gt age bestAge || (bool_decide (age = bestAge) && str_lt (c_layer c) (c_layer best)).

Definition lrp_best (nonSeed : list RecentMatch) (first : Candidate) (rest : list Candidate) : Candidate :=
  foldl (fun best c => if lrp_better nonSeed c best then c else best) first rest.

Definition total_weight (pool : list Candidate) : Z := foldl (fun sum c => sum + weight c) 0 pool.

(** The walk of the weighted draw; [cursor] is scaled by 2^32. *)
Fixpoint draw (cursor : Z) (pool : list Candidate) (picked : Candidate) : Candidate :=
  match pool with
  | [] => picked
  | c :: pool =>
      let cursor := cursor - weight c * 2 ^ 32 in
      if cursor <? 0 then c else draw cursor pool picked
  end.

Definition selectNextLayer (input : MapVoteSelectionInput) : MapVoteSelectionResult :=
  let cs := jsort by_layer (candidates input) in
  let '(pool, excl) := partition_pool (recent_layers input) (recent_maps input) cs in
  match pool with
  | [] => mkResult None (Some (match cs with [] => no_candidates | _ => all_excluded end)) [] excl
  | first :: rest =>
      match selection (settings input) with
      | least_recently_played =>
          let best := lrp_best (non_seed input) first rest in
          mkResult (Some (c_layer best)) None
            ((fun c => mkEligible (c_layer c) (weight c)
                (if bool_decide (c_layer c = c_layer best) then (1, 1) else (0, 1))) <$> pool) excl
      | weighted_random =>
          let totalWeight := total_weight pool in
          let picked := draw (seededRandom (seed input) * totalWeight) pool (List.last pool first) in
          mkResult (Some (c_layer picked)) None
            ((fun c => mkEligible (c_layer c) (weight c) (weight c, totalWeight)) <$> pool) excl
      end
  end.

(** * Properties *)

Lemma by_layer_total x y : cmp_le by_layer x y ∨ cmp_le by_layer y x.
Proof. apply str_cmp_total. Qed.
Lemma by_layer_trans x y z : cmp_le by_layer x y → cmp_le by_layer y z → cmp_le by_layer x z.
Proof. apply str_cmp_trans. Qed.

Definition with_candidates (input : MapVoteSelectionInput) (cs : list Candidate) : MapVoteSelectionInput :=
  mkInput cs (recentMatches input) (settings input) (seed input).

(** The callers load the pool in different orders; the result, pick,
    probabilities and exclusions included, does not depend on it. *)
Theorem selectNextLayer_order_independent input cs :
  NoDup (c_layer <$> candidates input) → cs ≡ₚ candidates input →
  selectNextLayer (with_candidates input cs) = selectNextLayer input.
Proof.
  intros Hnd Hp. unfold selectNextLayer. cbn [candidates with_candidates].
  rewrite (jsort_permutation by_layer by_layer_total by_layer_trans cs (candidates input)); [done| |done].
  intros x y Hx Hy H1 H2. rewrite Hp in Hx, Hy.
  assert (c_layer x = c_layer y) as Hl by by apply str_cmp_antisym.
  apply list_elem_of_lookup in Hx as [i Hi], Hy as [j Hj].
  assert (i = j) as ->; [|congruence].
  eapply NoDup_lookup; [exact Hnd|by rewrite list_lookup_fmap, Hi|by rewrite list_lookup_fmap, Hj, Hl].
Qed.

Lemma partition_pool_spec rl rm cs :
  partition_pool rl rm cs =
  (jfilter (fun c => bool_decide (exclusion rl rm c = None)) cs,
   omap (fun c => pair (c_layer c) <$> exclusion rl rm c) cs).
Proof.
  induction cs as [|c cs IH]; [done|]. cbn [partition_pool]. rewrite IH. csimpl.
  unfold jfilter. cbn [List.filter]. destruct (exclusion rl rm c); [by rewrite bool_decide_false|by rewrite bool_decide_true].
Qed.

Lemma exclusion_None rl rm c :
  exclusion rl rm c = None ↔
  enabled c = true ∧ is_deprecated c = false ∧ c_layer c ∉ rl ∧ c_map c ∉ rm.
Proof.
  unfold exclusion. destruct (enabled c), (is_deprecated c); simpl; repeat case_bool_decide; naive_solver.
Qed.

Lemma lrp_best_elem ns first rest : lrp_best ns first rest ∈ first :: rest.
Proof.
  unfold lrp_best. revert first. induction rest as [|c rest IH]; intros first; [by left|].
  cbn [foldl]. specialize (IH (if lrp_better ns c first then c else first)).
  apply elem_of_cons in IH as [->|IH]; [case_match; set_solver|set_solver].
Qed.

Lemma draw_elem cursor pool picked : draw cursor pool picked ∈ picked :: pool.
Proof.
  revert cursor. induction pool as [|c pool IH]; intros cursor; [by left|]. cbn [draw].
  case_match; [set_solver|]. specialize (IH (cursor - weight c * 2 ^ 32)). set_solver.
Qed.

Lemma last_elem {A} (x : A) l : List.last (x :: l) x ∈ x :: l.
Proof.
  assert (∀ d, List.last (x :: l) d ∈ x :: l) as H; [|apply H].
  revert x. induction l as [|y l IH]; intros x d; [by left|]. right. apply IH.
Qed.

(** A candidate the rules allow: enabled, not deprecated, off both cooldowns. *)
Definition playable (input : MapVoteSelectionInput) (c : Candidate) : bool :=
  bool_decide (exclusion (recent_layers input) (recent_maps input) c = None).

Definition pool_of (input : MapVoteSelectionInput) : list Candidate :=
  jfilter (playable input) (jsort by_layer (candidates input)).

Lemma elem_of_pool_of input c : c ∈ pool_of input ↔ playable input c = true ∧ c ∈ candidates input.
Proof. unfold pool_of. by rewrite elem_of_jfilter, elem_of_jsort. Qed.

Definition picked_of (input : MapVoteSelectionInput) (first : Candidate) (rest : list Candidate) : Candidate :=
  match selection (settings input) with
  | least_recently_played => lrp_best (non_seed input) first rest
  | weighted_random =>
      draw (seededRandom (seed input) * total_weight (first :: rest)) (first :: rest) (List.last (first :: rest) first)
  end.

Lemma selectNextLayer_eq input :
  pick (selectNextLayer input) =
    match pool_of input with [] => None | first :: rest => Some (c_layer (picked_of input first rest)) end ∧
  (fun e => (e_layer e, e_weight e)) <$> eligible (selectNextLayer input)
    = (fun c => (c_layer c, weight c)) <$> pool_of input ∧
  excluded (selectNextLayer input)
    = omap (fun c => pair (c_layer c) <$> exclusion (recent_layers input) (recent_maps input) c)
        (jsort by_layer (candidates input)).
Proof.
  unfold selectNextLayer, pool_of, picked_of, playable. rewrite partition_pool_spec.
  destruct (jfilter _ _) as [|first rest]; [done|].
  destruct (selection (settings input)); cbn [pick eligible excluded]; (split; [done|]); split; try done;
    by rewrite <-list_fmap_compose.
Qed.

Lemma picked_of_elem input first rest : picked_of input first rest ∈ first :: rest.
Proof.
  unfold picked_of. destruct (selection _); [|apply lrp_best_elem].
  pose proof (draw_elem (seededRandom (seed input) * total_weight (first :: rest)) (first :: rest)
    (List.last (first :: rest) first)) as H.
  apply elem_of_cons in H as [->|H]; [apply last_elem|done].
Qed.

(** A layer is picked exactly when some candidate is playable, and the pick
    is a playable candidate: enabled, not deprecated, its layer not among the
    last [layerCooldown] and its map not among the last [mapCooldown] non-seed
    matches. The eligible list is the playable candidates, and each other one
    is excluded with its first failing rule. *)
Theorem selectNextLayer_sound input :
  let r := selectNextLayer input in
  (∀ l, pick r = Some l → ∃ c, c ∈ candidates input ∧ c_layer c = l ∧
     enabled c = true ∧ is_deprecated c = false ∧
     l ∉ recent_layers input ∧ c_map c ∉ recent_maps input) ∧
  (pick r = None ↔ ∀ c, c ∈ candidates input → playable input c = false) ∧
  (e_layer <$> eligible r) ≡ₚ (c_layer <$> jfilter (playable input) (candidates input)) ∧
  excluded r ≡ₚ omap (fun c => pair (c_layer c) <$> exclusion (recent_layers input) (recent_maps input) c)
                  (candidates input).
Proof.
  destruct (selectNextLayer_eq input) as (Hp & He & Hx). cbv zeta. repeat split.
  - intros l Hl. rewrite Hp in Hl. destruct (pool_of input) as [|first rest] eqn:Epool; [done|].
    injection Hl as <-. pose proof (picked_of_elem input first rest) as Hin. rewrite <-Epool in Hin.
    apply elem_of_pool_of in Hin as [Hpl Hin]. unfold playable in Hpl. bool_to_Prop.
    apply exclusion_None in Hpl. eexists. naive_solver.
  - intros Hn c Hc. rewrite Hp in Hn. destruct (pool_of input) eqn:Epool; [|done].
    apply not_true_is_false. intros Hpl. assert (c ∈ pool_of input) as H by by apply elem_of_pool_of.
    rewrite Epool in H. by apply not_elem_of_nil in H.
  - intros Hall. rewrite Hp. destruct (pool_of input) as [|c l] eqn:Epool; [done|].
    assert (c ∈ pool_of input) as [H1 H2]%elem_of_pool_of by (rewrite Epool; by left).
    by rewrite (Hall c H2) in H1.
  - assert (e_layer <$> eligible (selectNextLayer input) = c_layer <$> pool_of input) as ->.
    { transitivity (fst <$> ((fun e => (e_layer e, e_weight e)) <$> eligible (selectNextLayer input))).
      - by rewrite <-list_fmap_compose.
      - rewrite He. by rewrite <-list_fmap_compose. }
    apply fmap_Permutation. apply jfilter_perm, jsort_perm.
  - rewrite Hx. apply omap_Permutation, jsort_perm.
Qed.

(** ** The weighted draw *)

Lemma total_weight_acc l a : foldl (fun sum c => sum + weight c) a l = a + total_weight l.
Proof.
  unfold total_weight. revert a. induction l as [|c l IH]; intros a; cbn [foldl]; [lia|].
  rewrite IH, (IH (0 + weight c)). lia.
Qed.
Lemma total_weight_cons c l : total_weight (c :: l) = weight c + total_weight l.
Proof. unfold total_weight. simpl. rewrite total_weight_acc. unfold total_weight. lia. Qed.

Lemma total_weight_pos l : l ≠ [] → (∀ c, c ∈ l → 1 ≤ weight c) → 0 < total_weight l.
Proof.
  intros Hne Hw. assert (∀ k, (∀ c, c ∈ k → 1 ≤ weight c) → 0 ≤ total_weight k) as Hnn.
  { intros k. induction k as [|c k IH]; intros Hk; [done|]. rewrite total_weight_cons.
    assert (1 ≤ weight c) by (apply Hk; by left).
    assert (0 ≤ total_weight k) by (apply IH; intros x Hx; apply Hk; by right). lia. }
  destruct l as [|c l]; [done|]. rewrite total_weight_cons.
  assert (1 ≤ weight c) by (apply Hw; by left).
  assert (0 ≤ total_weight l) by (apply Hnn; intros x Hx; apply Hw; by right). lia.
Qed.

Lemma draw_spec pool cursor picked :
  0 ≤ cursor < total_weight pool * 2 ^ 32 →
  ∃ i c, pool !! i = Some c ∧ draw cursor pool picked = c ∧
    total_weight (take i pool) * 2 ^ 32 ≤ cursor < total_weight (take (S i) pool) * 2 ^ 32.
Proof.
  revert cursor. induction pool as [|c pool IH]; intros cursor Hc; [unfold total_weight in Hc; simpl in Hc; lia|].
  rewrite total_weight_cons in Hc. cbn [draw]. destruct (_ <? 0) eqn:E; bool_to_Prop.
  - exists 0%nat, c. split; [done|]. split; [done|]. cbn [take firstn].
    rewrite total_weight_cons. unfold total_weight. simpl. lia.
  - destruct (IH (cursor - weight c * 2 ^ 32)) as (i & c' & Hi & Hd & Hr); [lia|].
    exists (S i), c'. split; [done|]. split; [done|].
    change (take (S i) (c :: pool)) with (c :: take i pool).
    change (take (S (S i)) (c :: pool)) with (c :: take (S i) pool).
    rewrite !total_weight_cons. lia.
Qed.

(** The weight of the first [i] eligible layers. *)
Definition weight_before (r : MapVoteSelectionResult) (i : nat) : Z :=
  foldr Z.add 0 (e_weight <$> take i (eligible r)).

Lemma weight_before_eq input i : weight_before (selectNextLayer input) i = total_weight (take i (pool_of input)).
Proof.
  destruct (selectNextLayer_eq input) as (_ & He & _). unfold weight_before.
  assert (e_weight <$> take i (eligible (selectNextLayer input)) = weight <$> take i (pool_of input)) as ->.
  { rewrite !fmap_take. f_equal.
    transitivity (snd <$> ((fun e => (e_layer e, e_weight e)) <$> eligible (selectNextLayer input))).
    - by rewrite <-list_fmap_compose.
    - rewrite He. by rewrite <-list_fmap_compose. }
  generalize (take i (pool_of input)). intros l. induction l as [|c l IH]; [done|].
  rewrite total_weight_cons, fmap_cons. cbn [foldr]. by rewrite IH.
Qed.

(** The weighted draw is the inverse of the cumulative distribution: with
    [u = seededRandom * 2^32], the pick is the eligible layer [i] with
    [W_i * 2^32 <= u * W < W_(i+1) * 2^32], where [W_i] is the weight of the
    layers before it and [W] the total. So each layer owns a part of the
    [2^32] seeds proportional to its weight, and the last-element default of
    the loop is never the reason for a pick. *)
Theorem weighted_draw_exact input :
  selection (settings input) = weighted_random →
  (∀ c, c ∈ candidates input → 1 ≤ weight c) →
  pick (selectNextLayer input) ≠ None →
  let r := selectNextLayer input in
  ∃ i e, eligible r !! i = Some e ∧ pick r = Some (e_layer e) ∧
    weight_before r i * 2 ^ 32
      ≤ seededRandom (seed input) * weight_before r (length (eligible r))
      < weight_before r (S i) * 2 ^ 32.
Proof.
  intros Hsel Hw Hne. cbv zeta. setoid_rewrite weight_before_eq.
  destruct (selectNextLayer_eq input) as (Hp & He & _).
  assert (length (eligible (selectNextLayer input)) = length (pool_of input)) as ->.
  { apply (f_equal length) in He. by rewrite !length_fmap in He. }
  rewrite take_ge by lia. rewrite Hp in *. unfold picked_of in *. rewrite Hsel in *.
  destruct (pool_of input) as [|first rest] eqn:Epool; [done|]. rewrite <-Epool in *.
  remember (seededRandom (seed input)) as u eqn:Eu. pose proof (seededRandom_range (seed input)) as Hu. rewrite <-Eu in Hu.
  assert (0 < total_weight (pool_of input)) as Hpos.
  { apply total_weight_pos; [by rewrite Epool|]. intros c [_ Hc]%elem_of_pool_of. by apply Hw. }
  destruct (draw_spec (pool_of input) (u * total_weight (pool_of input)) (List.last (pool_of input) first))
    as (i & c & Hi & Hd & Hr).
  { split; [apply Z.mul_nonneg_nonneg; lia|].
    rewrite (Z.mul_comm u). apply Z.mul_lt_mono_pos_l; [done|apply Hu]. }
  assert (∃ e, eligible (selectNextLayer input) !! i = Some e ∧ e_layer e = c_layer c) as (e & Hei & Hel).
  { apply (f_equal (fun l => l !! i)) in He. rewrite !list_lookup_fmap, Hi in He. simpl in He.
    destruct (eligible (selectNextLayer input) !! i) as [e|]; [|done]. simpl in He. simplify_eq. eauto. }
  exists i, e. rewrite Hd, Hel. done.
Qed.

(** ** The least recently played layer *)

Lemma age_gt_irrefl a : age_gt a a = false.
Proof. destruct a; simpl; [apply Nat.ltb_irrefl|done]. Qed.

Lemma age_gt_spec a b :
  age_gt a b = true ↔ match a, b with None, Some _ => True | Some i, Some j => (j < i)%nat | _, None => False end.
Proof. destruct a, b; simpl; rewrite ?Nat.ltb_lt; naive_solver. Qed.

Lemma lrp_better_true ns x y :
  lrp_better ns x y = true ↔
  age_gt (lastPlayed ns (c_layer x)) (lastPlayed ns (c_layer y)) = true ∨
  (lastPlayed ns (c_layer x) = lastPlayed ns (c_layer y) ∧ str_lt (c_layer x) (c_layer y) = true).
Proof. unfold lrp_better. rewrite orb_true_iff, andb_true_iff, bool_decide_eq_true. done. Qed.

Lemma lrp_better_trans ns x y z :
  lrp_better ns x y = true → lrp_better ns y z = true → lrp_better ns x z = true.
Proof.
  rewrite !lrp_better_true, !age_gt_spec.
  destruct (lastPlayed ns (c_layer x)) as [i|], (lastPlayed ns (c_layer y)) as [j|],
    (lastPlayed ns (c_layer z)) as [k|]; intros [H1|[H1 H1']] [H2|[H2 H2']]; simplify_eq; try done;
    try (left; lia); right; split; try done; by eapply str_lt_trans.
Qed.

(** Of two different layers one is better. *)
Lemma lrp_better_total ns x y :
  lrp_better ns x y = false → lrp_better ns y x = false → c_layer x = c_layer y.
Proof.
  rewrite <-!not_true_iff_false, !lrp_better_true, !age_gt_spec. intros H1 H2.
  assert (lastPlayed ns (c_layer x) = lastPlayed ns (c_layer y)) as Heq.
  { destruct (lastPlayed ns (c_layer x)) as [i|], (lastPlayed ns (c_layer y)) as [j|]; try done; [|naive_solver..].
    f_equal. destruct (Nat.lt_trichotomy i j) as [?|[?|?]]; naive_solver lia. }
  rewrite Heq in *. apply str_lt_total; apply not_true_is_false; naive_solver.
Qed.

Lemma lrp_better_layer ns x y z : c_layer y = c_layer z → lrp_better ns x y = lrp_better ns x z.
Proof. unfold lrp_better. by intros ->. Qed.

Lemma lrp_best_spec ns first rest c :
  c ∈ first :: rest → lrp_better ns c (lrp_best ns first rest) = false.
Proof.
  unfold lrp_best. revert first c. induction rest as [|d rest IH]; intros first c Hc.
  { apply list_elem_of_singleton in Hc as ->. cbn [foldl]. unfold lrp_better.
    by rewrite age_gt_irrefl, str_lt_irrefl, andb_false_r. }
  cbn [foldl]. set (b := if lrp_better ns d first then d else first).
  destruct (decide (c = b)) as [->|Hb]; [apply IH; by left|].
  destruct (decide (c ∈ rest)) as [Hr|Hr]; [apply IH; by right|].
  assert (lrp_better ns c b = false ∧ (c = d ∨ c = first)) as [Hcb _].
  { apply elem_of_cons in Hc as [->|[->|?]%elem_of_cons]; [..|done]; subst b.
    - destruct (lrp_better ns d first) eqn:E; [|done]. split; [|by right].
      apply not_true_is_false. intros H. pose proof (lrp_better_trans _ _ _ _ H E) as Hf.
      unfold lrp_better in Hf. by rewrite age_gt_irrefl, str_lt_irrefl, andb_false_r in Hf.
    - destruct (lrp_better ns d first) eqn:E; [done|]. by split; [|left]. }
  pose proof (IH b b ltac:(by left)) as Hbb. apply not_true_is_false. intros H.
  set (best := foldl _ b rest) in *. destruct (lrp_better ns best b) eqn:Ebb.
  - pose proof (lrp_better_trans _ _ _ _ H Ebb). congruence.
  - pose proof (lrp_better_total _ _ _ Ebb Hbb) as Hl. rewrite (lrp_better_layer _ _ _ _ Hl) in H. congruence.
Qed.

(** The least-recently-played rule picks an eligible layer whose last
    non-seed play no eligible layer's is older than, a never played one first,
    and of those equally old the alphabetically first. *)
Theorem least_recently_played_oldest input l e :
  selection (settings input) = least_recently_played →
  pick (selectNextLayer input) = Some l → e ∈ eligible (selectNextLayer input) →
  let age x := lastPlayed (non_seed input) x in
  age_gt (age (e_layer e)) (age l) = false ∧
  (age (e_layer e) = age l → str_lt (e_layer e) l = false).
Proof.
  intros Hsel Hl He. destruct (selectNextLayer_eq input) as (Hp & Hel & _).
  rewrite Hp in Hl. destruct (pool_of input) as [|first rest] eqn:Epool; [done|].
  unfold picked_of in Hl. rewrite Hsel in Hl. injection Hl as <-.
  assert (∃ c, c ∈ first :: rest ∧ c_layer c = e_layer e) as (c & Hc & <-).
  { assert ((e_layer e, e_weight e) ∈ (fun c => (c_layer c, weight c)) <$> first :: rest) as H.
    { rewrite <-Hel. apply list_elem_of_fmap. eauto. }
    apply list_elem_of_fmap in H as (c & Hce & Hc). exists c. naive_solver. }
  pose proof (lrp_best_spec (non_seed input) first rest c Hc) as H.
  unfold lrp_better in H. apply orb_false_iff in H as [H1 H2]. split; [done|].
  intros Hage. rewrite bool_decide_true in H2 by done. done.
Qed.

(** ** Concrete pools *)

Definition ex_candidate (layer map : string) (w : Z) : Candidate := mkCandidate (js layer) (js map) w true false.
Definition ex_input (sel : MapVoteSelection) : MapVoteSelectionInput :=
  mkInput [ex_candidate "Yehorivka_RAAS" "Yehorivka" 1; ex_candidate "Fallujah_AAS" "Fallujah" 3;
           ex_candidate "Gorodok_RAAS" "Gorodok" 2]
    [mkMatch (js "Jensen") (js "Jensen") true; mkMatch (js "Gorodok_RAAS") (js "Gorodok") false;
     mkMatch (js "Fallujah_AAS") (js "Fallujah") false]
    (mkSettings sel 1 0) (js "match-1").

Lemma selectNextLayer_order_independent_witness :
  selectNextLayer (with_candidates (ex_input weighted_random) (reverse (candidates (ex_input weighted_random))))
  = selectNextLayer (ex_input weighted_random).
Proof.
  apply selectNextLayer_order_independent; [|apply reverse_Permutation].
  apply (bool_decide_unpack _). vm_compute. done.
Defined.

Lemma weighted_draw_exact_witness :
  let r := selectNextLayer (ex_input weighted_random) in
  ∃ i e, eligible r !! i = Some e ∧ pick r = Some (e_layer e) ∧
    weight_before r i * 2 ^ 32 ≤ seededRandom (js "match-1") * weight_before r (length (eligible r))
      < weight_before r (S i) * 2 ^ 32.
Proof.
  apply (weighted_draw_exact (ex_input weighted_random)); [reflexivity| |vm_compute; discriminate].
  intros c Hc. simpl in Hc. repeat (apply elem_of_cons in Hc as [->|Hc]; [simpl; lia|]).
  by apply not_elem_of_nil in Hc.
Defined.

Lemma least_recently_played_oldest_witness :
  pick (selectNextLayer (ex_input least_recently_played)) = Some (js "Yehorivka_RAAS") ∧
  age_gt (lastPlayed (non_seed (ex_input least_recently_played)) (js "Fallujah_AAS"))
    (lastPlayed (non_seed (ex_input least_recently_played)) (js "Yehorivka_RAAS")) = false.
Proof.
  assert (pick (selectNextLayer (ex_input least_recently_played)) = Some (js "Yehorivka_RAAS")) as E
    by (vm_compute; reflexivity).
  split; [exact E|].
  apply (least_recently_played_oldest (ex_input least_recently_played) _ (mkEligible (js "Fallujah_AAS") 3 (0, 1)) eq_refl E).
  vm_compute. left.
Defined.
