(* ===== verification/JsJson.v ===== *)
(** JSON values as the code handles them after [JSON.parse], and the parts of
    [JSON.stringify] the modelled code uses. A number is the text
    [Number::toString] gives for it. *)
From S2P Require Import Prelude JsString.

Inductive json :=
| JNull
| JBool (b : bool)
| JNum (text : jstr)
| JStr (s : jstr)
| JArr (items : list json)
| JObj (entries : list (jstr * json)).

(** Induction that reaches the items of arrays and the entries of objects. *)
Section JsonInd.
Context (P : json → Prop).
Context (Hnull : P JNull) (Hbool : ∀ b, P (JBool b)) (Hnum : ∀ t, P (JNum t)) (Hstr : ∀ s, P (JStr s)).
Context (Harr : ∀ l, Forall P l → P (JArr l)) (Hobj : ∀ l, Forall (fun e => P e.2) l → P (JObj l)).
Fixpoint json_ind' (v : json) : P v :=
  match v with
  | JNull => Hnull
  | JBool b => Hbool b
  | JNum t => Hnum t
  | JStr s => Hstr s
  | JArr l => Harr l ((fix go l := match l return Forall P l with
                                   | [] => Forall_nil_2 _
                                   | x :: l => Forall_cons_2 _ _ _ (json_ind' x) (go l)
                                   end) l)
  | JObj l => Hobj l ((fix go l := match l return Forall (fun e : jstr * json => P e.2) l with
                                   | [] => Forall_nil_2 _
                                   | (k, x) :: l => Forall_cons_2 (fun e : jstr * json => P e.2) (k, x) _ (json_ind' x) (go l)
                                   end) l)
  end.
End JsonInd.

(** Equality of values up to the order of object keys, at every depth. *)
Inductive json_equiv : json → json → Prop :=
| equiv_null : json_equiv JNull JNull
| equiv_bool b : json_equiv (JBool b) (JBool b)
| equiv_num t : json_equiv (JNum t) (JNum t)
| equiv_str s : json_equiv (JStr s) (JStr s)
| equiv_arr l k : Forall2 json_equiv l k → json_equiv (JArr l) (JArr k)
| equiv_obj l m k : NoDup l.*1 → Forall2 (fun a b => a.1 = b.1 ∧ json_equiv a.2 b.2) l m → m ≡ₚ k →
    json_equiv (JObj l) (JObj k).

(** Objects hold a key once, at every depth. *)
Inductive json_ok : json → Prop :=
| ok_null : json_ok JNull
| ok_bool b : json_ok (JBool b)
| ok_num t : json_ok (JNum t)
| ok_str s : json_ok (JStr s)
| ok_arr l : Forall json_ok l → json_ok (JArr l)
| ok_obj l : NoDup l.*1 → Forall (fun e => json_ok e.2) l → json_ok (JObj l).

Lemma json_equiv_refl v : json_ok v → json_equiv v v.
Proof.
  induction v as [|b|t|t|l IH|l IH] using json_ind'; intros Hok; [constructor..| |].
  - inversion Hok as [| | | |? Hl|]; subst. constructor. apply Forall_Forall2_diag.
    rewrite Forall_forall in IH, Hl |- *. auto.
  - inversion Hok as [| | | | |? Hnd Hl]; subst. econstructor; [done| |done]. apply Forall_Forall2_diag.
    rewrite Forall_forall in IH, Hl |- *. auto.
Qed.

(** * [JSON.stringify] of a string (QuoteJSONString) *)

Definition hex_digit (n : Z) : Z := if n <? 10 then 48 + n else 87 + n.
Definition unicode_escape (c : Z) : jstr :=
  js "\u" ++ [hex_digit (c / 4096 mod 16); hex_digit (c / 256 mod 16); hex_digit (c / 16 mod 16); hex_digit (c mod 16)].

Definition is_high (c : Z) : bool := (0xD800 <=? c) && (c <=? 0xDBFF).
Definition is_low (c : Z) : bool := (0xDC00 <=? c) && (c <=? 0xDFFF).

Definition quote_char (c : Z) : jstr :=
  if c =? 34 then [92; 34] else if c =? 92 then [92; 92]
  else if c =? 8 then js "\b" else if c =? 12 then js "\f" else if c =? 10 then js "\n"
  else if c =? 13 then js "\r" else if c =? 9 then js "\t"
  else if c <? 32 then unicode_escape c else [c].

(** A lone surrogate is escaped, a pair is written as it is. *)
Fixpoint quote_chars (s : jstr) : jstr :=
  match s with
  | [] => []
  | c :: s' =>
      if is_high c then
        match s' with
        | d :: s'' => if is_low d then c :: d :: quote_chars s'' else unicode_escape c ++ quote_chars s'
        | [] => unicode_escape c
        end
      else if is_low c then unicode_escape c ++ quote_chars s'
      else quote_char c ++ quote_chars s'
  end.
Definition quote_json (s : jstr) : jstr := 34 :: quote_chars s ++ [34].
