(* ===== verification/BanMerge.v ===== *)
(** [apps/workers/ban-sync/src/merge.ts]: merging an external ban list into the
    [external_bans] table.

    The table is a list of rows with the unique index
    [external_bans_dedup_key] of the schema; [jsonb] is what Postgres makes of
    a JSON value it stores, and [uuid n] the [n]-th id [uuidv7] returns. *)
From S2P Require Import Prelude JsString JsDate JsMap JsJson.

(** * Data *)

(** [adapters/index.ts]. A [Date] is its time value. *)
Record ParsedBan := mkBan {
  steamId64 : option jstr;
  eosId : option jstr;
  nickname : option jstr;
  reason : option jstr;
  adminName : option jstr;
  issuedAt : option Z;
  expiresAt : option Z;
  raw : json;
}.

(** The columns of a stored row beyond those of a ban. *)
Record ExistingBanRow := mkRow { row_id : jstr; row_ban : ParsedBan; revokedAt : option Z }.

Record MergeUpdate := mkUpdate {
  u_id : jstr; u_nickname : option jstr; u_reason : option jstr; u_adminName : option jstr;
  u_expiresAt : option Z; u_raw : json }.

Record MergePlan := mkPlan {
  toInsert : list ParsedBan;
  toUpdate : list MergeUpdate;
  toRevokeIds : list jstr;
  skippedDuplicateKeys : Z;
}.

Record ApplyMergeResult := mkApplied { added : Z; updated : Z; revoked : Z }.

(** * Planning *)

Definition dedupKey (row : ParsedBan) : jstr :=
  default [] (steamId64 row) ++ js "|" ++ default [] (eosId row) ++ js "|"
  ++ match issuedAt row with Some t => to_iso_string t | None => js "epoch" end.

Fixpoint canonicalJson (value : json) : jstr :=
  match value with
  | JArr l => js "[" ++ join (js ",") (canonicalJson <$> l) ++ js "]"
  | JObj l =>
      let entries := (fun e : jstr * json => (e.1, canonicalJson e.2)) <$> l in
      js "{" ++ join (js ",") ((fun e : jstr * jstr => quote_json e.1 ++ js ":" ++ e.2)
        <$> jsort (fun a b => str_cmp a.1 b.1) entries) ++ js "}"
  | JStr s => quote_json s
  | JNum t => t
  | JBool b => if b then js "true" else js "false"
  | JNull => js "null"
  end.

(** [value ?? {}]. *)
Definition raw_or_empty (v : json) : json := match v with JNull => JObj [] | v => v end.

Definition fieldsDiffer (existing : ExistingBanRow) (incoming : ParsedBan) : bool :=
  let old := row_ban existing in
  negb (bool_decide (nickname old = nickname incoming))
  || negb (bool_decide (reason old = reason incoming))
  || negb (bool_decide (adminName old = adminName incoming))
  || negb (bool_decide (expiresAt old = expiresAt incoming))
  || negb (bool_decide (canonicalJson (raw_or_empty (raw old)) = canonicalJson (raw_or_empty (raw incoming))))
  || negb (bool_decide (revokedAt existing = None)).

Definition update_of (id : jstr) (record : ParsedBan) : MergeUpdate :=
  mkUpdate id (nickname record) (reason record) (adminName record) (expiresAt record) (raw record).

(** The loop over the incoming records. *)
Fixpoint plan_loop (existingByKey : list (jstr * ExistingBanRow)) (incoming : list ParsedBan)
    (acc : list ParsedBan * list MergeUpdate * list jstr * Z) : list ParsedBan * list MergeUpdate * list jstr * Z :=
  match incoming with
  | [] => acc
  | record :: incoming =>
      let '(ins, upd, seen, skipped) := acc in
      let key := dedupKey record in
      if bool_decide (key ∈ seen) then plan_loop existingByKey incoming (ins, upd, seen, skipped + 1)
      else
        let seen := seen ++ [key] in
        match map_get existingByKey key with
        | None => plan_loop existingByKey incoming (ins ++ [record], upd, seen, skipped)
        | Some m =>
            if fieldsDiffer m record
            then plan_loop existingByKey incoming (ins, upd ++ [update_of (row_id m) record], seen, skipped)
            else plan_loop existingByKey incoming (ins, upd, seen, skipped)
        end
  end.

Definition index_rows (existing : list ExistingBanRow) : list (jstr * ExistingBanRow) :=
  foldl (fun m row => map_set m (dedupKey (row_ban row)) row) [] existing.

Definition planMerge (existing : list ExistingBanRow) (incoming : list ParsedBan) : MergePlan :=
  let '(ins, upd, seen, skipped) := plan_loop (index_rows existing) incoming ([], [], [], 0) in
  let revoke := row_id <$> jfilter (fun row => bool_decide (revokedAt row = None)
                  && negb (bool_decide (dedupKey (row_ban row) ∈ seen))) existing in
  mkPlan ins upd revoke skipped.

(** * Applying *)

Definition MERGE_BATCH_SIZE : nat := 1000.
Definition UPDATE_BATCH_ROWS : nat := 500.

(** [chunk(items, size)]; [fuel] bounds the number of chunks. *)
Fixpoint chunk_loop {A} (fuel : nat) (items : list A) (size : nat) : list (list A) :=
  match fuel, items with
  | S fuel, _ :: _ => take size items :: chunk_loop fuel (drop size items) size
  | _, _ => []
  end.
Definition chunk {A} (items : list A) (size : nat) : list (list A) := chunk_loop (length items) items size.

Abbreviation table := (list (jstr * ExistingBanRow)).

(** The key of the unique index: a null [issued_at] counts as the epoch. *)
Definition index_key (b : ParsedBan) : jstr * jstr * Z :=
  (default [] (steamId64 b), default [] (eosId b), default 0 (issuedAt b)).

Section Apply.
Context (jsonb : json → json) (uuid : nat → jstr).

Definition stored (b : ParsedBan) : ParsedBan :=
  mkBan (steamId64 b) (eosId b) (nickname b) (reason b) (adminName b) (issuedAt b) (expiresAt b)
    (jsonb (raw_or_empty (raw b))).

(** [INSERT ... ON CONFLICT DO NOTHING] of one row; [n] counts the ids drawn. *)
Definition insert_row (source : jstr) (st : table * nat * Z) (b : ParsedBan) : table * nat * Z :=
  let '(t, n, count) := st in
  if existsb (fun r : jstr * ExistingBanRow =>
       bool_decide (row_id r.2 = uuid n)
       || (bool_decide (r.1 = source) && bool_decide (index_key (row_ban r.2) = index_key b))) t
  then (t, S n, count)
  else (t ++ [(source, mkRow (uuid n) (stored b) None)], S n, count + 1).

Definition insert_batch (source : jstr) (st : table * nat * Z) (batch : list ParsedBan) : table * nat * Z :=
  foldl (insert_row source) st batch.

(** The row an update writes over. *)
Definition write_update (u : MergeUpdate) (row : ExistingBanRow) : ExistingBanRow :=
  let b := row_ban row in
  mkRow (row_id row)
    (mkBan (steamId64 b) (eosId b) (u_nickname u) (u_reason u) (u_adminName u) (issuedAt b)
       (u_expiresAt u) (jsonb (raw_or_empty (u_raw u)))) None.

(** [UPDATE ... FROM (VALUES ...) WHERE target.id = source.id]. *)
Definition update_batch (t : table) (batch : list MergeUpdate) : table :=
  (fun r : jstr * ExistingBanRow =>
     match List.find (fun u => bool_decide (u_id u = row_id r.2)) batch with
     | Some u => (r.1, write_update u r.2)
     | None => r
     end) <$> t.

Definition revoke_batch (now : Z) (t : table) (ids : list jstr) : table :=
  (fun r : jstr * ExistingBanRow =>
     if bool_decide (row_id r.2 ∈ ids) && bool_decide (revokedAt r.2 = None)
     then (r.1, mkRow (row_id r.2) (row_ban r.2) (Some now)) else r) <$> t.

Definition applyMergePlan (now : Z) (t : table) (source : jstr) (plan : MergePlan) : table * ApplyMergeResult :=
  let '(t1, _, count) := foldl (insert_batch source) (t, 0%nat, 0) (chunk (toInsert plan) MERGE_BATCH_SIZE) in
  let t2 := foldl update_batch t1 (chunk (toUpdate plan) UPDATE_BATCH_ROWS) in
  let t3 := foldl (revoke_batch now) t2 (chunk (toRevokeIds plan) MERGE_BATCH_SIZE) in
  (t3, mkApplied count (Z.of_nat (length (toUpdate plan))) (Z.of_nat (length (toRevokeIds plan)))).
End Apply.

(** [loadExistingBans]: the rows of one source. *)
Definition loadExistingBans (t : table) (source : jstr) : list ExistingBanRow :=
  snd <$> jfilter (fun r : jstr * ExistingBanRow => bool_decide (r.1 = source)) t.

(** * The plan *)

(** The records whose key has not been seen before. *)
Fixpoint firsts (seen : list jstr) (l : list ParsedBan) : list ParsedBan :=
  match l with
  | [] => []
  | b :: l => if bool_decide (dedupKey b ∈ seen) then firsts seen l else b :: firsts (seen ++ [dedupKey b]) l
  end.

Definition first_record (k : jstr) (l : list ParsedBan) : option ParsedBan :=
  List.find (fun b => bool_decide (dedupKey b = k)) l.

Definition plan_update (byKey : list (jstr * ExistingBanRow)) (b : ParsedBan) : option MergeUpdate :=
  m ← map_get byKey (dedupKey b); if fieldsDiffer m b then Some (update_of (row_id m) b) else None.

Lemma plan_loop_spec byKey incoming ins upd seen skipped :
  plan_loop byKey incoming (ins, upd, seen, skipped) =
  let F := firsts seen incoming in
  (ins ++ jfilter (fun b => bool_decide (map_get byKey (dedupKey b) = None)) F,
   upd ++ omap (plan_update byKey) F, seen ++ (dedupKey <$> F),
   skipped + (Z.of_nat (length incoming) - Z.of_nat (length F))).
Proof.
  revert ins upd seen skipped. induction incoming as [|b l IH]; intros ins upd seen skipped; cbv zeta.
  { simpl. rewrite !app_nil_r. do 2 f_equal. lia. }
  cbn [plan_loop firsts]. case_bool_decide as Hseen.
  { rewrite IH. cbv zeta. f_equal. cbn [length]. lia. }
  csimpl. unfold jfilter. cbn [List.filter length].
  assert (plan_update byKey b = (m ← map_get byKey (dedupKey b);
    if fieldsDiffer m b then Some (update_of (row_id m) b) else None)) as -> by done.
  destruct (map_get byKey (dedupKey b)) as [m|] eqn:E; csimpl;
    [destruct (fieldsDiffer m b)|]; rewrite IH; cbv zeta; rewrite <-!app_assoc; unfold jfilter; csimpl; f_equal; lia.
Qed.

Lemma elem_of_firsts seen l b :
  b ∈ firsts seen l ↔ dedupKey b ∉ seen ∧ first_record (dedupKey b) l = Some b.
Proof.
  unfold first_record. revert seen. induction l as [|x l IH]; intros seen; simpl; [set_solver|].
  case_bool_decide as Hseen; [|rewrite elem_of_cons]; rewrite IH.
  - destruct (decide (dedupKey x = dedupKey b)) as [E|E].
    + rewrite bool_decide_true by done. rewrite <-E. naive_solver.
    + by rewrite bool_decide_false.
  - destruct (decide (dedupKey x = dedupKey b)) as [E|E].
    + rewrite bool_decide_true by done. set_solver.
    + rewrite bool_decide_false by done. set_solver.
Qed.

Lemma firsts_nodup seen l : NoDup (dedupKey <$> firsts seen l).
Proof.
  revert seen. induction l as [|x l IH]; intros seen; simpl; [constructor|].
  case_bool_decide; [apply IH|]. rewrite fmap_cons. apply NoDup_cons. split; [|apply IH].
  intros (b & Hk & [Hb _]%elem_of_firsts)%list_elem_of_fmap. set_solver.
Qed.

Lemma first_record_key k l b : first_record k l = Some b → dedupKey b = k ∧ b ∈ l.
Proof.
  unfold first_record. intros [Hin Hk]%List.find_some. bool_to_Prop. split; [done|by apply list_elem_of_In].
Qed.

Lemma first_record_None k l : first_record k l = None ↔ k ∉ dedupKey <$> l.
Proof.
  unfold first_record. split.
  - intros H (b & -> & Hb)%list_elem_of_fmap. apply list_elem_of_In in Hb.
    pose proof (List.find_none _ _ H _ Hb) as Hn. cbv beta in Hn. bool_to_Prop. done.
  - intros H. destruct (List.find _ l) as [b|] eqn:E; [|done]. apply List.find_some in E as [Hb Hk].
    bool_to_Prop. destruct H. apply list_elem_of_fmap. exists b. split; [done|by apply list_elem_of_In].
Qed.

(** The key of a ban is seen exactly when it occurs in the list. *)
Lemma firsts_keys l k : k ∈ dedupKey <$> firsts [] l ↔ is_Some (first_record k l).
Proof.
  rewrite list_elem_of_fmap. split.
  - intros (b & -> & [_ Hb]%elem_of_firsts). eauto.
  - intros [b Hb]. pose proof (first_record_key _ _ _ Hb) as [<- _]. exists b. split; [done|].
    apply elem_of_firsts. split; [set_solver|done].
Qed.

Definition row_keys (rows : list ExistingBanRow) : list jstr := (fun r => dedupKey (row_ban r)) <$> rows.

Lemma index_rows_get rows k : NoDup (row_keys rows) →
  match map_get (index_rows rows) k with
  | Some r => r ∈ rows ∧ dedupKey (row_ban r) = k
  | None => k ∉ row_keys rows
  end.
Proof.
  unfold index_rows, row_keys. induction rows as [|r rows IH] using rev_ind; intros Hnd; [simpl; set_solver|].
  rewrite foldl_app. cbn [foldl]. rewrite map_get_set. rewrite fmap_app in *. apply NoDup_app in Hnd as (H1 & _ & _).
  specialize (IH H1). case_bool_decide; [set_solver|]. destruct (map_get _ k); set_solver.
Qed.

Lemma index_rows_row rows r : NoDup (row_keys rows) → r ∈ rows →
  map_get (index_rows rows) (dedupKey (row_ban r)) = Some r.
Proof.
  intros Hnd Hr. pose proof (index_rows_get rows (dedupKey (row_ban r)) Hnd) as H.
  destruct (map_get _ _) as [r'|].
  - destruct H as [Hr' Hk]. f_equal. apply list_elem_of_lookup in Hr as [i Hi], Hr' as [j Hj].
    assert (i = j); [|congruence]. eapply NoDup_lookup; [exact Hnd| |]; unfold row_keys;
      rewrite list_lookup_fmap; [by rewrite Hi|by rewrite Hj, <-Hk].
  - destruct H. apply list_elem_of_fmap. eauto.
Qed.

Lemma index_rows_None rows k : NoDup (row_keys rows) →
  map_get (index_rows rows) k = None ↔ k ∉ row_keys rows.
Proof.
  intros Hnd. pose proof (index_rows_get rows k Hnd) as H. destruct (map_get _ k) as [r|]; [|done].
  destruct H as [Hr <-]. split; [done|]. intros H. destruct H. apply list_elem_of_fmap. eauto.
Qed.

Definition new_records (existing : list ExistingBanRow) (incoming : list ParsedBan) : list ParsedBan :=
  jfilter (fun b => bool_decide (dedupKey b ∉ row_keys existing)) (firsts [] incoming).

(** The update a stored row gets. *)
Definition row_update (incoming : list ParsedBan) (r : ExistingBanRow) : option MergeUpdate :=
  b ← first_record (dedupKey (row_ban r)) incoming; if fieldsDiffer r b then Some (update_of (row_id r) b) else None.

Definition row_revoked (incoming : list ParsedBan) (r : ExistingBanRow) : bool :=
  bool_decide (revokedAt r = None) && bool_decide (first_record (dedupKey (row_ban r)) incoming = None).

Lemma planMerge_spec existing incoming : NoDup (row_keys existing) →
  let plan := planMerge existing incoming in
  toInsert plan = new_records existing incoming ∧
  (∀ u, u ∈ toUpdate plan ↔ ∃ r, r ∈ existing ∧ row_update incoming r = Some u) ∧
  toRevokeIds plan = row_id <$> jfilter (row_revoked incoming) existing.
Proof.
  intros Hnd. unfold planMerge. rewrite plan_loop_spec. cbn [toInsert toUpdate toRevokeIds app]. split; [|split].
  - unfold new_records, jfilter. apply List.filter_ext. intros b. apply bool_decide_ext. by apply index_rows_None.
  - intros u. rewrite list_elem_of_omap. unfold plan_update, row_update. split.
    + intros (b & [_ Hb]%elem_of_firsts & Hu). pose proof (index_rows_get existing (dedupKey b) Hnd) as H.
      destruct (map_get _ _) as [m|]; [|done]. simpl in Hu. destruct H as [Hm Hk].
      exists m. rewrite Hk, Hb. done.
    + intros (r & Hr & Hu). destruct (first_record _ incoming) as [b|] eqn:Hb; [|done]. simpl in Hu.
      pose proof (first_record_key _ _ _ Hb) as [Hk _]. exists b. rewrite <-Hk in Hb.
      split; [apply elem_of_firsts; split; [set_solver|done]|].
      rewrite Hk, index_rows_row by done. done.
  - f_equal. unfold jfilter. apply List.filter_ext. intros r. unfold row_revoked. f_equal.
    rewrite <-bool_decide_not. apply bool_decide_ext. by rewrite firsts_keys, eq_None_not_Some.
Qed.

(** * Batches *)

Lemma chunk_loop_concat {A} fuel (l : list A) n : (0 < n)%nat → (length l ≤ fuel)%nat → concat (chunk_loop fuel l n) = l.
Proof.
  intros Hn. revert l. induction fuel as [|fuel IH]; intros [|x l] Hl; simpl in Hl; try done; try lia.
  cbn [chunk_loop concat]. rewrite IH; [apply take_drop|]. rewrite length_drop. simpl. lia.
Qed.
Lemma chunk_concat {A} (l : list A) n : (0 < n)%nat → concat (chunk l n) = l.
Proof. intros Hn. by apply chunk_loop_concat. Qed.

Lemma chunk_sizes {A} (l : list A) n : (0 < n)%nat → Forall (fun c => 0 < length c ≤ n)%nat (chunk l n).
Proof.
  intros Hn. unfold chunk. generalize (length l). intros fuel. revert l.
  induction fuel as [|fuel IH]; intros [|x l]; simpl; constructor; [|by apply IH].
  rewrite length_take. simpl. lia.
Qed.

Lemma foldl_concat {A B} (f : A → B → A) a ls : foldl (foldl f) a ls = foldl f a (concat ls).
Proof. revert a. induction ls as [|l ls IH]; intros a; simpl; [done|]. by rewrite foldl_app, IH. Qed.

(** * Canonical JSON *)

Lemma Forall2_fmap_eq {A B} (P : A → A → Prop) (f : A → B) l k :
  Forall (fun x => ∀ y, P x y → f x = f y) l → Forall2 P l k → f <$> l = f <$> k.
Proof.
  intros Hl. induction 1 as [|x y l k Hxy _ IH]; [done|]. apply Forall_cons in Hl as [Hx Hl].
  rewrite !fmap_cons. f_equal; [by apply Hx|by apply IH].
Qed.

(** [canonicalJson] does not depend on the order of keys, at any depth. *)
Lemma canonicalJson_equiv v w : json_equiv v w → canonicalJson v = canonicalJson w.
Proof.
  revert w. induction v as [|b|x|x|l IH|l IH] using json_ind'; intros w Hw;
    inversion Hw as [| | | |? k Hk|? m k Hnd Hm Hp]; subst; try done; cbn [canonicalJson].
  - do 3 f_equal. by eapply Forall2_fmap_eq.
  - set (f := fun e : jstr * json => (e.1, canonicalJson e.2)).
    assert (f <$> l = f <$> m) as Hlm.
    { eapply Forall2_fmap_eq; [|exact Hm]. eapply Forall_impl; [exact IH|]. intros [k1 v1] H [k2 v2] [H1 H2].
      unfold f. cbn [fst snd] in *. f_equal; [done|by apply H]. }
    do 4 f_equal. apply jsort_permutation.
    + intros. apply str_cmp_total.
    + intros ???. apply str_cmp_trans.
    + intros x y Hx Hy H1 H2. assert (x.1 = y.1) as Hxy by by apply str_cmp_antisym.
      apply (NoDup_fmap_inj_elem fst (f <$> l)); [|done..].
      rewrite <-list_fmap_compose. exact Hnd.
    + rewrite Hlm. by apply fmap_Permutation.
Qed.

Section ApplyProofs.
Context (jsonb : json → json) (uuid : nat → jstr).

Lemma update_batch_app t b1 b2 : NoDup (u_id <$> b1 ++ b2) →
  update_batch jsonb (update_batch jsonb t b1) b2 = update_batch jsonb t (b1 ++ b2).
Proof.
  intros Hnd. unfold update_batch. rewrite <-list_fmap_compose. apply list_fmap_ext. intros _ [src r] _. simpl.
  assert (∀ p (k l : list MergeUpdate), List.find p (k ++ l)
    = match List.find p k with Some u => Some u | None => List.find p l end) as Hf.
  { intros p k l. induction k as [|x k IH]; simpl; [done|]. by destruct (p x). }
  rewrite Hf. destruct (List.find _ b1) as [u|] eqn:E; [|done]. cbn [snd fst write_update row_id].
  apply List.find_some in E as [Hu Hid]. bool_to_Prop.
  destruct (List.find _ b2) as [u2|] eqn:E2; [|done]. apply List.find_some in E2 as [Hu2 Hid2]. bool_to_Prop.
  rewrite fmap_app in Hnd. apply NoDup_app in Hnd as (_ & Hd & _). destruct (Hd (row_id r)).
  - apply list_elem_of_fmap. exists u. by rewrite list_elem_of_In.
  - apply list_elem_of_fmap. exists u2. by rewrite list_elem_of_In.
Qed.

Lemma update_batches t bs : NoDup (u_id <$> concat bs) →
  foldl (update_batch jsonb) t bs = update_batch jsonb t (concat bs).
Proof.
  revert t. induction bs as [|b bs IH]; intros t Hnd; simpl.
  { unfold update_batch. simpl. symmetry. apply list_fmap_id. }
  rewrite IH; [by apply update_batch_app|]. simpl in Hnd. rewrite fmap_app in Hnd. by apply NoDup_app in Hnd as (_ & _ & ?).
Qed.

Lemma revoke_batches now t bs : foldl (revoke_batch now) t bs = revoke_batch now t (concat bs).
Proof.
  revert t. induction bs as [|b bs IH]; intros t; simpl.
  { unfold revoke_batch. symmetry. rewrite <-(list_fmap_id t) at 2. apply list_fmap_ext. intros _ [src r] _.
    by rewrite bool_decide_false by set_solver. }
  rewrite IH. unfold revoke_batch. rewrite <-list_fmap_compose. apply list_fmap_ext. intros _ [src r] _. simpl.
  destruct (decide (revokedAt r = None)) as [Hr|Hr].
  - rewrite !(bool_decide_true (revokedAt r = None)), !andb_true_r by done.
    destruct (decide (row_id r ∈ b)) as [Hb|Hb].
    + rewrite (bool_decide_true (row_id r ∈ b)) by done.
      rewrite (bool_decide_true (row_id r ∈ b ++ concat bs)) by (apply elem_of_app; by left). cbn [fst snd row_id revokedAt]. by rewrite andb_false_r.
    + rewrite (bool_decide_false (row_id r ∈ b)) by done. cbn [fst snd].
      rewrite (bool_decide_true (revokedAt r = None)), andb_true_r by done.
      by rewrite (bool_decide_ext (row_id r ∈ b ++ concat bs) (row_id r ∈ concat bs)) by (rewrite elem_of_app; tauto).
  - rewrite !(bool_decide_false (revokedAt r = None)), !andb_false_r by done. cbn [fst snd].
    by rewrite (bool_decide_false (revokedAt r = None)), andb_false_r by done.
Qed.

Definition inserted (source : jstr) (n : nat) (l : list ParsedBan) : table :=
  imap (fun i b => (source, mkRow (uuid (n + i)) (stored jsonb b) None)) l.

Definition table_ids (t : table) : list jstr := (fun r => row_id r.2) <$> t.

Lemma insert_rows source t n count l :
  (∀ i j, uuid i = uuid j → i = j) → (∀ i, (n ≤ i)%nat → uuid i ∉ table_ids t) →
  (∀ b, b ∈ l → Forall (fun r => index_key (row_ban r) ≠ index_key b) (loadExistingBans t source)) →
  NoDup (index_key <$> l) →
  foldl (insert_row jsonb uuid source) (t, n, count) l
    = (t ++ inserted source n l, (n + length l)%nat, count + Z.of_nat (length l)).
Proof.
  intros Hinj. revert t n count. induction l as [|b l IH]; intros t n count Hid Hk Hnd.
  { simpl. rewrite app_nil_r. repeat f_equal; simpl; lia. }
  cbn [foldl]. rewrite fmap_cons in Hnd. apply NoDup_cons in Hnd as [Hb Hnd].
  assert (insert_row jsonb uuid source (t, n, count) b
    = (t ++ [(source, mkRow (uuid n) (stored jsonb b) None)], S n, count + 1)) as ->.
  { unfold insert_row. destruct (existsb _ t) eqn:E; [|done]. exfalso.
    apply existsb_exists in E as ([s r] & Hr & E). apply list_elem_of_In in Hr. cbn [fst snd] in E.
    apply orb_true_iff in E as [E|E]; bool_to_Prop; subst.
    - apply (Hid n); [done|]. apply list_elem_of_fmap. by exists (s, r).
    - specialize (Hk b ltac:(by left)). rewrite Forall_forall in Hk. apply (Hk r); [|done].
      unfold loadExistingBans. apply list_elem_of_fmap. exists (source, r). split; [done|].
      apply elem_of_jfilter. split; [by rewrite bool_decide_true|done]. }
  rewrite IH.
  - unfold inserted. cbn [imap length]. rewrite <-app_assoc. cbn [app]. f_equal; [|lia]. f_equal; [|lia].
    f_equal. rewrite Nat.add_0_r. f_equal. apply imap_ext. intros i x _. cbn. do 3 f_equal. lia.
  - intros i Hi. unfold table_ids. rewrite fmap_app. apply not_elem_of_app. split; [apply Hid; lia|].
    simpl. intros ->%list_elem_of_singleton%Hinj. lia.
  - intros b' Hb'. unfold loadExistingBans. rewrite jfilter_app, fmap_app. apply Forall_app. split; [apply Hk; by right|].
    unfold jfilter. cbn [List.filter fst]. rewrite bool_decide_true by done. repeat constructor. simpl.
    intros Heq. apply Hb, list_elem_of_fmap. exists b'. split; [|done]. by rewrite <-Heq.
  - done.
Qed.

(** ** The table after a merge *)

Context (now : Z) (t : table) (source : jstr) (incoming : list ParsedBan).
Abbreviation existing := (loadExistingBans t source).

(** Ids are unique and the ids [uuidv7] draws are new; the rows of the source
    satisfy the unique index; and on the keys at hand the string key of the
    code and the key of the index agree. *)
Record merge_ready : Prop := {
  ids_unique : NoDup (table_ids t);
  uuid_injective : ∀ i j, uuid i = uuid j → i = j;
  uuid_new : ∀ i, uuid i ∉ table_ids t;
  index_unique : NoDup ((fun r => index_key (row_ban r)) <$> existing);
  keys_agree : ∀ a b, a ∈ (row_ban <$> existing) ++ incoming → b ∈ (row_ban <$> existing) ++ incoming →
    dedupKey a = dedupKey b ↔ index_key a = index_key b;
}.
Context (Hready : merge_ready).

Lemma elem_of_existing r : r ∈ existing ↔ (source, r) ∈ t.
Proof using.
  clear Hready. unfold loadExistingBans. rewrite list_elem_of_fmap. split.
  - intros ([s r'] & -> & [Hs Hr]%elem_of_jfilter). simpl in Hs. bool_to_Prop. by subst.
  - intros Hr. exists (source, r). split; [done|]. apply elem_of_jfilter. split; [by apply bool_decide_eq_true|done].
Qed.

Lemma row_keys_nodup : NoDup (row_keys existing).
Proof using Hready.
  unfold row_keys. eapply NoDup_fmap_elem; [|exact (index_unique Hready)]. intros x y Hx Hy.
  apply (keys_agree Hready); apply elem_of_app; left; apply list_elem_of_fmap; eauto.
Qed.

Lemma existing_ids_nodup : NoDup (row_id <$> existing).
Proof using Hready.
  pose proof (ids_unique Hready) as H. unfold table_ids in H. unfold loadExistingBans.
  rewrite <-list_fmap_compose. eapply sublist_NoDup; [exact H|]. apply fmap_sublist, jfilter_sublist.
Qed.

Lemma row_by_id r r' : r ∈ existing → r' ∈ existing → row_id r = row_id r' → r = r'.
Proof using Hready. intros Hr Hr' Hid. by eapply (NoDup_fmap_inj_elem row_id); [apply existing_ids_nodup| | |]. Qed.

Lemma row_by_table_id s r r' : (s, r) ∈ t → r' ∈ existing → row_id r = row_id r' → s = source ∧ r = r'.
Proof using Hready.
  intros Hr Hr'%elem_of_existing Hid.
  assert ((s, r) = (source, r')) as [= -> ->]; [|done].
  by eapply (NoDup_fmap_inj_elem (fun x : jstr * ExistingBanRow => row_id x.2)); [apply (ids_unique Hready)| | |].
Qed.

Abbreviation plan := (planMerge existing incoming).

Lemma row_update_id r u : row_update incoming r = Some u → u_id u = row_id r.
Proof using.
  unfold row_update. destruct (first_record _ _); [|done]. simpl. destruct (fieldsDiffer _ _); [|done]. by intros [= <-].
Qed.

Lemma updates_nodup : NoDup (u_id <$> toUpdate plan).
Proof using Hready.
  unfold planMerge. rewrite plan_loop_spec. cbn [toUpdate app].
  assert (∀ b u, plan_update (index_rows existing) b = Some u →
    ∃ r, r ∈ existing ∧ u_id u = row_id r ∧ dedupKey (row_ban r) = dedupKey b) as Hu.
  { intros b u. unfold plan_update. pose proof (index_rows_get existing (dedupKey b) row_keys_nodup) as H.
    destruct (map_get _ _) as [m|]; [|done]. simpl. destruct (fieldsDiffer m b); [|done]. intros [= <-].
    exists m. naive_solver. }
  pose proof (firsts_nodup [] incoming) as Hnd. revert Hnd. generalize (firsts [] incoming). intros F.
  induction F as [|b F IH]; [constructor|]. rewrite fmap_cons. intros [Hb HF]%NoDup_cons. csimpl.
  destruct (plan_update _ b) as [u|] eqn:Eu; [|by apply IH]. rewrite fmap_cons. apply NoDup_cons. split; [|by apply IH].
  intros (u' & Hid & (b' & Hb' & Eu')%list_elem_of_omap)%list_elem_of_fmap.
  destruct (Hu _ _ Eu) as (r & Hr & Hr1 & Hr2), (Hu _ _ Eu') as (r' & Hr' & Hr1' & Hr2').
  assert (r = r') as -> by (apply row_by_id; [done..|congruence]).
  apply Hb, list_elem_of_fmap. exists b'. split; [congruence|done].
Qed.

Lemma find_update s r : (s, r) ∈ t →
  List.find (fun u => bool_decide (u_id u = row_id r)) (toUpdate plan)
    = if bool_decide (s = source) then row_update incoming r else None.
Proof using Hready.
  intros Hr. destruct (planMerge_spec existing incoming row_keys_nodup) as (_ & Hupd & _).
  destruct (List.find _ _) as [u|] eqn:E.
  - apply List.find_some in E as [Hu Hid]. bool_to_Prop. apply list_elem_of_In, Hupd in Hu as (r' & Hr' & Hu').
    pose proof (row_update_id _ _ Hu') as Hid'.
    destruct (row_by_table_id s r r' Hr Hr') as [-> ->]; [congruence|]. by rewrite bool_decide_true.
  - case_bool_decide; [|done]. subst s. destruct (row_update incoming r) as [u|] eqn:Eu; [|done].
    assert (u ∈ toUpdate plan) as Hin. { apply Hupd. exists r. split; [by apply elem_of_existing|done]. }
    apply list_elem_of_In in Hin. pose proof (List.find_none _ _ E _ Hin) as Hn. cbv beta in Hn. bool_to_Prop.
    by apply row_update_id in Eu.
Qed.

Lemma elem_of_revoke s r : (s, r) ∈ t →
  row_id r ∈ toRevokeIds plan ↔ s = source ∧ row_revoked incoming r = true.
Proof using Hready.
  intros Hr. destruct (planMerge_spec existing incoming row_keys_nodup) as (_ & _ & ->).
  rewrite list_elem_of_fmap. split.
  - intros (r' & Hid & [Hrv Hr']%elem_of_jfilter). by destruct (row_by_table_id s r r' Hr Hr') as [-> ->].
  - intros [-> Hrv]. exists r. split; [done|]. apply elem_of_jfilter. by rewrite elem_of_existing.
Qed.

(** The stored row after a merge. *)
Definition row_after (r : ExistingBanRow) : ExistingBanRow :=
  match row_update incoming r with
  | Some u => write_update jsonb u r
  | None => if row_revoked incoming r then mkRow (row_id r) (row_ban r) (Some now) else r
  end.

Definition table_after : table :=
  ((fun r : jstr * ExistingBanRow => if bool_decide (r.1 = source) then (source, row_after r.2) else r) <$> t)
  ++ inserted source 0 (new_records existing incoming).

Lemma new_records_fresh b : b ∈ new_records existing incoming →
  b ∈ incoming ∧ dedupKey b ∉ row_keys existing.
Proof using.
  clear Hready. intros [Hk [_ Hb]%elem_of_firsts]%elem_of_jfilter. bool_to_Prop.
  by apply first_record_key in Hb as [_ Hb].
Qed.

Lemma new_records_index : NoDup (index_key <$> new_records existing incoming) ∧
  ∀ b, b ∈ new_records existing incoming → Forall (fun r => index_key (row_ban r) ≠ index_key b) existing.
Proof using Hready.
  split.
  - eapply NoDup_fmap_elem; [|eapply sublist_NoDup; [apply (firsts_nodup [] incoming)|apply fmap_sublist, jfilter_sublist]].
    intros x y [Hx _]%new_records_fresh [Hy _]%new_records_fresh.
    apply (keys_agree Hready); apply elem_of_app; by right.
  - intros b [Hb Hk]%new_records_fresh. apply Forall_forall. intros r Hr Heq. apply Hk.
    apply list_elem_of_fmap. exists r. split; [|done]. symmetry. apply (keys_agree Hready); [..|done];
      apply elem_of_app; [left; apply list_elem_of_fmap; eauto|by right].
Qed.

Lemma applyMergePlan_eq : (applyMergePlan jsonb uuid now t source plan).1 = table_after.
Proof using Hready.
  unfold applyMergePlan. destruct (planMerge_spec existing incoming row_keys_nodup) as (Hins & _ & _).
  destruct new_records_index as [Hn1 Hn2].
  assert (foldl (insert_batch jsonb uuid source) (t, 0%nat, 0) (chunk (toInsert plan) MERGE_BATCH_SIZE)
    = foldl (insert_row jsonb uuid source) (t, 0%nat, 0) (toInsert plan)) as ->.
  { rewrite <-(chunk_concat (toInsert plan) MERGE_BATCH_SIZE) at 2 by (unfold MERGE_BATCH_SIZE; lia).
    apply (foldl_concat (insert_row jsonb uuid source)). }
  rewrite Hins, insert_rows; [|apply (uuid_injective Hready)|intros; apply (uuid_new Hready)|done|done].
  assert (0 < MERGE_BATCH_SIZE)%nat as Hb1 by (unfold MERGE_BATCH_SIZE; lia).
  assert (0 < UPDATE_BATCH_ROWS)%nat as Hb2 by (unfold UPDATE_BATCH_ROWS; lia).
  cbn [fst]. rewrite update_batches by (rewrite chunk_concat by done; apply updates_nodup).
  rewrite revoke_batches, !chunk_concat by done.
  unfold table_after, update_batch, revoke_batch. rewrite <-list_fmap_compose, fmap_app. f_equal.
  - apply list_fmap_ext. intros i [s r] Hr%list_elem_of_lookup_2. unfold compose. cbn [fst snd].
    rewrite (find_update s r Hr). destruct (decide (s = source)) as [->|Hne].
    + rewrite !(bool_decide_true (source = source)) by done. unfold row_after. destruct (row_update incoming r) as [u|] eqn:Eu.
      * cbn [fst snd write_update row_id revokedAt]. rewrite bool_decide_false; [done|].
        rewrite (elem_of_revoke source r Hr). intros [_ Hrv]. unfold row_revoked in Hrv. bool_to_Prop.
        unfold row_update in Eu. by destruct (first_record _ _).
      * cbn [fst snd]. destruct (row_revoked incoming r) eqn:Erv.
        -- rewrite bool_decide_true by (by apply (elem_of_revoke source r Hr)).
           unfold row_revoked in Erv. bool_to_Prop. by rewrite bool_decide_true.
        -- rewrite bool_decide_false; [done|]. rewrite (elem_of_revoke source r Hr), Erv. by intros [].
    + rewrite !(bool_decide_false (s = source)) by done. cbn [fst snd].
      rewrite bool_decide_false; [done|]. rewrite (elem_of_revoke s r Hr). by intros [].
  - unfold inserted. apply list_eq. intros i. rewrite list_lookup_fmap. destruct (imap _ _ !! i) as [[s r]|] eqn:E; [|done].
    rewrite list_lookup_imap in E. destruct (new_records existing incoming !! i) as [b|]; [|done]. simplify_eq/=.
    assert (∀ r, r ∈ existing → row_id r ≠ uuid i) as Hfresh.
    { intros r Hr%elem_of_existing Hid. apply (uuid_new Hready i). apply list_elem_of_fmap. by exists (source, r). }
    destruct (planMerge_spec existing incoming row_keys_nodup) as (_ & Hupd & Hrev).
    destruct (List.find _ _) as [u|] eqn:Ef.
    { apply List.find_some in Ef as [Hu Hid]. bool_to_Prop. apply list_elem_of_In, Hupd in Hu as (r & Hr & Hu).
      apply row_update_id in Hu. destruct (Hfresh r Hr). congruence. }
    cbn [fst snd row_id]. rewrite bool_decide_false; [done|]. rewrite Hrev.
    intros (r & Hid & [_ Hr]%elem_of_jfilter)%list_elem_of_fmap. by destruct (Hfresh r Hr).
Qed.

(** ** What the merge achieves *)

(** Postgres keeps the value of a JSON document, not the order of its keys. *)
Context (jsonb_keeps_value : ∀ v, json_ok v → json_equiv v (jsonb v)).
Context (raws_ok : ∀ b, b ∈ incoming → json_ok (raw b)).

(** The stored row shows the ban as the list has it. *)
Definition row_shows (b : ParsedBan) (r : ExistingBanRow) : Prop :=
  nickname (row_ban r) = nickname b ∧ reason (row_ban r) = reason b ∧
  adminName (row_ban r) = adminName b ∧ expiresAt (row_ban r) = expiresAt b ∧
  canonicalJson (raw_or_empty (raw (row_ban r))) = canonicalJson (raw_or_empty (raw b)) ∧
  revokedAt r = None.

Lemma fieldsDiffer_false r b : fieldsDiffer r b = false ↔ row_shows b r.
Proof using.
  clear. unfold fieldsDiffer, row_shows.
  rewrite !orb_false_iff, !negb_false_iff, !bool_decide_eq_true. tauto.
Qed.

Lemma stored_raw b : b ∈ incoming →
  canonicalJson (raw_or_empty (jsonb (raw_or_empty (raw b)))) = canonicalJson (raw_or_empty (raw b)).
Proof using jsonb_keeps_value raws_ok.
  intros Hb. pose proof (raws_ok b Hb) as Hok.
  assert (json_ok (raw_or_empty (raw b)) ∧ raw_or_empty (raw b) ≠ JNull) as [Hok' Hnn].
  { destruct (raw b); simpl; split; try done. constructor; constructor. }
  pose proof (jsonb_keeps_value _ Hok') as Heq. rewrite (canonicalJson_equiv _ _ Heq).
  inversion Heq; subst; try done; congruence.
Qed.

Lemma row_after_id r : row_id (row_after r) = row_id r ∧ steamId64 (row_ban (row_after r)) = steamId64 (row_ban r)
  ∧ eosId (row_ban (row_after r)) = eosId (row_ban r) ∧ issuedAt (row_ban (row_after r)) = issuedAt (row_ban r)
  ∧ dedupKey (row_ban (row_after r)) = dedupKey (row_ban r).
Proof using. clear. unfold row_after. destruct (row_update incoming r); [done|]. by destruct (row_revoked incoming r). Qed.

Lemma row_after_shows r :
  match first_record (dedupKey (row_ban r)) incoming with
  | Some b => row_shows b (row_after r)
  | None => revokedAt (row_after r) ≠ None
  end.
Proof using jsonb_keeps_value raws_ok.
  unfold row_after, row_update, row_revoked.
  destruct (first_record _ incoming) as [b|] eqn:Hb; simpl.
  - destruct (fieldsDiffer r b) eqn:Hd.
    + apply first_record_key in Hb as [_ Hb]. repeat split. by apply stored_raw.
    + rewrite andb_false_r. by apply fieldsDiffer_false.
  - rewrite andb_true_r. by case_bool_decide.
Qed.

Definition new_row (i : nat) (b : ParsedBan) : ExistingBanRow := mkRow (uuid i) (stored jsonb b) None.

Lemma load_after : loadExistingBans table_after source =
  (row_after <$> existing) ++ imap new_row (new_records existing incoming).
Proof using.
  clear Hready jsonb_keeps_value raws_ok. unfold table_after, loadExistingBans. rewrite jfilter_app, fmap_app. f_equal.
  - unfold jfilter. induction t as [|[s r] t' IH]; [done|]. rewrite fmap_cons. cbn [List.filter fst].
    destruct (decide (s = source)) as [->|Hs].
    + rewrite (bool_decide_true (source = source)) by done. cbn [fst].
      rewrite (bool_decide_true (source = source)) by done. rewrite !fmap_cons. f_equal. exact IH.
    + rewrite (bool_decide_false (s = source)) by done. cbn [fst].
      rewrite (bool_decide_false (s = source)) by done. exact IH.
  - unfold inserted. generalize (new_records (snd <$> jfilter (λ r : jstr * ExistingBanRow, bool_decide (r.1 = source)) t) incoming) as l.
    intros l. rewrite jfilter_all.
    + apply list_eq. intros i. rewrite list_lookup_fmap, !list_lookup_imap. by destruct (l !! i).
    + intros [s r] (i & b & [= -> ->] & _)%elem_of_lookup_imap. by apply bool_decide_eq_true.
Qed.

Lemma elem_of_load_after r : r ∈ loadExistingBans table_after source →
  (∃ r0, r0 ∈ existing ∧ r = row_after r0) ∨
  (∃ i b, b ∈ new_records existing incoming ∧ r = new_row i b).
Proof using.
  clear Hready jsonb_keeps_value raws_ok. rewrite load_after, elem_of_app. intros [H|H].
  - left. apply list_elem_of_fmap in H as (r0 & -> & Hr). eauto.
  - right. apply elem_of_lookup_imap in H as (i & b & -> & Hb). exists i, b. split; [|done].
    by apply list_elem_of_lookup_2 in Hb.
Qed.

Lemma load_after_shows r : r ∈ loadExistingBans table_after source →
  match first_record (dedupKey (row_ban r)) incoming with
  | Some b => row_shows b r
  | None => revokedAt r ≠ None
  end.
Proof using jsonb_keeps_value raws_ok.
  intros [(r0 & Hr0 & ->)|(i & b & Hb & ->)]%elem_of_load_after.
  - destruct (row_after_id r0) as (_ & _ & _ & _ & ->). apply row_after_shows.
  - apply elem_of_jfilter in Hb as [_ [_ Hb]%elem_of_firsts].
    change (dedupKey (row_ban (new_row i b))) with (dedupKey b). rewrite Hb.
    apply first_record_key in Hb as [_ Hb]. repeat split. by apply stored_raw.
Qed.

Lemma load_after_keys :
  NoDup (row_keys (loadExistingBans table_after source)) ∧
  ∀ b, b ∈ incoming → dedupKey b ∈ row_keys (loadExistingBans table_after source).
Proof using Hready jsonb_keeps_value raws_ok.
  assert (row_keys (loadExistingBans table_after source)
    = row_keys existing ++ (dedupKey <$> new_records existing incoming)) as ->.
  { unfold row_keys. rewrite load_after, fmap_app. f_equal.
    - rewrite <-list_fmap_compose. apply list_fmap_ext. intros _ r _. apply row_after_id.
    - apply list_eq. intros i. rewrite !list_lookup_fmap, list_lookup_imap. by destruct (_ !! i). }
  split.
  - apply NoDup_app. split; [apply row_keys_nodup|]. split.
    + intros k Hk (b & -> & [_ Hb]%new_records_fresh)%list_elem_of_fmap. done.
    + eapply sublist_NoDup; [apply (firsts_nodup [] incoming)|apply fmap_sublist, jfilter_sublist].
  - intros b Hb. apply elem_of_app. destruct (decide (dedupKey b ∈ row_keys existing)) as [|Hk]; [by left|right].
    destruct (first_record (dedupKey b) incoming) as [b0|] eqn:E.
    + pose proof (first_record_key _ _ _ E) as [Hk0 _]. apply list_elem_of_fmap. exists b0. split; [done|].
      apply elem_of_jfilter. rewrite Hk0. split; [by apply bool_decide_eq_true|].
      apply elem_of_firsts. split; [set_solver|by rewrite Hk0].
    + apply first_record_None in E. destruct E. apply list_elem_of_fmap. eauto.
Qed.

Lemma merge_exact_aux :
  let t' := (applyMergePlan jsonb uuid now t source plan).1 in
  (∀ s r, (s, r) ∈ t → ∃ r', (s, r') ∈ t' ∧ row_id r' = row_id r ∧
     dedupKey (row_ban r') = dedupKey (row_ban r) ∧ (s ≠ source → r' = r)) ∧
  (∀ b, b ∈ incoming → ∃ r, r ∈ loadExistingBans t' source ∧ dedupKey (row_ban r) = dedupKey b) ∧
  (∀ r, r ∈ loadExistingBans t' source →
     match first_record (dedupKey (row_ban r)) incoming with
     | Some b => row_shows b r
     | None => revokedAt r ≠ None
     end).
Proof using Hready jsonb_keeps_value raws_ok.
  cbv zeta. rewrite applyMergePlan_eq. split; [|split].
  - intros s r Hr. destruct (decide (s = source)) as [->|Hne].
    + exists (row_after r). pose proof (row_after_id r) as (? & _ & _ & _ & ?). split; [|done].
      apply elem_of_app. left. apply list_elem_of_fmap. exists (source, r). by rewrite bool_decide_true.
    + exists r. split; [|done]. apply elem_of_app. left. apply list_elem_of_fmap. exists (s, r).
      by rewrite bool_decide_false.
  - intros b Hb. destruct load_after_keys as [_ H]. apply H, list_elem_of_fmap in Hb as (r & Hk & Hr). eauto.
  - apply load_after_shows.
Qed.

Lemma merge_idempotent_aux :
  let t' := (applyMergePlan jsonb uuid now t source plan).1 in
  let plan' := planMerge (loadExistingBans t' source) incoming in
  toInsert plan' = [] ∧ toUpdate plan' = [] ∧ toRevokeIds plan' = [].
Proof using Hready jsonb_keeps_value raws_ok.
  cbv zeta. rewrite applyMergePlan_eq. destruct load_after_keys as [Hnd Hin].
  destruct (planMerge_spec _ incoming Hnd) as (-> & Hu & ->). split; [|split].
  - apply jfilter_none. intros b [_ Hb]%elem_of_firsts. apply first_record_key in Hb as [_ Hb].
    apply bool_decide_eq_false. intros H. by apply H, Hin.
  - destruct (toUpdate _) as [|u us] eqn:E; [done|]. destruct (Hu u) as [Hu' _].
    destruct Hu' as (r & Hr & Hru); [by left|]. exfalso. pose proof (load_after_shows r Hr) as H.
    unfold row_update in Hru. destruct (first_record _ _) as [b|]; [|done]. simpl in Hru.
    apply fieldsDiffer_false in H. by rewrite H in Hru.
  - rewrite jfilter_none; [done|]. intros r Hr. pose proof (load_after_shows r Hr) as H. unfold row_revoked.
    destruct (first_record _ incoming); [by rewrite andb_false_r|]. by rewrite bool_decide_false.
Qed.
End ApplyProofs.

(** * Key agreement *)

(** Ids free of the separator and an issue date, if any, other than the epoch
    and in a four-digit year. *)
Definition safe_ban (b : ParsedBan) : Prop :=
  124 ∉ default [] (steamId64 b) ∧ 124 ∉ default [] (eosId b) ∧
  match issuedAt b with Some t => t ≠ 0 ∧ plain_year t | None => True end.

Lemma to_iso_string_not_epoch t : plain_year t → to_iso_string t ≠ js "epoch".
Proof.
  unfold plain_year, to_iso_string, iso_year. intros Ht.
  rewrite (proj2 (andb_true_iff _ _)) by (split; apply Z.leb_le; lia). intros H.
  assert (∀ c, c ∈ pad_left 4 (nat_str (get_utc_full_year t)) → 48 ≤ c ≤ 57) as Hc.
  { intros c. apply pad_left_chars. lia. }
  destruct (pad_left 4 _) as [|c s]; simplify_eq/=. specialize (Hc 101 ltac:(by left)). lia.
Qed.

Lemma safe_keys_agree a b : safe_ban a → safe_ban b → dedupKey a = dedupKey b ↔ index_key a = index_key b.
Proof.
  intros (Ha1 & Ha2 & Ha3) (Hb1 & Hb2 & Hb3). unfold dedupKey, index_key. split.
  - intros [-> H]%(separator_inj 124); [|done..]. apply (separator_inj 124) in H as [-> H]; [|done..].
    f_equal. destruct (issuedAt a) as [x|], (issuedAt b) as [y|]; simpl; [..|done].
    + apply to_iso_string_inj in H as ->; [done|apply Ha3|apply Hb3].
    + exfalso. by apply (to_iso_string_not_epoch x); [apply Ha3|].
    + exfalso. by apply (to_iso_string_not_epoch y); [apply Hb3|].
  - intros [= -> -> H]. do 4 f_equal. destruct (issuedAt a) as [x|], (issuedAt b) as [y|]; simpl in H; naive_solver.
Qed.

(** * The properties *)

(** The state in which a merge runs: unique ids, new ids from [uuidv7], the
    unique index, and bans whose keys the two sides read alike. *)
Record merge_pre (uuid : nat → jstr) (t : table) (source : jstr) (incoming : list ParsedBan) : Prop := {
  pre_ids : NoDup (table_ids t);
  pre_uuid : ∀ i j, uuid i = uuid j → i = j;
  pre_new : ∀ i, uuid i ∉ table_ids t;
  pre_index : NoDup ((fun r => index_key (row_ban r)) <$> loadExistingBans t source);
  pre_safe : Forall safe_ban ((row_ban <$> loadExistingBans t source) ++ incoming);
  pre_raw : Forall (fun b => json_ok (raw b)) incoming;
}.

Lemma merge_pre_ready uuid t source incoming :
  merge_pre uuid t source incoming → merge_ready uuid t source incoming.
Proof.
  intros [H1 H2 H3 H4 H5 _]. constructor; try done. rewrite Forall_forall in H5.
  intros a b Ha Hb. apply safe_keys_agree; by apply H5.
Qed.

Lemma merge_pre_raw uuid t source incoming :
  merge_pre uuid t source incoming → ∀ b, b ∈ incoming → json_ok (raw b).
Proof. intros [_ _ _ _ _ H]. by rewrite Forall_forall in H. Qed.


(** A second merge of the same list plans nothing: no insert, no update, no
    revocation, although the rows read back have their JSON keys reordered. *)
Theorem merge_idempotent jsonb uuid now t source incoming :
  (∀ v, json_ok v → json_equiv v (jsonb v)) → merge_pre uuid t source incoming →
  let t' := (applyMergePlan jsonb uuid now t source (planMerge (loadExistingBans t source) incoming)).1 in
  let plan' := planMerge (loadExistingBans t' source) incoming in
  toInsert plan' = [] ∧ toUpdate plan' = [] ∧ toRevokeIds plan' = [].
Proof.
  intros Hj Hpre. apply merge_idempotent_aux; [by apply merge_pre_ready|done|by eapply merge_pre_raw].
Qed.

(** The statements of a merge of any size stay within the driver's cap of
    65534 bound parameters (10 per inserted row, 6 per updated row, one per
    revoked id plus the time), and together cover the plan in order. *)
Theorem merge_batches_bounded (plan : MergePlan) :
  concat (chunk (toInsert plan) MERGE_BATCH_SIZE) = toInsert plan ∧
  concat (chunk (toUpdate plan) UPDATE_BATCH_ROWS) = toUpdate plan ∧
  concat (chunk (toRevokeIds plan) MERGE_BATCH_SIZE) = toRevokeIds plan ∧
  Forall (fun c => 0 < 10 * Z.of_nat (length c) ≤ 65534) (chunk (toInsert plan) MERGE_BATCH_SIZE) ∧
  Forall (fun c => 0 < 6 * Z.of_nat (length c) ≤ 65534) (chunk (toUpdate plan) UPDATE_BATCH_ROWS) ∧
  Forall (fun c => 0 < Z.of_nat (length c) + 1 ≤ 65534) (chunk (toRevokeIds plan) MERGE_BATCH_SIZE).
Proof.
  assert (0 < MERGE_BATCH_SIZE)%nat as H1 by (unfold MERGE_BATCH_SIZE; lia).
  assert (0 < UPDATE_BATCH_ROWS)%nat as H2 by (unfold UPDATE_BATCH_ROWS; lia).
  rewrite !chunk_concat by done. do 3 (split; [done|]).
  assert (Z.of_nat MERGE_BATCH_SIZE = 1000) as H3 by reflexivity.
  assert (Z.of_nat UPDATE_BATCH_ROWS = 500) as H4 by reflexivity.
  split; [|split]; (eapply Forall_impl; [by apply chunk_sizes|]; cbv beta; intros c Hc; lia).
Qed.

(** ** Concrete lists *)

Definition ex_ban (steam : string) (issued : option Z) (why : string) : ParsedBan :=
  mkBan (Some (js steam)) None None (Some (js why)) None issued None (JObj [(js "line", JStr (js why))]).
(** The ids of the witnesses: [n] marks. *)
Definition ex_uuid (n : nat) : jstr := repeat 117 (S n).
Definition ex_table : table :=
  [(js "s", mkRow (js "r1") (ex_ban "1" None "old") None);
   (js "s", mkRow (js "r2") (ex_ban "2" None "gone") None);
   (js "other", mkRow (js "r3") (ex_ban "1" None "old") None)].
Definition ex_list : list ParsedBan := [ex_ban "1" None "new"; ex_ban "3" None "added"].

Lemma ex_merge_pre : merge_pre ex_uuid ex_table (js "s") ex_list.
Proof.
  constructor.
  - apply (bool_decide_unpack _). vm_compute. done.
  - unfold ex_uuid. intros i j H. apply (f_equal length) in H. rewrite !repeat_length in H. lia.
  - intros i H. unfold ex_uuid, table_ids in H. simpl in H.
    repeat (apply elem_of_cons in H as [H|H]; [by destruct i|]). by apply not_elem_of_nil in H.
  - apply (bool_decide_unpack _). vm_compute. done.
  - repeat constructor; simpl; set_solver.
  - repeat constructor; set_solver.
Qed.


Lemma merge_idempotent_witness :
  toUpdate (planMerge (loadExistingBans (applyMergePlan id ex_uuid 7 ex_table (js "s")
     (planMerge (loadExistingBans ex_table (js "s")) ex_list)).1 (js "s")) ex_list) = [].
Proof. apply (merge_idempotent id ex_uuid 7 ex_table (js "s") ex_list json_equiv_refl ex_merge_pre). Defined.

(** The string key separates a missing issue date from one at the epoch,
    the unique index does not. Of two such bans only one is stored, the other
    is dropped by the conflict clause, and every later sync plans to insert it
    again. *)
Theorem epoch_key_never_settles :
  let l := [ex_ban "1" None "a"; ex_ban "1" (Some 0) "b"] in
  let t' := (applyMergePlan id ex_uuid 7 [] (js "s") (planMerge [] l)).1 in
  length t' = 1%nat ∧ toInsert (planMerge (loadExistingBans t' (js "s")) l) = [ex_ban "1" (Some 0) "b"].
Proof. vm_compute. done. Qed.
