(* ===== verification/BanSync.v ===== *)
(** [apps/workers/ban-sync/src/sync-source.ts] and [tick.ts]: one sync of a ban
    source, from the fetch to the recorded outcome, and the poll cycle over the
    sources with its back-off.

    The calls a sync makes to the outside are the fields of [SyncWorld]: what
    they return and which of them fail. The parser is a parameter here (the
    adapters are modelled in [BanAdapters]). *)
From S2P Require Import Prelude JsString JsDate JsMap JsJson BanMerge.

(** * One sync *)

Definition ALERT_CONSECUTIVE_FAILURE_THRESHOLD : Z := 3.

Record SyncSourceInput := mkSource {
  s_id : jstr;
  s_name : jstr;
  s_url : jstr;
  s_format : jstr;
  authHeaderEncrypted : option (list Z);
  parserConfig : json;
  consecutiveFailures : Z;
}.

Record FetchBanListResult := mkFetched { text : jstr; bytes_read : Z; fetch_ms : Z }.

Record SyncReport := mkReport {
  ok : bool; r_added : Z; r_updated : Z; r_revoked : Z; r_skipped : Z; durationMs : Z; r_bytes : Z;
  error : option jstr }.

(** The answers of the injected dependencies. [t] below is the [external_bans]
    table the database calls work on; [None] and [Throw] are rejections with
    their message. *)
Record SyncWorld := mkSyncWorld {
  decryptAuthHeader : list Z → result jstr jstr;
  fetchBanList : jstr → option jstr → result jstr FetchBanListResult;
  parseBanList : jstr → jstr → json → result jstr (list ParsedBan * Z);
  load_fails : option jstr;
  apply_fails : option jstr;
  updateSourceOk_fails : option jstr;
  started : Z; applied_at : Z; succeeded : Z; failed_at : Z;   (** the clock at each step *)
}.

(** What a sync writes outside the bans table. *)
Inductive sync_effect :=
| SourceOk (lastSyncAt importedCount : Z)
| SourceError (lastSyncAt : Z) (lastSyncError : jstr) (failures : Z)
| CacheInvalidated
| Completed (added updated revoked skipped : Z)
| Failed (message : jstr) (failures : Z)
| DiagCompleted
| DiagFailed
| FailureAlert (failures : Z).

Section Sync.
Context (jsonb : json → json) (uuid : nat → jstr).

Definition recordFailure (w : SyncWorld) (source : SyncSourceInput) (message : jstr)
    : list sync_effect * SyncReport :=
  let failures := consecutiveFailures source + 1 in
  ([SourceError (failed_at w) message failures; Failed message failures; DiagFailed]
   ++ (if failures =? ALERT_CONSECUTIVE_FAILURE_THRESHOLD then [FailureAlert failures] else []),
   mkReport false 0 0 0 0 (failed_at w - started w) 0 (Some message)).

Definition fail_if (f : option jstr) : result jstr unit :=
  match f with Some e => Throw e | None => Ok tt end.

(** The stages inside the [try], up to the applied plan: a transaction that
    fails leaves the table as it was. *)
Definition sync_stages (w : SyncWorld) (t : table) (source : SyncSourceInput)
    : result jstr (table * FetchBanListResult * ApplyMergeResult * Z) :=
  let! authHeader := match authHeaderEncrypted source with
                     | Some blob => let! h := decryptAuthHeader w blob in Ok (Some h)
                     | None => Ok None
                     end in
  let! fetched := fetchBanList w (s_url source) authHeader in
  let! (records, skipped) := parseBanList w (s_format source) (text fetched) (parserConfig source) in
  let! _ := fail_if (load_fails w) in
  let plan := planMerge (loadExistingBans t (s_id source)) records in
  let! _ := fail_if (apply_fails w) in
  let '(t', applied) := applyMergePlan jsonb uuid (applied_at w) t (s_id source) plan in
  Ok (t', fetched, applied, skipped + skippedDuplicateKeys plan).

(** The table, the effects attempted (each best-effort one may fail without
    consequence) and the report. *)
Definition syncSource (w : SyncWorld) (t : table) (source : SyncSourceInput)
    : table * list sync_effect * SyncReport :=
  match sync_stages w t source with
  | Throw message => let '(effs, report) := recordFailure w source message in (t, effs, report)
  | Ok (t', fetched, applied, totalSkipped) =>
      match updateSourceOk_fails w with
      | Some message => let '(effs, report) := recordFailure w source message in (t', effs, report)
      | None =>
          (t',
           [SourceOk (succeeded w) (added applied + updated applied); CacheInvalidated;
            Completed (added applied) (updated applied) (revoked applied) totalSkipped; DiagCompleted],
           mkReport true (added applied) (updated applied) (revoked applied) totalSkipped
             (fetch_ms fetched) (bytes_read fetched) None)
      end
  end.
End Sync.

(** * The poll cycle *)

Definition BASE_BACKOFF_MS : Z := 60000.
Definition MAX_BACKOFF_MS : Z := 60 * 60000.

Definition backoffDelayMs (failures : Z) : Z := Z.min MAX_BACKOFF_MS (BASE_BACKOFF_MS * 2 ^ failures).

Record DueSource := mkDue { d_source : SyncSourceInput; lastSyncAt : option Z; pollIntervalMinutes : Z }.
Abbreviation d_id s := (s_id (d_source s)).

Definition isDue (source : DueSource) (now : Z) : bool :=
  match lastSyncAt source with
  | None => true
  | Some at_ => at_ + pollIntervalMinutes source * 60000 <=? now
  end.

Record TickResult := mkTick { synced : Z; failed : Z; skippedBackoff : Z }.

(** The tick's state: the back-off entries, the sources being synced, what the
    syncs changed ([S], e.g. the database), and the attempts so far. *)
Record TickState (S : Type) := mkTickState {
  backoff : list (jstr * Z);
  inFlight : list jstr;
  world : S;
  attempts : list (jstr * bool);   (** id and whether its report was ok *)
  tally : TickResult;
}.
Arguments mkTickState {S}. Arguments backoff {S}. Arguments inFlight {S}.
Arguments world {S}. Arguments attempts {S}. Arguments tally {S}.

Section Tick.
Context {S : Type} (syncOne : S → DueSource → S * SyncReport).

(** Runs [syncOne] unless a sync of the source is under way. *)
Definition syncExclusively (st : TickState S) (source : DueSource) : TickState S * option SyncReport :=
  if bool_decide (d_id source ∈ inFlight st) then (st, None)
  else
    let busy := inFlight st ++ [d_id source] in
    let '(w, report) := syncOne (world st) source in
    (mkTickState (backoff st) (jfilter (fun x => negb (bool_decide (x = d_id source))) busy) w
       (attempts st ++ [(d_id source, ok report)]) (tally st), Some report).

Definition tick_source (now : Z) (st : TickState S) (source : DueSource) : TickState S :=
  if negb (isDue source now) then st
  else
    let waiting := match map_get (backoff st) (d_id source) with Some next => now <? next | None => false end in
    if waiting
    then mkTickState (backoff st) (inFlight st) (world st) (attempts st)
           (mkTick (synced (tally st)) (failed (tally st)) (skippedBackoff (tally st) + 1))
    else
      match syncExclusively st source with
      | (st, None) => st
      | (st, Some report) =>
          if ok report
          then mkTickState (map_delete (backoff st) (d_id source)) (inFlight st) (world st) (attempts st)
                 (mkTick (synced (tally st) + 1) (failed (tally st)) (skippedBackoff (tally st)))
          else mkTickState
                 (map_set (backoff st) (d_id source)
                    (now + backoffDelayMs (consecutiveFailures (d_source source) + 1)))
                 (inFlight st) (world st) (attempts st)
                 (mkTick (synced (tally st)) (failed (tally st) + 1) (skippedBackoff (tally st)))
      end.

(** [stops n] is the answer of [shouldStop] before the [n]-th source. *)
Fixpoint tick_loop (now : Z) (stops : nat → bool) (n : nat) (st : TickState S) (sources : list DueSource)
    : TickState S :=
  match sources with
  | [] => st
  | source :: sources =>
      if stops n then st else tick_loop now stops (Datatypes.S n) (tick_source now st source) sources
  end.

Definition runBanSyncTick (now : Z) (stops : nat → bool) (bo : list (jstr * Z)) (busy : list jstr) (w : S)
    (sources : list DueSource) : TickState S :=
  tick_loop now stops 0 (mkTickState bo busy w [] (mkTick 0 0 0)) sources.
End Tick.

(** * Properties of a sync *)

Definition is_alert (e : sync_effect) : bool := match e with FailureAlert _ => true | _ => false end.
Definition marks_error (e : sync_effect) : option Z :=
  match e with SourceError _ _ n => Some n | _ => None end.
Definition marks_ok (e : sync_effect) : bool := match e with SourceOk _ _ => true | _ => false end.

Section SyncProofs.
Context (jsonb : json → json) (uuid : nat → jstr).

Lemma sync_stages_merge w t source t' fetched applied skipped :
  sync_stages jsonb uuid w t source = Ok (t', fetched, applied, skipped) →
  ∃ records n, parseBanList w (s_format source) (text fetched) (parserConfig source) = Ok (records, n) ∧
    t' = (applyMergePlan jsonb uuid (applied_at w) t (s_id source)
            (planMerge (loadExistingBans t (s_id source)) records)).1.
Proof.
  unfold sync_stages. intros H.
  destruct (match authHeaderEncrypted source with Some _ => _ | None => _ end) as [auth|]; [|done]. cbn [result_bind] in H.
  destruct (fetchBanList w (s_url source) auth) as [f|]; [|done]. cbn [result_bind] in H.
  destruct (parseBanList w _ _ _) as [[records n]|] eqn:E; [|done]. cbn [result_bind] in H.
  destruct (fail_if (load_fails w)); [|done]. cbn [result_bind] in H.
  destruct (fail_if (apply_fails w)); [|done]. cbn [result_bind] in H.
  destruct (applyMergePlan _ _ _ _ _ _) as [t1 ap] eqn:Ea. injection H as <- <- <- _.
  exists records, n. split; [exact E|by rewrite Ea].
Qed.

(** Every sync ends in one of three ways. It reports success, the table is
    the merge of the parsed list, and the source is marked ok; or a stage
    failed, the table is untouched, and the source is marked failed with one
    more failure; or only marking it ok failed, after the merge, and the sync
    counts as failed with the merge kept. The alert is raised exactly when the
    recorded failure is the third in a row. *)
Theorem syncSource_outcome w t source :
  let '(t', effs, report) := syncSource jsonb uuid w t source in
  existsb is_alert effs = (negb (ok report) && (consecutiveFailures source + 1 =? 3)) ∧
  match sync_stages jsonb uuid w t source with
  | Throw message =>
      t' = t ∧ report = mkReport false 0 0 0 0 (failed_at w - started w) 0 (Some message) ∧
      omap marks_error effs = [consecutiveFailures source + 1] ∧ existsb marks_ok effs = false
  | Ok (_, fetched, _, _) =>
      (∃ records n, parseBanList w (s_format source) (text fetched) (parserConfig source) = Ok (records, n) ∧
         t' = (applyMergePlan jsonb uuid (applied_at w) t (s_id source)
                 (planMerge (loadExistingBans t (s_id source)) records)).1) ∧
      match updateSourceOk_fails w with
      | Some message => ok report = false ∧ error report = Some message ∧
          omap marks_error effs = [consecutiveFailures source + 1] ∧ existsb marks_ok effs = false
      | None => ok report = true ∧ error report = None ∧ omap marks_error effs = [] ∧ existsb marks_ok effs = true
      end
  end.
Proof.
  unfold syncSource. destruct (sync_stages jsonb uuid w t source) as [[[[t' fetched] applied] skipped]|message] eqn:E.
  - pose proof (sync_stages_merge _ _ _ _ _ _ _ E) as Hm. destruct (updateSourceOk_fails w) as [message|].
    + unfold recordFailure, ALERT_CONSECUTIVE_FAILURE_THRESHOLD. cbn [ok error].
      destruct (_ =? 3); (split; [done|split; [done|done]]).
    + split; [done|]. split; [done|done].
  - unfold recordFailure, ALERT_CONSECUTIVE_FAILURE_THRESHOLD. cbn [ok error].
    destruct (_ =? 3); (split; [done|split; [done|done]]).
Qed.

(** The failure counter the next sync reads. *)
Definition next_failures (before : Z) (effs : list sync_effect) : Z :=
  if existsb marks_ok effs then 0 else default before (last (omap marks_error effs)).

Definition with_failures (source : SyncSourceInput) (n : Z) : SyncSourceInput :=
  mkSource (s_id source) (s_name source) (s_url source) (s_format source) (authHeaderEncrypted source)
    (parserConfig source) n.

(** Consecutive syncs of a source, each reading the counter the last one wrote. *)
Fixpoint sync_run (t : table) (source : SyncSourceInput) (ws : list SyncWorld) : list (bool * list sync_effect) :=
  match ws with
  | [] => []
  | w :: ws =>
      let '(t', effs, report) := syncSource jsonb uuid w t source in
      (ok report, effs) :: sync_run t' (with_failures source (next_failures (consecutiveFailures source) effs)) ws
  end.

Definition alerts_of (run : list (bool * list sync_effect)) : nat :=
  length (List.filter is_alert (concat (snd <$> run))).

Lemma syncSource_failed w t source :
  let '(_, effs, report) := syncSource jsonb uuid w t source in
  ok report = false →
  next_failures (consecutiveFailures source) effs = consecutiveFailures source + 1 ∧
  length (List.filter is_alert effs) = if consecutiveFailures source + 1 =? 3 then 1%nat else 0%nat.
Proof.
  unfold syncSource, recordFailure, ALERT_CONSECUTIVE_FAILURE_THRESHOLD.
  destruct (sync_stages _ _ _ _ _) as [[[[? ?] ?] ?]|]; [destruct (updateSourceOk_fails w)|]; try done;
    intros _; by destruct (_ =? 3).
Qed.

Lemma streak_alerts ws t source : 0 ≤ consecutiveFailures source →
  Forall (fun r => r.1 = false) (sync_run t source ws) →
  alerts_of (sync_run t source ws)
    = if (consecutiveFailures source <? 3) && (3 <=? consecutiveFailures source + Z.of_nat (length ws))
      then 1%nat else 0%nat.
Proof.
  revert t source. induction ws as [|w ws IH]; intros t source Hc Hall.
  { destruct (_ <? 3) eqn:E; simpl; [|done]. bool_to_Prop. by rewrite (proj2 (Z.leb_gt _ _)) by lia. }
  cbn [sync_run] in *. pose proof (syncSource_failed w t source) as H.
  destruct (syncSource jsonb uuid w t source) as [[t' effs] report]. apply Forall_cons in Hall as [Hok Hall].
  cbn [fst] in Hok. destruct (H Hok) as [Hnext Hal]. rewrite Hnext in *.
  unfold alerts_of in *. rewrite fmap_cons. cbn [concat snd]. rewrite List.filter_app, length_app, Hal.
  rewrite (IH _ (with_failures source (consecutiveFailures source + 1))) by (simpl; lia || done).
  cbn [consecutiveFailures with_failures length].
  repeat case_match; bool_to_Prop; try lia; repeat match goal with H : _ ∨ _ |- _ => destruct H end; bool_to_Prop; lia.
Qed.

(** A streak of failures, however long, raises exactly one alert, when it
    reaches three. *)
Theorem one_alert_per_streak t source ws :
  consecutiveFailures source = 0 →
  Forall (fun r => r.1 = false) (sync_run t source ws) →
  alerts_of (sync_run t source ws) = if (3 <=? length ws)%nat then 1%nat else 0%nat.
Proof.
  intros H0 Hall. rewrite (streak_alerts ws t source); [|lia|done]. rewrite H0. cbn [andb Z.ltb Z.compare].
  destruct (3 <=? length ws)%nat eqn:E.
  - apply Nat.leb_le in E. by rewrite (proj2 (Z.leb_le _ _)) by lia.
  - apply Nat.leb_gt in E. by rewrite (proj2 (Z.leb_gt _ _)) by lia.
Qed.
End SyncProofs.

(** * Properties of the poll cycle *)

Section TickProofs.
Context {S : Type} (syncOne : S → DueSource → S * SyncReport).

(** A source the tick attempts: due, past its back-off, not being synced. *)
Definition attemptable (now : Z) (bo : list (jstr * Z)) (busy : list jstr) (source : DueSource) : bool :=
  isDue source now
  && match map_get bo (d_id source) with Some next => next <=? now | None => true end
  && negb (bool_decide (d_id source ∈ busy)).

(** The back-off entry a source has after the tick. *)
Definition entry_after (now : Z) (attempts : list (jstr * bool)) (old : option Z) (source : DueSource) : option Z :=
  match map_get attempts (d_id source) with
  | None => old
  | Some true => None
  | Some false => Some (now + backoffDelayMs (consecutiveFailures (d_source source) + 1))
  end.

(** The sources reached before [shouldStop] answers yes. *)
Fixpoint processed (stops : nat → bool) (n : nat) (sources : list DueSource) : list DueSource :=
  match sources with
  | [] => []
  | x :: sources => if stops n then [] else x :: processed stops (Datatypes.S n) sources
  end.

Lemma processed_elem stops n sources s : s ∈ processed stops n sources → s ∈ sources.
Proof.
  revert n. induction sources as [|x l IH]; intros n Hs; simpl in Hs; [done|].
  destruct (stops n); [by apply not_elem_of_nil in Hs|].
  apply elem_of_cons in Hs as [->|Hs]; [by left|right; by apply (IH _ Hs)].
Qed.

Lemma busy_restored (busy : list jstr) x : x ∉ busy →
  jfilter (fun y => negb (bool_decide (y = x))) (busy ++ [x]) = busy.
Proof.
  intros Hx. rewrite jfilter_app, jfilter_all.
  - unfold jfilter. simpl. rewrite bool_decide_true by done. simpl. apply app_nil_r.
  - intros y Hy. apply negb_true_iff, bool_decide_eq_false. by intros ->.
Qed.

(** One source: either nothing but the tally changes, or it is attempted. *)
Lemma tick_source_spec now st source : map_ok (backoff st) →
  let st' := tick_source syncOne now st source in
  inFlight st' = inFlight st ∧ map_ok (backoff st') ∧
  ∃ outcome, attempts st' = attempts st ++ outcome ∧
    (if attemptable now (backoff st) (inFlight st) source
     then ∃ b, outcome = [(d_id source, b)] else outcome = []) ∧
    (∀ k, map_get (backoff st') k = if bool_decide (k = d_id source)
          then entry_after now outcome (map_get (backoff st) k) source else map_get (backoff st) k) ∧
    synced (tally st') + failed (tally st') = synced (tally st) + failed (tally st) + Z.of_nat (length outcome).
Proof.
  intros Hok. unfold tick_source, attemptable. cbv zeta.
  assert (∀ k, map_get (backoff st) k = if bool_decide (k = d_id source)
    then entry_after now [] (map_get (backoff st) k) source else map_get (backoff st) k) as Hsame.
  { intros k. unfold entry_after. simpl. by case_bool_decide. }
  destruct (isDue source now); simpl; [|split; [done|split; [done|exists []; rewrite app_nil_r]]].
  2:{ split; [done|]. split; [done|]. split; [exact Hsame|simpl; lia]. }
  assert (match map_get (backoff st) (d_id source) with Some next => now <? next | None => false end
    = negb match map_get (backoff st) (d_id source) with Some next => next <=? now | None => true end) as ->.
  { destruct (map_get _ _); [|done]. by rewrite Z.ltb_antisym. }
  destruct (match map_get (backoff st) (d_id source) with Some _ => _ | None => _ end); simpl.
  2:{ split; [done|]. split; [done|]. exists []. rewrite app_nil_r. split; [done|]. split; [done|].
      split; [exact Hsame|simpl; lia]. }
  unfold syncExclusively. case_bool_decide as Hb; simpl.
  { split; [done|]. split; [done|]. exists []. rewrite app_nil_r. split; [done|]. split; [done|].
    split; [exact Hsame|simpl; lia]. }
  destruct (syncOne (world st) source) as [w report]. rewrite busy_restored by done.
  destruct (ok report) eqn:E; cbn [inFlight backoff attempts tally synced failed];
    (split; [done|]; split; [by apply map_delete_ok || by apply map_set_ok|]);
    exists [(d_id source, ok report)]; rewrite E; (split; [done|]; split; [by eauto|]); (split; [|simpl; lia]);
    intros k; unfold entry_after; cbn [map_get]; rewrite (bool_decide_true (d_id source = d_id source)) by done.
  - rewrite map_get_delete by done. destruct (decide (k = d_id source)) as [->|].
    + by rewrite !bool_decide_true.
    + by rewrite !bool_decide_false.
  - rewrite map_get_set. destruct (decide (k = d_id source)) as [->|].
    + by rewrite !bool_decide_true.
    + by rewrite !bool_decide_false.
Qed.

Lemma attemptable_ext now bo bo' busy source :
  map_get bo (d_id source) = map_get bo' (d_id source) →
  attemptable now bo busy source = attemptable now bo' busy source.
Proof. unfold attemptable. by intros ->. Qed.

Lemma tick_loop_spec now stops n st sources :
  map_ok (backoff st) → NoDup ((fun s => d_id s) <$> sources) →
  let st' := tick_loop syncOne now stops n st sources in
  inFlight st' = inFlight st ∧
  ∃ outs, attempts st' = attempts st ++ outs ∧
    outs.*1 = (fun s => d_id s) <$> jfilter (attemptable now (backoff st) (inFlight st)) (processed stops n sources) ∧
    (∀ s, s ∈ sources → map_get (backoff st') (d_id s) = entry_after now outs (map_get (backoff st) (d_id s)) s) ∧
    (∀ k, k ∉ (fun s => d_id s) <$> sources → map_get (backoff st') k = map_get (backoff st) k) ∧
    synced (tally st') + failed (tally st') = synced (tally st) + failed (tally st) + Z.of_nat (length outs).
Proof.
  revert n st. induction sources as [|src sources IH]; intros n st Hok Hnd; cbv zeta.
  { split; [done|]. exists []. rewrite app_nil_r. repeat split; try done; simpl; lia. }
  rewrite fmap_cons in Hnd. apply NoDup_cons in Hnd as [Hsrc Hnd]. cbn [tick_loop processed].
  destruct (stops n).
  { split; [done|]. exists []. rewrite app_nil_r. repeat split; try done; simpl; lia. }
  destruct (tick_source_spec now st src Hok) as (Hbusy & Hok1 & o & Ho1 & Ho2 & Hbo & Ht).
  set (st1 := tick_source syncOne now st src) in *.
  destruct (IH (Datatypes.S n) st1 Hok1 Hnd) as (Hb & outs & Ha & Hids & Hin & Hout & Ht').
  split; [congruence|]. exists (o ++ outs). rewrite Ha, Ho1, app_assoc. split; [done|].
  assert (∀ s, s ∈ sources → d_id s ≠ d_id src) as Hne.
  { intros s Hs Heq. apply Hsrc, list_elem_of_fmap. exists s. by rewrite Heq. }
  assert (∀ s, s ∈ sources → map_get (backoff st1) (d_id s) = map_get (backoff st) (d_id s)) as Heq.
  { intros s Hs. rewrite Hbo. by rewrite bool_decide_false by by apply Hne. }
  assert (o.*1 = if attemptable now (backoff st) (inFlight st) src then [d_id src] else []) as Ho.
  { destruct (attemptable now (backoff st) (inFlight st) src); [by destruct Ho2 as [b ->]|by rewrite Ho2]. }
  assert (∀ k, k ≠ d_id src → map_get (o ++ outs) k = map_get outs k) as Hget.
  { intros k Hk. assert (k ∉ o.*1) as Hko by (rewrite Ho; case_match; set_solver).
    clear -Hko. induction o as [|[k' b] o IHo]; [done|]. rewrite fmap_cons in Hko. simpl.
    rewrite bool_decide_false by set_solver. apply IHo. set_solver. }
  split; [|split; [|split]].
  - rewrite fmap_app, Hids, Ho. unfold jfilter. cbn [List.filter].
    assert (List.filter (attemptable now (backoff st1) (inFlight st1)) (processed stops (Datatypes.S n) sources)
      = List.filter (attemptable now (backoff st) (inFlight st)) (processed stops (Datatypes.S n) sources)) as Hf.
    { apply List.filter_ext_in. intros s Hs. rewrite Hbusy. apply attemptable_ext, Heq.
      apply list_elem_of_In in Hs. by eapply processed_elem. }
    rewrite Hf. destruct (attemptable now (backoff st) (inFlight st) src); done.
  - intros s [->|Hs]%elem_of_cons.
    + rewrite (Hout (d_id src) Hsrc), Hbo, bool_decide_true by done. unfold entry_after.
      assert (map_get (o ++ outs) (d_id src) = map_get o (d_id src)) as ->; [|done].
      assert (map_get outs (d_id src) = None) as Hno.
      { apply map_get_None. unfold map_keys. rewrite Hids.
        intros (s & Hs & Hin')%list_elem_of_fmap. apply elem_of_jfilter in Hin' as [_ Hin'].
        apply Hsrc, list_elem_of_fmap. exists s. split; [done|].
        by eapply processed_elem. }
      clear -Hno. induction o as [|[k' b] o IHo]; [done|]. simpl. by case_bool_decide.
    + rewrite (Hin s Hs), (Heq s Hs). unfold entry_after. rewrite Hget by by apply Hne. done.
  - intros k Hk. rewrite fmap_cons in Hk. rewrite Hout by set_solver. rewrite Hbo, bool_decide_false by set_solver. done.
  - rewrite Ht', Ht, length_app. lia.
Qed.
End TickProofs.

Lemma backoffDelayMs_bounds n : 0 ≤ n → BASE_BACKOFF_MS ≤ backoffDelayMs n ≤ MAX_BACKOFF_MS.
Proof.
  intros Hn. unfold backoffDelayMs, BASE_BACKOFF_MS, MAX_BACKOFF_MS.
  pose proof (Z.pow_pos_nonneg 2 n ltac:(lia) Hn). lia.
Qed.

(** A poll cycle attempts exactly the sources that are due, past their
    back-off and not already being synced, each once and in order, up to the
    stop signal; it leaves the set of running syncs as it found it; a success
    clears a source's back-off, a failure sets it between one minute and one
    hour ahead, and no other entry changes; and every attempt is counted. *)
Theorem runBanSyncTick_exact {S} (syncOne : S → DueSource → S * SyncReport) now stops bo busy w sources :
  map_ok bo → NoDup ((fun s => d_id s) <$> sources) →
  (∀ s, s ∈ sources → 0 ≤ consecutiveFailures (d_source s)) →
  let st := runBanSyncTick syncOne now stops bo busy w sources in
  (attempts st).*1 = (fun s => d_id s) <$> jfilter (attemptable now bo busy) (processed stops 0 sources) ∧
  inFlight st = busy ∧
  synced (tally st) + failed (tally st) = Z.of_nat (length (attempts st)) ∧
  (∀ k, k ∉ (attempts st).*1 → map_get (backoff st) k = map_get bo k) ∧
  (∀ s, s ∈ sources → map_get (attempts st) (d_id s) = Some true → map_get (backoff st) (d_id s) = None) ∧
  (∀ s, s ∈ sources → map_get (attempts st) (d_id s) = Some false →
     ∃ next, map_get (backoff st) (d_id s) = Some next ∧ now + BASE_BACKOFF_MS ≤ next ≤ now + MAX_BACKOFF_MS).
Proof.
  intros Hok Hnd Hpos. unfold runBanSyncTick. set (st0 := mkTickState bo busy w [] (mkTick 0 0 0)).
  destruct (tick_loop_spec syncOne now stops 0 st0 sources Hok Hnd) as (Hb & outs & Ha & Hids & Hin & Hout & Ht).
  cbv zeta. change (attempts st0) with (@nil (jstr * bool)) in Ha. rewrite app_nil_l in Ha. rewrite Ha.
  split; [exact Hids|]. split; [exact Hb|]. split; [rewrite Ht; simpl; lia|]. split; [|split].
  - intros k Hk. destruct (decide (k ∈ (fun s => d_id s) <$> sources)) as [(s & -> & Hs)%list_elem_of_fmap|Hks].
    + rewrite (Hin s Hs). unfold entry_after. assert (map_get outs (d_id s) = None) as -> by by apply map_get_None. done.
    + by apply Hout.
  - intros s Hs Hat. rewrite (Hin s Hs). unfold entry_after. by rewrite Hat.
  - intros s Hs Hat. rewrite (Hin s Hs). unfold entry_after. rewrite Hat. eexists. split; [done|].
    specialize (Hpos s Hs). pose proof (backoffDelayMs_bounds (consecutiveFailures (d_source s) + 1) ltac:(lia)). lia.
Qed.

(** ** Concrete runs *)

Definition ex_source (id : string) (failures : Z) : SyncSourceInput :=
  mkSource (js id) (js id) (js "https://x") (js "csv") None JNull failures.
Definition ex_failing_world : SyncWorld :=
  mkSyncWorld (fun _ => Throw (js "key")) (fun _ _ => Throw (js "timeout")) (fun _ _ _ => Throw (js "parse"))
    None None None 0 0 0 0.

Lemma one_alert_per_streak_witness :
  alerts_of (sync_run id ex_uuid [] (ex_source "a" 0) (repeat ex_failing_world 5)) = 1%nat.
Proof.
  rewrite (one_alert_per_streak id ex_uuid [] (ex_source "a" 0) (repeat ex_failing_world 5));
    [reflexivity|reflexivity|]. repeat constructor.
Defined.

Lemma runBanSyncTick_exact_witness :
  let sources := [mkDue (ex_source "a" 1) None 5; mkDue (ex_source "b" 0) None 5] in
  let st := runBanSyncTick (fun (_ : unit) _ => (tt, mkReport false 0 0 0 0 0 0 None)) 1000 (fun _ => false)
              [(js "b", 2000)] [] tt sources in
  (attempts st).*1 = [js "a"].
Proof.
  intros sources st. assert (NoDup ((fun s => d_id s) <$> sources)) as Hnd.
  { apply (bool_decide_unpack _). vm_compute. done. }
  assert (map_ok [(js "b", 2000)]) as Hok by (apply (bool_decide_unpack _); vm_compute; done).
  destruct (runBanSyncTick_exact (fun (_ : unit) _ => (tt, mkReport false 0 0 0 0 0 0 None)) 1000
    (fun _ => false) [(js "b", 2000)] [] tt sources Hok Hnd) as [H _].
  - intros s Hs. repeat (apply elem_of_cons in Hs as [->|Hs]; [simpl; lia|]). by apply not_elem_of_nil in Hs.
  - subst st. rewrite H. reflexivity.
Defined.
