(* ===== verification/BanAdapters.v ===== *)
(** [apps/workers/ban-sync/src/adapters/squad-bans-cfg.ts] and [csv.ts]: the
    line formats of external ban lists. *)
From S2P Require Import Prelude JsString JsDate JsMap JsJson BanMerge.

(** * Shared *)

(** [unixSecondsToDate]: a [Date] holds at most 8.64e15 ms. *)
Definition MAX_TIME : Z := 8640000000000000.
Definition unixSecondsToDate (seconds : Z) : option Z :=
  if Z.abs (seconds * 1000) <=? MAX_TIME then Some (seconds * 1000) else None.

Record ParseResult := mkParsed { records : list ParsedBan; skipped : Z }.

(** * Bans.cfg *)

(** What [.] does not match in a regular expression. *)
Definition is_terminator (c : Z) : bool := (c =? 10) || (c =? 13) || (c =? 0x2028) || (c =? 0x2029).

Fixpoint span_digits (s : jstr) : jstr * jstr :=
  match s with
  | c :: s' => if is_digit c then let '(d, r) := span_digits s' in (c :: d, r) else ([], s)
  | [] => ([], [])
  end.

(** The part of [LINE_PATTERN] after [Banned:]: seventeen digits, a colon, the
    expiry, then the end of the line or a [//] comment. *)
Definition match_ban (s : jstr) : option (jstr * jstr * option jstr) :=
  let id := take 17 s in
  if negb (bool_decide (length id = 17%nat) && forallb is_digit id) then None else
  match drop 17 s with
  | 58 :: s1 =>
      let '(expiry, s2) := span_digits s1 in
      match expiry with
      | [] => None
      | _ =>
          match trim_start s2 with
          | [] => Some (id, expiry, None)
          | 47 :: 47 :: s3 =>
              let comment := trim_start s3 in
              if existsb is_terminator comment then None else Some (id, expiry, Some comment)
          | _ => None
          end
      end
  | _ => None
  end.

(** [LINE_PATTERN]: the lazy prefix is extended one character at a time. *)
Fixpoint match_line (prefix line : jstr) : option (jstr * jstr * jstr * option jstr) :=
  let here := if starts_with (js "Banned:") line then match_ban (drop 7 line) else None in
  match here with
  | Some (id, expiry, comment) => Some (prefix, id, expiry, comment)
  | None =>
      match line with
      | [] => None
      | c :: line => if is_terminator c then None else match_line (prefix ++ [c]) line
      end
  end.

Definition or_null (s : jstr) : option jstr := match s with [] => None | _ => Some s end.

Definition extractAdminName (prefix : jstr) : option jstr :=
  let trimmed := trim prefix in
  match trimmed with
  | [] => None
  | c :: rest =>
      let inner := removelast rest in
      let bracketed :=
        ((c =? 91) || (c =? 40))
        && match last rest with Some d => (d =? 93) || (d =? 41) | None => false end
        && negb (bool_decide (inner = [])) && negb (existsb is_terminator inner) in
      or_null (trim (if bracketed then inner else trimmed))
  end.

(** One line: nothing, a record, or a skip. *)
Inductive line_result := Ignored | Record_ (b : ParsedBan) | Skipped.

Definition parse_cfg_line (rawLine : jstr) : line_result :=
  let line := trim rawLine in
  if bool_decide (line = []) then Ignored
  else if starts_with (js "//") line || starts_with (js "#") line then Ignored
  else
    match match_line [] line with
    | None => Skipped
    | Some (prefix, steamId, expiry, comment) =>
        let expiryNum := digits_value expiry in
        let expires := if expiryNum =? 0 then None else unixSecondsToDate expiryNum in
        if negb (expiryNum =? 0) && bool_decide (expires = None) then Skipped
        else Record_ (mkBan (Some steamId) None None
               (match comment with Some c => or_null (trim c) | None => None end)
               (extractAdminName prefix) None expires (JObj [(js "line", JStr line)]))
    end.

Definition collect (rs : list line_result) : ParseResult :=
  mkParsed (omap (fun r => match r with Record_ b => Some b | _ => None end) rs)
    (Z.of_nat (length (List.filter (fun r => match r with Skipped => true | _ => false end) rs))).

Definition parseSquadBansCfg (text : jstr) : ParseResult := collect (parse_cfg_line <$> split_lines text).

(** ** A list written in the format is read back *)

(** An entry as a server writes it. *)
Record CfgBan := mkCfgBan { b_steam : jstr; b_expiry : Z; b_reason : option jstr }.

Definition render_ban (b : CfgBan) : jstr :=
  js "Banned:" ++ b_steam b ++ js ":" ++ nat_str (b_expiry b)
  ++ match b_reason b with Some r => js " // " ++ r | None => [] end.

Definition solid_ends (s : jstr) : Prop :=
  match head s, last s with Some c, Some d => is_space c = false ∧ is_space d = false | _, _ => False end.

Definition cfg_ban_ok (b : CfgBan) : Prop :=
  length (b_steam b) = 17%nat ∧ forallb is_digit (b_steam b) = true ∧
  0 ≤ b_expiry b * 1000 ≤ MAX_TIME ∧
  match b_reason b with Some r => solid_ends r ∧ existsb is_terminator r = false | None => True end.

Definition cfg_record (b : CfgBan) : ParsedBan :=
  mkBan (Some (b_steam b)) None None (b_reason b) None None
    (if b_expiry b =? 0 then None else Some (b_expiry b * 1000)) (JObj [(js "line", JStr (render_ban b))]).

Lemma trim_start_id s c s' : s = c :: s' → is_space c = false → trim_start s = s.
Proof. intros -> H. simpl. by rewrite H. Qed.

Lemma trim_id s : solid_ends s → trim s = s.
Proof.
  unfold solid_ends, trim, trim_end. destruct s as [|c s]; [done|]. cbn [head].
  destruct (last (c :: s)) as [d|] eqn:E; [|done]. intros [Hc Hd].
  rewrite (trim_start_id _ c s eq_refl Hc). apply last_Some in E as [l ->].
  rewrite reverse_app. cbn [reverse rev_append app]. rewrite (trim_start_id _ d (reverse l) eq_refl Hd).
  by rewrite reverse_cons, reverse_involutive.
Qed.

Lemma digit_not_space c : is_digit c = true → is_space c = false.
Proof.
  unfold is_digit, is_space. intros H. bool_to_Prop. apply orb_false_iff. split; [|apply andb_false_iff; left; lia].
  apply bool_decide_eq_false. rewrite !elem_of_cons, elem_of_nil. lia.
Qed.

Lemma span_digits_app d r : forallb is_digit d = true → match r with c :: _ => is_digit c = false | [] => True end →
  span_digits (d ++ r) = (d, r).
Proof.
  intros Hd Hr. induction d as [|c d IH].
  - destruct r as [|c r]; [done|]. cbn [app span_digits]. by rewrite Hr.
  - simpl in Hd. apply andb_true_iff in Hd as [Hc Hd]. cbn [app span_digits]. by rewrite Hc, IH.
Qed.

Lemma nat_str_cons n : 0 ≤ n → ∃ c s, nat_str n = c :: s.
Proof.
  intros Hn. destruct (nat_str n) as [|c s] eqn:E; [|eauto]. unfold nat_str in E. cbn [digits_fuel] in E.
  destruct (if n <? 10 then [] else _); discriminate.
Qed.

Lemma match_ban_render b : cfg_ban_ok b →
  match_ban (b_steam b ++ js ":" ++ nat_str (b_expiry b)
     ++ match b_reason b with Some r => js " // " ++ r | None => [] end)
  = Some (b_steam b, nat_str (b_expiry b), b_reason b).
Proof.
  intros (Hlen & Hdig & Hexp & Hr). unfold match_ban.
  rewrite take_app_length', drop_app_length', Hdig, bool_decide_true by done. cbn [andb negb].
  change (js ":" ++ ?x) with (58 :: x). cbv iota beta.
  assert (0 ≤ b_expiry b) as He by lia. destruct (nat_str_spec _ He) as [_ Hnd].
  rewrite span_digits_app; [|done|by destruct (b_reason b)].
  destruct (nat_str_cons _ He) as (c & s & Hcs). rewrite Hcs. cbv iota beta.
  destruct (b_reason b) as [r|]; [|done]. destruct Hr as [Hs Ht].
  change (js " // " ++ r) with (32 :: 47 :: 47 :: 32 :: r).
  change (trim_start (32 :: 47 :: 47 :: 32 :: r)) with (47 :: 47 :: 32 :: r). cbv iota beta.
  change (trim_start (32 :: r)) with (trim_start r). unfold solid_ends in Hs.
  destruct r as [|c' r]; [done|]. cbn [head] in Hs. destruct (last (c' :: r)); [|done].
  destruct Hs as [Hc' _]. rewrite (trim_start_id _ c' r eq_refl Hc'). by rewrite Ht.
Qed.

Lemma render_ban_ends b : cfg_ban_ok b → solid_ends (render_ban b).
Proof.
  intros (Hlen & Hdig & Hexp & Hr). unfold solid_ends, render_ban. cbn [head app js].
  assert (0 ≤ b_expiry b) as He by lia.
  destruct (nat_str_cons _ He) as (c & s & Hcs). destruct (nat_str_spec _ He) as [_ Hnd].
  assert (∃ d, last (nat_str (b_expiry b)) = Some d ∧ is_digit d = true) as (d & Hd & Hdd).
  { rewrite Hcs. destruct (last (c :: s)) as [d|] eqn:E; [|by apply last_None in E]. exists d. split; [done|].
    apply last_Some in E as [l El]. rewrite Hcs, El, forallb_app in Hnd. simpl in Hnd.
    rewrite andb_true_r in Hnd. by apply andb_true_iff in Hnd as [_ ?]. }
  assert (∀ p (x : jstr) d', last x = Some d' → last (p ++ x) = Some d') as Hlast.
  { intros p x d' Hx. rewrite last_app. by rewrite Hx. }
  destruct (b_reason b) as [r|].
  - destruct Hr as [Hs _]. unfold solid_ends in Hs. destruct (head r), (last r) as [d'|] eqn:El; try done.
    assert (last (js "Banned:" ++ b_steam b ++ js ":" ++ nat_str (b_expiry b) ++ js " // " ++ r) = Some d') as Hl.
    { by do 5 apply Hlast. }
    cbn [app js] in Hl |- *. rewrite Hl. split; [done|apply Hs].
  - assert (last (js "Banned:" ++ b_steam b ++ js ":" ++ nat_str (b_expiry b) ++ []) = Some d) as Hl.
    { rewrite app_nil_r. by do 3 apply Hlast. }
    cbn [app js] in Hl |- *. rewrite Hl. split; [done|by apply digit_not_space].
Qed.

Lemma trim_reason r : solid_ends r → or_null (trim r) = Some r.
Proof. intros H. rewrite trim_id by done. by destruct r. Qed.

Lemma match_line_render b : cfg_ban_ok b →
  match_line [] (render_ban b) = Some ([], b_steam b, nat_str (b_expiry b), b_reason b).
Proof.
  intros Hb. pose proof (match_ban_render b Hb) as Hm. unfold render_ban in *.
  set (rest := b_steam b ++ _) in *. change (js "Banned:" ++ rest) with (66 :: js "anned:" ++ rest).
  cbn [match_line]. change (66 :: js "anned:" ++ rest) with (js "Banned:" ++ rest).
  unfold starts_with. rewrite bool_decide_true by (by apply prefix_app_r).
  change (drop 7 (js "Banned:" ++ rest)) with rest. by rewrite Hm.
Qed.

Lemma parse_cfg_line_render b : cfg_ban_ok b → parse_cfg_line (render_ban b) = Record_ (cfg_record b).
Proof.
  intros Hb. unfold parse_cfg_line. rewrite trim_id by by apply render_ban_ends.
  rewrite match_line_render by done. rewrite bool_decide_false by done.
  assert (starts_with (js "//") (render_ban b) || starts_with (js "#") (render_ban b) = false) as ->.
  { unfold starts_with, render_ban. apply orb_false_iff.
    split; apply bool_decide_eq_false; intros [k Hk]; discriminate Hk. }
  destruct Hb as (_ & _ & Hexp & Hr). rewrite (proj1 (nat_str_spec (b_expiry b) ltac:(lia))).
  unfold cfg_record, unixSecondsToDate. rewrite (proj2 (Z.leb_le (Z.abs _) _)) by lia.
  destruct (b_expiry b =? 0); simpl.
  - destruct (b_reason b) as [r|]; [|done]. by rewrite trim_reason by apply Hr.
  - destruct (b_reason b) as [r|]; [|done]. by rewrite trim_reason by apply Hr.
Qed.

Lemma render_ban_line b : cfg_ban_ok b → 10 ∉ render_ban b ∧ last (render_ban b) ≠ Some 13.
Proof.
  intros Hb. pose proof (render_ban_ends b Hb) as He. destruct Hb as (_ & Hdig & Hexp & Hr). split.
  - unfold render_ban. rewrite !not_elem_of_app. split; [set_solver|]. split.
    { intros H. rewrite forallb_forall in Hdig. by specialize (Hdig 10 (proj1 (list_elem_of_In _ _) H)). }
    split; [set_solver|]. split; [intros H%nat_str_chars; lia|].
    destruct (b_reason b) as [r|]; [|set_solver]. rewrite not_elem_of_app. split; [set_solver|].
    intros H. destruct Hr as [_ Hr]. apply not_true_iff_false in Hr. apply Hr, existsb_exists.
    exists 10. split; [by apply list_elem_of_In|done].
  - unfold solid_ends in He. destruct (head _), (last (render_ban b)); try done. intros [= ->]. by destruct He.
Qed.

Lemma bans_cfg_reads_back eol bans :
  eol = [10] ∨ eol = [13; 10] → Forall cfg_ban_ok bans →
  parseSquadBansCfg (write_lines eol (render_ban <$> bans)) = mkParsed (cfg_record <$> bans) 0.
Proof.
  intros Heol Hbans. unfold parseSquadBansCfg. rewrite split_lines_write; [|done|].
  2:{ apply Forall_fmap. eapply Forall_impl; [done|]. apply render_ban_line. }
  rewrite fmap_app. assert (parse_cfg_line <$> (render_ban <$> bans) = (fun b => Record_ (cfg_record b)) <$> bans) as ->.
  { induction Hbans as [|b bans Hb _ IH]; [done|]. rewrite !fmap_cons, IH. f_equal. by apply parse_cfg_line_render. }
  unfold collect. rewrite omap_app, List.filter_app. f_equal.
  - clear Hbans. cbn [omap]. csimpl. rewrite app_nil_r.
    induction bans as [|b bans IH]; [done|]. rewrite !fmap_cons. csimpl. f_equal. exact IH.
  - cbn. rewrite app_nil_r. clear Hbans. by induction bans.
Qed.

(** A Bans.cfg written one ban per line, with LF or CRLF line ends, is read
    back exactly: every ban, in order, with its expiry and reason, nothing
    skipped. *)
Theorem bans_cfg_roundtrip eol bans :
  eol = [10] ∨ eol = [13; 10] → Forall cfg_ban_ok bans →
  parseSquadBansCfg (write_lines eol (render_ban <$> bans)) = mkParsed (cfg_record <$> bans) 0.
Proof. apply bans_cfg_reads_back. Qed.

(** ** Every text *)

Lemma match_ban_id s id expiry c : match_ban s = Some (id, expiry, c) → length id = 17%nat ∧ forallb is_digit id = true.
Proof.
  unfold match_ban. destruct (bool_decide _ && _) eqn:E; [|done]. simpl. bool_to_Prop.
  repeat (case_match; try done); intros [= <- _ _]; done.
Qed.

Lemma match_line_id prefix line p id expiry c :
  match_line prefix line = Some (p, id, expiry, c) → length id = 17%nat ∧ forallb is_digit id = true.
Proof.
  revert prefix. induction line as [|x line IH]; intros prefix; cbn [match_line].
  - destruct (starts_with _ _); [|done]. destruct (match_ban _) as [[[i e] cm]|] eqn:E; [|done].
    intros [= _ -> _ _]. by apply match_ban_id in E.
  - destruct (if starts_with _ _ then _ else _) as [[[i e] cm]|] eqn:E.
    + intros [= _ -> _ _]. destruct (starts_with _ _); [by apply match_ban_id in E|done].
    + destruct (is_terminator x); [done|]. apply IH.
Qed.

Definition nonblank (line : jstr) : bool :=
  negb (bool_decide (trim line = [])) &&
  negb (starts_with (js "//") (trim line) || starts_with (js "#") (trim line)).

(** A SteamID64 of seventeen digits, and what the merge needs of a ban. *)
Definition mergeable (b : ParsedBan) : Prop :=
  (∃ id, steamId64 b = Some id ∧ length id = 17%nat ∧ forallb is_digit id = true) ∧ safe_ban b ∧ json_ok (raw b).

Lemma parse_cfg_line_cases l :
  match parse_cfg_line l with
  | Ignored => nonblank l = false
  | Skipped => nonblank l = true
  | Record_ b => nonblank l = true ∧ mergeable b
  end.
Proof.
  unfold parse_cfg_line, nonblank. destruct (bool_decide (trim l = [])); [done|].
  destruct (starts_with _ (trim l) || _); [done|].
  destruct (match_line [] (trim l)) as [[[[p id] e] c]|] eqn:E; [|done].
  destruct (negb (digits_value e =? 0) && _); [done|]. split; [done|].
  apply match_line_id in E as [El Ed]. split; [by eauto|]. split.
  - split; [|split; [set_solver|done]]. simpl. intros H. rewrite forallb_forall in Ed.
    by specialize (Ed 124 (proj1 (list_elem_of_In _ _) H)).
  - constructor; [apply NoDup_singleton|]. repeat constructor.
Qed.

(** On any text at all, every line that is neither blank nor a comment is
    either a record or counted as skipped, and every record has a SteamID64 of
    seventeen digits and satisfies what the merge needs of a ban: ids without
    the key separator and well-formed JSON. *)
Theorem bans_cfg_total text :
  Z.of_nat (length (records (parseSquadBansCfg text))) + skipped (parseSquadBansCfg text)
    = Z.of_nat (length (List.filter nonblank (split_lines text))) ∧
  Forall mergeable (records (parseSquadBansCfg text)).
Proof.
  unfold parseSquadBansCfg, collect. cbn [records skipped]. generalize (split_lines text). intros ls.
  induction ls as [|l ls [IH1 IH2]]; [split; [done|constructor]|].
  rewrite fmap_cons. csimpl. cbn [List.filter]. pose proof (parse_cfg_line_cases l) as H.
  destruct (parse_cfg_line l) as [|b|]; [rewrite H; done|destruct H as [-> Hb]|rewrite H].
  - split; [cbn [length]; lia|by constructor].
  - split; [cbn [length]; lia|done].
Qed.

Definition ex_cfg_bans : list CfgBan :=
  [mkCfgBan (js "76561198000000001") 0 None; mkCfgBan (js "76561198000000002") 1767225600 (Some (js "team kill"))].

Lemma bans_cfg_roundtrip_witness :
  parseSquadBansCfg (write_lines [13; 10] (render_ban <$> ex_cfg_bans)) = mkParsed (cfg_record <$> ex_cfg_bans) 0.
Proof.
  apply bans_cfg_roundtrip; [by right|]. repeat constructor; done.
Defined.

(** * CSV *)

Inductive Column := ColIndex (n : option Z) | ColName (name : jstr).

Record CsvConfig := mkCsvConfig {
  delimiter : option Z; has_header : option bool; columns : list (jstr * Column) }.

(** A property of a JSON object, [None] for [undefined]. *)
Definition prop (k : jstr) (entries : list (jstr * json)) : option json := map_get entries k.

(** An index is a run of digits; any other number selects nothing. *)
Definition read_column (e : jstr * json) : result jstr (jstr * Column) :=
  match e.2 with
  | JNum t => Ok (e.1, ColIndex (if all_digits t then Some (digits_value t) else None))
  | JStr s => Ok (e.1, ColName s)
  | _ => Throw (js "csv: parser_config.csv.columns." ++ e.1 ++ js " must be a number or a string")
  end.

Fixpoint read_columns (es : list (jstr * json)) : result jstr (list (jstr * Column)) :=
  match es with
  | [] => Ok []
  | e :: es => let! c := read_column e in let! cs := read_columns es in Ok (c :: cs)
  end.

Definition readCsvConfig (parserConfig : list (jstr * json)) : result jstr CsvConfig :=
  match prop (js "csv") parserConfig with
  | None => Ok (mkCsvConfig None None [])
  | Some (JObj csv) =>
      let! d := match prop (js "delimiter") csv with
                | None => Ok None
                | Some (JStr [c]) => Ok (Some c)
                | Some _ => Throw (js "csv: parser_config.csv.delimiter must be a single character")
                end in
      let! h := match prop (js "has_header") csv with
                | None => Ok None
                | Some (JBool b) => Ok (Some b)
                | Some _ => Throw (js "csv: parser_config.csv.has_header must be a boolean")
                end in
      let! cs := match prop (js "columns") csv with
                 | None => Ok []
                 | Some (JObj es) => read_columns es
                 | Some _ => Throw (js "csv: parser_config.csv.columns must be an object")
                 end in
      Ok (mkCsvConfig d h cs)
  | Some _ => Throw (js "csv: parser_config.csv must be an object")
  end.

Fixpoint csv_loop (d : Z) (line current : jstr) (inQuotes : bool) (fields : list jstr) : list jstr :=
  match line with
  | [] => if inQuotes then [] else fields ++ [current]
  | c :: line =>
      if inQuotes then
        if c =? 34 then
          match line with
          | c' :: line' => if c' =? 34 then csv_loop d line' (current ++ [34]) true fields
                           else csv_loop d line current false fields
          | [] => csv_loop d line current false fields
          end
        else csv_loop d line (current ++ [c]) true fields
      else if c =? 34 then csv_loop d line current true fields
      else if c =? d then csv_loop d line [] false (fields ++ [current])
      else csv_loop d line (current ++ [c]) false fields
  end.

Definition splitCsvLine (line : jstr) (d : Z) : list jstr := csv_loop d line [] false [].

Definition asString (value : option jstr) : option jstr := v ← value; or_null (trim v).

(** [date_new] is [new Date(str)] on a string that is not all digits, [None]
    for an invalid date. *)
Definition asDate (date_new : jstr → option Z) (value : option jstr) : option Z :=
  s ← asString value; if all_digits s then unixSecondsToDate (digits_value s) else date_new s.

(** The index of a column; [None] when it is not configured or not found. *)
Definition columnIndex (column : option Column) (header : option (list jstr)) : option Z :=
  match column with
  | None => None
  | Some (ColIndex n) => Some (default (-1) n)
  | Some (ColName name) =>
      h ← header; Z.of_nat <$> find_index (fun f => bool_decide (f = name)) h
  end.

(** [fields[idx]], [undefined] out of range. *)
Definition field_at (fields : list jstr) (idx : option Z) : option jstr :=
  i ← idx; if (0 <=? i) && (i <? Z.of_nat (length fields)) then fields !! Z.to_nat i else None.

Definition csv_row (date_new : jstr → option Z) (d : Z) (idx : string → option Z) (line : jstr) : line_result :=
  let fields := splitCsvLine line d in
  if bool_decide (fields = []) then Skipped
  else
    let steam := asString (field_at fields (idx "steam_id64"%string)) in
    let eos := asString (field_at fields (idx "eos_id"%string)) in
    if bool_decide (steam = None) && bool_decide (eos = None) then Skipped
    else Record_ (mkBan steam eos
      (asString (field_at fields (idx "nickname"%string)))
      (asString (field_at fields (idx "reason"%string)))
      (asString (field_at fields (idx "admin_name"%string)))
      (asDate date_new (field_at fields (idx "issued_at"%string)))
      (asDate date_new (field_at fields (idx "expires_at"%string)))
      (JObj [(js "fields", JArr (JStr <$> fields))])).

Definition parseCsv (date_new : jstr → option Z) (text : jstr) (parserConfig : list (jstr * json))
    : result jstr ParseResult :=
  let! config := readCsvConfig parserConfig in
  let d := default 44 (delimiter config) in
  let hasHeader := default true (has_header config) in
  match jfilter (fun line => negb (bool_decide (trim line = []))) (split_lines text) with
  | [] => Ok (mkParsed [] 0)
  | (first :: rest) as lines =>
      let header := if hasHeader then Some (splitCsvLine first d) else None in
      let dataLines := if hasHeader then rest else lines in
      let idx k := columnIndex (map_get (columns config) (js k)) header in
      Ok (collect (csv_row date_new d idx <$> dataLines))
  end.

(** ** Reading what a CSV writer writes *)

Definition double_quotes (f : jstr) : jstr := flat_map (fun c => if c =? 34 then [34; 34] else [c]) f.
(** A field written quoted, or as it is. *)
Definition write_field (qf : bool * jstr) : jstr :=
  if qf.1 then 34 :: double_quotes qf.2 ++ [34] else qf.2.
Definition field_ok (d : Z) (qf : bool * jstr) : Prop := qf.1 = false → 34 ∉ qf.2 ∧ d ∉ qf.2.

Lemma csv_loop_quoted d f cur fields rest : match rest with c :: _ => c ≠ 34 | [] => True end →
  csv_loop d (double_quotes f ++ 34 :: rest) cur true fields = csv_loop d rest (cur ++ f) false fields.
Proof.
  intros Hrest. revert cur. induction f as [|c f IH]; intros cur.
  - simpl. rewrite app_nil_r. destruct rest as [|c rest]; [done|].
    by rewrite (proj2 (Z.eqb_neq c 34)).
  - cbn [double_quotes flat_map]. destruct (c =? 34) eqn:E; bool_to_Prop.
    + subst c. cbn [app csv_loop]. rewrite !Z.eqb_refl.
      change (flat_map _ f) with (double_quotes f). rewrite IH. by rewrite <-app_assoc.
    + cbn [app csv_loop]. rewrite (proj2 (Z.eqb_neq c 34)) by done.
      change (flat_map _ f) with (double_quotes f). rewrite IH. by rewrite <-app_assoc.
Qed.

Lemma csv_loop_plain d f cur fields rest : 34 ∉ f → d ∉ f →
  csv_loop d (f ++ rest) cur false fields = csv_loop d rest (cur ++ f) false fields.
Proof.
  revert cur. induction f as [|c f IH]; intros cur H1 H2; [by rewrite app_nil_r|].
  cbn [app csv_loop]. rewrite (proj2 (Z.eqb_neq c 34)), (proj2 (Z.eqb_neq c d)) by set_solver.
  rewrite IH by set_solver. by rewrite <-app_assoc.
Qed.

Lemma csv_loop_field d qf fields rest : field_ok d qf → match rest with c :: _ => c ≠ 34 | [] => True end →
  csv_loop d (write_field qf ++ rest) [] false fields = csv_loop d rest qf.2 false fields.
Proof.
  destruct qf as [[|] f]; unfold field_ok, write_field; cbn [fst snd]; intros Hok Hrest.
  - cbn [app csv_loop]. rewrite Z.eqb_refl, <-app_assoc. by apply csv_loop_quoted.
  - destruct (Hok eq_refl). by rewrite csv_loop_plain.
Qed.

Lemma csv_loop_fields d qfs fields : d ≠ 34 → qfs ≠ [] → Forall (field_ok d) qfs →
  csv_loop d (join [d] (write_field <$> qfs)) [] false fields = fields ++ qfs.*2.
Proof.
  intros Hd Hne Hok. revert fields. induction Hok as [|qf qfs Hqf Hok IH]; intros fields; [done|].
  destruct qfs as [|qf' qfs].
  - rewrite !fmap_cons. cbn [fmap list_fmap join]. rewrite <-(app_nil_r (write_field qf)).
    by rewrite csv_loop_field.
  - change (join [d] (write_field <$> qf :: qf' :: qfs))
      with (write_field qf ++ d :: join [d] (write_field <$> qf' :: qfs)).
    rewrite csv_loop_field by done. cbn [csv_loop].
    rewrite (proj2 (Z.eqb_neq d 34)), Z.eqb_refl by done. rewrite IH by done. by rewrite <-app_assoc, !fmap_cons.
Qed.

(** Splitting inverts writing: a line of fields, each quoted (with its
    quotes doubled) or written plainly when it holds neither a quote nor the
    delimiter, splits back into the same fields. *)
Theorem splitCsvLine_roundtrip d qfs :
  d ≠ 34 → qfs ≠ [] → Forall (field_ok d) qfs →
  splitCsvLine (join [d] (write_field <$> qfs)) d = qfs.*2.
Proof. intros. unfold splitCsvLine. by rewrite csv_loop_fields. Qed.

Lemma splitCsvLine_roundtrip_witness :
  splitCsvLine (js "7656,") 44 = [js "7656"; []] ∧
  splitCsvLine (join [44] (write_field <$> [(true, [97; 34; 44]); (false, js "b")])) 44 = [[97; 34; 44]; js "b"].
Proof.
  split; [reflexivity|].
  apply (splitCsvLine_roundtrip 44 [(true, [97; 34; 44]); (false, js "b")]); [done|done|].
  apply Forall_cons_2; [done|]. apply Forall_cons_2; [|apply Forall_nil_2]. intros _. simpl. set_solver.
Defined.

(** On any text and any accepted configuration, every data line is either a
    record or counted as skipped, and every record identifies a player: its
    SteamID64 or its EOS id is a non-empty string without outer blanks. *)
Theorem parseCsv_total date_new text parserConfig config :
  readCsvConfig parserConfig = Ok config →
  let lines := jfilter (fun line => negb (bool_decide (trim line = []))) (split_lines text) in
  ∃ r, parseCsv date_new text parserConfig = Ok r ∧
    Z.of_nat (length (records r)) + skipped r
      = Z.of_nat (length (if default true (has_header config) then tail lines else lines)) ∧
    Forall (fun b => (steamId64 b ≠ None ∨ eosId b ≠ None) ∧ steamId64 b ≠ Some [] ∧ eosId b ≠ Some [] ∧ json_ok (raw b))
      (records r).
Proof.
  intros Hc. unfold parseCsv. rewrite Hc. cbn [result_bind]. cbv zeta.
  set (lines := jfilter _ _). destruct lines as [|first rest].
  { eexists. split; [done|]. split; [by destruct (default true _)|constructor]. }
  eexists. split; [done|]. set (header := if default true _ then _ else _). clearbody header.
  set (idx := fun k : string => _). clearbody idx.
  assert (∀ l, match csv_row date_new (default 44 (delimiter config)) idx l with
    | Ignored => False | Skipped => True
    | Record_ b => (steamId64 b ≠ None ∨ eosId b ≠ None) ∧ steamId64 b ≠ Some [] ∧ eosId b ≠ Some [] ∧ json_ok (raw b)
    end) as Hrow.
  { assert (∀ v, asString v ≠ Some []) as Hs.
    { intros [v|]; simpl; [|done]. unfold or_null. by destruct (trim v). }
    intros l. unfold csv_row. case_bool_decide; [done|].
    destruct (bool_decide _ && bool_decide _) eqn:E; [done|]. cbn [steamId64 eosId raw].
    split; [apply andb_false_iff in E as [E|E]; apply bool_decide_eq_false in E; by auto|]. split; [apply Hs|]. split; [apply Hs|].
    constructor; [apply NoDup_singleton|]. constructor; [|constructor]. simpl. constructor.
    apply Forall_fmap, Forall_true. constructor. }
  assert (∀ ls, let r := collect (csv_row date_new (default 44 (delimiter config)) idx <$> ls) in
    Z.of_nat (length (records r)) + skipped r = Z.of_nat (length ls) ∧
    Forall (fun b => (steamId64 b ≠ None ∨ eosId b ≠ None) ∧ steamId64 b ≠ Some [] ∧ eosId b ≠ Some [] ∧ json_ok (raw b))
      (records r)) as Hall.
  { intros ls. unfold collect. cbv zeta. cbn [records skipped]. induction ls as [|l ls [IH1 IH2]]; [by split; [|constructor]|].
    rewrite fmap_cons. csimpl. cbn [List.filter]. specialize (Hrow l).
    destruct (csv_row _ _ idx l) as [|b|]; [done| |]; (split; [cbn [length]; lia|]); [by constructor|done]. }
  destruct (default true (has_header config)); apply Hall.
Qed.

Lemma parseCsv_total_witness :
  ∃ r, parseCsv (fun _ => None) (js "id,why
7656,x
,y") [(js "csv", JObj [(js "columns", JObj [(js "steam_id64", JStr (js "id"))])])] = Ok r ∧
    Z.of_nat (length (records r)) + skipped r = 2.
Proof.
  destruct (parseCsv_total (fun _ => None) (js "id,why
7656,x
,y") [(js "csv", JObj [(js "columns", JObj [(js "steam_id64", JStr (js "id"))])])]
    (mkCsvConfig None None [(js "steam_id64", ColName (js "id"))]) eq_refl) as (r & H1 & H2 & _).
  exists r. split; [exact H1|]. rewrite H2. reflexivity.
Defined.
