(* ===== verification/AdminsCfg.v ===== *)
(** [packages/shared-config/src/admins-config.ts]: the segment of Admins.cfg the
    panel manages, and its splicing into the file.

    [String.prototype.localeCompare] orders by the collation of the host's
    locale: it is a parameter with the laws of a comparator. *)
From S2P Require Import Prelude JsString.

(** The em dash and the Russian words of the begin line, as code units. *)
Definition BEGIN_MARKER : jstr := js "//SQUAD-PANEL BEGIN".
Definition END_MARKER : jstr := js "//SQUAD-PANEL END".
Definition BEGIN_LINE : jstr :=
  BEGIN_MARKER ++ [32; 8212; 32; 1085; 1077; 32; 1088; 1077; 1076; 1072; 1082; 1090; 1080; 1088; 1086;
                   1074; 1072; 1090; 1100; 32; 1074; 1088; 1091; 1095; 1085; 1091; 1102].
Definition SEGMENT_NEWLINE : jstr := [13; 10].

Record RoleEntry := mkRole { role_name : jstr; squadPermissions : list jstr }.
Record AdminEntry := mkAdmin { a_eosId : jstr; a_roleName : jstr; comment : option jstr }.
Record ClanPriorityEntry := mkClan { cl_eosId : jstr; clanName : jstr }.
Record SegmentInputs := mkInputs {
  roles : list RoleEntry; admins : list AdminEntry; clanPriority : option (list ClanPriorityEntry) }.

Definition CLAN_PRIORITY_GROUP_NAME : jstr := js "ClanPriority".
Definition CLAN_PRIORITY_PERMISSION : jstr := js "reserve".

(** [LINE_BREAKING_CHARACTERS] and [ROLE_NAME_SYNTAX_CHARACTERS]. *)
Definition is_break (c : Z) : bool := is_control c || (c =? 0x2028) || (c =? 0x2029).
Definition is_syntax (c : Z) : bool := (c =? 58) || (c =? 44) || (c =? 47).

Definition isAdminsCfgSafeRoleName (name : jstr) : bool :=
  (0 <? length (trim name))%nat && negb (existsb is_break name) && negb (existsb is_syntax name).

Definition isAdminsCfgSingleLineText (text : jstr) : bool := negb (existsb is_break text).

(** [text.replace(LINE_BREAKING_RUNS, ' ')]: [in_run] says the last character
    was a break. *)
Fixpoint flatten_breaks (in_run : bool) (s : jstr) : jstr :=
  match s with
  | [] => []
  | c :: s =>
      if is_break c then (if in_run then flatten_breaks true s else 32 :: flatten_breaks true s)
      else c :: flatten_breaks false s
  end.

(** [text.replace(SLASH_RUNS, '/')]. *)
Fixpoint collapse_slashes (in_run : bool) (s : jstr) : jstr :=
  match s with
  | [] => []
  | c :: s =>
      if c =? 47 then (if in_run then collapse_slashes true s else 47 :: collapse_slashes true s)
      else c :: collapse_slashes false s
  end.

Definition toAdminsCfgCommentText (text : jstr) : jstr :=
  trim (collapse_slashes false (flatten_breaks false text)).

Record ManagedSegmentBody := mkBody { body : jstr; groupsCount : Z; adminsCount : Z }.

Section Segment.
Context (localeCompare : jstr → jstr → Z).

Definition roles_with_perms (inputs : SegmentInputs) : list RoleEntry :=
  jsort (fun a b => localeCompare (role_name a) (role_name b))
    ((fun r => mkRole (role_name r) (jsort str_cmp (squadPermissions r)))
       <$> jfilter (fun r => (0 <? length (squadPermissions r))%nat && isAdminsCfgSafeRoleName (role_name r))
             (roles inputs)).

Definition admin_cmp (a b : AdminEntry) : Z :=
  let r := localeCompare (a_roleName a) (a_roleName b) in
  if negb (r =? 0) then r else localeCompare (a_eosId a) (a_eosId b).

Definition valid_admins (inputs : SegmentInputs) : list AdminEntry :=
  let validRoleNames := role_name <$> roles_with_perms inputs in
  jsort admin_cmp (jfilter (fun a => bool_decide (a_roleName a ∈ validRoleNames)) (admins inputs)).

Definition clan_entries (inputs : SegmentInputs) : list ClanPriorityEntry := default [] (clanPriority inputs).
Definition clan_admins (inputs : SegmentInputs) : list ClanPriorityEntry :=
  jsort (fun a b => localeCompare (cl_eosId a) (cl_eosId b)) (clan_entries inputs).
Definition emit_clan_group (inputs : SegmentInputs) : bool :=
  (0 <? length (clan_entries inputs))%nat
  && negb (bool_decide (CLAN_PRIORITY_GROUP_NAME ∈ role_name <$> roles_with_perms inputs)).

Definition group_line (name : jstr) (perms : list jstr) : jstr :=
  js "Group=" ++ name ++ js ":" ++ join (js ",") perms.

Definition admin_line (a : AdminEntry) : jstr :=
  let base := js "Admin=" ++ a_eosId a ++ js ":" ++ a_roleName a in
  let text := match comment a with Some c => toAdminsCfgCommentText c | None => [] end in
  match text with [] => base | _ => base ++ js " // " ++ text end.

Definition clan_line (e : ClanPriorityEntry) : jstr :=
  js "Admin=" ++ cl_eosId e ++ js ":" ++ CLAN_PRIORITY_GROUP_NAME ++ js " // clan:"
  ++ toAdminsCfgCommentText (clanName e).

Definition segment_lines (inputs : SegmentInputs) : list jstr :=
  let groups := ((fun r => group_line (role_name r) (squadPermissions r)) <$> roles_with_perms inputs)
                ++ (if emit_clan_group inputs
                    then [group_line CLAN_PRIORITY_GROUP_NAME [CLAN_PRIORITY_PERMISSION]] else []) in
  let people := (admin_line <$> valid_admins inputs) ++ (clan_line <$> clan_admins inputs) in
  [BEGIN_LINE] ++ groups
  ++ (if (0 <? length groups)%nat && (0 <? length people)%nat then [[]] else [])
  ++ people ++ [END_MARKER].

Definition buildManagedSegmentBody (inputs : SegmentInputs) : ManagedSegmentBody :=
  mkBody (join SEGMENT_NEWLINE (segment_lines inputs))
    (Z.of_nat (length (roles_with_perms inputs)) + (if emit_clan_group inputs then 1 else 0))
    (Z.of_nat (length (valid_admins inputs)) + Z.of_nat (length (clan_admins inputs))).
End Segment.

(** * The segment in the file *)

Record Located := mkLocated { segment : jstr; seg_start : nat; seg_end : nat }.

Definition findManagedSegment (content : jstr) : option Located :=
  match index_of BEGIN_MARKER content with
  | None => None
  | Some beginIdx =>
      let tail := match index_of END_MARKER (drop beginIdx content) with
                  | None => length content
                  | Some i => (beginIdx + i + length END_MARKER)%nat
                  end in
      Some (mkLocated (take (tail - beginIdx) (drop beginIdx content)) beginIdx tail)
  end.

Definition spliceManagedSegment (originalContent newSegmentBody : jstr) : jstr :=
  match findManagedSegment originalContent with
  | Some l => take (seg_start l) originalContent ++ newSegmentBody ++ drop (seg_end l) originalContent
  | None =>
      if bool_decide (originalContent = []) then newSegmentBody ++ SEGMENT_NEWLINE
      else newSegmentBody ++ SEGMENT_NEWLINE ++ SEGMENT_NEWLINE ++ originalContent
  end.

(** * Where the markers can occur *)

(** An automaton that looks for [//S], the beginning of both markers: the
    state counts the slashes just read, [None] is a find. *)
Inductive mark_state := m0 | m1 | m2.
Definition mark_step (q : mark_state) (c : Z) : option mark_state :=
  if c =? 47 then Some (match q with m0 => m1 | _ => m2 end)
  else match q with m2 => if c =? 83 then None else Some m0 | _ => Some m0 end.
Fixpoint mark_run (q : mark_state) (s : jstr) : option mark_state :=
  match s with [] => Some q | c :: s => mark_step q c ≫= fun q => mark_run q s end.

Lemma mark_run_app q a b : mark_run q (a ++ b) = mark_run q a ≫= fun q' => mark_run q' b.
Proof. revert q. induction a as [|c a IH]; intros q; simpl; [done|].
  destruct (mark_step q c); [apply IH|done].
Qed.

Lemma mark_run_quiet q s j : is_Some (mark_run q s) → ¬ js "//S" `prefix_of` drop j s.
Proof.
  intros Hs [t Ht]. rewrite <-(take_drop j s), Ht, mark_run_app in Hs.
  destruct (mark_run q (take j s)) as [q'|]; [|cbn in Hs; by destruct Hs].
  destruct q'; cbn in Hs; by destruct Hs.
Qed.

(** Text with no slash keeps the automaton quiet, from any state that a slash
    has not just led to. *)
Lemma mark_run_plain s : 47 ∉ s → mark_run m0 s = Some m0.
Proof.
  induction s as [|c s IH]; intros Hs; simpl; [done|]. unfold mark_step.
  rewrite (proj2 (Z.eqb_neq c 47)) by set_solver. simpl. apply IH. set_solver.
Qed.

(** No two slashes in a row. *)
Definition single_slashes (s : jstr) : Prop := ∀ j, ¬ [47; 47] `prefix_of` drop j s.

Lemma single_slashes_tail c s : single_slashes (c :: s) → single_slashes s.
Proof. intros H j. apply (H (S j)). Qed.

Lemma mark_run_single s : single_slashes s →
  (∃ q, mark_run m0 s = Some q) ∧ (head s ≠ Some 47 → ∃ q, mark_run m1 s = Some q).
Proof.
  induction s as [|c s IH]; intros Hs; [split; eauto|].
  destruct (IH (single_slashes_tail _ _ Hs)) as [IH0 IH1]. cbn [mark_run head]. unfold mark_step.
  destruct (c =? 47) eqn:E; bool_to_Prop.
  - subst c. split; [|naive_solver]. simpl. apply IH1. intros H. apply (Hs 0%nat). destruct s; [done|].
    injection H as ->. by exists s.
  - simpl. eauto.
Qed.

Lemma collapse_slashes_single in_run s :
  single_slashes (collapse_slashes in_run s) ∧ (in_run = true → head (collapse_slashes in_run s) ≠ Some 47).
Proof.
  revert in_run. induction s as [|c s IH]; intros in_run; cbn [collapse_slashes].
  { split; [|done]. intros j [k Hk]. by rewrite drop_nil in Hk. }
  destruct (c =? 47) eqn:E; bool_to_Prop.
  - subst. destruct (IH true) as [H1 H2]. destruct in_run; [done|]. split; [|done].
    intros [|j]; [|apply H1]. intros [k [= Hk]]. rewrite Hk in H2. by destruct (H2 eq_refl).
  - destruct (IH false) as [H1 _]. split; [|naive_solver]. intros [|j]; [|apply H1].
    by intros [k [= ->]].
Qed.

(** A contiguous part of such a text is one. *)
Lemma single_slashes_infix a b c : single_slashes (a ++ b ++ c) → single_slashes b.
Proof.
  intros H j [k Hk]. apply (H (length a + j)%nat).
  assert (j ≤ length b)%nat as Hj.
  { destruct (decide (j ≤ length b)%nat); [done|]. rewrite drop_ge in Hk by lia. done. }
  rewrite drop_app_ge by lia. replace (length a + j - length a)%nat with j by lia.
  rewrite drop_app_le by done. rewrite Hk. exists (k ++ c). by rewrite app_assoc.
Qed.

Lemma comment_single text : single_slashes (toAdminsCfgCommentText text).
Proof.
  unfold toAdminsCfgCommentText. destruct (trim_infix (collapse_slashes false (flatten_breaks false text))) as (p & q & H).
  apply (single_slashes_infix p _ q). rewrite <-H. apply collapse_slashes_single.
Qed.

(** A quiet line: the automaton passes it from the state after a line break. *)
Definition quiet (s : jstr) : Prop := ∃ q, mark_run m0 s = Some q.

Lemma quiet_plain s : 47 ∉ s → quiet s.
Proof. intros H. exists m0. by apply mark_run_plain. Qed.

Lemma quiet_comment base sep text : 47 ∉ base → mark_run m0 sep = Some m0 → quiet (base ++ sep ++ toAdminsCfgCommentText text).
Proof.
  intros Hb Hs. unfold quiet. rewrite !mark_run_app, (mark_run_plain base Hb). simpl. rewrite mark_run_app, Hs. simpl.
  by apply mark_run_single, comment_single.
Qed.

Lemma quiet_lines ls : Forall quiet ls → mark_run m0 (concat ((fun l => l ++ SEGMENT_NEWLINE) <$> ls)) = Some m0.
Proof.
  induction 1 as [|l ls [q Hq] _ IH]; [done|]. rewrite fmap_cons. cbn [concat].
  rewrite mark_run_app, mark_run_app, Hq. simpl. destruct q; exact IH.
Qed.

(** * Splicing *)

(** A text that opens with the begin marker and holds the end marker only at
    its end. *)
Definition segment_body (b : jstr) : Prop :=
  BEGIN_MARKER `prefix_of` b ∧ index_of END_MARKER b = Some (length b - length END_MARKER)%nat.

Lemma segment_body_length b : segment_body b → (length END_MARKER ≤ length b)%nat ∧
  END_MARKER = drop (length b - length END_MARKER) b.
Proof.
  intros [_ [[k Hk] _]%index_of_Some].
  assert (length END_MARKER ≤ length b)%nat as Hl.
  { apply (f_equal length) in Hk. rewrite length_drop, length_app in Hk. lia. }
  split; [done|]. rewrite Hk. apply (f_equal length) in Hk. rewrite length_drop, length_app in Hk.
  destruct k; [by rewrite app_nil_r|]. simpl in Hk. lia.
Qed.

(** The end marker found first in a body with anything after it is its own. *)
Lemma end_marker_of_body b rest : segment_body b →
  index_of END_MARKER (b ++ rest) = Some (length b - length END_MARKER)%nat.
Proof.
  intros Hb. destruct (segment_body_length b Hb) as [Hl He]. destruct Hb as [_ Hb].
  apply index_of_Some in Hb as [Hp Hn]. apply index_of_Some. split.
  - rewrite drop_app_le by lia. by apply prefix_app_r.
  - intros j Hj [k Hk]. apply (Hn j Hj). rewrite drop_app_le in Hk by lia.
    exists (take (length b - j - length END_MARKER) k).
    apply (f_equal (take (length b - j))) in Hk.
    rewrite take_app_le, take_ge in Hk by (rewrite length_drop; lia). rewrite Hk, take_app_ge by lia. done.
Qed.

(** The begin marker does not overlap itself. *)
Lemma begin_no_border k : (0 < k < length BEGIN_MARKER)%nat →
  drop (length BEGIN_MARKER - k) BEGIN_MARKER ≠ take k BEGIN_MARKER.
Proof.
  intros Hk. assert (Forall (fun k => bool_decide (drop (length BEGIN_MARKER - k) BEGIN_MARKER ≠ take k BEGIN_MARKER) = true)
    (seq 1 (length BEGIN_MARKER - 1))) as H.
  { apply Forall_forall. intros x Hx. revert x Hx. apply Forall_forall. vm_compute. repeat constructor. }
  rewrite Forall_forall in H. specialize (H k ltac:(apply elem_of_seq; lia)). by apply bool_decide_eq_true in H.
Qed.

(** Text before the first begin marker stays free of it when a body follows. *)
Lemma begin_marker_after p b rest : (∀ j, ¬ BEGIN_MARKER `prefix_of` drop j p) → BEGIN_MARKER `prefix_of` b →
  index_of BEGIN_MARKER (p ++ b ++ rest) = Some (length p).
Proof.
  intros Hp [b' ->]. apply index_of_Some. split.
  { rewrite drop_app_length, <-app_assoc. by apply prefix_app_r. }
  intros j Hj [k Hk]. rewrite drop_app_le in Hk by lia.
  destruct (decide (length BEGIN_MARKER ≤ length p - j)%nat) as [Hfit|Hfit].
  - apply (Hp j). exists (take (length p - j - length BEGIN_MARKER) k).
    apply (f_equal (take (length p - j))) in Hk.
    rewrite take_app_le, take_ge in Hk by (rewrite length_drop; lia). rewrite Hk, take_app_ge by lia. done.
  - set (n := (length BEGIN_MARKER - (length p - j))%nat).
    apply (begin_no_border n); [unfold n; lia|].
    apply (f_equal (fun s => take n (drop (length p - j) s))) in Hk.
    rewrite drop_app_length' in Hk by (rewrite length_drop; lia).
    rewrite <-app_assoc, take_app_le in Hk by (unfold n; lia).
    rewrite drop_app_le, take_app_le in Hk by (rewrite ?length_drop; unfold n; lia).
    rewrite Hk. replace (length BEGIN_MARKER - n)%nat with (length p - j)%nat by (unfold n; lia).
    rewrite take_ge; [done|]. rewrite length_drop. unfold n. lia.
Qed.

(** What the file holds around the segment after a splice. *)
Definition outside (content : jstr) : jstr * jstr :=
  match findManagedSegment content with
  | Some l => (take (seg_start l) content, drop (seg_end l) content)
  | None => ([], if bool_decide (content = []) then SEGMENT_NEWLINE else SEGMENT_NEWLINE ++ SEGMENT_NEWLINE ++ content)
  end.

Lemma spliceManagedSegment_eq content b :
  spliceManagedSegment content b = (outside content).1 ++ b ++ (outside content).2.
Proof.
  unfold spliceManagedSegment, outside. destruct (findManagedSegment content); [done|]. by case_bool_decide.
Qed.

Lemma outside_free content j : ¬ BEGIN_MARKER `prefix_of` drop j (outside content).1.
Proof.
  unfold outside, findManagedSegment. destruct (index_of BEGIN_MARKER content) as [i|] eqn:E; cbn [fst seg_start].
  - apply index_of_Some in E as [[k0 Hi] Hn]. intros [k Hk].
    assert (j + length BEGIN_MARKER ≤ i)%nat as Hj.
    { apply (f_equal length) in Hk. rewrite length_drop, length_take, length_app in Hk. simpl in Hk. simpl. lia. }
    apply (Hn j); [simpl in Hj; lia|]. exists (k ++ drop i content).
    rewrite <-(take_drop i content) at 1. apply (f_equal length) in Hk as Hlen.
    rewrite length_drop, length_take, length_app in Hlen. simpl in Hlen.
    rewrite drop_app_le by (rewrite length_take; simpl in Hj; lia). by rewrite Hk, app_assoc.
  - intros [k Hk]. rewrite drop_nil in Hk. done.
Qed.

Lemma find_spliced p b rest : (∀ j, ¬ BEGIN_MARKER `prefix_of` drop j p) → segment_body b →
  findManagedSegment (p ++ b ++ rest) = Some (mkLocated b (length p) (length p + length b)).
Proof.
  intros Hp Hb. unfold findManagedSegment. rewrite begin_marker_after by (done || apply Hb).
  rewrite drop_app_length, end_marker_of_body by done.
  destruct (segment_body_length b Hb) as [Hl _].
  replace (length p + (length b - length END_MARKER) + length END_MARKER)%nat with (length p + length b)%nat by lia.
  replace (length p + length b - length p)%nat with (length b) by lia. by rewrite take_app_length.
Qed.

Lemma outside_spliced content b : segment_body b → outside (spliceManagedSegment content b) = outside content.
Proof.
  intros Hb. rewrite spliceManagedSegment_eq. destruct (outside content) as [p rest] eqn:E. cbn [fst snd].
  assert (∀ j, ¬ BEGIN_MARKER `prefix_of` drop j p) as Hp.
  { intros j. pose proof (outside_free content j) as H. by rewrite E in H. }
  unfold outside. rewrite find_spliced by done. cbn [seg_start seg_end]. f_equal.
  - by rewrite take_app_length.
  - rewrite app_assoc. apply drop_app_length'. by rewrite length_app.
Qed.

(** * The generated segment *)

(** The identifiers the database supplies hold no slash, colon or comma and no
    line break. *)
Definition plain_text (s : jstr) : Prop := 47 ∉ s ∧ 58 ∉ s ∧ 44 ∉ s ∧ existsb is_break s = false.
Definition inputs_ok (inputs : SegmentInputs) : Prop :=
  (∀ r p, r ∈ roles inputs → p ∈ squadPermissions r → plain_text p) ∧
  (∀ a, a ∈ admins inputs → plain_text (a_eosId a)) ∧
  (∀ e, e ∈ clan_entries inputs → plain_text (cl_eosId e)).

Lemma join_snoc sep ls x : join sep (ls ++ [x]) = concat ((fun l => l ++ sep) <$> ls) ++ x.
Proof.
  induction ls as [|l ls IH]; [done|]. rewrite fmap_cons. cbn [concat]. rewrite <-!app_assoc, <-IH.
  by destruct ls.
Qed.

Lemma elem_of_join c sep ps : c ∈ join sep ps → c ∈ sep ∨ ∃ p, p ∈ ps ∧ c ∈ p.
Proof.
  induction ps as [|p ps IH]; [by intros ?%not_elem_of_nil|]. destruct ps as [|p' ps].
  - simpl. intros H. right. exists p. split; [by left|done].
  - change (join sep (p :: p' :: ps)) with (p ++ sep ++ join sep (p' :: ps)).
    rewrite !elem_of_app. intros [H|[H|H]]; [right; exists p; split; [by left|done]|by left|].
    destruct (IH H) as [?|(x & ? & ?)]; [by left|right; exists x; split; [by right|done]].
Qed.

Section SegmentProofs.
Context (localeCompare : jstr → jstr → Z).

Lemma role_of_segment inputs r : r ∈ roles_with_perms localeCompare inputs →
  isAdminsCfgSafeRoleName (role_name r) = true ∧
  ∃ r0, r0 ∈ roles inputs ∧ role_name r = role_name r0 ∧ squadPermissions r ≡ₚ squadPermissions r0 ∧
    squadPermissions r0 ≠ [].
Proof.
  unfold roles_with_perms. rewrite elem_of_jsort.
  intros (r0 & -> & [H Hr]%elem_of_jfilter)%list_elem_of_fmap. bool_to_Prop. split; [done|].
  exists r0. split; [done|]. split; [done|]. split; [apply jsort_perm|]. by destruct (squadPermissions r0).
Qed.

Lemma safe_name_chars name : isAdminsCfgSafeRoleName name = true →
  plain_text name.
Proof.
  unfold isAdminsCfgSafeRoleName, plain_text. intros H. bool_to_Prop.
  assert (∀ c, is_syntax c = true → c ∉ name) as Hc.
  { intros c Hs Hin. apply not_true_iff_false in H0. apply H0, existsb_exists. exists c.
    split; [by apply list_elem_of_In|done]. }
  split; [by apply Hc|]. split; [by apply Hc|]. by split; [apply Hc|].
Qed.

Lemma segment_middle_quiet inputs : inputs_ok inputs →
  ∃ middle, segment_lines localeCompare inputs = (BEGIN_LINE :: middle) ++ [END_MARKER] ∧ Forall quiet middle.
Proof.
  intros (Hperm & Hadm & Hclan). unfold segment_lines.
  match goal with |- context [[BEGIN_LINE] ++ ?g ++ ?e ++ ?p ++ [END_MARKER]] => exists (g ++ e ++ p) end.
  split; [cbn [app]; by rewrite <-!app_assoc|]. rewrite !Forall_app. split; [split|split; [|split]].
  - apply Forall_fmap, Forall_forall. intros r (Hs & r0 & Hr0 & _ & Hp & _)%role_of_segment.
    apply safe_name_chars in Hs as [Hs _]. apply quiet_plain. unfold group_line.
    rewrite !not_elem_of_app. split; [set_solver|]. split; [done|]. split; [set_solver|].
    intros [?|(p & Hin & Hc)]%elem_of_join; [set_solver|]. rewrite Hp in Hin. by destruct (Hperm r0 p Hr0 Hin) as [Hx _].
  - case_match; [|apply Forall_nil_2]. apply Forall_cons_2; [|apply Forall_nil_2]. apply quiet_plain.
    apply (bool_decide_eq_true_1 _). reflexivity.
  - case_match; [|apply Forall_nil_2]. apply Forall_cons_2; [|apply Forall_nil_2]. apply quiet_plain, not_elem_of_nil.
  - apply Forall_fmap, Forall_forall. intros a Ha. unfold valid_admins in Ha. rewrite elem_of_jsort in Ha.
    apply elem_of_jfilter in Ha as [Hv Ha]. bool_to_Prop. apply list_elem_of_fmap in Hv as (r & Hr & [Hs _]%role_of_segment).
    apply safe_name_chars in Hs as [Hs _]. rewrite <-Hr in Hs. simpl.
    assert (47 ∉ js "Admin=" ++ a_eosId a ++ js ":" ++ a_roleName a) as Hbase.
    { rewrite !not_elem_of_app. split; [set_solver|]. split; [by apply Hadm|]. split; [set_solver|done]. }
    unfold admin_line. destruct (comment a) as [c|]; [|by apply quiet_plain].
    destruct (toAdminsCfgCommentText c) as [|x xs] eqn:E; [by apply quiet_plain|].
    rewrite <-E. by apply quiet_comment.
  - apply Forall_fmap, Forall_forall. intros e He. unfold clan_admins in He. rewrite elem_of_jsort in He. simpl.
    assert (clan_line e = (js "Admin=" ++ cl_eosId e ++ js ":" ++ CLAN_PRIORITY_GROUP_NAME) ++ js " // clan:"
      ++ toAdminsCfgCommentText (clanName e)) as -> by (unfold clan_line; by rewrite <-!app_assoc).
    apply quiet_comment; [|done]. rewrite !not_elem_of_app. split; [set_solver|].
    split; [by apply Hclan|]. split; set_solver.
Qed.

Lemma buildManagedSegmentBody_segment inputs : inputs_ok inputs →
  segment_body (body (buildManagedSegmentBody localeCompare inputs)).
Proof.
  intros Hin. destruct (segment_middle_quiet inputs Hin) as (middle & Hlines & Hq).
  unfold buildManagedSegmentBody. cbn [body]. rewrite Hlines, join_snoc, fmap_cons. cbn [concat].
  set (pre := concat _). assert (mark_run m0 pre = Some m0) as Hpre by by apply quiet_lines.
  clearbody pre. split.
  - unfold BEGIN_LINE. rewrite <-!app_assoc. by apply prefix_app_r.
  - rewrite length_app. replace (length _ + length END_MARKER - length END_MARKER)%nat
      with (length ((BEGIN_LINE ++ SEGMENT_NEWLINE) ++ pre)) by lia.
    apply index_of_Some. split; [by rewrite drop_app_length|].
    intros j Hj [k Hk]. destruct j as [|j]; [discriminate Hk|].
    assert (is_Some (mark_run m0 (drop 1 ((BEGIN_LINE ++ SEGMENT_NEWLINE) ++ pre) ++ js "//"))) as Hquiet.
    { change (drop 1 ((BEGIN_LINE ++ SEGMENT_NEWLINE) ++ pre)) with ((drop 1 (BEGIN_LINE ++ SEGMENT_NEWLINE)) ++ pre).
      rewrite !mark_run_app. assert (mark_run m0 (drop 1 (BEGIN_LINE ++ SEGMENT_NEWLINE)) = Some m0) as -> by reflexivity.
      simpl. rewrite Hpre. simpl. eauto. }
    apply (mark_run_quiet _ _ j Hquiet).
    set (whole := (BEGIN_LINE ++ SEGMENT_NEWLINE) ++ pre) in *.
    assert (drop (S j) (whole ++ END_MARKER) = drop j (drop 1 whole ++ js "//") ++ drop 2 END_MARKER) as Hsplit.
    { rewrite drop_app_le by lia. rewrite drop_app_le by (rewrite length_drop; lia).
      rewrite drop_drop, <-app_assoc. reflexivity. }
    rewrite Hsplit in Hk. set (front := drop j (drop 1 whole ++ js "//")) in *.
    assert (3 ≤ length front)%nat as H3.
    { unfold front. rewrite length_drop, length_app, length_drop. change (length (js "//")) with 2%nat. lia. }
    assert (front = js "//S" ++ take (length front - 3) (drop 3 END_MARKER ++ k)) as Hfront.
    { apply (f_equal (take (length front))) in Hk. rewrite take_app_length in Hk.
      transitivity (take (length front) (END_MARKER ++ k)); [exact Hk|].
      change (END_MARKER ++ k) with (js "//S" ++ drop 3 END_MARKER ++ k). by rewrite take_app_ge. }
    eexists. exact Hfront.
Qed.
End SegmentProofs.

(** * Reading the segment *)

(** How the game reads a line of the file: [Group=name:perm,perm] and
    [Admin=id:name], with a comment from the first slash on. *)
Definition read_group (l : jstr) : option (jstr * list jstr) :=
  if starts_with (js "Group=") l
  then (fun np => (np.1, split_on 44 np.2)) <$> cut_at 58 (drop 6 l) else None.
Definition read_admin (l : jstr) : option (jstr * jstr) :=
  if starts_with (js "Admin=") l
  then '(eos, rest) ← cut_at 58 (drop 6 l);
       Some (eos, match cut_at 47 rest with Some (name, _) => removelast name | None => rest end)
  else None.

Definition no_break (s : jstr) : Prop := existsb is_break s = false.

Lemma no_break_elem s : no_break s ↔ ∀ c, c ∈ s → is_break c = false.
Proof.
  unfold no_break. rewrite <-not_true_iff_false, existsb_exists. split.
  - intros H c Hc. apply not_true_is_false. intros Hb. apply H. exists c. by rewrite <-list_elem_of_In.
  - intros H (c & Hc%list_elem_of_In & Hb). by rewrite (H c Hc) in Hb.
Qed.

Lemma no_break_app a b : no_break (a ++ b) ↔ no_break a ∧ no_break b.
Proof. unfold no_break. rewrite existsb_app. apply orb_false_iff. Qed.

Lemma flatten_breaks_clean in_run s : no_break (flatten_breaks in_run s).
Proof.
  unfold no_break. revert in_run. induction s as [|c s IH]; intros in_run; cbn [flatten_breaks]; [done|].
  destruct (is_break c) eqn:E; [destruct in_run; [apply IH|]|]; cbn [existsb]; [apply IH|]. by rewrite E, IH.
Qed.

Lemma collapse_slashes_clean in_run s : no_break s → no_break (collapse_slashes in_run s).
Proof.
  unfold no_break. revert in_run. induction s as [|c s IH]; intros in_run; cbn [collapse_slashes existsb]; [done|].
  intros [Hc Hs]%orb_false_iff. destruct (c =? 47); [destruct in_run; [by apply IH|]|]; cbn [existsb]; [by apply IH|].
  by rewrite Hc, IH.
Qed.

Lemma comment_clean text : no_break (toAdminsCfgCommentText text).
Proof.
  unfold toAdminsCfgCommentText. set (s := collapse_slashes false _).
  assert (no_break s) as Hs by apply collapse_slashes_clean, flatten_breaks_clean.
  destruct (trim_infix s) as (p & q & H). rewrite H, !no_break_app in Hs. tauto.
Qed.

Lemma no_break_line s : no_break s → 10 ∉ s ∧ last s ≠ Some 13.
Proof.
  rewrite no_break_elem. intros H. split; [by intros ?%H|].
  intros [l ->]%last_Some. assert (is_break 13 = false) as Hb by (apply H, elem_of_app; right; by left).
  discriminate Hb.
Qed.

Section ReadBack.
Context (localeCompare : jstr → jstr → Z).

Definition people (inputs : SegmentInputs) : list (jstr * jstr) :=
  ((fun a => (a_eosId a, a_roleName a)) <$> valid_admins localeCompare inputs)
  ++ ((fun e => (cl_eosId e, CLAN_PRIORITY_GROUP_NAME)) <$> clan_admins localeCompare inputs).
Definition groups (inputs : SegmentInputs) : list (jstr * list jstr) :=
  ((fun r => (role_name r, squadPermissions r)) <$> roles_with_perms localeCompare inputs)
  ++ (if emit_clan_group localeCompare inputs then [(CLAN_PRIORITY_GROUP_NAME, [CLAN_PRIORITY_PERMISSION])] else []).

Lemma read_group_line name perms : 58 ∉ name → perms ≠ [] → Forall (fun p => 44 ∉ p) perms →
  read_group (group_line name perms) = Some (name, perms) ∧ read_admin (group_line name perms) = None.
Proof.
  intros Hn Hne Hp. unfold group_line, read_group, read_admin, starts_with.
  rewrite bool_decide_true by (by apply prefix_app_r). split.
  - rewrite drop_app_length'  by done. change (js ":" ++ ?x) with (58 :: x). rewrite cut_at_app by done.
    simpl. by rewrite split_on_join.
  - rewrite bool_decide_false; [done|]. intros [k Hk]. discriminate Hk.
Qed.

Lemma read_admin_plain eos name tail : 58 ∉ eos → 47 ∉ name → tail = [] ∨ (∃ t, tail = 32 :: 47 :: t) →
  read_admin (js "Admin=" ++ eos ++ js ":" ++ name ++ tail) = Some (eos, name) ∧
  read_group (js "Admin=" ++ eos ++ js ":" ++ name ++ tail) = None.
Proof.
  intros He Hn Ht. unfold read_group, read_admin, starts_with. split.
  - rewrite bool_decide_true by (by apply prefix_app_r). rewrite drop_app_length' by done.
    change (js ":" ++ ?x) with (58 :: x). rewrite cut_at_app by done. simpl.
    destruct Ht as [->|[t ->]]; [by rewrite app_nil_r, cut_at_None|].
    replace (name ++ 32 :: 47 :: t) with ((name ++ [32]) ++ 47 :: t) by by rewrite <-app_assoc.
    rewrite cut_at_app by set_solver. by rewrite removelast_last.
  - rewrite bool_decide_false; [done|]. intros [k Hk]. discriminate Hk.
Qed.

Lemma admin_line_shape a : ∃ tail, admin_line a = js "Admin=" ++ a_eosId a ++ js ":" ++ a_roleName a ++ tail ∧
  (tail = [] ∨ ∃ t, tail = 32 :: 47 :: t) ∧ no_break tail.
Proof.
  unfold admin_line. destruct (comment a) as [c|].
  - pose proof (comment_clean c) as Hc. destruct (toAdminsCfgCommentText c) as [|x xs].
    + exists []. rewrite app_nil_r. split; [done|]. split; [by left|done].
    + exists (js " // " ++ x :: xs). rewrite <-!app_assoc. split; [done|]. split; [right; by eexists|].
      apply no_break_app. by split.
  - exists []. rewrite app_nil_r. split; [done|]. split; [by left|done].
Qed.

Lemma valid_admin_ok inputs a : inputs_ok inputs → a ∈ valid_admins localeCompare inputs →
  plain_text (a_eosId a) ∧ plain_text (a_roleName a).
Proof.
  intros (_ & Hadm & _) Ha. unfold valid_admins in Ha. rewrite elem_of_jsort in Ha.
  apply elem_of_jfilter in Ha as [Hv Ha]. bool_to_Prop. split; [by apply Hadm|].
  apply list_elem_of_fmap in Hv as (r & -> & [Hs _]%role_of_segment). by apply safe_name_chars.
Qed.

Lemma group_perms_ok inputs r : inputs_ok inputs → r ∈ roles_with_perms localeCompare inputs →
  plain_text (role_name r) ∧ squadPermissions r ≠ [] ∧ Forall plain_text (squadPermissions r).
Proof.
  intros (Hperm & _ & _) (Hs & r0 & Hr0 & _ & Hp & Hne)%role_of_segment. split; [by apply safe_name_chars|]. split.
  - intros H. rewrite H in Hp. by apply Permutation_nil_l in Hp.
  - apply Forall_forall. intros p. rewrite Hp. by apply (Hperm r0).
Qed.

Lemma no_break_group name perms : no_break name → Forall no_break perms → no_break (group_line name perms).
Proof.
  intros Hn Hp. unfold group_line. rewrite !no_break_app. do 3 (split; [done|]).
  apply no_break_elem. intros c [Hc|(p & Hin & Hc)]%elem_of_join.
  - apply list_elem_of_singleton in Hc as ->. done.
  - rewrite Forall_forall in Hp. by apply (proj1 (no_break_elem p) (Hp p Hin)).
Qed.

Lemma segment_lines_clean inputs : inputs_ok inputs → Forall no_break (segment_lines localeCompare inputs).
Proof.
  intros Hok. unfold segment_lines. rewrite !Forall_app. repeat split.
  - by constructor.
  - apply Forall_fmap, Forall_forall. intros r Hr. destruct (group_perms_ok inputs r Hok Hr) as (H1 & _ & H2).
    apply no_break_group; [apply H1|]. eapply Forall_impl; [done|]. intros p Hp. apply Hp.
  - by case_match; constructor.
  - by case_match; constructor.
  - apply Forall_fmap, Forall_forall. intros a Ha. destruct (valid_admin_ok inputs a Hok Ha) as [H1 H2].
    simpl. destruct (admin_line_shape a) as (tail & -> & _ & Ht). rewrite !no_break_app.
    split; [done|]. split; [apply H1|]. split; [done|]. split; [apply H2|done].
  - apply Forall_fmap, Forall_forall. intros e He. simpl. unfold clan_line. rewrite !no_break_app.
    unfold clan_admins in He. rewrite elem_of_jsort in He. destruct Hok as (_ & _ & Hc).
    split; [done|]. split; [apply (Hc e He)|]. do 3 (split; [done|]). apply comment_clean.
  - by constructor.
Qed.

Lemma omap_read {A B C} (line : A → jstr) (val : A → B) (rd : jstr → option C) (inj : B → option C) (l : list A) :
  (∀ x, x ∈ l → rd (line x) = inj (val x)) → omap rd (line <$> l) = omap (fun x => inj (val x)) l.
Proof.
  induction l as [|x l IH]; intros H; [done|]. rewrite fmap_cons. csimpl. rewrite H by left.
  rewrite IH; [done|]. intros y Hy. apply H. by right.
Qed.

Lemma omap_Some_fmap {A B} (f : A → B) (l : list A) : omap (fun x => Some (f x)) l = f <$> l.
Proof. induction l as [|x l IH]; [done|]. csimpl. by rewrite IH. Qed.
Lemma omap_None {A B} (l : list A) : omap (fun _ => @None B) l = [].
Proof. by induction l. Qed.

Lemma read_segment_lines inputs : inputs_ok inputs →
  omap read_group (segment_lines localeCompare inputs) = groups inputs ∧
  omap read_admin (segment_lines localeCompare inputs) = people inputs.
Proof.
  intros Hok. assert (∀ r, r ∈ roles_with_perms localeCompare inputs →
    read_group (group_line (role_name r) (squadPermissions r)) = Some (role_name r, squadPermissions r) ∧
    read_admin (group_line (role_name r) (squadPermissions r)) = None) as Hg.
  { intros r Hr. destruct (group_perms_ok inputs r Hok Hr) as (H1 & H2 & H3). apply read_group_line; [apply H1|done|].
    eapply Forall_impl; [done|]. intros p Hp. apply Hp. }
  assert (∀ a, a ∈ valid_admins localeCompare inputs →
    read_admin (admin_line a) = Some (a_eosId a, a_roleName a) ∧ read_group (admin_line a) = None) as Ha.
  { intros a Hin. destruct (valid_admin_ok inputs a Hok Hin) as [H1 H2].
    destruct (admin_line_shape a) as (tail & -> & Ht & _). apply read_admin_plain; [apply H1|apply H2|done]. }
  assert (∀ e, e ∈ clan_admins localeCompare inputs →
    read_admin (clan_line e) = Some (cl_eosId e, CLAN_PRIORITY_GROUP_NAME) ∧ read_group (clan_line e) = None) as Hc.
  { intros e He. unfold clan_admins in He. rewrite elem_of_jsort in He. destruct Hok as (_ & _ & Hcl).
    unfold clan_line. apply read_admin_plain; [apply (Hcl e He)|apply (bool_decide_eq_true_1 _); reflexivity|].
    right. by eexists. }
  unfold segment_lines, groups, people. rewrite !omap_app. split.
  - rewrite (omap_read _ (fun r => (role_name r, squadPermissions r)) _ Some) by (intros; by apply Hg).
    rewrite (omap_read admin_line id _ (fun _ => None)) by (intros; by apply Ha).
    rewrite (omap_read clan_line id _ (fun _ => None)) by (intros; by apply Hc).
    rewrite !omap_None, omap_Some_fmap. destruct (emit_clan_group _ _), (_ && _); simpl; by rewrite ?app_nil_r.
  - rewrite (omap_read _ id _ (fun _ => None)) by (intros; by apply Hg).
    rewrite (omap_read admin_line (fun a => (a_eosId a, a_roleName a)) _ Some) by (intros; by apply Ha).
    rewrite (omap_read clan_line (fun e => (cl_eosId e, CLAN_PRIORITY_GROUP_NAME)) _ Some) by (intros; by apply Hc).
    rewrite !omap_None, !omap_Some_fmap. destruct (emit_clan_group _ _), (_ && _); simpl; by rewrite ?app_nil_r.
Qed.
End ReadBack.

(** * The properties *)

(** Splicing a generated segment into any file puts exactly that segment
    between the text that was around the old one (or before the untouched
    file), where the next run finds it again; so a later segment replaces it
    completely, whatever was written in between, and nothing outside the
    markers changes. *)
Theorem splice_replaces localeCompare content inputs1 inputs2 :
  inputs_ok inputs1 → inputs_ok inputs2 →
  let b1 := body (buildManagedSegmentBody localeCompare inputs1) in
  let b2 := body (buildManagedSegmentBody localeCompare inputs2) in
  let '(before, after) := outside content in
  spliceManagedSegment content b1 = before ++ b1 ++ after ∧
  findManagedSegment (spliceManagedSegment content b1)
    = Some (mkLocated b1 (length before) (length before + length b1)) ∧
  spliceManagedSegment (spliceManagedSegment content b1) b2 = spliceManagedSegment content b2.
Proof.
  intros H1 H2. apply (buildManagedSegmentBody_segment localeCompare) in H1, H2.
  pose proof (spliceManagedSegment_eq content) as He. pose proof (outside_free content) as Hf.
  pose proof (outside_spliced content _ H1) as Ho. cbv zeta.
  rewrite (spliceManagedSegment_eq (spliceManagedSegment content _)), Ho, !He.
  destruct (outside content) as [before after]. cbn [fst snd] in *. split; [done|]. split; [|done].
  by apply find_spliced.
Qed.

(** C35: read back line by line, the generated segment grants exactly what the
    inputs say: one group per role that has permissions and a safe name, with
    its permissions sorted, the clan group when needed, and one admin line per
    assignment to such a role and per clan member; no comment, clan name or
    role name can add, split or cut a line. *)
Theorem segment_reads_back localeCompare inputs :
  inputs_ok inputs →
  let b := body (buildManagedSegmentBody localeCompare inputs) in
  omap read_group (split_lines b) = groups localeCompare inputs ∧
  omap read_admin (split_lines b) = people localeCompare inputs ∧
  (∀ eos name, (eos, name) ∈ people localeCompare inputs → name ∈ (groups localeCompare inputs).*1) ∧
  groupsCount (buildManagedSegmentBody localeCompare inputs) = Z.of_nat (length (groups localeCompare inputs)) ∧
  adminsCount (buildManagedSegmentBody localeCompare inputs) = Z.of_nat (length (people localeCompare inputs)).
Proof.
  intros Hok. cbv zeta. unfold buildManagedSegmentBody. cbn [body groupsCount adminsCount].
  unfold SEGMENT_NEWLINE. rewrite split_lines_join.
  2:{ unfold segment_lines. done. }
  2:{ eapply Forall_impl; [by apply segment_lines_clean|]. apply no_break_line. }
  destruct (read_segment_lines localeCompare inputs Hok) as [-> ->]. split; [done|]. split; [done|].
  unfold people, groups. rewrite !length_app, !length_fmap. split; [|split; [destruct (emit_clan_group _ _); simpl; lia|lia]].
  intros eos name [H|H]%elem_of_app; apply list_elem_of_fmap in H as (x & [= -> ->] & Hx); rewrite fmap_app; apply elem_of_app.
  - left. unfold valid_admins in Hx. rewrite elem_of_jsort in Hx. apply elem_of_jfilter in Hx as [Hv _]. bool_to_Prop.
    by rewrite <-list_fmap_compose.
  - unfold emit_clan_group. unfold clan_admins in Hx. rewrite elem_of_jsort in Hx.
    destruct (clan_entries inputs) as [|e es]; [by apply not_elem_of_nil in Hx|]. cbn [length Nat.ltb Nat.leb andb].
    case_bool_decide as Hin; simpl; [left; by rewrite <-list_fmap_compose|right; by left].
Qed.

(** The laws of a collation under which equal-ranked strings are equal. *)
Class Collation (cmp : jstr → jstr → Z) : Prop := {
  collation_sign x y : Z.sgn (cmp y x) = - Z.sgn (cmp x y);
  collation_trans x y z : cmp_le cmp x y → cmp_le cmp y z → cmp_le cmp x z;
  collation_eq x y : cmp x y = 0 → x = y;
}.

#[export] Instance str_cmp_collation : Collation str_cmp.
Proof.
  split.
  - intros x y. unfold str_cmp. destruct (str_lt x y) eqn:E1, (str_lt y x) eqn:E2; try done.
    pose proof (str_lt_trans _ _ _ E1 E2) as H. by rewrite str_lt_irrefl in H.
  - apply str_cmp_trans.
  - intros x y. unfold str_cmp. destruct (str_lt x y) eqn:E1; [done|].
    destruct (str_lt y x) eqn:E2; [done|]. intros _. by apply str_lt_total.
Qed.

Section Deterministic.
Context (localeCompare : jstr → jstr → Z) `{!Collation localeCompare}.

Lemma collation_total x y : cmp_le localeCompare x y ∨ cmp_le localeCompare y x.
Proof. unfold cmp_le. pose proof (collation_sign x y). lia. Qed.
Lemma collation_antisym x y : cmp_le localeCompare x y → cmp_le localeCompare y x → x = y.
Proof. unfold cmp_le. pose proof (collation_sign x y). intros. apply (collation_eq x y). lia. Qed.

Lemma admin_cmp_le x y : cmp_le (admin_cmp localeCompare) x y ↔
  localeCompare (a_roleName x) (a_roleName y) < 0 ∨
  (a_roleName x = a_roleName y ∧ cmp_le localeCompare (a_eosId x) (a_eosId y)).
Proof.
  unfold cmp_le at 1, admin_cmp. cbv zeta. destruct (_ =? 0) eqn:E; bool_to_Prop; simpl.
  - rewrite E. apply collation_eq in E. unfold cmp_le. split; [by right|]. intros [H|[_ H]]; [lia|done].
  - split; [intros; left; lia|]. intros [H|[H _]]; [lia|]. rewrite H in E.
    pose proof (collation_sign (a_roleName y) (a_roleName y)). lia.
Qed.

Lemma admin_cmp_total x y : cmp_le (admin_cmp localeCompare) x y ∨ cmp_le (admin_cmp localeCompare) y x.
Proof.
  rewrite !admin_cmp_le. pose proof (collation_sign (a_roleName x) (a_roleName y)) as Hs.
  destruct (Z.lt_trichotomy (localeCompare (a_roleName x) (a_roleName y)) 0) as [?|[H0|?]]; [by left; left| |right; left; lia].
  apply collation_eq in H0. destruct (collation_total (a_eosId x) (a_eosId y)); [left|right]; right; by split.
Qed.

Lemma admin_cmp_trans x y z : cmp_le (admin_cmp localeCompare) x y → cmp_le (admin_cmp localeCompare) y z →
  cmp_le (admin_cmp localeCompare) x z.
Proof.
  rewrite !admin_cmp_le. intros [H1|[H1 H1']] [H2|[H2 H2']].
  - left. pose proof (collation_trans (a_roleName x) (a_roleName y) (a_roleName z)) as Ht. unfold cmp_le in Ht.
    destruct (decide (localeCompare (a_roleName x) (a_roleName z) = 0)) as [E|]; [|lia].
    apply collation_eq in E. rewrite E in H1. pose proof (collation_sign (a_roleName y) (a_roleName z)). lia.
  - rewrite <-H2. by left.
  - rewrite H1. by left.
  - right. split; [congruence|]. by eapply collation_trans.
Qed.

Lemma admin_cmp_antisym x y : cmp_le (admin_cmp localeCompare) x y → cmp_le (admin_cmp localeCompare) y x →
  a_roleName x = a_roleName y ∧ a_eosId x = a_eosId y.
Proof.
  rewrite !admin_cmp_le. pose proof (collation_sign (a_roleName x) (a_roleName y)).
  intros [H1|[H1 H1']] [H2|[H2 H2']]; [lia| | |].
  - rewrite H2 in H1. pose proof (collation_sign (a_roleName x) (a_roleName x)). lia.
  - rewrite H1 in H2. pose proof (collation_sign (a_roleName y) (a_roleName y)). lia.
  - split; [done|]. by apply collation_antisym.
Qed.

Lemma segment_parts_eq i1 i2 :
  roles i1 ≡ₚ roles i2 → admins i1 ≡ₚ admins i2 → clan_entries i1 ≡ₚ clan_entries i2 →
  NoDup (role_name <$> roles i1) → NoDup ((fun a => (a_roleName a, a_eosId a)) <$> admins i1) →
  NoDup (cl_eosId <$> clan_entries i1) →
  roles_with_perms localeCompare i1 = roles_with_perms localeCompare i2 ∧
  valid_admins localeCompare i1 = valid_admins localeCompare i2 ∧
  clan_admins localeCompare i1 = clan_admins localeCompare i2.
Proof.
  intros Hr Had Hc Hnr Hna Hnc.
  assert (roles_with_perms localeCompare i1 = roles_with_perms localeCompare i2) as Er.
  { unfold roles_with_perms. apply jsort_permutation;
      [intros; apply collation_total|intros x y z; exact (collation_trans (role_name x) (role_name y) (role_name z))| |].
    - intros x y Hx Hy H1 H2. assert (role_name x = role_name y) as Hn by by apply collation_antisym.
      eapply (NoDup_fmap_inj_elem role_name); [|exact Hx|exact Hy|exact Hn].
      rewrite <-list_fmap_compose. eapply sublist_NoDup; [exact Hnr|]. apply fmap_sublist, jfilter_sublist.
    - apply fmap_Permutation. by apply jfilter_perm. }
  split; [done|]. split.
  - unfold valid_admins. rewrite Er. apply jsort_permutation; [apply admin_cmp_total|apply admin_cmp_trans| |by apply jfilter_perm].
    intros x y [_ Hx]%elem_of_jfilter [_ Hy]%elem_of_jfilter H1 H2.
    destruct (admin_cmp_antisym _ _ H1 H2) as [E1 E2].
    eapply (NoDup_fmap_inj_elem (fun a => (a_roleName a, a_eosId a))); [exact Hna|done|done|congruence].
  - unfold clan_admins. apply jsort_permutation;
      [intros; apply collation_total|intros x y z; exact (collation_trans (cl_eosId x) (cl_eosId y) (cl_eosId z))| |done].
    intros x y Hx Hy H1 H2. eapply (NoDup_fmap_inj_elem cl_eosId); [exact Hnc|done|done|by apply collation_antisym].
Qed.
End Deterministic.

(** The body, and with it the hash the worker compares, does not depend on
    the order in which the database returns roles, assignments and clan
    members. *)
Theorem segment_deterministic localeCompare `{!Collation localeCompare} i1 i2 :
  roles i1 ≡ₚ roles i2 → admins i1 ≡ₚ admins i2 → clan_entries i1 ≡ₚ clan_entries i2 →
  NoDup (role_name <$> roles i1) → NoDup ((fun a => (a_roleName a, a_eosId a)) <$> admins i1) →
  NoDup (cl_eosId <$> clan_entries i1) →
  buildManagedSegmentBody localeCompare i1 = buildManagedSegmentBody localeCompare i2.
Proof.
  intros Hr Ha Hc Hnr Hna Hnc.
  destruct (segment_parts_eq localeCompare i1 i2 Hr Ha Hc Hnr Hna Hnc) as (E1 & E2 & E3).
  assert (emit_clan_group localeCompare i1 = emit_clan_group localeCompare i2) as E4.
  { unfold emit_clan_group. rewrite E1. by rewrite Hc. }
  unfold buildManagedSegmentBody, segment_lines. by rewrite E1, E2, E3, E4.
Qed.

(** ** Concrete inputs *)

Definition ex_inputs : SegmentInputs :=
  mkInputs [mkRole (js "Mod") [js "kick"; js "ban"]; mkRole (js "Viewer") []; mkRole (js "a:b") [js "kick"]]
    [mkAdmin (js "e2") (js "Mod") (Some (js "night //SQUAD-PANEL END shift")); mkAdmin (js "e1") (js "Viewer") None]
    (Some [mkClan (js "e3") (js "[XX]")]).

Lemma ex_inputs_ok : inputs_ok ex_inputs.
Proof.
  assert (∀ s, bool_decide (47 ∉ s) && bool_decide (58 ∉ s) && bool_decide (44 ∉ s) && negb (existsb is_break s) = true →
    plain_text s) as H.
  { intros s H. bool_to_Prop. done. }
  split; [|split].
  - intros r p Hr Hp. apply H. repeat (apply elem_of_cons in Hr as [->|Hr]; [|try by apply not_elem_of_nil in Hr]);
      simpl in Hp; repeat (apply elem_of_cons in Hp as [->|Hp]; [reflexivity|]); by apply not_elem_of_nil in Hp.
  - intros a Ha. apply H. repeat (apply elem_of_cons in Ha as [->|Ha]; [reflexivity|]). by apply not_elem_of_nil in Ha.
  - intros e He. apply H. repeat (apply elem_of_cons in He as [->|He]; [reflexivity|]). by apply not_elem_of_nil in He.
Qed.

Lemma splice_replaces_witness :
  let b := body (buildManagedSegmentBody str_cmp ex_inputs) in
  spliceManagedSegment (spliceManagedSegment (js "Group=Old:ban") b) b = spliceManagedSegment (js "Group=Old:ban") b.
Proof.
  pose proof (splice_replaces str_cmp (js "Group=Old:ban") ex_inputs ex_inputs ex_inputs_ok ex_inputs_ok) as H.
  cbv zeta in *. destruct (outside (js "Group=Old:ban")). apply H.
Defined.

Lemma segment_reads_back_witness :
  omap read_admin (split_lines (body (buildManagedSegmentBody str_cmp ex_inputs)))
    = [(js "e2", js "Mod"); (js "e3", js "ClanPriority")].
Proof.
  destruct (segment_reads_back str_cmp ex_inputs ex_inputs_ok) as (_ & H & _). rewrite H. reflexivity.
Defined.

Lemma segment_deterministic_witness :
  buildManagedSegmentBody str_cmp (mkInputs (reverse (roles ex_inputs)) (admins ex_inputs) (clanPriority ex_inputs))
    = buildManagedSegmentBody str_cmp ex_inputs.
Proof.
  apply (segment_deterministic str_cmp); try done; [apply reverse_Permutation|..];
    apply (bool_decide_eq_true_1 _); vm_compute; reflexivity.
Defined.
