(* ===== verification/Rbac.v ===== *)
(** [packages/shared-config/src/permissions.ts], [squad-permissions.ts] and
    [apps/api/src/lib/rbac.ts]: the permission catalogue, the derivation of a
    role's permission context, the comparison behind the role hierarchy, API
    token narrowing and the permission cache. Sets of keys are lists without
    repetition, in insertion order. *)
From S2P Require Import Prelude JsString JsMap.

(** * The catalogue (labels left out) *)

Inductive PermissionCategory :=
| cat_servers
| cat_configs
| cat_players
| cat_moderation
| cat_admin_groups
| cat_whitelist
| cat_host
| cat_audit
| cat_events
| cat_users
| cat_roles
| cat_backup
| cat_api_tokens
| cat_discord
| cat_triggers
| cat_scheduler
| cat_balancer
| cat_issues.

Record PermissionDef := mkPerm {
  key : jstr; category : PermissionCategory; dangerous : bool; unimplemented : bool }.

Definition PERMISSIONS : list PermissionDef :=
  [mkPerm (js "server:view") cat_servers false false;
   mkPerm (js "server:install") cat_servers true false;
   mkPerm (js "server:start") cat_servers false false;
   mkPerm (js "server:stop") cat_servers false false;
   mkPerm (js "server:force_stop") cat_servers true false;
   mkPerm (js "server:restart") cat_servers false false;
   mkPerm (js "server:delete") cat_servers true false;
   mkPerm (js "server:edit_settings") cat_servers false false;
   mkPerm (js "server:update") cat_servers true false;
   mkPerm (js "server:download_logs") cat_servers false false;
   mkPerm (js "config:view") cat_configs false false;
   mkPerm (js "config:edit") cat_configs true false;
   mkPerm (js "config:rollback") cat_configs true false;
   mkPerm (js "player:view") cat_players false false;
   mkPerm (js "player:view_ips") cat_players false false;
   mkPerm (js "player:manage_alt_detection") cat_players true false;
   mkPerm (js "player:view_notes") cat_players false true;
   mkPerm (js "player:edit_notes") cat_players false true;
   mkPerm (js "player:set_flags") cat_players false false;
   mkPerm (js "mod:kick") cat_moderation true false;
   mkPerm (js "mod:warn") cat_moderation false false;
   mkPerm (js "mod:ban_temp") cat_moderation true false;
   mkPerm (js "mod:ban_perm") cat_moderation true false;
   mkPerm (js "mod:unban") cat_moderation false false;
   mkPerm (js "ban_source:view") cat_moderation false false;
   mkPerm (js "message_template:manage") cat_moderation false false;
   mkPerm (js "banlist:read") cat_moderation false false;
   mkPerm (js "admin_group:view") cat_admin_groups false false;
   mkPerm (js "admin_group:edit") cat_admin_groups true false;
   mkPerm (js "whitelist:view") cat_whitelist false false;
   mkPerm (js "whitelist:edit") cat_whitelist false false;
   mkPerm (js "host:view") cat_host false false;
   mkPerm (js "host:metrics") cat_host false false;
   mkPerm (js "host:manage") cat_host true false;
   mkPerm (js "audit:view") cat_audit false false;
   mkPerm (js "audit:export") cat_audit false true;
   mkPerm (js "events:view") cat_events false false;
   mkPerm (js "user:view") cat_users false false;
   mkPerm (js "user:manage_roles") cat_users true false;
   mkPerm (js "role:view") cat_roles false false;
   mkPerm (js "role:create") cat_roles false false;
   mkPerm (js "role:edit") cat_roles false false;
   mkPerm (js "role:delete") cat_roles true false;
   mkPerm (js "backup:view") cat_backup false true;
   mkPerm (js "backup:trigger") cat_backup false true;
   mkPerm (js "backup:restore") cat_backup true true;
   mkPerm (js "api_token:create") cat_api_tokens true false;
   mkPerm (js "api_token:revoke") cat_api_tokens false false;
   mkPerm (js "discord:link") cat_discord false true;
   mkPerm (js "integration:manage") cat_discord true false;
   mkPerm (js "trigger:view") cat_triggers false false;
   mkPerm (js "trigger:edit") cat_triggers true false;
   mkPerm (js "scheduler:view") cat_scheduler false true;
   mkPerm (js "scheduler:edit") cat_scheduler false true;
   mkPerm (js "balancer:view") cat_balancer false false;
   mkPerm (js "balancer:edit") cat_balancer false false;
   mkPerm (js "issue:view") cat_issues false false].

Definition PERMISSION_KEYS : list jstr := key <$> PERMISSIONS.
Definition isPermissionKey (x : jstr) : bool := bool_decide (x ∈ PERMISSION_KEYS).

Record SquadPermissionDef := mkSquadPerm { sp_key : jstr; sp_dangerous : bool }.
Definition SQUAD_PERMISSIONS : list SquadPermissionDef :=
  [mkSquadPerm (js "startvote") false;
   mkSquadPerm (js "changemap") true;
   mkSquadPerm (js "pause") false;
   mkSquadPerm (js "cheat") false;
   mkSquadPerm (js "private") false;
   mkSquadPerm (js "balance") false;
   mkSquadPerm (js "chat") false;
   mkSquadPerm (js "kick") true;
   mkSquadPerm (js "ban") true;
   mkSquadPerm (js "config") false;
   mkSquadPerm (js "cameraman") false;
   mkSquadPerm (js "immune") false;
   mkSquadPerm (js "manageserver") true;
   mkSquadPerm (js "featuretest") false;
   mkSquadPerm (js "reserve") false;
   mkSquadPerm (js "demos") false;
   mkSquadPerm (js "clientdemos") false;
   mkSquadPerm (js "debug") false;
   mkSquadPerm (js "teamchange") false;
   mkSquadPerm (js "forceteamchange") false;
   mkSquadPerm (js "canseeadminchat") false].
Definition SQUAD_PERMISSION_KEYS : list jstr := sp_key <$> SQUAD_PERMISSIONS.
Definition isSquadPermissionKey (x : jstr) : bool := bool_decide (x ∈ SQUAD_PERMISSION_KEYS).
Definition DANGEROUS_SQUAD_PERMISSIONS : list jstr := sp_key <$> jfilter sp_dangerous SQUAD_PERMISSIONS.
Definition isDangerousSquadPermission (k : jstr) : bool := bool_decide (k ∈ DANGEROUS_SQUAD_PERMISSIONS).

(** * Contexts *)

Record PermissionContext := mkContext {
  permissions : list jstr;
  squadPermissions : list jstr;
  roleId : option jstr;
  roleName : option jstr;
  panelAccess : bool;
  canViewIps : bool;
  canAssignRoles : bool;
  canEditRoles : bool;
  canManageIssues : bool;
  canManageBanSources : bool;
  canManageIntegrations : bool;
  canManageClans : bool;
  canManageEconomy : bool;
  canManageMedia : bool;
  canHandleReports : bool;
  combatView : bool;
  isOwner : bool;
}.

Definition keys (l : list string) : list jstr := js <$> l.
Definition PANEL_PERMS_GATED_BY_ASSIGN := keys ["user:manage_roles"]%string.
Definition PANEL_PERMS_GATED_BY_EDIT := keys ["role:create"; "role:edit"; "role:delete"]%string.
Definition PANEL_PERMS_GATED_BY_TRIGGER_EDIT := keys ["trigger:edit"]%string.
Definition PANEL_PERMS_GATED_BY_EDIT_OR_GRANT := keys ["message_template:manage"]%string.
Definition PANEL_PERMS_GATED_BY_INTEGRATIONS := keys ["integration:manage"]%string.
Definition PANEL_PERMS_GATED_BY_VIEW_IPS := keys ["player:view_ips"]%string.
Definition PANEL_PERMS_GATED_BY_VIEW_IPS_AND_EDIT := keys ["player:manage_alt_detection"]%string.
Definition PANEL_PERMS_GATED_BY_SQUAD_KICK := keys ["mod:kick"; "mod:warn"]%string.
Definition PANEL_PERMS_GATED_BY_SQUAD_BAN := keys ["mod:ban_temp"; "mod:ban_perm"; "mod:unban"]%string.
Definition PANEL_PERMS_GATED_BY_INFRASTRUCTURE :=
  keys ["host:manage"; "server:install"; "server:delete"; "server:force_stop"; "server:update"; "config:edit";
        "config:rollback"; "admin_group:edit"; "api_token:create"; "backup:restore"]%string.
Definition PANEL_PERMS_WITH_FLAG_GATE : list jstr :=
  PANEL_PERMS_GATED_BY_ASSIGN ++ PANEL_PERMS_GATED_BY_EDIT ++ PANEL_PERMS_GATED_BY_TRIGGER_EDIT
  ++ PANEL_PERMS_GATED_BY_EDIT_OR_GRANT ++ PANEL_PERMS_GATED_BY_INTEGRATIONS ++ PANEL_PERMS_GATED_BY_VIEW_IPS
  ++ PANEL_PERMS_GATED_BY_VIEW_IPS_AND_EDIT ++ PANEL_PERMS_GATED_BY_SQUAD_KICK ++ PANEL_PERMS_GATED_BY_SQUAD_BAN
  ++ PANEL_PERMS_GATED_BY_INFRASTRUCTURE.
Definition EXPLICITLY_GRANTABLE_GATED_KEYS : list jstr :=
  PANEL_PERMS_GATED_BY_TRIGGER_EDIT ++ PANEL_PERMS_GATED_BY_EDIT_OR_GRANT.

Record RoleFlagGates := mkGates {
  g_canAssignRoles : bool; g_canEditRoles : bool; g_canManageIntegrations : bool; g_canViewIps : bool;
  g_canManageInfrastructure : bool; g_squadPermissions : list jstr }.

Definition has (l : list jstr) (k : jstr) : bool := bool_decide (k ∈ l).
Definition add_key (l : list jstr) (k : jstr) : list jstr := if has l k then l else l ++ [k].

Definition keyPassesFlagGates (k : jstr) (flags : RoleFlagGates) : bool :=
  if has PANEL_PERMS_GATED_BY_ASSIGN k && negb (g_canAssignRoles flags) then false
  else if has PANEL_PERMS_GATED_BY_EDIT k && negb (g_canEditRoles flags) then false
  else if has PANEL_PERMS_GATED_BY_TRIGGER_EDIT k && negb (g_canEditRoles flags) then false
  else if has PANEL_PERMS_GATED_BY_EDIT_OR_GRANT k && negb (g_canEditRoles flags) then false
  else if has PANEL_PERMS_GATED_BY_INTEGRATIONS k && negb (g_canManageIntegrations flags) then false
  else if has PANEL_PERMS_GATED_BY_VIEW_IPS k && negb (g_canViewIps flags) then false
  else if has PANEL_PERMS_GATED_BY_VIEW_IPS_AND_EDIT k && negb (g_canViewIps flags && g_canEditRoles flags) then false
  else if has PANEL_PERMS_GATED_BY_SQUAD_KICK k && negb (has (g_squadPermissions flags) (js "kick")) then false
  else if has PANEL_PERMS_GATED_BY_SQUAD_BAN k && negb (has (g_squadPermissions flags) (js "ban")) then false
  else if has PANEL_PERMS_GATED_BY_INFRASTRUCTURE k && negb (g_canManageInfrastructure flags) then false
  else true.

Definition derivePanelPermissions (panel owner : bool) (flags : RoleFlagGates) : list jstr :=
  if owner then PERMISSION_KEYS
  else if negb panel then []
  else jfilter (fun k => keyPassesFlagGates k flags) PERMISSION_KEYS.

Record RoleGrantDefinition := mkRoleDef {
  rd_name : jstr;
  rd_isSystemRole : bool;
  rd_panelAccess : bool;
  rd_canViewIps : bool;
  rd_canAssignRoles : bool;
  rd_canEditRoles : bool;
  rd_canManageIssues : bool;
  rd_canManageBanSources : bool;
  rd_canManageIntegrations : bool;
  rd_canManageClans : bool;
  rd_canManageEconomy : bool;
  rd_canManageMedia : bool;
  rd_canHandleReports : bool;
  rd_canManageInfrastructure : bool;
  rd_combatView : bool;
  rd_squadPermissions : list jstr;
}.

(** [role.name === 'Owner' && role.isSystemRole]. *)
Definition is_owner_role (role : RoleGrantDefinition) : bool :=
  bool_decide (rd_name role = js "Owner") && rd_isSystemRole role.

Definition role_squad_permissions (role : RoleGrantDefinition) : list jstr :=
  if is_owner_role role then SQUAD_PERMISSION_KEYS
  else foldl add_key [] (jfilter (fun k => negb (bool_decide (k = []))) (rd_squadPermissions role)).

Definition role_flags (role : RoleGrantDefinition) : RoleFlagGates :=
  let owner := is_owner_role role in
  mkGates (owner || rd_canAssignRoles role) (owner || rd_canEditRoles role)
    (owner || rd_canManageIntegrations role) (owner || rd_canViewIps role)
    (owner || rd_canManageInfrastructure role) (role_squad_permissions role).

(** An explicit row counts when its key is known and passes the gates, or is one
    of the two grantable keys. *)
Definition explicit_counts (flags : RoleFlagGates) (k : jstr) : bool :=
  isPermissionKey k && (has EXPLICITLY_GRANTABLE_GATED_KEYS k || keyPassesFlagGates k flags).

Definition role_panel_permissions (role : RoleGrantDefinition) (explicitKeys : list jstr) : list jstr :=
  let owner := is_owner_role role in
  foldl (fun acc k => if explicit_counts (role_flags role) k then add_key acc k else acc)
    (derivePanelPermissions (owner || rd_panelAccess role) owner (role_flags role)) explicitKeys.

Definition buildRolePermissionContext (id : jstr) (role : RoleGrantDefinition) (explicitKeys : list jstr)
    : PermissionContext :=
  let owner := is_owner_role role in
  let panel := owner || rd_panelAccess role in
  mkContext (role_panel_permissions role explicitKeys) (role_squad_permissions role)
    (Some id) (Some (rd_name role)) panel
    (owner || rd_canViewIps role) (owner || rd_canAssignRoles role) (owner || rd_canEditRoles role)
    (owner || rd_canManageIssues role) (owner || (panel && rd_canManageBanSources role))
    (owner || rd_canManageIntegrations role) (owner || rd_canManageClans role)
    (owner || (panel && rd_canManageEconomy role)) (owner || (panel && rd_canManageMedia role))
    (owner || rd_canHandleReports role) (owner || (panel && rd_combatView role)) owner.

(** The context of a player without a live role. *)
Definition empty_context : PermissionContext :=
  mkContext [] [] None None false false false false false false false false false false false false false.

(** * The role hierarchy *)

Definition HIERARCHY_FLAGS : list ((PermissionContext → bool) * jstr) :=
  [(isOwner, js "owner"); (panelAccess, js "panel_access"); (canViewIps, js "can_view_ips");
   (canAssignRoles, js "can_assign_roles"); (canEditRoles, js "can_edit_roles");
   (canManageIssues, js "can_manage_issues"); (canManageBanSources, js "can_manage_ban_sources");
   (canManageIntegrations, js "can_manage_integrations"); (canManageClans, js "can_manage_clans");
   (canManageEconomy, js "can_manage_economy"); (canManageMedia, js "can_manage_media");
   (canHandleReports, js "can_handle_reports"); (combatView, js "combat_view")].

Definition grantsBeyond (actor target : PermissionContext) : list jstr :=
  (snd <$> jfilter (fun fl : (PermissionContext → bool) * jstr => fl.1 target && negb (fl.1 actor)) HIERARCHY_FLAGS)
  ++ ((fun k => js "permission:" ++ k) <$> jfilter (fun k => negb (has (permissions actor) k)) (permissions target))
  ++ ((fun k => js "squad:" ++ k) <$> jfilter (fun k => negb (has (squadPermissions actor) k)) (squadPermissions target)).

(** * API tokens *)

(** [intersectScopes] of [api-tokens.ts]. *)
Definition intersectScopes (scopes granted : list jstr) : list jstr :=
  foldl (fun out k => if isPermissionKey k && has granted k then add_key out k else out) [] scopes.

Definition narrowToTokenScopes (role : PermissionContext) (scopes : list jstr) : PermissionContext :=
  let perms := intersectScopes scopes (permissions role) in
  let delegates ks := forallb (has perms) ks in
  let kick := if has (squadPermissions role) (js "kick") && delegates PANEL_PERMS_GATED_BY_SQUAD_KICK
              then [js "kick"] else [] in
  let ban := if has (squadPermissions role) (js "ban") && delegates PANEL_PERMS_GATED_BY_SQUAD_BAN
             then [js "ban"] else [] in
  mkContext perms (kick ++ ban) (roleId role) (roleName role)
    (panelAccess role && (0 <? length perms)%nat)
    (canViewIps role && delegates PANEL_PERMS_GATED_BY_VIEW_IPS)
    (canAssignRoles role && delegates PANEL_PERMS_GATED_BY_ASSIGN)
    (canEditRoles role && delegates PANEL_PERMS_GATED_BY_EDIT)
    false false (canManageIntegrations role && delegates PANEL_PERMS_GATED_BY_INTEGRATIONS)
    false false false false false false.

(** * The permission cache *)

Definition TTL_MS : Z := 30000.
Definition PERMISSION_CACHE_MAX_ENTRIES : nat := 5000.

Record CacheEntry := mkEntry { value : PermissionContext; expiresAt : Z }.
Abbreviation cache := (list (jstr * CacheEntry)).

(** The sweep from the oldest entry, stopping at the first live one once there
    is room. *)
Fixpoint sweep (now : Z) (c : cache) : cache :=
  match c with
  | [] => []
  | (k, e) :: c' =>
      if (now <? expiresAt e) && (length c <? PERMISSION_CACHE_MAX_ENTRIES)%nat then c else sweep now c'
  end.

Definition cachePermissions (now : Z) (c : cache) (playerId : jstr) (v : PermissionContext) : cache :=
  map_set (sweep now (map_delete c playerId)) playerId (mkEntry v (now + TTL_MS)).

(** The context of the joined row of [players] and [roles] with the role's
    explicit keys; [None] when the player has no live role. *)
Definition row_context (row : option (jstr * RoleGrantDefinition * list jstr)) : PermissionContext :=
  match row with
  | None => empty_context
  | Some (role_id, role, explicit) => buildRolePermissionContext role_id role explicit
  end.

(** [loadUserPermissions] up to its query, and from the answer on; [None] is a
    miss. Other requests run between the two. *)
Definition load_begin (now : Z) (c : cache) (playerId : jstr) : cache * option PermissionContext :=
  match map_get c playerId with
  | Some hit => if now <? expiresAt hit then (c, Some (value hit)) else (map_delete c playerId, None)
  | None => (c, None)
  end.
Definition load_finish (now : Z) (c : cache) (playerId : jstr) (row : option (jstr * RoleGrantDefinition * list jstr))
    : cache * PermissionContext :=
  let v := row_context row in (cachePermissions now c playerId v, v).

Definition loadUserPermissions (now stored : Z) (c : cache) (playerId : jstr)
    (row : option (jstr * RoleGrantDefinition * list jstr)) : cache * PermissionContext :=
  match load_begin now c playerId with
  | (c', Some v) => (c', v)
  | (c', None) => load_finish stored c' playerId row
  end.

Definition invalidatePermissionCache (c : cache) (playerId : jstr) : cache := map_delete c playerId.
Definition invalidatePermissionCacheForRole (c : cache) (holders : list jstr) : cache := foldl map_delete c holders.
Definition invalidateAllPermissionCaches (c : cache) : cache := [].

(** * Capabilities *)

(** What a context can hold: a flag of the hierarchy, a panel key, a Squad key. *)
Inductive capability := CapFlag (i : nat) | CapPerm (k : jstr) | CapSquad (k : jstr).

Definition holds (ctx : PermissionContext) (c : capability) : Prop :=
  match c with
  | CapFlag i => ∃ fl, HIERARCHY_FLAGS !! i = Some fl ∧ fl.1 ctx = true
  | CapPerm k => k ∈ permissions ctx
  | CapSquad k => k ∈ squadPermissions ctx
  end.

Definition within (target actor : PermissionContext) : Prop := ∀ c, holds target c → holds actor c.

Lemma has_true l k : has l k = true ↔ k ∈ l.
Proof. unfold has. apply bool_decide_eq_true. Qed.

Lemma fmap_nil_iff {A B} (f : A → B) (l : list A) : f <$> l = [] ↔ l = [].
Proof. split; [apply fmap_nil_inv|by intros ->]. Qed.

Lemma jfilter_nil {A} (f : A → bool) (l : list A) : jfilter f l = [] ↔ ∀ x, x ∈ l → f x = false.
Proof.
  split; [|apply jfilter_none]. intros H x Hx. apply not_true_is_false. intros Hf.
  assert (x ∈ jfilter f l) as Hin by by apply elem_of_jfilter. rewrite H in Hin. by apply not_elem_of_nil in Hin.
Qed.

Lemma grantsBeyond_nil actor target : grantsBeyond actor target = [] ↔ within target actor.
Proof.
  unfold grantsBeyond, within. split.
  - intros [H1 [H2 H3]%app_eq_nil]%app_eq_nil. apply fmap_nil_inv in H1, H2, H3. 
    rewrite jfilter_nil in H1. rewrite jfilter_nil in H2. rewrite jfilter_nil in H3.
    intros [i|k|k]; cbn [holds].
    + intros (fl & Hi & Ht). exists fl. split; [done|]. specialize (H1 fl (list_elem_of_lookup_2 _ _ _ Hi)).
      rewrite Ht in H1. by apply negb_false_iff in H1.
    + intros Hk. specialize (H2 k Hk). apply negb_false_iff, has_true in H2. done.
    + intros Hk. specialize (H3 k Hk). apply negb_false_iff, has_true in H3. done.
  - intros H. rewrite !(proj2 (jfilter_nil _ _)); [done|..].
    + intros k Hk. apply negb_false_iff, has_true, (H (CapSquad k) Hk).
    + intros k Hk. apply negb_false_iff, has_true, (H (CapPerm k) Hk).
    + intros fl [i Hi]%list_elem_of_lookup. destruct (fl.1 target) eqn:E; [|done].
      destruct (H (CapFlag i)) as (fl' & Hi' & Ha); [by exists fl|]. simplify_eq. by rewrite Ha.
Qed.

Lemma within_refl ctx : within ctx ctx.
Proof. by intros c. Qed.
Lemma within_trans a b c : within a b → within b c → within a c.
Proof. unfold within. eauto. Qed.

Lemma not_owner_within actor target : isOwner actor = false → within target actor → isOwner target = false.
Proof.
  intros Ha Hw. apply not_true_is_false. intros Ht.
  destruct (Hw (CapFlag 0)) as (fl & Hfl & H); [by eexists|]. simplify_eq/=. congruence.
Qed.

(** * Token narrowing *)

Lemma elem_of_add_key l k x : x ∈ add_key l k ↔ x ∈ l ∨ x = k.
Proof.
  unfold add_key. destruct (has l k) eqn:E; [apply has_true in E; naive_solver|].
  by rewrite elem_of_app, list_elem_of_singleton.
Qed.

Lemma elem_of_foldl_add (p : jstr → bool) ks acc x :
  x ∈ foldl (fun out k => if p k then add_key out k else out) acc ks ↔ x ∈ acc ∨ (x ∈ ks ∧ p x = true).
Proof.
  revert acc. induction ks as [|k ks IH]; intros acc; cbn [foldl].
  { rewrite elem_of_nil. tauto. }
  rewrite IH, elem_of_cons. destruct (p k) eqn:E; [rewrite elem_of_add_key|]; naive_solver congruence.
Qed.

Lemma elem_of_intersectScopes scopes granted k :
  k ∈ intersectScopes scopes granted ↔ k ∈ scopes ∧ isPermissionKey k = true ∧ k ∈ granted.
Proof. unfold intersectScopes. rewrite elem_of_foldl_add, andb_true_iff, has_true, elem_of_nil. tauto. Qed.

Lemma token_within role scopes : within (narrowToTokenScopes role scopes) role.
Proof.
  intros [i|k|k]; cbn [holds].
  - intros (fl & Hi & Ht). exists fl. split; [done|].
    do 13 (destruct i as [|i]; [injection Hi as <-; cbn [fst] in *; try discriminate Ht; simpl in Ht; bool_to_Prop; done|]).
    discriminate Hi.
  - intros (_ & _ & H)%elem_of_intersectScopes. done.
  - cbn [squadPermissions narrowToTokenScopes]. intros [H|H]%elem_of_app.
    + destruct (has (squadPermissions role) (js "kick")) eqn:E; [|by apply not_elem_of_nil in H].
      destruct (forallb _ _); [|by apply not_elem_of_nil in H]. apply list_elem_of_singleton in H as ->. by apply has_true.
    + destruct (has (squadPermissions role) (js "ban")) eqn:E; [|by apply not_elem_of_nil in H].
      destruct (forallb _ _); [|by apply not_elem_of_nil in H]. apply list_elem_of_singleton in H as ->. by apply has_true.
Qed.

(** An API token never holds more than its owner's role: every flag, key
    and Squad permission of the narrowed context is one of the role's, every
    key is also one of the token's scopes, and no token is an Owner. *)
Theorem token_narrows role scopes :
  let token := narrowToTokenScopes role scopes in
  within token role ∧ isOwner token = false ∧
  (∀ k, k ∈ permissions token ↔ k ∈ scopes ∧ isPermissionKey k = true ∧ k ∈ permissions role) ∧
  (scopes = [] → ∀ c, ¬ holds token c).
Proof.
  cbv zeta. split; [apply token_within|split; [done|split; [intros k; apply elem_of_intersectScopes|]]].
  intros -> [i|k|k]; cbn [holds].
  - intros (fl & Hi & Ht).
    do 13 (destruct i as [|i]; [injection Hi as <-; cbn [fst narrowToTokenScopes isOwner panelAccess canViewIps
      canAssignRoles canEditRoles canManageIssues canManageBanSources canManageIntegrations canManageClans
      canManageEconomy canManageMedia canHandleReports combatView] in Ht; try discriminate Ht; by rewrite andb_false_r in Ht|]).
    discriminate Hi.
  - by intros (H & _)%elem_of_intersectScopes; apply not_elem_of_nil in H.
  - cbn [squadPermissions narrowToTokenScopes]. cbn. rewrite !andb_false_r. apply not_elem_of_nil.
Qed.

(** * Dangerous keys *)

Lemma gated_key_blocked k flags :
  g_canAssignRoles flags = false → g_canEditRoles flags = false → g_canManageIntegrations flags = false →
  g_canViewIps flags = false → g_canManageInfrastructure flags = false →
  js "kick" ∉ g_squadPermissions flags → js "ban" ∉ g_squadPermissions flags →
  k ∈ PANEL_PERMS_WITH_FLAG_GATE → keyPassesFlagGates k flags = false.
Proof.
  intros H1 H2 H3 H4 H5 Hk%(bool_decide_eq_false_2 _) Hb%(bool_decide_eq_false_2 _) Hin.
  fold (has (g_squadPermissions flags) (js "kick")) in Hk. fold (has (g_squadPermissions flags) (js "ban")) in Hb.
  unfold keyPassesFlagGates. rewrite H1, H2, H3, H4, H5, Hk, Hb. cbn [negb andb]. rewrite !andb_true_r.
  unfold PANEL_PERMS_WITH_FLAG_GATE in Hin. rewrite !elem_of_app, <-!has_true in Hin.
  repeat case_match; try done. repeat (destruct Hin as [Hin|Hin]; [congruence|]). congruence.
Qed.

Lemma dangerous_gated p : p ∈ PERMISSIONS → dangerous p = true → key p ∈ PANEL_PERMS_WITH_FLAG_GATE.
Proof.
  assert (forallb (fun p => negb (dangerous p) || has PANEL_PERMS_WITH_FLAG_GATE (key p)) PERMISSIONS = true) as H
    by (vm_compute; reflexivity).
  rewrite forallb_forall in H. intros Hp%list_elem_of_In Hd. specialize (H p Hp). rewrite Hd in H. by apply has_true.
Qed.

Lemma role_panel_permissions_elem role explicitKeys k :
  k ∈ role_panel_permissions role explicitKeys ↔
  k ∈ derivePanelPermissions (is_owner_role role || rd_panelAccess role) (is_owner_role role) (role_flags role) ∨
  (k ∈ explicitKeys ∧ explicit_counts (role_flags role) k = true).
Proof. unfold role_panel_permissions. apply elem_of_foldl_add. Qed.

Lemma role_squad_permissions_sub role x :
  is_owner_role role = false → x ∈ role_squad_permissions role → x ∈ rd_squadPermissions role.
Proof.
  intros Ho. unfold role_squad_permissions. rewrite Ho.
  pose proof (elem_of_foldl_add (fun _ => true) (jfilter (fun k => negb (bool_decide (k = []))) (rd_squadPermissions role)) [] x) as H.
  cbn in H. rewrite H. intros [?%not_elem_of_nil|[[_ ?]%elem_of_jfilter _]]; done.
Qed.

Lemma derive_unprivileged panel flags k :
  keyPassesFlagGates k flags = false → k ∉ derivePanelPermissions panel false flags.
Proof.
  intros H. unfold derivePanelPermissions. destruct panel; cbn [negb]; [|apply not_elem_of_nil].
  rewrite elem_of_jfilter. intros [Hf _]. congruence.
Qed.

Lemma grantable_dangerous p :
  p ∈ PERMISSIONS → dangerous p = true → has EXPLICITLY_GRANTABLE_GATED_KEYS (key p) = true →
  key p = js "trigger:edit".
Proof.
  assert (forallb (fun p => negb (dangerous p && has EXPLICITLY_GRANTABLE_GATED_KEYS (key p))
    || bool_decide (key p = js "trigger:edit")) PERMISSIONS = true) as H by (vm_compute; reflexivity).
  rewrite forallb_forall in H. intros Hp%list_elem_of_In Hd Hg. specialize (H p Hp). rewrite Hd, Hg in H.
  by apply bool_decide_eq_true in H.
Qed.

(** [panel_access] alone is never dangerous: a role that is not the Owner
    and has none of the gating flags or the Squad kick and ban permissions holds
    no dangerous catalogue key, whatever explicit rows it has, except
    [trigger:edit] when an explicit row grants exactly that. *)
Theorem dangerous_keys_need_flags id role explicitKeys p :
  p ∈ PERMISSIONS → dangerous p = true → is_owner_role role = false →
  rd_canAssignRoles role = false → rd_canEditRoles role = false → rd_canManageIntegrations role = false →
  rd_canViewIps role = false → rd_canManageInfrastructure role = false →
  js "kick" ∉ rd_squadPermissions role → js "ban" ∉ rd_squadPermissions role →
  key p ∈ permissions (buildRolePermissionContext id role explicitKeys) →
  key p = js "trigger:edit" ∧ key p ∈ explicitKeys.
Proof.
  intros Hp Hd Ho H1 H2 H3 H4 H5 Hk Hb Hin.
  assert (keyPassesFlagGates (key p) (role_flags role) = false) as Hpass.
  { apply gated_key_blocked; cbn [role_flags g_canAssignRoles g_canEditRoles g_canManageIntegrations g_canViewIps
      g_canManageInfrastructure g_squadPermissions]; rewrite ?Ho; [done..| | |by apply dangerous_gated];
      by intros ?%role_squad_permissions_sub. }
  change (key p ∈ role_panel_permissions role explicitKeys) in Hin.
  apply role_panel_permissions_elem in Hin as [Hin|[Hin He]].
  - rewrite Ho in Hin. by apply derive_unprivileged in Hin.
  - split; [|done]. unfold explicit_counts in He. rewrite Hpass, orb_false_r in He.
    apply andb_true_iff in He as [_ Hg]. by apply grantable_dangerous.
Qed.

Definition plain_role (name : string) (panel : bool) : RoleGrantDefinition :=
  mkRoleDef (js name) false panel false false false false false false false false false false false false [].

Lemma dangerous_keys_need_flags_witness :
  js "trigger:edit" ∈ permissions (buildRolePermissionContext [] (plain_role "Mod" true) (keys ["trigger:edit"; "mod:kick"]%string))
  ∧ js "mod:kick" ∉ permissions (buildRolePermissionContext [] (plain_role "Mod" true) (keys ["trigger:edit"; "mod:kick"]%string)).
Proof.
  split; [apply has_true; vm_compute; reflexivity|]. intros Hin.
  destruct (dangerous_keys_need_flags [] (plain_role "Mod" true) (keys ["trigger:edit"; "mod:kick"]%string)
    (mkPerm (js "mod:kick") cat_moderation true false)) as [H _]; try reflexivity; try apply not_elem_of_nil; try exact Hin.
  - apply list_elem_of_In. do 19 right. left. reflexivity.
  - discriminate H.
Defined.

(** * The cache over interleaved requests *)

(** The process: the clock, the cache and the loads that wait for the database,
    each with the time it started. *)
Record process := mkProcess { clock : Z; cached : cache; waiting : list (jstr * Z) }.

Section process.
(** The database over time: the joined row of a player. A query started at [t0]
    is answered with the row at some time between [t0] and its answer. *)
Variable db : Z → jstr → option (jstr * RoleGrantDefinition * list jstr).

Inductive process_step : process → process → Prop :=
| step_tick now now' c w : now ≤ now' → process_step (mkProcess now c w) (mkProcess now' c w)
| step_hit now c w p c' v :
    load_begin now c p = (c', Some v) → process_step (mkProcess now c w) (mkProcess now c' w)
| step_miss now c w p c' :
    load_begin now c p = (c', None) → process_step (mkProcess now c w) (mkProcess now c' (w ++ [(p, now)]))
| step_answer now c w1 p t0 w2 t :
    t0 ≤ t ≤ now →
    process_step (mkProcess now c (w1 ++ (p, t0) :: w2)) (mkProcess now (load_finish now c p (db t p)).1 (w1 ++ w2))
| step_invalidate now c w p : process_step (mkProcess now c w) (mkProcess now (invalidatePermissionCache c p) w)
| step_invalidate_role now c w ps :
    process_step (mkProcess now c w) (mkProcess now (invalidatePermissionCacheForRole c ps) w)
| step_invalidate_all now c w : process_step (mkProcess now c w) (mkProcess now (invalidateAllPermissionCaches c) w).

(** A request of player [p] is answered from the cache with [v]. *)
Definition serves (s : process) (p : jstr) (v : PermissionContext) : Prop :=
  (load_begin (clock s) (cached s) p).2 = Some v.

Definition older (a b : jstr * CacheEntry) : Prop := expiresAt a.2 ≤ expiresAt b.2.

(** What the cached entry [ke] of a player can be, for players in [P] read at
    [T] or later. *)
Definition cached_ok (P : jstr → Prop) (T now : Z) (ke : jstr * CacheEntry) : Prop :=
  expiresAt ke.2 - TTL_MS ≤ now ∧
  ∃ t, t ≤ expiresAt ke.2 - TTL_MS ∧ value ke.2 = row_context (db t ke.1) ∧ (P ke.1 → T ≤ t).

(** A key is held once, the oldest entries come first, the size is bounded. *)
Record cache_ok (P : jstr → Prop) (T now : Z) (c : cache) : Prop := {
  cache_keys : map_ok c;
  cache_sorted : StronglySorted older c;
  cache_bounded : (length c ≤ PERMISSION_CACHE_MAX_ENTRIES)%nat;
  cache_fresh : Forall (cached_ok P T now) c;
}.

Lemma sublist_Forall {A} (Q : A → Prop) l k : l `sublist_of` k → Forall Q k → Forall Q l.
Proof. intros Hs. rewrite !Forall_forall. eauto using elem_of_sublist. Qed.

Lemma sublist_sorted {A} (R : A → A → Prop) l k : l `sublist_of` k → StronglySorted R k → StronglySorted R l.
Proof.
  induction 1 as [|x l k Hlk IH|x l k Hlk IH]; intros Hk; [constructor| |].
  - inversion_clear Hk as [|?? Hk' Hx]. constructor; [by apply IH|]. by eapply sublist_Forall.
  - inversion_clear Hk. by apply IH.
Qed.

Lemma sublist_fmap {A B} (f : A → B) l k : l `sublist_of` k → f <$> l `sublist_of` f <$> k.
Proof. induction 1; csimpl; by constructor. Qed.

Lemma cache_ok_sublist P T now c c' : c' `sublist_of` c → cache_ok P T now c → cache_ok P T now c'.
Proof.
  intros Hs [H1 H2 H3 H4]. split.
  - unfold map_ok, map_keys in *. eapply sublist_NoDup; [exact H1|]. by apply sublist_fmap.
  - by eapply sublist_sorted.
  - pose proof (sublist_length _ _ Hs). lia.
  - by eapply sublist_Forall.
Qed.

Lemma cache_ok_later P T now now' c : now ≤ now' → cache_ok P T now c → cache_ok P T now' c.
Proof.
  intros Hn [H1 H2 H3 H4]. split; try done. eapply Forall_impl; [done|]. intros ke (? & t & ?). split; [lia|by exists t].
Qed.

Lemma sweep_sublist now c : sweep now c `sublist_of` c.
Proof. induction c as [|[k e] c IH]; cbn [sweep]; [done|]. case_match; [done|by apply sublist_cons]. Qed.

Lemma sweep_room now c : (length (sweep now c) < PERMISSION_CACHE_MAX_ENTRIES)%nat.
Proof.
  induction c as [|[k e] c IH]; cbn [sweep].
  { apply Nat.ltb_lt. vm_compute. reflexivity. }
  destruct (_ && _) eqn:E; [|done]. apply andb_true_iff in E as [_ E]. by apply Nat.ltb_lt in E.
Qed.

Lemma cachePermissions_app now c p v :
  map_ok c → cachePermissions now c p v = sweep now (map_delete c p) ++ [(p, mkEntry v (now + TTL_MS))]
             ∧ p ∉ map_keys (sweep now (map_delete c p)).
Proof.
  intros Hc. assert (p ∉ map_keys (sweep now (map_delete c p))) as Hp.
  { intros Hin. assert (p ∈ map_keys (map_delete c p)) as Hin'
      by (eapply elem_of_sublist; [exact Hin|apply sublist_fmap, sweep_sublist]).
    destruct (map_get_None (map_delete c p) p) as [H _]. apply H; [|done].
    rewrite map_get_delete by apply Hc. by rewrite bool_decide_true. }
  split; [|done]. by apply map_set_new.
Qed.

Lemma cachePermissions_ok P T now c p t :
  cache_ok P T now c → t ≤ now → (P p → T ≤ t) →
  cache_ok P T now (cachePermissions now c p (row_context (db t p))).
Proof.
  intros Hc Ht HP. destruct (cachePermissions_app now c p (row_context (db t p))) as [-> Hp]; [apply Hc|].
  assert (sweep now (map_delete c p) `sublist_of` c) as Hs by (etrans; [apply sweep_sublist|apply map_delete_sublist]).
  pose proof (sweep_room now (map_delete c p)) as Hroom.
  pose proof (cache_ok_sublist P T now _ _ Hs Hc) as [H1 H2 H3 H4].
  split.
  - unfold map_ok, map_keys in *. rewrite fmap_app. apply NoDup_app. split; [done|]. split; [|apply NoDup_singleton].
    intros x Hx ->%list_elem_of_singleton. done.
  - apply StronglySorted_app. split; [|split; [done|by repeat constructor]].
    intros x y Hx ->%list_elem_of_singleton. rewrite Forall_forall in H4. destruct (H4 x Hx). unfold older. cbn. lia.
  - rewrite length_app. cbn [length]. lia.
  - apply Forall_app. split; [done|]. constructor; [|constructor]. unfold cached_ok. cbn. split; [lia|].
    exists t. split; [lia|done].
Qed.

(** The process is [fresh] for players [P] since [T] when no cached or waiting
    read of one of them is older than [T]. *)
Definition process_ok (P : jstr → Prop) (T : Z) (s : process) : Prop :=
  cache_ok P T (clock s) (cached s) ∧ T ≤ clock s ∧
  Forall (fun w => w.2 ≤ clock s ∧ (P w.1 → T ≤ w.2)) (waiting s).

Lemma load_begin_sublist now c p : (load_begin now c p).1 `sublist_of` c.
Proof. unfold load_begin. repeat case_match; try done. apply map_delete_sublist. Qed.

Lemma foldl_delete_sublist (c : cache) ps : foldl map_delete c ps `sublist_of` c.
Proof. revert c. induction ps as [|p ps IH]; intros c; cbn [foldl]; [done|]. etrans; [apply IH|apply map_delete_sublist]. Qed.

Lemma process_step_ok P T s s' : process_step s s' → process_ok P T s → process_ok P T s'.
Proof.
  intros Hs [Hc [HT Hw]].
  assert (∀ p, cache_ok P T (clock s) (load_begin (clock s) (cached s) p).1) as Hb
    by (intros p; eapply cache_ok_sublist; [apply load_begin_sublist|done]).
  destruct Hs as [now now' c w Hn|now c w p c' v E|now c w p c' E|now c w1 p t0 w2 t Ht|now c w p|now c w ps|now c w];
    unfold process_ok in *; cbn [clock cached waiting] in *.
  - split; [by eapply cache_ok_later|]. split; [lia|]. eapply Forall_impl; [done|]. cbn. intros x [? ?]. split; [lia|done].
  - specialize (Hb p). by rewrite E in Hb.
  - specialize (Hb p). rewrite E in Hb. split; [done|]. split; [done|]. apply Forall_app. split; [done|].
    constructor; [cbn; lia|constructor].
  - apply Forall_app in Hw as [Hw1 Hw2]. inversion_clear Hw2 as [|?? [H1 H2] Hw]. cbn in *.
    split; [apply cachePermissions_ok; [done|lia|intros HP%H2; lia]|]. split; [done|]. by apply Forall_app.
  - split; [|done]. eapply cache_ok_sublist; [apply map_delete_sublist|done].
  - split; [|done]. eapply cache_ok_sublist; [apply foldl_delete_sublist|done].
  - split; [|done]. eapply cache_ok_sublist; [apply sublist_nil_l|done].
Qed.

Lemma process_steps_ok P T s s' : rtc process_step s s' → process_ok P T s → process_ok P T s'.
Proof. induction 1; [done|]. eauto using process_step_ok. Qed.

Lemma process_ok_serves P T s p v :
  process_ok P T s → serves s p v →
  ∃ t e, t ≤ e ≤ clock s ∧ clock s - TTL_MS < e ∧ v = row_context (db t p) ∧ (P p → T ≤ t).
Proof.
  intros [[H1 H2 H3 H4] _] Hs. unfold serves, load_begin in Hs.
  destruct (map_get (cached s) p) as [hit|] eqn:E; [|done].
  destruct (_ <? _) eqn:Hl; [|done]. apply Z.ltb_lt in Hl. injection Hs as <-.
  apply elem_of_map_get in E; [|done]. rewrite Forall_forall in H4. destruct (H4 _ E) as (He & t & Ht & Hv & HP).
  cbn in *. exists t, (expiresAt hit - TTL_MS). repeat split; [lia..|done|done].
Qed.

Definition cold_process (now : Z) : process := mkProcess now [] [].

Lemma cold_ok P now : process_ok P now (cold_process now).
Proof.
  split; [|split; [cbn; lia|constructor]]. split; [constructor|constructor| |constructor].
  cbn [cold_process cached length]. apply Nat.le_0_l.
Qed.

(** Over any interleaving of requests, database answers and invalidations
    from a cold start, the permission cache never holds more than its maximum,
    never holds a player twice, and a context it serves was stored less than
    30 seconds before, from a row the database held no later than that. *)
Theorem cache_bounded_and_fresh start s :
  rtc process_step (cold_process start) s →
  (length (cached s) ≤ PERMISSION_CACHE_MAX_ENTRIES)%nat ∧ NoDup (map_keys (cached s)) ∧
  ∀ p v, serves s p v →
    ∃ read stored, start ≤ read ≤ stored ∧ stored ≤ clock s < stored + TTL_MS ∧ v = row_context (db read p).
Proof.
  intros Hr. pose proof (process_steps_ok (fun _ => True) start _ _ Hr (cold_ok _ start)) as Hok.
  split; [apply Hok|]. split; [apply Hok|]. intros p v Hs.
  destruct (process_ok_serves _ _ _ _ _ Hok Hs) as (t & e & He & Hl & Hv & HP). exists t, e.
  specialize (HP I). repeat split; [lia..|done].
Qed.

(** An invalidation of a player is effective when no load of that player is
    waiting: whatever runs afterwards, the cache serves the player only contexts
    the database held at the invalidation or later. *)
Theorem invalidation_effective start s p s' v :
  rtc process_step (cold_process start) s → (∀ w, w ∈ waiting s → w.1 ≠ p) →
  rtc process_step (mkProcess (clock s) (invalidatePermissionCache (cached s) p) (waiting s)) s' →
  serves s' p v → ∃ t, clock s ≤ t ≤ clock s' ∧ v = row_context (db t p).
Proof.
  intros Hr Hw Hr' Hs. pose proof (process_steps_ok (fun _ => True) start _ _ Hr (cold_ok _ start)) as [Hc [HT Hwait]].
  assert (process_ok (fun q => q = p) (clock s)
    (mkProcess (clock s) (invalidatePermissionCache (cached s) p) (waiting s))) as Hok.
  { pose proof (cache_ok_sublist _ _ _ _ (map_delete (cached s) p) (map_delete_sublist _ _) Hc) as [H1 H2 H3 H4].
    split; [|split; [cbn; lia|]]; cbn [clock cached waiting].
    - split; [done..|]. rewrite Forall_forall in H4 |- *. intros [q e] Hq. destruct (H4 _ Hq) as (He & t & Ht & Hv & _).
      split; [done|]. exists t. split; [done|]. split; [done|]. cbn. intros ->. exfalso.
      apply elem_of_map_get in Hq; [|done]. unfold invalidatePermissionCache in Hq.
      rewrite map_get_delete in Hq by apply Hc. by rewrite bool_decide_true in Hq.
    - rewrite Forall_forall in Hwait |- *. intros w Hin. destruct (Hwait w Hin). split; [done|]. by intros ?%(Hw w Hin). }
  apply (process_steps_ok _ _ _ _ Hr') in Hok. destruct (process_ok_serves _ _ _ _ _ Hok Hs) as (t & e & He & Hl & Hv & HP).
  exists t. specialize (HP eq_refl). repeat split; [lia..|done].
Qed.
End process.

(** A player demoted at time 10: the panel role before, none after. *)
Definition demoted (t : Z) (p : jstr) : option (jstr * RoleGrantDefinition * list jstr) :=
  if t <? 10 then Some (js "r", plain_role "Mod" true, []) else None.

Definition promoted_context : PermissionContext := row_context (demoted 0 (js "p")).

Lemma demoted_loaded now :
  0 ≤ now < 10 →
  rtc (process_step demoted) (cold_process now)
    (mkProcess now (load_finish now [] (js "p") (demoted now (js "p"))).1 []).
Proof.
  intros Hn. eapply rtc_l; [by apply (step_miss demoted now [] [] (js "p") [])|].
  apply rtc_once, (step_answer demoted now [] [] (js "p") now [] now). lia.
Qed.

Lemma cache_bounded_and_fresh_witness :
  ∃ read stored, 0 ≤ read ≤ stored ∧ stored ≤ 0 < stored + TTL_MS ∧ promoted_context = row_context (demoted read (js "p")).
Proof.
  destruct (cache_bounded_and_fresh demoted 0 _ (demoted_loaded 0 ltac:(lia))) as (_ & _ & H).
  exact (H (js "p") promoted_context eq_refl).
Defined.

Lemma invalidation_effective_witness :
  ∃ t, 0 ≤ t ≤ 0 ∧ promoted_context = row_context (demoted t (js "p")).
Proof.
  refine (invalidation_effective demoted 0 _ (js "p")
    (mkProcess 0 (load_finish 0 [] (js "p") (demoted 0 (js "p"))).1 []) promoted_context
    (demoted_loaded 0 ltac:(lia)) _ _ eq_refl).
  - intros w Hw. by apply not_elem_of_nil in Hw.
  - eapply rtc_l; [by apply (step_miss demoted 0 [] [] (js "p") [])|].
    apply rtc_once, (step_answer demoted 0 [] [] (js "p") 0 [] 0). lia.
Defined.

(** The condition on waiting loads is needed: a load that read the row
    before a demotion and is answered after its invalidation caches the old
    context, and the cache serves it for the rest of its 30 seconds. *)
Theorem invalidation_lost_to_waiting_load :
  ∃ s s', rtc (process_step demoted) (cold_process 0) s ∧ clock s = 10 ∧
    rtc (process_step demoted) (mkProcess (clock s) (invalidatePermissionCache (cached s) (js "p")) (waiting s)) s' ∧
    clock s' = 30000 ∧ serves s' (js "p") promoted_context ∧
    ∀ t, 10 ≤ t → promoted_context ≠ row_context (demoted t (js "p")).
Proof.
  exists (mkProcess 10 [] [(js "p", 0)]).
  exists (mkProcess 30000 (load_finish 10 [] (js "p") (demoted 0 (js "p"))).1 []).
  split; [eapply rtc_l; [by apply (step_miss demoted 0 [] [] (js "p") [])|by apply rtc_once, step_tick]|].
  split; [done|]. split; [|split; [done|split; [reflexivity|]]].
  - eapply rtc_l; [apply (step_answer demoted 10 [] [] (js "p") 0 [] 0); lia|by apply rtc_once, step_tick].
  - intros t Ht. unfold demoted. rewrite (proj2 (Z.ltb_ge t 10)) by done. discriminate.
Qed.
