(* ===== verification/RoleAdmin.v ===== *)
(** [apps/api/src/lib/role-guards.ts], [lib/role-hierarchy.ts] and the handlers
    that change roles and who holds them ([routes/roles.ts], the role routes of
    [routes/players.ts]): the privilege ceiling, the role hierarchy, and the
    theorems that they let nobody gain what the acting players did not have. *)
From S2P Require Import Prelude JsString JsMap AdminsCfg Rbac.

(** * The tables *)

(** A row of [roles] with its [role_squad_permissions] (in [row_def]) and its
    [role_permissions] keys. *)
Record RoleRow := mkRow {
  row_def : RoleGrantDefinition; row_color : jstr; row_description : option jstr; row_keys : list jstr }.
Record PlayerRow := mkPlayer { pl_roleId : option jstr; pl_roleExpiresAt : option Z; pl_roleComment : option jstr }.
(** [db_tiers]: the role ids that [vip_tiers] refer to. *)
Record Db := mkDb {
  db_roles : list (jstr * RoleRow); db_players : list (jstr * PlayerRow); db_tiers : list jstr }.

Definition loadRolePermissions (db : Db) (roleId : jstr) : option PermissionContext :=
  row ← map_get (db_roles db) roleId; Some (buildRolePermissionContext roleId (row_def row) (row_keys row)).

(** The [LEFT JOIN] of [loadUserPermissions]: the player's role while it is live. *)
Definition live_row (now : Z) (db : Db) (playerId : jstr) : option (jstr * RoleGrantDefinition * list jstr) :=
  pl ← map_get (db_players db) playerId;
  r ← pl_roleId pl;
  row ← map_get (db_roles db) r;
  if match pl_roleExpiresAt pl with None => true | Some e => now <? e end
  then Some (r, row_def row, row_keys row) else None.

Definition user_context (now : Z) (db : Db) (playerId : jstr) : PermissionContext :=
  row_context (live_row now db playerId).

(** * The privilege ceiling (role-guards.ts) *)

Record RoleGrant := mkGrant {
  gr_panelAccess : bool; gr_canViewIps : bool; gr_canAssignRoles : bool; gr_canEditRoles : bool;
  gr_canManageIssues : bool; gr_canManageBanSources : bool; gr_canManageIntegrations : bool;
  gr_canManageClans : bool; gr_canManageEconomy : bool; gr_canManageMedia : bool; gr_canHandleReports : bool;
  gr_combatView : bool; gr_squadPermissions : list jstr; gr_permissionKeys : list jstr }.

Record FlagCapability := mkFlag { capability_name : jstr; granted : RoleGrant → bool; held : PermissionContext → bool }.

Definition FLAG_CAPABILITIES : list FlagCapability :=
  [mkFlag (js "panel_access") gr_panelAccess panelAccess;
   mkFlag (js "can_view_ips") gr_canViewIps canViewIps;
   mkFlag (js "can_assign_roles") gr_canAssignRoles canAssignRoles;
   mkFlag (js "can_edit_roles") gr_canEditRoles canEditRoles;
   mkFlag (js "can_manage_issues") gr_canManageIssues canManageIssues;
   mkFlag (js "can_manage_ban_sources") (fun r => gr_panelAccess r && gr_canManageBanSources r) canManageBanSources;
   mkFlag (js "can_manage_integrations") gr_canManageIntegrations canManageIntegrations;
   mkFlag (js "can_manage_clans") gr_canManageClans canManageClans;
   mkFlag (js "can_manage_economy") (fun r => gr_panelAccess r && gr_canManageEconomy r) canManageEconomy;
   mkFlag (js "can_manage_media") (fun r => gr_panelAccess r && gr_canManageMedia r) canManageMedia;
   mkFlag (js "can_handle_reports") gr_canHandleReports canHandleReports;
   mkFlag (js "combat_view") (fun r => gr_panelAccess r && gr_combatView r) combatView].

Definition loadRoleGrant (db : Db) (roleId : jstr) : option RoleGrant :=
  row ← map_get (db_roles db) roleId;
  let d := row_def row in
  Some (mkGrant (rd_panelAccess d) (rd_canViewIps d) (rd_canAssignRoles d) (rd_canEditRoles d) (rd_canManageIssues d)
    (rd_canManageBanSources d) (rd_canManageIntegrations d) (rd_canManageClans d) (rd_canManageEconomy d)
    (rd_canManageMedia d) (rd_canHandleReports d) (rd_combatView d) (rd_squadPermissions d) (row_keys row)).

Definition roleCapabilities (grant : RoleGrant) : list jstr :=
  foldl add_key []
    ((capability_name <$> jfilter (fun f => granted f grant) FLAG_CAPABILITIES)
     ++ ((fun k => js "squad:" ++ k) <$> gr_squadPermissions grant)
     ++ ((fun k => js "perm:" ++ k) <$> gr_permissionKeys grant)).

Definition actorHolds (actor : option PermissionContext) (capability : jstr) : bool :=
  match actor with
  | None => false
  | Some actor =>
      if starts_with (js "squad:") capability then has (Rbac.squadPermissions actor) (drop 6 capability)
      else if starts_with (js "perm:") capability then has (permissions actor) (drop 5 capability)
      else match List.find (fun f => bool_decide (capability_name f = capability)) FLAG_CAPABILITIES with
           | Some flag => held flag actor
           | None => false
           end
  end.

Definition actor_is_owner (actor : option PermissionContext) : bool :=
  match actor with Some a => isOwner a | None => false end.

Definition capabilitiesBeyondActor (capabilities : list jstr) (actor : option PermissionContext) : list jstr :=
  if actor_is_owner actor then []
  else jsort str_cmp (jfilter (fun c => negb (actorHolds actor c)) capabilities).

Definition roleGrantBeyondActor (db : Db) (roleId : jstr) (actor : option PermissionContext) : list jstr :=
  if actor_is_owner actor then []
  else match loadRoleGrant db roleId with
       | None => []
       | Some grant => capabilitiesBeyondActor (roleCapabilities grant) actor
       end.

(** * Replies *)

Record Reply := mkReply { code : Z; error : jstr; missing : list jstr }.
Definition refuse_if (b : bool) (r : Reply) : result Reply unit := if b then Throw r else Ok tt.
Definition refuse_some (r : option Reply) : result Reply unit := match r with Some r => Throw r | None => Ok tt end.

Definition roleCeilingError (beyond : list jstr) : Reply := mkReply 403 (js "role_exceeds_actor_permissions") beyond.

(** * The role hierarchy (role-hierarchy.ts) *)

Record RoleActor := mkActor { playerId : jstr; actor_permissions : PermissionContext }.

Definition checkGrantsWithinActor (actor : option RoleActor) (role : PermissionContext) : option Reply :=
  match actor with
  | None => Some (mkReply 403 (js "role_exceeds_actor_permissions") [])
  | Some a =>
      if isOwner (actor_permissions a) then None
      else let missing := grantsBeyond (actor_permissions a) role in
           if (0 <? length missing)%nat then Some (mkReply 403 (js "role_exceeds_actor_permissions") missing) else None
  end.

Definition checkRoleWithinActor (db : Db) (actor : option RoleActor) (roleId : jstr) : option Reply :=
  match actor with
  | None => Some (mkReply 403 (js "role_exceeds_actor_permissions") [])
  | Some a =>
      if isOwner (actor_permissions a) then None
      else match loadRolePermissions db roleId with
           | None => None
           | Some role => checkGrantsWithinActor actor role
           end
  end.

(** The distinct role ids the players hold now. *)
Definition current_roles (db : Db) (playerIds : list jstr) : list jstr :=
  foldl add_key [] (omap (fun kp : jstr * PlayerRow => if has playerIds kp.1 then pl_roleId kp.2 else None) (db_players db)).

Fixpoint outranked (db : Db) (a : RoleActor) (newRoleId : option jstr) (current : list jstr) : option Reply :=
  match current with
  | [] => None
  | roleId :: current =>
      if bool_decide (Some roleId = newRoleId) then outranked db a newRoleId current
      else match loadRolePermissions db roleId with
           | None => outranked db a newRoleId current
           | Some role =>
               let missing := grantsBeyond (actor_permissions a) role in
               if (0 <? length missing)%nat then Some (mkReply 403 (js "target_outranks_actor") missing)
               else outranked db a newRoleId current
           end
  end.

Definition checkRoleAssignment (db : Db) (actor : option RoleActor) (playerIds : list jstr) (newRoleId : option jstr)
    : option Reply :=
  match actor with
  | None => Some (mkReply 403 (js "role_exceeds_actor_permissions") [])
  | Some a =>
      if isOwner (actor_permissions a) then None
      else if has playerIds (playerId a) then Some (mkReply 403 (js "cannot_change_own_role") [])
      else match (match newRoleId with Some r => checkRoleWithinActor db actor r | None => None end) with
           | Some refusal => Some refusal
           | None => if bool_decide (playerIds = []) then None else outranked db a newRoleId (current_roles db playerIds)
           end
  end.

(** * Request bodies *)

Definition ROLE_COLORS : list jstr :=
  keys ["red"; "rose"; "pink"; "fuchsia"; "purple"; "violet"; "indigo"; "blue"; "sky"; "cyan"; "teal"; "emerald";
        "green"; "lime"; "amber"; "neutral"]%string.
Definition is_hex (c : Z) : bool :=
  ((48 <=? c) && (c <=? 57)) || ((65 <=? c) && (c <=? 70)) || ((97 <=? c) && (c <=? 102)).
Definition isRoleColorHex (x : jstr) : bool :=
  match x with 35 :: ds => (length ds =? 6)%nat && forallb is_hex ds | _ => false end.
Definition isRoleColor (x : jstr) : bool := has ROLE_COLORS x || isRoleColorHex x.

Definition roleNameSchema (name : jstr) : bool :=
  (1 <=? length name)%nat && (length name <=? 64)%nat && isAdminsCfgSafeRoleName name.
Definition squadPermissionsArraySchema (ks : list jstr) : option (list jstr) :=
  if forallb isSquadPermissionKey ks && (length ks <=? length SQUAD_PERMISSIONS)%nat
  then Some (foldl add_key [] ks) else None.

Record CreateBody := mkCreate {
  cb_name : jstr; cb_color : jstr; cb_description : option jstr; cb_squad_permissions : list jstr;
  cb_panel_access : bool; cb_can_view_ips : bool; cb_can_assign_roles : bool; cb_can_edit_roles : bool;
  cb_can_manage_issues : bool; cb_can_manage_ban_sources : bool; cb_can_manage_integrations : bool;
  cb_can_manage_clans : bool; cb_can_manage_economy : bool; cb_can_handle_reports : bool;
  cb_can_manage_infrastructure : bool }.

(** The parsed body, with the defaults filled in and the Squad keys made distinct. *)
Definition createBody (b : CreateBody) : option CreateBody :=
  squad ← squadPermissionsArraySchema (cb_squad_permissions b);
  if roleNameSchema (cb_name b) && isRoleColor (cb_color b)
     && match cb_description b with Some d => (length d <=? 256)%nat | None => true end
  then Some (mkCreate (cb_name b) (cb_color b) (cb_description b) squad (cb_panel_access b) (cb_can_view_ips b)
    (cb_can_assign_roles b) (cb_can_edit_roles b) (cb_can_manage_issues b) (cb_can_manage_ban_sources b)
    (cb_can_manage_integrations b) (cb_can_manage_clans b) (cb_can_manage_economy b) (cb_can_handle_reports b)
    (cb_can_manage_infrastructure b))
  else None.

(** [None] is an absent key; an absent [description] is [None], a null one
    [Some None]. *)
Record UpdateBody := mkUpdate {
  ub_name : option jstr; ub_color : option jstr; ub_description : option (option jstr);
  ub_squad_permissions : option (list jstr);
  ub_panel_access : option bool; ub_can_view_ips : option bool; ub_can_assign_roles : option bool;
  ub_can_edit_roles : option bool; ub_can_manage_issues : option bool; ub_can_manage_ban_sources : option bool;
  ub_can_manage_integrations : option bool; ub_can_manage_clans : option bool; ub_can_manage_economy : option bool;
  ub_can_handle_reports : option bool; ub_can_manage_infrastructure : option bool }.

Definition ensureFlagDependency (panel_access can_assign_roles can_edit_roles can_view_ips : bool) : option jstr :=
  if negb panel_access && (can_assign_roles || can_edit_roles)
  then Some (js "panel_access_required_for_role_management")
  else if negb panel_access && can_view_ips then Some (js "panel_access_required_for_view_ips")
  else None.

(** * Handlers *)

Inductive Effect :=
| AdminsCfgSync (reason : jstr)
| ForgetPlayers (ids : list jstr)
| ForgetAll
| DiscordRoleSync (p : jstr) (reason : jstr)
| RevokeSessions (ids : list jstr).

Abbreviation outcome := (result Reply (Db * list Effect)).

(** The [onRequest] hook of [plugins/auth.ts] for a route with
    [config.permissions = [required]]. *)
Definition authorise (user : option RoleActor) (required : jstr) : result Reply RoleActor :=
  match user with
  | None => Throw (mkReply 401 (js "unauthenticated") [])
  | Some a => if has (permissions (actor_permissions a)) required then Ok a
              else Throw (mkReply 403 (js "forbidden") [required])
  end.

Definition name_taken (db : Db) (id name : jstr) : bool :=
  existsb (fun kr => negb (bool_decide (kr.1 = id)) && bool_decide (rd_name (row_def kr.2) = name)) (db_roles db).

Definition listMemberIds (db : Db) (roleId : jstr) : list jstr :=
  fst <$> jfilter (fun kp : jstr * PlayerRow => bool_decide (pl_roleId kp.2 = Some roleId)) (db_players db).

Definition is_system_owner (row : RoleRow) : bool := is_owner_role (row_def row).

Definition set_role (db : Db) (id : jstr) (row : RoleRow) : Db :=
  mkDb (map_set (db_roles db) id row) (db_players db) (db_tiers db).
Definition set_player (db : Db) (id : jstr) (pl : PlayerRow) : Db :=
  mkDb (db_roles db) (map_set (db_players db) id pl) (db_tiers db).

Definition requested_grant (b : CreateBody) : RoleGrant :=
  mkGrant (cb_panel_access b) (cb_can_view_ips b) (cb_can_assign_roles b) (cb_can_edit_roles b)
    (cb_can_manage_issues b) (cb_can_manage_ban_sources b) (cb_can_manage_integrations b) (cb_can_manage_clans b)
    (cb_can_manage_economy b) false (cb_can_handle_reports b) true (cb_squad_permissions b) [].

(** The new row; [can_manage_media] and [combat_view] are the column defaults. *)
Definition created_def (b : CreateBody) : RoleGrantDefinition :=
  mkRoleDef (cb_name b) false (cb_panel_access b) (cb_can_view_ips b) (cb_can_assign_roles b) (cb_can_edit_roles b)
    (cb_can_manage_issues b) (cb_can_manage_ban_sources b) (cb_can_manage_integrations b) (cb_can_manage_clans b)
    (cb_can_manage_economy b) false (cb_can_handle_reports b) (cb_can_manage_infrastructure b) true
    (cb_squad_permissions b).

(** [POST /api/v1/roles]; [id] is the fresh [uuidv7()]: the insert fails on an
    id that exists. *)
Definition create_role (id : jstr) (user : option RoleActor) (b : CreateBody) (db : Db) : outcome :=
  let! a := authorise user (js "role:create") in
  let! _ := refuse_some ((fun e => mkReply 400 e []) <$>
    ensureFlagDependency (cb_panel_access b) (cb_can_assign_roles b) (cb_can_edit_roles b) (cb_can_view_ips b)) in
  let beyond := capabilitiesBeyondActor (roleCapabilities (requested_grant b)) (Some (actor_permissions a)) in
  let! _ := refuse_if (0 <? length beyond)%nat (roleCeilingError beyond) in
  let! _ := refuse_some (checkGrantsWithinActor (Some a) (buildRolePermissionContext id (created_def b) [])) in
  let! _ := refuse_if (map_has (db_roles db) id) (mkReply 500 [] []) in
  let! _ := refuse_if (name_taken db id (cb_name b)) (mkReply 409 (js "role_name_taken") []) in
  Ok (set_role db id (mkRow (created_def b) (cb_color b) (cb_description b) []),
      [AdminsCfgSync (js "role.create")]).

(** The role the edit proposes: [body.x ?? roleRow.x]. *)
Definition proposed_def (b : UpdateBody) (d : RoleGrantDefinition) : RoleGrantDefinition :=
  mkRoleDef (default (rd_name d) (ub_name b)) (rd_isSystemRole d)
    (default (rd_panelAccess d) (ub_panel_access b)) (default (rd_canViewIps d) (ub_can_view_ips b))
    (default (rd_canAssignRoles d) (ub_can_assign_roles b)) (default (rd_canEditRoles d) (ub_can_edit_roles b))
    (default (rd_canManageIssues d) (ub_can_manage_issues b))
    (default (rd_canManageBanSources d) (ub_can_manage_ban_sources b))
    (default (rd_canManageIntegrations d) (ub_can_manage_integrations b))
    (default (rd_canManageClans d) (ub_can_manage_clans b)) (default (rd_canManageEconomy d) (ub_can_manage_economy b))
    (rd_canManageMedia d) (default (rd_canHandleReports d) (ub_can_handle_reports b))
    (default (rd_canManageInfrastructure d) (ub_can_manage_infrastructure b)) (rd_combatView d)
    (default (rd_squadPermissions d) (ub_squad_permissions b)).

Definition after_grant (b : UpdateBody) (d : RoleGrantDefinition) (before : RoleGrant) : RoleGrant :=
  mkGrant (default (rd_panelAccess d) (ub_panel_access b)) (default (rd_canViewIps d) (ub_can_view_ips b))
    (default (rd_canAssignRoles d) (ub_can_assign_roles b)) (default (rd_canEditRoles d) (ub_can_edit_roles b))
    (default (rd_canManageIssues d) (ub_can_manage_issues b))
    (default (rd_canManageBanSources d) (ub_can_manage_ban_sources b))
    (default (rd_canManageIntegrations d) (ub_can_manage_integrations b))
    (default (rd_canManageClans d) (ub_can_manage_clans b)) (default (rd_canManageEconomy d) (ub_can_manage_economy b))
    (rd_canManageMedia d) (default (rd_canHandleReports d) (ub_can_handle_reports b)) (rd_combatView d)
    (default (gr_squadPermissions before) (ub_squad_permissions b)) (gr_permissionKeys before).

(** [UPDATE roles SET ...] with the keys the body has, and the replaced
    [role_squad_permissions]. *)
Definition updated_row (b : UpdateBody) (row : RoleRow) : RoleRow :=
  let d := row_def row in
  let upd {A} (o : option A) (old : A) := match o with Some v => v | None => old end in
  mkRow
    (mkRoleDef (upd (ub_name b) (rd_name d)) (rd_isSystemRole d)
      (upd (ub_panel_access b) (rd_panelAccess d)) (upd (ub_can_view_ips b) (rd_canViewIps d))
      (upd (ub_can_assign_roles b) (rd_canAssignRoles d)) (upd (ub_can_edit_roles b) (rd_canEditRoles d))
      (upd (ub_can_manage_issues b) (rd_canManageIssues d)) (upd (ub_can_manage_ban_sources b) (rd_canManageBanSources d))
      (upd (ub_can_manage_integrations b) (rd_canManageIntegrations d)) (upd (ub_can_manage_clans b) (rd_canManageClans d))
      (upd (ub_can_manage_economy b) (rd_canManageEconomy d)) (rd_canManageMedia d)
      (upd (ub_can_handle_reports b) (rd_canHandleReports d))
      (upd (ub_can_manage_infrastructure b) (rd_canManageInfrastructure d)) (rd_combatView d)
      (match ub_squad_permissions b with Some ks => ks | None => rd_squadPermissions d end))
    (upd (ub_color b) (row_color row)) (upd (ub_description b) (row_description row)) (row_keys row).

Definition affectsAdminsCfg (b : UpdateBody) (row : RoleRow) : bool :=
  match ub_name b with Some n => negb (bool_decide (n = rd_name (row_def row))) | None => false end
  || bool_decide (is_Some (ub_squad_permissions b)).

(** [PUT /api/v1/roles/:id]. *)
Definition update_role (id : jstr) (user : option RoleActor) (b : UpdateBody) (db : Db) : outcome :=
  let! a := authorise user (js "role:edit") in
  match map_get (db_roles db) id with
  | None => Throw (mkReply 404 (js "role_not_found") [])
  | Some row =>
      let d := row_def row in
      let! _ := refuse_if (is_system_owner row) (mkReply 400 (js "owner_role_immutable") []) in
      let! _ := refuse_if (negb (isOwner (actor_permissions a)) && bool_decide (roleId (actor_permissions a) = Some id))
                  (mkReply 403 (js "cannot_edit_own_role") []) in
      let! _ := refuse_some (checkRoleWithinActor db (Some a) id) in
      let proposed := buildRolePermissionContext id (proposed_def b d) (row_keys row) in
      let! _ := refuse_some ((fun e => mkReply 400 e []) <$>
        ensureFlagDependency (default (rd_panelAccess d) (ub_panel_access b))
          (default (rd_canAssignRoles d) (ub_can_assign_roles b)) (default (rd_canEditRoles d) (ub_can_edit_roles b))
          (default (rd_canViewIps d) (ub_can_view_ips b))) in
      match loadRoleGrant db id with
      | None => Throw (mkReply 404 (js "role_not_found") [])
      | Some before =>
          let newlyGranted := jfilter (fun c => negb (has (roleCapabilities before) c))
                                (roleCapabilities (after_grant b d before)) in
          let beyond := capabilitiesBeyondActor newlyGranted (Some (actor_permissions a)) in
          let! _ := refuse_if (0 <? length beyond)%nat (roleCeilingError beyond) in
          let! _ := refuse_some (checkGrantsWithinActor (Some a) proposed) in
          let memberIds := listMemberIds db id in
          let! _ := refuse_if (match ub_name b with Some n => name_taken db id n | None => false end)
                      (mkReply 409 (js "role_name_taken") []) in
          let db' := set_role db id (updated_row b row) in
          Ok (db',
              (if affectsAdminsCfg b row then [AdminsCfgSync (js "role.update")] else [])
              ++ [ForgetPlayers (listMemberIds db' id)]
              ++ (if bool_decide (ub_panel_access b = Some false) && rd_panelAccess d
                  then [RevokeSessions memberIds] else []))
      end
  end.

(** [UPDATE players SET role_id = NULL, ... WHERE role_id = id]. *)
Definition strip_role (id : jstr) (pl : PlayerRow) : PlayerRow :=
  if bool_decide (pl_roleId pl = Some id) then mkPlayer None None None else pl.

(** [DELETE /api/v1/roles/:id]. *)
Definition delete_role (id : jstr) (user : option RoleActor) (db : Db) : outcome :=
  let! a := authorise user (js "role:delete") in
  match map_get (db_roles db) id with
  | None => Throw (mkReply 404 (js "role_not_found") [])
  | Some row =>
      let! _ := refuse_if (is_system_owner row) (mkReply 400 (js "owner_role_immutable") []) in
      let! _ := refuse_some (checkRoleWithinActor db (Some a) id) in
      let! _ := refuse_if (has (db_tiers db) id) (mkReply 409 (js "role_referenced_by_vip_tier") []) in
      let memberIds := listMemberIds db id in
      let db' := mkDb (map_delete (db_roles db) id)
                   ((fun kp : jstr * PlayerRow => (kp.1, strip_role id kp.2)) <$> db_players db) (db_tiers db) in
      Ok (db',
          [AdminsCfgSync (js "role.delete"); ForgetPlayers (listMemberIds db' id); ForgetAll]
          ++ (if rd_panelAccess (row_def row) then [RevokeSessions memberIds] else []))
  end.

Definition owner_role_id (db : Db) : option jstr :=
  fst <$> List.find (fun kr : jstr * RoleRow => is_system_owner kr.2) (db_roles db).

Definition role_assign_reason (newRoleId : option jstr) : jstr :=
  match newRoleId with None => js "player.role.unassign" | Some _ => js "player.role.assign" end.

(** The last check of the assignment handlers, on a player that holds [current]. *)
Definition last_owner_check (db : Db) (current newRoleId : option jstr) : result Reply unit :=
  match owner_role_id db with
  | None => Ok tt
  | Some ownerId =>
      refuse_if (bool_decide (current = Some ownerId) && negb (bool_decide (newRoleId = Some ownerId))
                 && (length (listMemberIds db ownerId) <=? 1)%nat)
        (mkReply 409 (js "cannot_remove_last_owner") [])
  end.

(** [PUT /api/v1/players/:playerId/role] up to its transaction: whether the new
    role has panel access. *)
Definition assign_check (now : Z) (user : option RoleActor) (p : jstr) (newRoleId : option jstr)
    (roleExpiresAt : option Z) (db : Db) : result Reply bool :=
  let! a := authorise user (js "user:manage_roles") in
  let! _ := refuse_if (match roleExpiresAt with Some e => e <=? now | None => false end)
              (mkReply 400 (js "role_expiry_must_be_future") []) in
  let! newRolePanelAccess :=
    match newRoleId with
    | None => Ok false
    | Some r =>
        match map_get (db_roles db) r with
        | None => Throw (mkReply 404 (js "role_not_found") [])
        | Some target =>
            let! _ := refuse_if (is_system_owner target) (mkReply 403 (js "owner_assignment_forbidden") []) in
            Ok (rd_panelAccess (row_def target))
        end
    end in
  match map_get (db_players db) p with
  | None => Throw (mkReply 404 (js "player_not_found") [])
  | Some current =>
      let! _ := refuse_some (checkRoleAssignment db (Some a) [p] newRoleId) in
      let! _ := last_owner_check db (pl_roleId current) newRoleId in
      Ok newRolePanelAccess
  end.

(** The transaction: [UPDATE players SET ... WHERE id = p]. *)
Definition assign_commit (p : jstr) (newRoleId : option jstr) (roleExpiresAt : option Z) (roleComment : option jstr)
    (db : Db) : Db :=
  match map_get (db_players db) p with
  | None => db
  | Some _ => set_player db p (match newRoleId with
                               | None => mkPlayer None None None
                               | Some r => mkPlayer (Some r) roleExpiresAt roleComment
                               end)
  end.

Definition role_comment (comment : option jstr) : option jstr :=
  match trim <$> comment with Some [] => None | c => c end.

Definition assign_role (now : Z) (user : option RoleActor) (p : jstr) (newRoleId : option jstr)
    (roleExpiresAt : option Z) (comment : option jstr) (db : Db) : outcome :=
  let! newRolePanelAccess := assign_check now user p newRoleId roleExpiresAt db in
  Ok (assign_commit p newRoleId roleExpiresAt (role_comment comment) db,
      [AdminsCfgSync (role_assign_reason newRoleId); ForgetPlayers [p]; DiscordRoleSync p (role_assign_reason newRoleId)]
      ++ (if newRolePanelAccess then [] else [RevokeSessions [p]])).

(** [DELETE /api/v1/players/:playerId/role]. *)
Definition unassign_role (user : option RoleActor) (p : jstr) (db : Db) : outcome :=
  let! a := authorise user (js "user:manage_roles") in
  match map_get (db_players db) p with
  | None => Throw (mkReply 404 (js "player_not_found") [])
  | Some current =>
      let! _ := refuse_some (checkRoleAssignment db (Some a) [p] None) in
      let! _ := last_owner_check db (pl_roleId current) None in
      Ok (set_player db p (mkPlayer None None None),
          [AdminsCfgSync (js "player.role.unassign"); ForgetPlayers [p];
           DiscordRoleSync p (js "player.role.unassign"); RevokeSessions [p]])
  end.

(** * Actions and runs *)

Inductive Action :=
| Create (id : jstr) (b : CreateBody)
| Update (id : jstr) (b : UpdateBody)
| Delete (id : jstr)
| Assign (p : jstr) (newRoleId : option jstr) (roleExpiresAt : option Z) (comment : option jstr)
| Unassign (p : jstr).

Definition perform (now : Z) (user : option RoleActor) (act : Action) (db : Db) : outcome :=
  match act with
  | Create id b => create_role id user b db
  | Update id b => update_role id user b db
  | Delete id => delete_role id user db
  | Assign p r e c => assign_role now user p r e c db
  | Unassign p => unassign_role user p db
  end.

(** The clock, the tables, and the contexts loaded so far: a request may be
    judged by any context loaded earlier for its player, however stale. *)
Record world := mkWorld { w_now : Z; w_db : Db; w_loaded : list (jstr * PermissionContext) }.

(** The players of [S] act, with a session or with an API token. *)
Inductive world_step (S : jstr → Prop) : world → world → Prop :=
| world_tick now now' db seen : now ≤ now' → world_step S (mkWorld now db seen) (mkWorld now' db seen)
| world_load now db seen p :
    world_step S (mkWorld now db seen) (mkWorld now db ((p, user_context now db p) :: seen))
| world_act now db seen p ctx who act db' effects :
    S p → (p, ctx) ∈ seen → (who = ctx ∨ ∃ scopes, who = narrowToTokenScopes ctx scopes) →
    perform now (Some (mkActor p who)) act db = Ok (db', effects) →
    world_step S (mkWorld now db seen) (mkWorld now db' seen).

(** * What an accepted request changes *)

Lemma refuse_if_ok b r u : refuse_if b r = Ok u → b = false.
Proof. by destruct b. Qed.
Lemma refuse_some_ok r u : refuse_some r = Ok u → r = None.
Proof. by destruct r. Qed.
Lemma authorise_ok u k a : authorise u k = Ok a → u = Some a.
Proof. unfold authorise. destruct u as [a'|]; [|done]. case_match; [|done]. by intros [= ->]. Qed.

Lemma length_pos_nil {A} (l : list A) : (0 <? length l)%nat = false → l = [].
Proof. by destruct l. Qed.

(** A proposed role passes for a non-Owner only within the actor. *)
Lemma checkGrants_within a role :
  isOwner (actor_permissions a) = false → checkGrantsWithinActor (Some a) role = None →
  within role (actor_permissions a).
Proof.
  unfold checkGrantsWithinActor. intros -> H. cbv zeta in H. case_match eqn:E; [done|].
  by apply grantsBeyond_nil, length_pos_nil.
Qed.

Lemma checkRole_within db a id row :
  isOwner (actor_permissions a) = false → checkRoleWithinActor db (Some a) id = None →
  map_get (db_roles db) id = Some row →
  within (buildRolePermissionContext id (row_def row) (row_keys row)) (actor_permissions a).
Proof.
  intros Ho H Hr. apply checkGrants_within; [done|]. unfold checkRoleWithinActor, loadRolePermissions in H.
  by rewrite Ho, Hr in H.
Qed.

Lemma checkAssignment_within db a ps id row :
  isOwner (actor_permissions a) = false → checkRoleAssignment db (Some a) ps (Some id) = None →
  map_get (db_roles db) id = Some row →
  within (buildRolePermissionContext id (row_def row) (row_keys row)) (actor_permissions a).
Proof.
  intros Ho H Hr. eapply checkRole_within; [done| |done]. unfold checkRoleAssignment in H. rewrite Ho in H.
  destruct (has _ _); [done|]. by destruct (checkRoleWithinActor _ _ _).
Qed.

Lemma updated_as_proposed b row : row_def (updated_row b row) = proposed_def b (row_def row).
Proof. reflexivity. Qed.

Lemma create_role_ok id a b db db' effs :
  create_role id (Some a) b db = Ok (db', effs) →
  map_get (db_roles db) id = None ∧
  checkGrantsWithinActor (Some a) (buildRolePermissionContext id (created_def b) []) = None ∧
  name_taken db id (cb_name b) = false ∧
  db' = set_role db id (mkRow (created_def b) (cb_color b) (cb_description b) []).
Proof.
  unfold create_role. intros H. result_inv H. injection H as <- _. apply authorise_ok in E as [= <-].
  apply refuse_some_ok in E2. apply refuse_if_ok in E3. apply refuse_if_ok in E4. split; [|done].
  unfold map_has in E3. apply bool_decide_eq_false in E3. by apply eq_None_not_Some.
Qed.

Lemma update_role_ok id a b db db' effs :
  update_role id (Some a) b db = Ok (db', effs) →
  ∃ row, map_get (db_roles db) id = Some row ∧ is_system_owner row = false ∧
    checkGrantsWithinActor (Some a) (buildRolePermissionContext id (proposed_def b (row_def row)) (row_keys row)) = None ∧
    checkRoleWithinActor db (Some a) id = None ∧
    (isOwner (actor_permissions a) = false → roleId (actor_permissions a) ≠ Some id) ∧
    match ub_name b with Some n => name_taken db id n | None => false end = false ∧
    db' = set_role db id (updated_row b row).
Proof.
  unfold update_role. intros H. result_inv H. apply authorise_ok in E as [= <-].
  destruct (map_get _ _) as [row|]; [|done]. result_inv H. destruct (loadRoleGrant _ _); [|done]. result_inv H.
  injection H as <- _. exists row. split; [done|]. apply refuse_if_ok in E. apply refuse_if_ok in E0.
  apply refuse_some_ok in E1, E4. apply refuse_if_ok in E5. repeat split; try done.
  intros Ho Hid. rewrite Ho in E0. cbn [negb andb] in E0. by apply bool_decide_eq_false in E0.
Qed.

Lemma delete_role_ok id a db db' effs :
  delete_role id (Some a) db = Ok (db', effs) →
  ∃ row, map_get (db_roles db) id = Some row ∧ is_system_owner row = false ∧
    checkRoleWithinActor db (Some a) id = None ∧
    db' = mkDb (map_delete (db_roles db) id)
            ((fun kp : jstr * PlayerRow => (kp.1, strip_role id kp.2)) <$> db_players db) (db_tiers db).
Proof.
  unfold delete_role. intros H. result_inv H. apply authorise_ok in E as [= <-].
  destruct (map_get _ _) as [row|]; [|done]. result_inv H. injection H as <- _. exists row.
  apply refuse_if_ok in E. apply refuse_some_ok in E0. done.
Qed.

Lemma assign_check_ok now a p r e db panel :
  assign_check now (Some a) p r e db = Ok panel →
  ∃ current, map_get (db_players db) p = Some current ∧ checkRoleAssignment db (Some a) [p] r = None ∧
    last_owner_check db (pl_roleId current) r = Ok tt ∧
    match r with Some id => ∃ row, map_get (db_roles db) id = Some row ∧ is_system_owner row = false | None => True end.
Proof.
  unfold assign_check. intros H. result_inv H. apply authorise_ok in E as [= <-].
  destruct (map_get (db_players db) p) as [current|]; [|done]. result_inv H. exists current. split; [done|].
  apply refuse_some_ok in E. repeat match goal with u : unit |- _ => destruct u end.
  split; [done|]. split; [done|]. destruct r as [id|]; [|done].
  destruct (map_get _ _) as [row|]; [|done]. result_inv E1. apply refuse_if_ok in E3. eauto.
Qed.

(** Assigning and removing a role change one row of [players]. *)
Lemma assign_ok now user act db db' effs :
  perform now user act db = Ok (db', effs) →
  match act with
  | Assign p r _ _ => ∃ a current pl, user = Some a ∧ map_get (db_players db) p = Some current ∧ db' = set_player db p pl ∧
      pl_roleId pl = r ∧ checkRoleAssignment db (Some a) [p] r = None ∧ last_owner_check db (pl_roleId current) r = Ok tt ∧
      match r with Some id => ∃ row, map_get (db_roles db) id = Some row ∧ is_system_owner row = false | None => True end
  | Unassign p => ∃ a current pl, user = Some a ∧ map_get (db_players db) p = Some current ∧ db' = set_player db p pl ∧
      pl_roleId pl = None ∧ checkRoleAssignment db (Some a) [p] None = None ∧
      last_owner_check db (pl_roleId current) None = Ok tt
  | _ => True
  end.
Proof.
  destruct act as [| | |p r e c|p]; cbn [perform]; try done.
  - unfold assign_role. intros H. result_inv H. injection H as <- _.
    destruct user as [a0|]; [|done]. apply assign_check_ok in E as (current & Hp & Hc & Hl & Hr).
    unfold assign_commit. rewrite Hp. exists a0, current. eexists. split; [done|]. split; [done|]. split; [done|].
    split; [by destruct r|]. done.
  - unfold unassign_role. intros H. result_inv H. destruct user as [a0|]; [|done]. apply authorise_ok in E as [= <-].
    destruct (map_get _ _) as [current|]; [|done]. result_inv H. injection H as <- _. apply refuse_some_ok in E.
    exists a0, current. eexists. repeat match goal with u : unit |- _ => destruct u end. done.
Qed.

(** * No escalation *)

Lemma map_get_fmap {K V} `{!EqDecision K} (f : V → V) (m : list (K * V)) k :
  map_get ((fun kv : K * V => (kv.1, f kv.2)) <$> m) k = f <$> map_get m k.
Proof. induction m as [|[k' v] m IH]; csimpl; [done|]. by case_match. Qed.

Lemma map_delete_absent {K V} `{!EqDecision K} (m : list (K * V)) k k' v :
  map_ok m → map_get (map_delete m k) k' = Some v → k ≠ k' ∧ map_get m k' = Some v.
Proof. intros Hm. rewrite map_get_delete by done. by case_bool_decide. Qed.

Section escalation.
Context (S : jstr → Prop) (now0 : Z) (db0 : Db).

(** What the acting players hold together at the start. *)
Definition pooled (c : capability) : Prop := ∃ p, S p ∧ holds (user_context now0 db0 p) c.
Definition pooled_context (ctx : PermissionContext) : Prop := ∀ c, holds ctx c → pooled c.
Definition pooled_role (r : jstr) (row : RoleRow) : Prop :=
  pooled_context (buildRolePermissionContext r (row_def row) (row_keys row)).

Record safe (w : world) : Prop := {
  safe_time : now0 ≤ w_now w;
  safe_keys : map_ok (db_roles (w_db w));
  safe_loaded : ∀ p ctx, (p, ctx) ∈ w_loaded w → S p → pooled_context ctx;
  safe_roles : ∀ r row, map_get (db_roles (w_db w)) r = Some row →
    map_get (db_roles db0) r = Some row ∨ pooled_role r row;
  safe_players : ∀ q pl, map_get (db_players (w_db w)) q = Some pl →
    map_get (db_players db0) q = Some pl ∨ pl_roleId pl = None ∨
    ∃ r, pl_roleId pl = Some r ∧ ∀ row, map_get (db_roles (w_db w)) r = Some row → pooled_role r row;
}.

Lemma empty_holds_nothing c : ¬ holds empty_context c.
Proof.
  destruct c as [i|k|k]; cbn [holds]; [|apply not_elem_of_nil..]. intros (fl & Hi & H).
  do 13 (destruct i as [|i]; [injection Hi as <-; discriminate H|]). discriminate Hi.
Qed.

Lemma live_row_Some now db q r d ks :
  live_row now db q = Some (r, d, ks) ↔
  ∃ pl row, map_get (db_players db) q = Some pl ∧ pl_roleId pl = Some r ∧ map_get (db_roles db) r = Some row ∧
    match pl_roleExpiresAt pl with None => true | Some e => now <? e end = true ∧ row_def row = d ∧ row_keys row = ks.
Proof.
  unfold live_row. split.
  - intros H. destruct (map_get (db_players db) q) as [pl|] eqn:Hq; [|done]. cbn in H.
    destruct (pl_roleId pl) as [r'|] eqn:Hr; [|done]. cbn in H.
    destruct (map_get (db_roles db) r') as [row|] eqn:Hrow; [|done]. cbn in H.
    destruct (match pl_roleExpiresAt pl with None => _ | _ => _ end) eqn:He; [|done]. injection H as <- <- <-. eauto 10.
  - intros (pl & row & -> & Hr & Hrow & He & <- & <-). cbn. rewrite Hr. cbn. rewrite Hrow. cbn. by rewrite He.
Qed.

Lemma safe_bound w q c : safe w → holds (user_context (w_now w) (w_db w) q) c →
  holds (user_context now0 db0 q) c ∨ pooled c.
Proof.
  intros Hs. unfold user_context. destruct (live_row (w_now w) _ q) as [[[r d] ks]|] eqn:E; cbn [row_context];
    [|by intros ?%empty_holds_nothing].
  apply live_row_Some in E as (pl & row & Hq & Hr & Hrow & He & <- & <-). intros Hc.
  destruct (safe_roles _ Hs _ _ Hrow) as [Hrow0|Hp]; [|right; by apply Hp].
  destruct (safe_players _ Hs _ _ Hq) as [Hq0|[?|(r' & Hr' & Hp)]]; [|congruence|].
  - left. assert (live_row now0 db0 q = Some (r, row_def row, row_keys row)) as ->; [|done].
    apply live_row_Some. exists pl, row. repeat split; [done..|]. destruct (pl_roleExpiresAt pl); [|done].
    pose proof (safe_time _ Hs). bool_to_Prop. apply Z.ltb_lt. lia.
  - right. rewrite Hr in Hr'. injection Hr' as <-. by apply (Hp row).
Qed.

Lemma safe_pooled w p : safe w → S p → pooled_context (user_context (w_now w) (w_db w) p).
Proof. intros Hs Hp c Hc. destruct (safe_bound w p c Hs Hc); [by exists p|done]. Qed.

Hypothesis no_owner : ∀ p, S p → isOwner (user_context now0 db0 p) = false.

Lemma pooled_not_owner ctx : pooled_context ctx → isOwner ctx = false.
Proof.
  intros H. apply not_true_is_false. intros Ho. destruct (H (CapFlag 0)) as (p & Hp & fl & Hfl & Hh); [by eexists|].
  injection Hfl as <-. cbn [fst] in Hh. specialize (no_owner p Hp). congruence.
Qed.

(** Writing a role whose context is pooled keeps a world safe. *)
Lemma safe_set_role now db seen id row :
  safe (mkWorld now db seen) → pooled_role id row → safe (mkWorld now (set_role db id row) seen).
Proof.
  intros [H1 H2 H3 H4 H5] Hrow. cbn in *. split; cbn; [done|by apply map_set_ok|done| |].
  - intros r row'. rewrite map_get_set. case_bool_decide as Hid; [|apply H4]. intros [= ->]. subst. by right.
  - intros q pl Hq. destruct (H5 q pl Hq) as [?|[?|(r & Hr & Hp)]]; [by left|by right; left|]. right; right. exists r.
    split; [done|]. intros row'. rewrite map_get_set. case_bool_decide as Hid; [|apply Hp]. intros [= ->]. by subst.
Qed.

Lemma safe_delete now db seen id :
  safe (mkWorld now db seen) →
  safe (mkWorld now (mkDb (map_delete (db_roles db) id)
    ((fun kp : jstr * PlayerRow => (kp.1, strip_role id kp.2)) <$> db_players db) (db_tiers db)) seen).
Proof.
  intros [H1 H2 H3 H4 H5]. cbn in *. split; cbn; [done|by apply map_delete_ok|done| |].
  - intros r row [_ Hr]%map_delete_absent; [|done]. by apply H4.
  - intros q pl. rewrite map_get_fmap. intros (pl0 & Hq & ->)%fmap_Some. unfold strip_role.
    case_bool_decide as Hid; [by right; left|]. destruct (H5 q pl0 Hq) as [?|[?|(r & Hr & Hp)]]; [by left|by right; left|].
    right; right. exists r. split; [done|]. intros row [_ Hrow]%map_delete_absent; [|done]. by apply Hp.
Qed.

Lemma safe_set_player now db seen p pl :
  safe (mkWorld now db seen) →
  (∀ r row, pl_roleId pl = Some r → map_get (db_roles db) r = Some row → pooled_role r row) →
  safe (mkWorld now (set_player db p pl) seen).
Proof.
  intros [H1 H2 H3 H4 H5] Hpl. cbn in *. split; cbn; [done|done|done|done|].
  intros q pl'. rewrite map_get_set. case_bool_decide as Hq; [|apply H5]. intros [= <-]. right.
  destruct (pl_roleId pl) as [r|] eqn:E; [right; exists r; split; [done|by intros row; apply Hpl]|by left].
Qed.

Lemma safe_perform now db seen a act db' effs :
  safe (mkWorld now db seen) → pooled_context (actor_permissions a) →
  perform now (Some a) act db = Ok (db', effs) → safe (mkWorld now db' seen).
Proof.
  intros Hs Ha Hp. pose proof (pooled_not_owner _ Ha) as Ho. pose proof Hp as Hassign. apply assign_ok in Hassign.
  assert (∀ ctx, within ctx (actor_permissions a) → pooled_context ctx) as Hw by (intros ctx H c Hc; by apply Ha, H).
  destruct act as [id b|id b|id|p r e c|p]; cbn [perform] in Hp.
  - apply create_role_ok in Hp as (_ & Hc & _ & ->). apply safe_set_role; [done|]. apply Hw, checkGrants_within; done.
  - apply update_role_ok in Hp as (row & _ & _ & Hc & _ & _ & _ & ->). apply safe_set_role; [done|].
    apply Hw, checkGrants_within; done.
  - apply delete_role_ok in Hp as (row & _ & _ & _ & ->). by apply safe_delete.
  - destruct Hassign as (a' & current & pl & [= <-] & _ & -> & Hpl & Hc & _ & _). apply safe_set_player; [done|].
    intros r' row Hr' Hrow. rewrite <-Hpl, Hr' in Hc. by apply Hw, (checkAssignment_within db a [p] r' row).
  - destruct Hassign as (a' & current & pl & [= <-] & _ & -> & Hpl & _). apply safe_set_player; [done|]. congruence.
Qed.

Lemma safe_step w w' : world_step S w w' → safe w → safe w'.
Proof.
  intros [now now' db seen Hn|now db seen p|now db seen p ctx who act db' effs Hp Hin Hwho Hact] Hs.
  - destruct Hs as [H1 H2 H3 H4 H5]. split; cbn in *; [lia|done..].
  - pose proof (safe_pooled _ p Hs) as Hpool. destruct Hs as [H1 H2 H3 H4 H5]. split; cbn in *; [done|done| |done|done].
    intros q ctx [[= -> ->]|Hin]%elem_of_cons Hq; [by apply Hpool|by eapply H3].
  - eapply safe_perform; [done| |done]. pose proof (safe_loaded _ Hs p ctx Hin Hp) as Hctx.
    destruct Hwho as [->|[scopes ->]]; [done|]. intros c Hc. by apply Hctx, (token_within ctx scopes).
Qed.
End escalation.


(** * Owners *)

(** The constraints of the tables: primary keys, [roles_name_key]. *)
Record tables_ok (db : Db) : Prop := {
  tables_roles : map_ok (db_roles db);
  tables_players : map_ok (db_players db);
  tables_names : ∀ i j ri rj, map_get (db_roles db) i = Some ri → map_get (db_roles db) j = Some rj →
    rd_name (row_def ri) = rd_name (row_def rj) → i = j;
}.

Definition is_owner_id (db : Db) (o : jstr) : Prop :=
  ∃ row, map_get (db_roles db) o = Some row ∧ is_system_owner row = true.
Definition holds_role (db : Db) (q r : jstr) : Prop :=
  ∃ pl, map_get (db_players db) q = Some pl ∧ pl_roleId pl = Some r.

Lemma owner_name row : is_system_owner row = true → rd_name (row_def row) = js "Owner".
Proof. unfold is_system_owner, is_owner_role. intros H. by bool_to_Prop. Qed.

Lemma owner_role_id_unique db o : tables_ok db → is_owner_id db o → owner_role_id db = Some o.
Proof.
  intros [Hr _ Hn] (row & Hrow & Ho). unfold owner_role_id.
  assert ((o, row) ∈ db_roles db) as Hin by by apply elem_of_map_get.
  destruct (List.find _ _) as [[o' row']|] eqn:E.
  - apply find_some in E as [Hin' Ho']. cbn in *. f_equal. apply list_elem_of_In, elem_of_map_get in Hin'; [|done].
    eapply Hn; [done..|]. by rewrite !owner_name.
  - apply list_elem_of_In in Hin. apply (find_none _ _ E) in Hin. cbn in Hin. congruence.
Qed.

Lemma name_taken_false db id name j rj :
  map_ok (db_roles db) → name_taken db id name = false → map_get (db_roles db) j = Some rj → j ≠ id →
  rd_name (row_def rj) ≠ name.
Proof.
  intros Hok Ht Hj Hne Hn. apply elem_of_map_get in Hj; [|done]. unfold name_taken in Ht.
  apply not_true_iff_false in Ht. apply Ht, existsb_exists. exists (j, rj). split; [by apply list_elem_of_In|].
  cbn. by rewrite bool_decide_false, bool_decide_true.
Qed.

Lemma tables_set_role db id row :
  tables_ok db → (∀ j rj, map_get (db_roles db) j = Some rj → j ≠ id → rd_name (row_def rj) ≠ rd_name (row_def row)) →
  tables_ok (set_role db id row).
Proof.
  intros [Hr Hp Hn] Hname. split; cbn; [by apply map_set_ok|done|]. intros i j ri rj.
  rewrite !map_get_set. repeat case_bool_decide; intros; simplify_eq; try done; [|..|by eapply Hn].
  - exfalso. by eapply (Hname j).
  - exfalso. by eapply (Hname i).
Qed.

Lemma map_keys_fmap {K V} (f : V → V) (m : list (K * V)) :
  map_keys ((fun kv : K * V => (kv.1, f kv.2)) <$> m) = map_keys m.
Proof. unfold map_keys. rewrite <-list_fmap_compose. by apply list_fmap_ext. Qed.

Lemma perform_tables now user act db db' effs :
  tables_ok db → perform now user act db = Ok (db', effs) → tables_ok db'.
Proof.
  intros Ht Hp. pose proof Hp as Ha. apply assign_ok in Ha. pose proof Ht as [Hr Hpl Hn].
  destruct user as [a|]; [|by destruct act].
  destruct act as [id b|id b|id|p r e c|p]; cbn [perform] in Hp.
  - apply create_role_ok in Hp as (_ & _ & Hname & ->). apply tables_set_role; [done|]. intros j rj Hj Hne.
    by eapply name_taken_false.
  - apply update_role_ok in Hp as (row & Hrow & _ & _ & _ & _ & Hname & ->). apply tables_set_role; [done|].
    intros j rj Hj Hne. rewrite updated_as_proposed. cbn. destruct (ub_name b) as [n|]; cbn; [by eapply name_taken_false|].
    intros E. apply Hne. by eapply Hn.
  - apply delete_role_ok in Hp as (row & _ & _ & _ & ->). split; cbn; [by apply map_delete_ok|by unfold map_ok; rewrite map_keys_fmap|].
    intros i j ri rj [_ Hi]%map_delete_absent [_ Hj]%map_delete_absent; [by eapply Hn|done..].
  - destruct Ha as (? & ? & ? & _ & _ & -> & _). split; cbn; [done|by apply map_set_ok|done].
  - destruct Ha as (? & ? & ? & _ & _ & -> & _). split; cbn; [done|by apply map_set_ok|done].
Qed.

(** The Owner role's row is never written or deleted. *)
Lemma perform_owner_row now user act db db' effs o row :
  tables_ok db → perform now user act db = Ok (db', effs) →
  map_get (db_roles db) o = Some row → is_system_owner row = true → map_get (db_roles db') o = Some row.
Proof.
  intros Ht Hp Hrow Ho. pose proof Hp as Ha. apply assign_ok in Ha. destruct user as [a|]; [|by destruct act].
  destruct act as [id b|id b|id|p r e c|p]; cbn [perform] in Hp.
  - apply create_role_ok in Hp as (Hid & _ & _ & ->). cbn. rewrite map_get_set. case_bool_decide; [congruence|done].
  - apply update_role_ok in Hp as (row' & Hrow' & Ho' & _ & _ & _ & _ & ->). cbn. rewrite map_get_set.
    case_bool_decide; [congruence|done].
  - apply delete_role_ok in Hp as (row' & Hrow' & Ho' & _ & ->). cbn. rewrite map_get_delete by apply Ht.
    case_bool_decide; [congruence|done].
  - by destruct Ha as (? & ? & ? & _ & _ & -> & _).
  - by destruct Ha as (? & ? & ? & _ & _ & -> & _).
Qed.

Lemma elem_of_listMemberIds db r q : map_ok (db_players db) → q ∈ listMemberIds db r ↔ holds_role db q r.
Proof.
  intros Hok. unfold listMemberIds, holds_role. rewrite list_elem_of_fmap. split.
  - intros ([q' pl] & -> & [H Hin]%elem_of_jfilter). apply elem_of_map_get in Hin; [|done]. exists pl. by bool_to_Prop.
  - intros (pl & Hq & Hr). exists (q, pl). split; [done|]. apply elem_of_jfilter. split; [by rewrite bool_decide_true|].
    by apply elem_of_map_get.
Qed.

Lemma NoDup_listMemberIds db r : map_ok (db_players db) → NoDup (listMemberIds db r).
Proof.
  unfold map_ok, map_keys, listMemberIds. intros H. eapply sublist_NoDup; [exact H|]. apply sublist_fmap, jfilter_sublist.
Qed.

Lemma NoDup_other {A} `{!EqDecision A} (l : list A) x : NoDup l → (1 < length l)%nat → ∃ y, y ∈ l ∧ y ≠ x.
Proof.
  intros Hnd Hl. destruct l as [|y [|z l]]; cbn in Hl; [lia|lia|]. apply NoDup_cons in Hnd as [Hy _].
  destruct (decide (y = x)) as [->|Hne]; [exists z|exists y]; set_solver.
Qed.

(** Replacing one player's role: another Owner is left. *)
Lemma last_owner_kept db o p current pl :
  tables_ok db → is_owner_id db o → map_get (db_players db) p = Some current →
  pl_roleId pl ≠ Some o → last_owner_check db (pl_roleId current) (pl_roleId pl) = Ok tt →
  (∃ q, holds_role db q o) → ∃ q, holds_role (set_player db p pl) q o.
Proof.
  intros Ht Ho Hp Hpl Hl [q0 Hq0]. unfold last_owner_check in Hl. rewrite (owner_role_id_unique db o) in Hl by done.
  assert (∃ q, holds_role db q o ∧ q ≠ p) as (q & (plq & Hq & Hr) & Hne).
  { destruct (decide (q0 = p)) as [->|?]; [|by eauto]. destruct Hq0 as (pl0 & Hp0 & Hr0). assert (pl0 = current) as -> by congruence.
    apply refuse_if_ok in Hl. rewrite bool_decide_true in Hl by done. rewrite bool_decide_false in Hl by done. cbn in Hl.
    apply Nat.leb_gt in Hl. destruct (NoDup_other _ p (NoDup_listMemberIds db o (tables_players _ Ht)) Hl) as (q & Hq & Hne).
    apply elem_of_listMemberIds in Hq; [eauto|apply Ht]. }
  exists q, plq. cbn. rewrite map_get_set_ne by done. done.
Qed.

Lemma perform_owner_left now user act db db' effs o :
  tables_ok db → is_owner_id db o → perform now user act db = Ok (db', effs) →
  (∃ q, holds_role db q o) → ∃ q, holds_role db' q o.
Proof.
  intros Ht Ho Hp Hq. pose proof Hp as Ha. apply assign_ok in Ha. destruct user as [a|]; [|by destruct act].
  pose proof Ho as (orow & Horow & Hos).
  destruct act as [id b|id b|id|p r e c|p]; cbn [perform] in Hp.
  - by apply create_role_ok in Hp as (_ & _ & _ & ->).
  - by apply update_role_ok in Hp as (row & _ & _ & _ & _ & _ & _ & ->).
  - apply delete_role_ok in Hp as (row & Hrow & Hno & _ & ->). destruct Hq as (q & pl & Hq & Hr). exists q, pl. cbn.
    rewrite map_get_fmap, Hq. split; [|done]. cbn. unfold strip_role. rewrite bool_decide_false; [done|].
    rewrite Hr. intros [= ->]. congruence.
  - destruct Ha as (? & current & pl & _ & Hcur & -> & Hpl & _ & Hl & Hrole). subst r.
    eapply last_owner_kept; [done..| |done|done]. intros E. rewrite E in Hrole. destruct Hrole as (row & ? & ?). congruence.
  - destruct Ha as (? & current & pl & _ & Hcur & -> & Hpl & _ & Hl). eapply last_owner_kept; [done..| | |done]; by rewrite Hpl.
Qed.

(** Requests, one after another, by anybody. *)
Inductive request_step : Db → Db → Prop :=
| request now user act db db' effs : perform now user act db = Ok (db', effs) → request_step db db'.

(** The panel never loses its last Owner: after any sequence of requests, by
    anybody and Owners included, the Owner role is unchanged and somebody holds
    it. *)
Theorem owner_remains db db' o row :
  tables_ok db → map_get (db_roles db) o = Some row → is_system_owner row = true → (∃ q, holds_role db q o) →
  rtc request_step db db' →
  tables_ok db' ∧ map_get (db_roles db') o = Some row ∧ ∃ q, holds_role db' q o.
Proof.
  intros Ht Hrow Ho Hq Hr. induction Hr as [db|db1 db2 db3 [now user act ??? Hp] _ IH]; [done|].
  apply IH; [by eapply perform_tables|by eapply perform_owner_row|].
  eapply perform_owner_left; [done| |done|done]. by exists row.
Qed.

Lemma outranked_within db a r current id role :
  outranked db a r current = None → id ∈ current → Some id ≠ r → loadRolePermissions db id = Some role →
  within role (actor_permissions a).
Proof.
  induction current as [|i current IH]; intros H Hin Hne Hl; [by apply not_elem_of_nil in Hin|].
  cbn [outranked] in H. cbv zeta in H. apply elem_of_cons in Hin as [<-|Hin].
  - rewrite bool_decide_false in H by done. rewrite Hl in H. destruct (_ <? _)%nat eqn:E; [done|].
    by apply grantsBeyond_nil, length_pos_nil.
  - apply IH; [|done..]. destruct (bool_decide _); [done|]. destruct (loadRolePermissions db i); [|done].
    by destruct (_ <? _)%nat.
Qed.

Lemma elem_of_current_roles db p pl r :
  map_get (db_players db) p = Some pl → pl_roleId pl = Some r → map_ok (db_players db) → r ∈ current_roles db [p].
Proof.
  intros Hp Hr Hok. unfold current_roles.
  pose proof (elem_of_foldl_add (fun _ => true)
    (omap (fun kp : jstr * PlayerRow => if has [p] kp.1 then pl_roleId kp.2 else None) (db_players db)) [] r) as H.
  cbn in H. apply H. right. split; [|done]. apply list_elem_of_omap. exists (p, pl).
  split; [by apply elem_of_map_get|]. cbn [fst snd]. rewrite (proj2 (has_true [p] p)) by (by left). done.
Qed.

(** Who outranks you is out of reach: a request of a non-Owner leaves the
    row of every player whose role grants something the actor does not hold,
    an Owner's row in particular, and the actor's own row, unless it deletes
    the actor's own role. *)
Theorem outranking_player_untouched now a act db db' effs q pl r row :
  tables_ok db → isOwner (actor_permissions a) = false → perform now (Some a) act db = Ok (db', effs) →
  map_get (db_players db) q = Some pl → pl_roleId pl = Some r → map_get (db_roles db) r = Some row →
  (¬ within (buildRolePermissionContext r (row_def row) (row_keys row)) (actor_permissions a) ∨
   (q = playerId a ∧ act ≠ Delete r)) →
  map_get (db_players db') q = Some pl.
Proof.
  intros Ht Ho Hp Hq Hr Hrow Hout. pose proof Hp as Ha. apply assign_ok in Ha.
  assert (∀ p r', checkRoleAssignment db (Some a) [p] r' = None → p ≠ q) as Hne.
  { intros p r' Hc ->. pose proof Hc as Hc'. unfold checkRoleAssignment in Hc'. rewrite Ho in Hc'.
    destruct (has [q] (playerId a)) eqn:Hself; [done|]. destruct Hout as [Hout|[-> _]].
    - apply Hout. destruct (decide (Some r = r')) as [<-|Hr']; [by eapply checkAssignment_within|].
      destruct (match r' with Some _ => _ | None => _ end); [done|].
      eapply outranked_within; [exact Hc'|by eapply elem_of_current_roles; [..|apply Ht]|done|].
      unfold loadRolePermissions. by rewrite Hrow.
    - apply not_true_iff_false in Hself. apply Hself, has_true. by left. }
  destruct act as [id b|id b|id|p r' e c|p]; cbn [perform] in Hp.
  - by apply create_role_ok in Hp as (_ & _ & _ & ->).
  - by apply update_role_ok in Hp as (row' & _ & _ & _ & _ & _ & _ & ->).
  - apply delete_role_ok in Hp as (row' & Hrow' & _ & Hc & ->). cbn. rewrite map_get_fmap, Hq. cbn. f_equal.
    unfold strip_role. rewrite bool_decide_false; [done|]. rewrite Hr. intros [= ->]. destruct Hout as [Hout|[_ Hd]]; [|done].
    apply Hout. by eapply checkRole_within.
  - destruct Ha as (? & current & pl' & [= <-] & _ & -> & _ & Hc & _). cbn. rewrite map_get_set_ne; [done|by eapply Hne].
  - destruct Ha as (? & current & pl' & [= <-] & _ & -> & _ & Hc & _). cbn. rewrite map_get_set_ne; [done|by eapply Hne].
Qed.

(** * The ceiling and the hierarchy *)

Lemma starts_with_app (p k : jstr) : starts_with p (p ++ k) = true.
Proof. unfold starts_with. apply bool_decide_eq_true. by exists k. Qed.

Lemma actorHolds_squad ctx k : actorHolds (Some ctx) (js "squad:" ++ k) = has (Rbac.squadPermissions ctx) k.
Proof. unfold actorHolds. by rewrite starts_with_app. Qed.

Lemma actorHolds_perm ctx k : actorHolds (Some ctx) (js "perm:" ++ k) = has (permissions ctx) k.
Proof.
  unfold actorHolds. replace (starts_with (js "squad:") (js "perm:" ++ k)) with false; [by rewrite starts_with_app|].
  symmetry. apply bool_decide_eq_false. intros H. by apply prefix_cons_inv_1 in H.
Qed.

(** The flags of a role's grant, and the position each has in the hierarchy. *)
Lemma actorHolds_flag ctx f : f ∈ FLAG_CAPABILITIES → actorHolds (Some ctx) (capability_name f) = held f ctx.
Proof.
  intros Hf%list_elem_of_In. cbn [FLAG_CAPABILITIES In] in Hf. repeat destruct Hf as [<-|Hf]; try reflexivity. done.
Qed.

Lemma granted_held id row f ctx :
  is_owner_role (row_def row) = false → f ∈ FLAG_CAPABILITIES →
  within (buildRolePermissionContext id (row_def row) (row_keys row)) ctx →
  ∀ db g, map_get (db_roles db) id = Some row → loadRoleGrant db id = Some g → granted f g = true → held f ctx = true.
Proof.
  intros Ho Hf%list_elem_of_In Hw db g Hrow Hg. unfold loadRoleGrant in Hg. rewrite Hrow in Hg. injection Hg as <-.
  assert (∀ i fl, HIERARCHY_FLAGS !! i = Some fl →
    fl.1 (buildRolePermissionContext id (row_def row) (row_keys row)) = true → fl.1 ctx = true) as Hfl.
  { intros i fl Hi Ht. destruct (Hw (CapFlag i)) as (fl' & Hi' & H); [by exists fl|]. congruence. }
  unfold buildRolePermissionContext in Hfl. rewrite Ho in Hfl. cbn [orb] in Hfl.
  cbn [FLAG_CAPABILITIES In] in Hf.
  repeat (destruct Hf as [<-|Hf]; [cbn; match goal with
    | |- _ → _ => intros Hg; first
      [apply (Hfl 1%nat _ eq_refl Hg)|apply (Hfl 2%nat _ eq_refl Hg)|apply (Hfl 3%nat _ eq_refl Hg)|apply (Hfl 4%nat _ eq_refl Hg)
      |apply (Hfl 5%nat _ eq_refl Hg)|apply (Hfl 6%nat _ eq_refl Hg)|apply (Hfl 7%nat _ eq_refl Hg)|apply (Hfl 8%nat _ eq_refl Hg)
      |apply (Hfl 9%nat _ eq_refl Hg)|apply (Hfl 10%nat _ eq_refl Hg)|apply (Hfl 11%nat _ eq_refl Hg)|apply (Hfl 12%nat _ eq_refl Hg)]
    end|]). done.
Qed.

Lemma elem_of_dedup (l : list jstr) x : x ∈ foldl add_key [] l ↔ x ∈ l.
Proof.
  pose proof (elem_of_foldl_add (fun _ => true) l [] x) as H. cbn in H. rewrite H, elem_of_nil. tauto.
Qed.

Lemma elem_of_role_squad role k :
  is_owner_role role = false → k ≠ [] → k ∈ rd_squadPermissions role → k ∈ role_squad_permissions role.
Proof.
  intros Ho Hk Hin. unfold role_squad_permissions. rewrite Ho. apply elem_of_dedup, elem_of_jfilter. split; [|done].
  by rewrite bool_decide_false.
Qed.

(** The hierarchy check covers the privilege ceiling for every role whose
    explicit keys all count and whose Squad keys are not empty strings: where it
    lets an actor have the role, the ceiling finds no capability beyond the
    actor. *)
Theorem hierarchy_covers_ceiling db a id row :
  map_get (db_roles db) id = Some row →
  (∀ k, k ∈ row_keys row → explicit_counts (role_flags (row_def row)) k = true) →
  (∀ k, k ∈ rd_squadPermissions (row_def row) → k ≠ []) →
  checkRoleWithinActor db (Some a) id = None →
  roleGrantBeyondActor db id (Some (actor_permissions a)) = [].
Proof.
  intros Hrow Hkeys Hsquad Hc. unfold roleGrantBeyondActor, actor_is_owner.
  destruct (isOwner (actor_permissions a)) eqn:Ho; [done|].
  pose proof (checkRole_within _ _ _ _ Ho Hc Hrow) as Hw.
  pose proof (not_owner_within _ _ Ho Hw : is_owner_role (row_def row) = false) as Hno.
  destruct (loadRoleGrant db id) as [g|] eqn:Hg; [|done]. unfold capabilitiesBeyondActor, actor_is_owner. rewrite Ho.
  rewrite jfilter_none; [done|]. intros c Hin. apply negb_false_iff.
  unfold roleCapabilities in Hin. rewrite elem_of_dedup, !elem_of_app, !list_elem_of_fmap in Hin.
  destruct Hin as [(f & -> & [Hf Hfl]%elem_of_jfilter)|[(k & -> & Hk)|(k & -> & Hk)]].
  - rewrite actorHolds_flag by done. by eapply granted_held.
  - rewrite actorHolds_squad. apply has_true, (Hw (CapSquad k)). cbn [holds].
    unfold loadRoleGrant in Hg. rewrite Hrow in Hg. injection Hg as <-. cbn in Hk. by apply elem_of_role_squad, Hk; [|apply Hsquad].
  - rewrite actorHolds_perm. apply has_true, (Hw (CapPerm k)). cbn [holds permissions buildRolePermissionContext].
    unfold loadRoleGrant in Hg. rewrite Hrow in Hg. injection Hg as <-. cbn in Hk. apply role_panel_permissions_elem. right.
    split; [done|by apply Hkeys].
Qed.

(** * Concrete panels *)

Definition owner_def : RoleGrantDefinition :=
  mkRoleDef (js "Owner") true true true true true true true true true true true true true true [].
Definition manager_def : RoleGrantDefinition :=
  mkRoleDef (js "Manager") false true false true true false false false false false false false false true [].
(** A role whose explicit [mod:kick] row has no effect: it lacks the Squad kick. *)
Definition helper_row : RoleRow := mkRow (plain_role "Helper" true) (js "red") None [js "mod:kick"].

Definition example_db : Db :=
  mkDb [(js "owner", mkRow owner_def (js "red") None []); (js "mgr", mkRow manager_def (js "blue") None []);
        (js "mod", mkRow (plain_role "Mod" true) (js "sky") None []); (js "helper", helper_row)]
    [(js "ann", mkPlayer (Some (js "owner")) None None); (js "bob", mkPlayer (Some (js "owner")) None None);
     (js "cat", mkPlayer (Some (js "mgr")) None None); (js "dan", mkPlayer None None None)] [].

Definition as_user (p : string) : RoleActor := mkActor (js p) (user_context 0 example_db (js p)).
Definition after (user : string) (act : Action) : Db :=
  match perform 0 (Some (as_user user)) act example_db with Ok (db', _) => db' | Throw _ => example_db end.

Lemma example_accepted user act :
  is_ok (perform 0 (Some (as_user user)) act example_db) = true →
  ∃ effs, perform 0 (Some (as_user user)) act example_db = Ok (after user act, effs).
Proof. unfold after. destruct (perform _ _ _ _) as [[db' effs]|]; [|done]. by exists effs. Qed.

Lemma example_tables : tables_ok example_db.
Proof.
  split; [by apply (bool_decide_unpack _); vm_compute|by apply (bool_decide_unpack _); vm_compute|].
  assert (NoDup ((fun kr : jstr * RoleRow => rd_name (row_def kr.2)) <$> db_roles example_db)) as Hn
    by (apply (bool_decide_unpack _); by vm_compute).
  assert (map_ok (db_roles example_db)) as Hok by (apply (bool_decide_unpack _); by vm_compute).
  intros i j ri rj Hi Hj Hname. apply elem_of_map_get in Hi, Hj; [|done..].
  by assert ((i, ri) = (j, rj)) as [= -> ->] by by eapply (NoDup_fmap_inj_elem _ _ _ _ Hn).
Qed.


Lemma owner_remains_witness :
  ∃ q, holds_role (after "ann" (Unassign (js "bob"))) q (js "owner").
Proof.
  destruct (example_accepted "ann" (Unassign (js "bob"))) as [effs He]; [by vm_compute|].
  refine (proj2 (proj2 (owner_remains example_db _ (js "owner") _ example_tables eq_refl _ _ (rtc_once _ _ (request _ _ _ _ _ _ He))))).
  - by vm_compute.
  - exists (js "ann"). by eexists.
Defined.

Lemma outranking_player_untouched_witness :
  map_get (db_players (after "cat" (Assign (js "dan") (Some (js "mod")) None None))) (js "ann")
  = Some (mkPlayer (Some (js "owner")) None None).
Proof.
  destruct (example_accepted "cat" (Assign (js "dan") (Some (js "mod")) None None)) as [effs He]; [by vm_compute|].
  refine (outranking_player_untouched 0 (as_user "cat") _ example_db _ effs (js "ann") _ (js "owner") _
    example_tables _ He eq_refl eq_refl eq_refl (or_introl _)); [by vm_compute|].
  intros Hw%grantsBeyond_nil. by vm_compute in Hw.
Defined.

Lemma hierarchy_covers_ceiling_witness :
  roleGrantBeyondActor example_db (js "mod") (Some (user_context 0 example_db (js "cat"))) = [].
Proof.
  refine (hierarchy_covers_ceiling example_db (as_user "cat") (js "mod") _ eq_refl _ _ _).
  - intros k Hk. by apply not_elem_of_nil in Hk.
  - intros k Hk. by apply not_elem_of_nil in Hk.
  - by vm_compute.
Defined.

(** Without those conditions it does not cover it: a role with an explicit
    key that its flag gates hold back passes the hierarchy check of an actor
    without that key, and the ceiling names the key. *)
Theorem hierarchy_weaker_than_ceiling :
  checkRoleWithinActor example_db (Some (as_user "cat")) (js "helper") = None ∧
  roleGrantBeyondActor example_db (js "helper") (Some (actor_permissions (as_user "cat"))) = [js "perm:mod:kick"].
Proof. split; by vm_compute. Qed.

(** A non-Owner can change their own role assignment, by deleting the role
    they hold. *)
Theorem own_role_deletable :
  isOwner (actor_permissions (as_user "cat")) = false ∧
  is_ok (perform 0 (Some (as_user "cat")) (Delete (js "mgr")) example_db) = true ∧
  holds_role example_db (js "cat") (js "mgr") ∧
  map_get (db_players (after "cat" (Delete (js "mgr")))) (js "cat") = Some (mkPlayer None None None).
Proof. split; [by vm_compute|]. split; [by vm_compute|]. split; [by eexists|by vm_compute]. Qed.

(** The guard on the last Owner counts before its transaction: of two
    Owners demoting each other at the same time both pass the check, and when
    both transactions have run nobody is an Owner. *)
Theorem last_owner_race :
  is_ok (assign_check 0 (Some (as_user "ann")) (js "bob") None None example_db) = true ∧
  is_ok (assign_check 0 (Some (as_user "bob")) (js "ann") None None example_db) = true ∧
  listMemberIds example_db (js "owner") = [js "ann"; js "bob"] ∧
  listMemberIds (assign_commit (js "ann") None None None (assign_commit (js "bob") None None None example_db)) (js "owner") = [].
Proof. repeat split; by vm_compute. Qed.
