(* ===== verification/ScheduledTasks.v ===== *)
(** [apps/workers/scheduler/src/due-occurrence.ts] and [scheduled-task-tick.ts]:
    which cron or one-off occurrence of a task is due, and the tick that
    dispatches due tasks, backs off failing ones and moves their cursors. *)
From S2P Require Import Prelude JsString JsDate JsMap Cron5.

(** * Due occurrences *)

Record CronScheduleFields := mkSchedule {
  cs_recurrence : option jstr; cs_oneOffAt : option Z; cs_lastExecutedAt : option Z; cs_createdAt : Z }.

Definition resolveCronDueOccurrence (schedule : CronScheduleFields) (now : Z) : result cron_error (option Z) :=
  match cs_recurrence schedule with
  | None =>
      match cs_oneOffAt schedule, cs_lastExecutedAt schedule with
      | Some at_, None => Ok (if at_ <=? now then Some at_ else None)
      | _, _ => Ok None
      end
  | Some recurrence =>
      let cursor := default (cs_createdAt schedule) (cs_lastExecutedAt schedule) in
      let from := if bool_decide (is_Some (cs_lastExecutedAt schedule)) then cursor + 60000 else cursor in
      if from >? now then Ok None else findLastCron5Occurrence recurrence from now
  end.

(** * Tasks *)

Inductive ScheduledTaskType := restart | set_next_layer | change_layer | broadcast.
Record ScheduledTaskParams := mkParams { layer : option jstr; message : option jstr; messages : option (list jstr) }.
Record ScheduledTaskEntry := mkTask {
  id : jstr; serverId : jstr; serverName : jstr; taskType : ScheduledTaskType; params : ScheduledTaskParams;
  scheduledAt : option Z; recurrence : option jstr; lastExecutedAt : option Z; rotationIndex : Z;
  createdBy : option jstr; createdAt : Z }.

Definition resolveDueOccurrence (entry : ScheduledTaskEntry) (now : Z) : result cron_error (option Z) :=
  resolveCronDueOccurrence
    (mkSchedule (recurrence entry) (scheduledAt entry) (lastExecutedAt entry) (createdAt entry)) now.

(** What can be thrown: by [dispatchTask] itself, by a call of [deps] (with
    whether it is a [PermanentTaskDispatchError]), by the cron parser. *)
Inductive TaskError :=
| MissingLayer
| MissingMessage
| NoMessageAtCursor
| Rejected (msg : jstr) (permanent : bool)
| BadCron (e : cron_error).
Definition is_permanent (e : TaskError) : bool := match e with Rejected _ p => p | _ => false end.

Inductive EchoDetail := echo_sent | echo_failed (e : TaskError) | echo_skipped_no_author.
Inductive ScheduledTaskRunRecord :=
| run_executed (taskId : jstr) (executedAt occurrence : Z) (command : jstr) (echo : option (jstr * EchoDetail))
| run_skipped (taskId : jstr) (executedAt occurrence : Z)
| run_failed (taskId : jstr) (executedAt occurrence : Z) (err : TaskError) (permanent : bool) (attempts : Z).

(** The calls of [deps] that change something outside. *)
Inductive Op :=
| RestartServer (serverId : jstr)
| SendRconCommand (serverId command : jstr) (args : list jstr)
| SetLastExecutedAt (taskId : jstr) (executedAt : Z)
| AdvanceRotationIndex (taskId : jstr) (nextIndex : Z)
| EchoBroadcastToChat (serverId authorPlayerId message : jstr) (sentAt : Z)
| RecordRun (run : ScheduledTaskRunRecord)
| WriteAuditEntry (actionType targetId : jstr) (occurrence : Z)
| Emit (kind : jstr) (task : option jstr) (err : option TaskError).

Record TaskRetryState := mkRetry { attempts : Z; nextAttemptAt : Z }.
Abbreviation retry_map := (list (jstr * TaskRetryState)).
Definition MAX_DISPATCH_ATTEMPTS : Z := 5.
Definition RETRY_BASE_DELAY_MS : Z := 30000.
Definition RETRY_MAX_DELAY_MS : Z := 10 * 60000.

(** [deps] during one tick: which calls throw, whether the depot is being
    updated when a task is looked at, and [deps.now]. *)
Record Deps := mkDeps {
  now : Z;
  throws : Op → option TaskError;
  isDepotUpdating : jstr → result TaskError bool;
}.

(** * A state and error monad: the calls made so far and the retry map, which is
    absent when the worker supplies none *)

Record tick_state := mkTick { trace : list Op; retries : option retry_map }.
Definition tick (A : Type) : Type := tick_state → result TaskError A * tick_state.

Definition ret {A} (a : A) : tick A := fun s => (Ok a, s).
Definition fail {A} (e : TaskError) : tick A := fun s => (Throw e, s).
Definition bind {A B} (m : tick A) (k : A → tick B) : tick B :=
  fun s => match m s with (Ok a, s') => k a s' | (Throw e, s') => (Throw e, s') end.
Definition try_catch {A} (m : tick A) (h : TaskError → tick A) : tick A :=
  fun s => match m s with (Ok a, s') => (Ok a, s') | (Throw e, s') => h e s' end.
Definition lift {A} (r : result TaskError A) : tick A := fun s => (r, s).
Notation "'let*' x ':=' m 'in' k" := (bind m (fun x => k)) (at level 10, x pattern, m at level 100, k at level 200).

Section tick.
Variable deps : Deps.

(** Await one call. *)
Definition call (op : Op) : tick unit :=
  fun s => match throws deps op with
           | Some e => (Throw e, s)
           | None => (Ok tt, mkTick (trace s ++ [op]) (retries s))
           end.

Definition retries_get (key : jstr) : tick (option TaskRetryState) :=
  fun s => (Ok (m ← retries s; map_get m key), s).
Definition retries_delete (key : jstr) : tick unit :=
  fun s => (Ok tt, mkTick (trace s) ((fun m => map_delete m key) <$> retries s)).
Definition retries_set (key : jstr) (v : TaskRetryState) : tick unit :=
  fun s => (Ok tt, mkTick (trace s) ((fun m => map_set m key v) <$> retries s)).

(** * Dispatch *)

Definition SERVER_TOKEN : jstr := js "{server}".
(** [template.replace(/\{server\}/g, name)]; [skip] counts the characters of a
    match still to be passed over. *)
Fixpoint replace_server (name : jstr) (skip : nat) (s : jstr) : jstr :=
  match s with
  | [] => []
  | c :: s' =>
      match skip with
      | S k => replace_server name k s'
      | O => if starts_with SERVER_TOKEN s then name ++ replace_server name 7 s' else c :: replace_server name 0 s'
      end
  end.

Definition broadcast_list (p : ScheduledTaskParams) : list jstr :=
  match messages p with
  | Some l => l
  | None => match message p with Some ((_ :: _) as m) => [m] | _ => [] end
  end.

(** [list[i]] for an integer [i]. *)
Definition js_index (l : list jstr) (i : Z) : option jstr := if i <? 0 then None else l !! Z.to_nat i.

Definition dispatchTask (entry : ScheduledTaskEntry) : tick (jstr * option (jstr * nat)) :=
  match taskType entry with
  | restart =>
      let* _ := call (RestartServer (serverId entry)) in
      ret (js "restart", None)
  | set_next_layer | change_layer =>
      match layer (params entry) with
      | None | Some [] => fail MissingLayer
      | Some l =>
          let command := match taskType entry with change_layer => js "AdminChangeLayer" | _ => js "AdminSetNextLayer" end in
          let* _ := call (SendRconCommand (serverId entry) command [l]) in
          ret (command, None)
      end
  | broadcast =>
      let list := broadcast_list (params entry) in
      if (length list =? 0)%nat then fail MissingMessage
      else match js_index list (Z.rem (rotationIndex entry) (Z.of_nat (length list))) with
           | None => fail NoMessageAtCursor
           | Some template =>
               let text := replace_server (serverName entry) 0 template in
               let* _ := call (SendRconCommand (serverId entry) (js "AdminBroadcast") [text]) in
               ret (js "AdminBroadcast", Some (text, length list))
           end
  end.

Definition recordSuccessfulDispatch (entry : ScheduledTaskEntry) (occurrence : Z) (command : jstr)
    (bc : option (jstr * nat)) : tick unit :=
  let* _ := call (SetLastExecutedAt (id entry) occurrence) in
  let* echo :=
    match bc with
    | None => ret None
    | Some (text, listLength) =>
        let* _ := if (1 <? listLength)%nat
                  then call (AdvanceRotationIndex (id entry) (Z.rem (rotationIndex entry + 1) (Z.of_nat listLength)))
                  else ret tt in
        match createdBy entry with
        | None => ret (Some (text, echo_skipped_no_author))
        | Some author =>
            try_catch
              (let* _ := call (EchoBroadcastToChat (serverId entry) author text (now deps)) in
               ret (Some (text, echo_sent)))
              (fun e => let* _ := call (Emit (js "scheduled_task.echo_failed") (Some (id entry)) (Some e)) in
                        ret (Some (text, echo_failed e)))
        end
    end in
  let* _ := call (RecordRun (run_executed (id entry) (now deps) occurrence command echo)) in
  call (WriteAuditEntry (js "server.scheduled_task.execute") (id entry) occurrence).

(** * The tick *)

Record ScheduledTaskTickResult := mkResult { executed : Z; skippedDepotUpdate : Z; failed : Z }.

Definition retryKey (taskId : jstr) (occurrence : Z) : jstr := taskId ++ 58 :: int_str occurrence.

Definition backoff (n : Z) : Z := Z.min (RETRY_BASE_DELAY_MS * 2 ^ n) RETRY_MAX_DELAY_MS.

(** The [catch] of a dispatch. *)
Definition dispatch_failed (entry : ScheduledTaskEntry) (occurrence : Z) (retryState : option TaskRetryState)
    (err : TaskError) : tick unit :=
  let n := match retryState with Some r => attempts r | None => 0 end + 1 in
  let exhausted := MAX_DISPATCH_ATTEMPTS <=? n in
  let permanent := is_permanent err || exhausted in
  let* _ := call (RecordRun (run_failed (id entry) (now deps) occurrence err permanent n)) in
  let* _ := call (Emit (js "scheduled_task.dispatch_failed") (Some (id entry)) (Some err)) in
  if permanent then
    let* _ := retries_delete (retryKey (id entry) occurrence) in
    call (SetLastExecutedAt (id entry) occurrence)
  else retries_set (retryKey (id entry) occurrence) (mkRetry n (now deps + backoff n)).

(** The body of the loop for a task whose [occurrence] is due. *)
Definition process_due (entry : ScheduledTaskEntry) (occurrence : Z) (acc : ScheduledTaskTickResult)
    : tick ScheduledTaskTickResult :=
  let key := retryKey (id entry) occurrence in
  let* retryState := retries_get key in
  if match retryState with Some r => now deps <? nextAttemptAt r | None => false end then ret acc
  else
    let* updating := lift (isDepotUpdating deps (id entry)) in
    if updating then
      let* _ := call (RecordRun (run_skipped (id entry) (now deps) occurrence)) in
      let* _ := call (WriteAuditEntry (js "server.scheduled_task.skip_depot_update") (id entry) occurrence) in
      let* _ := call (Emit (js "scheduled_task.skipped_depot_update") (Some (id entry)) None) in
      ret (mkResult (executed acc) (skippedDepotUpdate acc + 1) (failed acc))
    else
      let* dispatched := try_catch (let* r := dispatchTask entry in ret (inl r)) (fun e => ret (inr e)) in
      match dispatched with
      | inr err =>
          let* _ := dispatch_failed entry occurrence retryState err in
          ret (mkResult (executed acc) (skippedDepotUpdate acc) (failed acc + 1))
      | inl (command, bc) =>
          let* _ := retries_delete key in
          try_catch
            (let* _ := recordSuccessfulDispatch entry occurrence command bc in
             ret (mkResult (executed acc + 1) (skippedDepotUpdate acc) (failed acc)))
            (fun e => let* _ := call (Emit (js "scheduled_task.bookkeeping_failed") (Some (id entry)) (Some e)) in ret acc)
      end.

Definition cron_result {A} (r : result cron_error A) : result TaskError A :=
  match r with Ok a => Ok a | Throw e => Throw (BadCron e) end.

Definition process_entry (entry : ScheduledTaskEntry) (acc : ScheduledTaskTickResult) : tick ScheduledTaskTickResult :=
  let* occurrence := lift (cron_result (resolveDueOccurrence entry (now deps))) in
  match occurrence with
  | None => ret acc
  | Some occurrence => process_due entry occurrence acc
  end.

Fixpoint process_entries (entries : list ScheduledTaskEntry) (acc : ScheduledTaskTickResult)
    : tick ScheduledTaskTickResult :=
  match entries with
  | [] => ret acc
  | entry :: entries => let* acc := process_entry entry acc in process_entries entries acc
  end.

(** [loaded] is the answer of [loadEnabledTasks]. *)
Definition runScheduledTaskTick (loaded : result TaskError (list ScheduledTaskEntry)) : tick ScheduledTaskTickResult :=
  try_catch
    (let* entries := lift loaded in
     let* r := process_entries entries (mkResult 0 0 0) in
     let* _ := call (Emit (js "scheduled_task.run_ok") None None) in
     ret r)
    (fun e => let* _ := call (Emit (js "scheduled_task.run_failed") None (Some e)) in fail e).
End tick.

(** * Over many ticks *)

(** What a call does to the rows of [scheduled_tasks]. *)
Definition apply_op (tasks : list ScheduledTaskEntry) (op : Op) : list ScheduledTaskEntry :=
  match op with
  | SetLastExecutedAt i t =>
      (fun e => if bool_decide (id e = i)
                then mkTask (id e) (serverId e) (serverName e) (taskType e) (params e) (scheduledAt e) (recurrence e)
                       (Some t) (rotationIndex e) (createdBy e) (createdAt e)
                else e) <$> tasks
  | AdvanceRotationIndex i n =>
      (fun e => if bool_decide (id e = i)
                then mkTask (id e) (serverId e) (serverName e) (taskType e) (params e) (scheduledAt e) (recurrence e)
                       (lastExecutedAt e) n (createdBy e) (createdAt e)
                else e) <$> tasks
  | _ => tasks
  end.

(** The table, the worker's retry map, and every call so far. *)
Record scheduler := mkScheduler { tasks : list ScheduledTaskEntry; retry_of : retry_map; calls : list Op }.

Definition scheduler_tick (s : scheduler) (deps : Deps) : scheduler :=
  let '(_, s') := runScheduledTaskTick deps (Ok (tasks s)) (mkTick [] (Some (retry_of s))) in
  mkScheduler (foldl apply_op (tasks s) (trace s')) (default [] (retries s')) (calls s ++ trace s').

(** * Due occurrences, exactly *)

Lemma floor_after c u : minute_aligned u → set_utc_seconds (c + 60000) 0 0 ≤ u ↔ c < u.
Proof.
  rewrite set_utc_seconds_floor. unfold minute_aligned, ms_per_minute. intros Hu.
  split; intros H; Z.to_euclidean_division_equations; lia.
Qed.

(** The minutes a schedule may still fire at: after the cursor; before the first
    run, from the minute of creation on. *)
Definition pending_minute (schedule : CronScheduleFields) (u : Z) : Prop :=
  minute_aligned u ∧
  match cs_lastExecutedAt schedule with
  | Some c => c < u
  | None => set_utc_seconds (cs_createdAt schedule) 0 0 ≤ u
  end.

(** A recurring schedule is due at the latest matching minute after its
    cursor (from the minute of its creation on before its first run) and not
    after [now]; it is not due only when there is none or all lie more than
    1830 days back. A one-off schedule is due when its time has come and it has
    never run. Stated for expressions whose day rule agrees with [cron5Matches]
    and cursors on whole minutes, as every cron occurrence is. *)
Theorem due_occurrence_exact schedule now :
  cs_createdAt schedule ≤ now → (∀ c, cs_lastExecutedAt schedule = Some c → minute_aligned c) →
  match cs_recurrence schedule with
  | Some expression =>
      ∀ e, parseCron5 expression = Ok e → day_rules_agree e = true →
      match resolveCronDueOccurrence schedule now with
      | Ok (Some t) =>
          pending_minute schedule t ∧ t ≤ now ∧ cron5Matches e t = true ∧
          ∀ u, pending_minute schedule u → u ≤ now → cron5Matches e u = true → u ≤ t
      | Ok None =>
          ∀ u, pending_minute schedule u → u ≤ now → cron5Matches e u = true →
               MAX_LOOKBACK_DAYS ≤ day_of now - day_of u
      | Throw _ => False
      end
  | None =>
      resolveCronDueOccurrence schedule now =
      Ok (if bool_decide (cs_lastExecutedAt schedule = None)
          then at_ ← cs_oneOffAt schedule; if at_ <=? now then Some at_ else None else None)
  end.
Proof.
  intros Hcr Hal. destruct (cs_recurrence schedule) as [expression|] eqn:Hr; unfold resolveCronDueOccurrence; rewrite Hr.
  - intros e He Ha. cbv zeta. unfold pending_minute. destruct (cs_lastExecutedAt schedule) as [c|]; cbn [default from_option]; unfold Datatypes.id.
    + rewrite bool_decide_true by done. destruct (c + 60000 >? now) eqn:E; bool_to_Prop.
      * intros u [Hu Hc] Hn _. rewrite <-floor_after in Hc by done. rewrite set_utc_seconds_floor in Hc.
        specialize (Hal c eq_refl).
        unfold minute_aligned, ms_per_minute in *. Z.to_euclidean_division_equations. lia.
      * pose proof (findLast_latest_aux expression (c + 60000) now e He Ha ltac:(lia)) as H.
        destruct (findLastCron5Occurrence _ _ _) as [[t|]|]; [|..|done].
        -- destruct H as (Ht & [H1 H2] & Hm & Hmax). rewrite floor_after in H1 by done.
           repeat split; [done..|]. intros u [Hu Hc] Hn. rewrite <-floor_after in Hc by done. by apply Hmax.
        -- intros u [Hu Hc] Hn. rewrite <-floor_after in Hc by done. by apply H.
    + rewrite bool_decide_false by (by intros []). destruct (cs_createdAt schedule >? now) eqn:E; bool_to_Prop.
      * lia.
      * pose proof (findLast_latest_aux expression (cs_createdAt schedule) now e He Ha ltac:(lia)) as H.
        destruct (findLastCron5Occurrence _ _ _) as [[t|]|]; [|..|done].
        -- destruct H as (Ht & [H1 H2] & Hm & Hmax). repeat split; [done..|]. intros u [Hu Hc] Hn. by apply Hmax.
        -- intros u [Hu Hc] Hn. by apply H.
  - destruct (cs_oneOffAt schedule), (cs_lastExecutedAt schedule); rewrite ?bool_decide_true, ?bool_decide_false by done; done.
Qed.

(** * At most one run and five failures per occurrence *)

Definition is_dispatch (op : Op) : bool :=
  match op with RestartServer _ | SendRconCommand _ _ _ => true | _ => false end.

(** Only restarts and RCON commands fail. *)
Definition reliable (deps : Deps) : Prop := ∀ op, is_dispatch op = false → throws deps op = None.

Definition executed_at (i : jstr) (op : Op) : option Z :=
  match op with RecordRun (run_executed j _ o _ _) => if bool_decide (j = i) then Some o else None | _ => None end.
Definition failed_at (i : jstr) (o : Z) (op : Op) : bool :=
  match op with RecordRun (run_failed j _ o' _ _ _) => bool_decide (j = i) && (o' =? o) | _ => false end.

Definition executed_of (i : jstr) (log : list Op) : list Z := omap (executed_at i) log.
Definition failures (i : jstr) (o : Z) (log : list Op) : Z := Z.of_nat (length (jfilter (failed_at i o) log)).

Definition attempts_of (m : retry_map) (i : jstr) (o : Z) : Z :=
  match map_get m (retryKey i o) with Some r => attempts r | None => 0 end.

(** An occurrence beyond the cursor may still fall due. *)
Definition open (cursor : option Z) (o : Z) : Prop := match cursor with Some c => c < o | None => True end.

Definition cursor_of (ts : list ScheduledTaskEntry) (i : jstr) : option (option Z) :=
  lastExecutedAt <$> List.find (fun e => bool_decide (id e = i)) ts.

Record task_inv (i : jstr) (cursor : option Z) (m : retry_map) (log : list Op) : Prop := {
  inv_sorted : StronglySorted Z.lt (executed_of i log);
  inv_past : ∀ o, o ∈ executed_of i log → ∃ c, cursor = Some c ∧ o ≤ c;
  inv_failures : ∀ o, failures i o log ≤ MAX_DISPATCH_ATTEMPTS;
  inv_attempts : ∀ o, open cursor o →
    failures i o log = attempts_of m i o ∧ failures i o log < MAX_DISPATCH_ATTEMPTS;
}.

Definition sched_inv (ts : list ScheduledTaskEntry) (m : retry_map) (log : list Op) : Prop :=
  map_ok m ∧ ∀ i cursor, cursor_of ts i = Some cursor → task_inv i cursor m log.

Lemma retryKey_inj i o j p : retryKey i o = retryKey j p → i = j ∧ o = p.
Proof.
  unfold retryKey. intros H. apply (f_equal reverse) in H. rewrite !reverse_app, !reverse_cons, <-!app_assoc in H. cbn in H.
  assert (∀ n, 58 ∉ reverse (int_str n)) as Hn by (intros n Hin%elem_of_reverse%int_str_chars; lia).
  apply separator_inj in H as [H1 H2]; [|done..]. apply (inj reverse) in H1, H2. split; [done|]. by apply int_str_inj.
Qed.

Lemma failures_app i o l k : failures i o (l ++ k) = failures i o l + failures i o k.
Proof. unfold failures. rewrite jfilter_app, length_app. lia. Qed.

Lemma executed_of_app i l k : executed_of i (l ++ k) = executed_of i l ++ executed_of i k.
Proof. unfold executed_of. apply omap_app. Qed.

Lemma attempts_set m i o v j p :
  attempts_of (map_set m (retryKey i o) v) j p = if bool_decide (i = j ∧ o = p) then attempts v else attempts_of m j p.
Proof.
  unfold attempts_of. rewrite map_get_set. case_bool_decide as H.
  - apply retryKey_inj in H. by rewrite bool_decide_true.
  - rewrite bool_decide_false; [done|]. intros [-> ->]. done.
Qed.

Lemma attempts_delete m i o j p :
  map_ok m → attempts_of (map_delete m (retryKey i o)) j p = if bool_decide (i = j ∧ o = p) then 0 else attempts_of m j p.
Proof.
  intros Hm. unfold attempts_of. rewrite map_get_delete by done. case_bool_decide as H.
  - apply retryKey_inj in H. by rewrite bool_decide_true.
  - rewrite bool_decide_false; [done|]. intros [-> ->]. done.
Qed.

Lemma cursor_apply ts op i :
  cursor_of (apply_op ts op) i =
  match op with
  | SetLastExecutedAt j t => if bool_decide (j = i) then (fun _ => Some t) <$> cursor_of ts i else cursor_of ts i
  | _ => cursor_of ts i
  end.
Proof.
  unfold cursor_of. destruct op as [| |j t|j n| | | |]; try done; cbn [apply_op].
  - induction ts as [|e ts IH]; csimpl; [by case_bool_decide|]. destruct (decide (id e = j)) as [Hj|Hj].
    + rewrite (bool_decide_true (id e = j)) by done. csimpl. destruct (decide (id e = i)) as [Hi|Hi].
      * rewrite !(bool_decide_true (id e = i)) by done. csimpl. by rewrite bool_decide_true by congruence.
      * by rewrite !(bool_decide_false (id e = i)) by done.
    + rewrite (bool_decide_false (id e = j)) by done. destruct (decide (id e = i)) as [Hi|Hi].
      * rewrite !(bool_decide_true (id e = i)) by done. csimpl. by rewrite bool_decide_false by congruence.
      * by rewrite !(bool_decide_false (id e = i)) by done.
  - induction ts as [|e ts IH]; csimpl; [done|]. destruct (decide (id e = j)) as [Hj|Hj].
    + rewrite (bool_decide_true (id e = j)) by done. csimpl. by case_bool_decide.
    + rewrite (bool_decide_false (id e = j)) by done. by case_bool_decide.
Qed.

(** Calls of other tasks, or without a run record and a cursor. *)
Definition silent_for (i : jstr) (ops : list Op) : Prop :=
  executed_of i ops = [] ∧ (∀ o, failures i o ops = 0) ∧ ∀ t, SetLastExecutedAt i t ∉ ops.

Lemma silent_cursor ts i ops : silent_for i ops → cursor_of (foldl apply_op ts ops) i = cursor_of ts i.
Proof.
  intros (_ & _ & H). revert ts. induction ops as [|op ops IH]; intros ts; cbn [foldl]; [done|].
  rewrite IH by (intros t Hin; apply (H t); by right). rewrite cursor_apply. destruct op as [| |j t|j n| | | |]; try done.
  rewrite bool_decide_false; [done|]. intros ->. apply (H t). by left.
Qed.

Lemma silent_inv i cursor m m' log ops :
  silent_for i ops → (∀ o, attempts_of m' i o = attempts_of m i o) → task_inv i cursor m log → task_inv i cursor m' (log ++ ops).
Proof.
  intros (He & Hf & _) Hm [H1 H2 H3 H4]. split; rewrite ?executed_of_app, ?He, ?app_nil_r; try done.
  - intros o. rewrite failures_app, Hf, Z.add_0_r. apply H3.
  - intros o Ho. rewrite failures_app, Hf, Z.add_0_r, Hm. by apply H4.
Qed.

(** A dispatched occurrence: recorded once, the cursor moved to it. *)
Lemma executed_inv i cursor m log ops o :
  map_ok m → task_inv i cursor m log → open cursor o → executed_of i ops = [o] → (∀ p, failures i p ops = 0) →
  task_inv i (Some o) (map_delete m (retryKey i o)) (log ++ ops).
Proof.
  intros Hm [H1 H2 H3 H4] Ho He Hf.
  assert (∀ p, p ∈ executed_of i log → p < o) as Hlt.
  { intros p (c & -> & Hp)%H2. cbn in Ho. lia. }
  split; rewrite ?executed_of_app, ?He.
  - apply StronglySorted_app. split; [|split; [done|by repeat constructor]].
    intros p q Hp ->%list_elem_of_singleton. by apply Hlt.
  - intros p [Hp%Hlt| ->%list_elem_of_singleton]%elem_of_app; exists o; (split; [done|lia]).
  - intros p. rewrite failures_app, Hf, Z.add_0_r. apply H3.
  - intros p Hp. cbn in Hp. rewrite failures_app, Hf, Z.add_0_r, attempts_delete by done.
    rewrite bool_decide_false by lia. apply H4. destruct cursor; cbn in *; [lia|done].
Qed.

(** A failed dispatch given up on: the cursor moved to it. *)
Lemma given_up_inv i cursor m log ops o :
  map_ok m → task_inv i cursor m log → open cursor o → executed_of i ops = [] →
  (∀ p, failures i p ops = if o =? p then 1 else 0) →
  task_inv i (Some o) (map_delete m (retryKey i o)) (log ++ ops).
Proof.
  intros Hm [H1 H2 H3 H4] Ho He Hf. split; rewrite ?executed_of_app, ?He, ?app_nil_r; [done|..].
  - intros p (c & -> & Hp)%H2. exists o. cbn in Ho. split; [done|lia].
  - intros p. rewrite failures_app, Hf. destruct (Z.eqb_spec o p) as [<-|]; [specialize (H4 o Ho)|specialize (H3 p)]; lia.
  - intros p Hp. cbn in Hp. rewrite failures_app, Hf, attempts_delete by done.
    rewrite bool_decide_false by lia. rewrite (proj2 (Z.eqb_neq o p)) by lia. rewrite Z.add_0_r.
    apply H4. destruct cursor; cbn in *; [lia|done].
Qed.

(** A failed dispatch to be retried. *)
Lemma backed_off_inv i cursor m log ops o v :
  task_inv i cursor m log → open cursor o → executed_of i ops = [] →
  (∀ p, failures i p ops = if o =? p then 1 else 0) → attempts v = attempts_of m i o + 1 → attempts v < MAX_DISPATCH_ATTEMPTS →
  task_inv i cursor (map_set m (retryKey i o) v) (log ++ ops).
Proof.
  intros [H1 H2 H3 H4] Ho He Hf Hv Hlt. split; rewrite ?executed_of_app, ?He, ?app_nil_r; [done|done|..].
  - intros p. rewrite failures_app, Hf. destruct (Z.eqb_spec o p) as [<-|]; [specialize (H4 o Ho)|specialize (H3 p)]; lia.
  - intros p Hp. rewrite failures_app, Hf, attempts_set. specialize (H4 p Hp).
    destruct (Z.eqb_spec o p) as [<-|Hne]; [rewrite bool_decide_true by done; lia|].
    rewrite bool_decide_false by (by intros [_ ?]). lia.
Qed.

Lemma silent_dispatch i ops : Forall (fun op => is_dispatch op = true) ops → silent_for i ops.
Proof.
  induction 1 as [|op ops Hop _ (IH1 & IH2 & IH3)]; [split; [done|split; [done|by intros t ?%not_elem_of_nil]]|].
  destruct op; try done; (split; [done|split; [done|intros t [?|?]%elem_of_cons; [done|by apply (IH3 t)]]]).
Qed.

Lemma silent_app i l k : silent_for i l → silent_for i k → silent_for i (l ++ k).
Proof.
  intros (H1 & H2 & H3) (K1 & K2 & K3). split; [by rewrite executed_of_app, H1, K1|]. split.
  - intros o. by rewrite failures_app, H2, K2.
  - intros t [?|?]%elem_of_app; [by apply (H3 t)|by apply (K3 t)].
Qed.

(** The state after calls [ops], as the table, the map and the log see it. *)
Definition seen_inv (ts : list ScheduledTaskEntry) (log : list Op) (s : tick_state) (m : retry_map) : Prop :=
  retries s = Some m ∧ sched_inv (foldl apply_op ts (trace s)) m (log ++ trace s).

Lemma extend_inv ts log s m i cursor m' ops cursor' :
  seen_inv ts log s m → cursor_of (foldl apply_op ts (trace s)) i = Some cursor → map_ok m' →
  (∀ j, j ≠ i → silent_for j ops) → (∀ j o, j ≠ i → attempts_of m' j o = attempts_of m j o) →
  cursor_of (foldl apply_op ts (trace s ++ ops)) i = Some cursor' → task_inv i cursor' m' (log ++ trace s ++ ops) →
  seen_inv ts log (mkTick (trace s ++ ops) (Some m')) m' ∧
  ∀ j, j ≠ i → cursor_of (foldl apply_op ts (trace s ++ ops)) j = cursor_of (foldl apply_op ts (trace s)) j.
Proof.
  intros [Hs [Hm Hinv]] Hc Hm' Hsil Hatt Hc' Hi.
  assert (∀ j, j ≠ i → cursor_of (foldl apply_op ts (trace s ++ ops)) j = cursor_of (foldl apply_op ts (trace s)) j) as Hj.
  { intros j Hj. rewrite foldl_app. by apply silent_cursor, Hsil. }
  split; [|done]. split; [done|]. split; [done|]. cbn [trace]. intros j cur Hcur.
  destruct (decide (j = i)) as [->|Hne]; [rewrite Hc' in Hcur; by injection Hcur as <-|].
  rewrite Hj in Hcur by done. rewrite app_assoc. eapply silent_inv; [by apply Hsil|by intros o; apply Hatt|by apply Hinv].
Qed.

(** [extend_inv] for calls that concern no task. *)
Lemma extend_silent ts log s m ops :
  seen_inv ts log s m → (∀ j, silent_for j ops) →
  seen_inv ts log (mkTick (trace s ++ ops) (Some m)) m ∧
  ∀ j, cursor_of (foldl apply_op ts (trace s ++ ops)) j = cursor_of (foldl apply_op ts (trace s)) j.
Proof.
  intros [Hs [Hm Hinv]] Hsil.
  assert (∀ j, cursor_of (foldl apply_op ts (trace s ++ ops)) j = cursor_of (foldl apply_op ts (trace s)) j) as Hj
    by (intros j; rewrite foldl_app; by apply silent_cursor).
  split; [|done]. split; [done|]. split; [done|]. cbn [trace]. intros j cur Hcur. rewrite Hj in Hcur. rewrite app_assoc.
  eapply silent_inv; [done|done|by apply Hinv].
Qed.

Section one_tick.
Variables (deps : Deps) (Hrel : reliable deps).

Lemma call_ok op s : is_dispatch op = false → call deps op s = (Ok tt, mkTick (trace s ++ [op]) (retries s)).
Proof. intros Hop. unfold call. by rewrite (Hrel op Hop). Qed.

Lemma dispatchTask_trace e s r s' :
  dispatchTask deps e s = (r, s') →
  retries s' = retries s ∧ ∃ ops, trace s' = trace s ++ ops ∧ Forall (fun op => is_dispatch op = true) ops.
Proof.
  assert (∀ op (k : jstr * option (jstr * nat)), is_dispatch op = true → (let* _ := call deps op in ret k) s = (r, s') →
    retries s' = retries s ∧ ∃ ops, trace s' = trace s ++ ops ∧ Forall (fun op => is_dispatch op = true) ops) as Hcall.
  { intros op k Hop. unfold bind, call, ret. destruct (throws deps op); intros [= _ <-].
    - split; [done|]. exists []. by rewrite app_nil_r.
    - split; [done|]. exists [op]. split; [done|by repeat constructor]. }
  assert (∀ err, @fail (jstr * option (jstr * nat)) err s = (r, s') →
    retries s' = retries s ∧ ∃ ops, trace s' = trace s ++ ops ∧ Forall (fun op => is_dispatch op = true) ops) as Hfail.
  { intros err [= _ <-]. split; [done|]. exists []. by rewrite app_nil_r. }
  unfold dispatchTask. destruct (taskType e); [by apply Hcall|..].
  - destruct (layer (params e)) as [[|]|]; [apply Hfail|by apply Hcall|apply Hfail].
  - destruct (layer (params e)) as [[|]|]; [apply Hfail|by apply Hcall|apply Hfail].
  - cbv zeta. destruct (_ =? _)%nat; [apply Hfail|]. destruct (js_index _ _); [by apply Hcall|apply Hfail].
Qed.

(** Bookkeeping of a success: the cursor, then the run. *)
Lemma recordSuccessfulDispatch_ok e o command bc s :
  ∃ mid run, recordSuccessfulDispatch deps e o command bc s =
    (Ok tt, mkTick (trace s ++ SetLastExecutedAt (id e) o :: mid ++
      [RecordRun (run_executed (id e) (now deps) o command run); WriteAuditEntry (js "server.scheduled_task.execute") (id e) o])
      (retries s)) ∧ ∀ j, silent_for j mid.
Proof.
  unfold recordSuccessfulDispatch, bind, try_catch, ret. rewrite call_ok by done.
  assert (∀ j, silent_for j []) as Hnil by (intros j; apply silent_dispatch; constructor).
  assert (∀ j i n, silent_for j [AdvanceRotationIndex i n]) as Hadv
    by (intros j i n; split; [done|split; [done|intros t [?|?%not_elem_of_nil]%elem_of_cons; done]]).
  assert (∀ j a b c t, silent_for j [EchoBroadcastToChat a b c t]) as Hecho
    by (intros j a b c t; split; [done|split; [done|intros t' [?|?%not_elem_of_nil]%elem_of_cons; done]]).
  destruct bc as [[text n]|]; [|exists [], None; rewrite !call_ok by done; cbn [trace retries]; rewrite <-!app_assoc; done].
  destruct (1 <? n)%nat, (createdBy e) as [author|]; rewrite !call_ok by done; cbn [trace retries]; rewrite <-!app_assoc; cbn [app].
  - eexists [_; _], _. split; [reflexivity|]. intros j. apply (silent_app j [_] [_]); done.
  - eexists [_], _. split; [reflexivity|]. done.
  - eexists [_], _. split; [reflexivity|]. done.
  - eexists [], _. split; [reflexivity|]. done.
Qed.

Lemma silent_other j i ops o command run :
  j ≠ i → silent_for j ops →
  silent_for j (SetLastExecutedAt i o :: ops ++
    [RecordRun (run_executed i (now deps) o command run); WriteAuditEntry (js "server.scheduled_task.execute") i o]).
Proof.
  intros Hne Hs. apply (silent_app j [_]); [|apply silent_app; [done|]].
  - split; [done|split; [done|]]. intros t [[= -> ->]|?%not_elem_of_nil]%elem_of_cons; done.
  - split; [|split; [done|]].
    + cbn. by rewrite bool_decide_false.
    + intros t [?|[?|?%not_elem_of_nil]%elem_of_cons]%elem_of_cons; done.
Qed.

Lemma success_inv ts log s m e o command bc r s' :
  seen_inv ts log s m → cursor_of (foldl apply_op ts (trace s)) (id e) = Some (lastExecutedAt e) → open (lastExecutedAt e) o →
  recordSuccessfulDispatch deps e o command bc (mkTick (trace s) (Some (map_delete m (retryKey (id e) o)))) = (r, s') →
  r = Ok tt ∧ ∃ m', seen_inv ts log s' m' ∧
  ∀ j, j ≠ id e → cursor_of (foldl apply_op ts (trace s')) j = cursor_of (foldl apply_op ts (trace s)) j.
Proof.
  intros Hs Hc Ho Hr. destruct (recordSuccessfulDispatch_ok e o command bc
    (mkTick (trace s) (Some (map_delete m (retryKey (id e) o))))) as (mid & run & Heq & Hmid).
  rewrite Heq in Hr. injection Hr as <- <-. split; [done|]. cbn [trace retries].
  exists (map_delete m (retryKey (id e) o)).
  pose proof Hs as [_ [Hm Hinv]].
  refine (extend_inv _ _ _ _ (id e) _ _ _ (Some o) Hs Hc (map_delete_ok _ _ Hm) _ _ _ _).
  - intros j Hj. by apply silent_other.
  - intros j p Hj. rewrite attempts_delete by done. by rewrite bool_decide_false by (by intros [? _]).
  - rewrite foldl_app. cbn [foldl]. rewrite foldl_app. cbn [foldl]. rewrite !cursor_apply, silent_cursor by done.
    rewrite cursor_apply, Hc, bool_decide_true by done. done.
  - rewrite app_assoc. eapply executed_inv; [done|by apply Hinv|done|..].
    + change (executed_of (id e) ([SetLastExecutedAt (id e) o] ++ mid ++
        [RecordRun (run_executed (id e) (now deps) o command run);
         WriteAuditEntry (js "server.scheduled_task.execute") (id e) o]) = [o]).
      rewrite !executed_of_app. destruct (Hmid (id e)) as (-> & _). cbn. by rewrite bool_decide_true.
    + intros p. change (failures (id e) p ([SetLastExecutedAt (id e) o] ++ mid ++
        [RecordRun (run_executed (id e) (now deps) o command run);
         WriteAuditEntry (js "server.scheduled_task.execute") (id e) o]) = 0).
      rewrite !failures_app. by destruct (Hmid (id e)) as (_ & -> & _).
Qed.

Lemma failures_failed i p j t o err perm n em :
  failed_at i p em = false →
  failures i p [RecordRun (run_failed j t o err perm n); em] = if bool_decide (j = i) && (o =? p) then 1 else 0.
Proof. intros Hem. unfold failures, jfilter. cbn [List.filter failed_at]. rewrite Hem. by destruct (_ && _). Qed.

Lemma failure_inv ts log s m e o err r s' :
  seen_inv ts log s m → cursor_of (foldl apply_op ts (trace s)) (id e) = Some (lastExecutedAt e) → open (lastExecutedAt e) o →
  dispatch_failed deps e o (map_get m (retryKey (id e) o)) err s = (r, s') →
  r = Ok tt ∧ ∃ m', seen_inv ts log s' m' ∧
  ∀ j, j ≠ id e → cursor_of (foldl apply_op ts (trace s')) j = cursor_of (foldl apply_op ts (trace s)) j.
Proof.
  intros Hs Hc Ho. unfold dispatch_failed, bind. rewrite !call_ok by done.
  change (match map_get m (retryKey (id e) o) with Some r => attempts r | None => 0 end) with (attempts_of m (id e) o).
  set (n := attempts_of m (id e) o + 1). set (run := run_failed _ _ _ _ _ n). set (em := Emit _ _ _).
  assert (∀ j, j ≠ id e → silent_for j [RecordRun run; em]) as Hsil.
  { intros j Hj. split; [done|split].
    - intros p. subst run em. rewrite failures_failed by done. by rewrite bool_decide_false.
    - intros t [?|[?|?%not_elem_of_nil]%elem_of_cons]%elem_of_cons; done. }
  assert (∀ p, failures (id e) p [RecordRun run; em] = if o =? p then 1 else 0) as Hf.
  { intros p. subst run em. rewrite failures_failed by done. by rewrite bool_decide_true. }
  pose proof Hs as [Hret [Hm Hinv]]. cbn [trace retries]. rewrite Hret. rewrite <-app_assoc. cbn [app].
  destruct (is_permanent err || (MAX_DISPATCH_ATTEMPTS <=? n)) eqn:E; intros Hr.
  - unfold retries_delete in Hr. rewrite call_ok in Hr by done. injection Hr as <- <-. split; [done|].
    cbn [trace retries fmap option_fmap option_map]. rewrite <-app_assoc. eexists.
    refine (extend_inv _ _ _ _ (id e) _ _ _ (Some o) Hs Hc (map_delete_ok _ _ Hm) _ _ _ _).
    + intros j Hj. apply (silent_app j [RecordRun run; em]); [by apply Hsil|].
      split; [done|split; [done|]]. intros t [[= -> ->]|?%not_elem_of_nil]%elem_of_cons; done.
    + intros j p Hj. rewrite attempts_delete by done. by rewrite bool_decide_false by (by intros [? _]).
    + rewrite foldl_app. cbn [foldl app]. rewrite !cursor_apply, Hc, bool_decide_true by done. done.
    + rewrite app_assoc. eapply given_up_inv; [done|by apply Hinv|done|done|].
      intros p. change (failures (id e) p ([RecordRun run; em] ++ [SetLastExecutedAt (id e) o]) = if o =? p then 1 else 0).
      rewrite failures_app, Hf. by destruct (o =? p).
  - bool_to_Prop. injection Hr as <- <-. split; [done|]. cbn [fmap option_fmap option_map]. eexists.
    refine (extend_inv _ _ _ _ (id e) _ _ _ _ Hs Hc (map_set_ok _ _ _ Hm) Hsil _ _ _).
    + intros j p Hj. rewrite attempts_set. by rewrite bool_decide_false by (by intros [? _]).
    + rewrite foldl_app. cbn [foldl]. rewrite !cursor_apply. exact Hc.
    + rewrite app_assoc. eapply backed_off_inv; [by apply Hinv|done|done|done|done|done].
Qed.
(** What the loop keeps: the invariant, and the cursors of the other tasks. *)
Definition kept (ts : list ScheduledTaskEntry) (log : list Op) (i : jstr) (s s' : tick_state) : Prop :=
  ∃ m', seen_inv ts log s' m' ∧
  ∀ j, j ≠ i → cursor_of (foldl apply_op ts (trace s')) j = cursor_of (foldl apply_op ts (trace s)) j.

Lemma kept_refl ts log i s m : seen_inv ts log s m → kept ts log i s s.
Proof. intros H. by exists m. Qed.

Lemma silent_skip j a b c d :
  silent_for j [RecordRun (run_skipped a b c); WriteAuditEntry d a c; Emit (js "scheduled_task.skipped_depot_update") (Some a) None].
Proof.
  split; [done|split; [done|]]. intros t Hin. repeat (apply elem_of_cons in Hin as [?|Hin]; [done|]). by apply not_elem_of_nil in Hin.
Qed.

Lemma process_due_kept ts log s m e o acc r s' :
  seen_inv ts log s m → cursor_of (foldl apply_op ts (trace s)) (id e) = Some (lastExecutedAt e) → open (lastExecutedAt e) o →
  process_due deps e o acc s = (r, s') → kept ts log (id e) s s'.
Proof.
  intros Hs Hc Ho. pose proof Hs as [Hret _]. unfold process_due, bind at 1, retries_get. rewrite Hret. cbn [mbind option_bind].
  destruct (match map_get m (retryKey (id e) o) with Some _ => _ | None => _ end);
    [intros [= _ <-]; by eapply kept_refl|].
  unfold bind at 1, lift. destruct (isDepotUpdating deps (id e)) as [[|]|]; [| |intros [= _ <-]; by eapply kept_refl].
  - unfold bind, ret. rewrite !call_ok by done. cbn [trace retries]. rewrite <-!app_assoc, Hret. intros [= _ <-].
    destruct (extend_silent ts log s m _ Hs (fun j => silent_skip j (id e) (now deps) o
      (js "server.scheduled_task.skip_depot_update"))) as [Hi Hj]. by exists m.
  - unfold bind at 1, try_catch at 1, bind at 1, ret at 1. destruct (dispatchTask deps e s) as [d s1] eqn:Hd.
    apply dispatchTask_trace in Hd as (Hr1 & ops & Ht1 & Hops).
    assert (seen_inv ts log s1 m ∧ ∀ j, cursor_of (foldl apply_op ts (trace s1)) j = cursor_of (foldl apply_op ts (trace s)) j)
      as [Hs1 Hj1].
    { destruct (extend_silent ts log s m ops Hs (fun j => silent_dispatch j ops Hops)) as [[_ Hi] Hj].
      rewrite Ht1. split; [|done]. split; [congruence|]. rewrite Ht1. done. }
    rewrite <-(Hj1 (id e)) in Hc. destruct d as [[command bc]|err].
    + unfold bind at 1, retries_delete. destruct Hs1 as [Hr1' Hi1]. rewrite Hr1'. cbn [fmap option_fmap option_map].
      unfold try_catch, bind at 1. destruct (recordSuccessfulDispatch _ _ _ _ _ _) as [d s2] eqn:H2.
      eapply success_inv in H2 as (-> & m' & Hs2 & Hj2); [|by split|done|done]. intros [= _ <-]. exists m'.
      split; [done|]. intros j Hj. by rewrite Hj2, Hj1.
    + unfold ret, bind. destruct (dispatch_failed deps e o _ err s1) as [d s2] eqn:H2.
      eapply failure_inv in H2 as (-> & m' & Hs2 & Hj2); [|done..]. intros [= _ <-]. exists m'.
      split; [done|]. intros j Hj. by rewrite Hj2, Hj1.
Qed.

(** A due occurrence lies beyond the cursor. *)
Lemma due_open e t o : resolveDueOccurrence e t = Ok (Some o) → open (lastExecutedAt e) o.
Proof.
  unfold resolveDueOccurrence, resolveCronDueOccurrence. cbn [cs_recurrence cs_oneOffAt cs_lastExecutedAt cs_createdAt].
  unfold open. destruct (lastExecutedAt e) as [c|]; [|done]. destruct (recurrence e) as [expr|]; [|by destruct (scheduledAt e)].
  rewrite bool_decide_true by done. cbn [default from_option]. unfold Datatypes.id. destruct (_ >? _); [done|].
  intros [Ha [Hw _]]%findLast_window. by apply floor_after in Hw.
Qed.

Lemma process_entry_kept ts log s m e acc r s' :
  seen_inv ts log s m → cursor_of (foldl apply_op ts (trace s)) (id e) = Some (lastExecutedAt e) →
  process_entry deps e acc s = (r, s') → kept ts log (id e) s s'.
Proof.
  intros Hs Hc. unfold process_entry, bind, lift, cron_result.
  destruct (resolveDueOccurrence e (now deps)) as [[o|]|] eqn:E; [|intros [= _ <-]; by eapply kept_refl..].
  apply due_open in E. by eapply process_due_kept.
Qed.

Lemma process_entries_kept ts log es acc s m r s' :
  NoDup (id <$> es) → (∀ e, e ∈ es → cursor_of (foldl apply_op ts (trace s)) (id e) = Some (lastExecutedAt e)) →
  seen_inv ts log s m → process_entries deps es acc s = (r, s') → ∃ m', seen_inv ts log s' m'.
Proof.
  revert acc s m. induction es as [|e es IH]; intros acc s m Hnd Hc Hs.
  { intros [= _ <-]. by exists m. }
  rewrite fmap_cons in Hnd. apply NoDup_cons in Hnd as [He Hnd].
  cbn [process_entries]. unfold bind. destruct (process_entry deps e acc s) as [d s1] eqn:H1.
  eapply process_entry_kept in H1 as (m1 & Hs1 & Hj1); [|done|by apply Hc; left].
  destruct d as [acc'|err]; [|intros [= _ <-]; by exists m1]. apply (IH acc' s1 m1); [done| |done].
  intros e' He'. rewrite Hj1; [apply Hc; by right|]. intros Heq. apply He. rewrite <-Heq. by apply list_elem_of_fmap_2.
Qed.

Lemma cursor_of_elem es e : NoDup (id <$> es) → e ∈ es → cursor_of es (id e) = Some (lastExecutedAt e).
Proof.
  intros Hnd He. unfold cursor_of. destruct (List.find _ _) as [e'|] eqn:E.
  - apply find_some in E as [Hin Heq]. apply bool_decide_eq_true in Heq. apply list_elem_of_In in Hin.
    assert (e' = e) as -> by by eapply NoDup_fmap_inj_elem. done.
  - apply list_elem_of_In in He. apply (find_none _ _ E) in He. by rewrite bool_decide_true in He.
Qed.

Lemma silent_emit j k t e : silent_for j [Emit k t e].
Proof. split; [done|split; [done|]]. intros t' [?|?%not_elem_of_nil]%elem_of_cons; done. Qed.

Lemma tick_inv s :
  NoDup (id <$> tasks s) → sched_inv (tasks s) (retry_of s) (calls s) →
  let s' := scheduler_tick s deps in sched_inv (tasks s') (retry_of s') (calls s').
Proof.
  intros Hnd Hinv. cbv zeta. unfold scheduler_tick.
  assert (seen_inv (tasks s) (calls s) (mkTick [] (Some (retry_of s))) (retry_of s)) as H0
    by (split; [done|]; cbn; by rewrite app_nil_r).
  destruct (runScheduledTaskTick deps _ _) as [r s'] eqn:E.
  assert (∃ m', seen_inv (tasks s) (calls s) s' m') as (m' & Hret & Hi); [|by rewrite Hret].
  unfold runScheduledTaskTick, try_catch, bind, lift in E.
  destruct (process_entries _ _ _ _) as [d s1] eqn:E1.
  eapply (process_entries_kept (tasks s) (calls s)) in E1 as (m1 & H1); [|done|intros e He; by apply cursor_of_elem|done].
  destruct (extend_silent _ _ _ _ _ H1 (fun j => silent_emit j (js "scheduled_task.run_ok") None None)) as [Hok _].
  pose proof H1 as [Hr1 _]. destruct d as [acc|err]; rewrite call_ok in E by done.
  - injection E as _ <-. rewrite Hr1. by exists m1.
  - destruct (extend_silent _ _ _ _ _ H1 (fun j => silent_emit j (js "scheduled_task.run_failed") None (Some err))) as [Hf _].
    injection E as _ <-. rewrite Hr1. by exists m1.
Qed.
End one_tick.

Lemma apply_ops_ids ts ops : id <$> foldl apply_op ts ops = id <$> ts.
Proof.
  revert ts. induction ops as [|op ops IH]; intros ts; cbn [foldl]; [done|]. rewrite IH.
  destruct op; try done; cbn [apply_op]; rewrite <-list_fmap_compose; apply list_fmap_ext; intros ? e _; cbn; by case_bool_decide.
Qed.

Lemma tick_ids s deps : id <$> tasks (scheduler_tick s deps) = id <$> tasks s.
Proof. unfold scheduler_tick. destruct (runScheduledTaskTick _ _ _). apply apply_ops_ids. Qed.


(** * One failing task does not hold up the others *)

(** A step of task [i]: calls are only added, other tasks' retries are kept. *)
Definition frame (i : jstr) (s s' : tick_state) : Prop :=
  trace s `prefix_of` trace s' ∧
  ∀ j o, j ≠ i → (retries s' ≫= (fun m => map_get m (retryKey j o))) = (retries s ≫= (fun m => map_get m (retryKey j o))).
Definition framed {A} (i : jstr) (m : tick A) : Prop := ∀ s, frame i s (m s).2.

Lemma frame_refl i s : frame i s s.
Proof. done. Qed.
Lemma frame_trans i s1 s2 s3 : frame i s1 s2 → frame i s2 s3 → frame i s1 s3.
Proof. intros [H1 H2] [H3 H4]. split; [by etrans|]. intros j o Hj. by rewrite H4, H2. Qed.

Lemma framed_ret {A} i (a : A) : framed i (ret a).
Proof. intros s. apply frame_refl. Qed.
Lemma framed_lift {A} i (r : result TaskError A) : framed i (lift r).
Proof. intros s. apply frame_refl. Qed.
Lemma framed_fail {A} i e : framed i (@fail A e).
Proof. intros s. apply frame_refl. Qed.
Lemma framed_get i k : framed i (retries_get k).
Proof. intros s. apply frame_refl. Qed.
Lemma framed_call i deps op : framed i (call deps op).
Proof. intros s. unfold call. destruct (throws deps op); [apply frame_refl|]. split; [by eexists|done]. Qed.
Lemma framed_bind {A B} i (m : tick A) (k : A → tick B) : framed i m → (∀ a, framed i (k a)) → framed i (bind m k).
Proof.
  intros Hm Hk s. unfold bind. specialize (Hm s). destruct (m s) as [[a|e] s1]; [|done].
  eapply frame_trans; [done|apply Hk].
Qed.
Lemma framed_try {A} i (m : tick A) h : framed i m → (∀ e, framed i (h e)) → framed i (try_catch m h).
Proof.
  intros Hm Hh s. unfold try_catch. specialize (Hm s). destruct (m s) as [[a|e] s1]; [done|].
  eapply frame_trans; [done|apply Hh].
Qed.
Lemma framed_set i o v : framed i (retries_set (retryKey i o) v).
Proof.
  intros s. split; [done|]. cbn. intros j p Hj. destruct (retries s) as [m|]; [|done]. cbn.
  apply map_get_set_ne. by intros [-> _]%retryKey_inj.
Qed.
Lemma framed_delete i o : framed i (retries_delete (retryKey i o)).
Proof.
  intros s. split; [done|]. cbn. intros j p Hj. destruct (retries s) as [m|]; [|done]. cbn.
  apply map_get_delete_ne. by intros [-> _]%retryKey_inj.
Qed.

Create HintDb ticks.
#[local] Hint Resolve framed_ret framed_lift framed_fail framed_get framed_call framed_set framed_delete : ticks.
Ltac framed :=
  repeat (intros; cbv zeta; first [solve [auto with ticks] | apply framed_bind | apply framed_try | case_match]).

Lemma framed_dispatchTask i deps e : framed i (dispatchTask deps e).
Proof. unfold dispatchTask. framed. Qed.
Lemma framed_record i deps e o c bc : framed i (recordSuccessfulDispatch deps e o c bc).
Proof. unfold recordSuccessfulDispatch. framed. Qed.
Lemma framed_failed deps e o r err : framed (id e) (dispatch_failed deps e o r err).
Proof. unfold dispatch_failed. framed. Qed.
#[local] Hint Resolve framed_dispatchTask framed_record framed_failed : ticks.

Lemma framed_process deps e acc : framed (id e) (process_entry deps e acc).
Proof. unfold process_entry, process_due. framed. Qed.

(** The one outside action of a task, when its parameters name one. *)
Definition dispatch_op (entry : ScheduledTaskEntry) : option Op :=
  match taskType entry with
  | restart => Some (RestartServer (serverId entry))
  | set_next_layer | change_layer =>
      match layer (params entry) with
      | None | Some [] => None
      | Some l => Some (SendRconCommand (serverId entry)
                    (match taskType entry with change_layer => js "AdminChangeLayer" | _ => js "AdminSetNextLayer" end) [l])
      end
  | broadcast =>
      let list := broadcast_list (params entry) in
      template ← js_index list (Z.rem (rotationIndex entry) (Z.of_nat (length list)));
      Some (SendRconCommand (serverId entry) (js "AdminBroadcast") [replace_server (serverName entry) 0 template])
  end.

(** The calls whose failure would end the whole tick succeed: diagnostics, the
    cursor, the records of skipped and failed runs, the look at the depot. *)
Record steady (deps : Deps) : Prop := {
  steady_emit : ∀ k t e, throws deps (Emit k t e) = None;
  steady_cursor : ∀ i t, throws deps (SetLastExecutedAt i t) = None;
  steady_skipped : ∀ i n o, throws deps (RecordRun (run_skipped i n o)) = None;
  steady_failed : ∀ i n o e p a, throws deps (RecordRun (run_failed i n o e p a)) = None;
  steady_audit : ∀ i o, throws deps (WriteAuditEntry (js "server.scheduled_task.skip_depot_update") i o) = None;
  steady_depot : ∀ i, is_ok (isDepotUpdating deps i) = true;
}.

Definition total {A} (m : tick A) : Prop := ∀ s, is_ok (m s).1 = true.

Lemma total_ret {A} (a : A) : total (ret a).
Proof. done. Qed.
Lemma total_lift {A} (r : result TaskError A) : is_ok r = true → total (lift r).
Proof. intros H s. exact H. Qed.
Lemma total_get k : total (retries_get k).
Proof. done. Qed.
Lemma total_set k v : total (retries_set k v).
Proof. done. Qed.
Lemma total_delete k : total (retries_delete k).
Proof. done. Qed.
Lemma total_call deps op : throws deps op = None → total (call deps op).
Proof. intros H s. unfold call. by rewrite H. Qed.
Lemma total_bind {A B} (m : tick A) (k : A → tick B) : total m → (∀ a, total (k a)) → total (bind m k).
Proof. intros Hm Hk s. unfold bind. specialize (Hm s). destruct (m s) as [[a|e] s1]; [apply Hk|done]. Qed.
Lemma total_try {A} (m : tick A) h : (∀ e, total (h e)) → total (try_catch m h).
Proof. intros Hh s. unfold try_catch. destruct (m s) as [[a|e] s1]; [done|apply Hh]. Qed.
#[local] Hint Resolve total_ret total_lift total_get total_set total_delete total_call : ticks.
#[local] Hint Resolve steady_emit steady_cursor steady_skipped steady_failed steady_audit steady_depot : ticks.

Ltac total :=
  repeat (intros; cbv zeta; first [solve [auto with ticks] | apply total_bind | apply total_try | case_match]).

Lemma total_failed deps e o r err : steady deps → total (dispatch_failed deps e o r err).
Proof. intros Hs. unfold dispatch_failed. total. Qed.
#[local] Hint Resolve total_failed : ticks.

Lemma total_process deps e acc :
  steady deps → is_ok (resolveDueOccurrence e (now deps)) = true → total (process_entry deps e acc).
Proof.
  intros Hs Hr. unfold process_entry. apply total_bind; [|intros [o|]; unfold process_due; total].
  apply total_lift. unfold cron_result. by destruct (resolveDueOccurrence e (now deps)).
Qed.

Lemma dispatchTask_sends deps e op s :
  dispatch_op e = Some op → throws deps op = None →
  ∃ r, dispatchTask deps e s = (Ok r, mkTick (trace s ++ [op]) (retries s)).
Proof.
  unfold dispatch_op, dispatchTask. intros Hop Ht. destruct (taskType e).
  - apply (inj Some) in Hop; subst op. unfold bind, call. rewrite Ht. by eexists.
  - destruct (layer (params e)) as [[|c l]|]; [done| |done]. apply (inj Some) in Hop; subst op. unfold bind, call. rewrite Ht. by eexists.
  - destruct (layer (params e)) as [[|c l]|]; [done| |done]. apply (inj Some) in Hop; subst op. unfold bind, call. rewrite Ht. by eexists.
  - cbv zeta in *. destruct (js_index _ _) as [template|] eqn:E; [|done]. apply (inj Some) in Hop; subst op.
    destruct (broadcast_list (params e)) as [|x l]; [unfold js_index in E; by destruct (_ <? 0)|].
    cbn [length Nat.eqb]. unfold bind, call. rewrite Ht. by eexists.
Qed.

Lemma process_entry_sends deps e o op acc s :
  resolveDueOccurrence e (now deps) = Ok (Some o) → isDepotUpdating deps (id e) = Ok false →
  dispatch_op e = Some op → throws deps op = None →
  (∀ r, (retries s ≫= (fun m => map_get m (retryKey (id e) o))) = Some r → nextAttemptAt r ≤ now deps) →
  op ∈ trace (process_entry deps e acc s).2.
Proof.
  intros Hr Hd Hop Ht Hback. unfold process_entry, bind at 1, lift at 1, cron_result. rewrite Hr.
  unfold process_due, bind at 1, retries_get. 
  destruct (match (retries s ≫= _) with Some _ => _ | None => _ end) eqn:Hb.
  { destruct (retries s ≫= _) as [r|]; [|done]. bool_to_Prop. specialize (Hback r eq_refl). lia. }
  unfold bind at 1, lift. rewrite Hd. destruct (dispatchTask_sends deps e op s Hop Ht) as [[command bc] Hs].
  unfold bind at 1, try_catch at 1, bind at 1. rewrite Hs. unfold ret at 1.
  set (k := bind _ _). assert (framed (id e) k) as Hk by (subst k; framed).
  destruct (Hk (mkTick (trace s ++ [op]) (retries s))) as [[rest ->] _]. set_solver.
Qed.

Lemma process_entries_frame deps es acc s :
  trace s `prefix_of` trace (process_entries deps es acc s).2.
Proof.
  revert acc s. induction es as [|e es IH]; intros acc s; cbn [process_entries]; [done|]. unfold bind.
  destruct (framed_process deps e acc s) as [Hp _]. destruct (process_entry deps e acc s) as [[acc'|err] s1]; [|done].
  etrans; [exact Hp|apply IH].
Qed.

Lemma process_entries_sends deps es acc s e o op :
  steady deps → (∀ e, e ∈ es → is_ok (resolveDueOccurrence e (now deps)) = true) → NoDup (id <$> es) → e ∈ es →
  resolveDueOccurrence e (now deps) = Ok (Some o) → isDepotUpdating deps (id e) = Ok false →
  dispatch_op e = Some op → throws deps op = None →
  (∀ r, (retries s ≫= (fun m => map_get m (retryKey (id e) o))) = Some r → nextAttemptAt r ≤ now deps) →
  op ∈ trace (process_entries deps es acc s).2.
Proof.
  intros Hst Hcron Hnd He Hr Hd Hop Ht. revert acc s. induction es as [|e' es IH]; [by apply not_elem_of_nil in He|].
  intros acc s Hback. rewrite fmap_cons in Hnd. apply NoDup_cons in Hnd as [He' Hnd]. cbn [process_entries]. unfold bind.
  pose proof (framed_process deps e' acc s) as [Hp Hret].
  pose proof (total_process deps e' acc Hst (Hcron e' ltac:(by left)) s) as Htot.
  apply elem_of_cons in He as [<-|He].
  - pose proof (process_entry_sends deps e o op acc s Hr Hd Hop Ht Hback) as Hin.
    destruct (process_entry deps e acc s) as [[acc'|err] s1]; [|done]. cbn [snd] in *.
    eapply elem_of_prefix; [exact Hin|apply process_entries_frame].
  - assert (id e ≠ id e') as Hid by (intros Heq; apply He'; rewrite <-Heq; by apply list_elem_of_fmap_2).
    destruct (process_entry deps e' acc s) as [[acc'|err] s1]; [|done]. cbn [snd] in *. apply IH; [|done|done|].
    + intros x Hx. apply Hcron. by right.
    + intros r. rewrite Hret by done. apply Hback.
Qed.

(** One failing task does not hold up the others: when the loaded crons parse
    and the tick's diagnostics, cursor and skip or failure records are written,
    the tick returns, and every due task that is not backing off, whose dispatch
    is possible and succeeds, and during which the depot is not being updated,
    has its restart or RCON command sent, whatever happens to the dispatches
    and the bookkeeping of the other tasks. *)
Theorem tick_serves_every_due_task deps es m e o op :
  steady deps → (∀ e, e ∈ es → is_ok (resolveDueOccurrence e (now deps)) = true) → NoDup (id <$> es) → e ∈ es →
  resolveDueOccurrence e (now deps) = Ok (Some o) → isDepotUpdating deps (id e) = Ok false →
  dispatch_op e = Some op → throws deps op = None →
  (∀ r, map_get m (retryKey (id e) o) = Some r → nextAttemptAt r ≤ now deps) →
  is_ok (runScheduledTaskTick deps (Ok es) (mkTick [] (Some m))).1 = true ∧
  op ∈ trace (runScheduledTaskTick deps (Ok es) (mkTick [] (Some m))).2.
Proof.
  intros Hst Hcron Hnd He Hr Hd Hop Ht Hback. 
  pose proof (process_entries_sends deps es (mkResult 0 0 0) (mkTick [] (Some m)) e o op
    Hst Hcron Hnd He Hr Hd Hop Ht Hback) as Hin.
  assert (total (process_entries deps es (mkResult 0 0 0))) as Htot.
  { clear -Hst Hcron. generalize (mkResult 0 0 0). induction es as [|x es IH]; intros acc; cbn [process_entries]; [done|].
    apply total_bind; [apply total_process; [done|apply Hcron; by left]|]. intros acc'. apply IH. intros y Hy. apply Hcron. by right. }
  specialize (Htot (mkTick [] (Some m))).
  destruct (process_entries deps es (mkResult 0 0 0) (mkTick [] (Some m))) as [[r|err] s1] eqn:E; [|done]. cbn [snd] in Hin.
  assert (runScheduledTaskTick deps (Ok es) (mkTick [] (Some m))
    = (Ok r, mkTick (trace s1 ++ [Emit (js "scheduled_task.run_ok") None None]) (retries s1))) as ->.
  { unfold runScheduledTaskTick, try_catch, bind, lift. rewrite E. unfold call. by rewrite (steady_emit _ Hst). }
  split; [done|]. apply elem_of_app. by left.
Qed.

(** * Concrete schedules *)

Definition every_minute : jstr := js "* * * * *".
Definition minute0 : Z := 1733011200000.
Definition task (i server : string) (last : option Z) : ScheduledTaskEntry :=
  mkTask (js i) (js server) (js server) restart (mkParams None None None) None (Some every_minute) last 0 None (minute0 - 1).

(** Restarts of server [b] fail, everything else works. *)
Definition b_down (t : Z) : Deps :=
  mkDeps t (fun op => match op with RestartServer s => if bool_decide (s = js "b") then Some (Rejected (js "down") false) else None
                               | _ => None end) (fun _ => Ok false).

Lemma b_down_reliable t : reliable (b_down t).
Proof. intros op Hop. by destruct op. Qed.
Lemma b_down_steady t : steady (b_down t).
Proof. by split. Qed.

Lemma due_occurrence_exact_witness :
  resolveCronDueOccurrence (mkSchedule (Some every_minute) None (Some minute0) 0) (minute0 + 200000) = Ok (Some (minute0 + 180000)) ∧
  minute0 < minute0 + 180000.
Proof.
  assert (resolveCronDueOccurrence (mkSchedule (Some every_minute) None (Some minute0) 0) (minute0 + 200000)
    = Ok (Some (minute0 + 180000))) as E by (vm_compute; reflexivity).
  split; [exact E|].
  pose proof (due_occurrence_exact (mkSchedule (Some every_minute) None (Some minute0) 0) (minute0 + 200000)
    ltac:(cbn; unfold minute0; lia) ltac:(intros c [= <-]; vm_compute; reflexivity)) as H.
  cbn [cs_recurrence] in H. specialize (H (Cron5 None None None None None true true) ltac:(vm_compute; reflexivity) eq_refl).
  rewrite E in H. exact (proj2 (proj1 H)).
Defined.

Definition example_tasks : list ScheduledTaskEntry := [task "x" "a" None; task "y" "b" None].
Definition example_ticks : list Deps := b_down <$> [minute0; minute0 + 5000; minute0 + 61000; minute0 + 62000].

Lemma example_tasks_ok : NoDup (id <$> example_tasks) ∧ js "x" ∈ id <$> example_tasks ∧ Forall reliable example_ticks.
Proof.
  split; [apply (bool_decide_unpack _); by vm_compute|]. split; [by left|]. repeat constructor; apply b_down_reliable.
Qed.


Definition reversed_tasks : list ScheduledTaskEntry := [task "y" "b" None; task "x" "a" None].

Lemma reversed_due e : e ∈ reversed_tasks → resolveDueOccurrence e (now (b_down minute0)) = Ok (Some minute0).
Proof.
  intros He. repeat (apply elem_of_cons in He as [->|He]; [vm_compute; reflexivity|]). by apply not_elem_of_nil in He.
Qed.

Lemma reversed_ids : NoDup (id <$> reversed_tasks).
Proof. apply (bool_decide_unpack _). by vm_compute. Qed.

Lemma tick_serves_every_due_task_witness :
  RestartServer (js "a") ∈ trace (runScheduledTaskTick (b_down minute0) (Ok reversed_tasks) (mkTick [] (Some []))).2.
Proof.
  assert (task "x" "a" None ∈ reversed_tasks) as Hin by (right; by left).
  assert (throws (b_down minute0) (RestartServer (js "a")) = None) as Ht by (vm_compute; reflexivity).
  assert (∀ e, e ∈ reversed_tasks → is_ok (resolveDueOccurrence e (now (b_down minute0))) = true) as Hcron
    by (intros e He; by rewrite (reversed_due e He)).
  destruct (tick_serves_every_due_task (b_down minute0) reversed_tasks [] (task "x" "a" None) minute0 (RestartServer (js "a"))
    (b_down_steady _) Hcron reversed_ids Hin (reversed_due _ Hin) eq_refl eq_refl Ht) as [_ H].
  - intros r Hr. discriminate Hr.
  - exact H.
Defined.

(** A recurring task that has never run is due at a matching minute that began
    before the task was created. *)
Theorem fires_before_creation :
  resolveCronDueOccurrence (mkSchedule (Some (js "0 0 * * *")) None None (minute0 + 45000)) (minute0 + 50000)
  = Ok (Some minute0).
Proof. vm_compute. reflexivity. Qed.

(** The retry state of an occurrence is never removed once a later occurrence
    of the task has taken its place. *)
Theorem superseded_retry_kept :
  map_keys (retry_of (foldl scheduler_tick (mkScheduler [task "y" "b" None] [] [])
    (b_down <$> [minute0; minute0 + 60000; minute0 + 120000])))
  = [retryKey (js "y") minute0; retryKey (js "y") (minute0 + 60000); retryKey (js "y") (minute0 + 120000)].
Proof. vm_compute. reflexivity. Qed.
