(* ===== verification/DepotLock.v ===== *)
(** [apps/api/src/lib/depot-lock.ts]: the fleet-wide mutex for depot updates, a
    Redis key with a random token per holder, renewed by a timer and released
    by compare-and-delete. *)
From S2P Require Import Prelude JsString JsDate.

Definition DEPOT_LOCK_TTL_SECONDS : Z := 3600.
Definition DEPOT_LOCK_RENEW_INTERVAL_MS : Z := 60000.

(** * The key *)

(** The stored value and its expiry; Redis drops the key once the clock reaches
    the expiry. *)
Record redis := mkRedis { clock : Z; stored : option (jstr * Z) }.

Definition redis_get (r : redis) : option jstr :=
  match stored r with Some (v, e) => if clock r <? e then Some v else None | None => None end.

(** [SET key value PX ttl NX]. *)
Definition set_px_nx (r : redis) (v : jstr) (ttlMs : Z) : redis * bool :=
  match redis_get r with
  | Some _ => (r, false)
  | None => (mkRedis (clock r) (Some (v, clock r + ttlMs)), true)
  end.

Definition RENEW_SCRIPT (r : redis) (v : jstr) (ttlMs : Z) : redis * Z :=
  if bool_decide (redis_get r = Some v) then (mkRedis (clock r) (Some (v, clock r + ttlMs)), 1) else (r, 0).

Definition RELEASE_SCRIPT (r : redis) (v : jstr) : redis * Z :=
  if bool_decide (redis_get r = Some v) then (mkRedis (clock r) None, 1) else (r, 0).

(** * Values *)

Definition lock_value (startedAt uuid : jstr) : jstr := startedAt ++ 32 :: uuid.
Definition depotLockStartedAt (value : jstr) : jstr := default value (head (split_on 32 value)).

(** * Holders *)

(** A held lock: its value, the time of its last renewal, whether its timer runs. *)
Record holder := mkHolder { value : jstr; renewedAt : Z; renewing : bool }.

(** All API processes together: the key, the locks held, the values used. *)
Record fleet := mkFleet { server : redis; holders : list holder; used : list jstr }.

Definition acquireDepotLock (ttlMs : Z) (f : fleet) (v : jstr) : fleet * bool :=
  let '(r, acquired) := set_px_nx (server f) v ttlMs in
  if acquired
  then (mkFleet r (mkHolder v (clock r) true :: holders f) (v :: used f), true)
  else (mkFleet r (holders f) (v :: used f), false).

(** The timer fires for the lock [h]; [ok] says whether the round trip worked. *)
Definition renew (ttlMs : Z) (f : fleet) (h : holder) (ok : bool) : fleet :=
  let others := jfilter (fun h' => negb (bool_decide (value h' = value h))) (holders f) in
  if ok then
    let '(r, renewed) := RENEW_SCRIPT (server f) (value h) ttlMs in
    if renewed =? 0 then mkFleet r (mkHolder (value h) (renewedAt h) false :: others) (used f)
    else mkFleet r (mkHolder (value h) (clock r) true :: others) (used f)
  else f.

Definition release (f : fleet) (h : holder) : fleet * bool :=
  let '(r, deleted) := RELEASE_SCRIPT (server f) (value h) in
  (mkFleet r (jfilter (fun h' => negb (bool_decide (value h' = value h))) (holders f)) (used f), deleted =? 1).

(** A process dies: its lock stops being renewed and is never released. *)
Definition crash (f : fleet) (h : holder) : fleet :=
  mkFleet (server f) (jfilter (fun h' => negb (bool_decide (value h' = value h))) (holders f)) (used f).

Definition advance (f : fleet) (d : Z) : fleet :=
  mkFleet (mkRedis (clock (server f) + d) (stored (server f))) (holders f) (used f).

Section fleet.
Variable ttlMs : Z.

(** Every lock held was renewed less than its lifetime ago. *)
Definition timely (f : fleet) : Prop := Forall (fun h => clock (server f) < renewedAt h + ttlMs) (holders f).

(** The values are fresh ([randomUUID]). *)
Inductive fleet_step : fleet → fleet → Prop :=
| fleet_advance f d : 0 ≤ d → fleet_step f (advance f d)
| fleet_acquire f v : v ∉ used f → fleet_step f (acquireDepotLock ttlMs f v).1
| fleet_renew f h ok : h ∈ holders f → renewing h = true → fleet_step f (renew ttlMs f h ok)
| fleet_release f h : h ∈ holders f → fleet_step f (release f h).1
| fleet_crash f h : h ∈ holders f → fleet_step f (crash f h).

(** Steps that keep every held lock renewed in time. *)
Definition timely_step (f f' : fleet) : Prop := fleet_step f f' ∧ timely f'.

Definition idle (now : Z) : fleet := mkFleet (mkRedis now None) [] [].

Lemma redis_get_Some r v : redis_get r = Some v ↔ ∃ e, stored r = Some (v, e) ∧ clock r < e.
Proof.
  unfold redis_get. destruct (stored r) as [[w e]|]; [|naive_solver]. destruct (Z.ltb_spec (clock r) e).
  - split; [intros [= ->]; by exists e|]. by intros (e' & [= -> ->] & _).
  - split; [done|]. intros (e' & [= -> ->] & ?). lia.
Qed.

(** Nobody holds the lock, or one does and the key is theirs; a stored value was
    used, and expires within the lifetime. *)
Definition exclusive (f : fleet) : Prop :=
  (holders f = [] ∨ ∃ h, holders f = [h] ∧ stored (server f) = Some (value h, renewedAt h + ttlMs)) ∧
  (∀ v e, stored (server f) = Some (v, e) → v ∈ used f ∧ e ≤ clock (server f) + ttlMs).

Lemma holder_self h : jfilter (fun h' => negb (bool_decide (value h' = value h))) [h] = [].
Proof. unfold jfilter. cbn [List.filter]. by rewrite bool_decide_true. Qed.

Lemma exclusive_step f f' : exclusive f → timely f → fleet_step f f' → exclusive f'.
Proof.
  intros [Hh Hv] Ht Hs. destruct Hs as [f d Hd|f v Hfresh|f h ok Hin Hrun|f h Hin|f h Hin].
  - split; [done|]. cbn. intros v e Hs. destruct (Hv v e Hs). split; [done|lia].
  - unfold acquireDepotLock, set_px_nx. destruct (redis_get (server f)) as [w|] eqn:E; cbn.
    + split; [done|]. intros v' e Hs. destruct (Hv v' e Hs). split; [by right|done].
    + destruct Hh as [Hh|(h & Hh & Hst)].
      * split; cbn; [right; eexists; split; [by rewrite Hh|done]|]. intros v' e [= <- <-]. split; [by left|lia].
      * exfalso. unfold timely in Ht. rewrite Hh, Forall_singleton in Ht.
        rewrite (proj2 (redis_get_Some (server f) (value h))) in E; [done|]. by eexists.
  - destruct Hh as [Hh|(h' & Hh & Hst)]; [rewrite Hh in Hin; by apply not_elem_of_nil in Hin|].
    rewrite Hh in Hin. apply list_elem_of_singleton in Hin as <-. unfold renew. destruct ok; [|by split; [right; exists h|]].
    unfold timely in Ht. rewrite Hh, Forall_singleton in Ht. unfold RENEW_SCRIPT. rewrite bool_decide_true.
    + cbn. rewrite Hh, holder_self. split; cbn; [by right; eexists|]. intros v e [= <- <-]. split; [|lia].
      by apply (Hv (value h) _ Hst).
    + apply redis_get_Some. by eexists.
  - destruct Hh as [Hh|(h' & Hh & Hst)]; [rewrite Hh in Hin; by apply not_elem_of_nil in Hin|].
    rewrite Hh in Hin. apply list_elem_of_singleton in Hin as <-. unfold release, RELEASE_SCRIPT.
    case_bool_decide; cbn; rewrite Hh, holder_self; (split; [by left|]); [done|exact Hv].
  - destruct Hh as [Hh|(h' & Hh & Hst)]; [rewrite Hh in Hin; by apply not_elem_of_nil in Hin|].
    rewrite Hh in Hin. apply list_elem_of_singleton in Hin as <-. unfold crash. cbn. rewrite Hh, holder_self.
    split; [by left|exact Hv].
Qed.

Lemma timely_run f f' : rtc timely_step f f' → exclusive f → timely f → exclusive f' ∧ timely f'.
Proof. induction 1 as [|f1 f2 f3 [H12 Ht] _ IH]; [done|]. intros He Hti. apply IH; [by eapply exclusive_step|done]. Qed.

Lemma idle_exclusive now : exclusive (idle now) ∧ timely (idle now).
Proof. split; [split; [by left|done]|constructor]. Qed.

(** Depot updates exclude each other: as long as every holder renews its key
    within its lifetime, at most one lock is held at any time, whatever
    acquisitions, releases and crashes interleave, and while one is held the key
    exists with its value and nobody else can acquire it. *)
Theorem depot_mutual_exclusion now f :
  rtc timely_step (idle now) f →
  (length (holders f) ≤ 1)%nat ∧
  ∀ h, h ∈ holders f → redis_get (server f) = Some (value h) ∧ ∀ v, (acquireDepotLock ttlMs f v).2 = false.
Proof.
  intros Hr. destruct (idle_exclusive now) as [He Ht].
  destruct (timely_run _ _ Hr He Ht) as [[Hh _] Hti]. destruct Hh as [->|(h & Hh & Hst)].
  { split; [cbn; lia|]. by intros h ?%not_elem_of_nil. }
  unfold timely in Hti. rewrite Hh, Forall_singleton in Hti. rewrite Hh. split; [done|].
  intros h' ->%list_elem_of_singleton. assert (redis_get (server f) = Some (value h)) as Hg by (apply redis_get_Some; by eexists).
  split; [done|]. intros v. unfold acquireDepotLock, set_px_nx. by rewrite Hg.
Qed.

(** A lock that was lost can neither release nor extend the lock another run
    acquired afterwards, and its release says so. *)
Theorem stale_holder_harmless f h w :
  redis_get (server f) = Some w → w ≠ value h →
  server (renew ttlMs f h true) = server f ∧ renewing (hd h (holders (renew ttlMs f h true))) = false ∧
  server (release f h).1 = server f ∧ (release f h).2 = false.
Proof.
  intros Hg Hne. unfold renew, release, RENEW_SCRIPT, RELEASE_SCRIPT. rewrite bool_decide_false by congruence. done.
Qed.

(** A crashed holder blocks updates for one lifetime at most: when no lock
    is held, after [ttlMs] the next acquisition succeeds. *)
Theorem crashed_lock_expires now f d v :
  rtc timely_step (idle now) f → holders f = [] → ttlMs ≤ d → (acquireDepotLock ttlMs (advance f d) v).2 = true.
Proof.
  intros Hr Hh Hd. destruct (idle_exclusive now) as [He Ht]. destruct (timely_run _ _ Hr He Ht) as [[_ Hv] _].
  unfold acquireDepotLock, set_px_nx. destruct (redis_get (server (advance f d))) as [w|] eqn:E; [|done].
  apply redis_get_Some in E as (e & Hs & Hlt). cbn in *. destruct (Hv w e Hs). lia.
Qed.
End fleet.

(** The start time is read back from a stored value, with or without a
    token. *)
Theorem depotLockStartedAt_roundtrip startedAt uuid :
  32 ∉ startedAt →
  depotLockStartedAt (lock_value startedAt uuid) = startedAt ∧ depotLockStartedAt startedAt = startedAt.
Proof.
  intros H. unfold depotLockStartedAt, lock_value. split; [by rewrite split_on_app|by rewrite split_on_no_sep].
Qed.

(** * A run *)

Definition ttl : Z := DEPOT_LOCK_TTL_SECONDS * 1000.
Definition held : fleet := (acquireDepotLock ttl (idle 0) (js "t a")).1.
Definition held_holder : holder := mkHolder (js "t a") 0 true.
Definition renewed : fleet := renew ttl (advance held DEPOT_LOCK_RENEW_INTERVAL_MS) held_holder true.

Lemma held_run : rtc (timely_step ttl) (idle 0) renewed.
Proof.
  eapply rtc_l; [split; [apply (fleet_acquire ttl (idle 0) (js "t a")), not_elem_of_nil|repeat constructor]|].
  eapply rtc_l; [split; [by apply (fleet_advance ttl held DEPOT_LOCK_RENEW_INTERVAL_MS)|repeat constructor]|].
  apply rtc_once. split; [apply fleet_renew; [by left|done]|repeat constructor].
Qed.

Lemma crashed_run : rtc (timely_step ttl) (idle 0) (crash renewed (mkHolder (js "t a") 60000 true)).
Proof. eapply rtc_r; [exact held_run|]. split; [apply fleet_crash; by left|constructor]. Qed.

Lemma depot_mutual_exclusion_witness :
  redis_get (server renewed) = Some (js "t a") ∧ (acquireDepotLock ttl renewed (js "t b")).2 = false.
Proof.
  destruct (depot_mutual_exclusion ttl 0 renewed held_run) as [_ H].
  destruct (H (mkHolder (js "t a") 60000 true) ltac:(by left)) as [Hg Ha]. split; [exact Hg|apply Ha].
Defined.

Lemma stale_holder_harmless_witness :
  (release renewed (mkHolder (js "t old") 0 false)).2 = false.
Proof.
  refine (proj2 (proj2 (proj2 (stale_holder_harmless ttl renewed (mkHolder (js "t old") 0 false) (js "t a") _ _)))).
  - reflexivity.
  - discriminate.
Defined.

Lemma crashed_lock_expires_witness :
  (acquireDepotLock ttl (advance (crash renewed (mkHolder (js "t a") 60000 true)) ttl) (js "t b")).2 = true.
Proof.
  refine (crashed_lock_expires ttl 0 _ ttl (js "t b") crashed_run _ _); [reflexivity|].
  apply Z.le_refl.
Defined.
