(* ===== verification/RconClient.v ===== *)
(** [apps/workers/rcon/src/client.ts]: the RCON client. Commands run one at a
    time through [execQueue]; each is followed by an empty probe whose echo ends
    its answer. The socket, the clock and the DNS guard are events of the
    environment. *)
From S2P Require Import Prelude Bytes RconProtocol JsMap.

(** * State *)

(** A command awaiting its answer; [caller] names the promise to settle. *)
Record PendingCommand := mkPending { cmd_id : Z; chunks : list jstr; caller : nat }.

Record RconClient := mkClient {
  connected : bool;
  stream : RconPacketStream;
  nextId : Z;
  pending : list (Z * PendingCommand);
  closed : bool;
  execQueue : list (nat * jstr);
  packetHandler : option Z;
}.

Definition new_client : RconClient := mkClient false new_stream 1000 [] false [] None.

Inductive rejection := rcon_closed | rcon_not_connected | exec_timeout | socket_closed.

Inductive client_output :=
| Written (packet : RconPacket)
| Resolved (caller : nat) (body : jstr)
| Rejected (caller : nat) (reason : rejection)
| Broadcast (body : jstr)
| ConnectRefused
| AuthAccepted
| AuthRejected
| Disconnected (explicit : bool).

(** * Commands *)

Definition execNow (c : RconClient) (who : nat) (command : jstr) : RconClient * list client_output :=
  if closed c then (c, [Rejected who rcon_closed])
  else if negb (connected c) then (c, [Rejected who rcon_not_connected])
  else
    let id := nextId c + 1 in
    let probeId := nextId c + 2 in
    (mkClient (connected c) (stream c) probeId (map_set (pending c) probeId (mkPending id [] who)) (closed c)
       (execQueue c) (packetHandler c),
     [Written (Packet id SERVERDATA_EXECCOMMAND command); Written (Packet probeId SERVERDATA_EXECCOMMAND [])]).

Definition set_queue (c : RconClient) (q : list (nat * jstr)) : RconClient :=
  mkClient (connected c) (stream c) (nextId c) (pending c) (closed c) q (packetHandler c).

(** The promise chain: when nothing is in flight the next command starts; one
    that is refused at once lets the next one start. *)
Fixpoint pump (c : RconClient) (q : list (nat * jstr)) : RconClient * list client_output :=
  match q with
  | [] => (set_queue c [], [])
  | (who, command) :: q' =>
      if bool_decide (pending c = [])
      then let '(c1, out) := execNow c who command in
           let '(c2, out') := pump c1 q' in (c2, out ++ out')
      else (set_queue c q, [])
  end.

Definition exec (c : RconClient) (who : nat) (command : jstr) : RconClient * list client_output :=
  pump c (execQueue c ++ [(who, command)]).

Definition set_pending (c : RconClient) (m : list (Z * PendingCommand)) : RconClient :=
  mkClient (connected c) (stream c) (nextId c) m (closed c) (execQueue c) (packetHandler c).

(** The timer of the command with probe [probeId] fires. *)
Definition command_timeout (c : RconClient) (probeId : Z) : RconClient * list client_output :=
  match map_get (pending c) probeId with
  | None => (c, [])
  | Some p =>
      let '(c', out) := pump (set_pending c (map_delete (map_delete (pending c) probeId) (cmd_id p))) (execQueue c) in
      (c', Rejected (caller p) exec_timeout :: out)
  end.

Definition reject_all (c : RconClient) (reason : rejection) : list client_output :=
  (fun kp : Z * PendingCommand => Rejected (caller kp.2) reason) <$> pending c.

(** [close()]. *)
Definition close (c : RconClient) : RconClient * list client_output :=
  let '(c', out) := pump (mkClient false (stream c) (nextId c) [] true (execQueue c) (packetHandler c)) (execQueue c) in
  (c', reject_all c rcon_closed ++ out).

(** The ['close'] event of the socket. *)
Definition on_socket_close (c : RconClient) : RconClient * list client_output :=
  let '(c', out) := pump (mkClient false (stream c) (nextId c) [] (closed c) (execQueue c) (packetHandler c)) (execQueue c) in
  (c', reject_all c socket_closed ++ out ++ [Disconnected (closed c)]).

(** * Packets *)

(** The first pending command that owns the packet's id. *)
Fixpoint route (p : RconPacket) (m : list (Z * PendingCommand)) : option (Z * PendingCommand * bool) :=
  match m with
  | [] => None
  | (probeId, pc) :: m =>
      if p_id p =? probeId then Some (probeId, pc, true)
      else if p_id p =? cmd_id pc then Some (probeId, pc, false)
      else route p m
  end.

Definition set_handler (c : RconClient) (h : option Z) : RconClient :=
  mkClient (connected c) (stream c) (nextId c) (pending c) (closed c) (execQueue c) h.

Definition handlePacket (c : RconClient) (p : RconPacket) : RconClient * list client_output :=
  match packetHandler c with
  | Some authId =>
      if (p_type p =? 2) && (p_id p =? authId) then (set_handler c None, [AuthAccepted])
      else if (p_type p =? 2) && (p_id p =? -1) then (set_handler c None, [AuthRejected])
      else (c, [])
  | None =>
      if p_type p =? SERVERDATA_CHAT_VALUE then (c, [Broadcast (p_body p)])
      else if negb (p_type p =? SERVERDATA_RESPONSE_VALUE) then (c, [])
      else match route p (pending c) with
           | None => (c, [])
           | Some (probeId, pc, true) => (set_pending c (map_delete (pending c) probeId), [Resolved (caller pc) (concat (chunks pc))])
           | Some (probeId, pc, false) =>
               (set_pending c (map_set (pending c) probeId (mkPending (cmd_id pc) (chunks pc ++ [p_body p]) (caller pc))), [])
           end
  end.

Fixpoint handlePackets (c : RconClient) (ps : list RconPacket) : RconClient * list client_output :=
  match ps with
  | [] => (c, [])
  | p :: ps =>
      let '(c1, out) := handlePacket c p in
      let '(c2, out') := handlePackets c1 ps in (c2, out ++ out')
  end.

Definition set_stream (c : RconClient) (st : RconPacketStream) : RconClient :=
  mkClient (connected c) st (nextId c) (pending c) (closed c) (execQueue c) (packetHandler c).

(** The ['data'] event: a chunk of bytes. *)
Definition on_data (c : RconClient) (chunk : bytes) : RconClient * list client_output :=
  match push (stream c) chunk with
  | (st, Ok packets) =>
      let '(c1, out) := handlePackets (set_stream c st) packets in
      let '(c2, out') := pump c1 (execQueue c1) in (c2, out ++ out')
  | (st, Throw _) => close (set_stream c st)
  end.

(** * Connecting *)

Definition password_ok (password : jstr) : bool := negb (existsb (fun ch => (ch =? 13) || (ch =? 10) || (ch =? 0)) password).

(** [connect()] once the socket is up: [authenticate] sends the password. *)
Definition on_connect (c : RconClient) (password : jstr) : RconClient * list client_output :=
  if connected c then (c, [])
  else if negb (password_ok password) then (c, [ConnectRefused])
  else let authId := nextId c + 1 in
       (mkClient true (stream c) authId (pending c) false (execQueue c) (Some authId),
        [Written (Packet authId SERVERDATA_AUTH password)]).

(** * Runs *)

Inductive event :=
| Connect (password : jstr)
| Exec (who : nat) (command : jstr)
| Data (chunk : bytes)
| Timeout (probeId : Z)
| Close
| SocketClose.

Definition client_step (c : RconClient) (e : event) : RconClient * list client_output :=
  match e with
  | Connect password => on_connect c password
  | Exec who command => exec c who command
  | Data chunk => on_data c chunk
  | Timeout probeId => command_timeout c probeId
  | Close => close c
  | SocketClose => on_socket_close c
  end.

Fixpoint client_run (c : RconClient) (es : list event) : RconClient * list client_output :=
  match es with
  | [] => (c, [])
  | e :: es => let '(c1, out) := client_step c e in let '(c2, out') := client_run c1 es in (c2, out ++ out')
  end.

(** * Conservation of commands *)

Definition settles (o : client_output) : option nat :=
  match o with Resolved who _ | Rejected who _ => Some who | _ => None end.
Definition settled_of (outs : list client_output) : list nat := omap settles outs.
Definition submitted (e : event) : list nat := match e with Exec who _ => [who] | _ => [] end.
Definition submitted_of (es : list event) : list nat := concat (submitted <$> es).
Definition callers (m : list (Z * PendingCommand)) : list nat := (fun kp : Z * PendingCommand => caller kp.2) <$> m.
Definition in_flight (c : RconClient) : list nat := callers (pending c) ++ (fst <$> execQueue c).

(** One command at a time, and a queue only while one is running. *)
Definition serial (c : RconClient) : Prop :=
  (pending c = [] ∧ execQueue c = []) ∨ ∃ x, pending c = [x].

Lemma settled_app l k : settled_of (l ++ k) = settled_of l ++ settled_of k.
Proof. apply omap_app. Qed.

Lemma pump_spec c q c' out :
  (length (pending c) ≤ 1)%nat → pump c q = (c', out) →
  serial c' ∧ callers (pending c) ++ (fst <$> q) ≡ₚ settled_of out ++ in_flight c'.
Proof.
  revert c c' out. induction q as [|[who command] q IH]; intros c c' out Hl; cbn [pump].
  { intros [= <- <-]. unfold in_flight, serial. cbn. split; [|done].
    destruct (pending c) as [|x [|]]; cbn in Hl; [by left|right; by exists x|lia]. }
  case_bool_decide as Hp.
  - unfold execNow. rewrite Hp. intros H. rewrite fmap_cons. cbn [callers fmap list_fmap app].
    destruct (closed c).
    + destruct (pump c q) as [c2 out2] eqn:E. injection H as <- <-.
      apply IH in E as [Hs Hperm]; [|done]. split; [done|]. rewrite Hp in Hperm. cbn in *. by rewrite <-Hperm.
    + destruct (negb (connected c)).
      * destruct (pump c q) as [c2 out2] eqn:E. injection H as <- <-.
        apply IH in E as [Hs Hperm]; [|done]. split; [done|]. rewrite Hp in Hperm. cbn in *. by rewrite <-Hperm.
      * cbn [map_set] in H. destruct (pump _ q) as [c2 out2] eqn:E. injection H as <- <-.
        apply IH in E as [Hs Hperm]; [|cbn; lia]. split; [done|]. cbn in *. by rewrite <-Hperm.
  - intros [= <- <-]. unfold serial, in_flight. cbn. split; [|done]. right.
    destruct (pending c) as [|x [|]]; cbn in Hl; [done|by exists x|lia].
Qed.

Lemma serial_length c : serial c → (length (pending c) ≤ 1)%nat.
Proof. intros [[-> _]|[x ->]]; cbn; lia. Qed.

Lemma handlePacket_spec c p c' out :
  (length (pending c) ≤ 1)%nat → handlePacket c p = (c', out) →
  (length (pending c') ≤ 1)%nat ∧ execQueue c' = execQueue c ∧
  callers (pending c) ≡ₚ settled_of out ++ callers (pending c').
Proof.
  intros Hl. unfold handlePacket. destruct (packetHandler c) as [authId|].
  { destruct (_ && _); [intros [= <- <-]; by split_and!|]. destruct (_ && _); intros [= <- <-]; by split_and!. }
  destruct (p_type p =? SERVERDATA_CHAT_VALUE); [intros [= <- <-]; by split_and!|].
  destruct (negb _); [intros [= <- <-]; by split_and!|].
  destruct (pending c) as [|[probeId pc] [|]] eqn:Hp; cbn in Hl; [intros [= <- <-]; rewrite Hp; by split_and!| |lia].
  cbn [route]. destruct (p_id p =? probeId).
  { intros [= <- <-]. cbn. rewrite bool_decide_true by done. split_and!; [cbn; lia|done|done]. }
  destruct (p_id p =? cmd_id pc); intros [= <- <-]; [|rewrite Hp; split_and!; [cbn; lia|done|done]].
  cbn. rewrite bool_decide_true by done. split_and!; [cbn; lia|done|done].
Qed.

Lemma handlePackets_spec c ps c' out :
  (length (pending c) ≤ 1)%nat → handlePackets c ps = (c', out) →
  (length (pending c') ≤ 1)%nat ∧ execQueue c' = execQueue c ∧
  callers (pending c) ≡ₚ settled_of out ++ callers (pending c').
Proof.
  revert c c' out. induction ps as [|p ps IH]; intros c c' out Hl; cbn [handlePackets]; [by intros [= <- <-]|].
  destruct (handlePacket c p) as [c1 o1] eqn:E1. destruct (handlePackets c1 ps) as [c2 o2] eqn:E2. intros [= <- <-].
  apply handlePacket_spec in E1 as (H1 & Hq1 & Hp1); [|done]. apply IH in E2 as (H2 & Hq2 & Hp2); [|done].
  split; [done|]. split; [congruence|]. rewrite settled_app, <-app_assoc, <-Hp2. done.
Qed.

Lemma settled_reject_all c reason : settled_of (reject_all c reason) = callers (pending c).
Proof. unfold reject_all, settled_of, callers. generalize (pending c). induction l as [|x l IH]; csimpl; [done|]. by f_equal. Qed.

Lemma close_spec c c' out : close c = (c', out) → serial c' ∧ in_flight c ≡ₚ settled_of out ++ in_flight c'.
Proof.
  unfold close. destruct (pump _ _) as [c1 o1] eqn:E. intros [= <- <-].
  apply pump_spec in E as [Hs Hp]; [|cbn; lia]. split; [done|].
  rewrite settled_app, settled_reject_all, <-app_assoc, <-Hp. done.
Qed.

Lemma client_step_spec c e c' out :
  serial c → client_step c e = (c', out) → serial c' ∧ submitted e ++ in_flight c ≡ₚ settled_of out ++ in_flight c'.
Proof.
  intros Hser. pose proof (serial_length c Hser) as Hl. destruct e as [password|who command|chunk|probeId| |]; cbn [client_step submitted].
  - unfold on_connect. destruct (connected c); [by intros [= <- <-]|]. destruct (negb _); intros [= <- <-]; done.
  - unfold exec. intros H%pump_spec; [|done]. destruct H as [Hs Hp]. split; [done|]. rewrite <-Hp. unfold in_flight.
    rewrite fmap_app. cbn. rewrite app_assoc. by rewrite (Permutation_app_comm _ [who]).
  - unfold on_data. destruct (push (stream c) chunk) as [st [packets|err]]; [|by intros H%close_spec].
    destruct (handlePackets (set_stream c st) packets) as [c1 o1] eqn:E1.
    destruct (pump c1 (execQueue c1)) as [c2 o2] eqn:E2. intros [= <- <-].
    apply handlePackets_spec in E1 as (H1 & Hq1 & Hp1); [|done]. apply pump_spec in E2 as [Hs Hp2]; [|done].
    split; [done|]. cbn [app]. rewrite settled_app, <-app_assoc, <-Hp2. unfold in_flight. rewrite Hq1. cbn in *.
    rewrite app_assoc. by rewrite <-Hp1.
  - unfold command_timeout. destruct (map_get (pending c) probeId) as [p|] eqn:Hg; [|by intros [= <- <-]].
    destruct (pending c) as [|[k q] [|]] eqn:Hp; [done| |cbn in Hl; lia].
    cbn in Hg. destruct (bool_decide (k = probeId)) eqn:Hk; [|done]. injection Hg as ->.
    cbn [map_delete]. rewrite Hk. cbn [map_delete].
    destruct (pump _ _) as [c1 o1] eqn:E. intros [= <- <-]. apply pump_spec in E as [Hs Hp']; [|cbn; lia].
    split; [done|]. cbn in *. unfold in_flight at 1. rewrite Hp. cbn. by rewrite Hp'.
  - apply close_spec.
  - unfold on_socket_close. destruct (pump _ _) as [c1 o1] eqn:E. intros [= <- <-].
    apply pump_spec in E as [Hs Hp]; [|cbn; lia]. split; [done|].
    rewrite !settled_app, settled_reject_all. cbn [settled_of omap list_omap settles]. rewrite app_nil_r, <-app_assoc, <-Hp. done.
Qed.

Lemma client_run_spec es c c' outs :
  serial c → client_run c es = (c', outs) → serial c' ∧ submitted_of es ++ in_flight c ≡ₚ settled_of outs ++ in_flight c'.
Proof.
  revert c c' outs. induction es as [|e es IH]; intros c c' outs Hs; cbn [client_run]; [by intros [= <- <-]|].
  destruct (client_step c e) as [c1 o1] eqn:E1. destruct (client_run c1 es) as [c2 o2] eqn:E2. intros [= <- <-].
  apply client_step_spec in E1 as [Hs1 Hp1]; [|done]. apply IH in E2 as [Hs2 Hp2]; [|done]. split; [done|].
  unfold submitted_of in *. cbn [fmap list_fmap concat]. rewrite settled_app, <-!app_assoc, <-Hp2.
  rewrite (Permutation_app_swap_app (settled_of o1)), <-Hp1. by rewrite (Permutation_app_swap_app (concat _)).
Qed.

(** Without a socket nothing starts, and nothing stays queued. *)
Lemma pump_refuses c q :
  pending c = [] → connected c = false → in_flight (pump c q).1 = [].
Proof.
  intros Hp Hc. induction q as [|[who command] q IH]; cbn [pump]; [unfold in_flight; cbn; by rewrite Hp|].
  rewrite bool_decide_true by done. unfold execNow. rewrite Hc. destruct (closed c); cbn [negb].
  all: destruct (pump c q) as [c2 o2] eqn:E; cbn [fst] in *; exact IH.
Qed.

Lemma shutdown_settles c e : e = Close ∨ e = SocketClose → in_flight (client_step c e).1 = [].
Proof.
  intros [-> | ->]; cbn [client_step]; unfold close, on_socket_close;
    match goal with |- context [pump ?x ?q] => pose proof (pump_refuses x q eq_refl eq_refl); destruct (pump x q) end; done.
Qed.

Lemma client_run_app c es es' :
  client_run c (es ++ es') = let '(c1, o1) := client_run c es in let '(c2, o2) := client_run c1 es' in (c2, o1 ++ o2).
Proof.
  revert c. induction es as [|e es IH]; intros c; cbn [client_run app]; [by destruct (client_run c es')|].
  destruct (client_step c e) as [c1 o1]. rewrite IH. destruct (client_run c1 es) as [c2 o2]. destruct (client_run c2 es') as [c3 o3].
  by rewrite app_assoc.
Qed.

(** Every command settles once: over any run of events on a new client no
    promise is settled twice or without having been submitted, at most one
    command is in flight, and as soon as the client closes or its socket closes
    every command submitted so far has been settled. *)
Theorem commands_settle_once es c outs :
  client_run new_client es = (c, outs) → NoDup (submitted_of es) →
  NoDup (settled_of outs) ∧ (∀ who, who ∈ settled_of outs → who ∈ submitted_of es) ∧ (length (pending c) ≤ 1)%nat ∧
  ∀ es' e, es = es' ++ [e] → e = Close ∨ e = SocketClose → settled_of outs ≡ₚ submitted_of es.
Proof.
  intros Hr Hnd. assert (serial new_client) as Hs0 by by left. destruct (client_run_spec _ _ _ _ Hs0 Hr) as [Hs Hp].
  cbn [in_flight new_client pending execQueue callers fmap list_fmap app] in Hp. rewrite app_nil_r in Hp.
  rewrite Hp in Hnd. apply NoDup_app in Hnd as (Hnd & _ & _).
  split; [done|]. split; [intros who Hw; rewrite Hp; apply elem_of_app; by left|]. split; [by apply serial_length|].
  intros es' e -> He. rewrite Hp. rewrite client_run_app in Hr. destruct (client_run new_client es') as [c1 o1]. cbn [client_run] in Hr.
  pose proof (shutdown_settles c1 e He) as Hf. destruct (client_step c1 e) as [c2 o2]. injection Hr as <- _.
  cbn [fst] in Hf. rewrite Hf. by rewrite app_nil_r.
Qed.

(** * The answer to a command *)

(** What a packet shows while the command [id] with probe [probe] is in flight. *)
Definition answer_part (id : Z) (p : RconPacket) : list jstr :=
  if (p_type p =? SERVERDATA_RESPONSE_VALUE) && (p_id p =? id) then [p_body p] else [].
Definition broadcast_part (p : RconPacket) : list client_output :=
  if p_type p =? SERVERDATA_CHAT_VALUE then [Broadcast (p_body p)] else [].

Lemma handlePackets_collect c id probe who acc ps :
  packetHandler c = None → pending c = [(probe, mkPending id acc who)] → id ≠ probe →
  (∀ p, p ∈ ps → p_type p = SERVERDATA_RESPONSE_VALUE → p_id p ≠ probe) →
  handlePackets c ps =
    (set_pending c [(probe, mkPending id (acc ++ concat (answer_part id <$> ps)) who)], concat (broadcast_part <$> ps)).
Proof.
  intros Hh Hp Hne. revert c acc Hh Hp. induction ps as [|p ps IH]; intros c acc Hh Hp Hps; cbn [handlePackets].
  { cbn. rewrite app_nil_r, <-Hp. by destruct c. }
  assert (∀ q, q ∈ ps → p_type q = SERVERDATA_RESPONSE_VALUE → p_id q ≠ probe) as Hps' by (intros q Hq; apply Hps; by right).
  unfold handlePacket, answer_part, broadcast_part. cbn [fmap list_fmap concat]. rewrite Hh, Hp.
  destruct (Z.eqb_spec (p_type p) SERVERDATA_CHAT_VALUE) as [Hc|Hc].
  { rewrite Hc. rewrite (IH c acc) by done. done. }
  destruct (Z.eqb_spec (p_type p) SERVERDATA_RESPONSE_VALUE) as [Hv|Hv]; cbn [negb andb]; [|by rewrite (IH c acc)].
  cbn [route]. rewrite (proj2 (Z.eqb_neq (p_id p) probe)) by (apply Hps; [by left|done]). cbn [cmd_id chunks caller].
  destruct (p_id p =? id); [|by rewrite (IH c acc)].
  cbn [map_set]. rewrite bool_decide_true by done.
  rewrite (IH _ (acc ++ [p_body p])) by done. by rewrite <-app_assoc.
Qed.

(** The answer to a command is exact: on an authenticated idle connection the
    promise of a command resolves, when the echo of its probe arrives, with
    the bodies of precisely the response packets that carry its id, in order,
    whatever broadcasts and answers to other ids arrive in between; nothing else
    but those broadcasts is reported. *)
Theorem command_answer_exact c who command ps echo :
  connected c = true → closed c = false → packetHandler c = None → pending c = [] → execQueue c = [] →
  let id := nextId c + 1 in
  let probe := nextId c + 2 in
  (∀ p, p ∈ ps → p_type p = SERVERDATA_RESPONSE_VALUE → p_id p ≠ probe) →
  let '(c1, out) := exec c who command in
  let '(c2, out') := handlePackets c1 (ps ++ [Packet probe SERVERDATA_RESPONSE_VALUE echo]) in
  out = [Written (Packet id SERVERDATA_EXECCOMMAND command); Written (Packet probe SERVERDATA_EXECCOMMAND [])] ∧
  out' = concat (broadcast_part <$> ps) ++ [Resolved who (concat (concat (answer_part id <$> ps)))] ∧
  pending c2 = [].
Proof.
  intros Hcon Hcl Hh Hp Hq id probe Hps.
  unfold exec. rewrite Hq. cbn [app pump]. rewrite Hp, bool_decide_true by done. unfold execNow. rewrite Hcl, Hcon, Hp. cbn [negb map_set].
  cbn [pump]. set (c1 := set_queue _ _).
  assert (∀ c l k, handlePackets c (l ++ k) =
    let '(c1, o1) := handlePackets c l in let '(c2, o2) := handlePackets c1 k in (c2, o1 ++ o2)) as Happ.
  { clear. intros c l k. revert c. induction l as [|p l IH]; intros c; cbn [handlePackets app]; [by destruct (handlePackets c k)|].
    destruct (handlePacket c p) as [c1 o1]. rewrite IH. destruct (handlePackets c1 l) as [c2 o2].
    destruct (handlePackets c2 k) as [c3 o3]. by rewrite app_assoc. }
  rewrite Happ. rewrite (handlePackets_collect c1 id probe who [] ps); [|exact Hh|done|subst id probe; lia|done].
  cbn [handlePackets]. unfold handlePacket. cbn [packetHandler set_pending set_queue]. subst c1. cbn [set_queue set_pending packetHandler pending].
  rewrite Hh. cbn [p_type p_id]. cbn [Z.eqb SERVERDATA_CHAT_VALUE SERVERDATA_RESPONSE_VALUE negb route].
  rewrite Z.eqb_refl. cbn [map_delete]. rewrite bool_decide_true by done. done.
Qed.

(** * Packet ids *)

Definition written_id (o : client_output) : option Z := match o with Written p => Some (p_id p) | _ => None end.
Definition written_ids (outs : list client_output) : list Z := omap written_id outs.

(** Ids issued between two states: increasing, above the old counter, up to the new. *)
Definition fresh_ids (lo hi : Z) (outs : list client_output) : Prop :=
  lo ≤ hi ∧ StronglySorted Z.lt (written_ids outs) ∧ ∀ i, i ∈ written_ids outs → lo < i ≤ hi.

Lemma fresh_app a b d l k : fresh_ids a b l → fresh_ids b d k → fresh_ids a d (l ++ k).
Proof.
  intros (H1 & H2 & H3) (K1 & K2 & K3). unfold fresh_ids, written_ids in *. rewrite omap_app. split; [lia|]. split.
  - apply StronglySorted_app. split; [|done]. intros x y Hx%H3 Hy%K3. lia.
  - intros i [Hi%H3|Hi%K3]%elem_of_app; lia.
Qed.

Lemma fresh_none a l : written_ids l = [] → fresh_ids a a l.
Proof. intros H. unfold fresh_ids. rewrite H. split; [lia|]. split; [constructor|]. by intros i ?%not_elem_of_nil. Qed.

Lemma execNow_fresh c who command : fresh_ids (nextId c) (nextId (execNow c who command).1) (execNow c who command).2.
Proof.
  unfold execNow. destruct (closed c); [by apply fresh_none|]. destruct (negb (connected c)); [by apply fresh_none|].
  split; [cbn; lia|]. split; [unfold written_ids; cbn; repeat constructor; lia|]. unfold written_ids. cbn.
  intros i [->|[->|?%not_elem_of_nil]%elem_of_cons]%elem_of_cons; [lia|lia|done].
Qed.

Lemma pump_fresh c q : fresh_ids (nextId c) (nextId (pump c q).1) (pump c q).2.
Proof.
  revert c. induction q as [|[who command] q IH]; intros c; cbn [pump]; [by apply fresh_none|].
  case_bool_decide; [|by apply fresh_none]. pose proof (execNow_fresh c who command) as He.
  destruct (execNow c who command) as [c1 o1]. specialize (IH c1). destruct (pump c1 q) as [c2 o2]. by eapply fresh_app.
Qed.

Lemma handlePackets_fresh c ps : fresh_ids (nextId c) (nextId (handlePackets c ps).1) (handlePackets c ps).2.
Proof.
  revert c. induction ps as [|p ps IH]; intros c; cbn [handlePackets]; [by apply fresh_none|].
  assert (fresh_ids (nextId c) (nextId (handlePacket c p).1) (handlePacket c p).2) as He.
  { unfold handlePacket. repeat case_match; by apply fresh_none. }
  destruct (handlePacket c p) as [c1 o1]. specialize (IH c1). destruct (handlePackets c1 ps) as [c2 o2]. by eapply fresh_app.
Qed.

Lemma reject_all_none c r : written_ids (reject_all c r) = [].
Proof. unfold reject_all, written_ids. by induction (pending c). Qed.

Lemma close_fresh c : fresh_ids (nextId c) (nextId (close c).1) (close c).2.
Proof.
  unfold close. match goal with |- context [pump ?x ?q] => pose proof (pump_fresh x q) as Hf; destruct (pump x q) as [c1 o1] end.
  eapply fresh_app; [apply fresh_none, reject_all_none|exact Hf].
Qed.

Lemma client_step_fresh c e : fresh_ids (nextId c) (nextId (client_step c e).1) (client_step c e).2.
Proof.
  destruct e as [password|who command|chunk|probeId| |]; cbn [client_step].
  - unfold on_connect. destruct (connected c); [by apply fresh_none|]. destruct (negb _); [by apply fresh_none|]. split; [cbn; lia|]. split; [repeat constructor|]. unfold written_ids. cbn.
    intros i [->|?%not_elem_of_nil]%elem_of_cons; [lia|done].
  - apply pump_fresh.
  - unfold on_data. destruct (push (stream c) chunk) as [st [packets|err]]; [|apply (close_fresh (set_stream c st))].
    pose proof (handlePackets_fresh (set_stream c st) packets) as H1. destruct (handlePackets _ _) as [c1 o1].
    pose proof (pump_fresh c1 (execQueue c1)) as H2. destruct (pump c1 _) as [c2 o2]. by eapply fresh_app.
  - unfold command_timeout. destruct (map_get _ _) as [p|]; [|by apply fresh_none].
    match goal with |- context [pump ?x ?q] => pose proof (pump_fresh x q) as Hf; destruct (pump x q) as [c1 o1] end. exact Hf.
  - apply close_fresh.
  - unfold on_socket_close.
    match goal with |- context [pump ?x ?q] => pose proof (pump_fresh x q) as Hf; destruct (pump x q) as [c1 o1] end.
    eapply fresh_app; [apply fresh_none, reject_all_none|]. eapply fresh_app; [exact Hf|by apply fresh_none].
Qed.

(** No packet id is used twice: over any run the ids of the packets written
    are strictly increasing, so a late answer to a command that timed out can
    never be taken for the answer to another. *)
Theorem packet_ids_fresh c es : StronglySorted Z.lt (written_ids (client_run c es).2).
Proof.
  assert (fresh_ids (nextId c) (nextId (client_run c es).1) (client_run c es).2) as H; [|apply H].
  revert c. induction es as [|e es IH]; intros c; cbn [client_run]; [by apply fresh_none|].
  pose proof (client_step_fresh c e) as H1. destruct (client_step c e) as [c1 o1]. specialize (IH c1). destruct (client_run c1 es) as [c2 o2].
  by eapply fresh_app.
Qed.

(** * A session *)

Definition session : list event :=
  [Connect [112]; Data (encodePacket (Packet 1001 SERVERDATA_AUTH_RESPONSE [])); Exec 1 [65]; Exec 2 [66];
   Data (encodePacket (Packet 1002 SERVERDATA_RESPONSE_VALUE [120]) ++ encodePacket (Packet 7 SERVERDATA_CHAT_VALUE [33])
         ++ encodePacket (Packet 1003 SERVERDATA_RESPONSE_VALUE [])); Timeout 1005; SocketClose].

Lemma commands_settle_once_witness :
  settled_of (client_run new_client session).2 = [1; 2]%nat ∧ settled_of (client_run new_client session).2 ≡ₚ submitted_of session.
Proof.
  split; [vm_compute; reflexivity|].
  assert (NoDup (submitted_of session)) as Hnd by (apply (bool_decide_unpack _); by vm_compute).
  destruct (client_run new_client session) as [c outs] eqn:E.
  destruct (commands_settle_once session c outs E Hnd) as (_ & _ & _ & H).
  exact (H (take 6 session) SocketClose eq_refl (or_intror eq_refl)).
Defined.

Lemma command_answer_exact_witness :
  let c := mkClient true new_stream 1001 [] false [] None in
  (handlePackets (exec c 1 [65]).1
     [Packet 1002 SERVERDATA_RESPONSE_VALUE [120]; Packet 9 SERVERDATA_RESPONSE_VALUE [1];
      Packet 1003 SERVERDATA_RESPONSE_VALUE []]).2 = [Resolved 1 [120]].
Proof.
  cbv zeta. set (c := mkClient true new_stream 1001 [] false [] None).
  pose proof (command_answer_exact c 1 [65] [Packet 1002 SERVERDATA_RESPONSE_VALUE [120]; Packet 9 SERVERDATA_RESPONSE_VALUE [1]]
    [] eq_refl eq_refl eq_refl eq_refl eq_refl) as H. cbv zeta in H.
  destruct (exec c 1 [65]) as [c1 out]. cbn [fst]. cbn [app nextId c] in H.
  change (1001 + 2) with 1003 in H. destruct (handlePackets c1 _) as [c2 out']. destruct H as (_ & -> & _).
  - intros p Hp Ht. repeat (apply elem_of_cons in Hp as [->|Hp]; [discriminate|]). by apply not_elem_of_nil in Hp.
  - reflexivity.
Defined.
