(* ===== verification/Collections.v ===== *)
(** Collection idioms of the source: sums by [reduce], a [Set] of objects kept
    in insertion order, grouping into a [Map] of arrays, counters in a [Map]. *)
From S2P Require Import Prelude JsMap.

(** * Sums *)

Definition zsum {A} (f : A → Z) (l : list A) : Z := foldr (fun x acc => f x + acc) 0 l.

Section Sums.
Context {A : Type}.
Implicit Types (f g : A → Z) (l k : list A).

Lemma zsum_nil f : zsum f [] = 0.
Proof. done. Qed.

Lemma zsum_cons f x l : zsum f (x :: l) = f x + zsum f l.
Proof. done. Qed.

Lemma zsum_app f l k : zsum f (l ++ k) = zsum f l + zsum f k.
Proof. induction l as [|x l IH]; simpl; [done|]. rewrite IH. lia. Qed.

Lemma zsum_perm f l k : l ≡ₚ k → zsum f l = zsum f k.
Proof. induction 1; simpl; lia. Qed.

Lemma zsum_ext f g l : (∀ x, x ∈ l → f x = g x) → zsum f l = zsum g l.
Proof.
  induction l as [|x l IH]; intros H; simpl; [done|].
  rewrite (H x) by left. rewrite IH; [done|]. intros y Hy. apply H. by right.
Qed.

Lemma zsum_insert f l i x y : l !! i = Some x → zsum f (<[i := y]> l) = zsum f l - f x + f y.
Proof.
  revert i. induction l as [|z l IH]; intros [|i]; cbn [lookup list_lookup]; [done..| |].
  - intros [= ->]. cbn [insert list_insert]. rewrite !zsum_cons. lia.
  - intros Hi. change (<[S i:=y]> (z :: l)) with (z :: <[i:=y]> l). rewrite !zsum_cons. rewrite (IH _ Hi). lia.
Qed.

Lemma zsum_add f g l : zsum (fun x => f x + g x) l = zsum f l + zsum g l.
Proof. induction l as [|x l IH]; simpl; [done|]. rewrite IH. lia. Qed.

Lemma zsum_scale c f l : zsum (fun x => c * f x) l = c * zsum f l.
Proof. induction l as [|x l IH]; simpl; [lia|]. rewrite IH. lia. Qed.

Lemma zsum_zero f l : (∀ x, x ∈ l → f x = 0) → zsum f l = 0.
Proof. intros H. rewrite (zsum_ext f (fun _ => 0)) by done. induction l; simpl; [done|]. apply IHl. set_solver. Qed.

Lemma zsum_nonneg f l : (∀ x, x ∈ l → 0 ≤ f x) → 0 ≤ zsum f l.
Proof.
  induction l as [|x l IH]; intros H; simpl; [done|].
  pose proof (H x ltac:(left)). assert (0 ≤ zsum f l); [|lia]. apply IH. intros y Hy. apply H. by right.
Qed.

Lemma zsum_fmap {B} (h : B → A) f (l : list B) : zsum f (h <$> l) = zsum (fun x => f (h x)) l.
Proof. induction l as [|x l IH]; [done|]. rewrite fmap_cons. simpl. by f_equal. Qed.

Lemma zsum_jfilter (p : A → bool) f l : zsum f (jfilter p l) = zsum (fun x => if p x then f x else 0) l.
Proof. induction l as [|x l IH]; simpl; [done|]. destruct (p x); simpl; by rewrite IH. Qed.

Lemma zsum_concat f (ls : list (list A)) : zsum f (concat ls) = zsum (zsum f) ls.
Proof. induction ls as [|l ls IH]; simpl; [done|]. by rewrite zsum_app, IH. Qed.

Lemma zsum_one l : zsum (fun _ => 1) l = Z.of_nat (length l).
Proof. induction l as [|x l IH]; simpl; [done|]. rewrite IH. lia. Qed.

(** [array.reduce((acc, x) => acc + f(x), a)] *)
Lemma foldl_zsum f l a : foldl (fun acc x => acc + f x) a l = a + zsum f l.
Proof. revert a. induction l as [|x l IH]; intros a; simpl; [lia|]. rewrite IH. lia. Qed.

(** A sum over distinct elements of one that stands out. *)
Lemma zsum_single `{!EqDecision A} f l x :
  NoDup l → x ∈ l → zsum (fun y => if bool_decide (y = x) then f y else 0) l = f x.
Proof.
  induction l as [|y l IH]; [set_solver|]. intros [Hy Hnd]%NoDup_cons [->|Hx]%elem_of_cons; simpl.
  - rewrite bool_decide_true by done. rewrite zsum_zero; [lia|]. intros z Hz.
    rewrite bool_decide_false; [done|]. by intros ->.
  - rewrite bool_decide_false by (by intros ->). rewrite IH by done. lia.
Qed.
End Sums.

Lemma zsum_swap {A B} (f : A → B → Z) (l : list A) (k : list B) :
  zsum (fun x => zsum (f x) k) l = zsum (fun y => zsum (fun x => f x y) l) k.
Proof.
  induction l as [|x l IH]; simpl; [symmetry; by apply zsum_zero|].
  rewrite IH. by rewrite <-zsum_add.
Qed.

(** * A [Set] of objects *)

Section ObjectSet.
Context {A : Type} `{!EqDecision A}.
Implicit Types (s : list A) (x y : A).

Definition oset_add s x : list A := if bool_decide (x ∈ s) then s else s ++ [x].
Definition oset_delete s x : list A := jfilter (fun y => bool_decide (y ≠ x)) s.
(** [new Set(iterable)] *)
Definition oset_of (l : list A) : list A := foldl oset_add [] l.

Lemma elem_of_oset_add s x y : y ∈ oset_add s x ↔ y ∈ s ∨ y = x.
Proof. unfold oset_add. case_bool_decide; set_solver. Qed.

Lemma oset_add_NoDup s x : NoDup s → NoDup (oset_add s x).
Proof.
  unfold oset_add. case_bool_decide; [done|]. intros. apply NoDup_app.
  repeat split; [done|set_solver|apply NoDup_singleton].
Qed.

Lemma elem_of_oset_delete s x y : y ∈ oset_delete s x ↔ y ∈ s ∧ y ≠ x.
Proof. unfold oset_delete. rewrite elem_of_jfilter, bool_decide_eq_true. tauto. Qed.

Lemma oset_delete_NoDup s x : NoDup s → NoDup (oset_delete s x).
Proof. intros H. eapply sublist_NoDup; [exact H|apply jfilter_sublist]. Qed.

Lemma elem_of_foldl_oset_add l s y : y ∈ foldl oset_add s l ↔ y ∈ s ∨ y ∈ l.
Proof.
  revert s. induction l as [|x l IH]; intros s; simpl; [set_solver|].
  rewrite IH, elem_of_oset_add. set_solver.
Qed.

Lemma foldl_oset_add_NoDup l s : NoDup s → NoDup (foldl oset_add s l).
Proof. revert s. induction l; intros s H; simpl; [done|]. by apply IHl, oset_add_NoDup. Qed.

Lemma elem_of_foldl_oset_delete l s y : y ∈ foldl oset_delete s l ↔ y ∈ s ∧ y ∉ l.
Proof.
  revert s. induction l as [|x l IH]; intros s; simpl; [set_solver|].
  rewrite IH, elem_of_oset_delete. set_solver.
Qed.

Lemma foldl_oset_delete_NoDup l s : NoDup s → NoDup (foldl oset_delete s l).
Proof. revert s. induction l; intros s H; simpl; [done|]. by apply IHl, oset_delete_NoDup. Qed.

Lemma elem_of_oset_of l y : y ∈ oset_of l ↔ y ∈ l.
Proof. unfold oset_of. rewrite elem_of_foldl_oset_add. set_solver. Qed.

Lemma oset_of_NoDup l : NoDup (oset_of l).
Proof. apply foldl_oset_add_NoDup. constructor. Qed.
End ObjectSet.

#[export] Hint Resolve oset_add_NoDup oset_delete_NoDup oset_of_NoDup foldl_oset_add_NoDup
  foldl_oset_delete_NoDup : panel.

(** * Grouping: a [Map] from a key to the array of the elements that have it *)

Section GroupBy.
Context {K A : Type} `{!EqDecision K} (key : A → K).
Implicit Types (m : list (K * list A)) (l : list A) (x : A).

(** [list = m.get(key(x)) ?? []; list.push(x); m.set(key(x), list)] *)
Definition group_push m x : list (K * list A) := map_set m (key x) (default [] (map_get m (key x)) ++ [x]).
Definition group_by l : list (K * list A) := foldl group_push [] l.

Lemma group_push_get m x k :
  default [] (map_get (group_push m x) k) =
  default [] (map_get m k) ++ (if bool_decide (key x = k) then [x] else []).
Proof.
  unfold group_push. rewrite map_get_set. case_bool_decide; subst; simpl; [done|by rewrite app_nil_r].
Qed.

Lemma foldl_group_get l m k :
  default [] (map_get (foldl group_push m l) k) =
  default [] (map_get m k) ++ jfilter (fun x => bool_decide (key x = k)) l.
Proof.
  revert m. induction l as [|x l IH]; intros m; simpl; [by rewrite app_nil_r|].
  rewrite IH, group_push_get, <-app_assoc. by case_bool_decide.
Qed.

Lemma group_by_get l k :
  default [] (map_get (group_by l) k) = jfilter (fun x => bool_decide (key x = k)) l.
Proof. unfold group_by. by rewrite foldl_group_get. Qed.

Lemma foldl_group_keys l m k :
  k ∈ map_keys (foldl group_push m l) ↔ k ∈ map_keys m ∨ ∃ x, x ∈ l ∧ key x = k.
Proof.
  revert m. induction l as [|x l IH]; intros m; simpl; [set_solver|].
  rewrite IH. unfold group_push. rewrite map_keys_set. case_bool_decide; set_solver.
Qed.

Lemma group_by_keys l k : k ∈ map_keys (group_by l) ↔ ∃ x, x ∈ l ∧ key x = k.
Proof. unfold group_by. rewrite foldl_group_keys. set_solver. Qed.

Lemma group_by_ok l : map_ok (group_by l).
Proof.
  unfold group_by. assert (map_ok (@nil (K * list A))) as H by constructor.
  revert H. generalize (@nil (K * list A)). induction l as [|x l IH]; intros m H; simpl; [done|].
  by apply IH, map_set_ok.
Qed.

Lemma group_by_get_Some l k xs :
  map_get (group_by l) k = Some xs → xs = jfilter (fun x => bool_decide (key x = k)) l.
Proof. intros H. rewrite <-group_by_get. by rewrite H. Qed.

(** Summing group by group is summing the list. *)
Lemma zsum_group_by (f : A → Z) l : zsum (fun kv => zsum f kv.2) (group_by l) = zsum f l.
Proof.
  assert (∀ m x, map_ok m →
    zsum (fun kv => zsum f kv.2) (group_push m x) = zsum (fun kv => zsum f kv.2) m + f x) as Hstep.
  { intros m x _. unfold group_push. generalize (key x). intros k. clear.
    induction m as [|[k' v] m IH]; simpl; [lia|]. case_bool_decide; simpl.
    - rewrite zsum_app. simpl. lia.
    - rewrite IH. lia. }
  unfold group_by. assert (map_ok (@nil (K * list A))) as H by constructor.
  change (zsum f l) with (zsum (fun kv => zsum f kv.2) (@nil (K * list A)) + zsum f l).
  revert H. generalize (@nil (K * list A)). induction l as [|x l IH]; intros m H; simpl; [lia|].
  rewrite IH by by apply map_set_ok. rewrite Hstep by done. lia.
Qed.
End GroupBy.

(** * Counters in a [Map] *)

Section Counters.
Context {K : Type} `{!EqDecision K}.
Implicit Types (m : list (K * Z)) (k : K).

(** [m.get(k) ?? 0] *)
Definition credit m k : Z := default 0 (map_get m k).
(** [m.set(k, (m.get(k) ?? 0) + d)] *)
Definition credit_add m k d : list (K * Z) := map_set m k (credit m k + d).

Lemma credit_credit_add m k d k' : credit (credit_add m k d) k' = credit m k' + (if bool_decide (k = k') then d else 0).
Proof.
  unfold credit at 1, credit_add. rewrite map_get_set. case_bool_decide; subst; simpl; [done|].
  unfold credit. lia.
Qed.

Lemma credit_foldl {A} (key : A → K) (d : A → Z) (l : list A) m k :
  credit (foldl (fun m x => credit_add m (key x) (d x)) m l) k =
  credit m k + zsum (fun x => if bool_decide (key x = k) then d x else 0) l.
Proof.
  revert m. induction l as [|x l IH]; intros m; simpl; [lia|].
  rewrite IH, credit_credit_add. lia.
Qed.

Lemma credit_add_ok m k d : map_ok m → map_ok (credit_add m k d).
Proof. apply map_set_ok. Qed.

Lemma credit_foldl_ok {A} (key : A → K) (d : A → Z) (l : list A) m :
  map_ok m → map_ok (foldl (fun m x => credit_add m (key x) (d x)) m l).
Proof. revert m. induction l; intros m H; simpl; [done|]. by apply IHl, credit_add_ok. Qed.

Lemma credit_foldl_keys {A} (key : A → K) (d : A → Z) (l : list A) m k :
  k ∈ map_keys (foldl (fun m x => credit_add m (key x) (d x)) m l) ↔
  k ∈ map_keys m ∨ ∃ x, x ∈ l ∧ key x = k.
Proof.
  revert m. induction l as [|x l IH]; intros m; simpl; [set_solver|].
  rewrite IH. unfold credit_add. rewrite map_keys_set. case_bool_decide; set_solver.
Qed.
End Counters.

#[export] Hint Resolve group_by_ok credit_add_ok credit_foldl_ok : panel.
