(* ===== verification/SeedTime.v ===== *)
(** Seed time ([packages/db/src/economy/accrual.ts]): the seeding windows of a
    server rebuilt from its transitions, the seconds of a session inside them,
    and the older rule that counts the seconds during which fewer than a
    threshold of sessions were open, computed by a sweep over the boundaries.
    Both are shown equal to counting second by second. *)
From S2P Require Import Prelude JsString JsMap Collections.

Record SeedSessionInterval := MkInterval {
  playerId : jstr;
  serverId : jstr;
  startSec : Z;
  endSec : Z;
}.

#[export] Instance SeedSessionInterval_eq_dec : EqDecision SeedSessionInterval.
Proof. solve_decision. Defined.

Inductive transition_type := started | ended.

#[export] Instance transition_type_eq_dec : EqDecision transition_type.
Proof. solve_decision. Defined.

Record SeedingTransitionEvent := MkTransition { tr_type : transition_type; atSec : Z }.

Record SeedingWindow := MkWindow { w_start : Z; w_end : Z }.

(** * Windows from transitions *)

(** The loop's variables: [windows], [seeding], [openStart]. *)
Record window_state := MkWS {
  ws_windows : list SeedingWindow;
  ws_seeding : bool;
  ws_open : option Z;
}.

(** [if (end > start) windows.push({ startSec: start, endSec: end })] *)
Definition push_window (ws : list SeedingWindow) (s e : Z) : list SeedingWindow :=
  if s <? e then ws ++ [MkWindow s e] else ws.

(** The body of the loop for a transition inside the day. *)
Definition window_step (ds de : Z) (st : window_state) (tr : SeedingTransitionEvent) : window_state :=
  match tr_type tr with
  | started =>
      if negb (ws_seeding st) then MkWS (ws_windows st) true (Some (Z.max (atSec tr) ds)) else st
  | ended =>
      if ws_seeding st then
        let s := default ds (ws_open st) in
        let e := Z.min (Z.max (atSec tr) s) de in
        MkWS (push_window (ws_windows st) s e) false None
      else st
  end.

Fixpoint window_loop (ds de : Z) (st : window_state) (trs : list SeedingTransitionEvent) : window_state :=
  match trs with
  | [] => st
  | tr :: trs =>
      if atSec tr <? ds then
        window_loop ds de (MkWS (ws_windows st) (bool_decide (tr_type tr = started)) (ws_open st)) trs
      else if atSec tr >? de then st
      else window_loop ds de (window_step ds de st tr) trs
  end.

(** After the loop: a window still open is closed at [dayEndSec]. *)
Definition close_window (ds de : Z) (st : window_state) : list SeedingWindow :=
  if ws_seeding st then push_window (ws_windows st) (default ds (ws_open st)) de else ws_windows st.

Definition computeSeedingWindows (trs : list SeedingTransitionEvent) (ds de : Z) : list SeedingWindow :=
  close_window ds de (window_loop ds de (MkWS [] false None) trs).

(** * Seconds of the sessions inside the windows *)

(** The key [`${playerId}|${serverId}`]. *)
Definition seed_key (i : SeedSessionInterval) : jstr := playerId i ++ 124 :: serverId i.

Definition overlap (i : SeedSessionInterval) (w : SeedingWindow) : Z :=
  let s := Z.max (startSec i) (w_start w) in
  let e := Z.min (endSec i) (w_end w) in
  if e >? s then e - s else 0.

Definition add_interval (windowsByServer : list (jstr * list SeedingWindow)) (res : list (jstr * Z))
    (i : SeedSessionInterval) : list (jstr * Z) :=
  if endSec i <=? startSec i then res
  else match map_get windowsByServer (serverId i) with
  | None | Some [] => res
  | Some windows =>
      let seconds := foldl (fun acc w => acc + overlap i w) 0 windows in
      if seconds >? 0 then credit_add res (seed_key i) seconds else res
  end.

Definition computeSeedSecondsWithinWindows (intervals : list SeedSessionInterval)
    (windowsByServer : list (jstr * list SeedingWindow)) : list (jstr * Z) :=
  foldl (add_interval windowsByServer) [] intervals.

(** * The sweep *)

(** A session object: the sweep's [Set] distinguishes objects, not contents, so
    an interval carries the position that identifies it. *)
Abbreviation session_obj := (nat * SeedSessionInterval)%type.

Definition by_start (sessions : list session_obj) : list (Z * list session_obj) := group_by (fun s => startSec s.2) sessions.
Definition by_end (sessions : list session_obj) : list (Z * list session_obj) := group_by (fun s => endSec s.2) sessions.

Definition boundaries (sessions : list session_obj) : list Z :=
  jsort (fun a b => a - b) (oset_of (map_keys (by_start sessions) ++ map_keys (by_end sessions))).

Definition add_active (res : list (jstr * Z)) (duration : Z) (active : list session_obj) : list (jstr * Z) :=
  foldl (fun res s => credit_add res (seed_key s.2) duration) res active.

(** [for (let i = 0; i < boundaries.length - 1; i += 1)] *)
Fixpoint sweep_loop (threshold : Z) (startsAt endsAt : list (Z * list session_obj))
    (active : list session_obj) (res : list (jstr * Z)) (bs : list Z) : list (jstr * Z) :=
  match bs with
  | from :: (to :: _) as rest =>
      let active := foldl oset_delete active (default [] (map_get endsAt from)) in
      let active := foldl oset_add active (default [] (map_get startsAt from)) in
      let size := Z.of_nat (length active) in
      let res := if (size =? 0) || (size >=? threshold) then res else add_active res (to - from) active in
      sweep_loop threshold startsAt endsAt active res rest
  | _ => res
  end.

Definition sweep_server (threshold : Z) (res : list (jstr * Z)) (sessions : list session_obj) : list (jstr * Z) :=
  sweep_loop threshold (by_start sessions) (by_end sessions) [] res (boundaries sessions).

Definition nonempty_session (s : session_obj) : bool := negb (endSec s.2 <=? startSec s.2).

Definition computeSeedSecondsByPlayerServer (intervals : list SeedSessionInterval) (threshold : Z) : list (jstr * Z) :=
  if threshold <=? 0 then []
  else
    let byServer := group_by (fun s => serverId s.2) (jfilter nonempty_session (imap pair intervals)) in
    foldl (fun res kv => sweep_server threshold res kv.2) [] byServer.

(** * Counting second by second *)

(** The number of seconds of [[a, b)] for which [p] holds. *)
Definition seconds (p : Z → bool) (a b : Z) : Z := zsum (fun t => if p t then 1 else 0) (seqZ a (b - a)).

Lemma seconds_empty p a b : b ≤ a → seconds p a b = 0.
Proof. intros. unfold seconds. rewrite seqZ_nil by lia. done. Qed.

Lemma seconds_split p a b c : a ≤ b → b ≤ c → seconds p a c = seconds p a b + seconds p b c.
Proof.
  intros. unfold seconds. rewrite <-zsum_app. f_equal.
  replace (c - a) with ((b - a) + (c - b)) by lia. rewrite seqZ_app by lia.
  do 2 f_equal. lia.
Qed.

Lemma seconds_ext p q a b : (∀ t, a ≤ t < b → p t = q t) → seconds p a b = seconds q a b.
Proof.
  intros H. apply zsum_ext. intros t Ht%elem_of_seqZ. rewrite H; [done|lia].
Qed.

Lemma seconds_true p a b : (∀ t, a ≤ t < b → p t = true) → a ≤ b → seconds p a b = b - a.
Proof.
  intros H Hab. rewrite (seconds_ext p (fun _ => true)) by done. unfold seconds.
  rewrite zsum_one, length_seqZ. lia.
Qed.

Lemma seconds_false p a b : (∀ t, a ≤ t < b → p t = false) → seconds p a b = 0.
Proof. intros H. apply zsum_zero. intros t Ht%elem_of_seqZ. rewrite H; [done|lia]. Qed.

Lemma seconds_nonneg p a b : 0 ≤ seconds p a b.
Proof. apply zsum_nonneg. intros. case_match; lia. Qed.

(** The seconds of a range during which [p] holds, [p] being true only inside
    a smaller range. *)
Lemma seconds_shrink p a b a' b' :
  a ≤ a' → b' ≤ b → (∀ t, a ≤ t < b → p t = true → a' ≤ t < b') → seconds p a b = seconds p a' b'.
Proof.
  intros Ha Hb H. destruct (decide (a' ≤ b')) as [Hab|Hab].
  - rewrite (seconds_split p a a') by lia. rewrite (seconds_split p a' b') by lia.
    rewrite (seconds_false p a a'), (seconds_false p b' b); [lia|..].
    all: intros t Ht; destruct (p t) eqn:E; [|done]; apply H in E; lia.
  - rewrite (seconds_empty p a' b') by lia. apply seconds_false. intros t Ht.
    destruct (p t) eqn:E; [|done]. apply H in E; lia.
Qed.

(** Is the server seeding at second [t]: the type of its last transition at or
    before [t]. *)
Definition seeding_from (s : bool) (trs : list SeedingTransitionEvent) (t : Z) : bool :=
  foldl (fun s tr => if atSec tr <=? t then bool_decide (tr_type tr = started) else s) s trs.
Definition seeding_at (trs : list SeedingTransitionEvent) (t : Z) : bool := seeding_from false trs t.

Definition in_seed_window (w : SeedingWindow) (t : Z) : bool := (w_start w <=? t) && (t <? w_end w).
Definition in_windows (ws : list SeedingWindow) (t : Z) : bool := existsb (fun w => in_seed_window w t) ws.

(** Windows in order, nonempty, disjoint, inside [[lo, hi]]. *)
Fixpoint windows_ok (lo hi : Z) (ws : list SeedingWindow) : Prop :=
  match ws with
  | [] => True
  | w :: ws => lo ≤ w_start w ∧ w_start w < w_end w ∧ w_end w ≤ hi ∧ windows_ok (w_end w) hi ws
  end.

Definition transitions_sorted (trs : list SeedingTransitionEvent) : Prop :=
  StronglySorted (fun a b => atSec a ≤ atSec b) trs.

(** * The windows are the seconds the server was seeding *)

Lemma windows_ok_app lo hi mid ws ws' :
  windows_ok lo mid ws → windows_ok mid hi ws' → lo ≤ mid → mid ≤ hi → windows_ok lo hi (ws ++ ws').
Proof.
  revert lo. induction ws as [|w ws IH]; intros lo; simpl.
  - intros _ H ? _. destruct ws' as [|w' ws']; simpl in *; [done|]. intuition lia.
  - intros (?&?&?&?) H' ??. repeat split; [lia..|]. apply IH; [done..|lia|lia].
Qed.

Lemma windows_ok_weaken lo lo' hi hi' ws : windows_ok lo hi ws → lo' ≤ lo → hi ≤ hi' → windows_ok lo' hi' ws.
Proof.
  revert lo lo'. induction ws as [|w ws IH]; intros lo lo'; simpl; [done|].
  intros (?&?&?&?) ??. repeat split; [lia..|]. eapply IH; [done|lia|lia].
Qed.

Lemma in_windows_app ws ws' t : in_windows (ws ++ ws') t = in_windows ws t || in_windows ws' t.
Proof. apply existsb_app. Qed.

Lemma in_windows_outside lo hi ws t : windows_ok lo hi ws → t < lo ∨ hi ≤ t → in_windows ws t = false.
Proof.
  revert lo. induction ws as [|w ws IH]; intros lo; simpl; [done|].
  intros (?&?&?&Hws) Ht. rewrite (IH _ Hws) by lia.
  unfold in_seed_window. destruct (w_start w <=? t) eqn:?, (t <? w_end w) eqn:?; bool_to_Prop; try done; lia.
Qed.

Lemma in_windows_push ws s e t :
  in_windows (push_window ws s e) t = in_windows ws t || ((s <=? t) && (t <? e)).
Proof.
  unfold push_window. destruct (s <? e) eqn:?; bool_to_Prop.
  - rewrite in_windows_app. simpl. unfold in_seed_window. simpl. by rewrite orb_false_r.
  - destruct (s <=? t) eqn:?, (t <? e) eqn:?; bool_to_Prop; rewrite ?orb_false_r; try done; lia.
Qed.

Lemma push_window_ok lo c ws s e :
  windows_ok lo c ws → c ≤ s → lo ≤ c → windows_ok lo (Z.max c e) (push_window ws s e).
Proof.
  intros. unfold push_window. destruct (s <? e) eqn:?; bool_to_Prop.
  - eapply windows_ok_app; [done| |lia|lia]. simpl. repeat split; lia.
  - eapply windows_ok_weaken; [done|lia|lia].
Qed.

(** The start of the window that is open. *)
Definition open_start (ds : Z) (st : window_state) : Z := default ds (ws_open st).

(** Between two transitions: [c] is the second reached; what was pushed ends
    before the open window, or before [c]. *)
Record window_inv (ds c : Z) (st : window_state) : Prop := {
  wi_day : ds ≤ c;
  wi_open : ds ≤ open_start ds st ≤ c;
  wi_ok : windows_ok ds (if ws_seeding st then open_start ds st else c) (ws_windows st);
}.

(** What the finished windows say of second [t] when the loop stands at [c]. *)
Definition window_view (ds c : Z) (st : window_state) (trs : list SeedingTransitionEvent) (t : Z) : bool :=
  if t <? c then in_windows (ws_windows st) t || (ws_seeding st && (open_start ds st <=? t))
  else seeding_from (ws_seeding st) trs t.

Lemma seeding_from_after s trs t : (∀ tr, tr ∈ trs → t < atSec tr) → seeding_from s trs t = s.
Proof.
  revert s. induction trs as [|tr trs IH]; intros s H; [done|]. unfold seeding_from. simpl.
  rewrite (proj2 (Z.leb_gt _ _)) by (apply H; left). apply IH. intros. apply H. by right.
Qed.

Lemma close_window_view ds de c st trs t :
  window_inv ds c st → c ≤ de → ds ≤ t < de → (∀ tr, tr ∈ trs → t < atSec tr) →
  in_windows (close_window ds de st) t = window_view ds c st trs t.
Proof.
  intros [? [? ?] Hok] ? Ht Hafter. unfold window_view, close_window.
  rewrite seeding_from_after by done. fold (open_start ds st).
  destruct (ws_seeding st) eqn:Es; rewrite ?in_windows_push.
  - assert (open_start ds st ≤ t ∨ t < open_start ds st) as [?|?] by lia.
    + rewrite (proj2 (Z.leb_le (open_start ds st) t)), (proj2 (Z.ltb_lt t de)) by lia.
      rewrite !orb_true_r. by case_match.
    + rewrite (proj2 (Z.leb_gt (open_start ds st) t)), (proj2 (Z.ltb_lt t c)) by lia. done.
  - case_match; bool_to_Prop; [by rewrite ?orb_false_r|]. eapply in_windows_outside; [done|lia].
Qed.

Lemma window_step_inv ds de c st tr :
  window_inv ds c st → ds ≤ atSec tr → c ≤ atSec tr ≤ de → window_inv ds (atSec tr) (window_step ds de st tr).
Proof.
  intros [? ? Hok] ? ?. unfold window_step. fold (open_start ds st).
  destruct (tr_type tr), (ws_seeding st) eqn:Es; split; unfold open_start in *; simpl; try rewrite Es; try lia; try done.
  - eapply windows_ok_weaken; [done|lia|lia].
  - eapply windows_ok_weaken; [apply (push_window_ok ds (default ds (ws_open st))); [done|lia|lia]|lia|lia].
  - eapply windows_ok_weaken; [done|lia|lia].
Qed.

Lemma window_step_view ds de c st tr trs t :
  window_inv ds c st → ds ≤ atSec tr → c ≤ atSec tr ≤ de → ds ≤ t < de →
  (∀ tr', tr' ∈ trs → atSec tr ≤ atSec tr') →
  window_view ds (atSec tr) (window_step ds de st tr) trs t = window_view ds c st (tr :: trs) t.
Proof.
  intros [? ? Hok] ? ? ? Hs. unfold window_view, window_step. fold (open_start ds st).
  destruct (t <? atSec tr) eqn:Eta; bool_to_Prop.
  - (* before the transition *)
    assert (seeding_from (ws_seeding st) (tr :: trs) t = ws_seeding st) as ->.
    { apply seeding_from_after. intros tr' [->|Hin]%elem_of_cons; [lia|]. apply Hs in Hin. lia. }
    destruct (tr_type tr), (ws_seeding st) eqn:Es; simpl; rewrite ?Es; unfold open_start in *; simpl in *.
    + assert (default ds (ws_open st) ≤ t ∨ t < default ds (ws_open st)) as [?|?] by lia.
      * rewrite (proj2 (Z.leb_le (default ds (ws_open st)) t)) by lia. rewrite orb_true_r. by case_match.
      * rewrite (proj2 (Z.ltb_lt t c)) by lia. done.
    + rewrite (proj2 (Z.leb_gt (Z.max (atSec tr) ds) t)) by lia. rewrite orb_false_r.
      case_match; bool_to_Prop; [by rewrite ?orb_false_r|]. eapply in_windows_outside; [done|lia].
    + rewrite in_windows_push, orb_false_r.
      rewrite (proj2 (Z.ltb_lt t (Z.min (Z.max (atSec tr) (default ds (ws_open st))) de))) by lia.
      rewrite andb_true_r. case_match; [done|]. bool_to_Prop.
      rewrite (proj2 (Z.leb_le (default ds (ws_open st)) t)) by lia. by rewrite orb_true_r.
    + rewrite orb_false_r. case_match; bool_to_Prop; [by rewrite ?orb_false_r|].
      eapply in_windows_outside; [done|lia].
  - rewrite (proj2 (Z.ltb_ge t c)) by lia. unfold seeding_from at 2. simpl.
    rewrite (proj2 (Z.leb_le (atSec tr) t)) by lia.
    destruct (tr_type tr), (ws_seeding st) eqn:Es; simpl; rewrite ?Es; done.
Qed.

Lemma window_loop_view ds de c st trs t :
  window_inv ds c st → c ≤ de → ds ≤ t < de → transitions_sorted trs →
  ((∀ tr, tr ∈ trs → c ≤ atSec tr) ∨ (c = ds ∧ ws_windows st = [] ∧ ws_open st = None)) →
  in_windows (close_window ds de (window_loop ds de st trs)) t = window_view ds c st trs t.
Proof.
  revert c st. induction trs as [|tr trs IH]; intros c st Hinv Hc Ht Hs Hph; simpl.
  { eapply close_window_view; [done..|set_solver]. }
  apply StronglySorted_inv in Hs as [Hs Htr]. rewrite Forall_forall in Htr.
  destruct (atSec tr <? ds) eqn:E1; bool_to_Prop.
  - destruct Hph as [Hge|(-> & Hw & Ho)]; [destruct Hinv; specialize (Hge tr ltac:(left)); lia|].
    rewrite (IH ds); [|split; unfold open_start; simpl; rewrite ?Hw, ?Ho; simpl; try case_match; done || lia|lia|done..|by right].
    unfold window_view. simpl. rewrite (proj2 (Z.ltb_ge t ds)) by lia. unfold seeding_from. simpl.
    by rewrite (proj2 (Z.leb_le (atSec tr) t)) by lia.
  - assert (c ≤ atSec tr) as Hca.
    { destruct Hph as [Hge|(-> & _)]; [apply Hge; left|lia]. }
    destruct (atSec tr >? de) eqn:E2; rewrite Z.gtb_ltb in E2; bool_to_Prop.
    + eapply close_window_view; [done..|]. intros tr' [->|Hin]%elem_of_cons; [lia|]. apply Htr in Hin. lia.
    + rewrite (IH (atSec tr)); [|apply window_step_inv with c; [done|lia|lia]|lia|done|done|left; apply Htr].
      apply window_step_view; [done|lia|lia|done|apply Htr].
Qed.

Lemma close_window_ok ds de c st : window_inv ds c st → c ≤ de → windows_ok ds de (close_window ds de st).
Proof.
  intros [? ? Hok] ?. unfold close_window. fold (open_start ds st). destruct (ws_seeding st).
  - eapply windows_ok_weaken; [apply (push_window_ok ds (open_start ds st)); [done|lia|lia]|lia|lia].
  - eapply windows_ok_weaken; [done|lia|lia].
Qed.

Lemma window_loop_ok ds de c st trs :
  window_inv ds c st → c ≤ de → transitions_sorted trs →
  ((∀ tr, tr ∈ trs → c ≤ atSec tr) ∨ (c = ds ∧ ws_windows st = [] ∧ ws_open st = None)) →
  windows_ok ds de (close_window ds de (window_loop ds de st trs)).
Proof.
  revert c st. induction trs as [|tr trs IH]; intros c st Hinv Hc Hs Hph; simpl.
  { by eapply close_window_ok. }
  apply StronglySorted_inv in Hs as [Hs Htr]. rewrite Forall_forall in Htr.
  destruct (atSec tr <? ds) eqn:E1; bool_to_Prop.
  - destruct Hph as [Hge|(-> & Hw & Ho)]; [destruct Hinv; specialize (Hge tr ltac:(left)); lia|].
    apply (IH ds); [|done..|by right].
    split; unfold open_start; simpl; rewrite ?Hw, ?Ho; simpl; try case_match; done || lia.
  - assert (c ≤ atSec tr) as Hca.
    { destruct Hph as [Hge|(-> & _)]; [apply Hge; left|lia]. }
    destruct (atSec tr >? de) eqn:E2; rewrite Z.gtb_ltb in E2; bool_to_Prop; [by eapply close_window_ok|].
    apply (IH (atSec tr)); [apply window_step_inv with c; [done|lia|lia]|lia|done|left; apply Htr].
Qed.

Lemma window_init_inv ds : window_inv ds ds (MkWS [] false None).
Proof. split; simpl; done || lia. Qed.

Lemma windows_before_day trs ds de : de < ds → computeSeedingWindows trs ds de = [].
Proof.
  intros Hlt. unfold computeSeedingWindows. generalize false as s. induction trs as [|tr trs IH]; intros s; simpl.
  - unfold close_window, push_window. simpl. rewrite (proj2 (Z.ltb_ge ds de)) by lia. by case_match.
  - destruct (atSec tr <? ds) eqn:E; bool_to_Prop; [apply IH|].
    rewrite (proj2 (Z.gtb_lt (atSec tr) de)) by lia. unfold close_window, push_window. simpl.
    rewrite (proj2 (Z.ltb_ge ds de)) by lia. by case_match.
Qed.

Lemma computeSeedingWindows_aux trs ds de :
  transitions_sorted trs →
  windows_ok ds de (computeSeedingWindows trs ds de) ∧
  ∀ t, in_windows (computeSeedingWindows trs ds de) t = (ds <=? t) && (t <? de) && seeding_at trs t.
Proof.
  intros Hs. destruct (decide (de < ds)) as [Hlt|Hle].
  { rewrite windows_before_day by done. split; [done|]. intros t. simpl.
    destruct (ds <=? t) eqn:?, (t <? de) eqn:?; bool_to_Prop; done || lia. }
  assert (windows_ok ds de (computeSeedingWindows trs ds de)) as Hok.
  { apply (window_loop_ok ds de ds); [apply window_init_inv|lia|done|by right]. }
  split; [done|]. intros t. destruct (ds <=? t) eqn:E1, (t <? de) eqn:E2; bool_to_Prop;
    simpl; try (eapply in_windows_outside; [exact Hok|lia]).
  unfold computeSeedingWindows. rewrite (window_loop_view ds de ds); [|apply window_init_inv|lia|lia|done|by right].
  unfold window_view. by rewrite (proj2 (Z.ltb_ge t ds)) by lia.
Qed.

(** The windows rebuilt from a server's transitions, in time order, are
    disjoint, in order, inside the day, and cover exactly the seconds of the
    day at which the last transition was [started]: duplicates, a state carried
    over from before the day and a window still open at its end included. *)
Theorem computeSeedingWindows_exact trs ds de :
  transitions_sorted trs →
  windows_ok ds de (computeSeedingWindows trs ds de) ∧
  ∀ t, in_windows (computeSeedingWindows trs ds de) t = (ds <=? t) && (t <? de) && seeding_at trs t.
Proof. apply computeSeedingWindows_aux. Qed.

Example windows_trs : list SeedingTransitionEvent :=
  [MkTransition started 90; MkTransition ended 120; MkTransition ended 130; MkTransition started 150;
   MkTransition started 160].

Lemma computeSeedingWindows_exact_witness :
  computeSeedingWindows windows_trs 100 200 = [MkWindow 100 120; MkWindow 150 200] ∧
  in_windows (computeSeedingWindows windows_trs 100 200) 155 = true.
Proof.
  assert (transitions_sorted windows_trs) as Hs by (repeat constructor; simpl; lia).
  split; [reflexivity|]. rewrite (proj2 (computeSeedingWindows_exact _ 100 200 Hs) 155). reflexivity.
Defined.

(** * The seconds of a session inside the windows *)

Lemma seconds_or_disjoint p q a b :
  (∀ t, p t = true → q t = false) → seconds (fun t => p t || q t) a b = seconds p a b + seconds q a b.
Proof.
  intros H. unfold seconds. rewrite <-zsum_add. apply zsum_ext. intros t _.
  destruct (p t) eqn:E; simpl; [by rewrite (H t E)|lia].
Qed.

Lemma seconds_in_window i w :
  startSec i ≤ endSec i → seconds (in_seed_window w) (startSec i) (endSec i) = overlap i w.
Proof.
  intros. unfold overlap.
  set (a := Z.max _ _). set (b := Z.min _ _).
  destruct (b >? a) eqn:E; rewrite Z.gtb_ltb in E; bool_to_Prop.
  - rewrite (seconds_shrink _ _ _ a b); [|lia|lia|].
    + apply seconds_true; [|lia]. intros t Ht. unfold in_seed_window. apply andb_true_iff.
      rewrite Z.leb_le, Z.ltb_lt. lia.
    + intros t Ht Hw. unfold in_seed_window in Hw. bool_to_Prop. lia.
  - apply seconds_false. intros t Ht. unfold in_seed_window.
    destruct (w_start w <=? t) eqn:?, (t <? w_end w) eqn:?; bool_to_Prop; try done. lia.
Qed.

Lemma seconds_in_windows lo hi ws i :
  windows_ok lo hi ws → startSec i ≤ endSec i →
  foldl (fun acc w => acc + overlap i w) 0 ws = seconds (in_windows ws) (startSec i) (endSec i).
Proof.
  intros Hok Hi. rewrite foldl_zsum, Z.add_0_l. revert lo Hok.
  induction ws as [|w ws IH]; intros lo; simpl.
  - intros _. symmetry. by apply seconds_false.
  - intros (? & ? & ? & Hok). rewrite (IH _ Hok).
    change (in_windows (w :: ws)) with (fun t => in_seed_window w t || in_windows ws t).
    rewrite seconds_or_disjoint, seconds_in_window; [done|done|].
    intros t Ht. eapply in_windows_outside; [exact Hok|]. unfold in_seed_window in Ht. bool_to_Prop. lia.
Qed.

(** Whether a server was seeding, by the windows recorded for it. *)
Definition server_windows (windowsByServer : list (jstr * list SeedingWindow)) (server : jstr) : list SeedingWindow :=
  default [] (map_get windowsByServer server).

Lemma add_interval_credit W res i k lo hi :
  windows_ok lo hi (server_windows W (serverId i)) →
  credit (add_interval W res i) k =
  credit res k + (if bool_decide (seed_key i = k)
                  then seconds (in_windows (server_windows W (serverId i))) (startSec i) (endSec i) else 0).
Proof.
  intros Hok. unfold add_interval, server_windows in *.
  destruct (endSec i <=? startSec i) eqn:E; bool_to_Prop.
  { rewrite seconds_empty by lia. case_bool_decide; lia. }
  destruct (map_get W (serverId i)) as [[|w ws]|] eqn:Ew; cbn [default id] in *.
  1, 3: rewrite seconds_false by done; case_bool_decide; lia.
  rewrite (seconds_in_windows lo hi) by (done || lia).
  pose proof (seconds_nonneg (in_windows (w :: ws)) (startSec i) (endSec i)).
  destruct (_ >? 0) eqn:Es; rewrite Z.gtb_ltb in Es; bool_to_Prop.
  - by rewrite credit_credit_add.
  - case_bool_decide; lia.
Qed.

Lemma withinWindows_credit W intervals res k lo hi :
  (∀ i, i ∈ intervals → windows_ok lo hi (server_windows W (serverId i))) →
  credit (foldl (add_interval W) res intervals) k =
  credit res k + zsum (fun i => if bool_decide (seed_key i = k)
      then seconds (in_windows (server_windows W (serverId i))) (startSec i) (endSec i) else 0) intervals.
Proof.
  revert res. induction intervals as [|i l IH]; intros res H; simpl; [lia|].
  rewrite IH by (intros; apply H; by right). rewrite (add_interval_credit W res i k lo hi) by (apply H; left). lia.
Qed.

(** * The sweep counts every second once *)

Definition active_session (t : Z) (s : session_obj) : bool := (startSec s.2 <=? t) && (t <? endSec s.2).
Definition active_at (L : list session_obj) (t : Z) : list session_obj := jfilter (active_session t) L.
(** The number of sessions open at second [t]. *)
Definition load (L : list session_obj) (t : Z) : Z := Z.of_nat (length (active_at L t)).

Definition key_count (k : jstr) (l : list session_obj) : Z :=
  zsum (fun s => if bool_decide (seed_key s.2 = k) then 1 else 0) l.

(** What second [t] adds to key [k]. *)
Definition seed_second (thr : Z) (L : list session_obj) (k : jstr) (t : Z) : Z :=
  if load L t <? thr then key_count k (active_at L t) else 0.

Fixpoint last_of (b : Z) (rest : list Z) : Z :=
  match rest with [] => b | c :: rest => last_of c rest end.

Section Sweep.
Context (thr : Z) (L : list session_obj).
Context (HL : NoDup L) (Hne : ∀ s, s ∈ L → startSec s.2 < endSec s.2).

(** The sweep stands before boundary [b]. *)
Record sweep_inv (active : list session_obj) (b : Z) (rest : list Z) : Prop := {
  sw_sorted : StronglySorted Z.lt (b :: rest);
  sw_nodup : NoDup active;
  sw_active : ∀ s, s ∈ active ↔ s ∈ L ∧ startSec s.2 < b ≤ endSec s.2;
  sw_bounds : ∀ s, s ∈ L → (startSec s.2 < b ∨ startSec s.2 ∈ b :: rest) ∧ (endSec s.2 < b ∨ endSec s.2 ∈ b :: rest);
}.

Definition sweep_update (active : list session_obj) (from : Z) : list session_obj :=
  foldl oset_add (foldl oset_delete active (default [] (map_get (by_end L) from)))
    (default [] (map_get (by_start L) from)).

Lemma sweep_update_active active b rest s :
  sweep_inv active b rest → s ∈ sweep_update active b ↔ s ∈ active_at L b.
Proof.
  intros [_ _ Ha _]. unfold sweep_update, by_end, by_start, active_at.
  rewrite elem_of_foldl_oset_add, elem_of_foldl_oset_delete, !group_by_get, !elem_of_jfilter, Ha.
  unfold active_session. rewrite andb_true_iff, !bool_decide_eq_true, Z.leb_le, Z.ltb_lt.
  split.
  - intros [[(Hs & ? & ?) He]|[<- Hs]].
    + split; [|done]. split; [lia|]. destruct (decide (endSec s.2 = b)); [|lia]. by destruct He.
    + split; [|done]. split; [lia|by apply Hne].
  - intros [[? ?] Hs]. destruct (decide (startSec s.2 = b)) as [|]; [by right|left].
    split; [split; [done|lia]|]. intros [? _]. lia.
Qed.

Lemma sweep_update_perm active b rest : sweep_inv active b rest → sweep_update active b ≡ₚ active_at L b.
Proof.
  intros H. apply NoDup_Permutation.
  - apply foldl_oset_add_NoDup, foldl_oset_delete_NoDup, (sw_nodup _ _ _ H).
  - eapply sublist_NoDup; [exact HL|apply jfilter_sublist].
  - intros s. by eapply sweep_update_active.
Qed.

Lemma active_at_segment active b c rest t :
  sweep_inv active b (c :: rest) → b ≤ t < c → active_at L t = active_at L b.
Proof.
  intros [Hs _ _ Hb] Ht. unfold active_at, jfilter. apply List.filter_ext_in. intros s Hin%list_elem_of_In.
  apply Hb in Hin as [H1 H2].
  apply StronglySorted_inv in Hs as [Hs _]. apply StronglySorted_inv in Hs as [_ Hs].
  rewrite Forall_forall in Hs.
  assert (∀ x, x < b ∨ x ∈ b :: c :: rest → x ≤ b ∨ c ≤ x) as Hcut.
  { intros x [?|[->|[->|Hx]%elem_of_cons]%elem_of_cons]; [lia..|]. apply Hs in Hx. lia. }
  apply Hcut in H1, H2. unfold active_session.
  destruct (startSec s.2 <=? t) eqn:?, (t <? endSec s.2) eqn:?, (startSec s.2 <=? b) eqn:?, (b <? endSec s.2) eqn:?;
    bool_to_Prop; done || lia.
Qed.

Lemma sweep_inv_next active b c rest :
  sweep_inv active b (c :: rest) → sweep_inv (sweep_update active b) c rest.
Proof.
  intros Hinv. pose proof Hinv as [Hs Hnd Ha Hb].
  pose proof (StronglySorted_inv Hs) as [Hs' Hlt]. rewrite Forall_forall in Hlt.
  pose proof (Hlt c ltac:(left)) as Hbc.
  split; [done|by apply foldl_oset_add_NoDup, foldl_oset_delete_NoDup| |].
  - intros s. rewrite (sweep_update_active _ _ _ _ Hinv). unfold active_at. rewrite elem_of_jfilter.
    unfold active_session. rewrite andb_true_iff, Z.leb_le, Z.ltb_lt. split.
    + intros [[? ?] Hin]. split; [done|]. split; [lia|].
      destruct (Hb s Hin) as [_ [?|[?|[->|He]%elem_of_cons]%elem_of_cons]]; [lia..|].
      apply StronglySorted_inv in Hs' as [_ Hc]. rewrite Forall_forall in Hc. apply Hc in He. lia.
    + intros [Hin [? ?]]. split; [|done]. split; [|lia].
      destruct (Hb s Hin) as [[?|[?|[?|He]%elem_of_cons]%elem_of_cons] _]; [lia..|].
      apply StronglySorted_inv in Hs' as [_ Hc]. rewrite Forall_forall in Hc. apply Hc in He. lia.
  - intros s Hin. destruct (Hb s Hin) as [H1 H2]. split.
    + destruct H1 as [?|[->|?]%elem_of_cons]; [left; lia|left; lia|by right].
    + destruct H2 as [?|[->|?]%elem_of_cons]; [left; lia|left; lia|by right].
Qed.

Lemma sweep_segment_credit active b c rest res k :
  sweep_inv active b (c :: rest) →
  let act := sweep_update active b in
  let size := Z.of_nat (length act) in
  credit (if (size =? 0) || (size >=? thr) then res else add_active res (c - b) act) k =
  credit res k + zsum (seed_second thr L k) (seqZ b (c - b)).
Proof.
  intros Hinv act size.
  assert (b < c) as Hbc.
  { pose proof (StronglySorted_inv (sw_sorted _ _ _ Hinv)) as [_ Hlt]. rewrite Forall_forall in Hlt. apply Hlt. left. }
  pose proof (sweep_update_perm _ _ _ Hinv) as Hp.
  assert (size = load L b) as Hsize. { unfold size, act, load. by rewrite Hp. }
  assert (zsum (seed_second thr L k) (seqZ b (c - b)) = (c - b) * seed_second thr L k b) as ->.
  { rewrite (zsum_ext _ (fun _ => seed_second thr L k b * 1)).
    - rewrite zsum_scale, zsum_one, length_seqZ. lia.
    - intros t Ht%elem_of_seqZ. unfold seed_second, load.
      rewrite (active_at_segment _ _ _ _ t Hinv) by lia. lia. }
  unfold seed_second. rewrite <-Hsize.
  assert (add_active_credit : credit (add_active res (c - b) act) k = credit res k + (c - b) * key_count k (active_at L b)).
  { unfold add_active. rewrite (credit_foldl (fun s : session_obj => seed_key s.2) (fun _ => c - b)).
    unfold key_count. rewrite <-zsum_scale. unfold act. rewrite (zsum_perm _ _ _ Hp). f_equal. apply zsum_ext.
    intros s _. case_bool_decide; lia. }
  destruct (size =? 0) eqn:E0, (size >=? thr) eqn:E1, (size <? thr) eqn:E2;
    rewrite Z.geb_leb in E1; bool_to_Prop; simpl; try lia.
  unfold size in E0. assert (act = []) as Hnil by (destruct act; [done|simpl in *; lia]).
  fold act in Hp. rewrite Hnil in Hp. symmetry in Hp. apply Permutation_nil_r in Hp. rewrite Hp. simpl. lia.
Qed.

Lemma sweep_loop_step active b c rest res :
  sweep_loop thr (by_start L) (by_end L) active res (b :: c :: rest) =
  sweep_loop thr (by_start L) (by_end L) (sweep_update active b)
    (if (Z.of_nat (length (sweep_update active b)) =? 0) || (Z.of_nat (length (sweep_update active b)) >=? thr)
     then res else add_active res (c - b) (sweep_update active b)) (c :: rest).
Proof. reflexivity. Qed.

Lemma sweep_loop_credit active b rest res k :
  sweep_inv active b rest →
  credit (sweep_loop thr (by_start L) (by_end L) active res (b :: rest)) k =
  credit res k + zsum (seed_second thr L k) (seqZ b (last_of b rest - b)).
Proof.
  revert active b res. induction rest as [|c rest IH]; intros active b res Hinv.
  { simpl. rewrite Z.sub_diag. simpl. lia. }
  pose proof (sweep_inv_next _ _ _ _ Hinv) as Hnext. cbn [last_of].
  rewrite sweep_loop_step.
  rewrite (IH _ _ _ Hnext), (sweep_segment_credit _ _ _ _ _ _ Hinv), <-Z.add_assoc, <-zsum_app.
  f_equal. f_equal.
  assert (b < c ∧ c ≤ last_of c rest) as [Hbc Hcl].
  { pose proof (StronglySorted_inv (sw_sorted _ _ _ Hinv)) as [Hs Hlt]. rewrite Forall_forall in Hlt.
    split; [apply Hlt; left|]. clear -Hs. revert c Hs. induction rest as [|d rest IH]; intros c Hs; simpl; [lia|].
    pose proof (StronglySorted_inv Hs) as [Hs' Hlt]. rewrite Forall_forall in Hlt.
    pose proof (Hlt d ltac:(left)). specialize (IH d Hs'). lia. }
  replace (last_of c rest - b) with ((c - b) + (last_of c rest - c)) by lia.
  rewrite seqZ_app by lia. do 2 f_equal. lia.
Qed.
End Sweep.

Lemma boundaries_sorted L : StronglySorted Z.lt (boundaries L).
Proof.
  apply (StronglySorted_impl (fun x y => cmp_le (fun a b => a - b) x y ∧ x ≠ y)).
  { unfold cmp_le. intros x y [? ?]. lia. }
  apply StronglySorted_strict.
  - unfold boundaries. rewrite jsort_perm. apply oset_of_NoDup.
  - apply jsort_sorted; unfold cmp_le; intros; lia.
Qed.

Lemma elem_of_boundaries L x : x ∈ boundaries L ↔ ∃ s, s ∈ L ∧ (startSec s.2 = x ∨ endSec s.2 = x).
Proof.
  unfold boundaries. rewrite elem_of_jsort, elem_of_oset_of, elem_of_app. unfold by_start, by_end.
  rewrite !group_by_keys. naive_solver.
Qed.

Lemma last_of_ge b rest x : StronglySorted Z.lt (b :: rest) → x ∈ b :: rest → b ≤ x ≤ last_of b rest.
Proof.
  revert b x. induction rest as [|c rest IH]; intros b x Hs Hx; simpl.
  - apply list_elem_of_singleton in Hx as ->. lia.
  - pose proof (StronglySorted_inv Hs) as [Hs' Hlt]. rewrite Forall_forall in Hlt.
    pose proof (Hlt c ltac:(left)). pose proof (IH c c Hs' ltac:(left)).
    apply elem_of_cons in Hx as [->|Hx]; [lia|]. specialize (IH c x Hs' Hx). apply Hlt in Hx. lia.
Qed.

(** Adding up second by second is adding up session by session. *)
Lemma seed_seconds_by_session thr L k b e :
  (∀ s, s ∈ L → b ≤ startSec s.2 ∧ endSec s.2 ≤ e) →
  zsum (seed_second thr L k) (seqZ b (e - b)) =
  zsum (fun s => if bool_decide (seed_key s.2 = k)
                 then seconds (fun t => load L t <? thr) (startSec s.2) (endSec s.2) else 0) L.
Proof.
  intros Hb.
  rewrite (zsum_ext _ (fun t => zsum (fun s =>
    if bool_decide (seed_key s.2 = k) then if active_session t s && (load L t <? thr) then 1 else 0 else 0) L)).
  2:{ intros t _. unfold seed_second, key_count, active_at. rewrite zsum_jfilter.
      destruct (load L t <? thr); [apply zsum_ext|symmetry; apply zsum_zero]; intros s _;
        rewrite ?andb_true_r, ?andb_false_r; repeat case_match; done. }
  rewrite zsum_swap. apply zsum_ext. intros s Hs. case_bool_decide; [|by apply zsum_zero].
  change (zsum _ (seqZ b (e - b))) with (seconds (fun t => active_session t s && (load L t <? thr)) b e).
  destruct (Hb s Hs). rewrite (seconds_shrink _ _ _ (startSec s.2) (endSec s.2)); [|lia|lia|].
  - apply seconds_ext. intros t Ht. unfold active_session.
    rewrite (proj2 (Z.leb_le _ _)), (proj2 (Z.ltb_lt _ _)) by lia. done.
  - intros t _ Ht. unfold active_session in Ht. bool_to_Prop. lia.
Qed.

Lemma sweep_server_credit thr L res k :
  NoDup L → (∀ s, s ∈ L → startSec s.2 < endSec s.2) →
  credit (sweep_server thr res L) k = credit res k +
  zsum (fun s => if bool_decide (seed_key s.2 = k)
                 then seconds (fun t => load L t <? thr) (startSec s.2) (endSec s.2) else 0) L.
Proof.
  intros HL Hne. unfold sweep_server.
  pose proof (boundaries_sorted L) as Hs.
  assert (∀ s, s ∈ L → startSec s.2 ∈ boundaries L ∧ endSec s.2 ∈ boundaries L) as Hin.
  { intros s Hsin. rewrite !elem_of_boundaries. split; exists s; eauto. }
  destruct (boundaries L) as [|b rest] eqn:Eb.
  { simpl. destruct L as [|s L]; [simpl; lia|]. destruct (Hin s ltac:(left)) as [Hx _]. by apply not_elem_of_nil in Hx. }
  assert (∀ s, s ∈ L → b ≤ startSec s.2 ∧ endSec s.2 ≤ last_of b rest) as Hb.
  { intros s Hsin. destruct (Hin s Hsin) as [H1 H2]. apply (last_of_ge _ _ _ Hs) in H1, H2. lia. }
  rewrite (sweep_loop_credit thr L HL Hne).
  - by rewrite seed_seconds_by_session.
  - split; [done|constructor| |].
    + intros s. split; [intros []%not_elem_of_nil|]. intros [Hsin ?]. destruct (Hb s Hsin). lia.
    + intros s Hsin. destruct (Hin s Hsin). auto.
Qed.

(** The number of sessions open on a server at second [t]. *)
Definition server_load (intervals : list SeedSessionInterval) (server : jstr) (t : Z) : Z :=
  Z.of_nat (length (jfilter (fun i => bool_decide (serverId i = server) && (startSec i <=? t) && (t <? endSec i)) intervals)).

Lemma imap_pair_snd {A} (l : list A) : (imap pair l).*2 = l.
Proof. apply list_eq. intros i. rewrite list_lookup_fmap, list_lookup_imap. by destruct (l !! i). Qed.

Lemma imap_pair_NoDup {A} (l : list A) : NoDup (imap pair l).
Proof.
  apply NoDup_alt. intros i j x. rewrite !list_lookup_imap. destruct (l !! i), (l !! j); simpl; congruence.
Qed.

Lemma length_jfilter_fmap {A B} (f : A → B) (p : B → bool) (l : list A) :
  length (jfilter p (f <$> l)) = length (jfilter (fun x => p (f x)) l).
Proof. induction l as [|x l IH]; [done|]. rewrite fmap_cons. simpl. destruct (p (f x)); simpl; by rewrite IH. Qed.

Lemma length_jfilter_jfilter {A} (p q r : A → bool) (l : list A) :
  (∀ x, x ∈ l → r x = p x && q x) → length (jfilter p (jfilter q l)) = length (jfilter r l).
Proof.
  induction l as [|x l IH]; intros H; simpl; [done|]. rewrite (H x) by left.
  specialize (IH ltac:(intros; apply H; by right)).
  destruct (q x) eqn:?; simpl; [|by rewrite andb_false_r]. rewrite andb_true_r. destruct (p x); simpl; by rewrite IH.
Qed.

Lemma load_server intervals server t :
  load (jfilter (fun s => bool_decide (serverId s.2 = server)) (jfilter nonempty_session (imap pair intervals))) t =
  server_load intervals server t.
Proof.
  unfold load, server_load, active_at. f_equal.
  rewrite <-(imap_pair_snd intervals) at 2. rewrite length_jfilter_fmap.
  rewrite (length_jfilter_jfilter _ _ (fun s => active_session t s && bool_decide (serverId s.2 = server))) by done.
  apply length_jfilter_jfilter. intros s _. unfold active_session, nonempty_session.
  destruct (startSec s.2 <=? t) eqn:?, (t <? endSec s.2) eqn:?, (endSec s.2 <=? startSec s.2) eqn:?,
    (bool_decide (serverId s.2 = server)); simpl; bool_to_Prop; done || lia.
Qed.

Lemma sweep_servers_credit thr g groups res k :
  (∀ kv, kv ∈ groups → NoDup kv.2 ∧ (∀ s, s ∈ kv.2 → startSec s.2 < endSec s.2) ∧
     ∀ s, s ∈ kv.2 → g s = if bool_decide (seed_key s.2 = k)
       then seconds (fun t => load kv.2 t <? thr) (startSec s.2) (endSec s.2) else 0) →
  credit (foldl (fun res (kv : jstr * list session_obj) => sweep_server thr res kv.2) res groups) k =
  credit res k + zsum (fun kv => zsum g kv.2) groups.
Proof.
  revert res. induction groups as [|kv groups IH]; intros res H; simpl; [lia|].
  rewrite IH by (intros; apply H; by right).
  destruct (H kv ltac:(left)) as (Hnd & Hne & Hg).
  rewrite (sweep_server_credit thr kv.2 res k Hnd Hne), (zsum_ext g _ kv.2 Hg). lia.
Qed.

Lemma sweep_exact_aux intervals threshold k :
  credit (computeSeedSecondsByPlayerServer intervals threshold) k =
  zsum (fun i => if bool_decide (seed_key i = k)
    then seconds (fun t => server_load intervals (serverId i) t <? threshold) (startSec i) (endSec i) else 0) intervals.
Proof.
  unfold computeSeedSecondsByPlayerServer. destruct (threshold <=? 0) eqn:Et; bool_to_Prop.
  { symmetry. apply zsum_zero. intros i _. case_bool_decide; [|done]. apply seconds_false.
    intros t _. apply Z.ltb_ge. unfold server_load. lia. }
  set (objs := jfilter nonempty_session (imap pair intervals)).
  set (g := fun i => if bool_decide (seed_key i = k)
    then seconds (fun t => server_load intervals (serverId i) t <? threshold) (startSec i) (endSec i) else 0).
  rewrite (sweep_servers_credit threshold (fun s => g s.2)).
  - change (credit [] k) with 0. rewrite Z.add_0_l, (zsum_group_by (fun s => serverId s.2) (fun s => g s.2)).
    unfold objs. rewrite zsum_jfilter. rewrite <-(imap_pair_snd intervals) at 2. rewrite zsum_fmap.
    apply zsum_ext. intros s _. unfold nonempty_session. case_match; [done|]. bool_to_Prop.
    unfold g. rewrite seconds_empty by lia. by case_match.
  - intros [server l] Hkv. simpl. apply elem_of_map_get, group_by_get_Some in Hkv as ->; [|apply group_by_ok].
    split; [|split].
    + eapply sublist_NoDup; [|apply jfilter_sublist]. eapply sublist_NoDup; [|apply jfilter_sublist].
      apply imap_pair_NoDup.
    + intros s [_ Hs]%elem_of_jfilter. apply elem_of_jfilter in Hs as [Hs _]. unfold nonempty_session in Hs.
      bool_to_Prop. lia.
    + intros s [Hs _]%elem_of_jfilter. bool_to_Prop. unfold g. case_bool_decide; [|done].
      apply seconds_ext. intros t _. unfold objs. rewrite load_server. by rewrite Hs.
Qed.

(** The sweep over session boundaries credits every player and server with
    exactly the seconds, counted one by one, in which a session of theirs was
    open while fewer than [threshold] sessions were open on that server. *)
Theorem computeSeedSecondsByPlayerServer_exact intervals threshold k :
  credit (computeSeedSecondsByPlayerServer intervals threshold) k =
  zsum (fun i => if bool_decide (seed_key i = k)
    then seconds (fun t => server_load intervals (serverId i) t <? threshold) (startSec i) (endSec i) else 0) intervals.
Proof. apply sweep_exact_aux. Qed.

(** * Keys of the results *)

Section Keys.
Context (P : jstr → Prop).
Definition keys_in (m : list (jstr * Z)) : Prop := ∀ k, k ∈ map_keys m → P k.

Lemma credit_add_keys_in m k d : P k → keys_in m → keys_in (credit_add m k d).
Proof.
  intros HP Hm k'. unfold credit_add. rewrite map_keys_set. destruct (bool_decide _); [apply Hm|].
  intros [?| ->%list_elem_of_singleton]%elem_of_app; [by apply Hm|done].
Qed.

Lemma add_active_keys_in res d active :
  (∀ s, s ∈ active → P (seed_key s.2)) → keys_in res → keys_in (add_active res d active).
Proof.
  unfold add_active. revert res. induction active as [|s l IH]; intros res Hs Hres; simpl; [done|].
  apply IH; [intros; apply Hs; by right|]. apply credit_add_keys_in; [apply Hs; left|done].
Qed.

Lemma sweep_loop_keys_in thr L active res bs :
  (∀ s, s ∈ L → P (seed_key s.2)) → (∀ s, s ∈ active → P (seed_key s.2)) → keys_in res →
  keys_in (sweep_loop thr (by_start L) (by_end L) active res bs).
Proof.
  intros HL. revert active res. induction bs as [|b [|c bs] IH]; intros active res Ha Hres; [done..|].
  assert (∀ s, s ∈ sweep_update L active b → P (seed_key s.2)) as Hup.
  { intros s. unfold sweep_update, by_start, by_end. rewrite elem_of_foldl_oset_add, elem_of_foldl_oset_delete, !group_by_get.
    intros [[Hs _]|[_ Hs]%elem_of_jfilter]; [by apply Ha|by apply HL]. }
  rewrite sweep_loop_step. apply IH; [done|]. case_match; [done|]. by apply add_active_keys_in.
Qed.

Lemma sweep_keys_in intervals thr :
  (∀ i, i ∈ intervals → P (seed_key i)) → keys_in (computeSeedSecondsByPlayerServer intervals thr).
Proof.
  intros Hi. unfold computeSeedSecondsByPlayerServer. case_match; [intros k Hk; by apply not_elem_of_nil in Hk|].
  set (groups := group_by _ _).
  assert (∀ kv s, kv ∈ groups → s ∈ kv.2 → P (seed_key s.2)) as Hg.
  { intros [server l] s Hkv Hs. apply elem_of_map_get in Hkv; [|apply group_by_ok].
    apply group_by_get_Some in Hkv as ->. simpl in Hs. apply elem_of_jfilter in Hs as [_ [_ Hs]%elem_of_jfilter].
    apply Hi. rewrite <-(imap_pair_snd intervals). by apply list_elem_of_fmap_2. }
  clearbody groups. assert (keys_in []) as Hnil by (intros k Hk; by apply not_elem_of_nil in Hk).
  revert Hnil. generalize (@nil (jstr * Z)). induction groups as [|kv groups IH]; intros res Hres; simpl; [done|].
  apply IH; [intros kv' s Hkv Hs; eapply Hg; [by right|done]|].
  apply sweep_loop_keys_in; [intros s Hs; eapply Hg; [by left|done]|intros s Hs; by apply not_elem_of_nil in Hs|done].
Qed.

Lemma within_keys_in W intervals :
  (∀ i, i ∈ intervals → P (seed_key i)) → keys_in (computeSeedSecondsWithinWindows intervals W).
Proof.
  intros Hi. unfold computeSeedSecondsWithinWindows.
  assert (keys_in []) as Hnil by (intros k Hk; by apply not_elem_of_nil in Hk).
  revert Hnil. generalize (@nil (jstr * Z)). induction intervals as [|i l IH]; intros res Hres; simpl; [done|].
  apply IH; [intros; apply Hi; by right|]. unfold add_interval. repeat case_match; try done.
  apply credit_add_keys_in; [apply Hi; left|done].
Qed.
End Keys.

Lemma within_ok W intervals : map_ok (computeSeedSecondsWithinWindows intervals W).
Proof.
  unfold computeSeedSecondsWithinWindows. assert (map_ok (@nil (jstr * Z))) as H by constructor.
  revert H. generalize (@nil (jstr * Z)). induction intervals as [|i l IH]; intros res H; simpl; [done|].
  apply IH. unfold add_interval. repeat case_match; try done. by apply credit_add_ok.
Qed.

Lemma sweep_loop_ok thr sa ea active res bs : map_ok res → map_ok (sweep_loop thr sa ea active res bs).
Proof.
  revert active res. induction bs as [|b [|c bs] IH]; intros active res H; [done..|].
  cbn [sweep_loop]. apply IH. case_match; [done|]. by apply (credit_foldl_ok (fun s : session_obj => seed_key s.2)).
Qed.

Lemma sweep_ok intervals thr : map_ok (computeSeedSecondsByPlayerServer intervals thr).
Proof.
  unfold computeSeedSecondsByPlayerServer. case_match; [constructor|]. generalize (group_by (fun s : session_obj => serverId s.2) (jfilter nonempty_session (imap pair intervals))).
  intros groups. assert (map_ok (@nil (jstr * Z))) as H' by constructor.
  revert H'. generalize (@nil (jstr * Z)). induction groups as [|kv groups IH]; intros res Hres; simpl; [done|].
  by apply IH, sweep_loop_ok.
Qed.

(** * Seeding over a longer history *)

Lemma seeding_from_app s l k t : seeding_from s (l ++ k) t = seeding_from (seeding_from s l t) k t.
Proof. apply foldl_app. Qed.

Lemma seeding_from_before s l t :
  (∀ tr, tr ∈ l → atSec tr ≤ t) →
  seeding_from s l t = match last l with Some tr => bool_decide (tr_type tr = started) | None => s end.
Proof.
  intros H. destruct l as [|tr l _] using rev_ind; [done|]. rewrite last_snoc, seeding_from_app.
  unfold seeding_from at 1. simpl. rewrite (proj2 (Z.leb_le _ _)); [done|]. apply H. set_solver.
Qed.
