(* ===== verification/Economy.v ===== *)
(** The bonus economy ([packages/db/src/economy/accrual.ts], [vip-grant.ts],
    the ledger routes of [apps/api/src/routes/economy.ts]): the daily accrual
    that rewrites a day's earnings and keeps the balances in step, purchases of
    timed roles and manual adjustments, over the ledger, player, presence,
    session and event tables with the constraints their schema declares. *)
From Stdlib Require Import SpecFloat.
From S2P Require Import Prelude JsString JsDate JsMap Collections SeedTime.

(** * Tables *)

(** [BONUS_TX_TYPES] *)
Inductive BonusTxType := earn_online | earn_boost | earn_seed | spend | adjust.

#[export] Instance BonusTxType_eq_dec : EqDecision BonusTxType.
Proof. solve_decision. Defined.

(** A timestamp is in microseconds, as Postgres keeps it. *)
Record bonus_row := MkBonus {
  bt_player : jstr;
  bt_amount : Z;
  bt_type : BonusTxType;
  bt_reference_type : option jstr;
  bt_reference_id : option jstr;
  bt_comment : option jstr;
  bt_actor : option jstr;
  bt_created : Z;
}.

#[export] Instance bonus_row_eq_dec : EqDecision bonus_row.
Proof. solve_decision. Defined.

Record player_row := MkPlayer {
  pl_id : jstr;
  pl_balance : Z;
  pl_role : option jstr;
  pl_role_expires : option Z;
}.

Record presence_row := MkPresence {
  pd_day : jstr;
  pd_player : jstr;
  pd_server : jstr;
  pd_online : Z;
  pd_boost : Z;
  pd_seed : Z;
}.

Record session_row := MkSession {
  ps_player : jstr;
  ps_server : jstr;
  ps_connected : Z;
  ps_disconnected : option Z;
  ps_mode : option jstr;
}.

Record event_row := MkEvent { ev_server : option jstr; ev_kind : jstr; ev_occurred : Z }.

(** A double, by sign, mantissa and exponent. *)
Abbreviation double := spec_float.

Record SettingsRow := MkSettings {
  k_online : double;
  k_boost : double;
  k_seed : double;
  seed_threshold : Z;
  economy_enabled : bool;
}.

Record economy_db := MkDb {
  db_settings : option SettingsRow;
  db_ledger : list bonus_row;
  db_players : list player_row;
  db_presence : list presence_row;
  db_sessions : list session_row;
  db_events : list event_row;
}.

Definition set_ledger (l : list bonus_row) (db : economy_db) : economy_db :=
  MkDb (db_settings db) l (db_players db) (db_presence db) (db_sessions db) (db_events db).
Definition set_players (ps : list player_row) (db : economy_db) : economy_db :=
  MkDb (db_settings db) (db_ledger db) ps (db_presence db) (db_sessions db) (db_events db).
Definition set_presence (pr : list presence_row) (db : economy_db) : economy_db :=
  MkDb (db_settings db) (db_ledger db) (db_players db) pr (db_sessions db) (db_events db).

(** What stops a transaction. *)
Inductive db_error :=
| invalid_day
| not_null_violation
| amount_nonzero_chk
| out_of_range
| foreign_key_violation
| unique_violation
| balance_nonneg_chk.

Abbreviation db_result := (result db_error).

(** * Constraints *)

(** The range of an [integer] column. *)
Definition int4_ok (z : Z) : bool := (- 2 ^ 31 <=? z) && (z <? 2 ^ 31).

(** [bonus_transactions_accrual_idempotency_idx]; rows with a NULL in the key
    never collide. *)
Definition same_index_key (r s : bonus_row) : bool :=
  bool_decide (bt_player r = bt_player s) && bool_decide (bt_type r = bt_type s)
  && bool_decide (bt_reference_type r = bt_reference_type s ∧ is_Some (bt_reference_type r))
  && bool_decide (bt_reference_id r = bt_reference_id s ∧ is_Some (bt_reference_id r))
  && bool_decide (bt_created r = bt_created s).

Definition player_exists (db : economy_db) (p : jstr) : bool :=
  existsb (fun pl => bool_decide (pl_id pl = p)) (db_players db).

(** INSERT INTO bonus_transactions *)
Definition insert_bonus (r : bonus_row) (db : economy_db) : db_result economy_db :=
  if negb (int4_ok (bt_amount r)) then Throw out_of_range
  else if bt_amount r =? 0 then Throw amount_nonzero_chk
  else if existsb (same_index_key r) (db_ledger db) then Throw unique_violation
  else if negb (player_exists db (bt_player r)) then Throw foreign_key_violation
  else Ok (set_ledger (db_ledger db ++ [r]) db).

Fixpoint insert_bonuses (rs : list bonus_row) (db : economy_db) : db_result economy_db :=
  match rs with
  | [] => Ok db
  | r :: rs => let! db := insert_bonus r db in insert_bonuses rs db
  end.

(** [SET bonus_balance = v] under [players_bonus_balance_nonneg_chk]. *)
Definition checked_balance (v : Z) : db_result Z :=
  if negb (int4_ok v) then Throw out_of_range
  else if v <? 0 then Throw balance_nonneg_chk else Ok v.

(** * The arithmetic of [number] *)

Definition of_int (z : Z) : double := binary_normalize 53 1024 z 0 false.
Definition fmul : double → double → double := SFmul 53 1024.
Definition fdiv : double → double → double := SFdiv 53 1024.

(** [Math.round]: the nearest integer, a half rounded up; [None] for NaN and the
    infinities. *)
Definition math_round (x : double) : option Z :=
  match x with
  | S754_zero _ => Some 0
  | S754_finite s m e =>
      let v := if s then Z.neg m else Z.pos m in
      if 0 <=? e then Some (v * 2 ^ e)
      else Some ((2 * v + 2 ^ (- e)) / 2 ^ (1 - e))
  | S754_infinity _ | S754_nan => None
  end.

Definition SECONDS_PER_HOUR : Z := 3600.
Definition DAY_SECONDS : Z := 86400.
Definition DEFAULT_SEED_THRESHOLD : Z := 40.
Definition SESSION_PRUNE_LOOKBACK_SECONDS : Z := 2 * 86400.
Definition DAILY_PRESENCE_REFERENCE_TYPE : jstr := js "daily_presence".
Definition ACCRUAL_TX_TYPES : list BonusTxType := [earn_online; earn_boost; earn_seed].

(** [Math.round((k * seconds) / 3600)] *)
Definition earned (k : double) (secs : Z) : option Z :=
  math_round (fdiv (fmul k (of_int secs)) (of_int SECONDS_PER_HOUR)).

Example earned_default : earned (of_int 1) 5400 = Some 2 ∧ earned (of_int 3) 3599 = Some 3 ∧ earned (of_int 2) 0 = Some 0.
Proof. vm_compute. done. Qed.

(** * Seed time of a day *)

Definition us_per_sec : Z := 1000000.
(** [Math.floor(Number(EXTRACT(EPOCH FROM ts)))] *)
Definition epoch_floor (ts : Z) : Z := ts / us_per_sec.

(** [now] is in milliseconds. *)
Definition session_end (now : Z) (s : session_row) : Z := default (now * 1000) (ps_disconnected s).

(** The sessions the query selects. *)
Definition day_session (dayStart now : Z) (s : session_row) : bool :=
  negb (bool_decide (default (js "online") (ps_mode s) = js "queue"))
  && (ps_connected s <? (dayStart + DAY_SECONDS) * us_per_sec)
  && (session_end now s >? dayStart * us_per_sec)
  && ((ps_connected s >=? (dayStart - SESSION_PRUNE_LOOKBACK_SECONDS) * us_per_sec)
      || bool_decide (ps_disconnected s = None)).

Definition session_interval (dayStart now : Z) (s : session_row) : SeedSessionInterval :=
  MkInterval (ps_player s) (ps_server s)
    (Z.max (epoch_floor (ps_connected s)) dayStart)
    (Z.min (epoch_floor (session_end now s)) (dayStart + DAY_SECONDS)).

Definition is_seeding_event (e : event_row) : bool :=
  bool_decide (ev_kind e = js "server.seeding_started") || bool_decide (ev_kind e = js "server.seeding_ended").

Definition toTransition (e : event_row) : SeedingTransitionEvent :=
  MkTransition (if bool_decide (ev_kind e = js "server.seeding_started") then started else ended)
    (epoch_floor (ev_occurred e)).

(** The seeding events of server [s], oldest first. *)
Definition server_events (db : economy_db) (s : jstr) : list event_row :=
  jsort (fun a b => ev_occurred a - ev_occurred b)
    (jfilter (fun e => is_seeding_event e && bool_decide (ev_server e = Some s)) (db_events db)).
(** The rows of the in-day query for [s]; the last of the rows before the day. *)
Definition in_day_events (db : economy_db) (dayStart : Z) (s : jstr) : list event_row :=
  jfilter (fun e => (ev_occurred e >=? dayStart * us_per_sec)
                    && (ev_occurred e <? (dayStart + DAY_SECONDS) * us_per_sec)) (server_events db s).
Definition pre_day_event (db : economy_db) (dayStart : Z) (s : jstr) : option event_row :=
  last (jfilter (fun e => ev_occurred e <? dayStart * us_per_sec) (server_events db s)).

Definition day_transitions (db : economy_db) (dayStart : Z) (s : jstr) : list SeedingTransitionEvent :=
  match pre_day_event db dayStart s with Some e => [toTransition e] | None => [] end
  ++ (toTransition <$> in_day_events db dayStart s).

(** [new Set([...preDayByServer.keys(), ...inDayByServer.keys()])] *)
Definition seedingServerIds (db : economy_db) (dayStart : Z) : list jstr :=
  let with_server := omap ev_server (jfilter is_seeding_event (db_events db)) in
  oset_of (jfilter (fun s => bool_decide (is_Some (pre_day_event db dayStart s))) with_server
           ++ jfilter (fun s => bool_decide (in_day_events db dayStart s ≠ [])) with_server).

Definition windowsByServer (db : economy_db) (dayStart now : Z) : list (jstr * list SeedingWindow) :=
  let effectiveDayEnd := Z.min (dayStart + DAY_SECONDS) (now / 1000) in
  (fun s => (s, computeSeedingWindows (day_transitions db dayStart s) dayStart effectiveDayEnd))
    <$> seedingServerIds db dayStart.

Definition day_intervals (db : economy_db) (dayStart now : Z) : list SeedSessionInterval :=
  session_interval dayStart now <$> jfilter (day_session dayStart now) (db_sessions db).

Definition seedByKey (db : economy_db) (dayStart now : Z) : list (jstr * Z) :=
  let servers := seedingServerIds db dayStart in
  let intervals := day_intervals db dayStart now in
  let threshold := match db_settings db with Some st => seed_threshold st | None => DEFAULT_SEED_THRESHOLD end in
  let within := computeSeedSecondsWithinWindows
      (jfilter (fun i => bool_decide (serverId i ∈ servers)) intervals) (windowsByServer db dayStart now) in
  foldl (fun m kv => credit_add m kv.1 kv.2) within
    (computeSeedSecondsByPlayerServer (jfilter (fun i => bool_decide (serverId i ∉ servers)) intervals) threshold).

(** [const [playerId, serverId] = key.split('|')], dropped when one is empty. *)
Definition seed_row (kv : jstr * Z) : option (jstr * jstr * Z) :=
  match split_on 124 kv.1 with
  | p :: s :: _ => if bool_decide (p = []) || bool_decide (s = []) then None else Some (p, s, kv.2)
  | _ => None
  end.

(** Both UPDATEs of [player_daily_presence]: reset to 0, then the computed rows. *)
Definition write_seed_seconds (day : jstr) (m : list (jstr * Z)) (pr : list presence_row) : list presence_row :=
  let rows := omap seed_row m in
  (fun r => if bool_decide (pd_day r = day) then
      let v := default 0 (snd <$> List.find (fun u => bool_decide (u.1 = (pd_player r, pd_server r))) rows) in
      MkPresence (pd_day r) (pd_player r) (pd_server r) (pd_online r) (pd_boost r) v
    else r) <$> pr.

(** * The daily accrual *)

Record AccrueDailyBonusesResult := MkAccrued {
  ar_economyEnabled : bool;
  ar_playersAccrued : Z;
  ar_transactionsWritten : Z;
  ar_balanceDelta : Z;
  ar_shortfallForgiven : Z;
}.

(** SUM(...) ... GROUP BY player_id *)
Definition aggregates (day : jstr) (pr : list presence_row) : list (jstr * list presence_row) :=
  group_by pd_player (jfilter (fun r => bool_decide (pd_day r = day)) pr).

Definition desired_of (st : SettingsRow) (agg : jstr * list presence_row) : list (jstr * BonusTxType * option Z) :=
  let hours ty := match ty with
    | earn_online => earned (k_online st) (zsum pd_online agg.2)
    | earn_boost => earned (k_boost st) (zsum pd_boost agg.2)
    | _ => earned (k_seed st) (zsum pd_seed agg.2)
    end in
  (fun ty => (agg.1, ty, hours ty)) <$> ACCRUAL_TX_TYPES.

Definition desiredRows (st : SettingsRow) (aggs : list (jstr * list presence_row)) : list (jstr * BonusTxType * option Z) :=
  aggs ≫= desired_of st.

(** The rows the DELETE removes. *)
Definition accrual_row (day : jstr) (playerIds : list jstr) (r : bonus_row) : bool :=
  bool_decide (bt_player r ∈ playerIds)
  && bool_decide (bt_reference_type r = Some DAILY_PRESENCE_REFERENCE_TYPE)
  && bool_decide (bt_reference_id r = Some day)
  && bool_decide (bt_type r ∈ ACCRUAL_TX_TYPES).

(** A row of the INSERT; an amount that is not a number is NULL in the JSON. *)
Definition accrual_insert (day : jstr) (created : Z) (d : jstr * BonusTxType * option Z) : db_result bonus_row :=
  match d.2 with
  | Some amount => Ok (MkBonus d.1.1 amount d.1.2 (Some DAILY_PRESENCE_REFERENCE_TYPE) (Some day) None None created)
  | None => Throw not_null_violation
  end.

Fixpoint mapR {E A B} (f : A → result E B) (l : list A) : result E (list B) :=
  match l with
  | [] => Ok []
  | x :: l => let! y := f x in let! ys := mapR f l in Ok (y :: ys)
  end.

Definition sum_by_player (rows : list bonus_row) : list (jstr * Z) :=
  foldl (fun m r => credit_add m (bt_player r) (bt_amount r)) [] rows.

(** [deltaByPlayer] *)
Definition delta_by_player (playerIds : list jstr) (added removed : list (jstr * Z)) : list (jstr * Z) :=
  foldl (fun m p => map_set m p (credit added p - credit removed p)) [] playerIds.

Definition shortfall_of (delta : list (jstr * Z)) (pl : player_row) : option (jstr * Z) :=
  if map_has (jfilter (fun kv => kv.2 <? 0) delta) (pl_id pl) then
    let shortfall := Z.max 0 (- (pl_balance pl + credit delta (pl_id pl))) in
    if shortfall >? 0 then Some (pl_id pl, shortfall) else None
  else None.

(** [shortfallByPlayer], read from the locked rows of the players that shrink. *)
Definition shortfall_by_player (delta : list (jstr * Z)) (players : list player_row) : list (jstr * Z) :=
  omap (shortfall_of delta) players.

(** The Russian text of the comment, by code units. *)
Definition SHORTFALL_ADJUST_COMMENT : jstr :=
  [1040; 1074; 1090; 1086; 1082; 1086; 1084; 1087; 1077; 1085; 1089; 1072; 1094; 1080; 1103; 58; 32; 1087;
   1077; 1088; 1077; 1089; 1095; 1105; 1090; 32; 1091; 1084; 1077; 1085; 1100; 1096; 1080; 1083; 32; 1091;
   1078; 1077; 32; 1087; 1086; 1090; 1088; 1072; 1095; 1077; 1085; 1085; 1099; 1077; 32; 1085; 1072; 1095;
   1080; 1089; 1083; 1077; 1085; 1080; 1103; 44; 32; 1073; 1072; 1083; 1072; 1085; 1089; 32; 1085; 1077;
   32; 1084; 1086; 1078; 1077; 1090; 32; 1073; 1099; 1090; 1100; 32; 1086; 1090; 1088; 1080; 1094; 1072;
   1090; 1077; 1083; 1100; 1085; 1099; 1084].

Definition adjust_row (day : jstr) (created : Z) (kv : jstr * Z) : bonus_row :=
  MkBonus kv.1 kv.2 adjust (Some DAILY_PRESENCE_REFERENCE_TYPE) (Some day) (Some SHORTFALL_ADJUST_COMMENT) None created.

Definition balance_changes (delta shortfall : list (jstr * Z)) : list (jstr * Z) :=
  jfilter (fun kv => negb (kv.2 =? 0)) ((fun kv => (kv.1, kv.2 + credit shortfall kv.1)) <$> delta).

(** UPDATE players SET bonus_balance = bonus_balance + c.change *)
Definition update_balance (changes : list (jstr * Z)) (pl : player_row) : db_result player_row :=
  match map_get changes (pl_id pl) with
  | None => Ok pl
  | Some change =>
      let! v := checked_balance (pl_balance pl + change) in
      Ok (MkPlayer (pl_id pl) v (pl_role pl) (pl_role_expires pl))
  end.

(** Steps 4 and 5, for a day whose presence rows are up to date. *)
Definition accrue_ledger (st : SettingsRow) (day : jstr) (dayStart : Z) (db : economy_db)
    : db_result (economy_db * AccrueDailyBonusesResult) :=
  let created := dayStart * us_per_sec in
  let aggs := aggregates day (db_presence db) in
  let playerIds := aggs.*1 in
  let removed := jfilter (accrual_row day playerIds) (db_ledger db) in
  let db := set_ledger (jfilter (fun r => negb (accrual_row day playerIds r)) (db_ledger db)) db in
  let! insertRows := mapR (accrual_insert day created)
      (jfilter (fun d => negb (bool_decide (d.2 = Some 0))) (desiredRows st aggs)) in
  let! db := insert_bonuses insertRows db in
  let removedByPlayer := sum_by_player removed in
  let addedByPlayer := sum_by_player insertRows in
  let delta := delta_by_player playerIds addedByPlayer removedByPlayer in
  let shortfall := shortfall_by_player delta (db_players db) in
  let! db := insert_bonuses (adjust_row day created <$> shortfall) db in
  let changes := balance_changes delta shortfall in
  let! players := mapR (update_balance changes) (db_players db) in
  Ok (set_players players db,
      MkAccrued true
        (Z.of_nat (length (jfilter (fun p => negb (credit addedByPlayer p =? 0) || negb (credit removedByPlayer p =? 0)) playerIds)))
        (Z.of_nat (length insertRows))
        (foldl (fun acc kv => acc + kv.2) 0 changes)
        (foldl (fun acc kv => acc + kv.2) 0 shortfall)).

(** The transaction; a [Throw] rolls it back. *)
Definition accrueDailyBonuses (day : jstr) (now : Z) (db : economy_db) : db_result (economy_db * AccrueDailyBonusesResult) :=
  match date_parse (day ++ js "T00:00:00.000Z") with
  | None => Throw invalid_day
  | Some ms =>
      let dayStart := ms / 1000 in
      let seed := seedByKey db dayStart now in
      if existsb (fun u => negb (int4_ok u.2)) (omap seed_row seed) then Throw out_of_range
      else
        let db := set_presence (write_seed_seconds day seed (db_presence db)) db in
        match db_settings db with
        | Some st =>
            if economy_enabled st then accrue_ledger st day dayStart db else Ok (db, MkAccrued false 0 0 0 0)
        | None => Ok (db, MkAccrued false 0 0 0 0)
        end
  end.

(** * Timed roles for bonuses *)

Definition DAY_MS : Z := 86400000.

Record VipGrantTier := MkTier { tier_roleId : jstr; tier_days : Z; tier_price : Z }.

Inductive VipGrantPlan :=
| plan_ok (price nextBalance : Z) (roleId : jstr) (roleExpiresAt : Z)
| plan_insufficient_balance (balance : Z)
| plan_role_conflict
| plan_role_permanent.

(** Over the buyer's locked row; dates in milliseconds. *)
Definition planVipGrant (balance : Z) (roleId : option jstr) (roleExpiresAt : option Z) (tier : VipGrantTier)
    (now : Z) : VipGrantPlan :=
  let nextBalance := balance - tier_price tier in
  if nextBalance <? 0 then plan_insufficient_balance balance
  else
    let sameRole := bool_decide (roleId = Some (tier_roleId tier)) in
    if bool_decide (roleId ≠ None) && negb sameRole then plan_role_conflict
    else if sameRole && bool_decide (roleExpiresAt = None) then plan_role_permanent
    else
      let base := match roleExpiresAt with
        | Some e => if sameRole && (e >? now) then e else now
        | None => now
        end in
      plan_ok (tier_price tier) nextBalance (tier_roleId tier) (base + tier_days tier * DAY_MS).

Definition VIP_RENEWAL_LEAD_MS : Z := 6 * 60 * 60 * 1000.
Definition nextRenewalAfter (dueAt days : Z) : Z := dueAt + days * DAY_MS.

Record ApplyVipGrantInput := MkGrant {
  g_playerId : jstr;
  g_tier : VipGrantTier;
  g_actor : option jstr;
  g_referenceType : jstr;
  g_referenceId : jstr;
  g_now : Z;
}.

Inductive ApplyVipGrantResult :=
| grant_ok (balance : Z) (roleId : jstr) (roleExpiresAt : Z) (transaction : option bonus_row)
| grant_player_not_found
| grant_refused (plan : VipGrantPlan).

Definition find_player (db : economy_db) (p : jstr) : option player_row :=
  List.find (fun pl => bool_decide (pl_id pl = p)) (db_players db).

(** UPDATE players SET ... WHERE id = p *)
Definition update_player (p : jstr) (f : player_row → player_row) (db : economy_db) : db_result economy_db :=
  let! ps := mapR (fun pl => if bool_decide (pl_id pl = p) then
      let! _ := checked_balance (pl_balance (f pl)) in Ok (f pl) else Ok pl) (db_players db) in
  Ok (set_players ps db).

(** [created_at] defaults to the transaction's clock, [clock]. *)
Definition applyVipGrant (clock : Z) (input : ApplyVipGrantInput) (db : economy_db)
    : db_result (economy_db * ApplyVipGrantResult) :=
  match find_player db (g_playerId input) with
  | None => Ok (db, grant_player_not_found)
  | Some pl =>
      match planVipGrant (pl_balance pl) (pl_role pl) (pl_role_expires pl) (g_tier input) (g_now input) with
      | plan_ok price nextBalance roleId expires =>
          let! dbt :=
            if negb (price =? 0) then
              let row := MkBonus (g_playerId input) (- price) spend (Some (g_referenceType input))
                  (Some (g_referenceId input)) None (g_actor input) clock in
              let! db := insert_bonus row db in Ok (db, Some row)
            else Ok (db, None) in
          let! db := update_player (g_playerId input)
              (fun pl => MkPlayer (pl_id pl) nextBalance (Some roleId) (Some expires)) dbt.1 in
          Ok (db, grant_ok nextBalance roleId expires dbt.2)
      | refused => Ok (db, grant_refused refused)
      end
  end.

(** * Manual adjustments: POST bonus-adjustments *)

Definition INT32_MAX : Z := 2147483647.

Inductive adjust_outcome := adjust_ok (after : Z) (row : bonus_row) | adjust_not_found | adjust_insufficient (balance : Z).

(** [adjustBody]: the amount the route accepts. *)
Definition adjust_amount_ok (amount : Z) : bool :=
  (- INT32_MAX <=? amount) && (amount <=? INT32_MAX) && negb (amount =? 0).

(** The route's transaction, the audit row apart. *)
Definition bonusAdjustment (clock : Z) (actor p comment : jstr) (amount : Z) (db : economy_db)
    : db_result (economy_db * adjust_outcome) :=
  match find_player db p with
  | None => Ok (db, adjust_not_found)
  | Some pl =>
      let nextBalance := pl_balance pl + amount in
      if nextBalance <? 0 then Ok (db, adjust_insufficient (pl_balance pl))
      else
        let row := MkBonus p amount adjust None None (Some comment) (Some actor) clock in
        let! db := insert_bonus row db in
        let! db := update_player p
            (fun pl => MkPlayer (pl_id pl) nextBalance (pl_role pl) (pl_role_expires pl)) db in
        Ok (db, adjust_ok nextBalance row)
  end.

(** * The ledger adds up *)

(** The sum of a player's ledger rows. *)
Definition ledger_sum (l : list bonus_row) (p : jstr) : Z :=
  zsum (fun r => if bool_decide (bt_player r = p) then bt_amount r else 0) l.

(** The unique index. *)
Definition unique_index (l : list bonus_row) : Prop := ForallOrdPairs (fun r s => same_index_key r s = false) l.

Record economy_ok (db : economy_db) : Prop := {
  eo_players : NoDup (pl_id <$> db_players db);
  eo_balance : ∀ pl, pl ∈ db_players db →
    pl_balance pl = ledger_sum (db_ledger db) (pl_id pl) ∧ 0 ≤ pl_balance pl < 2 ^ 31;
  eo_rows : ∀ r, r ∈ db_ledger db → bt_amount r ≠ 0 ∧ bt_player r ∈ pl_id <$> db_players db;
  eo_unique : unique_index (db_ledger db);
}.

Lemma ledger_sum_app l k p : ledger_sum (l ++ k) p = ledger_sum l p + ledger_sum k p.
Proof. apply zsum_app. Qed.

Lemma ledger_sum_none l p : (∀ r, r ∈ l → bt_player r ≠ p) → ledger_sum l p = 0.
Proof. intros H. apply zsum_zero. intros r Hr. rewrite bool_decide_false; [done|by apply H]. Qed.

Lemma ledger_sum_split (f : bonus_row → bool) l p :
  ledger_sum l p = ledger_sum (jfilter f l) p + ledger_sum (jfilter (fun r => negb (f r)) l) p.
Proof.
  unfold ledger_sum. rewrite !zsum_jfilter, <-zsum_add. apply zsum_ext. intros r _. destruct (f r); simpl; lia.
Qed.

Lemma credit_sum_by_player rows p : credit (sum_by_player rows) p = ledger_sum rows p.
Proof. unfold sum_by_player. rewrite (credit_foldl bt_player bt_amount). done. Qed.

Lemma same_index_key_sym r s : same_index_key r s = same_index_key s r.
Proof.
  apply eq_iff_eq_true. unfold same_index_key. rewrite !andb_true_iff, !bool_decide_eq_true.
  split; intros [[[[-> ->] [E1 ?]] [E2 ?]] ->]; repeat split; congruence.
Qed.

Lemma unique_index_snoc l r :
  unique_index l → existsb (same_index_key r) l = false → unique_index (l ++ [r]).
Proof.
  unfold unique_index. induction 1 as [|s l Hs Hl IH]; simpl; intros He; [repeat constructor|].
  apply orb_false_iff in He as [H1 H2]. constructor; [|by apply IH].
  apply Forall_app. split; [done|]. constructor; [|done]. by rewrite same_index_key_sym.
Qed.

Lemma unique_index_jfilter f l : unique_index l → unique_index (jfilter f l).
Proof.
  unfold unique_index. induction 1 as [|s l Hs Hl IH]; simpl; [constructor|]. case_match; [|done].
  constructor; [|done]. rewrite Forall_forall in Hs |- *. intros r [_ Hr]%elem_of_jfilter. by apply Hs.
Qed.

Lemma player_exists_iff db p : player_exists db p = true ↔ p ∈ pl_id <$> db_players db.
Proof.
  unfold player_exists. rewrite existsb_exists, list_elem_of_fmap. setoid_rewrite bool_decide_eq_true.
  setoid_rewrite list_elem_of_In. naive_solver.
Qed.

(** What a successful INSERT guarantees. *)
Lemma insert_bonus_inv r db db' :
  insert_bonus r db = Ok db' →
  db' = set_ledger (db_ledger db ++ [r]) db ∧ bt_amount r ≠ 0 ∧ bt_player r ∈ pl_id <$> db_players db ∧
  existsb (same_index_key r) (db_ledger db) = false.
Proof.
  unfold insert_bonus. repeat case_match; try done. intros [= <-]. bool_to_Prop.
  split; [done|]. split; [done|]. split; [|done]. by apply player_exists_iff.
Qed.

(** Exactly when a batch of rows can be inserted. *)
Lemma insert_bonuses_ok_iff rs db :
  is_ok (insert_bonuses rs db) = true ↔
  (∀ r, r ∈ rs → int4_ok (bt_amount r) = true ∧ bt_amount r ≠ 0 ∧ bt_player r ∈ pl_id <$> db_players db) ∧
  (∀ r s, r ∈ rs → s ∈ db_ledger db → same_index_key r s = false) ∧ unique_index rs.
Proof.
  revert db. induction rs as [|r rs IH]; intros db; cbn [insert_bonuses].
  { split; [|done]. intros _. split; [set_solver|]. split; [set_solver|constructor]. }
  unfold insert_bonus. pose proof (player_exists_iff db (bt_player r)) as Hpe.
  destruct (int4_ok (bt_amount r)) eqn:E1; cbn [negb result_bind is_ok];
    [|split; [done|]; intros (H & _); destruct (H r ltac:(left)); congruence].
  destruct (bt_amount r =? 0) eqn:E2; bool_to_Prop; cbn [result_bind is_ok];
    [split; [done|]; intros (H & _); destruct (H r ltac:(left)) as (_ & ? & _); congruence|].
  destruct (existsb (same_index_key r) (db_ledger db)) eqn:E3; cbn [result_bind is_ok].
  { split; [done|]. intros (_ & H & _). apply existsb_exists in E3 as (x & Hx%list_elem_of_In & Hk).
    rewrite H in Hk; [done|by left|done]. }
  destruct (player_exists db (bt_player r)); cbn [negb result_bind is_ok];
    [|split; [done|]; intros (H & _); destruct (H r ltac:(left)) as (_ & _ & Hp%Hpe); done].
  rewrite IH. cbn [db_ledger set_ledger db_players].
  assert (∀ s, s ∈ db_ledger db → same_index_key r s = false) as Hr.
  { intros s Hs. apply not_true_iff_false. intros Hk. apply not_true_iff_false in E3. apply E3, existsb_exists.
    exists s. split; [by apply list_elem_of_In|done]. }
  split.
  - intros (Ha & Hb & Hu). split; [intros x [->|Hx]%elem_of_cons; [by repeat split; [..|apply Hpe]|by apply Ha]|]. split.
    + intros x s [->|Hx]%elem_of_cons Hs; [by apply Hr|]. apply Hb; [done|]. apply elem_of_app. by left.
    + constructor; [|done]. rewrite Forall_forall. intros x Hx. rewrite same_index_key_sym. apply Hb; [done|].
      apply elem_of_app. right. by apply list_elem_of_singleton.
  - intros (Ha & Hb & Hu). inversion Hu as [|?? Hf Hu']; subst. rewrite Forall_forall in Hf.
    split; [intros x Hx; apply Ha; by right|]. split; [|done].
    intros x s Hx [Hs| ->%list_elem_of_singleton]%elem_of_app; [apply Hb; [by right|done]|].
    rewrite same_index_key_sym. by apply Hf.
Qed.

Lemma insert_bonuses_inv rs db db' :
  insert_bonuses rs db = Ok db' →
  db' = set_ledger (db_ledger db ++ rs) db ∧
  (∀ r, r ∈ rs → bt_amount r ≠ 0 ∧ bt_player r ∈ pl_id <$> db_players db) ∧
  (unique_index (db_ledger db) → unique_index (db_ledger db ++ rs)).
Proof.
  revert db. induction rs as [|r rs IH]; intros db; cbn [insert_bonuses]; intros H.
  { apply Ok_inj in H as <-. rewrite app_nil_r. split; [by destruct db|]. split; [set_solver|done]. }
  result_inv H. apply insert_bonus_inv in E as (-> & Ha & Hp & Hu).
  apply IH in H as (-> & Hrs & Huniq). simpl in *. rewrite <-app_assoc in *. simpl in *.
  split; [done|]. split.
  - intros s [->|Hs]%elem_of_cons; [done|by apply Hrs].
  - intros Hl. by apply Huniq, unique_index_snoc.
Qed.

Lemma mapR_Forall2 {E A B} (f : A → result E B) l l' : mapR f l = Ok l' → Forall2 (fun x y => f x = Ok y) l l'.
Proof.
  revert l'. induction l as [|x l IH]; intros l'; cbn [mapR]; intros H.
  - apply Ok_inj in H as <-. constructor.
  - result_inv H. apply Ok_inj in H as <-. constructor; [done|by apply IH].
Qed.

Lemma checked_balance_inv v w : checked_balance v = Ok w → w = v ∧ 0 ≤ v < 2 ^ 31.
Proof.
  unfold checked_balance, int4_ok. repeat case_match; try done. intros [= <-]. bool_to_Prop.
  split; [done|]. lia.
Qed.

(** ** The maps of the accrual *)

Lemma foldl_map_set_get {K} `{!EqDecision K} {V} (f : K → V) (ks : list K) (m : list (K * V)) k :
  map_get (foldl (fun m k => map_set m k (f k)) m ks) k =
  if bool_decide (k ∈ ks) then Some (f k) else map_get m k.
Proof.
  revert m. induction ks as [|k' ks IH]; intros m; simpl; [done|].
  rewrite IH, map_get_set. repeat case_bool_decide; subst; set_solver.
Qed.

Lemma foldl_map_set_ok {K} `{!EqDecision K} {V} (f : K → V) (ks : list K) (m : list (K * V)) :
  map_ok m → map_ok (foldl (fun m k => map_set m k (f k)) m ks).
Proof. revert m. induction ks; intros m H; simpl; [done|]. by apply IHks, map_set_ok. Qed.

Lemma credit_jfilter_nonzero {K} `{!EqDecision K} (m : list (K * Z)) k :
  map_ok m → credit (jfilter (fun kv => negb (kv.2 =? 0)) m) k = credit m k.
Proof.
  unfold credit, map_ok. induction m as [|[k' v] m IH]; intros Hnd; [done|].
  apply NoDup_cons in Hnd as [Hk Hnd]. specialize (IH Hnd). cbn [jfilter List.filter fst snd map_get].
  destruct (v =? 0) eqn:E; bool_to_Prop; cbn [negb map_get]; (case_bool_decide as Ek; [|exact IH]); [|done].
  subst. rewrite (proj2 (map_get_None _ k)); [done|].
  intros (y & -> & [_ Hy]%elem_of_jfilter)%list_elem_of_fmap. exact (Hk (list_elem_of_fmap_2 fst m y Hy)).
Qed.

Lemma credit_fmap_add {K} `{!EqDecision K} (m : list (K * Z)) (h : K → Z) k :
  credit ((fun kv => (kv.1, kv.2 + h kv.1)) <$> m) k = if bool_decide (k ∈ map_keys m) then credit m k + h k else 0.
Proof.
  unfold credit. induction m as [|[k' v] m IH]; [done|].
  change (map_keys ((k', v) :: m)) with (k' :: map_keys m). rewrite fmap_cons. cbn [map_get fst snd].
  destruct (decide (k' = k)) as [->|Hne].
  - rewrite !(bool_decide_true (k = k)) by done. by rewrite bool_decide_true by left.
  - rewrite !(bool_decide_false (k' = k)), IH by done.
    rewrite (bool_decide_ext (k ∈ k' :: map_keys m) (k ∈ map_keys m)) by set_solver. done.
Qed.

Lemma delta_credit playerIds added removed p :
  (p ∉ playerIds → credit added p = 0 ∧ credit removed p = 0) →
  credit (delta_by_player playerIds added removed) p = credit added p - credit removed p.
Proof.
  intros H. unfold delta_by_player, credit at 1. rewrite (foldl_map_set_get (fun p => credit added p - credit removed p)).
  case_bool_decide; simpl; [done|]. destruct H; [done|]. lia.
Qed.

Lemma delta_keys playerIds added removed p :
  p ∈ map_keys (delta_by_player playerIds added removed) ↔ p ∈ playerIds.
Proof.
  unfold delta_by_player. rewrite <-map_has_key. unfold map_has.
  rewrite (foldl_map_set_get (fun p => credit added p - credit removed p)), bool_decide_eq_true.
  case_bool_decide; simpl; split; intros; [done|eauto|by destruct H0|done].
Qed.

Lemma delta_ok playerIds added removed : map_ok (delta_by_player playerIds added removed).
Proof. apply foldl_map_set_ok. constructor. Qed.

Lemma map_has_negative (m : list (jstr * Z)) p :
  map_ok m → map_has (jfilter (fun kv => kv.2 <? 0) m) p = (credit m p <? 0).
Proof.
  intros Hm. apply eq_iff_eq_true. rewrite map_has_key, Z.ltb_lt. unfold map_keys. rewrite list_elem_of_fmap. split.
  - intros ([k v] & -> & [Hv Hin]%elem_of_jfilter). simpl in *. bool_to_Prop.
    apply elem_of_map_get in Hin; [|done]. unfold credit. by rewrite Hin.
  - intros Hc. unfold credit in Hc. destruct (map_get m p) as [v|] eqn:E; simpl in *; [|lia].
    exists (p, v). split; [done|]. apply elem_of_jfilter. split; [by apply Z.ltb_lt|]. by apply elem_of_map_get.
Qed.

(** The forgiven part: exactly what the balance cannot cover. *)
Lemma shortfall_credit delta players p :
  map_ok delta → NoDup (pl_id <$> players) →
  (∀ pl, pl ∈ players → 0 ≤ pl_balance pl) →
  (∀ pl, pl ∈ players → pl_id pl = p → credit (shortfall_by_player delta players) p = Z.max 0 (- (pl_balance pl + credit delta p))) ∧
  (p ∉ pl_id <$> players → credit (shortfall_by_player delta players) p = 0).
Proof.
  intros Hd Hnd Hpos.
  assert (∀ ps : list player_row, p ∉ pl_id <$> ps → map_get (shortfall_by_player delta ps) p = None) as Hnone.
  { intros ps Hp. apply map_get_None. intros ([k v] & -> & (pl & Hpl & Hin)%list_elem_of_omap)%list_elem_of_fmap.
    unfold shortfall_of in Hin. repeat case_match; simplify_eq/=. apply Hp, list_elem_of_fmap. eauto. }
  split; [|intros Hp; unfold credit; by rewrite Hnone].
  induction players as [|pl0 players IH]; [set_solver|].
  rewrite fmap_cons, NoDup_cons in Hnd. destruct Hnd as [Hn Hnd].
  intros pl [->|Hin]%elem_of_cons Hp.
  - pose proof (Hpos pl0 ltac:(left)). specialize (Hnone players).
    unfold shortfall_by_player in *. unfold credit at 1. cbn [omap list_omap].
    unfold shortfall_of at 1. rewrite map_has_negative, Hp by done.
    destruct (credit delta p <? 0) eqn:E; bool_to_Prop.
    + destruct (_ >? 0) eqn:E2; rewrite Z.gtb_ltb in E2; bool_to_Prop.
      * cbn [map_get]. by rewrite bool_decide_true.
      * rewrite Hnone by (by rewrite <-Hp). simpl. lia.
    + rewrite Hnone by (by rewrite <-Hp). simpl. lia.
  - assert (pl_id pl0 ≠ p) as Hne.
    { intros Heq. apply Hn, list_elem_of_fmap. exists pl. split; [congruence|done]. }
    rewrite <-(IH Hnd (fun x Hx => Hpos x ltac:(by right)) pl Hin Hp).
    unfold credit. f_equal. unfold shortfall_by_player. cbn [omap list_omap].
    destruct (shortfall_of delta pl0) as [[k v]|] eqn:Es; [|done]. cbn [map_get].
    rewrite bool_decide_false; [done|]. unfold shortfall_of in Es. repeat case_match; by simplify_eq.
Qed.

Lemma changes_credit delta shortfall p :
  map_ok delta → (p ∉ map_keys delta → credit shortfall p = 0) →
  credit (balance_changes delta shortfall) p = credit delta p + credit shortfall p.
Proof.
  intros Hd Hs. unfold balance_changes. rewrite credit_jfilter_nonzero.
  - rewrite credit_fmap_add. case_bool_decide as Hin; [done|]. rewrite (Hs Hin). unfold credit.
    by rewrite (proj2 (map_get_None delta p) Hin).
  - unfold map_ok, map_keys. rewrite <-list_fmap_compose. exact Hd.
Qed.

Lemma update_balance_inv changes pl pl' :
  update_balance changes pl = Ok pl' → 0 ≤ pl_balance pl < 2 ^ 31 →
  pl_id pl' = pl_id pl ∧ pl_role pl' = pl_role pl ∧ pl_role_expires pl' = pl_role_expires pl ∧
  pl_balance pl' = pl_balance pl + credit changes (pl_id pl) ∧ 0 ≤ pl_balance pl' < 2 ^ 31.
Proof.
  unfold update_balance, credit. intros H Hb. destruct (map_get changes (pl_id pl)); simpl.
  - result_inv H. apply Ok_inj in H as <-. apply checked_balance_inv in E as [-> ?]. simpl. auto.
  - apply Ok_inj in H as <-. repeat split; lia.
Qed.

(** ** One accrual of a day *)

(** The players with presence on the day, and the rows the accrual removes,
    keeps and forgives. *)
Definition day_players (day : jstr) (db : economy_db) : list jstr := (aggregates day (db_presence db)).*1.
Definition removed_rows (day : jstr) (db : economy_db) : list bonus_row :=
  jfilter (accrual_row day (day_players day db)) (db_ledger db).
Definition kept_rows (day : jstr) (db : economy_db) : list bonus_row :=
  jfilter (fun r => negb (accrual_row day (day_players day db) r)) (db_ledger db).
Definition earn_rows (st : SettingsRow) (day : jstr) (dayStart : Z) (db : economy_db) : db_result (list bonus_row) :=
  mapR (accrual_insert day (dayStart * us_per_sec))
    (jfilter (fun d => negb (bool_decide (d.2 = Some 0))) (desiredRows st (aggregates day (db_presence db)))).
Definition day_delta (day : jstr) (db : economy_db) (ins : list bonus_row) : list (jstr * Z) :=
  delta_by_player (day_players day db) (sum_by_player ins) (sum_by_player (removed_rows day db)).
Definition day_shortfall (day : jstr) (db : economy_db) (ins : list bonus_row) : list (jstr * Z) :=
  shortfall_by_player (day_delta day db ins) (db_players db).
Definition forgiveness_rows (day : jstr) (dayStart : Z) (db : economy_db) (ins : list bonus_row) : list bonus_row :=
  adjust_row day (dayStart * us_per_sec) <$> day_shortfall day db ins.

Lemma day_players_NoDup day db : NoDup (day_players day db).
Proof. apply (group_by_ok pd_player). Qed.

Lemma earn_rows_inv st day ds db ins r :
  earn_rows st day ds db = Ok ins → r ∈ ins →
  bt_player r ∈ day_players day db ∧ bt_type r ∈ ACCRUAL_TX_TYPES ∧
  bt_reference_type r = Some DAILY_PRESENCE_REFERENCE_TYPE ∧ bt_reference_id r = Some day ∧
  bt_created r = ds * us_per_sec.
Proof.
  intros H%mapR_Forall2 Hr. apply (Forall2_flip) in H.
  apply list_elem_of_lookup in Hr as [i Hi]. eapply Forall2_lookup_l in H as (d & Hd & Hins); [|exact Hi].
  unfold flip, accrual_insert in Hins. destruct d as [[p ty] [a|]]; [|done]. simpl in *. apply Ok_inj in Hins as <-. simpl.
  apply list_elem_of_lookup_2 in Hd. apply elem_of_jfilter in Hd as [_ Hd].
  unfold desiredRows in Hd. apply list_elem_of_bind in Hd as (agg & Hd & Hagg).
  unfold desired_of in Hd. apply list_elem_of_fmap in Hd as (ty' & [= -> -> _] & Hty).
  repeat split; [|done]. unfold day_players. by apply list_elem_of_fmap_2.
Qed.

Lemma earn_rows_other st day ds db ins p :
  earn_rows st day ds db = Ok ins → p ∉ day_players day db → ledger_sum ins p = 0.
Proof.
  intros H Hp. apply ledger_sum_none. intros r Hr <-. apply Hp. by eapply earn_rows_inv in Hr as (? & _).
Qed.

Lemma removed_rows_other day db p : p ∉ day_players day db → ledger_sum (removed_rows day db) p = 0.
Proof.
  intros Hp. apply ledger_sum_none. intros r [Hr _]%elem_of_jfilter <-. unfold accrual_row in Hr. bool_to_Prop. done.
Qed.

Lemma day_delta_credit st day ds db ins p :
  earn_rows st day ds db = Ok ins →
  credit (day_delta day db ins) p = ledger_sum ins p - ledger_sum (removed_rows day db) p.
Proof.
  intros H. unfold day_delta. rewrite delta_credit; rewrite !credit_sum_by_player; [done|].
  intros Hp. split; [by eapply earn_rows_other|by apply removed_rows_other].
Qed.

(** The forgiven part of every player. *)
Lemma day_shortfall_credit st day ds db ins pl :
  economy_ok db → earn_rows st day ds db = Ok ins → pl ∈ db_players db →
  credit (day_shortfall day db ins) (pl_id pl) =
  Z.max 0 (- (pl_balance pl + ledger_sum ins (pl_id pl) - ledger_sum (removed_rows day db) (pl_id pl))).
Proof.
  intros Hok Hins Hpl. unfold day_shortfall.
  destruct (shortfall_credit (day_delta day db ins) (db_players db) (pl_id pl)) as [Hs _].
  - apply delta_ok.
  - apply Hok.
  - intros q Hq. by apply Hok in Hq as [_ [? _]].
  - rewrite (Hs pl Hpl eq_refl), (day_delta_credit st day ds) by done. lia.
Qed.

Lemma day_changes_credit st day ds db ins pl :
  economy_ok db → earn_rows st day ds db = Ok ins → pl ∈ db_players db →
  pl_balance pl + credit (balance_changes (day_delta day db ins) (day_shortfall day db ins)) (pl_id pl) =
  Z.max 0 (pl_balance pl + ledger_sum ins (pl_id pl) - ledger_sum (removed_rows day db) (pl_id pl)).
Proof.
  intros Hok Hins Hpl. rewrite changes_credit.
  - rewrite (day_delta_credit st day ds), (day_shortfall_credit st day ds) by done. lia.
  - apply delta_ok.
  - intros Hp. unfold day_delta in Hp. rewrite delta_keys in Hp.
    rewrite (day_shortfall_credit st day ds) by done.
    rewrite (earn_rows_other st day ds db), removed_rows_other by done.
    apply Hok in Hpl as [_ [? _]]. lia.
Qed.

Lemma shortfall_of_key delta pl k v : shortfall_of delta pl = Some (k, v) → k = pl_id pl ∧ 0 < v.
Proof. unfold shortfall_of. rewrite Z.gtb_ltb. repeat case_match; try done. intros [= <- <-]. bool_to_Prop. done. Qed.

Lemma day_shortfall_ok day db ins : economy_ok db → map_ok (day_shortfall day db ins).
Proof.
  intros Hok. unfold map_ok, map_keys, day_shortfall, shortfall_by_player. pose proof (eo_players _ Hok) as Hnd.
  induction (db_players db) as [|pl ps IH]; [constructor|].
  rewrite fmap_cons, NoDup_cons in Hnd. destruct Hnd as [Hn Hnd]. cbn [omap list_omap].
  destruct (shortfall_of _ pl) as [[k v]|] eqn:E; [|by apply IH].
  rewrite fmap_cons. apply NoDup_cons. split; [|by apply IH].
  apply shortfall_of_key in E as [-> _]. cbn [fst].
  intros ([k' v'] & Heq & (pl' & Hpl & [-> _]%shortfall_of_key)%list_elem_of_omap)%list_elem_of_fmap.
  apply Hn, list_elem_of_fmap. by exists pl'.
Qed.

Lemma forgiveness_sum day ds db ins p :
  economy_ok db → ledger_sum (forgiveness_rows day ds db ins) p = credit (day_shortfall day db ins) p.
Proof.
  intros Hok. unfold forgiveness_rows, ledger_sum. rewrite zsum_fmap. simpl.
  pose proof (day_shortfall_ok day db ins Hok) as Hm.
  revert Hm. generalize (day_shortfall day db ins). intros m. unfold map_ok, credit.
  induction m as [|[k v] m IH]; intros Hnd; [done|]. apply NoDup_cons in Hnd as [Hk Hnd]. simpl.
  rewrite IH by done. case_bool_decide; subst; simpl; [|lia].
  rewrite (proj2 (map_get_None m p)) by done. simpl. lia.
Qed.

(** A player after the accrual: the balance moves by what the day now earns
    less what it earned before, and stops at zero. *)
Definition accrued_player (day : jstr) (db : economy_db) (ins : list bonus_row) (pl pl' : player_row) : Prop :=
  pl_id pl' = pl_id pl ∧ pl_role pl' = pl_role pl ∧ pl_role_expires pl' = pl_role_expires pl ∧
  pl_balance pl' = Z.max 0 (pl_balance pl + ledger_sum ins (pl_id pl) - ledger_sum (removed_rows day db) (pl_id pl)) ∧
  pl_balance pl' < 2 ^ 31.

Lemma accrue_ledger_inv st day ds db db' res :
  economy_ok db → accrue_ledger st day ds db = Ok (db', res) →
  ∃ ins, earn_rows st day ds db = Ok ins ∧
    Forall2 (accrued_player day db ins) (db_players db) (db_players db') ∧
    db' = set_players (db_players db') (set_ledger (kept_rows day db ++ ins ++ forgiveness_rows day ds db ins) db) ∧
    (∀ r, r ∈ ins ++ forgiveness_rows day ds db ins → bt_amount r ≠ 0 ∧ bt_player r ∈ pl_id <$> db_players db) ∧
    unique_index (db_ledger db') ∧
    ar_shortfallForgiven res = zsum snd (day_shortfall day db ins).
Proof.
  intros Hok H. unfold accrue_ledger in H. cbv zeta in H.
  change ((aggregates day (db_presence db)).*1) with (day_players day db) in H.
  change (jfilter (accrual_row day (day_players day db)) (db_ledger db)) with (removed_rows day db) in H.
  change (jfilter (fun r => negb (accrual_row day (day_players day db) r)) (db_ledger db)) with (kept_rows day db) in H.
  change (mapR (accrual_insert _ _) _) with (earn_rows st day ds db) in H.
  result_inv H. rename a into ins. exists ins.
  apply insert_bonuses_inv in E0 as (-> & Hins & Hu1).
  change (delta_by_player _ _ _) with (day_delta day db ins) in *. cbn [db_players set_ledger db_ledger] in *.
  change (shortfall_by_player _ _) with (day_shortfall day db ins) in *.
  change (adjust_row day (ds * us_per_sec) <$> day_shortfall day db ins) with (forgiveness_rows day ds db ins) in *.
  apply insert_bonuses_inv in E1 as (-> & Hadj & Hu2). cbn [db_players set_ledger db_ledger] in *.
  apply mapR_Forall2 in E2. apply Ok_inj in H. apply (f_equal fst) in H as Hdb. apply (f_equal snd) in H as Hres.
  simpl in Hdb, Hres. subst db' res. clear H. rewrite <-app_assoc in *.
  split; [done|]. split.
  { simpl. apply Forall2_same_length_lookup. split; [by eapply Forall2_length|].
    intros i pl pl' Hi Hi'. pose proof (Forall2_lookup_lr _ _ _ _ _ _ E2 Hi Hi') as Hup.
    apply list_elem_of_lookup_2 in Hi. pose proof (eo_balance _ Hok pl Hi) as [_ Hb].
    apply update_balance_inv in Hup as (? & ? & ? & Hbal & ?); [|done].
    rewrite (day_changes_credit st day ds) in Hbal by done. repeat split; try done; lia. }
  split; [done|]. split.
  { intros r [Hr|Hr]%elem_of_app; [by apply Hins|by apply Hadj]. }
  split.
  - simpl. apply Hu2, Hu1. apply unique_index_jfilter, Hok.
  - simpl. rewrite (foldl_zsum snd). done.
Qed.

Lemma Forall2_ids {P : player_row → player_row → Prop} ps ps' :
  (∀ pl pl', P pl pl' → pl_id pl' = pl_id pl) → Forall2 P ps ps' → pl_id <$> ps' = pl_id <$> ps.
Proof. intros HP. induction 1; [done|]. rewrite !fmap_cons. f_equal; [by apply HP|done]. Qed.

Lemma accrue_ledger_ok st day ds db db' res :
  economy_ok db → accrue_ledger st day ds db = Ok (db', res) → economy_ok db'.
Proof.
  intros Hok H. destruct (accrue_ledger_inv _ _ _ _ _ _ Hok H) as (ins & Hins & Hpl & Hdb & Hrows & Hu & _).
  assert (pl_id <$> db_players db' = pl_id <$> db_players db) as Hids.
  { eapply Forall2_ids; [|exact Hpl]. by intros ?? [? _]. }
  assert (db_ledger db' = kept_rows day db ++ ins ++ forgiveness_rows day ds db ins) as Hl by by rewrite Hdb.
  split; [rewrite Hids; apply Hok| | |done].
  - intros pl' [i Hi]%list_elem_of_lookup.
    destruct (Forall2_lookup_r _ _ _ _ _ Hpl Hi) as (pl & Hi' & Hid & _ & _ & Hb & Hlt).
    apply list_elem_of_lookup_2 in Hi'. pose proof (eo_balance _ Hok pl Hi') as [Hsum Hr].
    split; [|lia]. rewrite Hb, Hl, Hid, !ledger_sum_app, (forgiveness_sum day ds db ins) by done.
    rewrite (day_shortfall_credit st day ds) by done.
    rewrite (ledger_sum_split (accrual_row day (day_players day db))) in Hsum.
    fold (removed_rows day db) in Hsum. fold (kept_rows day db) in Hsum. lia.
  - intros r. rewrite Hl, Hids. intros [Hr|Hr]%elem_of_app; [|by apply Hrows].
    apply elem_of_jfilter in Hr as [_ Hr]. by apply Hok.
Qed.

Lemma economy_ok_presence db pr : economy_ok db → economy_ok (set_presence pr db).
Proof. intros []. by split. Qed.

Lemma accrue_ok day now db db' res :
  economy_ok db → accrueDailyBonuses day now db = Ok (db', res) → economy_ok db'.
Proof.
  intros Hok. unfold accrueDailyBonuses. cbv zeta. repeat case_match; try done.
  - apply accrue_ledger_ok. by apply economy_ok_presence.
  - intros [= <- _]. by apply economy_ok_presence.
  - intros [= <- _]. by apply economy_ok_presence.
Qed.

(** ** Charges and adjustments *)

Lemma find_player_Some db p pl : find_player db p = Some pl → pl ∈ db_players db ∧ pl_id pl = p.
Proof. unfold find_player. intros [Hin Hp]%List.find_some. bool_to_Prop. by apply list_elem_of_In in Hin. Qed.

Lemma update_player_inv p f db db' :
  update_player p f db = Ok db' →
  db' = set_players (db_players db') db ∧
  Forall2 (fun pl pl' => if bool_decide (pl_id pl = p) then pl' = f pl ∧ 0 ≤ pl_balance (f pl) < 2 ^ 31 else pl' = pl)
    (db_players db) (db_players db').
Proof.
  unfold update_player. intros H. result_inv H. apply Ok_inj in H as <-. split; [done|].
  apply mapR_Forall2 in E. simpl. eapply Forall2_impl; [exact E|]. simpl. intros pl pl' H'.
  case_bool_decide; [|by apply Ok_inj in H'].
  result_inv H'. apply Ok_inj in H' as <-. by apply checked_balance_inv in E0 as [_ ?].
Qed.

(** A charge or credit of [a] to player [p] keeps the economy consistent when
    the ledger rows written for it sum to [a]. *)
Lemma post_rows_ok db db' p pl f rows a :
  economy_ok db → find_player db p = Some pl →
  (∀ q, ledger_sum rows q = if bool_decide (q = p) then a else 0) →
  (∀ r, r ∈ rows → bt_amount r ≠ 0 ∧ bt_player r ∈ pl_id <$> db_players db) →
  unique_index (db_ledger db ++ rows) →
  (∀ x, pl_id (f x) = pl_id x ∧ pl_balance (f x) = pl_balance pl + a) →
  update_player p f (set_ledger (db_ledger db ++ rows) db) = Ok db' → economy_ok db'.
Proof.
  intros Hok [Hin Hid]%find_player_Some Hsum Hrows Hu Hf [Hdb Hps]%update_player_inv.
  cbn [db_players set_ledger] in *.
  assert (pl_id <$> db_players db' = pl_id <$> db_players db) as Hids.
  { eapply Forall2_ids; [|exact Hps]. intros x x'. cbv beta. destruct (decide (pl_id x = p)).
    - rewrite bool_decide_true by done. intros [-> _]. apply Hf.
    - rewrite bool_decide_false by done. by intros ->. }
  assert (db_ledger db' = db_ledger db ++ rows) as Hl by by rewrite Hdb.
  split; [rewrite Hids; apply Hok| | |by rewrite Hl].
  - intros x' [i Hi]%list_elem_of_lookup. destruct (Forall2_lookup_r _ _ _ _ _ Hps Hi) as (x & Hi' & Hx).
    apply list_elem_of_lookup_2 in Hi'. rewrite Hl, ledger_sum_app, Hsum. cbv beta in Hx.
    pose proof (eo_balance _ Hok x Hi') as [Hb Hr]. destruct (decide (pl_id x = p)) as [Hxp|Hxp].
    + rewrite bool_decide_true in Hx by done. destruct Hx as [-> Hrange]. destruct (Hf x) as [Hfi Hfb]. rewrite Hfi, bool_decide_true by done.
      assert (x = pl) as ->; [|rewrite Hfb in *; lia].
      eapply NoDup_fmap_inj_elem; [apply (eo_players _ Hok)|done..|congruence].
    + rewrite bool_decide_false in Hx by done. subst x'. rewrite bool_decide_false by done. lia.
  - intros r. rewrite Hl, Hids. intros [Hr|Hr]%elem_of_app; [by apply Hok|by apply Hrows].
Qed.

Lemma ledger_sum_one r q : ledger_sum [r] q = if bool_decide (q = bt_player r) then bt_amount r else 0.
Proof.
  unfold ledger_sum. simpl. destruct (decide (bt_player r = q)) as [->|].
  - rewrite !bool_decide_true by done. lia.
  - rewrite !bool_decide_false by congruence. lia.
Qed.

Lemma insert_then_update_ok db db' p pl f r a :
  economy_ok db → find_player db p = Some pl → bt_player r = p → bt_amount r = a →
  (∀ x, pl_id (f x) = pl_id x ∧ pl_balance (f x) = pl_balance pl + a) →
  (let! db := insert_bonus r db in update_player p f db) = Ok db' → economy_ok db'.
Proof.
  intros Hok Hfind Hp Ha Hf H. result_inv H. apply insert_bonus_inv in E as (-> & Hnz & Hpl & Hu).
  eapply (post_rows_ok db db' p pl f [r] a); try done.
  - intros q. by rewrite ledger_sum_one, Hp, Ha.
  - intros s ->%list_elem_of_singleton. done.
  - apply unique_index_snoc; [apply Hok|done].
Qed.

Lemma applyVipGrant_ok clock input db db' res :
  economy_ok db → applyVipGrant clock input db = Ok (db', res) → economy_ok db'.
Proof.
  intros Hok. unfold applyVipGrant. destruct (find_player db (g_playerId input)) as [pl|] eqn:Ef; [|by intros [= <- _]].
  destruct (planVipGrant _ _ _ _ _) as [price next role expires|b| |] eqn:Ep; try (by intros [= <- _]).
  assert (next = pl_balance pl - price) as Hnext.
  { unfold planVipGrant in Ep. repeat case_match; by simplify_eq. }
  intros H. result_inv H. apply Ok_inj in H. apply (f_equal fst) in H. simpl in H. subst a0.
  destruct (negb (price =? 0)) eqn:E1; bool_to_Prop.
  - result_inv E. apply Ok_inj in E as <-. simpl in E0.
    eapply (insert_then_update_ok db db' (g_playerId input) pl _ _ (- price)); [done|done| | | |rewrite E2; exact E0]; [done|done|].
    intros x. simpl. split; [done|lia].
  - apply Ok_inj in E as <-. simpl in E0.
    eapply (post_rows_ok db db' (g_playerId input) pl _ [] 0); [done|done| | | | |].
    5:{ rewrite app_nil_r. destruct db. exact E0. }
    + intros q. by case_bool_decide.
    + intros r Hr. by apply not_elem_of_nil in Hr.
    + rewrite app_nil_r. apply Hok.
    + intros x. simpl. split; [done|lia].
Qed.

Lemma bonusAdjustment_ok clock actor p comment amount db db' res :
  economy_ok db → bonusAdjustment clock actor p comment amount db = Ok (db', res) → economy_ok db'.
Proof.
  intros Hok. unfold bonusAdjustment. destruct (find_player db p) as [pl|] eqn:Ef; [|by intros [= <- _]].
  destruct (_ <? 0) eqn:E; [by intros [= <- _]|]. intros H. result_inv H.
  apply Ok_inj in H. apply (f_equal fst) in H. simpl in H. subst a0.
  eapply (insert_then_update_ok db db' p pl _ _ amount); [done|done| | | |rewrite E0; exact E1]; [done|done|].
  intros x. simpl. done.
Qed.

(** * Any history of the economy *)

Inductive econ_op :=
| op_accrue (day : jstr) (now : Z)
| op_grant (clock : Z) (input : ApplyVipGrantInput)
| op_adjust (clock : Z) (actor p comment : jstr) (amount : Z)
| op_settings (st : SettingsRow)
| op_presence (rows : list presence_row)
| op_sessions (rows : list session_row)
| op_events (rows : list event_row)
| op_new_player (id : jstr).

(** One committed or rolled back transaction. *)
Definition econ_step (op : econ_op) (db : economy_db) : economy_db :=
  match op with
  | op_accrue day now => match accrueDailyBonuses day now db with Ok (db', _) => db' | Throw _ => db end
  | op_grant clock input => match applyVipGrant clock input db with Ok (db', _) => db' | Throw _ => db end
  | op_adjust clock actor p comment amount =>
      match bonusAdjustment clock actor p comment amount db with Ok (db', _) => db' | Throw _ => db end
  | op_settings st => MkDb (Some st) (db_ledger db) (db_players db) (db_presence db) (db_sessions db) (db_events db)
  | op_presence rows => set_presence rows db
  | op_sessions rows => MkDb (db_settings db) (db_ledger db) (db_players db) (db_presence db) rows (db_events db)
  | op_events rows => MkDb (db_settings db) (db_ledger db) (db_players db) (db_presence db) (db_sessions db) rows
  | op_new_player id =>
      if player_exists db id then db
      else set_players (db_players db ++ [MkPlayer id 0 None None]) db
  end.

Definition econ_run (ops : list econ_op) (db : economy_db) : economy_db := foldl (fun db op => econ_step op db) db ops.

Definition empty_db : economy_db := MkDb None [] [] [] [] [].

Lemma empty_db_ok : economy_ok empty_db.
Proof. split; simpl; [constructor|set_solver|set_solver|constructor]. Qed.

Lemma econ_step_ok op db : economy_ok db → economy_ok (econ_step op db).
Proof.
  intros Hok. destruct op as [day now|clock input|clock actor p comment amount| | | | |id]; simpl.
  - destruct (accrueDailyBonuses day now db) as [[db' r]|] eqn:E; [by eapply accrue_ok|done].
  - destruct (applyVipGrant clock input db) as [[db' r]|] eqn:E; [by eapply applyVipGrant_ok|done].
  - destruct (bonusAdjustment _ _ _ _ _ _) as [[db' r]|] eqn:E; [by eapply bonusAdjustment_ok|done].
  - destruct Hok. by split.
  - by apply economy_ok_presence.
  - destruct Hok. by split.
  - destruct Hok. by split.
  - destruct (player_exists db id) eqn:E; [done|]. apply not_true_iff_false in E. rewrite player_exists_iff in E.
    destruct Hok as [Hnd Hb Hr Hu]. split; simpl; [| | |done].
    + rewrite fmap_app. apply NoDup_app. split; [done|]. split; [|apply NoDup_singleton].
      intros x Hx Hx'%list_elem_of_singleton. simpl in Hx'. by subst.
    + intros pl [Hpl| ->%list_elem_of_singleton]%elem_of_app; [by apply Hb|]. simpl.
      rewrite ledger_sum_none; [lia|]. intros r Hin <-. by apply E, Hr.
    + intros r Hin. rewrite fmap_app, elem_of_app. destruct (Hr r Hin). auto.
Qed.

(** C2: Whatever sequence of accruals, purchases, adjustments, configuration
    changes and imports runs, failed transactions included, every balance is
    the sum of the player's ledger rows, is not negative and fits its column,
    and the ledger keeps its constraints. *)
Theorem ledger_matches_balances ops : economy_ok (econ_run ops empty_db).
Proof.
  unfold econ_run. assert (∀ db, economy_ok db → economy_ok (foldl (fun db op => econ_step op db) db ops)) as H.
  { induction ops as [|op ops IH]; intros db Hok; simpl; [done|]. by apply IH, econ_step_ok. }
  apply H, empty_db_ok.
Qed.

(** ** What one accrual does, and when it can *)

Lemma earn_rows_accrual st day ds db ins r :
  earn_rows st day ds db = Ok ins → r ∈ ins → accrual_row day (day_players day db) r = true.
Proof.
  intros H Hr. destruct (earn_rows_inv _ _ _ _ _ _ H Hr) as (? & ? & Hrt & Hri & _).
  unfold accrual_row. rewrite !andb_true_iff, !bool_decide_eq_true. done.
Qed.

Lemma forgiveness_not_accrual day ds db ins r ids :
  r ∈ forgiveness_rows day ds db ins → accrual_row day ids r = false.
Proof.
  intros (kv & -> & _)%list_elem_of_fmap. unfold accrual_row. cbn [adjust_row bt_type].
  rewrite (bool_decide_false (adjust ∈ ACCRUAL_TX_TYPES)) by (unfold ACCRUAL_TX_TYPES; set_solver).
  by rewrite andb_false_r.
Qed.

Lemma earn_rows_keys st day ds db ins :
  earn_rows st day ds db = Ok ins → NoDup ((fun r => (bt_player r, bt_type r)) <$> ins).
Proof.
  intros H%mapR_Forall2.
  assert ((fun r => (bt_player r, bt_type r)) <$> ins =
    fst <$> jfilter (fun d => negb (bool_decide (d.2 = Some 0))) (desiredRows st (aggregates day (db_presence db)))) as ->.
  { induction H as [|d r ds' rs Hd _ IH]; [done|]. rewrite !fmap_cons. f_equal; [|exact IH].
    unfold accrual_insert in Hd. destruct d as [[p ty] [a|]]; [|done]. simpl in *. by apply Ok_inj in Hd as <-. }
  eapply sublist_NoDup; [|apply fmap_sublist, jfilter_sublist].
  pose proof (group_by_ok pd_player (jfilter (fun r => bool_decide (pd_day r = day)) (db_presence db))) as Hok.
  unfold desiredRows, aggregates. revert Hok. generalize (group_by pd_player (jfilter (fun r => bool_decide (pd_day r = day)) (db_presence db))).
  intros aggs. unfold map_ok, map_keys. induction aggs as [|agg aggs IH]; intros Hnd; [constructor|].
  rewrite fmap_cons, NoDup_cons in Hnd. destruct Hnd as [Hn Hnd]. rewrite bind_cons, fmap_app. apply NoDup_app.
  split; [|split; [|by apply IH]].
  - unfold desired_of, ACCRUAL_TX_TYPES. simpl. repeat (constructor; [set_solver|]). constructor.
  - intros x (d & -> & (ty & -> & _)%list_elem_of_fmap)%list_elem_of_fmap
      (d' & Hd' & (agg' & (ty' & -> & _)%list_elem_of_fmap & Hin)%list_elem_of_bind)%list_elem_of_fmap.
    simpl in Hd'. injection Hd' as Heq _. apply Hn. rewrite Heq. by apply list_elem_of_fmap_2.
Qed.

Lemma unique_index_keys {K} (key : bonus_row → K) l :
  (∀ r s, same_index_key r s = true → key r = key s) → NoDup (key <$> l) → unique_index l.
Proof.
  intros Hk. induction l as [|r l IH]; [constructor|]. rewrite fmap_cons, NoDup_cons. intros [Hr Hnd].
  constructor; [|by apply IH]. rewrite Forall_forall. intros s Hs. apply not_true_iff_false. intros Heq%Hk.
  apply Hr. rewrite Heq. by apply list_elem_of_fmap_2.
Qed.

Lemma same_index_key_eq r s : same_index_key r s = true →
  bt_player r = bt_player s ∧ bt_type r = bt_type s ∧ bt_reference_type r = bt_reference_type s ∧
  bt_reference_id r = bt_reference_id s ∧ bt_created r = bt_created s.
Proof. unfold same_index_key. intros H. bool_to_Prop. naive_solver. Qed.

Lemma earn_rows_no_clash st day ds db ins r s :
  earn_rows st day ds db = Ok ins → r ∈ ins → s ∈ kept_rows day db → same_index_key r s = false.
Proof.
  intros H Hr [Hs _]%elem_of_jfilter. apply not_true_iff_false.
  intros (Hp & Ht & Hrt & Hri & _)%same_index_key_eq.
  pose proof (earn_rows_accrual _ _ _ _ _ _ H Hr) as Ha. unfold accrual_row in *.
  rewrite Hp, Ht, Hrt, Hri in Ha. by rewrite Ha in Hs.
Qed.

Lemma earn_rows_no_adjust st day ds db db0 ins ins0 r s :
  earn_rows st day ds db = Ok ins → r ∈ ins → s ∈ forgiveness_rows day ds db0 ins0 → same_index_key r s = false.
Proof.
  intros H Hr Hs. apply not_true_iff_false. intros (_ & Ht & _)%same_index_key_eq.
  destruct (earn_rows_inv _ _ _ _ _ _ H Hr) as (_ & Hty & _). rewrite Ht in Hty.
  apply list_elem_of_fmap in Hs as (kv & -> & _). simpl in Hty. unfold ACCRUAL_TX_TYPES in Hty. set_solver.
Qed.

Lemma earn_rows_unique st day ds db ins : earn_rows st day ds db = Ok ins → unique_index ins.
Proof.
  intros H. eapply (unique_index_keys (fun r => (bt_player r, bt_type r))); [|by eapply earn_rows_keys].
  intros r s (-> & -> & _)%same_index_key_eq. done.
Qed.

Lemma mapR_ok {E A B} (f : A → result E B) l : (∀ x, x ∈ l → is_ok (f x) = true) → is_ok (mapR f l) = true.
Proof.
  induction l as [|x l IH]; intros H; cbn [mapR]; [done|].
  specialize (H x ltac:(left)) as Hx. destruct (f x); [|done]. cbn [result_bind].
  specialize (IH ltac:(intros; apply H; by right)). by destruct (mapR f l).
Qed.

(** The rows the accrual writes keep to the ranges of their columns. *)
Record accrual_in_range (day : jstr) (db : economy_db) (ins : list bonus_row) : Prop := {
  air_players : ∀ p, p ∈ day_players day db → p ∈ pl_id <$> db_players db;
  air_amounts : ∀ r, r ∈ ins → int4_ok (bt_amount r) = true ∧ bt_amount r ≠ 0;
  air_balances : ∀ pl, pl ∈ db_players db →
    pl_balance pl + ledger_sum ins (pl_id pl) - ledger_sum (removed_rows day db) (pl_id pl) < 2 ^ 31;
  air_shortfall : ∀ kv, kv ∈ day_shortfall day db ins → kv.2 < 2 ^ 31;
}.

Lemma insert_bonuses_error rs db :
  (∀ r, r ∈ rs → int4_ok (bt_amount r) = true ∧ bt_amount r ≠ 0 ∧ bt_player r ∈ pl_id <$> db_players db) →
  is_ok (insert_bonuses rs db) = true ∨ insert_bonuses rs db = Throw unique_violation.
Proof.
  revert db. induction rs as [|r rs IH]; intros db H; cbn [insert_bonuses]; [by left|].
  destruct (H r ltac:(left)) as (H1 & H2 & H3%player_exists_iff). unfold insert_bonus.
  rewrite H1, H3, (proj2 (Z.eqb_neq _ _) H2). cbn [negb].
  destruct (existsb _ _); cbn [result_bind]; [by right|]. apply IH. intros x Hx. apply H. by right.
Qed.

Lemma insert_bonuses_Ok rs db :
  is_ok (insert_bonuses rs db) = true → insert_bonuses rs db = Ok (set_ledger (db_ledger db ++ rs) db).
Proof.
  destruct (insert_bonuses rs db) as [db'|] eqn:E; [|done]. intros _. by apply insert_bonuses_inv in E as (-> & _).
Qed.

(** The accrual, step by step, by the names above. *)
Lemma accrue_ledger_eq st day ds db :
  accrue_ledger st day ds db =
  let! ins := earn_rows st day ds db in
  let! db1 := insert_bonuses ins (set_ledger (kept_rows day db) db) in
  let delta := delta_by_player (day_players day db) (sum_by_player ins) (sum_by_player (removed_rows day db)) in
  let shortfall := shortfall_by_player delta (db_players db1) in
  let! db2 := insert_bonuses (adjust_row day (ds * us_per_sec) <$> shortfall) db1 in
  let! players := mapR (update_balance (balance_changes delta shortfall)) (db_players db2) in
  Ok (set_players players db2,
      MkAccrued true
        (Z.of_nat (length (jfilter (fun p => negb (credit (sum_by_player ins) p =? 0)
           || negb (credit (sum_by_player (removed_rows day db)) p =? 0)) (day_players day db))))
        (Z.of_nat (length ins))
        (foldl (fun acc kv => acc + kv.2) 0 (balance_changes delta shortfall))
        (foldl (fun acc kv => acc + kv.2) 0 shortfall)).
Proof. reflexivity. Qed.

Lemma accrual_inserts st day ds db ins :
  economy_ok db → earn_rows st day ds db = Ok ins → accrual_in_range day db ins →
  insert_bonuses ins (set_ledger (kept_rows day db) db) = Ok (set_ledger (kept_rows day db ++ ins) db).
Proof.
  intros Hok Hins Hr. etrans; [apply insert_bonuses_Ok|reflexivity]. apply insert_bonuses_ok_iff. split; [|split].
  - intros r Hin. destruct (air_amounts _ _ _ Hr r Hin) as [? ?]. split; [done|]. split; [done|].
    apply (air_players _ _ _ Hr). by eapply earn_rows_inv in Hin as (? & _).
  - intros r s Hin Hs. by eapply earn_rows_no_clash.
  - by eapply earn_rows_unique.
Qed.

Lemma accrual_updates st day ds db ins :
  economy_ok db → earn_rows st day ds db = Ok ins → accrual_in_range day db ins →
  is_ok (mapR (update_balance (balance_changes (day_delta day db ins) (day_shortfall day db ins))) (db_players db)) = true.
Proof.
  intros Hok Hins Hr. apply mapR_ok. intros pl Hpl.
  pose proof (day_changes_credit st day ds db ins pl Hok Hins Hpl) as Hc.
  pose proof (air_balances _ _ _ Hr pl Hpl). unfold update_balance, credit in *.
  destruct (map_get _ (pl_id pl)); [|done]. simpl in Hc. unfold checked_balance, int4_ok. rewrite Hc.
  rewrite (proj2 (Z.leb_le _ _)), (proj2 (Z.ltb_lt _ _)), (proj2 (Z.ltb_ge _ _)) by lia. done.
Qed.

Lemma forgiveness_rows_ok st day ds db ins r :
  economy_ok db → earn_rows st day ds db = Ok ins → accrual_in_range day db ins → r ∈ forgiveness_rows day ds db ins →
  int4_ok (bt_amount r) = true ∧ bt_amount r ≠ 0 ∧ bt_player r ∈ pl_id <$> db_players db.
Proof.
  intros Hok Hins Hr (kv & -> & Hkv)%list_elem_of_fmap. pose proof (air_shortfall _ _ _ Hr kv Hkv).
  apply list_elem_of_omap in Hkv as (pl & Hpl & Hs). destruct kv as [k v]. apply shortfall_of_key in Hs as [-> Hv]. simpl in *.
  unfold int4_ok. rewrite (proj2 (Z.leb_le _ _)), (proj2 (Z.ltb_lt _ _)) by lia.
  split; [done|]. split; [lia|]. by apply list_elem_of_fmap_2.
Qed.

Lemma forgiveness_clash st day ds db ins :
  earn_rows st day ds db = Ok ins → economy_ok db →
  ((∀ f s, f ∈ forgiveness_rows day ds db ins → s ∈ kept_rows day db ++ ins → same_index_key f s = false) ↔
  existsb (fun f => existsb (same_index_key f) (db_ledger db)) (forgiveness_rows day ds db ins) = false).
Proof.
  intros Hins Hok. rewrite <-not_true_iff_false, existsb_exists. split.
  - intros H (f & Hf%list_elem_of_In & (s & Hs%list_elem_of_In & Hk)%existsb_exists).
    rewrite H in Hk; [done..|]. apply elem_of_app. left. apply elem_of_jfilter. split; [|done].
    apply list_elem_of_fmap in Hf as (kv & -> & _). apply same_index_key_eq in Hk as (_ & Ht & _). simpl in Ht.
    unfold accrual_row. rewrite <-Ht, (bool_decide_false (adjust ∈ ACCRUAL_TX_TYPES)) by (unfold ACCRUAL_TX_TYPES; set_solver).
    by rewrite andb_false_r.
  - intros H f s Hf [Hs|Hs]%elem_of_app.
    + apply not_true_iff_false. intros Hk. apply H. exists f. split; [by apply list_elem_of_In|].
      apply existsb_exists. exists s. split; [|done]. apply list_elem_of_In. by apply elem_of_jfilter in Hs as [_ ?].
    + rewrite same_index_key_sym. by eapply earn_rows_no_adjust.
Qed.

Lemma forgiveness_unique day ds db ins : economy_ok db → unique_index (forgiveness_rows day ds db ins).
Proof.
  intros Hok. apply (unique_index_keys bt_player); [by intros r s [? _]%same_index_key_eq|].
  unfold forgiveness_rows. rewrite <-list_fmap_compose. by apply day_shortfall_ok.
Qed.

Lemma accrual_outcome st day ds db ins :
  economy_ok db → earn_rows st day ds db = Ok ins → accrual_in_range day db ins →
  if existsb (fun f => existsb (same_index_key f) (db_ledger db)) (forgiveness_rows day ds db ins)
  then accrue_ledger st day ds db = Throw unique_violation
  else is_ok (accrue_ledger st day ds db) = true.
Proof.
  intros Hok Hins Hr. pose proof (forgiveness_clash st day ds db ins Hins Hok) as Hclash.
  rewrite accrue_ledger_eq, Hins. cbn [result_bind]. rewrite (accrual_inserts st day ds) by done. cbn [result_bind]. cbv zeta.
  change (delta_by_player _ _ _) with (day_delta day db ins). cbn [db_players set_ledger].
  change (shortfall_by_player _ _) with (day_shortfall day db ins).
  change (adjust_row day (ds * us_per_sec) <$> day_shortfall day db ins) with (forgiveness_rows day ds db ins).
  set (db1 := set_ledger (kept_rows day db ++ ins) db).
  assert (∀ r, r ∈ forgiveness_rows day ds db ins →
    int4_ok (bt_amount r) = true ∧ bt_amount r ≠ 0 ∧ bt_player r ∈ pl_id <$> db_players db1) as Hrows.
  { intros r Hin. exact (forgiveness_rows_ok st day ds db ins r Hok Hins Hr Hin). }
  pose proof (insert_bonuses_ok_iff (forgiveness_rows day ds db ins) db1) as Hiff.
  destruct (existsb _ _) eqn:E.
  - destruct (insert_bonuses_error _ _ Hrows) as [Hi| ->]; [|done].
    apply Hiff in Hi as (_ & Hc & _). by apply Hclash in Hc.
  - rewrite insert_bonuses_Ok; [|apply Hiff; split; [done|split; [by apply Hclash|by apply forgiveness_unique]]].
    cbn [result_bind db_players set_ledger]. unfold db1. cbn [db_players set_ledger].
    pose proof (accrual_updates st day ds db ins Hok Hins Hr) as Hu. by destruct (mapR _ _).
Qed.

(** Running it again finds its own rows and changes nothing. *)
Section Rerun.
Context (st : SettingsRow) (day : jstr) (ds : Z) (db db' : economy_db) (res : AccrueDailyBonusesResult).
Context (Hok : economy_ok db) (Hrun : accrue_ledger st day ds db = Ok (db', res)).

Lemma rerun_rows ins :
  earn_rows st day ds db = Ok ins →
  db_ledger db' = kept_rows day db ++ ins ++ forgiveness_rows day ds db ins → db_presence db' = db_presence db →
  removed_rows day db' = ins ∧ kept_rows day db' = kept_rows day db ++ forgiveness_rows day ds db ins.
Proof.
  intros Hins Hl Hp. unfold removed_rows, kept_rows. unfold day_players. rewrite Hp. fold (day_players day db).
  rewrite Hl, !jfilter_app. fold (kept_rows day db).
  assert (∀ r, r ∈ kept_rows day db → accrual_row day (day_players day db) r = false) as Hk.
  { intros r [Hr _]%elem_of_jfilter. by apply negb_true_iff in Hr. }
  assert (∀ r, r ∈ ins → accrual_row day (day_players day db) r = true) as Hi.
  { intros r Hr. by eapply earn_rows_accrual. }
  assert (∀ r, r ∈ forgiveness_rows day ds db ins → accrual_row day (day_players day db) r = false) as Hf.
  { intros r Hr. by eapply forgiveness_not_accrual. }
  split.
  - rewrite (jfilter_none _ (kept_rows day db)), (jfilter_all _ ins), (jfilter_none _ (forgiveness_rows day ds db ins)) by done.
    by rewrite app_nil_r.
  - rewrite (jfilter_all _ (kept_rows day db)), (jfilter_none _ ins), (jfilter_all _ (forgiveness_rows day ds db ins)); [done|..].
    + intros r Hr. by rewrite Hf.
    + intros r Hr. by rewrite Hi.
    + intros r Hr. by rewrite Hk.
Qed.

Lemma rerun_no_delta ins p :
  earn_rows st day ds db' = Ok ins → removed_rows day db' = ins → credit (day_delta day db' ins) p = 0.
Proof. intros Hins Hr. rewrite (day_delta_credit st day ds) by done. rewrite Hr. lia. Qed.

Lemma rerun_no_shortfall ins :
  (∀ p, credit (day_delta day db' ins) p = 0) → day_shortfall day db' ins = [].
Proof.
  intros H. unfold day_shortfall, shortfall_by_player. induction (db_players db') as [|pl ps IH]; [done|].
  cbn [omap list_omap]. unfold shortfall_of. rewrite map_has_negative by apply delta_ok. rewrite H. exact IH.
Qed.

Lemma rerun_no_changes ins :
  (∀ p, credit (day_delta day db' ins) p = 0) → balance_changes (day_delta day db' ins) [] = [].
Proof.
  intros H. apply jfilter_none. intros kv (kv' & -> & Hin)%list_elem_of_fmap. destruct kv' as [k v].
  apply elem_of_map_get in Hin; [|apply delta_ok]. specialize (H k). unfold credit in H. rewrite Hin in H. simpl in *.
  subst. done.
Qed.

Lemma mapR_unchanged (ps : list player_row) : mapR (update_balance []) ps = Ok ps.
Proof. induction ps as [|pl ps IH]; [done|]. cbn [mapR]. rewrite IH. done. Qed.

Lemma rerun_ledger :
  ∃ db2 res2, accrue_ledger st day ds db' = Ok (db2, res2) ∧
    db_ledger db2 ≡ₚ db_ledger db' ∧ db2 = set_ledger (db_ledger db2) db' ∧
    ar_balanceDelta res2 = 0 ∧ ar_shortfallForgiven res2 = 0.
Proof.
  destruct (accrue_ledger_inv _ _ _ _ _ _ Hok Hrun) as (ins & Hins & Hpl & Hdb & Hrows & Hu & _).
  pose proof (accrue_ledger_ok _ _ _ _ _ _ Hok Hrun) as Hok'.
  assert (db_presence db' = db_presence db) as Hp by by rewrite Hdb.
  assert (db_ledger db' = kept_rows day db ++ ins ++ forgiveness_rows day ds db ins) as Hl by by rewrite Hdb.
  destruct (rerun_rows ins Hins Hl Hp) as [Hrem Hkept].
  assert (earn_rows st day ds db' = Ok ins) as Hins'. { unfold earn_rows. by rewrite Hp. }
  assert (insert_bonuses ins (set_ledger (kept_rows day db') db') = Ok (set_ledger (kept_rows day db' ++ ins) db')) as Hi.
  { etrans; [apply insert_bonuses_Ok|reflexivity]. apply insert_bonuses_ok_iff.
    pose proof Hrun as Hrun'. rewrite accrue_ledger_eq, Hins in Hrun'. cbn [result_bind] in Hrun'.
    destruct (insert_bonuses ins _) eqn:Ei; [|done]. clear Hrun'.
    assert (is_ok (insert_bonuses ins (set_ledger (kept_rows day db) db)) = true) as (Ha & _ & Hb)%insert_bonuses_ok_iff by by rewrite Ei.
    cbn [db_players set_ledger db_ledger] in *. rewrite Hkept.
    assert (pl_id <$> db_players db' = pl_id <$> db_players db) as ->.
    { eapply Forall2_ids; [|exact Hpl]. by intros ?? [? _]. }
    split; [done|]. split; [|done]. intros r s Hr [Hs|Hs]%elem_of_app; 
      [exact (earn_rows_no_clash st day ds db ins r s Hins Hr Hs)|exact (earn_rows_no_adjust st day ds db db ins ins r s Hins Hr Hs)]. }
  pose proof (fun p => rerun_no_delta ins p Hins' Hrem) as Hz.
  rewrite accrue_ledger_eq, Hins'. cbn [result_bind]. rewrite Hi. cbn [result_bind]. cbv zeta.
  change (delta_by_player _ _ _) with (day_delta day db' ins). cbn [db_players set_ledger].
  change (shortfall_by_player _ _) with (day_shortfall day db' ins).
  rewrite rerun_no_shortfall by done. cbn [fmap list_fmap insert_bonuses result_bind db_players set_ledger].
  rewrite rerun_no_changes by done. rewrite mapR_unchanged. cbn [result_bind].
  eexists _, _. split; [reflexivity|]. simpl. split; [|done].
  rewrite Hkept, Hl, <-app_assoc. apply Permutation_app_head, Permutation_app_comm.
Qed.
End Rerun.

Lemma write_seed_seconds_idemp day m pr : write_seed_seconds day m (write_seed_seconds day m pr) = write_seed_seconds day m pr.
Proof.
  unfold write_seed_seconds. rewrite <-list_fmap_compose. apply list_fmap_ext. intros i r _. unfold compose.
  destruct (decide (pd_day r = day)) as [E|E].
  - rewrite (bool_decide_true (pd_day r = day)) by done. cbn [pd_day pd_player pd_server pd_online pd_boost].
    by rewrite bool_decide_true.
  - by rewrite !(bool_decide_false (pd_day r = day)).
Qed.

Lemma seedByKey_same db db' ds now :
  db_settings db' = db_settings db → db_sessions db' = db_sessions db → db_events db' = db_events db →
  seedByKey db' ds now = seedByKey db ds now.
Proof.
  intros H1 H2 H3. unfold seedByKey, windowsByServer, seedingServerIds, day_intervals, day_transitions, pre_day_event,
    in_day_events, server_events. by rewrite H1, H2, H3.
Qed.

(** Accruing a day twice is accruing it once: the second run succeeds, leaves
    balances, presence and the ledger (as a set of rows) as they are, and
    reports no change. *)
Theorem accrual_idempotent day now db db' res :
  economy_ok db → accrueDailyBonuses day now db = Ok (db', res) →
  ∃ db2 res2, accrueDailyBonuses day now db' = Ok (db2, res2) ∧
    db_ledger db2 ≡ₚ db_ledger db' ∧ db2 = set_ledger (db_ledger db2) db' ∧
    ar_balanceDelta res2 = 0 ∧ ar_shortfallForgiven res2 = 0.
Proof.
  intros Hok H. unfold accrueDailyBonuses in *. destruct (date_parse _) as [ms|]; [|done]. cbv zeta in *.
  set (ds := ms / 1000) in *. destruct (existsb _ _) eqn:Ex; [done|].
  set (db0 := set_presence _ db) in *.
  assert (economy_ok db0) as Hok0 by by apply economy_ok_presence.
  assert (db_settings db' = db_settings db ∧ db_sessions db' = db_sessions db ∧ db_events db' = db_events db ∧
    db_presence db' = db_presence db0) as (H1 & H2 & H3 & H4).
  { destruct (db_settings db0) as [st|]; [destruct (economy_enabled st)|].
    - destruct (accrue_ledger_inv _ _ _ _ _ _ Hok0 H) as (ins & _ & _ & Hd & _). rewrite Hd. done.
    - by apply Ok_inj, (f_equal fst) in H; simpl in H; subst db'.
    - by apply Ok_inj, (f_equal fst) in H; simpl in H; subst db'. }
  rewrite (seedByKey_same db db') by done. rewrite Ex.
  assert (set_presence (write_seed_seconds day (seedByKey db ds now) (db_presence db')) db' = db') as ->.
  { rewrite H4. unfold db0. cbn [db_presence set_presence]. rewrite write_seed_seconds_idemp.
    destruct db'. cbn [db_presence] in H4. rewrite H4. done. }
  cbn [db_settings set_presence db0] in H. rewrite H1.
  destruct (db_settings db) as [st|]; [destruct (economy_enabled st)|].
  - by eapply rerun_ledger.
  - eexists _, _. split; [reflexivity|]. split; [done|]. split; [by destruct db'|done].
  - eexists _, _. split; [reflexivity|]. split; [done|]. split; [by destruct db'|done].
Qed.

(** * The seed seconds of a day *)

Lemma sorted_split {A} (f : A → Z) (a : Z) (l : list A) :
  StronglySorted (fun x y => f x ≤ f y) l →
  l = jfilter (fun x => f x <? a) l ++ jfilter (fun x => f x >=? a) l.
Proof.
  induction 1 as [|x l Hl IH Hx]; [done|]. cbn [jfilter List.filter]. rewrite Z.geb_leb.
  destruct (f x <? a) eqn:E1, (a <=? f x) eqn:E2; bool_to_Prop; try lia.
  - simpl. f_equal. exact IH.
  - rewrite Forall_forall in Hx. change (List.filter (fun x => f x <? a) l) with (jfilter (fun x => f x <? a) l).
    rewrite jfilter_none; [simpl; f_equal|].
    + symmetry. apply jfilter_all. intros y Hy%Hx. rewrite Z.geb_leb. apply Z.leb_le. lia.
    + intros y Hy%Hx. apply Z.ltb_ge. lia.
Qed.

Lemma server_events_sorted db s : StronglySorted (fun a b => ev_occurred a ≤ ev_occurred b) (server_events db s).
Proof.
  eapply StronglySorted_impl; [|apply jsort_sorted]; unfold cmp_le; intros; simpl in *; lia.
Qed.

Lemma epoch_floor_mono a b : a ≤ b → epoch_floor a ≤ epoch_floor b.
Proof. intros. unfold epoch_floor, us_per_sec. apply Z.div_le_mono; lia. Qed.

Lemma epoch_floor_lt a n : a < n * us_per_sec ↔ epoch_floor a < n.
Proof. unfold epoch_floor, us_per_sec. split; intros; [apply Z.div_lt_upper_bound; lia|]. pose proof (Z.div_mod a 1000000). pose proof (Z.mod_pos_bound a 1000000). lia. Qed.

(** The history of a server: all its seeding events, by second. *)
Definition seeding_history (db : economy_db) (s : jstr) : list SeedingTransitionEvent := toTransition <$> server_events db s.

Lemma last_elem_of {A} (l : list A) x : last l = Some x → x ∈ l.
Proof. rewrite last_lookup. apply list_elem_of_lookup_2. Qed.

Lemma day_transitions_sorted db ds s : transitions_sorted (day_transitions db ds s).
Proof.
  unfold transitions_sorted, day_transitions.
  assert (StronglySorted (fun a b => atSec a ≤ atSec b) (toTransition <$> in_day_events db ds s)) as Hin.
  { eapply (StronglySorted_fmap (fun a b => ev_occurred a ≤ ev_occurred b)).
    - intros x y ?. simpl. by apply epoch_floor_mono.
    - apply StronglySorted_jfilter, server_events_sorted. }
  destruct (pre_day_event db ds s) as [e|] eqn:E; [|done]. constructor; [done|]. rewrite Forall_forall.
  intros tr (e' & -> & He')%list_elem_of_fmap. simpl. apply epoch_floor_mono.
  apply last_elem_of, elem_of_jfilter in E as [E _]. apply elem_of_jfilter in He' as [He' _].
  rewrite Z.geb_leb in He'. bool_to_Prop. lia.
Qed.

Lemma last_fmap_comm {A B} (f : A → B) l : last (f <$> l) = f <$> last l.
Proof. induction l as [|x [|y l] IH]; [done..|]. rewrite !fmap_cons in *. exact IH. Qed.

(** The day's transitions know as much of the day as the whole history. *)
Lemma day_transitions_history db ds s t :
  ds ≤ t < ds + DAY_SECONDS → seeding_at (day_transitions db ds s) t = seeding_at (seeding_history db s) t.
Proof.
  intros Ht. unfold seeding_at, seeding_history, day_transitions, pre_day_event, in_day_events.
  pose proof (server_events_sorted db s) as Hs. revert Hs. generalize (server_events db s). intros l Hs.
  set (pre := jfilter (fun e => ev_occurred e <? ds * us_per_sec) l).
  set (post := jfilter (fun e => ev_occurred e >=? ds * us_per_sec) l).
  assert (l = pre ++ post) as Hl by by apply sorted_split.
  assert (StronglySorted (fun a b => ev_occurred a ≤ ev_occurred b) post) as Hpost by by apply StronglySorted_jfilter.
  pose proof (sorted_split ev_occurred ((ds + DAY_SECONDS) * us_per_sec) post Hpost) as Hp.
  assert (jfilter (fun e => (ev_occurred e >=? ds * us_per_sec) && (ev_occurred e <? (ds + DAY_SECONDS) * us_per_sec)) l =
    jfilter (fun e => ev_occurred e <? (ds + DAY_SECONDS) * us_per_sec) post) as ->.
  { unfold post, jfilter. clear. induction l as [|e l IH]; simpl; [done|].
    destruct (ev_occurred e >=? ds * us_per_sec); simpl; rewrite IH; done. }
  rewrite Hl at 1. rewrite Hp at 2. rewrite !fmap_app, !seeding_from_app.
  rewrite (seeding_from_after _ (toTransition <$> jfilter (fun e => ev_occurred e >=? _) post)).
  2:{ intros tr (e & -> & [He _]%elem_of_jfilter)%list_elem_of_fmap. simpl. rewrite Z.geb_leb in He. bool_to_Prop.
      pose proof (proj2 (epoch_floor_lt (ev_occurred e) (ds + DAY_SECONDS))). lia. }
  f_equal. rewrite (seeding_from_before _ (toTransition <$> pre)).
  - rewrite last_fmap_comm. destruct (last pre) as [e|] eqn:El; simpl; [|done].
    unfold seeding_from. simpl. apply last_elem_of, elem_of_jfilter in El as [El _]. bool_to_Prop.
    apply epoch_floor_lt in El. rewrite (proj2 (Z.leb_le _ _)); [done|]. simpl. lia.
  - intros tr (e & -> & [He _]%elem_of_jfilter)%list_elem_of_fmap. simpl. bool_to_Prop. apply epoch_floor_lt in He. lia.
Qed.

Definition db_threshold (db : economy_db) : Z :=
  match db_settings db with Some st => seed_threshold st | None => DEFAULT_SEED_THRESHOLD end.

(** The seed seconds of one session, second by second: on a server with seeding
    events those at which its last event was [started], up to now; on any other
    those at which fewer than the threshold of sessions were open. *)
Definition seed_spec (db : economy_db) (ds now : Z) (i : SeedSessionInterval) : Z :=
  if bool_decide (serverId i ∈ seedingServerIds db ds)
  then seconds (fun t => (t <? now / 1000) && seeding_at (seeding_history db (serverId i)) t) (startSec i) (endSec i)
  else seconds (fun t => server_load (day_intervals db ds now) (serverId i) t <? db_threshold db) (startSec i) (endSec i).

Lemma map_get_pair_fmap {K} `{!EqDecision K} {V} (f : K → V) (l : list K) k :
  map_get ((fun s => (s, f s)) <$> l) k = if bool_decide (k ∈ l) then Some (f k) else None.
Proof.
  induction l as [|x l IH]; [done|]. rewrite fmap_cons. cbn [map_get]. destruct (decide (x = k)) as [->|Hne].
  - rewrite bool_decide_true by done. by rewrite bool_decide_true by left.
  - rewrite bool_decide_false, IH by done. by rewrite (bool_decide_ext (k ∈ x :: l) (k ∈ l)) by set_solver.
Qed.

Lemma zsum_map_credit {K} `{!EqDecision K} (m : list (K * Z)) k :
  map_ok m → zsum (fun kv => if bool_decide (kv.1 = k) then kv.2 else 0) m = credit m k.
Proof.
  unfold map_ok, credit. induction m as [|[k' v] m IH]; intros Hnd; [done|].
  apply NoDup_cons in Hnd as [Hk Hnd]. simpl. rewrite IH by done. case_bool_decide; subst; simpl; [|lia].
  rewrite (proj2 (map_get_None m k)) by done. simpl. lia.
Qed.

Lemma server_load_fallback intervals (keep : SeedSessionInterval → bool) server t :
  (∀ i, i ∈ intervals → serverId i = server → keep i = true) →
  server_load (jfilter keep intervals) server t = server_load intervals server t.
Proof.
  intros H. unfold server_load. f_equal. apply length_jfilter_jfilter. intros i Hi.
  case_bool_decide; simpl; [|done]. by rewrite H, andb_true_r.
Qed.

Lemma day_interval_range db ds now i :
  i ∈ day_intervals db ds now → ds ≤ startSec i ∧ endSec i ≤ ds + DAY_SECONDS.
Proof. intros (s & -> & _)%list_elem_of_fmap. simpl. lia. Qed.

Lemma windows_seconds db ds now i :
  i ∈ day_intervals db ds now → serverId i ∈ seedingServerIds db ds →
  seconds (in_windows (server_windows (windowsByServer db ds now) (serverId i))) (startSec i) (endSec i) = seed_spec db ds now i.
Proof.
  intros Hi Hs. unfold seed_spec. rewrite bool_decide_true by done. apply seconds_ext. intros t Ht.
  pose proof (day_interval_range _ _ _ _ Hi).
  unfold server_windows, windowsByServer. cbv zeta.
  rewrite (map_get_pair_fmap (fun s => computeSeedingWindows (day_transitions db ds s) ds _)), bool_decide_true by done.
  cbn [default id]. rewrite (proj2 (computeSeedingWindows_aux _ _ _ (day_transitions_sorted db ds (serverId i)))).
  rewrite day_transitions_history by lia. rewrite (proj2 (Z.leb_le ds t)) by lia. simpl. f_equal.
  destruct (t <? now / 1000) eqn:E; bool_to_Prop; [apply Z.ltb_lt|apply Z.ltb_ge]; lia.
Qed.

Lemma seedByKey_credit db ds now k :
  credit (seedByKey db ds now) k =
  zsum (fun i => if bool_decide (seed_key i = k) then seed_spec db ds now i else 0) (day_intervals db ds now).
Proof.
  unfold seedByKey. cbv zeta. rewrite (credit_foldl fst snd), zsum_map_credit by apply sweep_ok.
  rewrite sweep_exact_aux. fold (db_threshold db).
  unfold computeSeedSecondsWithinWindows.
  rewrite (withinWindows_credit _ _ _ _ ds (Z.min (ds + DAY_SECONDS) (now / 1000))).
  2:{ intros i [Hi _]%elem_of_jfilter. bool_to_Prop. unfold server_windows, windowsByServer. cbv zeta.
      rewrite (map_get_pair_fmap (fun s => computeSeedingWindows (day_transitions db ds s) ds _)), bool_decide_true by done.
      apply computeSeedingWindows_aux, day_transitions_sorted. }
  change (credit [] k) with 0. rewrite Z.add_0_l, !zsum_jfilter, <-zsum_add. apply zsum_ext. intros i Hi.
  destruct (decide (serverId i ∈ seedingServerIds db ds)) as [Hs|Hs].
  - rewrite bool_decide_true by done. rewrite (bool_decide_false (serverId i ∉ _)) by tauto.
    case_bool_decide; [|lia]. rewrite windows_seconds by done. lia.
  - rewrite bool_decide_false by done. rewrite (bool_decide_true (serverId i ∉ _)) by done.
    case_bool_decide; [|lia]. unfold seed_spec. rewrite bool_decide_false by done.
    rewrite Z.add_0_l. apply seconds_ext. intros t _. f_equal. apply server_load_fallback.
    intros j _ Hj. apply bool_decide_eq_true. by rewrite Hj.
Qed.

(** ** Written to the presence rows *)

(** Ids as the database has them (UUIDs): not empty, without the separator. *)
Definition id_ok (s : jstr) : Prop := s ≠ [] ∧ 124 ∉ s.

Definition key_ok (k : jstr) : Prop := ∃ p s, id_ok p ∧ id_ok s ∧ k = p ++ 124 :: s.

Lemma find_seed_row m p s :
  map_ok m → (∀ k, k ∈ map_keys m → key_ok k) → id_ok p → id_ok s →
  default 0 (snd <$> List.find (fun u => bool_decide (u.1 = (p, s))) (omap seed_row m)) = credit m (p ++ 124 :: s).
Proof.
  intros Hm Hk Hp Hs. unfold credit. induction m as [|[k v] m IH]; [done|].
  unfold map_ok in Hm. apply NoDup_cons in Hm as [Hn Hm]. cbn [omap list_omap map_get].
  destruct (Hk k ltac:(left)) as (p' & s' & [Hp1 Hp2] & [Hs1 Hs2] & ->).
  assert (seed_row (p' ++ 124 :: s', v) = Some (p', s', v)) as ->.
  { unfold seed_row. cbn [fst snd]. rewrite split_on_app, split_on_no_sep by done.
    rewrite !bool_decide_false by done. done. }
  cbn [List.find fst]. destruct (decide ((p', s') = (p, s))) as [Heq|Hne].
  - injection Heq as -> ->. rewrite !bool_decide_true by done. done.
  - rewrite (bool_decide_false ((p', s') = (p, s))) by done.
    rewrite bool_decide_false; [apply IH; [done|]; intros; apply Hk; by right|].
    intros Heq. destruct Hp. apply separator_inj in Heq as [-> ->]; done.
Qed.

Lemma seedByKey_keys db ds now :
  (∀ s, s ∈ db_sessions db → id_ok (ps_player s) ∧ id_ok (ps_server s)) →
  ∀ k, k ∈ map_keys (seedByKey db ds now) → key_ok k.
Proof.
  intros Hids.
  assert (∀ i, i ∈ day_intervals db ds now → key_ok (seed_key i)) as Hi.
  { intros i (s & -> & [_ Hs]%elem_of_jfilter)%list_elem_of_fmap. destruct (Hids s Hs).
    exists (ps_player s), (ps_server s). done. }
  intros k. unfold seedByKey. cbv zeta. rewrite (credit_foldl_keys fst snd). intros [Hk|(kv & Hkv & <-)].
  - eapply within_keys_in; [|exact Hk]. intros i [_ ?]%elem_of_jfilter. by apply Hi.
  - eapply sweep_keys_in; [|by apply list_elem_of_fmap_2]. intros i [_ ?]%elem_of_jfilter. by apply Hi.
Qed.

(** After an accrual, with the economy enabled or not, the seed seconds of
    every player and server on the day are the seconds of the player's sessions
    there, counted one by one, at which the server was seeding: by its events
    where it has any, by the number of open sessions where it has none. *)
Theorem seed_seconds_exact day now db db' res ms r :
  economy_ok db →
  (∀ s, s ∈ db_sessions db → id_ok (ps_player s) ∧ id_ok (ps_server s)) →
  (∀ q, q ∈ db_presence db → id_ok (pd_player q) ∧ id_ok (pd_server q)) →
  date_parse (day ++ js "T00:00:00.000Z") = Some ms →
  accrueDailyBonuses day now db = Ok (db', res) → r ∈ db_presence db' → pd_day r = day →
  pd_seed r = zsum (fun i => if bool_decide (playerId i = pd_player r ∧ serverId i = pd_server r)
                             then seed_spec db (ms / 1000) now i else 0) (day_intervals db (ms / 1000) now).
Proof.
  intros Hok Hids Hpids Hms Hrun Hr Hday. set (ds := ms / 1000).
  assert (db_presence db' = write_seed_seconds day (seedByKey db ds now) (db_presence db)) as Hpr.
  { unfold accrueDailyBonuses in Hrun. rewrite Hms in Hrun. cbv zeta in Hrun. fold ds in Hrun.
    destruct (existsb _ _); [done|]. set (db0 := set_presence _ db) in *.
    assert (economy_ok db0) as Hok0 by by apply economy_ok_presence.
    destruct (db_settings db0) as [st|]; [destruct (economy_enabled st)|].
    - destruct (accrue_ledger_inv _ _ _ _ _ _ Hok0 Hrun) as (ins & _ & _ & Hd & _). by rewrite Hd.
    - by apply Ok_inj, (f_equal fst) in Hrun; simpl in Hrun; subst db'.
    - by apply Ok_inj, (f_equal fst) in Hrun; simpl in Hrun; subst db'. }
  rewrite Hpr in Hr. apply list_elem_of_fmap in Hr as (q & Hq & Hin).
  destruct (Hpids q Hin) as [Hqp Hqs].
  destruct (decide (pd_day q = day)) as [Eq|Eq]; [rewrite bool_decide_true in Hq by done|rewrite bool_decide_false in Hq by done; congruence].
  subst r. cbn [pd_seed pd_player pd_server].
  rewrite find_seed_row; [|apply credit_foldl_ok, within_ok|by apply seedByKey_keys|done..].
  rewrite seedByKey_credit. apply zsum_ext. intros i Hi.
  apply list_elem_of_fmap in Hi as (s & -> & [_ Hs]%elem_of_jfilter). destruct (Hids s Hs) as [[_ Hsp] _]. destruct Hqp as [_ Hqp].
  unfold seed_key. cbn [playerId serverId session_interval].
  rewrite (bool_decide_ext (ps_player s ++ 124 :: ps_server s = pd_player q ++ 124 :: pd_server q)
    (ps_player s = pd_player q ∧ ps_server s = pd_server q)); [done|].
  split; [intros H; by apply separator_inj in H|intros [-> ->]; done].
Qed.

(** * The accrual and the grant, as promised *)

(** With the economy enabled, a successful accrual leaves exactly the rows
    the day now earns as the day's earnings of the players present, keeps every
    other row, adds a forgiveness row for exactly the part a balance cannot
    cover, and moves each balance by the difference, stopping at zero. *)
Theorem accrual_exact day now db db' res st :
  economy_ok db → db_settings db = Some st → economy_enabled st = true →
  accrueDailyBonuses day now db = Ok (db', res) →
  ∃ ms ins, date_parse (day ++ js "T00:00:00.000Z") = Some ms ∧
    let db0 := set_presence (db_presence db') db in
    earn_rows st day (ms / 1000) db0 = Ok ins ∧
    jfilter (accrual_row day (day_players day db0)) (db_ledger db') = ins ∧
    jfilter (fun r => negb (accrual_row day (day_players day db0) r)) (db_ledger db') =
      kept_rows day db0 ++ forgiveness_rows day (ms / 1000) db0 ins ∧
    Forall2 (accrued_player day db0 ins) (db_players db) (db_players db') ∧
    ar_shortfallForgiven res = zsum (fun pl => Z.max 0 (- (pl_balance pl + ledger_sum ins (pl_id pl)
      - ledger_sum (removed_rows day db0) (pl_id pl)))) (db_players db).
Proof.
  intros Hok Hst Hen H. unfold accrueDailyBonuses in H. destruct (date_parse _) as [ms|]; [|done]. cbv zeta in H.
  destruct (existsb _ _); [done|]. set (db1 := set_presence _ db) in H.
  assert (economy_ok db1) as Hok1 by by apply economy_ok_presence.
  change (db_settings db1) with (db_settings db) in H. rewrite Hst, Hen in H.
  destruct (accrue_ledger_inv _ _ _ _ _ _ Hok1 H) as (ins & Hins & Hpl & Hdb & _ & _ & Hsf).
  assert (set_presence (db_presence db') db = db1) as Hdb1 by by rewrite Hdb.
  exists ms, ins. split; [done|]. rewrite Hdb1. cbv zeta. split; [done|].
  destruct (rerun_rows st day (ms / 1000) db1 db' ins Hins) as [H1 H2]; [by rewrite Hdb|by rewrite Hdb|].
  assert (day_players day db' = day_players day db1) as Hdp by (unfold day_players; by rewrite Hdb).
  unfold removed_rows, kept_rows in H1, H2. rewrite Hdp in H1, H2.
  split; [exact H1|]. split; [exact H2|]. split; [exact Hpl|].
  rewrite Hsf. change (db_players db) with (db_players db1). pose proof (eo_players _ Hok1) as Hnd.
  transitivity (zsum (fun pl => credit (day_shortfall day db1 ins) (pl_id pl)) (db_players db1)).
  2:{ apply zsum_ext. intros pl Hin. by rewrite (day_shortfall_credit st day (ms / 1000)). }
  rewrite <-(zsum_fmap pl_id (fun p => credit (day_shortfall day db1 ins) p)).
  rewrite (zsum_ext _ (fun p => zsum (fun kv => if bool_decide (kv.1 = p) then kv.2 else 0) (day_shortfall day db1 ins))).
  2:{ intros p _. symmetry. by apply zsum_map_credit, day_shortfall_ok. }
  rewrite zsum_swap. apply zsum_ext. intros kv Hkv.
  rewrite (zsum_ext _ (fun p => if bool_decide (p = kv.1) then (fun _ => kv.2) p else 0)).
  2:{ intros p _. by rewrite (bool_decide_ext (kv.1 = p) (p = kv.1)). }
  rewrite (zsum_single (fun _ => kv.2)); [done|done|].
  apply list_elem_of_omap in Hkv as (pl & Hin & Hs). destruct kv as [k v]. apply shortfall_of_key in Hs as [-> _].
  exact (list_elem_of_fmap_2 pl_id _ _ Hin).
Qed.

(** An accrual whose amounts fit their columns succeeds, unless a player who
    needs forgiveness for the day has been forgiven for it before: the second
    compensating row collides with the first on the unique index and the whole
    day's transaction fails. *)
Theorem accrual_fails_on_second_forgiveness st day ds db ins :
  economy_ok db → earn_rows st day ds db = Ok ins → accrual_in_range day db ins →
  if existsb (fun f => existsb (same_index_key f) (db_ledger db)) (forgiveness_rows day ds db ins)
  then accrue_ledger st day ds db = Throw unique_violation
  else is_ok (accrue_ledger st day ds db) = true.
Proof. apply accrual_outcome. Qed.

Lemma find_player_fmap db db' p q (f : player_row → player_row) :
  Forall2 (fun pl pl' => if bool_decide (pl_id pl = p) then pl' = f pl ∧ 0 ≤ pl_balance (f pl) < 2 ^ 31 else pl' = pl)
    (db_players db) (db_players db') →
  (∀ x, pl_id (f x) = pl_id x) →
  find_player db' q = (if bool_decide (q = p) then f <$> find_player db q else find_player db q).
Proof.
  unfold find_player. intros H Hf. induction H as [|x x' l l' Hx _ IH]; cbn [List.find]; [by case_match|].
  destruct (decide (pl_id x = p)) as [Ep|Ep].
  - rewrite bool_decide_true in Hx by done. destruct Hx as [-> _]. rewrite Hf.
    destruct (decide (pl_id x = q)) as [Eq|Eq].
    + rewrite !(bool_decide_true (pl_id x = q)) by done. by rewrite bool_decide_true by congruence.
    + by rewrite !(bool_decide_false (pl_id x = q)).
  - rewrite bool_decide_false in Hx by done. subst x'. destruct (decide (pl_id x = q)) as [Eq|Eq].
    + rewrite !(bool_decide_true (pl_id x = q)) by done. by rewrite bool_decide_false by congruence.
    + by rewrite !(bool_decide_false (pl_id x = q)).
Qed.

Lemma grant_exact_aux clock input db db' res pl :
  find_player db (g_playerId input) = Some pl →
  applyVipGrant clock input db = Ok (db', res) →
  let tier := g_tier input in
  match res with
  | grant_ok balance role expires tx =>
      role = tier_roleId tier ∧ balance = pl_balance pl - tier_price tier ∧ 0 ≤ balance ∧
      ((pl_role pl = None ∧ expires = g_now input + tier_days tier * DAY_MS) ∨
       (∃ e, pl_role pl = Some role ∧ pl_role_expires pl = Some e ∧
             expires = Z.max (g_now input) e + tier_days tier * DAY_MS)) ∧
      tx = (if tier_price tier =? 0 then None else
        Some (MkBonus (g_playerId input) (- tier_price tier) spend (Some (g_referenceType input))
                (Some (g_referenceId input)) None (g_actor input) clock)) ∧
      db_ledger db' = db_ledger db ++ option_list tx ∧
      (∀ q, find_player db' q = if bool_decide (q = g_playerId input)
         then Some (MkPlayer (g_playerId input) balance (Some role) (Some expires)) else find_player db q)
  | grant_player_not_found => False
  | grant_refused plan => db' = db ∧
      match plan with
      | plan_insufficient_balance b => b = pl_balance pl ∧ b < tier_price tier
      | plan_role_conflict => ∃ r, pl_role pl = Some r ∧ r ≠ tier_roleId tier
      | plan_role_permanent => pl_role pl = Some (tier_roleId tier) ∧ pl_role_expires pl = None
      | plan_ok _ _ _ _ => False
      end
  end.
Proof.
  intros Hf. unfold applyVipGrant. rewrite Hf. cbv zeta.
  destruct (planVipGrant _ _ _ _ _) as [price next role expires|b| |] eqn:Ep; unfold planVipGrant in Ep.
  - intros H. result_inv H. apply Ok_inj in H. apply (f_equal fst) in H as Hdb. apply (f_equal snd) in H as Hres.
    simpl in Hdb, Hres. subst a0 res. clear H.
    assert (price = tier_price (g_tier input) ∧ next = pl_balance pl - price ∧ 0 ≤ next ∧ role = tier_roleId (g_tier input) ∧
      ((pl_role pl = None ∧ expires = g_now input + tier_days (g_tier input) * DAY_MS) ∨
       (∃ e, pl_role pl = Some role ∧ pl_role_expires pl = Some e ∧
             expires = Z.max (g_now input) e + tier_days (g_tier input) * DAY_MS))) as (-> & -> & Hpos & -> & Hexp).
    { clear E E0. destruct (_ <? 0) eqn:E1 in Ep; [done|].
      destruct (decide (pl_role pl = Some (tier_roleId (g_tier input)))) as [Er|Er].
      - rewrite (bool_decide_true (pl_role pl = Some _)) in Ep by done. cbn [negb andb] in Ep. rewrite andb_false_r in Ep.
        destruct (pl_role_expires pl) as [e|]; [|rewrite bool_decide_true in Ep by done; done].
        rewrite bool_decide_false in Ep by done. injection Ep as <- <- <- <-. bool_to_Prop.
        repeat split; [done|]. right. exists e. rewrite Z.gtb_ltb. repeat split; [done|].
        destruct (g_now input <? e) eqn:?; bool_to_Prop; lia.
      - rewrite (bool_decide_false (pl_role pl = Some _)) in Ep by done. cbn [negb andb] in Ep. rewrite andb_true_r in Ep.
        destruct (pl_role pl) as [r|]; [rewrite bool_decide_true in Ep by done; done|].
        rewrite bool_decide_false in Ep by (intros []; done). injection Ep as <- <- <- Hx. bool_to_Prop.
        repeat split; [done|]. left. split; [done|]. rewrite <-Hx. by destruct (pl_role_expires pl). }
    pose proof (find_player_Some _ _ _ Hf) as [_ Hid].
    apply update_player_inv in E0 as [Hdb Hps].
    destruct (tier_price (g_tier input) =? 0) eqn:Ez; cbn [negb] in E.
    + apply Ok_inj in E as <-. cbn [fst snd] in *. repeat split; try done.
      * by rewrite Hdb, app_nil_r.
      * intros q. rewrite (find_player_fmap _ _ _ q _ Hps) by done. destruct (decide (q = g_playerId input)) as [->|Hq];
          [|by rewrite !(bool_decide_false (q = _))]. rewrite !bool_decide_true, Hf by done. simpl. by rewrite Hid.
    + result_inv E. apply Ok_inj in E as <-. cbn [fst snd] in *. apply insert_bonus_inv in E0 as (-> & _).
      repeat split; try done.
      * by rewrite Hdb.
      * intros q. rewrite (find_player_fmap _ _ _ q _ Hps) by done. cbn [db_players set_ledger].
        change (find_player (set_ledger _ db) q) with (find_player db q).
        destruct (decide (q = g_playerId input)) as [->|Hq];
          [|by rewrite !(bool_decide_false (q = _))]. rewrite !bool_decide_true, Hf by done. simpl. by rewrite Hid.
  - intros [= <- <-]. split; [done|]. repeat case_match; simplify_eq. bool_to_Prop. lia.
  - intros [= <- <-]. split; [done|]. repeat case_match; simplify_eq. bool_to_Prop.
    destruct (pl_role pl) as [r|]; [|done]. exists r. split; [done|]. congruence.
  - intros [= <- <-]. split; [done|]. repeat case_match; simplify_eq. bool_to_Prop. done.
Qed.

(** A grant charges the price once, extends the role from the later of now
    and its current expiry, touches nobody else, and never overdraws; every
    refusal leaves the database as it was, for the reason it names. *)
Theorem grant_exact clock input db db' res pl :
  find_player db (g_playerId input) = Some pl →
  applyVipGrant clock input db = Ok (db', res) →
  let tier := g_tier input in
  match res with
  | grant_ok balance role expires tx =>
      role = tier_roleId tier ∧ balance = pl_balance pl - tier_price tier ∧ 0 ≤ balance ∧
      ((pl_role pl = None ∧ expires = g_now input + tier_days tier * DAY_MS) ∨
       (∃ e, pl_role pl = Some role ∧ pl_role_expires pl = Some e ∧
             expires = Z.max (g_now input) e + tier_days tier * DAY_MS)) ∧
      tx = (if tier_price tier =? 0 then None else
        Some (MkBonus (g_playerId input) (- tier_price tier) spend (Some (g_referenceType input))
                (Some (g_referenceId input)) None (g_actor input) clock)) ∧
      db_ledger db' = db_ledger db ++ option_list tx ∧
      (∀ q, find_player db' q = if bool_decide (q = g_playerId input)
         then Some (MkPlayer (g_playerId input) balance (Some role) (Some expires)) else find_player db q)
  | grant_player_not_found => False
  | grant_refused plan => db' = db ∧
      match plan with
      | plan_insufficient_balance b => b = pl_balance pl ∧ b < tier_price tier
      | plan_role_conflict => ∃ r, pl_role pl = Some r ∧ r ≠ tier_roleId tier
      | plan_role_permanent => pl_role pl = Some (tier_roleId tier) ∧ pl_role_expires pl = None
      | plan_ok _ _ _ _ => False
      end
  end.
Proof. apply grant_exact_aux. Qed.

(** * A worked day *)

Definition ex_day : jstr := js "2024-01-02".
Definition ex_now : Z := 1704240000000.
Definition ex_settings (k : Z) : SettingsRow := MkSettings (of_int k) (of_int 0) (of_int 3) 40 true.
Definition ex_presence : list presence_row :=
  [MkPresence ex_day (js "p1") (js "s1") 3600 0 0; MkPresence ex_day (js "p2") (js "s1") 1800 0 0].
(** Player p2 sits on a server that seeds from 00:00:10 to 00:10:00. *)
Definition ex_sessions : list session_row :=
  [MkSession (js "p2") (js "s1") 1704153600000000 (Some 1704157200000000) None].
Definition ex_events : list event_row :=
  [MkEvent (Some (js "s1")) (js "server.seeding_started") 1704153610000000;
   MkEvent (Some (js "s1")) (js "server.seeding_ended") 1704154200000000].
Definition ex_start : list econ_op :=
  [op_new_player (js "p1"); op_new_player (js "p2"); op_settings (ex_settings 100); op_presence ex_presence;
   op_sessions ex_sessions; op_events ex_events].
Definition ex_grant : ApplyVipGrantInput :=
  MkGrant (js "p1") (MkTier (js "vip") 30 100) (Some (js "p1")) (js "purchase") (js "tier") ex_now.
Definition ex_db : economy_db := econ_run ex_start empty_db.
(** The same day after p1 has spent what it earned and the rate was lowered. *)
Definition ex_lowered : economy_db :=
  econ_run (ex_start ++ [op_accrue ex_day ex_now; op_grant 0 ex_grant; op_settings (ex_settings 90)]) empty_db.

Lemma run_ok ops : economy_ok (econ_run ops empty_db).
Proof.
  unfold econ_run. generalize empty_db_ok. generalize empty_db. induction ops as [|op ops IH]; intros db H; simpl; [done|].
  by apply IH, econ_step_ok.
Qed.

Definition accrued_db (db : economy_db) : economy_db :=
  match accrueDailyBonuses ex_day ex_now db with Ok (db', _) => db' | Throw _ => db end.
Definition accrued_res (db : economy_db) : AccrueDailyBonusesResult :=
  match accrueDailyBonuses ex_day ex_now db with Ok (_, res) => res | Throw _ => MkAccrued false 0 0 0 0 end.

Lemma accrued_eq db : is_ok (accrueDailyBonuses ex_day ex_now db) = true →
  accrueDailyBonuses ex_day ex_now db = Ok (accrued_db db, accrued_res db).
Proof. unfold accrued_db, accrued_res. by destruct (accrueDailyBonuses _ _ _) as [[]|]. Qed.

Example ex_accrual : pl_balance <$> db_players (accrued_db ex_db) = [100; 50] ∧
  pd_seed <$> db_presence (accrued_db ex_db) = [0; 590].
Proof. vm_compute. done. Qed.

Example ex_forgiven : pl_balance <$> db_players (accrued_db ex_lowered) = [0; 45] ∧
  accrued_res ex_lowered = MkAccrued true 2 2 (-5) 10.
Proof. vm_compute. done. Qed.

Lemma accrual_idempotent_witness :
  ∃ db2 res2, accrueDailyBonuses ex_day ex_now (accrued_db ex_lowered) = Ok (db2, res2) ∧
    db_ledger db2 ≡ₚ db_ledger (accrued_db ex_lowered) ∧ db2 = set_ledger (db_ledger db2) (accrued_db ex_lowered) ∧
    ar_balanceDelta res2 = 0 ∧ ar_shortfallForgiven res2 = 0.
Proof.
  apply (accrual_idempotent ex_day ex_now ex_lowered (accrued_db ex_lowered) (accrued_res ex_lowered)).
  - apply run_ok.
  - apply accrued_eq. vm_compute. reflexivity.
Defined.

Lemma accrual_exact_witness :
  is_ok (accrueDailyBonuses ex_day ex_now ex_lowered) = true ∧
  Forall2 (fun pl pl' => pl_id pl' = pl_id pl ∧ 0 ≤ pl_balance pl') (db_players ex_lowered) (db_players (accrued_db ex_lowered)).
Proof.
  assert (is_ok (accrueDailyBonuses ex_day ex_now ex_lowered) = true) as Hr by (vm_compute; reflexivity).
  split; [exact Hr|].
  destruct (accrual_exact ex_day ex_now ex_lowered (accrued_db ex_lowered) (accrued_res ex_lowered) (ex_settings 90))
    as (ms & ins & _ & _ & _ & _ & H & _).
  - apply run_ok.
  - vm_compute. reflexivity.
  - reflexivity.
  - apply accrued_eq. exact Hr.
  - eapply Forall2_impl; [exact H|]. intros pl pl' (Hid & _ & _ & -> & _). split; [exact Hid|]. apply Z.le_max_l.
Defined.

Lemma seed_seconds_exact_witness :
  is_ok (accrueDailyBonuses ex_day ex_now ex_db) = true ∧
  590 = zsum (fun i => if bool_decide (playerId i = js "p2" ∧ serverId i = js "s1")
              then seed_spec ex_db 1704153600 ex_now i else 0) (day_intervals ex_db 1704153600 ex_now).
Proof.
  assert (is_ok (accrueDailyBonuses ex_day ex_now ex_db) = true) as Hr by (vm_compute; reflexivity).
  split; [exact Hr|].
  assert (id_ok (js "p1") ∧ id_ok (js "p2") ∧ id_ok (js "s1")) as (H1 & H2 & H3).
  { unfold id_ok. repeat split; vm_compute; [done|intros [[=]|[[=]|[]%not_elem_of_nil]%elem_of_cons]%elem_of_cons|done|intros [[=]|[[=]|[]%not_elem_of_nil]%elem_of_cons]%elem_of_cons|done|intros [[=]|[[=]|[]%not_elem_of_nil]%elem_of_cons]%elem_of_cons]. }
  apply (seed_seconds_exact ex_day ex_now ex_db (accrued_db ex_db) (accrued_res ex_db) 1704153600000
    (MkPresence ex_day (js "p2") (js "s1") 1800 0 590)).
  - apply run_ok.
  - change (db_sessions ex_db) with ex_sessions. clear Hr. intros s [->|[]%not_elem_of_nil]%elem_of_cons.
    exact (conj H2 H3).
  - change (db_presence ex_db) with ex_presence. clear Hr.
    intros q [->|[->|[]%not_elem_of_nil]%elem_of_cons]%elem_of_cons; [exact (conj H1 H3)|exact (conj H2 H3)].
  - vm_compute. reflexivity.
  - apply accrued_eq. exact Hr.
  - assert (db_presence (accrued_db ex_db) = [MkPresence ex_day (js "p1") (js "s1") 3600 0 0;
      MkPresence ex_day (js "p2") (js "s1") 1800 0 590]) as -> by (vm_compute; reflexivity).
    right. left.
  - reflexivity.
Defined.

(** The rows the lowered day earns. *)
Definition ex_ins : list bonus_row :=
  match earn_rows (ex_settings 90) ex_day 1704153600 ex_lowered with Ok ins => ins | Throw _ => [] end.

Lemma accrual_fails_on_second_forgiveness_witness :
  earn_rows (ex_settings 90) ex_day 1704153600 ex_lowered = Ok ex_ins ∧
  is_ok (accrue_ledger (ex_settings 90) ex_day 1704153600 ex_lowered) = true.
Proof.
  assert (earn_rows (ex_settings 90) ex_day 1704153600 ex_lowered = Ok ex_ins) as Hins by (vm_compute; reflexivity).
  split; [exact Hins|].
  assert (accrual_in_range ex_day ex_lowered ex_ins) as Hr.
  { split.
    - intros p. assert (day_players ex_day ex_lowered = [js "p1"; js "p2"]) as -> by (vm_compute; reflexivity).
      assert (pl_id <$> db_players ex_lowered = [js "p1"; js "p2"]) as -> by (vm_compute; reflexivity). intros Hp. exact Hp.
    - assert (bt_amount <$> ex_ins = [90; 45]) as Ha by (vm_compute; reflexivity). intros r Hin.
      apply (list_elem_of_fmap_2 bt_amount) in Hin. rewrite Ha in Hin.
      apply elem_of_cons in Hin as [->|[->|[]%not_elem_of_nil]%elem_of_cons]; (split; [reflexivity|discriminate]).
    - assert (Forall (fun pl => pl_balance pl + ledger_sum ex_ins (pl_id pl)
        - ledger_sum (removed_rows ex_day ex_lowered) (pl_id pl) < 2 ^ 31) (db_players ex_lowered)) as Hf
        by (apply (bool_decide_unpack _); vm_compute; reflexivity).
      intros pl Hpl. rewrite Forall_forall in Hf. exact (Hf pl Hpl).
    - assert (day_shortfall ex_day ex_lowered ex_ins = [(js "p1", 10)]) as -> by (vm_compute; reflexivity).
      intros kv ->%list_elem_of_singleton. reflexivity. }
  pose proof (accrual_fails_on_second_forgiveness (ex_settings 90) ex_day 1704153600 ex_lowered ex_ins (run_ok _) Hins Hr) as H.
  assert (existsb (fun f => existsb (same_index_key f) (db_ledger ex_lowered))
    (forgiveness_rows ex_day 1704153600 ex_lowered ex_ins) = false) as E by (vm_compute; reflexivity).
  rewrite E in H. exact H.
Defined.

Lemma grant_exact_witness :
  ∃ db' res, applyVipGrant 0 ex_grant (accrued_db ex_db) = Ok (db', res) ∧
    res = grant_ok 0 (js "vip") (ex_now + 30 * DAY_MS) (last (db_ledger db')) ∧
    (find_player db' (js "p2") = find_player (accrued_db ex_db) (js "p2")).
Proof.
  destruct (applyVipGrant 0 ex_grant (accrued_db ex_db)) as [[db' res]|] eqn:E; [|vm_compute in E; discriminate E].
  exists db', res. split; [reflexivity|].
  assert (find_player (accrued_db ex_db) (js "p1") = Some (MkPlayer (js "p1") 100 None None)) as Hf by (vm_compute; reflexivity).
  pose proof (grant_exact 0 ex_grant (accrued_db ex_db) db' res _ Hf E) as H.
  assert (res = grant_ok 0 (js "vip") (ex_now + 30 * DAY_MS) (last (db_ledger db'))) as Hres.
  { vm_compute in E. apply Ok_inj in E. injection E as <- <-. reflexivity. }
  split; [exact Hres|]. rewrite Hres in H. cbv zeta in H. destruct H as (_ & _ & _ & _ & _ & _ & Hq).
  rewrite Hq. reflexivity.
Defined.

(** Lowering the rate twice for a day whose earnings are already spent makes
    the day's accrual fail for good, for every player: the second forgiveness
    violates [bonus_transactions_accrual_idempotency_idx], the transaction
    rolls back, and a player who joined the day in between is paid nothing. *)
Theorem second_forgiveness_blocks_the_day :
  let lowered_twice := econ_run
    (ex_start ++ [op_accrue ex_day ex_now; op_grant 0 ex_grant; op_settings (ex_settings 90); op_accrue ex_day ex_now;
                  op_settings (ex_settings 80); op_new_player (js "p3");
                  op_presence (ex_presence ++ [MkPresence ex_day (js "p3") (js "s1") 7200 0 0])]) empty_db in
  accrueDailyBonuses ex_day ex_now lowered_twice = Throw unique_violation ∧
  find_player (econ_step (op_accrue ex_day ex_now) lowered_twice) (js "p3") = Some (MkPlayer (js "p3") 0 None None).
Proof. vm_compute. done. Qed.

(** * The days of the recompute window *)

(** [for (let ms = fromMs; ms <= toMs; ms += DAY_SECONDS * 1000)] *)
Fixpoint days_loop (fuel : nat) (ms toMs : Z) : list jstr :=
  match fuel with
  | O => []
  | S fuel => if ms <=? toMs then take 10 (to_iso_string ms) :: days_loop fuel (ms + DAY_SECONDS * 1000) toMs else []
  end.

(** The loop runs once per day, so the number of days is fuel enough. *)
Definition daysInWindow (fromDay toDay : jstr) : list jstr :=
  match date_parse (fromDay ++ js "T00:00:00.000Z"), date_parse (toDay ++ js "T00:00:00.000Z") with
  | Some fromMs, Some toMs =>
      if toMs <? fromMs then [] else days_loop (Z.to_nat ((toMs - fromMs) / DAY_MS + 2)) fromMs toMs
  | _, _ => []
  end.

Lemma days_loop_exact fuel ms toMs :
  ms ≤ toMs → (toMs - ms) / DAY_MS + 1 < Z.of_nat fuel →
  days_loop fuel ms toMs = (fun i => take 10 (to_iso_string (ms + i * DAY_MS))) <$> seqZ 0 ((toMs - ms) / DAY_MS + 1).
Proof.
  unfold DAY_MS. revert ms. induction fuel as [|fuel IH]; intros ms Hle Hf.
  { pose proof (Z.div_pos (toMs - ms) 86400000). lia. }
  cbn [days_loop]. rewrite (proj2 (Z.leb_le ms toMs)) by done. unfold DAY_SECONDS.
  pose proof (Z.div_pos (toMs - ms) 86400000) as Hpos.
  rewrite seqZ_cons by lia. rewrite fmap_cons. f_equal; [do 2 f_equal; lia|].
  destruct (decide (ms + 86400 * 1000 ≤ toMs)) as [Hn|Hn].
  - assert ((toMs - ms) / 86400000 = (toMs - (ms + 86400 * 1000)) / 86400000 + 1) as Hd.
    { rewrite <-(Z.div_add _ 1 86400000) by lia. f_equal. lia. }
    rewrite IH by lia. rewrite Hd. change (Z.succ 0) with (1 + 0). rewrite <-fmap_add_seqZ, <-list_fmap_compose.
    replace (Z.pred ((toMs - (ms + 86400 * 1000)) / 86400000 + 1 + 1)) with ((toMs - (ms + 86400 * 1000)) / 86400000 + 1) by lia.
    apply list_fmap_ext. intros i x _. unfold compose. do 2 f_equal. lia.
  - rewrite Z.div_small by lia. destruct fuel; [done|]. cbn [days_loop].
    rewrite (proj2 (Z.leb_gt _ _)) by lia. done.
Qed.

(** The loop over the recompute window ends and lists every UTC day from the
    first to the last, once each and in order. *)
Theorem daysInWindow_complete fromDay toDay f t :
  date_parse (fromDay ++ js "T00:00:00.000Z") = Some f → date_parse (toDay ++ js "T00:00:00.000Z") = Some t →
  daysInWindow fromDay toDay =
  if t <? f then [] else (fun i => take 10 (to_iso_string (f + i * DAY_MS))) <$> seqZ 0 ((t - f) / DAY_MS + 1).
Proof.
  intros Hf Ht. unfold daysInWindow. rewrite Hf, Ht. case_match; [done|]. bool_to_Prop.
  apply days_loop_exact; [lia|]. pose proof (Z.div_pos (t - f) DAY_MS). unfold DAY_MS in *. lia.
Qed.

Lemma daysInWindow_complete_witness :
  daysInWindow (js "2024-02-28") (js "2024-03-01") = [js "2024-02-28"; js "2024-02-29"; js "2024-03-01"].
Proof. rewrite (daysInWindow_complete _ _ 1709078400000 1709251200000); vm_compute; reflexivity. Defined.
