(* ===== verification/AuditChain.v ===== *)
(** The audit log's hash chain ([apps/api/src/lib/audit-chain.ts] and the
    verify-chain route of [apps/api/src/routes/audit.ts]): the canonical forms
    that are hashed, the incremental verifier with its external anchor, and the
    route that pages through the table. SHA-256 is a parameter. *)
From S2P Require Import Prelude JsString Bytes Collections DepotLock.

(** * Rows *)

Record AuditChainRow := MkAuditRow {
  a_id : jstr;
  hash_version : Z;
  action_type : jstr;
  target_type : option jstr;
  target_id : option jstr;
  context_text : jstr;
  created_at : jstr;
  created_at_utc : jstr;
  actor_kind : jstr;
  actor_player_id : option jstr;
  actor_token_id : option jstr;
  actor_system_label : option jstr;
  actor_ip : option jstr;
  before_snapshot_text : option jstr;
  after_snapshot_text : option jstr;
  status_code_text : option jstr;
  duration_ms_text : option jstr;
  prev_hash_hex : option jstr;
  row_hash_hex : jstr;
}.

Inductive AuditChainBreakReason := break_prev_hash | break_row_hash | break_hash_version | break_anchor.

Record AuditChainAnchor := MkAnchor { anchor_id : jstr; rowHashHex : jstr }.

Record AuditChainResult := MkChainResult {
  chain_ok : bool;
  chain_checked : Z;
  brokenAt : option jstr;
  break_reason : option AuditChainBreakReason;
}.

(** * Canonical forms *)

Definition canonicalAuditStringV1 (row : AuditChainRow) : jstr :=
  join (js "|") [action_type row; default [] (target_type row); default [] (target_id row); context_text row; created_at row].

(** [`|${Buffer.byteLength(value, 'utf-8')}:${value}`] *)
Definition v2Field (value : option jstr) : jstr :=
  match value with
  | None => js "|-"
  | Some v => js "|" ++ nat_str (Z.of_nat (length (utf8_encode v))) ++ js ":" ++ v
  end.

(** The columns of the v2 form, in order. *)
Definition v2_columns (row : AuditChainRow) : list (option jstr) :=
  [Some (a_id row); Some (created_at_utc row); Some (actor_kind row); actor_player_id row; actor_token_id row;
   actor_system_label row; actor_ip row; Some (action_type row); target_type row; target_id row;
   before_snapshot_text row; after_snapshot_text row; Some (context_text row); status_code_text row;
   duration_ms_text row].

Definition canonicalAuditStringV2 (row : AuditChainRow) : jstr := js "v2" ++ concat (v2Field <$> v2_columns row).

(** [None] is the throw on an unknown version. *)
Definition canonicalAuditString (row : AuditChainRow) : option jstr :=
  if hash_version row =? 1 then Some (canonicalAuditStringV1 row)
  else if hash_version row =? 2 then Some (canonicalAuditStringV2 row)
  else None.

(** * Hexadecimal *)

Definition hex_char (n : Z) : Z := if n <? 10 then 48 + n else 87 + n.
Definition to_hex (b : bytes) : jstr := b ≫= (fun x => [hex_char (x / 16); hex_char (x mod 16)]).

Definition hex_value (c : Z) : option Z :=
  if (48 <=? c) && (c <=? 57) then Some (c - 48)
  else if (97 <=? c) && (c <=? 102) then Some (c - 87)
  else if (65 <=? c) && (c <=? 70) then Some (c - 55)
  else None.

(** [Buffer.from(s, 'hex')] stops at the first pair that is not hexadecimal. *)
Fixpoint from_hex (s : jstr) : bytes :=
  match s with
  | h :: l :: rest =>
      match hex_value h, hex_value l with
      | Some a, Some b => (16 * a + b) :: from_hex rest
      | _, _ => []
      end
  | _ => []
  end.

(** * The verifier *)

Section Verifier.
Context (sha256 : bytes → bytes).

(** [prevHashHex ? Buffer.from(prevHashHex, 'hex') : Buffer.alloc(0)] *)
Definition prev_bytes (prevHashHex : option jstr) : bytes := from_hex (default [] prevHashHex).

(** What is hashed for a row. *)
Definition material (prevHashHex : option jstr) (canonical : jstr) : bytes :=
  prev_bytes prevHashHex ++ utf8_encode canonical.

Definition expectedRowHashHex (prevHashHex : option jstr) (row : AuditChainRow) : option jstr :=
  (fun c => to_hex (sha256 (material prevHashHex c))) <$> canonicalAuditString row.

Record AuditChainVerifier := MkVerifier {
  v_prevHashHex : option jstr;
  v_highestVersion : Z;
  v_checked : Z;
  v_broken : option (jstr * AuditChainBreakReason);
  v_lastVerified : option AuditChainAnchor;
  v_anchorSeen : bool;
}.

Definition new_verifier : AuditChainVerifier := MkVerifier None 0 0 None None false.

Definition v_break (v : AuditChainVerifier) (version : Z) (row : AuditChainRow) (why : AuditChainBreakReason) : AuditChainVerifier :=
  MkVerifier (v_prevHashHex v) version (v_checked v) (Some (a_id row, why)) (v_lastVerified v) (v_anchorSeen v).

(** The body of [feed]'s loop on a verifier that is not broken. *)
Definition feed_row (anchor : option AuditChainAnchor) (v : AuditChainVerifier) (row : AuditChainRow) : AuditChainVerifier :=
  let version := hash_version row in
  if (negb (version =? 1) && negb (version =? 2)) || (version <? v_highestVersion v)
  then v_break v (v_highestVersion v) row break_hash_version
  else if negb (bool_decide (default [] (v_prevHashHex v) = default [] (prev_hash_hex row)))
  then v_break v version row break_prev_hash
  else if negb (bool_decide (expectedRowHashHex (v_prevHashHex v) row = Some (row_hash_hex row)))
  then v_break v version row break_row_hash
  else
    let at_anchor := match anchor with Some a => bool_decide (a_id row = anchor_id a) | None => false end in
    let anchor_bad := match anchor with Some a => negb (bool_decide (row_hash_hex row = rowHashHex a)) | None => false end in
    if at_anchor && anchor_bad then v_break v version row break_anchor
    else MkVerifier (Some (row_hash_hex row)) version (v_checked v + 1) None
           (Some (MkAnchor (a_id row) (row_hash_hex row))) (v_anchorSeen v || at_anchor).

(** [feed]: rows after a break are ignored. *)
Fixpoint feed (anchor : option AuditChainAnchor) (v : AuditChainVerifier) (rows : list AuditChainRow) : AuditChainVerifier :=
  match rows with
  | [] => v
  | row :: rows =>
      match v_broken v with
      | Some _ => v
      | None => feed anchor (feed_row anchor v row) rows
      end
  end.

(** [feed]'s return value *)
Definition isBroken (v : AuditChainVerifier) : bool := bool_decide (v_broken v ≠ None).

Definition chain_result (anchor : option AuditChainAnchor) (v : AuditChainVerifier) : AuditChainResult :=
  match v_broken v with
  | Some (id, why) => MkChainResult false (v_checked v) (Some id) (Some why)
  | None =>
      match anchor with
      | Some a => if negb (v_anchorSeen v) then MkChainResult false (v_checked v) (Some (anchor_id a)) (Some break_anchor)
                  else MkChainResult true (v_checked v) None None
      | None => MkChainResult true (v_checked v) None None
      end
  end.

Definition verifyAuditChain (rows : list AuditChainRow) (anchor : option AuditChainAnchor) : AuditChainResult :=
  chain_result anchor (feed anchor new_verifier rows).

(** * The verify-chain route: keyset pages *)

Definition AUDIT_VERIFY_BATCH_SIZE : nat := 5000.

(** [audit_log.id], as a number. *)
Definition id_num (row : AuditChainRow) : Z := digits_value (a_id row).

(** SELECT ... WHERE id > cursor ORDER BY id LIMIT batch, of a table in id order. *)
Definition next_page (batch : nat) (table : list AuditChainRow) (cursor : Z) : list AuditChainRow :=
  take batch (jfilter (fun r => id_num r >? cursor) table).

(** [for (;;)]: [None] when the fuel is not enough. *)
Fixpoint page_loop (fuel batch : nat) (anchor : option AuditChainAnchor) (table : list AuditChainRow) (cursor : Z)
    (v : AuditChainVerifier) : option AuditChainVerifier :=
  match fuel with
  | O => None
  | S fuel =>
      let rows := next_page batch table cursor in
      match last rows with
      | None => Some v
      | Some lst =>
          let v := feed anchor v rows in
          if isBroken v then Some v else page_loop fuel batch anchor table (id_num lst) v
      end
  end.

Definition verify_chain_route (batch : nat) (anchor : option AuditChainAnchor) (table : list AuditChainRow)
    : option (AuditChainResult * option AuditChainAnchor) :=
  (fun v => (chain_result anchor v, v_lastVerified v))
    <$> page_loop (S (length table)) batch anchor table 0 new_verifier.

(** ** Batches do not matter *)

Lemma feed_broken anchor v rows b : v_broken v = Some b → feed anchor v rows = v.
Proof. intros H. destruct rows; simpl; [done|]. by rewrite H. Qed.

Lemma feed_app anchor v rows rows' : feed anchor v (rows ++ rows') = feed anchor (feed anchor v rows) rows'.
Proof.
  revert v. induction rows as [|row rows IH]; intros v; simpl; [done|].
  destruct (v_broken v) as [b|] eqn:E; [by rewrite (feed_broken _ _ _ b)|apply IH].
Qed.

Definition ids_increasing (table : list AuditChainRow) : Prop :=
  StronglySorted (fun a b => id_num a < id_num b) table.

Lemma next_page_suffix batch pre rows cursor :
  ids_increasing (pre ++ rows) → (∀ r, r ∈ pre → id_num r ≤ cursor) → (∀ r, r ∈ rows → cursor < id_num r) →
  next_page batch (pre ++ rows) cursor = take batch rows.
Proof.
  intros _ Hpre Hrows. unfold next_page. rewrite jfilter_app, jfilter_none, jfilter_all; [done|..].
  - intros r Hr. rewrite Z.gtb_ltb. apply Z.ltb_lt. by apply Hrows.
  - intros r Hr. rewrite Z.gtb_ltb. apply Z.ltb_ge. by apply Hpre.
Qed.

Lemma page_loop_exact fuel batch anchor pre rows cursor v :
  (0 < batch)%nat → (length rows < fuel)%nat → ids_increasing (pre ++ rows) →
  (∀ r, r ∈ pre → id_num r ≤ cursor) → (∀ r, r ∈ rows → cursor < id_num r) → v_broken v = None →
  page_loop fuel batch anchor (pre ++ rows) cursor v = Some (feed anchor v rows).
Proof.
  intros Hb. revert pre rows cursor v. induction fuel as [|fuel IH]; intros pre rows cursor v Hf Hs Hpre Hrows Hv; [lia|].
  cbn [page_loop]. cbv zeta. rewrite next_page_suffix by done.
  destruct (last (take batch rows)) as [lst|] eqn:El.
  2:{ apply last_None in El. destruct rows as [|r rows]; [done|]. destruct batch; [lia|done]. }
  replace (feed anchor v rows) with (feed anchor (feed anchor v (take batch rows)) (drop batch rows))
    by (by rewrite <-feed_app, take_drop).
  destruct (isBroken (feed anchor v (take batch rows))) eqn:Eb.
  - unfold isBroken in Eb. apply bool_decide_eq_true in Eb.
    destruct (v_broken (feed anchor v (take batch rows))) as [b|] eqn:Ebr; [|done].
    by rewrite (feed_broken anchor (feed anchor v (take batch rows)) _ b).
  - unfold isBroken in Eb. apply bool_decide_eq_false, dec_stable in Eb.
    apply last_Some in El as [l' El].
    assert (pre ++ rows = (pre ++ take batch rows) ++ drop batch rows) as Hsplit by (by rewrite <-app_assoc, take_drop).
    rewrite Hsplit in Hs |- *. pose proof (proj1 (StronglySorted_app _ _ _) Hs) as (Hcross & Hs1 & Hs2).
    apply IH; [|done| | |done].
    + rewrite length_drop. apply (f_equal length) in El. rewrite length_take, length_app in El. simpl in El. lia.
    + intros r [Hr|Hr]%elem_of_app; [apply Hpre in Hr; assert (lst ∈ rows) as Hl%Hrows;
        [rewrite <-(take_drop batch rows), El; set_solver|lia]|].
      rewrite El in Hr, Hs1. apply elem_of_app in Hr as [Hr|Hr%list_elem_of_singleton]; [|subst; lia].
      rewrite app_assoc in Hs1. apply StronglySorted_app in Hs1 as (Hc & _ & _).
      specialize (Hc r lst ltac:(set_solver) ltac:(set_solver)). lia.
    + intros r Hr. apply (Hcross lst r); [|done]. rewrite El. set_solver.
Qed.
(** The route that pages through the table returns, whatever the page size,
    the verdict and head of verifying all rows at once. *)
Theorem paging_irrelevant batch anchor table :
  (0 < batch)%nat → ids_increasing table → (∀ r, r ∈ table → 0 < id_num r) →
  verify_chain_route batch anchor table =
  Some (verifyAuditChain table anchor, v_lastVerified (feed anchor new_verifier table)).
Proof.
  intros Hb Hs Hpos. unfold verify_chain_route, verifyAuditChain.
  rewrite (page_loop_exact _ _ _ [] table 0) by (done || lia || set_solver). done.
Qed.

(** * What an accepted chain is *)

(** Row by row: each links to the one before it and its hash is that of its
    contents. *)
Fixpoint linked (prev : option jstr) (rows : list AuditChainRow) : Prop :=
  match rows with
  | [] => True
  | row :: rows =>
      default [] prev = default [] (prev_hash_hex row) ∧
      expectedRowHashHex prev row = Some (row_hash_hex row) ∧ linked (Some (row_hash_hex row)) rows
  end.

Lemma feed_row_ok anchor v row :
  v_broken (feed_row anchor v row) = None →
  default [] (v_prevHashHex v) = default [] (prev_hash_hex row) ∧
  expectedRowHashHex (v_prevHashHex v) row = Some (row_hash_hex row) ∧
  v_prevHashHex (feed_row anchor v row) = Some (row_hash_hex row) ∧
  (∀ a, anchor = Some a → a_id row = anchor_id a → row_hash_hex row = rowHashHex a) ∧
  v_anchorSeen (feed_row anchor v row) =
    v_anchorSeen v || match anchor with Some a => bool_decide (a_id row = anchor_id a) | None => false end.
Proof.
  unfold feed_row. cbv zeta. destruct (_ || _) eqn:E0; [done|].
  destruct (negb (bool_decide (default [] _ = _))) eqn:E1; [done|].
  destruct (negb (bool_decide (expectedRowHashHex _ _ = _))) eqn:E2; [done|].
  apply negb_false_iff, bool_decide_eq_true in E1, E2. clear E0. destruct anchor as [a|]; [|done].
  destruct (bool_decide (a_id row = anchor_id a)) eqn:E3, (bool_decide (row_hash_hex row = rowHashHex a)) eqn:E4;
    cbn [negb andb]; try done; intros _; bool_to_Prop; repeat split; try done; intros a' Ha' Hid; by simplify_eq.
Qed.

Lemma feed_accepted anchor v rows :
  v_broken v = None → v_broken (feed anchor v rows) = None →
  linked (v_prevHashHex v) rows ∧
  (∀ a, anchor = Some a → v_anchorSeen (feed anchor v rows) = true →
    v_anchorSeen v = true ∨ ∃ n row, rows !! n = Some row ∧ a_id row = anchor_id a ∧ row_hash_hex row = rowHashHex a).
Proof.
  revert v. induction rows as [|row rows IH]; intros v Hv Hf; simpl in *; [by auto|]. rewrite Hv in *.
  destruct (v_broken (feed_row anchor v row)) as [b|] eqn:Eb; [rewrite (feed_broken _ _ _ b Eb) in Hf; congruence|].
  destruct (feed_row_ok _ _ _ Eb) as (H1 & H2 & H3 & H4 & H5). destruct (IH _ Eb Hf) as [Hl Ha].
  rewrite H3 in Hl. split; [done|]. intros a -> Hs.
  destruct (Ha a eq_refl Hs) as [Hseen|(n & r & Hn & Hr)]; [|right; exists (S n), r; done].
  rewrite H5 in Hseen. apply orb_true_iff in Hseen as [?|Hid]; [by left|]. bool_to_Prop.
  right. exists 0%nat, row. split; [done|]. split; [done|]. by apply (H4 a).
Qed.

Lemma verify_accepted rows anchor :
  chain_ok (verifyAuditChain rows anchor) = true →
  linked None rows ∧
  ∀ a, anchor = Some a → ∃ n row, rows !! n = Some row ∧ a_id row = anchor_id a ∧ row_hash_hex row = rowHashHex a.
Proof.
  unfold verifyAuditChain, chain_result. intros H.
  destruct (v_broken (feed anchor new_verifier rows)) as [[id why]|] eqn:E; [done|].
  destruct (feed_accepted anchor new_verifier rows eq_refl E) as [Hl Ha]. split; [done|]. intros a ->.
  destruct (v_anchorSeen (feed (Some a) new_verifier rows)) eqn:Es; [|done].
  destruct (Ha a eq_refl eq_refl) as [?|?]; [done|done].
Qed.

Lemma linked_lookup prev rows n row :
  linked prev rows → rows !! n = Some row →
  ∃ p, expectedRowHashHex p row = Some (row_hash_hex row) ∧
    match n with
    | O => p = prev
    | S m => ∃ before, rows !! m = Some before ∧ p = Some (row_hash_hex before)
    end.
Proof.
  revert prev n. induction rows as [|r rows IH]; intros prev n Hl Hn; [done|]. destruct Hl as (_ & H2 & Hl).
  destruct n as [|n]; simpl in Hn; [injection Hn as <-; eauto|].
  destruct (IH _ _ Hl Hn) as (p & Hp & Hm). exists p. split; [done|]. destruct n as [|m]; [exists r|]; eauto.
Qed.
End Verifier.

(** * The v2 form determines the columns *)

Lemma utf8_encode_app a b : well_formed a = true → utf8_encode (a ++ b) = utf8_encode a ++ utf8_encode b.
Proof.
  remember (length a) as n eqn:Hn. assert (length a ≤ n)%nat as Hle by lia. clear Hn. revert a Hle.
  induction n as [|n IH]; intros [|u a] Hle Hw; try done; simpl in Hle; [lia|].
  rewrite <-app_comm_cons. cbn [utf8_encode well_formed] in *. destruct (is_high_surrogate u).
  - destruct a as [|v a]; [done|]. apply andb_true_iff in Hw as [Hv Hw]. rewrite <-app_comm_cons. rewrite Hv.
    rewrite IH; [by rewrite app_assoc|simpl in Hle; lia|done].
  - bool_to_Prop. repeat match goal with H : is_low_surrogate u = false |- _ => rewrite H end.
    rewrite IH; [by rewrite app_assoc|lia|done].
Qed.

Definition ascii (s : jstr) : Prop := Forall (fun c => 0 ≤ c < 128) s.

Lemma utf8_encode_ascii s : ascii s → utf8_encode s = s ∧ well_formed s = true.
Proof.
  induction 1 as [|c s Hc Hs [IH1 IH2]]; [done|]. cbn [utf8_encode well_formed].
  assert (is_high_surrogate c = false ∧ is_low_surrogate c = false) as [-> ->].
  { unfold is_high_surrogate, is_low_surrogate. split; apply andb_false_iff; left; apply Z.leb_gt; lia. }
  unfold utf8_unit. rewrite (proj2 (Z.ltb_lt c 128)), IH1, IH2, (proj2 (Z.leb_le 0 c)), (proj2 (Z.ltb_lt c 65536)) by lia. done.
Qed.

(** A field on the wire. *)
Definition field_bytes (value : option jstr) : bytes :=
  match value with
  | None => [124; 45]
  | Some v => 124 :: nat_str (Z.of_nat (length (utf8_encode v))) ++ 58 :: utf8_encode v
  end.

Definition value_wf (value : option jstr) : Prop := match value with Some v => well_formed v = true | None => True end.

Lemma nat_str_ascii n : 0 ≤ n → ascii (nat_str n).
Proof. intros Hn. apply Forall_forall. intros c Hc. apply nat_str_chars in Hc; [lia|done]. Qed.

Lemma well_formed_app a b : well_formed a = true → well_formed b = true → well_formed (a ++ b) = true.
Proof.
  remember (length a) as n eqn:Hn. assert (length a ≤ n)%nat as Hle by lia. clear Hn. revert a Hle.
  induction n as [|n IH]; intros [|u a] Hle Hw Hb; try done; simpl in Hle; [lia|].
  rewrite <-app_comm_cons. cbn [well_formed] in *. destruct (is_high_surrogate u).
  - destruct a as [|v a]; [done|]. rewrite <-app_comm_cons. apply andb_true_iff in Hw as [-> Hw].
    rewrite IH; [done|simpl in Hle; lia|done|done].
  - apply andb_true_iff in Hw as [-> Hw]. apply IH; [lia|done|done].
Qed.

Lemma v2Field_bytes value : value_wf value → utf8_encode (v2Field value) = field_bytes value ∧ well_formed (v2Field value) = true.
Proof.
  intros Hw. destruct value as [v|]; [|done]. cbn [v2Field field_bytes value_wf] in *.
  assert (ascii (js "|" ++ nat_str (Z.of_nat (length (utf8_encode v))) ++ js ":")) as Ha.
  { apply Forall_app. split; [repeat constructor; lia|]. apply Forall_app. split; [apply nat_str_ascii; lia|repeat constructor; lia]. }
  apply utf8_encode_ascii in Ha as [He Hwf].
  replace (js "|" ++ nat_str (Z.of_nat (length (utf8_encode v))) ++ js ":" ++ v)
    with ((js "|" ++ nat_str (Z.of_nat (length (utf8_encode v))) ++ js ":") ++ v) by (by rewrite <-!app_assoc).
  rewrite utf8_encode_app, He by done. split; [|by apply well_formed_app].
  rewrite <-!app_assoc. done.
Qed.

Lemma field_bytes_inj a b rest rest' :
  field_bytes a ++ rest = field_bytes b ++ rest' → value_wf a → value_wf b → a = b ∧ rest = rest'.
Proof.
  assert (∀ n m k (s t : list Z), 0 ≤ n → 124 :: 45 :: s ≠ 124 :: nat_str n ++ k :: t ++ m) as Hne.
  { intros n m k s t Hn H. injection H as H. destruct (nat_str n) as [|c l] eqn:E.
    - pose proof (nat_str_spec n Hn) as [Hd _]. rewrite E in Hd. simpl in Hd. by subst n.
    - injection H as <- _. pose proof (nat_str_chars n 45 Hn). rewrite E in H. specialize (H ltac:(left)). lia. }
  intros H Ha Hb. destruct a as [a|], b as [b|]; cbn [field_bytes value_wf] in *.
  - injection H as H. rewrite <-!app_assoc, <-!app_comm_cons in H.
    assert (∀ n, 0 ≤ n → 58 ∉ nat_str n) as Hsep. { intros n Hn Hc. apply nat_str_chars in Hc; [lia|done]. }
    apply separator_inj in H as [Hlen H]; [|apply Hsep; lia..].
    apply nat_str_inj in Hlen; [|lia..]. apply Nat2Z.inj in Hlen.
    apply app_inj_1 in H as [H ->]; [|done]. split; [|done]. f_equal.
    rewrite <-(utf8_decode_encode a Ha), <-(utf8_decode_encode b Hb). by rewrite H.
  - symmetry in H. cbn [app] in H. rewrite <-app_assoc in H. cbn [app] in H. apply Hne in H; [done|lia].
  - cbn [app] in H. rewrite <-app_assoc in H. cbn [app] in H. apply Hne in H; [done|lia].
  - by injection H.
Qed.

Lemma fields_inj l l' :
  length l = length l' → Forall value_wf l → Forall value_wf l' →
  concat (field_bytes <$> l) = concat (field_bytes <$> l') → l = l'.
Proof.
  revert l'. induction l as [|a l IH]; intros [|b l'] Hlen Hl Hl' H; try done.
  rewrite !fmap_cons in H. cbn [concat] in H. apply Forall_cons in Hl as [Ha Hl]. apply Forall_cons in Hl' as [Hb Hl'].
  apply field_bytes_inj in H as [-> H]; [|done..]. f_equal. apply IH; [by injection Hlen|done..].
Qed.

Definition row_wf (row : AuditChainRow) : Prop := Forall value_wf (v2_columns row).

Lemma v2_fields_bytes l :
  Forall value_wf l → utf8_encode (concat (v2Field <$> l)) = concat (field_bytes <$> l) ∧ well_formed (concat (v2Field <$> l)) = true.
Proof.
  induction 1 as [|a l Ha _ [IH1 IH2]]; [done|]. rewrite !fmap_cons. cbn [concat].
  destruct (v2Field_bytes a Ha) as [H1 H2]. rewrite utf8_encode_app, H1, IH1 by done. split; [done|by apply well_formed_app].
Qed.

Lemma canonical_bytes row : row_wf row →
  utf8_encode (canonicalAuditStringV2 row) = 118 :: 50 :: concat (field_bytes <$> v2_columns row).
Proof.
  intros Hw. unfold canonicalAuditStringV2. rewrite utf8_encode_app by done.
  by rewrite (proj1 (v2_fields_bytes _ Hw)).
Qed.

(** The canonical form always begins with the bytes of [v2|]. *)
Lemma canonical_prefix row : row_wf row →
  ∃ rest, utf8_encode (canonicalAuditStringV2 row) = 118 :: 50 :: 124 :: rest.
Proof. intros Hw. rewrite canonical_bytes by done. eexists. reflexivity. Qed.

Lemma canonical_inj row row' : row_wf row → row_wf row' →
  utf8_encode (canonicalAuditStringV2 row) = utf8_encode (canonicalAuditStringV2 row') → v2_columns row = v2_columns row'.
Proof.
  intros Hw Hw'. rewrite !canonical_bytes by done. intros H. apply (app_inv_head [118; 50]) in H. by apply fields_inj in H.
Qed.

Lemma hex_value_char n : 0 ≤ n < 16 → hex_value (hex_char n) = Some n.
Proof.
  intros Hn. unfold hex_char, hex_value. destruct (n <? 10) eqn:E; bool_to_Prop; decide_tests; simpl; f_equal; lia.
Qed.

Lemma from_to_hex b : Forall (fun x => 0 ≤ x < 256) b → from_hex (to_hex b) = b.
Proof.
  induction 1 as [|x b Hx _ IH]; [done|]. unfold to_hex in *. rewrite bind_cons. cbn [app from_hex].
  pose proof (Z.div_pos x 16). pose proof (Z.div_lt_upper_bound x 16 16). pose proof (Z.mod_pos_bound x 16).
  rewrite !hex_value_char by lia. rewrite IH. f_equal. pose proof (Z.div_mod x 16). lia.
Qed.

(** * Tampering *)

Section Tamper.
Context (sha256 : bytes → bytes).
(** A digest is 32 bytes. *)
Context (sha256_digest : ∀ m, length (sha256 m) = 32%nat ∧ Forall (fun x => 0 ≤ x < 256) (sha256 m)).

(** Two inputs with one digest. *)
Definition collision : Prop := ∃ a b, a ≠ b ∧ sha256 a = sha256 b.
(** A digest that happens to spell the beginning of a canonical form. *)
Definition digest_spells_v2 : Prop := ∃ m rest, sha256 m = 118 :: 50 :: 124 :: rest.

(** Rows of the current form, with text as Postgres stores it. *)
Definition v2_row (row : AuditChainRow) : Prop := hash_version row = 2 ∧ row_wf row.

Lemma expected_v2 prev row h :
  v2_row row → expectedRowHashHex sha256 prev row = Some h →
  h = to_hex (sha256 (material prev (canonicalAuditStringV2 row))).
Proof. intros [Hv _]. unfold expectedRowHashHex, canonicalAuditString. rewrite Hv. simpl. by intros [= <-]. Qed.

Lemma prev_bytes_hash m : prev_bytes (Some (to_hex (sha256 m))) = sha256 m.
Proof. unfold prev_bytes. simpl. by rewrite from_to_hex by apply sha256_digest. Qed.

Lemma to_hex_inj m m' : to_hex (sha256 m) = to_hex (sha256 m') → sha256 m = sha256 m'.
Proof.
  intros H. rewrite <-(from_to_hex (sha256 m)), <-(from_to_hex (sha256 m')) by apply sha256_digest. by rewrite H.
Qed.

Lemma same_digest m m' : sha256 m = sha256 m' → collision ∨ m = m'.
Proof. intros H. destruct (decide (m = m')); [by right|]. left. by exists m, m'. Qed.

Lemma hashes_determine_history rows rows' n n' r r' :
  linked sha256 None rows → linked sha256 None rows' → Forall v2_row rows → Forall v2_row rows' →
  rows !! n = Some r → rows' !! n' = Some r' → row_hash_hex r = row_hash_hex r' →
  collision ∨ digest_spells_v2 ∨ (n = n' ∧ v2_columns <$> take (S n) rows = v2_columns <$> take (S n) rows').
Proof.
  intros Hl Hl' Hv Hv'. revert n' r r'. induction n as [|n IH]; intros n' r r' Hn Hn' Heq.
  all: destruct (linked_lookup _ _ _ _ _ Hl Hn) as (p & Hp & Hpre), (linked_lookup _ _ _ _ _ Hl' Hn') as (p' & Hp' & Hpre').
  all: pose proof (proj1 (Forall_lookup _ _) Hv _ _ Hn) as Hr; pose proof (proj1 (Forall_lookup _ _) Hv' _ _ Hn') as Hr'.
  all: apply expected_v2 in Hp, Hp'; [|done..]; rewrite Hp, Hp' in Heq; apply to_hex_inj, same_digest in Heq as [?|Heq]; [by left|].
  all: unfold material in Heq; destruct Hr as [_ Hr], Hr' as [_ Hr'].
  - subst p. destruct n' as [|m']; simpl in Hpre'.
    + subst p'. apply canonical_inj in Heq; [|done..]. right; right. split; [done|].
      destruct rows as [|? rows], rows' as [|? rows']; try done. simpl in Hn, Hn'. injection Hn as ->. injection Hn' as ->.
      rewrite !firstn_cons, !firstn_O, !fmap_cons. by rewrite Heq.
    + destruct Hpre' as (b' & Hb' & ->). destruct (linked_lookup _ _ _ _ _ Hl' Hb') as (q & Hq & _).
      pose proof (proj1 (Forall_lookup _ _) Hv' _ _ Hb') as Hrb. apply expected_v2 in Hq; [|done]. rewrite Hq, prev_bytes_hash in Heq.
      right; left. destruct (canonical_prefix r Hr) as [rest Hrest].
      change (prev_bytes None) with (@nil Z) in Heq. rewrite app_nil_l, Hrest in Heq.
      pose proof (proj1 (sha256_digest (material q (canonicalAuditStringV2 b')))) as Hlen.
      destruct (sha256 (material q (canonicalAuditStringV2 b'))) as [|x1 [|x2 [|x3 l]]] eqn:Ed; try done.
      exists (material q (canonicalAuditStringV2 b')), l. rewrite Ed. by injection Heq as -> -> ->.
  - destruct Hpre as (b & Hb & ->). destruct (linked_lookup _ _ _ _ _ Hl Hb) as (q & Hq & _).
    pose proof (proj1 (Forall_lookup _ _) Hv _ _ Hb) as Hrb. pose proof Hq as Hq0. apply expected_v2 in Hq; [|done].
    destruct n' as [|m']; simpl in Hpre'.
    + subst p'. rewrite Hq, prev_bytes_hash in Heq.
      right; left. destruct (canonical_prefix r' Hr') as [rest Hrest].
      change (prev_bytes None) with (@nil Z) in Heq. rewrite app_nil_l, Hrest in Heq.
      pose proof (proj1 (sha256_digest (material q (canonicalAuditStringV2 b)))) as Hlen.
      destruct (sha256 (material q (canonicalAuditStringV2 b))) as [|x1 [|x2 [|x3 l]]] eqn:Ed; try done.
      exists (material q (canonicalAuditStringV2 b)), l. rewrite Ed. by injection Heq as -> -> ->.
    + destruct Hpre' as (b' & Hb' & ->). destruct (linked_lookup _ _ _ _ _ Hl' Hb') as (q' & Hq' & _).
      pose proof (proj1 (Forall_lookup _ _) Hv' _ _ Hb') as Hrb'. apply expected_v2 in Hq'; [|done].
      rewrite Hq, Hq', !prev_bytes_hash in Heq.
      apply app_inj_1 in Heq as [Hd Hc]; [|by rewrite !(proj1 (sha256_digest _))].
      apply canonical_inj in Hc; [|done..].
      destruct (IH m' b b' Hb Hb') as [?|[?|[-> IHt]]]; [by rewrite Hq, Hq', Hd|by left|by right; left|].
      right; right. split; [done|].
      rewrite (take_S_r rows (S m') r), (take_S_r rows' (S m') r'), !fmap_app, IHt by done. simpl. by rewrite Hc.
Qed.


(** ** An edit in place *)

Lemma feed_prefix rows anchor v i row :
  v_broken v = None → v_broken (feed sha256 anchor v rows) = None → rows !! i = Some row →
  v_broken (feed sha256 anchor v (take i rows)) = None ∧
  v_checked (feed sha256 anchor v (take i rows)) = v_checked v + Z.of_nat i.
Proof.
  revert v i. induction rows as [|r rows IH]; intros v i Hv Hf Hi; [done|]. simpl in Hf. rewrite Hv in Hf.
  destruct i as [|i]; simpl; [split; [done|lia]|]. rewrite Hv.
  destruct (v_broken (feed_row sha256 anchor v r)) as [b|] eqn:Eb; [rewrite (feed_broken _ _ _ _ b Eb) in Hf; congruence|].
  destruct (IH _ i Eb Hf Hi) as [-> ->]. split; [done|].
  assert (v_checked (feed_row sha256 anchor v r) = v_checked v + 1) as ->; [|lia].
  revert Eb. unfold feed_row. cbv zeta. repeat case_match; done.
Qed.

(** Changing a column of one row of a log that verifies, and leaving its
    stored hashes as they are, is reported at exactly that row, with all rows
    before it counted as good, unless SHA-256 collides. *)
Theorem edit_is_reported rows i row row' :
  chain_ok (verifyAuditChain sha256 rows None) = true → rows !! i = Some row → v2_row row → v2_row row' →
  v2_columns row' ≠ v2_columns row → prev_hash_hex row' = prev_hash_hex row → row_hash_hex row' = row_hash_hex row →
  collision ∨
  verifyAuditChain sha256 (<[i := row']> rows) None = MkChainResult false (Z.of_nat i) (Some (a_id row')) (Some break_row_hash).
Proof.
  intros Hok Hi Hr Hr' Hcols Hp Hh.
  assert (v_broken (feed sha256 None new_verifier rows) = None) as Hf.
  { unfold verifyAuditChain, chain_result in Hok. by destruct (v_broken _) as [[]|]. }
  destruct (feed_prefix rows None new_verifier i row eq_refl Hf Hi) as [Hb Hc].
  pose proof Hf as Hf2. rewrite <-(take_drop_middle _ _ _ Hi), feed_app in Hf2.
  cbn [feed] in Hf2. rewrite Hb in Hf2. set (v := feed sha256 None new_verifier (take i rows)) in *.
  destruct (v_broken (feed_row sha256 None v row)) as [b|] eqn:Er; [rewrite (feed_broken _ _ _ _ b Er) in Hf2; congruence|].
  destruct (feed_row_ok _ _ _ _ Er) as (H1 & H2 & _).
  destruct (decide (expectedRowHashHex sha256 (v_prevHashHex v) row' = Some (row_hash_hex row))) as [He|He].
  - left. apply expected_v2 in He, H2; [|done..]. rewrite He in H2. apply to_hex_inj, same_digest in H2 as [?|H2]; [done|].
    unfold material in H2. apply app_inv_head in H2. apply canonical_inj in H2; [done|apply Hr'|apply Hr].
  - right. rewrite insert_take_drop by (by eapply lookup_lt_Some). unfold verifyAuditChain. rewrite feed_app.
    fold v. cbn [feed]. rewrite Hb.
    assert (feed_row sha256 None v row' = v_break v 2 row' break_row_hash) as ->.
    { revert Er. unfold feed_row. cbv zeta. destruct Hr as [-> _], Hr' as [-> _]. rewrite Hp, Hh.
      cbn [negb andb orb Z.eqb Pos.eqb]. destruct (2 <? v_highestVersion v); [done|]. rewrite (bool_decide_true _ H1). cbn [negb].
      by rewrite (bool_decide_false _ He). }
    erewrite feed_broken by reflexivity. unfold chain_result, v_break. cbn [v_broken v_checked]. f_equal. rewrite Hc. done.
Qed.
End Tamper.

(** * Rows written by the database *)

Section Append.
Context (sha256 : bytes → bytes).

(** [audit_log_append()]: the trigger draws the id under the chain lock, links
    the row to the last one and hashes the v2 form. *)
Definition audit_log_append (table : list AuditChainRow) (id : jstr) (new : AuditChainRow) : AuditChainRow :=
  let prev := row_hash_hex <$> last table in
  let row := MkAuditRow id 2 (action_type new) (target_type new) (target_id new) (context_text new) (created_at new)
    (created_at_utc new) (actor_kind new) (actor_player_id new) (actor_token_id new) (actor_system_label new)
    (actor_ip new) (before_snapshot_text new) (after_snapshot_text new) (status_code_text new) (duration_ms_text new)
    prev [] in
  MkAuditRow id 2 (action_type new) (target_type new) (target_id new) (context_text new) (created_at new)
    (created_at_utc new) (actor_kind new) (actor_player_id new) (actor_token_id new) (actor_system_label new)
    (actor_ip new) (before_snapshot_text new) (after_snapshot_text new) (status_code_text new) (duration_ms_text new)
    prev (to_hex (sha256 (material prev (canonicalAuditStringV2 row)))).

Definition append_all (table : list AuditChainRow) (news : list (jstr * AuditChainRow)) : list AuditChainRow :=
  foldl (fun t n => t ++ [audit_log_append t n.1 n.2]) table news.

Lemma append_expected table id new :
  expectedRowHashHex sha256 (row_hash_hex <$> last table) (audit_log_append table id new) =
  Some (row_hash_hex (audit_log_append table id new)).
Proof. reflexivity. Qed.

(** The verifier after reading a whole table written by the trigger. *)
Record read_all (anchor : option AuditChainAnchor) (table : list AuditChainRow) (v : AuditChainVerifier) : Prop := {
  ra_broken : v_broken v = None;
  ra_prev : v_prevHashHex v = row_hash_hex <$> last table;
  ra_version : v_highestVersion v ≤ 2;
  ra_checked : v_checked v = Z.of_nat (length table);
  ra_seen : v_anchorSeen v = match anchor with
    | Some a => existsb (fun r => bool_decide (a_id r = anchor_id a)) table | None => false end;
}.

Lemma append_verifies anchor table v id new :
  read_all anchor table v →
  (∀ a, anchor = Some a → id = anchor_id a → row_hash_hex (audit_log_append table id new) = rowHashHex a) →
  read_all anchor (table ++ [audit_log_append table id new])
    (feed_row sha256 anchor v (audit_log_append table id new)).
Proof.
  intros [Hb Hp Hv Hc Hs] Ha. unfold feed_row. cbv zeta.
  change (hash_version (audit_log_append table id new)) with 2.
  change (prev_hash_hex (audit_log_append table id new)) with (row_hash_hex <$> last table).
  change (a_id (audit_log_append table id new)) with id.
  rewrite Hp, append_expected. cbn [Z.eqb Pos.eqb negb andb orb].
  rewrite (proj2 (Z.ltb_ge 2 (v_highestVersion v))) by done.
  rewrite !(bool_decide_true (_ = _)) by done. cbn [negb].
  assert (match anchor with Some a => bool_decide (id = anchor_id a) | None => false end &&
    match anchor with Some a => negb (bool_decide (row_hash_hex (audit_log_append table id new) = rowHashHex a)) | None => false end
    = false) as ->.
  { destruct anchor as [a|]; [|done]. destruct (decide (id = anchor_id a)) as [Hid|Hid].
    - rewrite (bool_decide_true (row_hash_hex _ = _)) by by apply Ha. by rewrite andb_false_r.
    - by rewrite (bool_decide_false (id = _)). }
  split; cbn [v_broken v_prevHashHex v_highestVersion v_checked v_anchorSeen]; [done|by rewrite last_snoc|lia| |].
  - rewrite Hc, length_app. simpl. lia.
  - rewrite Hs. destruct anchor as [a|]; [|done]. rewrite existsb_app. cbn [existsb]. by rewrite orb_false_r.
Qed.

Lemma append_all_cons table id new news :
  append_all table ((id, new) :: news) = append_all (table ++ [audit_log_append table id new]) news.
Proof. reflexivity. Qed.

Lemma append_all_verifies anchor news table v :
  read_all anchor table v → NoDup ((a_id <$> table) ++ news.*1) →
  (∀ a, anchor = Some a → ∀ r, r ∈ append_all table news → a_id r = anchor_id a → row_hash_hex r = rowHashHex a) →
  read_all anchor (append_all table news) (feed sha256 anchor v (drop (length table) (append_all table news))).
Proof.
  revert table v. induction news as [|[id new] news IH]; intros table v Hr Hnd Ha.
  { cbn [append_all foldl]. by rewrite drop_all. }
  rewrite append_all_cons in *. set (row := audit_log_append table id new) in *.
  assert (∃ tail, append_all (table ++ [row]) news = table ++ row :: tail) as [tail Ht].
  { assert (∀ t, ∃ tail, append_all t news = t ++ tail) as Hpre.
    { clear. induction news as [|n news IH]; intros t; [exists []; by rewrite app_nil_r|]. simpl.
      destruct (IH (t ++ [audit_log_append t n.1 n.2])) as [tail ->]. rewrite <-app_assoc. eauto. }
    destruct (Hpre (table ++ [row])) as [tail ->]. rewrite <-app_assoc. eauto. }
  assert (read_all anchor (table ++ [row]) (feed_row sha256 anchor v row)) as Hr'.
  { apply append_verifies; [done|]. intros a -> Hid. apply (Ha a eq_refl); [|done]. rewrite Ht. set_solver. }
  specialize (IH (table ++ [row]) _ Hr'). rewrite Ht in *. rewrite drop_app_length. cbn [feed]. rewrite (ra_broken _ _ _ Hr).
  replace (drop (length (table ++ [row])) (table ++ row :: tail)) with tail in IH.
  - apply IH.
    + rewrite fmap_app, <-app_assoc. exact Hnd.
    + exact Ha.
  - rewrite length_app. simpl. rewrite <-(drop_drop _ 1 (length table)). by rewrite drop_app_length.
Qed.

Lemma append_all_ids news table : a_id <$> append_all table news = (a_id <$> table) ++ news.*1.
Proof.
  revert table. induction news as [|[id new] news IH]; intros table; simpl; [by rewrite app_nil_r|].
  rewrite IH, fmap_app, <-app_assoc. done.
Qed.

(** A log written by the trigger always verifies in full, also against any
    of its own rows recorded earlier as an anchor: no false alarms. *)
Theorem appended_log_verifies news anchor :
  NoDup news.*1 →
  (∀ a, anchor = Some a → ∃ r, r ∈ append_all [] news ∧ a = MkAnchor (a_id r) (row_hash_hex r)) →
  verifyAuditChain sha256 (append_all [] news) anchor = MkChainResult true (Z.of_nat (length news)) None None.
Proof.
  intros Hnd Ha.
  assert (read_all anchor [] new_verifier) as H0 by (split; try done; by destruct anchor).
  pose proof (append_all_ids news []) as Hids. simpl in Hids.
  destruct (append_all_verifies anchor news [] new_verifier H0 Hnd) as [Hb _ _ Hc Hs].
  { intros a Hanc r Hr Hid. destruct (Ha a Hanc) as (r0 & Hr0 & ->). cbn [anchor_id rowHashHex] in *. f_equal.
    eapply (NoDup_fmap_inj_elem a_id); [rewrite Hids; exact Hnd|done..]. }
  rewrite drop_0 in *. unfold verifyAuditChain, chain_result. rewrite Hb, Hc.
  assert (length (append_all [] news) = length news) as ->.
  { rewrite <-(length_fmap a_id), Hids, length_fmap. done. }
  destruct anchor as [a|]; [|done]. rewrite Hs. destruct (Ha a eq_refl) as (r & Hr & ->).
  cbn [anchor_id]. rewrite (proj2 (existsb_exists _ _)); [done|]. exists r. split; [by apply list_elem_of_In|]. by apply bool_decide_eq_true.
Qed.
End Append.

(** * One verification at a time *)

Definition AUDIT_VERIFY_LOCK_TTL_MS : Z := 10 * 60000.

(** SET key PX NX; [DEL key] in the [finally], whoever holds it. *)
Definition verify_begin (r : redis) (reqId : jstr) : redis * bool := set_px_nx r reqId AUDIT_VERIFY_LOCK_TTL_MS.
Definition verify_end (r : redis) : redis := mkRedis (clock r) None.

(** The verification lock is not exclusive: a run that outlives its ten
    minutes deletes the lock of the run that took over, and a third run starts
    beside it. *)
Theorem verify_lock_overrun r a b c :
  redis_get r = None →
  let late := mkRedis (clock r + AUDIT_VERIFY_LOCK_TTL_MS) (stored (verify_begin r a).1) in
  (verify_begin r a).2 = true ∧ (verify_begin late b).2 = true ∧
  (verify_begin (verify_begin late b).1 c).2 = false ∧
  (verify_begin (verify_end (verify_begin late b).1) c).2 = true.
Proof.
  intros H late.
  assert (verify_begin r a = (mkRedis (clock r) (Some (a, clock r + AUDIT_VERIFY_LOCK_TTL_MS)), true)) as Ha.
  { unfold verify_begin, set_px_nx. by rewrite H. }
  assert (verify_begin late b = (mkRedis (clock late) (Some (b, clock late + AUDIT_VERIFY_LOCK_TTL_MS)), true)) as Hb.
  { unfold verify_begin, set_px_nx, redis_get, late. rewrite Ha. cbn [fst stored clock].
    by rewrite (proj2 (Z.ltb_ge _ _)) by lia. }
  rewrite Ha, Hb. cbn [fst snd]. split; [done|]. split; [done|]. split; [|done].
  unfold verify_begin, set_px_nx, redis_get. cbn [stored clock].
  rewrite (proj2 (Z.ltb_lt _ _)) by (unfold AUDIT_VERIFY_LOCK_TTL_MS; lia). done.
Qed.

(** * A small log *)

(** A stand-in for the digest, to evaluate the chain on: 32 bytes of a checksum. *)
Definition checksum (m : bytes) : bytes := repeat (foldl (fun acc x => (31 * acc + x) mod 251) 7 m) 32.

Lemma checksum_digest m : length (checksum m) = 32%nat ∧ Forall (fun x => 0 ≤ x < 256) (checksum m).
Proof.
  unfold checksum. rewrite repeat_length. split; [done|]. apply Forall_forall.
  intros x Hx%list_elem_of_In%repeat_spec. subst x. assert (0 ≤ 7 < 251) as H by lia. revert H. generalize 7.
  induction m as [|y m IH]; intros a Ha; simpl; [lia|]. apply IH. apply Z.mod_pos_bound. lia.
Qed.

Definition ex_new (action : jstr) : AuditChainRow :=
  MkAuditRow [] 0 action (Some (js "player")) None (js "{}") (js "2026-01-01 00:00:00+00") (js "2026-01-01T00:00:00.000000Z")
    (js "player") (Some (js "a|b")) None None (Some (js "10.0.0.1")) None (Some (js "{}")) (Some (js "200")) None None [].
Definition ex_log : list AuditChainRow :=
  append_all checksum [] [(js "1", ex_new (js "login")); (js "2", ex_new (js "ban")); (js "3", ex_new (js "unban"))].
Definition ex_anchor : AuditChainAnchor :=
  match ex_log !! 1%nat with Some r => MkAnchor (a_id r) (row_hash_hex r) | None => MkAnchor [] [] end.
(** The log with the second row's action rewritten. *)
Definition ex_edited : AuditChainRow :=
  match ex_log !! 1%nat with
  | Some r => MkAuditRow (a_id r) 2 (js "kick") (target_type r) (target_id r) (context_text r) (created_at r)
      (created_at_utc r) (actor_kind r) (actor_player_id r) (actor_token_id r) (actor_system_label r) (actor_ip r)
      (before_snapshot_text r) (after_snapshot_text r) (status_code_text r) (duration_ms_text r) (prev_hash_hex r) (row_hash_hex r)
  | None => ex_new []
  end.

Lemma ex_log_v2 : Forall v2_row ex_log.
Proof. unfold v2_row, row_wf. repeat constructor. Qed.

Lemma paging_irrelevant_witness :
  verify_chain_route checksum 2 (Some ex_anchor) ex_log =
  Some (MkChainResult true 3 None None, (fun r => MkAnchor (a_id r) (row_hash_hex r)) <$> last ex_log).
Proof.
  rewrite (paging_irrelevant checksum 2 (Some ex_anchor) ex_log).
  - vm_compute. reflexivity.
  - lia.
  - unfold ids_increasing. repeat constructor.
  - assert (Forall (fun r => 0 < id_num r) ex_log) as H by (repeat constructor).
    intros r Hr. exact (proj1 (Forall_forall _ _) H r Hr).
Defined.


Lemma edit_is_reported_witness :
  collision checksum ∨
  verifyAuditChain checksum (<[1%nat := ex_edited]> ex_log) None = MkChainResult false 1 (Some (js "2")) (Some break_row_hash).
Proof.
  destruct (ex_log !! 1%nat) as [row|] eqn:E; [|vm_compute in E; discriminate E].
  pose proof (proj1 (Forall_lookup _ _) ex_log_v2 _ _ E) as Hrow.
  apply (edit_is_reported checksum checksum_digest ex_log 1 row ex_edited); [vm_compute; reflexivity|exact E|exact Hrow|..].
  - unfold v2_row, row_wf. repeat constructor.
  - intros H. apply (f_equal (fun l => nth 7 l None)) in H. vm_compute in E. apply (inj Some) in E. subst row. discriminate H.
  - vm_compute in E. apply (inj Some) in E. subst row. reflexivity.
  - vm_compute in E. apply (inj Some) in E. subst row. reflexivity.
Defined.

Lemma appended_log_verifies_witness :
  verifyAuditChain checksum ex_log (Some ex_anchor) = MkChainResult true 3 None None.
Proof.
  apply (appended_log_verifies checksum).
  - apply (bool_decide_unpack _). vm_compute. reflexivity.
  - intros a [= <-]. destruct (ex_log !! 1%nat) as [row|] eqn:E; [|vm_compute in E; discriminate E].
    exists row. split; [by eapply list_elem_of_lookup_2|]. unfold ex_anchor. by rewrite E.
Defined.

Lemma verify_lock_overrun_witness :
  (verify_begin (verify_end (verify_begin (mkRedis 600000 (stored (verify_begin (mkRedis 0 None) (js "a")).1)) (js "b")).1) (js "c")).2 = true.
Proof. exact (proj2 (proj2 (proj2 (verify_lock_overrun (mkRedis 0 None) (js "a") (js "b") (js "c") eq_refl)))). Defined.
