(* ===== verification/NetworkHost.v ===== *)
(** Hosts an operator may point the panel at
    ([packages/shared-types/src/network-host.ts],
    [apps/workers/rcon/src/address-guard.ts]): address literals, the ranges that
    must never be dialled, the private networks and their allowlist. *)
From S2P Require Import Prelude JsString.

(** * Strings *)

(** [toLowerCase] on the letters that decide anything here: ASCII, and the two
    others whose lower case contains an ASCII letter (U+0130, U+212A). Other
    letters keep their case; nothing compares them. *)
Definition lower_char (c : Z) : jstr :=
  if (65 <=? c) && (c <=? 90) then [c + 32]
  else if c =? 304 then [105; 775] else if c =? 8490 then [107] else [c].
Definition to_lower_case (s : jstr) : jstr := s ≫= lower_char.

Definition ends_with (suffix s : jstr) : bool := bool_decide (suffix `suffix_of` s).
Definition has_char (c : Z) (s : jstr) : bool := bool_decide (c ∈ s).
(** [s.slice(0, -1)] *)
Definition drop_last (s : jstr) : jstr := take (length s - 1) s.

(** [s.split('::')] *)
Fixpoint split_colons (s : jstr) : list jstr :=
  match s with
  | [] => [[]]
  | c :: s' =>
      match s' with
      | d :: rest =>
          if (c =? 58) && (d =? 58) then [] :: split_colons rest
          else match split_colons s' with w :: ws => (c :: w) :: ws | [] => [[c]] end
      | [] => [[c]]
      end
  end.

Example split_colons_ex : split_colons (js "fe80::1") = [js "fe80"; js "1"] ∧ split_colons (js "::") = [[]; []] ∧
  split_colons (js "1:::2") = [js "1"; js ":2"] ∧ split_colons (js "a:b") = [js "a:b"].
Proof. vm_compute. done. Qed.

Definition is_hex_lower (c : Z) : bool := is_digit c || ((97 <=? c) && (c <=? 102)).
Definition hex_digit_value (c : Z) : Z := if is_digit c then c - 48 else c - 87.
(** [Number.parseInt(group, 16)] on hexadecimal digits. *)
Definition parse_hex (s : jstr) : Z := foldl (fun acc c => acc * 16 + hex_digit_value c) 0 s.
(** [/^[0-9a-f]{1,4}$/] *)
Definition hex_group (s : jstr) : bool := (1 <=? length s)%nat && (length s <=? 4)%nat && forallb is_hex_lower s.

(** * Literals *)

(** [/^(0|[1-9][0-9]{0,2})$/] *)
Definition canonical_octet (s : jstr) : bool :=
  match s with
  | [c] => is_digit c
  | c :: rest => (49 <=? c) && (c <=? 57) && forallb is_digit rest && (length rest <=? 2)%nat
  | [] => false
  end.

Definition octet_of (part : jstr) : option Z :=
  if canonical_octet part then
    let value := digits_value part in if value >? 255 then None else Some value
  else None.

Definition parseCanonicalIpv4 (host : jstr) : option (list Z) :=
  let parts := split_on 46 host in
  if negb (length parts =? 4)%nat then None else mapM octet_of parts.

(** The [toGroups] of [parseIpv6]. *)
Definition toGroups (part : jstr) : option (list Z) :=
  if bool_decide (part = []) then Some []
  else mapM (fun g => if hex_group g then Some (parse_hex g) else None) (split_on 58 part).

(** [text.slice(text.lastIndexOf(':') + 1)] and what precedes it. *)
Definition last_part (text : jstr) : jstr := default [] (last (split_on 58 text)).
Definition before_last_part (text : jstr) : jstr := take (length text - length (last_part text)) text.

(** [(a << 8) | b] of octets. *)
Definition join_octets (a b : Z) : Z := jor (Z.shiftl a 8) b.

(** The IPv4 tail, as the last two groups, and the text before it. *)
Definition ipv6_tail (host : jstr) : option (jstr * list Z) :=
  if has_char 46 (last_part host) then
    match parseCanonicalIpv4 (last_part host) with
    | Some [a; b; c; d] =>
        let text := before_last_part host in
        Some (if ends_with (js "::") text then text else drop_last text, [join_octets a b; join_octets c d])
    | _ => None
    end
  else Some (host, []).

Definition parseIpv6 (host : jstr) : option (list Z) :=
  '(text, tail) ← ipv6_tail host;
  match split_colons text with
  | [_] => groups ← toGroups text; if (length (groups ++ tail) =? 8)%nat then Some (groups ++ tail) else None
  | [h; r] =>
      hd ← toGroups h; rest ← toGroups r;
      let known := (length hd + length rest + length tail)%nat in
      if (7 <? known)%nat then None else Some (hd ++ repeat 0 (8 - known) ++ rest ++ tail)
  | _ => None
  end.

(** * Ranges that must never be dialled *)

Definition isRestrictedIpv4 (octets : list Z) : bool :=
  let a := nth 0 octets 0 in
  let b := nth 1 octets 0 in
  if a =? 0 then true
  else if a =? 127 then true
  else if (a =? 169) && (b =? 254) then true
  else if a >=? 224 then true
  else false.

Definition isRestrictedIpv6 (groups : list Z) : bool :=
  let g i := nth i groups 0 in
  let embeddedV4 := [Z.shiftr (g 6%nat) 8; Z.land (g 6%nat) 255; Z.shiftr (g 7%nat) 8; Z.land (g 7%nat) 255] in
  let upperZero := (g 0%nat =? 0) && (g 1%nat =? 0) && (g 2%nat =? 0) && (g 3%nat =? 0) && (g 4%nat =? 0) in
  if upperZero && (g 5%nat =? 0) && (g 6%nat =? 0) && (g 7%nat <=? 1) then true
  else if upperZero && ((g 5%nat =? 65535) || (g 5%nat =? 0)) then isRestrictedIpv4 embeddedV4
  else if (g 0%nat =? 100) && (g 1%nat =? 65435) && (g 2%nat =? 0) && (g 3%nat =? 0) && (g 4%nat =? 0) && (g 5%nat =? 0)
  then isRestrictedIpv4 embeddedV4
  else if Z.land (g 0%nat) 65472 =? 65152 then true
  else if Z.land (g 0%nat) 65280 =? 65280 then true
  else false.

Definition RESTRICTED_NAMES : list jstr := [js "localhost"; js "metadata"; js "metadata.google.internal"].
Definition RESTRICTED_SUFFIXES : list jstr := [js ".localhost"; js ".docker.internal"; js ".containers.internal"].

(** [/^(0x[0-9a-f]*|[0-9]+)$/] *)
Definition numeric_label (l : jstr) : bool :=
  (starts_with (js "0x") l && forallb is_hex_lower (drop 2 l)) || all_digits l.

(** Brackets around a literal are dropped. *)
Definition strip_brackets (s : jstr) : jstr :=
  if starts_with (js "[") s && ends_with (js "]") s then drop_last (drop 1 s) else s.

Definition normalize_host (host : jstr) : jstr :=
  let normalized := strip_brackets (to_lower_case (trim host)) in
  if ends_with (js ".") normalized then drop_last normalized else normalized.

Definition isRestrictedNetworkHost (host : jstr) : bool :=
  let normalized := normalize_host host in
  if bool_decide (normalized = []) then true
  else if has_char 58 normalized then
    match parseIpv6 normalized with Some groups => isRestrictedIpv6 groups | None => true end
  else
    let labels := split_on 46 normalized in
    if forallb numeric_label labels then
      match parseCanonicalIpv4 normalized with Some octets => isRestrictedIpv4 octets | None => true end
    else if bool_decide (normalized ∈ RESTRICTED_NAMES) || existsb (fun s => ends_with s normalized) RESTRICTED_SUFFIXES
    then true
    else (length labels <? 2)%nat.

(** * Private networks *)

Record HostCidr := MkCidr { c_address : Z; c_prefix : Z }.

Definition IPV4_MAPPED_PREFIX : Z := Z.shiftl 65535 32.

(** [groups.reduce((acc, group) => (acc << bits) | BigInt(group), 0n)] *)
Definition reduce_bits (bits : Z) (l : list Z) : Z := foldl (fun acc g => Z.lor (Z.shiftl acc bits) g) 0 l.

Definition literalToBigInt (host : jstr) : option Z :=
  let text := strip_brackets (to_lower_case (trim host)) in
  if has_char 58 text then reduce_bits 16 <$> parseIpv6 text
  else (fun octets => Z.lor IPV4_MAPPED_PREFIX (reduce_bits 8 octets)) <$> parseCanonicalIpv4 text.

Definition isInCidr (address : Z) (cidr : HostCidr) : bool :=
  let shift := 128 - c_prefix cidr in Z.shiftr address shift =? Z.shiftr (c_address cidr) shift.

Inductive host_error := invalid_allowlist_entry (entry : jstr).

(** [/^[0-9]{1,3}$/] *)
Definition short_number (s : jstr) : bool := all_digits s && (length s <=? 3)%nat.

Definition parseCidr (entry : jstr) : result host_error HostCidr :=
  match split_on 47 (trim entry) with
  | literal :: rest =>
      let isV6 := has_char 58 literal in
      let maxLength := if isV6 then 128 else 32 in
      match literalToBigInt literal, rest with
      | Some address, [] => Ok (MkCidr address (if isV6 then maxLength else maxLength + 96))
      | Some address, [len] =>
          if negb (short_number len) then Throw (invalid_allowlist_entry entry)
          else let bits := digits_value len in
            if bits >? maxLength then Throw (invalid_allowlist_entry entry)
            else Ok (MkCidr address (if isV6 then bits else bits + 96))
      | _, _ => Throw (invalid_allowlist_entry entry)
      end
  | [] => Throw (invalid_allowlist_entry entry)
  end.

(** [PRIVATE_NETWORKS]; the entries are constants and parse. *)
Definition PRIVATE_NETWORKS : list HostCidr :=
  omap (fun e => match parseCidr e with Ok c => Some c | Throw _ => None end)
    [js "10.0.0.0/8"; js "172.16.0.0/12"; js "192.168.0.0/16"; js "100.64.0.0/10"; js "fc00::/7"].

Definition isPrivateNetworkAddress (host : jstr) : bool :=
  match literalToBigInt host with
  | Some address => existsb (isInCidr address) PRIVATE_NETWORKS
  | None => false
  end.

Fixpoint parse_cidrs (entries : list jstr) : result host_error (list HostCidr) :=
  match entries with
  | [] => Ok []
  | e :: es => let! c := parseCidr e in let! cs := parse_cidrs es in Ok (c :: cs)
  end.

(** [None] is [null]: no restriction. *)
Definition parsePrivateHostAllowlist (raw : option jstr) : result host_error (option (list HostCidr)) :=
  let text := trim (default [] raw) in
  if bool_decide (text = []) then Ok None
  else if bool_decide (to_lower_case text = js "none") then Ok (Some [])
  else let! cs := parse_cidrs (split_on 44 text) in Ok (Some cs).

Definition isPrivateHostAllowed (host : jstr) (allowlist : option (list HostCidr)) : bool :=
  match allowlist with
  | None => true
  | Some l =>
      if negb (isPrivateNetworkAddress host) then true
      else match literalToBigInt host with Some address => existsb (isInCidr address) l | None => false end
  end.

Inductive AddressRefusal := restricted | private_outside_allowlist.

Definition refuseResolvedAddresses (addresses : list jstr) (allowlist : option (list HostCidr)) : option AddressRefusal :=
  if (length addresses =? 0)%nat then Some restricted
  else if existsb isRestrictedNetworkHost addresses then Some restricted
  else if existsb (fun a => negb (isPrivateHostAllowed a allowlist)) addresses then Some private_outside_allowlist
  else None.

Example hosts_ex :
  isRestrictedNetworkHost (js "[::FFFF:127.0.0.1]") = true ∧ isRestrictedNetworkHost (js "127.1") = true ∧
  isRestrictedNetworkHost (js "192.168.1.5") = false ∧ isRestrictedNetworkHost (js "redis") = true ∧
  isRestrictedNetworkHost (js "game.example.com") = false ∧ isRestrictedNetworkHost (js "2001:db8::1") = false ∧
  length PRIVATE_NETWORKS = 5%nat ∧
  isPrivateNetworkAddress (js "::ffff:10.1.2.3") = true ∧ isPrivateNetworkAddress (js "172.32.0.1") = false.
Proof. vm_compute. done. Qed.

(** * Canonical dotted quads *)

Definition quad (octets : list Z) : jstr := join (js ".") (nat_str <$> octets).
Definition octet_ok (v : Z) : Prop := 0 ≤ v < 256.

Definition digit_chars : list Z := seqZ 48 10.

Lemma is_digit_elem c : is_digit c = true → c ∈ digit_chars.
Proof. unfold is_digit, digit_chars. intros. bool_to_Prop. apply elem_of_seqZ. lia. Qed.

(** Every canonical octet is how its value is written: checked digit by digit. *)
Lemma canonical_octet_print s : canonical_octet s = true → nat_str (digits_value s) = s.
Proof.
  intros H.
  assert (Forall (fun c => canonical_octet [c] = true → nat_str (digits_value [c]) = [c]) digit_chars ∧
    Forall (fun c => Forall (fun d => canonical_octet [c; d] = true → nat_str (digits_value [c; d]) = [c; d]) digit_chars) digit_chars ∧
    Forall (fun c => Forall (fun d => Forall (fun e => canonical_octet [c; d; e] = true →
      nat_str (digits_value [c; d; e]) = [c; d; e]) digit_chars) digit_chars) digit_chars) as (H1 & H2 & H3).
  { split; [|split]; apply (bool_decide_unpack _); vm_compute; reflexivity. }
  destruct s as [|c [|d [|e [|f s]]]]; [done| | | |].
  - rewrite Forall_forall in H1. apply H1; [|done]. by apply is_digit_elem.
  - pose proof H as H'. cbn [canonical_octet forallb] in H'. bool_to_Prop.
    assert (c ∈ digit_chars ∧ d ∈ digit_chars) as [Hc Hd] by (split; [apply elem_of_seqZ; lia|by apply is_digit_elem]).
    rewrite Forall_forall in H2. specialize (H2 c Hc). rewrite Forall_forall in H2. by apply H2.
  - pose proof H as H'. cbn [canonical_octet forallb] in H'. bool_to_Prop.
    assert (c ∈ digit_chars ∧ d ∈ digit_chars ∧ e ∈ digit_chars) as (Hc & Hd & He)
      by (split; [apply elem_of_seqZ; lia|split; by apply is_digit_elem]).
    rewrite Forall_forall in H3. specialize (H3 c Hc). rewrite Forall_forall in H3. specialize (H3 d Hd).
    rewrite Forall_forall in H3. by apply H3.
  - cbn [canonical_octet] in H. bool_to_Prop. match goal with Hl : (length _ <=? 2)%nat = true |- _ => simpl in Hl; done end.
Qed.

Lemma octet_of_iff part v : octet_of part = Some v ↔ octet_ok v ∧ part = nat_str v.
Proof.
  unfold octet_ok. split.
  - unfold octet_of. destruct (canonical_octet part) eqn:E; [|done]. cbv zeta.
    destruct (_ >? 255) eqn:E2; [done|]. rewrite Z.gtb_ltb in E2. bool_to_Prop. intros [= <-].
    rewrite canonical_octet_print by done. split; [|done]. split; [|lia]. apply digits_value_nonneg.
    destruct part as [|c [|d part]]; [done|simpl; by rewrite andb_true_r|]. cbn [canonical_octet] in E. bool_to_Prop.
    cbn [forallb]. rewrite andb_true_iff. split; [|done]. unfold is_digit. rewrite andb_true_iff, !Z.leb_le. lia.
  - intros [Hv ->]. assert (Forall (fun v => octet_of (nat_str v) = Some v) (seqZ 0 256)) as H
      by (apply (bool_decide_unpack _); vm_compute; reflexivity).
    rewrite Forall_forall in H. apply H, elem_of_seqZ. lia.
Qed.

Lemma mapM_octets parts o : mapM octet_of parts = Some o ↔ Forall octet_ok o ∧ parts = nat_str <$> o.
Proof.
  rewrite mapM_Some. split.
  - induction 1 as [|p v ps vs Hv _ [IH1 IH2]]; [done|]. apply octet_of_iff in Hv as [? ->].
    rewrite fmap_cons. split; [by constructor|by rewrite IH2].
  - intros [Ho ->]. induction Ho as [|v vs Hv _ IH]; [constructor|]. rewrite fmap_cons. constructor; [by apply octet_of_iff|done].
Qed.

(** A dotted quad is accepted exactly when it is how its four octets are
    written: reading and writing are inverse, and no other spelling (leading
    zeros, missing or extra parts, octets over 255) passes. *)
Theorem parseCanonicalIpv4_roundtrip host o :
  parseCanonicalIpv4 host = Some o ↔ length o = 4%nat ∧ Forall octet_ok o ∧ host = quad o.
Proof.
  unfold parseCanonicalIpv4, quad. cbv zeta. split.
  - destruct (length (split_on 46 host) =? 4)%nat eqn:E; [|done]. cbn [negb]. apply Nat.eqb_eq in E.
    intros [Ho Hp]%mapM_octets. rewrite Hp in E. rewrite length_fmap in E. split; [done|]. split; [done|].
    rewrite <-Hp. symmetry. apply join_split_on.
  - intros (Hlen & Ho & ->). rewrite split_on_join.
    + rewrite length_fmap, Hlen. cbn [Nat.eqb negb]. by apply mapM_octets.
    + by destruct o.
    + apply Forall_fmap. eapply Forall_impl; [exact Ho|]. intros v [Hv _] Hin. cbn in Hin.
      apply nat_str_chars in Hin; [lia|done].
Qed.

Lemma parse_ipv4_range host o : parseCanonicalIpv4 host = Some o → length o = 4%nat ∧ Forall octet_ok o.
Proof.
  unfold parseCanonicalIpv4. cbv zeta. destruct (length (split_on 46 host) =? 4)%nat eqn:E; [|done]. cbn [negb].
  apply Nat.eqb_eq in E. intros [Ho Hp]%mapM_octets. split; [|done]. by rewrite <-(length_fmap nat_str), <-Hp.
Qed.

(** * IPv6 literals have eight groups of sixteen bits *)

Definition group_ok (g : Z) : Prop := 0 ≤ g < 65536.

Lemma hex_digit_range c : is_hex_lower c = true → 0 ≤ hex_digit_value c < 16.
Proof.
  unfold is_hex_lower, hex_digit_value, is_digit. intros Hh. destruct ((48 <=? c) && (c <=? 57)) eqn:E; [bool_to_Prop; lia|].
  cbn [orb] in Hh. bool_to_Prop. lia.
Qed.

Lemma parse_hex_bound s acc : forallb is_hex_lower s = true → 0 ≤ acc →
  0 ≤ foldl (fun acc c => acc * 16 + hex_digit_value c) acc s < (acc + 1) * 16 ^ Z.of_nat (length s).
Proof.
  revert acc. induction s as [|c s IH]; intros acc Hs Ha; [simpl; lia|].
  cbn [forallb] in Hs. apply andb_true_iff in Hs as [Hc Hs]. pose proof (hex_digit_range c Hc).
  cbn [foldl length]. specialize (IH (acc * 16 + hex_digit_value c) Hs). rewrite Nat2Z.inj_succ, Z.pow_succ_r by lia.
  pose proof (Z.pow_pos_nonneg 16 (Z.of_nat (length s))). nia.
Qed.

Lemma hex_group_ok g : hex_group g = true → group_ok (parse_hex g).
Proof.
  unfold hex_group, group_ok, parse_hex. intros H. apply andb_true_iff in H as [[H1 H2]%andb_true_iff H3].
  apply Nat.leb_le in H1, H2. pose proof (parse_hex_bound g 0 H3). 
  assert (16 ^ Z.of_nat (length g) ≤ 16 ^ 4) by (apply Z.pow_le_mono_r; lia). lia.
Qed.

Lemma toGroups_ok part gs : toGroups part = Some gs → Forall group_ok gs.
Proof.
  unfold toGroups. case_bool_decide; [by intros [= <-]|]. intros Hm%mapM_Some.
  induction Hm as [|p g ps gs' Hg _ IH]; [constructor|]. destruct (hex_group p) eqn:E; [|done].
  injection Hg as <-. constructor; [by apply hex_group_ok|done].
Qed.

Lemma join_octets_eq a b : octet_ok a → octet_ok b → join_octets a b = a * 256 + b.
Proof.
  unfold octet_ok, join_octets, jor. intros Ha Hb. rewrite Z.shiftl_mul_pow2 by lia. change (2 ^ 8) with 256.
  unfold to_uint32. rewrite !Z.mod_small by lia.
  assert (Z.lor (a * 256) b = a * 256 + b) as ->.
  { rewrite <-Z.lxor_lor, <-Z.add_nocarry_lxor; [done|..];
      (change 256 with (2 ^ 8); rewrite <-Z.shiftl_mul_pow2 by lia;
       apply Z.bits_inj'; intros i Hi; rewrite Z.land_spec, Z.bits_0;
       destruct (decide (i < 8)); [by rewrite Z.shiftl_spec_low|];
       rewrite (Z.bits_above_log2 b), andb_false_r; [done|lia|];
       destruct (decide (b = 0)) as [->|]; [simpl; lia|]; apply Z.log2_lt_pow2; [lia|];
       assert (2 ^ 8 ≤ 2 ^ i) by (apply Z.pow_le_mono_r; lia); lia). }
  unfold to_int32, to_uint32. cbv zeta. rewrite Z.mod_small by lia. case_match; bool_to_Prop; lia.
Qed.

Lemma ipv6_tail_ok host text tail :
  ipv6_tail host = Some (text, tail) → Forall group_ok tail ∧ (length tail ≤ 2)%nat.
Proof.
  unfold ipv6_tail. destruct (has_char 46 (last_part host)); [|intros [= _ <-]; split; [constructor|simpl; lia]].
  destruct (parseCanonicalIpv4 _) as [o|] eqn:E; [|done]. apply parse_ipv4_range in E as [Hlen Ho].
  destruct o as [|a [|b [|c [|d [|]]]]]; try done. cbv zeta. intros [= _ <-].
  rewrite !Forall_cons in Ho. destruct Ho as (Ha & Hb & Hc & Hd & _). rewrite !join_octets_eq by done.
  unfold octet_ok, group_ok in *. split; [repeat constructor; lia|simpl; lia].
Qed.

Lemma parseIpv6_ok host gs : parseIpv6 host = Some gs → length gs = 8%nat ∧ Forall group_ok gs.
Proof.
  unfold parseIpv6. destruct (ipv6_tail host) as [[text tail]|] eqn:Et; [|done].
  apply ipv6_tail_ok in Et as [Ht Hlt]. cbn [mbind option_bind].
  destruct (split_colons text) as [|h [|r [|]]]; try done.
  - destruct (toGroups text) as [g|] eqn:Eg; [|done]. cbn [mbind option_bind]. apply toGroups_ok in Eg.
    destruct (length (g ++ tail) =? 8)%nat eqn:E8; [|done]. intros [= <-]. apply Nat.eqb_eq in E8.
    split; [done|]. by apply Forall_app.
  - destruct (toGroups h) as [gh|] eqn:Eh; [|done]. destruct (toGroups r) as [gr|] eqn:Er; [|done].
    cbn [mbind option_bind]. cbv zeta. apply toGroups_ok in Eh, Er.
    destruct (7 <? _)%nat eqn:E7; [done|]. intros [= <-]. apply Nat.ltb_ge in E7. split.
    + rewrite !length_app, repeat_length. lia.
    + rewrite !Forall_app. repeat split; try done. apply Forall_forall. intros x Hx%list_elem_of_In%repeat_spec. subst. unfold group_ok. lia.
Qed.

(** C40: Whatever text is given, an IPv6 literal that is accepted expands to
    exactly eight groups, each of sixteen bits. *)
Theorem parseIpv6_type host gs : parseIpv6 host = Some gs → length gs = 8%nat ∧ Forall group_ok gs.
Proof. apply parseIpv6_ok. Qed.

Lemma parseIpv6_type_witness :
  parseIpv6 (js "64:ff9b::192.0.2.33") = Some [100; 65435; 0; 0; 0; 0; 49152; 545] ∧ Forall group_ok [100; 65435; 0; 0; 0; 0; 49152; 545].
Proof.
  assert (parseIpv6 (js "64:ff9b::192.0.2.33") = Some [100; 65435; 0; 0; 0; 0; 49152; 545]) as H by (vm_compute; reflexivity).
  split; [exact H|]. exact (proj2 (parseIpv6_type _ _ H)).
Defined.

(** * Addresses as numbers *)

Lemma lor_shiftl_add a b n : 0 ≤ n → 0 ≤ a → 0 ≤ b < 2 ^ n → Z.lor (Z.shiftl a n) b = a * 2 ^ n + b.
Proof.
  intros Hn Ha Hb. rewrite <-Z.lxor_lor, <-Z.add_nocarry_lxor, Z.shiftl_mul_pow2; [done|done|..].
  all: apply Z.bits_inj'; intros i Hi; rewrite Z.land_spec, Z.bits_0.
  all: destruct (decide (i < n)); [by rewrite Z.shiftl_spec_low|].
  all: destruct (decide (b = 0)) as [->|]; [by rewrite Z.bits_0, andb_false_r|].
  all: rewrite (Z.bits_above_log2 b), andb_false_r; [done|lia|]; apply Z.log2_lt_pow2; [lia|].
  all: assert (2 ^ n ≤ 2 ^ i) by (apply Z.pow_le_mono_r; lia); lia.
Qed.

Lemma reduce_bits_step bits l acc :
  0 ≤ bits → 0 ≤ acc → Forall (fun g => 0 ≤ g < 2 ^ bits) l →
  foldl (fun acc g => Z.lor (Z.shiftl acc bits) g) acc l = foldl (fun acc g => acc * 2 ^ bits + g) acc l ∧
  0 ≤ foldl (fun acc g => acc * 2 ^ bits + g) acc l < (acc + 1) * 2 ^ (bits * Z.of_nat (length l)).
Proof.
  intros Hb. revert acc. induction l as [|g l IH]; intros acc Ha Hl.
  { simpl. rewrite Z.mul_0_r. simpl. split; [done|lia]. }
  apply Forall_cons in Hl as [Hg Hl]. cbn [foldl length]. rewrite lor_shiftl_add by done.
  pose proof (Z.pow_pos_nonneg 2 bits ltac:(lia) Hb).
  pose proof (Z.mul_nonneg_nonneg acc (2 ^ bits) Ha ltac:(lia)).
  destruct (IH (acc * 2 ^ bits + g)) as [-> Hr]; [lia|done|]. split; [done|].
  replace (bits * Z.of_nat (S (length l))) with (bits + bits * Z.of_nat (length l)) by lia.
  rewrite Z.pow_add_r by lia. pose proof (Z.pow_pos_nonneg 2 (bits * Z.of_nat (length l))). nia.
Qed.

Lemma reduce_groups g0 g1 g2 g3 g4 g5 g6 g7 :
  Forall group_ok [g0; g1; g2; g3; g4; g5; g6; g7] →
  reduce_bits 16 [g0; g1; g2; g3; g4; g5; g6; g7] =
  ((((((g0 * 65536 + g1) * 65536 + g2) * 65536 + g3) * 65536 + g4) * 65536 + g5) * 65536 + g6) * 65536 + g7.
Proof. intros H. unfold reduce_bits. rewrite (proj1 (reduce_bits_step 16 _ 0 ltac:(lia) ltac:(lia) H)). simpl. lia. Qed.

(** Membership in a range compares exactly the leading bits. *)
Lemma isInCidr_bits_aux a c :
  c_prefix c ≤ 128 →
  isInCidr a c = true ↔ ∀ i, 128 - c_prefix c ≤ i → Z.testbit a i = Z.testbit (c_address c) i.
Proof.
  intros Hp. unfold isInCidr. cbv zeta. rewrite Z.eqb_eq. split.
  - intros H i Hi. apply (f_equal (fun z => Z.testbit z (i - (128 - c_prefix c)))) in H.
    rewrite !Z.shiftr_spec in H by lia. by replace (i - (128 - c_prefix c) + (128 - c_prefix c)) with i in H by lia.
  - intros H. apply Z.bits_inj'. intros i Hi. rewrite !Z.shiftr_spec by lia. apply H. lia.
Qed.

Lemma isInCidr_div a c : c_prefix c ≤ 128 →
  isInCidr a c = (a / 2 ^ (128 - c_prefix c) =? c_address c / 2 ^ (128 - c_prefix c)).
Proof. intros. unfold isInCidr. cbv zeta. by rewrite !Z.shiftr_div_pow2 by lia. Qed.

(** ** The restricted ranges, as a list *)

(** IPv4 networks as address and prefix length: this network, loopback,
    link-local, multicast with everything above. *)
Definition restricted_v4 : list (Z * Z) := [(0, 8); (127 * 2 ^ 24, 8); (169 * 2 ^ 24 + 254 * 2 ^ 16, 16); (224 * 2 ^ 24, 3)].
(** The upper 96 bits under which IPv4 addresses are embedded: mapped,
    compatible and NAT64. *)
Definition v4_embeddings : list Z := [65535; 0; (100 * 65536 + 65435) * 2 ^ 64].
Definition RESTRICTED_RANGES : list HostCidr :=
  (v4_embeddings ≫= fun u => (fun n => MkCidr (u * 2 ^ 32 + n.1) (96 + n.2)) <$> restricted_v4)
  ++ [MkCidr (65152 * 2 ^ 112) 10; MkCidr (65280 * 2 ^ 112) 8].

Lemma join_eq b h l h' l' : 0 ≤ l < b → 0 ≤ l' < b → h * b + l = h' * b + l' ↔ h = h' ∧ l = l'.
Proof. intros. split; [|by intros [-> ->]]. intros. assert (h = h') by nia. subst. lia. Qed.

Lemma div_join h l m : 0 ≤ l < 65536 → 0 < m → (h * 65536 + l) / (65536 * m) = h / m.
Proof. intros. rewrite <-Z.div_div, Z.div_add_l, (Z.div_small l), Z.add_0_r by lia. done. Qed.

(** [x & mask] for a mask of [n] ones above [k] zeros. *)
Lemma land_mask x k n : 0 ≤ k → 0 ≤ n → Z.land x ((2 ^ n - 1) * 2 ^ k) = ((x / 2 ^ k) mod 2 ^ n) * 2 ^ k.
Proof.
  intros Hk Hn. rewrite <-!Z.shiftl_mul_pow2, <-Z.land_ones, <-Z.shiftr_div_pow2 by done.
  replace (2 ^ n - 1) with (Z.ones n) by (rewrite Z.ones_equiv; lia).
  apply Z.bits_inj'. intros i Hi. rewrite Z.land_spec, !Z.shiftl_spec by lia.
  destruct (decide (i < k)).
  - rewrite !(Z.testbit_neg_r _ (i - k)) by lia. by rewrite andb_false_r.
  - rewrite Z.land_spec, Z.shiftr_spec by lia. by replace (i - k + k) with i by lia.
Qed.

Section Groups.
Context (g0 g1 g2 g3 g4 g5 g6 g7 : Z).
Context (Hok : Forall group_ok [g0; g1; g2; g3; g4; g5; g6; g7]).

Let value := reduce_bits 16 [g0; g1; g2; g3; g4; g5; g6; g7].
Let upper := ((((g0 * 65536 + g1) * 65536 + g2) * 65536 + g3) * 65536 + g4) * 65536 + g5.

Lemma groups_range : (0 ≤ g0 < 65536 ∧ 0 ≤ g1 < 65536 ∧ 0 ≤ g2 < 65536 ∧ 0 ≤ g3 < 65536) ∧
  (0 ≤ g4 < 65536 ∧ 0 ≤ g5 < 65536 ∧ 0 ≤ g6 < 65536 ∧ 0 ≤ g7 < 65536).
Proof. unfold group_ok in Hok. rewrite !Forall_cons in Hok. tauto. Qed.

Lemma value_shift s : 0 ≤ s ≤ 16 → value / 2 ^ (16 + s) = upper * 2 ^ (16 - s) + g6 / 2 ^ s.
Proof.
  intros Hs. pose proof groups_range. unfold value. rewrite reduce_groups by done. fold upper.
  assert (0 < 2 ^ s) by (apply Z.pow_pos_nonneg; lia).
  rewrite Z.pow_add_r, <-Z.div_div by lia. change (2 ^ 16) with 65536.
  rewrite Z.div_add_l, (Z.div_small g7) by lia. rewrite Z.add_0_r.
  assert (65536 = 2 ^ (16 - s) * 2 ^ s) as ->.
  { rewrite <-Z.pow_add_r by lia. by replace (16 - s + s) with 16 by lia. }
  rewrite Z.mul_assoc, Z.div_add_l; [done|lia].
Qed.

Lemma value_head s : 0 ≤ s ≤ 16 → value / 2 ^ (112 + s) = g0 / 2 ^ s.
Proof.
  intros Hs. pose proof groups_range. assert (0 < 2 ^ s) by (apply Z.pow_pos_nonneg; lia).
  rewrite Z.pow_add_r, <-Z.div_div by lia. f_equal.
  unfold value. rewrite reduce_groups by done.
  change (2 ^ 112) with (65536 * (65536 * (65536 * (65536 * (65536 * (65536 * (65536 * 1))))))).
  by rewrite !div_join, Z.div_1_r by lia.
Qed.

(** A network of [restricted_v4] under the embedding whose six upper groups are
    [u]. *)
Lemma v4_range u s n :
  0 ≤ u → 0 ≤ s ≤ 16 → 0 ≤ n < 2 ^ (16 - s) →
  isInCidr value (MkCidr (u * 2 ^ 32 + n * 2 ^ (16 + s)) (112 - s)) = (upper =? u) && (g6 / 2 ^ s =? n).
Proof.
  intros Hu Hs Hn. pose proof groups_range. rewrite isInCidr_div by (simpl; lia). cbn [c_prefix c_address].
  replace (128 - (112 - s)) with (16 + s) by lia. rewrite value_shift by done.
  assert (0 < 2 ^ s ∧ 0 < 2 ^ (16 - s)) as [? ?] by (split; apply Z.pow_pos_nonneg; lia).
  assert ((u * 2 ^ 32 + n * 2 ^ (16 + s)) / 2 ^ (16 + s) = u * 2 ^ (16 - s) + n) as ->.
  { replace 32 with ((16 - s) + (16 + s)) by lia. rewrite Z.pow_add_r by lia. rewrite Z.mul_assoc, <-Z.mul_add_distr_r.
    apply Z.div_mul. assert (0 < 2 ^ (16 + s)) by (apply Z.pow_pos_nonneg; lia). lia. }
  assert (0 ≤ g6 / 2 ^ s < 2 ^ (16 - s)).
  { split; [apply Z.div_pos; lia|]. apply Z.div_lt_upper_bound; [lia|]. rewrite <-Z.pow_add_r by lia.
    replace (s + (16 - s)) with 16 by lia. change (2 ^ 16) with 65536. lia. }
  apply eq_iff_eq_true. rewrite andb_true_iff, !Z.eqb_eq. by apply join_eq.
Qed.

(** The four networks, by the upper half of the embedded address. *)
Lemma v4_ranges u :
  0 ≤ u →
  existsb (isInCidr value) ((fun n => MkCidr (u * 2 ^ 32 + n.1) (96 + n.2)) <$> restricted_v4) =
  (upper =? u) && isRestrictedIpv4 [g6 / 256; g6 mod 256; g7 / 256; g7 mod 256].
Proof.
  intros Hu. pose proof groups_range.
  unfold restricted_v4. cbn [fmap list_fmap existsb fst snd].
  replace (MkCidr (u * 2 ^ 32 + 0) (96 + 8)) with (MkCidr (u * 2 ^ 32 + 0 * 2 ^ (16 + 8)) (112 - 8)) by (f_equal; lia).
  replace (MkCidr (u * 2 ^ 32 + 127 * 2 ^ 24) (96 + 8)) with (MkCidr (u * 2 ^ 32 + 127 * 2 ^ (16 + 8)) (112 - 8)) by (f_equal; lia).
  replace (MkCidr (u * 2 ^ 32 + (169 * 2 ^ 24 + 254 * 2 ^ 16)) (96 + 16))
    with (MkCidr (u * 2 ^ 32 + 43518 * 2 ^ (16 + 0)) (112 - 0)) by (f_equal; lia).
  replace (MkCidr (u * 2 ^ 32 + 224 * 2 ^ 24) (96 + 3)) with (MkCidr (u * 2 ^ 32 + 7 * 2 ^ (16 + 13)) (112 - 13)) by (f_equal; lia).
  rewrite !v4_range by lia. change (2 ^ 8) with 256. change (2 ^ 0) with 1. change (2 ^ 13) with 8192. rewrite Z.div_1_r.
  destruct (upper =? u); cbn [andb]; [|done]. rewrite orb_false_r. unfold isRestrictedIpv4. cbn [nth].
  assert ((g6 =? 43518) = (g6 / 256 =? 169) && (g6 mod 256 =? 254)) as ->.
  { apply eq_iff_eq_true. rewrite andb_true_iff, !Z.eqb_eq.
    split; [intros ->; done|]. intros [? ?]. rewrite (Z.div_mod g6 256) by done. lia. }
  assert ((g6 / 8192 =? 7) = (g6 / 256 >=? 224)) as ->.
  { rewrite Z.geb_leb. apply eq_iff_eq_true. rewrite Z.eqb_eq, Z.leb_le.
    change 8192 with (256 * 32). rewrite <-Z.div_div by lia.
    pose proof (Z.div_mod (g6 / 256) 32). pose proof (Z.mod_pos_bound (g6 / 256) 32).
    assert (g6 / 256 < 256) by (apply Z.div_lt_upper_bound; lia). lia. }
  repeat (case_match; cbn [orb]; try done).
Qed.

Lemma upper_eq u0 u1 u2 u3 u4 u5 :
  Forall group_ok [u0; u1; u2; u3; u4; u5] →
  (upper =? ((((u0 * 65536 + u1) * 65536 + u2) * 65536 + u3) * 65536 + u4) * 65536 + u5) =
  (g0 =? u0) && (g1 =? u1) && (g2 =? u2) && (g3 =? u3) && (g4 =? u4) && (g5 =? u5).
Proof.
  intros Hu. unfold group_ok in Hu. rewrite !Forall_cons in Hu. destruct Hu as (?&?&?&?&?&?&_). pose proof groups_range.
  apply eq_iff_eq_true. rewrite !andb_true_iff, !Z.eqb_eq. unfold upper. rewrite !join_eq by lia. tauto.
Qed.
End Groups.

Lemma isRestrictedIpv6_aux gs :
  length gs = 8%nat → Forall group_ok gs →
  isRestrictedIpv6 gs = existsb (isInCidr (reduce_bits 16 gs)) RESTRICTED_RANGES.
Proof.
  intros Hlen Hok. destruct gs as [|g0 [|g1 [|g2 [|g3 [|g4 [|g5 [|g6 [|g7 [|]]]]]]]]]; try done. clear Hlen.
  pose proof (groups_range _ _ _ _ _ _ _ _ Hok) as ((H0 & H1 & H2 & H3) & H4 & H5 & H6 & H7).
  unfold RESTRICTED_RANGES, v4_embeddings. cbn [mbind list_bind]. rewrite !existsb_app.
  rewrite !(v4_ranges _ _ _ _ _ _ _ _ Hok) by lia. cbn [existsb]. rewrite !orb_false_r.
  rewrite !isInCidr_div by (simpl; lia). cbn [c_prefix c_address].
  change (128 - 10) with (112 + 6). change (128 - 8) with (112 + 8). rewrite !(value_head _ _ _ _ _ _ _ _ Hok) by lia.
  change (65152 * 2 ^ 112 / 2 ^ (112 + 6)) with 1018. change (65280 * 2 ^ 112 / 2 ^ (112 + 8)) with 255.
  set (upper := ((((g0 * 65536 + g1) * 65536 + g2) * 65536 + g3) * 65536 + g4) * 65536 + g5).
  set (v4 := isRestrictedIpv4 [g6 / 256; g6 mod 256; g7 / 256; g7 mod 256]).
  assert ((upper =? 65535) = (g0 =? 0) && (g1 =? 0) && (g2 =? 0) && (g3 =? 0) && (g4 =? 0) && (g5 =? 65535)) as ->.
  { rewrite <-(upper_eq g0 g1 g2 g3 g4 g5 g6 g7 Hok 0 0 0 0 0 65535); [done|]. unfold group_ok. repeat constructor; lia. }
  assert ((upper =? 0) = (g0 =? 0) && (g1 =? 0) && (g2 =? 0) && (g3 =? 0) && (g4 =? 0) && (g5 =? 0)) as ->.
  { rewrite <-(upper_eq g0 g1 g2 g3 g4 g5 g6 g7 Hok 0 0 0 0 0 0); [done|]. unfold group_ok. repeat constructor; lia. }
  assert ((upper =? (100 * 65536 + 65435) * 2 ^ 64) =
    (g0 =? 100) && (g1 =? 65435) && (g2 =? 0) && (g3 =? 0) && (g4 =? 0) && (g5 =? 0)) as ->.
  { rewrite <-(upper_eq g0 g1 g2 g3 g4 g5 g6 g7 Hok 100 65435 0 0 0 0); [done|]. unfold group_ok. repeat constructor; lia. }
  unfold isRestrictedIpv6. cbn [nth]. rewrite !Z.shiftr_div_pow2 by lia.
  change (Z.land g6 255) with (Z.land g6 (Z.ones 8)). change (Z.land g7 255) with (Z.land g7 (Z.ones 8)).
  rewrite !Z.land_ones by lia. change (2 ^ 8) with 256. change (2 ^ 6) with 64. fold v4.
  assert ((Z.land g0 65472 =? 65152) = (g0 / 64 =? 1018)) as ->.
  { change 65472 with ((2 ^ 10 - 1) * 2 ^ 6). rewrite land_mask by lia. change (2 ^ 6) with 64. change (2 ^ 10) with 1024.
    rewrite Z.mod_small by (split; [apply Z.div_pos; lia|apply Z.div_lt_upper_bound; lia]).
    apply eq_iff_eq_true. rewrite !Z.eqb_eq. lia. }
  assert ((Z.land g0 65280 =? 65280) = (g0 / 256 =? 255)) as ->.
  { change 65280 with ((2 ^ 8 - 1) * 2 ^ 8) at 1. rewrite land_mask by lia. change (2 ^ 8) with 256.
    rewrite Z.mod_small by (split; [apply Z.div_pos; lia|apply Z.div_lt_upper_bound; lia]).
    apply eq_iff_eq_true. rewrite !Z.eqb_eq. lia. }
  assert (g6 = 0 → v4 = true) as Hv4 by by intros ->.
  destruct (g0 =? 0) eqn:E0; bool_to_Prop; [rewrite E0|]; cbn [andb orb].
  - change (0 =? 100) with false. change (0 / 64 =? 1018) with false. change (0 / 256 =? 255) with false. cbn [andb orb].
    rewrite !orb_false_r.
    destruct (g1 =? 0), (g2 =? 0), (g3 =? 0), (g4 =? 0); cbn [andb orb]; try done.
    destruct (g5 =? 0) eqn:E5; bool_to_Prop; [rewrite E5|].
    + change (0 =? 65535) with false. cbn [andb orb]. destruct (g6 =? 0) eqn:E6; [|done]. bool_to_Prop. rewrite Hv4 by done.
      by destruct (g7 <=? 1).
    + destruct (g5 =? 65535); cbn [andb orb]; rewrite ?orb_false_r; done.
  - destruct (_ && (g5 =? 0)) eqn:En; cbn [andb orb]; [|by repeat case_match].
    destruct v4; [done|]. bool_to_Prop. subst g0. done.
Qed.

(** * The guard on literals *)

Lemma isRestrictedIpv4_aux o :
  length o = 4%nat → Forall octet_ok o →
  isRestrictedIpv4 o = existsb (isInCidr (Z.lor IPV4_MAPPED_PREFIX (reduce_bits 8 o))) RESTRICTED_RANGES.
Proof.
  intros Hlen Ho. destruct o as [|a [|b [|c [|d [|]]]]]; try done.
  pose proof (reduce_bits_step 8 [a; b; c; d] 0 ltac:(lia) ltac:(lia) Ho) as [Hr Hb]. unfold reduce_bits. rewrite Hr.
  unfold IPV4_MAPPED_PREFIX. rewrite lor_shiftl_add; [|lia|lia|].
  2:{ revert Hb. cbn [foldl length]. change (8 * Z.of_nat 4) with 32. lia. }
  cbn [foldl]. change (2 ^ 8) with 256. change (2 ^ 32) with 4294967296.
  rewrite !Forall_cons in Ho. destruct Ho as (Ha & Hb' & Hc & Hd & _). unfold octet_ok in *.
  assert (Forall group_ok [0; 0; 0; 0; 0; 65535; a * 256 + b; c * 256 + d]) as Hg by (unfold group_ok; repeat constructor; lia).
  replace (65535 * 4294967296 + ((((0 * 256 + a) * 256 + b) * 256 + c) * 256 + d))
    with (reduce_bits 16 [0; 0; 0; 0; 0; 65535; a * 256 + b; c * 256 + d]) by (rewrite reduce_groups by done; lia).
  rewrite <-isRestrictedIpv6_aux by done. unfold isRestrictedIpv6. cbn [nth Z.eqb Pos.eqb andb orb].
  rewrite !Z.shiftr_div_pow2 by lia. change (2 ^ 8) with 256. rewrite Z.div_add_l, (Z.div_small b) by lia.
  change (Z.land (a * 256 + b) 255) with (Z.land (a * 256 + b) (Z.ones 8)). rewrite Z.land_ones by lia. change (2 ^ 8) with 256.
  rewrite (Z.add_comm (a * 256) b), Z.mod_add, (Z.mod_small b), Z.add_0_r by lia. done.
Qed.

Lemma last_split_snoc sep c s : c ≠ sep → ∃ w, last (split_on sep (s ++ [c])) = Some (w ++ [c]).
Proof.
  intros Hc. induction s as [|x s [w IH]]; simpl.
  - rewrite (proj2 (Z.eqb_neq _ _)) by done. by exists [].
  - destruct (split_on sep (s ++ [c])) as [|w0 ws] eqn:E; [by apply split_on_nonempty in E|].
    destruct (x =? sep); [by exists w|]. destruct ws as [|w1 ws]; [|by exists w].
    simpl in IH. injection IH as ->. by exists (x :: w).
Qed.

Lemma split_snoc_sep sep s : last (split_on sep (s ++ [sep])) = Some [].
Proof.
  induction s as [|x s IH]; simpl; [by rewrite Z.eqb_refl|].
  destruct (split_on sep (s ++ [sep])) as [|w0 ws] eqn:E; [by apply split_on_nonempty in E|].
  destruct (x =? sep); [done|]. destruct ws as [|w1 ws]; [|done]. simpl in IH. injection IH as ->. 
  exfalso. clear -E. destruct s as [|y s]; simpl in E; [by rewrite Z.eqb_refl in E|].
  assert (∀ s, (1 < length (split_on sep (s ++ [sep])))%nat) as Hlen.
  { clear. induction s as [|x s IH]; simpl; [by rewrite Z.eqb_refl; simpl; lia|]. destruct (x =? sep); [simpl; lia|].
    destruct (split_on sep (s ++ [sep])); simpl in *; lia. }
  specialize (Hlen (y :: s)). simpl in Hlen. rewrite E in Hlen. simpl in Hlen. lia.
Qed.

Lemma quad_no_dot_end s : is_Some (parseCanonicalIpv4 s) → ends_with (js ".") s = false.
Proof.
  intros [o Ho]. apply bool_decide_eq_false. intros [p ->]. unfold parseCanonicalIpv4 in Ho. cbv zeta in Ho.
  destruct (negb _); [done|]. pose proof (split_snoc_sep 46 p) as Hl. change (js ".") with [46] in Ho.
  apply mapM_Some in Ho. rewrite last_lookup in Hl.
  destruct (Forall2_lookup_l _ _ _ _ _ Ho Hl) as (v & _ & Hv). done.
Qed.

Lemma ipv6_no_dot_end s : is_Some (parseIpv6 s) → ends_with (js ".") s = false.
Proof.
  intros [gs Hg]. apply bool_decide_eq_false. intros [p ->]. unfold parseIpv6, ipv6_tail in Hg.
  change (js ".") with [46] in Hg. destruct (last_split_snoc 58 46 p ltac:(done)) as [w Hw].
  assert (last_part (p ++ [46]) = w ++ [46]) as Hlp by (unfold last_part; by rewrite Hw).
  rewrite Hlp in Hg. unfold has_char in Hg. rewrite bool_decide_true in Hg by set_solver.
  destruct (parseCanonicalIpv4 (w ++ [46])) as [o|] eqn:E; [|done].
  pose proof (quad_no_dot_end (w ++ [46]) ltac:(by rewrite E)) as Hd. unfold ends_with in Hd.
  apply bool_decide_eq_false in Hd. destruct Hd. by exists w.
Qed.

Lemma quad_labels s o : parseCanonicalIpv4 s = Some o → forallb numeric_label (split_on 46 s) = true ∧ s ≠ [].
Proof.
  unfold parseCanonicalIpv4. cbv zeta. destruct (length (split_on 46 s) =? 4)%nat eqn:E; [|done]. cbn [negb].
  intros [Ho Hp]%mapM_octets. split; [|intros ->; simpl in E; done]. rewrite Hp. apply forallb_forall.
  intros l (v & -> & Hv)%list_elem_of_In%list_elem_of_fmap. rewrite Forall_forall in Ho. specialize (Ho v Hv).
  unfold numeric_label, all_digits. apply orb_true_iff. right. destruct (nat_str_spec v) as [Hd Hc]; [destruct Ho; lia|].
  rewrite Hc, andb_true_r. apply negb_true_iff, bool_decide_eq_false. intros Hnil. rewrite Hnil in Hd. simpl in Hd. by subst v.
Qed.

Lemma literal_guard_aux host a :
  literalToBigInt host = Some a → isRestrictedNetworkHost host = existsb (isInCidr a) RESTRICTED_RANGES.
Proof.
  unfold literalToBigInt, isRestrictedNetworkHost, normalize_host. cbv zeta.
  set (text := strip_brackets (to_lower_case (trim host))). destruct (has_char 58 text) eqn:E6.
  - destruct (parseIpv6 text) as [gs|] eqn:Ep; [|done]. intros [= <-].
    rewrite ipv6_no_dot_end by by rewrite Ep. rewrite E6, Ep.
    rewrite bool_decide_false by (intros ->; done). by apply isRestrictedIpv6_aux; apply parseIpv6_ok in Ep as [? ?].
  - destruct (parseCanonicalIpv4 text) as [o|] eqn:Ep; [|done]. intros [= <-].
    rewrite quad_no_dot_end by by rewrite Ep. destruct (quad_labels _ _ Ep) as [Hl Hne].
    rewrite E6, Hl, Ep. rewrite bool_decide_false by done.
    by apply isRestrictedIpv4_aux; apply parse_ipv4_range in Ep as [? ?].
Qed.

(** On every address literal, in whatever spelling (brackets, upper case,
    an IPv4 tail, [::] anywhere), the guard refuses exactly the addresses of the
    restricted ranges: this-network, loopback, link-local, multicast and
    reserved IPv4, plain or embedded in IPv6 as mapped, compatible or NAT64,
    and IPv6 link-local and multicast. *)
Theorem literal_guard_exact host a :
  literalToBigInt host = Some a → isRestrictedNetworkHost host = existsb (isInCidr a) RESTRICTED_RANGES.
Proof. apply literal_guard_aux. Qed.

Lemma literal_guard_exact_witness :
  isRestrictedNetworkHost (js " [::FFFF:169.254.169.254] ") = true ∧ isRestrictedNetworkHost (js "FE7F::1") = false.
Proof.
  rewrite (literal_guard_exact (js " [::FFFF:169.254.169.254] ") 281473533782526) by (vm_compute; reflexivity).
  rewrite (literal_guard_exact (js "FE7F::1") 338283332630402554826390366345018474497) by (vm_compute; reflexivity).
  split; vm_compute; reflexivity.
Defined.

(** When the addresses a name resolved to are not refused, there is at least
    one, none of them lies in a restricted range, and those in a private network
    lie in the allowlist if there is one. *)
Theorem resolved_addresses_safe addresses allowlist :
  refuseResolvedAddresses addresses allowlist = None →
  addresses ≠ [] ∧ ∀ host a, host ∈ addresses → literalToBigInt host = Some a →
    existsb (isInCidr a) RESTRICTED_RANGES = false ∧
    ∀ l, allowlist = Some l → existsb (isInCidr a) PRIVATE_NETWORKS = true → existsb (isInCidr a) l = true.
Proof.
  unfold refuseResolvedAddresses. destruct (length addresses =? 0)%nat eqn:E0; [done|].
  destruct (existsb isRestrictedNetworkHost addresses) eqn:E1; [done|].
  destruct (existsb (fun a => negb (isPrivateHostAllowed a allowlist)) addresses) eqn:E2; [done|].
  intros _. split; [by intros ->|]. intros host a Hin Ha.
  assert (∀ f, existsb f addresses = false → f host = false) as Hf.
  { intros f Hex. apply not_true_iff_false. intros Ht. apply not_true_iff_false in Hex. apply Hex, existsb_exists.
    exists host. split; [by apply list_elem_of_In|done]. }
  apply Hf in E1, E2. rewrite (literal_guard_aux host a Ha) in E1. split; [done|]. intros l -> Hp.
  unfold isPrivateHostAllowed, isPrivateNetworkAddress in E2. rewrite Ha, Hp in E2. cbn [negb] in E2.
  by apply negb_false_iff in E2.
Qed.

Lemma resolved_addresses_safe_witness :
  refuseResolvedAddresses [js "10.1.2.3"] (Some [MkCidr (65535 * 2 ^ 32 + 10 * 2 ^ 24) 104]) = None ∧
  existsb (isInCidr (65535 * 2 ^ 32 + 10 * 2 ^ 24 + 66051)) RESTRICTED_RANGES = false.
Proof.
  assert (refuseResolvedAddresses [js "10.1.2.3"] (Some [MkCidr (65535 * 2 ^ 32 + 10 * 2 ^ 24) 104]) = None) as H
    by (vm_compute; reflexivity).
  split; [exact H|]. destruct (resolved_addresses_safe _ _ H) as [_ Hs].
  apply (Hs (js "10.1.2.3")); [by left|vm_compute; reflexivity].
Defined.

(** * Ranges *)

(** A literal is a 128-bit number, an IPv4 one inside the mapped block. *)
Lemma literal_range host a :
  literalToBigInt host = Some a → 0 ≤ a < 2 ^ 128 ∧
  (has_char 58 (strip_brackets (to_lower_case (trim host))) = false → a / 2 ^ 32 = 65535).
Proof.
  unfold literalToBigInt. cbv zeta. destruct (has_char 58 _) eqn:E.
  - destruct (parseIpv6 _) as [gs|] eqn:Ep; [|done]. apply parseIpv6_ok in Ep as [Hlen Hok]. intros [= <-].
    destruct (reduce_bits_step 16 gs 0 ltac:(lia) ltac:(lia) Hok) as [Hr Hb]. unfold reduce_bits. rewrite Hr. rewrite Hlen in Hb.
    split; [exact Hb|done].
  - destruct (parseCanonicalIpv4 _) as [o|] eqn:Ep; [|done]. apply parse_ipv4_range in Ep as [Hlen Hok]. intros [= <-].
    destruct (reduce_bits_step 8 o 0 ltac:(lia) ltac:(lia) Hok) as [Hr Hb]. unfold reduce_bits. rewrite Hr. rewrite Hlen in Hb.
    change ((0 + 1) * 2 ^ (8 * Z.of_nat 4)) with (2 ^ 32) in Hb. unfold IPV4_MAPPED_PREFIX.
    rewrite lor_shiftl_add by (lia || done). split; [|intros _].
    + change (2 ^ 128) with (340282366920938463463374607431768211456). change (2 ^ 32) with 4294967296 in *. lia.
    + rewrite Z.div_add_l, Z.div_small by (done || lia). lia.
Qed.

Lemma trim_chars s c : c ∈ trim s → c ∈ s.
Proof. destruct (trim_infix s) as (p & q & Hs). intros Hc. rewrite Hs. set_solver. Qed.

Lemma split_chars sep c s w : w ∈ split_on sep s → c ∈ w → c ∈ s.
Proof.
  revert w. induction s as [|x s IH]; intros w; cbn [split_on].
  - by intros ->%list_elem_of_singleton.
  - destruct (x =? sep); [intros [->|Hw]%elem_of_cons Hc; [by apply not_elem_of_nil in Hc|right; by eapply IH]|].
    destruct (split_on sep s) as [|w0 ws] eqn:E; [intros ->%list_elem_of_singleton Hc; set_solver|].
    intros [->|Hw]%elem_of_cons Hc; [|right; eapply IH; [by right|done]].
    apply elem_of_cons in Hc as [->|Hc]; [by left|right; eapply IH; [by left|done]].
Qed.

Lemma literal_chars s : 58 ∈ strip_brackets (to_lower_case (trim s)) → 58 ∈ s.
Proof.
  intros Hin. assert (58 ∈ to_lower_case (trim s)) as Hl.
  { revert Hin. unfold strip_brackets, drop_last. case_match; [|done].
    intros Hin%(subseteq_take (length (drop 1 (to_lower_case (trim s))) - 1)). by eapply (subseteq_drop 1). }
  unfold to_lower_case in Hl. apply list_elem_of_bind in Hl as (c & Hc & Hs). apply trim_chars.
  unfold lower_char in Hc. repeat case_match; bool_to_Prop; repeat (apply elem_of_cons in Hc as [Hc|Hc]; [subst; try lia; try done|]);
    try by apply not_elem_of_nil in Hc.
Qed.

(** Every accepted allowlist entry is a 128-bit address with a prefix of 0 to
    128 bits, 96 to 128 inside the mapped block for IPv4, and membership compares
    exactly that many leading bits. *)
Theorem allowlist_entry_bounds entry c :
  parseCidr entry = Ok c →
  0 ≤ c_address c < 2 ^ 128 ∧ 0 ≤ c_prefix c ≤ 128 ∧
  (has_char 58 entry = false → 96 ≤ c_prefix c ∧ c_address c / 2 ^ 32 = 65535) ∧
  ∀ a, isInCidr a c = true ↔ ∀ i, 128 - c_prefix c ≤ i → Z.testbit a i = Z.testbit (c_address c) i.
Proof.
  unfold parseCidr. intros H. pose proof (fun c => split_chars 47 c (trim entry)) as Hsplit.
  destruct (split_on 47 (trim entry)) as [|literal rest]; [done|]. cbv zeta in H.
  assert (has_char 58 entry = false → has_char 58 literal = false) as Hchar.
  { intros He. apply bool_decide_eq_false. apply bool_decide_eq_false in He. intros Hin. apply He, trim_chars.
    eapply Hsplit; [left|exact Hin]. }
  clear Hsplit. set (maxLength := if has_char 58 literal then 128 else 32) in H.
  assert (∃ address bits, literalToBigInt literal = Some address ∧ 0 ≤ bits ≤ maxLength ∧
    c = MkCidr address (if has_char 58 literal then bits else bits + 96)) as (address & bits & Ha & Hb & ->).
  { destruct (literalToBigInt literal) as [address|]; [|by destruct rest]. destruct rest as [|len [|]]; [| |done].
    - apply Ok_inj in H as <-. exists address, maxLength. split; [done|]. split; [unfold maxLength; case_match; lia|done].
    - destruct (negb (short_number len)) eqn:El; [done|]. destruct (digits_value len >? maxLength) eqn:Em; [done|].
      apply Ok_inj in H as <-. exists address, (digits_value len). split; [done|]. split; [|done].
      rewrite Z.gtb_ltb in Em. apply negb_false_iff in El. unfold short_number, all_digits in El. bool_to_Prop.
      split; [by apply digits_value_nonneg|done]. }
  destruct (literal_range _ _ Ha) as [Hr H4]. cbn [c_address c_prefix]. unfold maxLength in Hb.
  split; [done|]. split; [case_match; lia|]. split.
  - intros He%Hchar. rewrite He in *. split; [lia|]. apply H4. apply bool_decide_eq_false. intros Hin.
    apply bool_decide_eq_false in He. by apply He, literal_chars.
  - intros a. apply isInCidr_bits_aux. cbn [c_prefix]. case_match; lia.
Qed.

Lemma allowlist_entry_bounds_witness :
  parseCidr (js "172.16.0.0/12") = Ok (MkCidr (65535 * 2 ^ 32 + 172 * 2 ^ 24 + 16 * 2 ^ 16) 108) ∧
  0 ≤ c_prefix (MkCidr (65535 * 2 ^ 32 + 172 * 2 ^ 24 + 16 * 2 ^ 16) 108) ≤ 128.
Proof.
  assert (parseCidr (js "172.16.0.0/12") = Ok (MkCidr (65535 * 2 ^ 32 + 172 * 2 ^ 24 + 16 * 2 ^ 16) 108)) as H
    by (vm_compute; reflexivity).
  split; [exact H|]. destruct (allowlist_entry_bounds _ _ H) as (_ & Hp & _). exact Hp.
Defined.

(** A trailing dot gets an address past the private-network allowlist: the
    restriction check drops the dot and sees the address, the allowlist check
    does not and takes it for a name. *)
Theorem trailing_dot_skips_allowlist :
  isRestrictedNetworkHost (js "10.0.0.5.") = false ∧ isRestrictedNetworkHost (js "10.0.0.5") = false ∧
  isPrivateHostAllowed (js "10.0.0.5") (Some []) = false ∧ isPrivateHostAllowed (js "10.0.0.5.") (Some []) = true ∧
  refuseResolvedAddresses [js "10.0.0.5."] (Some []) = None.
Proof. vm_compute. done. Qed.
