(* ===== verification/OutboundUrl.v ===== *)
(** URLs an operator stores and a worker fetches on its own
    ([packages/shared-config/src/outbound-url.ts],
    [apps/workers/ban-sync/src/fetch-source.ts]): which addresses count as
    public, the static check of a URL, and the download that re-checks every
    redirect hop and every resolved address. *)
From S2P Require Import Prelude JsString Collections NetworkHost.

(** * Addresses *)

(** [/^\d{1,3}$/] *)
Definition short_digits (s : jstr) : bool := all_digits s && (length s <=? 3)%nat.

Definition octet_value (part : jstr) : option Z :=
  if short_digits part then let octet := digits_value part in if octet >? 255 then None else Some octet else None.

(** Strict dotted quad to an unsigned 32-bit integer. *)
Definition parseIpv4 (text : jstr) : option Z :=
  let parts := split_on 46 text in
  if negb (length parts =? 4)%nat then None
  else (fun os => foldl (fun value o => value * 256 + o) 0 os) <$> mapM octet_value parts.

(** [NON_PUBLIC_IPV4_CIDRS] *)
Definition NON_PUBLIC_IPV4_CIDRS : list (Z * Z) :=
  omap (fun e => (fun v => (v, e.2)) <$> parseIpv4 e.1)
    [(js "0.0.0.0", 8); (js "10.0.0.0", 8); (js "100.64.0.0", 10); (js "127.0.0.0", 8); (js "169.254.0.0", 16);
     (js "172.16.0.0", 12); (js "192.0.0.0", 24); (js "192.0.2.0", 24); (js "192.168.0.0", 16); (js "198.18.0.0", 15);
     (js "198.51.100.0", 24); (js "203.0.113.0", 24); (js "224.0.0.0", 4); (js "240.0.0.0", 4)].

Definition isPublicIpv4 (value : Z) : bool :=
  negb (existsb (fun c => (value >=? c.1) && (value <? c.1 + 2 ^ (32 - c.2))) NON_PUBLIC_IPV4_CIDRS).

(** [/^[0-9a-f]{1,4}$/i] *)
Definition hex_group_ci (s : jstr) : bool := hex_group (to_lower_case s).

Definition parseGroups (half : jstr) : option (list Z) :=
  if bool_decide (half = []) then Some []
  else mapM (fun g => if hex_group_ci g then Some (parse_hex (to_lower_case g)) else None) (split_on 58 half).

Definition ipv6_tail (text : jstr) : option (jstr * list Z) :=
  if has_char 46 (last_part text) then
    v4 ← parseIpv4 (last_part text);
    let body := before_last_part text in
    Some (if ends_with (js "::") body then body else drop_last body, [v4 / 65536; v4 mod 65536])
  else Some (text, []).

Definition parseIpv6 (text : jstr) : option (list Z) :=
  '(body, tail) ← ipv6_tail text;
  match split_colons body with
  | [h] => hd ← parseGroups h; if (length (hd ++ tail) =? 8)%nat then Some (hd ++ tail) else None
  | [h; r] =>
      hd ← parseGroups h; rest ← parseGroups r;
      let explicit := (length hd + length rest + length tail)%nat in
      if (7 <? explicit)%nat then None else Some (hd ++ repeat 0 (8 - explicit) ++ rest ++ tail)
  | _ => None
  end.

Definition embeddedIpv4 (groups : list Z) : Z := nth 6 groups 0 * 65536 + nth 7 groups 0.

Definition isPublicIpv6 (groups : list Z) : bool :=
  let g i := nth i groups 0 in
  let first5 := (g 0%nat =? 0) && (g 1%nat =? 0) && (g 2%nat =? 0) && (g 3%nat =? 0) && (g 4%nat =? 0) in
  if first5 && (g 5%nat =? 0) then false
  else if first5 && (g 5%nat =? 65535) then isPublicIpv4 (embeddedIpv4 groups)
  else if (g 0%nat =? 100) && (g 1%nat =? 65435) && (g 2%nat =? 0) && (g 3%nat =? 0) && (g 4%nat =? 0) && (g 5%nat =? 0)
  then isPublicIpv4 (embeddedIpv4 groups)
  else if g 0%nat =? 8194 then isPublicIpv4 (g 1%nat * 65536 + g 2%nat)
  else if (g 0%nat =? 8193) && (g 1%nat =? 3512) then false
  else if (g 0%nat =? 256) && (g 1%nat =? 0) && (g 2%nat =? 0) && (g 3%nat =? 0) then false
  else if Z.land (g 0%nat) 65024 =? 64512 then false
  else if Z.land (g 0%nat) 65472 =? 65152 then false
  else if Z.land (g 0%nat) 65472 =? 65216 then false
  else if Z.land (g 0%nat) 65280 =? 65280 then false
  else true.

Definition isPublicUnicastAddress (address : jstr) : bool :=
  if has_char 37 address then false
  else match parseIpv4 address with
  | Some v4 => isPublicIpv4 v4
  | None =>
      if negb (has_char 58 address) then false
      else match parseIpv6 address with Some v6 => isPublicIpv6 v6 | None => false end
  end.

(** * The static check *)

(** The fields of a parsed [URL] the code reads. *)
Record URL := MkURL { protocol : jstr; username : jstr; password : jstr; hostname : jstr; origin : jstr; href : jstr }.

Inductive OutboundUrlRejection := invalid_url | unsupported_scheme | credentials_in_url | internal_host | forbidden_address.

Definition ALLOWED_PROTOCOLS : list jstr := [js "http:"; js "https:"].
Definition INTERNAL_NAME_SUFFIXES : list jstr :=
  [js ".localhost"; js ".local"; js ".internal"; js ".localdomain"; js ".home.arpa"].

Section Url.
(** The URL parser of the platform; [None] when it throws. *)
Context (new_URL : jstr → option URL).

Definition checkOutboundUrl (raw : jstr) : URL + OutboundUrlRejection :=
  match new_URL raw with
  | None => inr invalid_url
  | Some url =>
      if negb (bool_decide (protocol url ∈ ALLOWED_PROTOCOLS)) then inr unsupported_scheme
      else if negb (bool_decide (username url = []) && bool_decide (password url = [])) then inr credentials_in_url
      else
        let host := to_lower_case (hostname url) in
        if starts_with (js "[") host && ends_with (js "]") host then
          if isPublicUnicastAddress (drop_last (drop 1 host)) then inl url else inr forbidden_address
        else if bool_decide (is_Some (parseIpv4 host)) then
          if isPublicUnicastAddress host then inl url else inr forbidden_address
        else
          let name := if ends_with (js ".") host then drop_last host else host in
          if negb (has_char 46 name) || bool_decide (name = js "localhost") then inr internal_host
          else if existsb (fun s => ends_with s name) INTERNAL_NAME_SUFFIXES then inr internal_host
          else inl url
  end.

(** * The download *)

Definition MAX_REDIRECTS : nat := 5.
Definition REDIRECT_STATUSES : list Z := [301; 302; 303; 307; 308].

Inductive FetchSourceErrorReason :=
| fetch_timeout | fetch_http_status | size_limit_exceeded | fetch_network | forbidden_destination
| uncaught (** a [TypeError] of the URL parser *).

Context (isAddressAllowed : jstr → bool).

(** [url.hostname.replace(/^\[|\]$/g, '')] *)
Definition strip_literal (h : jstr) : jstr :=
  let h := if starts_with (js "[") h then drop 1 h else h in
  if ends_with (js "]") h then drop_last h else h.

(** [/^[\d.]+$|:/] *)
Definition looks_literal (s : jstr) : bool :=
  (negb (bool_decide (s = [])) && forallb (fun c => is_digit c || (c =? 46)) s) || has_char 58 s.

Definition assertAllowedUrl (raw : jstr) : result FetchSourceErrorReason URL :=
  match checkOutboundUrl raw with
  | inl url =>
      let literal := strip_literal (hostname url) in
      if looks_literal literal && negb (isAddressAllowed literal) then Throw forbidden_destination else Ok url
  | inr forbidden_address =>
      match new_URL raw with
      | Some url => if isAddressAllowed (strip_literal (hostname url)) then Ok url else Throw forbidden_destination
      | None => Throw uncaught
      end
  | inr _ => Throw forbidden_destination
  end.

(** Whether the socket connects to the host as an address, without a lookup. *)
Context (is_ip : jstr → bool).

(** What the network answers to one request. [content_length] is the header as
    [Number] reads it, [None] when it is absent or not a number; a body that is
    not streamed is one without chunks. *)
Inductive stream_end := stream_done | stream_abort | stream_error.
Record response := MkResponse {
  status : Z;
  location : option jstr;
  content_length : option Z;
  chunks : list (list Z);
  ending : stream_end;
}.
Inductive net_answer := net_abort | net_error | net_response (r : response).

(** The lookups and answers of the world, hop by hop; the timer may fire in any
    of them. *)
Inductive dns_answer := resolve_abort | resolve_error | resolved (l : list jstr).
Record net_world := MkWorld { w_dns : nat → dns_answer; w_net : nat → net_answer }.

(** A request as made: the URL, whether the header went along, and the addresses
    the socket may be connected to. *)
Record request := MkRequest { rq_url : URL; rq_auth : bool; rq_addresses : list jstr }.

(** The [lookup] hook of the dispatcher: the addresses the socket may use, or
    what [undiciFetch] rejects with. *)
Definition guardedLookup (entries : dns_answer) : result FetchSourceErrorReason (list jstr) :=
  match entries with
  | resolve_abort => Throw fetch_timeout
  | resolve_error | resolved [] => Throw fetch_network
  | resolved l => if existsb (fun a => negb (isAddressAllowed a)) l then Throw forbidden_destination else Ok l
  end.

(** The addresses a connection to [host] is made to. *)
Definition connect_to (entries : dns_answer) (host : jstr) : result FetchSourceErrorReason (list jstr) :=
  if is_ip host then Ok [host] else guardedLookup entries.

(** [new URL(location, base)] *)
Context (resolve_URL : jstr → URL → option URL).

Fixpoint follow (w : net_world) (auth : bool) (sourceOrigin : jstr) (hops_left : nat) (hop : nat) (current : URL)
    : list request * result FetchSourceErrorReason response :=
  let sendAuth := auth && bool_decide (origin current = sourceOrigin) in
  match connect_to (w_dns w hop) (strip_literal (hostname current)) with
  | Throw e => ([], Throw e)
  | Ok l =>
      let made := MkRequest current sendAuth l in
      match w_net w hop with
      | net_abort => ([made], Throw fetch_timeout)
      | net_error => ([made], Throw fetch_network)
      | net_response r =>
          if negb (bool_decide (status r ∈ REDIRECT_STATUSES)) then ([made], Ok r)
          else match location r with
          | None | Some [] => ([made], Throw fetch_http_status)
          | Some loc =>
              match hops_left with
              | O => ([made], Throw fetch_http_status)
              | S hops_left =>
                  match resolve_URL loc current with
                  | None => ([made], Throw uncaught)
                  | Some next =>
                      match assertAllowedUrl (href next) with
                      | Throw e => ([made], Throw e)
                      | Ok next => let '(rs, res) := follow w auth sourceOrigin hops_left (S hop) next in (made :: rs, res)
                      end
                  end
              end
          end
      end
  end.

(** [requestFollowingRedirects] *)
Definition requestFollowingRedirects (w : net_world) (url : jstr) (auth : bool)
    : list request * result FetchSourceErrorReason response :=
  match assertAllowedUrl url with
  | Throw e => ([], Throw e)
  | Ok current => follow w auth (origin current) MAX_REDIRECTS 0 current
  end.

(** The streaming loop: [held] are the bytes kept so far. *)
Fixpoint read_chunks (maxBytes : Z) (fin : stream_end) (held : list Z) (cs : list (list Z))
    : result FetchSourceErrorReason (list Z) :=
  match cs with
  | [] => match fin with stream_done => Ok held | stream_abort => Throw fetch_timeout | stream_error => Throw fetch_network end
  | c :: cs =>
      let bytes := Z.of_nat (length held) + Z.of_nat (length c) in
      if bytes >? maxBytes then Throw size_limit_exceeded else read_chunks maxBytes fin (held ++ c) cs
  end.

Definition readCappedBody (maxBytes : Z) (r : response) : result FetchSourceErrorReason (list Z) :=
  if negb ((200 <=? status r) && (status r <=? 299)) then Throw fetch_http_status
  else match content_length r with
  | Some n => if n >? maxBytes then Throw size_limit_exceeded else read_chunks maxBytes (ending r) [] (chunks r)
  | None => read_chunks maxBytes (ending r) [] (chunks r)
  end.

(** [fetchBanList]: the requests made and the bytes of the body. *)
Definition fetchBanList (w : net_world) (url : jstr) (auth : bool) (maxBytes : Z)
    : list request * result FetchSourceErrorReason (list Z) :=
  let '(made, res) := requestFollowingRedirects w url auth in
  (made, let! r := res in readCappedBody maxBytes r).
End Url.

Example public_ex :
  isPublicUnicastAddress (js "8.8.8.8") = true ∧ isPublicUnicastAddress (js "172.31.255.255") = false ∧
  isPublicUnicastAddress (js "2002:7f00:1::") = false ∧ isPublicUnicastAddress (js "2A00:1450::1") = true ∧
  isPublicUnicastAddress (js "fe80::1%eth0") = false ∧ length NON_PUBLIC_IPV4_CIDRS = 14%nat.
Proof. vm_compute. done. Qed.

(** * The public addresses, as ranges *)

(** A text as a 128-bit number, an IPv4 address in the mapped block. *)
Definition address_number (s : jstr) : option Z :=
  match parseIpv4 s with
  | Some v => Some (65535 * 2 ^ 32 + v)
  | None => if has_char 58 s then reduce_bits 16 <$> parseIpv6 s else None
  end.

(** The IPv4 networks under the upper [96 - k] bits [u], [k] bits above the end. *)
Definition embedded_ranges (u k : Z) : list HostCidr :=
  (fun n => MkCidr ((u * 2 ^ 32 + n.1) * 2 ^ k) (96 - k + n.2)) <$> NON_PUBLIC_IPV4_CIDRS.

Definition NON_PUBLIC_RANGES : list HostCidr :=
  [MkCidr 0 96] ++ embedded_ranges 65535 0 ++ embedded_ranges ((100 * 65536 + 65435) * 2 ^ 64) 0 ++ embedded_ranges 8194 80
  ++ [MkCidr ((8193 * 65536 + 3512) * 2 ^ 96) 32; MkCidr (256 * 2 ^ 112) 64; MkCidr (64512 * 2 ^ 112) 7;
      MkCidr (65152 * 2 ^ 112) 10; MkCidr (65216 * 2 ^ 112) 10; MkCidr (65280 * 2 ^ 112) 8].

Lemma aligned_interval v base n : 0 < n → base mod n = 0 → (v >=? base) && (v <? base + n) = (v / n =? base / n).
Proof.
  intros Hn Hb. rewrite Z.geb_leb. apply eq_iff_eq_true. rewrite andb_true_iff, Z.leb_le, Z.ltb_lt, Z.eqb_eq.
  pose proof (Z.div_mod v n ltac:(lia)). pose proof (Z.div_mod base n ltac:(lia)). pose proof (Z.mod_pos_bound v n Hn).
  split; [|nia]. intros [? ?]. symmetry. apply (Z.div_unique v n _ (v - base)); lia.
Qed.

(** The networks are aligned to their size and inside 32 bits. *)
Lemma networks_aligned :
  Forall (fun n => 0 ≤ n.1 < 2 ^ 32 ∧ 0 ≤ n.2 ≤ 32 ∧ n.1 mod 2 ^ (32 - n.2) = 0) NON_PUBLIC_IPV4_CIDRS.
Proof. apply (bool_decide_unpack _). vm_compute. done. Qed.

Lemma embedded_range u v r u' n k :
  0 ≤ k ≤ 96 → 0 ≤ r < 2 ^ k → 0 ≤ v < 2 ^ 32 → 0 ≤ n.1 < 2 ^ 32 → 0 ≤ n.2 ≤ 32 →
  isInCidr ((u * 2 ^ 32 + v) * 2 ^ k + r) (MkCidr ((u' * 2 ^ 32 + n.1) * 2 ^ k) (96 - k + n.2)) =
  (u =? u') && (v / 2 ^ (32 - n.2) =? n.1 / 2 ^ (32 - n.2)).
Proof.
  intros Hk Hr Hv Hn Hp. rewrite isInCidr_div by (simpl; lia). cbn [c_prefix c_address].
  replace (128 - (96 - k + n.2)) with (k + (32 - n.2)) by lia.
  assert (0 < 2 ^ k ∧ 0 < 2 ^ (32 - n.2) ∧ 0 < 2 ^ n.2) as (? & ? & ?) by (split_and!; apply Z.pow_pos_nonneg; lia).
  rewrite Z.pow_add_r, <-!Z.div_div by lia. rewrite Z.div_add_l, (Z.div_small r), Z.add_0_r, Z.div_mul by lia.
  assert (2 ^ 32 = 2 ^ n.2 * 2 ^ (32 - n.2)) as E by (rewrite <-Z.pow_add_r by lia; f_equal; lia).
  assert (∀ x, 0 ≤ x < 2 ^ 32 → 0 ≤ x / 2 ^ (32 - n.2) < 2 ^ n.2) as Hq.
  { intros x Hx. split; [apply Z.div_pos; lia|]. apply Z.div_lt_upper_bound; lia. }
  pose proof (Hq v Hv). pose proof (Hq n.1 Hn). rewrite E, !Z.mul_assoc, !Z.div_add_l by lia.
  apply eq_iff_eq_true. rewrite andb_true_iff, !Z.eqb_eq. by apply join_eq.
Qed.

Lemma embedded_ranges_spec u v r u' k :
  0 ≤ k ≤ 96 → 0 ≤ r < 2 ^ k → 0 ≤ v < 2 ^ 32 →
  existsb (isInCidr ((u * 2 ^ 32 + v) * 2 ^ k + r)) (embedded_ranges u' k) = (u =? u') && negb (isPublicIpv4 v).
Proof.
  intros Hk Hr Hv. unfold embedded_ranges, isPublicIpv4. rewrite negb_involutive.
  induction networks_aligned as [|n l (H1 & H2 & H3) _ IH]; [by rewrite andb_false_r|].
  cbn [fmap list_fmap existsb]. cbn [fmap list_fmap] in IH. rewrite IH, embedded_range, andb_orb_distrib_r by done.
  rewrite aligned_interval; [done| |done]. apply Z.pow_pos_nonneg; lia.
Qed.

Lemma octet_value_ok p v : octet_value p = Some v → octet_ok v.
Proof.
  unfold octet_value, octet_ok, short_digits, all_digits. destruct (_ && (length p <=? 3)%nat) eqn:E; [|done]. cbv zeta.
  destruct (_ >? 255) eqn:E2; [done|]. rewrite Z.gtb_ltb in E2. bool_to_Prop. intros [= <-].
  split; [by apply digits_value_nonneg|lia].
Qed.

Lemma parseIpv4_range s v : parseIpv4 s = Some v → 0 ≤ v < 2 ^ 32.
Proof.
  unfold parseIpv4. cbv zeta. destruct (length (split_on 46 s) =? 4)%nat eqn:E; [|done]. cbn [negb]. apply Nat.eqb_eq in E.
  destruct (mapM octet_value (split_on 46 s)) as [os|] eqn:Em; [|done]. intros [= <-]. apply mapM_Some in Em.
  pose proof (Forall2_length _ _ _ Em) as Hlen. rewrite E in Hlen.
  assert (Forall (fun g => 0 ≤ g < 2 ^ 8) os) as Hok.
  { clear -Em. induction Em as [|p o ps os Hp _ IH]; [done|]. constructor; [by apply octet_value_ok in Hp|done]. }
  destruct (reduce_bits_step 8 os 0 ltac:(lia) ltac:(lia) Hok) as [_ Hb]. rewrite <-Hlen in Hb. exact Hb.
Qed.

Lemma parseGroups_ok half gs : parseGroups half = Some gs → Forall group_ok gs.
Proof.
  unfold parseGroups. case_bool_decide; [by intros [= <-]|]. intros Hm%mapM_Some.
  induction Hm as [|p g ps gs' Hg _ IH]; [constructor|]. unfold hex_group_ci in Hg. destruct (hex_group _) eqn:E; [|done].
  injection Hg as <-. constructor; [by apply hex_group_ok|done].
Qed.

Lemma outbound_ipv6_ok text gs : parseIpv6 text = Some gs → length gs = 8%nat ∧ Forall group_ok gs.
Proof.
  unfold parseIpv6. destruct (ipv6_tail text) as [[body tail]|] eqn:Et; [|done]. cbn [mbind option_bind].
  assert (Forall group_ok tail) as Ht.
  { revert Et. unfold ipv6_tail. destruct (has_char 46 _); [|intros [= _ <-]; constructor].
    destruct (parseIpv4 _) as [v|] eqn:E; [|done]. apply parseIpv4_range in E. cbn [mbind option_bind]. intros [= _ <-].
    unfold group_ok. repeat constructor.
    - apply Z.div_pos; lia.
    - apply Z.div_lt_upper_bound; lia.
    - apply Z.mod_pos_bound; lia.
    - apply Z.mod_pos_bound; lia. }
  destruct (split_colons body) as [|h [|r [|]]]; try done.
  - destruct (parseGroups h) as [g|] eqn:Eg; [|done]. cbn [mbind option_bind]. apply parseGroups_ok in Eg.
    destruct (length (g ++ tail) =? 8)%nat eqn:E8; [|done]. intros [= <-]. apply Nat.eqb_eq in E8.
    split; [done|]. by apply Forall_app.
  - destruct (parseGroups h) as [gh|] eqn:Eh; [|done]. destruct (parseGroups r) as [gr|] eqn:Er; [|done].
    cbn [mbind option_bind]. cbv zeta. apply parseGroups_ok in Eh, Er.
    destruct (7 <? _)%nat eqn:E7; [done|]. intros [= <-]. apply Nat.ltb_ge in E7. split.
    + rewrite !length_app, repeat_length. lia.
    + rewrite !Forall_app. repeat split; try done. apply Forall_forall. intros x Hx%list_elem_of_In%repeat_spec. subst. unfold group_ok. lia.
Qed.

(** A prefix test on the first group by a mask. *)
Lemma mask_test x n k m :
  0 ≤ n → 0 ≤ k → 0 ≤ x < 2 ^ (n + k) → (Z.land x ((2 ^ n - 1) * 2 ^ k) =? m * 2 ^ k) = (x / 2 ^ k =? m).
Proof.
  intros Hn Hk Hx. assert (0 < 2 ^ k) by (apply Z.pow_pos_nonneg; lia). rewrite land_mask by done.
  rewrite Z.mod_small.
  - apply eq_iff_eq_true. rewrite !Z.eqb_eq. nia.
  - split; [apply Z.div_pos; lia|]. apply Z.div_lt_upper_bound; [done|]. rewrite <-Z.pow_add_r by done. rewrite Z.add_comm. apply Hx.
Qed.

Lemma public_ipv6_aux gs :
  length gs = 8%nat → Forall group_ok gs →
  isPublicIpv6 gs = negb (existsb (isInCidr (reduce_bits 16 gs)) NON_PUBLIC_RANGES).
Proof.
  intros Hlen Hok. destruct gs as [|g0 [|g1 [|g2 [|g3 [|g4 [|g5 [|g6 [|g7 [|]]]]]]]]]; try done. clear Hlen.
  pose proof (groups_range _ _ _ _ _ _ _ _ Hok) as ((H0 & H1 & H2 & H3) & H4 & H5 & H6 & H7).
  unfold NON_PUBLIC_RANGES. rewrite !existsb_app.
  set (upper := ((((g0 * 65536 + g1) * 65536 + g2) * 65536 + g3) * 65536 + g4) * 65536 + g5).
  set (a := reduce_bits 16 [g0; g1; g2; g3; g4; g5; g6; g7]).
  assert (a = (upper * 2 ^ 32 + (g6 * 65536 + g7)) * 2 ^ 0 + 0) as E1
    by (unfold a, upper; rewrite reduce_groups by done; change (2 ^ 32) with 4294967296; lia).
  assert (a = (g0 * 2 ^ 32 + (g1 * 65536 + g2)) * 2 ^ 80 + ((((g3 * 65536 + g4) * 65536 + g5) * 65536 + g6) * 65536 + g7)) as E2
    by (unfold a; rewrite reduce_groups by done; change (2 ^ 32) with 4294967296; change (2 ^ 80) with (65536 * 65536 * 65536 * 65536 * 65536); lia).
  assert (existsb (isInCidr a) (embedded_ranges 8194 80) = (g0 =? 8194) && negb (isPublicIpv4 (g1 * 65536 + g2))) as ->.
  { rewrite E2. apply embedded_ranges_spec; [lia| |change (2 ^ 32) with 4294967296; lia].
    change (2 ^ 80) with (65536 * 65536 * 65536 * 65536 * 65536). lia. }
  assert (∀ u, existsb (isInCidr a) (embedded_ranges u 0) = (upper =? u) && negb (isPublicIpv4 (g6 * 65536 + g7))) as Hemb.
  { intros u. rewrite E1. apply embedded_ranges_spec; [lia|lia|change (2 ^ 32) with 4294967296; lia]. }
  rewrite !Hemb. clear Hemb. cbn [existsb]. rewrite !orb_false_r.
  rewrite !isInCidr_div by (simpl; lia). cbn [c_prefix c_address].
  assert (a / 2 ^ (128 - 96) = upper) as ->.
  { rewrite E1. change (128 - 96) with 32. change (2 ^ 0) with 1. rewrite Z.mul_1_r, Z.add_0_r, Z.div_add_l by done.
    rewrite Z.div_small by (change (2 ^ 32) with 4294967296; lia). lia. }
  assert (a / 2 ^ (128 - 32) = g0 * 65536 + g1 ∧ a / 2 ^ (128 - 64) = ((g0 * 65536 + g1) * 65536 + g2) * 65536 + g3) as [-> ->].
  { unfold a. rewrite reduce_groups by done.
    change (2 ^ (128 - 32)) with (65536 * (65536 * (65536 * (65536 * (65536 * (65536 * 1)))))).
    change (2 ^ (128 - 64)) with (65536 * (65536 * (65536 * (65536 * 1)))). by rewrite !div_join, !Z.div_1_r by lia. }
  change (128 - 7) with (112 + 9). change (128 - 10) with (112 + 6). change (128 - 8) with (112 + 8).
  unfold a. rewrite !(value_head _ _ _ _ _ _ _ _ Hok) by lia. clear E1 E2.
  change (0 / 2 ^ (128 - 96)) with 0. change ((8193 * 65536 + 3512) * 2 ^ 96 / 2 ^ (128 - 32)) with (8193 * 65536 + 3512).
  change (256 * 2 ^ 112 / 2 ^ (128 - 64)) with (((256 * 65536 + 0) * 65536 + 0) * 65536 + 0).
  change (64512 * 2 ^ 112 / 2 ^ (112 + 9)) with 126. change (65152 * 2 ^ 112 / 2 ^ (112 + 6)) with 1018.
  change (65216 * 2 ^ 112 / 2 ^ (112 + 6)) with 1019. change (65280 * 2 ^ 112 / 2 ^ (112 + 8)) with 255.
  assert ((upper =? 65535) = (g0 =? 0) && (g1 =? 0) && (g2 =? 0) && (g3 =? 0) && (g4 =? 0) && (g5 =? 65535)) as ->.
  { rewrite <-(upper_eq g0 g1 g2 g3 g4 g5 g6 g7 Hok 0 0 0 0 0 65535); [done|]. unfold group_ok. repeat constructor; lia. }
  assert ((upper =? 0) = (g0 =? 0) && (g1 =? 0) && (g2 =? 0) && (g3 =? 0) && (g4 =? 0) && (g5 =? 0)) as ->.
  { rewrite <-(upper_eq g0 g1 g2 g3 g4 g5 g6 g7 Hok 0 0 0 0 0 0); [done|]. unfold group_ok. repeat constructor; lia. }
  assert ((upper =? (100 * 65536 + 65435) * 2 ^ 64) =
    (g0 =? 100) && (g1 =? 65435) && (g2 =? 0) && (g3 =? 0) && (g4 =? 0) && (g5 =? 0)) as ->.
  { rewrite <-(upper_eq g0 g1 g2 g3 g4 g5 g6 g7 Hok 100 65435 0 0 0 0); [done|]. unfold group_ok. repeat constructor; lia. }
  assert ((g0 * 65536 + g1 =? 8193 * 65536 + 3512) = (g0 =? 8193) && (g1 =? 3512)) as ->.
  { apply eq_iff_eq_true. rewrite andb_true_iff, !Z.eqb_eq. apply join_eq; lia. }
  assert ((((g0 * 65536 + g1) * 65536 + g2) * 65536 + g3 =? ((256 * 65536 + 0) * 65536 + 0) * 65536 + 0) =
    (g0 =? 256) && (g1 =? 0) && (g2 =? 0) && (g3 =? 0)) as ->.
  { apply eq_iff_eq_true. rewrite !andb_true_iff, !Z.eqb_eq, !join_eq by lia. tauto. }
  unfold isPublicIpv6, embeddedIpv4. cbn [nth].
  change 65024 with ((2 ^ 7 - 1) * 2 ^ 9). change 64512 with (126 * 2 ^ 9).
  change 65472 with ((2 ^ 10 - 1) * 2 ^ 6). change 65152 with (1018 * 2 ^ 6). change 65216 with (1019 * 2 ^ 6).
  change (Z.land g0 65280 =? 65280) with (Z.land g0 ((2 ^ 8 - 1) * 2 ^ 8) =? 255 * 2 ^ 8).
  rewrite !mask_test by (lia || exact H0).
  generalize (isPublicIpv4 (g6 * 65536 + g7)) as v4; intros v4. generalize (isPublicIpv4 (g1 * 65536 + g2)) as v6to4; intros v6to4.
  destruct (decide (g0 = 0)) as [->|N0]; [|destruct (decide (g0 = 100)) as [->|N1]; [|destruct (decide (g0 = 8194)) as [->|N2]]].
  - change (0 / 2 ^ 9 =? 126) with false. change (0 / 2 ^ 6) with 0. change (0 / 2 ^ 8 =? 255) with false.
    cbn [Z.eqb andb orb negb]. rewrite !orb_false_r.
    destruct (g1 =? 0), (g2 =? 0), (g3 =? 0), (g4 =? 0), (g5 =? 0), (g5 =? 65535), v4; done.
  - change (100 / 2 ^ 9 =? 126) with false. change (100 / 2 ^ 6) with 1. change (100 / 2 ^ 8 =? 255) with false.
    cbn [Z.eqb Pos.eqb andb orb negb]. rewrite !orb_false_r.
    destruct ((g1 =? 65435) && (g2 =? 0) && (g3 =? 0) && (g4 =? 0) && (g5 =? 0)), v4; done.
  - change (8194 / 2 ^ 9 =? 126) with false. change (8194 / 2 ^ 6) with 128. change (8194 / 2 ^ 8 =? 255) with false.
    cbn [Z.eqb Pos.eqb andb orb negb]. rewrite !orb_false_r. by destruct v6to4.
  - rewrite !(proj2 (Z.eqb_neq g0 _)) by done. cbn [andb orb].
    destruct ((g0 =? 8193) && (g1 =? 3512)); [done|]. cbn [orb].
    destruct ((g0 =? 256) && (g1 =? 0) && (g2 =? 0) && (g3 =? 0)); [done|]. cbn [orb].
    by destruct (g0 / 2 ^ 9 =? 126), (g0 / 2 ^ 6 =? 1018), (g0 / 2 ^ 6 =? 1019), (g0 / 2 ^ 8 =? 255).
Qed.

(** An IPv4 address is judged in the mapped block. *)
Lemma public_ipv4_aux v : 0 ≤ v < 2 ^ 32 → isPublicIpv4 v = negb (existsb (isInCidr (65535 * 2 ^ 32 + v)) NON_PUBLIC_RANGES).
Proof.
  intros Hv. change (2 ^ 32) with 4294967296 in Hv.
  assert (0 ≤ v / 65536 < 65536 ∧ 0 ≤ v mod 65536 < 65536) as [? ?]
    by (split; [split; [apply Z.div_pos|apply Z.div_lt_upper_bound]|apply Z.mod_pos_bound]; lia).
  assert (Forall group_ok [0; 0; 0; 0; 0; 65535; v / 65536; v mod 65536]) as Hg by (unfold group_ok; repeat constructor; lia).
  pose proof (Z.div_mod v 65536 ltac:(done)) as Hd.
  replace (65535 * 2 ^ 32 + v) with (reduce_bits 16 [0; 0; 0; 0; 0; 65535; v / 65536; v mod 65536])
    by (rewrite reduce_groups by done; change (2 ^ 32) with 4294967296; lia).
  rewrite <-public_ipv6_aux by done. unfold isPublicIpv6, embeddedIpv4. cbn [nth Z.eqb Pos.eqb andb].
  f_equal. lia.
Qed.

Lemma public_aux s a :
  has_char 37 s = false → address_number s = Some a →
  isPublicUnicastAddress s = negb (existsb (isInCidr a) NON_PUBLIC_RANGES).
Proof.
  unfold isPublicUnicastAddress, address_number. intros ->. destruct (parseIpv4 s) as [v|] eqn:E4.
  - intros [= <-]. apply public_ipv4_aux. by eapply parseIpv4_range.
  - destruct (has_char 58 s); [|done]. destruct (parseIpv6 s) as [gs|] eqn:E6; [|done]. intros [= <-]. cbn [negb].
    apply outbound_ipv6_ok in E6 as [? ?]. by apply public_ipv6_aux.
Qed.

(** A text is taken for a public address exactly when it is an address
    literal without a zone and its 128-bit value lies in none of the
    special-purpose ranges: the fourteen IPv4 networks, plain or behind a
    mapped, NAT64 or 6to4 prefix, and seven IPv6 ranges. The interval, group and
    mask tests of the code are membership by leading bits. *)
Theorem isPublicUnicastAddress_exact s :
  isPublicUnicastAddress s = true ↔
  has_char 37 s = false ∧ ∃ a, address_number s = Some a ∧ existsb (isInCidr a) NON_PUBLIC_RANGES = false.
Proof.
  split.
  - intros H. destruct (has_char 37 s) eqn:Ez; [unfold isPublicUnicastAddress in H; by rewrite Ez in H|]. split; [done|].
    destruct (address_number s) as [a|] eqn:Ea.
    + exists a. split; [done|]. rewrite (public_aux s a Ez Ea) in H. by apply negb_true_iff in H.
    + unfold isPublicUnicastAddress, address_number in *. rewrite Ez in H. destruct (parseIpv4 s); [done|].
      destruct (has_char 58 s); [|done]. by destruct (parseIpv6 s).
  - intros (Hz & a & Ha & He). by rewrite (public_aux s a Hz Ha), He.
Qed.

(** * The two guards agree *)

(** [covered n l c]: halving [c] at most [n] times gives ranges each inside one of
    [l]. *)
Definition subsumes (c d : HostCidr) : bool := (c_prefix c <=? c_prefix d) && isInCidr (c_address d) c.
Fixpoint covered (n : nat) (l : list HostCidr) (c : HostCidr) : bool :=
  existsb (fun d => subsumes d c) l ||
  match n with
  | O => false
  | S n => (c_prefix c <? 128) &&
      covered n l (MkCidr (c_address c) (c_prefix c + 1)) &&
      covered n l (MkCidr (Z.lxor (c_address c) (2 ^ (127 - c_prefix c))) (c_prefix c + 1))
  end.

Lemma subsumes_sound c d a : c_prefix d ≤ 128 → subsumes c d = true → isInCidr a d = true → isInCidr a c = true.
Proof.
  unfold subsumes. intros Hd [Hp Hc]%andb_true_iff Ha. apply Z.leb_le in Hp.
  apply (proj2 (isInCidr_bits_aux a c ltac:(lia))). rewrite isInCidr_bits_aux in Ha by done. rewrite isInCidr_bits_aux in Hc by lia.
  intros i Hi. rewrite <-Hc by done. apply Ha. lia.
Qed.

Lemma covered_sound n l c a : c_prefix c ≤ 128 → covered n l c = true → isInCidr a c = true → existsb (isInCidr a) l = true.
Proof.
  revert c. induction n as [|n IH]; intros c Hc; cbn [covered]; intros [Hs|Hs]%orb_true_iff Ha.
  1,3: apply existsb_exists in Hs as (d & Hd & Hs); apply existsb_exists; exists d; split; [done|]; by apply (subsumes_sound d c).
  { done. }
  apply andb_true_iff in Hs as [[Hp Hl]%andb_true_iff Hr]. apply Z.ltb_lt in Hp.
  rewrite isInCidr_bits_aux in Ha by done.
  destruct (decide (Z.testbit a (127 - c_prefix c) = Z.testbit (c_address c) (127 - c_prefix c))) as [E|E].
  - refine (IH _ _ Hl _); [simpl; lia|]. apply (isInCidr_bits_aux a (MkCidr (c_address c) (c_prefix c + 1))); [simpl; lia|]. cbn [c_prefix c_address]. intros i Hi.
    destruct (decide (i = 127 - c_prefix c)) as [->|]; [done|]. apply Ha. lia.
  - refine (IH _ _ Hr _); [simpl; lia|]. apply (isInCidr_bits_aux a (MkCidr (Z.lxor (c_address c) (2 ^ (127 - c_prefix c))) (c_prefix c + 1))); [simpl; lia|]. cbn [c_prefix c_address]. intros i Hi.
    destruct (decide (i < 0)); [by rewrite !Z.testbit_neg_r|].
    rewrite Z.lxor_spec, Z.pow2_bits_eqb by lia. destruct (127 - c_prefix c =? i) eqn:Ei; bool_to_Prop.
    + subst i. rewrite xorb_true_r. by destruct (Z.testbit a _), (Z.testbit (c_address c) _).
    + rewrite xorb_false_r. apply Ha. lia.
Qed.

Lemma covered_all :
  Forall (fun c => c_prefix c ≤ 128 ∧ covered 1 NON_PUBLIC_RANGES c = true) (RESTRICTED_RANGES ++ PRIVATE_NETWORKS).
Proof. apply (bool_decide_unpack _). vm_compute. done. Qed.

(** The two address guards of the repository agree: an address the ban-list
    download takes for public lies in no range the dialling guard restricts and
    in no private network, whatever the spelling of either. *)
Theorem public_outside_host_guard s a :
  isPublicUnicastAddress s = true → address_number s = Some a →
  existsb (isInCidr a) RESTRICTED_RANGES = false ∧ existsb (isInCidr a) PRIVATE_NETWORKS = false.
Proof.
  intros Hp Ha. assert (has_char 37 s = false) as Hz.
  { unfold isPublicUnicastAddress in Hp. by destruct (has_char 37 s). }
  rewrite (public_aux s a Hz Ha) in Hp. apply negb_true_iff in Hp. apply orb_false_iff. rewrite <-existsb_app.
  apply not_true_iff_false. intros (c & Hin%list_elem_of_In & Hc)%existsb_exists.
  pose proof covered_all as Hall. rewrite Forall_forall in Hall. destruct (Hall c Hin) as [Hl Hcov].
  by rewrite (covered_sound 1 _ c a Hl Hcov Hc) in Hp.
Qed.

Lemma public_outside_host_guard_witness :
  isPublicUnicastAddress (js "2A00:1450::8.8.8.8") = true ∧
  existsb (isInCidr 55827987809411540836515382960450963464) RESTRICTED_RANGES = false.
Proof.
  assert (isPublicUnicastAddress (js "2A00:1450::8.8.8.8") = true) as H by (vm_compute; reflexivity).
  split; [exact H|]. refine (proj1 (public_outside_host_guard _ _ H _)). vm_compute. reflexivity.
Defined.

(** * The static check *)

(** Where a URL that passed points: a public literal, or a qualified name that is
    not internal. *)
Definition static_target (host : jstr) : Prop :=
  (starts_with (js "[") host = true ∧ ends_with (js "]") host = true ∧ isPublicUnicastAddress (drop_last (drop 1 host)) = true) ∨
  (is_Some (parseIpv4 host) ∧ isPublicUnicastAddress host = true) ∨
  (parseIpv4 host = None ∧ ∃ name, (host = name ∨ host = name ++ js ".") ∧ 46 ∈ name ∧ name ≠ js "localhost" ∧
    ∀ s, s ∈ INTERNAL_NAME_SUFFIXES → ¬ s `suffix_of` name).

Lemma drop_last_snoc s c : drop_last (s ++ [c]) = s.
Proof. unfold drop_last. rewrite length_app, Nat.add_sub. by rewrite take_app_length. Qed.

Lemma checkOutboundUrl_ok_aux new_URL raw url :
  checkOutboundUrl new_URL raw = inl url →
  new_URL raw = Some url ∧ protocol url ∈ ALLOWED_PROTOCOLS ∧ username url = [] ∧ password url = [] ∧
  static_target (to_lower_case (hostname url)).
Proof.
  unfold checkOutboundUrl. destruct (new_URL raw) as [u|]; [|done].
  destruct (decide (protocol u ∈ ALLOWED_PROTOCOLS)) as [Hpr|]; [rewrite bool_decide_true by done|by rewrite bool_decide_false].
  cbn [negb]. destruct (decide (username u = [])) as [Hu|]; [rewrite (bool_decide_true (username u = [])) by done|by rewrite (bool_decide_false (username u = []))].
  destruct (decide (password u = [])) as [Hp|]; [rewrite (bool_decide_true (password u = [])) by done|by rewrite (bool_decide_false (password u = []))].
  cbn [negb andb]. cbv zeta. set (host := to_lower_case (hostname u)). intros H.
  enough (u = url ∧ static_target host) as [<- Ht] by (by split_and!).
  destruct (starts_with (js "[") host && ends_with (js "]") host) eqn:Eb.
  - apply andb_true_iff in Eb as [Hs He]. destruct (isPublicUnicastAddress _) eqn:Ep; [|done]. injection H as <-.
    split; [done|]. by left.
  - destruct (parseIpv4 host) as [v|] eqn:E4.
    + rewrite bool_decide_true in H by done. destruct (isPublicUnicastAddress host) eqn:Ep; [|done]. injection H as <-.
      split; [done|]. right. left. by rewrite E4.
    + rewrite bool_decide_false in H by by intros [? ?]. 
      set (name := if ends_with (js ".") host then drop_last host else host) in H.
      destruct (negb (has_char 46 name) || bool_decide (name = js "localhost")) eqn:En; [done|].
      destruct (existsb (fun s => ends_with s name) INTERNAL_NAME_SUFFIXES) eqn:Es; [done|]. injection H as <-.
      split; [done|]. right. right. split; [done|]. exists name.
      apply orb_false_iff in En as [En1 En2]. apply negb_false_iff, bool_decide_eq_true in En1. apply bool_decide_eq_false in En2.
      split_and!; [|done..|].
      * unfold name. destruct (ends_with (js ".") host) eqn:Ed; [|by left]. right. unfold ends_with in Ed.
        apply bool_decide_eq_true in Ed as [p ->]. change (js ".") with [46]. by rewrite drop_last_snoc.
      * intros s Hs Hsuf. apply not_true_iff_false in Es. apply Es, existsb_exists. exists s. split; [by apply list_elem_of_In|].
        by apply bool_decide_eq_true.
Qed.

(** A URL that passes the static check parses, is [http] or [https] without
    credentials, and its host is a public literal or a dotted name that is
    neither [localhost] nor under an internal suffix, a final dot aside. *)
Theorem checkOutboundUrl_ok new_URL raw url :
  checkOutboundUrl new_URL raw = inl url →
  new_URL raw = Some url ∧ protocol url ∈ ALLOWED_PROTOCOLS ∧ username url = [] ∧ password url = [] ∧
  static_target (to_lower_case (hostname url)).
Proof. apply checkOutboundUrl_ok_aux. Qed.

(** * Literal hosts *)

Lemma split_on_chars sep c s : c ∈ s → c = sep ∨ ∃ w, w ∈ split_on sep s ∧ c ∈ w.
Proof.
  induction s as [|x s IH]; [by intros ?%not_elem_of_nil|]. cbn [split_on]. intros Hc.
  destruct (x =? sep) eqn:Ex; bool_to_Prop.
  - apply elem_of_cons in Hc as [->|Hc]; [by left|]. destruct (IH Hc) as [?|(w & Hw & ?)]; [by left|]. right. exists w.
    split; [by right|done].
  - destruct (split_on sep s) as [|w ws] eqn:Es; [by apply split_on_nonempty in Es|].
    apply elem_of_cons in Hc as [->|Hc]; [right; exists (x :: w); split; by left|].
    destruct (IH Hc) as [?|(w' & Hw & ?)]; [by left|]. right. apply elem_of_cons in Hw as [->|Hw].
    + exists (x :: w). split; [by left|by right].
    + exists w'. split; [by right|done].
Qed.

Lemma parseIpv4_chars s c : is_Some (parseIpv4 s) → c ∈ s → is_digit c = true ∨ c = 46.
Proof.
  intros [v Hv] Hc. revert Hv. unfold parseIpv4. cbv zeta. destruct (negb _); [done|].
  destruct (mapM octet_value (split_on 46 s)) as [os|] eqn:Em; [|done]. intros _. apply mapM_Some in Em.
  destruct (split_on_chars 46 c s Hc) as [?|(w & Hw & Hin)]; [by right|]. left.
  apply list_elem_of_lookup in Hw as [i Hi]. destruct (Forall2_lookup_l _ _ _ _ _ Em Hi) as (o & _ & Ho).
  unfold octet_value, short_digits, all_digits in Ho. destruct (_ && (length w <=? 3)%nat) eqn:E; [|done]. bool_to_Prop.
  match goal with Hd : forallb is_digit w = true |- _ => rewrite forallb_forall in Hd; by apply Hd, list_elem_of_In end.
Qed.

Lemma strip_quad s : is_Some (parseIpv4 s) → strip_literal s = s.
Proof.
  intros H. unfold strip_literal.
  assert (∀ c, c ∈ s → c ≠ 91 ∧ c ≠ 93) as Hc.
  { intros c Hc. destruct (parseIpv4_chars s c H Hc) as [Hd| ->]; [|lia]. unfold is_digit in Hd. bool_to_Prop. lia. }
  assert (starts_with (js "[") s = false) as ->.
  { apply bool_decide_eq_false. intros [p ->]. destruct (Hc 91) as [? _]; [|done]. change (js "[") with [91]. set_solver. }
  assert (ends_with (js "]") s = false) as ->; [|done].
  apply bool_decide_eq_false. intros [p ->]. destruct (Hc 93) as [_ ?]; [|done]. change (js "]") with [93]. set_solver.
Qed.

Lemma strip_bracketed s :
  starts_with (js "[") s = true → ends_with (js "]") s = true → strip_literal s = drop_last (drop 1 s).
Proof.
  intros Hs He. unfold strip_literal. rewrite Hs. apply bool_decide_eq_true in He as [p ->].
  change (js "]") with [93] in *. destruct p as [|x p]; [by vm_compute in Hs|].
  change (drop 1 ((x :: p) ++ [93])) with (p ++ [93]).
  assert (ends_with [93] (p ++ [93]) = true) as ->; [|done]. apply bool_decide_eq_true. by exists p.
Qed.

Lemma looks_quad s : is_Some (parseIpv4 s) → looks_literal s = true.
Proof.
  intros H. unfold looks_literal. apply orb_true_iff. left. apply andb_true_iff. split.
  - apply negb_true_iff, bool_decide_eq_false. intros ->. by destruct H.
  - apply forallb_forall. intros c Hc%list_elem_of_In. apply orb_true_iff.
    destruct (parseIpv4_chars s c H Hc) as [?| ->]; [by left|by right].
Qed.

(** * The download *)

Section Fetch.
Context (new_URL : jstr → option URL) (is_ip : jstr → bool) (resolve_URL : jstr → URL → option URL).
(** The URL parser lower-cases hosts, and what the platform takes for an address
    is digits and dots or has a colon. *)
Context (Hlower : ∀ raw u, new_URL raw = Some u → to_lower_case (hostname u) = hostname u).
Context (Hip : ∀ h, is_ip h = true → looks_literal h = true).

(** Under the default policy the second chance of an address literal is none. *)
Lemma assertAllowedUrl_default raw u :
  assertAllowedUrl new_URL isPublicUnicastAddress raw = Ok u →
  checkOutboundUrl new_URL raw = inl u ∧
  (looks_literal (strip_literal (hostname u)) = true → isPublicUnicastAddress (strip_literal (hostname u)) = true).
Proof.
  unfold assertAllowedUrl. destruct (checkOutboundUrl new_URL raw) as [v|e] eqn:E.
  - cbv zeta. destruct (looks_literal _ && negb _) eqn:El; [done|]. intros <-%Ok_inj. split; [done|]. intros Hl.
    rewrite Hl in El. by apply negb_false_iff in El.
  - destruct e; try done. revert E. unfold checkOutboundUrl. destruct (new_URL raw) as [v|] eqn:En; [|done]. cbv zeta.
    rewrite (Hlower raw v En). intros E H. exfalso. destruct (isPublicUnicastAddress (strip_literal _)) eqn:Ep; [|done].
    destruct (negb (bool_decide _)); [done|]. destruct (negb (_ && _)); [done|].
    destruct (starts_with (js "[") (hostname v) && ends_with (js "]") (hostname v)) eqn:Eb.
    + apply andb_true_iff in Eb as [Hs He]. rewrite strip_bracketed in Ep by done. by rewrite Ep in E.
    + destruct (decide (is_Some (parseIpv4 (hostname v)))) as [H4|H4].
      * rewrite bool_decide_true in E by done. rewrite strip_quad in Ep by done. by rewrite Ep in E.
      * rewrite bool_decide_false in E by done. by repeat case_match.
Qed.

Lemma connect_public entries u l raw :
  assertAllowedUrl new_URL isPublicUnicastAddress raw = Ok u →
  connect_to isPublicUnicastAddress is_ip entries (strip_literal (hostname u)) = Ok l →
  l ≠ [] ∧ Forall (fun a => isPublicUnicastAddress a = true) l.
Proof.
  intros [_ Hlit]%assertAllowedUrl_default. unfold connect_to. destruct (is_ip _) eqn:Ei.
  - intros <-%Ok_inj. split; [done|]. constructor; [|done]. by apply Hlit, Hip.
  - unfold guardedLookup. destruct entries as [| |[|a l']]; try done.
    destruct (existsb _ _) eqn:Ex; [done|]. intros <-%Ok_inj. split; [done|]. apply Forall_forall. intros x Hx.
    apply not_true_iff_false in Ex. apply not_false_iff_true. intros Hf. apply Ex, existsb_exists. exists x.
    split; [by apply list_elem_of_In|by rewrite Hf].
Qed.

(** What every request of the download satisfies. *)
Definition request_ok (auth : bool) (sourceOrigin : jstr) (rq : request) : Prop :=
  (∃ raw, checkOutboundUrl new_URL raw = inl (rq_url rq)) ∧
  rq_addresses rq ≠ [] ∧ Forall (fun a => isPublicUnicastAddress a = true) (rq_addresses rq) ∧
  (rq_auth rq = true → auth = true ∧ origin (rq_url rq) = sourceOrigin).

Lemma follow_ok w auth sourceOrigin hops_left hop raw current made res :
  assertAllowedUrl new_URL isPublicUnicastAddress raw = Ok current →
  follow new_URL isPublicUnicastAddress is_ip resolve_URL w auth sourceOrigin hops_left hop current = (made, res) →
  (length made ≤ S hops_left)%nat ∧ Forall (request_ok auth sourceOrigin) made ∧
  ∀ r, res = Ok r → ∃ n, w_net w n = net_response r.
Proof.
  revert hop raw current made res. induction hops_left as [|k IH]; intros hop raw current made res Hc; cbn [follow]; cbv zeta.
  all: destruct (connect_to _ _ _ _) as [l|e] eqn:El; [|intros [= <- <-]; split; [simpl; lia|split; [constructor|done]]].
  all: destruct (connect_public _ _ _ _ Hc El) as [Hne Hpub].
  all: set (rq := MkRequest current (auth && bool_decide (origin current = sourceOrigin)) l).
  all: assert (request_ok auth sourceOrigin rq) as Hr by
    (split_and!; [exists raw; by apply assertAllowedUrl_default in Hc as [? _]|done|done|];
     intros [? ?%bool_decide_eq_true]%andb_true_iff; done).
  all: assert (∀ n, (length [rq] ≤ S n)%nat) as Hone by (simpl; lia).
  all: assert (Forall (request_ok auth sourceOrigin) [rq]) as Hall1 by by constructor.
  all: destruct (w_net w hop) as [| |r] eqn:Ew; try (intros [= <- <-]; split_and!; [apply Hone|done|done]).
  all: destruct (negb _); [intros [= <- <-]; split_and!; [apply Hone|done|]; intros r' <-%Ok_inj; by exists hop|].
  all: destruct (location r) as [[|c loc]|]; try (intros [= <- <-]; split_and!; [apply Hone|done|done]).
  destruct (resolve_URL _ _) as [next|]; [|intros [= <- <-]; split_and!; [apply Hone|done|done]].
  destruct (assertAllowedUrl new_URL isPublicUnicastAddress (href next)) as [next'|e] eqn:Ea; [|intros [= <- <-]; split_and!; [apply Hone|done|done]].
  destruct (follow _ _ _ _ _ _ _ _ _ _) as [rs res'] eqn:Ef. intros [= <- <-].
  destruct (IH _ _ _ _ _ Ea Ef) as (Hlen & Hall & Hres). split_and!; [simpl; lia|by constructor|done].
Qed.

Lemma read_chunks_ok maxBytes fin held cs body :
  Z.of_nat (length held) ≤ maxBytes → read_chunks maxBytes fin held cs = Ok body →
  body = held ++ concat cs ∧ Z.of_nat (length body) ≤ maxBytes.
Proof.
  revert held. induction cs as [|c cs IH]; intros held Hh; cbn [read_chunks].
  - destruct fin; try done. intros <-%Ok_inj. by rewrite app_nil_r.
  - cbv zeta. destruct (_ >? maxBytes) eqn:E; [done|]. rewrite Z.gtb_ltb in E. bool_to_Prop. intros H.
    destruct (IH (held ++ c)) as [-> ?]; [rewrite length_app; lia|done|]. split; [|done]. simpl. by rewrite app_assoc.
Qed.

Lemma fetch_safe_aux w url auth maxBytes made res :
  0 ≤ maxBytes →
  fetchBanList new_URL isPublicUnicastAddress is_ip resolve_URL w url auth maxBytes = (made, res) →
  (length made ≤ 6)%nat ∧
  (∃ sourceOrigin, Forall (request_ok auth sourceOrigin) made ∧
    (made = [] ∨ ∃ u, checkOutboundUrl new_URL url = inl u ∧ origin u = sourceOrigin)) ∧
  ∀ body, res = Ok body → Z.of_nat (length body) ≤ maxBytes ∧
    ∃ n r, w_net w n = net_response r ∧ 200 ≤ status r ≤ 299 ∧ body = concat (chunks r).
Proof.
  intros Hmax. unfold fetchBanList, requestFollowingRedirects.
  destruct (assertAllowedUrl _ _ url) as [u|e] eqn:Ea.
  2:{ intros [= <- <-]. split; [simpl; lia|]. split; [exists []; split; [constructor|by left]|done]. }
  destruct (follow _ _ _ _ _ _ _ _ _ _) as [rs r'] eqn:Ef. intros [= <- <-].
  destruct (follow_ok _ _ _ _ _ _ _ _ _ Ea Ef) as (Hlen & Hall & Hres). split; [exact Hlen|]. split.
  { exists (origin u). split; [done|]. right. exists u. by apply assertAllowedUrl_default in Ea as [? _]. }
  intros body Hb. destruct r' as [r|]; [|done]. cbn [result_bind] in Hb. destruct (Hres r eq_refl) as [n Hn].
  unfold readCappedBody in Hb. destruct (_ && _) eqn:Es; [|done]. cbn [negb] in Hb. bool_to_Prop.
  assert (read_chunks maxBytes (ending r) [] (chunks r) = Ok body) as Hrd
    by (destruct (content_length r); [destruct (_ >? _); [done|]|]; done).
  apply read_chunks_ok in Hrd as [-> ?]; [|done]. split; [done|]. exists n, r. split_and!; done.
Qed.
End Fetch.

(** C13: Whatever the source, the name servers and the servers it redirects to
    answer, a ban-list download under the default policy makes at most six
    requests; each of them goes to a URL that passed the static check and only
    to public addresses, literal or resolved; the authorization header leaves
    only for the origin of the source; and a body that is returned is exactly
    what a successful response carried, within the byte cap. *)
Theorem fetch_safe new_URL is_ip resolve_URL
    (Hlower : ∀ raw u, new_URL raw = Some u → to_lower_case (hostname u) = hostname u)
    (Hip : ∀ h, is_ip h = true → looks_literal h = true) w url auth maxBytes made res :
  0 ≤ maxBytes →
  fetchBanList new_URL isPublicUnicastAddress is_ip resolve_URL w url auth maxBytes = (made, res) →
  (length made ≤ 6)%nat ∧
  (∃ sourceOrigin, Forall (request_ok new_URL auth sourceOrigin) made ∧
    (made = [] ∨ ∃ u, checkOutboundUrl new_URL url = inl u ∧ origin u = sourceOrigin)) ∧
  ∀ body, res = Ok body → Z.of_nat (length body) ≤ maxBytes ∧
    ∃ n r, w_net w n = net_response r ∧ 200 ≤ status r ≤ 299 ∧ body = concat (chunks r).
Proof. by apply fetch_safe_aux. Qed.

(** A source that redirects to another host, given by its address. *)
Definition sample_source : URL := MkURL (js "https:") [] [] (js "bans.example.org") (js "https://bans.example.org") (js "https://bans.example.org/list").
Definition sample_target : URL := MkURL (js "http:") [] [] (js "8.8.4.4") (js "http://8.8.4.4") (js "http://8.8.4.4/list").
Definition sample_URL (raw : jstr) : option URL :=
  if bool_decide (raw = href sample_source) then Some sample_source
  else if bool_decide (raw = href sample_target) then Some sample_target else None.
Definition sample_is_ip (h : jstr) : bool := bool_decide (is_Some (parseIpv4 h)).
Definition sample_world : net_world := MkWorld
  (fun _ => resolved [js "93.184.216.34"; js "2606:2800:220:1::5"])
  (fun hop => net_response match hop with
    | O => MkResponse 302 (Some (href sample_target)) None [] stream_done
    | _ => MkResponse 200 None (Some 3) [[1; 2]; [3]] stream_done end).

Lemma checkOutboundUrl_ok_witness :
  checkOutboundUrl sample_URL (js "http://8.8.4.4/list") = inl sample_target ∧ protocol sample_target ∈ ALLOWED_PROTOCOLS.
Proof.
  assert (checkOutboundUrl sample_URL (js "http://8.8.4.4/list") = inl sample_target) as H by (vm_compute; reflexivity).
  split; [exact H|]. exact (proj1 (proj2 (checkOutboundUrl_ok _ _ _ H))).
Defined.

Lemma fetch_safe_witness :
  let '(made, res) := fetchBanList sample_URL isPublicUnicastAddress sample_is_ip (fun loc _ => sample_URL loc)
    sample_world (js "https://bans.example.org/list") true 100 in
  rq_auth <$> made = [true; false] ∧ res = Ok [1; 2; 3] ∧ (length made ≤ 6)%nat ∧
  Forall (fun rq => Forall (fun a => isPublicUnicastAddress a = true) (rq_addresses rq)) made.
Proof.
  destruct (fetchBanList _ _ _ _ _ _ _ _) as [made res] eqn:E.
  destruct (fetch_safe sample_URL sample_is_ip (fun loc _ => sample_URL loc)) with (w := sample_world)
    (url := js "https://bans.example.org/list") (auth := true) (maxBytes := 100) (made := made) (res := res) as (Hlen & (o & Hall & _) & _).
  - intros raw u. unfold sample_URL. do 2 (destruct (bool_decide _); [intros [= <-]; vm_compute; reflexivity|]). done.
  - intros h Hh. apply looks_quad. by apply bool_decide_eq_true in Hh.
  - lia.
  - exact E.
  - split_and!; [| |exact Hlen|].
    + apply (f_equal (fun p => rq_auth <$> p.1)) in E. cbn [fst] in E. rewrite <-E. vm_compute. reflexivity.
    + apply (f_equal snd) in E. cbn [snd] in E. rewrite <-E. vm_compute. reflexivity.
    + eapply Forall_impl; [exact Hall|]. intros rq (_ & _ & Hp & _). exact Hp.
Defined.

(** A chain of redirects that never ends is given up after the sixth request
    with an HTTP status error, if every hop is allowed and answers. *)
Theorem redirect_chain_stops new_URL isAddressAllowed is_ip resolve_URL w url auth maxBytes u :
  assertAllowedUrl new_URL isAddressAllowed url = Ok u →
  (∀ n, ∃ r loc, w_net w n = net_response r ∧ status r ∈ REDIRECT_STATUSES ∧ location r = Some loc ∧ loc ≠ [] ∧
    ∀ base, ∃ next, resolve_URL loc base = Some next ∧ is_ok (assertAllowedUrl new_URL isAddressAllowed (href next)) = true) →
  (∀ n h, is_ok (connect_to isAddressAllowed is_ip (w_dns w n) h) = true) →
  ∃ made, fetchBanList new_URL isAddressAllowed is_ip resolve_URL w url auth maxBytes = (made, Throw fetch_http_status) ∧
    length made = 6%nat.
Proof.
  intros Hu Hr Hd. unfold fetchBanList, requestFollowingRedirects. rewrite Hu.
  enough (∀ k hop cur, ∃ made, follow new_URL isAddressAllowed is_ip resolve_URL w auth (origin u) k hop cur =
    (made, Throw fetch_http_status) ∧ length made = S k) as Hf.
  { destruct (Hf MAX_REDIRECTS 0%nat u) as (made & -> & Hl). exists made. done. }
  induction k as [|k IH]; intros hop cur; cbn [follow]; cbv zeta.
  all: specialize (Hd hop (strip_literal (hostname cur))); destruct (connect_to _ _ _ _) as [l|]; [|done].
  all: destruct (Hr hop) as (r & loc & -> & Hs & -> & Hne & Hn); rewrite bool_decide_true by done; cbn [negb].
  all: destruct loc as [|c loc]; [done|].
  { by eexists. }
  destruct (Hn cur) as (next & -> & Ha). destruct (assertAllowedUrl _ _ (href next)) as [next'|]; [|done].
  destruct (IH (S hop) next') as (rs & -> & Hl). eexists. split; [reflexivity|]. simpl. by rewrite Hl.
Qed.

Lemma redirect_chain_stops_witness :
  ∃ made, fetchBanList sample_URL isPublicUnicastAddress sample_is_ip (fun loc _ => sample_URL loc)
    (MkWorld (w_dns sample_world) (fun _ => w_net sample_world 0)) (js "https://bans.example.org/list") true 100
    = (made, Throw fetch_http_status) ∧ length made = 6%nat.
Proof.
  apply (redirect_chain_stops _ _ _ _ _ _ _ _ sample_source); [vm_compute; reflexivity| |].
  - intros n. eexists _, (href sample_target). split_and!; [reflexivity|apply (bool_decide_unpack _); vm_compute; exact I|reflexivity|done|].
    intros base. exists sample_target. split; vm_compute; reflexivity.
  - intros n h. cbn [w_dns sample_world]. unfold connect_to. destruct (sample_is_ip h); [reflexivity|]. vm_compute. reflexivity.
Defined.
