(* ===== verification/VipSubscriptions.v ===== *)
(** Timed roles paid in bonuses ([apps/api/src/routes/vip-subscriptions.ts],
    [apps/workers/role-expirer/src/renewal.ts], [tick.ts]): purchases,
    subscriptions, their renewal and the expiry of roles, over the tables of
    Economy. The handlers and transactions are definitions; their interleaving,
    with any number of renewal and expiry passes in flight, is a step relation. *)
From S2P Require Import Prelude JsString JsDate JsMap Collections Economy.

(** * Tables *)

Inductive VipSubscriptionStatus := st_active | st_cancelled | st_expired.

#[export] Instance status_eq_dec : EqDecision VipSubscriptionStatus.
Proof. solve_decision. Defined.

Record subscription := MkSub {
  sub_id : jstr;
  sub_player : jstr;
  sub_tier : jstr;
  sub_status : VipSubscriptionStatus;
  sub_days : Z;
  sub_price : Z;
  sub_next : Z;
  sub_cancelled : option Z;
}.

#[export] Instance subscription_eq_dec : EqDecision subscription.
Proof. solve_decision. Defined.

Record tier_row := MkTierRow {
  vt_id : jstr;
  vt_role : jstr;
  vt_days : option Z;
  vt_price : option Z;
  vt_active : bool;
}.

Record vip_role := MkVipRole { vr_id : jstr; vr_name : jstr; vr_panelAccess : bool; vr_isSystemRole : bool }.

Inductive RenewalFailureReason :=
| why_insufficient_balance | why_role_conflict | why_role_permanent | why_player_not_found | why_role_grants_panel_access.

(** The rows the workers append to the audit log. *)
Inductive vip_audit :=
| renew_entry (sub player : jstr) (dueAt next roleExpiresAt balance : Z)
| expire_entry (sub player : jstr) (reason : RenewalFailureReason)
| role_expire_entry (player role : jstr) (expiresAt : Z).

Inductive sync_reason := player_role_assign | player_role_expire.

Record vip_db := MkVip {
  vd_econ : economy_db;
  vd_subs : list subscription;
  vd_tiers : list tier_row;
  vd_roles : list vip_role;
  vd_logins : list (jstr * jstr);
  vd_servers : list jstr;
  vd_outbox : list (jstr * sync_reason);
  vd_audit : list vip_audit;
}.

Definition set_econ (e : economy_db) (db : vip_db) : vip_db :=
  MkVip e (vd_subs db) (vd_tiers db) (vd_roles db) (vd_logins db) (vd_servers db) (vd_outbox db) (vd_audit db).
Definition set_subs (l : list subscription) (db : vip_db) : vip_db :=
  MkVip (vd_econ db) l (vd_tiers db) (vd_roles db) (vd_logins db) (vd_servers db) (vd_outbox db) (vd_audit db).
Definition set_logins (l : list (jstr * jstr)) (db : vip_db) : vip_db :=
  MkVip (vd_econ db) (vd_subs db) (vd_tiers db) (vd_roles db) l (vd_servers db) (vd_outbox db) (vd_audit db).
Definition set_outbox (l : list (jstr * sync_reason)) (db : vip_db) : vip_db :=
  MkVip (vd_econ db) (vd_subs db) (vd_tiers db) (vd_roles db) (vd_logins db) (vd_servers db) l (vd_audit db).
Definition add_audit (a : vip_audit) (db : vip_db) : vip_db :=
  MkVip (vd_econ db) (vd_subs db) (vd_tiers db) (vd_roles db) (vd_logins db) (vd_servers db) (vd_outbox db) (vd_audit db ++ [a]).

(** What a transaction throws. *)
Inductive vip_error := ve_db (e : db_error) | ve_check | SubscriptionVanishedError.
Abbreviation vip_result := (result vip_error).

Definition lift_db {A} (r : db_result A) : vip_result A :=
  match r with Ok a => Ok a | Throw e => Throw (ve_db e) end.

(** * Statements *)

Definition find_tier (db : vip_db) (id : jstr) : option tier_row :=
  List.find (fun t => bool_decide (vt_id t = id)) (vd_tiers db).
Definition find_vip_role (db : vip_db) (id : jstr) : option vip_role :=
  List.find (fun r => bool_decide (vr_id r = id)) (vd_roles db).

Definition is_active (s : subscription) : bool := bool_decide (sub_status s = st_active).

(** INSERT INTO vip_subscriptions, under the checks, the primary key, the partial
    unique index and the foreign keys. *)
Definition insert_subscription (s : subscription) (db : vip_db) : vip_result vip_db :=
  if negb (int4_ok (sub_days s) && int4_ok (sub_price s)) then Throw (ve_db out_of_range)
  else if negb ((0 <? sub_days s) && (0 <=? sub_price s)) then Throw ve_check
  else if existsb (fun t => bool_decide (sub_id t = sub_id s)) (vd_subs db) then Throw (ve_db unique_violation)
  else if is_active s && existsb (fun t => is_active t && bool_decide (sub_player t = sub_player s)) (vd_subs db)
  then Throw (ve_db unique_violation)
  else if negb (player_exists (vd_econ db) (sub_player s) && bool_decide (is_Some (find_tier db (sub_tier s))))
  then Throw (ve_db foreign_key_violation)
  else Ok (set_subs (vd_subs db ++ [s]) db).

(** [UPDATE vip_subscriptions SET ... WHERE], and how many rows it matched. *)
Definition update_subs (p : subscription → bool) (f : subscription → subscription) (db : vip_db) : vip_db * nat :=
  (set_subs ((fun s => if p s then f s else s) <$> vd_subs db) db, length (jfilter p (vd_subs db))).

Definition enqueueAdminsCfgSyncForAllServers (reason : sync_reason) (db : vip_db) : vip_db * Z :=
  (set_outbox (vd_outbox db ++ ((fun s => (s, reason)) <$> vd_servers db)) db, Z.of_nat (length (vd_servers db))).

(** * The routes *)

Inductive tier_problem := tier_not_found | tier_not_purchasable | tier_grants_panel_access.

Definition resolveTier (db : vip_db) (tierId : jstr) : VipGrantTier + tier_problem :=
  match find_tier db tierId with
  | None => inr tier_not_found
  | Some t =>
      match find_vip_role db (vt_role t) with
      | None => inr tier_not_found
      | Some r =>
          if negb (vt_active t) then inr tier_not_purchasable
          else match vt_price t, vt_days t with
          | Some price, Some days =>
              if vr_panelAccess r || vr_isSystemRole r then inr tier_grants_panel_access
              else inl (MkTier (vt_role t) days price)
          | _, _ => inr tier_not_purchasable
          end
      end
  end.

Definition economyEnabled (db : vip_db) : bool :=
  match db_settings (vd_econ db) with Some st => economy_enabled st | None => false end.

Inductive vip_reply :=
| rp_unauthenticated
| rp_forbidden
| rp_bad_request
| rp_economy_disabled
| rp_tier_problem (p : tier_problem)
| rp_grant_problem (r : ApplyVipGrantResult)
| rp_already_subscribed
| rp_subscription_not_found
| rp_purchased (balance roleExpiresAt : Z)
| rp_subscribed (balance roleExpiresAt : Z) (s : subscription)
| rp_cancelled (s : subscription).

(** POST /api/v1/me/purchases *)
Definition me_purchase (clock now : Z) (user : option jstr) (tierId : jstr) (db : vip_db) : vip_result (vip_db * vip_reply) :=
  match user with
  | None => Ok (db, rp_unauthenticated)
  | Some playerId =>
      if negb (economyEnabled db) then Ok (db, rp_economy_disabled)
      else match resolveTier db tierId with
      | inr p => Ok (db, rp_tier_problem p)
      | inl tier =>
          let! er := lift_db (applyVipGrant clock (MkGrant playerId tier (Some playerId) (js "purchase") tierId now) (vd_econ db)) in
          match er.2 with
          | grant_ok balance _ expires _ =>
              let '(db, _) := enqueueAdminsCfgSyncForAllServers player_role_assign (set_econ er.1 db) in
              Ok (db, rp_purchased balance expires)
          | refused => Ok (db, rp_grant_problem refused)
          end
      end
  end.

(** The transaction of [createSubscription]. *)
Definition createSubscriptionTx (clock now : Z) (subscriptionId playerId tierId : jstr) (tier : VipGrantTier) (actor : jstr)
    (db : vip_db) : vip_result (vip_db * vip_reply) :=
  if existsb (fun s => is_active s && bool_decide (sub_player s = playerId)) (vd_subs db) then Ok (db, rp_already_subscribed)
  else
    let! er := lift_db (applyVipGrant clock (MkGrant playerId tier (Some actor) (js "vip_subscription") subscriptionId now) (vd_econ db)) in
    match er.2 with
    | grant_ok balance _ expires _ =>
        let s := MkSub subscriptionId playerId tierId st_active (tier_days tier) (tier_price tier) (expires - VIP_RENEWAL_LEAD_MS) None in
        let! db := insert_subscription s (set_econ er.1 db) in
        let '(db, _) := enqueueAdminsCfgSyncForAllServers player_role_assign db in
        Ok (db, rp_subscribed balance expires s)
    | refused => Ok (db, rp_grant_problem refused)
    end.

Definition createSubscription (clock now : Z) (subscriptionId playerId tierId : jstr) (tier : VipGrantTier) (actor : jstr)
    (db : vip_db) : vip_result (vip_db * vip_reply) :=
  match createSubscriptionTx clock now subscriptionId playerId tierId tier actor db with
  | Throw (ve_db unique_violation) => Ok (db, rp_already_subscribed)
  | r => r
  end.

(** POST /api/v1/me/subscriptions *)
Definition me_subscribe (clock now : Z) (subscriptionId : jstr) (user : option jstr) (tierId : jstr) (db : vip_db)
    : vip_result (vip_db * vip_reply) :=
  match user with
  | None => Ok (db, rp_unauthenticated)
  | Some playerId =>
      if negb (economyEnabled db) then Ok (db, rp_economy_disabled)
      else match resolveTier db tierId with
      | inr p => Ok (db, rp_tier_problem p)
      | inl tier => createSubscription clock now subscriptionId playerId tierId tier playerId db
      end
  end.

(** The signed-in user of an admin route. *)
Record admin := MkAdmin { ad_playerId : jstr; canManageEconomy : bool; canAssignRoles : bool }.

Definition MAX_PERIOD_DAYS : Z := 3650.

(** [grantBody] *)
Definition grantBody_ok (days price : option Z) : bool :=
  match days with Some d => (1 <=? d) && (d <=? MAX_PERIOD_DAYS) | None => true end &&
  match price with Some p => (0 <=? p) && (p <=? INT32_MAX) | None => true end.

(** POST /api/v1/players/:playerId/subscriptions *)
Definition grant_subscription (clock now : Z) (subscriptionId : jstr) (user : option admin) (playerId tierId : jstr)
    (days price : option Z) (db : vip_db) : vip_result (vip_db * vip_reply) :=
  if negb (grantBody_ok days price) then Ok (db, rp_bad_request)
  else match user with
  | None => Ok (db, rp_unauthenticated)
  | Some actor =>
      if negb (canManageEconomy actor) then Ok (db, rp_forbidden)
      else if negb (canAssignRoles actor) then Ok (db, rp_forbidden)
      else if negb (economyEnabled db) then Ok (db, rp_economy_disabled)
      else match resolveTier db tierId with
      | inr p => Ok (db, rp_tier_problem p)
      | inl tier =>
          createSubscription clock now subscriptionId playerId tierId
            (MkTier (tier_roleId tier) (default (tier_days tier) days) (default (tier_price tier) price)) (ad_playerId actor) db
      end
  end.

(** DELETE /api/v1/me/subscriptions/:id *)
Definition cancel_subscription (now : Z) (user : option jstr) (id : jstr) (db : vip_db) : vip_db * vip_reply :=
  match user with
  | None => (db, rp_unauthenticated)
  | Some playerId =>
      let p s := bool_decide (sub_id s = id) && bool_decide (sub_player s = playerId) && is_active s in
      let cancelled s := MkSub (sub_id s) (sub_player s) (sub_tier s) st_cancelled (sub_days s) (sub_price s) (sub_next s) (Some now) in
      let '(db', _) := update_subs p cancelled db in
      match jfilter p (vd_subs db) with
      | [] => (db', rp_subscription_not_found)
      | s :: _ => (db', rp_cancelled (cancelled s))
      end
  end.

(** * The renewal pass *)

Record DueSubscription := MkDue {
  due_id : jstr;
  due_playerId : jstr;
  due_tierId : jstr;
  due_roleId : jstr;
  due_price : Z;
  due_days : Z;
  due_next : Z;
}.

(** The row of the join, when the player and the tier exist. *)
Definition due_row (db : vip_db) (s : subscription) : option DueSubscription :=
  if player_exists (vd_econ db) (sub_player s) then
    t ← find_tier db (sub_tier s);
    Some (MkDue (sub_id s) (sub_player s) (sub_tier s) (vt_role t) (sub_price s) (sub_days s) (sub_next s))
  else None.

(** Rows with the same date come in the order of the table. *)
Definition findDueSubscriptions (db : vip_db) (now : Z) (limit : nat) : list DueSubscription :=
  take limit (omap (due_row db)
    (jsort (fun a b => sub_next a - sub_next b) (jfilter (fun s => is_active s && (sub_next s <=? now)) (vd_subs db)))).

Inductive ChargeRenewalResult :=
| charge_ok (balance roleExpiresAt enqueued : Z)
| charge_refused (reason : RenewalFailureReason) (balance : option Z)
| charge_not_active.

Definition plan_reason (plan : VipGrantPlan) : RenewalFailureReason * option Z :=
  match plan with
  | plan_insufficient_balance b => (why_insufficient_balance, Some b)
  | plan_role_conflict => (why_role_conflict, None)
  | _ => (why_role_permanent, None)
  end.

(** The row of the conditional UPDATE, and what it sets. *)
Definition still_due (d : DueSubscription) (s : subscription) : bool :=
  bool_decide (sub_id s = due_id d) && is_active s && (sub_next s =? due_next d).
Definition with_next (next : Z) (s : subscription) : subscription :=
  MkSub (sub_id s) (sub_player s) (sub_tier s) (sub_status s) (sub_days s) (sub_price s) next (sub_cancelled s).

Definition chargeRenewalTx (clock now : Z) (d : DueSubscription) (db : vip_db) : vip_result (vip_db * ChargeRenewalResult) :=
  match find_vip_role db (due_roleId d) with
  | Some role =>
      if vr_panelAccess role || vr_isSystemRole role then Ok (db, charge_refused why_role_grants_panel_access None)
      else
        let! er := lift_db (applyVipGrant clock
            (MkGrant (due_playerId d) (MkTier (due_roleId d) (due_days d) (due_price d)) None
               (js "vip_subscription") (due_id d) now) (vd_econ db)) in
        match er.2 with
        | grant_ok balance _ expires _ =>
            let next := nextRenewalAfter (due_next d) (due_days d) in
            let '(db, updated) := update_subs (still_due d) (with_next next) (set_econ er.1 db) in
            if (updated =? 0)%nat then Throw SubscriptionVanishedError
            else
              let '(db, enqueued) := enqueueAdminsCfgSyncForAllServers player_role_assign db in
              Ok (add_audit (renew_entry (due_id d) (due_playerId d) (due_next d) next expires balance) db,
                  charge_ok balance expires enqueued)
        | grant_refused plan => let '(why, b) := plan_reason plan in Ok (db, charge_refused why b)
        | grant_player_not_found => Ok (db, charge_refused why_player_not_found None)
        end
  | None => Ok (db, charge_refused why_role_grants_panel_access None)
  end.

Definition chargeRenewal (clock now : Z) (d : DueSubscription) (db : vip_db) : vip_result (vip_db * ChargeRenewalResult) :=
  match chargeRenewalTx clock now d db with
  | Throw SubscriptionVanishedError => Ok (db, charge_not_active)
  | r => r
  end.

Definition expireSubscription (id : jstr) (now : Z) (db : vip_db) : vip_db * bool :=
  let '(db, n) := update_subs (fun s => bool_decide (sub_id s = id) && is_active s)
    (fun s => MkSub (sub_id s) (sub_player s) (sub_tier s) st_expired (sub_days s) (sub_price s) (sub_next s) (Some now)) db in
  (db, (0 <? n)%nat).

(** What becomes of a call: it answers, it fails and changes nothing, or its
    answer is lost after it committed. *)
Inductive call_fate := fate_ok | fate_failed | fate_lost.

(** The fates of the four calls made for one subscription, and the clock of its
    transaction. *)
Record fates := MkFates { f_charge : call_fate; f_expire : call_fate; f_audit : call_fate; f_notify : call_fate; f_clock : Z }.

Record pass_counts := MkCounts { n_renewed : Z; n_expired : Z; n_enqueued : Z }.

(** A subscription that could not be charged is ended, audited and announced. *)
Definition end_renewal (f : fates) (now : Z) (d : DueSubscription) (why : RenewalFailureReason) (b : option Z) (db : vip_db) (c : pass_counts)
    : vip_db * pass_counts * list (DueSubscription * RenewalFailureReason * option Z) :=
  let '(db', changed) := expireSubscription (due_id d) now db in
  match f_expire f with
  | fate_failed => (db, c, [])
  | fate_lost => (db', c, [])
  | fate_ok =>
      if negb changed then (db', c, [])
      else
        let c := MkCounts (n_renewed c) (n_expired c + 1) (n_enqueued c) in
        let db'' := add_audit (expire_entry (due_id d) (due_playerId d) why) db' in
        match f_audit f with
        | fate_failed => (db', c, [])
        | fate_lost => (db'', c, [])
        | fate_ok => (db'', c, match f_notify f with fate_failed => [] | _ => [(d, why, b)] end)
        end
  end.

(** The body of the loop; a throw of any call ends it for this subscription. *)
Definition renew_one (f : fates) (now : Z) (d : DueSubscription) (db : vip_db) (c : pass_counts)
    : vip_db * pass_counts * list (DueSubscription * RenewalFailureReason * option Z) :=
  match f_charge f, chargeRenewal (f_clock f) now d db with
  | fate_failed, _ | _, Throw _ => (db, c, [])
  | fate_lost, Ok (db, _) => (db, c, [])
  | fate_ok, Ok (db, charge_not_active) => (db, c, [])
  | fate_ok, Ok (db, charge_ok _ _ k) => (db, MkCounts (n_renewed c + 1) (n_expired c) (n_enqueued c + k), [])
  | fate_ok, Ok (db, charge_refused why b) => end_renewal f now d why b db c
  end.

Fixpoint renew_loop (fs : list fates) (now : Z) (due : list DueSubscription) (db : vip_db) (c : pass_counts) {struct due}
    : vip_db * pass_counts * list (DueSubscription * RenewalFailureReason * option Z) :=
  match due, fs with
  | d :: due, f :: fs =>
      let '(db, c, sent) := renew_one f now d db c in
      let '(db, c, more) := renew_loop fs now due db c in (db, c, sent ++ more)
  | _, _ => (db, c, [])
  end.

(** One pass that nothing else runs between: the tables after it, the counters
    and the notifications. [fs] covers every due row. *)
Definition runSubscriptionRenewalTick (fs : list fates) (now : Z) (limit : nat) (db : vip_db) :=
  renew_loop fs now (findDueSubscriptions db now limit) db (MkCounts 0 0 0).

(** * The expiry of roles *)

Record ExpiredRoleAssignment := MkExpired { ex_playerId : jstr; ex_roleId : jstr; ex_expiresAt : Z }.

Definition SUBSCRIPTION_RENEWAL_GRACE : Z := DAY_MS.

(** An active subscription is about to renew the role. *)
Definition about_to_renew (db : vip_db) (player role : jstr) (expires : Z) : bool :=
  existsb (fun s => bool_decide (sub_player s = player) && is_active s
    && bool_decide (vt_role <$> find_tier db (sub_tier s) = Some role)
    && (sub_next s <=? expires + SUBSCRIPTION_RENEWAL_GRACE)) (vd_subs db).

Definition expired_row (db : vip_db) (now : Z) (pl : player_row) : option ExpiredRoleAssignment :=
  match pl_role pl, pl_role_expires pl with
  | Some role, Some e =>
      r ← find_vip_role db role;
      if (e <=? now) && negb (bool_decide (vr_name r = js "Owner") && vr_isSystemRole r) && negb (about_to_renew db (pl_id pl) role e)
      then Some (MkExpired (pl_id pl) role e) else None
  | _, _ => None
  end.

Definition findExpiredAssignments (db : vip_db) (now : Z) (limit : nat) : list ExpiredRoleAssignment :=
  take limit (jsort (fun a b => ex_expiresAt a - ex_expiresAt b) (omap (expired_row db now) (db_players (vd_econ db)))).

(** The row the conditional UPDATE matches. *)
Definition still_assigned (a : ExpiredRoleAssignment) (pl : player_row) : bool :=
  bool_decide (pl_id pl = ex_playerId a) && bool_decide (pl_role pl = Some (ex_roleId a))
  && bool_decide (pl_role_expires pl = Some (ex_expiresAt a)).

Definition clear_one (a : ExpiredRoleAssignment) (db : vip_db) : vip_db * bool :=
  let e := vd_econ db in
  if existsb (still_assigned a) (db_players e) then
    let e := set_players ((fun pl => if still_assigned a pl then MkPlayer (pl_id pl) (pl_balance pl) None None else pl) <$> db_players e) e in
    let db := add_audit (role_expire_entry (ex_playerId a) (ex_roleId a) (ex_expiresAt a)) (set_econ e db) in
    (set_logins (jfilter (fun l => negb (bool_decide (l.2 = ex_playerId a))) (vd_logins db)) db, true)
  else (db, false).

Fixpoint clear_loop (l : list ExpiredRoleAssignment) (db : vip_db) : vip_db * list ExpiredRoleAssignment :=
  match l with
  | [] => (db, [])
  | a :: l =>
      let '(db, ok) := clear_one a db in
      let '(db, cleared) := clear_loop l db in
      (db, if ok then a :: cleared else cleared)
  end.

(** The transaction. *)
Definition clearExpiredAssignments (assignments : list ExpiredRoleAssignment) (db : vip_db)
    : vip_db * list ExpiredRoleAssignment * Z :=
  let '(db, cleared) := clear_loop assignments db in
  match cleared with
  | [] => (db, [], 0)
  | _ => let '(db, enqueued) := enqueueAdminsCfgSyncForAllServers player_role_expire db in (db, cleared, enqueued)
  end.

(** One pass with nothing in between. *)
Definition runRoleExpiryTick (now : Z) (limit : nat) (db : vip_db) : vip_db * list ExpiredRoleAssignment * Z :=
  clearExpiredAssignments (findExpiredAssignments db now limit) db.

(** * Everything interleaved *)

(** The tables, and what the passes in flight have read so far: due rows, refused
    charges on their way to expiry, and expired assignments with the time they
    were found at. *)
Record vip_world := MkW {
  w_db : vip_db;
  w_due : list DueSubscription;
  w_refused : list (DueSubscription * RenewalFailureReason);
  w_expired : list (Z * ExpiredRoleAssignment);
}.

Definition with_db (db : vip_db) (w : vip_world) : vip_world := MkW db (w_due w) (w_refused w) (w_expired w).

(** One committed transaction or handler, or one read of a pass. A pass may stop
    anywhere and its calls may repeat, so its order is not prescribed beyond: a
    charge works on a row that was read, an expiry on a charge that was refused,
    a clearing on assignments that were found. *)
Inductive vip_event :=
| ev_econ (op : econ_op)
| ev_assign (player : jstr) (role : option jstr) (expires : option Z)
| ev_catalog (tiers : list tier_row) (roles : list vip_role) (servers : list jstr) (logins : list (jstr * jstr))
| ev_purchase (clock now : Z) (user : option jstr) (tierId : jstr)
| ev_subscribe (clock now : Z) (id : jstr) (user : option jstr) (tierId : jstr)
| ev_grant (clock now : Z) (id : jstr) (user : option admin) (player tierId : jstr) (days price : option Z)
| ev_cancel (now : Z) (user : option jstr) (id : jstr)
| ev_scan (now : Z) (limit : nat)
| ev_charge (clock now : Z) (i : nat)
| ev_expire (now : Z) (i : nat)
| ev_audit_expire (i : nat)
| ev_role_scan (now : Z) (limit : nat)
| ev_role_clear (idx : list nat).

Definition commit {A} (r : vip_result (vip_db * A)) (w : vip_world) : vip_world :=
  match r with Ok (db, _) => with_db db w | Throw _ => w end.

Definition set_role (player : jstr) (role : option jstr) (expires : option Z) (e : economy_db) : economy_db :=
  set_players ((fun pl => if bool_decide (pl_id pl = player) then MkPlayer (pl_id pl) (pl_balance pl) role expires else pl)
    <$> db_players e) e.

Definition vip_exec (w : vip_world) (ev : vip_event) : vip_world :=
  let db := w_db w in
  match ev with
  | ev_econ (op_grant _ _) => w
  | ev_econ op => with_db (set_econ (econ_step op (vd_econ db)) db) w
  | ev_assign player role expires => with_db (set_econ (set_role player role expires (vd_econ db)) db) w
  | ev_catalog tiers roles servers logins =>
      with_db (MkVip (vd_econ db) (vd_subs db) tiers roles logins servers (vd_outbox db) (vd_audit db)) w
  | ev_purchase clock now user tierId => commit (me_purchase clock now user tierId db) w
  | ev_subscribe clock now id user tierId => commit (me_subscribe clock now id user tierId db) w
  | ev_grant clock now id user player tierId days price =>
      commit (grant_subscription clock now id user player tierId days price db) w
  | ev_cancel now user id => with_db (cancel_subscription now user id db).1 w
  | ev_scan now limit => MkW db (w_due w ++ findDueSubscriptions db now limit) (w_refused w) (w_expired w)
  | ev_charge clock now i =>
      match w_due w !! i with
      | None => w
      | Some d =>
          match chargeRenewal clock now d db with
          | Ok (db, charge_refused why _) => MkW db (w_due w) (w_refused w ++ [(d, why)]) (w_expired w)
          | Ok (db, _) => with_db db w
          | Throw _ => w
          end
      end
  | ev_expire now i =>
      match w_refused w !! i with Some (d, _) => with_db (expireSubscription (due_id d) now db).1 w | None => w end
  | ev_audit_expire i =>
      match w_refused w !! i with
      | Some (d, why) => with_db (add_audit (expire_entry (due_id d) (due_playerId d) why) db) w
      | None => w
      end
  | ev_role_scan now limit =>
      MkW db (w_due w) (w_refused w) (w_expired w ++ ((fun a => (now, a)) <$> findExpiredAssignments db now limit))
  | ev_role_clear idx => with_db (clearExpiredAssignments (omap (fun i => snd <$> w_expired w !! i) idx) db).1.1 w
  end.

Definition vip_run (evs : list vip_event) (w : vip_world) : vip_world := foldl vip_exec w evs.

Definition empty_world : vip_world := MkW (MkVip empty_db [] [] [] [] [] [] []) [] [] [].

(** * What is charged for a subscription *)

Definition is_vip_spend (r : bonus_row) : bool :=
  bool_decide (bt_type r = spend) && bool_decide (bt_reference_type r = Some (js "vip_subscription")).
Definition vip_rows (l : list bonus_row) : list bonus_row := jfilter is_vip_spend l.
Definition charges (l : list bonus_row) (id : jstr) : Z :=
  zsum (fun r => if bool_decide (bt_reference_id r = Some id) then bt_amount r else 0) (vip_rows l).

(** The due dates of the renewals in the audit log. *)
Definition renew_due (id : jstr) (a : vip_audit) : option Z :=
  match a with renew_entry s _ due _ _ _ => if bool_decide (s = id) then Some due else None | _ => None end.
Definition renew_dues (log : list vip_audit) (id : jstr) : list Z := omap (renew_due id) log.

(** Every period before [next] was billed once, in order, and none was skipped. *)
Definition consecutive (period next : Z) (dues : list Z) : Prop :=
  ∀ i d, dues !! i = Some d → d = next - (Z.of_nat (length dues) - Z.of_nat i) * period.

Lemma consecutive_snoc period next dues :
  consecutive period next dues → consecutive period (next + period) (dues ++ [next]).
Proof.
  intros H i d Hd. rewrite length_app. cbn [length]. apply lookup_app_Some in Hd as [Hd|[Hlen Hd]].
  - rewrite (H i d Hd), Nat2Z.inj_add. change (Z.of_nat 1) with 1. ring.
  - apply list_lookup_singleton_Some in Hd as [Hi <-]. assert (i = length dues) as -> by lia.
    rewrite Nat2Z.inj_add. change (Z.of_nat 1) with 1. ring.
Qed.

Record billed (db : vip_db) (s : subscription) : Prop := {
  bi_terms : 0 < sub_days s ∧ 0 ≤ sub_price s;
  bi_dues : consecutive (sub_days s * DAY_MS) (sub_next s) (renew_dues (vd_audit db) (sub_id s));
  bi_charges : charges (db_ledger (vd_econ db)) (sub_id s) =
    - sub_price s * (1 + Z.of_nat (length (renew_dues (vd_audit db) (sub_id s))));
}.

(** At most one active subscription per player. *)
Definition one_active (l : list subscription) : Prop :=
  ∀ s t, s ∈ l → t ∈ l → is_active s = true → is_active t = true → sub_player s = sub_player t → s = t.

Record vip_ok (db : vip_db) : Prop := {
  vo_econ : economy_ok (vd_econ db);
  vo_ids : NoDup (sub_id <$> vd_subs db);
  vo_one : one_active (vd_subs db);
  vo_billed : ∀ s, s ∈ vd_subs db → billed db s;
  vo_refs : ∀ r id, r ∈ vip_rows (db_ledger (vd_econ db)) → bt_reference_id r = Some id → id ∈ sub_id <$> vd_subs db;
  vo_log : ∀ id, renew_dues (vd_audit db) id ≠ [] → id ∈ sub_id <$> vd_subs db;
}.

(** A row read by a pass carries the terms of its subscription. *)
Definition due_ok (db : vip_db) (d : DueSubscription) : Prop :=
  ∃ s, s ∈ vd_subs db ∧ sub_id s = due_id d ∧ sub_player s = due_playerId d ∧ sub_price s = due_price d ∧ sub_days s = due_days d.

Record world_ok (w : vip_world) : Prop := {
  wo_db : vip_ok (w_db w);
  wo_due : ∀ d, d ∈ w_due w → due_ok (w_db w) d;
  wo_expired : ∀ t a, (t, a) ∈ w_expired w → ex_expiresAt a ≤ t;
}.

Ltac vip_cbn := cbn [vd_econ vd_subs vd_audit set_subs set_econ set_outbox set_logins add_audit
  sub_id sub_player sub_price sub_days sub_next sub_status with_next fst snd].

(** ** Frame: what leaves the billing alone *)

(** The terms of a subscription never change and it is never reactivated. *)
Definition same_terms (s s' : subscription) : Prop :=
  sub_id s' = sub_id s ∧ sub_player s' = sub_player s ∧ sub_price s' = sub_price s ∧ sub_days s' = sub_days s ∧
  (is_active s' = true → is_active s = true).

Definition same_billing (s s' : subscription) : Prop := same_terms s s' ∧ sub_next s' = sub_next s.

Lemma same_terms_ids l l' : Forall2 same_terms l l' → sub_id <$> l' = sub_id <$> l.
Proof. induction 1 as [|s s' l l' Hs _ IH]; [done|]. rewrite !fmap_cons, IH. f_equal. apply Hs. Qed.

Lemma Forall2_if_fmap {A} (R : A → A → Prop) (p : A → bool) f l :
  (∀ x, R x x) → (∀ x, p x = true → R x (f x)) → Forall2 R l ((fun x => if p x then f x else x) <$> l).
Proof.
  intros Hr Hf. induction l as [|x l IH]; [constructor|]. rewrite fmap_cons. constructor; [|done].
  destruct (p x) eqn:E; [by apply Hf|apply Hr].
Qed.

Lemma same_billing_refl s : same_billing s s.
Proof. split; [|done]. by split_and!. Qed.
Lemma same_billing_all l : Forall2 same_billing l l.
Proof. induction l; constructor; [apply same_billing_refl|done]. Qed.
Lemma same_billing_terms l l' : Forall2 same_billing l l' → Forall2 same_terms l l'.
Proof. intros H. eapply Forall2_impl; [exact H|]. by intros s s' [? _]. Qed.

Lemma one_active_frame l l' : NoDup (sub_id <$> l) → Forall2 same_terms l l' → one_active l → one_active l'.
Proof.
  intros Hnd Hs Hone s' t' Hs' Ht' As At Hp. apply list_elem_of_lookup in Hs' as [i Hi], Ht' as [j Hj].
  destruct (Forall2_lookup_r _ _ _ _ _ Hs Hi) as (s & Hsi & E1 & E2 & _ & _ & E3).
  destruct (Forall2_lookup_r _ _ _ _ _ Hs Hj) as (t & Htj & F1 & F2 & _ & _ & F3).
  apply (NoDup_fmap_inj_elem sub_id l'); [by rewrite (same_terms_ids _ _ Hs)|by eapply list_elem_of_lookup_2..|].
  rewrite E1, F1. f_equal. apply Hone; [by eapply list_elem_of_lookup_2..|by apply E3|by apply F3|congruence].
Qed.

Lemma vip_ok_frame db db' :
  vip_ok db → economy_ok (vd_econ db') →
  vip_rows (db_ledger (vd_econ db')) = vip_rows (db_ledger (vd_econ db)) →
  (∀ id, renew_dues (vd_audit db') id = renew_dues (vd_audit db) id) →
  Forall2 same_billing (vd_subs db) (vd_subs db') → vip_ok db'.
Proof.
  intros [He Hids Hone Hb Hr Hl] He' Hrows Hdues Hs. pose proof (same_billing_terms _ _ Hs) as Ht.
  pose proof (same_terms_ids _ _ Ht) as Hsid. split; [done|by rewrite Hsid|by eapply one_active_frame| | |].
  - intros s' [i Hi]%list_elem_of_lookup.
    destruct (Forall2_lookup_r _ _ _ _ _ Hs Hi) as (s & Hsi & (E1 & E2 & E3 & E4 & _) & E5).
    apply list_elem_of_lookup_2 in Hsi. destruct (Hb s Hsi) as [B1 B2 B3].
    split; rewrite ?E1, ?E3, ?E4, ?E5, ?Hdues; [done|done|]. unfold charges. by rewrite Hrows.
  - intros r id. rewrite Hrows, Hsid. apply Hr.
  - intros id. rewrite Hdues, Hsid. apply Hl.
Qed.

(** A grant appends at most its own row. *)
Lemma grant_effect clock input e e' res :
  applyVipGrant clock input e = Ok (e', res) →
  match res with
  | grant_ok balance role expires tx =>
      ∃ pl, find_player e (g_playerId input) = Some pl ∧ role = tier_roleId (g_tier input) ∧
      tx = (if tier_price (g_tier input) =? 0 then None else
        Some (MkBonus (g_playerId input) (- tier_price (g_tier input)) spend (Some (g_referenceType input))
                (Some (g_referenceId input)) None (g_actor input) clock)) ∧
      db_ledger e' = db_ledger e ++ option_list tx ∧
      (pl_role pl = None ∨ pl_role pl = Some role) ∧
      ∀ q, find_player e' q = if bool_decide (q = g_playerId input)
         then Some (MkPlayer (g_playerId input) balance (Some role) (Some expires)) else find_player e q
  | _ => e' = e
  end.
Proof.
  intros H. destruct (find_player e (g_playerId input)) as [pl|] eqn:Ef.
  - pose proof (grant_exact_aux _ _ _ _ _ _ Ef H) as G. cbv zeta in G. destruct res as [b role x tx| |plan].
    + destruct G as (-> & _ & _ & Hr & Htx & Hl & Hq). exists pl. split_and!; try done. destruct Hr as [[? _]|(? & ? & _)]; auto.
    + done.
    + by destruct G.
  - unfold applyVipGrant in H. rewrite Ef in H. apply Ok_inj in H. by injection H as <- <-.
Qed.

Lemma vip_rows_app l k : vip_rows (l ++ k) = vip_rows l ++ vip_rows k.
Proof. apply jfilter_app. Qed.

(** A purchase is not a subscription charge. *)
Lemma purchase_rows clock input e e' res :
  applyVipGrant clock input e = Ok (e', res) → g_referenceType input ≠ js "vip_subscription" →
  vip_rows (db_ledger e') = vip_rows (db_ledger e).
Proof.
  intros H%grant_effect Hr. destruct res as [b role x tx| |]; [|by subst..].
  destruct H as (pl & _ & _ & -> & Hl & _). rewrite Hl, vip_rows_app.
  destruct (_ =? 0); simpl; [by rewrite app_nil_r|]. unfold is_vip_spend. cbn [bt_type bt_reference_type].
  rewrite (bool_decide_false (Some _ = _)) by congruence. rewrite andb_false_r. by rewrite app_nil_r.
Qed.

Lemma daily_not_vip r : bt_reference_type r = Some DAILY_PRESENCE_REFERENCE_TYPE → is_vip_spend r = false.
Proof. intros H. unfold is_vip_spend. rewrite H. apply andb_false_iff. right. by apply bool_decide_eq_false. Qed.

Lemma jfilter_jfilter {A} (f g : A → bool) l : (∀ x, g x = true → f x = true) → jfilter g (jfilter f l) = jfilter g l.
Proof.
  intros H. induction l as [|x l IH]; [done|]. cbn [jfilter List.filter]. destruct (f x) eqn:Ef; cbn [List.filter].
  - destruct (g x); [f_equal|]; exact IH.
  - destruct (g x) eqn:Eg; [|exact IH]. rewrite H in Ef; done.
Qed.

Lemma accrue_rows day now e e' res :
  economy_ok e → accrueDailyBonuses day now e = Ok (e', res) → vip_rows (db_ledger e') = vip_rows (db_ledger e).
Proof.
  intros Hok. unfold accrueDailyBonuses. cbv zeta. destruct (date_parse _) as [ms|]; [|done].
  destruct (existsb _ _); [done|]. set (e0 := set_presence _ e).
  destruct (db_settings e0) as [st|]; [|by intros [= <- _]]. destruct (economy_enabled st); [|by intros [= <- _]].
  intros H. apply accrue_ledger_inv in H as (ins & Hins & _ & -> & _); [|by apply economy_ok_presence].
  cbn [db_ledger set_players set_ledger]. rewrite !vip_rows_app.
  assert (vip_rows ins = [] ∧ vip_rows (forgiveness_rows day (ms / 1000) e0 ins) = []) as [-> ->].
  { split; apply jfilter_none; intros r Hr; apply daily_not_vip.
    - by destruct (earn_rows_inv _ _ _ _ _ _ Hins Hr) as (_ & _ & ? & _).
    - by apply list_elem_of_fmap in Hr as (kv & -> & _). }
  rewrite !app_nil_r. unfold vip_rows, kept_rows. apply jfilter_jfilter. intros r Hr. apply negb_true_iff, not_true_iff_false.
  unfold accrual_row. intros [[[_ Hd]%andb_true_iff _]%andb_true_iff _]%andb_true_iff. apply bool_decide_eq_true in Hd.
  by rewrite daily_not_vip in Hr.
Qed.

Lemma insert_bonus_rows r e e' : insert_bonus r e = Ok e' → is_vip_spend r = false → vip_rows (db_ledger e') = vip_rows (db_ledger e).
Proof.
  intros (-> & _)%insert_bonus_inv Hr. cbn [db_ledger set_ledger]. rewrite vip_rows_app.
  unfold vip_rows at 2. cbn [jfilter List.filter]. by rewrite Hr, app_nil_r.
Qed.

Lemma econ_step_rows op e :
  economy_ok e → (∀ clock input, op ≠ op_grant clock input) → vip_rows (db_ledger (econ_step op e)) = vip_rows (db_ledger e).
Proof.
  intros Hok Hop. destruct op as [day now|clock input|clock actor p comment amount| | | | |id]; simpl; try done.
  - destruct (accrueDailyBonuses day now e) as [[e' r]|] eqn:E; [by eapply accrue_rows|done].
  - by destruct (Hop clock input).
  - destruct (bonusAdjustment _ _ _ _ _ _) as [[e' r]|] eqn:E; [|done]. unfold bonusAdjustment in E.
    destruct (find_player e p) as [pl|]; [|by injection E as <- _]. destruct (_ <? 0); [by injection E as <- _|].
    result_inv E. apply update_player_inv in E1 as [Hdb _]. apply Ok_inj in E. injection E as <- _. rewrite Hdb.
    by apply (insert_bonus_rows _ _ _ E0).
  - by destruct (player_exists e id).
Qed.

(** ** Roles assigned and cleared *)

(** A change of roles keeps the balances. *)
Lemma economy_ok_roles f e :
  (∀ pl, pl_id (f pl) = pl_id pl ∧ pl_balance (f pl) = pl_balance pl) →
  economy_ok e → economy_ok (set_players (f <$> db_players e) e).
Proof.
  intros Hf [Hn Hb Hr Hu]. assert (pl_id <$> (f <$> db_players e) = pl_id <$> db_players e) as Hids.
  { rewrite <-list_fmap_compose. apply list_fmap_ext. intros i pl _. apply Hf. }
  split; cbn [db_players db_ledger set_players]; [by rewrite Hids| | |done].
  - intros pl (x & -> & Hx)%list_elem_of_fmap. destruct (Hf x) as [-> ->]. by apply Hb.
  - intros r Hin. rewrite Hids. by apply Hr.
Qed.

Lemma clear_one_frame a db db' ok :
  vip_ok db → clear_one a db = (db', ok) → vip_ok db' ∧ vd_subs db' = vd_subs db.
Proof.
  intros Hok. unfold clear_one. cbv zeta. destruct (existsb _ _); [|by intros [= <- <-]]. intros [= <- <-]. split; [|done].
  apply (vip_ok_frame db); [done| |done| |apply same_billing_all].
  - cbn. apply economy_ok_roles; [|apply Hok]. intros pl. by destruct (still_assigned a pl).
  - intros id. cbn. unfold renew_dues. rewrite omap_app. cbn. by rewrite app_nil_r.
Qed.

Lemma clear_loop_frame l db db' cleared :
  vip_ok db → clear_loop l db = (db', cleared) → vip_ok db' ∧ vd_subs db' = vd_subs db.
Proof.
  revert db db' cleared. induction l as [|a l IH]; intros db db' cleared Hok; cbn [clear_loop]; [by intros [= <- <-]|].
  destruct (clear_one a db) as [db1 ok] eqn:E1. destruct (clear_loop l db1) as [db2 c] eqn:E2. intros [= <- _].
  destruct (clear_one_frame _ _ _ _ Hok E1) as [Hok1 Hs1]. destruct (IH _ _ _ Hok1 E2) as [Hok2 Hs2].
  split; [done|]. congruence.
Qed.

Lemma enqueue_frame reason db db' n :
  vip_ok db → enqueueAdminsCfgSyncForAllServers reason db = (db', n) → vip_ok db' ∧ vd_subs db' = vd_subs db.
Proof. intros Hok [= <- _]. split; [|done]. by apply (vip_ok_frame db); [|apply Hok| | |apply same_billing_all]. Qed.

Lemma clear_frame l db : vip_ok db → let db' := (clearExpiredAssignments l db).1.1 in vip_ok db' ∧ vd_subs db' = vd_subs db.
Proof.
  intros Hok. unfold clearExpiredAssignments. destruct (clear_loop l db) as [db1 c] eqn:E1.
  destruct (clear_loop_frame _ _ _ _ Hok E1) as [Hok1 Hs1]. destruct c as [|a c]; [done|].
  destruct (enqueueAdminsCfgSyncForAllServers _ db1) as [db2 n] eqn:E2. destruct (enqueue_frame _ _ _ _ Hok1 E2) as [Hok2 Hs2].
  cbn. split; [done|congruence].
Qed.

(** ** Renewals and new subscriptions *)

Lemma charges_app l k id : charges (l ++ k) id = charges l id + charges k id.
Proof. unfold charges. by rewrite vip_rows_app, zsum_app. Qed.

Lemma charges_other l id : (∀ r, r ∈ vip_rows l → bt_reference_id r ≠ Some id) → charges l id = 0.
Proof. intros H. apply zsum_zero. intros r Hr. by rewrite bool_decide_false by by apply H. Qed.

Lemma subscription_row_is_charge p a id actor clock :
  is_vip_spend (MkBonus p a spend (Some (js "vip_subscription")) (Some id) None actor clock) = true.
Proof. unfold is_vip_spend. cbn [bt_type bt_reference_type]. by rewrite !bool_decide_true. Qed.

(** The row of a subscription charge. *)
Lemma grant_charges clock p tier actor id now e e' b role x tx q :
  applyVipGrant clock (MkGrant p tier actor (js "vip_subscription") id now) e = Ok (e', grant_ok b role x tx) →
  charges (db_ledger e') q = charges (db_ledger e) q + (if bool_decide (q = id) then - tier_price tier else 0).
Proof.
  intros H%grant_effect. cbn [g_tier g_playerId g_referenceId g_referenceType g_actor] in H.
  destruct H as (pl & _ & _ & -> & Hl & _). rewrite Hl, charges_app. f_equal.
  destruct (tier_price tier =? 0) eqn:E; bool_to_Prop; unfold charges, vip_rows; cbn [option_list jfilter List.filter].
  - rewrite E. simpl. by destruct (bool_decide _).
  - rewrite jfilter_all by (intros r ->%list_elem_of_singleton; apply subscription_row_is_charge).
    match goal with |- context [option_list (Some ?x)] => change (option_list (Some x)) with [x] end.
    unfold zsum. cbn [foldr bt_reference_id bt_amount].
    destruct (decide (q = id)) as [->|Hq]; [rewrite !bool_decide_true by done; lia|].
    rewrite (bool_decide_false (q = id)), (bool_decide_false (Some id = Some q)) by congruence. lia.
Qed.

Lemma grant_refs clock p tier actor id now e e' b role x tx r :
  applyVipGrant clock (MkGrant p tier actor (js "vip_subscription") id now) e = Ok (e', grant_ok b role x tx) →
  r ∈ vip_rows (db_ledger e') → r ∈ vip_rows (db_ledger e) ∨ bt_reference_id r = Some id.
Proof.
  intros (pl & _ & _ & -> & Hl & _)%grant_effect. rewrite Hl, vip_rows_app, elem_of_app. intros [?|Hr]; [by left|right].
  apply elem_of_jfilter in Hr as [_ Hr]. destruct (_ =? 0); [by apply not_elem_of_nil in Hr|].
  by apply list_elem_of_singleton in Hr as ->.
Qed.

Definition subs_grow (db db' : vip_db) : Prop := ∀ d, due_ok db d → due_ok db' d.

Lemma subs_grow_terms db db' : Forall2 same_terms (vd_subs db) (vd_subs db') → subs_grow db db'.
Proof.
  intros H d (s & Hs & E1 & E2 & E3 & E4). apply list_elem_of_lookup in Hs as [i Hi].
  destruct (Forall2_lookup_l _ _ _ _ _ H Hi) as (s' & Hi' & F1 & F2 & F3 & F4 & _). exists s'.
  split; [by eapply list_elem_of_lookup_2|]. split_and!; congruence.
Qed.

Lemma vip_keep db : vip_ok db → vip_ok db ∧ subs_grow db db.
Proof. intros H. split; [exact H|]. intros d Hd. exact Hd. Qed.

Lemma insert_subscription_inv s db db' :
  insert_subscription s db = Ok db' →
  db' = set_subs (vd_subs db ++ [s]) db ∧ 0 < sub_days s ∧ 0 ≤ sub_price s ∧ sub_id s ∉ sub_id <$> vd_subs db ∧
  (is_active s = true → ∀ t, t ∈ vd_subs db → is_active t = true → sub_player t ≠ sub_player s).
Proof.
  unfold insert_subscription. destruct (negb (int4_ok (sub_days s) && int4_ok (sub_price s))); [done|].
  destruct (negb ((0 <? sub_days s) && (0 <=? sub_price s))) eqn:E1; [done|].
  destruct (existsb (fun t => bool_decide (sub_id t = sub_id s)) _) eqn:E2; [done|].
  destruct (is_active s && existsb _ _) eqn:E3; [done|].
  destruct (negb (player_exists _ _ && _)) eqn:E4; [done|]. intros <-%Ok_inj.
  apply negb_false_iff, andb_true_iff in E1 as [H1 H2]. bool_to_Prop. split_and!; [done|done|done| |].
  - intros (t & Ht & Hin)%list_elem_of_fmap. apply not_true_iff_false in E2. apply E2, existsb_exists. exists t.
    split; [by apply list_elem_of_In|]. by apply bool_decide_eq_true.
  - intros Ha t Ht Hta Hp. destruct E3 as [?|E3]; [congruence|]. apply not_true_iff_false in E3. apply E3, existsb_exists. exists t.
    split; [by apply list_elem_of_In|]. rewrite Hta. by apply bool_decide_eq_true.
Qed.

(** The subscription is enrolled with its first period charged. *)
Lemma createSubscriptionTx_ok clock now id p tierId tier actor db db' rp :
  vip_ok db → createSubscriptionTx clock now id p tierId tier actor db = Ok (db', rp) → vip_ok db' ∧ subs_grow db db'.
Proof.
  intros Hok. unfold createSubscriptionTx. destruct (existsb _ _) eqn:Ex; [intros [= <- _]; by apply vip_keep|].
  intros H. result_inv H. destruct a as [e' res]. cbn [fst snd] in H. unfold lift_db in E.
  destruct (applyVipGrant _ _ _) as [[e1 r1]|] eqn:Eg; [|done]. apply Ok_inj in E. injection E as -> ->.
  destruct res as [b role x tx| |plan]; [|apply Ok_inj in H; injection H as <- _; by apply vip_keep..].
  result_inv H. rename a into db1. destruct (insert_subscription_inv _ _ _ E) as (-> & Hd & Hp & Hid & Hone). clear E.
  cbn [enqueueAdminsCfgSyncForAllServers] in H. apply Ok_inj in H. injection H as <- _.
  pose proof (applyVipGrant_ok _ _ _ _ _ (vo_econ _ Hok) Eg) as He.
  assert (id ∉ sub_id <$> vd_subs db) as Hid' by exact Hid. clear Hid. rename Hid' into Hid.
  set (s := MkSub _ _ _ _ _ _ _ _) in *.
  destruct Hok as [_ Hids Ho Hb Hr Hl]. split; [split; vip_cbn|].
  - exact He.
  - rewrite fmap_app. apply NoDup_app. split; [done|]. split; [|apply NoDup_singleton].
    intros y Hy Hy'%list_elem_of_singleton. cbn in Hy'. by subst y.
  - intros s1 s2 H1 H2 A1 A2 Hpl. apply elem_of_app in H1, H2.
    destruct H1 as [H1|H1], H2 as [H2|H2].
    + by apply Ho.
    + apply list_elem_of_singleton in H2 as ->. by destruct (Hone A2 s1 H1 A1).
    + apply list_elem_of_singleton in H1 as ->. by destruct (Hone A1 s2 H2 A2).
    + apply list_elem_of_singleton in H1 as ->. by apply list_elem_of_singleton in H2 as ->.
  - assert (renew_dues (vd_audit db) id = []) as Hnil.
    { destruct (renew_dues (vd_audit db) id) eqn:En; [done|]. exfalso. apply Hid, Hl. by rewrite En. }
    intros t [Ht|Ht]%elem_of_app.
    + destruct (Hb t Ht) as [B1 B2 B3]. split; vip_cbn; [done|done|]. rewrite (grant_charges _ _ _ _ _ _ _ _ _ _ _ _ _ Eg), B3.
      rewrite bool_decide_false; [lia|]. intros <-. by apply Hid, list_elem_of_fmap_2.
    + apply list_elem_of_singleton in Ht as ->. split; vip_cbn; unfold s; vip_cbn; rewrite ?Hnil; [done|by intros i d ?|].
      rewrite (grant_charges _ _ _ _ _ _ _ _ _ _ _ _ _ Eg), bool_decide_true by done. rewrite charges_other; [cbn; lia|].
      intros r Hrin Hid'. by apply Hid, (Hr r).
  - intros r q Hrin Hq. rewrite fmap_app, elem_of_app. destruct (grant_refs _ _ _ _ _ _ _ _ _ _ _ _ _ Eg Hrin) as [Hold|Hnew].
    + left. by apply (Hr r).
    + right. apply list_elem_of_singleton. cbn. congruence.
  - intros q Hq. rewrite fmap_app, elem_of_app. left. by apply Hl.
  - intros d (t & Ht & Hrest). exists t. split; [apply elem_of_app; by left|done].
Qed.

Lemma renew_dues_snoc log id p due next x b q :
  renew_dues (log ++ [renew_entry id p due next x b]) q = renew_dues log q ++ (if bool_decide (id = q) then [due] else []).
Proof. unfold renew_dues. rewrite omap_app. f_equal. simpl. by destruct (bool_decide (id = q)). Qed.

(** One period is charged, recorded and moved together. *)
Lemma chargeRenewalTx_ok clock now d db db' res :
  vip_ok db → due_ok db d → chargeRenewalTx clock now d db = Ok (db', res) → vip_ok db' ∧ subs_grow db db'.
Proof.
  intros Hok (s1 & Hs1 & D1 & D2 & D3 & D4). unfold chargeRenewalTx.
  destruct (find_vip_role _ _) as [role|]; [|intros [= <- _]; by apply vip_keep].
  destruct (vr_panelAccess role || _); [intros [= <- _]; by apply vip_keep|].
  intros H. result_inv H. destruct a as [e' g]. cbn [fst snd] in H. unfold lift_db in E.
  destruct (applyVipGrant _ _ _) as [[e1 r1]|] eqn:Eg; [|done]. apply Ok_inj in E. injection E as -> ->.
  destruct g as [b rl x tx| |plan];
    [|apply Ok_inj in H; injection H as <- _; by apply vip_keep|destruct (plan_reason plan); apply Ok_inj in H; injection H as <- _; by apply vip_keep].
  cbv zeta in H. set (next := nextRenewalAfter _ _) in H. unfold update_subs in H. cbn [vd_subs set_econ] in H.
  destruct (length (jfilter (still_due d) (vd_subs db)) =? 0)%nat eqn:En; [done|]. cbn [enqueueAdminsCfgSyncForAllServers] in H.
  apply Ok_inj in H. injection H as <- _.
  assert (Forall2 same_terms (vd_subs db) ((fun s => if still_due d s then with_next next s else s) <$> vd_subs db)) as Hterms.
  { apply Forall2_if_fmap; [intros s; by split_and!|]. intros s _. by split_and!. }
  split; [|by apply subs_grow_terms].
  pose proof (applyVipGrant_ok _ _ _ _ _ (vo_econ _ Hok) Eg) as He. destruct Hok as [_ Hids Ho Hb Hr Hl].
  pose proof (same_terms_ids _ _ Hterms) as Hsid.
  assert (∀ s, s ∈ vd_subs db → sub_id s = due_id d → s = s1) as Huniq.
  { intros s Hs Hid. apply (NoDup_fmap_inj_elem sub_id (vd_subs db)); [done|done|done|congruence]. }
  assert (still_due d s1 = true) as Hp1.
  { destruct (jfilter (still_due d) (vd_subs db)) as [|s ss] eqn:Ef; [done|]. assert (s ∈ jfilter (still_due d) (vd_subs db)) as [Hps Hs]%elem_of_jfilter by (rewrite Ef; left).
    assert (s = s1) as ->; [|done]. apply Huniq; [done|]. unfold still_due in Hps. bool_to_Prop. done. }
  assert (sub_next s1 = due_next d) as Hnext by (unfold still_due in Hp1; bool_to_Prop; done).
  split; vip_cbn.
  - exact He.
  - by rewrite Hsid.
  - by eapply one_active_frame.
  - intros s' (s & -> & Hs)%list_elem_of_fmap. destruct (Hb s Hs) as [B1 B2 B3].
    pose proof (fun q => grant_charges _ _ _ _ _ _ _ _ _ _ _ _ q Eg) as Hch.
    destruct (decide (sub_id s = due_id d)) as [Hid|Hid].
    + rewrite (Huniq s Hs Hid) in *. rewrite Hp1. split; vip_cbn.
      * done.
      * rewrite renew_dues_snoc, bool_decide_true by done. unfold next, nextRenewalAfter. rewrite <-D4, <-Hnext.
        by apply consecutive_snoc.
      * rewrite Hch, B3, renew_dues_snoc, !bool_decide_true by done. cbn [tier_price].
        rewrite length_app. cbn [length]. lia.
    + assert (still_due d s = false) as Hps. { apply not_true_iff_false. intros Hps. unfold still_due in Hps. bool_to_Prop. done. }
      rewrite Hps. split; vip_cbn; [done| |].
      * rewrite renew_dues_snoc, bool_decide_false, app_nil_r by congruence. done.
      * rewrite Hch, B3, renew_dues_snoc, !bool_decide_false, app_nil_r by congruence. lia.
  - intros r q Hrin Hq. rewrite Hsid. destruct (grant_refs _ _ _ _ _ _ _ _ _ _ _ _ _ Eg Hrin) as [Hold|Hnew].
    + by apply (Hr r).
    + rewrite Hq in Hnew. injection Hnew as ->. rewrite <-D1. by apply list_elem_of_fmap_2.
  - intros q Hq. rewrite Hsid. rewrite renew_dues_snoc in Hq. destruct (decide (due_id d = q)) as [<-|Hne].
    + rewrite <-D1. by apply list_elem_of_fmap_2.
    + rewrite bool_decide_false, app_nil_r in Hq by done. by apply Hl.
Qed.

(** ** Every event keeps the billing *)

Lemma findDue_ok db now limit d : d ∈ findDueSubscriptions db now limit → due_ok db d.
Proof.
  unfold findDueSubscriptions. intros Hd%subseteq_take. apply list_elem_of_omap in Hd as (s & Hs & Hd).
  apply elem_of_jsort, elem_of_jfilter in Hs as [_ Hs]. unfold due_row in Hd. destruct (player_exists _ _); [|done].
  destruct (find_tier _ _) as [t|]; [|done]. injection Hd as <-. exists s. by split_and!.
Qed.

Lemma findExpired_due db now limit a : a ∈ findExpiredAssignments db now limit → ex_expiresAt a ≤ now.
Proof.
  unfold findExpiredAssignments. intros Ha%subseteq_take. apply elem_of_jsort, list_elem_of_omap in Ha as (pl & _ & Ha).
  unfold expired_row in Ha. destruct (pl_role pl) as [role|]; [|done]. destruct (pl_role_expires pl) as [e|]; [|done].
  destruct (find_vip_role db role) as [r|]; [|done]. cbn [mbind option_bind] in Ha.
  destruct (e <=? now) eqn:E; [|done]. destruct (_ && _) in Ha; [|done]. injection Ha as <-. cbn. bool_to_Prop. done.
Qed.

Lemma update_subs_ok p f db :
  vip_ok db → (∀ s, same_billing s (f s)) → vip_ok (update_subs p f db).1 ∧ subs_grow db (update_subs p f db).1.
Proof.
  intros Hok Hf. assert (Forall2 same_billing (vd_subs db) (vd_subs (update_subs p f db).1)) as Hs.
  { apply Forall2_if_fmap; [apply same_billing_refl|]. intros s _. apply Hf. }
  split; [|by apply subs_grow_terms, same_billing_terms]. apply (vip_ok_frame db); try done. apply Hok.
Qed.

Lemma set_econ_ok e db :
  vip_ok db → economy_ok e → vip_rows (db_ledger e) = vip_rows (db_ledger (vd_econ db)) →
  vip_ok (set_econ e db) ∧ subs_grow db (set_econ e db).
Proof.
  intros Hok He Hr. split; [|by intros d]. apply (vip_ok_frame db); try done. apply same_billing_all.
Qed.

Lemma me_purchase_ok clock now user tierId db db' rp :
  vip_ok db → me_purchase clock now user tierId db = Ok (db', rp) → vip_ok db' ∧ subs_grow db db'.
Proof.
  intros Hok. unfold me_purchase. destruct user as [p|]; [|intros [= <- _]; by apply vip_keep].
  destruct (negb _); [intros [= <- _]; by apply vip_keep|].
  destruct (resolveTier db tierId) as [tier|]; [|intros [= <- _]; by apply vip_keep].
  intros H. result_inv H. destruct a as [e' g]. cbn [fst snd] in H. unfold lift_db in E.
  destruct (applyVipGrant _ _ _) as [[e1 r1]|] eqn:Eg; [|done]. apply Ok_inj in E. injection E as -> ->.
  destruct g as [b rl x tx| |plan]; [|apply Ok_inj in H; injection H as <- _; by apply vip_keep..].
  destruct (enqueueAdminsCfgSyncForAllServers _ _) as [db1 n] eqn:Eq. apply Ok_inj in H. injection H as <- _.
  destruct (set_econ_ok e' db Hok) as [Hok1 Hg1].
  - by eapply applyVipGrant_ok; [apply Hok|].
  - by eapply purchase_rows.
  - destruct (enqueue_frame _ _ _ _ Hok1 Eq) as [Hok2 Hs]. split; [done|]. intros d Hd%Hg1. by unfold due_ok; rewrite Hs.
Qed.

Lemma createSubscription_ok clock now id p tierId tier actor db db' rp :
  vip_ok db → createSubscription clock now id p tierId tier actor db = Ok (db', rp) → vip_ok db' ∧ subs_grow db db'.
Proof.
  intros Hok. unfold createSubscription. destruct (createSubscriptionTx _ _ _ _ _ _ _ _) as [[db1 r]|e] eqn:E.
  - intros [= <- _]. by eapply createSubscriptionTx_ok.
  - destruct e as [e| |]; try done. destruct e; try done. intros [= <- _]. by apply vip_keep.
Qed.

Lemma me_subscribe_ok clock now id user tierId db db' rp :
  vip_ok db → me_subscribe clock now id user tierId db = Ok (db', rp) → vip_ok db' ∧ subs_grow db db'.
Proof.
  intros Hok. unfold me_subscribe. destruct user; [|intros [= <- _]; by apply vip_keep].
  destruct (negb _); [intros [= <- _]; by apply vip_keep|].
  destruct (resolveTier db tierId); [by apply createSubscription_ok|intros [= <- _]; by apply vip_keep].
Qed.

Lemma grant_subscription_ok clock now id user p tierId days price db db' rp :
  vip_ok db → grant_subscription clock now id user p tierId days price db = Ok (db', rp) → vip_ok db' ∧ subs_grow db db'.
Proof.
  intros Hok. unfold grant_subscription. destruct (negb (grantBody_ok _ _)); [intros [= <- _]; by apply vip_keep|].
  destruct user as [a|]; [|intros [= <- _]; by apply vip_keep]. do 3 (destruct (negb _); [intros [= <- _]; by apply vip_keep|]).
  destruct (resolveTier db tierId); [by apply createSubscription_ok|intros [= <- _]; by apply vip_keep].
Qed.

Lemma cancel_ok now user id db :
  vip_ok db → vip_ok (cancel_subscription now user id db).1 ∧ subs_grow db (cancel_subscription now user id db).1.
Proof.
  intros Hok. unfold cancel_subscription. destruct user as [p|]; [|by apply vip_keep]. cbv zeta.
  set (q := fun s => _ && is_active s). set (f := fun s => MkSub _ _ _ st_cancelled _ _ _ _).
  pose proof (update_subs_ok q f db Hok) as H. destruct (update_subs q f db) as [db' n].
  destruct (jfilter q (vd_subs db)) as [|y ys]; apply H; intros s; (split; [by split_and!|done]).
Qed.

Lemma expire_ok id now db :
  vip_ok db → vip_ok (expireSubscription id now db).1 ∧ subs_grow db (expireSubscription id now db).1.
Proof.
  intros Hok. unfold expireSubscription. set (q := fun s => _ && is_active s). set (f := fun s => MkSub _ _ _ st_expired _ _ _ _).
  pose proof (update_subs_ok q f db Hok) as H. destruct (update_subs q f db) as [db' n]. apply H. intros s. split; [by split_and!|done].
Qed.

Lemma chargeRenewal_ok clock now d db db' res :
  vip_ok db → due_ok db d → chargeRenewal clock now d db = Ok (db', res) → vip_ok db' ∧ subs_grow db db'.
Proof.
  intros Hok Hd. unfold chargeRenewal. destruct (chargeRenewalTx _ _ _ _) as [[db1 r]|e] eqn:E.
  - intros [= <- _]. by eapply chargeRenewalTx_ok.
  - destruct e; try done. intros [= <- _]. by apply vip_keep.
Qed.

Lemma world_frame w db :
  world_ok w → vip_ok db → subs_grow (w_db w) db → world_ok (with_db db w).
Proof. intros [H1 H2 H3] Hok Hg. split; cbn; [done| |done]. intros d Hd. by apply Hg, H2. Qed.

Lemma commit_ok {A} (r : vip_result (vip_db * A)) w :
  world_ok w → (∀ db a, r = Ok (db, a) → vip_ok db ∧ subs_grow (w_db w) db) → world_ok (commit r w).
Proof. intros Hw H. unfold commit. destruct r as [[db a]|]; [|done]. destruct (H db a eq_refl). by apply world_frame. Qed.

Lemma vip_exec_ok w ev : world_ok w → world_ok (vip_exec w ev).
Proof.
  intros Hw. pose proof (wo_db _ Hw) as Hok.
  destruct ev as [op|p r x|ts rs ss ls|clock now u t|clock now id u t|clock now id u p t dd pp|now u id|now l|clock now i|now i|i|now l|idx];
    cbn [vip_exec]; cbv zeta.
  - assert (∀ op, (∀ c g, op ≠ op_grant c g) →
      world_ok (with_db (set_econ (econ_step op (vd_econ (w_db w))) (w_db w)) w)) as He.
    { intros o Ho. destruct (set_econ_ok (econ_step o (vd_econ (w_db w))) (w_db w) Hok) as [? ?];
        [apply econ_step_ok, Hok|by apply econ_step_rows; [apply Hok|]|by apply world_frame]. }
    destruct op; [by apply He|done|by apply He..].
  - destruct (set_econ_ok (set_role p r x (vd_econ (w_db w))) (w_db w) Hok) as [? ?]; [|done|by apply world_frame].
    apply economy_ok_roles; [|apply Hok]. intros pl. by destruct (bool_decide _).
  - apply world_frame; [done| |by intros d]. apply (vip_ok_frame (w_db w)); try done; [apply Hok|apply same_billing_all].
  - apply commit_ok; [done|]. intros db a. by apply me_purchase_ok.
  - apply commit_ok; [done|]. intros db a. by apply me_subscribe_ok.
  - apply commit_ok; [done|]. intros db a. by apply grant_subscription_ok.
  - destruct (cancel_ok now u id (w_db w) Hok). by apply world_frame.
  - destruct Hw as [H1 H2 H3]. split; cbn; [done| |done]. intros d [Hd|Hd]%elem_of_app; [by apply H2|by eapply findDue_ok].
  - destruct (w_due w !! i) as [d|] eqn:Ed; [|done]. apply list_elem_of_lookup_2 in Ed. apply (wo_due _ Hw) in Ed.
    destruct (chargeRenewal clock now d (w_db w)) as [[db res]|] eqn:Ec; [|done].
    destruct (chargeRenewal_ok _ _ _ _ _ _ Hok Ed Ec) as [Hok' Hg].
    assert (world_ok (with_db db w)) as [W1 W2 W3] by by apply world_frame. destruct res; by split.
  - destruct (w_refused w !! i) as [[d why]|]; [|done]. destruct (expire_ok (due_id d) now (w_db w) Hok). by apply world_frame.
  - destruct (w_refused w !! i) as [[d why]|]; [|done]. apply world_frame; [done| |by intros y].
    apply (vip_ok_frame (w_db w)); try done; [apply Hok| |apply same_billing_all].
    intros id. cbn. unfold renew_dues. rewrite omap_app. cbn. by rewrite app_nil_r.
  - destruct Hw as [H1 H2 H3]. split; cbn; [done|done|]. intros t a [Ha|Ha]%elem_of_app; [by apply H3|].
    apply list_elem_of_fmap in Ha as (b & [= -> ->] & Hb). by eapply findExpired_due.
  - destruct (clear_frame (omap (fun i => snd <$> w_expired w !! i) idx) (w_db w) Hok) as [Hok' Hs].
    apply world_frame; [done|done|]. intros d. unfold due_ok. by rewrite Hs.
Qed.

Lemma empty_world_ok : world_ok empty_world.
Proof.
  split; cbn; [|set_solver|set_solver]. split; cbn; [apply empty_db_ok|constructor|by intros s t ?%not_elem_of_nil| | |].
  - by intros s ?%not_elem_of_nil.
  - by intros r id ?%not_elem_of_nil.
  - done.
Qed.

Lemma vip_run_ok evs w : world_ok w → world_ok (vip_run evs w).
Proof. unfold vip_run. revert w. induction evs as [|ev evs IH]; intros w Hw; simpl; [done|]. by apply IH, vip_exec_ok. Qed.

(** C14: Whatever runs in between, with any number of renewal passes in flight,
    rows read long before they are used, calls repeated and passes cut short,
    every period of a subscription is charged exactly once: its ledger rows sum
    to the price times the first period and the recorded renewals, and the
    renewals lead up to the next billing date one period at a time. *)
Theorem periods_billed_once evs s :
  s ∈ vd_subs (w_db (vip_run evs empty_world)) →
  let db := w_db (vip_run evs empty_world) in
  let dues := renew_dues (vd_audit db) (sub_id s) in
  charges (db_ledger (vd_econ db)) (sub_id s) = - sub_price s * (1 + Z.of_nat (length dues)) ∧
  ∀ i d, dues !! i = Some d → d = sub_next s - (Z.of_nat (length dues) - Z.of_nat i) * (sub_days s * DAY_MS).
Proof.
  intros Hs. destruct (vo_billed _ (wo_db _ (vip_run_ok evs _ empty_world_ok)) s Hs) as [_ Hd Hc]. split; [exact Hc|exact Hd].
Qed.

(** In every such history the ledger and the balances agree, subscription ids
    are unique, and no player has two active subscriptions. *)
Theorem vip_tables_consistent evs :
  let db := w_db (vip_run evs empty_world) in
  economy_ok (vd_econ db) ∧ NoDup (sub_id <$> vd_subs db) ∧ one_active (vd_subs db).
Proof. destruct (wo_db _ (vip_run_ok evs _ empty_world_ok)) as [? ? ? _ _ _]. by split_and!. Qed.

(** * Roles *)

(** How an event may change a player's role. *)
Inductive role_change (w : vip_world) (pl pl' : player_row) : Prop :=
| rc_same : pl_role pl' = pl_role pl → pl_role_expires pl' = pl_role_expires pl → role_change w pl pl'
| rc_granted role expires ro :
    pl_role pl = None ∨ pl_role pl = Some role → pl_role pl' = Some role → pl_role_expires pl' = Some expires →
    find_vip_role (w_db w) role = Some ro → vr_panelAccess ro = false → vr_isSystemRole ro = false → role_change w pl pl'
| rc_expired t role e :
    (t, MkExpired (pl_id pl) role e) ∈ w_expired w → e ≤ t → pl_role pl = Some role → pl_role_expires pl = Some e →
    pl_role pl' = None → pl_role_expires pl' = None → role_change w pl pl'.

Lemma find_player_Forall2 (R : player_row → player_row → Prop) e e' q pl :
  (∀ x y, R x y → pl_id y = pl_id x) → Forall2 R (db_players e) (db_players e') →
  find_player e q = Some pl → ∃ pl', find_player e' q = Some pl' ∧ R pl pl'.
Proof.
  unfold find_player. intros Hid H. induction H as [|x y l l' Hxy _ IH]; [done|]. cbn [List.find].
  rewrite (Hid _ _ Hxy). destruct (bool_decide (pl_id x = q)); [|exact IH]. intros [= <-]. by exists y.
Qed.

Definition role_kept (x y : player_row) : Prop :=
  pl_id y = pl_id x ∧ pl_role y = pl_role x ∧ pl_role_expires y = pl_role_expires x.

Lemma econ_step_roles op e q pl :
  economy_ok e → (∀ clock input, op ≠ op_grant clock input) → find_player e q = Some pl →
  ∃ pl', find_player (econ_step op e) q = Some pl' ∧ role_kept pl pl'.
Proof.
  intros Hok Hop Hf. destruct op as [day now|clock input|clock actor p comment amount| | | | |id]; simpl; try by exists pl.
  - destruct (accrueDailyBonuses day now e) as [[e' r]|] eqn:E; [|by exists pl]. unfold accrueDailyBonuses in E. cbv zeta in E.
    destruct (date_parse _) as [ms|]; [|done]. destruct (existsb _ _); [done|]. set (e0 := set_presence _ e) in E.
    destruct (db_settings e0) as [st|]; [|injection E as <- _; by exists pl].
    destruct (economy_enabled st); [|injection E as <- _; by exists pl].
    apply accrue_ledger_inv in E as (ins & _ & Hpl & _); [|by apply economy_ok_presence].
    eapply (find_player_Forall2 role_kept); [by intros x y [? _]| |exact Hf].
    eapply Forall2_impl; [exact Hpl|]. intros x y (H1 & H2 & H3 & _). by split_and!.
  - by destruct (Hop clock input).
  - destruct (bonusAdjustment _ _ _ _ _ _) as [[e' r]|] eqn:E; [|by exists pl]. unfold bonusAdjustment in E.
    destruct (find_player e p) as [pl0|] eqn:Ep; [|injection E as <- _; by exists pl].
    destruct (_ <? 0); [injection E as <- _; by exists pl|]. result_inv E. apply Ok_inj in E. injection E as <- _.
    apply insert_bonus_inv in E0 as (-> & _). apply update_player_inv in E1 as [_ Hps].
    eapply (find_player_Forall2 role_kept); [by intros x y [? _]| |exact Hf]. cbn [db_players set_ledger] in Hps.
    eapply Forall2_impl; [exact Hps|]. intros x y. cbv beta. destruct (bool_decide _); [intros [-> _]; by split_and!|intros ->; by split_and!].
  - destruct (player_exists e id); [by exists pl|]. exists pl. split; [|by split_and!]. unfold find_player in *.
    cbn [db_players set_players]. clear -Hf. induction (db_players e) as [|x l IH]; [done|]. cbn [app List.find] in *.
    destruct (bool_decide (pl_id x = q)); [done|by apply IH].
Qed.

Definition cleared (pl : player_row) : player_row := MkPlayer (pl_id pl) (pl_balance pl) None None.

Lemma find_player_if (p : player_row → bool) e q pl :
  find_player e q = Some pl →
  find_player (set_players ((fun x => if p x then cleared x else x) <$> db_players e) e) q = Some (if p pl then cleared pl else pl).
Proof.
  intros Hf. destruct (find_player_Forall2 (fun x y => y = if p x then cleared x else x) e
    (set_players ((fun x => if p x then cleared x else x) <$> db_players e) e) q pl) as (y & Hy & ->); [|  |done|done].
  - intros x y ->. by destruct (p x).
  - cbn [db_players set_players]. induction (db_players e); by constructor.
Qed.

(** A clearing touches exactly the players it was given, as they were found. *)
Lemma clear_one_player a db q pl :
  find_player (vd_econ db) q = Some pl →
  find_player (vd_econ (clear_one a db).1) q = Some (if still_assigned a pl then cleared pl else pl).
Proof.
  intros Hf. unfold clear_one. cbv zeta. destruct (existsb _ _) eqn:Ex; [by apply find_player_if|].
  assert (still_assigned a pl = false) as ->; [|done]. apply not_true_iff_false. intros Hs. apply not_true_iff_false in Ex.
  apply Ex, existsb_exists. exists pl. split; [|done]. apply list_elem_of_In. by apply find_player_Some in Hf as [? _].
Qed.

Lemma clear_loop_player l db q pl :
  find_player (vd_econ db) q = Some pl →
  find_player (vd_econ (clear_loop l db).1) q = Some (if existsb (fun a => still_assigned a pl) l then cleared pl else pl).
Proof.
  revert db pl. induction l as [|a l IH]; intros db pl Hf; cbn [clear_loop existsb]; [done|].
  pose proof (clear_one_player a db q pl Hf) as H1. destruct (clear_one a db) as [db1 ok]. cbn [fst] in H1.
  pose proof (IH _ _ H1) as H2. destruct (clear_loop l db1) as [db2 c]. cbn [fst] in *. rewrite H2. destruct (still_assigned a pl) eqn:E; [|done]. cbn [orb]. by destruct (existsb _ _).
Qed.

Definition role_safe (db : vip_db) (role : jstr) : Prop :=
  ∃ ro, find_vip_role db role = Some ro ∧ vr_panelAccess ro = false ∧ vr_isSystemRole ro = false.

(** Every player of [w] is accounted for in the tables [e']. *)
Definition roles_accounted (w : vip_world) (e' : economy_db) : Prop :=
  ∀ q pl, find_player (vd_econ (w_db w)) q = Some pl → ∃ pl', find_player e' q = Some pl' ∧ role_change w pl pl'.

Lemma roles_same w : roles_accounted w (vd_econ (w_db w)).
Proof. intros q pl Hf. exists pl. split; [done|by apply rc_same]. Qed.

Lemma grant_roles w clock input e' res :
  applyVipGrant clock input (vd_econ (w_db w)) = Ok (e', res) → role_safe (w_db w) (tier_roleId (g_tier input)) →
  roles_accounted w e'.
Proof.
  intros H%grant_effect Hsafe. destruct res as [b role x tx| |plan]; [|subst e'; apply roles_same..].
  destruct H as (pl0 & Hf0 & -> & _ & _ & Hr & Hq). intros q pl Hf. rewrite Hq. destruct (decide (q = g_playerId input)) as [->|Hne].
  - rewrite bool_decide_true by done. rewrite Hf0 in Hf. injection Hf as ->. eexists. split; [reflexivity|].
    destruct Hsafe as (ro & Hro & Hp & Hs). by eapply (rc_granted _ _ _ _ _ ro).
  - rewrite bool_decide_false by done. exists pl. split; [done|by apply rc_same].
Qed.

Lemma resolveTier_safe db tierId tier : resolveTier db tierId = inl tier → role_safe db (tier_roleId tier).
Proof.
  unfold resolveTier. destruct (find_tier db tierId) as [t|]; [|done]. destruct (find_vip_role db (vt_role t)) as [ro|] eqn:Er; [|done].
  destruct (negb _); [done|]. destruct (vt_price t), (vt_days t); try done. destruct (_ || _) eqn:E; [done|].
  apply orb_false_iff in E as [? ?]. intros [= <-]. by exists ro.
Qed.

Lemma createSubscription_roles w clock now id p tierId tier actor db' rp :
  role_safe (w_db w) (tier_roleId tier) →
  createSubscription clock now id p tierId tier actor (w_db w) = Ok (db', rp) → roles_accounted w (vd_econ db').
Proof.
  intros Hsafe. unfold createSubscription. destruct (createSubscriptionTx _ _ _ _ _ _ _ _) as [[db1 r]|e] eqn:E.
  2:{ destruct e as [e| |]; try done. destruct e; try done. intros [= <- _]. apply roles_same. }
  intros [= <- _]. revert E. unfold createSubscriptionTx. destruct (existsb _ _); [intros [= <- _]; apply roles_same|].
  intros H. result_inv H. destruct a as [e' res]. cbn [fst snd] in H. unfold lift_db in E.
  destruct (applyVipGrant _ _ _) as [[e1 r1]|] eqn:Eg; [|done]. apply Ok_inj in E. injection E as -> ->.
  destruct res as [b role x tx| |plan]; [|apply Ok_inj in H; injection H as <- _; apply roles_same..].
  result_inv H. apply insert_subscription_inv in E as (-> & _). cbn [enqueueAdminsCfgSyncForAllServers] in H.
  apply Ok_inj in H. injection H as <- _. by eapply grant_roles.
Qed.

Lemma commit_roles {A} (r : vip_result (vip_db * A)) w :
  (∀ db a, r = Ok (db, a) → roles_accounted w (vd_econ db)) → roles_accounted w (vd_econ (w_db (commit r w))).
Proof. intros H. unfold commit. destruct r as [[db a]|]; [by eapply H|apply roles_same]. Qed.

Lemma me_purchase_roles w clock now user tierId db' rp :
  me_purchase clock now user tierId (w_db w) = Ok (db', rp) → roles_accounted w (vd_econ db').
Proof.
  unfold me_purchase. destruct user as [p|]; [|intros [= <- _]; apply roles_same].
  destruct (negb _); [intros [= <- _]; apply roles_same|].
  destruct (resolveTier _ tierId) as [tier|] eqn:Et; [|intros [= <- _]; apply roles_same].
  intros H. result_inv H. destruct a as [e' g]. cbn [fst snd] in H. unfold lift_db in E.
  destruct (applyVipGrant _ _ _) as [[e1 r1]|] eqn:Eg; [|done]. apply Ok_inj in E. injection E as -> ->.
  destruct g as [b rl x tx| |plan]; [|apply Ok_inj in H; injection H as <- _; apply roles_same..].
  cbn [enqueueAdminsCfgSyncForAllServers] in H. apply Ok_inj in H. injection H as <- _.
  eapply grant_roles; [exact Eg|]. by eapply resolveTier_safe.
Qed.

Lemma chargeRenewal_roles w clock now d db' res :
  chargeRenewal clock now d (w_db w) = Ok (db', res) → roles_accounted w (vd_econ db').
Proof.
  unfold chargeRenewal. destruct (chargeRenewalTx _ _ _ _) as [[db1 r]|e] eqn:E;
    [|destruct e; try done; intros [= <- _]; apply roles_same].
  intros [= <- _]. revert E. unfold chargeRenewalTx.
  destruct (find_vip_role _ _) as [ro|] eqn:Er; [|intros [= <- _]; apply roles_same].
  destruct (vr_panelAccess ro || vr_isSystemRole ro) eqn:Ep; [intros [= <- _]; apply roles_same|].
  intros H. result_inv H. destruct a as [e' g]. cbn [fst snd] in H. unfold lift_db in E.
  destruct (applyVipGrant _ _ _) as [[e1 r1]|] eqn:Eg; [|done]. apply Ok_inj in E. injection E as -> ->.
  destruct g as [b rl x tx| |plan];
    [|apply Ok_inj in H; injection H as <- _; apply roles_same|destruct (plan_reason plan); apply Ok_inj in H; injection H as <- _; apply roles_same].
  cbv zeta in H. unfold update_subs in H. destruct (_ =? 0)%nat; [done|]. cbn [enqueueAdminsCfgSyncForAllServers] in H.
  apply Ok_inj in H. injection H as <- _. eapply grant_roles; [exact Eg|]. cbn [g_tier tier_roleId].
  apply orb_false_iff in Ep as [? ?]. by exists ro.
Qed.

(** Events of the panel's administration, which set roles and the catalogue at
    will. *)
Definition is_admin_event (ev : vip_event) : bool :=
  match ev with ev_assign _ _ _ | ev_catalog _ _ _ _ => true | _ => false end.


(** * A worked history *)

Definition ex_t0 : Z := 1704067200000.
Definition ex_setup : list vip_event :=
  [ev_econ (op_settings (MkSettings (of_int 1) (of_int 1) (of_int 1) 40 true));
   ev_catalog [MkTierRow (js "gold") (js "vip") (Some 30) (Some 100) true]
     [MkVipRole (js "vip") (js "VIP") false false; MkVipRole (js "mod") (js "Moderator") true false] [js "srv"] [(js "sess", js "p1")];
   ev_econ (op_new_player (js "p1"));
   ev_econ (op_adjust 1 (js "adm") (js "p1") (js "gift") 200);
   ev_subscribe 2 ex_t0 (js "sub1") (Some (js "p1")) (js "gold")].
Definition ex_due : Z := ex_t0 + 30 * DAY_MS - VIP_RENEWAL_LEAD_MS.

(** Two passes read the same due row; the first renews it with the last bonuses. *)
Definition ex_overlap : list vip_event :=
  ex_setup ++ [ev_scan ex_due 500; ev_scan ex_due 500; ev_charge 3 ex_due 0].

Definition ex_subscription (st : VipSubscriptionStatus) (next : Z) (at_ : option Z) : subscription :=
  MkSub (js "sub1") (js "p1") (js "gold") st 30 100 next at_.

(** When two renewal passes overlap and the balance covers one period, the
    pass that comes second finds the balance short and expires the subscription
    the first has just renewed: the guard on the billing date protects the
    charge, not the expiry. *)
Theorem overlapping_pass_expires_renewed :
  vd_subs (w_db (vip_run ex_overlap empty_world)) = [ex_subscription st_active (ex_due + 30 * DAY_MS) None] ∧
  let w := vip_run (ex_overlap ++ [ev_charge 4 ex_due 1; ev_expire ex_due 0]) empty_world in
  vd_subs (w_db w) = [ex_subscription st_expired (ex_due + 30 * DAY_MS) (Some ex_due)] ∧
  snd <$> w_refused w = [why_insufficient_balance] ∧
  charges (db_ledger (vd_econ (w_db w))) (js "sub1") = -200.
Proof. vm_compute. done. Qed.

Lemma periods_billed_once_witness :
  charges (db_ledger (vd_econ (w_db (vip_run ex_overlap empty_world)))) (js "sub1") = - 100 * (1 + 1).
Proof.
  assert (ex_subscription st_active (ex_due + 30 * DAY_MS) None ∈ vd_subs (w_db (vip_run ex_overlap empty_world))) as H
    by (apply (bool_decide_unpack _); vm_compute; exact I).
  exact (proj1 (periods_billed_once _ _ H)).
Defined.

(** The role runs out after its paid periods, and only then it is cleared. *)
Definition ex_expiring : list vip_event :=
  ex_setup ++ [ev_cancel ex_due (Some (js "p1")) (js "sub1"); ev_role_scan (ex_t0 + 30 * DAY_MS) 500].


(** * A renewal pass serves every due subscription *)

(** The ledger has no row for [id] from the instant [clock]. *)
Definition fresh_clock (clock : Z) (id : jstr) (e : economy_db) : Prop :=
  ∀ r, r ∈ db_ledger e → bt_reference_id r = Some id → bt_created r ≠ clock.

Lemma grant_total clock p tier actor id now e pl :
  economy_ok e → find_player e p = Some pl → 0 ≤ tier_price tier < 2 ^ 31 → fresh_clock clock id e →
  ∃ e' res, applyVipGrant clock (MkGrant p tier actor (js "vip_subscription") id now) e = Ok (e', res).
Proof.
  intros Hok Hf Hp Hfresh. unfold applyVipGrant. cbn [g_playerId g_tier g_now g_referenceType g_referenceId g_actor]. rewrite Hf.
  destruct (planVipGrant _ _ _ _ _) as [price next role x|b| |] eqn:Ep; try (by eexists _, _).
  assert (price = tier_price tier ∧ next = pl_balance pl - price ∧ 0 ≤ next) as (-> & -> & Hn).
  { unfold planVipGrant in Ep. destruct (_ <? 0) eqn:E; [done|]. bool_to_Prop. repeat case_match; by simplify_eq. }
  destruct (find_player_Some _ _ _ Hf) as [Hin Hid]. pose proof (eo_balance _ Hok pl Hin) as [_ Hb].
  assert (∀ e0, db_players e0 = db_players e → ∃ e1, update_player p
    (fun y => MkPlayer (pl_id y) (pl_balance pl - tier_price tier) (Some role) (Some x)) e0 = Ok e1) as Hup.
  { intros e0 He0. unfold update_player. rewrite He0.
    match goal with |- context [mapR ?g ?l] => assert (is_ok (mapR g l) = true) as Hm end.
    { apply mapR_ok. intros y _. destruct (bool_decide _); [|done]. cbn [pl_balance]. unfold checked_balance, int4_ok.
      rewrite (proj2 (Z.leb_le _ _)), (proj2 (Z.ltb_lt _ _)), (proj2 (Z.ltb_ge _ _)) by lia. done. }
    destruct (mapR _ _) as [ps|]; [|done]. by eexists. }
  destruct (tier_price tier =? 0) eqn:Ez; cbn [negb result_bind].
  - destruct (Hup e eq_refl) as [e1 He1]. cbn [fst]. rewrite He1. cbn [result_bind]. by eexists _, _.
  - bool_to_Prop. unfold insert_bonus. cbn [bt_amount bt_player]. unfold int4_ok.
    rewrite (proj2 (Z.leb_le _ _)), (proj2 (Z.ltb_lt _ _)), (proj2 (Z.eqb_neq _ _)) by lia. cbn [andb negb].
    destruct (existsb _ _) eqn:Ex.
    { apply existsb_exists in Ex as (r & Hr%list_elem_of_In & Hk). unfold same_index_key in Hk.
      cbn [bt_reference_id bt_created] in Hk. bool_to_Prop. exfalso. destruct_and?. by apply (Hfresh r). }
    assert (player_exists e p = true) as ->.
    { apply player_exists_iff. rewrite <-Hid. by apply list_elem_of_fmap_2. }
    cbn [negb result_bind fst]. destruct (Hup (set_ledger (db_ledger e ++ [MkBonus p (- tier_price tier) spend (Some (js "vip_subscription")) (Some id) None actor clock]) e) eq_refl) as [e1 He1].
    rewrite He1. cbn [result_bind]. by eexists _, _.
Qed.

(** What the processing of subscription [id] leaves alone. *)
Record only_touches (id : jstr) (db db' : vip_db) : Prop := {
  ot_ok : vip_ok db';
  ot_grow : subs_grow db db';
  ot_subs : ∀ s, sub_id s ≠ id → s ∈ vd_subs db → s ∈ vd_subs db';
  ot_rows : ∀ r, r ∈ db_ledger (vd_econ db') → r ∈ db_ledger (vd_econ db) ∨ bt_reference_id r = Some id;
  ot_players : ∀ q, is_Some (find_player (vd_econ db) q) → is_Some (find_player (vd_econ db') q);
}.

Lemma only_touches_refl id db : vip_ok db → only_touches id db db.
Proof. split; [done|by intros d|done|auto|done]. Qed.

Lemma only_touches_trans id db1 db2 db3 : only_touches id db1 db2 → only_touches id db2 db3 → only_touches id db1 db3.
Proof.
  intros [_ G1 S1 R1 P1] [K2 G2 S2 R2 P2]. split; [done|by intros d ?%G1%G2|auto| |auto].
  intros r [Hr|?]%R2; [by apply R1|by right].
Qed.

Lemma update_keeps_others (p : subscription → bool) f (l : list subscription) s :
  p s = false → s ∈ l → s ∈ (fun x => if p x then f x else x) <$> l.
Proof. intros Hp Hs. apply list_elem_of_fmap. exists s. by rewrite Hp. Qed.

Lemma charge_touches clock now d db db' res :
  vip_ok db → due_ok db d → chargeRenewal clock now d db = Ok (db', res) → only_touches (due_id d) db db'.
Proof.
  intros Hok Hd H. destruct (chargeRenewal_ok _ _ _ _ _ _ Hok Hd H) as [Hok' Hg]. revert H. unfold chargeRenewal.
  destruct (chargeRenewalTx _ _ _ _) as [[db1 r]|e] eqn:E; [|destruct e; try done; intros [= <- _]; by apply only_touches_refl].
  intros [= -> _]. unfold chargeRenewalTx in E.
  destruct (find_vip_role _ _) as [ro|]; [|injection E as -> _; by apply only_touches_refl].
  destruct (vr_panelAccess ro || _); [injection E as -> _; by apply only_touches_refl|].
  result_inv E. destruct a as [e' g]. cbn [fst snd] in E. unfold lift_db in E0.
  destruct (applyVipGrant _ _ _) as [[e1 r1]|] eqn:Eg; [|done]. apply Ok_inj in E0. injection E0 as -> ->.
  destruct g as [b rl x tx| |plan];
    [|apply Ok_inj in E; injection E as <- _; by apply only_touches_refl|destruct (plan_reason plan); apply Ok_inj in E; injection E as <- _; by apply only_touches_refl].
  cbv zeta in E. unfold update_subs in E. destruct (_ =? 0)%nat; [done|]. cbn [enqueueAdminsCfgSyncForAllServers] in E.
  apply Ok_inj in E. injection E as <- _. pose proof (grant_effect _ _ _ _ _ Eg) as (pl & _ & _ & Htx & Hl & _ & Hq).
  split; vip_cbn; [done|done| | |].
  - intros s Hs. apply update_keeps_others. apply not_true_iff_false. unfold still_due. intros Hb. bool_to_Prop. done.
  - intros y. rewrite Hl, elem_of_app. intros [?|Hr]; [by left|right]. rewrite Htx in Hr. destruct (_ =? 0); [by apply not_elem_of_nil in Hr|].
    by apply list_elem_of_singleton in Hr as ->.
  - intros q [y Hy]. rewrite Hq. destruct (bool_decide _); by eexists.
Qed.

Lemma expire_touches id now db : vip_ok db → only_touches id db (expireSubscription id now db).1.
Proof.
  intros Hok. destruct (expire_ok id now db Hok) as [Hok' Hg]. unfold expireSubscription in *. split; try done; cbn.
  - intros s Hs. apply (update_keeps_others (fun s => _ && is_active s)). apply andb_false_iff. left. by apply bool_decide_eq_false.
  - auto.
Qed.

Lemma audit_touches id sub player why db : vip_ok db → only_touches id db (add_audit (expire_entry sub player why) db).
Proof.
  intros Hok. split; [|by intros d|done|auto|done].
  apply (vip_ok_frame db); try done; [apply Hok| |apply same_billing_all].
  intros q. cbn. unfold renew_dues. rewrite omap_app. cbn. by rewrite app_nil_r.
Qed.

Lemma end_renewal_touches f now d why b db c : vip_ok db → only_touches (due_id d) db (end_renewal f now d why b db c).1.1.
Proof.
  intros Hok. unfold end_renewal. pose proof (expire_touches (due_id d) now db Hok) as H2.
  destruct (expireSubscription _ _ _) as [db2 changed]. cbn [fst] in H2.
  destruct (f_expire f); [|by apply only_touches_refl|done]. destruct (negb changed); [done|].
  pose proof (audit_touches (due_id d) (due_id d) (due_playerId d) why db2 (ot_ok _ _ _ H2)) as H3.
  destruct (f_audit f); [|done|]; by eapply only_touches_trans.
Qed.

Lemma renew_one_touches f now d db c :
  vip_ok db → due_ok db d → only_touches (due_id d) db (renew_one f now d db c).1.1.
Proof.
  intros Hok Hd. unfold renew_one. pose proof (only_touches_refl (due_id d) db Hok) as Hrefl.
  destruct (chargeRenewal _ _ _ _) as [[db1 res]|e] eqn:Ec; [|by destruct (f_charge f)].
  pose proof (charge_touches _ _ _ _ _ _ Hok Hd Ec) as H1. destruct (f_charge f); [|done|done].
  destruct res as [b x k|why b|]; [done| |done]. eapply only_touches_trans; [exact H1|].
  apply end_renewal_touches. by apply H1.
Qed.

(** What a served subscription looks like: renewed by one period or expired. *)
Definition served (s s' : subscription) : Prop :=
  sub_id s' = sub_id s ∧
  (sub_status s' = st_active ∧ sub_next s' = sub_next s + sub_days s * DAY_MS ∨ sub_status s' = st_expired ∧ sub_next s' = sub_next s).

Definition ended (now : Z) (s : subscription) : subscription :=
  MkSub (sub_id s) (sub_player s) (sub_tier s) st_expired (sub_days s) (sub_price s) (sub_next s) (Some now).

Lemma end_renewal_ends f now d why b db c s :
  s ∈ vd_subs db → is_active s = true → due_id d = sub_id s → f_expire f = fate_ok →
  ended now s ∈ vd_subs (end_renewal f now d why b db c).1.1.
Proof.
  intros Hs Ha D1 Fe. unfold end_renewal, expireSubscription, update_subs. rewrite Fe. cbv zeta.
  set (p := fun y => bool_decide (sub_id y = due_id d) && is_active y). fold (ended now). change (fun y => MkSub _ _ _ _ _ _ _ _) with (ended now).
  assert (p s = true) as Hp by (unfold p; by rewrite bool_decide_true).
  assert ((0 <? length (jfilter p (vd_subs db)))%nat = true) as ->.
  { apply Nat.ltb_lt. assert (s ∈ jfilter p (vd_subs db)) as Hin by by apply elem_of_jfilter.
    destruct (jfilter p (vd_subs db)); [by apply not_elem_of_nil in Hin|]. simpl. lia. }
  cbn [negb]. assert (ended now s ∈ (fun y => if p y then ended now y else y) <$> vd_subs db) as Hin.
  { apply list_elem_of_fmap. exists s. by rewrite Hp. }
  by destruct (f_audit f).
Qed.

Lemma renew_one_serves f now d db c s :
  vip_ok db → s ∈ vd_subs db → is_active s = true → due_id d = sub_id s → due_next d = sub_next s →
  due_playerId d = sub_player s → due_price d = sub_price s → due_days d = sub_days s →
  is_Some (find_player (vd_econ db) (sub_player s)) → sub_price s < 2 ^ 31 → fresh_clock (f_clock f) (sub_id s) (vd_econ db) →
  f_charge f = fate_ok → f_expire f = fate_ok →
  ∃ s', s' ∈ vd_subs (renew_one f now d db c).1.1 ∧ served s s'.
Proof.
  intros Hok Hs Ha D1 D2 D3 D4 D5 [pl Hpl] Hprice Hfresh Fc Fe. unfold renew_one, chargeRenewal, chargeRenewalTx. rewrite Fc.
  assert (∀ why b, ∃ s', s' ∈ vd_subs (end_renewal f now d why b db c).1.1 ∧ served s s') as Hgive.
  { intros why b. exists (ended now s). split; [by apply end_renewal_ends|]. split; [done|by right]. }
  destruct (find_vip_role _ _) as [ro|]; [|by apply Hgive]. destruct (vr_panelAccess ro || _); [by apply Hgive|].
  destruct (grant_total (f_clock f) (sub_player s) (MkTier (due_roleId d) (due_days d) (due_price d)) None (sub_id s) now (vd_econ db) pl)
    as (e' & g & Hg); [apply Hok|done|..|done|].
  { destruct (bi_terms _ _ (vo_billed _ Hok s Hs)). cbn. lia. }
  rewrite D1, D3, Hg. cbn [lift_db result_bind fst snd].
  destruct g as [b rl x tx| |plan].
  - cbv zeta. unfold update_subs. cbn [vd_subs set_econ].
    assert (still_due d s = true) as Hdue by (unfold still_due; rewrite bool_decide_true, Ha, D2, Z.eqb_refl by done; done).
    destruct (_ =? 0)%nat eqn:En.
    { apply Nat.eqb_eq in En. assert (s ∈ jfilter (still_due d) (vd_subs db)) as Hin by by apply elem_of_jfilter.
      destruct (jfilter _ _); [by apply not_elem_of_nil in Hin|done]. }
    cbn [enqueueAdminsCfgSyncForAllServers]. exists (with_next (nextRenewalAfter (due_next d) (due_days d)) s). split.
    + vip_cbn. apply list_elem_of_fmap. exists s. by rewrite Hdue.
    + split; [done|]. left. unfold is_active in Ha. bool_to_Prop. split; [done|]. cbn. unfold nextRenewalAfter. by rewrite D2, D5.
  - apply grant_effect in Hg as ->. change (set_econ _ _) with db. by apply Hgive.
  - destruct (plan_reason plan). by apply Hgive.
Qed.

Lemma renew_loop_keeps fs now l db c s :
  vip_ok db → (∀ d, d ∈ l → due_ok db d) → sub_id s ∉ due_id <$> l → s ∈ vd_subs db → s ∈ vd_subs (renew_loop fs now l db c).1.1.
Proof.
  revert fs db c. induction l as [|d l IH]; intros fs db c Hok Hd Hn Hs; cbn [renew_loop]; [done|].
  destruct fs as [|f fs]; [done|]. rewrite fmap_cons in Hn. apply not_elem_of_cons in Hn as [Hn1 Hn2].
  pose proof (renew_one_touches f now d db c Hok (Hd d ltac:(left))) as Ht. destruct (renew_one f now d db c) as [[db1 c1] sent].
  cbn [fst] in Ht. specialize (IH fs db1 c1). destruct (renew_loop fs now l db1 c1) as [[db2 c2] more]. cbn [fst] in *.
  apply IH; [apply Ht| |done|by apply (ot_subs _ _ _ Ht)]. intros d' Hd'. apply (ot_grow _ _ _ Ht), Hd. by right.
Qed.

Lemma renew_loop_serves fs now l db c i d f s :
  vip_ok db → (∀ d, d ∈ l → due_ok db d) → NoDup (due_id <$> l) → l !! i = Some d → fs !! i = Some f →
  s ∈ vd_subs db → is_active s = true → due_id d = sub_id s → due_next d = sub_next s →
  due_playerId d = sub_player s → due_price d = sub_price s → due_days d = sub_days s →
  is_Some (find_player (vd_econ db) (sub_player s)) → sub_price s < 2 ^ 31 → fresh_clock (f_clock f) (sub_id s) (vd_econ db) →
  f_charge f = fate_ok → f_expire f = fate_ok →
  ∃ s', s' ∈ vd_subs (renew_loop fs now l db c).1.1 ∧ served s s'.
Proof.
  intros Hok Hd Hnd Hi Hf Hs Ha D1 D2 D3 D4 D5 Hpl Hprice Hfresh Fc Fe.
  revert fs db c i Hok Hd Hnd Hi Hf Hs Hpl Hfresh. induction l as [|d0 l IH]; intros fs db c i Hok Hd Hnd Hi Hf Hs Hpl Hfresh; [done|].
  destruct fs as [|f0 fs]; [done|]. cbn [renew_loop]. rewrite fmap_cons in Hnd. apply NoDup_cons in Hnd as [Hn Hnd].
  pose proof (renew_one_touches f0 now d0 db c Hok (Hd d0 ltac:(left))) as Ht.
  destruct i as [|i]; cbn in Hi, Hf.
  - injection Hi as ->. injection Hf as ->.
    destruct (renew_one_serves f now d db c s) as (s1 & Hs1 & Hserved); try done.
    destruct (renew_one f now d db c) as [[db1 c1] sent]. cbn [fst] in *.
    pose proof (renew_loop_keeps fs now l db1 c1 s1 (ot_ok _ _ _ Ht)) as Hk.
    destruct (renew_loop fs now l db1 c1) as [[db2 c2] more]. cbn [fst] in *. exists s1. split; [|done]. apply Hk; [| |done].
    + intros d' Hd'. apply (ot_grow _ _ _ Ht), Hd. by right.
    + rewrite (proj1 Hserved), <-D1. done.
  - assert (due_id d0 ≠ sub_id s) as Hne.
    { rewrite <-D1. intros E. apply Hn. rewrite E. apply list_elem_of_fmap_2. by eapply list_elem_of_lookup_2. }
    destruct (renew_one f0 now d0 db c) as [[db1 c1] sent]. cbn [fst] in Ht.
    destruct (IH fs db1 c1 i) as (s1 & Hs1 & Hserved); try done.
    + apply Ht.
    + intros d' Hd'. apply (ot_grow _ _ _ Ht), Hd. by right.
    + apply (ot_subs _ _ _ Ht); congruence.
    + by apply (ot_players _ _ _ Ht).
    + intros y Hy Hid. destruct (ot_rows _ _ _ Ht y Hy) as [Hold|Hnew]; [by apply Hfresh|congruence].
    + destruct (renew_loop fs now l db1 c1) as [[db2 c2] more]. by exists s1.
Qed.

Lemma due_row_id db s d : due_row db s = Some d → due_id d = sub_id s.
Proof. unfold due_row. destruct (player_exists _ _); [|done]. destruct (find_tier _ _); [|done]. by intros [= <-]. Qed.

Lemma findDue_NoDup db now limit : NoDup (sub_id <$> vd_subs db) → NoDup (due_id <$> findDueSubscriptions db now limit).
Proof.
  intros Hnd. unfold findDueSubscriptions. set (l := jsort _ _).
  assert (NoDup (sub_id <$> l)) as Hl.
  { unfold l. rewrite (fmap_Permutation sub_id _ _ (jsort_perm _ _)).
    eapply sublist_NoDup; [exact Hnd|]. apply fmap_sublist, jfilter_sublist. }
  clearbody l. assert (NoDup (due_id <$> omap (due_row db) l)) as Ho.
  { induction l as [|s l IH]; [constructor|]. rewrite fmap_cons in Hl. apply NoDup_cons in Hl as [Hn Hl].
    assert (∀ id, id ∈ due_id <$> omap (due_row db) l → id ∈ sub_id <$> l) as Hin'.
    { intros id (d & -> & (t & Ht & Hd)%list_elem_of_omap)%list_elem_of_fmap. rewrite (due_row_id _ _ _ Hd). by apply list_elem_of_fmap_2. }
    cbn [omap list_omap]. destruct (due_row db s) as [d|] eqn:Ed; [|by apply IH]. rewrite fmap_cons. apply NoDup_cons. split; [|by apply IH].
    intros Hd%Hin'. apply Hn. by rewrite <-(due_row_id _ _ _ Ed). }
  rewrite <-(take_drop limit (omap _ _)), fmap_app in Ho. by apply NoDup_app in Ho as (? & _ & _).
Qed.

(** In a renewal pass every subscription it reads is renewed by exactly one
    period or ended, as soon as its own two calls answer, whatever happens to
    the calls made for the others before or after it. *)
Theorem renewal_pass_serves_all fs now limit db i d f s :
  vip_ok db → findDueSubscriptions db now limit !! i = Some d → fs !! i = Some f →
  s ∈ vd_subs db → sub_id s = due_id d → sub_price s < 2 ^ 31 → fresh_clock (f_clock f) (sub_id s) (vd_econ db) →
  f_charge f = fate_ok → f_expire f = fate_ok →
  ∃ s', s' ∈ vd_subs (runSubscriptionRenewalTick fs now limit db).1.1 ∧ served s s'.
Proof.
  intros Hok Hi Hf Hs Hid Hprice Hfresh Fc Fe. pose proof (list_elem_of_lookup_2 _ _ _ Hi) as Hin.
  unfold findDueSubscriptions in Hin. apply subseteq_take in Hin. apply list_elem_of_omap in Hin as (s0 & Hs0 & Hd).
  apply elem_of_jsort, elem_of_jfilter in Hs0 as [[Ha _]%andb_true_iff Hs0].
  assert (s = s0) as ->.
  { apply (NoDup_fmap_inj_elem sub_id (vd_subs db)); [apply Hok|done|done|]. rewrite Hid. by apply due_row_id in Hd. }
  unfold due_row in Hd. destruct (player_exists _ _) eqn:Ep; [|done]. destruct (find_tier _ _) as [t|]; [|done]. injection Hd as <-.
  eapply renew_loop_serves; try done.
  - intros d' Hd'. by eapply findDue_ok.
  - apply findDue_NoDup, Hok.
  - unfold player_exists in Ep. apply existsb_exists in Ep as (pl & Hpl & Hp). unfold find_player.
    destruct (List.find _ _) eqn:E; [by eexists|]. eapply List.find_none in E; [|exact Hpl]. congruence.
Qed.

Definition ex_fates : fates := MkFates fate_ok fate_ok fate_lost fate_failed 9.

Lemma renewal_pass_serves_all_witness :
  ∃ s', s' ∈ vd_subs (runSubscriptionRenewalTick [ex_fates] ex_due 500 (w_db (vip_run ex_setup empty_world))).1.1 ∧
    served (ex_subscription st_active ex_due None) s'.
Proof.
  apply (renewal_pass_serves_all _ _ _ _ 0 (MkDue (js "sub1") (js "p1") (js "gold") (js "vip") 100 30 ex_due) ex_fates).
  - exact (wo_db _ (vip_run_ok ex_setup _ empty_world_ok)).
  - vm_compute. reflexivity.
  - reflexivity.
  - apply (bool_decide_unpack _). vm_compute. exact I.
  - reflexivity.
  - reflexivity.
  - assert (Forall (fun r => bt_created r ≠ 9) (db_ledger (vd_econ (w_db (vip_run ex_setup empty_world))))) as H
      by (apply (bool_decide_unpack _); vm_compute; exact I).
    intros r Hr _. rewrite Forall_forall in H. exact (H r Hr).
  - reflexivity.
  - reflexivity.
Defined.

(** * The expiry pass *)

Lemma clear_loop_logins l db :
  vd_logins (clear_loop l db).1 = jfilter (fun x => negb (bool_decide (x.2 ∈ ex_playerId <$> (clear_loop l db).2))) (vd_logins db).
Proof.
  revert db. induction l as [|a l IH]; intros db; cbn [clear_loop].
  { cbn. rewrite jfilter_all; [done|]. intros x _. by rewrite bool_decide_false by apply not_elem_of_nil. }
  specialize (IH (clear_one a db).1). unfold clear_one in *. cbv zeta in *. destruct (existsb _ _); cbn [fst snd] in *.
  - destruct (clear_loop l _) as [db2 c]. cbn [fst snd] in *. rewrite IH. cbn [vd_logins set_logins add_audit set_econ]. rewrite fmap_cons.
    unfold jfilter. generalize (vd_logins db). intros xs. induction xs as [|x xs IHx]; [done|]. cbn [List.filter].
    destruct (decide (x.2 = ex_playerId a)) as [E|E].
    + rewrite (bool_decide_true (x.2 = _)), (bool_decide_true (x.2 ∈ _ :: _)) by (done || (rewrite E; left)). cbn [negb]. exact IHx.
    + rewrite (bool_decide_false (x.2 = _)) by done. cbn [negb List.filter].
      destruct (decide (x.2 ∈ ex_playerId <$> c)).
      * rewrite (bool_decide_true (_ ∈ _ <$> c)), (bool_decide_true (_ ∈ _ :: _)) by (done || by right). exact IHx.
      * rewrite (bool_decide_false (_ ∈ _ <$> c)), (bool_decide_false (_ ∈ _ :: _)) by (done || by intros [?|?]%elem_of_cons).
        cbn [negb]. f_equal. exact IHx.
  - destruct (clear_loop l _) as [db2 c]. exact IH.
Qed.

Lemma still_assigned_expired db now pl a : expired_row db now pl = Some a → still_assigned a pl = true.
Proof.
  unfold expired_row. destruct (pl_role pl) as [role|] eqn:Er; [|done]. destruct (pl_role_expires pl) as [e|] eqn:Ee; [|done].
  destruct (find_vip_role db role) as [r|]; [|done]. cbn [mbind option_bind]. destruct (_ && _); [|done]. intros [= <-].
  unfold still_assigned. cbn. by rewrite Er, Ee, !bool_decide_true.
Qed.

Lemma expired_row_id db now pl a : expired_row db now pl = Some a → ex_playerId a = pl_id pl.
Proof. intros H%still_assigned_expired. unfold still_assigned in H. bool_to_Prop. done. Qed.

(** An expiry pass clears the role of exactly the players whose role has run
    out, is not the Owner role, and is not about to be renewed by an active
    subscription to a tier of that role; it leaves the others as they are, and
    logs out exactly the players it cleared. *)
Theorem role_expiry_exact now limit db q pl :
  vip_ok db → (length (omap (expired_row db now) (db_players (vd_econ db))) ≤ limit)%nat → find_player (vd_econ db) q = Some pl →
  let '(db', done_, _) := runRoleExpiryTick now limit db in
  find_player (vd_econ db') q = Some (if bool_decide (is_Some (expired_row db now pl)) then cleared pl else pl) ∧
  vd_logins db' = jfilter (fun x => negb (bool_decide (x.2 ∈ ex_playerId <$> done_))) (vd_logins db).
Proof.
  intros Hok Hlim Hf. unfold runRoleExpiryTick, findExpiredAssignments. rewrite take_ge by by rewrite length_jsort.
  set (l := jsort _ _). pose proof (clear_loop_player l db q pl Hf) as Hp. pose proof (clear_loop_logins l db) as Hlog.
  assert (existsb (fun a => still_assigned a pl) l = bool_decide (is_Some (expired_row db now pl))) as Hex.
  { destruct (expired_row db now pl) as [a|] eqn:Ea.
    - rewrite bool_decide_true by by eexists. apply existsb_exists. exists a. split; [|by eapply still_assigned_expired].
      apply list_elem_of_In, elem_of_jsort, list_elem_of_omap. exists pl. split; [by apply find_player_Some in Hf as [? _]|done].
    - rewrite bool_decide_false by by intros [? ?]. apply not_true_iff_false. intros (a & Ha%list_elem_of_In & Hs)%existsb_exists.
      apply elem_of_jsort, list_elem_of_omap in Ha as (x & Hx & Ha). apply expired_row_id in Ha as Hid.
      assert (x = pl) as ->; [|congruence]. apply find_player_Some in Hf as [Hin _].
      apply (NoDup_fmap_inj_elem pl_id (db_players (vd_econ db))); [apply (eo_players _ (vo_econ _ Hok))|done|done|].
      unfold still_assigned in Hs. bool_to_Prop. destruct_and?. congruence. }
  rewrite Hex in Hp. unfold clearExpiredAssignments. destruct (clear_loop l db) as [db1 c]. cbn [fst snd] in *.
  destruct c as [|a c]; cbn [enqueueAdminsCfgSyncForAllServers]; by split.
Qed.

Definition ex_expired_db : vip_db := w_db (vip_run ex_expiring empty_world).

Lemma role_expiry_exact_witness :
  let '(db', done_, _) := runRoleExpiryTick (ex_t0 + 30 * DAY_MS) 500 ex_expired_db in
  find_player (vd_econ db') (js "p1") = Some (MkPlayer (js "p1") 100 None None) ∧ vd_logins db' = [].
Proof.
  pose proof (role_expiry_exact (ex_t0 + 30 * DAY_MS) 500 ex_expired_db (js "p1")
    (MkPlayer (js "p1") 100 (Some (js "vip")) (Some (ex_t0 + 30 * DAY_MS))) (wo_db _ (vip_run_ok ex_expiring _ empty_world_ok))) as H.
  assert ((length (omap (expired_row ex_expired_db (ex_t0 + 30 * DAY_MS)) (db_players (vd_econ ex_expired_db))) ≤ 500)%nat) as H1
    by (apply Nat.leb_le; vm_compute; reflexivity).
  assert (find_player (vd_econ ex_expired_db) (js "p1") = Some (MkPlayer (js "p1") 100 (Some (js "vip")) (Some (ex_t0 + 30 * DAY_MS)))) as H2
    by (vm_compute; reflexivity).
  specialize (H H1 H2). clear H1 H2.
  assert (is_Some (expired_row ex_expired_db (ex_t0 + 30 * DAY_MS) (MkPlayer (js "p1") 100 (Some (js "vip")) (Some (ex_t0 + 30 * DAY_MS))))) as Hs
    by (vm_compute; eexists; reflexivity).
  assert ((runRoleExpiryTick (ex_t0 + 30 * DAY_MS) 500 ex_expired_db).1.2 = [MkExpired (js "p1") (js "vip") (ex_t0 + 30 * DAY_MS)]) as Hc
    by (vm_compute; reflexivity).
  destruct (runRoleExpiryTick _ _ _) as [[db' c] n]. cbn [fst snd] in Hc. subst c. destruct H as [Hp Hl].
  split.
  - rewrite Hp, bool_decide_true by exact Hs. reflexivity.
  - rewrite Hl. vm_compute. reflexivity.
Defined.
