(* ===== verification/BridgeClient.v ===== *)
(** [packages/bridge-client/src/client.ts]: the client of the host bridge. Many
    calls share one connection; each is answered by the response that carries
    its id. The connection, the clock, the timers and the microtask queue are
    events of the environment: [Tick] runs the oldest continuation, so every
    interleaving of continuations with input is a run. Listeners and stream
    callbacks are taken not to call back into the client; log lines are left
    out. *)
From S2P Require Import Prelude Bytes JsString JsJson JsMap Collections BridgeFrame.

(** * Data *)

(** [types.ts], [errors.ts]. *)
Inductive BridgeErrorCode :=
| forbidden | invalid_args | not_found | runtime_error | timeout | internal | transport.

#[export] Instance BridgeErrorCode_eq_dec : EqDecision BridgeErrorCode.
Proof. solve_decision. Defined.

Definition code_text (c : BridgeErrorCode) : jstr :=
  match c with
  | forbidden => js "forbidden" | invalid_args => js "invalid_args" | not_found => js "not_found"
  | runtime_error => js "runtime_error" | timeout => js "timeout" | internal => js "internal"
  | transport => js "transport"
  end.

(** The codes the response schema accepts. *)
Definition BRIDGE_ERROR_CODES : list BridgeErrorCode :=
  [forbidden; invalid_args; runtime_error; timeout; internal; transport].

Record BridgeRequest := mkRequest { req_id : jstr; req_method : jstr; req_params : option json }.

Inductive stream_kind := stdout | stderr | event_stream.
Record BridgeStreamFrame := mkStreamFrame { frame_id : jstr; frame_stream : stream_kind; frame_data : option json }.

Record response_error := mkResponseError { code : BridgeErrorCode; message : jstr; detail : option json }.
Record BridgeResponse := mkResponse { resp_id : jstr; ok : bool; resp_result : option json; resp_error : option response_error }.

(** What a call can be rejected with: a [BridgeError], or an exception of
    another class that passes through. *)
Inductive call_error :=
| BridgeError (code : BridgeErrorCode) (message : jstr) (detail : option json)
| EncodeError (e : frame_error)
| ConnectError (message : jstr)
| NoSocketError.

Inductive Timeout := Finite (ms : Z) | Infinity.

(** One [call(method, params, opts)]; [who] names the promise it returns. A
    stream callback returns the message of the exception it throws, if any. *)
Record Call := mkCall {
  who : nat;
  method : jstr;
  params : option json;
  onStream : option (BridgeStreamFrame → option jstr);
  timeoutMs : option Timeout;
  retryOnTransport : bool;
}.

(** The stringifier and parser of JSON, the id generator, the validator's
    messages and the configured default timeout. *)
Class BridgeEnv := {
  JSON_stringify : BridgeRequest → jstr;
  JSON_parse : jstr → option json;
  uuidv7 : nat → jstr;
  issues_text : json → jstr;
  defaultTimeoutMs : Timeout;
}.

(** [live] is false once the promise of the attempt has been rejected by an
    exception that left the entry behind. *)
Record PendingCall := mkPendingCall {
  p_call : Call;
  p_attempt : nat;
  startedAt : Z;
  timer : bool;
  sock : option nat;
  live : bool;
}.

(** Continuations waiting in the microtask queue. *)
Inductive continuation :=
| Resume (c : Call) (attempt : nat)
| Settled (c : Call) (attempt : nat) (r : result call_error (option json)).

Record BridgeClient := mkClient {
  socket : option nat;
  connecting : option nat;
  closed : bool;
  frames : FrameAccumulator;
  pending : list (jstr * PendingCall);
  hasEmitted : bool;
  waiting : list (Call * nat);
  tasks : list continuation;
  attached : list nat;
  nextSock : nat;
  nextId : nat;
}.

Definition new_bridge_client : BridgeClient := mkClient None None false new_accumulator [] false [] [] [] 0 0.

Inductive disconnect_reason := socket_error | socket_closed | frame_decode_error | client_closed.

Inductive bridge_output :=
| Dialed (s : nat)
| Written (s : nat) (c : Call) (id : jstr) (frame : bytes)
| Ended (s : nat)
| Destroyed (s : nat)
| Paused (s : nat)
| Resumed (s : nat)
| Connected (rttMs : Z) (version hostname : jstr)
| Disconnected (reason : disconnect_reason)
| RpcError (m : jstr) (code : BridgeErrorCode) (message : jstr)
| Rtt (rttMs : Z) (m : jstr)
| Delivered (c : Call) (frame : BridgeStreamFrame)
| Resolved (c : Call) (v : option json)
| Rejected (c : Call) (e : call_error).

Definition set_socket (st : BridgeClient) s := mkClient s (connecting st) (closed st) (frames st) (pending st) (hasEmitted st) (waiting st) (tasks st) (attached st) (nextSock st) (nextId st).
Definition set_closed (st : BridgeClient) b := mkClient (socket st) (connecting st) b (frames st) (pending st) (hasEmitted st) (waiting st) (tasks st) (attached st) (nextSock st) (nextId st).
Definition set_frames (st : BridgeClient) f := mkClient (socket st) (connecting st) (closed st) f (pending st) (hasEmitted st) (waiting st) (tasks st) (attached st) (nextSock st) (nextId st).
Definition set_calls (st : BridgeClient) m := mkClient (socket st) (connecting st) (closed st) (frames st) m (hasEmitted st) (waiting st) (tasks st) (attached st) (nextSock st) (nextId st).
Definition set_emitted (st : BridgeClient) b := mkClient (socket st) (connecting st) (closed st) (frames st) (pending st) b (waiting st) (tasks st) (attached st) (nextSock st) (nextId st).
Definition set_waiting (st : BridgeClient) w := mkClient (socket st) (connecting st) (closed st) (frames st) (pending st) (hasEmitted st) w (tasks st) (attached st) (nextSock st) (nextId st).
Definition set_tasks (st : BridgeClient) t := mkClient (socket st) (connecting st) (closed st) (frames st) (pending st) (hasEmitted st) (waiting st) t (attached st) (nextSock st) (nextId st).

(** * The envelopes *)

Definition code_of (v : option json) : BridgeErrorCode :=
  match v with
  | Some (JStr s) => default internal (List.find (fun c => bool_decide (code_text c = s)) BRIDGE_ERROR_CODES)
  | _ => internal
  end.

Definition isStreamFrameCandidate (raw : json) : bool :=
  match raw with JObj fs => map_has fs (js "stream") | _ => false end.

Definition stream_kind_of (v : option json) : option stream_kind :=
  match v with
  | Some (JStr s) =>
      if bool_decide (s = js "stdout") then Some stdout
      else if bool_decide (s = js "stderr") then Some stderr
      else if bool_decide (s = js "event") then Some event_stream else None
  | _ => None
  end.

Definition streamFrameSchema (raw : json) : option BridgeStreamFrame :=
  match raw with
  | JObj fs =>
      match map_get fs (js "id"), stream_kind_of (map_get fs (js "stream")) with
      | Some (JStr id), Some k => Some (mkStreamFrame id k (map_get fs (js "data")))
      | _, _ => None
      end
  | _ => None
  end.

Definition error_schema (v : json) : option response_error :=
  match v with
  | JObj fs =>
      match map_get fs (js "message") with
      | Some (JStr m) => Some (mkResponseError (code_of (map_get fs (js "code"))) m (map_get fs (js "detail")))
      | _ => None
      end
  | _ => None
  end.

Definition responseSchema (raw : json) : option BridgeResponse :=
  match raw with
  | JObj fs =>
      match map_get fs (js "id"), map_get fs (js "ok") with
      | Some (JStr id), Some (JBool ok) =>
          match map_get fs (js "error") with
          | None => Some (mkResponse id ok (map_get fs (js "result")) None)
          | Some e =>
              match error_schema e with
              | Some e => Some (mkResponse id ok (map_get fs (js "result")) (Some e))
              | None => None
              end
          end
      | _, _ => None
      end
  | _ => None
  end.

(** The id a malformed envelope still carries. *)
Definition raw_id (raw : json) : option jstr :=
  match raw with
  | JObj fs => match map_get fs (js "id") with Some (JStr id) => Some id | _ => None end
  | _ => None
  end.

(** The version and host name of a ping result that proves the connection. *)
Definition ping_info (p : PendingCall) (result : option json) : option (jstr * jstr) :=
  if bool_decide (method (p_call p) = js "ping") then
    match result with
    | Some (JObj fs) =>
        match map_get fs (js "pong"), map_get fs (js "version") with
        | Some (JBool true), Some (JStr version) =>
            Some (version, match map_get fs (js "hostname") with Some (JStr h) => h | _ => [] end)
        | _, _ => None
        end
    | _ => None
    end
  else None.

Section Client.
Context `{BridgeEnv}.

(** * Settling *)

Definition settled_task (p : PendingCall) (r : result call_error (option json)) : list continuation :=
  if live p then [Settled (p_call p) (p_attempt p) r] else [].

Definition settle (st : BridgeClient) (p : PendingCall) (r : result call_error (option json)) : BridgeClient :=
  set_tasks st (tasks st ++ settled_task p r).

(** Rejecting the entries of [l], in order. *)
Definition reject_tasks (e : call_error) (l : list (jstr * PendingCall)) : list continuation :=
  concat ((fun kp : jstr * PendingCall => settled_task kp.2 (Throw e)) <$> l).

(** Dropping the entry [id] and rejecting its call. *)
Definition fail_call (st : BridgeClient) (id : jstr) (e : PendingCall → call_error) : BridgeClient :=
  match map_get (pending st) id with
  | None => st
  | Some p => settle (set_calls st (map_delete (pending st) id)) p (Throw (e p))
  end.

(** * Calls *)

Definition maxAttempts (c : Call) : nat :=
  if retryOnTransport c && bool_decide (is_Some (onStream c)) then 1
  else if retryOnTransport c then 2 else 1.

Definition effective_timeout (c : Call) : Timeout := default defaultTimeoutMs (timeoutMs c).
Definition is_finite (t : Timeout) : bool := match t with Finite _ => true | Infinity => false end.
Definition timeout_text (t : Timeout) : jstr := match t with Finite ms => int_str ms | Infinity => js "Infinity" end.

(** [callImpl] once connected. An exception of the executor rejects the promise
    and leaves the entry it has already set. *)
Definition send (now : Z) (st : BridgeClient) (c : Call) (attempt : nat) : BridgeClient * list bridge_output :=
  let id := uuidv7 (nextId st) in
  let entry live := mkPendingCall c attempt now (is_finite (effective_timeout c)) (socket st) live in
  let sent live t :=
    mkClient (socket st) (connecting st) (closed st) (frames st) (map_set (pending st) id (entry live)) (hasEmitted st)
      (waiting st) (tasks st ++ t) (attached st) (nextSock st) (S (nextId st)) in
  match socket st with
  | None => (sent false [Settled c attempt (Throw NoSocketError)], [])
  | Some s =>
      match encodeFrame JSON_stringify (mkRequest id (method c) (params c)) with
      | Throw e => (sent false [Settled c attempt (Throw (EncodeError e))], [])
      | Ok frame => (sent true [], [Written s c id frame])
      end
  end.

(** [connect()]: dials unless connected or already dialing. *)
Definition connect (st : BridgeClient) : BridgeClient * list bridge_output :=
  match socket st, connecting st with
  | None, None =>
      (mkClient None (Some (nextSock st)) (closed st) (frames st) (pending st) (hasEmitted st) (waiting st) (tasks st)
         (attached st) (S (nextSock st)) (nextId st), [Dialed (nextSock st)])
  | _, _ => (st, [])
  end.

(** [callImpl] up to its first suspension. *)
Definition callImpl (now : Z) (st : BridgeClient) (c : Call) (attempt : nat) : BridgeClient * list bridge_output :=
  if closed st
  then (set_tasks st (tasks st ++ [Settled c attempt (Throw (BridgeError transport (js "client is closed") None))]), [])
  else match socket st with
       | Some _ => send now st c attempt
       | None => let '(st, out) := connect st in (set_waiting st (waiting st ++ [(c, attempt)]), out)
       end.

Definition is_transport (e : call_error) : bool :=
  match e with BridgeError transport _ _ => true | _ => false end.

(** The end of an attempt in the loop of [call]. *)
Definition attempt_done (now : Z) (st : BridgeClient) (c : Call) (attempt : nat) (r : result call_error (option json))
    : BridgeClient * list bridge_output :=
  match r with
  | Ok v => (st, [Resolved c v])
  | Throw e =>
      if is_transport e && (attempt <? maxAttempts c)%nat && negb (closed st) then
        let '(st', out) := callImpl now (set_socket st None) c (S attempt) in
        (st', match socket st with Some s => Destroyed s :: out | None => out end)
      else (st, [Rejected c e])
  end.

Definition run_continuation (now : Z) (st : BridgeClient) : BridgeClient * list bridge_output :=
  match tasks st with
  | [] => (st, [])
  | Resume c attempt :: ts => send now (set_tasks st ts) c attempt
  | Settled c attempt r :: ts => attempt_done now (set_tasks st ts) c attempt r
  end.

(** The timer of the call with this id fires. *)
Definition on_timeout (st : BridgeClient) (id : jstr) : BridgeClient * list bridge_output :=
  match map_get (pending st) id with
  | Some p =>
      if timer p then
        (fail_call st id (fun p => BridgeError timeout (js "bridge call " ++ method (p_call p) ++ js " timed out after "
           ++ timeout_text (effective_timeout (p_call p)) ++ js "ms") None), [])
      else (st, [])
  | None => (st, [])
  end.

(** The callback of [sock.write] reports a failure. *)
Definition on_write_error (st : BridgeClient) (id m : jstr) : BridgeClient * list bridge_output :=
  (fail_call st id (fun _ => BridgeError transport m None), []).

Definition close (st : BridgeClient) : BridgeClient * list bridge_output :=
  (mkClient None (connecting st) true (frames st) [] false (waiting st)
     (tasks st ++ reject_tasks (BridgeError transport (js "client closed") None) (pending st))
     (attached st) (nextSock st) (nextId st),
   (match socket st with Some s => [Ended s] | None => [] end)
   ++ (if hasEmitted st then [Disconnected client_closed] else [])).

(** * The connection *)

(** [onConnect] and [attachHandlers]. *)
Definition on_connected (st : BridgeClient) (s : nat) : BridgeClient * list bridge_output :=
  if bool_decide (connecting st = Some s) then
    (mkClient (Some s) None (closed st) (acc_reset (frames st)) (pending st) (hasEmitted st) []
       (tasks st ++ ((fun ca : Call * nat => Resume ca.1 ca.2) <$> waiting st)) (s :: attached st) (nextSock st) (nextId st), [])
  else (st, []).

(** [onError] of a dial. *)
Definition on_connect_error (st : BridgeClient) (s : nat) (m : jstr) : BridgeClient * list bridge_output :=
  if bool_decide (connecting st = Some s) then
    (mkClient (socket st) None (closed st) (frames st) (pending st) (hasEmitted st) []
       (tasks st ++ ((fun ca : Call * nat => Settled ca.1 ca.2 (Throw (ConnectError m))) <$> waiting st))
       (attached st) (nextSock st) (nextId st), [])
  else (st, []).

Definition deliverStreamFrame (st : BridgeClient) (f : BridgeStreamFrame) : BridgeClient * list bridge_output :=
  match map_get (pending st) (frame_id f) with
  | Some p =>
      match onStream (p_call p) with
      | Some callback =>
          match callback f with
          | None => (st, [Delivered (p_call p) f])
          | Some m =>
              (fail_call st (frame_id f) (fun _ => BridgeError internal (js "stream callback failed: " ++ m) None),
               [Delivered (p_call p) f])
          end
      | None => (st, [])
      end
  | None => (st, [])
  end.

Definition rejectMalformed (st : BridgeClient) (raw : json) : BridgeClient :=
  match raw_id raw with
  | Some id =>
      fail_call st id (fun p => BridgeError internal
        (js "malformed bridge response to " ++ method (p_call p) ++ js ": " ++ issues_text raw) None)
  | None => st
  end.

(** The response branch of [handleFrame], for a response that is well formed. *)
Definition handleResponse (now : Z) (st : BridgeClient) (obj : BridgeResponse) : BridgeClient * list bridge_output :=
  match map_get (pending st) (resp_id obj) with
  | None => (st, [])
  | Some p =>
      let st := set_calls st (map_delete (pending st) (resp_id obj)) in
      let rttMs := now - startedAt p in
      if ok obj then
        let '(st, out) :=
          match if hasEmitted st then None else ping_info p (resp_result obj) with
          | Some (version, hostname) => (set_emitted st true, [Connected rttMs version hostname])
          | None => (st, [])
          end in
        (settle st p (Ok (resp_result obj)), out ++ [Rtt rttMs (method (p_call p))])
      else
        let err := default (mkResponseError internal (js "no error object") None) (resp_error obj) in
        (settle st p (Throw (BridgeError (code err) (message err) (detail err))),
         [RpcError (method (p_call p)) (code err) (message err)])
  end.

Definition handleFrame (now : Z) (st : BridgeClient) (payload : bytes) : BridgeClient * list bridge_output :=
  match JSON_parse (utf8_decode payload) with
  | None => (st, [])
  | Some raw =>
      if isStreamFrameCandidate raw then
        match streamFrameSchema raw with
        | Some f => deliverStreamFrame st f
        | None => (st, [])
        end
      else
        match responseSchema raw with
        | Some obj => handleResponse now st obj
        | None => (rejectMalformed st raw, [])
        end
  end.

Fixpoint handleFrames (now : Z) (st : BridgeClient) (fs : list bytes) : BridgeClient * list bridge_output :=
  match fs with
  | [] => (st, [])
  | f :: fs =>
      let '(st, out) := handleFrame now st f in
      let '(st, out') := handleFrames now st fs in (st, out ++ out')
  end.

(** [FrameTooLargeError.message]. *)
Definition frame_error_text (e : frame_error) : jstr :=
  match e with
  | FrameTooLargeError size => js "bridge frame exceeds max size: " ++ int_str size ++ js " > " ++ int_str BRIDGE_MAX_FRAME_BYTES
  end.

(** The ['data'] event. *)
Definition on_chunk (now : Z) (st : BridgeClient) (s : nat) (chunk : bytes) : BridgeClient * list bridge_output :=
  if bool_decide (socket st = Some s) then
    match acc_push (frames st) chunk with
    | (acc, Ok fs) => handleFrames now (set_frames st acc) fs
    | (acc, Throw e) =>
        (mkClient None (connecting st) (closed st) (acc_reset acc) [] false (waiting st)
           (tasks st ++ reject_tasks (BridgeError transport (frame_error_text e) None) (pending st))
           (attached st) (nextSock st) (nextId st),
         Destroyed s :: (if hasEmitted st then [Disconnected frame_decode_error] else []))
    end
  else (st, []).

Definition on_socket (s : nat) (kp : jstr * PendingCall) : bool := bool_decide (sock kp.2 = Some s).

(** The ['close'] event. *)
Definition on_close (st : BridgeClient) (s : nat) : BridgeClient * list bridge_output :=
  if bool_decide (s ∈ attached st) then
    let current := bool_decide (socket st = Some s) in
    (mkClient (if current then None else socket st) (connecting st) (closed st)
       (if current then acc_reset (frames st) else frames st)
       (jfilter (fun kp => negb (on_socket s kp)) (pending st)) false (waiting st)
       (tasks st ++ reject_tasks (BridgeError transport (js "socket closed") None) (jfilter (on_socket s) (pending st)))
       (attached st) (nextSock st) (nextId st),
     if hasEmitted st && negb (closed st) then [Disconnected socket_closed] else [])
  else (st, []).

(** The ['error'] event; the socket's ['close'] follows. *)
Definition on_error (st : BridgeClient) (s : nat) : BridgeClient * list bridge_output :=
  if bool_decide (s ∈ attached st) then
    (set_emitted st false, if hasEmitted st && negb (closed st) then [Disconnected socket_error] else [])
  else (st, []).

Definition pause_socket (st : BridgeClient) : BridgeClient * list bridge_output :=
  (st, match socket st with Some s => [Paused s] | None => [] end).
Definition resume_socket (st : BridgeClient) : BridgeClient * list bridge_output :=
  (st, match socket st with Some s => [Resumed s] | None => [] end).

(** * Runs *)

Inductive client_event :=
| Invoke (c : Call)
| Tick
| Dial
| ConnectOk (s : nat)
| ConnectFailed (s : nat) (m : jstr)
| Data (s : nat) (chunk : bytes)
| SocketClose (s : nat)
| SocketError (s : nat)
| WriteError (id m : jstr)
| TimerFired (id : jstr)
| Pause
| ResumeReading
| Close.

Definition bridge_step (now : Z) (st : BridgeClient) (e : client_event) : BridgeClient * list bridge_output :=
  match e with
  | Invoke c => callImpl now st c 1
  | Tick => run_continuation now st
  | Dial => connect st
  | ConnectOk s => on_connected st s
  | ConnectFailed s m => on_connect_error st s m
  | Data s chunk => on_chunk now st s chunk
  | SocketClose s => on_close st s
  | SocketError s => on_error st s
  | WriteError id m => on_write_error st id m
  | TimerFired id => on_timeout st id
  | Pause => pause_socket st
  | ResumeReading => resume_socket st
  | Close => close st
  end.

(** A run: each event with the time at which it is handled. *)
Fixpoint bridge_run (st : BridgeClient) (es : list (Z * client_event)) : BridgeClient * list bridge_output :=
  match es with
  | [] => (st, [])
  | (now, e) :: es =>
      let '(st, out) := bridge_step now st e in
      let '(st, out') := bridge_run st es in (st, out ++ out')
  end.

(** * Ids *)

(** The generator never repeats an id; the table is keyed by issued ids. *)
Definition ids_ok (st : BridgeClient) : Prop :=
  map_ok (pending st) ∧ ∀ k, k ∈ map_keys (pending st) → ∃ i, (i < nextId st)%nat ∧ k = uuidv7 i.

Lemma ids_ok_sub st st' :
  pending st' `sublist_of` pending st → (nextId st ≤ nextId st')%nat → ids_ok st → ids_ok st'.
Proof.
  intros Hs Hn [Hm Hk]. assert (map_keys (pending st') `sublist_of` map_keys (pending st)) as Hs' by by apply fmap_sublist.
  split; [by eapply sublist_NoDup|]. intros k Hin. destruct (Hk k) as (i & Hi & ->); [|exists i; split; [lia|done]].
  eapply elem_of_submseteq; [exact Hin|]. by apply sublist_submseteq.
Qed.

Lemma ids_ok_new : ids_ok new_bridge_client.
Proof. split; [constructor|]. by intros k ?%not_elem_of_nil. Qed.

Context `{!Inj eq eq uuidv7}.

Lemma fresh_id st : ids_ok st → uuidv7 (nextId st) ∉ map_keys (pending st).
Proof. intros [_ Hk] Hin. destruct (Hk _ Hin) as (i & Hi & E). apply (inj uuidv7) in E. lia. Qed.

(** What [send] appends to the table. *)
Lemma send_pending now st c n : ids_ok st →
  ∃ b, pending (send now st c n).1 =
    pending st ++ [(uuidv7 (nextId st), mkPendingCall c n now (is_finite (effective_timeout c)) (socket st) b)].
Proof.
  intros Hi. unfold send. destruct (socket st) as [s|]; [destruct (encodeFrame _ _)|];
    cbn [fst pending]; rewrite (map_set_new _ _ _ (fresh_id st Hi)); eauto.
Qed.

Lemma send_ids now st c n : ids_ok st → ids_ok (send now st c n).1.
Proof.
  intros Hi. destruct (send_pending now st c n Hi) as [b Hp]. assert (nextId (send now st c n).1 = S (nextId st)) as Hn.
  { unfold send. destruct (socket st); [by destruct (encodeFrame _ _)|done]. }
  pose proof (fresh_id st Hi). destruct Hi as [Hm Hk]. unfold ids_ok, map_ok, map_keys in *. rewrite Hp, Hn, fmap_app. split.
  - apply NoDup_app. split; [done|]. split; [set_solver|apply NoDup_singleton].
  - intros k [Hin|Hin%list_elem_of_singleton]%elem_of_app; [|exists (nextId st); split; [lia|exact Hin]].
    destruct (Hk k Hin) as (i & ? & ->). exists i. split; [lia|done].
Qed.

Lemma connect_pending st : pending (connect st).1 = pending st ∧ nextId (connect st).1 = nextId st.
Proof. unfold connect. destruct (socket st), (connecting st); done. Qed.

Lemma ids_ok_ext st st' : pending st' = pending st → nextId st' = nextId st → ids_ok st → ids_ok st'.
Proof. intros E1 E2 Hi. apply (ids_ok_sub st); [by rewrite E1|lia|done]. Qed.

Lemma callImpl_ids now st c n : ids_ok st → ids_ok (callImpl now st c n).1.
Proof.
  intros Hi. unfold callImpl. destruct (closed st); [exact Hi|]. destruct (socket st); [by apply send_ids|].
  pose proof (connect_pending st). destruct (connect st) as [st1 out]. destruct H0. by apply (ids_ok_ext st).
Qed.

Lemma fail_call_ids st id e : ids_ok st → ids_ok (fail_call st id e).
Proof.
  intros Hi. unfold fail_call. destruct (map_get (pending st) id); [|done].
  apply (ids_ok_sub st); [apply map_delete_sublist|done|done].
Qed.

Lemma handleFrame_ids now st f : ids_ok st → ids_ok (handleFrame now st f).1.
Proof.
  intros Hi. unfold handleFrame. destruct (JSON_parse _) as [raw|]; [|done].
  destruct (isStreamFrameCandidate raw).
  { destruct (streamFrameSchema raw) as [fr|]; [|done]. unfold deliverStreamFrame.
    destruct (map_get _ _) as [p|]; [|done]. destruct (onStream _) as [cb|]; [|done].
    destruct (cb fr); [by apply fail_call_ids|done]. }
  destruct (responseSchema raw) as [obj|].
  - unfold handleResponse. destruct (map_get _ _) as [p|]; [|done].
    assert (ids_ok (set_calls st (map_delete (pending st) (resp_id obj)))) as Hd.
    { apply (ids_ok_sub st); [apply map_delete_sublist|done|done]. }
    destruct (ok obj); [|exact Hd]. destruct (if hasEmitted _ then _ else _) as [[]|]; exact Hd.
  - cbn [fst]. unfold rejectMalformed. destruct (raw_id raw); [by apply fail_call_ids|done].
Qed.

Lemma handleFrames_ids now st fs : ids_ok st → ids_ok (handleFrames now st fs).1.
Proof.
  revert st. induction fs as [|f fs IH]; intros st Hi; cbn [handleFrames]; [done|].
  pose proof (handleFrame_ids now st f Hi) as H1. destruct (handleFrame now st f) as [st1 o1].
  pose proof (IH st1 H1) as H2. by destruct (handleFrames now st1 fs).
Qed.

Lemma client_step_ids now st e : ids_ok st → ids_ok (bridge_step now st e).1.
Proof.
  intros Hi. destruct e as [c| | |s|s m|s chunk|s|s|id m|id| | |]; cbn [bridge_step].
  - by apply callImpl_ids.
  - unfold run_continuation. destruct (tasks st) as [|[c n|c n [v|err]] ts]; [done|by apply send_ids|exact Hi|]. cbn [attempt_done].
    destruct (_ && _); [|exact Hi].
    pose proof (callImpl_ids now (set_socket (set_tasks st ts) None) c (S n) Hi). by destruct (callImpl _ _ _ _).
  - destruct (connect_pending st). by apply (ids_ok_ext st).
  - unfold on_connected. destruct (bool_decide _); exact Hi.
  - unfold on_connect_error. destruct (bool_decide _); exact Hi.
  - unfold on_chunk. destruct (bool_decide _); [|exact Hi]. destruct (acc_push _ _) as [acc [fs|err]]; [by apply handleFrames_ids|].
    apply (ids_ok_sub st); [apply sublist_nil_l|done|done].
  - unfold on_close. destruct (bool_decide _); [|exact Hi]. apply (ids_ok_sub st); [apply jfilter_sublist|done|done].
  - unfold on_error. destruct (bool_decide _); exact Hi.
  - by apply fail_call_ids.
  - unfold on_timeout. destruct (map_get _ _) as [p|]; [|done]. destruct (timer p); [by apply fail_call_ids|done].
  - done.
  - done.
  - apply (ids_ok_sub st); [apply sublist_nil_l|done|done].
Qed.

Lemma client_run_ids es st : ids_ok st → ids_ok (bridge_run st es).1.
Proof.
  revert st. induction es as [|[now e] es IH]; intros st Hi; cbn [bridge_run]; [done|].
  pose proof (client_step_ids now st e Hi) as Hi1. destruct (bridge_step now st e) as [st1 o1].
  specialize (IH st1 Hi1). by destruct (bridge_run st1 es).
Qed.

(** * Accounting

    A weight for every state a call can be in; [idle] before its request is
    written, [sent] after. No step creates weight. *)
Section Weight.
Context (idle sent : Call → nat → Z) (w_out : bridge_output → Z).

Definition w_pending (kp : jstr * PendingCall) : Z :=
  if live kp.2 then sent (p_call kp.2) (p_attempt kp.2) else 0.
Definition w_waiting (ca : Call * nat) : Z := idle ca.1 ca.2.
Definition w_task (t : continuation) : Z := match t with Resume c n => idle c n | Settled c n _ => sent c n end.
Definition weight (st : BridgeClient) : Z :=
  zsum w_pending (pending st) + zsum w_waiting (waiting st) + zsum w_task (tasks st).
Definition w_event (e : client_event) : Z := match e with Invoke c => idle c 1%nat | _ => 0 end.

Context (w_written : ∀ s c n id f, w_out (Written s c id f) + sent c n ≤ idle c n).
Context (w_idle : ∀ c n, sent c n ≤ idle c n).
Context (w_retry : ∀ c n, (n < maxAttempts c)%nat → idle c (S n) ≤ sent c n).
Context (w_resolved : ∀ c n v, w_out (Resolved c v) ≤ sent c n).
Context (w_rejected : ∀ c n e, w_out (Rejected c e) ≤ sent c n).
Context (w_other : ∀ o, match o with Written _ _ _ _ | Resolved _ _ | Rejected _ _ => True | _ => w_out o = 0 end).

Ltac w_proj := cbn [fst snd w_pending w_waiting w_task live p_call p_attempt
  pending waiting tasks set_tasks set_calls set_frames set_socket set_emitted set_waiting].
Ltac w_simpl := w_proj; rewrite ?zsum_app, ?zsum_cons, ?zsum_nil; w_proj;
  repeat match goal with |- context [w_waiting (?c, ?n)] => change (w_waiting (c, n)) with (idle c n) end.

Ltac w_zero := repeat match goal with |- context [w_out ?o] => rewrite (w_other o : w_out o = 0) end.

Lemma settled_task_weight p r : zsum w_task (settled_task p r) = if live p then sent (p_call p) (p_attempt p) else 0.
Proof. unfold settled_task. destruct (live p); w_simpl; lia. Qed.

Lemma reject_tasks_weight e l : zsum w_task (reject_tasks e l) = zsum w_pending l.
Proof.
  unfold reject_tasks. rewrite zsum_concat, zsum_fmap. apply zsum_ext. intros [k p] _. apply settled_task_weight.
Qed.

Lemma delete_weight m id p : map_get m id = Some p →
  zsum w_pending m = (if live p then sent (p_call p) (p_attempt p) else 0) + zsum w_pending (map_delete m id).
Proof.
  induction m as [|[k v] m IH]; cbn [map_get map_delete]; [done|]. destruct (bool_decide (k = id)).
  - intros [= ->]. done.
  - intros Hg. rewrite !zsum_cons. specialize (IH Hg). lia.
Qed.

Lemma fail_call_weight st id e : weight (fail_call st id e) = weight st.
Proof.
  unfold fail_call. destruct (map_get (pending st) id) as [p|] eqn:E; [|done].
  unfold weight, settle. w_simpl. rewrite settled_task_weight, (delete_weight _ _ _ E). lia.
Qed.

Lemma send_weight now st c n : ids_ok st →
  zsum w_out (send now st c n).2 + weight (send now st c n).1 ≤ weight st + idle c n.
Proof.
  intros Hi. pose proof (fresh_id st Hi) as Hf. pose proof (w_idle c n). unfold send, weight.
  destruct (socket st) as [s|]; [destruct (encodeFrame _ _) as [fr|err]|]; cbn [fst snd pending waiting tasks];
    rewrite (map_set_new _ _ _ Hf); w_simpl; [pose proof (w_written s c n (uuidv7 (nextId st)) fr)| |]; lia.
Qed.

Lemma connect_weight st : weight (connect st).1 = weight st ∧ zsum w_out (connect st).2 = 0.
Proof.
  unfold connect. destruct (socket st), (connecting st); [done..|]. split; [done|].
  w_simpl. w_zero. lia.
Qed.

Lemma callImpl_weight now st c n : ids_ok st →
  zsum w_out (callImpl now st c n).2 + weight (callImpl now st c n).1 ≤ weight st + idle c n.
Proof.
  intros Hi. pose proof (w_idle c n). unfold callImpl. destruct (closed st); [unfold weight; w_simpl; lia|].
  destruct (socket st); [by apply send_weight|].
  destruct (connect_weight st) as [Hw Ho]. destruct (connect st) as [st1 out]. cbn [fst snd] in *. unfold weight in *. w_simpl. lia.
Qed.

Lemma callback_weight st f :
  weight (deliverStreamFrame st f).1 = weight st ∧ zsum w_out (deliverStreamFrame st f).2 = 0.
Proof.
  unfold deliverStreamFrame. destruct (map_get _ _) as [p|]; [|done]. destruct (onStream _) as [cb|]; [|done].
  destruct (cb f); (split; [try apply fail_call_weight; done|]); w_simpl; w_zero; lia.
Qed.

Lemma handleResponse_weight now st obj :
  weight (handleResponse now st obj).1 = weight st ∧ zsum w_out (handleResponse now st obj).2 = 0.
Proof.
  unfold handleResponse. destruct (map_get (pending st) (resp_id obj)) as [p|] eqn:E; [|done].
  unfold weight, settle. rewrite (delete_weight _ _ _ E).
  destruct (ok obj); [destruct (if hasEmitted _ then _ else _) as [[]|]|]; w_simpl; rewrite settled_task_weight; w_zero; lia.
Qed.

Lemma handleFrame_weight now st f :
  weight (handleFrame now st f).1 = weight st ∧ zsum w_out (handleFrame now st f).2 = 0.
Proof.
  unfold handleFrame. destruct (JSON_parse _) as [raw|]; [|done]. destruct (isStreamFrameCandidate raw).
  { destruct (streamFrameSchema raw); [apply callback_weight|done]. }
  destruct (responseSchema raw); [apply handleResponse_weight|]. split; [|done]. cbn [fst]. unfold rejectMalformed.
  destruct (raw_id raw); [apply fail_call_weight|done].
Qed.

Lemma handleFrames_weight now st fs :
  weight (handleFrames now st fs).1 = weight st ∧ zsum w_out (handleFrames now st fs).2 = 0.
Proof.
  revert st. induction fs as [|f fs IH]; intros st; cbn [handleFrames]; [done|].
  destruct (handleFrame_weight now st f) as [H1 O1]. destruct (handleFrame now st f) as [st1 o1].
  destruct (IH st1) as [H2 O2]. destruct (handleFrames now st1 fs) as [st2 o2]. cbn [fst snd] in *. w_simpl. lia.
Qed.

Lemma waiting_weight l (t : Call * nat → continuation) :
  (∀ ca, w_task (t ca) ≤ w_waiting ca) → zsum w_task (t <$> l) ≤ zsum w_waiting l.
Proof. intros Ht. induction l as [|ca l IH]; [done|]. rewrite fmap_cons. w_simpl. pose proof (Ht ca). lia. Qed.

Lemma jfilter_weight (p : jstr * PendingCall → bool) m :
  zsum w_pending (jfilter p m) + zsum w_pending (jfilter (fun x => negb (p x)) m) = zsum w_pending m.
Proof. rewrite !zsum_jfilter, <-zsum_add. apply zsum_ext. intros x _. destruct (p x); cbn [negb]; lia. Qed.

Lemma tick_weight now st : ids_ok st →
  zsum w_out (run_continuation now st).2 + weight (run_continuation now st).1 ≤ weight st.
Proof.
  intros Hi. unfold run_continuation. destruct (tasks st) as [|[c n|c n r] ts] eqn:E; [w_simpl; lia| |].
  - pose proof (send_weight now (set_tasks st ts) c n Hi) as Hs. etrans; [exact Hs|]. unfold weight. w_simpl. rewrite E. w_simpl. lia.
  - assert (weight st = sent c n + weight (set_tasks st ts)) as -> by (unfold weight; w_simpl; rewrite E; w_simpl; lia).
    clear E. set (st0 := set_tasks st ts) in *. assert (ids_ok st0) as Hi0 by exact Hi. clearbody st0.
    destruct r as [v|e]; cbn [attempt_done]; [w_simpl; pose proof (w_resolved c n v); lia|].
    destruct (is_transport e && (n <? maxAttempts c)%nat && negb (closed st0)) eqn:Hr; [|w_simpl; pose proof (w_rejected c n e); lia].
    apply andb_true_iff in Hr as [[_ Hn%Nat.ltb_lt]%andb_true_iff _]. pose proof (w_retry c n Hn) as Hw.
    pose proof (callImpl_weight now (set_socket st0 None) c (S n) Hi0) as Hc.
    destruct (callImpl now (set_socket st0 None) c (S n)) as [st1 out]. cbn [fst snd] in *.
    change (weight (set_socket st0 None)) with (weight st0) in Hc. destruct (socket st0); w_simpl; w_zero; lia.
Qed.

Lemma client_step_weight now st e : ids_ok st →
  zsum w_out (bridge_step now st e).2 + weight (bridge_step now st e).1 ≤ weight st + w_event e.
Proof.
  intros Hi. destruct e as [c| | |s|s m|s chunk|s|s|id m|id| | |]; cbn [bridge_step w_event]; rewrite ?Z.add_0_r.
  - by apply callImpl_weight.
  - by apply tick_weight.
  - destruct (connect_weight st). lia.
  - unfold on_connected. destruct (bool_decide _); [|done]. unfold weight. w_simpl.
    pose proof (waiting_weight (waiting st) (fun ca => Resume ca.1 ca.2)) as Hw. cbn beta in Hw.
    specialize (Hw ltac:(intros ca; unfold w_waiting; w_simpl; lia)). lia.
  - unfold on_connect_error. destruct (bool_decide _); [|done]. unfold weight. w_simpl.
    pose proof (waiting_weight (waiting st) (fun ca => Settled ca.1 ca.2 (Throw (ConnectError m)))) as Hw. cbn beta in Hw.
    specialize (Hw ltac:(intros ca; unfold w_waiting; w_simpl; apply w_idle)). lia.
  - unfold on_chunk. destruct (bool_decide _); [|done]. destruct (acc_push _ _) as [acc [fs|err]].
    + destruct (handleFrames_weight now (set_frames st acc) fs) as [Hw Ho]. rewrite Hw, Ho. done.
    + unfold weight. w_simpl. rewrite reject_tasks_weight. destruct (hasEmitted st); w_simpl; w_zero; lia.
  - unfold on_close. destruct (bool_decide _); [|done]. unfold weight. w_simpl. rewrite reject_tasks_weight.
    pose proof (jfilter_weight (on_socket s) (pending st)). destruct (hasEmitted st && negb (closed st)); w_simpl; w_zero; lia.
  - unfold on_error. destruct (bool_decide _); [|done].
    destruct (_ && _); w_simpl; w_zero; change (weight (set_emitted st false)) with (weight st); lia.
  - unfold on_write_error. w_simpl. rewrite fail_call_weight. lia.
  - unfold on_timeout. destruct (map_get _ _) as [p|]; [|done]. destruct (timer p); [|done]. w_simpl. rewrite fail_call_weight. lia.
  - unfold pause_socket. destruct (socket st); w_simpl; w_zero; lia.
  - unfold resume_socket. destruct (socket st); w_simpl; w_zero; lia.
  - unfold close, weight. w_simpl. rewrite reject_tasks_weight.
    destruct (socket st), (hasEmitted st); w_simpl; w_zero; lia.
Qed.

Lemma client_run_weight es st : ids_ok st →
  zsum w_out (bridge_run st es).2 + weight (bridge_run st es).1 ≤ weight st + zsum (fun te => w_event te.2) es.
Proof.
  revert st. induction es as [|[now e] es IH]; intros st Hi; cbn [bridge_run]; [w_simpl; lia|].
  pose proof (client_step_weight now st e Hi) as H1. pose proof (client_step_ids now st e Hi) as Hi1.
  destruct (bridge_step now st e) as [st1 o1]. specialize (IH st1 Hi1). destruct (bridge_run st1 es) as [st2 o2].
  cbn [fst snd] in *. w_simpl. lia.
Qed.
End Weight.

(** * Every call settled_by once *)

Definition settled_by (o : bridge_output) : option nat :=
  match o with Resolved c _ | Rejected c _ => Some (who c) | _ => None end.
Definition settled_calls (outs : list bridge_output) : list nat := omap settled_by outs.
Definition invoked (e : client_event) : list Call := match e with Invoke c => [c] | _ => [] end.
Definition invoked_of (es : list (Z * client_event)) : list Call := concat ((fun te : Z * client_event => invoked te.2) <$> es).

Definition task_call (t : continuation) : Call := match t with Resume c _ | Settled c _ _ => c end.

(** The calls whose promise is still unsettled. *)
Definition unsettled (st : BridgeClient) : list Call :=
  ((fun kp : jstr * PendingCall => p_call kp.2) <$> jfilter (fun kp => live kp.2) (pending st))
  ++ (fst <$> waiting st) ++ (task_call <$> tasks st).

Definition is_who (w : nat) (c : Call) : Z := if bool_decide (who c = w) then 1 else 0.

Lemma in_flight_weight e w st :
  weight (fun c _ => e * is_who w c) (fun c _ => e * is_who w c) st = e * zsum (is_who w) (unsettled st).
Proof.
  unfold weight, unsettled. rewrite !zsum_app, !zsum_fmap, zsum_jfilter, <-!Z.add_assoc, !Z.mul_add_distr_l, <-!zsum_scale.
  f_equal; [|f_equal].
  - apply zsum_ext. intros kp _. unfold w_pending. destruct (live kp.2); lia.
  - apply zsum_ext. intros [c n|c n r] _; done.
Qed.

Lemma settled_weight e w outs :
  zsum (fun o => match o with Resolved c _ | Rejected c _ => e * is_who w c | _ => 0 end) outs =
  e * zsum (fun x => if bool_decide (x = w) then 1 else 0) (settled_calls outs).
Proof.
  unfold settled_calls. induction outs as [|o outs IH]; [cbn; lia|]. rewrite zsum_cons, IH.
  destruct o; cbn [omap list_omap settled_by]; rewrite ?zsum_cons; unfold is_who; lia.
Qed.

Lemma invoked_weight e w es :
  zsum (fun te : Z * client_event => w_event (fun c _ => e * is_who w c) te.2) es = e * zsum (is_who w) (invoked_of es).
Proof.
  unfold invoked_of. rewrite zsum_concat, zsum_fmap, <-zsum_scale. apply zsum_ext. intros [now ev] _.
  destruct ev; cbn [snd w_event invoked]; rewrite ?zsum_cons, ?zsum_nil; lia.
Qed.

Lemma zsum_count (l : list nat) w :
  zsum (fun x => if bool_decide (x = w) then 1 else 0) l = Z.of_nat (count_occ Nat.eq_dec l w).
Proof.
  induction l as [|x l IH]; [done|]. rewrite zsum_cons, IH. cbn [count_occ].
  destruct (Nat.eq_dec x w); case_bool_decide; [lia|done|done|lia].
Qed.

Lemma run_conserves es st st' outs : ids_ok st → bridge_run st es = (st', outs) →
  (who <$> invoked_of es ++ unsettled st) ≡ₚ settled_calls outs ++ (who <$> unsettled st').
Proof.
  intros Hi Hr. apply (Permutation_count_occ Nat.eq_dec). intros w. apply Nat2Z.inj.
  rewrite <-!zsum_count, zsum_fmap, !zsum_app, zsum_fmap. fold (is_who w).
  assert (∀ e, e = 1 ∨ e = -1 →
    e * zsum (fun x => if bool_decide (x = w) then 1 else 0) (settled_calls outs) + e * zsum (is_who w) (unsettled st')
    ≤ e * zsum (is_who w) (unsettled st) + e * zsum (is_who w) (invoked_of es)) as Hw.
  { intros e He. rewrite <-!in_flight_weight, <-settled_weight, <-(invoked_weight e w).
    pose proof (client_run_weight (fun c _ => e * is_who w c) (fun c _ => e * is_who w c)
      (fun o => match o with Resolved c _ | Rejected c _ => e * is_who w c | _ => 0 end)) as Hc.
    cbv beta iota in Hc. specialize (Hc ltac:(intros; lia) ltac:(intros; lia) ltac:(intros; lia) ltac:(intros; lia) ltac:(intros; lia)
      ltac:(by intros []) es st Hi). by rewrite Hr in Hc. }
  pose proof (Hw 1 ltac:(by left)). pose proof (Hw (-1) ltac:(by right)).
  change (zsum (fun x => is_who w x)) with (zsum (is_who w)). unfold is_who in *. lia.
Qed.

(** C22: over any run of a new client every call invoked is, counted once,
    either settled or still in flight: no promise is settled twice, none is
    dropped, and none is settled that was not invoked. *)
Theorem calls_settle_once es st outs :
  bridge_run new_bridge_client es = (st, outs) →
  (who <$> invoked_of es) ≡ₚ settled_calls outs ++ (who <$> unsettled st).
Proof. intros Hr. pose proof (run_conserves es new_bridge_client st outs ids_ok_new Hr) as Hc. by rewrite app_nil_r in Hc. Qed.

(** * Requests per call *)

Definition written_for (w : nat) (o : bridge_output) : bool :=
  match o with Written _ c _ _ => bool_decide (who c = w) | _ => false end.
Definition requests_of (w : nat) (outs : list bridge_output) : list bridge_output := jfilter (written_for w) outs.

(** Requests a call may still send. *)
Definition budget (w : nat) (spent : nat) (c : Call) (n : nat) : Z :=
  if bool_decide (who c = w) then Z.of_nat (S (maxAttempts c - n) - spent) else 0.

Lemma maxAttempts_range c : (1 ≤ maxAttempts c ≤ 2)%nat.
Proof. unfold maxAttempts. destruct (retryOnTransport c), (onStream c); cbn; lia. Qed.

Lemma requests_budget w es :
  Z.of_nat (length (requests_of w (bridge_run new_bridge_client es).2)) ≤
  zsum (fun c => if bool_decide (who c = w) then Z.of_nat (maxAttempts c) else 0) (invoked_of es).
Proof.
  assert (∀ c n, 0 ≤ budget w 1 c n) as Hpos by (intros; unfold budget; case_bool_decide; lia).
  pose proof (client_run_weight (budget w 0) (budget w 1) (fun o => if written_for w o then 1 else 0)) as Hc.
  cbv beta iota in Hc. specialize (Hc
    ltac:(intros; cbn [written_for]; unfold budget; case_bool_decide; lia)
    ltac:(intros; unfold budget; case_bool_decide; lia)
    ltac:(intros; unfold budget; case_bool_decide; lia)
    ltac:(intros; apply Hpos) ltac:(intros; apply Hpos) ltac:(by intros []) es new_bridge_client ids_ok_new).
  unfold requests_of. rewrite <-zsum_one, zsum_jfilter.
  change (weight (budget w 0) (budget w 1) new_bridge_client) with 0 in Hc.
  assert (0 ≤ weight (budget w 0) (budget w 1) (bridge_run new_bridge_client es).1) as Hw.
  { unfold weight. repeat apply Z.add_nonneg_nonneg; apply zsum_nonneg.
    - intros kp _. unfold w_pending. destruct (live kp.2); [apply Hpos|done].
    - intros ca _. unfold w_waiting, budget. case_bool_decide; lia.
    - intros [c n|c n r] _; cbn [w_task]; unfold budget; case_bool_decide; lia. }
  assert (zsum (fun te : Z * client_event => w_event (budget w 0) te.2) es ≤
    zsum (fun c => if bool_decide (who c = w) then Z.of_nat (maxAttempts c) else 0) (invoked_of es)) as He.
  { unfold invoked_of. rewrite zsum_concat, zsum_fmap. clear. induction es as [|[now ev] es IH]; [done|].
    rewrite !zsum_cons. destruct ev; cbn [snd w_event invoked]; rewrite ?zsum_cons, ?zsum_nil; try lia.
    pose proof (maxAttempts_range c). assert (budget w 0 c 1 ≤ if bool_decide (who c = w) then Z.of_nat (maxAttempts c) else 0)
      by (unfold budget; case_bool_decide; lia). lia. }
  lia.
Qed.

(** C21: a call is never sent more often than it may be: at most once, and a
    second time only when it is marked as safe to repeat and does not stream.
    In particular a request that changes the host is not executed twice
    because its connection broke. *)
Theorem requests_bounded es c :
  NoDup (who <$> invoked_of es) → c ∈ invoked_of es →
  (length (requests_of (who c) (bridge_run new_bridge_client es).2) ≤ maxAttempts c)%nat ∧
  (maxAttempts c ≤ 2)%nat ∧ (maxAttempts c = 2%nat ↔ retryOnTransport c = true ∧ onStream c = None).
Proof.
  intros Hnd Hin. split.
  - pose proof (requests_budget (who c) es) as Hb.
    assert (zsum (fun c' => if bool_decide (who c' = who c) then Z.of_nat (maxAttempts c') else 0) (invoked_of es)
      = Z.of_nat (maxAttempts c)) as E; [|lia].
    clear Hb. induction (invoked_of es) as [|d l IH]; [by apply not_elem_of_nil in Hin|].
    rewrite fmap_cons in Hnd. apply NoDup_cons in Hnd as [Hd Hnd]. rewrite zsum_cons. apply elem_of_cons in Hin as [->|Hin].
    + rewrite bool_decide_true by done. rewrite zsum_zero; [lia|]. intros x Hx. rewrite bool_decide_false; [done|].
      intros E. apply Hd. rewrite <-E. by apply list_elem_of_fmap_2.
    + rewrite bool_decide_false by (intros E; apply Hd; rewrite E; by apply list_elem_of_fmap_2). rewrite IH by done. lia.
  - unfold maxAttempts. destruct (retryOnTransport c), (onStream c); cbn; split; try lia; naive_solver.
Qed.

(** * Where a result comes from *)

(** The payloads a step hands to [handleFrame]. *)
Definition payloads_step (st : BridgeClient) (e : client_event) : list bytes :=
  match e with
  | Data s chunk =>
      if bool_decide (socket st = Some s) then match acc_push (frames st) chunk with (_, Ok fs) => fs | _ => [] end else []
  | _ => []
  end.
Fixpoint payloads_run (st : BridgeClient) (es : list (Z * client_event)) : list bytes :=
  match es with
  | [] => []
  | (now, e) :: es => payloads_step st e ++ payloads_run (bridge_step now st e).1 es
  end.

Definition response_of (payload : bytes) : option BridgeResponse :=
  match JSON_parse (utf8_decode payload) with
  | Some raw => if isStreamFrameCandidate raw then None else responseSchema raw
  | None => None
  end.

Ltac quiet := by intros ?? ?%not_elem_of_nil.

Section Provenance.
Context (past : list bridge_output) (read : list bytes).

Definition sent_as (c : Call) (id : jstr) : Prop := ∃ s f, Written s c id f ∈ past.
Definition answered (c : Call) (v : option json) : Prop :=
  ∃ id payload err, sent_as c id ∧ payload ∈ read ∧ response_of payload = Some (mkResponse id true v err).

Definition task_ok (t : continuation) : Prop := match t with Settled c _ (Ok v) => answered c v | _ => True end.
Definition entry_traced (kp : jstr * PendingCall) : Prop := live kp.2 = true → sent_as (p_call kp.2) kp.1.
Definition traced (st : BridgeClient) : Prop :=
  Forall entry_traced (pending st) ∧ Forall task_ok (tasks st).
Definition outputs_ok (out : list bridge_output) : Prop := ∀ c v, Resolved c v ∈ out → answered c v.

Lemma thrown_ok p e : Forall task_ok (settled_task p (Throw e)).
Proof. unfold settled_task. destruct (live p); repeat constructor. Qed.

Lemma reject_tasks_ok e l : Forall task_ok (reject_tasks e l).
Proof.
  unfold reject_tasks. induction l as [|kp l IH]; [constructor|]. cbn [fmap list_fmap concat]. apply Forall_app. split; [apply thrown_ok|done].
Qed.

Lemma traced_sub st st' ts :
  pending st' `sublist_of` pending st → tasks st' = tasks st ++ ts → Forall task_ok ts → traced st → traced st'.
Proof.
  intros Hs Ht Hts [Hp Hk]. split; [|rewrite Ht; by apply Forall_app].
  rewrite Forall_forall in Hp |- *. intros kp Hin. apply Hp. eapply elem_of_submseteq; [exact Hin|by apply sublist_submseteq].
Qed.

Lemma traced_eq st st' : pending st' = pending st → tasks st' = tasks st → traced st → traced st'.
Proof. intros Hp Ht [??]. split; congruence. Qed.

Lemma fail_call_traced st id e : traced st → traced (fail_call st id e).
Proof.
  intros Ht. unfold fail_call. destruct (map_get (pending st) id) as [p|]; [|done].
  apply (traced_sub st _ (settled_task p (Throw (e p)))); [apply map_delete_sublist|done|apply thrown_ok|done].
Qed.

Lemma send_traced now st c n :
  ids_ok st → (∀ o, o ∈ (send now st c n).2 → o ∈ past) → traced st → traced (send now st c n).1.
Proof.
  intros Hi. pose proof (fresh_id st Hi) as Hf. unfold send.
  destruct (socket st) as [s|]; [destruct (encodeFrame _ _) as [fr|err]|]; cbn [fst snd]; intros Ho [Hp Ht]; split;
    cbn [pending tasks]; rewrite ?(map_set_new _ _ _ Hf); apply Forall_app; (split; [done|]); repeat constructor.
  - intros _. exists s, fr. apply Ho. by left.
  - by intros [=].
  - by intros [=].
Qed.

Lemma callImpl_traced now st c n :
  ids_ok st → (∀ o, o ∈ (callImpl now st c n).2 → o ∈ past) → traced st → traced (callImpl now st c n).1.
Proof.
  intros Hi Ho Ht. unfold callImpl in *. destruct (closed st).
  { apply (traced_sub st _ [Settled c n (Throw (BridgeError transport (js "client is closed") None))]); [done|done|by repeat constructor|done]. }
  destruct (socket st) as [s|] eqn:Es; [by apply send_traced|].
  unfold connect in *. rewrite Es in *. destruct (connecting st); exact Ht.
Qed.

Lemma settled_response_traced st id p r :
  map_get (pending st) id = Some p → (live p = true → match r with Ok v => answered (p_call p) v | _ => True end) →
  traced st → traced (settle (set_calls st (map_delete (pending st) id)) p r).
Proof.
  intros Hg Hr Ht. apply (traced_sub st _ (settled_task p r)); [apply map_delete_sublist|done| |done].
  unfold settled_task. destruct (live p); [|constructor]. constructor; [by apply Hr|constructor].
Qed.

Lemma entry_sent st id p : map_get (pending st) id = Some p → traced st → live p = true → sent_as (p_call p) id.
Proof.
  intros Hg [Hp _] Hl. rewrite Forall_forall in Hp. apply (Hp (id, p)); [|done]. clear Hp. revert Hg. generalize (pending st).
  induction l as [|[k q] l IH]; [done|]. cbn [map_get]. case_bool_decide; [intros [= ->]; subst; by left|]. intros. right. by apply IH.
Qed.

Lemma handleFrame_traced now st f :
  f ∈ read → traced st → traced (handleFrame now st f).1 ∧ outputs_ok (handleFrame now st f).2.
Proof.
  intros Hf Ht. unfold handleFrame. destruct (JSON_parse (utf8_decode f)) as [raw|] eqn:Ej; [|split; [done|quiet]].
  destruct (isStreamFrameCandidate raw) eqn:Es.
  { destruct (streamFrameSchema raw) as [fr|]; [|split; [done|quiet]]. unfold deliverStreamFrame.
    destruct (map_get _ _) as [p|]; [|split; [done|quiet]].
    destruct (onStream _) as [cb|]; [|split; [done|quiet]].
    destruct (cb fr); (split; [try apply fail_call_traced; done|by intros ?? ?%list_elem_of_singleton]). }
  destruct (responseSchema raw) as [obj|] eqn:Er.
  - unfold handleResponse. destruct (map_get (pending st) (resp_id obj)) as [p|] eqn:Eg; [|split; [done|quiet]].
    assert (live p = true → ok obj = true → answered (p_call p) (resp_result obj)) as Ha.
    { intros Hl Ho. exists (resp_id obj), f, (resp_error obj). split; [by eapply entry_sent|]. split; [done|].
      unfold response_of. rewrite Ej, Es, Er. destruct obj; cbn in *. by rewrite Ho. }
    destruct (ok obj) eqn:Eo.
    + destruct (if hasEmitted _ then None else _) as [[version hostname]|]; cbn [fst snd]; split.
      * refine (traced_eq (settle (set_calls st (map_delete (pending st) (resp_id obj))) p (Ok (resp_result obj))) _ eq_refl eq_refl _).
        apply settled_response_traced; [done|auto|done].
      * intros c v Hin. cbn in Hin. by apply elem_of_cons in Hin as [|[|?%not_elem_of_nil]%elem_of_cons].
      * apply settled_response_traced; [done|auto|done].
      * by intros c v ?%list_elem_of_singleton.
    + split; [by apply settled_response_traced|by intros c v ?%list_elem_of_singleton].
  - split; [|quiet]. cbn [fst]. unfold rejectMalformed. destruct (raw_id raw); [by apply fail_call_traced|done].
Qed.

Lemma handleFrames_traced now st fs :
  (∀ f, f ∈ fs → f ∈ read) → traced st → traced (handleFrames now st fs).1 ∧ outputs_ok (handleFrames now st fs).2.
Proof.
  revert st. induction fs as [|f fs IH]; intros st Hfs Ht; cbn [handleFrames]; [split; [done|quiet]|].
  destruct (handleFrame_traced now st f (Hfs f ltac:(by left)) Ht) as [H1 O1]. destruct (handleFrame now st f) as [st1 o1].
  destruct (IH st1 ltac:(intros; apply Hfs; by right) H1) as [H2 O2]. destruct (handleFrames now st1 fs) as [st2 o2].
  split; [done|]. intros c v [Hin|Hin]%elem_of_app; auto.
Qed.
End Provenance.

Lemma client_step_traced past read now st e :
  ids_ok st → (∀ o, o ∈ (bridge_step now st e).2 → o ∈ past) → (∀ f, f ∈ payloads_step st e → f ∈ read) →
  traced past read st →
  traced past read (bridge_step now st e).1 ∧ outputs_ok past read (bridge_step now st e).2.
Proof.
  intros Hi Ho Hf Ht.
  assert (∀ ts st', pending st' `sublist_of` pending st → tasks st' = tasks st ++ ts → Forall (task_ok past read) ts →
    traced past read st') as Hsub by (intros; by eapply traced_sub).
  destruct e as [c| | |s|s m|s chunk|s|s|id m|id| | |]; cbn [bridge_step payloads_step] in *.
  - split; [by apply callImpl_traced|]. unfold callImpl, send, connect.
    destruct (closed st), (socket st), (connecting st); cbn; try destruct (encodeFrame _ _); cbn; try quiet; by intros ?? ?%list_elem_of_singleton.
  - unfold run_continuation in *. destruct Ht as [Hp Hk]. destruct (tasks st) as [|t ts] eqn:E; [split; [by split; cbn [fst]; rewrite ?E|quiet]|].
    apply Forall_cons in Hk as [Hh Hts]. assert (traced past read (set_tasks st ts)) as Ht0 by by split.
    destruct t as [c n|c n r].
    { split; [by apply send_traced|]. unfold send. destruct (socket _); [destruct (encodeFrame _ _)|]; cbn; try quiet; by intros ?? ?%list_elem_of_singleton. }
    destruct r as [v|err]; cbn [attempt_done] in *.
    { split; [done|]. intros c' v' Hin%list_elem_of_singleton. injection Hin as -> ->. exact Hh. }
    destruct (_ && _); [|split; [done|by intros ?? ?%list_elem_of_singleton]].
    pose proof (callImpl_traced past read now (set_socket (set_tasks st ts) None) c (S n) Hi) as Hc.
    assert (∀ c' v', Resolved c' v' ∉ (callImpl now (set_socket (set_tasks st ts) None) c (S n)).2) as Hq.
    { intros c' v'. unfold callImpl, connect. cbn. destruct (closed st), (connecting st); cbn;
        (by intros ?%not_elem_of_nil) || by intros ?%list_elem_of_singleton. }
    destruct (callImpl now (set_socket (set_tasks st ts) None) c (S n)) as [st1 out]. cbn [fst snd] in *. split.
    + apply Hc; [|exact Ht0]. intros o Hin. apply Ho. destruct (socket _); [by right|done].
    + intros c' v' Hin. exfalso. apply (Hq c' v'). destruct (socket _); [|done]. by apply elem_of_cons in Hin as [|].
  - split; [|unfold connect; destruct (socket st), (connecting st); cbn; try quiet; by intros ?? ?%list_elem_of_singleton].
    unfold connect. destruct (socket st), (connecting st); done.
  - unfold on_connected. case_bool_decide; (split; [|quiet]); [|done]. eapply Hsub; [done|done|].
    apply Forall_fmap, Forall_forall. intros [] _. exact I.
  - unfold on_connect_error. case_bool_decide; (split; [|quiet]); [|done]. eapply Hsub; [done|done|].
    apply Forall_fmap, Forall_forall. intros [] _. exact I.
  - unfold on_chunk in *. case_bool_decide as Hs; [|split; [done|quiet]]. destruct (acc_push (frames st) chunk) as [acc [fs|err]].
    + apply handleFrames_traced; done.
    + split; [eapply Hsub; [apply sublist_nil_l|done|apply reject_tasks_ok]|].
      destruct (hasEmitted st); intros c' v' Hin; repeat (apply elem_of_cons in Hin as [|Hin]; [done|]); by apply not_elem_of_nil in Hin.
  - unfold on_close. destruct (bool_decide (s ∈ attached st)); [|split; [done|quiet]].
    split; [eapply Hsub; [apply jfilter_sublist|done|apply reject_tasks_ok]|].
    destruct (_ && _); [by intros ?? ?%list_elem_of_singleton|quiet].
  - unfold on_error. destruct (bool_decide (s ∈ attached st)); [|split; [done|quiet]].
    split; [done|]. destruct (_ && _); [by intros ?? ?%list_elem_of_singleton|quiet].
  - split; [by apply fail_call_traced|quiet].
  - unfold on_timeout. destruct (map_get (pending st) id) as [p|]; [|split; [done|quiet]].
    destruct (timer p); (split; [|quiet]); [by apply fail_call_traced|done].
  - split; [done|]. unfold pause_socket. destruct (socket st); [by intros ?? ?%list_elem_of_singleton|quiet].
  - split; [done|]. unfold resume_socket. destruct (socket st); [by intros ?? ?%list_elem_of_singleton|quiet].
  - split; [eapply Hsub; [apply sublist_nil_l|done|apply reject_tasks_ok]|].
    unfold close. destruct (socket st), (hasEmitted st); intros c' v' Hin; cbn in Hin;
      repeat (apply elem_of_cons in Hin as [|Hin]; [done|]); by apply not_elem_of_nil in Hin.
Qed.

Lemma client_run_traced past read es st :
  ids_ok st → (∀ o, o ∈ (bridge_run st es).2 → o ∈ past) → (∀ f, f ∈ payloads_run st es → f ∈ read) →
  traced past read st → outputs_ok past read (bridge_run st es).2.
Proof.
  revert st. induction es as [|[now e] es IH]; intros st Hi Ho Hf Ht; cbn [bridge_run payloads_run] in *; [quiet|].
  pose proof (client_step_traced past read now st e Hi) as Hs. pose proof (client_step_ids now st e Hi) as Hi1.
  destruct (bridge_step now st e) as [st1 o1]. specialize (IH st1 Hi1). destruct (bridge_run st1 es) as [st2 o2].
  cbn [fst snd] in *. destruct Hs as [Ht1 O1]; [intros; apply Ho, elem_of_app; by left|intros; apply Hf, elem_of_app; by left|done|].
  intros c v [Hin|Hin]%elem_of_app; [by apply O1|]. apply IH; [|intros f Hin'; apply Hf, elem_of_app; by right|done|done].
  intros o Hin'. apply Ho, elem_of_app. by right.
Qed.

(** A call resolves only with the result of an [ok] response that was read
    from the bridge and carries the id under which that very call was written:
    answers are never crossed between calls. *)
Theorem result_is_own_response es c v :
  Resolved c v ∈ (bridge_run new_bridge_client es).2 →
  ∃ s id f payload err, Written s c id f ∈ (bridge_run new_bridge_client es).2 ∧ payload ∈ payloads_run new_bridge_client es ∧
    response_of payload = Some (mkResponse id true v err).
Proof.
  intros Hin. destruct (client_run_traced (bridge_run new_bridge_client es).2 (payloads_run new_bridge_client es) es new_bridge_client
    ids_ok_new ltac:(done) ltac:(done) ltac:(split; constructor) c v Hin) as (id & payload & err & (s & f & Hw) & Hp & Hr).
  by exists s, id, f, payload, err.
Qed.

(** * A connection reads its own bytes *)

Definition data_of (s : nat) (es : list (Z * client_event)) : list bytes :=
  omap (fun te : Z * client_event => match te.2 with Data s' chunk => if bool_decide (s' = s) then Some chunk else None | _ => None end) es.

(** The socket [s] has been replaced or dropped, and cannot come back. *)
Definition gone (s : nat) (st : BridgeClient) : Prop :=
  socket st ≠ Some s ∧ connecting st ≠ Some s ∧ (s < nextSock st)%nat.

(** What a step other than data does to the connection. *)
Lemma handleFrame_conn now st f :
  let st' := (handleFrame now st f).1 in
  socket st' = socket st ∧ connecting st' = connecting st ∧ frames st' = frames st ∧ nextSock st' = nextSock st.
Proof.
  unfold handleFrame. destruct (JSON_parse _) as [raw|]; [|done].
  assert (∀ id e, let st' := fail_call st id e in socket st' = socket st ∧ connecting st' = connecting st ∧
    frames st' = frames st ∧ nextSock st' = nextSock st) as Hfc by (intros id e; unfold fail_call; by destruct (map_get _ _)).
  destruct (isStreamFrameCandidate raw).
  { destruct (streamFrameSchema raw) as [fr|]; [|done]. unfold deliverStreamFrame.
    destruct (map_get _ _) as [p|]; [|done]. destruct (onStream _) as [cb|]; [|done]. destruct (cb fr); [apply Hfc|done]. }
  destruct (responseSchema raw) as [obj|].
  - unfold handleResponse. destruct (map_get _ _) as [p|]; [|done].
    destruct (ok obj); [|done]. by destruct (if hasEmitted _ then _ else _) as [[]|].
  - cbn [fst]. unfold rejectMalformed. destruct (raw_id raw); [apply Hfc|done].
Qed.

Lemma handleFrames_conn now st fs :
  let st' := (handleFrames now st fs).1 in
  socket st' = socket st ∧ connecting st' = connecting st ∧ frames st' = frames st ∧ nextSock st' = nextSock st.
Proof.
  revert st. induction fs as [|f fs IH]; intros st; cbn [handleFrames]; [done|].
  pose proof (handleFrame_conn now st f) as H1. destruct (handleFrame now st f) as [st1 o1].
  specialize (IH st1). destruct (handleFrames now st1 fs) as [st2 o2]. cbn in *. intuition congruence.
Qed.

Lemma callImpl_conn now st c n :
  let st' := (callImpl now st c n).1 in
  socket st' = socket st ∧ frames st' = frames st ∧
  ((connecting st' = connecting st ∧ nextSock st' = nextSock st) ∨ (socket st = None ∧ connecting st' = Some (nextSock st) ∧ nextSock st' = S (nextSock st))).
Proof.
  unfold callImpl, send, connect. destruct (closed st); [auto|]. destruct (socket st) as [s|] eqn:Es.
  - destruct (encodeFrame _ _); cbn; intuition congruence.
  - destruct (connecting st) as [s'|] eqn:Ec; cbn; intuition congruence.
Qed.

Lemma fail_call_conn st id e :
  let st' := fail_call st id e in
  socket st' = socket st ∧ connecting st' = connecting st ∧ frames st' = frames st ∧ nextSock st' = nextSock st.
Proof. unfold fail_call. by destruct (map_get _ _). Qed.

(** Every step either keeps the connection, or drops it, or adopts the socket
    being dialed; a dial takes a new socket, and only without a connection. *)
Inductive conn_change (e : client_event) (st st' : BridgeClient) : Prop :=
| conn_same : socket st' = socket st → connecting st' = connecting st → frames st' = frames st →
    (nextSock st ≤ nextSock st')%nat → conn_change e st st'
| conn_fed s chunk : e = Data s chunk → socket st = Some s → socket st' = socket st → connecting st' = connecting st →
    nextSock st' = nextSock st → conn_change e st st'
| conn_dialed : socket st' = None → connecting st' = Some (nextSock st) → nextSock st' = S (nextSock st) → conn_change e st st'
| conn_lost : socket st' = None → connecting st' = connecting st → nextSock st' = nextSock st → conn_change e st st'
| conn_failed : socket st' = socket st → is_Some (connecting st) → connecting st' = None → nextSock st' = nextSock st →
    frames st' = frames st → conn_change e st st'
| conn_made : is_Some (connecting st) → socket st' = connecting st → connecting st' = None → nextSock st' = nextSock st → conn_change e st st'.

Lemma client_step_conn now st e : conn_change e st (bridge_step now st e).1.
Proof.
  assert (∀ st', let t := st' in socket t = socket st ∧ connecting t = connecting st ∧ frames t = frames st ∧ nextSock t = nextSock st →
    conn_change e st t) as Hsame by (intros st' t (? & ? & ? & Hn); apply conn_same; [done..|rewrite Hn; lia]).
  destruct e as [c| | |s|s m|s chunk|s|s|id m|id| | |]; cbn [bridge_step].
  - destruct (callImpl_conn now st c 1) as (H1 & H2 & [[H3 H4]|(H4 & H5 & H6)]); [by apply Hsame|].
    apply conn_dialed; congruence.
  - unfold run_continuation. destruct (tasks st) as [|[c n|c n r] ts]; [by apply Hsame| |].
    { unfold send. destruct (socket _) as [s|] eqn:E; [destruct (encodeFrame _ _)|]; apply Hsame; cbn in *; by rewrite ?E. }
    destruct r as [v|err]; cbn [attempt_done]; [by apply Hsame|]. destruct (_ && _); [|by apply Hsame].
    destruct (callImpl_conn now (set_socket (set_tasks st ts) None) c (S n)) as (H1 & H2 & H4).
    destruct (callImpl now _ c (S n)) as [st1 out]. cbn in *. by destruct H4 as [[H3 H4]|(_ & H5 & H6)]; [apply conn_lost|apply conn_dialed].
  - unfold connect. destruct (socket st) eqn:Es, (connecting st) eqn:Ec; try (apply Hsame; done). by apply conn_dialed.
  - unfold on_connected. case_bool_decide as Hc; [|by apply Hsame]. by apply conn_made.
  - unfold on_connect_error. case_bool_decide as Hc; [|by apply Hsame]. by apply conn_failed.
  - unfold on_chunk. case_bool_decide as Hs; [|by apply Hsame]. destruct (acc_push _ _) as [acc [fs|err]]; [|by apply conn_lost].
    destruct (handleFrames_conn now (set_frames st acc) fs) as (H1 & H2 & H3 & H4). by eapply conn_fed.
  - unfold on_close. destruct (bool_decide (s ∈ attached st)); [|by apply Hsame].
    destruct (bool_decide (socket st = Some s)); [by apply conn_lost|by apply Hsame].
  - unfold on_error. destruct (bool_decide (s ∈ attached st)); by apply Hsame.
  - apply Hsame, fail_call_conn.
  - unfold on_timeout. destruct (map_get _ _) as [p|]; [|by apply Hsame]. destruct (timer p); [apply Hsame, fail_call_conn|by apply Hsame].
  - by apply Hsame.
  - by apply Hsame.
  - by apply conn_lost.
Qed.

Lemma gone_step s now st e : gone s st → gone s (bridge_step now st e).1.
Proof.
  intros (Hs & Hc & Hn). unfold gone.
  destruct (client_step_conn now st e) as [H1 H2 _ H3|s' ch _ _ H1 H2 H3|H1 H2 H3|H1 H2 H3|H1 _ H2 H3 _|_ H1 H2 H3];
    rewrite H1, H2; split_and!; try done; try congruence; try lia; intros [= E]; lia.
Qed.

Lemma gone_run s es st : gone s st → gone s (bridge_run st es).1.
Proof.
  revert st. induction es as [|[now e] es IH]; intros st Hg; cbn [bridge_run]; [done|].
  pose proof (gone_step s now st e Hg) as Hg1. destruct (bridge_step now st e) as [st1 o1]. specialize (IH st1 Hg1).
  by destruct (bridge_run st1 es).
Qed.

(** The connection [s] has read the chunks [cs] and handled the frames [fs]. *)
Definition reading (s : nat) (cs fs : list bytes) (st : BridgeClient) : Prop :=
  socket st = Some s ∧ connecting st = None ∧ (s < nextSock st)%nat ∧ acc_ok (frames st) ∧ are_bytes (concat cs) ∧
  decodeFrames (concat cs) = Ok (fs, queued (frames st)).

Definition event_bytes (e : client_event) : Prop := match e with Data _ chunk => are_bytes chunk | _ => True end.

Lemma reading_data s cs fs now st chunk : are_bytes chunk → reading s cs fs st →
  reading s (cs ++ [chunk]) (fs ++ payloads_step st (Data s chunk)) (on_chunk now st s chunk).1 ∨ gone s (on_chunk now st s chunk).1.
Proof.
  intros Hb (Hs & Hc & Hn & Hok & Hcs & Hd). unfold on_chunk. cbn [payloads_step]. rewrite Hs, bool_decide_true by done.
  pose proof (acc_push_spec (frames st) chunk Hok Hb) as Hp.
  assert (decodeFrames (concat (cs ++ [chunk])) = let! (f, r) := decodeFrames (queued (frames st) ++ chunk) in Ok (fs ++ f, r)) as E.
  { rewrite concat_app. cbn [concat]. rewrite app_nil_r. by apply decodeFrames_app. }
  destruct (decodeFrames (queued (frames st) ++ chunk)) as [[f r]|err], (acc_push (frames st) chunk) as [acc res].
  - destruct Hp as (-> & Hq & Hok'). left. cbn [result_bind] in E.
    destruct (handleFrames_conn now (set_frames st acc) f) as (H1 & H2 & H3 & H4). unfold reading.
    rewrite H1, H2, H3, H4. cbn [set_frames socket connecting frames nextSock]. split_and!; try done; [|by rewrite E, Hq].
    rewrite concat_app. cbn [concat]. rewrite app_nil_r. by apply are_bytes_app.
  - subst res. right. unfold gone. cbn. rewrite Hc. split_and!; done.
Qed.

Lemma reading_step s cs fs now st e : event_bytes e → reading s cs fs st →
  reading s (cs ++ data_of s [(now, e)]) (fs ++ payloads_step st e) (bridge_step now st e).1 ∨ gone s (bridge_step now st e).1.
Proof.
  intros Hb Hr. pose proof Hr as (Hs & Hc & Hn & Hok & Hcs & Hd).
  assert ((∃ chunk, e = Data s chunk) ∨ ((∀ chunk, e ≠ Data s chunk) ∧ data_of s [(now, e)] = [] ∧ payloads_step st e = []))
    as [[chunk ->]|(Hne & -> & ->)].
  { destruct e as [| | | | |s' chunk| | | | | | |]; try (right; by split_and!). destruct (decide (s' = s)) as [->|Hx]; [left; by exists chunk|].
    right. cbn. rewrite bool_decide_false by done. rewrite bool_decide_false by congruence. split_and!; [congruence|done|done]. }
  { assert (data_of s [(now, Data s chunk)] = [chunk]) as -> by (cbn; by rewrite bool_decide_true). by apply reading_data. }
  rewrite !app_nil_r. unfold reading, gone.
  destruct (client_step_conn now st e) as [H1 H2 H3 H4|s' ch -> Hs' _ _ _|H1 H2 H3|H1 H2 H3|_ Hi|Hi]; rewrite ?H1, ?H2, ?H3.
  - left. split_and!; try done. lia.
  - congruence.
  - right. split_and!; [done| |lia]. intros [= E]. lia.
  - right. split_and!; [done|by rewrite Hc|lia].
  - rewrite Hc in Hi. by apply is_Some_None in Hi.
  - rewrite Hc in Hi. by apply is_Some_None in Hi.
Qed.

Lemma data_of_cons s te es : data_of s (te :: es) = data_of s [te] ++ data_of s es.
Proof. unfold data_of. cbn [omap list_omap]. by destruct (match te.2 with Data _ _ => _ | _ => _ end). Qed.

Lemma reading_run s es cs fs st :
  Forall (fun te => event_bytes te.2) es → reading s cs fs st → socket (bridge_run st es).1 = Some s →
  reading s (cs ++ data_of s es) (fs ++ payloads_run st es) (bridge_run st es).1.
Proof.
  revert cs fs st. induction es as [|[now e] es IH]; intros cs fs st Hb Hr Hs; [cbn; by rewrite !app_nil_r|].
  apply Forall_cons in Hb as [Hbe Hb]. cbn [snd] in Hbe. rewrite data_of_cons. cbn [bridge_run payloads_run] in *.
  pose proof (reading_step s cs fs now st e Hbe Hr) as Hstep. destruct (bridge_step now st e) as [st1 o1]. cbn [fst] in *.
  destruct Hstep as [Hstep|Hg].
  - specialize (IH _ _ st1 Hb Hstep). destruct (bridge_run st1 es) as [st2 o2]. rewrite !app_assoc. by apply IH.
  - destruct (gone_run s es st1 Hg) as [Hng _]. by destruct (bridge_run st1 es).
Qed.

(** A socket being dialed has been numbered. *)
Lemma dialing_numbered es st : (∀ s, connecting st = Some s → (s < nextSock st)%nat) →
  ∀ s, connecting (bridge_run st es).1 = Some s → (s < nextSock (bridge_run st es).1)%nat.
Proof.
  revert st. induction es as [|[now e] es IH]; intros st Hst; cbn [bridge_run]; [done|].
  pose proof (client_step_conn now st e) as Hc. destruct (bridge_step now st e) as [st1 o1]. cbn [fst] in Hc.
  specialize (IH st1). destruct (bridge_run st1 es) as [st2 o2]. apply IH. intros s Hs.
  destruct Hc as [_ H2 _ H3|? ? _ _ _ H2 H3|_ H2 H3|_ H2 H3|_ _ H2 H3 _|_ _ H2 H3]; rewrite H2 in Hs; try done.
  1,2,4: specialize (Hst s Hs); lia. injection Hs as <-. lia.
Qed.

(** A connection reads exactly its own byte stream: from the moment a dialed
    socket connects, for as long as it stays the client's connection, the
    payloads handled are the frames that the reference decoder finds in the
    bytes this socket delivered. Nothing is inherited from the partial frame of
    an earlier connection, and bytes of other sockets are never read. *)
Theorem connection_reads_own_stream es0 s t es :
  let st := (bridge_run new_bridge_client es0).1 in
  connecting st = Some s → Forall (fun te => event_bytes te.2) es →
  socket (bridge_run st ((t, ConnectOk s) :: es)).1 = Some s →
  ∃ rest, decodeFrames (concat (data_of s es)) = Ok (payloads_run st ((t, ConnectOk s) :: es), rest).
Proof.
  intros st Hc Hb. assert (s < nextSock st)%nat as Hn by by apply (dialing_numbered es0 new_bridge_client). clearbody st.
  cbn [bridge_run payloads_run payloads_step bridge_step app]. unfold on_connected. rewrite Hc, bool_decide_true by done.
  cbn [fst]. set (st1 := mkClient _ _ _ _ _ _ _ _ _ _ _). intros Hs.
  assert (reading s [] [] st1) as Hr.
  { unfold reading. split_and!; try done; [apply new_accumulator_ok|exact (Forall_nil_2 _)]. }
  pose proof (reading_run s es [] [] st1 Hb Hr) as H1. destruct (bridge_run st1 es) as [st2 o2]. cbn [fst app] in *.
  destruct (H1 Hs) as (_ & _ & _ & _ & _ & Hd). eauto.
Qed.

(** * Closing *)

Definition is_settled (t : continuation) : Prop := match t with Settled _ _ _ => True | Resume _ _ => False end.

Lemma reject_tasks_settled e l : Forall is_settled (reject_tasks e l).
Proof.
  unfold reject_tasks. induction l as [|[k p] l IH]; [constructor|]. cbn [fmap list_fmap concat]. apply Forall_app. split; [|done].
  unfold settled_task. cbn [snd]. destruct (live p); by repeat constructor.
Qed.

Lemma invoked_ticks times : invoked_of ((fun now => (now, Tick)) <$> times) = [].
Proof. unfold invoked_of. by induction times. Qed.

(** A closed client runs the continuations it has without starting anything. *)
Lemma tick_closed now st :
  closed st = true → Forall is_settled (tasks st) →
  let st' := (run_continuation now st).1 in
  closed st' = true ∧ tasks st' = tail (tasks st) ∧ pending st' = pending st ∧ waiting st' = waiting st.
Proof.
  intros Hc Ht. unfold run_continuation. destruct (tasks st) as [|[c n|c n r] ts] eqn:E; [cbn; by rewrite E|by inversion Ht|].
  destruct r as [v|e]; cbn [attempt_done]; [done|]. cbn [set_tasks closed]. by rewrite Hc, andb_false_r.
Qed.

Lemma drain_closed times st :
  closed st = true → Forall is_settled (tasks st) →
  (length (tasks st) ≤ length times)%nat →
  let st' := (bridge_run st ((fun now => (now, Tick)) <$> times)).1 in
  tasks st' = [] ∧ pending st' = pending st ∧ waiting st' = waiting st.
Proof.
  revert st. induction times as [|now times IH]; intros st Hc Ht Hl; cbn [fmap list_fmap bridge_run].
  { cbn [length] in Hl. split; [|done]. cbn. destruct (tasks st); [done|cbn in Hl; lia]. }
  cbn [bridge_step]. destruct (tick_closed now st Hc Ht) as (Hc1 & Ht1 & Hp1 & Hw1). destruct (run_continuation now st) as [st1 o1]. cbn [fst] in *.
  specialize (IH st1 Hc1). rewrite Ht1, Hp1, Hw1 in IH.
  assert (Forall is_settled (tail (tasks st))) as Htl
    by (destruct (tasks st); [done|by inversion Ht]).
  specialize (IH Htl ltac:(destruct (tasks st); cbn in *; lia)).
  destruct (bridge_run st1 _) as [st2 o2]. exact IH.
Qed.

(** Closing a client that is not dialing ends every call: once the
    continuations queued by [close()] have run, each call that was in flight
    has been settled, exactly once, and nothing is left waiting. *)
Theorem close_settles_every_call es t times :
  let st := (bridge_run new_bridge_client es).1 in
  waiting st = [] → Forall is_settled (tasks st) →
  (length (tasks (close st).1) ≤ length times)%nat →
  let '(st', outs) := bridge_run st ((t, Close) :: ((fun now => (now, Tick)) <$> times)) in
  unsettled st' = [] ∧ settled_calls outs ≡ₚ (who <$> unsettled st).
Proof.
  intros st Hw Ht Hl. assert (ids_ok st) as Hi by apply (client_run_ids es new_bridge_client ids_ok_new). clearbody st.
  destruct (bridge_run st _) as [st' outs] eqn:Hr.
  assert (unsettled st' = []) as Hf.
  { pose proof (drain_closed times (close st).1 eq_refl) as Hd. cbn [bridge_run bridge_step] in Hr.
    destruct (close st) as [st1 o1] eqn:Ec. cbn [fst] in *. destruct Hd as (Hk & Hp & Hwt).
    - unfold close in Ec. injection Ec as <- _. cbn [tasks]. apply Forall_app. split; [done|apply reject_tasks_settled].
    - done.
    - destruct (bridge_run st1 _) as [st2 o2]. injection Hr as <- _. cbn [fst] in *. unfold unsettled. rewrite Hk, Hp, Hwt.
      unfold close in Ec. injection Ec as <- _. cbn. by rewrite Hw. }
  split; [done|]. pose proof (run_conserves _ _ _ _ Hi Hr) as Hc. rewrite Hf, app_nil_r in Hc. rewrite <-Hc.
  unfold invoked_of. rewrite fmap_cons. cbn [concat invoked snd app]. fold (invoked_of ((fun now => (now, Tick)) <$> times)). by rewrite invoked_ticks.
Qed.
End Client.

(** * Error codes *)

(** The codes survive the response schema, but [not_found] is not among the
    codes it lists. *)
Lemma code_of_text c : code_of (Some (JStr (code_text c))) = if bool_decide (c = not_found) then internal else c.
Proof. destruct c; vm_compute; reflexivity. Qed.

(** [apps/api/src/lib/server-delete.ts]: whether a failed [file_read] means that
    the file does not exist. *)
Definition ascii_lower (c : Z) : Z := if (65 <=? c) && (c <=? 90) then c + 32 else c.
Definition isFileNotFound (err : call_error) : bool :=
  match err with
  | BridgeError not_found _ _ => true
  | BridgeError runtime_error m _ => includes (js "no such file or directory") (ascii_lower <$> m)
  | _ => false
  end.

Section Errors.
Context `{BridgeEnv}.

(** An error response settled_by its call with the bridge's message, and with the
    bridge's code unless that is [not_found]. *)
Lemma error_response now st payload fs es id c m p :
  JSON_parse (utf8_decode payload) = Some (JObj fs) → map_get fs (js "stream") = None →
  map_get fs (js "id") = Some (JStr id) → map_get fs (js "ok") = Some (JBool false) →
  map_get fs (js "error") = Some (JObj es) → map_get es (js "code") = Some (JStr (code_text c)) →
  map_get es (js "message") = Some (JStr m) → map_get (pending st) id = Some p → live p = true →
  tasks (handleFrame now st payload).1 = tasks st ++
    [Settled (p_call p) (p_attempt p) (Throw (BridgeError (if bool_decide (c = not_found) then internal else c) m (map_get es (js "detail"))))] ∧
  pending (handleFrame now st payload).1 = map_delete (pending st) id.
Proof.
  intros Hj Hs Hi Ho He Hc Hm Hp Hl. unfold handleFrame. rewrite Hj. unfold isStreamFrameCandidate, map_has.
  rewrite Hs, bool_decide_false by (by intros ?%is_Some_None). unfold responseSchema. rewrite Hi, Ho, He. unfold error_schema.
  rewrite Hm, Hc. unfold handleResponse. cbn [resp_id]. rewrite Hp. cbn [ok resp_error default code message detail].
  unfold settle, settled_task. rewrite Hl. cbn [fst tasks set_tasks set_calls pending]. by rewrite code_of_text.
Qed.


(** [close()] does not stop a dial: a call invoked before it is written on the
    connection that is made afterwards, and that connection stays open. *)
Theorem close_while_dialing_leaks c frame t0 t1 t2 t3 :
  encodeFrame JSON_stringify (mkRequest (uuidv7 0) (method c) (params c)) = Ok frame →
  let '(st, outs) := bridge_run new_bridge_client [(t0, Invoke c); (t1, Close); (t2, ConnectOk 0); (t3, Tick)] in
  outs = [Dialed 0; Written 0 c (uuidv7 0) frame] ∧ closed st = true ∧ socket st = Some 0%nat ∧ unsettled st = [c].
Proof. intros E. cbn -[encodeFrame bool_decide]. unfold on_connected. cbn -[encodeFrame bool_decide]. rewrite bool_decide_true by done. cbn -[encodeFrame]. rewrite E. done. Qed.
End Errors.

(** * The methods

    Each wrapper of the client as the call it makes for the caller [w]. *)
Section Methods.
Context (w : nat).
Notation stream := (option (BridgeStreamFrame → option jstr)).

Definition idempotent (m : jstr) (p : option json) (t : option Timeout) : Call := mkCall w m p None t true.
Definition one_shot (m : jstr) (p : option json) (s : stream) (t : option Timeout) : Call := mkCall w m p s t false.

Definition ping := idempotent (js "ping") None None.
Definition hostInfo := idempotent (js "host_info") None None.
Definition hostMetrics := idempotent (js "host_metrics") None None.
Definition fileRead p := idempotent (js "file_read") (Some p) None.
Definition fileReadStream p s := one_shot (js "file_read_stream") (Some p) (Some s) (Some (Finite 600000)).
Definition fileAtomicWrite p := idempotent (js "file_atomic_write") (Some p) None.
Definition directoryDelete p := idempotent (js "directory_delete") (Some p) (Some (Finite 60000)).
Definition listPanelDirs := idempotent (js "list_panel_dirs") None None.
Definition squadLogList p := idempotent (js "squad_log_list") (Some p) None.
Definition listSquadContainers := idempotent (js "list_squad_containers") None None.
Definition ufwRule p := idempotent (js "ufw_rule") (Some p) None.
Definition containerRun p := one_shot (js "container_run") (Some p) None (Some (Finite 60000)).
Definition containerRunRnsquadjs p := one_shot (js "container_run_rnsquadjs") (Some p) None (Some (Finite 60000)).
Definition containerStart p := one_shot (js "container_start") (Some p) None (Some (Finite 30000)).
Definition containerStop p := one_shot (js "container_stop") (Some p) None (Some (Finite 120000)).
Definition containerRm p := one_shot (js "container_rm") (Some p) None (Some (Finite 30000)).
Definition containerInspect p := idempotent (js "container_inspect") (Some p) (Some (Finite 10000)).
Definition containerStats p := idempotent (js "container_stats") (Some p) (Some (Finite 10000)).
Definition containerLogsFollow p s := one_shot (js "container_logs_follow") (Some p) (Some s) (Some Infinity).
Definition depotUpdate s := one_shot (js "depot_update") None (Some s) (Some (Finite 3600000)).
Definition dockerPrune (s : stream) := one_shot (js "docker_prune") None s (Some (Finite 600000)).
Definition backupSnapshots := idempotent (js "backup_snapshots") None (Some (Finite 60000)).
Definition backupRun (s : stream) := one_shot (js "backup_run") None s (Some (Finite 3600000)).
Definition backupRestore p (s : stream) := one_shot (js "backup_restore") (Some p) s (Some (Finite 3600000)).
Definition panelDiskUsage (force : bool) :=
  one_shot (js "panel_disk_usage") (Some (JObj (if force then [(js "force", JBool true)] else []))) None (Some (Finite 30000)).
Definition squadLogRetentionSweep (p : option json) :=
  one_shot (js "squad_log_retention_sweep") (Some (default (JObj [(js "archive_server_ids", JArr [])]) p)) None (Some (Finite 60000)).
Definition hostAgentRestart := one_shot (js "host_agent_restart") None None (Some (Finite 5000)).
End Methods.

(** The calls that run a container, a backup or an update are sent once. *)
Definition host_actions (w : nat) (p : json) (s : BridgeStreamFrame → option jstr) : list Call :=
  [containerRun w p; containerRunRnsquadjs w p; containerStart w p; containerStop w p; containerRm w p; depotUpdate w s;
   dockerPrune w (Some s); backupRun w (Some s); backupRestore w p (Some s); hostAgentRestart w].

Lemma host_actions_once w p s : Forall (fun c => maxAttempts c = 1%nat) (host_actions w p s).
Proof. repeat constructor. Qed.

(** * A session *)

(** Request and response texts of one or two characters. *)
Definition session_parse (s : jstr) : option json :=
  match s with
  | [1; i] => Some (JObj [(js "id", JStr [i]); (js "ok", JBool true); (js "result", JNum [i])])
  | [2; i] => Some (JObj [(js "id", JStr [i]); (js "ok", JBool false);
                (js "error", JObj [(js "code", JStr (js "not_found")); (js "message", JStr (js "open a: no such file"))])])
  | _ => None
  end.
#[local] Instance session_env : BridgeEnv := {|
  JSON_stringify r := req_id r;
  JSON_parse := session_parse;
  uuidv7 n := [Z.of_nat n];
  issues_text _ := [];
  defaultTimeoutMs := Finite 15000;
|}.
#[local] Instance session_ids : Inj eq eq (@uuidv7 session_env).
Proof. intros m n E. injection E as E. lia. Qed.

Definition read_call : Call := fileRead 1 JNull.
Definition run_call : Call := containerRun 2 JNull.

(** Two calls share a connection that breaks; the first is sent again on the
    next one and answered there, in two chunks. *)
Definition bridge_session : list (Z * client_event) :=
  [(0, Invoke read_call); (1, ConnectOk 0); (2, Tick); (3, Invoke run_call); (4, Data 0 [0; 0]); (5, SocketClose 0);
   (6, Tick); (7, Tick)].
Definition session_rest : list (Z * client_event) := [(9, Tick); (10, Data 1 [0; 0; 0; 2; 1]); (11, Data 1 [2]); (12, Tick)].

Example session_outputs :
  settled_calls (bridge_run new_bridge_client (bridge_session ++ (8, ConnectOk 1) :: session_rest)).2 = [2; 1]%nat ∧
  (Resolved read_call (Some (JNum [2]))) ∈ (bridge_run new_bridge_client (bridge_session ++ (8, ConnectOk 1) :: session_rest)).2.
Proof. split; [reflexivity|]. vm_compute. repeat (left || right). Qed.

Definition full_session : list (Z * client_event) := bridge_session ++ (8, ConnectOk 1) :: session_rest.

Lemma calls_settle_once_witness : [1; 2]%nat ≡ₚ [2; 1]%nat ++ [].
Proof.
  destruct (bridge_run new_bridge_client full_session) as [st outs] eqn:E.
  pose proof (calls_settle_once full_session st outs E) as Hs.
  assert (st = (bridge_run new_bridge_client full_session).1) as -> by by rewrite E.
  assert (outs = (bridge_run new_bridge_client full_session).2) as -> by by rewrite E.
  exact Hs.
Defined.

Lemma requests_bounded_witness :
  (length (requests_of 2 (bridge_run new_bridge_client full_session).2) = 1)%nat ∧
  (length (requests_of 2 (bridge_run new_bridge_client full_session).2) ≤ maxAttempts run_call)%nat.
Proof.
  split; [reflexivity|]. refine (proj1 (requests_bounded full_session run_call _ _)).
  - apply (bool_decide_unpack _). by vm_compute.
  - right. left.
Defined.

Lemma result_is_own_response_witness :
  Resolved read_call (Some (JNum [2])) ∈ (bridge_run new_bridge_client full_session).2 ∧
  ∃ s id f payload err, Written s read_call id f ∈ (bridge_run new_bridge_client full_session).2 ∧
    payload ∈ payloads_run new_bridge_client full_session ∧ response_of payload = Some (mkResponse id true (Some (JNum [2])) err).
Proof.
  assert (Resolved read_call (Some (JNum [2])) ∈ (bridge_run new_bridge_client full_session).2) as Hin by (vm_compute; repeat (left || right)).
  split; [exact Hin|]. exact (result_is_own_response full_session read_call (Some (JNum [2])) Hin).
Defined.

Lemma connection_reads_own_stream_witness :
  ∃ rest, decodeFrames [0; 0; 0; 2; 1; 2] =
    Ok (payloads_run (bridge_run new_bridge_client bridge_session).1 ((8, ConnectOk 1) :: session_rest), rest).
Proof.
  refine (connection_reads_own_stream bridge_session 1 8 session_rest eq_refl _ eq_refl).
  repeat constructor; lia.
Defined.

Lemma close_settles_every_call_witness :
  settled_calls (bridge_run (bridge_run new_bridge_client (take 4 bridge_session)).1 ((4, Close) :: ((fun now => (now, Tick)) <$> [5; 6]))).2 = [1; 2]%nat ∧
  unsettled (bridge_run (bridge_run new_bridge_client (take 4 bridge_session)).1 ((4, Close) :: ((fun now => (now, Tick)) <$> [5; 6]))).1 = [].
Proof.
  split; [reflexivity|].
  pose proof (close_settles_every_call (take 4 bridge_session) 4 [5; 6] eq_refl (Forall_nil_2 _) ltac:(apply le_n)) as Hc. cbv zeta in Hc.
  destruct (bridge_run (bridge_run new_bridge_client (take 4 bridge_session)).1 _) as [st outs]. exact (proj1 Hc).
Defined.

