(* ===== verification/BanPublish.v ===== *)
(** [apps/api/src/lib/banlist-publish.ts]: the ban list this panel publishes to
    others: which bans of the ledger are listed, with which expiry, and the
    Bans.cfg text that subscribers read (BanAdapters). *)
From S2P Require Import Prelude JsString JsDate JsMap JsJson Collections BanMerge BanAdapters.

(** * Ban lengths *)

Definition BAN_LENGTH_UNIT_MILLISECONDS (unit : Z) : option Z :=
  if unit =? 115 then Some 1000
  else if unit =? 109 then Some 60000
  else if unit =? 104 then Some 3600000
  else if unit =? 100 then Some 86400000
  else if unit =? 119 then Some 604800000
  else if unit =? 77 then Some 2592000000
  else if unit =? 121 then Some 31536000000
  else None.

(** [BAN_LENGTH_PATTERN] of [packages/shared-config/src/ban-length.ts]: digits
    and at most one unit letter. *)
Definition match_ban_length (s : jstr) : option (jstr * option Z) :=
  let '(amount, rest) := span_digits s in
  match amount, rest with
  | [], _ => None
  | _, [] => Some (amount, None)
  | _, [u] => match BAN_LENGTH_UNIT_MILLISECONDS u with Some _ => Some (amount, Some u) | None => None end
  | _, _ => None
  end.

(** The amount is exact below 2^53 and any greater one is past the last date. *)
Definition parseBanLengthToExpiry (banLength : option jstr) (issuedAt : Z) : option Z :=
  match match_ban_length (trim (default [] banLength)) with
  | None => None
  | Some (amount, unit) =>
      let amount := digits_value amount in
      if amount =? 0 then None
      else
        let unitMs := default 86400000 (BAN_LENGTH_UNIT_MILLISECONDS (default 100 unit)) in
        let expiry := issuedAt + amount * unitMs in
        if expiry <=? MAX_TIME then Some expiry else None
  end.

(** * The list *)

Record ModerationBanRow := mkBanRow {
  ban_player : jstr;
  ban_steam : option jstr;
  ban_eos : option jstr;
  ban_nickname : option jstr;
  ban_reason : option jstr;
  banLength : option jstr;
  issuedAt : Z;
  ban_reverted : option Z;
  ban_admin : option jstr;
}.

Record BanlistEntry := mkEntry {
  e_steam : option jstr;
  e_eos : option jstr;
  e_nickname : option jstr;
  e_reason : option jstr;
  e_issued : Z;
  expiresAt : option Z;
  e_admin : option jstr;
}.

Inductive BanlistPublishScope := all_active | permanent_only.

Definition expiry_of (r : ModerationBanRow) : option Z := parseBanLengthToExpiry (banLength r) (issuedAt r).

Definition toEntry (r : ModerationBanRow) : BanlistEntry :=
  mkEntry (ban_steam r) (ban_eos r) (ban_nickname r) (ban_reason r) (issuedAt r) (expiry_of r) (ban_admin r).

Definition is_permanent (e : BanlistEntry) : bool := bool_decide (expiresAt e = None).
Definition unexpired (now : Z) (e : BanlistEntry) : bool :=
  match expiresAt e with None => true | Some t => now <? t end.
Definition in_scope (scope : BanlistPublishScope) (e : BanlistEntry) : bool :=
  match scope with permanent_only => is_permanent e | all_active => true end.

(** [reduce]: the entry with the latest expiry, the first of equals. *)
Definition later (latest entry : BanlistEntry) : BanlistEntry :=
  if default 0 (expiresAt latest) <? default 0 (expiresAt entry) then entry else latest.
Definition choose (candidates : list BanlistEntry) : option BanlistEntry :=
  match candidates with
  | [] => None
  | c :: cs =>
      match List.find is_permanent (c :: cs) with
      | Some e => Some e
      | None => Some (foldl later c cs)
      end
  end.

Definition newest_first (a b : ModerationBanRow) : Z := issuedAt b - issuedAt a.
Definition candidates (scope : BanlistPublishScope) (now : Z) (playerRows : list ModerationBanRow) : list BanlistEntry :=
  jfilter (in_scope scope) (jfilter (unexpired now) (toEntry <$> jsort newest_first playerRows)).

(** The loop over the rows that skips reverted ones. *)
Definition byPlayer (rows : list ModerationBanRow) : list (jstr * list ModerationBanRow) :=
  group_by ban_player (jfilter (fun r => bool_decide (ban_reverted r = None)) rows).

Definition publish_player (scope : BanlistPublishScope) (now : Z) (m : list (jstr * list ModerationBanRow)) (playerId : jstr)
    : option BanlistEntry :=
  choose (candidates scope now (default [] (map_get m playerId))).

Definition buildBanlistEntries (rows : list ModerationBanRow) (scope : BanlistPublishScope) (now : Z) : list BanlistEntry :=
  let m := byPlayer rows in
  omap (publish_player scope now m) (jsort str_cmp (map_keys m)).

(** * The text *)

(** [value.replace(/[\r\n]+/g, ' ')] *)
Fixpoint flatten_newlines (in_run : bool) (s : jstr) : jstr :=
  match s with
  | [] => []
  | c :: s =>
      if (c =? 10) || (c =? 13)
      then if in_run then flatten_newlines true s else 32 :: flatten_newlines true s
      else c :: flatten_newlines false s
  end.

Definition singleLine (value : option jstr) : jstr :=
  match value with None | Some [] => [] | Some s => trim (flatten_newlines false s) end.

Definition format_line (e : BanlistEntry) : option jstr :=
  match e_steam e with
  | None | Some [] => None
  | Some steamId64 =>
      let unixExpiry := match expiresAt e with Some t => t / 1000 | None => 0 end in
      let head := js "Banned:" ++ steamId64 ++ js ":" ++ int_str unixExpiry in
      Some (match singleLine (e_reason e) with [] => head | reason => head ++ js " // " ++ reason end)
  end.

Definition formatSquadBansCfg (entries : list BanlistEntry) : jstr :=
  match omap format_line entries with
  | [] => []
  | lines => join [10] lines ++ [10]
  end.

(** * Which bans are published *)

Definition in_force (scope : BanlistPublishScope) (now : Z) (r : ModerationBanRow) : Prop :=
  ban_reverted r = None ∧ unexpired now (toEntry r) = true ∧ in_scope scope (toEntry r) = true.

(** Expiries in order of length, permanent last. *)
Definition expiry_le (a b : option Z) : Prop :=
  match b with None => True | Some y => match a with None => False | Some x => x ≤ y end end.

(** [e] lasts longest, and is the most recent of those that last as long. *)
Definition longest (l : list BanlistEntry) (e : BanlistEntry) : Prop :=
  e ∈ l ∧ ∀ e', e' ∈ l → expiry_le (expiresAt e') (expiresAt e) ∧ (expiresAt e' = expiresAt e → e_issued e' ≤ e_issued e).

Definition by_issue (a b : BanlistEntry) : Prop := e_issued b ≤ e_issued a.

Lemma candidates_sorted scope now l : StronglySorted by_issue (candidates scope now l).
Proof.
  unfold candidates. do 2 apply StronglySorted_jfilter.
  assert (StronglySorted (cmp_le newest_first) (jsort newest_first l)) as Hs.
  { apply jsort_sorted; unfold cmp_le, newest_first; intros; lia. }
  induction Hs as [|r k Hk IH Hr]; [constructor|]. rewrite fmap_cons. constructor; [done|]. rewrite Forall_fmap.
  eapply Forall_impl; [exact Hr|]. unfold cmp_le, newest_first, by_issue. cbn. intros; lia.
Qed.

Lemma elem_of_candidates scope now l e :
  e ∈ candidates scope now l ↔ ∃ r, r ∈ l ∧ e = toEntry r ∧ unexpired now e = true ∧ in_scope scope e = true.
Proof.
  unfold candidates. rewrite !elem_of_jfilter, list_elem_of_fmap. setoid_rewrite elem_of_jsort. split.
  - intros (? & ? & r & -> & Hr). exists r. auto.
  - intros (r & Hr & -> & ? & ?). split_and!; [done|done|by exists r].
Qed.

Lemma find_permanent l e : StronglySorted by_issue l → List.find is_permanent l = Some e →
  e ∈ l ∧ expiresAt e = None ∧ ∀ e', e' ∈ l → expiresAt e' = None → e_issued e' ≤ e_issued e.
Proof.
  induction 1 as [|x l Hl IH Hx]; [done|]. cbn [List.find]. unfold is_permanent at 1. case_bool_decide as Hp.
  - intros [= <-]. split; [by left|]. split; [done|]. intros e' [->|He]%elem_of_cons _; [lia|].
    rewrite Forall_forall in Hx. by apply Hx.
  - intros Hf. destruct (IH Hf) as (Hin & Hn & Hmax). split; [by right|]. split; [done|].
    intros e' [->|He]%elem_of_cons Hn'; [done|auto].
Qed.

Lemma foldl_later cs c :
  StronglySorted by_issue (c :: cs) → (∀ e, e ∈ c :: cs → is_Some (expiresAt e)) → longest (c :: cs) (foldl later c cs).
Proof.
  intros Hs Hsome.
  enough (∀ seen, (∀ e, e ∈ seen → is_Some (expiresAt e)) → longest seen c → (∀ e e', e ∈ seen → e' ∈ cs → e_issued e' ≤ e_issued e) →
    longest (seen ++ cs) (foldl later c cs)) as H.
  { apply (H [c]); [intros e ->%list_elem_of_singleton; apply Hsome; by left| |].
    - split; [by left|]. intros e' ->%list_elem_of_singleton. split; [|lia]. unfold expiry_le. by destruct (expiresAt c).
    - apply StronglySorted_inv in Hs as [_ Hc]. rewrite Forall_forall in Hc. intros e e' ->%list_elem_of_singleton He. by apply Hc. }
  apply StronglySorted_inv in Hs as [Hs _]. assert (∀ e, e ∈ cs → is_Some (expiresAt e)) as Hcs by (intros; apply Hsome; by right).
  clear Hsome. revert c Hcs. induction Hs as [|d cs Hs IH Hd]; intros c Hcs seen Hseen Hlong Hlast; cbn [foldl]; [by rewrite app_nil_r|].
  change (seen ++ d :: cs) with (seen ++ [d] ++ cs). rewrite app_assoc.
  assert (∀ e, e ∈ seen ++ [d] → is_Some (expiresAt e)) as Hseen'.
  { intros e [He|He%list_elem_of_singleton]%elem_of_app; [by apply Hseen|]. subst. apply Hcs. by left. }
  rewrite Forall_forall in Hd. apply IH; [intros; apply Hcs; by right|exact Hseen'| |].
  - destruct Hlong as [Hin Hmax]. unfold later. pose proof (Hseen c Hin) as [x Hx]. pose proof (Hcs d ltac:(by left)) as [y Hy].
    rewrite Hx, Hy. change (default 0 (Some x)) with x. change (default 0 (Some y)) with y. destruct (x <? y) eqn:E; bool_to_Prop.
    + split; [apply elem_of_app; right; by left|]. rewrite Hy. intros e' [He|He%list_elem_of_singleton]%elem_of_app.
      * destruct (Hmax e' He) as [Hle _]. rewrite Hx in Hle. cbn in *. destruct (expiresAt e') as [z|]; [|done].
        split; [lia|]. intros [= ->]. lia.
      * subst. rewrite Hy. cbn. split; lia.
    + split; [apply elem_of_app; by left|]. rewrite Hx. intros e' [He|He%list_elem_of_singleton]%elem_of_app.
      * rewrite <-Hx. by apply Hmax.
      * subst. rewrite Hy. cbn. split; [lia|]. intros _. apply Hlast; [done|by left].
  - intros e e' [He|He%list_elem_of_singleton]%elem_of_app He'; [apply Hlast; [done|by right]|]. subst. by apply Hd.
Qed.

Lemma choose_longest l : StronglySorted by_issue l →
  match choose l with Some e => longest l e | None => l = [] end.
Proof.
  intros Hs. unfold choose. destruct l as [|c cs]; [done|]. destruct (List.find is_permanent (c :: cs)) as [e|] eqn:Ef.
  - destruct (find_permanent _ _ Hs Ef) as (Hin & Hn & Hmax). split; [done|]. intros e' He. rewrite Hn. split; [done|]. by apply Hmax.
  - apply foldl_later; [done|]. intros e He. pose proof (List.find_none _ _ Ef e) as Hf.
    specialize (Hf (proj1 (list_elem_of_In _ _) He)). unfold is_permanent in Hf. bool_to_Prop. by destruct (expiresAt e).
Qed.

Lemma player_rows rows p r :
  r ∈ default [] (map_get (byPlayer rows) p) ↔ r ∈ rows ∧ ban_player r = p ∧ ban_reverted r = None.
Proof. unfold byPlayer. rewrite group_by_get, !elem_of_jfilter, !bool_decide_eq_true. tauto. Qed.

Lemma publish_player_best rows scope now p :
  match publish_player scope now (byPlayer rows) p with
  | Some e => ∃ r, r ∈ rows ∧ ban_player r = p ∧ in_force scope now r ∧ e = toEntry r ∧
      ∀ r', r' ∈ rows → ban_player r' = p → in_force scope now r' →
        expiry_le (expiry_of r') (expiry_of r) ∧ (expiry_of r' = expiry_of r → issuedAt r' ≤ issuedAt r)
  | None => ∀ r, r ∈ rows → ban_player r = p → ¬ in_force scope now r
  end.
Proof.
  unfold publish_player. set (l := default [] _). pose proof (choose_longest _ (candidates_sorted scope now l)) as Hc.
  assert (∀ r, r ∈ rows → ban_player r = p → in_force scope now r → toEntry r ∈ candidates scope now l) as Hin.
  { intros r Hr Hp (Hrev & Hu & Hs). apply elem_of_candidates. exists r. split_and!; [by apply player_rows|done..]. }
  destruct (choose _) as [e|].
  - destruct Hc as [He Hmax]. apply elem_of_candidates in He as (r & Hr & -> & Hu & Hs). apply player_rows in Hr as (Hr & Hp & Hrev).
    exists r. split_and!; [done..|]. intros r' Hr' Hp' Hf'. apply (Hmax (toEntry r')). by apply Hin.
  - intros r Hr Hp Hf. specialize (Hin r Hr Hp Hf). rewrite Hc in Hin. by apply not_elem_of_nil in Hin.
Qed.

Lemma Forall2_omap {A B} (f : A → option B) (P : A → B → Prop) l :
  (∀ x y, f x = Some y → P x y) → Forall2 P (jfilter (fun x => bool_decide (is_Some (f x))) l) (omap f l).
Proof.
  intros Hf. unfold jfilter. induction l as [|x l IH]; [constructor|]. cbn [List.filter omap list_omap].
  destruct (f x) as [y|] eqn:E; [|exact IH]. cbn. constructor; [by apply Hf|exact IH].
Qed.

(** The published list has exactly one entry for every player with a ban in
    force (not reverted, not expired, permanent if only those are asked for),
    in the order of the player ids; the entry is that of the ban that lasts
    longest, and among equals of the most recent. *)
Theorem buildBanlistEntries_exact rows scope now :
  ∃ ps, StronglySorted (fun a b => str_lt a b = true) ps ∧
    (∀ p, p ∈ ps ↔ ∃ r, r ∈ rows ∧ ban_player r = p ∧ in_force scope now r) ∧
    Forall2 (fun p e => ∃ r, r ∈ rows ∧ ban_player r = p ∧ in_force scope now r ∧ e = toEntry r ∧
      ∀ r', r' ∈ rows → ban_player r' = p → in_force scope now r' →
        expiry_le (expiry_of r') (expiry_of r) ∧ (expiry_of r' = expiry_of r → issuedAt r' ≤ issuedAt r))
      ps (buildBanlistEntries rows scope now).
Proof.
  exists (jfilter (fun p => bool_decide (is_Some (publish_player scope now (byPlayer rows) p))) (jsort str_cmp (map_keys (byPlayer rows)))).
  split; [|split].
  - apply StronglySorted_jfilter. eapply StronglySorted_impl; [|apply StronglySorted_strict; [|apply (jsort_sorted str_cmp str_cmp_total str_cmp_trans)]].
    + intros a b [Hle Hne]. unfold cmp_le in Hle. apply str_cmp_le in Hle. destruct (str_lt a b) eqn:E; [done|].
      by destruct (Hne (str_lt_total _ _ E Hle)).
    + rewrite jsort_perm. apply group_by_ok.
  - intros p. rewrite elem_of_jfilter, bool_decide_eq_true, elem_of_jsort. unfold byPlayer at 2. rewrite group_by_keys.
    pose proof (publish_player_best rows scope now p) as Hb. split.
    + intros [[e He] _]. rewrite He in Hb. destruct Hb as (r & Hr & Hp & Hf & _). by exists r.
    + intros (r & Hr & Hp & Hf). split.
      * destruct (publish_player _ _ _ _); [by eexists|]. by destruct (Hb r Hr Hp).
      * exists r. split; [|done]. apply elem_of_jfilter. split; [apply bool_decide_eq_true, Hf|done].
  - apply Forall2_omap. intros p e He. pose proof (publish_player_best rows scope now p) as Hb. by rewrite He in Hb.
Qed.

(** * What subscribers read *)

(** An entry a subscriber can be told about: a SteamID64, a date, and a reason
    without the two Unicode line terminators. *)
Definition publishable (e : BanlistEntry) : Prop :=
  match e_steam e with Some s => length s = 17%nat ∧ forallb is_digit s = true | None => True end ∧
  match expiresAt e with Some t => 0 ≤ t ≤ MAX_TIME | None => True end ∧
  match e_reason e with Some r => 0x2028 ∉ r ∧ 0x2029 ∉ r | None => True end.

(** The ban the text stands for; expiries are told to the second. *)
Definition told (e : BanlistEntry) : option CfgBan :=
  match e_steam e with
  | Some s => Some (mkCfgBan s (match expiresAt e with Some t => t / 1000 | None => 0 end) (or_null (singleLine (e_reason e))))
  | None => None
  end.

Lemma elem_of_flatten_newlines c b s : c ∈ flatten_newlines b s → c = 32 ∨ (c ∈ s ∧ c ≠ 10 ∧ c ≠ 13).
Proof.
  revert b. induction s as [|x s IH]; intros b; cbn [flatten_newlines]; [by intros ?%not_elem_of_nil|].
  destruct ((x =? 10) || (x =? 13)) eqn:E; [destruct b|]; bool_to_Prop.
  - intros Hc. destruct (IH _ Hc) as [?|(? & ? & ?)]; [by left|]. right. split_and!; [by right|done..].
  - intros [->|Hc]%elem_of_cons; [by left|]. destruct (IH _ Hc) as [?|(? & ? & ?)]; [by left|]. right. split_and!; [by right|done..].
  - intros [->|Hc]%elem_of_cons; [right; split_and!; [by left|done|done]|]. destruct (IH _ Hc) as [?|(? & ? & ?)]; [by left|].
    right. split_and!; [by right|done..].
Qed.

Lemma trim_start_cases s : trim_start s = [] ∨ ∃ c t, trim_start s = c :: t ∧ is_space c = false.
Proof.
  induction s as [|c s IH]; cbn [trim_start]; [by left|]. destruct (is_space c) eqn:E; [exact IH|]. right. by exists c, s.
Qed.

Lemma trim_solid s : trim s = [] ∨ solid_ends (trim s).
Proof.
  unfold trim, trim_end. destruct (trim_start_cases s) as [->|(c & t & -> & Hc)]; [by left|].
  destruct (trim_start_suffix (reverse (c :: t))) as [p Hp].
  destruct (trim_start_cases (reverse (c :: t))) as [->|(d & w & Hv & Hd)]; [by left|]. right. rewrite Hv in *.
  assert (c :: t = reverse (d :: w) ++ reverse p) as Hu by (rewrite <-reverse_app, <-Hp; by rewrite reverse_involutive).
  unfold solid_ends. rewrite reverse_cons, last_snoc. rewrite reverse_cons in Hu.
  destruct (reverse w ++ [d]) as [|x l] eqn:E; [by destruct (reverse w)|]. cbn in Hu |- *. injection Hu as -> _. done.
Qed.

Lemma singleLine_ok r : match r with Some r => 0x2028 ∉ r ∧ 0x2029 ∉ r | None => True end →
  match or_null (singleLine r) with Some r => solid_ends r ∧ existsb is_terminator r = false | None => True end.
Proof.
  intros Hr. destruct (singleLine r) as [|c l] eqn:E; [done|]. cbn [or_null]. rewrite <-E.
  destruct r as [[|x r]|]; [done| |done]. cbn [singleLine] in *. set (s := flatten_newlines false (x :: r)) in *.
  split; [destruct (trim_solid s) as [Ht|]; [congruence|done]|].
  apply not_true_iff_false. intros (y & Hy & Ht)%existsb_exists. apply list_elem_of_In in Hy.
  assert (y ∈ s) as Hs by (destruct (trim_infix s) as (p & q & Hq); rewrite Hq; set_solver).
  apply elem_of_flatten_newlines in Hs. unfold is_terminator in Ht. destruct Hr. repeat (bool_to_Prop; destruct Ht as [Ht|Ht]);
    bool_to_Prop; destruct Hs as [->|(Hs & ? & ?)]; subst; try done; try lia.
Qed.

Lemma told_ok e b : publishable e → told e = Some b → cfg_ban_ok b.
Proof.
  intros (Hs & Ht & Hr). unfold told. destruct (e_steam e) as [s|]; [|done]. intros [= <-]. unfold cfg_ban_ok. cbn.
  destruct Hs as [Hl Hd]. split_and!; [done|done| | |by apply singleLine_ok].
  - destruct (expiresAt e) as [t|]; [|done]. assert (0 ≤ t / 1000) by (apply Z.div_pos; lia). lia.
  - destruct (expiresAt e) as [t|]; [|done]. pose proof (Z.mul_div_le t 1000 ltac:(lia)). lia.
Qed.

Lemma format_line_told e : publishable e → format_line e = render_ban <$> told e.
Proof.
  intros (Hs & Ht & _). unfold format_line, told. destruct (e_steam e) as [[|c s]|]; [by destruct Hs| |done]. cbn [fmap option_fmap option_map].
  f_equal. unfold render_ban. cbn [b_steam b_expiry b_reason].
  assert (∀ n, 0 ≤ n → int_str n = nat_str n) as Hn by (intros n Hn; unfold int_str; by rewrite (proj2 (Z.ltb_ge _ _) Hn)).
  rewrite Hn by (destruct (expiresAt e) as [t|]; [apply Z.div_pos; lia|lia]).
  destruct (singleLine (e_reason e)); cbn [or_null]; rewrite <-?app_assoc, ?app_nil_r; done.
Qed.

Lemma join_lines (ls : list jstr) : ls ≠ [] → join [10] ls ++ [10] = write_lines [10] ls.
Proof.
  intros Hne. unfold write_lines. induction ls as [|l ls IH]; [done|]. destruct ls as [|l' ls]; [cbn; by rewrite app_nil_r|].
  change (join [10] (l :: l' :: ls)) with (l ++ [10] ++ join [10] (l' :: ls)). rewrite fmap_cons. cbn [concat].
  rewrite <-(IH ltac:(done)), <-!app_assoc. done.
Qed.

(** A subscriber reads the published text back as exactly the bans that
    were published: every entry with a SteamID64, in order, with its expiry to
    the second and its reason on one line, and nothing is skipped. *)
Theorem published_list_reads_back entries :
  Forall publishable entries →
  parseSquadBansCfg (formatSquadBansCfg entries) = mkParsed (cfg_record <$> omap told entries) 0.
Proof.
  intros Hok. unfold formatSquadBansCfg.
  assert (omap format_line entries = render_ban <$> omap told entries) as ->.
  { induction Hok as [|e es He Hes IH]; [done|]. cbn [omap list_omap]. rewrite (format_line_told e He).
    destruct (told e); cbn; by rewrite IH. }
  assert (Forall cfg_ban_ok (omap told entries)) as Hb.
  { apply Forall_forall. intros b (e & He & Ht)%list_elem_of_omap. rewrite Forall_forall in Hok. by apply (told_ok e); [apply Hok|]. }
  destruct (omap told entries) as [|b bs] eqn:E; [done|]. rewrite fmap_cons.
  rewrite join_lines by done. rewrite <-fmap_cons. apply bans_cfg_reads_back; [by left|done].
Qed.

(** A reason with a Unicode line separator loses the ban: the subscriber's
    pattern does not match the line, which it counts as skipped. *)
Theorem separator_loses_ban :
  let e := mkEntry (Some (js "76561198000000001")) None None (Some [0x41; 0x2028; 0x42]) 0 None None in
  parseSquadBansCfg (formatSquadBansCfg [e]) = mkParsed [] 1.
Proof. vm_compute. reflexivity. Qed.

(** Bans issued at the same moment with the same expiry are not told apart: the
    row order decides which reason is published. *)
Theorem ties_follow_row_order :
  let r reason := mkBanRow (js "a") (Some (js "76561198000000001")) None None (Some reason) (Some (js "0")) 5 None None in
  formatSquadBansCfg (buildBanlistEntries [r (js "x"); r (js "y")] all_active 10) ≠
  formatSquadBansCfg (buildBanlistEntries [r (js "y"); r (js "x")] all_active 10).
Proof. vm_compute. discriminate. Qed.

(** * Example *)

Definition ex_row (p : jstr) (steam : jstr) (len : jstr) (t : Z) (rev : option Z) : ModerationBanRow :=
  mkBanRow p (Some steam) None None (Some (js "tk" ++ [10; 13] ++ js "again ")) (Some len) t rev None.
Definition ex_rows : list ModerationBanRow :=
  [ex_row (js "b") (js "76561198000000002") (js "2") 1000000 None;
   ex_row (js "a") (js "76561198000000001") (js "1h") 1000000 None;
   ex_row (js "b") (js "76561198000000002") (js "0") 500000 None;
   ex_row (js "a") (js "76561198000000001") (js "1d") 999000 None;
   ex_row (js "c") (js "76561198000000003") (js "0") 500000 (Some 600000);
   ex_row (js "d") (js "76561198000000004") (js "5s") 500000 None].

Example ex_published :
  (fun e => (e_steam e, expiresAt e)) <$> buildBanlistEntries ex_rows all_active 2000000 =
  [(Some (js "76561198000000001"), Some 87399000); (Some (js "76561198000000002"), None)].
Proof. vm_compute. reflexivity. Qed.

Lemma published_list_reads_back_witness :
  parseSquadBansCfg (formatSquadBansCfg (buildBanlistEntries ex_rows all_active 2000000)) =
  mkParsed (cfg_record <$> [mkCfgBan (js "76561198000000001") 87399 (Some (js "tk again")); mkCfgBan (js "76561198000000002") 0 (Some (js "tk again"))]) 0.
Proof.
  set (es := buildBanlistEntries ex_rows all_active 2000000).
  assert (Forall publishable es) as Hok.
  { assert (es = [mkEntry (Some (js "76561198000000001")) None None (Some (js "tk" ++ [10; 13] ++ js "again ")) 999000 (Some 87399000) None;
                  mkEntry (Some (js "76561198000000002")) None None (Some (js "tk" ++ [10; 13] ++ js "again ")) 500000 None None]) as -> by (vm_compute; reflexivity).
    repeat constructor; try (cbn; unfold MAX_TIME; lia); intros Hin; vm_compute in Hin;
      repeat (apply elem_of_cons in Hin as [Hin|Hin]; [discriminate|]); by apply not_elem_of_nil in Hin. }
  pose proof (published_list_reads_back es Hok) as Hr. etrans; [exact Hr|]. vm_compute. reflexivity.
Defined.
