(* ===== verification/OperatorCommand.v ===== *)
(** [packages/shared-types/src/rcon-commands.ts] and [buildOperatorCommand] of
    [apps/workers/rcon/src/commands.ts]: which RCON commands the panel may send
    to a game server, and the line each request becomes. *)
From S2P Require Import Prelude JsString JsMap JsJson BanAdapters BanPublish.

(** * Requests *)

Inductive RconOperatorCommandName :=
| AdminBan | AdminBroadcast | AdminChangeLayer | AdminEndMatch | AdminKick
| AdminReloadServerConfig | AdminSetNextLayer | AdminWarn.
#[export] Instance RconOperatorCommandName_eq_dec : EqDecision RconOperatorCommandName.
Proof. solve_decision. Defined.

Definition RCON_OPERATOR_COMMANDS : list RconOperatorCommandName :=
  [AdminBan; AdminBroadcast; AdminChangeLayer; AdminEndMatch; AdminKick; AdminReloadServerConfig; AdminSetNextLayer; AdminWarn].

Definition command_text (c : RconOperatorCommandName) : jstr :=
  match c with
  | AdminBan => js "AdminBan"
  | AdminBroadcast => js "AdminBroadcast"
  | AdminChangeLayer => js "AdminChangeLayer"
  | AdminEndMatch => js "AdminEndMatch"
  | AdminKick => js "AdminKick"
  | AdminReloadServerConfig => js "AdminReloadServerConfig"
  | AdminSetNextLayer => js "AdminSetNextLayer"
  | AdminWarn => js "AdminWarn"
  end.

Definition RCON_OPERATOR_COMMAND_ARG_COUNTS (c : RconOperatorCommandName) : nat :=
  match c with
  | AdminBan => 3
  | AdminBroadcast | AdminChangeLayer | AdminSetNextLayer => 1
  | AdminEndMatch | AdminReloadServerConfig => 0
  | AdminKick | AdminWarn => 2
  end.

Definition RCON_ARG_MAX_LENGTH : nat := 1024.
Definition RCON_ARGS_MAX_COUNT : nat := 8.

Definition command_of_text (s : jstr) : option RconOperatorCommandName :=
  List.find (fun c => bool_decide (command_text c = s)) RCON_OPERATOR_COMMANDS.

Definition rconOperatorCommandNameSchema (v : option json) : option RconOperatorCommandName :=
  match v with Some (JStr s) => command_of_text s | _ => None end.

Record RconCommandRequest := mkCommandRequest {
  request_id : jstr;
  command : RconOperatorCommandName;
  args : list jstr;
  actor_player_id : option (option jstr);
  enqueued_at : option jstr;
}.

(** zod's test of a timestamp and its text of a refusal. *)
Class CommandEnv := {
  is_datetime : jstr → bool;
  issues_of : json → jstr;
}.

Section Commands.
Context `{CommandEnv}.

(** [z.string().min(lo).max(hi)] *)
Definition string_between (lo hi : nat) (v : json) : option jstr :=
  match v with
  | JStr s => if (lo <=? length s)%nat && (length s <=? hi)%nat then Some s else None
  | _ => None
  end.

Definition args_schema (v : option json) : option (list jstr) :=
  match v with
  | None => Some []
  | Some (JArr l) => if (length l <=? RCON_ARGS_MAX_COUNT)%nat then mapM (string_between 0 RCON_ARG_MAX_LENGTH) l else None
  | Some _ => None
  end.

Definition actor_schema (v : option json) : option (option (option jstr)) :=
  match v with
  | None => Some None
  | Some JNull => Some (Some None)
  | Some v => (fun s => Some (Some s)) <$> string_between 1 64 v
  end.

Definition datetime_schema (v : option json) : option (option jstr) :=
  match v with
  | None => Some None
  | Some (JStr s) => if is_datetime s then Some (Some s) else None
  | Some _ => None
  end.

Definition request_keys : list jstr :=
  [js "request_id"; js "command"; js "args"; js "actor_player_id"; js "enqueued_at"].

Definition rconCommandRequestSchema (input : json) : option RconCommandRequest :=
  match input with
  | JObj fs =>
      id ← map_get fs (js "request_id") ≫= string_between 1 128;
      command ← rconOperatorCommandNameSchema (map_get fs (js "command"));
      args ← args_schema (map_get fs (js "args"));
      actor ← actor_schema (map_get fs (js "actor_player_id"));
      at_ ← datetime_schema (map_get fs (js "enqueued_at"));
      if forallb (fun k => bool_decide (k ∈ request_keys)) (map_keys fs)
      then Some (mkCommandRequest id command args actor at_) else None
  | _ => None
  end.

(** * Checks of the arguments *)

Definition BROADCAST_MAX_CHARS : nat := 300.
Definition TARGET_MAX_CHARS : nat := 64.
Definition LAYER_NAME_MAX_CHARS : nat := 128.

Definition is_alnum (c : Z) : bool :=
  ((65 <=? c) && (c <=? 90)) || ((97 <=? c) && (c <=? 122)) || is_digit c.
Definition is_layer_char (c : Z) : bool := is_alnum c || bool_decide (c ∈ [32; 39; 95; 46; 45]).
Definition LAYER_NAME_PATTERN (s : jstr) : bool :=
  (1 <=? length s)%nat && (length s <=? 128)%nat && forallb is_layer_char s.
Definition BAN_LENGTH_PATTERN (s : jstr) : bool := bool_decide (is_Some (match_ban_length s)).
(** [/[\r\n\0]/u] *)
Definition is_line_break (c : Z) : bool := bool_decide (c ∈ [13; 10; 0]).

(** A missing argument is [undefined]; the optional chain leaves it so. *)
Definition trimmed (value : option jstr) : jstr := match value with Some v => trim v | None => [] end.

Definition assertSafeSingleLineText (value : option jstr) (label : jstr) (maxChars : nat) : result jstr jstr :=
  let text := trimmed value in
  if bool_decide (text = []) then Throw (label ++ js " is required")
  else if (maxChars <? length text)%nat then Throw (label ++ js " exceeds " ++ nat_str (Z.of_nat maxChars) ++ js " characters")
  else if existsb is_line_break text then Throw (js "unsafe " ++ label)
  else Ok text.

Definition assertSafeTarget (value : option jstr) (label : jstr) : result jstr jstr :=
  let! text := assertSafeSingleLineText value label TARGET_MAX_CHARS in
  if existsb is_space text then Throw (label ++ js " must not contain whitespace") else Ok text.

Definition assertValidBanLength (value : option jstr) : result jstr jstr :=
  let text := trimmed value in
  if bool_decide (text = []) then Throw (js "AdminBan length is required")
  else if negb (BAN_LENGTH_PATTERN text) then Throw (js "invalid AdminBan length: " ++ text)
  else Ok text.

Definition validateLayerName (args : list jstr) : result jstr jstr :=
  if negb (bool_decide (length args = 1%nat))
  then Throw (js "AdminChangeLayer/AdminSetNextLayer expects exactly one layer argument")
  else
    let! text := assertSafeSingleLineText (args !! 0%nat) (js "layer name") LAYER_NAME_MAX_CHARS in
    if negb (LAYER_NAME_PATTERN text) then Throw (js "unsafe layer name") else Ok text.

Definition validateBroadcastText (args : list jstr) : result jstr jstr :=
  if negb (bool_decide (length args = 1%nat)) then Throw (js "AdminBroadcast expects exactly one message argument")
  else assertSafeSingleLineText (args !! 0%nat) (js "AdminBroadcast message") BROADCAST_MAX_CHARS.

Definition buildAdminWarnCommand (args : list jstr) : result jstr jstr :=
  if negb (bool_decide (length args = 2%nat)) then Throw (js "AdminWarn expects exactly two arguments: target id and message")
  else
    let! target := assertSafeTarget (args !! 0%nat) (js "AdminWarn target") in
    let! message := assertSafeSingleLineText (args !! 1%nat) (js "AdminWarn message") BROADCAST_MAX_CHARS in
    Ok (js "AdminWarn " ++ target ++ js " " ++ message).

Definition buildAdminKickCommand (args : list jstr) : result jstr jstr :=
  if negb (bool_decide (length args = 2%nat)) then Throw (js "AdminKick expects exactly two arguments: target id and reason")
  else
    let! target := assertSafeTarget (args !! 0%nat) (js "AdminKick target") in
    let! reason := assertSafeSingleLineText (args !! 1%nat) (js "AdminKick reason") BROADCAST_MAX_CHARS in
    Ok (js "AdminKick " ++ target ++ js " " ++ reason).

Definition buildAdminBanCommand (args : list jstr) : result jstr jstr :=
  if negb (bool_decide (length args = 3%nat)) then Throw (js "AdminBan expects exactly three arguments: target id, ban length and reason")
  else
    let! target := assertSafeTarget (args !! 0%nat) (js "AdminBan target") in
    let! banLength := assertValidBanLength (args !! 1%nat) in
    let! reason := assertSafeSingleLineText (args !! 2%nat) (js "AdminBan reason") BROADCAST_MAX_CHARS in
    Ok (js "AdminBan " ++ target ++ js " " ++ banLength ++ js " " ++ reason).

Definition ensureNoArgs (r : RconCommandRequest) : result jstr unit :=
  if (0 <? length (args r))%nat then Throw (command_text (command r) ++ js " does not accept arguments") else Ok tt.

Definition buildOperatorCommand (input : json) : result jstr jstr :=
  match rconCommandRequestSchema input with
  | None => Throw (js "unsupported or invalid rcon operator command: " ++ issues_of input)
  | Some request =>
      match command request with
      | AdminBroadcast => let! text := validateBroadcastText (args request) in Ok (js "AdminBroadcast " ++ text)
      | AdminChangeLayer => let! name := validateLayerName (args request) in Ok (js "AdminChangeLayer " ++ name)
      | AdminEndMatch => let! _ := ensureNoArgs request in Ok (js "AdminEndMatch")
      | AdminReloadServerConfig => let! _ := ensureNoArgs request in Ok (js "AdminReloadServerConfig")
      | AdminSetNextLayer => let! name := validateLayerName (args request) in Ok (js "AdminSetNextLayer " ++ name)
      | AdminWarn => buildAdminWarnCommand (args request)
      | AdminKick => buildAdminKickCommand (args request)
      | AdminBan => buildAdminBanCommand (args request)
      end
  end.

(** [isRecord(value)], [requestIdOf], [commandNameOf]; arrays have none of
    the fields. *)
Definition record_field (v : json) (k : jstr) : option json :=
  match v with JObj fs => map_get fs k | _ => None end.
Definition requestIdOf (v : json) : option jstr :=
  match record_field v (js "request_id") with
  | Some (JStr s) => if bool_decide (s = []) then None else Some s
  | _ => None
  end.
Definition commandNameOf (v : json) : option RconOperatorCommandName :=
  rconOperatorCommandNameSchema (record_field v (js "command")).
End Commands.

(** * What may be sent *)

(** The arguments of each command, in order. *)
Inductive arg_kind := Target | BanLength | Text | Layer.
Definition signature (c : RconOperatorCommandName) : list arg_kind :=
  match c with
  | AdminBan => [Target; BanLength; Text]
  | AdminKick | AdminWarn => [Target; Text]
  | AdminBroadcast => [Text]
  | AdminChangeLayer | AdminSetNextLayer => [Layer]
  | AdminEndMatch | AdminReloadServerConfig => []
  end.

Definition safe_text (n : nat) (t : jstr) : Prop :=
  t ≠ [] ∧ (length t ≤ n)%nat ∧ existsb is_line_break t = false.
Definition arg_ok (k : arg_kind) (t : jstr) : Prop :=
  match k with
  | Target => safe_text 64 t ∧ existsb is_space t = false
  | BanLength => is_Some (match_ban_length t)
  | Text => safe_text 300 t
  | Layer => safe_text 128 t ∧ forallb is_layer_char t = true
  end.

(** How the game server takes a line apart: the command's name, then the target
    and the ban length as one word each, then the rest. *)
Fixpoint read_args (n : nat) (s : jstr) : option (list jstr) :=
  match n with
  | O => None
  | S O => Some [s]
  | S n => ab ← cut_at 32 s; cons ab.1 <$> read_args n ab.2
  end.
Definition read_operator_command (line : jstr) : option (RconOperatorCommandName * list jstr) :=
  match cut_at 32 line with
  | None => c ← command_of_text line; if (RCON_OPERATOR_COMMAND_ARG_COUNTS c =? 0)%nat then Some (c, []) else None
  | Some (name, rest) => c ← command_of_text name; pair c <$> read_args (RCON_OPERATOR_COMMAND_ARG_COUNTS c) rest
  end.

Lemma assertSafeSingleLineText_spec v label n t :
  assertSafeSingleLineText (Some v) label n = Ok t ↔ t = trim v ∧ safe_text n t.
Proof.
  unfold assertSafeSingleLineText, safe_text, trimmed. 
  case_bool_decide as Hn; [split; [done|intros (-> & ? & _); done]|].
  destruct (Nat.ltb_spec n (length (trim v))); [split; [done|intros (-> & _ & ? & _); lia]|].
  destruct (existsb is_line_break (trim v)) eqn:E; [split; [done|intros (-> & _ & _ & ?); congruence]|].
  split; [intros [= <-]; by split_and!|intros [-> _]; done].
Qed.

Lemma assertSafeTarget_spec v label t : assertSafeTarget (Some v) label = Ok t ↔ t = trim v ∧ arg_ok Target t.
Proof.
  unfold assertSafeTarget, TARGET_MAX_CHARS. cbn [arg_ok].
  destruct (assertSafeSingleLineText (Some v) label 64) as [u|e] eqn:E; cbn [result_bind].
  - apply assertSafeSingleLineText_spec in E as [-> ?]. destruct (existsb is_space (trim v)) eqn:Es.
    + split; [done|intros (-> & _ & ?); congruence].
    + split; [intros [= <-]; done|intros [-> _]; done].
  - split; [done|]. intros [-> [Hs _]]. 
    assert (assertSafeSingleLineText (Some v) label 64 = Ok (trim v)) by by apply assertSafeSingleLineText_spec. congruence.
Qed.

Lemma assertValidBanLength_spec v t : assertValidBanLength (Some v) = Ok t ↔ t = trim v ∧ arg_ok BanLength t.
Proof.
  unfold assertValidBanLength, trimmed, BAN_LENGTH_PATTERN. cbn [arg_ok].
  case_bool_decide as Hn; [rewrite Hn; split; [done|]; intros [-> [? ?]]; done|].
  case_bool_decide as Hm; cbn [negb]; (split; [intros [=]; subst; try done|intros [-> ?]; done]).
Qed.

Lemma validateLayerName_spec v t : validateLayerName [v] = Ok t ↔ t = trim v ∧ arg_ok Layer t.
Proof.
  unfold validateLayerName, LAYER_NAME_MAX_CHARS, LAYER_NAME_PATTERN. cbn [length bool_decide lookup list_lookup arg_ok]. rewrite bool_decide_eq_true_2 by done. cbn [negb].
  destruct (assertSafeSingleLineText (Some v) (js "layer name") 128) as [u|e] eqn:E; cbn [result_bind].
  - apply assertSafeSingleLineText_spec in E as [-> (Hn & Hl & Hb)].
    rewrite (proj2 (Nat.leb_le 1 (length (trim v)))) by (destruct (trim v); [done|cbn; lia]).
    rewrite (proj2 (Nat.leb_le _ 128)) by done. cbn [andb]. unfold safe_text.
    destruct (forallb is_layer_char (trim v)) eqn:Ef; cbn [negb].
    + split; [intros [= <-]; by split_and!|intros [-> _]; done].
    + split; [done|intros (-> & _ & ?); congruence].
  - split; [done|]. intros [-> [Hs _]]. 
    assert (assertSafeSingleLineText (Some v) (js "layer name") 128 = Ok (trim v)) by by apply assertSafeSingleLineText_spec. congruence.
Qed.

Lemma Ok_bind {E A B} (r : result E A) (f : A → result E B) b : result_bind r f = Ok b ↔ ∃ a, r = Ok a ∧ f a = Ok b.
Proof. destruct r as [x|]; cbn; [|by split; [|intros (? & ? & ?)]]. split; [by exists x|]. by intros (? & [= <-] & ?). Qed.

(** The builders in one form: the right number of arguments, each trimmed one
    of its kind, written after the name. *)
Definition line_of (c : RconOperatorCommandName) (texts : list jstr) : jstr := join [32] (command_text c :: texts).
Definition accepts (r : RconCommandRequest) (cmd : jstr) : Prop :=
  Forall2 arg_ok (signature (command r)) (trim <$> args r) ∧ cmd = line_of (command r) (trim <$> args r).

Lemma Forall2_1 {A B} (P : A → B → Prop) a l : Forall2 P [a] l ↔ ∃ x, l = [x] ∧ P a x.
Proof. split; [intros (x & k & ? & ->%Forall2_nil_inv_l & ->)%Forall2_cons_inv_l; eauto|intros (x & -> & ?); by repeat constructor]. Qed.
Lemma Forall2_S {A B} (P : A → B → Prop) a l k : Forall2 P (a :: l) k ↔ ∃ x k', k = x :: k' ∧ P a x ∧ Forall2 P l k'.
Proof. split; [intros (x & k' & ? & ? & ->)%Forall2_cons_inv_l; eauto|intros (x & k' & -> & ? & ?); by constructor]. Qed.

Lemma build_text_1 label n (w : jstr) l cmd :
  (let! text := (if negb (bool_decide (length l = 1%nat)) then Throw label
                 else assertSafeSingleLineText (l !! 0%nat) n 300) in Ok (w ++ text)) = Ok cmd ↔
  Forall2 arg_ok [Text] (trim <$> l) ∧ ∃ t, trim <$> l = [t] ∧ cmd = w ++ t.
Proof.
  rewrite Ok_bind. case_bool_decide as Hl; cbn [negb].
  - destruct l as [|v [|]]; try done. cbn [fmap list_fmap lookup list_lookup]. setoid_rewrite assertSafeSingleLineText_spec.
    rewrite Forall2_1. split.
    + intros (t & [-> Ht] & [= <-]). split; eauto.
    + intros [(x & [= <-] & Hx) (t & [= <-] & ->)]. eauto.
  - split; [by intros (? & ? & ?)|]. intros [(x & Hx & _)%Forall2_1 _]. apply (f_equal length) in Hx. by rewrite length_fmap in Hx.
Qed.

Lemma build_layer_1 (w : jstr) l cmd :
  (let! text := validateLayerName l in Ok (w ++ text)) = Ok cmd ↔
  Forall2 arg_ok [Layer] (trim <$> l) ∧ ∃ t, trim <$> l = [t] ∧ cmd = w ++ t.
Proof.
  rewrite Ok_bind. destruct l as [|v [|]].
  1,3: split; [by intros (? & ? & ?)|intros [(x & [=] & _)%Forall2_1 _]].
  cbn [fmap list_fmap]. setoid_rewrite validateLayerName_spec. rewrite Forall2_1. split.
  - intros (t & [-> Ht] & [= <-]). eauto 6.
  - intros [(x & [= <-] & Hx) (t & [= <-] & ->)]. eauto.
Qed.

Lemma build_target_text e lt lm (w : jstr) l cmd :
  (if negb (bool_decide (length l = 2%nat)) then Throw e
   else
    let! target := assertSafeTarget (l !! 0%nat) lt in
    let! message := assertSafeSingleLineText (l !! 1%nat) lm 300 in
    Ok (w ++ target ++ js " " ++ message)) = Ok cmd ↔
  Forall2 arg_ok [Target; Text] (trim <$> l) ∧ ∃ t m, trim <$> l = [t; m] ∧ cmd = w ++ t ++ js " " ++ m.
Proof.
  case_bool_decide as Hl; cbn [negb].
  - destruct l as [|a [|b [|]]]; try done. cbn [fmap list_fmap lookup list_lookup]. split.
    + intros (t & [-> Ht]%assertSafeTarget_spec & (m & [-> Hm]%assertSafeSingleLineText_spec & [= <-])%Ok_bind)%Ok_bind.
      split; [apply Forall2_S; eexists _, _; rewrite Forall2_1; eauto|eauto].
    + intros [(x & k & [= <- <-] & Hx & (y & [= <-] & Hy)%Forall2_1)%Forall2_S (t & m & [= <- <-] & ->)].
      apply Ok_bind. exists (trim a). split; [by apply assertSafeTarget_spec|].
      apply Ok_bind. exists (trim b). split; [by apply assertSafeSingleLineText_spec|done].
  - split; [done|]. intros [Hf _]. apply Forall2_length in Hf. by rewrite length_fmap in Hf.
Qed.

Lemma build_ban l cmd :
  buildAdminBanCommand l = Ok cmd ↔
  Forall2 arg_ok [Target; BanLength; Text] (trim <$> l) ∧
  ∃ t b m, trim <$> l = [t; b; m] ∧ cmd = js "AdminBan " ++ t ++ js " " ++ b ++ js " " ++ m.
Proof.
  unfold buildAdminBanCommand. case_bool_decide as Hl; cbn [negb].
  - destruct l as [|x [|y [|z [|]]]]; try done. cbn [fmap list_fmap lookup list_lookup]. split.
    + intros (t & [-> Ht]%assertSafeTarget_spec & (b & [-> Hb]%assertValidBanLength_spec &
        (m & [-> Hm]%assertSafeSingleLineText_spec & [= <-])%Ok_bind)%Ok_bind)%Ok_bind.
      split; [apply Forall2_S; eexists _, _; rewrite Forall2_S; setoid_rewrite Forall2_1; eauto 10|eauto 8].
    + intros [(? & k & [= <- <-] & Hx & (? & k2 & [= <- <-] & Hy & (? & [= <-] & Hz)%Forall2_1)%Forall2_S)%Forall2_S (t & b & m & [= <- <- <-] & ->)].
      apply Ok_bind. exists (trim x). split; [by apply assertSafeTarget_spec|].
      apply Ok_bind. exists (trim y). split; [by apply assertValidBanLength_spec|].
      apply Ok_bind. exists (trim z). split; [by apply assertSafeSingleLineText_spec|done].
  - split; [done|]. intros [Hf _]. apply Forall2_length in Hf. by rewrite length_fmap in Hf.
Qed.

Lemma build_no_args r (w : jstr) cmd :
  (let! _ := ensureNoArgs r in Ok w) = Ok cmd ↔ Forall2 arg_ok [] (trim <$> args r) ∧ trim <$> args r = [] ∧ cmd = w.
Proof.
  unfold ensureNoArgs. destruct (args r) as [|a l]; cbn.
  - split; [intros [= <-]; split_and!; [constructor|done|done]|by intros (_ & _ & ->)].
  - split; [done|]. by intros (_ & [=] & _).
Qed.

Section Spec.
Context `{CommandEnv}.

Lemma build_accepts input r cmd : rconCommandRequestSchema input = Some r →
  buildOperatorCommand input = Ok cmd ↔ accepts r cmd.
Proof.
  intros Hr. unfold buildOperatorCommand, accepts, line_of. rewrite Hr. destruct (command r); cbn [signature].
  all: unfold validateBroadcastText, buildAdminKickCommand, buildAdminWarnCommand;
    first [rewrite build_ban | rewrite build_text_1 | rewrite build_layer_1 | rewrite build_no_args | rewrite build_target_text].
  all: split; [intros [Hf Hx]; split; [done|]|intros [Hf ->]; split; [done|]].
  all: repeat match goal with H : ∃ _, _ |- _ => destruct H | H : _ ∧ _ |- _ => destruct H end.
  all: repeat match goal with H : fmap trim _ = _ |- _ => rewrite H end; try done.
  all: repeat match goal with
       | H : Forall2 arg_ok (_ :: _) _ |- _ => apply Forall2_S in H as (? & ? & -> & _ & H)
       | H : Forall2 arg_ok [] _ |- _ => apply Forall2_nil_inv_l in H as ->
       | |- ∃ _, _ => eexists
       | |- _ ∧ _ => split
       end; done.
Qed.

Lemma existsb_false {A} (f : A → bool) l x : existsb f l = false → x ∈ l → f x = false.
Proof.
  intros Hf Hx. apply not_true_iff_false. intros Ht. apply not_true_iff_false in Hf. apply Hf, existsb_exists.
  exists x. by rewrite <-list_elem_of_In.
Qed.

Lemma span_digits_split s d r : span_digits s = (d, r) → s = d ++ r ∧ forallb is_digit d = true.
Proof.
  revert d r. induction s as [|c s IH]; intros d r; cbn [span_digits]; [by intros [= <- <-]|].
  destruct (is_digit c) eqn:Ec; [|by intros [= <- <-]]. destruct (span_digits s) as [d' r']. intros [= <- <-].
  destruct (IH _ _ eq_refl) as [-> Hd]. split; [done|]. cbn. by rewrite Ec.
Qed.

Lemma unit_letter c : is_Some (BAN_LENGTH_UNIT_MILLISECONDS c) → 33 ≤ c.
Proof. unfold BAN_LENGTH_UNIT_MILLISECONDS. intros [x Hx]. repeat case_match; bool_to_Prop; lia || done. Qed.

Lemma ban_length_chars t c : is_Some (match_ban_length t) → c ∈ t → 33 ≤ c.
Proof.
  unfold match_ban_length. destruct (span_digits t) as [amount rest] eqn:E. apply span_digits_split in E as [-> Hd].
  intros Hm [Hc|Hc]%elem_of_app.
  - rewrite forallb_forall in Hd. apply list_elem_of_In, Hd in Hc. unfold is_digit in Hc. bool_to_Prop. lia.
  - destruct amount as [|a amount]; [by destruct Hm|]. destruct rest as [|u [|]]; [by apply elem_of_nil in Hc| |by destruct Hm].
    apply list_elem_of_singleton in Hc as ->. apply unit_letter. destruct (BAN_LENGTH_UNIT_MILLISECONDS u); [by eexists|by destruct Hm].
Qed.

(** No argument contains a line break, and all but the last are one word. *)
Lemma arg_ok_chars k t c : arg_ok k t → c ∈ t → is_line_break c = false ∧ (k ∈ [Target; BanLength] → c ≠ 32).
Proof.
  assert (∀ n, safe_text n t → c ∈ t → is_line_break c = false) as Hs.
  { intros n (_ & _ & Hb) Hc. by eapply existsb_false. }
  destruct k; cbn [arg_ok].
  - intros [Ht Hw] Hc. split; [by eapply Hs|]. intros _ ->. pose proof (existsb_false _ _ _ Hw Hc) as He. by vm_compute in He.
  - intros Ht Hc. pose proof (ban_length_chars _ _ Ht Hc). unfold is_line_break.
    split; [apply bool_decide_eq_false; rewrite !elem_of_cons, elem_of_nil; lia|lia].
  - intros Ht Hc. split; [by eapply Hs|]. intros; set_solver.
  - intros [Ht _] Hc. split; [by eapply Hs|]. intros; set_solver.
Qed.

Lemma read_args_join ks t ts : Forall2 arg_ok ks (t :: ts) → (∀ i, S i < length ks → ks !! i ∈ [Some Target; Some BanLength])%nat →
  read_args (length (t :: ts)) (join [32] (t :: ts)) = Some (t :: ts).
Proof.
  revert ks t. induction ts as [|u ts IH]; intros ks t Hf Hk; [done|].
  apply Forall2_cons_inv_r in Hf as (k & ks' & Hkt & Hf & ->).
  change (read_args _ _) with (ab ← cut_at 32 (t ++ 32 :: join [32] (u :: ts)); cons ab.1 <$> read_args (length (u :: ts)) ab.2).
  assert (0 < length ks')%nat by (apply Forall2_length in Hf; cbn in Hf; lia).
  rewrite cut_at_app; [|intros Hc; apply (arg_ok_chars _ _ _ Hkt) in Hc as [_ Hc]].
  - change (cons t <$> read_args (length (u :: ts)) (join [32] (u :: ts)) = Some (t :: u :: ts)). rewrite (IH ks'); [done|done|]. intros i Hi. apply (Hk (S i)). cbn. lia.
  - apply Hc; [|done]. specialize (Hk 0%nat ltac:(cbn; lia)). cbn in Hk. set_solver.
Qed.

Lemma signature_words c i : (S i < length (signature c))%nat → signature c !! i ∈ [Some Target; Some BanLength].
Proof. destruct c, i as [|[|[|i]]]; cbn; intros; try lia; set_solver. Qed.

Lemma command_text_spec c : command_of_text (command_text c) = Some c ∧ 32 ∉ command_text c ∧
  (length (command_text c) ≤ 23)%nat ∧ (∀ x, x ∈ command_text c → is_line_break x = false).
Proof.
  assert (forallb (fun x => negb (is_line_break x) && negb (x =? 32)) (command_text c) = true) as Hc by by destruct c.
  rewrite forallb_forall in Hc. split; [by destruct c|]. split_and!; [|by destruct c; cbn; lia|].
  - intros Hx%list_elem_of_In%Hc. done.
  - intros x Hx%list_elem_of_In%Hc. by bool_to_Prop.
Qed.

Lemma signature_counts c : length (signature c) = RCON_OPERATOR_COMMAND_ARG_COUNTS c.
Proof. by destruct c. Qed.
Lemma elem_of_join_sep x sep ps : x ∈ join [sep] ps → x = sep ∨ ∃ p, p ∈ ps ∧ x ∈ p.
Proof.
  induction ps as [|p [|q ps] IH]; [by intros ?%elem_of_nil|intros Hx; right; exists p; split; [by left|done]|].
  change (join [sep] (p :: q :: ps)) with (p ++ sep :: join [sep] (q :: ps)). intros [Hx|[->|Hx]%elem_of_cons]%elem_of_app.
  - right. exists p. split; [by left|done].
  - by left.
  - destruct (IH Hx) as [->|(r & Hr & ?)]; [by left|]. right. exists r. split; [by right|done].
Qed.

Lemma accepts_reads_back r cmd : accepts r cmd →
  read_operator_command cmd = Some (command r, trim <$> args r) ∧ ∀ c, c ∈ cmd → is_line_break c = false.
Proof.
  intros [Hf ->]. destruct (command_text_spec (command r)) as (Ht & Hs & _ & Hb). split.
  - unfold read_operator_command, line_of. pose proof (signature_counts (command r)) as Hn. pose proof (Forall2_length _ _ _ Hf) as Hl.
    destruct (trim <$> args r) as [|t ts] eqn:Ea.
    + cbn [join]. rewrite cut_at_None, Ht by done. cbn [mbind option_bind]. by rewrite <-Hn, Hl.
    + change (join [32] (command_text (command r) :: t :: ts)) with (command_text (command r) ++ 32 :: join [32] (t :: ts)).
      rewrite cut_at_app, Ht by done. cbn [mbind option_bind]. rewrite <-Hn, Hl.
      rewrite (read_args_join (signature (command r))); [done|done|]. apply signature_words.
  - intros c [->|(p & [->|Hp]%elem_of_cons & Hc)]%elem_of_join_sep; [done|by apply Hb|].
    apply list_elem_of_lookup in Hp as [i Hi]. destruct (Forall2_lookup_r _ _ _ _ _ Hf Hi) as (k & _ & Hk).
    by apply (arg_ok_chars _ _ _ Hk).
Qed.

Lemma string_between_spec lo hi v s : string_between lo hi v = Some s → v = JStr s ∧ (length s ≤ hi)%nat.
Proof. unfold string_between. destruct v; try done. case_match eqn:E; [|done]. intros [= <-]. apply andb_true_iff in E as [_ E%Nat.leb_le]. done. Qed.

Lemma length_trim s : (length (trim s) ≤ length s)%nat.
Proof. destruct (trim_infix s) as (p & q & Hs). rewrite Hs at 2. rewrite !length_app. lia. Qed.

Lemma request_args_short input r t : rconCommandRequestSchema input = Some r → t ∈ trim <$> args r → (length t ≤ RCON_ARG_MAX_LENGTH)%nat.
Proof.
  unfold rconCommandRequestSchema. destruct input as [| | | | |fs]; try done. intros Hr.
  repeat match type of Hr with (_ ≫= _) = Some _ => apply bind_Some in Hr as (? & ? & Hr) end.
  case_match; [|done]. simplify_eq. cbn [args]. intros (s & -> & Hs)%list_elem_of_fmap.
  destruct (map_get fs (js "args")) as [[]|]; simplify_eq/=; [|by apply elem_of_nil in Hs].
  case_match; [|done]. match goal with E : mapM _ _ = Some _ |- _ => apply mapM_Some in E as E' end.
  apply list_elem_of_lookup in Hs as [i Hi]. destruct (Forall2_lookup_r _ _ _ _ _ E' Hi) as (v & _ & [_ Hv]%string_between_spec).
  pose proof (length_trim s). lia.
Qed.

Lemma accepts_short input r cmd : rconCommandRequestSchema input = Some r → accepts r cmd → (length cmd ≤ 1400)%nat.
Proof.
  intros Hr [Hf ->]. pose proof (fun t => request_args_short _ _ t Hr) as Ha. unfold RCON_ARG_MAX_LENGTH in Ha. unfold line_of.
  generalize dependent (trim <$> args r). intros ts Hf Ha.
  destruct (command_text_spec (command r)) as (_ & _ & Hl & _).
  assert (length (command_text AdminBan) = 8%nat) as Hban by done.
  destruct (command r); cbn [signature] in Hf;
  repeat match goal with
  | H : Forall2 arg_ok (_ :: _) _ |- _ => apply Forall2_S in H as (? & ? & -> & ? & H)
  | H : Forall2 arg_ok [] _ |- _ => apply Forall2_nil_inv_l in H as ->
  end; cbn [arg_ok] in *; unfold safe_text in *; cbn [join]; rewrite ?length_app; cbn [length];
  repeat match goal with
  | H : is_Some (match_ban_length ?t) |- _ => clear H; pose proof (Ha t ltac:(set_solver))
  end; rewrite ?length_app; cbn [length]; rewrite ?length_app; cbn [length]; rewrite ?Hban; lia.
Qed.

Lemma buildOperatorCommand_exact_aux input cmd :
  buildOperatorCommand input = Ok cmd ↔ ∃ r, rconCommandRequestSchema input = Some r ∧ accepts r cmd.
Proof.
  split; [|intros (r & Hr & Ha); by apply (build_accepts _ _ _ Hr)].
  intros Hb. destruct (rconCommandRequestSchema input) as [r|] eqn:Hr.
  - exists r. split; [done|]. by apply (build_accepts _ _ _ Hr).
  - unfold buildOperatorCommand in Hb. by rewrite Hr in Hb.
Qed.

(** Exactly the requests with the right number of arguments, each of its
    kind once trimmed, become a command, and the command is its name and the
    trimmed arguments with single spaces between them. *)
Theorem buildOperatorCommand_exact input cmd :
  buildOperatorCommand input = Ok cmd ↔ ∃ r, rconCommandRequestSchema input = Some r ∧ accepts r cmd.
Proof. apply buildOperatorCommand_exact_aux. Qed.

(** C26: A command sent to a game server is one line that the server reads as
    the requested command with the requested arguments: no text of a player or
    a moderator can change the target, the ban length or start a second
    command. It is at most 1400 characters long. *)
Theorem operator_command_reads_back input cmd : buildOperatorCommand input = Ok cmd →
  ∃ r, rconCommandRequestSchema input = Some r ∧ read_operator_command cmd = Some (command r, trim <$> args r) ∧
    (∀ c, c ∈ cmd → c ∉ [13; 10; 0]) ∧ (length cmd ≤ 1400)%nat.
Proof.
  intros Hb. destruct (rconCommandRequestSchema input) as [r|] eqn:Hr.
  - exists r. split; [done|]. apply (build_accepts _ _ _ Hr) in Hb. destruct (accepts_reads_back _ _ Hb) as [Hread Hc].
    split; [done|]. split; [|by eapply accepts_short]. intros c Hin. apply Hc in Hin. by apply bool_decide_eq_false in Hin.
  - unfold buildOperatorCommand in Hb. by rewrite Hr in Hb.
Qed.
End Spec.

(** * A concrete request *)

#[local] Instance plain_env : CommandEnv := { is_datetime _ := true; issues_of _ := [] }.

Definition ex_ban : json :=
  JObj [(js "request_id", JStr (js "r1")); (js "command", JStr (js "AdminBan"));
        (js "args", JArr [JStr (js " 76561198000000001 "); JStr (js "7d"); JStr (js "team kill, 2nd time ")]);
        (js "actor_player_id", JNull)].

Example ex_ban_command : buildOperatorCommand ex_ban = Ok (js "AdminBan 76561198000000001 7d team kill, 2nd time").
Proof. vm_compute. reflexivity. Qed.

Lemma operator_command_reads_back_witness : ∃ r, rconCommandRequestSchema ex_ban = Some r ∧
  read_operator_command (js "AdminBan 76561198000000001 7d team kill, 2nd time") = Some (command r, trim <$> args r) ∧
  (∀ c, c ∈ js "AdminBan 76561198000000001 7d team kill, 2nd time" → c ∉ [13; 10; 0]) ∧
  (length (js "AdminBan 76561198000000001 7d team kill, 2nd time") ≤ 1400)%nat.
Proof. apply (operator_command_reads_back ex_ban). exact ex_ban_command. Defined.
