(* ===== verification/RedisTasks.v ===== *)
(** Programs that talk to Redis, run next to each other: what an [async]
    function of [apps/workers/rcon/src/commands.ts] and
    [apps/api/src/lib/rcon-worker-command.ts] awaits, how any number of them
    interleave over one Redis and one command stream, and rules to prove
    properties of all interleavings from each program alone. *)
From S2P Require Import Prelude JsString JsMap Collections.

(** * Redis and the game server *)

(** Entry ids [<ms>-<seq>]. *)
Record stream_id := mkId { id_ms : Z; id_seq : Z }.
#[export] Instance stream_id_eq_dec : EqDecision stream_id.
Proof. solve_decision. Defined.

Inductive entry_state := Fresh | Pending (since : Z) | Acked.
Record stream_entry := mkStreamEntry { en_id : stream_id; en_kv : list jstr; en_state : entry_state }.

(** An entry as a consumer receives it; [d_at] is when Redis handed it out. *)
Record delivery := mkDelivery { d_id : stream_id; d_kv : list jstr; d_at : Z }.

(** A command given to the game server, for which entry, when, and its answer. *)
Record execution := mkExec { x_of : delivery; x_cmd : jstr; x_at : Z; x_reply : result jstr jstr }.

(** [claims] and [execs] record the successful [SET NX] and the commands that
    reached the server, newest first. A value lives until its expiry. *)
Record world := mkWorld {
  clock : Z;
  store : list (jstr * (jstr * option Z));
  stream : list stream_entry;
  claims : list (jstr * Z);
  execs : list execution;
}.

Definition live (now : Z) (x : jstr * option Z) : option jstr :=
  match x.2 with Some t => if now <? t then Some x.1 else None | None => Some x.1 end.
Definition get_key (w : world) (key : jstr) : option jstr := map_get (store w) key ≫= live (clock w).

Definition set_store (w : world) (st : list (jstr * (jstr * option Z))) : world :=
  mkWorld (clock w) st (stream w) (claims w) (execs w).
Definition set_stream (w : world) (es : list stream_entry) : world :=
  mkWorld (clock w) (store w) es (claims w) (execs w).

(** [SET key value EX ttl] *)
Definition do_set (key value : jstr) (ttl : Z) (w : world) : world * unit :=
  (set_store w (map_set (store w) key (value, Some (clock w + ttl * 1000))), tt).
(** [SET key value EX ttl NX]: whether it answered OK. *)
Definition do_setnx (key value : jstr) (ttl : Z) (w : world) : world * bool :=
  match get_key w key with
  | Some _ => (w, false)
  | None => (mkWorld (clock w) (map_set (store w) key (value, Some (clock w + ttl * 1000))) (stream w)
               ((key, clock w) :: claims w) (execs w), true)
  end.
Definition do_del (key : jstr) (w : world) : world * unit :=
  (set_store w (jfilter (fun kv => negb (bool_decide (kv.1 = key))) (store w)), tt).

(** [XADD stream * ...]: ids grow. *)
Definition next_id (w : world) : stream_id :=
  match last (stream w) with
  | Some e => if clock w <=? id_ms (en_id e) then mkId (id_ms (en_id e)) (id_seq (en_id e) + 1) else mkId (clock w) 0
  | None => mkId (clock w) 0
  end.
Definition do_xadd (kv : list jstr) (w : world) : world * unit :=
  (set_stream w (stream w ++ [mkStreamEntry (next_id w) kv Fresh]), tt).
Definition do_xack (id : stream_id) (w : world) : world * unit :=
  (set_stream w ((fun e => if bool_decide (en_id e = id) then mkStreamEntry (en_id e) (en_kv e) Acked else e) <$> stream w), tt).

(** Hands out the first [count] entries that [wanted] selects. *)
Fixpoint hand_out (now : Z) (wanted : entry_state → bool) (count : nat) (es : list stream_entry)
    : list stream_entry * list delivery :=
  match es with
  | [] => ([], [])
  | e :: es =>
      match count with
      | S n =>
          if wanted (en_state e)
          then let '(es, ds) := hand_out now wanted n es in
               (mkStreamEntry (en_id e) (en_kv e) (Pending now) :: es, mkDelivery (en_id e) (en_kv e) now :: ds)
          else let '(es, ds) := hand_out now wanted count es in (e :: es, ds)
      | O => (e :: es, [])
      end
  end.
Definition deliver (wanted : entry_state → bool) (count : nat) (w : world) : world * list delivery :=
  let '(es, ds) := hand_out (clock w) wanted count (stream w) in (set_stream w es, ds).
(** [XREADGROUP ... >] and [XAUTOCLAIM ... min-idle]. *)
Definition do_read (count : nat) : world → world * list delivery :=
  deliver (fun st => match st with Fresh => true | _ => false end) count.
Definition do_autoclaim (minIdle : Z) (count : nat) (w : world) : world * list delivery :=
  deliver (fun st => match st with Pending t => t + minIdle <=? clock w | _ => false end) count w.

(** * Programs *)

(** What a program does next, with what it does after each answer; [None] is a
    rejected call. [Wake t] is a timer that fires at [t]. *)
Inductive prog (A : Type) : Type :=
| Ret (a : A)
| Now (k : Z → prog A)
| RGet (key : jstr) (k : option (option jstr) → prog A)
| RSet (key value : jstr) (ttl : Z) (k : option unit → prog A)
| RSetNx (key value : jstr) (ttl : Z) (k : option bool → prog A)
| RDel (key : jstr) (k : option unit → prog A)
| XAdd (kv : list jstr) (k : option unit → prog A)
| XAck (id : stream_id) (k : option unit → prog A)
| XReadGroup (count : nat) (k : option (list delivery) → prog A)
| XAutoClaim (minIdle : Z) (count : nat) (k : option (list delivery) → prog A)
| Execute (d : delivery) (cmd : jstr) (k : result jstr jstr → prog A)
| Sleep (ms : Z) (k : prog A)
| Wake (t : Z) (k : prog A).
Arguments Ret {A}. Arguments Now {A}. Arguments RGet {A}. Arguments RSet {A}. Arguments RSetNx {A}.
Arguments RDel {A}. Arguments XAdd {A}. Arguments XAck {A}. Arguments XReadGroup {A}. Arguments XAutoClaim {A}.
Arguments Execute {A}. Arguments Sleep {A}. Arguments Wake {A}.

(** [await p; then k]. *)
Fixpoint andThen {A B} (p : prog A) (f : A → prog B) : prog B :=
  match p with
  | Ret a => f a
  | Now k => Now (fun t => andThen (k t) f)
  | RGet key k => RGet key (fun r => andThen (k r) f)
  | RSet key v ttl k => RSet key v ttl (fun r => andThen (k r) f)
  | RSetNx key v ttl k => RSetNx key v ttl (fun r => andThen (k r) f)
  | RDel key k => RDel key (fun r => andThen (k r) f)
  | XAdd kv k => XAdd kv (fun r => andThen (k r) f)
  | XAck id k => XAck id (fun r => andThen (k r) f)
  | XReadGroup n k => XReadGroup n (fun r => andThen (k r) f)
  | XAutoClaim m n k => XAutoClaim m n (fun r => andThen (k r) f)
  | Execute d cmd k => Execute d cmd (fun r => andThen (k r) f)
  | Sleep ms k => Sleep ms (andThen k f)
  | Wake t k => Wake t (andThen k f)
  end.

(** A call that may throw, followed by code that only runs when it does not. *)
Definition orThrow {A B} (p : prog (option A)) (f : A → prog (option B)) : prog (option B) :=
  andThen p (fun r => match r with Some a => f a | None => Ret None end).

Notation "'await' x ':=' p 'in' k" := (andThen p (fun x => k))
  (at level 10, x pattern, p at level 100, k at level 200) : panel_scope.
Notation "'try' x ':=' p 'in' k" := (orThrow p (fun x => k))
  (at level 10, x pattern, p at level 100, k at level 200) : panel_scope.

(** * Running *)

(** What becomes of one call to Redis: done and answered, not done, done with
    its answer lost, or repeated by the client library after a reconnect. *)
Inductive fate := Done | Refused | AnswerLost | Resent.

Definition call {R} (f : fate) (op : world → world * R) (w : world) : world * option R :=
  match f with
  | Done => let '(w, r) := op w in (w, Some r)
  | Refused => (w, None)
  | AnswerLost => ((op w).1, None)
  | Resent => let '(w, r) := op (op w).1 in (w, Some r)
  end.

Definition resume {R A} (x : world * R) (k : R → prog A) : option (world * prog A) := Some (x.1, k x.2).

Definition log_exec (w : world) (x : execution) : world :=
  mkWorld (clock w) (store w) (stream w) (claims w) (x :: execs w).

(** One step of a program; [reply] is what the game server answers. *)
Definition step {A} (f : fate) (reply : result jstr jstr) (w : world) (p : prog A) : option (world * prog A) :=
  match p with
  | Ret _ => None
  | Now k => Some (w, k (clock w))
  | RGet key k => resume (call f (fun w => (w, get_key w key)) w) k
  | RSet key v ttl k => resume (call f (do_set key v ttl) w) k
  | RSetNx key v ttl k => resume (call f (do_setnx key v ttl) w) k
  | RDel key k => resume (call f (do_del key) w) k
  | XAdd kv k => resume (call f (do_xadd kv) w) k
  | XAck id k => resume (call f (do_xack id) w) k
  | XReadGroup n k => resume (call f (do_read n) w) k
  | XAutoClaim m n k => resume (call f (do_autoclaim m n) w) k
  | Execute d cmd k => Some (log_exec w (mkExec d cmd (clock w) reply), k reply)
  | Sleep ms k => Some (w, Wake (clock w + ms) k)
  | Wake t k => if t <=? clock w then Some (w, k) else None
  end.

(** A system of programs. [Put] is a write by somebody else, [Entry] an entry
    added by another producer, [Trim] the stream's length limit, [Crash] the end
    of the process that runs a program. *)
Inductive event (A : Type) :=
| Tick (ms : nat)
| Put (key value : jstr) (expiry : option Z)
| Entry (kv : list jstr)
| Trim (n : nat)
| Start (p : prog A)
| Step (i : nat) (f : fate) (reply : result jstr jstr)
| Crash (i : nat).
Arguments Tick {A}. Arguments Put {A}. Arguments Entry {A}. Arguments Trim {A}. Arguments Start {A}.
Arguments Step {A}. Arguments Crash {A}.

Record system (A : Type) := mkSystem { the_world : world; tasks : list (option (prog A)) }.
Arguments mkSystem {A}. Arguments the_world {A}. Arguments tasks {A}.

Definition next {A} (s : system A) (e : event A) : system A :=
  let w := the_world s in
  match e with
  | Tick ms => mkSystem (mkWorld (clock w + Z.of_nat ms) (store w) (stream w) (claims w) (execs w)) (tasks s)
  | Put key value expiry => mkSystem (set_store w (map_set (store w) key (value, expiry))) (tasks s)
  | Entry kv => mkSystem (do_xadd kv w).1 (tasks s)
  | Trim n => mkSystem (set_stream w (drop n (stream w))) (tasks s)
  | Start p => mkSystem w (tasks s ++ [Some p])
  | Step i f reply =>
      match tasks s !! i with
      | Some (Some p) =>
          match step f reply w p with
          | Some (w, p) => mkSystem w (<[i := Some p]> (tasks s))
          | None => s
          end
      | _ => s
      end
  | Crash i => mkSystem w (<[i := None]> (tasks s))
  end.
Definition run {A} (s : system A) (es : list (event A)) : system A := foldl next s es.

(** * Proving all interleavings from each program *)

Section Safety.
Context {A : Type}.
(** Marker keys, set only for [ttl] seconds and never deleted; the marker
    that a command needs before it may run; when an entry may still run; and
    the values that report an execution. *)
Context (marker : jstr → Prop) (ttl : Z) (owner : delivery → jstr) (timely : delivery → Prop).
Context (reports : jstr → jstr → Prop) (vouches : execution → jstr → jstr → Prop).
(** What holds of a result, given the time and the executions so far. *)
Context (post : Z → list execution → A → Prop) (start : Z).
Context (Httl : 0 ≤ ttl).
Context (post_mono : ∀ t t' xs xs' a, t ≤ t' → xs ⊆ xs' → post t xs a → post t' xs' a).

Definition vouched (xs : list execution) (key v : jstr) : Prop := reports key v → ∃ x, x ∈ xs ∧ vouches x key v.

(** [p] behaves from time [lo] on, when [xs] have been executed and it has
    claimed [held] and not used it. *)
Fixpoint safe (held : option jstr) (lo : Z) (xs : list execution) (p : prog A) : Prop :=
  match p with
  | Ret a => post lo xs a
  | Now k => ∀ t, lo ≤ t → safe held t xs (k t)
  | RGet key k =>
      safe held lo xs (k None) ∧ safe held lo xs (k (Some None)) ∧
      ∀ v xs', xs ⊆ xs' → vouched xs' key v → safe held lo xs' (k (Some (Some v)))
  | RSet key v s k => (marker key → s = ttl) ∧ vouched xs key v ∧ ∀ r, safe held lo xs (k r)
  | RSetNx key v s k =>
      marker key ∧ s = ttl ∧ vouched xs key v ∧
      safe held lo xs (k None) ∧ safe held lo xs (k (Some false)) ∧ safe (Some key) lo xs (k (Some true))
  | RDel key k => ¬ marker key ∧ ∀ r, safe held lo xs (k r)
  | XAdd _ k | XAck _ k => ∀ r, safe held lo xs (k r)
  | XReadGroup _ k | XAutoClaim _ _ k =>
      safe held lo xs (k None) ∧
      ∀ t ds, lo ≤ t → Forall (fun d => d_at d = t) ds → safe held t xs (k (Some ds))
  | Execute d cmd k =>
      held = Some (owner d) ∧ timely d ∧ d_at d ≤ lo ∧
      ∀ t r, lo ≤ t → safe None t (mkExec d cmd t r :: xs) (k r)
  | Sleep ms k => ∀ t, lo + ms ≤ t → safe held t xs k
  | Wake t k => ∀ t', lo ≤ t' → t ≤ t' → safe held t' xs k
  end.

Lemma vouched_mono xs xs' key v : xs ⊆ xs' → vouched xs key v → vouched xs' key v.
Proof. intros Hs Hv Hr. destruct (Hv Hr) as (x & Hx & ?). exists x. split; [by apply Hs|done]. Qed.

(** Time passing and others' executions do no harm. *)
Lemma safe_mono p held lo lo' xs xs' : lo ≤ lo' → xs ⊆ xs' → safe held lo xs p → safe held lo' xs' p.
Proof.
  revert held lo lo' xs xs'.
  induction p as [a|k IH|key k IH|key v s k IH|key v s k IH|key k IH|kv k IH|id k IH|n k IH|m n k IH|d cmd k IH|ms k IH|t k IH];
    intros held lo lo' xs xs' Hlo Hxs; cbn [safe].
  - by apply post_mono.
  - intros H t Ht. eapply IH; [reflexivity|exact Hxs|]. apply H. lia.
  - intros (H1 & H2 & H3). split_and!; [by eapply IH..|]. intros v ys Hy Hv.
    eapply IH; [exact Hlo|reflexivity|]. apply H3; [by etrans|done].
  - intros (H1 & H2 & H3). split_and!; [done|by eapply vouched_mono|]. intros r. by eapply IH.
  - intros (H1 & H2 & H3 & H4 & H5 & H6). split_and!; [done|done|by eapply vouched_mono|by eapply IH..].
  - intros [H1 H2]. split; [done|]. intros r. by eapply IH.
  - intros H r. by eapply IH.
  - intros H r. by eapply IH.
  - intros [H1 H2]. split; [by eapply IH|]. intros t ds Ht Hd. eapply IH; [reflexivity|exact Hxs|]. apply H2; [lia|done].
  - intros [H1 H2]. split; [by eapply IH|]. intros t ds Ht Hd. eapply IH; [reflexivity|exact Hxs|]. apply H2; [lia|done].
  - intros (H1 & H2 & H3 & H4). split_and!; [done|done|lia|]. intros t r Ht.
    eapply IH; [reflexivity| |apply H4; lia]. set_solver.
  - intros H t Ht. eapply IH; [reflexivity|exact Hxs|]. apply H. lia.
  - intros H t' Ht Ht'. eapply IH; [reflexivity|exact Hxs|]. apply H; lia.
Qed.

(** What a program holds counts against the claims that were granted. *)
Definition one (b : bool) : Z := if b then 1 else 0.
Definition holds (key : jstr) (held : option jstr) : Z := one (bool_decide (held = Some key)).
Definition granted (key : jstr) (c : jstr * Z) : Z := one (bool_decide (c.1 = key)).
Definition used (key : jstr) (x : execution) : Z := one (bool_decide (owner (x_of x) = key)).

Record world_ok (w : world) (helds : list (option jstr)) : Prop := {
  ok_since : start ≤ clock w ∧ ∀ c, c ∈ claims w → start ≤ c.2;
  ok_paid : ∀ key, marker key → zsum (used key) (execs w) + zsum (holds key) helds ≤ zsum (granted key) (claims w);
  ok_held : ∀ key, Some key ∈ helds → marker key;
  ok_spaced : StronglySorted (fun c c' : jstr * Z => c.1 = c'.1 → c'.2 + ttl * 1000 ≤ c.2) (claims w);
  ok_live : ∀ key t, (key, t) ∈ claims w → marker key → t ≤ clock w ∧
    (clock w < t + ttl * 1000 → ∃ v e, map_get (store w) key = Some (v, Some e) ∧ t + ttl * 1000 ≤ e);
  ok_markers : ∀ c, c ∈ claims w → marker c.1;
  ok_reports : ∀ key v e, map_get (store w) key = Some (v, e) → vouched (execs w) key v;
  ok_execs : ∀ x, x ∈ execs w → timely (x_of x) ∧ d_at (x_of x) ≤ x_at x ≤ clock w ∧ marker (owner (x_of x));
}.

Lemma world_ok_stream w es helds : world_ok w helds → world_ok (set_stream w es) helds.
Proof. by intros []. Qed.

Lemma set_ok key v s w helds : (marker key → s = ttl) → vouched (execs w) key v →
  world_ok w helds → world_ok (do_set key v s w).1 helds.
Proof.
  intros Hm Hv [? ? ? ? Hl ? Hr ?]. constructor; try done; cbn.
  - intros key' t Ht Hk. destruct (Hl _ _ Ht Hk) as [Hle Hlive]. split; [done|]. intros Hlt. rewrite map_get_set.
    case_decide; [subst; rewrite Hm by done|by apply Hlive]. eexists _, _. split; [done|]. lia.
  - intros key' v' e. rewrite map_get_set. case_decide; [intros [= <- <-]; by subst|apply Hr].
Qed.

Lemma map_get_jfilter_key {V} (m : list (jstr * V)) key key' :
  map_get (jfilter (fun kv => negb (bool_decide (kv.1 = key))) m) key' = if decide (key = key') then None else map_get m key'.
Proof.
  unfold jfilter. induction m as [|[k v] m IH]; [by case_decide|]. cbn [List.filter fst].
  case_bool_decide as Hk; cbn [negb map_get]; rewrite IH; repeat case_decide; subst; try done.
Qed.

Lemma del_ok key w helds : ¬ marker key → world_ok w helds → world_ok (do_del key w).1 helds.
Proof.
  intros Hm [? ? ? ? Hl ? Hr ?]. constructor; try done; cbn.
  - intros key' t Ht Hk. destruct (Hl _ _ Ht Hk) as [Hle Hlive]. split; [done|]. intros Hlt.
    rewrite map_get_jfilter_key. rewrite decide_False by (intros ->; done). by apply Hlive.
  - intros key' v' e. rewrite map_get_jfilter_key. case_decide; [done|apply Hr].
Qed.

(** A granted claim: no earlier one of the key is younger than its time to live. *)
Lemma setnx_ok key v s w helds : marker key → s = ttl → vouched (execs w) key v → world_ok w helds →
  world_ok (do_setnx key v s w).1 helds ∧
  ((do_setnx key v s w).2 = true →
   ∀ k, marker k → zsum (used k) (execs w) + zsum (holds k) helds + granted k (key, clock w) ≤ zsum (granted k) (claims (do_setnx key v s w).1)).
Proof.
  intros Hm -> Hv [[Hs0 Hs1] Hp Hh Hs Hl Hc Hr He]. unfold do_setnx. destruct (get_key w key) as [u|] eqn:Eg; [by split|]. cbn [fst snd claims execs].
  assert (∀ t, (key, t) ∈ claims w → t + ttl * 1000 ≤ clock w) as Hold.
  { intros t Ht. destruct (Hl _ _ Ht Hm) as [Hle Hlive]. destruct (Z.lt_ge_cases (clock w) (t + ttl * 1000)) as [Hlt|?]; [|done].
    destruct (Hlive Hlt) as (x & e & Hx & Hxe). unfold get_key in Eg. rewrite Hx in Eg. cbn in Eg. unfold live in Eg. cbn in Eg.
    destruct (clock w <? e) eqn:E; bool_to_Prop; [done|lia]. }
  split.
  - constructor; cbn [claims execs store clock].
    + split; [done|]. by intros c [->|?]%elem_of_cons; [|apply Hs1].
    + intros k Hk. rewrite zsum_cons. specialize (Hp k Hk). assert (0 ≤ granted k (key, clock w)) by (unfold granted, one; case_match; lia). lia.
    + done.
    + constructor; [done|]. apply Forall_forall. intros [k t] Hk. cbn. intros <-. by apply Hold.
    + intros k t [[= -> ->]|Hk]%elem_of_cons Hmk.
      * split; [lia|]. intros _. rewrite map_get_set_eq. eexists _, _. split; [done|]. lia.
      * destruct (Hl _ _ Hk Hmk) as [Hle Hlive]. split; [done|]. intros Hlt. rewrite map_get_set.
        case_decide; [subst; eexists _, _; split; [done|]; lia|by apply Hlive].
    + intros c [->|?]%elem_of_cons; [done|by apply Hc].
    + intros k x e. rewrite map_get_set. case_decide; [intros [= <- <-]; by subst|apply Hr].
    + done.
  - intros _ k Hk. rewrite zsum_cons. specialize (Hp k Hk). lia.
Qed.

Lemma call_keeps {R} f (op : world → world * R) w helds :
  (∀ w', clock w' = clock w → execs w' = execs w → world_ok w' helds →
     world_ok (op w').1 helds ∧ clock (op w').1 = clock w ∧ execs (op w').1 = execs w) →
  world_ok w helds → world_ok (call f op w).1 helds ∧ clock (call f op w).1 = clock w ∧ execs (call f op w).1 = execs w.
Proof.
  intros Hop Hw. destruct (Hop w eq_refl eq_refl Hw) as (H1 & H2 & H3). unfold call.
  destruct f; [by destruct (op w)|done|done|]. destruct (Hop (op w).1 H2 H3 H1) as (? & ? & ?). by destruct (op (op w).1).
Qed.

Lemma hand_out_at now wanted n es : Forall (fun d => d_at d = now) (hand_out now wanted n es).2.
Proof.
  revert n. induction es as [|e es IH]; intros n; cbn [hand_out]; [constructor|]. destruct n as [|n]; [constructor|].
  destruct (wanted (en_state e)).
  - specialize (IH n). destruct (hand_out now wanted n es). by constructor.
  - specialize (IH (S n)). by destruct (hand_out now wanted (S n) es).
Qed.

Lemma deliver_ok wanted n w helds : world_ok w helds →
  world_ok (deliver wanted n w).1 helds ∧ clock (deliver wanted n w).1 = clock w ∧ execs (deliver wanted n w).1 = execs w ∧
  Forall (fun d => d_at d = clock w) (deliver wanted n w).2.
Proof.
  intros Hw. unfold deliver. pose proof (hand_out_at (clock w) wanted n (stream w)) as Hd.
  destruct (hand_out _ _ _ _) as [es ds]. cbn in *. split_and!; [by apply world_ok_stream|done..].
Qed.

Lemma helds_insert w helds i held held' : helds !! i = Some held → world_ok w helds →
  (∀ key, held' = Some key → marker key) →
  (∀ key, marker key → zsum (used key) (execs w) + zsum (holds key) helds - holds key held + holds key held' ≤ zsum (granted key) (claims w)) →
  world_ok w (<[i := held']> helds).
Proof.
  intros Hi [? ? Hh ? ? ? ? ?] Hm Hp. constructor; try done.
  - intros key Hk. rewrite (zsum_insert _ _ _ _ _ Hi). specialize (Hp key Hk). lia.
  - intros key [j Hj]%list_elem_of_lookup. destruct (decide (j = i)) as [->|Hne].
    + rewrite list_lookup_insert_eq in Hj by (by eapply lookup_lt_Some). injection Hj as ->. by apply Hm.
    + rewrite list_lookup_insert_ne in Hj by done. apply Hh, list_elem_of_lookup. by exists j.
Qed.

Lemma holds_nonneg key held : 0 ≤ holds key held.
Proof. unfold holds, one. case_match; lia. Qed.

Lemma setnx_step f key v s w helds : marker key → s = ttl → vouched (execs w) key v → world_ok w helds →
  let '(w', r) := call f (do_setnx key v s) w in
  world_ok w' helds ∧ clock w' = clock w ∧ execs w' = execs w ∧
  (r = Some true → ∀ k, marker k → zsum (used k) (execs w) + zsum (holds k) helds + holds k (Some key) ≤ zsum (granted k) (claims w')).
Proof.
  intros Hm Hs Hv Hw.
  assert (∀ u, execs u = execs w → clock u = clock w → world_ok u helds →
    let '(w', r) := do_setnx key v s u in world_ok w' helds ∧ clock w' = clock w ∧ execs w' = execs w ∧
      (r = true → ∀ k, marker k → zsum (used k) (execs w) + zsum (holds k) helds + holds k (Some key) ≤ zsum (granted k) (claims w'))) as Hone.
  { intros u Hx Hc Hu. rewrite <-Hx in Hv |- *. rewrite <-Hc. destruct (setnx_ok key v s u helds Hm Hs Hv Hu) as [Hok Hg].
    assert (clock (do_setnx key v s u).1 = clock u ∧ execs (do_setnx key v s u).1 = execs u) as [Hc1 Hx1].
    { unfold do_setnx. by destruct (get_key u key). }
    destruct (do_setnx key v s u) as [w' r]. cbn [fst snd] in *. split_and!; [done..|].
    intros Hr k Hk. specialize (Hg Hr k Hk). unfold granted in Hg at 1. cbn [fst] in Hg. unfold holds at 2.
    replace (bool_decide (Some key = Some k)) with (bool_decide (key = k)); [done|].
    apply bool_decide_ext. naive_solver. }
  unfold call. pose proof (Hone w eq_refl eq_refl Hw) as H1. destruct f.
  - destruct (do_setnx key v s w) as [w' r]. destruct H1 as (? & ? & ? & Hg). split_and!; [done..|]. intros [= ->]. by apply Hg.
  - done.
  - destruct (do_setnx key v s w) as [w' r]. by destruct H1 as (? & ? & ? & Hg).
  - destruct (do_setnx key v s w) as [w' r]. destruct H1 as (Hw' & Hc & Hx & _). cbn [fst]. pose proof (Hone w' Hx Hc Hw') as H2.
    destruct (do_setnx key v s w') as [w'' r']. destruct H2 as (? & ? & ? & Hg). split_and!; [done..|]. intros [= ->]. by apply Hg.
Qed.

Lemma exec_ok d cmd reply w helds i : helds !! i = Some (Some (owner d)) → timely d → d_at d ≤ clock w → world_ok w helds →
  world_ok (log_exec w (mkExec d cmd (clock w) reply)) (<[i := None]> helds).
Proof.
  intros Hi Ht Hd Hw. assert (marker (owner d)) as Hm by (eapply ok_held; [done|by eapply list_elem_of_lookup_2]).
  destruct Hw as [? Hp Hh ? ? ? Hr He]. constructor; try done; cbn [log_exec execs claims store clock].
  - intros key Hk. rewrite (zsum_insert _ _ _ _ _ Hi), zsum_cons. specialize (Hp key Hk).
    assert (used key (mkExec d cmd (clock w) reply) = holds key (Some (owner d))) as ->.
    { unfold used, holds. cbn [x_of]. f_equal. apply bool_decide_ext. naive_solver. }
    change (holds key None) with 0. lia.
  - intros key [j Hj]%list_elem_of_lookup. destruct (decide (j = i)) as [->|Hne].
    + rewrite list_lookup_insert_eq in Hj by (eapply lookup_lt_Some; exact Hi). done.
    + rewrite list_lookup_insert_ne in Hj by done. apply Hh, list_elem_of_lookup. by exists j.
  - intros key v e Hv. eapply vouched_mono; [|by eapply Hr]. set_solver.
  - intros x [->|Hx]%elem_of_cons; [cbn; split_and!; [done|done|lia|done]|by apply He].
Qed.

Lemma world_ok_reports w helds key v : world_ok w helds → get_key w key = Some v → vouched (execs w) key v.
Proof.
  intros Hw. unfold get_key. destruct (map_get (store w) key) as [[u e]|] eqn:E; [|done]. cbn. unfold live. cbn.
  intros Hl. assert (u = v) as -> by (destruct e; [case_match; congruence|congruence]). by eapply ok_reports.
Qed.

Lemma step_ok f reply w p w' p' helds i held :
  step f reply w p = Some (w', p') → helds !! i = Some held → world_ok w helds → safe held (clock w) (execs w) p →
  ∃ held', world_ok w' (<[i := held']> helds) ∧ safe held' (clock w') (execs w') p' ∧ clock w' = clock w ∧ execs w ⊆ execs w'.
Proof.
  intros Hs Hi Hw Hp.
  assert (∀ u q, world_ok u helds → clock u = clock w → execs u = execs w → safe held (clock w) (execs w) q →
    ∃ held', world_ok u (<[i := held']> helds) ∧ safe held' (clock u) (execs u) q ∧ clock u = clock w ∧ execs w ⊆ execs u) as Hsame.
  { intros u q H1 H2 H3 H4. exists held. rewrite list_insert_id by done. by rewrite H2, H3. }
  assert (∀ (op : world → world * list delivery) k,
    (∀ u, world_ok u helds → world_ok (op u).1 helds ∧ clock (op u).1 = clock u ∧ execs (op u).1 = execs u ∧ Forall (fun d => d_at d = clock u) (op u).2) →
    safe held (clock w) (execs w) (k None) ∧ (∀ t ds, clock w ≤ t → Forall (fun d => d_at d = t) ds → safe held t (execs w) (k (Some ds))) →
    Some ((call f op w).1, k (call f op w).2) = Some (w', p') →
    ∃ held', world_ok w' (<[i := held']> helds) ∧ safe held' (clock w') (execs w') p' ∧ clock w' = clock w ∧ execs w ⊆ execs w') as Hdeliver.
  { intros op k Hop [H1 H2] [= <- <-]. destruct (Hop w Hw) as (Ho & Hc & Hx & Hd). destruct (Hop (op w).1 Ho) as (Ho' & Hc' & Hx' & Hd').
    unfold call. destruct f.
    - destruct (op w) as [u ds]. apply Hsame; [done..|]. by apply H2.
    - by apply Hsame.
    - by apply Hsame.
    - destruct (op (op w).1) as [u ds]. cbn [fst snd] in *. apply Hsame; [done|congruence|congruence|]. apply H2; [done|by rewrite Hc in Hd']. }
  destruct p as [a|k|key k|key v s k|key v s k|key k|kv k|id k|n k|m n k|d cmd k|ms k|t k]; cbn [step safe] in *; unfold resume in Hs.
  - done.
  - injection Hs as <- <-. apply Hsame; [done..|]. apply Hp. lia.
  - injection Hs as <- <-. destruct Hp as (H1 & H2 & H3). apply Hsame.
    1-3: eapply call_keeps; [intros; done|done].
    assert ((call f (fun w => (w, get_key w key)) w).2 = None ∨ (call f (fun w => (w, get_key w key)) w).2 = Some (get_key w key)) as [->| ->].
    { destruct f; cbn; auto. }
    + done.
    + destruct (get_key w key) as [v|] eqn:E; [|done]. apply H3; [done|]. by eapply world_ok_reports.
  - injection Hs as <- <-. destruct Hp as (H1 & H2 & H3).
    edestruct (call_keeps f (do_set key v s) w helds) as (? & ? & ?); [|done|by apply Hsame].
    intros u Hc Hx Hu. split_and!; [apply set_ok; [done|by rewrite Hx|done]|done..].
  - injection Hs as <- <-. destruct Hp as (H1 & H2 & H3 & H4 & H5 & H6).
    pose proof (setnx_step f key v s w helds H1 H2 H3 Hw) as H. destruct (call f (do_setnx key v s) w) as [u r]. cbn [fst snd].
    destruct H as (Hu & Hc & Hx & Hg). destruct r as [[]|].
    + exists (Some key). rewrite Hc, Hx. split_and!; [|done..]. eapply helds_insert; [done|done|by intros ? [= <-]|].
      intros k' Hk. specialize (Hg eq_refl k' Hk). rewrite Hx. pose proof (holds_nonneg k' held). lia.
    + by apply Hsame.
    + by apply Hsame.
  - injection Hs as <- <-. destruct Hp as [H1 H2].
    edestruct (call_keeps f (do_del key) w helds) as (? & ? & ?); [|done|by apply Hsame].
    intros u Hc Hx Hu. split_and!; [by apply del_ok|done..].
  - injection Hs as <- <-. edestruct (call_keeps f (do_xadd kv) w helds) as (? & ? & ?); [|done|by apply Hsame].
    intros u Hc Hx Hu. split_and!; [by apply world_ok_stream|done..].
  - injection Hs as <- <-. edestruct (call_keeps f (do_xack id) w helds) as (? & ? & ?); [|done|by apply Hsame].
    intros u Hc Hx Hu. split_and!; [by apply world_ok_stream|done..].
  - eapply Hdeliver; [|exact Hp|exact Hs]. intros u Hu. by apply deliver_ok.
  - eapply Hdeliver; [|exact Hp|exact Hs]. intros u Hu. by apply deliver_ok.
  - injection Hs as <- <-. destruct Hp as (-> & H2 & H3 & H4). exists None. split_and!; [by apply exec_ok|cbn; by apply H4|done|cbn; set_solver].
  - injection Hs as <- <-. apply Hsame; [done..|]. cbn. intros t Ht Ht'. apply Hp. lia.
  - destruct (t <=? clock w) eqn:E; [|done]. injection Hs as <- <-. bool_to_Prop. apply Hsame; [done..|]. by apply Hp.
Qed.

(** * Systems *)

Definition task_ok (w : world) (t : option (prog A)) (held : option jstr) : Prop :=
  match t with Some p => safe held (clock w) (execs w) p | None => True end.
Definition sys_ok (s : system A) (helds : list (option jstr)) : Prop :=
  world_ok (the_world s) helds ∧ Forall2 (task_ok (the_world s)) (tasks s) helds.

(** Others leave the markers alone and report nothing; programs are started
    that behave. *)
Definition event_ok (e : event A) : Prop :=
  match e with
  | Put key v _ => ¬ marker key ∧ ¬ reports key v
  | Start p => ∀ lo, safe None lo [] p
  | _ => True
  end.

Lemma tasks_mono w w' ts helds : clock w ≤ clock w' → execs w ⊆ execs w' → Forall2 (task_ok w) ts helds → Forall2 (task_ok w') ts helds.
Proof. intros Hc Hx Ht. eapply Forall2_impl; [exact Ht|]. intros [p|] held; [|done]. by apply safe_mono. Qed.

Lemma tick_ok w ms helds : world_ok w helds →
  world_ok (mkWorld (clock w + Z.of_nat ms) (store w) (stream w) (claims w) (execs w)) helds.
Proof.
  intros [[? ?] ? ? ? Hl ? ? He]. constructor; try done; cbn [clock claims execs store].
  - split; [lia|done].
  - intros key t Hk Hm. destruct (Hl _ _ Hk Hm) as [Ht Hlive]. split; [lia|]. intros Hlt. apply Hlive. lia.
  - intros x Hx. destruct (He x Hx) as (? & ? & ?). split_and!; [done|lia|lia|done].
Qed.

Lemma put_ok key v e w helds : ¬ marker key → ¬ reports key v → world_ok w helds →
  world_ok (set_store w (map_set (store w) key (v, e))) helds.
Proof.
  intros Hm Hrep [? ? ? ? Hl ? Hr ?]. constructor; try done; cbn.
  - intros key' t Ht Hk. destruct (Hl _ _ Ht Hk) as [Hle Hlive]. split; [done|]. intros Hlt. rewrite map_get_set.
    case_decide; [by subst|by apply Hlive].
  - intros key' v' e'. rewrite map_get_set. case_decide; [intros [= <- <-] Hrep'; by subst|apply Hr].
Qed.

Lemma start_ok w helds : world_ok w helds → world_ok w (helds ++ [None]).
Proof.
  intros [? Hp Hh ? ? ? ? ?]. constructor; try done.
  - intros key Hk. rewrite zsum_app. change (zsum (holds key) [None]) with 0. specialize (Hp key Hk). lia.
  - intros key [Hin|Hin]%elem_of_app; [by apply Hh|]. by apply list_elem_of_singleton in Hin.
Qed.

Lemma redis_next_ok s helds e : event_ok e → sys_ok s helds → ∃ helds', sys_ok (next s e) helds'.
Proof.
  intros He [Hw Ht]. unfold next. destruct e as [ms|key v ex|kv|n|p|i f reply|i].
  - exists helds. split; [by apply tick_ok|]. eapply tasks_mono; [| |exact Ht]; [cbn; lia|done].
  - exists helds. destruct He. split; [by apply put_ok|done].
  - exists helds. split; [by apply world_ok_stream|done].
  - exists helds. split; [by apply world_ok_stream|done].
  - exists (helds ++ [None]). split; [by apply start_ok|]. apply Forall2_app; [done|]. constructor; [|constructor].
    eapply safe_mono; [reflexivity| |apply He]. set_solver.
  - destruct (tasks s !! i) as [[p|]|] eqn:Ei; [|by exists helds|by exists helds].
    destruct (step f reply (the_world s) p) as [[w' p']|] eqn:Es; [|by exists helds].
    destruct (Forall2_lookup_l _ _ _ _ _ Ht Ei) as (held & Hi & Hp).
    destruct (step_ok _ _ _ _ _ _ _ _ _ Es Hi Hw Hp) as (held' & Hw' & Hp' & Hc & Hx).
    exists (<[i := held']> helds). split; [done|]. cbn [the_world tasks]. apply Forall2_insert; [|done].
    eapply tasks_mono; [|done|exact Ht]. by rewrite Hc.
  - exists (<[i := None]> helds). destruct (helds !! i) as [held|] eqn:Ei.
    + split; [|by apply Forall2_insert]. eapply helds_insert; [done|done|done|].
      intros key Hk. pose proof (ok_paid _ _ Hw key Hk). pose proof (holds_nonneg key held). change (holds key None) with 0. cbn. lia.
    + cbn. rewrite !list_insert_ge; [done| |]; apply lookup_ge_None_1 in Ei; [done|]. by rewrite (Forall2_length _ _ _ Ht).
Qed.

Lemma redis_run_ok es s helds : Forall event_ok es → sys_ok s helds → ∃ helds', sys_ok (run s es) helds'.
Proof.
  intros Hes. revert s helds. unfold run. induction Hes as [|e es He Hes IH]; intros s helds Hs; [by exists helds|].
  destruct (redis_next_ok s helds e He Hs) as [helds' Hs']. cbn [foldl]. by eapply IH.
Qed.

Lemma init_ok w : clock w = start → claims w = [] → execs w = [] →
  (∀ key v e, map_get (store w) key = Some (v, e) → ¬ reports key v) → sys_ok (mkSystem w []) [].
Proof.
  intros Hc Hcl Hx Hr. split; [|constructor]. constructor; cbn [the_world]; rewrite ?Hcl, ?Hx.
  - split; [lia|]. by intros c ?%elem_of_nil.
  - intros key _. done.
  - by intros key ?%elem_of_nil.
  - constructor.
  - by intros key t ?%elem_of_nil.
  - by intros c ?%elem_of_nil.
  - intros key v e Hv Hrep. by destruct (Hr key v e Hv).
  - by intros x ?%elem_of_nil.
Qed.

(** Claims of a key are spaced, so few fit into the time elapsed. *)
Lemma granted_bound (cs : list (jstr * Z)) key lo hi :
  StronglySorted (fun c c' : jstr * Z => c.1 = c'.1 → c'.2 + ttl * 1000 ≤ c.2) cs →
  (∀ c, c ∈ cs → c.1 = key → lo ≤ c.2 ≤ hi) → lo ≤ hi → (zsum (granted key) cs - 1) * (ttl * 1000) ≤ hi - lo.
Proof.
  intros Hs. revert hi. induction Hs as [|c cs Hs IH Hc]; intros hi Hin Hle.
  - change (zsum (granted key) []) with 0. lia.
  - rewrite zsum_cons. unfold granted at 1, one. case_bool_decide as Hk.
    + assert (∀ c', c' ∈ cs → c'.1 = key → lo ≤ c'.2 ≤ c.2 - ttl * 1000) as Hin'.
      { intros c' Hc' Hk'. rewrite Forall_forall in Hc. specialize (Hc c' Hc' ltac:(congruence)). destruct (Hin c' ltac:(by right) Hk'). lia. }
      destruct (Z.lt_ge_cases (c.2 - ttl * 1000) lo) as [Hlt|Hge].
      * assert (zsum (granted key) cs = 0) as ->; [|destruct (Hin c ltac:(by left) Hk); nia].
        apply zsum_zero. intros c' Hc'. unfold granted, one. case_bool_decide as Hk'; [|done]. destruct (Hin' c' Hc' Hk'). lia.
      * specialize (IH (c.2 - ttl * 1000) Hin' Hge). destruct (Hin c ltac:(by left) Hk). lia.
    + apply (IH hi); [|done]. intros c' Hc'. apply Hin. by right.
Qed.

Lemma used_bound w helds key : marker key → world_ok w helds → (zsum (used key) (execs w) - 1) * (ttl * 1000) ≤ clock w - start.
Proof.
  intros Hk Hw. etrans; [|apply (granted_bound (claims w) key); [by apply Hw| |]].
  - pose proof (ok_paid _ _ Hw key Hk). assert (0 ≤ zsum (holds key) helds) by (apply zsum_nonneg; intros; apply holds_nonneg). nia.
  - intros [k t] Hc <-. destruct (ok_since _ _ Hw) as [_ Hs]. pose proof (Hs _ Hc). destruct (ok_live _ _ Hw _ _ Hc Hk). cbn in *. lia.
  - by apply Hw.
Qed.
End Safety.

(** Sequencing: what follows must behave whatever is still held. *)
Lemma safe_andThen {A B} marker ttl owner timely reports vouches (post : Z → list execution → B → Prop) held lo xs (p : prog A) (f : A → prog B) :
  safe marker ttl owner timely reports vouches (fun lo xs a => ∀ held, safe marker ttl owner timely reports vouches post held lo xs (f a)) held lo xs p →
  safe marker ttl owner timely reports vouches post held lo xs (andThen p f).
Proof.
  revert held lo xs.
  induction p as [a|k IH|key k IH|key v s k IH|key v s k IH|key k IH|kv k IH|id k IH|n k IH|m n k IH|d cmd k IH|ms k IH|t k IH];
    intros held lo xs; cbn [safe andThen]; naive_solver.
Qed.

(** What a result satisfies may be weakened. *)
Lemma safe_conseq {A} marker ttl owner timely reports vouches (P Q : Z → list execution → A → Prop) held lo xs p :
  (∀ lo xs a, P lo xs a → Q lo xs a) →
  safe marker ttl owner timely reports vouches P held lo xs p → safe marker ttl owner timely reports vouches Q held lo xs p.
Proof.
  intros HPQ. revert held lo xs.
  induction p as [a|k IH|key k IH|key v s k IH|key v s k IH|key k IH|kv k IH|id k IH|n k IH|m n k IH|d cmd k IH|ms k IH|t k IH];
    intros held lo xs; cbn [safe]; naive_solver.
Qed.
