(* ===== verification/RconQueue.v ===== *)
(** [apps/workers/rcon/src/commands.ts] ([RconCommandQueue]) and
    [apps/api/src/lib/rcon-worker-command.ts]: the queue that carries operator
    commands from the API and other producers to the worker that holds the RCON
    connection, as programs of RedisTasks. *)
From S2P Require Import Prelude JsString JsDate JsMap JsJson Collections BanPublish OperatorCommand RedisTasks.

(** * Constants and options *)

Definition RESULT_TTL_SECONDS : Z := 120.
Definition DEFAULT_COUNT : nat := 10.
Definition DEFAULT_RECLAIM_MIN_IDLE_MS : Z := 60000.
Definition DEFAULT_RECLAIM_INTERVAL_MS : Z := 30000.
Definition DEFAULT_MAX_COMMAND_AGE_MS : Z := 45000.
Definition DONE_MARKER_TTL_SECONDS : Z := 24 * 3600.
Definition STALE_COMMAND_ERROR : jstr := js "stale".
Definition RCON_COMMAND_EXPIRED_ERROR : jstr := js "expired".
Definition RCON_COMMAND_DEADLINE_FIELD : jstr := js "deadline_at".
Definition RCON_COMMAND_RESULT_PREFIX : jstr := js "rcon:command-result:".
Definition RCON_COMMAND_DONE_PREFIX : jstr := js "rcon:command-done:".
Definition rconCommandResultKey (requestId : jstr) : jstr := RCON_COMMAND_RESULT_PREFIX ++ requestId.
Definition rconCommandDoneKey (requestId : jstr) : jstr := RCON_COMMAND_DONE_PREFIX ++ requestId.

Record RconCommandQueueOptions := mkQueueOptions {
  serverId : jstr;
  count : nat;
  resultTtlSeconds : Z;
  reclaimMinIdleMs : Z;
  reclaimIntervalMs : Z;
  maxCommandAgeMs : Z;
}.
Definition default_options (server : jstr) : RconCommandQueueOptions :=
  mkQueueOptions server DEFAULT_COUNT RESULT_TTL_SECONDS DEFAULT_RECLAIM_MIN_IDLE_MS DEFAULT_RECLAIM_INTERVAL_MS DEFAULT_MAX_COMMAND_AGE_MS.

(** * Results *)

Record RconCommandResult := mkCommandResult {
  res_ok : bool;
  res_server : jstr;
  res_request : jstr;
  res_command : option RconOperatorCommandName;
  res_response : option jstr;
  res_error : option jstr;
  res_completed : jstr;
  res_duration : Z;
}.

Definition optional (k : jstr) (v : option json) : list (jstr * json) :=
  match v with Some v => [(k, v)] | None => [] end.
Definition result_json (r : RconCommandResult) : json :=
  JObj ([(js "ok", JBool (res_ok r)); (js "server_id", JStr (res_server r)); (js "request_id", JStr (res_request r))]
    ++ optional (js "command") ((fun c => JStr (command_text c)) <$> res_command r)
    ++ optional (js "response") (JStr <$> res_response r)
    ++ optional (js "error") (JStr <$> res_error r)
    ++ [(js "completed_at", JStr (res_completed r)); (js "duration_ms", JNum (int_str (res_duration r)))]).

(** The two payloads written as JSON, the parser, [Date.parse] and the text of
    a schema's refusal. *)
Class QueueEnv := {
  queue_commands :: CommandEnv;
  stringify_result : RconCommandResult → jstr;
  stringify_request : RconCommandRequest → jstr;
  JSON_parse : jstr → option json;
  Date_parse : jstr → option Z;
  parse_error : jstr → jstr;
}.

Section Queue.
Context `{QueueEnv}.

Definition bool_schema (v : option json) : option bool := match v with Some (JBool b) => Some b | _ => None end.
Definition optional_string (v : option json) : option (option jstr) :=
  match v with None => Some None | Some (JStr s) => Some (Some s) | Some _ => None end.
Definition optional_command (v : option json) : option (option RconOperatorCommandName) :=
  match v with None => Some None | Some v => Some <$> rconOperatorCommandNameSchema (Some v) end.
(** [z.number().int().nonnegative()]; an integer's text is its digits. *)
Definition duration_schema (v : option json) : option Z :=
  match v with Some (JNum t) => if all_digits t then Some (digits_value t) else None | _ => None end.
Definition result_keys : list jstr :=
  [js "ok"; js "server_id"; js "request_id"; js "command"; js "response"; js "error"; js "completed_at"; js "duration_ms"].

Definition rconCommandResultSchema (v : json) : option RconCommandResult :=
  match v with
  | JObj fs =>
      ok ← bool_schema (map_get fs (js "ok"));
      server ← map_get fs (js "server_id") ≫= (fun v => match v with JStr s => if bool_decide (s = []) then None else Some s | _ => None end);
      id ← map_get fs (js "request_id") ≫= string_between 1 128;
      command ← optional_command (map_get fs (js "command"));
      response ← optional_string (map_get fs (js "response"));
      error ← optional_string (map_get fs (js "error"));
      completed ← map_get fs (js "completed_at") ≫= (fun v => match v with JStr s => if is_datetime s then Some s else None | _ => None end);
      duration ← duration_schema (map_get fs (js "duration_ms"));
      if forallb (fun k => bool_decide (k ∈ result_keys)) (map_keys fs)
      then Some (mkCommandResult ok server id command response error completed duration) else None
  | _ => None
  end.

(** * The worker *)

Definition getField (kv : list jstr) (name : jstr) : option jstr :=
  match find_index (fun k => bool_decide (k = name)) kv with Some i => kv !! S i | None => None end.

(** The code catches a failed lookup and takes the key as missing. *)
Definition keyExists (key : jstr) : prog bool :=
  RGet key (fun r => Ret (match r with Some (Some _) => true | _ => false end)).
Definition resultExists (requestId : jstr) : prog bool := keyExists (rconCommandResultKey requestId).
Definition doneExists (requestId : jstr) : prog bool := keyExists (rconCommandDoneKey requestId).

Definition claimRequest (requestId : jstr) : prog (option bool) :=
  RSetNx (rconCommandDoneKey requestId) (js "1") DONE_MARKER_TTL_SECONDS (fun r => Ret r).

Definition writeResult (o : RconCommandQueueOptions) (result : RconCommandResult) : prog (option unit) :=
  match rconCommandResultSchema (result_json result) with
  | None => Ret None
  | Some result =>
      try _ := RSet (rconCommandResultKey (res_request result)) (stringify_result result) (resultTtlSeconds o) (fun r => Ret r) in
      RSet (rconCommandDoneKey (res_request result)) (js "1") DONE_MARKER_TTL_SECONDS (fun r => Ret r)
  end.

(** When the command was enqueued: its own field, else the entry's id. *)
Definition enqueuedMs (id : stream_id) (request : json) : Z :=
  match record_field request (js "enqueued_at") with
  | Some (JStr s) => default (id_ms id) (Date_parse s)
  | _ => id_ms id
  end.
Definition commandAgeMs (id : stream_id) (request : json) : prog Z := Now (fun t => Ret (t - enqueuedMs id request)).

Definition ack (d : delivery) : prog (option unit) := XAck (d_id d) (fun r => Ret r).

(** A command dropped for its age or its deadline. *)
Definition dropCommand (o : RconCommandQueueOptions) (d : delivery) (requestId : option jstr)
    (commandName : option RconOperatorCommandName) (error : jstr) : prog (option unit) :=
  match requestId with
  | Some id =>
      Now (fun t =>
        try _ := writeResult o (mkCommandResult false (serverId o) id commandName None (Some error) (to_iso_string t) 0) in
        ack d)
  | None => ack d
  end.

Definition deadlineMs (d : delivery) : option Z := Date_parse (default [] (getField (d_kv d) RCON_COMMAND_DEADLINE_FIELD)).
Definition past_deadline (startedAt : Z) (d : delivery) : bool :=
  match deadlineMs d with Some t => t <? startedAt | None => false end.

(** [buildOperatorCommand], the game server and the result of both. *)
Definition runCommand (o : RconCommandQueueOptions) (d : delivery) (request : json) (startedAt : Z)
    (requestId : option jstr) (commandName : option RconOperatorCommandName) : prog RconCommandResult :=
  let finish (ok : bool) (response error : option jstr) :=
    Now (fun t => Now (fun t' =>
      Ret (mkCommandResult ok (serverId o) (default [] requestId) commandName response error (to_iso_string t) (t' - startedAt)))) in
  match buildOperatorCommand request with
  | Throw message => finish false None (Some message)
  | Ok command =>
      Execute d command (fun reply =>
        match reply with
        | Ok response => finish true (Some response) None
        | Throw message => finish false None (Some message)
        end)
  end.

(** Storing the result and acknowledging: a result that cannot be stored is
    passed over when the command succeeded and thrown when it failed. *)
Definition storeResult (o : RconCommandQueueOptions) (d : delivery) (requestId : option jstr) (result : RconCommandResult)
    : prog (option unit) :=
  match requestId with
  | None => ack d
  | Some _ =>
      await stored := writeResult o result in
      match stored with
      | Some _ => ack d
      | None => if res_ok result then ack d else Ret None
      end
  end.

Definition request_of (d : delivery) : option json :=
  match getField (d_kv d) (js "request") with
  | None | Some [] => None
  | Some raw => JSON_parse raw
  end.

(** The part after the duplicate checks: drop it, or claim it and run it. *)
Definition processNew (o : RconCommandQueueOptions) (d : delivery) (request : json) (startedAt : Z)
    (requestId : option jstr) (commandName : option RconOperatorCommandName) : prog (option unit) :=
  await ageMs := commandAgeMs (d_id d) request in
  if maxCommandAgeMs o <? ageMs then dropCommand o d requestId commandName STALE_COMMAND_ERROR
  else if past_deadline startedAt d then dropCommand o d requestId commandName RCON_COMMAND_EXPIRED_ERROR
  else
    try claimed := match requestId with Some id => claimRequest id | None => Ret (Some true) end in
    if claimed : bool then
      await result := runCommand o d request startedAt requestId commandName in
      storeResult o d requestId result
    else ack d.

Definition processEntry (o : RconCommandQueueOptions) (d : delivery) : prog (option unit) :=
  match request_of d with
  | None => ack d
  | Some request =>
      Now (fun startedAt =>
        let requestId := requestIdOf request in
        let commandName := commandNameOf request in
        await duplicate :=
          match requestId with
          | Some id => await r := resultExists id in if r : bool then Ret true else doneExists id
          | None => Ret false
          end in
        if duplicate : bool then ack d else processNew o d request startedAt requestId commandName)
  end.

Fixpoint processEntries (o : RconCommandQueueOptions) (processed : Z) (ds : list delivery) : prog (option Z) :=
  match ds with
  | [] => Ret (Some processed)
  | d :: ds => try _ := processEntry o d in processEntries o (processed + 1) ds
  end.

Definition processOnce (o : RconCommandQueueOptions) : prog (option Z) :=
  XReadGroup (count o) (fun r => match r with Some ds => processEntries o 0 ds | None => Ret None end).
Definition reclaimPendingOnce (o : RconCommandQueueOptions) : prog (option Z) :=
  XAutoClaim (reclaimMinIdleMs o) (count o) (fun r => match r with Some ds => processEntries o 0 ds | None => Ret None end).

(** One turn of [loop]; it gives the next reclaim time. *)
Definition loop_turn (o : RconCommandQueueOptions) (nextReclaimAt : Z) : prog Z :=
  await processed := processOnce o in
  match processed with
  | None => Sleep 1000 (Ret nextReclaimAt)
  | Some n =>
      Now (fun t =>
        if nextReclaimAt <=? t then
          await reclaimed := reclaimPendingOnce o in
          match reclaimed with
          | None => Sleep 1000 (Ret nextReclaimAt)
          | Some _ => Now (fun t => if n =? 0 then Sleep 25 (Ret (t + reclaimIntervalMs o)) else Ret (t + reclaimIntervalMs o))
          end
        else if n =? 0 then Sleep 25 (Ret nextReclaimAt) else Ret nextReclaimAt)
  end.

(** The loop of a queue that is stopped after [turns] turns. *)
Fixpoint loop (o : RconCommandQueueOptions) (turns : nat) (nextReclaimAt : Z) : prog Z :=
  match turns with
  | O => Ret nextReclaimAt
  | S turns => await nextReclaimAt := loop_turn o nextReclaimAt in loop o turns nextReclaimAt
  end.

(** * The API *)

Inductive refusal := worker_not_connected | worker_unavailable.
Inductive failure := timeout | worker_rejected.

(** The text of a Redis fault is left out. *)
Inductive WorkerRconCommandOutcome :=
| NotAttempted (reason : refusal)
| Succeeded (requestId response : jstr)
| Failed (requestId : jstr) (reason : failure) (detail : option jstr).

Record SendRconCommandViaWorkerOptions := mkSendOptions {
  opt_server : jstr;
  opt_command : RconOperatorCommandName;
  opt_args : list jstr;
  opt_actor : option jstr;
  opt_requestId : option jstr;
  timeoutMs : Z;
  pollIntervalMs : Z;
}.

(** How a call of the API ended: with an outcome, with the schema's exception,
    or out of the turns the model gives the polling loop. *)
Inductive sent := Told (o : WorkerRconCommandOutcome) | Rejected | OutOfTurns.

Definition status_key (server : jstr) : jstr := js "rcon:status:" ++ server.
Definition connected_status (raw : jstr) : bool :=
  match JSON_parse raw with
  | Some v => match record_field v (js "state") with Some (JStr s) => bool_decide (s = js "connected") | _ => false end
  | None => false
  end.
Definition isWorkerRconConnected (server : jstr) : prog (option bool) :=
  RGet (status_key server) (fun r => Ret (
    match r with
    | None => None
    | Some None | Some (Some []) => Some false
    | Some (Some raw) => Some (connected_status raw)
    end)).

Definition request_json (r : RconCommandRequest) : json :=
  JObj ([(js "request_id", JStr (request_id r)); (js "command", JStr (command_text (command r))); (js "args", JArr (JStr <$> args r))]
    ++ optional (js "actor_player_id") ((fun a => match a with Some s => JStr s | None => JNull end) <$> actor_player_id r)
    ++ optional (js "enqueued_at") (JStr <$> enqueued_at r)).

(** What a stored result means to the caller. *)
Definition read_result (requestId raw : jstr) : WorkerRconCommandOutcome :=
  match JSON_parse raw with
  | None => Failed requestId worker_rejected (Some (parse_error raw))
  | Some v =>
      match rconCommandResultSchema v with
      | None => Failed requestId worker_rejected (Some (issues_of v))
      | Some r =>
          if res_ok r then Succeeded requestId (default [] (res_response r))
          else Failed requestId worker_rejected (res_error r)
      end
  end.

(** The polling loop; every turn but the last sleeps a millisecond or more. *)
Fixpoint pollResult (turns : nat) (requestId : jstr) (deadline interval : Z) (pollError : bool) : prog sent :=
  match turns with
  | O => Ret OutOfTurns
  | S turns =>
      let timedOut := Ret (Told (Failed requestId timeout (if pollError then Some [] else None))) in
      Now (fun t =>
        if deadline <? t then timedOut
        else
          RGet (rconCommandResultKey requestId) (fun r =>
            match r with
            | Some (Some (c :: raw)) =>
                RDel (rconCommandResultKey requestId) (fun _ => Ret (Told (read_result requestId (c :: raw))))
            | _ =>
                Now (fun t =>
                  let remaining := deadline - t in
                  if remaining <=? 0
                  then Ret (Told (Failed requestId timeout (if pollError || bool_decide (r = None) then Some [] else None)))
                  else Sleep (Z.max 1 (Z.min interval remaining))
                         (pollResult turns requestId deadline interval (pollError || bool_decide (r = None))))
            end))
  end.

(** [fresh] is the id [uuidv7] draws. The call once the worker is connected. *)
Definition sendConnected (fresh : jstr) (opts : SendRconCommandViaWorkerOptions) : prog sent :=
  Now (fun enqueuedAt =>
    match rconCommandRequestSchema (request_json (mkCommandRequest (default fresh (opt_requestId opts)) (opt_command opts) (opt_args opts)
             (Some (opt_actor opts)) (Some (to_iso_string enqueuedAt)))) with
    | None => Ret Rejected
    | Some request =>
        let deadline := enqueuedAt + timeoutMs opts in
        XAdd [js "request"; stringify_request request; RCON_COMMAND_DEADLINE_FIELD; to_iso_string deadline] (fun r =>
          match r with
          | None => Ret (Told (NotAttempted worker_unavailable))
          | Some _ => pollResult (S (S (Z.to_nat (timeoutMs opts)))) (request_id request) deadline (pollIntervalMs opts) false
          end)
    end).

Definition sendRconCommandViaWorker (fresh : jstr) (opts : SendRconCommandViaWorkerOptions) : prog sent :=
  await connected := isWorkerRconConnected (opt_server opts) in
  match connected with
  | None => Ret (Told (NotAttempted worker_unavailable))
  | Some false => Ret (Told (NotAttempted worker_not_connected))
  | Some true => sendConnected fresh opts
  end.

(** * The queue in its surroundings *)

(** Time, crashes, other writers and producers, workers that start, callers
    that start, and the steps of all of them. *)
Inductive queue_event :=
| Environment (e : event (option sent))
| Worker (o : RconCommandQueueOptions) (turns : nat) (nextReclaimAt : Z)
| Caller (fresh : jstr) (opts : SendRconCommandViaWorkerOptions).

Definition lower (e : queue_event) : event (option sent) :=
  match e with
  | Environment e => e
  | Worker o turns at_ => Start (await _ := loop o turns at_ in Ret None)
  | Caller fresh opts => Start (await r := sendRconCommandViaWorker fresh opts in Ret (Some r))
  end.

(** Other writers do not touch the two kinds of keys of the queue and run
    no programs; workers have the default age limit. *)
Definition as_deployed (e : queue_event) : bool :=
  match e with
  | Environment (Put key _ _) => negb (starts_with RCON_COMMAND_DONE_PREFIX key) && negb (starts_with RCON_COMMAND_RESULT_PREFIX key)
  | Environment (Start _) => false
  | Worker o _ _ => (maxCommandAgeMs o =? DEFAULT_MAX_COMMAND_AGE_MS)
  | _ => true
  end.

Definition queue_run (w : world) (es : list queue_event) : system (option sent) := run (mkSystem w []) (lower <$> es).
End Queue.

(** * Facts *)

(** The request an execution was for. *)
Definition request_id_of `{QueueEnv} (d : delivery) : option jstr := request_of d ≫= requestIdOf.

Section Facts.
Context `{QueueEnv}.
(** What [JSON.parse] makes of a written result. *)
Context (parse_stringify : ∀ r, JSON_parse (stringify_result r) = Some (result_json r)).

Definition marker (key : jstr) : Prop := starts_with RCON_COMMAND_DONE_PREFIX key = true.
Definition owner (d : delivery) : jstr := rconCommandDoneKey (default [] (request_id_of d)).
Definition timely (d : delivery) : Prop :=
  past_deadline (d_at d) d = false ∧
  ∀ request, request_of d = Some request → d_at d - enqueuedMs (d_id d) request ≤ DEFAULT_MAX_COMMAND_AGE_MS.
Definition stored_success (v : jstr) (r : RconCommandResult) : Prop := JSON_parse v ≫= rconCommandResultSchema = Some r ∧ res_ok r = true.
Definition reports (key v : jstr) : Prop :=
  starts_with RCON_COMMAND_RESULT_PREFIX key = true ∧ ∃ r, stored_success v r.
(** The execution a successful result is of: its request, command line and
    answer. *)
Definition answers (x : execution) (r : RconCommandResult) : Prop :=
  x_reply x = Ok (default [] (res_response r)) ∧
  ∃ request, request_of (x_of x) = Some request ∧ requestIdOf request = Some (res_request r) ∧ commandNameOf request = res_command r ∧
    buildOperatorCommand request = Ok (x_cmd x).
Definition vouches (x : execution) (key v : jstr) : Prop :=
  ∃ r, key = rconCommandResultKey (res_request r) ∧ stored_success v r ∧ answers x r.

Lemma starts_with_prefixed p s : starts_with p (p ++ s) = true.
Proof. apply bool_decide_eq_true. by exists s. Qed.

Lemma marker_done id : marker (rconCommandDoneKey id).
Proof. apply starts_with_prefixed. Qed.

Lemma result_not_marker id : ¬ marker (rconCommandResultKey id).
Proof. by vm_compute. Qed.

Lemma done_not_report id v : ¬ reports (rconCommandDoneKey id) v.
Proof. intros [Hp _]. by vm_compute in Hp. Qed.

Lemma int_str_digits n : all_digits (int_str n) = true → digits_value (int_str n) = n.
Proof.
  unfold int_str. destruct (n <? 0) eqn:E; bool_to_Prop.
  - unfold all_digits. intros Hd. by bool_to_Prop.
  - intros _. by apply nat_str_spec.
Qed.

Lemma optional_command_text c c' : optional_command ((fun c => JStr (command_text c)) <$> c) = Some c' → c' = c.
Proof.
  destruct c as [c|]; [|by intros [= <-]]. destruct (command_text_spec c) as [Hc _].
  change (Some <$> command_of_text (command_text c) = Some c' → c' = Some c). rewrite Hc. by intros [= <-].
Qed.

Lemma optional_string_text s s' : optional_string (JStr <$> s) = Some s' → s' = s.
Proof. destruct s; by intros [= <-]. Qed.

Lemma schema_result_json r r' : rconCommandResultSchema (result_json r) = Some r' → r' = r.
Proof.
  unfold result_json, rconCommandResultSchema. set (fs := _ ++ _).
  assert (map_get fs (js "ok") = Some (JBool (res_ok r))) as -> by reflexivity.
  assert (map_get fs (js "server_id") = Some (JStr (res_server r))) as -> by reflexivity.
  assert (map_get fs (js "request_id") = Some (JStr (res_request r))) as -> by reflexivity.
  assert (map_get fs (js "command") = (fun c => JStr (command_text c)) <$> res_command r) as ->
    by (subst fs; destruct r as [? ? ? [c|] [|] [|] ? ?]; reflexivity).
  assert (map_get fs (js "response") = JStr <$> res_response r) as -> by (subst fs; destruct r as [? ? ? [c|] [|] [|] ? ?]; reflexivity).
  assert (map_get fs (js "error") = JStr <$> res_error r) as -> by (subst fs; destruct r as [? ? ? [c|] [|] [|] ? ?]; reflexivity).
  assert (map_get fs (js "completed_at") = Some (JStr (res_completed r))) as -> by (subst fs; destruct r as [? ? ? [c|] [|] [|] ? ?]; reflexivity).
  assert (map_get fs (js "duration_ms") = Some (JNum (int_str (res_duration r)))) as -> by (subst fs; destruct r as [? ? ? [c|] [|] [|] ? ?]; reflexivity).
  clearbody fs. intros Hs.
  repeat match type of Hs with (_ ≫= _) = Some _ => apply bind_Some in Hs as (? & ? & Hs) end.
  destruct (forallb _ _); [|done]. destruct r as [ok sv id c resp err comp dur]. cbn [res_ok res_server res_request res_command res_response res_error res_completed res_duration] in *.
  repeat match goal with
  | E : optional_command _ = Some _ |- _ => apply optional_command_text in E as ->
  | E : optional_string _ = Some _ |- _ => apply optional_string_text in E as ->
  | E : (Some _ ≫= _) = Some _ |- _ => cbn in E
  | E : bool_schema _ = Some _ |- _ => cbn in E
  | E : duration_schema _ = Some _ |- _ => cbn in E
  end.
  repeat case_match; simplify_eq. by rewrite int_str_digits.
Qed.

Lemma owner_of d id : request_id_of d = Some id → owner d = rconCommandDoneKey id.
Proof. unfold owner. by intros ->. Qed.

Lemma done_key_inj id id' : rconCommandDoneKey id = rconCommandDoneKey id' → id = id'.
Proof. apply app_inv_head. Qed.
Lemma result_key_inj id id' : rconCommandResultKey id = rconCommandResultKey id' → id = id'.
Proof. apply app_inv_head. Qed.

(** Only a request with an id becomes a command. *)
Lemma built_has_id request cmd : buildOperatorCommand request = Ok cmd → is_Some (requestIdOf request).
Proof.
  intros (r & Hr & _)%buildOperatorCommand_exact_aux. unfold rconCommandRequestSchema in Hr. destruct request as [| | | | |fs]; try done.
  apply bind_Some in Hr as (id & (v & Hv & Hs)%bind_Some & _). unfold requestIdOf, record_field. rewrite Hv.
  unfold string_between in Hs. destruct v as [| | |s| |]; try done. case_bool_decide; [by subst|by eexists].
Qed.

(** * Every program of the queue behaves *)

Notation queue_safe := (safe marker DONE_MARKER_TTL_SECONDS owner timely reports vouches).

Lemma stored_success_result r r' : stored_success (stringify_result r) r' → r' = r ∧ res_ok r = true.
Proof. intros [Hr Hok]. rewrite parse_stringify in Hr. cbn in Hr. apply schema_result_json in Hr. by subst. Qed.

(** A success that is written must be that of an execution so far. *)
Definition backed (xs : list execution) (r : RconCommandResult) : Prop := res_ok r = true → ∃ x, x ∈ xs ∧ answers x r.

Lemma safe_writeResult {A} post o r held lo xs (f : option unit → prog A) : backed xs r →
  (∀ a, queue_safe post held lo xs (f a)) → queue_safe post held lo xs (andThen (writeResult o r) f).
Proof.
  intros Hb Hf. unfold writeResult. destruct (rconCommandResultSchema (result_json r)) as [r'|] eqn:Er; [|apply Hf].
  apply schema_result_json in Er as ->. cbn. split; [by intros ?%result_not_marker|]. split.
  - intros [_ (r' & Hs)]. pose proof (stored_success_result _ _ Hs) as [-> Hok]. destruct (Hb Hok) as (x & Hx & Hr). exists x. split; [done|]. by exists r.
  - intros [u|]; cbn; [|apply Hf]. split; [done|]. split; [intros Hr; by apply done_not_report in Hr|]. intros a. apply Hf.
Qed.

Lemma safe_ack {A} post d held lo xs (f : option unit → prog A) :
  (∀ a, queue_safe post held lo xs (f a)) → queue_safe post held lo xs (andThen (ack d) f).
Proof. intros Hf r. apply Hf. Qed.

Definition later {A} (lo : Z) : Z → list execution → A → Prop := fun lo' _ _ => lo ≤ lo'.

Lemma safe_drop o d id name error held lo xs lo0 : lo0 ≤ lo →
  queue_safe (later lo0) held lo xs (dropCommand o d id name error).
Proof.
  intros Hlo. unfold dropCommand. destruct id as [id|]; [|intros r; exact Hlo]. intros t Ht. unfold orThrow.
  apply safe_writeResult; [by intros ?|]. intros [u|]; [|cbn; unfold later; lia]. intros r. cbn. unfold later. lia.
Qed.

Lemma safe_store o d id r held lo xs lo0 : lo0 ≤ lo → backed xs r →
  queue_safe (later lo0) held lo xs (storeResult o d id r).
Proof.
  intros Hlo Hb. unfold storeResult. destruct id as [id|]; [|intros a; exact Hlo].
  apply safe_writeResult; [done|]. intros [u|]; [intros a; exact Hlo|]. destruct (res_ok r); [intros a|]; exact Hlo.
Qed.

Lemma safe_run o d request startedAt lo xs lo0 held : request_of d = Some request →
  (is_Some (requestIdOf request) → held = Some (owner d)) → timely d → lo0 ≤ d_at d → d_at d ≤ lo →
  queue_safe (later lo0) held lo xs
    (await result := runCommand o d request startedAt (requestIdOf request) (commandNameOf request) in storeResult o d (requestIdOf request) result).
Proof.
  intros Hreq Hheld Ht Hlo0 Hd. unfold runCommand. destruct (buildOperatorCommand request) as [cmd|e] eqn:Eb.
  - pose proof (built_has_id _ _ Eb) as [id Hid]. rewrite Hid in *. cbn [andThen safe].
    split_and!; [by apply Hheld|done|done|]. intros t r Hlo.
    destruct r as [response|message]; cbn [andThen safe]; intros t1 H1 t2 H2; (apply safe_store; [lia|]); [|done].
    intros _. eexists. split; [by left|]. split; [done|]. by exists request.
  - cbn [andThen safe]. intros t1 H1 t2 H2. apply safe_store; [lia|done].
Qed.

Lemma safe_processNew o d request startedAt held lo xs lo0 : maxCommandAgeMs o = DEFAULT_MAX_COMMAND_AGE_MS →
  request_of d = Some request → lo0 ≤ d_at d → d_at d ≤ startedAt → startedAt ≤ lo →
  queue_safe (later lo0) held lo xs (processNew o d request startedAt (requestIdOf request) (commandNameOf request)).
Proof.
  intros Ho Hreq Hlo0 Hst Hlo. unfold processNew. cbn [commandAgeMs andThen]. intros now Hnow. rewrite Ho.
  destruct (DEFAULT_MAX_COMMAND_AGE_MS <? now - enqueuedMs (d_id d) request) eqn:Eage; [apply safe_drop; lia|].
  destruct (past_deadline startedAt d) eqn:Edl; [apply safe_drop; lia|]. bool_to_Prop.
  assert (timely d) as Ht.
  { split.
    - unfold past_deadline in *. destruct (deadlineMs d); [|done]. bool_to_Prop. apply Z.ltb_ge. lia.
    - intros request' Hr'. rewrite Hreq in Hr'. injection Hr' as <-. lia. }
  pose proof (fun held => safe_run o d request startedAt now xs lo0 held Hreq) as Hrun.
  destruct (requestIdOf request) as [id|] eqn:Hid.
  - cbn [orThrow claimRequest andThen]. split; [apply marker_done|]. split; [done|]. split; [intros Hr; by apply done_not_report in Hr|].
    split; [cbn; unfold later; lia|]. split; [intros r; cbn; unfold later; lia|].
    rewrite <-(owner_of d id) by (unfold request_id_of; by rewrite Hreq). apply Hrun; [done|done|done|lia].
  - apply Hrun; [by intros [? ?]|done|done|lia].
Qed.

Lemma safe_duplicate {A} post id held lo xs (f : bool → prog A) :
  (∀ xs' b, xs ⊆ xs' → queue_safe post held lo xs' (f b)) →
  queue_safe post held lo xs (andThen (await r := resultExists id in if r : bool then Ret true else doneExists id) f).
Proof.
  intros Hf.
  assert (∀ xs', xs ⊆ xs' → queue_safe post held lo xs' (andThen (doneExists id) f)) as Hdone.
  { intros xs' Hx. cbn. split_and!; [by apply Hf..|]. intros v ys Hy _. apply Hf. by etrans. }
  change (andThen (await r := resultExists id in if r : bool then Ret true else doneExists id) f)
    with (RGet (rconCommandResultKey id) (fun r => andThen (if match r with Some (Some _) => true | _ => false end then Ret true else doneExists id) f)).
  cbn [safe]. split_and!; [by apply Hdone..|]. intros v xs' Hx _. by apply Hf.
Qed.

Lemma safe_processEntry o d held lo xs lo0 : maxCommandAgeMs o = DEFAULT_MAX_COMMAND_AGE_MS → lo0 ≤ d_at d → d_at d ≤ lo →
  queue_safe (later lo0) held lo xs (processEntry o d).
Proof.
  intros Ho Hlo0 Hlo. unfold processEntry. destruct (request_of d) as [request|] eqn:Hreq; [|intros r; cbn; unfold later; lia].
  intros startedAt Hst. pose proof (fun xs => safe_processNew o d request startedAt held startedAt xs lo0 Ho Hreq Hlo0) as Hnew.
  assert (∀ xs, queue_safe (later lo0) held startedAt xs (ack d)) as Hack by (intros ys r; cbn; unfold later; lia).
  destruct (requestIdOf request) as [id|]; [|apply Hnew; lia].
  apply safe_duplicate. intros xs' [] _; [apply Hack|apply Hnew; lia].
Qed.

Lemma safe_processEntries o n ds held lo xs t : maxCommandAgeMs o = DEFAULT_MAX_COMMAND_AGE_MS →
  Forall (fun d => d_at d = t) ds → t ≤ lo → queue_safe (later t) held lo xs (processEntries o n ds).
Proof.
  intros Ho Hds. revert n held lo xs. induction Hds as [|d ds Hd Hds IH]; intros n held lo xs Hlo; [exact Hlo|].
  cbn [processEntries]. unfold orThrow. apply safe_andThen. eapply safe_conseq; [|apply (safe_processEntry o d held lo xs t); [done|lia|lia]].
  intros lo' xs' [u|] Hlo' held'; [by apply IH|exact Hlo'].
Qed.

Definition anything {A} : Z → list execution → A → Prop := fun _ _ _ => True.

Lemma safe_read o held lo xs : maxCommandAgeMs o = DEFAULT_MAX_COMMAND_AGE_MS →
  queue_safe anything held lo xs (processOnce o) ∧ queue_safe anything held lo xs (reclaimPendingOnce o).
Proof.
  intros Ho. split; (split; [done|]); intros t ds Ht Hds; (eapply safe_conseq; [|by eapply safe_processEntries]); done.
Qed.

Lemma safe_loop o turns : maxCommandAgeMs o = DEFAULT_MAX_COMMAND_AGE_MS →
  ∀ at_ held lo xs, queue_safe anything held lo xs (loop o turns at_).
Proof.
  intros Ho. induction turns as [|turns IH]; intros at_ held lo xs; [done|]. cbn [loop]. apply safe_andThen.
  assert (∀ at_ held lo xs, queue_safe (fun lo xs a => ∀ held, queue_safe anything held lo xs (loop o turns a)) held lo xs (Ret at_)) as Hret.
  { intros ? ? ? ? ?. apply IH. }
  unfold loop_turn. apply safe_andThen. eapply safe_conseq; [|apply (proj1 (safe_read o held lo xs Ho))].
  intros lo1 xs1 [n|] _ held1; [|intros t _; apply Hret]. intros t Ht. destruct (at_ <=? t).
  - apply safe_andThen. eapply safe_conseq; [|apply (proj2 (safe_read o held1 t xs1 Ho))].
    intros lo2 xs2 [m|] _ held2; [|intros t2 _; apply Hret]. intros t2 _. destruct (n =? 0); [intros t3 _|]; apply Hret.
  - destruct (n =? 0); [intros t3 _|]; apply Hret.
Qed.

(** What a caller is told. *)
Definition sent_ok (lo : Z) (xs : list execution) (r : sent) : Prop :=
  match r with
  | Told (Succeeded id response) => ∃ x, x ∈ xs ∧ request_id_of (x_of x) = Some id ∧ x_reply x = Ok response
  | OutOfTurns => False
  | _ => True
  end.
Definition result_ok (lo : Z) (xs : list execution) (r : option sent) : Prop :=
  match r with Some r => sent_ok lo xs r | None => True end.

(** A success found under a key is that of an execution. *)
Lemma stored_answered id v xs r : vouched reports vouches xs (rconCommandResultKey id) v → stored_success v r →
  res_request r = id ∧ ∃ x, x ∈ xs ∧ answers x r.
Proof.
  intros Hv Hs. destruct Hv as (x & Hx & r' & Hid%result_key_inj & [Hr' _] & Ha); [split; [apply starts_with_prefixed|by exists r]|].
  destruct Hs as [Hr _]. rewrite Hr in Hr'. injection Hr' as <-. eauto.
Qed.

Lemma answers_id x r : answers x r → request_id_of (x_of x) = Some (res_request r).
Proof. intros (_ & request & Hreq & Hid & _). unfold request_id_of. by rewrite Hreq. Qed.

Lemma read_result_ok lo id v xs : vouched reports vouches xs (rconCommandResultKey id) v → sent_ok lo xs (Told (read_result id v)).
Proof.
  intros Hv. unfold read_result. destruct (JSON_parse v) as [j|] eqn:Ej; [|done].
  destruct (rconCommandResultSchema j) as [r|] eqn:Er; [|done]. destruct (res_ok r) eqn:Eo; [|done].
  destruct (stored_answered id v xs r Hv) as (<- & x & Hx & Ha); [split; [by rewrite Ej|done]|].
  exists x. split; [done|]. split; [by apply answers_id|apply Ha].
Qed.

Lemma safe_poll turns id deadline interval pe held lo xs : Z.max 0 (deadline - lo + 1) < Z.of_nat turns →
  queue_safe sent_ok held lo xs (pollResult turns id deadline interval pe).
Proof.
  revert pe lo xs. induction turns as [|turns IH]; intros pe lo xs Hturns; [lia|]. cbn [pollResult]. intros t Ht.
  destruct (deadline <? t) eqn:Ed; [done|]. bool_to_Prop.
  assert (∀ (pe : bool) xs, queue_safe sent_ok held t xs (Now (fun t0 => if deadline - t0 <=? 0
     then Ret (Told (Failed id timeout (if pe then Some [] else None)))
     else Sleep (Z.max 1 (Z.min interval (deadline - t0))) (pollResult turns id deadline interval pe)))) as Hagain.
  { intros pe' ys t' Ht'. destruct (deadline - t' <=? 0) eqn:Er; [done|]. bool_to_Prop. intros t'' Ht''. apply IH. lia. }
  split; [apply Hagain|]. split; [apply Hagain|]. intros [|c v] xs' Hx Hv; [apply Hagain|].
  split; [apply result_not_marker|]. intros a. by apply read_result_ok.
Qed.

Lemma safe_send fresh opts held lo xs : queue_safe sent_ok held lo xs (sendRconCommandViaWorker fresh opts).
Proof.
  unfold sendRconCommandViaWorker.
  assert (∀ c xs, queue_safe sent_ok held lo xs
    (match c with
     | None => Ret (Told (NotAttempted worker_unavailable))
     | Some false => Ret (Told (NotAttempted worker_not_connected))
     | Some true => sendConnected fresh opts
     end)) as Hc.
  { intros [[]|] ys; [|done..]. intros t Ht. destruct (rconCommandRequestSchema _) as [request|]; [|done].
    intros [u|]; [|done]. apply safe_poll. lia. }
  split; [exact (Hc None xs)|]. split; [exact (Hc (Some false) xs)|]. intros v xs' _ _.
  destruct v as [|c v]; [exact (Hc (Some false) xs')|exact (Hc (Some (connected_status (c :: v))) xs')].
Qed.

Lemma as_deployed_ok e : as_deployed e = true → event_ok marker DONE_MARKER_TTL_SECONDS owner timely reports vouches result_ok (lower e).
Proof.
  destruct e as [e|o turns at_|fresh opts]; cbn [lower as_deployed].
  - destruct e as [|key v ex| | | | |]; try done. intros Ho. bool_to_Prop. split; [unfold marker; congruence|]. intros [Hr _]. congruence.
  - intros Ho lo. bool_to_Prop. apply safe_andThen. eapply safe_conseq; [|by apply safe_loop]. done.
  - intros _ lo. apply safe_andThen. eapply safe_conseq; [|apply safe_send]. intros lo' xs' r Hr held. exact Hr.
Qed.

(** * All interleavings *)

(** Where a run starts: no result of the queue is stored yet. *)
Definition starts_clean (w : world) : Prop :=
  claims w = [] ∧ execs w = [] ∧
  forallb (fun kv => negb (starts_with RCON_COMMAND_RESULT_PREFIX kv.1)) (store w) = true.

Lemma map_get_elem {V} (m : list (jstr * V)) k v : map_get m k = Some v → (k, v) ∈ m.
Proof.
  induction m as [|[k' v'] m IH]; cbn [map_get]; [done|]. case_decide as Hk; [intros [= ->]; subst; by left|].
  intros Hm. right. by apply IH.
Qed.

Lemma queue_run_ok w es : starts_clean w → forallb as_deployed es = true →
  ∃ helds, sys_ok marker DONE_MARKER_TTL_SECONDS owner timely reports vouches result_ok (clock w) (queue_run w es) helds.
Proof.
  intros (Hc & Hx & Hs) Hes. unfold queue_run. eapply redis_run_ok with (helds := []).
  - done.
  - intros t t' xs xs' [[[| |]| |]|] Hle Hsub; try done. cbn. intros (x & Hin & ?). exists x. split; [by apply Hsub|done].
  - apply Forall_fmap. rewrite forallb_forall in Hes. apply Forall_forall. intros e He. apply as_deployed_ok, Hes. by apply list_elem_of_In.
  - apply init_ok; [done|done|done|]. intros key v e Hv [Hr _]. apply map_get_elem in Hv.
    rewrite forallb_forall in Hs. specialize (Hs (key, (v, e)) (proj1 (list_elem_of_In _ _) Hv)). cbn [fst] in Hs. by rewrite Hr in Hs.
Qed.

Definition executions_of (id : jstr) (w : world) : list execution :=
  jfilter (fun x => bool_decide (request_id_of (x_of x) = Some id)) (execs w).

Lemma executions_used id xs :
  Z.of_nat (length (jfilter (fun x => bool_decide (request_id_of (x_of x) = Some id)) xs)) ≤ zsum (used owner (rconCommandDoneKey id)) xs.
Proof.
  induction xs as [|x xs IH]; [done|]. rewrite zsum_cons. unfold jfilter in *. cbn [List.filter]. unfold used at 1, one.
  case_bool_decide as Hx; cbn [length].
  - rewrite bool_decide_eq_true_2 by by apply owner_of. lia.
  - case_match; lia.
Qed.


(** No stale command runs: whatever reached the game server was handed to
    its worker before its deadline and within 45 seconds of being enqueued. *)
Theorem executed_in_time w es x : starts_clean w → forallb as_deployed es = true → x ∈ execs (the_world (queue_run w es)) →
  (∀ t, deadlineMs (x_of x) = Some t → d_at (x_of x) ≤ t) ∧
  (∀ request, request_of (x_of x) = Some request → d_at (x_of x) - enqueuedMs (d_id (x_of x)) request ≤ 45000) ∧
  d_at (x_of x) ≤ x_at x.
Proof.
  intros Hw Hes Hx. destruct (queue_run_ok w es Hw Hes) as (helds & Hok & _). destruct (ok_execs _ _ _ _ _ _ _ _ _ Hok x Hx) as ([Hd Ha] & [? ?] & _).
  split_and!; [|done|done]. intros t Ht. unfold past_deadline in Hd. rewrite Ht in Hd. by bool_to_Prop.
Qed.

Lemma task_result w es i r : starts_clean w → forallb as_deployed es = true →
  tasks (queue_run w es) !! i = Some (Some (Ret (Some r))) → sent_ok (clock (the_world (queue_run w es))) (execs (the_world (queue_run w es))) r.
Proof.
  intros Hw Hes Hi. destruct (queue_run_ok w es Hw Hes) as (helds & _ & Ht).
  destruct (Forall2_lookup_l _ _ _ _ _ Ht Hi) as (held & _ & Hr). exact Hr.
Qed.

(** C18: A caller that is told its command succeeded is told the truth: a
    command with its request id ran, and the game server answered just that. *)
Theorem caller_told_the_truth w es i id response : starts_clean w → forallb as_deployed es = true →
  tasks (queue_run w es) !! i = Some (Some (Ret (Some (Told (Succeeded id response))))) →
  ∃ x, x ∈ execs (the_world (queue_run w es)) ∧ request_id_of (x_of x) = Some id ∧ x_reply x = Ok response.
Proof. intros Hw Hes Hi. apply (task_result w es i _ Hw Hes Hi). Qed.

(** C38: The polling loop of a caller ends: it never takes more turns than its
    wait has milliseconds, plus two. *)
Theorem polling_ends w es i : starts_clean w → forallb as_deployed es = true →
  tasks (queue_run w es) !! i ≠ Some (Some (Ret (Some OutOfTurns))).
Proof. intros Hw Hes Hi. apply (task_result w es i _ Hw Hes Hi). Qed.
End Facts.

(** * Concrete runs *)

(** An environment where a result is written as a mark and its fields, each
    string after its length. *)
Definition put_str (s : jstr) : jstr := Z.of_nat (length s) :: s.
Definition put_opt (s : option jstr) : jstr := match s with Some s => 1 :: put_str s | None => [0] end.
Definition get_str (t : jstr) : option (jstr * jstr) :=
  match t with n :: t => Some (take (Z.to_nat n) t, drop (Z.to_nat n) t) | [] => None end.
Definition get_opt (t : jstr) : option (option jstr * jstr) :=
  match t with
  | 0 :: t => Some (None, t)
  | _ :: t => (fun st => (Some st.1, st.2)) <$> get_str t
  | [] => None
  end.
Definition put_result (r : RconCommandResult) : jstr :=
  -1 :: (if res_ok r then 1 else 0) :: res_duration r :: put_str (res_server r) ++ put_str (res_request r)
    ++ put_opt (command_text <$> res_command r) ++ put_opt (res_response r) ++ put_opt (res_error r) ++ put_str (res_completed r).
Definition get_result (t : jstr) : option RconCommandResult :=
  match t with
  | ok :: duration :: t =>
      '(server, t) ← get_str t; '(id, t) ← get_str t; '(c, t) ← get_opt t; '(response, t) ← get_opt t; '(error, t) ← get_opt t;
      '(completed, _) ← get_str t;
      Some (mkCommandResult (ok =? 1) server id (c ≫= command_of_text) response error completed duration)
  | _ => None
  end.

Lemma get_put_str s t : get_str (put_str s ++ t) = Some (s, t).
Proof. cbn [get_str put_str app]. by rewrite Nat2Z.id, take_app_length, drop_app_length. Qed.
Lemma get_put_opt s t : get_opt (put_opt s ++ t) = Some (s, t).
Proof.
  destruct s as [s|]; [|done]. change ((fun st => (Some st.1, st.2)) <$> get_str (put_str s ++ t) = Some (Some s, t)).
  by rewrite get_put_str.
Qed.
Lemma get_put_result r : get_result (drop 1 (put_result r)) = Some r.
Proof.
  unfold put_result. cbn [drop get_result]. rewrite get_put_str. cbn [mbind option_bind]. rewrite get_put_str. cbn [mbind option_bind].
  rewrite get_put_opt. cbn [mbind option_bind]. rewrite get_put_opt. cbn [mbind option_bind]. rewrite get_put_opt. cbn [mbind option_bind].
  rewrite <-(app_nil_r (put_str (res_completed r))), get_put_str. cbn [mbind option_bind].
  destruct r as [[] sv id [c|] resp err comp dur]; cbn [res_ok res_command fmap option_fmap option_map mbind option_bind]; try done;
    by rewrite (proj1 (command_text_spec c)).
Qed.

Definition ex_request : json :=
  JObj [(js "request_id", JStr (js "r1")); (js "command", JStr (js "AdminKick"));
        (js "args", JArr [JStr (js "76561198000000001"); JStr (js "afk")]);
        (js "enqueued_at", JStr (js "2026-01-01T00:00:00.000Z"))].
Definition ex_parse (s : jstr) : option json :=
  match s with
  | -1 :: t => result_json <$> get_result t
  | _ =>
      if bool_decide (s = js "kick") then Some ex_request
      else if bool_decide (s = js "up") then Some (JObj [(js "state", JStr (js "connected"))]) else None
  end.
#[local] Instance ex_queue_env : QueueEnv := {
  queue_commands := {| is_datetime _ := true; issues_of _ := [] |};
  stringify_result := put_result;
  stringify_request _ := js "kick";
  JSON_parse := ex_parse;
  Date_parse := date_parse;
  parse_error _ := [];
}.

Lemma ex_parse_stringify r : JSON_parse (stringify_result r) = Some (result_json r).
Proof.
  change (JSON_parse (stringify_result r)) with (result_json <$> get_result (drop 1 (put_result r))). by rewrite get_put_result.
Qed.

(** 2026-01-01. *)
Definition ex_start : Z := 1767225600000.
Definition ex_world : world := mkWorld ex_start [(status_key (js "s1"), (js "up", None))] [] [] [].
Definition ex_options : SendRconCommandViaWorkerOptions :=
  mkSendOptions (js "s1") AdminKick [js "76561198000000001"; js "afk"] None (Some (js "r1")) 4000 100.
Definition steps (i n : nat) (f : fate) (reply : result jstr jstr) : list queue_event := replicate n (Environment (Step i f reply)).

(** A caller (0) and a worker (1): the command runs and the caller hears of it. *)
Definition ex_run : list queue_event :=
  [Caller (js "r0") ex_options; Worker (default_options (js "s1")) 1 0] ++ steps 0 7 Done (Ok [])
  ++ steps 1 12 Done (Ok (js "kicked")) ++ [Environment (Tick 100)] ++ steps 0 4 Done (Ok []).

Example ex_run_result : tasks (queue_run ex_world ex_run) !! 0%nat = Some (Some (Ret (Some (Told (Succeeded (js "r1") (js "kicked")))))).
Proof. vm_compute. reflexivity. Qed.

(** The states of the stream and the times of execution. *)
Definition entry_states (s : system (option sent)) : list entry_state := en_state <$> stream (the_world s).
Definition exec_times (s : system (option sent)) : list Z := (fun x => x_at x - ex_start) <$> execs (the_world s).

(** A deadline of four seconds passes while the worker waits for Redis: it
    compares the time it took before its lookups, and the command starts ten
    seconds later. *)
Definition ex_late : list queue_event :=
  [Caller (js "r0") ex_options; Worker (default_options (js "s1")) 1 0] ++ steps 0 7 Done (Ok [])
  ++ steps 1 2 Done (Ok []) ++ [Environment (Tick 10000)] ++ steps 1 5 Done (Ok (js "kicked")).
Lemma command_starts_after_deadline :
  exec_times (queue_run ex_world ex_late) = [10000] ∧ (deadlineMs ∘ x_of <$> execs (the_world (queue_run ex_world ex_late))) = [Some (ex_start + 4000)].
Proof. vm_compute. split; reflexivity. Qed.

(** The game server refuses a command and the result cannot be stored: the
    entry stays pending, but the worker that reclaims it sees the marker,
    acknowledges, and no result is ever stored. *)
Definition ex_lost : list queue_event :=
  [Caller (js "r0") ex_options; Worker (default_options (js "s1")) 1 0] ++ steps 0 7 Done (Ok [])
  ++ steps 1 9 Done (Throw (js "no such player")) ++ steps 1 1 Refused (Ok []) ++ steps 1 2 Done (Ok [])
  ++ [Environment (Tick 61000); Worker (default_options (js "s1")) 1 0].
Definition ex_reclaimed : list queue_event := ex_lost ++ steps 2 7 Done (Ok []).
Lemma failure_result_not_retried :
  entry_states (queue_run ex_world ex_lost) = [Pending ex_start] ∧
  entry_states (queue_run ex_world ex_reclaimed) = [Acked] ∧
  get_key (the_world (queue_run ex_world ex_reclaimed)) (rconCommandResultKey (js "r1")) = None.
Proof. vm_compute. split_and!; reflexivity. Qed.

Lemma ex_clean : starts_clean ex_world.
Proof. by vm_compute. Qed.


Lemma executed_in_time_witness : ∃ x, x ∈ execs (the_world (queue_run ex_world ex_run)) ∧
  (∀ t, deadlineMs (x_of x) = Some t → d_at (x_of x) ≤ t) ∧
  (∀ request, request_of (x_of x) = Some request → d_at (x_of x) - enqueuedMs (d_id (x_of x)) request ≤ 45000) ∧
  d_at (x_of x) ≤ x_at x.
Proof.
  assert (length (execs (the_world (queue_run ex_world ex_run))) = 1%nat) as Hl by (vm_compute; reflexivity).
  destruct (execs (the_world (queue_run ex_world ex_run))) as [|x xs] eqn:E; [done|]. exists x. split; [by left|].
  apply (executed_in_time ex_parse_stringify ex_world ex_run); [exact ex_clean|reflexivity|]. rewrite E. by left.
Defined.

Lemma caller_told_the_truth_witness : ∃ x, x ∈ execs (the_world (queue_run ex_world ex_run)) ∧
  request_id_of (x_of x) = Some (js "r1") ∧ x_reply x = Ok (js "kicked").
Proof. apply (caller_told_the_truth ex_parse_stringify ex_world ex_run 0%nat); [exact ex_clean|reflexivity|exact ex_run_result]. Defined.

Lemma polling_ends_witness : tasks (queue_run ex_world ex_run) !! 0%nat ≠ Some (Some (Ret (Some OutOfTurns))).
Proof. apply (polling_ends ex_parse_stringify); [exact ex_clean|reflexivity]. Defined.
