(* ===== verification/RconReload.v ===== *)
(** [apps/workers/config-sync/src/rcon-reload.ts]: asking the RCON worker of a
    server to reload its configuration after Admins.cfg was written, best effort
    or with a confirmed result, on the command queue of that server. *)
From S2P Require Import Prelude JsString JsMap JsJson JsDate OperatorCommand RedisTasks RconQueue.

Inductive AdminsCfgReloadOutcome := enqueued | skipped_rcon_disconnected | failed.
Inductive ConfirmedAdminsCfgReloadOutcome := confirmed | unavailable | rejected | timeout | invalid_result.

Definition DEFAULT_CONFIRM_TIMEOUT_MS : Z := 4000.
Definition DEFAULT_CONFIRM_POLL_MS : Z := 100.

Section Reload.
Context `{QueueEnv}.

(** The request, checked by the schema. *)
Definition reload_request (id : jstr) (now : Z) : option RconCommandRequest :=
  rconCommandRequestSchema (request_json (mkCommandRequest id AdminReloadServerConfig [] (Some None) (Some (to_iso_string now)))).

(** [fresh] is the id [uuidv7] draws; every exception is caught. *)
Definition requestAdminsCfgReload (fresh server : jstr) : prog AdminsCfgReloadOutcome :=
  RGet (status_key server) (fun raw =>
    match raw with
    | None => Ret failed
    | Some None | Some (Some []) => Ret skipped_rcon_disconnected
    | Some (Some raw) =>
        if negb (connected_status raw) then Ret skipped_rcon_disconnected
        else
          Now (fun t =>
            match reload_request fresh t with
            | None => Ret failed
            | Some request =>
                XAdd [js "request"; stringify_request request] (fun r => Ret (match r with Some _ => enqueued | None => failed end))
            end)
    end).

(** The id of one attempt for an outbox row. *)
Definition confirm_id (outboxId attempt : jstr) : jstr := js "admins-cfg-sync:" ++ outboxId ++ js ":" ++ attempt.

(** What a stored result says of the attempt. *)
Definition readResult (server id raw : jstr) : ConfirmedAdminsCfgReloadOutcome :=
  match JSON_parse raw with
  | None => invalid_result
  | Some v =>
      match rconCommandResultSchema v with
      | None => invalid_result
      | Some r =>
          if negb (bool_decide (res_server r = server)) || negb (bool_decide (res_request r = id))
             || negb (bool_decide (res_command r = Some AdminReloadServerConfig))
          then invalid_result
          else if res_ok r then confirmed else rejected
      end
  end.

(** The polling loop; [None] is out of the turns the model gives it. *)
Fixpoint pollConfirm (turns : nat) (server id : jstr) (deadline interval : Z) : prog (option ConfirmedAdminsCfgReloadOutcome) :=
  match turns with
  | O => Ret None
  | S turns =>
      Now (fun t =>
        if deadline <? t then Ret (Some timeout)
        else
          RGet (rconCommandResultKey id) (fun raw =>
            match raw with
            | None => Ret (Some unavailable)
            | Some (Some (c :: raw)) => Ret (Some (readResult server id (c :: raw)))
            | _ =>
                Now (fun t =>
                  let remaining := deadline - t in
                  if remaining <=? 0 then Ret (Some timeout)
                  else Sleep (Z.max 1 (Z.min interval remaining)) (pollConfirm turns server id deadline interval))
            end))
  end.

Definition confirmAdminsCfgReload (server outboxId attempt : jstr) (timeoutMs pollIntervalMs : Z) : prog (option ConfirmedAdminsCfgReloadOutcome) :=
  let id := confirm_id outboxId attempt in
  Now (fun t =>
    match reload_request id t with
    | None => Ret (Some unavailable)
    | Some request =>
        XAdd [js "request"; stringify_request request] (fun r =>
          match r with
          | None => Ret (Some unavailable)
          | Some _ => Now (fun t => pollConfirm (S (S (Z.to_nat timeoutMs))) server id (t + timeoutMs) pollIntervalMs)
          end)
    end).

(** * With the queue around them *)

Inductive reload_event :=
| Queue (e : queue_event)
| Request (fresh server : jstr)
| Confirm (server outboxId attempt : jstr) (timeoutMs pollIntervalMs : Z).

(** How a program of the system ended. *)
Inductive ending := Sent (r : option sent) | Requested (o : AdminsCfgReloadOutcome) | Confirmed_ (id : jstr) (o : option ConfirmedAdminsCfgReloadOutcome).

Definition map_event {A B} (f : A → B) (e : event A) : event B :=
  match e with
  | Tick ms => Tick ms
  | Put key v expiry => Put key v expiry
  | Entry kv => Entry kv
  | Trim n => Trim n
  | Start p => Start (await a := p in Ret (f a))
  | Step i f reply => Step i f reply
  | Crash i => Crash i
  end.

Definition lower_reload (e : reload_event) : event ending :=
  match e with
  | Queue e => map_event Sent (RconQueue.lower e)
  | Request fresh server => Start (await o := requestAdminsCfgReload fresh server in Ret (Requested o))
  | Confirm server outboxId attempt timeoutMs pollIntervalMs =>
      Start (await o := confirmAdminsCfgReload server outboxId attempt timeoutMs pollIntervalMs in Ret (Confirmed_ (confirm_id outboxId attempt) o))
  end.
Definition reload_deployed (e : reload_event) : bool := match e with Queue e => as_deployed e | _ => true end.
Definition reload_run (w : world) (es : list reload_event) : system ending := run (mkSystem w []) (lower_reload <$> es).
End Reload.

Section Facts.
Context `{QueueEnv}.
(** What [JSON.parse] makes of a written result. *)
Context (parse_stringify : ∀ r, JSON_parse (stringify_result r) = Some (result_json r)).

Notation reload_safe := (safe marker DONE_MARKER_TTL_SECONDS owner timely reports vouches).

(** The game server ran the reload command for this request and answered. *)
Definition reloaded (id : jstr) (x : execution) : Prop :=
  request_id_of (x_of x) = Some id ∧ x_cmd x = js "AdminReloadServerConfig" ∧ ∃ response, x_reply x = Ok response.
Definition confirm_ok (id : jstr) (lo : Z) (xs : list execution) (o : option ConfirmedAdminsCfgReloadOutcome) : Prop :=
  match o with
  | Some confirmed => ∃ x, x ∈ xs ∧ reloaded id x
  | None => False
  | _ => True
  end.
Definition ending_ok (lo : Z) (xs : list execution) (a : ending) : Prop :=
  match a with Confirmed_ id o => confirm_ok id lo xs o | _ => True end.

(** A request that names the reload is sent as the reload. *)
Lemma reload_line request cmd : commandNameOf request = Some AdminReloadServerConfig → buildOperatorCommand request = Ok cmd →
  cmd = js "AdminReloadServerConfig".
Proof.
  unfold buildOperatorCommand, commandNameOf. intros Hn. destruct (rconCommandRequestSchema request) as [r|] eqn:Er; [|done].
  assert (command r = AdminReloadServerConfig) as ->.
  { unfold rconCommandRequestSchema in Er. destruct request as [| | | | |fs]; try done. unfold record_field in Hn.
    apply bind_Some in Er as (id & _ & Er). rewrite Hn in Er. cbn [mbind option_bind] in Er.
    apply bind_Some in Er as (? & _ & Er). apply bind_Some in Er as (? & _ & Er). apply bind_Some in Er as (? & _ & Er). case_match; [|done]. by injection Er as <-. }
  unfold ensureNoArgs. destruct (_ <? _)%nat; [done|]. by intros [= <-].
Qed.

Lemma answers_reloaded x r : answers x r → res_command r = Some AdminReloadServerConfig → reloaded (res_request r) x.
Proof.
  intros Ha Hc. split; [by apply answers_id|]. destruct Ha as (Hr & request & _ & _ & Hn & Hb). rewrite Hc in Hn.
  split; [by eapply reload_line|by eexists].
Qed.

Lemma readResult_ok server id v lo xs : vouched reports vouches xs (rconCommandResultKey id) v → confirm_ok id lo xs (Some (readResult server id v)).
Proof.
  intros Hv. unfold readResult. destruct (JSON_parse v) as [j|] eqn:Ej; [|done]. destruct (rconCommandResultSchema j) as [r|] eqn:Er; [|done].
  destruct (_ || _) eqn:Eb; [done|]. destruct (res_ok r) eqn:Eo; [|done]. bool_to_Prop.
  destruct (stored_answered id v xs r Hv) as (Hid & x & Hx & Ha); [split; [by rewrite Ej|done]|].
  exists x. split; [done|]. rewrite <-Hid. by apply answers_reloaded.
Qed.

Lemma safe_pollConfirm turns server id deadline interval held lo xs : Z.max 0 (deadline - lo + 1) < Z.of_nat turns →
  reload_safe (confirm_ok id) held lo xs (pollConfirm turns server id deadline interval).
Proof.
  revert lo xs. induction turns as [|turns IH]; intros lo xs Hturns; [lia|]. cbn [pollConfirm]. intros t Ht.
  destruct (deadline <? t) eqn:Ed; [done|]. bool_to_Prop.
  assert (∀ xs, reload_safe (confirm_ok id) held t xs (Now (fun t0 => if deadline - t0 <=? 0 then Ret (Some timeout)
     else Sleep (Z.max 1 (Z.min interval (deadline - t0))) (pollConfirm turns server id deadline interval)))) as Hagain.
  { intros ys t' Ht'. destruct (deadline - t' <=? 0) eqn:Er; [done|]. bool_to_Prop. intros t'' Ht''. apply IH. lia. }
  split; [done|]. split; [apply Hagain|]. intros [|c v] xs' Hx Hv; [apply Hagain|]. by apply (readResult_ok server id (c :: v)).
Qed.

Lemma safe_confirm server outboxId attempt timeoutMs interval held lo xs :
  reload_safe (confirm_ok (confirm_id outboxId attempt)) held lo xs (confirmAdminsCfgReload server outboxId attempt timeoutMs interval).
Proof.
  intros t Ht. destruct (reload_request _ _) as [request|]; [|done]. intros [u|]; [|done]. intros t' Ht'. apply safe_pollConfirm. lia.
Qed.

Lemma safe_request fresh server held lo xs : reload_safe anything held lo xs (requestAdminsCfgReload fresh server).
Proof.
  split; [done|]. split; [done|]. intros [|c v] xs' _ _; [done|]. destruct (negb _); [done|]. intros t _.
  by destruct (reload_request _ _).
Qed.

Lemma reload_deployed_ok e : reload_deployed e = true → event_ok marker DONE_MARKER_TTL_SECONDS owner timely reports vouches ending_ok (lower_reload e).
Proof.
  destruct e as [e|fresh server|server outboxId attempt timeoutMs interval]; cbn [lower_reload reload_deployed].
  - intros He. pose proof (as_deployed_ok parse_stringify e He) as Hok. destruct (RconQueue.lower e); try exact Hok.
    intros lo. apply safe_andThen. eapply safe_conseq; [|apply Hok]. done.
  - intros _ lo. apply safe_andThen. eapply safe_conseq; [|apply safe_request]. done.
  - intros _ lo. apply safe_andThen. eapply safe_conseq; [|apply safe_confirm]. intros lo' xs' o Ho held. exact Ho.
Qed.

Lemma reload_run_ok w es : starts_clean w → forallb reload_deployed es = true →
  ∃ helds, sys_ok marker DONE_MARKER_TTL_SECONDS owner timely reports vouches ending_ok (clock w) (reload_run w es) helds.
Proof.
  intros (Hc & Hx & Hs) Hes. unfold reload_run. eapply redis_run_ok with (helds := []).
  - done.
  - intros t t' xs xs' [| |id [[]|]] Hle Hsub; try done. cbn. intros (x & Hin & ?). exists x. split; [by apply Hsub|done].
  - apply Forall_fmap. rewrite forallb_forall in Hes. apply Forall_forall. intros e He. apply reload_deployed_ok, Hes. by apply list_elem_of_In.
  - apply init_ok; [done|done|done|]. intros key v e Hv [Hr _]. apply map_get_elem in Hv.
    rewrite forallb_forall in Hs. specialize (Hs (key, (v, e)) (proj1 (list_elem_of_In _ _) Hv)). cbn [fst] in Hs. by rewrite Hr in Hs.
Qed.

(** C33: A confirmed reload took place: whatever workers and callers run, and
    whatever faults and crashes occur, an attempt only ends in "confirmed" if
    the game server ran AdminReloadServerConfig for the request of that very
    attempt, in time, and answered without an error; and every attempt ends. *)
Theorem confirmed_means_reloaded w es i id o : starts_clean w → forallb reload_deployed es = true →
  tasks (reload_run w es) !! i = Some (Some (Ret (Confirmed_ id o))) →
  (o = Some confirmed → ∃ x, x ∈ execs (the_world (reload_run w es)) ∧ reloaded id x ∧
     ∀ request, request_of (x_of x) = Some request → d_at (x_of x) - enqueuedMs (d_id (x_of x)) request ≤ 45000) ∧ o ≠ None.
Proof.
  intros Hw Hes Hi. destruct (reload_run_ok w es Hw Hes) as (helds & Hok & Ht).
  destruct (Forall2_lookup_l _ _ _ _ _ Ht Hi) as (held & _ & Hr). cbn in Hr. split; [|by intros ->].
  intros ->. destruct Hr as (x & Hx & Hre). exists x. split; [done|]. split; [done|].
  by destruct (ok_execs _ _ _ _ _ _ _ _ _ Hok x Hx) as ([_ Ha] & _).
Qed.
End Facts.

(** * A concrete run *)

(** The request of one attempt and the results, written and parsed. *)
Definition ex_reload_request : json :=
  JObj [(js "request_id", JStr (confirm_id (js "o1") (js "a1"))); (js "command", JStr (js "AdminReloadServerConfig")); (js "args", JArr []);
        (js "actor_player_id", JNull); (js "enqueued_at", JStr (js "2026-01-01T00:00:00.000Z"))].
#[local] Instance ex_reload_env : QueueEnv := {
  queue_commands := {| is_datetime _ := true; issues_of _ := [] |};
  stringify_result := put_result;
  stringify_request _ := js "reload";
  JSON_parse s :=
    match s with
    | -1 :: t => result_json <$> get_result t
    | _ => if bool_decide (s = js "reload") then Some ex_reload_request else None
    end;
  Date_parse := date_parse;
  parse_error _ := [];
}.
Lemma ex_reload_parse r : JSON_parse (stringify_result r) = Some (result_json r).
Proof. change (JSON_parse (stringify_result r)) with (result_json <$> get_result (drop 1 (put_result r))). by rewrite get_put_result. Qed.

Definition ex_reload_world : world := mkWorld ex_start [] [] [] [].
Definition ex_reload_steps (i n : nat) (reply : result jstr jstr) : list reload_event := replicate n (Queue (Environment (Step i Done reply))).
Definition ex_reload_run : list reload_event :=
  [Confirm (js "s1") (js "o1") (js "a1") 4000 100; Queue (Worker (default_options (js "s1")) 1 0)] ++ ex_reload_steps 0 7 (Ok [])
  ++ ex_reload_steps 1 12 (Ok (js "reloaded")) ++ [Queue (Environment (Tick 100))] ++ ex_reload_steps 0 4 (Ok []).

Example ex_reload_result : tasks (reload_run ex_reload_world ex_reload_run) !! 0%nat = Some (Some (Ret (Confirmed_ (confirm_id (js "o1") (js "a1")) (Some confirmed)))).
Proof. vm_compute. reflexivity. Qed.
Lemma ex_reload_clean : starts_clean ex_reload_world.
Proof. by vm_compute. Qed.

Lemma confirmed_means_reloaded_witness : ∃ x, x ∈ execs (the_world (reload_run ex_reload_world ex_reload_run)) ∧ reloaded (confirm_id (js "o1") (js "a1")) x.
Proof.
  destruct (confirmed_means_reloaded ex_reload_parse ex_reload_world ex_reload_run 0%nat (confirm_id (js "o1") (js "a1")) (Some confirmed))
    as [Hx _]; [exact ex_reload_clean|reflexivity|exact ex_reload_result|].
  destruct (Hx eq_refl) as (x & Hin & Hr & _). by exists x.
Defined.
