(* ===== verification/ConfigSecrets.v ===== *)
(** [apps/api/src/lib/config-secrets.ts]: the RCON password and the license key
    in a server's config files: masking them for readers and the history,
    putting the password back before a write, and the check that a write does
    not move it. *)
From S2P Require Import Prelude JsString.

(** * Lines that hold a secret *)

(** [s] cut at the characters [br] selects: the first piece, and each further
    piece after its character. *)
Fixpoint split_breaks (br : Z → bool) (s : jstr) : jstr * list (Z * jstr) :=
  match s with
  | [] => ([], [])
  | c :: s => let '(h, t) := split_breaks br s in if br c then ([], (c, h) :: t) else (c :: h, t)
  end.
Definition join_breaks (h : jstr) (t : list (Z * jstr)) : jstr := h ++ concat ((fun b => b.1 :: b.2) <$> t).

Definition is_eol (c : Z) : bool := (c =? 10) || (c =? 13).
Definition is_separator (c : Z) : bool := (c =? 0x2028) || (c =? 0x2029).
Definition is_blank (c : Z) : bool := (c =? 32) || (c =? 9).
Definition to_upper (c : Z) : Z := if (97 <=? c) && (c <=? 122) then c - 32 else c.

Fixpoint span_blank (s : jstr) : jstr * jstr :=
  match s with
  | c :: s' => if is_blank c then let '(b, r) := span_blank s' in (c :: b, r) else ([], s)
  | [] => ([], [])
  end.
(** [key] at the start of [s], in any case: the text matched and the rest. *)
Fixpoint strip_key (key s : jstr) : option (jstr * jstr) :=
  match key, s with
  | [], _ => Some ([], s)
  | k :: key, c :: s => if to_upper c =? to_upper k then (fun mr => (c :: mr.1, mr.2)) <$> strip_key key s else None
  | _, [] => None
  end.

(** Blanks, the key, blanks, an equals sign and blanks at the start of [s]: the
    text matched and the rest. *)
Definition match_key (key s : jstr) : option (jstr * jstr) :=
  let '(b1, s) := span_blank s in
  '(k, s) ← strip_key key s;
  let '(b2, s) := span_blank s in
  match s with
  | 61 :: s => let '(b3, v) := span_blank s in Some (b1 ++ k ++ b2 ++ [61] ++ b3, v)
  | _ => None
  end.

(** [secretLineRe(key)] within a line: with [m] a match may also start after a
    Unicode line separator, and the value runs to the end of the line. *)
Fixpoint find_key (key h : jstr) (t : list (Z * jstr)) : option (jstr * jstr * jstr) :=
  match match_key key h with
  | Some (prefix, value) => Some ([], prefix, join_breaks value t)
  | None =>
      match t with
      | [] => None
      | (c, h') :: t => '(before, prefix, value) ← find_key key h' t; Some (h ++ c :: before, prefix, value)
      end
  end.
Definition secret_line (key line : jstr) : option (jstr * jstr * jstr) :=
  let '(h, t) := split_breaks is_separator line in find_key key h t.

(** [content.replace(secretLineRe(key), f)]; [f] gets the prefix and the value. *)
Definition replace_line (key : jstr) (f : jstr → jstr → jstr) (line : jstr) : jstr :=
  match secret_line key line with
  | Some (before, prefix, value) => before ++ f prefix value
  | None => line
  end.
Definition replace_secrets (key : jstr) (f : jstr → jstr → jstr) (content : jstr) : jstr :=
  let '(h, t) := split_breaks is_eol content in
  join_breaks (replace_line key f h) ((fun b => (b.1, replace_line key f b.2)) <$> t).

(** [content.matchAll(secretLineRe(key))], the second groups. *)
Definition lines_of (content : jstr) : list jstr := let '(h, t) := split_breaks is_eol content in h :: t.*2.
Definition secret_values (key content : jstr) : list jstr := omap (fun l => (fun m => m.2) <$> secret_line key l) (lines_of content).

(** * The module *)

Definition LICENSE_KEY_MASK : jstr := js "********".
Definition CONFIG_SECRET_MASK : jstr := LICENSE_KEY_MASK.
Definition SECRET_KEY_BY_FILE (filename : jstr) : option jstr :=
  if bool_decide (filename = js "Rcon.cfg") then Some (js "Password")
  else if bool_decide (filename = js "License.cfg") then Some (js "LicenseKey") else None.

Definition mask_value (prefix value : jstr) : jstr :=
  if bool_decide (trim value = []) then prefix ++ value else prefix ++ CONFIG_SECRET_MASK.
Definition maskConfigSecrets (filename content : jstr) : jstr :=
  match SECRET_KEY_BY_FILE filename with Some key => replace_secrets key mask_value content | None => content end.

Definition extractSecretValue (filename content : jstr) : option jstr :=
  key ← SECRET_KEY_BY_FILE filename; head (secret_values key content).

(** The suffix reads " (изменён)". *)
Definition CHANGED_SECRET_SUFFIX : jstr := [32; 40; 1080; 1079; 1084; 1077; 1085; 1105; 1085; 41].
Definition mark_value (prefix value : jstr) : jstr :=
  if bool_decide (trim value = CONFIG_SECRET_MASK) then prefix ++ CONFIG_SECRET_MASK ++ CHANGED_SECRET_SUFFIX else prefix ++ value.
Definition markChanged (filename maskedContent : jstr) : jstr :=
  match SECRET_KEY_BY_FILE filename with Some key => replace_secrets key mark_value maskedContent | None => maskedContent end.

Definition hasMaskedRconPassword (content : jstr) : bool :=
  existsb (fun v => bool_decide (trim v = CONFIG_SECRET_MASK)) (secret_values (js "Password") content).

Record RconCredentials := mkCreds { cred_password : jstr; cred_port : Z }.

(** [maskConfigSecretsForDiff], given the panel's credentials. *)
Definition differ (a b : option jstr) : bool :=
  match a, b with
  | Some a, Some b => negb (bool_decide (trim a = [])) && negb (bool_decide (trim b = [])) && negb (bool_decide (a = b))
  | _, _ => false
  end.
Definition maskConfigSecretsForDiff (creds : option RconCredentials) (filename before after : jstr) : jstr * jstr :=
  let maskedBefore := maskConfigSecrets filename before in
  let maskedAfter := maskConfigSecrets filename after in
  match SECRET_KEY_BY_FILE filename with
  | None => (maskedBefore, maskedAfter)
  | Some _ =>
      let changed :=
        if bool_decide (filename = js "Rcon.cfg")
        then differ (cred_password <$> creds) (extractSecretValue filename after)
        else differ (extractSecretValue filename before) (extractSecretValue filename after) in
      if changed then (maskedBefore, markChanged filename maskedAfter) else (maskedBefore, maskedAfter)
  end.

Inductive secret_error := RconPasswordUnavailableError | RconCredentialsManagedError.

(** [diskRconPassword], given what [readRconPassword] read. *)
Definition diskRconPassword (read : option jstr) : option jstr :=
  match read with Some p => if bool_decide (p = CONFIG_SECRET_MASK) then None else Some p | None => None end.

Definition unmask_value (password prefix value : jstr) : jstr :=
  if bool_decide (trim value = CONFIG_SECRET_MASK) then prefix ++ password else prefix ++ value.
(** [disk] is the password read from the file on disk. *)
Definition unmaskRconPassword (creds : option RconCredentials) (disk : option jstr) (content : jstr) : result secret_error jstr :=
  if negb (hasMaskedRconPassword content) then Ok content
  else
    match (match creds with Some c => Some (cred_password c) | None => diskRconPassword disk end) with
    | None => Throw RconPasswordUnavailableError
    | Some password => Ok (replace_secrets (js "Password") (unmask_value password) content)
    end.

Definition assertRconCredentialsUnchanged (creds : option RconCredentials) (diskContent : jstr) : result secret_error unit :=
  match creds with
  | None => Ok tt
  | Some c =>
      let values key := trim <$> secret_values key diskContent in
      let all_are (key v : jstr) :=
        negb (bool_decide (values key = [])) && forallb (fun x => bool_decide (x = v)) (values key) in
      if all_are (js "Password") (cred_password c) && all_are (js "Port") (int_str (cred_port c))
      then Ok tt else Throw RconCredentialsManagedError
  end.

Example mask_ex : maskConfigSecrets (js "Rcon.cfg") (js "Port=1" ++ [10] ++ js " pAssword = hunter2 " ++ [13; 10] ++ js "Password=")
  = js "Port=1" ++ [10] ++ js " pAssword = ********" ++ [13; 10] ++ js "Password=".
Proof. vm_compute. reflexivity. Qed.

(** [readRconPassword] of [sidecar-config.ts]: the first [Password], with only
    white space before it since the start of a line, white space, an equals
    sign, white space, and the rest of the line. [ok] says that only white
    space precedes; [None] is the exception. *)
Fixpoint take_line (s : jstr) : jstr :=
  match s with c :: s => if is_eol c || is_separator c then [] else c :: take_line s | [] => [] end.
Definition password_here (s : jstr) : option jstr :=
  if starts_with (js "Password") s then
    match trim_start (drop 8 s) with
    | 61 :: s => Some (trim (take_line (trim_start s)))
    | _ => None
    end
  else None.
Fixpoint scan_password (ok : bool) (s : jstr) : option jstr :=
  match (if ok then password_here s else None), s with
  | Some p, _ => Some p
  | None, [] => None
  | None, c :: s => scan_password (is_eol c || is_separator c || (ok && is_space c)) s
  end.
Definition readRconPassword (content : jstr) : option jstr := scan_password true content.

(** * Cutting and joining *)

Definition free (br : Z → bool) (s : jstr) : Prop := ∀ c, c ∈ s → br c = false.
Definition pieces_ok (br : Z → bool) (t : list (Z * jstr)) : Prop := Forall (fun b => br b.1 = true ∧ free br b.2) t.

Lemma free_cons br c s : free br (c :: s) ↔ br c = false ∧ free br s.
Proof. unfold free. setoid_rewrite elem_of_cons. naive_solver. Qed.
Lemma free_app br s t : free br (s ++ t) ↔ free br s ∧ free br t.
Proof. unfold free. setoid_rewrite elem_of_app. naive_solver. Qed.
Lemma free_nil br : free br [].
Proof. by intros c ?%elem_of_nil. Qed.

Lemma join_breaks_cons h c h' t : join_breaks h ((c, h') :: t) = h ++ c :: join_breaks h' t.
Proof. done. Qed.

Lemma split_breaks_ok br s : let '(h, t) := split_breaks br s in join_breaks h t = s ∧ free br h ∧ pieces_ok br t.
Proof.
  induction s as [|c s IH]; cbn [split_breaks]; [split_and!; [done|apply free_nil|constructor]|].
  destruct (split_breaks br s) as [h t]. destruct IH as (Hj & Hh & Ht). destruct (br c) eqn:Ec.
  - split_and!; [by rewrite join_breaks_cons, Hj|apply free_nil|by constructor].
  - split_and!; [|by apply free_cons|done]. unfold join_breaks in *. cbn. by rewrite Hj.
Qed.

Lemma split_breaks_free br h s : free br h → split_breaks br (h ++ s) = (let '(h', t) := split_breaks br s in (h ++ h', t)).
Proof.
  induction h as [|c h IH]; intros Hh; [cbn [app]; by destruct (split_breaks br s)|]. apply free_cons in Hh as [Hc Hh]. cbn [app split_breaks].
  rewrite IH by done. destruct (split_breaks br s). by rewrite Hc.
Qed.

Lemma split_breaks_join br h t : free br h → pieces_ok br t → split_breaks br (join_breaks h t) = (h, t).
Proof.
  intros Hh Ht. revert h Hh. induction Ht as [|[c h'] t [Hc Hh'] Ht IH]; intros h Hh.
  - unfold join_breaks. cbn. rewrite split_breaks_free by done. cbn. by rewrite app_nil_r.
  - rewrite join_breaks_cons, split_breaks_free by done. cbn [split_breaks]. rewrite IH by done. cbn in Hc. rewrite Hc. by rewrite app_nil_r.
Qed.

(** * One match *)

Definition no_lead (s : jstr) : Prop := match s with c :: _ => is_blank c = false | [] => True end.

Lemma span_blank_ok s b r : span_blank s = (b, r) → s = b ++ r ∧ forallb is_blank b = true ∧ no_lead r.
Proof.
  revert b r. induction s as [|c s IH]; intros b r; cbn [span_blank]; [by intros [= <- <-]|].
  destruct (is_blank c) eqn:Ec; [|by intros [= <- <-]]. destruct (span_blank s) as [b' r']. intros [= <- <-].
  destruct (IH _ _ eq_refl) as (-> & Hb & Hr). split_and!; [done|cbn; by rewrite Ec|done].
Qed.

Lemma span_blank_app b r : forallb is_blank b = true → no_lead r → span_blank (b ++ r) = (b, r).
Proof.
  induction b as [|c b IH]; intros Hb Hr.
  - destruct r as [|c r]; [done|]. cbn in *. by rewrite Hr.
  - cbn in Hb. bool_to_Prop. cbn [app span_blank]. rewrite IH by done. by destruct (is_blank c).
Qed.

Lemma strip_key_ok key s m r : strip_key key s = Some (m, r) →
  s = m ++ r ∧ length m = length key ∧ ∀ r', strip_key key (m ++ r') = Some (m, r').
Proof.
  revert s m r. induction key as [|k key IH]; intros s m r; cbn [strip_key].
  - intros [= <- <-]. split_and!; [done|done|]. intros r'. by destruct r'.
  - destruct s as [|c s]; [done|]. destruct (to_upper c =? to_upper k) eqn:Ec; [|done].
    destruct (strip_key key s) as [[m' r'']|] eqn:E; [|done]. intros [= <- <-]. destruct (IH _ _ _ E) as (-> & Hl & Hr).
    split_and!; [done|cbn; by rewrite Hl|]. intros r'. cbn [app strip_key]. by rewrite Ec, Hr.
Qed.

Lemma match_key_ok key h p v : key ≠ [] → match_key key h = Some (p, v) →
  h = p ++ v ∧ no_lead v ∧ ∀ v', no_lead v' → match_key key (p ++ v') = Some (p, v').
Proof.
  intros Hkey. unfold match_key. destruct (span_blank h) as [b1 r1] eqn:E1. apply span_blank_ok in E1 as (-> & Hb1 & Hr1).
  destruct (strip_key key r1) as [[k r2]|] eqn:E2; [|done]. apply strip_key_ok in E2 as (-> & Hl & Hk). cbn [mbind option_bind].
  destruct (span_blank r2) as [b2 r3] eqn:E3. apply span_blank_ok in E3 as (-> & Hb2 & Hr3).
  destruct r3 as [|e r4]; [done|]. destruct (decide (e = 61)) as [->|Hne]; [|by repeat (case_match; try done)].
  destruct (span_blank r4) as [b3 v3] eqn:E4. apply span_blank_ok in E4 as (-> & Hb3 & Hv). intros [= <- <-].
  split_and!; [by rewrite <-!app_assoc|done|]. intros v' Hv'. rewrite <-!app_assoc.
  rewrite span_blank_app; [|done|].
  2:{ destruct k as [|c k]; [by destruct key|]. exact Hr1. }
  rewrite Hk. cbn [mbind option_bind]. rewrite span_blank_app by done. cbn [app]. by rewrite span_blank_app.
Qed.

Lemma blank_not_eol c : is_blank c = true → is_eol c = false ∧ is_separator c = false.
Proof. unfold is_blank, is_eol, is_separator. intros H. bool_to_Prop. destruct H; bool_to_Prop; by subst. Qed.

Lemma no_lead_join h t : no_lead h → pieces_ok is_separator t → no_lead (join_breaks h t).
Proof.
  intros Hh Ht. destruct h as [|c h]; [|done]. destruct Ht as [|[c h'] t [Hc _] _]; [done|]. cbn in *.
  destruct (is_blank c) eqn:E; [|done]. apply blank_not_eol in E as [_ E]. congruence.
Qed.

Lemma no_lead_split br w h t : no_lead w → split_breaks br w = (h, t) → no_lead h.
Proof.
  destruct w as [|c w]; cbn [split_breaks]; [by intros _ [= <- <-]|]. intros Hc. destruct (split_breaks br w).
  destruct (br c); intros [= <- <-]; done.
Qed.

(** A match splits the line, and any other value in its place matches too. *)
Lemma find_key_ok key h t b p v : key ≠ [] → free is_separator h → pieces_ok is_separator t → find_key key h t = Some (b, p, v) →
  join_breaks h t = b ++ p ++ v ∧ no_lead v ∧ ∀ w, no_lead w → secret_line key (b ++ p ++ w) = Some (b, p, w).
Proof.
  intros Hkey Hh Ht. revert h Hh b p v. induction Ht as [|[c h'] t [Hc Hh'] Ht IH]; intros h Hh b p v; cbn [find_key];
    (destruct (match_key key h) as [[p' v']|] eqn:Em; [intros [= <- <- <-]; apply match_key_ok in Em as (-> & Hv & Hw); [|done]; apply free_app in Hh as [Hp Hh];
      split_and!; [unfold join_breaks; by rewrite <-app_assoc|apply no_lead_join; [done|by constructor]|];
      intros w Hnw; unfold secret_line; cbn [app]; rewrite split_breaks_free by done;
      destruct (split_breaks is_separator w) as [hw tw] eqn:Ew; pose proof (no_lead_split _ _ _ _ Hnw Ew) as Hhw;
      pose proof (split_breaks_ok is_separator w) as Hs; rewrite Ew in Hs; destruct Hs as (Hj & _ & _);
      destruct tw; cbn [find_key]; rewrite Hw by done; by rewrite Hj|]); [done|].
  destruct (find_key key h' t) as [[[b' p'] v']|] eqn:Ef; [|done]. intros [= <- <- <-].
  destruct (IH h' Hh' _ _ _ Ef) as (Hj & Hv & Hw). split_and!; [rewrite join_breaks_cons, Hj; by rewrite <-app_assoc|done|].
  intros w Hnw. specialize (Hw w Hnw). unfold secret_line in *. rewrite <-app_assoc. cbn [app]. rewrite split_breaks_free by done. cbn [split_breaks].
  destruct (split_breaks is_separator (b' ++ p' ++ w)) as [h2 t2]. cbn in Hc. rewrite Hc. rewrite app_nil_r. cbn [find_key]. by rewrite Em, Hw.
Qed.

Lemma secret_line_ok key line b p v : key ≠ [] → secret_line key line = Some (b, p, v) →
  line = b ++ p ++ v ∧ no_lead v ∧ ∀ w, no_lead w → secret_line key (b ++ p ++ w) = Some (b, p, w).
Proof.
  intros Hkey. unfold secret_line at 1. pose proof (split_breaks_ok is_separator line) as Hs. destruct (split_breaks is_separator line) as [h t].
  destruct Hs as (Hj & Hh & Ht). intros Hf. destruct (find_key_ok key h t b p v Hkey Hh Ht Hf) as (Hline & ? & ?). by rewrite <-Hline, Hj.
Qed.

(** * Replacing values *)

(** What a replacement may make of a value: nothing that begins with a blank
    or breaks the line. *)
Definition tame (w : jstr → jstr) : Prop := ∀ v, no_lead v → free is_eol v → no_lead (w v) ∧ free is_eol (w v).
Definition put (w : jstr → jstr) (p v : jstr) : jstr := p ++ w v.

Lemma replace_line_free key w l : key ≠ [] → tame w → free is_eol l → free is_eol (replace_line key (put w) l).
Proof.
  intros Hkey Hw Hl. unfold replace_line. destruct (secret_line key l) as [[[b p] v]|] eqn:E; [|done].
  destruct (secret_line_ok _ _ _ _ _ Hkey E) as (-> & Hv & _). unfold put. rewrite !free_app in *. destruct Hl as (? & ? & ?).
  split_and!; [done|done|by apply Hw].
Qed.

Lemma secret_line_replace key w l : key ≠ [] → tame w → free is_eol l →
  secret_line key (replace_line key (put w) l) = (fun m => (m.1, w m.2)) <$> secret_line key l.
Proof.
  intros Hkey Hw Hl. unfold replace_line. destruct (secret_line key l) as [[[b p] v]|] eqn:E; [|done].
  destruct (secret_line_ok _ _ _ _ _ Hkey E) as (-> & Hv & Hagain). rewrite !free_app in Hl. destruct Hl as (_ & _ & Hl). apply Hagain. by apply Hw.
Qed.

Lemma replace_secrets_split key w content h t : key ≠ [] → tame w → split_breaks is_eol content = (h, t) →
  split_breaks is_eol (replace_secrets key (put w) content) =
    (replace_line key (put w) h, (fun b => (b.1, replace_line key (put w) b.2)) <$> t).
Proof.
  intros Hkey Hw E. unfold replace_secrets. pose proof (split_breaks_ok is_eol content) as Hs. rewrite E in *. destruct Hs as (_ & Hh & Ht).
  apply split_breaks_join; [by apply replace_line_free|]. unfold pieces_ok in *. rewrite Forall_fmap. eapply Forall_impl; [exact Ht|].
  intros [c l] [Hc Hl]. split; [done|]. by apply replace_line_free.
Qed.

(** The values after a replacement, and two replacements in a row. *)
Lemma values_replace key w content : key ≠ [] → tame w →
  secret_values key (replace_secrets key (put w) content) = w <$> secret_values key content.
Proof.
  intros Hkey Hw. unfold secret_values, lines_of. destruct (split_breaks is_eol content) as [h t] eqn:E.
  rewrite (replace_secrets_split _ _ _ _ _ Hkey Hw E). pose proof (split_breaks_ok is_eol content) as Hs. rewrite E in Hs. destruct Hs as (_ & Hh & Ht).
  assert (∀ l, free is_eol l → (fun m => m.2) <$> secret_line key (replace_line key (put w) l) = w <$> ((fun m => m.2) <$> secret_line key l)) as Hline.
  { intros l Hl. rewrite secret_line_replace by done. by destruct (secret_line key l). }
  assert (∀ ls, Forall (free is_eol) ls → omap (fun l => (fun m => m.2) <$> secret_line key l) (replace_line key (put w) <$> ls)
    = w <$> omap (fun l => (fun m => m.2) <$> secret_line key l) ls) as Hall.
  { induction 1 as [|l ls Hl _ IH]; [done|]. rewrite fmap_cons. csimpl. rewrite Hline by done. destruct (secret_line key l); csimpl; by rewrite IH. }
  assert (((fun b : Z * jstr => (b.1, replace_line key (put w) b.2)) <$> t).*2 = replace_line key (put w) <$> t.*2) as ->
    by by rewrite <-!list_fmap_compose.
  rewrite <-fmap_cons.
  apply Hall. constructor; [done|]. apply Forall_fmap. eapply Forall_impl; [exact Ht|]. by intros b [_ ?].
Qed.

Lemma replace_twice key w1 w2 content : key ≠ [] → tame w1 →
  replace_secrets key (put w2) (replace_secrets key (put w1) content) = replace_secrets key (put (w2 ∘ w1)) content.
Proof.
  intros Hkey Hw. destruct (split_breaks is_eol content) as [h t] eqn:E. unfold replace_secrets at 1.
  rewrite (replace_secrets_split _ _ _ _ _ Hkey Hw E). unfold replace_secrets. rewrite E.
  pose proof (split_breaks_ok is_eol content) as Hs. rewrite E in Hs. destruct Hs as (_ & Hh & Ht).
  assert (∀ l, free is_eol l → replace_line key (put w2) (replace_line key (put w1) l) = replace_line key (put (w2 ∘ w1)) l) as Hline.
  { intros l Hl. unfold replace_line at 1. rewrite secret_line_replace by done. unfold replace_line.
    destruct (secret_line key l) as [[[b p] v]|] eqn:El; [|done]. done. }
  rewrite Hline by done. f_equal. rewrite <-list_fmap_compose. apply list_fmap_ext. intros i [c l] Hin%list_elem_of_lookup_2. cbn. rewrite Hline; [done|].
  unfold pieces_ok in Ht. rewrite Forall_forall in Ht. by destruct (Ht _ Hin).
Qed.

(** A replacement depends on what it makes of the values that occur. *)
Lemma replace_ext key f g content : key ≠ [] → (∀ p v, v ∈ secret_values key content → f p v = g p v) →
  replace_secrets key f content = replace_secrets key g content.
Proof.
  intros Hkey Hfg. unfold replace_secrets, secret_values, lines_of in *. destruct (split_breaks is_eol content) as [h t].
  assert (∀ l, l ∈ h :: t.*2 → replace_line key f l = replace_line key g l) as Hline.
  { intros l Hl. unfold replace_line. destruct (secret_line key l) as [[[b p] v]|] eqn:E; [|done]. f_equal. apply Hfg.
    apply list_elem_of_omap. exists l. by rewrite E. }
  rewrite Hline by by left. f_equal. apply list_fmap_ext. intros i [c l] Hin%list_elem_of_lookup_2. cbn. rewrite Hline; [done|]. right.
  apply list_elem_of_fmap. by exists (c, l).
Qed.

Lemma replace_id key content : key ≠ [] → replace_secrets key (put id) content = content.
Proof.
  intros Hkey. unfold replace_secrets. pose proof (split_breaks_ok is_eol content) as Hs. destruct (split_breaks is_eol content) as [h t].
  destruct Hs as (Hj & _). assert (∀ l, replace_line key (put id) l = l) as Hl.
  { intros l. unfold replace_line. destruct (secret_line key l) as [[[b p] v]|] eqn:E; [|done].
    by destruct (secret_line_ok _ _ _ _ _ Hkey E) as (-> & _). }
  rewrite Hl. rewrite <-Hj. f_equal. etrans; [|apply list_fmap_id]. apply list_fmap_ext. intros i [c l] _. cbn. by rewrite Hl.
Qed.

(** * What readers see and what is written back *)

Definition mask_w (v : jstr) : jstr := if bool_decide (trim v = []) then v else CONFIG_SECRET_MASK.
Definition unmask_w (password v : jstr) : jstr := if bool_decide (trim v = CONFIG_SECRET_MASK) then password else v.

Lemma mask_value_put p v : mask_value p v = put mask_w p v.
Proof. unfold mask_value, put, mask_w. by case_bool_decide. Qed.
Lemma unmask_value_put password p v : unmask_value password p v = put (unmask_w password) p v.
Proof. unfold unmask_value, put, unmask_w. by case_bool_decide. Qed.

Lemma mask_tame : tame mask_w.
Proof.
  intros v Hv Hf. unfold mask_w. case_bool_decide; [done|]. split; [done|]. intros c. unfold CONFIG_SECRET_MASK, LICENSE_KEY_MASK.
  cbn. rewrite !elem_of_cons, elem_of_nil. naive_solver.
Qed.

Lemma secret_key_nonempty filename key : SECRET_KEY_BY_FILE filename = Some key → key ≠ [].
Proof. unfold SECRET_KEY_BY_FILE. repeat case_bool_decide; by intros [= <-]. Qed.

Lemma mask_put filename key content : SECRET_KEY_BY_FILE filename = Some key →
  maskConfigSecrets filename content = replace_secrets key (put mask_w) content.
Proof.
  intros Hk. unfold maskConfigSecrets. rewrite Hk. apply replace_ext; [by eapply secret_key_nonempty|]. intros. apply mask_value_put.
Qed.

Lemma masked_values filename key content v : SECRET_KEY_BY_FILE filename = Some key →
  v ∈ secret_values key (maskConfigSecrets filename content) → v = CONFIG_SECRET_MASK ∨ trim v = [].
Proof.
  intros Hk. rewrite (mask_put _ _ _ Hk), values_replace by (by eapply secret_key_nonempty || apply mask_tame).
  intros (u & -> & _)%list_elem_of_fmap. unfold mask_w. case_bool_decide; auto.
Qed.

(** Whoever reads the masked text learns nothing of the secret: every value
    left is the mask or empty, and files that differ only in the values of
    their secrets are masked to the same text. *)
Theorem masking_hides_secrets filename key content : SECRET_KEY_BY_FILE filename = Some key →
  (∀ v, v ∈ secret_values key (maskConfigSecrets filename content) → v = CONFIG_SECRET_MASK ∨ trim v = []) ∧
  (∀ w, tame w → (∀ v, if bool_decide (trim v = []) then w v = v else trim (w v) ≠ []) →
     maskConfigSecrets filename (replace_secrets key (put w) content) = maskConfigSecrets filename content).
Proof.
  intros Hk. pose proof (secret_key_nonempty _ _ Hk) as Hkey. split; [intros v; by apply masked_values|].
  intros w Hw Hv. rewrite !(mask_put _ _ _ Hk), replace_twice by done. apply replace_ext; [done|]. intros p v _. unfold put, mask_w, compose.
  f_equal. specialize (Hv v). repeat case_bool_decide; congruence.
Qed.

(** Opening Rcon.cfg in the editor and saving it unchanged writes back the
    very bytes: the mask is replaced by the password it stood for. *)
Theorem editor_roundtrip c disk content :
  (∀ v, v ∈ secret_values (js "Password") content → v = cred_password c ∨ trim v = []) → trim (cred_password c) ≠ [] →
  unmaskRconPassword (Some c) disk (maskConfigSecrets (js "Rcon.cfg") content) = Ok content.
Proof.
  intros Hv Hpw. assert (js "Password" ≠ []) as Hkey by done. rewrite (mask_put (js "Rcon.cfg") (js "Password")) by done.
  unfold unmaskRconPassword. destruct (hasMaskedRconPassword _) eqn:Em; cbn [negb].
  - f_equal. rewrite (replace_ext _ _ (put (unmask_w (cred_password c)))) by (done || (intros; apply unmask_value_put)).
    rewrite replace_twice by (done || apply mask_tame). etrans; [|apply (replace_id (js "Password") content Hkey)].
    apply replace_ext; [done|]. intros p v Hin. unfold put, unmask_w, mask_w, compose, id. f_equal.
    destruct (Hv v Hin) as [->|Ht].
    + rewrite (bool_decide_eq_false_2 (trim (cred_password c) = [])) by done. by rewrite bool_decide_eq_true_2 by (by vm_compute).
    + rewrite (bool_decide_eq_true_2 (trim v = [])) by done. rewrite bool_decide_eq_false_2; [done|]. by rewrite Ht.
  - f_equal. etrans; [|apply (replace_id (js "Password") content Hkey)]. apply replace_ext; [done|]. intros p v Hin.
    unfold put, id. f_equal. unfold mask_w. case_bool_decide as Ht; [done|].
    unfold hasMaskedRconPassword in Em. rewrite values_replace in Em by (done || apply mask_tame).
    assert (mask_w v ∈ mask_w <$> secret_values (js "Password") content) as Hm by (apply list_elem_of_fmap; eauto).
    apply not_true_iff_false in Em. destruct Em. apply existsb_exists. exists (mask_w v). split; [by apply list_elem_of_In|].
    apply bool_decide_eq_true. unfold mask_w. rewrite (bool_decide_eq_false_2 (trim v = [])) by done. by vm_compute.
Qed.

(** A file that begins with a byte order mark keeps its secret: [\s] matches
    the mark, the class of blanks before the key does not. *)
Lemma byte_order_mark_shows_secret :
  maskConfigSecrets (js "License.cfg") (0xFEFF :: js "LicenseKey=0123-4567") = 0xFEFF :: js "LicenseKey=0123-4567".
Proof. vm_compute. reflexivity. Qed.

(** The white space after the equals sign may be a line break, so the password
    of a file without one is its next line, and a masked write puts it there. *)
Lemma next_line_read_as_password :
  readRconPassword (js "Password=" ++ [10] ++ js "Port=21114" ++ [10]) = Some (js "Port=21114") ∧
  unmaskRconPassword None (readRconPassword (js "Password=" ++ [10] ++ js "Port=21114" ++ [10])) (js "Password=********" ++ [10] ++ js "Port=21114")
    = Ok (js "Password=Port=21114" ++ [10] ++ js "Port=21114").
Proof. vm_compute. split; reflexivity. Qed.

(** * Concrete files *)

Definition ex_rcon : jstr := js "Port=21114" ++ [10] ++ js "Password = hunter2" ++ [13; 10] ++ js "// end".

Lemma masking_hides_secrets_witness :
  (∀ v, v ∈ secret_values (js "Password") (maskConfigSecrets (js "Rcon.cfg") ex_rcon) → v = CONFIG_SECRET_MASK ∨ trim v = []) ∧
  (∀ w, tame w → (∀ v, if bool_decide (trim v = []) then w v = v else trim (w v) ≠ []) →
     maskConfigSecrets (js "Rcon.cfg") (replace_secrets (js "Password") (put w) ex_rcon) = maskConfigSecrets (js "Rcon.cfg") ex_rcon).
Proof. apply (masking_hides_secrets (js "Rcon.cfg") (js "Password") ex_rcon). reflexivity. Defined.

Lemma editor_roundtrip_witness :
  unmaskRconPassword (Some (mkCreds (js "hunter2") 21114)) None (maskConfigSecrets (js "Rcon.cfg") ex_rcon) = Ok ex_rcon.
Proof.
  apply (editor_roundtrip (mkCreds (js "hunter2") 21114)); [|by vm_compute].
  assert (secret_values (js "Password") ex_rcon = [js "hunter2"]) as -> by (vm_compute; reflexivity).
  intros v Hv. left. by apply list_elem_of_singleton in Hv.
Defined.
