(* ===== verification/Interleave.v ===== *)
(** Asynchronous programs over shared state: a function that awaits calls, any
    number of which run interleaved with each other and with their
    surroundings, and rely-guarantee rules to prove what each of them
    achieves. *)
From S2P Require Import Prelude.

(** * Programs *)

(** [W] is the shared state, [I] what the surroundings put into a call (an id,
    a time, an answer), [E] the errors. *)
Section Programs.
Context {W I E : Type}.

(** What a program does next: end, or await a call. A call is blocked while
    [op] gives [None]; it is answered or it fails. *)
Inductive prog (A : Type) : Type :=
| Ret (a : A)
| Await {R : Type} (op : I → W → option (W * R)) (k : result E R → prog A).

Fixpoint andThen {A B} (p : prog A) (f : A → prog B) : prog B :=
  match p with
  | Ret _ a => f a
  | Await _ op k => Await _ op (fun r => andThen (k r) f)
  end.

(** What becomes of a call: done and answered, not done, or done with its
    answer lost. *)
Inductive fate := Done | Refused (e : E) | AnswerLost (e : E).

Definition step {A} (f : fate) (i : I) (w : W) (p : prog A) : option (W * prog A) :=
  match p with
  | Ret _ _ => None
  | Await _ op k =>
      match f with
      | Done => '(w, r) ← op i w; Some (w, k (Ok r))
      | Refused e => Some (w, k (Throw e))
      | AnswerLost e => '(w, _) ← op i w; Some (w, k (Throw e))
      end
  end.

(** Programs run under the number they were started with; [Other] is a change
    made by the surroundings, [Crash] the end of the process of a program. *)
Inductive event (A : Type) :=
| Other (f : W → W)
| Start (p : nat → prog A)
| Step (c : nat) (f : fate) (i : I)
| Crash (c : nat).

Record system (A : Type) := mkSystem { shared : W; tasks : list (option (prog A)) }.

Definition next {A} (s : system A) (e : event A) : system A :=
  match e with
  | Other _ f => mkSystem _ (f (shared _ s)) (tasks _ s)
  | Start _ p => mkSystem _ (shared _ s) (tasks _ s ++ [Some (p (length (tasks _ s)))])
  | Step _ c f i =>
      match tasks _ s !! c with
      | Some (Some p) =>
          match step f i (shared _ s) p with
          | Some (w, p) => mkSystem _ w (<[c := Some p]> (tasks _ s))
          | None => s
          end
      | _ => s
      end
  | Crash _ c => mkSystem _ (shared _ s) (<[c := None]> (tasks _ s))
  end.
Definition run {A} (s : system A) (es : list (event A)) : system A := foldl next s es.
End Programs.

Arguments Ret {W I E A}. Arguments Await {W I E A R}. Arguments prog : clear implicits.
Arguments fate : clear implicits. Arguments event : clear implicits. Arguments system : clear implicits.
Arguments Done {E}. Arguments Refused {E}. Arguments AnswerLost {E}.
Arguments Other {W I E A}. Arguments Start {W I E A}. Arguments Step {W I E A}. Arguments Crash {W I E A}.
Arguments mkSystem {W I E A}. Arguments shared {W I E A}. Arguments tasks {W I E A}.

Notation "'await' x ':=' p 'in' k" := (andThen p (fun x => k))
  (at level 10, x pattern, p at level 100, k at level 200) : panel_scope.

(** Exceptions: a program whose result may be an error, and one call. *)
Definition orThrow {W I E A B} (p : prog W I E (result E A)) (f : A → prog W I E (result E B)) : prog W I E (result E B) :=
  andThen p (fun r => match r with Ok a => f a | Throw e => Ret (Throw e) end).
Definition once {W I E R} (op : I → W → option (W * R)) : prog W I E (result E R) := Await op Ret.
Notation "'try' x ':=' p 'in' k" := (orThrow p (fun x => k))
  (at level 10, x pattern, p at level 100, k at level 200) : panel_scope.

(** * Rely and guarantee *)

Section Reasoning.
Context {W I E A : Type}.
(** What holds at all times, what program [c] may do, and what it counts on
    from everybody else. *)
Context (Inv : W → Prop) (G : nat → W → W → Prop) (Rely : nat → W → W → Prop) (Env : W → W → Prop).
(** The errors calls may fail with. *)
Context (Fault : E → Prop).
Context (Rely_refl : ∀ c w, Rely c w w) (Rely_trans : ∀ c u v w, Rely c u v → Rely c v w → Rely c u w).
Context (G_Rely : ∀ c c' u w, c ≠ c' → G c u w → Rely c' u w) (Env_Rely : ∀ c u w, Env u w → Rely c u w).

(** From [w] on, [p] run as [c] keeps its guarantee and the invariant, and ends
    with a result as [Q] says. *)
Fixpoint holds {B} (c : nat) (Q : W → B → Prop) (w : W) (p : prog W I E B) : Prop :=
  match p with
  | Ret a => ∀ u, Rely c w u → Inv u → Q u a
  | Await op k =>
      ∀ u, Rely c w u → Inv u →
        (∀ i v r, op i u = Some (v, r) → G c u v ∧ Inv v ∧ holds c Q v (k (Ok r)) ∧ ∀ e, Fault e → holds c Q v (k (Throw e))) ∧
        ∀ e, Fault e → holds c Q u (k (Throw e))
  end.

Lemma holds_rely {B} c (Q : W → B → Prop) w w' p : Rely c w w' → holds c Q w p → holds c Q w' p.
Proof using Rely_trans. intros Hr. destruct p; cbn; intros H u Hu; apply H; by eapply Rely_trans. Qed.

Lemma holds_andThen {B D} c (Q : W → D → Prop) (p : prog W I E B) (f : B → prog W I E D) w :
  holds c (fun u a => holds c Q u (f a)) w p → Inv w → holds c Q w (andThen p f).
Proof using Rely_refl Rely_trans.
  revert w. induction p as [a|R op k IH]; intros w; cbn [andThen holds].
  - intros H Hi. apply H; [apply Rely_refl|done].
  - intros H _ u Hu Hi. destruct (H u Hu Hi) as [H1 H2]. split.
    + intros i v r Hop. destruct (H1 i v r Hop) as (Hg & Hv & Hk & Ht). split_and!; [done|done|by apply IH|]. intros e He. apply IH; [by apply Ht|done].
    + intros e He. apply IH; [by apply H2|done].
Qed.

Lemma holds_conseq {B} c (P Q : W → B → Prop) w p : (∀ u a, Inv u → P u a → Q u a) → holds c P w p → holds c Q w p.
Proof using.
  intros HPQ. revert w. induction p as [a|R op k IH]; intros w; cbn [holds].
  - intros H u Hu Hi. apply HPQ; [done|by apply H].
  - intros H u Hu Hi. destruct (H u Hu Hi) as [H1 H2]. split.
    + intros i v r Hop. destruct (H1 i v r Hop) as (? & ? & ? & Ht). split_and!; [done|done|by apply IH|]. intros e He. by apply IH, Ht.
    + intros e He. by apply IH, H2.
Qed.

(** A call, and an exception passed on. *)
Lemma holds_once {R B} c (Q : W → B → Prop) w (op : I → W → option (W * R)) (k : result E R → prog W I E B) :
  (∀ u, Rely c w u → Inv u →
     (∀ i v r, op i u = Some (v, r) → G c u v ∧ Inv v ∧ holds c Q v (k (Ok r)) ∧ ∀ e, Fault e → holds c Q v (k (Throw e))) ∧
     ∀ e, Fault e → holds c Q u (k (Throw e))) →
  holds c Q w (andThen (once op) k).
Proof using. done. Qed.

Lemma holds_orThrow {B D} c (Q : W → result E D → Prop) (p : prog W I E (result E B)) (f : B → prog W I E (result E D)) w :
  holds c (fun u r => match r with Ok a => holds c Q u (f a) | Throw e => ∀ v, Rely c u v → Inv v → Q v (Throw e) end) w p → Inv w →
  holds c Q w (orThrow p f).
Proof using Rely_refl Rely_trans.
  intros H Hi. apply holds_andThen; [|done]. revert H. apply holds_conseq. intros u [a|e] _ Hr; [done|exact Hr].
Qed.

(** A fate with an error that may occur. *)
Definition fate_ok (f : fate E) : Prop := match f with Done => True | Refused e | AnswerLost e => Fault e end.

Lemma step_holds {B} c (Q : W → B → Prop) f i w p v p' : Inv w → fate_ok f → holds c Q w p → step f i w p = Some (v, p') →
  holds c Q v p' ∧ Inv v ∧ (G c w v ∨ v = w).
Proof using Rely_refl.
  intros Hi Hf H Hs. destruct p as [a|R op k]; cbn [step] in Hs; [done|]. destruct (H w (Rely_refl c w) Hi) as [H1 H2]. destruct f as [|e|e].
  - destruct (op i w) as [[v' r]|] eqn:Eo; [|done]. injection Hs as <- <-. destruct (H1 i v' r Eo) as (? & ? & ? & ?). auto.
  - injection Hs as <- <-. split_and!; [by apply H2|done|by right].
  - destruct (op i w) as [[v' r]|] eqn:Eo; [|done]. injection Hs as <- <-. destruct (H1 i v' r Eo) as (? & ? & ? & Ht). split_and!; [by apply Ht|done|by left].
Qed.

(** ** Systems *)

(** [Fresh c]: nothing in the state comes from a program numbered [c]. *)
Context (Fresh : nat → W → Prop) (Fresh_rely : ∀ c u w, Rely c u w → Fresh c u → Fresh c w).
Context (Q : nat → W → A → Prop).

Record sys_ok (s : system W I E A) : Prop := {
  ok_inv : Inv (shared s);
  ok_tasks : ∀ c p, tasks s !! c = Some (Some p) → holds c (Q c) (shared s) p;
  ok_fresh : ∀ c, (length (tasks s) ≤ c)%nat → Fresh c (shared s);
}.

(** The surroundings keep the invariant and programs are started that hold. *)
Definition event_ok (e : event W I E A) : Prop :=
  match e with
  | Other f => ∀ w, Inv w → Env w (f w) ∧ Inv (f w)
  | Start p => ∀ c w, Inv w → Fresh c w → holds c (Q c) w (p c)
  | Step _ f _ => fate_ok f
  | Crash _ => True
  end.

Lemma tasks_next_ok s e : event_ok e → sys_ok s → sys_ok (next s e).
Proof using Rely_refl Rely_trans G_Rely Env_Rely Fresh_rely.
  intros He [Hi Ht Hf]. unfold next. destruct e as [f|p|c f i|c].
  - destruct (He _ Hi) as [Henv Hi']. constructor; cbn; [done| |].
    + intros c p Hp. eapply holds_rely; [by eapply Env_Rely|by apply Ht].
    + intros c Hc. eapply Fresh_rely; [by eapply Env_Rely|by apply Hf].
  - constructor; cbn; [done| |].
    + intros c q [Hq|[Hlen Hq]]%lookup_app_Some; [by apply Ht|]. destruct (c - length (tasks s))%nat eqn:Ec; [|done]. cbn in Hq. injection Hq as <-.
      assert (c = length (tasks s)) as -> by lia. by apply He, Hf.
    + intros c. rewrite length_app. intros Hc. apply Hf. lia.
  - destruct (tasks s !! c) as [[p|]|] eqn:Ec; [|by constructor|by constructor].
    destruct (step f i (shared s) p) as [[v p']|] eqn:Es; [|by constructor].
    destruct (step_holds c (Q c) f i _ _ _ _ Hi He (Ht c p Ec) Es) as (Hp & Hv & Hg).
    assert (∀ c', c' ≠ c → Rely c' (shared s) v) as Hr by (intros c' Hc'; destruct Hg as [Hg| ->]; [by eapply G_Rely|apply Rely_refl]).
    pose proof (lookup_lt_Some _ _ _ Ec) as Hlen.
    constructor; cbn; [done| |].
    + intros c' q Hq. destruct (decide (c' = c)) as [->|Hne].
      * rewrite list_lookup_insert_eq in Hq by done. by injection Hq as <-.
      * rewrite list_lookup_insert_ne in Hq by done. eapply holds_rely; [by apply Hr|by apply Ht].
    + intros c'. rewrite length_insert. intros Hc'. eapply Fresh_rely; [apply Hr; lia|by apply Hf].
  - constructor; cbn; [done| |by intros c'; rewrite length_insert; apply Hf].
    intros c' q Hq. destruct (decide (c' = c)) as [->|Hne].
    + destruct (decide (c < length (tasks s))%nat); [by rewrite list_lookup_insert_eq in Hq|].
      rewrite list_insert_ge in Hq by lia. by apply Ht.
    + rewrite list_lookup_insert_ne in Hq by done. by apply Ht.
Qed.

Lemma tasks_run_ok es s : Forall event_ok es → sys_ok s → sys_ok (run s es).
Proof using Rely_refl Rely_trans G_Rely Env_Rely Fresh_rely.
  intros Hes. revert s. unfold run. induction Hes as [|e es He _ IH]; intros s Hs; [done|]. apply IH. by apply tasks_next_ok.
Qed.

(** A program that has ended did as promised. *)
Lemma result_ok s c a : sys_ok s → tasks s !! c = Some (Some (Ret a)) → Q c (shared s) a.
Proof using Rely_refl. intros [Hi Ht _] Hc. apply (Ht c _ Hc); [apply Rely_refl|done]. Qed.
End Reasoning.

(** * Records of what each program did *)

Definition by_call {A} (c : nat) (l : list (nat * A)) : list A := (jfilter (fun d => bool_decide (d.1 = c)) l).*2.

Lemma by_call_app {A} c (l l' : list (nat * A)) : by_call c (l ++ l') = by_call c l ++ by_call c l'.
Proof. unfold by_call. by rewrite jfilter_app, fmap_app. Qed.
Lemma by_call_own {A} c (l : list A) : by_call c ((c,.) <$> l) = l.
Proof.
  induction l as [|x l IH]; [done|]. unfold by_call, jfilter in *. rewrite fmap_cons. cbn [List.filter fst]. rewrite bool_decide_eq_true_2 by done.
  cbn. f_equal. exact IH.
Qed.
Lemma by_call_other {A} c c' (l : list A) : c ≠ c' → by_call c' ((c,.) <$> l) = [].
Proof.
  intros Hc. induction l as [|x l IH]; [done|]. unfold by_call, jfilter in *. rewrite fmap_cons. cbn [List.filter fst]. by rewrite bool_decide_eq_false_2 by done.
Qed.
Lemma by_call_snoc {A} c c' (l : list (nat * A)) x : by_call c' (l ++ [(c, x)]) = by_call c' l ++ (if bool_decide (c = c') then [x] else []).
Proof. rewrite by_call_app. unfold by_call at 2, jfilter. cbn [List.filter fst]. by case_bool_decide. Qed.

Section Record_.
Context {D : Type} (justified : list D → D → Prop).

(** Whatever a program did was justified by what it had done before. *)
Definition follows (ds : list (nat * D)) : Prop := ∀ c pre d post, by_call c ds = pre ++ d :: post → justified pre d.
Fixpoint all_justified (pre new : list D) : Prop :=
  match new with [] => True | d :: new => justified pre d ∧ all_justified (pre ++ [d]) new end.

Lemma follows_nil : follows [].
Proof using. intros c pre d post. by destruct pre. Qed.

Lemma follows_snoc ds c d : follows ds → justified (by_call c ds) d → follows (ds ++ [(c, d)]).
Proof using.
  intros Hs Hd c' pre e post. rewrite by_call_snoc. destruct (decide (c = c')) as [<-|Hc].
  - rewrite bool_decide_eq_true_2 by done. intros He. destruct post as [|x post _] using rev_ind.
    + apply app_inj_tail in He as [<- <-]. exact Hd.
    + rewrite app_comm_cons, app_assoc in He. apply app_inj_tail in He as [He _]. by apply (Hs c pre e post).
  - rewrite bool_decide_eq_false_2, app_nil_r by done. apply Hs.
Qed.

Lemma follows_app ds c new : follows ds → all_justified (by_call c ds) new → follows (ds ++ ((c,.) <$> new)).
Proof using.
  revert ds. induction new as [|d new IH]; intros ds Hs Hn; [by rewrite app_nil_r|]. destruct Hn as [Hd Hn]. rewrite fmap_cons.
  change ((c, d) :: ?l) with ([(c, d)] ++ l). rewrite app_assoc. apply IH; [by apply follows_snoc|].
  by rewrite by_call_snoc, bool_decide_eq_true_2.
Qed.
End Record_.

(** * A logic of what a program knows *)

Section Triple.
Context {W I E K : Type}.
Context (Inv : W → Prop) (G : nat → W → W → Prop) (Rely : nat → W → W → Prop) (Fault : E → Prop).
(** What a program may know of the state, whatever the others do. *)
Context (know : nat → K → W → Prop).
Context (Rely_refl : ∀ c w, Rely c w w) (Rely_trans : ∀ c u v w, Rely c u v → Rely c v w → Rely c u w).
Context (know_rely : ∀ c k u w, Rely c u w → Inv w → know c k u → know c k w).

(** Started with the knowledge [k], [p] ends with a result and a knowledge as
    [Post] says. *)
Definition triple {A} (c : nat) (k : K) (p : prog W I E A) (Post : A → K → Prop) : Prop :=
  ∀ w, know c k w → Inv w → holds Inv G Rely Fault c (fun u a => ∃ k', know c k' u ∧ Post a k') w p.

Lemma triple_ret {A} c k (a : A) (Post : A → K → Prop) : Post a k → triple c k (Ret a) Post.
Proof using know_rely. intros H w Hk Hi u Hr Hu. exists k. split; [by eapply know_rely|done]. Qed.

Lemma triple_conseq {A} c k (p : prog W I E A) (P Q : A → K → Prop) : triple c k p P → (∀ a k', P a k' → Q a k') → triple c k p Q.
Proof using. intros Hp HPQ w Hk Hi. eapply holds_conseq; [|by apply Hp]. intros u a _ (k' & Hk' & HP). exists k'. eauto. Qed.

Lemma triple_andThen {A B} c k (p : prog W I E A) (f : A → prog W I E B) P Q :
  triple c k p P → (∀ a k', P a k' → triple c k' (f a) Q) → triple c k (andThen p f) Q.
Proof using Rely_refl Rely_trans.
  intros Hp Hf w Hk Hi. apply holds_andThen; [done|done| |done]. eapply holds_conseq; [|by apply Hp].
  intros u a Hu (k' & Hk' & HP). by apply (Hf a k').
Qed.

Lemma triple_orThrow {A B} c k (p : prog W I E (result E A)) (f : A → prog W I E (result E B)) P Q :
  triple c k p P → (∀ a k', P (Ok a) k' → triple c k' (f a) Q) → (∀ e k', P (Throw e) k' → Q (Throw e) k') →
  triple c k (orThrow p f) Q.
Proof using Rely_refl Rely_trans know_rely.
  intros Hp Hf Ht. eapply triple_andThen; [exact Hp|]. intros [a|e] k' HP; [by apply Hf|]. apply triple_ret. by apply Ht.
Qed.

Lemma triple_once {R} c k (op : I → W → option (W * R)) (P : result E R → K → Prop) :
  (∀ i u v r, know c k u → Inv u → op i u = Some (v, r) →
     ∃ k', know c k' v ∧ G c u v ∧ Inv v ∧ P (Ok r) k' ∧ ∀ e, Fault e → P (Throw e) k') →
  (∀ e, Fault e → P (Throw e) k) → triple c k (once op) P.
Proof using know_rely.
  intros Hop He w Hk Hi u Hr Hu. assert (know c k u) as Hku by (by eapply know_rely). split.
  - intros i v r Ho. destruct (Hop i u v r Hku Hu Ho) as (k' & Hk' & Hg & Hv & Hp & Hpe). split; [done|]. split; [done|]. split.
    + intros x Hx Hix. exists k'. split; [by eapply know_rely|done].
    + intros e Hfe x Hx Hix. exists k'. split; [by eapply know_rely|by apply Hpe].
  - intros e Hfe x Hx Hix. exists k. split; [by eapply know_rely|by apply He].
Qed.
End Triple.

(** * Running undisturbed *)

(** [p] run alone, every call answered: [i] is what the surroundings put in. *)
Fixpoint alone {W I E A} (i : I) (w : W) (p : prog W I E A) : option (W * A) :=
  match p with
  | Ret a => Some (w, a)
  | Await op k => '(w, r) ← op i w; alone i w (k (Ok r))
  end.

Lemma alone_andThen {W I E A B} (i : I) w (p : prog W I E A) (f : A → prog W I E B) :
  alone i w (andThen p f) = ('(w, a) ← alone i w p; alone i w (f a)).
Proof.
  revert w. induction p as [a|R op k IH]; intros w; cbn [andThen alone]; [done|]. destruct (op i w) as [[v r]|]; [|done]. cbn. by rewrite IH.
Qed.

Lemma alone_orThrow {W I E A B} (i : I) w (p : prog W I E (result E A)) (f : A → prog W I E (result E B)) :
  alone i w (orThrow p f) = ('(w, r) ← alone i w p; match r with Ok a => alone i w (f a) | Throw e => Some (w, Throw e) end).
Proof. unfold orThrow. rewrite alone_andThen. destruct (alone i w p) as [[w' [a|e]]|]; done. Qed.

(** Every call alone is a step of the system. *)
Lemma alone_run {W I E A} (i : I) (w w' : W) (p : prog W I E A) a c (ts : list (option (prog W I E A))) :
  alone i w p = Some (w', a) → ts !! c = Some (Some p) →
  ∃ n, run (mkSystem w ts) (replicate n (Step c Done i)) = mkSystem w' (<[c := Some (Ret a)]> ts).
Proof.
  revert w ts. induction p as [b|R op k IH]; intros w ts; cbn [alone].
  - intros [= <- <-] Hc. exists 0%nat. cbn. by rewrite list_insert_id.
  - destruct (op i w) as [[v r]|] eqn:Eo; [|done]. cbn. intros Ha Hc.
    destruct (IH (Ok r) v (<[c := Some (k (Ok r))]> ts) Ha) as [n Hn]; [apply list_lookup_insert_eq; by eapply lookup_lt_Some|].
    exists (S n). unfold run in *. cbn [replicate foldl]. unfold next at 2. cbn [shared tasks]. rewrite Hc. cbn [step]. rewrite Eo. cbn [mbind option_bind].
    rewrite Hn. by rewrite list_insert_insert_eq.
Qed.

(** * Programs over a part of the state *)

Section Lift.
Context {W V I E : Type} (get : W → V) (set : V → W → W).

Fixpoint lift {A} (p : prog V I E A) : prog W I E A :=
  match p with
  | Ret a => Ret a
  | Await op k => Await (fun i w => '(v, r) ← op i (get w); Some (set v w, r)) (fun r => lift (k r))
  end.

(** Whatever does not depend on that part stays as it is. *)
Lemma holds_lift {A} Inv G Rely Fault c (P : W → Prop) w (p : prog V I E A) :
  (∀ u v, Inv u → P u → G c u (set v u) ∧ Inv (set v u) ∧ P (set v u)) → (∀ u u', Rely c u u' → Inv u' → P u → P u') →
  P w → holds Inv G Rely Fault c (fun u _ => P u) w (lift p).
Proof using.
  intros Hset Hrely. revert w. induction p as [a|R op k IH]; intros w Hw; cbn [lift holds].
  - intros u Hu Hi. by eapply Hrely.
  - intros u Hu Hi. assert (P u) as Hpu by (by eapply Hrely). split; [|intros e _; by apply IH]. intros i v r Ho.
    destruct (op i (get u)) as [[v' r']|] eqn:E'; [|done]. injection Ho as <- <-. destruct (Hset u v' Hi Hpu) as (? & ? & ?).
    split_and!; [done|done|by apply IH|intros e _; by apply IH].
Qed.
End Lift.

(** * Programs that keep an invariant *)

Section Keeps.
Context {W I E : Type} (Inv : W → Prop).

(** Whatever happens in between, every call of [p] keeps [Inv]. *)
Definition keeps {A} (p : prog W I E A) : Prop :=
  ∀ c w, holds Inv (fun _ _ _ => True) (fun _ _ _ => True) (fun _ => True) c (fun _ _ => True) w p.

Lemma keeps_ret {A} (a : A) : keeps (Ret a).
Proof using. done. Qed.

Lemma keeps_once {R} (op : I → W → option (W * R)) : (∀ i u v r, Inv u → op i u = Some (v, r) → Inv v) → keeps (once op).
Proof using.
  intros Hop c w u _ Hu. split; [|done]. intros i v r Ho. split_and!; [done|exact (Hop i u v r Hu Ho)|done|done].
Qed.

Lemma keeps_andThen {A B} (p : prog W I E A) (f : A → prog W I E B) : keeps p → (∀ a, keeps (f a)) → keeps (andThen p f).
Proof using.
  intros Hp Hf c w. specialize (Hp c w). revert w Hp. induction p as [a|R op k IH]; intros w Hp; cbn [andThen]; [apply Hf|].
  intros u Hu Hi. destruct (Hp u Hu Hi) as [H1 H2]. split; [|intros e He; exact (IH _ _ (H2 e He))].
  intros i v r Ho. destruct (H1 i v r Ho) as (? & ? & Hk & Ht). split; [done|]. split; [done|]. split; [exact (IH _ _ Hk)|].
  intros e He. exact (IH _ _ (Ht e He)).
Qed.

Lemma keeps_orThrow {A B} (p : prog W I E (result E A)) (f : A → prog W I E (result E B)) :
  keeps p → (∀ a, keeps (f a)) → keeps (orThrow p f).
Proof using. intros Hp Hf. apply keeps_andThen; [done|]. intros [a|e]; [apply Hf|apply keeps_ret]. Qed.

(** So does any system of such programs. *)
Lemma keeps_run {A} (es : list (event W I E A)) (s : system W I E A) :
  Forall (fun e => match e with Other f => ∀ w, Inv w → Inv (f w) | Start p => ∀ c, keeps (p c) | _ => True end) es →
  Inv (shared s) → tasks s = [] → Inv (shared (run s es)).
Proof using.
  intros Hes Hi Ht.
  assert (sys_ok Inv (fun _ _ _ => True) (fun _ _ _ => True) (fun _ => True) (fun _ _ => True) (fun _ _ _ => True) (run s es)) as [? _ _]; [|done].
  eapply (tasks_run_ok _ _ _ (fun _ _ => True)); [done..| |].
  - eapply Forall_impl; [exact Hes|]. intros [f|p|c f i|c] He; [|intros c w _ _; apply He|by destruct f|done]. intros w Hw. split; [done|by apply He].
  - constructor; [done| |done]. rewrite Ht. intros c p. by rewrite lookup_nil.
Qed.
End Keeps.
