(* ===== verification/ServerFiles.v ===== *)
(** [apps/api/src/lib/server-configs/write.ts]: versioned writes of a game
    server's config files through the host bridge, under a lock per file, with
    the history in [config_versions] and the reload of the running server. *)
From S2P Require Import Prelude JsString JsMap ConfigSecrets RconQueue Interleave.

(** * The server, its files and its history *)

(** A row of [config_versions]; [created_at] defaults to [now()], the time the
    transaction began. *)
Record config_version := mkVersion {
  cv_id : jstr;
  cv_file : jstr;
  cv_content : jstr;
  cv_sha : jstr;
  cv_parent : option jstr;
  cv_author : option jstr;
  cv_message : option jstr;
  cv_created : Z;
}.

(** The files on the host, the committed versions, newest commit first, the
    advisory locks with their holders, the rows of open transactions, and the
    server's own row and credentials. *)
Record host := mkHost {
  h_clock : Z;
  h_files : list (jstr * jstr);
  h_versions : list config_version;
  h_locks : list (jstr * nat);
  h_open : list (nat * config_version);
  h_live : bool;
  h_status : jstr;
  h_creds : option RconCredentials;
}.

(** What the surroundings put into a call: the id of a new row, what worker-rcon
    said, and what a direct RCON connection said. *)
Record input := mkInput { in_id : jstr; in_rcon : WorkerRconCommandOutcome; in_direct : result jstr jstr }.

(** Errors: a failed bridge call with its code and message, a failed database
    call, and those of the code. *)
Inductive fault :=
| Bridge (code : option jstr) (message : jstr)
| Database
| ConfigServerNotFoundError
| Secret (e : secret_error)
| Missing (message : jstr).

(** The bridge's answer for a file that does not exist, as its client reports it
    (BridgeClient). *)
Definition missing_file : fault := Bridge (Some (js "internal")) (js "open: no such file or directory").

Definition hprog (A : Type) : Type := prog host input fault A.

Definition set_files (h : host) (fs : list (jstr * jstr)) : host :=
  mkHost (h_clock h) fs (h_versions h) (h_locks h) (h_open h) (h_live h) (h_status h) (h_creds h).
Definition set_tx (h : host) (vs : list config_version) (ls : list (jstr * nat)) (open : list (nat * config_version)) : host :=
  mkHost (h_clock h) (h_files h) vs ls open (h_live h) (h_status h) (h_creds h).

Definition ask {A} (f : input → host → A) : input → host → option (host * A) := fun i h => Some (h, f i h).

(** [app.bridge.fileRead] and [fileAtomicWrite]. *)
Definition fileRead (name : jstr) : hprog (result fault jstr) :=
  try r := once (ask (fun _ h => map_get (h_files h) name)) in
  Ret (match r with Some content => Ok content | None => Throw missing_file end).
Definition fileAtomicWrite (name content : jstr) : hprog (result fault unit) :=
  once (fun _ h => Some (set_files h (map_set (h_files h) name content), tt)).

(** A transaction of call [c]: its start, its lock, an insert, its end. A
    transaction that lost its connection has lost its locks and cannot commit. *)
Definition begin_tx : hprog (result fault Z) := once (ask (fun _ h => h_clock h)).
Definition lock (key : jstr) (c : nat) : hprog (result fault unit) :=
  once (fun _ h => match map_get (h_locks h) key with
                   | None => Some (set_tx h (h_versions h) (map_set (h_locks h) key c) (h_open h), tt)
                   | Some _ => None
                   end).
Definition without (c : nat) (ls : list (jstr * nat)) : list (jstr * nat) := jfilter (fun l => negb (bool_decide (l.2 = c))) ls.
Definition others (c : nat) (open : list (nat * config_version)) : list (nat * config_version) :=
  jfilter (fun o => negb (bool_decide (o.1 = c))) open.
Definition own (c : nat) (open : list (nat * config_version)) : list (nat * config_version) :=
  jfilter (fun o => bool_decide (o.1 = c)) open.
Definition insert_version (c : nat) (v : jstr → config_version) : hprog (result fault jstr) :=
  once (fun i h => Some (set_tx h (h_versions h) (h_locks h) ((c, v (in_id i)) :: h_open h), in_id i)).
Definition rollback_host (c : nat) (h : host) : host := set_tx h (h_versions h) (without c (h_locks h)) (others c (h_open h)).
Definition commit_host (c : nat) (h : host) : host :=
  set_tx h ((own c (h_open h)).*2 ++ h_versions h) (without c (h_locks h)) (others c (h_open h)).
Definition commit (c : nat) : hprog (result fault unit) :=
  try done := once (fun _ h => if bool_decide (c ∈ (h_locks h).*2) then Some (commit_host c h, true) else Some (h, false)) in
  Ret (if done : bool then Ok tt else Throw Database).
Definition rollback (c : nat) : hprog (result fault unit) := once (fun _ h => Some (rollback_host c h, tt)).

(** The newest row of a file by [created_at]. *)
Definition newer (name : jstr) (best : option config_version) (v : config_version) : option config_version :=
  if bool_decide (cv_file v = name) && match best with Some b => cv_created b <? cv_created v | None => true end then Some v else best.
Definition tip (h : host) (name : jstr) : option config_version := foldl (newer name) None (h_versions h).

(** * The module *)

Definition HOT_RELOAD_FILES : list jstr := [js "Admins.cfg"; js "Bans.cfg"; js "RemoteAdminListHosts.cfg"; js "RemoteBanListHosts.cfg"].
Definition ROTATION_FILES : list jstr :=
  [js "LayerRotation.cfg"; js "LevelRotation.cfg"; js "ExcludedLayers.cfg"; js "ExcludedLevels.cfg"; js "ExcludedFactions.cfg";
   js "LayerVoting.cfg"; js "LayerVotingLowPlayers.cfg"; js "LayerVotingNight.cfg"; js "VoteConfig.cfg"].
Inductive file_class := hot_reload | rotation | requires_restart.
Definition configFileClass (name : jstr) : file_class :=
  if bool_decide (name ∈ HOT_RELOAD_FILES) then hot_reload
  else if bool_decide (name ∈ ROTATION_FILES) then rotation else requires_restart.

Inductive no_reload := not_running | no_credentials | rcon_failed | not_hot_reload.
Inductive ReloadOutcome :=
| Applied (via_worker : bool) (response : jstr)
| NotApplied (reason : no_reload).

Record write_response := mkResponse {
  unchanged : bool;
  disk_repaired : bool;
  version_id : option jstr;
  previous_sha256 : option jstr;
  new_sha256 : jstr;
}.

Section Write.
(** The SHA-256 digest of a text. *)
Context (sha256 : jstr → jstr).

Definition reloadServerConfig : hprog (result fault ReloadOutcome) :=
  try row := once (ask (fun _ h => if h_live h then Some (h_status h) else None)) in
  let running := match row with Some s => bool_decide (s = js "running") || bool_decide (s = js "starting") | None => false end in
  if negb running then Ret (Ok (NotApplied not_running))
  else
    try viaWorker := once (ask (fun i _ => in_rcon i)) in
    match viaWorker with
    | Succeeded _ response => Ret (Ok (Applied true response))
    | Failed _ _ _ => Ret (Ok (NotApplied rcon_failed))
    | NotAttempted _ =>
        try creds := once (ask (fun _ h => h_creds h)) in
        match creds with
        | None => Ret (Ok (NotApplied no_credentials))
        | Some _ =>
            await sent := once (ask (fun i _ => in_direct i)) in
            Ret (Ok (match sent with Ok (Ok response) => Applied false response | _ => NotApplied rcon_failed end))
        end
    end.

(** [unmaskRconPassword] and [assertRconCredentialsUnchanged] with their reads. *)
Definition panelRconCredentials : hprog (result fault (option RconCredentials)) := once (ask (fun _ h => h_creds h)).
Definition unmask (content : jstr) : hprog (result fault jstr) :=
  if negb (hasMaskedRconPassword content) then Ret (Ok content)
  else
    try creds := panelRconCredentials in
    await disk := match creds with Some _ => Ret (Ok []) | None => fileRead (js "Rcon.cfg") end in
    Ret (match unmaskRconPassword creds (match disk with Ok text => readRconPassword text | Throw _ => None end) content with
         | Ok text => Ok text
         | Throw e => Throw (Secret e)
         end).
Definition assertUnchanged (diskContent : jstr) : hprog (result fault unit) :=
  try creds := panelRconCredentials in
  Ret (match assertRconCredentialsUnchanged creds diskContent with Ok _ => Ok tt | Throw e => Throw (Secret e) end).

Definition lock_key (name : jstr) : jstr :=
  if bool_decide (name = js "Admins.cfg") then js "admins-cfg-sync" else js "config-write:" ++ name.

(** [started] is the time of the transaction. *)
Definition persistVersion (c : nat) (started : Z) (name diskContent : jstr) (message author : option jstr) (force : bool)
    : hprog (result fault (bool * write_response)) :=
  try live := once (ask (fun _ h => h_live h)) in
  if negb live then Ret (Throw ConfigServerNotFoundError)
  else
    try prev := once (ask (fun _ h => tip h name)) in
    let newSha := sha256 diskContent in
    let prevSha := cv_sha <$> prev in
    if bool_decide (prevSha = Some newSha) then
      await onDisk := fileRead name in
      let diskInSync := match onDisk with Ok text => bool_decide (sha256 text = newSha) | Throw _ => false end in
      let wroteDisk := force || negb diskInSync in
      try _ := if wroteDisk then fileAtomicWrite name diskContent else Ret (Ok tt) in
      Ret (Ok (wroteDisk, mkResponse true (negb diskInSync) None prevSha newSha))
    else
      try id := insert_version c (fun id =>
        mkVersion id name (maskConfigSecrets name diskContent) newSha (cv_id <$> prev) author message started) in
      try _ := fileAtomicWrite name diskContent in
      Ret (Ok (true, mkResponse false false (Some id) prevSha newSha)).

(** [withConfigFileLock] and [withAdminsCfgServerLock]: what fails rolls back. *)
Definition withLock {A} (c : nat) (key : jstr) (work : Z → hprog (result fault A)) : hprog (result fault A) :=
  try started := begin_tx in
  await locked := lock key c in
  await r := match locked with Ok _ => work started | Throw e => Ret (Throw e) end in
  match r with
  | Ok a => try _ := commit c in Ret (Ok a)
  | Throw e => await _ := rollback c in Ret (Throw e)
  end.

Definition writeVersion (c : nat) (name content : jstr) (message author : option jstr) (force : bool)
    : hprog (result fault (write_response * option ReloadOutcome)) :=
  try diskContent :=
    if bool_decide (name = js "Rcon.cfg")
    then try text := unmask content in try _ := assertUnchanged text in Ret (Ok text)
    else Ret (Ok content) in
  try written := withLock c (lock_key name) (fun started => persistVersion c started name diskContent message author force) in
  let '(wroteDisk, response) := written in
  if negb wroteDisk then Ret (Ok (response, None))
  else
    match configFileClass name with
    | hot_reload => try reload := reloadServerConfig in Ret (Ok (response, Some reload))
    | _ => Ret (Ok (response, Some (NotApplied not_hot_reload)))
    end.
End Write.

(** * The panel and its surroundings *)

(** Writes by the panel, the steps and crashes of all of them, and what happens
    outside: files edited or removed on the host, time, transactions that lose
    their connection, changes of the server's row and credentials. *)
Inductive file_event :=
| Write (name content : jstr) (message author : option jstr) (force : bool)
| StepOf (c : nat) (f : fate fault) (i : input)
| CrashOf (c : nat)
| Edit (name : jstr) (content : option jstr)
| Ticks (ms : nat)
| Lost (c : nat)
| Server (live : bool) (status : jstr) (creds : option RconCredentials).

Definition edit (name : jstr) (content : option jstr) (h : host) : host :=
  set_files h (match content with Some text => map_set (h_files h) name text | None => map_delete (h_files h) name end).
Definition tick (ms : nat) (h : host) : host :=
  mkHost (h_clock h + Z.of_nat ms) (h_files h) (h_versions h) (h_locks h) (h_open h) (h_live h) (h_status h) (h_creds h).
Definition set_server (live : bool) (status : jstr) (creds : option RconCredentials) (h : host) : host :=
  mkHost (h_clock h) (h_files h) (h_versions h) (h_locks h) (h_open h) live status creds.

Section Runs.
Context (sha256 : jstr → jstr).

Definition lower (e : file_event) : event host input fault (result fault (write_response * option ReloadOutcome)) :=
  match e with
  | Write name content message author force => Start (fun c => writeVersion sha256 c name content message author force)
  | StepOf c f i => Step c f i
  | CrashOf c => Crash c
  | Edit name content => Other (edit name content)
  | Ticks ms => Other (tick ms)
  | Lost c => Other (rollback_host c)
  | Server live status creds => Other (set_server live status creds)
  end.
Definition files_run (h : host) (es : list file_event) := run (mkSystem h []) (lower <$> es).

(** ** The history holds no secret *)

Definition hidden (v : config_version) : Prop :=
  ∀ key x, SECRET_KEY_BY_FILE (cv_file v) = Some key → x ∈ secret_values key (cv_content v) → x = CONFIG_SECRET_MASK ∨ trim x = [].
Definition all_hidden (h : host) : Prop := ∀ v, v ∈ h_versions h ∨ v ∈ (h_open h).*2 → hidden v.

Lemma keeps_ask {A} (f : input → host → A) : keeps all_hidden (once (E := fault) (ask f)).
Proof. apply keeps_once. by intros i u v r Hu [= <- <-]. Qed.

Lemma all_hidden_sub h h' : (∀ v, v ∈ h_versions h' ∨ v ∈ (h_open h').*2 → v ∈ h_versions h ∨ v ∈ (h_open h).*2) → all_hidden h → all_hidden h'.
Proof. intros Hs Hh v Hv. by apply Hh, Hs. Qed.

Lemma elem_of_filter_snd {A} (f : nat * A → bool) l x : x ∈ (jfilter f l).*2 → x ∈ l.*2.
Proof. intros (y & -> & [_ Hy]%elem_of_jfilter)%list_elem_of_fmap. apply list_elem_of_fmap. eauto. Qed.

Lemma rollback_hidden c h : all_hidden h → all_hidden (rollback_host c h).
Proof. apply all_hidden_sub. intros v [Hv|Hv]; [by left|]. right. exact (elem_of_filter_snd _ _ _ Hv). Qed.

Lemma commit_hidden c h : all_hidden h → all_hidden (commit_host c h).
Proof.
  apply all_hidden_sub. cbn. intros v [[Hv|Hv]%elem_of_app|Hv]; [|by left|]; right; exact (elem_of_filter_snd _ _ _ Hv).
Qed.

Lemma mask_hidden id name content sha parent author message created :
  hidden (mkVersion id name (maskConfigSecrets name content) sha parent author message created).
Proof. intros key x Hk Hx. by eapply masked_values. Qed.

Lemma keeps_read name : keeps all_hidden (fileRead name).
Proof. apply keeps_orThrow; [apply keeps_ask|intros r; apply keeps_ret]. Qed.
Lemma keeps_write name content : keeps all_hidden (fileAtomicWrite name content).
Proof. apply keeps_once. by intros i u v r Hu [= <- <-]. Qed.

Lemma keeps_persist c started name content message author force : keeps all_hidden (persistVersion sha256 c started name content message author force).
Proof.
  apply keeps_orThrow; [apply keeps_ask|]. intros []; [|apply keeps_ret]. apply keeps_orThrow; [apply keeps_ask|]. intros prev.
  cbn zeta. case_bool_decide.
  - apply keeps_andThen; [apply keeps_read|]. intros r. cbn zeta. apply keeps_orThrow; [|intros; apply keeps_ret].
    destruct (_ || _); [apply keeps_write|apply keeps_ret].
  - apply keeps_orThrow.
    + apply keeps_once. intros i u v r Hu [= <- <-] w [Hw|Hw]; [apply Hu; by left|]. cbn in Hw.
      apply elem_of_cons in Hw as [->|Hw]; [apply mask_hidden|apply Hu; by right].
    + intros id. apply keeps_orThrow; [apply keeps_write|intros; apply keeps_ret].
Qed.

Lemma keeps_withLock {A} c key (work : Z → hprog (result fault A)) : (∀ t, keeps all_hidden (work t)) → keeps all_hidden (withLock c key work).
Proof.
  intros Hw. apply keeps_orThrow; [apply keeps_ask|]. intros t. apply keeps_andThen.
  { apply keeps_once. intros i u v r Hu Ho. destruct (map_get _ _); [done|]. by injection Ho as <- _. }
  intros locked. apply keeps_andThen; [destruct locked; [apply Hw|apply keeps_ret]|]. intros [a|e].
  - apply keeps_orThrow; [|intros; apply keeps_ret]. apply keeps_orThrow; [|intros; apply keeps_ret]. apply keeps_once.
    intros i u v r Hu. case_bool_decide; intros [= <- <-]; [by apply commit_hidden|done].
  - apply keeps_andThen; [|intros; apply keeps_ret]. apply keeps_once. intros i u v r Hu [= <- <-]. by apply rollback_hidden.
Qed.

Lemma keeps_reload : keeps all_hidden reloadServerConfig.
Proof.
  apply keeps_orThrow; [apply keeps_ask|]. intros row. cbn zeta. destruct (negb _); [apply keeps_ret|].
  apply keeps_orThrow; [apply keeps_ask|]. intros [r|id r|id f d]; [|apply keeps_ret..].
  apply keeps_orThrow; [apply keeps_ask|]. intros [cr|]; [|apply keeps_ret]. apply keeps_andThen; [apply keeps_ask|intros; apply keeps_ret].
Qed.

Lemma keeps_writeVersion c name content message author force : keeps all_hidden (writeVersion sha256 c name content message author force).
Proof.
  apply keeps_orThrow.
  { case_bool_decide; [|apply keeps_ret]. apply keeps_orThrow.
    - unfold unmask. destruct (negb _); [apply keeps_ret|]. apply keeps_orThrow; [apply keeps_ask|]. intros creds.
      apply keeps_andThen; [destruct creds; [apply keeps_ret|apply keeps_read]|intros; apply keeps_ret].
    - intros text. apply keeps_orThrow; [|intros; apply keeps_ret]. apply keeps_orThrow; [apply keeps_ask|intros; apply keeps_ret]. }
  intros text. apply keeps_orThrow; [apply keeps_withLock; intros; apply keeps_persist|].
  intros [wrote response]. destruct (negb wrote); [apply keeps_ret|].
  destruct (configFileClass name); [|apply keeps_ret..]. apply keeps_orThrow; [apply keeps_reload|intros; apply keeps_ret].
Qed.


(** ** One write, undisturbed *)

Lemma alone_read i h name :
  alone i h (fileRead name) = Some (h, match map_get (h_files h) name with Some text => Ok text | None => Throw missing_file end).
Proof. unfold fileRead. rewrite alone_orThrow. cbn. by destruct (map_get _ _). Qed.

Lemma newer_keeps name vs b : (∀ v, v ∈ vs → cv_created v ≤ cv_created b) → foldl (newer name) (Some b) vs = Some b.
Proof.
  induction vs as [|v vs IH]; intros Hv; [done|]. cbn [foldl]. unfold newer at 2. rewrite (proj2 (Z.ltb_ge _ _)) by (apply Hv; by left).
  rewrite andb_false_r. apply IH. intros u Hu. apply Hv. by right.
Qed.

Lemma alone_reload i h : ∃ r, alone i h reloadServerConfig = Some (h, Ok r).
Proof.
  unfold reloadServerConfig. rewrite alone_orThrow. cbn. destruct (negb _); [by eexists|]. cbn. destruct (in_rcon i) as [r|id r|id f d]; [|by eexists..].
  cbn. destruct (h_creds h); by eexists.
Qed.

Definition wrote (h h' : host) (name content : jstr) (new : option config_version) : Prop :=
  (∃ text, map_get (h_files h') name = Some text ∧ sha256 text = sha256 content) ∧
  (∀ other, other ≠ name → map_get (h_files h') other = map_get (h_files h) other) ∧
  h_versions h' = option_list new ++ h_versions h ∧ h_clock h' = h_clock h ∧ h_live h' = h_live h ∧ h_status h' = h_status h ∧ h_creds h' = h_creds h.

Lemma alone_persist i h c name content message author force : h_live h = true →
  ∃ h' w resp, alone i h (persistVersion sha256 c (h_clock h) name content message author force) = Some (h', Ok (w, resp)) ∧
    h_locks h' = h_locks h ∧ h_versions h' = h_versions h ∧
    if bool_decide (cv_sha <$> tip h name = Some (sha256 content)) then h_open h' = h_open h ∧ wrote h h' name content None
    else h_open h' = (c, mkVersion (in_id i) name (maskConfigSecrets name content) (sha256 content) (cv_id <$> tip h name) author message (h_clock h)) :: h_open h
         ∧ map_get (h_files h') name = Some content ∧ (∀ other, other ≠ name → map_get (h_files h') other = map_get (h_files h) other)
         ∧ h_clock h' = h_clock h ∧ h_live h' = h_live h ∧ h_status h' = h_status h ∧ h_creds h' = h_creds h.
Proof.
  intros Hl. unfold persistVersion. rewrite alone_orThrow. cbn [alone once ask mbind option_bind]. rewrite Hl. cbn [negb].
  rewrite alone_orThrow. cbn [alone once ask mbind option_bind]. cbn zeta. case_bool_decide as Hs.
  - rewrite alone_andThen, alone_read. cbn [mbind option_bind]. cbn zeta. rewrite alone_orThrow.
    destruct (force || negb match match map_get (h_files h) name with Some text => Ok text | None => Throw missing_file end with
      | Ok text => bool_decide (sha256 text = sha256 content) | Throw _ => false end) eqn:Ew.
    + cbn. eexists _, _, _. split; [done|]. cbn. split_and!; [done|done|done|]. unfold wrote. cbn.
      split_and!; try done; [exists content; by rewrite map_get_set_eq|intros; by rewrite map_get_set_ne].
    + cbn. eexists _, _, _. split; [done|]. split_and!; [done|done|done|]. apply orb_false_iff in Ew as [_ Ew]. apply negb_false_iff in Ew.
      destruct (map_get (h_files h) name) as [text|] eqn:Ef; [|done]. bool_to_Prop. unfold wrote. split_and!; [exists text; by rewrite Ef|done..].
  - cbn. eexists _, _, _. split; [done|]. cbn. split_and!; try done; [by rewrite map_get_set_eq|intros; by rewrite map_get_set_ne].
Qed.

Lemma jfilter_own_other c (open : list (nat * config_version)) : (∀ v, (c, v) ∉ open) → own c open = [] ∧ others c open = open.
Proof.
  intros Hc. assert (∀ o, o ∈ open → o.1 ≠ c) as Ho by (intros [c' v] Hin <-; by apply (Hc v)). split.
  - apply jfilter_none. intros o Hin. apply bool_decide_eq_false. by apply Ho.
  - apply jfilter_all. intros o Hin. by rewrite bool_decide_eq_false_2 by by apply Ho.
Qed.

(** A newer row, or the same one, becomes the tip. *)
Lemma tip_new h h' name new : (∀ v, v ∈ h_versions h → cv_created v ≤ h_clock h) →
  h_versions h' = option_list new ++ h_versions h →
  match new with Some v => cv_file v = name ∧ cv_created v = h_clock h | None => True end →
  tip h' name = match new with Some v => Some v | None => tip h name end.
Proof.
  intros Hv Hvs Hn. unfold tip. rewrite Hvs. destruct new as [v|]; [|done]. destruct Hn as [Hf Hc]. cbn [option_list app foldl].
  assert (newer name None v = Some v) as Hnew by (unfold newer; by rewrite bool_decide_eq_true_2 by done).
  change (foldl (newer name) (newer name None v) (h_versions h) = Some v). rewrite Hnew.
  apply newer_keeps. rewrite Hc. exact Hv.
Qed.

(** One write with no other in between does what it is for: afterwards the
    file holds the content (up to its digest), every other file is as it was, the
    newest version describes it, and the history has grown by exactly that
    version, unless the newest one already was that content. *)
Theorem writeVersion_alone i h c name content message author force :
  name ≠ js "Rcon.cfg" → h_live h = true → map_get (h_locks h) (lock_key name) = None → c ∉ (h_locks h).*2 →
  (∀ v, (c, v) ∉ h_open h) → (∀ v, v ∈ h_versions h → cv_created v ≤ h_clock h) →
  ∃ h' resp reload new, alone i h (writeVersion sha256 c name content message author force) = Some (h', Ok (resp, reload)) ∧
    wrote h h' name content new ∧ h_locks h' = h_locks h ∧ h_open h' = h_open h ∧
    cv_sha <$> tip h' name = Some (sha256 content) ∧
    new = (if bool_decide (cv_sha <$> tip h name = Some (sha256 content)) then None
           else Some (mkVersion (in_id i) name (maskConfigSecrets name content) (sha256 content) (cv_id <$> tip h name) author message (h_clock h))).
Proof.
  intros Hn Hl Hlock Hc Hopen Hold. unfold writeVersion. rewrite bool_decide_eq_false_2 by done. rewrite alone_orThrow. cbn [alone mbind option_bind].
  rewrite alone_orThrow. unfold withLock at 1. rewrite alone_orThrow. cbn [alone once ask begin_tx mbind option_bind].
  rewrite alone_andThen. unfold lock at 1. cbn [alone once]. rewrite Hlock. cbn [mbind option_bind alone].
  set (h1 := set_tx h _ _ _). rewrite alone_andThen.
  destruct (alone_persist i h1 c name content message author force Hl) as (h2 & w & resp & Hp & Hlocks & Hvs & Hcase).
  change (h_clock h) with (h_clock h1). rewrite Hp. cbn [mbind option_bind].
  rewrite alone_orThrow. unfold commit. rewrite alone_orThrow. cbn [alone once mbind option_bind].
  assert (map_set (h_locks h) (lock_key name) c = h_locks h ++ [(lock_key name, c)]) as Hset by (apply map_set_new; by apply map_get_None).
  rewrite bool_decide_eq_true_2.
  2:{ rewrite Hlocks. unfold h1. cbn. rewrite Hset, fmap_app, elem_of_app. right. by left. }
  cbn [mbind option_bind alone].
  assert (without c (h_locks h2) = h_locks h) as Hwl.
  { rewrite Hlocks. unfold h1, without. cbn [h_locks set_tx]. rewrite Hset. unfold jfilter. rewrite List.filter_app. cbn.
    rewrite bool_decide_eq_true_2 by done. cbn. rewrite app_nil_r. apply jfilter_all. intros l Hin.
    rewrite bool_decide_eq_false_2; [done|]. intros <-. apply Hc. apply list_elem_of_fmap. eauto. }
  assert (∃ new, wrote h (commit_host c h2) name content new ∧ h_open (commit_host c h2) = h_open h ∧ cv_sha <$> tip (commit_host c h2) name = Some (sha256 content) ∧
    new = (if bool_decide (cv_sha <$> tip h name = Some (sha256 content)) then None
           else Some (mkVersion (in_id i) name (maskConfigSecrets name content) (sha256 content) (cv_id <$> tip h name) author message (h_clock h))))
    as (new & Hw & Ho & Ht & Hnew).
  { change (tip h1 name) with (tip h name) in Hcase. change (h_clock h1) with (h_clock h) in Hcase. change (h_open h1) with (h_open h) in Hcase.
    destruct (jfilter_own_other c (h_open h) Hopen) as [Hown Hoth]. case_bool_decide as Hs; eexists.
    - destruct Hcase as [Hop Hwr]. split_and!; [| |etrans; [|exact Hs]; f_equal; apply (tip_new _ _ _ None); [exact Hold| |done]|done].
      + unfold commit_host. rewrite Hop, Hown. cbn. destruct Hwr as (? & ? & ? & ? & ? & ? & ?). by split_and!.
      + unfold commit_host. cbn. by rewrite Hop, Hoth.
      + unfold commit_host. cbn. by rewrite Hop, Hown, Hvs.
    - destruct Hcase as (Hop & Hf & Hothers & ? & ? & ? & ?). unfold commit_host. rewrite Hop. unfold own, others, jfilter. cbn [List.filter fst].
      rewrite bool_decide_eq_true_2 by done. cbn [negb]. change (List.filter (fun o => bool_decide (o.1 = c)) (h_open h)) with (own c (h_open h)).
      change (List.filter (fun o => negb (bool_decide (o.1 = c))) (h_open h)) with (others c (h_open h)). rewrite Hown, Hoth.
      split; [|split; [done|split; [|done]]].
      + unfold wrote. cbn. rewrite Hvs. split_and!; try done. by exists content.
      + erewrite (tip_new h _ name (Some _)); [|exact Hold|cbn; rewrite Hvs; reflexivity|]; done. }
  destruct (negb w); cbn [alone mbind option_bind].
  - eexists _, _, _, new. split_and!; [done|done|done|done|done|done].
  - destruct (configFileClass name).
    + rewrite alone_orThrow. destruct (alone_reload i (commit_host c h2)) as [r Hr]. rewrite Hr. cbn [mbind option_bind alone].
      eexists _, _, _, new. split_and!; [done|done|done|done|done|done].
    + eexists _, _, _, new. split_and!; [done|done|done|done|done|done].
    + eexists _, _, _, new. split_and!; [done|done|done|done|done|done].
Qed.
End Runs.

(** * Concrete runs *)

Definition ex_input (id : jstr) : input := mkInput id (NotAttempted worker_not_connected) (Throw []).
Definition ex_host : host := mkHost 1000 [] [] [] [] true (js "stopped") None.

(** The digest of the examples is the text itself. *)
Lemma writeVersion_alone_witness : ∃ h' resp reload new,
  alone (ex_input (js "v1")) ex_host (writeVersion id 0 (js "MOTD.cfg") (js "hello") None None false) = Some (h', Ok (resp, reload)) ∧
  wrote id ex_host h' (js "MOTD.cfg") (js "hello") new ∧ h_locks h' = [] ∧ h_open h' = [] ∧
  cv_sha <$> tip h' (js "MOTD.cfg") = Some (js "hello") ∧
  new = Some (mkVersion (js "v1") (js "MOTD.cfg") (js "hello") (js "hello") None None None 1000).
Proof.
  apply (writeVersion_alone id (ex_input (js "v1")) ex_host 0%nat (js "MOTD.cfg") (js "hello") None None false);
    [done|done|done|by intros ?%elem_of_nil|by intros v ?%elem_of_nil|by intros v ?%elem_of_nil].
Defined.

Definition ex_steps (c n : nat) (id : jstr) : list file_event := replicate n (StepOf c Done (ex_input id)).

(** Two writers: the first begins its transaction, the second begins later but
    gets the lock first. The file ends with what the first one wrote; the newest
    version, by the time its transaction began, is the second one's. *)
Definition ex_overlap : list file_event :=
  [Write (js "MOTD.cfg") (js "first") None None false; Write (js "MOTD.cfg") (js "second") None None false]
  ++ ex_steps 0 1 (js "v1") ++ [Ticks 5] ++ ex_steps 1 8 (js "v2") ++ ex_steps 0 7 (js "v1").
Lemma tip_lags_behind_disk :
  let h := shared (files_run id ex_host ex_overlap) in
  map_get (h_files h) (js "MOTD.cfg") = Some (js "first") ∧ cv_content <$> tip h (js "MOTD.cfg") = Some (js "second") ∧
  h_locks h = [] ∧ length (h_versions h) = 2%nat.
Proof. vm_compute. split_and!; reflexivity. Qed.

(** A database fault while the reload is decided fails a write that has been
    committed. *)
Definition ex_reload_fault : list file_event :=
  [Write (js "Bans.cfg") (js "x") None None false] ++ ex_steps 0 7 (js "v1") ++ [StepOf 0 (Refused Database) (ex_input [])].
Lemma failed_reload_fails_write :
  let s := files_run id ex_host ex_reload_fault in
  map_get (h_files (shared s)) (js "Bans.cfg") = Some (js "x") ∧ length (h_versions (shared s)) = 1%nat ∧
  match tasks s !! 0%nat with Some (Some (Ret (Throw Database))) => True | _ => False end.
Proof. vm_compute. split_and!; [reflexivity|reflexivity|exact I]. Qed.

