(* ===== verification/BansFile.v ===== *)
(** [apps/api/src/lib/bans-cfg.ts] and [bridge-file-errors.ts]: taking a
    player's lines out of a game server's Bans.cfg, and telling a missing file
    from other errors of the host bridge. *)
From S2P Require Import Prelude JsString BanAdapters.

Record RemoveBanLinesResult := mkRemoved { content : jstr; removed : list jstr; eol : jstr }.

Definition LINE_PATTERN (line : jstr) : option (jstr * jstr * jstr * option jstr) := match_line [] line.
(** [match?.groups?.steamId === steamId64]. *)
Definition bans (steamId64 line : jstr) : bool :=
  match LINE_PATTERN line with Some (_, steamId, _, _) => bool_decide (steamId = steamId64) | None => false end.

(** The loop over the lines. *)
Fixpoint sort_lines (steamId64 : jstr) (lines kept removed : list jstr) : list jstr * list jstr :=
  match lines with
  | [] => (kept, removed)
  | line :: lines =>
      if bans steamId64 line then sort_lines steamId64 lines kept (removed ++ [line])
      else sort_lines steamId64 lines (kept ++ [line]) removed
  end.

Definition removeBanLines (text steamId64 : jstr) : RemoveBanLinesResult :=
  let eol := if includes [13; 10] text then [13; 10] else [10] in
  let lines := split_lines text in
  let '(kept, removed) := sort_lines steamId64 lines [] [] in
  mkRemoved (join eol kept) removed eol.

(** The lines that ban a player. *)
Definition ban_lines (steamId64 text : jstr) : list jstr := jfilter (bans steamId64) (split_lines text).

(** [isFileNotFoundError], on the code and the message of an error. *)
Definition lower (s : jstr) : jstr := (fun c => if (65 <=? c) && (c <=? 90) then c + 32 else c) <$> s.
Definition isFileNotFoundError (code : option jstr) (message : jstr) : bool :=
  match code with
  | Some c => bool_decide (c = js "ENOENT") || bool_decide (c = js "not_found") || bool_decide (c = js "no_such_file")
  | None => false
  end
  || includes (js "no such file") (lower message) || includes (js "not_found") (lower message) || includes (js "enoent") (lower message).

Example remove_ex :
  removeBanLines (js "// bans" ++ [13; 10] ++ js "Banned:76561198000000001:0 // x" ++ [13; 10] ++ js "Banned:76561198000000002:0") (js "76561198000000001")
  = mkRemoved (js "// bans" ++ [13; 10] ++ js "Banned:76561198000000002:0") [js "Banned:76561198000000001:0 // x"] [13; 10].
Proof. vm_compute. reflexivity. Qed.

(** * What is left *)

Lemma sort_lines_ok id ls kept gone :
  sort_lines id ls kept gone = (kept ++ jfilter (fun l => negb (bans id l)) ls, gone ++ jfilter (bans id) ls).
Proof.
  revert kept gone. induction ls as [|l ls IH]; intros kept gone; cbn [sort_lines]; [by rewrite !app_nil_r|].
  unfold jfilter. cbn [List.filter]. destruct (bans id l); cbn [negb]; rewrite IH, <-app_assoc; done.
Qed.

Lemma split_on_free sep s : Forall (fun p => sep ∉ p) (split_on sep s).
Proof.
  induction s as [|c s IH]; cbn [split_on]; [by repeat constructor; apply not_elem_of_nil|].
  destruct (c =? sep) eqn:E; bool_to_Prop; [constructor; [apply not_elem_of_nil|done]|].
  destruct (split_on sep s) as [|w ws]; [by repeat constructor; set_solver|]. inversion IH; subst. constructor; [set_solver|done].
Qed.

Lemma strip_cr_free c s : c ∉ s → c ∉ strip_cr s.
Proof.
  unfold strip_cr. destruct (last s) as [d|] eqn:E; [|done]. apply last_Some in E as [s' ->]. intros H.
  destruct (decide (d = 13)) as [->|]; [rewrite removelast_last; set_solver|by repeat (case_match; try done)].
Qed.

Lemma split_lines_free s : Forall (fun l => 10 ∉ l) (split_lines s).
Proof.
  unfold split_lines. pose proof (split_on_free 10 s) as H. induction H as [|p ps Hp Hps IH]; [constructor|].
  destruct ps; [by constructor|]. constructor; [by apply strip_cr_free|exact IH].
Qed.

(** Lines joined again with their line ends are read back. *)
Lemma split_lines_crlf ls : ls ≠ [] → Forall (fun l => 10 ∉ l) ls → split_lines (join [13; 10] ls) = ls.
Proof.
  unfold split_lines. intros Hne. induction 1 as [|l ls Hl Hls IH]; [done|].
  destruct ls as [|l' ls]; [cbn [join]; by rewrite split_on_no_sep|].
  replace (join [13; 10] (l :: l' :: ls)) with ((l ++ [13]) ++ 10 :: join [13; 10] (l' :: ls)) by by rewrite <-app_assoc.
  rewrite split_on_app by set_solver. specialize (IH ltac:(done)).
  pose proof (split_on_nonempty 10 (join [13; 10] (l' :: ls))) as Hn.
  destruct (split_on 10 (join [13; 10] (l' :: ls))) as [|p ps]; [done|].
  change (strip_crs ((l ++ [13]) :: p :: ps)) with (strip_cr (l ++ [13]) :: strip_crs (p :: ps)). rewrite IH.
  f_equal. unfold strip_cr. by rewrite last_snoc, removelast_last.
Qed.

Definition no_cr (l : jstr) : Prop := last l ≠ Some 13.

Lemma strip_cr_no_cr l : no_cr l → strip_cr l = l.
Proof.
  unfold no_cr, strip_cr. destruct (last l) as [d|]; [|done]. intros H. destruct (decide (d = 13)) as [->|]; [done|by repeat (case_match; try done)].
Qed.

Lemma strip_crs_no_cr ls : Forall no_cr (removelast ls) → strip_crs ls = ls.
Proof.
  induction ls as [|l ls IH]; [done|]. destruct ls as [|l' ls]; [done|]. change (removelast (l :: l' :: ls)) with (l :: removelast (l' :: ls)).
  inversion 1; subst. change (strip_crs (l :: l' :: ls)) with (strip_cr l :: strip_crs (l' :: ls)). by rewrite strip_cr_no_cr, IH.
Qed.

Lemma split_lines_lf ls : ls ≠ [] → Forall (fun l => 10 ∉ l) ls → Forall no_cr (removelast ls) → split_lines (join [10] ls) = ls.
Proof. intros Hne Hls Hcr. unfold split_lines. rewrite split_on_join by done. by apply strip_crs_no_cr. Qed.

(** Without CRLF no line but the last ends in CR. *)
Lemma includes_app p a b : includes p (a ++ p ++ b) = true.
Proof.
  apply bool_decide_eq_true. destruct (index_of p (a ++ p ++ b)) as [i|] eqn:E; [done|]. apply index_of_None with (j := length a) in E.
  exfalso. apply E. rewrite drop_app_length. by exists b.
Qed.

Lemma no_crlf_lines s : includes [13; 10] s = false → Forall no_cr (removelast (split_on 10 s)).
Proof.
  intros Hs. rewrite <-(join_split_on 10 s) in Hs. revert Hs. generalize (split_on 10 s). intros ls. induction ls as [|l ls IH]; [constructor|].
  destruct ls as [|l' ls]; [constructor|]. change (join [10] (l :: l' :: ls)) with (l ++ [10] ++ join [10] (l' :: ls)).
  change (removelast (l :: l' :: ls)) with (l :: removelast (l' :: ls)). intros Hs. constructor.
  - intros Hl. apply last_Some in Hl as [l0 ->]. rewrite <-app_assoc in Hs. change ([13] ++ [10] ++ ?x) with ([13; 10] ++ x) in Hs.
    by rewrite includes_app in Hs.
  - apply IH. apply not_true_iff_false. intros Ht. apply bool_decide_eq_true in Ht as [i Hi]. apply index_of_Some in Hi as [[k Hk] _].
    apply not_true_iff_false in Hs. apply Hs. rewrite <-(take_drop i (join [10] (l' :: ls))), Hk, !app_assoc. rewrite <-app_assoc. apply includes_app.
Qed.

Lemma removelast_jfilter {A} (P : A → Prop) f (ls : list A) : Forall P (removelast ls) → Forall P (removelast (jfilter f ls)).
Proof.
  destruct ls as [|x xs] using rev_ind; [done|]. rewrite removelast_last. intros H. unfold jfilter. rewrite List.filter_app. cbn [List.filter].
  assert (Forall P (List.filter f xs)) as Hf.
  { apply Forall_forall. intros y Hy. apply elem_of_jfilter in Hy as [_ Hy]. rewrite Forall_forall in H. by apply H. }
  destruct (f x); [by rewrite removelast_last|]. rewrite app_nil_r. rewrite Forall_forall in Hf |- *. intros y Hy. apply Hf.
  clear -Hy. revert Hy. generalize (List.filter f xs). intros l. induction l as [|a l IH]; [done|]. destruct l as [|b l]; cbn; [by intros ?%elem_of_nil|].
  intros [->|Hy]%elem_of_cons; [by left|]. right. by apply IH.
Qed.

Lemma removeBanLines_lines text id :
  split_lines (content (removeBanLines text id)) =
    match jfilter (fun l => negb (bans id l)) (split_lines text) with [] => [[]] | ls => ls end ∧
  removed (removeBanLines text id) = ban_lines id text.
Proof.
  unfold removeBanLines. rewrite sort_lines_ok. cbn [content removed app]. split; [|done].
  set (ls := jfilter _ _). assert (ls ≠ [] → split_lines (join (if includes [13; 10] text then [13; 10] else [10]) ls) = ls) as H.
  { intros Hne. assert (Forall (fun l => 10 ∉ l) ls) as Hf.
    { apply Forall_forall. intros l Hl. apply elem_of_jfilter in Hl as [_ Hl]. pose proof (split_lines_free text) as H. rewrite Forall_forall in H. by apply H. }
    destruct (includes [13; 10] text) eqn:E; [by apply split_lines_crlf|]. apply split_lines_lf; [done|done|].
    apply removelast_jfilter. unfold split_lines. rewrite strip_crs_no_cr; by apply no_crlf_lines. }
  destruct ls; [by destruct (includes _ _)|by apply H].
Qed.

Lemma removed_no_ban text id : ban_lines id (content (removeBanLines text id)) = [].
Proof.
  unfold ban_lines. rewrite (proj1 (removeBanLines_lines text id)). destruct (jfilter _ (split_lines text)) as [|l ls] eqn:E; [done|].
  rewrite <-E. apply jfilter_none. intros x Hx. apply elem_of_jfilter in Hx as [Hx _]. by apply negb_true_iff in Hx.
Qed.

(** After taking out a player's lines the file has no line that bans them,
    and every other line is as it was, in order: what is kept and what is taken
    out are the lines that do not and that do ban the player. *)
Theorem removeBanLines_exact text id :
  let r := removeBanLines text id in
  ban_lines id (content r) = [] ∧
  (∀ other, other ≠ id → ban_lines other (content r) = ban_lines other text) ∧
  removed r = ban_lines id text ∧
  split_lines (content r) = match jfilter (fun l => negb (bans id l)) (split_lines text) with [] => [[]] | ls => ls end.
Proof.
  cbn zeta. destruct (removeBanLines_lines text id) as [Hl Hr]. split_and!; [apply removed_no_ban| |done|done].
  intros other Ho. unfold ban_lines. rewrite Hl.
  assert (jfilter (bans other) (jfilter (fun l => negb (bans id l)) (split_lines text)) = jfilter (bans other) (split_lines text)) as Hsame.
  { generalize (split_lines text). intros ls. unfold jfilter. induction ls as [|l ls IH]; [done|]. cbn [List.filter].
    destruct (bans id l) eqn:Ei; cbn [negb]; [|cbn [List.filter]; by rewrite IH].
    assert (bans other l = false) as ->; [|done]. unfold bans in *. destruct (LINE_PATTERN l) as [[[[p s] x] cm]|]; [|done]. bool_to_Prop. subst.
    by apply bool_decide_eq_false. }
  destruct (jfilter _ (split_lines text)); [|by rewrite <-Hsame]. by rewrite <-Hsame.
Qed.

(** A comment with a Unicode line separator hides the line from the pattern. *)
Lemma separator_keeps_ban :
  removed (removeBanLines (js "Banned:76561198000000001:0 // a" ++ [0x2028] ++ js "b") (js "76561198000000001")) = [].
Proof. vm_compute. reflexivity. Qed.
