(* ===== verification/Moderation.v ===== *)
(** Moderation by the panel: [apps/api/src/lib/moderation-enforce.ts],
    [panel-guard.ts] and the enforcement and revert routes of
    [apps/api/src/routes/moderation-actions.ts], run interleaved with each other
    and with their surroundings. *)
From S2P Require Import Prelude JsString JsDate JsMap BanPublish OperatorCommand RconQueue Interleave ServerFiles BansFile.

(** * The tables, the stream and the servers *)

Record PlayerIdentity := mkIdentity { eosId : option jstr; steamId64 : option jstr; player_name : jstr }.

(** The context column of a row: of an enforced action, of an unban, or
    another. *)
Inductive action_context :=
| Enforced (ban_length : jstr) (expires_at : option Z) (rcon_request_id target source : jstr)
| Unbanned (removed_ban_lines reverted_action_ids : list jstr)
| Other_context.

(** A row of [moderation_actions]. *)
Record action_row := mkAction {
  act_id : jstr;
  act_player : jstr;
  act_server : option jstr;
  act_type : jstr;
  act_author : option jstr;
  act_reason : jstr;
  act_context : action_context;
  act_report : option jstr;
  act_reverted : option (Z * jstr);
}.

Record EventEnvelope := mkEnvelope {
  env_type : jstr;
  env_server : jstr;
  env_actor : jstr;
  env_correlation : option jstr;
  env_action : jstr;
  env_player : jstr;
  env_identity : PlayerIdentity;
  env_reason : jstr;
  env_duration : option jstr;
  env_actor_name : jstr;
  env_ts : Z;
}.

(** What a call has done so far, for the record: found the player, what the
    bridge answered for Bans.cfg, the command for a game server and what the
    worker said of it, the ban rows it reverted, the rows it wrote, the event
    it wrote. *)
Inductive deed :=
| Found (p : jstr) (who : PlayerIdentity)
| Read (server : jstr) (answer : option jstr)
| Commanded (server : jstr) (command : RconOperatorCommandName) (args : list jstr) (outcome : WorkerRconCommandOutcome)
| Claimed (player server actor : jstr) (ids : list jstr)
| Recorded (row : action_row)
| Announced (e : EventEnvelope).

(** What an open transaction of a call has inserted. *)
Inductive staged := StagedRow (row : action_row) | StagedEvent (e : EventEnvelope).

Record world := mkWorld {
  clock : Z;
  hosts : jstr → host;
  players : list (jstr * PlayerIdentity);
  media : list (jstr * bool);
  actions : list action_row;
  links : list (jstr * jstr);
  events : list EventEnvelope;
  streamed : list EventEnvelope;
  tx : list (nat * staged);
  deeds : list (nat * deed);
}.

Definition mprog (A : Type) : Type := prog world input fault A.

Definition set_host (server : jstr) (h : host) (w : world) : world :=
  mkWorld (clock w) (fun s => if bool_decide (s = server) then h else hosts w s) (players w) (media w) (actions w) (links w) (events w) (streamed w) (tx w) (deeds w).
Definition set_tables (acts : list action_row) (evs : list EventEnvelope) (t : list (nat * staged)) (w : world) : world :=
  mkWorld (clock w) (hosts w) (players w) (media w) acts (links w) evs (streamed w) t (deeds w).
Definition set_links (ls : list (jstr * jstr)) (w : world) : world :=
  mkWorld (clock w) (hosts w) (players w) (media w) (actions w) ls (events w) (streamed w) (tx w) (deeds w).
Definition set_streamed (es : list EventEnvelope) (w : world) : world :=
  mkWorld (clock w) (hosts w) (players w) (media w) (actions w) (links w) (events w) es (tx w) (deeds w).
Definition did (c : nat) (d : deed) (w : world) : world :=
  mkWorld (clock w) (hosts w) (players w) (media w) (actions w) (links w) (events w) (streamed w) (tx w) (deeds w ++ [(c, d)]).

Definition query {A} (f : world → A) : mprog (result fault A) := once (fun _ w => Some (w, f w)).
(** A program over one server's host. *)
Definition on_host {A} (server : jstr) (p : hprog A) : mprog A := lift (fun w => hosts w server) (set_host server) p.

(** The ids in use; the database does not generate one of them again. *)
Definition staged_id (s : nat * staged) : option jstr := match s.2 with StagedRow r => Some (act_id r) | StagedEvent _ => None end.
Definition row_ids (w : world) : list jstr := (act_id <$> actions w) ++ omap staged_id (tx w).
Definition insert_action (c : nat) (row : jstr → action_row) : mprog (result fault (jstr * Z)) :=
  once (fun i w => if bool_decide (in_id i ∈ row_ids w) then None
                   else Some (did c (Recorded (row (in_id i))) (set_tables (actions w ++ [row (in_id i)]) (events w) (tx w) w), (in_id i, clock w))).
Definition insert_event (c : nat) (e : EventEnvelope) : mprog (result fault unit) :=
  once (fun _ w => Some (did c (Announced e) (set_tables (actions w) (events w ++ [e]) (tx w) w), tt)).

(** In a transaction: inserts are visible to others, and a deed, at its commit. *)
Definition stage_action (c : nat) (row : jstr → action_row) : mprog (result fault (jstr * Z)) :=
  once (fun i w => if bool_decide (in_id i ∈ row_ids w) then None
                   else Some (set_tables (actions w) (events w) (tx w ++ [(c, StagedRow (row (in_id i)))]) w, (in_id i, clock w))).
Definition stage_event (c : nat) (e : EventEnvelope) : mprog (result fault unit) :=
  once (fun _ w => Some (set_tables (actions w) (events w) (tx w ++ [(c, StagedEvent e)]) w, tt)).
Definition rows_of (ss : list staged) : list action_row := omap (fun s => match s with StagedRow r => Some r | _ => None end) ss.
Definition events_of (ss : list staged) : list EventEnvelope := omap (fun s => match s with StagedEvent e => Some e | _ => None end) ss.
Definition deed_of (s : staged) : deed := match s with StagedRow r => Recorded r | StagedEvent e => Announced e end.
Definition drop_staged (c : nat) (t : list (nat * staged)) : list (nat * staged) := jfilter (fun s => negb (bool_decide (s.1 = c))) t.
Definition commit_world (c : nat) (w : world) : world :=
  let mine := by_call c (tx w) in
  mkWorld (clock w) (hosts w) (players w) (media w) (actions w ++ rows_of mine) (links w) (events w ++ events_of mine) (streamed w)
    (drop_staged c (tx w)) (deeds w ++ ((fun s => (c, deed_of s)) <$> mine)).
Definition commit_tx (c : nat) : mprog (result fault unit) := once (fun _ w => Some (commit_world c w, tt)).
Definition discard (c : nat) (w : world) : world := set_tables (actions w) (events w) (drop_staged c (tx w)) w.
Definition rollback_tx (c : nat) : mprog (result fault unit) := once (fun _ w => Some (discard c w, tt)).
(** [app.db.transaction]. *)
Definition transaction {A} (c : nat) (work : mprog (result fault A)) : mprog (result fault A) :=
  await r := work in
  match r with
  | Ok a => try _ := commit_tx c in Ret (Ok a)
  | Throw e => await _ := rollback_tx c in Ret (Throw e)
  end.

(** * [moderation-enforce.ts] *)

Inductive EnforceActionType := warn | kick | ban.
Definition action_text (t : EnforceActionType) : jstr := match t with warn => js "warn" | kick => js "kick" | ban => js "ban" end.
Definition RCON_COMMAND_BY_ACTION (t : EnforceActionType) : RconOperatorCommandName :=
  match t with warn => AdminWarn | kick => AdminKick | ban => AdminBan end.
Definition MODERATION_EVENT_TYPE (t : jstr) : jstr := js "moderation." ++ t.

(** [moderationActionPayload] on what is not an id the panel made. *)
Definition payload_ok (who : PlayerIdentity) (actorName : jstr) : bool :=
  match steamId64 who with Some s => bool_decide (length s = 17%nat) && forallb is_digit s | None => true end
  && match eosId who with Some e => negb (bool_decide (e = [])) | None => true end
  && negb (bool_decide (player_name who = [])) && negb (bool_decide (actorName = [])).

Record ModerationEventParams := mkEventParams {
  mp_action : jstr; mp_type : jstr; mp_actor : jstr; mp_actorName : jstr; mp_player : jstr; mp_who : PlayerIdentity;
  mp_server : jstr; mp_report : option jstr; mp_correlation : option jstr; mp_reason : jstr; mp_duration : option jstr;
}.
Definition invalid_payload : fault := Missing (js "ZodError").
Definition buildModerationEnvelope (p : ModerationEventParams) (now : Z) : result fault EventEnvelope :=
  if payload_ok (mp_who p) (mp_actorName p) then
    Ok (mkEnvelope (MODERATION_EVENT_TYPE (mp_type p)) (mp_server p) (mp_actor p)
          (match mp_correlation p with Some x => Some x | None => mp_report p end)
          (mp_action p) (mp_player p) (mp_who p) (mp_reason p) (mp_duration p) (mp_actorName p) now)
  else Throw invalid_payload.

(** A fault of the stream is swallowed. *)
Definition streamModerationEvent (e : EventEnvelope) : mprog (result fault unit) :=
  await _ := once (fun _ w => Some (set_streamed (streamed w ++ [e]) w, tt)) in Ret (Ok tt).

Definition publishModerationEvent (c : nat) (p : ModerationEventParams) (now : Z) : mprog (result fault EventEnvelope) :=
  match buildModerationEnvelope p now with
  | Throw e => Ret (Throw e)
  | Ok envelope => try _ := insert_event c envelope in try _ := streamModerationEvent envelope in Ret (Ok envelope)
  end.

Record EnforceModerationActionInput := mkEnforceInput {
  ei_server : jstr; ei_player : jstr; ei_identity : PlayerIdentity; ei_type : EnforceActionType; ei_reason : jstr;
  ei_banLength : jstr; ei_actor : jstr; ei_actorName : jstr; ei_report : option jstr; ei_source : option jstr; ei_correlation : option jstr;
}.
Inductive EnforceModerationActionResult :=
| Refused_by_worker (outcome : WorkerRconCommandOutcome)
| Enforced_as (actionId requestId : jstr).

Definition sendRconCommandViaWorker (c : nat) (server : jstr) (command : RconOperatorCommandName) (args : list jstr) : mprog (result fault (WorkerRconCommandOutcome * Z)) :=
  once (fun i w => Some (did c (Commanded server command args (in_rcon i)) w, (in_rcon i, clock w))).

(** [input.identity.eosId ?? input.identity.steamId64], an empty text counting
    as none. *)
Definition target_of (who : PlayerIdentity) : option jstr :=
  match (match eosId who with Some e => Some e | None => steamId64 who end) with Some [] | None => None | Some t => Some t end.
Definition enforce_args (t : EnforceActionType) (target banLength reason : jstr) : list jstr :=
  match t with ban => [target; banLength; reason] | _ => [target; reason] end.

Definition enforceModerationAction (c : nat) (p : EnforceModerationActionInput) : mprog (result fault EnforceModerationActionResult) :=
  match target_of (ei_identity p) with
  | None => Ret (Throw (Missing (js "enforceModerationAction: identity has neither eosId nor steamId64")))
  | Some target =>
      try answer := sendRconCommandViaWorker c (ei_server p) (RCON_COMMAND_BY_ACTION (ei_type p)) (enforce_args (ei_type p) target (ei_banLength p) (ei_reason p)) in
      let '(outcome, now) := answer in
      match outcome with
      | Succeeded requestId _ =>
          let context := Enforced (ei_banLength p) (parseBanLengthToExpiry (Some (ei_banLength p)) now) requestId target
                           (match ei_source p with Some s => s | None => js "player_card" end) in
          try built := transaction c (
            try staged := stage_action c (fun id =>
              mkAction id (ei_player p) (Some (ei_server p)) (action_text (ei_type p)) (Some (ei_actor p)) (ei_reason p) context (ei_report p) None) in
            let '(actionId, now) := staged in
            match buildModerationEnvelope (mkEventParams actionId (action_text (ei_type p)) (ei_actor p) (ei_actorName p) (ei_player p) (ei_identity p)
                    (ei_server p) (ei_report p) (ei_correlation p) (ei_reason p) (match ei_type p with ban => Some (ei_banLength p) | _ => None end)) now with
            | Throw e => Ret (Throw e)
            | Ok envelope => try _ := stage_event c envelope in Ret (Ok (actionId, envelope))
            end) in
          let '(actionId, envelope) := built in
          try _ := streamModerationEvent envelope in
          Ret (Ok (Enforced_as actionId requestId))
      | _ => Ret (Ok (Refused_by_worker outcome))
      end
  end.

(** The update of [markBansReverted]. *)
Definition active_ban (player server : jstr) (r : action_row) : bool :=
  bool_decide (act_player r = player) && bool_decide (act_server r = Some server) && bool_decide (act_type r = js "ban") && bool_decide (act_reverted r = None).
Definition revert_row (player server actor : jstr) (now : Z) (r : action_row) : action_row :=
  if active_ban player server r
  then mkAction (act_id r) (act_player r) (act_server r) (act_type r) (act_author r) (act_reason r) (act_context r) (act_report r) (Some (now, actor))
  else r.
Definition markBansReverted (c : nat) (player server actor : jstr) : mprog (result fault (list jstr)) :=
  once (fun _ w =>
    let ids : list jstr := act_id <$> jfilter (active_ban player server) (actions w) in
    Some (did c (Claimed player server actor ids) (set_tables (revert_row player server actor (clock w) <$> actions w) (events w) (tx w) w), ids)).

(** * [panel-guard.ts] and the guard of the write routes *)

Record req_user := mkUser { user_player : jstr; user_name : jstr; user_panelAccess : bool; user_squadPermissions : list jstr }.

(** A refusal: its status, its error and the permission it asks for. *)
Record denial := mkDenial { status : Z; error : jstr; required : option jstr }.
Definition refuse (s : Z) (e : jstr) : denial := mkDenial s e None.

Definition panelGuard (user : option req_user) : option denial :=
  match user with
  | None => Some (refuse 401 (js "unauthenticated"))
  | Some u => if user_panelAccess u then None else Some (refuse 403 (js "forbidden"))
  end.
Definition moderationWriteGuard (user : option req_user) (t : EnforceActionType) : result denial req_user :=
  match panelGuard user, user with
  | Some d, _ => Throw d
  | None, None => Throw (refuse 401 (js "unauthenticated"))
  | None, Some u =>
      let required := match t with ban => js "ban" | _ => js "kick" end in
      if bool_decide (required ∈ user_squadPermissions u) then Ok u else Throw (mkDenial 403 (js "forbidden") (Some required))
  end.

(** * [moderation-actions.ts] *)

Definition MAX_BANS_CFG_ATTEMPTS : nat := 3.
Definition bans_cfg : jstr := js "Bans.cfg".

(** [isFileNotFoundError] on an exception of the bridge. *)
Definition not_found (e : fault) : bool := match e with Bridge code message => isFileNotFoundError code message | _ => false end.
(** [Some []] for a missing file, [None] when the content is unknown. *)
Definition readBansCfg (c : nat) (server : jstr) : mprog (option jstr) :=
  await r := once (fun _ w => let answer := map_get (h_files (hosts w server)) bans_cfg in Some (did c (Read server answer) w, answer)) in
  Ret (match r with
       | Ok (Some text) => Some text
       | Ok None => if not_found missing_file then Some [] else None
       | Throw e => if not_found e then Some [] else None
       end).

Inductive unban_error := bans_cfg_conflict | bans_cfg_unavailable | already_reverted.
Definition unban_error_text (e : unban_error) : jstr :=
  match e with
  | bans_cfg_conflict => js "bans_cfg_conflict"
  | bans_cfg_unavailable => js "bans_cfg_unavailable"
  | already_reverted => js "already_reverted"
  end.
Inductive UnbanPlayerResult :=
| Unban_failed (e : unban_error)
| Unban_ok (unbanActionId : jstr) (revertedActionIds removedLines : list jstr) (reload : ReloadOutcome).

Record UnbanPlayerParams := mkUnbanParams {
  up_player : jstr; up_server : jstr; up_identity : PlayerIdentity; up_actor : jstr; up_actorName : jstr; up_reason : jstr; up_target : jstr;
}.

Section Routes.
(** The SHA-256 digest of a text. *)
Context (sha256 : jstr → jstr).

(** The loop over the attempts. *)
Fixpoint unban_attempts (c : nat) (p : UnbanPlayerParams) (steam : jstr) (reload : ReloadOutcome) (attempts : nat)
    : mprog (result fault (result unban_error (list jstr * ReloadOutcome))) :=
  match attempts with
  | O => Ret (Ok (Throw bans_cfg_conflict))
  | S attempts =>
      await current := readBansCfg c (up_server p) in
      match current with
      | None => Ret (Ok (Throw bans_cfg_unavailable))
      | Some current =>
          let result := removeBanLines current steam in
          if bool_decide (removed result = []) then Ret (Ok (Ok ([], reload)))
          else
            try written := on_host (up_server p) (writeVersion sha256 c bans_cfg (content result)
                             (Some (js "Unban " ++ steam ++ js ": " ++ up_reason p)) (Some (up_actor p)) false) in
            await verify := readBansCfg c (up_server p) in
            match verify with
            | None => Ret (Ok (Throw bans_cfg_unavailable))
            | Some verify =>
                if bool_decide (verify = content result)
                then Ret (Ok (Ok (removed result, match written.2 with Some r => r | None => reload end)))
                else unban_attempts c p steam reload attempts
            end
      end
  end.

Definition unbanPlayerOnServer (c : nat) (p : UnbanPlayerParams) : mprog (result fault UnbanPlayerResult) :=
  let reload := NotApplied not_hot_reload in
  try edited :=
    match steamId64 (up_identity p) with
    | Some steam => unban_attempts c p steam reload MAX_BANS_CFG_ATTEMPTS
    | None => Ret (Ok (Ok ([], reload)))
    end in
  match edited with
  | Throw e => Ret (Ok (Unban_failed e))
  | Ok (removed, reload) =>
      try revertedActionIds := markBansReverted c (up_player p) (up_server p) (up_actor p) in
      if negb (bool_decide (up_target p ∈ revertedActionIds)) then Ret (Ok (Unban_failed already_reverted))
      else
        try inserted := insert_action c (fun id =>
          mkAction id (up_player p) (Some (up_server p)) (js "unban") (Some (up_actor p)) (up_reason p) (Unbanned removed revertedActionIds) None None) in
        let '(id, now) := inserted in
        try _ := publishModerationEvent c (mkEventParams id (js "unban") (up_actor p) (up_actorName p) (up_player p) (up_identity p)
                   (up_server p) None None (up_reason p) None) now in
        Ret (Ok (Unban_ok id revertedActionIds removed reload))
  end.

(** What a route answers. *)
Inductive reply :=
| Denied (d : denial)
| Action_failed (outcome : WorkerRconCommandOutcome)
| Action (row : action_row)
| Reverted (row : action_row) (removed_lines : nat) (reload : ReloadOutcome).

Definition fetch_row (id : jstr) : mprog (result fault action_row) :=
  try row := query (fun w => List.find (fun r => bool_decide (act_id r = id)) (actions w)) in
  Ret (match row with Some r => Ok r | None => Throw (Missing (js "moderation action row missing immediately after insert")) end).
Definition find_player (c : nat) (p : jstr) : mprog (result fault (option PlayerIdentity)) :=
  once (fun _ w => Some (match map_get (players w) p with Some who => did c (Found p who) w | None => w end, map_get (players w) p)).

(** [POST /players/:playerId/moderation-actions]. *)
Record action_request := mkActionRequest {
  ar_user : option req_user; ar_player : jstr; ar_server : jstr; ar_type : EnforceActionType; ar_reason : jstr;
  ar_banLength : jstr; ar_source : jstr; ar_evidence : list jstr;
}.
Definition unique (ids : list jstr) : list jstr := foldl (fun seen id => if bool_decide (id ∈ seen) then seen else seen ++ [id]) [] ids.
Definition action_route (c : nat) (q : action_request) : mprog (result fault reply) :=
  match moderationWriteGuard (ar_user q) (ar_type q) with
  | Throw d => Ret (Ok (Denied d))
  | Ok actor =>
      try player := find_player c (ar_player q) in
      match player with
      | None => Ret (Ok (Denied (refuse 404 (js "player_not_found"))))
      | Some identity =>
          try live := query (fun w => h_live (hosts w (ar_server q))) in
          if negb live then Ret (Ok (Denied (refuse 404 (js "server_not_found"))))
          else if bool_decide (eosId identity = None ∨ eosId identity = Some []) && bool_decide (steamId64 identity = None ∨ steamId64 identity = Some [])
          then Ret (Ok (Denied (refuse 400 (js "target_identity_missing"))))
          else
            let evidenceIds := unique (ar_evidence q) in
            try missing :=
              match evidenceIds with
              | [] => Ret (Ok None)
              | _ => try stored := query media in
                     Ret (Ok (List.find (fun id => negb (existsb (fun m => bool_decide (m.1 = id) && m.2) stored)) evidenceIds))
              end in
            match missing with
            | Some _ => Ret (Ok (Denied (refuse 400 (js "evidence_media_not_found"))))
            | None =>
                try result := enforceModerationAction c (mkEnforceInput (ar_server q) (ar_player q) identity (ar_type q) (ar_reason q)
                                (ar_banLength q) (user_player actor) (user_name actor) None (Some (ar_source q)) None) in
                match result with
                | Refused_by_worker outcome => Ret (Ok (Action_failed outcome))
                | Enforced_as actionId _ =>
                    try _ := match evidenceIds with
                             | [] => Ret (Ok tt)
                             | _ => once (fun _ w => Some (set_links (links w ++ ((fun m => (m, actionId)) <$> evidenceIds)) w, tt))
                             end in
                    try row := fetch_row actionId in Ret (Ok (Action row))
                end
            end
      end
  end.

(** [POST /moderation-actions/:id/revert]. *)
Record revert_request := mkRevertRequest { rr_user : option req_user; rr_id : jstr; rr_reason : jstr }.
Definition revert_route (c : nat) (q : revert_request) : mprog (result fault reply) :=
  match moderationWriteGuard (rr_user q) ban with
  | Throw d => Ret (Ok (Denied d))
  | Ok actor =>
      try target := query (fun w => List.find (fun r => bool_decide (act_id r = rr_id q)) (actions w)) in
      match target with
      | None => Ret (Ok (Denied (refuse 404 (js "moderation_action_not_found"))))
      | Some target =>
          if negb (bool_decide (act_type target = js "ban")) then Ret (Ok (Denied (refuse 400 (js "not_a_ban_action"))))
          else if bool_decide (is_Some (act_reverted target)) then Ret (Ok (Denied (refuse 409 (js "already_reverted"))))
          else
            match act_server target with
            | None => Ret (Ok (Denied (refuse 409 (js "server_missing"))))
            | Some server =>
                try player := find_player c (act_player target) in
                match player with
                | None => Ret (Ok (Denied (refuse 404 (js "player_not_found"))))
                | Some identity =>
                    try result := unbanPlayerOnServer c (mkUnbanParams (act_player target) server identity (user_player actor) (user_name actor)
                                    (rr_reason q) (act_id target)) in
                    match result with
                    | Unban_failed e => Ret (Ok (Denied (refuse (match e with bans_cfg_unavailable => 502 | _ => 409 end) (unban_error_text e))))
                    | Unban_ok id _ removedLines reload => try row := fetch_row id in Ret (Ok (Reverted row (length removedLines) reload))
                    end
                end
            end
      end
  end.
End Routes.

(** * The panel and its surroundings *)

Inductive request := Act (q : action_request) | Revert (q : revert_request).

(** Requests, their steps and crashes, and what happens outside: time, files on
    the hosts, server rows, players, media, and rows of [moderation_actions]
    written or reverted by other parts. *)
Inductive happening :=
| Request (q : request)
| StepOf (c : nat) (f : fate fault) (i : input)
| CrashOf (c : nat)
| Ticks (ms : nat)
| Edit (server name : jstr) (text : option jstr)
| Server (server : jstr) (live : bool) (state : jstr) (creds : option ConfigSecrets.RconCredentials)
| Player (p : jstr) (who : PlayerIdentity)
| Media (id : jstr) (active : bool)
| Row (row : action_row)
| Reverted_elsewhere (id : jstr) (at_ : Z) (by_ : jstr).

Definition tick (ms : nat) (w : world) : world :=
  mkWorld (clock w + Z.of_nat ms) (fun s => ServerFiles.tick ms (hosts w s)) (players w) (media w) (actions w) (links w) (events w) (streamed w) (tx w) (deeds w).
Definition set_people (ps : list (jstr * PlayerIdentity)) (ms : list (jstr * bool)) (w : world) : world :=
  mkWorld (clock w) (hosts w) ps ms (actions w) (links w) (events w) (streamed w) (tx w) (deeds w).
Definition add_row (row : action_row) (w : world) : world :=
  if bool_decide (act_id row ∈ row_ids w) then w else set_tables (actions w ++ [row]) (events w) (tx w) w.
Definition revert_other (id : jstr) (at_ : Z) (by_ : jstr) (w : world) : world :=
  set_tables ((fun r => if bool_decide (act_id r = id) && bool_decide (act_reverted r = None)
                        then mkAction (act_id r) (act_player r) (act_server r) (act_type r) (act_author r) (act_reason r) (act_context r) (act_report r) (Some (at_, by_))
                        else r) <$> actions w) (events w) (tx w) w.

Section System.
Context (sha256 : jstr → jstr).

Definition serve (q : request) (c : nat) : mprog (request * result fault reply) :=
  await r := match q with Act q => action_route c q | Revert q => revert_route sha256 c q end in Ret (q, r).

Definition outside (e : happening) : world → world :=
  match e with
  | Ticks ms => tick ms
  | Edit server name text => fun w => set_host server (edit name text (hosts w server)) w
  | Server server live state creds => fun w => set_host server (set_server live state creds (hosts w server)) w
  | Player p who => fun w => set_people (map_set (players w) p who) (media w) w
  | Media id active => fun w => set_people (players w) (map_set (media w) id active) w
  | Row row => add_row row
  | Reverted_elsewhere id at_ by_ => revert_other id at_ by_
  | _ => fun w => w
  end.
Definition lower (e : happening) : event world input fault (request * result fault reply) :=
  match e with
  | Request q => Start (serve q)
  | StepOf c f i => Step c f i
  | CrashOf c => Crash c
  | e => Other (outside e)
  end.
Definition panel_run (w : world) (es : list happening) := run (mkSystem w []) (lower <$> es).

(** ** What is known of a call *)

(** The errors calls may fail with, and whether one of them is taken for a
    missing file. *)
Context (Fault : fault → Prop).
Definition Mistaken : Prop := ∃ e, Fault e ∧ not_found e = true.

Definition know (c : nat) (ds : list deed) (st : list staged) (w : world) : Prop := by_call c (deeds w) = ds ∧ by_call c (tx w) = st.

(** What a call must have done before each of its deeds. *)
Definition unban_of (row : action_row) (d : deed) : Prop :=
  ∃ player server actor ids removed, d = Claimed player server actor ids ∧ act_player row = player ∧ act_server row = Some server ∧
    act_author row = Some actor ∧ act_type row = js "unban" ∧ act_context row = Unbanned removed ids.
Definition enforced_by (row : action_row) (d : deed) : Prop :=
  ∃ server t target banLength expires requestId response source,
    d = Commanded server (RCON_COMMAND_BY_ACTION t) (enforce_args t target banLength (act_reason row)) (Succeeded requestId response) ∧
    act_server row = Some server ∧ act_type row = action_text t ∧ act_context row = Enforced banLength expires requestId target source.
Definition justified (pre : list deed) (d : deed) : Prop :=
  match d with
  | Claimed player server actor ids =>
      ∃ who, Found player who ∈ pre ∧
        (steamId64 who = None ∨ Mistaken ∨
         ∃ steam before answer, steamId64 who = Some steam ∧ pre = before ++ [Read server answer] ∧
           ban_lines steam (match answer with Some text => text | None => [] end) = [])
  | Recorded row => ∃ d, d ∈ pre ∧ (unban_of row d ∨ enforced_by row d)
  | Announced e => ∃ row, Recorded row ∈ pre ∧ env_action e = act_id row ∧ env_type e = js "moderation." ++ act_type row
  | _ => True
  end.

Definition claims (d : deed) : list jstr := match d with Claimed _ _ _ ids => ids | _ => [] end.
Definition claimed (ds : list (nat * deed)) : list jstr := concat (claims <$> ds.*2).
Definition ledger_ok (w : world) : Prop :=
  NoDup (row_ids w) ∧ NoDup (claimed (deeds w)) ∧
  ∀ c player server actor ids id, (c, Claimed player server actor ids) ∈ deeds w → id ∈ ids →
    ∃ r at_, r ∈ actions w ∧ act_id r = id ∧ act_player r = player ∧ act_server r = Some server ∧ act_type r = js "ban" ∧ act_reverted r = Some (at_, actor).

Definition Inv (w : world) : Prop := follows justified (deeds w) ∧ ledger_ok w.
Definition Rely (c : nat) (u w : world) : Prop := by_call c (deeds w) = by_call c (deeds u) ∧ by_call c (tx w) = by_call c (tx u).
Definition G (c : nat) (u w : world) : Prop := ∀ c', c ≠ c' → Rely c' u w.
Definition Env (u w : world) : Prop := deeds w = deeds u ∧ tx w = tx u.

(** ** The record of a call grows *)

Lemma by_call_drop c c' (t : list (nat * staged)) : by_call c' (drop_staged c t) = if bool_decide (c = c') then [] else by_call c' t.
Proof.
  unfold by_call, drop_staged, jfilter. induction t as [|[n s] t IH]; [by case_bool_decide|]. cbn [List.filter fst]. destruct (decide (n = c)) as [->|Hn].
  - rewrite (bool_decide_eq_true_2 (c = c)) by done. cbn [negb]. rewrite IH. case_bool_decide; [done|]. done.
  - rewrite (bool_decide_eq_false_2 (n = c)) by done. cbn [negb List.filter fst]. destruct (decide (n = c')) as [->|Hn'].
    + rewrite (bool_decide_eq_true_2 (c' = c')) by done. rewrite (bool_decide_eq_false_2 (c = c')) in * by congruence. rewrite !fmap_cons. by rewrite IH.
    + rewrite (bool_decide_eq_false_2 (n = c')) by done. exact IH.
Qed.

(** What call [c] does to the world: its deeds are appended, its staged rows
    change. *)
Definition moved (c : nat) (new : list deed) (st : list staged) (u v : world) : Prop :=
  deeds v = deeds u ++ ((c,.) <$> new) ∧ by_call c (tx v) = st ∧ ∀ c', c ≠ c' → by_call c' (tx v) = by_call c' (tx u).

Lemma moved_know c ds st new st' u v : know c ds st u → moved c new st' u v → know c (ds ++ new) st' v ∧ G c u v.
Proof.
  intros [Hd Ht] (Hnew & Hst & Hother). unfold know, G, Rely. split; [split; [by rewrite Hnew, by_call_app, Hd, by_call_own|done]|].
  intros c' Hc'. split; [by rewrite Hnew, by_call_app, by_call_other, app_nil_r|by apply Hother].
Qed.

(** Deeds that claim nothing leave the ledger in order. *)
Definition unclaiming (d : deed) : Prop := match d with Claimed _ _ _ _ => False | _ => True end.
Lemma claimed_app ds ds' : claimed (ds ++ ds') = claimed ds ++ claimed ds'.
Proof. unfold claimed. by rewrite !fmap_app, concat_app. Qed.
Lemma claimed_unclaiming c new : Forall unclaiming new → claimed ((c,.) <$> new) = [].
Proof. induction 1 as [|d new Hd _ IH]; [done|]. unfold claimed in *. rewrite !fmap_cons. cbn [snd concat]. rewrite IH. by destruct d. Qed.

(** The rows already reverted stay, with who reverted them. *)
Definition keeps_reverted (u v : world) : Prop := ∀ r, r ∈ actions u → is_Some (act_reverted r) → r ∈ actions v.

Lemma ledger_moved c new u v : ledger_ok u → deeds v = deeds u ++ ((c,.) <$> new) → Forall unclaiming new →
  NoDup (row_ids v) → keeps_reverted u v → ledger_ok v.
Proof.
  intros (Hids & Hcl & Hrows) Hd Hn Hids' Hkeep. split; [done|]. split; [by rewrite Hd, claimed_app, claimed_unclaiming, app_nil_r|].
  intros c' player server actor ids id Hin Hid. rewrite Hd in Hin. apply elem_of_app in Hin as [Hin|Hin].
  - destruct (Hrows _ _ _ _ _ _ Hin Hid) as (r & t & Hr & ? & ? & ? & ? & Hrev). exists r, t. split; [by apply Hkeep; [done|rewrite Hrev]|]. done.
  - exfalso. apply list_elem_of_fmap in Hin as (d & [= _ <-] & Hin). rewrite Forall_forall in Hn. by apply (Hn _ Hin).
Qed.

Lemma inv_moved c ds st new st' u v : know c ds st u → Inv u → moved c new st' u v → all_justified justified ds new → Forall unclaiming new →
  NoDup (row_ids v) → keeps_reverted u v → Inv v.
Proof.
  intros [Hk _] [Hs Hl] (Hd & _) Hj Hn Hids Hkeep. split; [|by eapply ledger_moved].
  rewrite Hd. apply follows_app; [done|]. by rewrite Hk.
Qed.

(** ** A logic of what is known *)

Definition triple {A} (c : nat) (ds : list deed) (st : list staged) (p : mprog A) (Post : A → list deed → list staged → Prop) : Prop :=
  Interleave.triple Inv G Rely Fault (fun c k => know c k.1 k.2) c (ds, st) p (fun a k => Post a k.1 k.2).

Lemma Rely_refl c w : Rely c w w.
Proof. done. Qed.
Lemma Rely_trans c u v w : Rely c u v → Rely c v w → Rely c u w.
Proof. intros [H1 H2] [H3 H4]. unfold Rely. by rewrite H3, H4. Qed.
Lemma know_rely c ds st w u : Rely c w u → know c ds st w → know c ds st u.
Proof. intros [H1 H2] [H3 H4]. unfold know. by rewrite H1, H2. Qed.
Lemma pair_rely c (k : list deed * list staged) u w : Rely c u w → Inv w → know c k.1 k.2 u → know c k.1 k.2 w.
Proof. intros Hr _. by apply know_rely. Qed.

Lemma mt_ret {A} c ds st (a : A) (Post : A → list deed → list staged → Prop) : Post a ds st → triple c ds st (Ret a) Post.
Proof. intros H. by apply (Interleave.triple_ret _ _ _ _ _ pair_rely). Qed.

Lemma mt_conseq {A} c ds st (p : mprog A) (P Q : A → list deed → list staged → Prop) :
  triple c ds st p P → (∀ a ds' st', P a ds' st' → Q a ds' st') → triple c ds st p Q.
Proof. intros Hp HPQ. eapply Interleave.triple_conseq; [exact Hp|]. intros a k. apply HPQ. Qed.

Lemma mt_andThen {A B} c ds st (p : mprog A) (f : A → mprog B) P Q :
  triple c ds st p P → (∀ a ds' st', P a ds' st' → triple c ds' st' (f a) Q) → triple c ds st (andThen p f) Q.
Proof. intros Hp Hf. eapply (Interleave.triple_andThen _ _ _ _ _ Rely_refl Rely_trans); [exact Hp|]. intros a [ds' st']. apply Hf. Qed.

Lemma mt_orThrow {A B} c ds st (p : mprog (result fault A)) (f : A → mprog (result fault B)) P Q :
  triple c ds st p P → (∀ a ds' st', P (Ok a) ds' st' → triple c ds' st' (f a) Q) → (∀ e ds' st', P (Throw e) ds' st' → Q (Throw e) ds' st') →
  triple c ds st (orThrow p f) Q.
Proof. intros Hp Hf Ht. eapply mt_andThen; [exact Hp|]. intros [a|e] ds' st' HP; [by apply Hf|]. apply mt_ret. by apply Ht. Qed.

Lemma mt_once {R} c ds st (op : input → world → option (world * R)) (P : result fault R → list deed → list staged → Prop) :
  (∀ i u v r, know c ds st u → Inv u → op i u = Some (v, r) →
     ∃ ds' st', know c ds' st' v ∧ G c u v ∧ Inv v ∧ P (Ok r) ds' st' ∧ ∀ e, Fault e → P (Throw e) ds' st') →
  (∀ e, Fault e → P (Throw e) ds st) → triple c ds st (once op) P.
Proof.
  intros Hop He. apply (Interleave.triple_once _ _ _ _ _ pair_rely); [|done]. intros i u v r Hk Hi Ho.
  destruct (Hop i u v r Hk Hi Ho) as (ds' & st' & H). by exists (ds', st').
Qed.

(** A call that claims nothing: what it records is justified, ids stay unique
    and reverted rows stay. *)
Lemma triple_moved {R} c ds st (op : input → world → option (world * R)) (P : result fault R → list deed → list staged → Prop) :
  (∀ i u v r, know c ds st u → Inv u → op i u = Some (v, r) →
     ∃ new st', moved c new st' u v ∧ all_justified justified ds new ∧ Forall unclaiming new ∧ NoDup (row_ids v) ∧ keeps_reverted u v ∧
       P (Ok r) (ds ++ new) st' ∧ ∀ e, Fault e → P (Throw e) (ds ++ new) st') →
  (∀ e, Fault e → P (Throw e) ds st) → triple c ds st (once op) P.
Proof.
  intros Hop He. apply mt_once; [|done]. intros i u v r Hk Hi Ho.
  destruct (Hop i u v r Hk Hi Ho) as (new & st' & Hm & Hj & Hn & Hids & Hkeep & Hp & Hpe). exists (ds ++ new), st'.
  destruct (moved_know _ _ _ _ _ _ _ Hk Hm) as [Hk' Hg]. split; [done|]. split; [done|]. split; [by exact (inv_moved c ds st new st' u v Hk Hi Hm Hj Hn Hids Hkeep)|done].
Qed.

(** Nothing is recorded and nothing staged. *)
Lemma moved_none c ds st u v : know c ds st u → deeds v = deeds u → tx v = tx u → moved c [] st u v.
Proof. intros [_ Ht] Hd Htx. unfold moved. rewrite Htx, Hd, app_nil_r. done. Qed.

Lemma inv_ids w : Inv w → NoDup (row_ids w).
Proof. by intros [_ [? _]]. Qed.

Lemma triple_query {A} c ds st (f : world → A) :
  triple c ds st (query f) (fun r ds' st' => ds' = ds ∧ st' = st ∧ ∀ a, r = Ok a → ∃ u, know c ds st u ∧ Inv u ∧ a = f u).
Proof.
  apply triple_moved; [|done]. intros i u v r Hk Hi [= <- <-]. exists [], st. split; [by apply (moved_none c ds)|]. rewrite app_nil_r.
  split; [done|]. split; [constructor|]. split; [by apply inv_ids|]. split; [by intros x Hx _|]. split; [|done].
  split; [done|]. split; [done|]. intros a [= <-]. eauto.
Qed.

(** One deed that is always justified. *)
Lemma triple_deed {R} c ds st (op : input → world → option (world * R)) (D : R → deed) :
  (∀ i u v r, op i u = Some (v, r) → ∃ v', v = did c (D r) v' ∧ deeds v' = deeds u ∧ tx v' = tx u ∧ actions v' = actions u) →
  (∀ r, match D r with Found _ _ | Read _ _ | Commanded _ _ _ _ => True | _ => False end) →
  triple c ds st (once op) (fun r ds' st' => st' = st ∧
    match r with Ok r => ds' = ds ++ [D r] | Throw e => Fault e ∧ (ds' = ds ∨ ∃ x, ds' = ds ++ [D x]) end).
Proof.
  intros Hop HD. apply triple_moved; [|by auto]. intros i u v r Hk Hi Ho. destruct (Hop i u v r Ho) as (v' & -> & Hd & Ht & Ha).
  specialize (HD r). exists [D r], st. split.
  { unfold moved. cbn. rewrite Hd, Ht. destruct Hk as [_ Hk]. done. }
  split; [by destruct (D r)|]. split; [constructor; [by destruct (D r)|constructor]|]. split.
  { unfold row_ids. cbn. rewrite Ht, Ha. by apply inv_ids. }
  split; [intros x Hx _; cbn; by rewrite Ha|]. split; [done|]. intros e Hfe. split; [done|]. split; [done|]. right. eauto.
Qed.

Lemma triple_command c ds st server command args :
  triple c ds st (sendRconCommandViaWorker c server command args)
    (fun r ds' st' => st' = st ∧ match r with Ok a => ds' = ds ++ [Commanded server command args a.1] | Throw _ => ∃ l, ds' = ds ++ l ∧ Forall (fun d => ∃ o, d = Commanded server command args o) l end).
Proof.
  eapply mt_conseq.
  - apply (triple_deed c ds st _ (fun a : WorkerRconCommandOutcome * Z => Commanded server command args a.1)); [|done].
    intros i u v r [= <- <-]. by exists u.
  - intros [a|e] ds' st' [-> H]; [done|]. split; [done|]. destruct H as [_ [->|[x ->]]].
    + exists []. by rewrite app_nil_r.
    + eexists. split; [done|]. constructor; [by eexists|constructor].
Qed.

Lemma triple_find_player c ds st p :
  triple c ds st (find_player c p) (fun r ds' st' => match r with
    | Ok (Some who) => ds' = ds ++ [Found p who] ∧ st' = st
    | Ok None => ds' = ds ∧ st' = st
    | Throw _ => True
    end).
Proof.
  apply triple_moved; [|done]. intros i u v r Hk Hi [= <- <-]. destruct (map_get (players u) p) as [who|].
  - exists [Found p who], st. split; [by destruct Hk as [_ <-]|]. split; [done|]. split; [by repeat constructor|].
    split; [exact (inv_ids _ Hi)|]. split; [by intros x Hx _|done].
  - exists [], st. rewrite app_nil_r. split; [by apply (moved_none c ds)|]. split; [done|]. split; [constructor|].
    split; [by apply inv_ids|]. split; [by intros x Hx _|done].
Qed.

Definition reads (server : jstr) (l : list deed) : Prop := Forall (fun d => ∃ answer, d = Read server answer) l.
Definition text_of (answer : option jstr) : jstr := match answer with Some text => text | None => [] end.

(** What [readBansCfg] gives is what the bridge answered, unless an error was
    mistaken for a missing file. *)
Lemma triple_read c ds st server :
  triple c ds st (readBansCfg c server) (fun a ds' st' => st' = st ∧ ∃ l, ds' = ds ++ l ∧ reads server l ∧
    match a with Some text => Mistaken ∨ ∃ answer, l = [Read server answer] ∧ text = text_of answer | None => True end).
Proof.
  eapply mt_andThen.
  - apply (triple_deed c ds st _ (Read server)); [|done]. intros i u v r [= <- <-]. by exists u.
  - intros r ds' st' [-> H]. apply mt_ret. split; [done|]. assert (∀ x, reads server [Read server x]) as Hone by (intros x; repeat constructor; by eexists).
    destruct r as [[text|]|e].
    + exists [Read server (Some text)]. split; [done|]. split; [done|]. right. by eexists.
    + exists [Read server None]. split; [done|]. split; [done|]. destruct (not_found missing_file) eqn:E; [right; by eexists|by vm_compute in E].
    + destruct H as [Hf H]. assert (∃ l, ds' = ds ++ l ∧ reads server l) as (l & -> & Hl).
      { destruct H as [->|[x ->]]; [exists []; rewrite app_nil_r; split; [done|constructor]|eauto]. }
      exists l. split; [done|]. split; [done|]. destruct (not_found e) eqn:E; [|done]. left. by exists e.
Qed.

Lemma revert_row_id player server actor now r : act_id (revert_row player server actor now r) = act_id r.
Proof. unfold revert_row. by destruct (active_ban _ _ _). Qed.

Lemma ledger_claim c player server actor u : ledger_ok u →
  ledger_ok (did c (Claimed player server actor (act_id <$> jfilter (active_ban player server) (actions u)))
    (set_tables (revert_row player server actor (clock u) <$> actions u) (events u) (tx u) u)).
Proof.
  intros (Hids & Hcl & Hrows). set (ids := act_id <$> _). pose proof Hids as Hacts. apply NoDup_app in Hacts as [Hacts _].
  assert (act_id <$> (revert_row player server actor (clock u) <$> actions u) = act_id <$> actions u) as Hsame.
  { rewrite <-list_fmap_compose. apply list_fmap_ext. intros ? x _. apply revert_row_id. }
  assert (∀ id, id ∈ ids → ∃ r, r ∈ actions u ∧ act_id r = id ∧ active_ban player server r = true) as Hnew.
  { intros id (r & -> & [Hr Ha]%elem_of_jfilter)%list_elem_of_fmap. eauto. }
  assert (∀ c' p s a is' id, (c', Claimed p s a is') ∈ deeds u → id ∈ is' →
    ∃ r t, r ∈ actions u ∧ act_id r = id ∧ act_player r = p ∧ act_server r = Some s ∧ act_type r = js "ban" ∧ act_reverted r = Some (t, a)) as Hold by exact Hrows.
  unfold ledger_ok, row_ids, did, set_tables. cbn [deeds actions tx]. split; [rewrite Hsame; exact Hids|]. split.
  - rewrite claimed_app. unfold claimed at 2. cbn. rewrite app_nil_r. apply NoDup_app. split; [done|]. split.
    + intros id Hid Hid'. apply Hnew in Hid' as (r' & Hr' & Heq & Hact). unfold claimed in Hid. apply list_elem_of_In, in_concat in Hid as (l & Hl & Hin).
      apply list_elem_of_In in Hl, Hin. apply list_elem_of_fmap in Hl as (d & -> & Hd). apply list_elem_of_fmap in Hd as ([c' d'] & -> & Hd).
      destruct d' as [| | |p s a is'| |]; cbn in Hin; try by apply elem_of_nil in Hin.
      destruct (Hold _ _ _ _ _ _ Hd Hin) as (r & t & Hr & Hi & _ & _ & _ & Hrev). assert (r = r') as -> by (eapply (NoDup_fmap_inj_elem act_id); [exact Hacts|done..|congruence]).
      unfold active_ban in Hact. bool_to_Prop. congruence.
    + unfold ids. unfold jfilter. revert Hacts. generalize (actions u). intros l. induction l as [|r l IH]; [constructor|].
      rewrite fmap_cons. intros Hn. apply NoDup_cons in Hn as [Hr Hl]. cbn [List.filter]. destruct (active_ban _ _ r); [|by apply IH].
      rewrite fmap_cons. apply NoDup_cons. split; [|by apply IH]. intros (x & Hx & Hin)%list_elem_of_fmap. apply Hr. apply list_elem_of_fmap. exists x.
      split; [done|]. by apply elem_of_jfilter in Hin as [_ ?].
  - intros c' p s a is' id [Hin|Hin]%elem_of_app Hid.
    + destruct (Hold _ _ _ _ _ _ Hin Hid) as (r & t & Hr & Hi & ? & ? & ? & Hrev). exists r, t. split; [|done]. apply list_elem_of_fmap. exists r.
      split; [|done]. unfold revert_row, active_ban. rewrite (bool_decide_eq_false_2 (act_reverted r = None)) by congruence. by rewrite andb_false_r.
    + apply list_elem_of_singleton in Hin as [= -> -> -> -> ->]. apply Hnew in Hid as (r & Hr & <- & Hact). exists (revert_row player server actor (clock u) r), (clock u).
      split; [apply list_elem_of_fmap; eauto|]. unfold revert_row. rewrite Hact. unfold active_ban in Hact. bool_to_Prop. done.
Qed.

Lemma triple_claim c ds st player server actor : (∀ ids, justified ds (Claimed player server actor ids)) →
  triple c ds st (markBansReverted c player server actor) (fun r ds' st' => match r with
    | Ok ids => ds' = ds ++ [Claimed player server actor ids] ∧ st' = st
    | Throw _ => True
    end).
Proof.
  intros Hj. apply mt_once; [|done]. intros i u v r Hk [Hs Hl] [= <- <-]. eexists _, st.
  assert (moved c [Claimed player server actor (act_id <$> jfilter (active_ban player server) (actions u))] st u
    (did c (Claimed player server actor (act_id <$> jfilter (active_ban player server) (actions u)))
       (set_tables (revert_row player server actor (clock u) <$> actions u) (events u) (tx u) u))) as Hm by (by destruct Hk as [_ <-]).
  destruct (moved_know _ _ _ _ _ _ _ Hk Hm) as [Hk' Hg]. split; [exact Hk'|]. split; [done|]. split; [|done].
  split; [|by apply ledger_claim]. cbn. apply follows_snoc; [done|]. destruct Hk as [-> _]. apply Hj.
Qed.

Lemma NoDup_fresh_app (l l' : list jstr) id : NoDup (l ++ l') → id ∉ l ++ l' → NoDup ((l ++ [id]) ++ l').
Proof. intros Hn Hid. rewrite <-app_assoc. cbn [app]. rewrite <-Permutation_middle. by constructor. Qed.

Lemma triple_insert_action c ds st (row : jstr → action_row) : (∀ id, act_id (row id) = id) → (∀ id, justified ds (Recorded (row id))) →
  triple c ds st (insert_action c row) (fun r ds' st' => match r with Ok a => ds' = ds ++ [Recorded (row a.1)] ∧ st' = st | Throw _ => True end).
Proof.
  intros Hid Hj. apply triple_moved; [|done]. intros i u v r Hk Hi Ho. case_bool_decide as Hin; [done|]. injection Ho as <- <-.
  exists [Recorded (row (in_id i))], st. split; [by destruct Hk as [_ <-]|]. split; [by split|]. split; [by repeat constructor|]. split.
  { unfold row_ids, did, set_tables. cbn [actions tx]. rewrite fmap_app. cbn [fmap list_fmap]. rewrite Hid. apply NoDup_fresh_app; [by apply inv_ids|done]. }
  split; [|done]. intros x Hx _. cbn. apply elem_of_app. by left.
Qed.

Lemma triple_insert_event c ds st e : justified ds (Announced e) →
  triple c ds st (insert_event c e) (fun r ds' st' => match r with Ok _ => ds' = ds ++ [Announced e] ∧ st' = st | Throw _ => True end).
Proof.
  intros Hj. apply triple_moved; [|done]. intros i u v r Hk Hi [= <- <-]. exists [Announced e], st. split; [by destruct Hk as [_ <-]|].
  split; [by split|]. split; [by repeat constructor|]. split; [exact (inv_ids _ Hi)|]. split; [by intros x Hx _|done].
Qed.

(** A call that changes neither the ledger nor the record. *)
Lemma triple_quiet {R} c ds st (op : input → world → option (world * R)) :
  (∀ i u v r, op i u = Some (v, r) → deeds v = deeds u ∧ tx v = tx u ∧ actions v = actions u) →
  triple c ds st (once op) (fun _ ds' st' => ds' = ds ∧ st' = st).
Proof.
  intros Hop. apply triple_moved; [|done]. intros i u v r Hk Hi Ho. destruct (Hop i u v r Ho) as (Hd & Ht & Ha). exists [], st. rewrite app_nil_r.
  split; [by apply (moved_none c ds)|]. split; [done|]. split; [constructor|]. split; [unfold row_ids; rewrite Ha, Ht; by apply inv_ids|].
  split; [intros x Hx _; by rewrite Ha|done].
Qed.

Lemma triple_stream c ds st e : triple c ds st (streamModerationEvent e) (fun r ds' st' => r = Ok tt ∧ ds' = ds ∧ st' = st).
Proof.
  eapply mt_andThen; [apply triple_quiet; by intros i u v r [= <- <-]|]. intros a ds' st' [-> ->]. by apply mt_ret.
Qed.

Lemma triple_on_host {A} c ds st server (p : hprog A) : triple c ds st (on_host server p) (fun _ ds' st' => ds' = ds ∧ st' = st).
Proof.
  intros w Hk Hi. eapply holds_conseq; [|apply (holds_lift _ _ _ _ _ _ _ (know c ds st)); [| |exact Hk]].
  - intros u a _ Hu. by exists (ds, st).
  - intros u v Hu Hku. split; [by intros c' _|]. split; [exact Hu|exact Hku].
  - intros u u' Hr _ Hku. by eapply know_rely.
Qed.

Lemma moved_staged c s u : moved c [] (by_call c (tx u) ++ [s]) u (set_tables (actions u) (events u) (tx u ++ [(c, s)]) u).
Proof.
  unfold moved, set_tables. cbn [deeds tx]. rewrite app_nil_r, by_call_snoc, bool_decide_eq_true_2 by done. split; [done|]. split; [done|].
  intros c' Hc. rewrite by_call_snoc, bool_decide_eq_false_2 by done. by rewrite app_nil_r.
Qed.

Lemma triple_stage_action c ds st (row : jstr → action_row) : (∀ id, act_id (row id) = id) →
  triple c ds st (stage_action c row) (fun r ds' st' => match r with Ok a => ds' = ds ∧ st' = st ++ [StagedRow (row a.1)] | Throw _ => True end).
Proof.
  intros Hid. apply triple_moved; [|done]. intros i u v r Hk Hi Ho. case_bool_decide as Hin; [done|]. injection Ho as <- <-.
  exists [], (st ++ [StagedRow (row (in_id i))]). rewrite app_nil_r. split; [destruct Hk as [_ <-]; apply moved_staged|]. split; [done|]. split; [constructor|]. split.
  { unfold row_ids, set_tables in *. cbn [actions tx]. rewrite omap_app. change (omap staged_id [(c, StagedRow (row (in_id i)))]) with [act_id (row (in_id i))].
    rewrite Hid, app_assoc. rewrite <-(app_nil_r ((_ ++ _) ++ [_])). apply NoDup_fresh_app; rewrite app_nil_r; [by apply inv_ids|done]. }
  split; [by intros x Hx _|done].
Qed.

Lemma triple_stage_event c ds st e :
  triple c ds st (stage_event c e) (fun r ds' st' => match r with Ok _ => ds' = ds ∧ st' = st ++ [StagedEvent e] | Throw _ => True end).
Proof.
  apply triple_moved; [|done]. intros i u v r Hk Hi [= <- <-]. exists [], (st ++ [StagedEvent e]). rewrite app_nil_r.
  split; [destruct Hk as [_ <-]; apply moved_staged|]. split; [done|]. split; [constructor|]. split.
  { unfold row_ids, set_tables. cbn [actions tx]. rewrite omap_app. cbn. rewrite app_nil_r. by apply inv_ids. }
  split; [by intros x Hx _|done].
Qed.

Lemma staged_split c (t : list (nat * staged)) : omap staged_id t ≡ₚ (act_id <$> rows_of (by_call c t)) ++ omap staged_id (drop_staged c t).
Proof.
  induction t as [|[n s] t IH]; [done|]. unfold by_call, drop_staged, jfilter in *. cbn [List.filter fst].
  case_bool_decide; cbn [negb]; destruct s as [r|e]; cbn; rewrite IH; [done|done| |done]. by rewrite Permutation_middle.
Qed.

Lemma triple_commit c ds st : all_justified justified ds (deed_of <$> st) →
  triple c ds st (commit_tx c) (fun r ds' st' => match r with Ok _ => ds' = ds ++ (deed_of <$> st) ∧ st' = [] | Throw _ => True end).
Proof.
  intros Hj. apply triple_moved; [|done]. intros i u v r Hk Hi [= <- <-]. exists (deed_of <$> st), []. destruct Hk as [Hd Ht]. split.
  { unfold moved, commit_world. cbn [deeds tx]. rewrite Ht. split; [by rewrite <-list_fmap_compose|]. split; [by rewrite by_call_drop, bool_decide_eq_true_2|].
    intros c' Hc. by rewrite by_call_drop, bool_decide_eq_false_2. }
  split; [done|]. split; [apply Forall_fmap, Forall_forall; by intros [] _|]. split.
  { unfold row_ids, commit_world. cbn [actions tx]. rewrite fmap_app, <-app_assoc, <-staged_split. by apply inv_ids. }
  split; [|done]. intros x Hx _. cbn. apply elem_of_app. by left.
Qed.

Lemma triple_rollback c ds st : triple c ds st (rollback_tx c) (fun _ _ _ => True).
Proof.
  apply triple_moved; [|done]. intros i u v r Hk Hi [= <- <-]. exists [], []. split.
  { unfold moved, discard, set_tables. cbn [deeds tx]. rewrite app_nil_r, by_call_drop, bool_decide_eq_true_2 by done. split; [done|]. split; [done|].
    intros c' Hc. by rewrite by_call_drop, bool_decide_eq_false_2. }
  split; [done|]. split; [constructor|]. split; [|by split; [intros x Hx _|]].
  unfold row_ids, discard, set_tables. cbn [actions tx]. pose proof (inv_ids _ Hi) as Hn. unfold row_ids in Hn. rewrite (staged_split c) in Hn.
  rewrite app_assoc, (Permutation_app_comm (_ <$> _)), <-app_assoc in Hn. by apply NoDup_app in Hn as (_ & _ & ?).
Qed.

Lemma triple_transaction {A} c ds st (work : mprog (result fault A)) P Q :
  triple c ds st work P → (∀ a ds' st', P (Ok a) ds' st' → all_justified justified ds' (deed_of <$> st') ∧ Q (Ok a) (ds' ++ (deed_of <$> st')) []) →
  (∀ e ds' st', Q (Throw e) ds' st') → triple c ds st (transaction c work) Q.
Proof.
  intros Hw Hc He. eapply mt_andThen; [exact Hw|]. intros [a|e] ds' st' HP.
  - destruct (Hc a ds' st' HP) as [Hj HQ]. eapply mt_orThrow; [by apply triple_commit| |intros; apply He].
    intros [] ds'' st'' [-> ->]. by apply mt_ret.
  - eapply mt_andThen; [apply triple_rollback|]. intros x ds'' st'' _. apply mt_ret. apply He.
Qed.

(** ** The functions *)

Lemma triple_enforce c ds p :
  triple c ds [] (enforceModerationAction c p) (fun r ds' _ => match r with
    | Ok (Refused_by_worker o) => (∃ args, ds' = ds ++ [Commanded (ei_server p) (RCON_COMMAND_BY_ACTION (ei_type p)) args o]) ∧ ∀ id response, o ≠ Succeeded id response
    | Ok (Enforced_as id requestId) => ∃ target response row e,
        ds' = ds ++ [Commanded (ei_server p) (RCON_COMMAND_BY_ACTION (ei_type p)) (enforce_args (ei_type p) target (ei_banLength p) (ei_reason p))
                       (Succeeded requestId response); Recorded row; Announced e] ∧
        target_of (ei_identity p) = Some target ∧ act_id row = id ∧ act_player row = ei_player p ∧ act_author row = Some (ei_actor p)
    | Throw _ => True
    end).
Proof.
  unfold enforceModerationAction. destruct (target_of (ei_identity p)) as [target|] eqn:Et; [|by apply mt_ret].
  eapply mt_orThrow; [apply triple_command| |done]. intros [o now] ds' st' [-> ->]. cbn [fst].
  destruct o as [reason|requestId response|requestId reason detail]; [apply mt_ret; by split; [eexists|]| |apply mt_ret; by split; [eexists|]].
  set (D := Commanded _ _ _ _). eapply mt_orThrow.
  - eapply (triple_transaction c (ds ++ [D]) [] _ (fun r ds' st' => match r with
      | Ok (id, e) => ds' = ds ++ [D] ∧ ∃ row, st' = [StagedRow row; StagedEvent e] ∧ act_id row = id ∧ act_player row = ei_player p ∧ act_author row = Some (ei_actor p) ∧
          enforced_by row D ∧ env_action e = act_id row ∧ env_type e = js "moderation." ++ act_type row
      | Throw _ => True end)
      (fun r ds' st' => match r with
      | Ok (id, e) => ∃ row, ds' = ds ++ [D; Recorded row; Announced e] ∧ act_id row = id ∧ act_player row = ei_player p ∧ act_author row = Some (ei_actor p)
      | Throw _ => True end)); [| |done].
    + eapply mt_orThrow; [by apply triple_stage_action| |done]. intros [id t] ds' st' [-> ->]. cbn [fst].
      unfold buildModerationEnvelope. destruct (payload_ok _ _); [|by apply mt_ret].
      eapply mt_orThrow; [apply triple_stage_event| |done]. intros [] ds' st' [-> ->]. apply mt_ret. split; [done|]. eexists. cbn [app].
      split; [reflexivity|]. split_and!; [done|done|done| |done|done]. eexists _, _, target, _, _, requestId, response, _. split; [reflexivity|]. split; [done|]. by split.
    + intros [id e] ds' st' (-> & row & -> & Hid & Hp & Ha & He & Hact & Hty). split.
      * cbn. split; [exists D; split; [apply elem_of_app; right; by left|by right]|]. split; [|done]. exists row. split; [apply elem_of_app; right; by left|done].
      * exists row. cbn. by rewrite <-app_assoc.
  - intros [id e] ds' st' (row & -> & Hid & Hp & Ha). eapply mt_orThrow; [apply triple_stream| |by intros e' ds' st'' [? _]].
    intros [] ds' st'' (_ & -> & _). apply mt_ret. exists target, response, row, e. done.
  - done.
Qed.

Lemma reads_app server l l' : reads server l → reads server l' → reads server (l ++ l').
Proof. intros H1 H2. by apply Forall_app. Qed.

Lemma triple_attempts c ds st p steam reload n :
  triple c ds st (unban_attempts sha256 c p steam reload n) (fun r ds' st' => match r with
    | Ok (Ok _) => st' = st ∧ ∃ l, ds' = ds ++ l ∧ reads (up_server p) l ∧
        (Mistaken ∨ ∃ before answer, ds' = before ++ [Read (up_server p) answer] ∧ ban_lines steam (text_of answer) = [])
    | Ok (Throw e) => st' = st ∧ e ≠ already_reverted ∧ ∃ l, ds' = ds ++ l ∧ reads (up_server p) l
    | Throw _ => True
    end).
Proof.
  revert ds. induction n as [|n IH]; intros ds; cbn [unban_attempts].
  { apply mt_ret. split; [done|]. split; [done|]. exists []. rewrite app_nil_r. split; [done|constructor]. }
  eapply mt_andThen; [apply triple_read|]. intros [current|] ds1 st1 (-> & l1 & -> & Hl1 & H1); [|apply mt_ret; by eauto 8].
  case_bool_decide as Hgone.
  { apply mt_ret. split; [done|]. exists l1. split; [done|]. split; [done|]. destruct H1 as [?|(answer & -> & ->)]; [by left|]. right.
    exists ds, answer. split; [done|]. rewrite <-Hgone. symmetry. apply removeBanLines_lines. }
  eapply mt_orThrow; [apply triple_on_host| |done]. intros written ds2 st2 [-> ->].
  eapply mt_andThen; [apply triple_read|]. intros [verify|] ds3 st3 (-> & l2 & -> & Hl2 & H2).
  - case_bool_decide as Hv.
    + apply mt_ret. split; [done|]. exists (l1 ++ l2). rewrite <-app_assoc. split; [done|]. split; [by apply reads_app|].
      destruct H2 as [?|(answer & -> & Ht)]; [by left|]. right. exists (ds ++ l1), answer. split; [by rewrite app_assoc|]. rewrite <-Ht, Hv. apply removed_no_ban.
    + eapply mt_conseq; [apply IH|]. intros [[x|e]|e] ds' st'; [| |done].
      * intros (-> & l & -> & Hl & H). split; [done|]. exists (l1 ++ l2 ++ l). rewrite <-!app_assoc in *. split; [done|]. split; [by repeat apply reads_app|done].
      * intros (-> & Hne & l & -> & Hl). split; [done|]. split; [done|]. exists (l1 ++ l2 ++ l). rewrite <-!app_assoc. split; [done|]. by repeat apply reads_app.
  - apply mt_ret. split; [done|]. split; [done|]. exists (l1 ++ l2). rewrite <-app_assoc. split; [done|]. by apply reads_app.
Qed.

Lemma triple_publish c ds st p now row : Recorded row ∈ ds → mp_action p = act_id row → mp_type p = act_type row →
  triple c ds st (publishModerationEvent c p now) (fun r ds' _ => match r with Ok e => ds' = ds ++ [Announced e] | Throw _ => True end).
Proof.
  intros Hrow Hid Hty. unfold publishModerationEvent, buildModerationEnvelope. destruct (payload_ok _ _); [|by apply mt_ret].
  eapply mt_orThrow; [apply triple_insert_event; exists row; split; [done|]; split; [done|]; cbn; by rewrite Hty| |done].
  intros [] ds' st' [-> ->]. eapply mt_orThrow; [apply triple_stream| |by intros e' ds' st'' [? _]]. intros [] ds' st' (_ & -> & _). by apply mt_ret.
Qed.

Definition unrecorded (ds : list deed) : Prop := ∀ row, Recorded row ∉ ds.
Definition unclaimed (ds : list deed) : Prop := ∀ player server actor ids, Claimed player server actor ids ∉ ds.
Lemma reads_silent server l : reads server l → unrecorded l ∧ unclaimed l.
Proof.
  unfold reads. rewrite Forall_forall. intros H. split; [intros row Hin|intros p s a ids Hin]; by destruct (H _ Hin).
Qed.

Lemma triple_unban c ds st p : Found (up_player p) (up_identity p) ∈ ds →
  triple c ds st (unbanPlayerOnServer sha256 c p) (fun r ds' _ => match r with
    | Ok (Unban_failed e) => ∃ l, ds' = ds ++ l ∧ unrecorded l ∧ (e ≠ already_reverted → unclaimed l)
    | Ok (Unban_ok id ids gone _) => ∃ l row e,
        ds' = ds ++ l ++ [Claimed (up_player p) (up_server p) (up_actor p) ids; Recorded row; Announced e] ∧ reads (up_server p) l ∧
        up_target p ∈ ids ∧ act_id row = id ∧ act_type row = js "unban" ∧ act_context row = Unbanned gone ids
    | Throw _ => True
    end).
Proof.
  intros Hfound. unfold unbanPlayerOnServer.
  eapply (mt_orThrow _ _ _ _ _ (fun r ds' st' => match r with
    | Ok (Ok _) => ∃ l, ds' = ds ++ l ∧ reads (up_server p) l ∧ ∀ ids, justified ds' (Claimed (up_player p) (up_server p) (up_actor p) ids)
    | Ok (Throw e) => e ≠ already_reverted ∧ ∃ l, ds' = ds ++ l ∧ reads (up_server p) l
    | Throw _ => True end)); [| |done].
  - destruct (steamId64 (up_identity p)) as [steam|] eqn:Es.
    + eapply mt_conseq; [apply triple_attempts|]. intros [[x|e]|e] ds' st'; [| |done].
      * intros (-> & l & -> & Hl & H). exists l. split; [done|]. split; [done|]. intros ids. exists (up_identity p). split; [by apply elem_of_app; left|].
        destruct H as [?|(before & answer & -> & Hb)]; [by right; left|]. right. right. exists steam, before, answer. done.
      * intros (-> & Hne & l & -> & Hl). eauto.
    + apply mt_ret. exists []. rewrite app_nil_r. split; [done|]. split; [constructor|]. intros ids. exists (up_identity p). split; [done|by left].
  - intros [[gone reload]|e] ds' st'; [|intros (Hne & l & -> & Hl); apply mt_ret; exists l; destruct (reads_silent _ _ Hl); by split_and!].
    intros (l & -> & Hl & Hj). eapply mt_orThrow; [by apply triple_claim| |done]. intros ids ds' st'' [-> ->]. set (C := Claimed _ _ _ ids).
    case_bool_decide as Ht; cbn [negb].
    + eapply mt_orThrow; [apply triple_insert_action; [done|]| |done].
      { intros id. exists C. split; [apply elem_of_app; right; by left|]. left. eexists _, _, _, _, _. split; [reflexivity|]. by split_and!. }
      intros [id now] ds' st'' [-> ->]. cbn [fst]. set (row := mkAction _ _ _ _ _ _ _ _ _).
      eapply mt_orThrow; [apply (triple_publish _ _ _ _ _ row); [apply elem_of_app; right; by left|done|done]| |done].
      intros e ds' st'' ->. apply mt_ret. exists l, row, e. rewrite <-!app_assoc. done.
    + apply mt_ret. exists (l ++ [C]). rewrite app_assoc. split; [done|]. destruct (reads_silent _ _ Hl) as [Hu _]. split; [|done].
      intros row [Hin|Hin]%elem_of_app; [by apply (Hu row)|]. by apply list_elem_of_singleton in Hin.
Qed.

Definition allowed (user : option req_user) (t : EnforceActionType) (u : req_user) : Prop :=
  user = Some u ∧ user_panelAccess u = true ∧ match t with ban => js "ban" | _ => js "kick" end ∈ user_squadPermissions u.

(** What a reply says about what the call did. *)
Definition truthful (q : request) (r : reply) (ds : list deed) : Prop :=
  match r with
  | Denied d => unrecorded ds ∧ (error d ≠ js "already_reverted" → unclaimed ds)
  | Action_failed o => unrecorded ds ∧ unclaimed ds ∧ ∀ id response, o ≠ Succeeded id response
  | Action row => ∃ q' u who target requestId response row' e,
      q = Act q' ∧ allowed (ar_user q') (ar_type q') u ∧ target_of who = Some target ∧
      ds = [Found (ar_player q') who;
            Commanded (ar_server q') (RCON_COMMAND_BY_ACTION (ar_type q')) (enforce_args (ar_type q') target (ar_banLength q') (ar_reason q')) (Succeeded requestId response);
            Recorded row'; Announced e] ∧
      act_id row = act_id row' ∧ act_player row' = ar_player q' ∧ act_author row' = Some (user_player u)
  | Reverted row n _ => ∃ q' u player server who l ids gone row' e,
      q = Revert q' ∧ allowed (rr_user q') ban u ∧ reads server l ∧
      ds = [Found player who] ++ l ++ [Claimed player server (user_player u) ids; Recorded row'; Announced e] ∧
      rr_id q' ∈ ids ∧ act_id row = act_id row' ∧ act_context row' = Unbanned gone ids ∧ n = length gone
  end.

Lemma guard_ok user t u : moderationWriteGuard user t = Ok u → allowed user t u.
Proof.
  unfold moderationWriteGuard, panelGuard, allowed. destruct user as [x|]; [|done]. destruct (user_panelAccess x) eqn:E; [|done].
  case_bool_decide; [|done]. by intros [= <-].
Qed.

Definition silent : ∀ ds, Forall (fun d => match d with Found _ _ | Commanded _ _ _ _ => True | _ => False end) ds → unrecorded ds ∧ unclaimed ds.
Proof. intros ds H. rewrite Forall_forall in H. split; [intros row Hin|intros p s a ids Hin]; exact (H _ Hin). Qed.

Lemma triple_fetch c ds st id :
  triple c ds st (fetch_row id) (fun r ds' _ => match r with Ok row => ds' = ds ∧ act_id row = id | Throw _ => True end).
Proof.
  eapply mt_orThrow; [apply triple_query| |done]. intros row ds' st' (-> & -> & H). apply mt_ret. destruct row as [row|]; [|done].
  split; [done|]. destruct (H _ eq_refl) as (u & _ & _ & Hf). symmetry in Hf. apply find_some in Hf as [_ Hf]. by bool_to_Prop.
Qed.

(** A denial of a call that has at most found the player. *)
Lemma truthful_denied q d ds : Forall (fun d => match d with Found _ _ | Commanded _ _ _ _ => True | _ => False end) ds → truthful q (Denied d) ds.
Proof. intros H. destruct (silent _ H). by split. Qed.

Definition told (q : request) (r : result fault reply) (ds : list deed) : Prop := match r with Ok r => truthful q r ds | Throw _ => True end.

Lemma triple_action_route c q : triple c [] [] (action_route c q) (fun r ds _ => told (Act q) r ds).
Proof.
  unfold action_route. destruct (moderationWriteGuard _ _) as [actor|d] eqn:Eg; [|apply mt_ret; apply truthful_denied; constructor].
  apply guard_ok in Eg. eapply mt_orThrow; [apply triple_find_player| |done].
  intros [who|] ds st; [|intros [-> ->]; apply mt_ret; apply truthful_denied; constructor]. intros [-> ->]. cbn [app].
  assert (∀ d, triple c [Found (ar_player q) who] [] (Ret (Ok (Denied d))) (fun r ds _ => told (Act q) r ds)) as Hdeny
    by (intros d; apply mt_ret; apply truthful_denied; by repeat constructor).
  eapply mt_orThrow; [apply triple_query| |done]. intros live ds st (-> & -> & _). destruct live; cbn [negb]; [|apply Hdeny].
  destruct (_ && _); [apply Hdeny|]. cbn zeta.
  eapply (mt_orThrow _ _ _ _ _ (fun _ ds st => ds = [Found (ar_player q) who] ∧ st = [])); [| |done].
  { destruct (unique _); [by apply mt_ret|]. eapply mt_orThrow; [apply triple_query| |by intros e ds st (-> & -> & _)].
    intros stored ds st (-> & -> & _). by apply mt_ret. }
  intros missing ds st [-> ->]. destruct missing; [apply Hdeny|].
  eapply mt_orThrow; [apply triple_enforce| |done]. intros [o|id requestId] ds st.
  - intros [[args ->] Ho]. apply mt_ret. destruct (silent ([Found (ar_player q) who] ++ [Commanded (ei_server (mkEnforceInput (ar_server q) (ar_player q) who (ar_type q) (ar_reason q)
      (ar_banLength q) (user_player actor) (user_name actor) None (Some (ar_source q)) None)) (RCON_COMMAND_BY_ACTION (ar_type q)) args o])); [by repeat constructor|]. by split_and!.
  - intros (target & response & row & e & -> & Ht & Hid & Hp & Ha). cbn [ei_server ei_player ei_identity ei_type ei_reason ei_banLength ei_actor] in *.
    eapply (mt_orThrow _ _ _ _ _ (fun _ ds' _ => ds' = _)); [| |done].
    { destruct (unique _); [by apply mt_ret|]. eapply mt_conseq; [apply triple_quiet; by intros i u v r [= <- <-]|]. by intros a ds' st' [-> _]. }
    intros [] ds' st' ->. eapply mt_orThrow; [apply triple_fetch| |done]. intros row' ds' st'' [-> Hrow]. apply mt_ret.
    exists q, actor, who, target, requestId, response, row, e. split; [done|]. split; [done|]. split; [done|]. split; [done|]. split; [congruence|done].
Qed.

Lemma triple_revert_route c q : triple c [] [] (revert_route sha256 c q) (fun r ds _ => told (Revert q) r ds).
Proof.
  unfold revert_route. destruct (moderationWriteGuard _ _) as [actor|d] eqn:Eg; [|apply mt_ret; apply truthful_denied; constructor].
  apply guard_ok in Eg.
  assert (∀ d, triple c [] [] (Ret (Ok (Denied d))) (fun r ds _ => told (Revert q) r ds)) as Hdeny by (intros d; apply mt_ret; apply truthful_denied; constructor).
  eapply mt_orThrow; [apply triple_query| |done]. intros target ds st (-> & -> & Hfind). destruct target as [target|]; [|apply Hdeny].
  destruct (negb _); [apply Hdeny|]. case_bool_decide; [apply Hdeny|]. destruct (act_server target) as [server|] eqn:Es; [|apply Hdeny].
  assert (act_id target = rr_id q) as Hid.
  { destruct (Hfind _ eq_refl) as (u & _ & _ & Hf). symmetry in Hf. apply find_some in Hf as [_ Hf]. by bool_to_Prop. }
  eapply mt_orThrow; [apply triple_find_player| |done]. intros [who|] ds st; [|intros [-> ->]; apply Hdeny]. intros [-> ->]. cbn [app].
  eapply mt_orThrow; [apply triple_unban; by left| |done]. intros [e|id ids gone reload] ds st.
  - intros (l & -> & Hu & Hcl). apply mt_ret. split.
    + intros row [Hin|Hin]%elem_of_app; [by apply list_elem_of_singleton in Hin|by apply (Hu row)].
    + intros He p s a ids [Hin|Hin]%elem_of_app; [by apply list_elem_of_singleton in Hin|]. revert Hin. apply Hcl. by intros ->.
  - intros (l & row & e & -> & Hl & Ht & Hrow & Hty & Hctx). cbn [up_player up_server up_actor up_target] in *.
    eapply mt_orThrow; [apply triple_fetch| |done]. intros row' ds' st' [-> Hrow']. apply mt_ret.
    exists q, actor, (act_player target), server, who, l, ids, gone, row, e. split; [done|]. split; [done|]. split; [done|]. split; [done|].
    split; [by rewrite <-Hid|]. split; [congruence|]. done.
Qed.

(** ** Every run *)

Definition start_ok (w : world) : Prop := deeds w = [] ∧ tx w = [] ∧ NoDup (act_id <$> actions w).
Definition faulty (e : happening) : Prop := match e with StepOf _ f _ => fate_ok Fault f | _ => True end.

Lemma start_inv w : start_ok w → Inv w.
Proof.
  intros (Hd & Ht & Hn). split; [intros c pre d post; rewrite Hd; by destruct pre|]. split; [unfold row_ids; by rewrite Ht, app_nil_r|]. rewrite Hd.
  split; [constructor|]. by intros c p s a ids id ?%elem_of_nil.
Qed.

Lemma quiet_inv u w : deeds w = deeds u → tx w = tx u → NoDup (row_ids w) → keeps_reverted u w → Inv u → Env u w ∧ Inv w.
Proof.
  intros Hd Ht Hn Hk [Hs Hl]. split; [done|]. split; [by rewrite Hd|]. apply (ledger_moved 0 [] u w Hl); [by rewrite Hd, app_nil_r|constructor|done|done].
Qed.

Lemma outside_ok e w : Inv w → Env w (outside e w) ∧ Inv (outside e w).
Proof.
  intros Hi. pose proof (inv_ids _ Hi) as Hn.
  destruct e as [q|c f i|c|ms|server name text|server live state creds|p who|id active|row|id at_ by_]; cbn [outside];
    try (apply quiet_inv; [done|done|exact Hn|by intros r Hr _|done]).
  - unfold add_row. case_bool_decide as Hin; [apply quiet_inv; [done|done|exact Hn|by intros r Hr _|done]|]. apply quiet_inv; [done|done| |by intros r Hr _; cbn; apply elem_of_app; left|done].
    unfold row_ids, set_tables. cbn [actions tx]. rewrite fmap_app. cbn [fmap list_fmap]. by apply NoDup_fresh_app.
  - apply quiet_inv; [done|done| | |done].
    + unfold row_ids, revert_other, set_tables. cbn [actions tx]. rewrite <-list_fmap_compose. unfold row_ids in Hn.
      erewrite list_fmap_ext; [exact Hn|]. intros ? r _. cbn. by destruct (_ && _).
    + intros r Hr [x Hx]. cbn. apply list_elem_of_fmap. exists r. split; [|done]. rewrite (bool_decide_eq_false_2 (act_reverted r = None)) by congruence.
      by rewrite andb_false_r.
Qed.

Definition Q (c : nat) (w : world) (a : request * result fault reply) : Prop := told a.1 a.2 (by_call c (deeds w)).

Lemma serve_holds q c w : Inv w → know c [] [] w → holds Inv G Rely Fault c (Q c) w (serve q c).
Proof.
  intros Hi Hk. assert (triple c [] [] (serve q c) (fun a ds _ => told a.1 a.2 ds)) as Ht.
  { eapply mt_andThen with (P := fun r ds _ => told q r ds).
    - destruct q as [q|q]; [apply triple_action_route|apply triple_revert_route].
    - intros r ds st Hr. by apply mt_ret. }
  eapply holds_conseq; [|by apply Ht]. intros u a _ ([ds st] & [<- _] & Ha). exact Ha.
Qed.

Lemma panel_run_ok w es : start_ok w → Forall faulty es →
  sys_ok Inv G Rely Fault (fun c w => know c [] [] w) Q (panel_run w es).
Proof.
  intros Hw Hes. apply (tasks_run_ok Inv G Rely Env Fault Rely_refl Rely_trans); [| | | |].
  - intros c c' u v Hc Hg. by apply Hg.
  - intros c u v [Hd Ht]. unfold Rely. by rewrite Hd, Ht.
  - intros c u v Hr Hk. by eapply know_rely.
  - apply Forall_fmap. eapply Forall_impl; [exact Hes|]. intros e He. destruct e as [q|c f i|c|ms|server name text|server live state creds|p who|id active|row|id at_ by_]; cbn;
      try (intros x Hx; exact (outside_ok (Ticks ms) x Hx)); try (intros x Hx; exact (outside_ok (Edit server name text) x Hx));
      try (intros x Hx; exact (outside_ok (Server server live state creds) x Hx)); try (intros x Hx; exact (outside_ok (Player p who) x Hx));
      try (intros x Hx; exact (outside_ok (Media id active) x Hx)); try (intros x Hx; exact (outside_ok (Row row) x Hx));
      try (intros x Hx; exact (outside_ok (Reverted_elsewhere id at_ by_) x Hx)); [|exact He|done].
    intros c x Hx Hk. by apply serve_holds.
  - constructor; cbn; [by apply start_inv| |].
    + intros c p. by rewrite lookup_nil.
    + intros c _. destruct Hw as (Hd & Ht & _). unfold know. by rewrite Hd, Ht.
Qed.
End System.

(** No fault reads like a missing file. *)
Definition honest (e : happening) : Prop :=
  match e with StepOf _ (Refused e) _ | StepOf _ (AnswerLost e) _ => not_found e = false | _ => True end.

Definition deeds_of (s : system world input fault (request * result fault reply)) (c : nat) : list deed := by_call c (deeds (shared s)).

(** C5: a ban is reverted in the ledger only after the player's lines are gone
    from the server's Bans.cfg: whatever requests run at once, fail, lose
    answers or crash, the last thing a call does before it reverts bans is to
    read the file and find no line of the player. *)
Theorem ban_reverted_only_when_unbanned sha256 w es c before player server actor ids after :
  start_ok w → Forall honest es →
  deeds_of (panel_run sha256 w es) c = before ++ Claimed player server actor ids :: after →
  ∃ who, Found player who ∈ before ∧
    (steamId64 who = None ∨
     ∃ steam prior answer, steamId64 who = Some steam ∧ before = prior ++ [Read server answer] ∧ ban_lines steam (text_of answer) = []).
Proof.
  intros Hw Hes Hd. destruct (panel_run_ok sha256 (fun e => not_found e = false) w es Hw) as [[Hs _] _ _].
  { eapply Forall_impl; [exact Hes|]. intros [q|c' [|e|e] i|c'|ms|server' name text|server' live state creds|p who|id active|row|id at_ by_] He; done. }
  destruct (Hs c _ _ _ Hd) as (who & Hf & H). exists who. split; [done|].
  destruct H as [H|[(e & He & He')|H]]; [by left|congruence|by right].
Qed.

(** A ban row is reverted by at most one unban, once, and stays with the
    name of who reverted it; the rows an unban reverts are bans of that player
    on that server. *)
Theorem ban_reverted_once sha256 w es : start_ok w →
  let v := shared (panel_run sha256 w es) in
  NoDup (claimed (deeds v)) ∧
  ∀ c player server actor ids id, Claimed player server actor ids ∈ by_call c (deeds v) → id ∈ ids →
    ∃ r at_, r ∈ actions v ∧ act_id r = id ∧ act_player r = player ∧ act_server r = Some server ∧ act_type r = js "ban" ∧ act_reverted r = Some (at_, actor).
Proof.
  intros Hw v. destruct (panel_run_ok sha256 (fun _ => True) w es Hw) as [[_ (_ & Hn & Hr)] _ _].
  { apply Forall_forall. by intros [q|c' [|e|e] i|c'|ms|server' name text|server' live state creds|p who|id active|row|id at_ by_] _. }
  split; [done|]. intros c player server actor ids id Hin. apply (Hr c). unfold by_call in Hin.
  apply list_elem_of_fmap in Hin as ([c' d] & [= ->] & [Hc Hin]%elem_of_jfilter). by bool_to_Prop; subst.
Qed.

(** C6: the panel tells its callers the truth: an action it reports was allowed,
    was confirmed by the game server with the player's own id and is in the
    ledger; an unban it reports was allowed, reverted the ban asked for and is
    in the ledger with the bans it reverted; what it refuses or reports as failed has
    left no row, and reverted no ban unless it answers that another was first. *)
Theorem replies_truthful sha256 w es c q r : start_ok w →
  tasks (panel_run sha256 w es) !! c = Some (Some (Ret (q, Ok r))) → truthful q r (deeds_of (panel_run sha256 w es) c).
Proof.
  intros Hw Hr. assert (sys_ok (Inv (fun _ => True)) G Rely (fun _ => True) (fun c w => know c [] [] w) Q (panel_run sha256 w es)) as Hok.
  { apply panel_run_ok; [done|]. apply Forall_forall. by intros [q'|c' [|e|e] i|c'|ms|server' name text|server' live state creds|p who|id active|row|id at_ by_] _. }
  exact (result_ok _ _ _ _ Rely_refl _ _ _ c _ Hok Hr).
Qed.

(** Every row the panel writes follows what it records: a confirmed command or
    reverted bans, also when the call has failed or crashed since. *)
Theorem recorded_rows_confirmed sha256 w es c before row after : start_ok w →
  deeds_of (panel_run sha256 w es) c = before ++ Recorded row :: after → ∃ d, d ∈ before ∧ (unban_of row d ∨ enforced_by row d).
Proof.
  intros Hw Hd. destruct (panel_run_ok sha256 (fun _ => True) w es Hw) as [[Hs _] _ _].
  { apply Forall_forall. by intros [q'|c' [|e|e] i|c'|ms|server' name text|server' live state creds|p who|id active|r|id at_ by_] _. }
  exact (Hs c _ _ _ Hd).
Qed.

(** * Concrete runs *)

Definition ex_line1 : jstr := js "Banned:76561198000000001:0 // cheating".
Definition ex_line2 : jstr := js "Banned:76561198000000002:0 // abuse".
Definition ex_who (n : jstr) : PlayerIdentity := mkIdentity None (Some (js "7656119800000000" ++ n)) (js "Player").
Definition ex_ban_row (id player : jstr) : action_row :=
  mkAction id player (Some (js "s")) (js "ban") (Some (js "adm")) (js "x") Other_context None None.
Definition ex_world : world :=
  mkWorld 1000 (fun _ => mkHost 1000 [(js "Bans.cfg", ex_line1 ++ [10] ++ ex_line2)] [] [] [] true (js "stopped") None)
    [(js "p1", ex_who (js "1")); (js "p2", ex_who (js "2"))] [] [ex_ban_row (js "b1") (js "p1"); ex_ban_row (js "b2") (js "p2")] [] [] [] [] [].
Definition ex_user : req_user := mkUser (js "adm") (js "Admin") true [js "kick"; js "ban"].
Definition ex_revert (id : jstr) : happening := Request (Revert (mkRevertRequest (Some ex_user) id (js "appeal"))).
Definition ex_ok (c n : nat) (id : jstr) (o : WorkerRconCommandOutcome) : list happening :=
  replicate n (StepOf c Done (mkInput id o (Throw []))).
Definition ex_go (c n : nat) (id : jstr) : list happening := ex_ok c n id (NotAttempted worker_not_connected).
Definition ex_file (s : system world input fault (request * result fault reply)) : option jstr := map_get (h_files (hosts (shared s) (js "s"))) bans_cfg.
(** The reply of a call that has ended. *)
Definition ex_reply (s : system world input fault (request * result fault reply)) (c : nat) : option (result fault reply) :=
  match tasks s !! c with Some (Some (Ret (_, r))) => Some r | _ => None end.
Definition ex_reverted (s : system world input fault (request * result fault reply)) : list jstr :=
  act_id <$> jfilter (fun r => bool_decide (is_Some (act_reverted r))) (actions (shared s)).
Definition is_reverted (r : option (result fault reply)) : bool := match r with Some (Ok (Reverted _ _ _)) => true | _ => false end.

(** One unban. *)
Definition ex_unban : list happening := ex_revert (js "b1") :: ex_go 0 20 (js "u1").
Example ex_unban_ok :
  let s := panel_run id ex_world ex_unban in
  is_reverted (ex_reply s 0) = true ∧ ex_file s = Some ex_line2 ∧ ex_reverted s = [js "b1"].
Proof. vm_compute. split_and!; reflexivity. Qed.

(** One ban through the worker. *)
Definition ex_act : list happening :=
  Request (Act (mkActionRequest (Some ex_user) (js "p1") (js "s") ban (js "cheating") (js "7d") (js "player_card") []))
  :: ex_ok 0 20 (js "a1") (Succeeded (js "q1") (js "ok")).
Example ex_act_ok :
  let s := panel_run id ex_world ex_act in
  match ex_reply s 0 with Some (Ok (Action r)) => act_context r | _ => Other_context end
    = Enforced (js "7d") (Some (1000 + 7 * 86400000)) (js "q1") (js "76561198000000001") (js "player_card") ∧
  length (actions (shared s)) = 3%nat ∧ length (events (shared s)) = 1%nat ∧ length (streamed (shared s)) = 1%nat.
Proof. vm_compute. split_and!; reflexivity. Qed.

(** The bridge is down: its client rejects with the error of the socket, which
    reads like a missing file, and the unban goes through with the line in
    place. *)
Definition ex_bridge_down : list happening :=
  ex_revert (js "b1") :: ex_go 0 2 (js "u1")
  ++ [StepOf 0 (Refused (Bridge (Some (js "ENOENT")) (js "connect ENOENT /run/squad/bridge.sock"))) (mkInput [] (NotAttempted worker_not_connected) (Throw []))]
  ++ ex_go 0 5 (js "u1").
Lemma bridge_down_reverts_ledger :
  let s := panel_run id ex_world ex_bridge_down in
  is_reverted (ex_reply s 0) = true ∧ ex_file s = Some (ex_line1 ++ [10] ++ ex_line2) ∧ ex_reverted s = [js "b1"].
Proof. vm_compute. split_and!; reflexivity. Qed.

(** Two unbans at once: the second read the file before the first wrote it, and
    writes the first player's line back. *)
Definition ex_two : list happening :=
  [ex_revert (js "b1"); ex_revert (js "b2")] ++ ex_go 1 3 (js "u2") ++ ex_go 0 20 (js "u1") ++ ex_go 1 20 (js "u2").
Lemma concurrent_unban_restores_line :
  let s := panel_run id ex_world ex_two in
  is_reverted (ex_reply s 0) = true ∧ is_reverted (ex_reply s 1) = true ∧ ex_file s = Some ex_line1 ∧ ex_reverted s = [js "b1"; js "b2"].
Proof. vm_compute. split_and!; reflexivity. Qed.

(** Two unbans of one ban: the second is told it was reverted already, and has
    reverted a newer ban of the player that no unban row lists. *)
Definition ex_late : list happening :=
  [ex_revert (js "b1"); ex_revert (js "b1")] ++ ex_go 1 2 (js "u2") ++ ex_go 0 20 (js "u1")
  ++ [Row (ex_ban_row (js "b3") (js "p1"))] ++ ex_go 1 20 (js "u2").
Lemma late_unban_reverts_unrecorded :
  let s := panel_run id ex_world ex_late in
  ex_reply s 1 = Some (Ok (Denied (refuse 409 (js "already_reverted")))) ∧ ex_reverted s = [js "b1"; js "b3"] ∧
  (omap (fun r => match act_context r with Unbanned _ ids => Some ids | _ => None end) (actions (shared s))) = [[js "b1"]].
Proof. vm_compute. split_and!; reflexivity. Qed.

Lemma ex_start : start_ok ex_world.
Proof. split; [done|]. split; [done|]. by apply (bool_decide_unpack (NoDup _)); vm_compute. Qed.
Lemma ex_honest c n x : Forall honest (ex_go c n x).
Proof. apply Forall_forall. by intros e [-> _]%elem_of_replicate. Qed.

Lemma ban_reverted_only_when_unbanned_witness :
  ∃ who, Found (js "p1") who ∈ take 3 (deeds_of (panel_run id ex_world ex_unban) 0) ∧
    (steamId64 who = None ∨
     ∃ steam prior answer, steamId64 who = Some steam ∧ take 3 (deeds_of (panel_run id ex_world ex_unban) 0) = prior ++ [Read (js "s") answer] ∧ ban_lines steam (text_of answer) = []).
Proof.
  apply (ban_reverted_only_when_unbanned id ex_world ex_unban 0 _ (js "p1") (js "s") (js "adm") [js "b1"] (drop 4 (deeds_of (panel_run id ex_world ex_unban) 0))).
  - exact ex_start.
  - constructor; [exact I|apply ex_honest].
  - vm_compute. reflexivity.
Defined.

Lemma ban_reverted_once_witness : claimed (deeds (shared (panel_run id ex_world ex_two))) = [js "b1"; js "b2"] ∧ NoDup [js "b1"; js "b2"].
Proof. split; [vm_compute; reflexivity|]. exact (proj1 (ban_reverted_once id ex_world ex_two ex_start)). Defined.

Lemma replies_truthful_witness :
  ∃ q r, tasks (panel_run id ex_world ex_unban) !! 0%nat = Some (Some (Ret (q, Ok r))) ∧ is_reverted (Some (Ok r)) = true ∧
    truthful q r (deeds_of (panel_run id ex_world ex_unban) 0).
Proof.
  eexists _, _. split; [vm_compute; reflexivity|]. split; [reflexivity|]. apply (replies_truthful id ex_world ex_unban 0); [exact ex_start|vm_compute; reflexivity].
Defined.
