(* ===== verification/ConfigSync.v ===== *)
(** Admins.cfg delivery: [packages/db/src/admins-cfg-outbox.ts] and
    [admins-cfg-sync.ts], and [syncer.ts], [delivery.ts], [index.ts] and
    [rcon-reload.ts] of [apps/workers/config-sync/src]. A change of roles puts a
    row per server in an outbox; a relay publishes the rows on Redis streams;
    the worker regenerates the managed segment, has the game server reload it
    and marks the row applied. *)
From S2P Require Import Prelude JsString JsMap JsJson AdminsCfg RconReload Interleave BansFile.

(** * The database, the streams and the hosts *)

(** A row of [admins_cfg_sync_outbox]. [ob_version] counts the changes of roles
    and admins up to the one that wrote the row. *)
Record outbox_row := mkRow {
  ob_id : jstr;
  ob_server : jstr;
  ob_payload : json;
  ob_created : Z;
  ob_version : nat;
  ob_relayed : bool;
  ob_applied : option jstr;
  ob_error : option jstr;
}.

Record server_row := mkServer { srv_status : jstr; srv_removed : bool; srv_container : bool }.

(** A stream entry: the event it holds, none when there is no event field or its
    text is not JSON. *)
Record entry := mkEntry { en_server : jstr; en_id : nat; en_event : option json }.

Record SyncStatus := mkStatus {
  ss_state : jstr;
  last_synced_at : option Z;
  last_segment_hash : option jstr;
  last_db_hash : option jstr;
  ss_counts : option (Z * Z);
  ss_error : option jstr;
  unreachable_since : option Z;
}.

(** What an open transaction of a call has written. *)
Inductive update :=
| Relayed_row (id : jstr)
| Cancelled_row (id : jstr)
| Applied_row (id outcome : jstr)
| Failed_row (id code : jstr)
| Audit (action reason : jstr) (before after : option jstr).

(** What a call has done so far, for the record: the outbox row it read, the
    tables it read and the version they had, what the bridge answered, what it
    wrote, how the reload went (see RconReload.v), the rows it has finished. *)
Inductive deed :=
| Got (id server : jstr) (version : nat)
| Roles (version : nat) (rs : list RoleEntry)
| Admins (version : nat) (ads : list AdminEntry)
| Clans (version : nat) (cls : list ClanPriorityEntry)
| Read (server : jstr) (answer : option jstr)
| Wrote (server content : jstr)
| Reloaded (server : jstr) (outcome : ConfirmedAdminsCfgReloadOutcome)
| Finished (id outcome : jstr).

Record world := mkWorld {
  clock : Z;
  db : SegmentInputs;
  version : nat;
  outbox : list outbox_row;
  servers : list (jstr * server_row);
  audits : list update;
  staged : list (nat * update);
  locks : list (jstr * nat);
  claims : list (jstr * nat);
  open : list nat;
  files : list (jstr * jstr);
  stream : list entry;
  next_entry : nat;
  status : list (jstr * SyncStatus);
  hist : list (nat * deed);
}.

Inductive fault :=
| Bridge (code : option jstr) (message : jstr)
| Database
| Redis (message : jstr)
| Invalid_payload.

(** What the surroundings answer: how a reload went. *)
Definition cprog (A : Type) : Type := prog world ConfirmedAdminsCfgReloadOutcome fault A.

Definition set_db (rows : list outbox_row) (aud : list update) (st : list (nat * update)) (ls cl : list (jstr * nat)) (op : list nat) (w : world) : world :=
  mkWorld (clock w) (db w) (version w) rows (servers w) aud st ls cl op (files w) (stream w) (next_entry w) (status w) (hist w).
Definition set_files (fs : list (jstr * jstr)) (w : world) : world :=
  mkWorld (clock w) (db w) (version w) (outbox w) (servers w) (audits w) (staged w) (locks w) (claims w) (open w) fs (stream w) (next_entry w) (status w) (hist w).
Definition set_stream (es : list entry) (n : nat) (w : world) : world :=
  mkWorld (clock w) (db w) (version w) (outbox w) (servers w) (audits w) (staged w) (locks w) (claims w) (open w) (files w) es n (status w) (hist w).
Definition set_status (st : list (jstr * SyncStatus)) (w : world) : world :=
  mkWorld (clock w) (db w) (version w) (outbox w) (servers w) (audits w) (staged w) (locks w) (claims w) (open w) (files w) (stream w) (next_entry w) st (hist w).
Definition did (c : nat) (ds : list deed) (w : world) : world :=
  mkWorld (clock w) (db w) (version w) (outbox w) (servers w) (audits w) (staged w) (locks w) (claims w) (open w) (files w) (stream w) (next_entry w) (status w)
    (hist w ++ ((c,.) <$> ds)).

Definition query {A} (f : world → A) : cprog (result fault A) := once (fun _ w => Some (w, f w)).

(** ** Transactions *)

Definition not_by {A} (c : nat) (l : list (nat * A)) : list (nat * A) := jfilter (fun d => negb (bool_decide (d.1 = c))) l.
Definition not_held {A} (c : nat) (l : list (A * nat)) : list (A * nat) := jfilter (fun d => negb (bool_decide (d.2 = c))) l.

(** The updates on the row with the given id; a finished row is not finished or
    failed again. *)
Definition on_row (id : jstr) (f : outbox_row → outbox_row) (r : outbox_row) : outbox_row := if bool_decide (ob_id r = id) then f r else r.
Definition set_relayed (r : outbox_row) : outbox_row :=
  mkRow (ob_id r) (ob_server r) (ob_payload r) (ob_created r) (ob_version r) true (ob_applied r) (ob_error r).
Definition set_applied (outcome : jstr) (r : outbox_row) : outbox_row :=
  mkRow (ob_id r) (ob_server r) (ob_payload r) (ob_created r) (ob_version r) (ob_relayed r) (Some outcome) None.
Definition set_failed (code : jstr) (r : outbox_row) : outbox_row :=
  mkRow (ob_id r) (ob_server r) (ob_payload r) (ob_created r) (ob_version r) (ob_relayed r) (ob_applied r) (Some code).
Definition unless_applied (f : outbox_row → outbox_row) (r : outbox_row) : outbox_row := match ob_applied r with None => f r | Some _ => r end.
Definition apply_update (u : update) (r : outbox_row) : outbox_row :=
  match u with
  | Relayed_row id => on_row id set_relayed r
  | Cancelled_row id => on_row id (fun r => set_applied (js "server_removed") (set_relayed r)) r
  | Applied_row id outcome => on_row id (unless_applied (set_applied outcome)) r
  | Failed_row id code => on_row id (unless_applied (set_failed code)) r
  | Audit _ _ _ _ => r
  end.
Definition finished_of (u : update) : option deed := match u with Applied_row id outcome => Some (Finished id outcome) | _ => None end.

Definition begin_tx (c : nat) : cprog (result fault unit) :=
  once (fun _ w => Some (set_db (outbox w) (audits w) (staged w) (locks w) (claims w) (c :: open w) w, tt)).
Definition stage (c : nat) (u : update) : cprog (result fault unit) :=
  once (fun _ w => Some (set_db (outbox w) (audits w) (staged w ++ [(c, u)]) (locks w) (claims w) (open w) w, tt)).
Definition close_tx (c : nat) (rows : list outbox_row) (aud : list update) (w : world) : world :=
  set_db rows aud (not_by c (staged w)) (not_held c (locks w)) (not_held c (claims w)) (jfilter (fun x => negb (bool_decide (x = c))) (open w)) w.
Definition commit_world (c : nat) (w : world) : world :=
  let mine := by_call c (staged w) in
  did c (omap finished_of mine)
    (close_tx c ((fun r => foldl (fun r u => apply_update u r) r mine) <$> outbox w)
       (audits w ++ jfilter (fun u => match u with Audit _ _ _ _ => true | _ => false end) mine) w).
(** A transaction that lost its connection does not commit. *)
Definition commit (c : nat) : cprog (result fault unit) :=
  try done := once (fun _ w => if bool_decide (c ∈ open w) then Some (commit_world c w, true) else Some (w, false)) in
  Ret (if done : bool then Ok tt else Throw Database).
Definition rollback_world (c : nat) (w : world) : world := close_tx c (outbox w) (audits w) w.
Definition rollback (c : nat) : cprog (result fault unit) := once (fun _ w => Some (rollback_world c w, tt)).
Definition in_transaction {A} (c : nat) (work : cprog (result fault A)) : cprog (result fault A) :=
  try _ := begin_tx c in
  await r := work in
  match r with
  | Ok a => try _ := commit c in Ret (Ok a)
  | Throw e => await _ := rollback c in Ret (Throw e)
  end.
(** [withAdminsCfgServerLock]. *)
Definition withAdminsCfgServerLock {A} (c : nat) (server : jstr) (work : cprog (result fault A)) : cprog (result fault A) :=
  in_transaction c (
    try _ := once (fun _ w => match map_get (locks w) server with
                              | None => Some (set_db (outbox w) (audits w) (staged w) (map_set (locks w) server c) (claims w) (open w) w, tt)
                              | Some _ => None
                              end) in
    work).

(** * The outbox *)

Definition APPLIED_OUTCOMES : list jstr := [js "confirmed"; js "file_ready_for_restart"; js "server_removed"].
Definition FAILURE_CODES : list jstr := [js "unavailable"; js "rejected"; js "timeout"; js "invalid_result"].

Definition getAdminsCfgSyncOutboxState (c : nat) (id : jstr) : cprog (result fault (option outbox_row)) :=
  once (fun _ w => let row := List.find (fun r => bool_decide (ob_id r = id)) (outbox w) in
                   Some (match row with Some r => did c [Got (ob_id r) (ob_server r) (ob_version r)] w | None => w end, row)).
Definition markAdminsCfgSyncApplied (c : nat) (id outcome : jstr) : cprog (result fault unit) :=
  if bool_decide (outcome ∈ APPLIED_OUTCOMES) then stage c (Applied_row id outcome) else Ret (Throw Database).
Definition markAdminsCfgSyncFailed (c : nat) (id code : jstr) : cprog (result fault unit) :=
  if bool_decide (code ∈ FAILURE_CODES) then stage c (Failed_row id code) else Ret (Throw Database).

(** The rows a change of roles adds; [ids] are those the database gives them. *)
Definition active_servers (ss : list (jstr * server_row)) : list jstr :=
  fst <$> jfilter (fun s => negb (srv_removed s.2) && srv_container s.2) ss.
Definition enqueueAdminsCfgSyncForAllServers (ss : list (jstr * server_row)) (now : Z) (v : nat) (payload : json) (serverIds : option (list jstr)) (ids : list jstr)
    : list outbox_row :=
  let targets := match serverIds with Some l => l | None => active_servers ss end in
  zip_with (fun id server => mkRow id server payload now v false None None) ids targets.

Inductive RelayStep := Drained | Relayed | Cancelled | RelayFailed (id : jstr) (e : fault).

Definition plain_object (v : json) : option (list (jstr * json)) := match v with JObj fields => Some fields | _ => None end.
Definition relayed_event (payload : list (jstr * json)) (id : jstr) : json := JObj (map_set payload (js "_outbox_id") (JStr id)).
Definition publishRow (r : outbox_row) : cprog (result fault unit) :=
  match plain_object (ob_payload r) with
  | None => Ret (Throw Invalid_payload)
  | Some payload =>
      once (fun _ w => Some (set_stream (stream w ++ [mkEntry (ob_server r) (next_entry w) (Some (relayed_event payload (ob_id r)))]) (S (next_entry w)) w, tt))
  end.

(** The oldest pending row of a known server that no other transaction holds
    and that has not failed in this run. *)
Definition created_cmp (a b : outbox_row) : Z := ob_created a - ob_created b.
Definition claimable (w : world) (failedIds : list jstr) (r : outbox_row) : bool :=
  negb (ob_relayed r) && negb (bool_decide (ob_id r ∈ failedIds)) && map_has (servers w) (ob_server r) && negb (map_has (claims w) (ob_id r)).
Definition claim (c : nat) (failedIds : list jstr) : cprog (result fault (option (outbox_row * bool))) :=
  once (fun _ w =>
    match jsort created_cmp (jfilter (claimable w failedIds) (outbox w)) with
    | [] => Some (w, None)
    | r :: _ => Some (set_db (outbox w) (audits w) (staged w) (locks w) (map_set (claims w) (ob_id r) c) (open w) w,
                      Some (r, match map_get (servers w) (ob_server r) with Some s => srv_removed s | None => false end))
    end).
Definition relay_step (c : nat) (failedIds : list jstr) : cprog (result fault RelayStep) :=
  in_transaction c (
    try row := claim c failedIds in
    match row with
    | None => Ret (Ok Drained)
    | Some (r, removed) =>
        if removed : bool then try _ := stage c (Cancelled_row (ob_id r)) in Ret (Ok Cancelled)
        else
          await published := publishRow r in
          match published with
          | Throw e => Ret (Ok (RelayFailed (ob_id r) e))
          | Ok _ => try _ := stage c (Relayed_row (ob_id r)) in Ret (Ok Relayed)
          end
    end).

Definition DEFAULT_MAX_FAILURES : Z := 3.
(** The loop, at most [turns] times round; [None] is out of turns. *)
Fixpoint relay_loop (c : nat) (maxFailures : Z) (turns : nat) (failedIds : list jstr) (firstFailure : option fault) (failures : Z) (relayed : nat)
    : cprog (result fault (option nat)) :=
  let finish := Ret (match firstFailure with Some e => Throw e | None => Ok (Some relayed) end) in
  if failures <? maxFailures then
    match turns with
    | O => Ret (Ok None)
    | S turns =>
        try step := relay_step c failedIds in
        match step with
        | Drained => finish
        | RelayFailed id e =>
            relay_loop c maxFailures turns (failedIds ++ [id]) (match firstFailure with Some e => Some e | None => Some e end) (failures + 1) relayed
        | Relayed => relay_loop c maxFailures turns failedIds firstFailure 0 (S relayed)
        | Cancelled => relay_loop c maxFailures turns failedIds firstFailure 0 relayed
        end
    end
  else finish.
Definition relayAdminsCfgSyncOutbox (c : nat) (turns : nat) : cprog (result fault (option nat)) :=
  relay_loop c DEFAULT_MAX_FAILURES turns [] None 0 0.

(** * [syncer.ts] *)

Inductive sync_mode := active | passive.
Record SyncOptions := mkOptions { so_reason : jstr; so_actor : option jstr; so_force : bool; so_mode : option sync_mode; so_reload : bool }.
Inductive sync_state := wrote | in_sync | unreachable | drift.
Record SyncResult := mkResult { sr_state : sync_state; expectedHash : jstr; actualHash : option jstr; sr_groups : Z; sr_admins : Z; sr_error : option jstr }.

Definition blank_status (state : jstr) : SyncStatus := mkStatus state None None None None None None.
Definition publishStatus (server : jstr) (make : Z → SyncStatus) : cprog (result fault unit) :=
  let set := fun since : Z → option Z =>
    once (fun _ w =>
      let s := make (clock w) in
      Some (set_status (map_set (status w) server
              (mkStatus (ss_state s) (last_synced_at s) (last_segment_hash s) (last_db_hash s) (ss_counts s) (ss_error s) (since (clock w)))) w, tt)) in
  let state := ss_state (make 0) in
  if bool_decide (state = js "unreachable") || bool_decide (state = js "syncing")
  then
    try prev := query (fun w => map_get (status w) server) in
    set (fun now => match prev ≫= unreachable_since with
                    | Some t => Some t
                    | None => if bool_decide (state = js "unreachable") then Some now else None
                    end)
  else set (fun _ => None).

(** The tables, read one after the other. *)
Definition snapshotRolesAndAdmins (c : nat) : cprog (result fault SegmentInputs) :=
  try rs := once (fun _ w => Some (did c [Roles (version w) (roles (db w))] w, roles (db w))) in
  try ads := once (fun _ w => Some (did c [Admins (version w) (admins (db w))] w, admins (db w))) in
  try cls := once (fun _ w => Some (did c [Clans (version w) (clan_entries (db w))] w, clan_entries (db w))) in
  Ret (Ok (mkInputs rs ads (Some cls))).

(** The errors that mean there is no file. *)
Definition missing (code : option jstr) (message : jstr) : bool :=
  match code with Some k => bool_decide (k = js "not_found") || bool_decide (k = js "no_such_file") | None => false end
  || includes (js "no such file") (BansFile.lower message) || includes (js "not_found") (BansFile.lower message).
Definition message_of (e : fault) : jstr := match e with Bridge _ m | Redis m => m | Database => js "database" | Invalid_payload => js "admins_cfg_outbox_invalid_payload" end.
Definition missing_error (e : fault) : bool := match e with Bridge code message => missing code message | _ => false end.
Definition missing_file : fault := Bridge (Some (js "internal")) (js "open: no such file or directory").

(** [bridge.fileRead] with its catch: the content, or the message of an error. *)
Definition read_file (c : nat) (server : jstr) : cprog (result jstr jstr) :=
  await r := once (fun _ w => Some (did c [Read server (map_get (files w) server)] w, map_get (files w) server)) in
  Ret (match (match r with Ok (Some text) => Ok text | Ok None => Throw missing_file | Throw e => Throw e end) with
       | Ok text => Ok text
       | Throw e => if missing_error e then Ok [] else Throw (message_of e)
       end).
Definition write_file (c : nat) (server content : jstr) : cprog (result fault unit) :=
  once (fun _ w => Some (did c [Wrote server content] (set_files (map_set (files w) server content) w), tt)).

Section Worker.
(** The digest of a text, the collation of the names and the test for a UUID. *)
Context (hashSegment : jstr → jstr) (localeCompare : jstr → jstr → Z) (isUuid : jstr → bool).

Definition build (inputs : SegmentInputs) : jstr := body (buildManagedSegmentBody localeCompare inputs).
Definition counts (inputs : SegmentInputs) : Z * Z :=
  (groupsCount (buildManagedSegmentBody localeCompare inputs), adminsCount (buildManagedSegmentBody localeCompare inputs)).

(** What is not awaited for its result is only logged when it fails. *)
Definition safeAppendAudit (c : nat) (action reason : jstr) (before after : option jstr) : cprog (result fault unit) :=
  await _ := stage c (Audit action reason before after) in Ret (Ok tt).
Definition request_reload (c : nat) (server : jstr) : cprog (result fault unit) :=
  await _ := once (fun o w => Some (did c [Reloaded server o] w, tt)) in Ret (Ok tt).

Definition syncServerAdminsCfgLocked (c : nat) (server : jstr) (opts : SyncOptions) : cprog (result fault SyncResult) :=
  try _ := publishStatus server (fun _ => blank_status (js "syncing")) in
  try inputs := snapshotRolesAndAdmins c in
  let segmentBody := build inputs in
  let hash := hashSegment segmentBody in
  let '(groups, admins) := counts inputs in
  await read := read_file c server in
  match read with
  | Throw message =>
      try _ := publishStatus server (fun _ => mkStatus (js "unreachable") None None (Some hash) None (Some message) None) in
      try _ := safeAppendAudit c (js "admins_cfg.sync_failed") (so_reason opts) None None in
      Ret (Ok (mkResult unreachable hash None groups admins (Some message)))
  | Ok original =>
      let currentHash := (fun l => hashSegment (segment l)) <$> findManagedSegment original in
      let newContent := spliceManagedSegment original segmentBody in
      let hasDrift := negb (bool_decide (currentHash = Some hash)) in
      let isPassiveCheck := match so_mode opts with
                            | Some passive => true
                            | Some active => false
                            | None => bool_decide (so_reason opts = js "drift_check")
                            end in
      let needsWrite := so_force opts || (negb isPassiveCheck && hasDrift) in
      if negb needsWrite then
        if hasDrift then
          try _ := publishStatus server (fun _ => mkStatus (js "drift") None currentHash (Some hash) (Some (groups, admins)) None None) in
          Ret (Ok (mkResult drift hash currentHash groups admins None))
        else
          try _ := publishStatus server (fun now => mkStatus (js "in_sync") (Some now) (Some hash) (Some hash) (Some (groups, admins)) None None) in
          Ret (Ok (mkResult in_sync hash currentHash groups admins None))
      else
        await written := write_file c server newContent in
        match written with
        | Throw e =>
            try _ := publishStatus server (fun _ => mkStatus (js "unreachable") None currentHash (Some hash) None (Some (message_of e)) None) in
            try _ := safeAppendAudit c (js "admins_cfg.sync_failed") (so_reason opts) currentHash None in
            Ret (Ok (mkResult unreachable hash currentHash groups admins (Some (message_of e))))
        | Ok _ =>
            try _ := publishStatus server (fun now => mkStatus (js "in_sync") (Some now) (Some hash) (Some hash) (Some (groups, admins)) None None) in
            try _ := if so_reload opts then request_reload c server else Ret (Ok tt) in
            try _ := safeAppendAudit c (if so_force opts then js "admins_cfg.force_synced" else js "admins_cfg.synced") (so_reason opts) currentHash (Some hash) in
            Ret (Ok (mkResult wrote hash currentHash groups admins None))
        end
  end.
Definition syncServerAdminsCfg (c : nat) (server : jstr) (opts : SyncOptions) : cprog (result fault SyncResult) :=
  withAdminsCfgServerLock c server (syncServerAdminsCfgLocked c server opts).

(** * [delivery.ts] *)

Definition acknowledgeAndDeleteAdminsCfgEntry (e : entry) : cprog (result fault unit) :=
  once (fun _ w => Some (set_stream (jfilter (fun x => negb (bool_decide (en_server x = en_server e) && bool_decide (en_id x = en_id e))) (stream w)) (next_entry w) w, tt)).

Definition isLive (s : option server_row) : bool :=
  match s with Some r => negb (srv_removed r) && (bool_decide (srv_status r = js "running") || bool_decide (srv_status r = js "starting")) | None => false end.
Definition isRemoved (s : option server_row) : bool := match s with Some r => srv_removed r | None => true end.
Definition readServerState (server : jstr) : cprog (result fault (option server_row)) := query (fun w => map_get (servers w) server).

Definition syncParameters (payload : json) (mode : option sync_mode) (reload : bool) : SyncOptions :=
  let event := match plain_object payload with Some fields => fields | None => [] end in
  let reason := match map_get event (js "reason") with Some (JStr s) => s | _ => js "unknown" end in
  mkOptions reason
    (match map_get event (js "actor_player_id") with Some (JStr s) => Some s | _ => None end)
    (bool_decide (reason = js "force_sync") || match map_get event (js "forceWrite") with Some (JBool true) => true | _ => false end)
    mode reload.

(** [confirmAdminsCfgReload]: it never throws. *)
Definition confirmReload (c : nat) (server : jstr) : cprog ConfirmedAdminsCfgReloadOutcome :=
  await r := once (fun o w => Some (did c [Reloaded server o] w, o)) in Ret (match r with Ok o => o | Throw _ => unavailable end).
Definition reload_code (o : ConfirmedAdminsCfgReloadOutcome) : jstr :=
  match o with
  | confirmed => js "confirmed" | unavailable => js "unavailable" | rejected => js "rejected" | timeout => js "timeout" | invalid_result => js "invalid_result"
  end.

Inductive delivery := Completed | Retry.
Definition complete (c : nat) (id outcome : jstr) : cprog (result fault delivery) :=
  try _ := markAdminsCfgSyncApplied c id outcome in Ret (Ok Completed).
Definition mark_retry (c : nat) (id code : jstr) : cprog (result fault delivery) :=
  try _ := markAdminsCfgSyncFailed c id code in Ret (Ok Retry).

(** After the file is in place. *)
Definition finish_reload (c : nat) (id server : jstr) : cprog (result fault delivery) :=
  try firstState := readServerState server in
  if isRemoved firstState then complete c id (js "server_removed")
  else
    await first := if isLive firstState then (await o := confirmReload c server in Ret (Some o)) else Ret None in
    match first with
    | Some unavailable => mark_retry c id (reload_code unavailable)
    | Some rejected => mark_retry c id (reload_code rejected)
    | Some timeout => mark_retry c id (reload_code timeout)
    | Some invalid_result => mark_retry c id (reload_code invalid_result)
    | _ =>
        let reloadConfirmed := bool_decide (is_Some first) in
        try finalState := readServerState server in
        if isRemoved finalState then complete c id (js "server_removed")
        else if isLive finalState && negb reloadConfirmed then
          await reload := confirmReload c server in
          match reload with
          | confirmed =>
              try finalState := readServerState server in
              if isRemoved finalState then complete c id (js "server_removed")
              else complete c id (if isLive finalState then js "confirmed" else js "file_ready_for_restart")
          | o => mark_retry c id (reload_code o)
          end
        else complete c id (if isLive finalState then js "confirmed" else js "file_ready_for_restart")
    end.

(** The work under the lock for an outbox row. *)
Definition apply_outbox (c : nat) (server id : jstr) : cprog (result fault delivery) :=
  try row := getAdminsCfgSyncOutboxState c id in
  match row with
  | None => Ret (Ok Completed)
  | Some row =>
      if negb (bool_decide (ob_server row = server)) then Ret (Ok Completed)
      else if bool_decide (is_Some (ob_applied row)) then Ret (Ok Completed)
      else
        try result := syncServerAdminsCfgLocked c server (syncParameters (ob_payload row) (Some active) false) in
        match sr_state result with
        | unreachable => mark_retry c id (js "unavailable")
        | _ => finish_reload c id server
        end
  end.

Definition handleAdminsCfgSyncEntry (c : nat) (e : entry) (event : json) : cprog (result fault delivery) :=
  let drop := try _ := acknowledgeAndDeleteAdminsCfgEntry e in Ret (Ok Completed) in
  match plain_object event with
  | None => drop
  | Some fields =>
      match map_get fields (js "_outbox_id") with
      | None =>
          try result := withAdminsCfgServerLock c (en_server e) (syncServerAdminsCfgLocked c (en_server e) (syncParameters event None true)) in
          match sr_state result with unreachable => Ret (Ok Retry) | _ => drop end
      | Some (JStr id) =>
          if isUuid id then
            try outcome := withAdminsCfgServerLock c (en_server e) (apply_outbox c (en_server e) id) in
            match outcome with Completed => drop | Retry => Ret (Ok Retry) end
          else drop
      | Some _ => drop
      end
  end.

(** * [index.ts] *)

(** [handleEntry]; [None] when the entry holds no event. *)
Definition handleEntry (c : nat) (e : entry) : cprog (result fault (option delivery)) :=
  match en_event e with
  | None => try _ := acknowledgeAndDeleteAdminsCfgEntry e in Ret (Ok None)
  | Some event => try outcome := handleAdminsCfgSyncEntry c e event in Ret (Ok (Some outcome))
  end.
(** An entry taken from the stream, new or reclaimed. *)
Definition takeEntry (c : nat) (n : nat) : cprog (result fault (option delivery)) :=
  try e := query (fun w => List.find (fun e => bool_decide (en_id e = n)) (stream w)) in
  match e with None => Ret (Ok None) | Some e => handleEntry c e end.
Definition driftSweep (c : nat) (server : jstr) : cprog (result fault SyncResult) :=
  syncServerAdminsCfg c server (mkOptions (js "drift_check") None false (Some passive) true).
End Worker.

(** The backoff of a server after failures. *)
Definition recordOutcome (backoff : list (jstr * (Z * Z))) (now : Z) (server : jstr) (ok : bool) : list (jstr * (Z * Z)) :=
  if ok then map_delete backoff server
  else
    let prev := match map_get backoff server with Some (delayMs, _) => delayMs | None => 5000 end in
    let next := Z.min (prev * 2) (5 * 60000) in
    map_set backoff server (next, now + next).
Definition shouldSkip (backoff : list (jstr * (Z * Z))) (now : Z) (server : jstr) : bool :=
  match map_get backoff server with Some (_, nextAttemptAt) => now <? nextAttemptAt | None => false end.

(** * The panel and its surroundings *)

(** A change of roles with its outbox rows; relays, deliveries and drift checks,
    their steps and crashes; time, other stream entries, files edited on the
    host, server rows, a server removed with its rows finished, lost database
    connections and expired status keys. *)
Inductive happening :=
| Mutate (inputs : SegmentInputs) (payload : json) (serverIds : option (list jstr)) (ids : list jstr)
| Relay (turns : nat)
| Deliver (n : nat)
| Sweep (server : jstr)
| StepOf (c : nat) (f : fate fault) (o : ConfirmedAdminsCfgReloadOutcome)
| CrashOf (c : nat)
| Ticks (ms : nat)
| Inject (server : jstr) (event : option json)
| Edit (server : jstr) (content : option jstr)
| Server (server : jstr) (row : server_row)
| Remove (server : jstr)
| Lost (c : nat)
| Expire (server : jstr).

Definition row_ids (w : world) : list jstr := ob_id <$> outbox w.
(** The outbox row an event names. *)
Definition named_row (event : option json) : option jstr :=
  match event with
  | Some (JObj fields) => match map_get fields (js "_outbox_id") with Some (JStr id) => Some id | _ => None end
  | _ => None
  end.

Definition set_world (t : Z) (inputs : SegmentInputs) (v : nat) (rows : list outbox_row) (ss : list (jstr * server_row)) (w : world) : world :=
  mkWorld t inputs v rows ss (audits w) (staged w) (locks w) (claims w) (open w) (files w) (stream w) (next_entry w) (status w) (hist w).
(** The ids are the primary key. *)
Definition mutate (inputs : SegmentInputs) (payload : json) (serverIds : option (list jstr)) (ids : list jstr) (w : world) : world :=
  if bool_decide (NoDup ids) && forallb (fun id => negb (bool_decide (id ∈ row_ids w))) ids then
    let v := S (version w) in
    set_world (clock w) inputs v (outbox w ++ enqueueAdminsCfgSyncForAllServers (servers w) (clock w) v payload serverIds ids) (servers w) w
  else w.
(** An entry of another producer; it names no row that does not exist yet. *)
Definition inject (server : jstr) (event : option json) (w : world) : world :=
  if match named_row event with Some id => bool_decide (id ∈ row_ids w) | None => true end
  then set_stream (stream w ++ [mkEntry server (next_entry w) event]) (S (next_entry w)) w
  else w.
Definition remove_server (server : jstr) (w : world) : world :=
  let gone := match map_get (servers w) server with
              | Some s => map_set (servers w) server (mkServer (srv_status s) true (srv_container s))
              | None => servers w
              end in
  set_world (clock w) (db w) (version w)
    ((fun r => if bool_decide (ob_server r = server) then set_relayed (unless_applied (set_applied (js "server_removed")) r) else r) <$> outbox w) gone w.

Definition outside (e : happening) (w : world) : world :=
  match e with
  | Mutate inputs payload serverIds ids => mutate inputs payload serverIds ids w
  | Ticks ms => set_world (clock w + Z.of_nat ms) (db w) (version w) (outbox w) (servers w) w
  | Inject server event => inject server event w
  | Edit server content => set_files (match content with Some text => map_set (files w) server text | None => map_delete (files w) server end) w
  | Server server row => set_world (clock w) (db w) (version w) (outbox w) (map_set (servers w) server row) w
  | Remove server => remove_server server w
  | Lost c => set_db (outbox w) (audits w) (staged w) (not_held c (locks w)) (not_held c (claims w)) (jfilter (fun x => negb (bool_decide (x = c))) (open w)) w
  | Expire server => set_status (map_delete (status w) server) w
  | _ => w
  end.

(** What a call ends with. *)
Inductive answer := Relay_done (r : result fault (option nat)) | Delivered (r : result fault (option delivery)) | Swept (r : result fault SyncResult).

Section System.
Context (hashSegment : jstr → jstr) (localeCompare : jstr → jstr → Z) (isUuid : jstr → bool).

Definition lower (e : happening) : event world ConfirmedAdminsCfgReloadOutcome fault answer :=
  match e with
  | Relay turns => Start (fun c => await r := relayAdminsCfgSyncOutbox c turns in Ret (Relay_done r))
  | Deliver n => Start (fun c => await r := takeEntry hashSegment localeCompare isUuid c n in Ret (Delivered r))
  | Sweep server => Start (fun c => await r := driftSweep hashSegment localeCompare c server in Ret (Swept r))
  | StepOf c f o => Step c f o
  | CrashOf c => Crash c
  | e => Other (outside e)
  end.
Definition sync_run (w : world) (es : list happening) := run (mkSystem w []) (lower <$> es).

(** ** How the shared state evolves *)

Definition key (r : outbox_row) : jstr * jstr * json * nat := (ob_id r, ob_server r, ob_payload r, ob_version r).
Definition grows (l l' : list outbox_row) : Prop :=
  ∃ f extra, l' = (f <$> l) ++ extra ∧ (∀ r, key (f r) = key r ∧ (ob_applied r ≠ None → ob_applied (f r) ≠ None)) ∧
    Forall (fun x => ob_id x ∉ ob_id <$> l) extra.

Definition entry_row (e : entry) : option jstr := named_row (en_event e).
(** The entry the relay publishes for a row. *)
Definition for_row (e : entry) (r : outbox_row) : Prop :=
  en_server e = ob_server r ∧ ∃ payload, ob_payload r = JObj payload ∧ en_event e = Some (relayed_event payload (ob_id r)).

(** What a call may know: an entry it took, that the row of an entry is
    finished, a row it claimed, that a row is finished or has an entry. *)
Inductive fact := FEntry (e : entry) | FDone (e : entry) | FRow (r : outbox_row) | FPub (id : jstr).
Definition known_id (e : entry) (w : world) : Prop := ∀ id, entry_row e = Some id → id ∈ row_ids w.
Definition settled (e : entry) (w : world) : Prop := known_id e w ∧ ∀ r, r ∈ outbox w → for_row e r → ob_applied r ≠ None.
Definition fact_holds (w : world) (f : fact) : Prop :=
  match f with
  | FEntry e => (en_id e < next_entry w)%nat ∧ (∀ e', e' ∈ stream w → en_id e' = en_id e → e' = e) ∧ known_id e w
  | FDone e => settled e w
  | FRow r => ∃ r', r' ∈ outbox w ∧ key r' = key r
  | FPub id => id ∈ row_ids w ∧ ∀ r, r ∈ outbox w → ob_id r = id → ob_applied r = None → ∃ e, e ∈ stream w ∧ for_row e r
  end.

Definition evolves (u w : world) : Prop :=
  (version u ≤ version w)%nat ∧ (next_entry u ≤ next_entry w)%nat ∧ grows (outbox u) (outbox w) ∧
  (∀ e, e ∈ stream w → e ∈ stream u ∨ (next_entry u ≤ en_id e)%nat) ∧
  (∀ e, e ∈ stream u → e ∈ stream w ∨ settled e w).

Lemma key_id r r' : key r = key r' → ob_id r = ob_id r' ∧ ob_server r = ob_server r' ∧ ob_payload r = ob_payload r' ∧ ob_version r = ob_version r'.
Proof. intros [= ? ? ? ?]. done. Qed.

Lemma for_row_key e r r' : key r = key r' → for_row e r → for_row e r'.
Proof. intros (Hi & Hs & Hp & _)%key_id [H1 H2]. unfold for_row. by rewrite <-Hi, <-Hs, <-Hp. Qed.

Lemma for_row_id e r : for_row e r → entry_row e = Some (ob_id r).
Proof. intros [_ (payload & _ & He)]. unfold entry_row, named_row, relayed_event in *. rewrite He. by rewrite map_get_set_eq. Qed.

Lemma grows_refl l : grows l l.
Proof. exists id, []. rewrite app_nil_r, list_fmap_id. by split_and!. Qed.

Lemma grows_ids l l' id : grows l l' → id ∈ ob_id <$> l → id ∈ ob_id <$> l'.
Proof.
  intros (f & extra & -> & Hf & _) (r & -> & Hr)%list_elem_of_fmap. rewrite fmap_app. apply elem_of_app. left. apply list_elem_of_fmap.
  exists (f r). split; [by destruct (key_id _ _ (proj1 (Hf r))) as [-> _]|]. by apply list_elem_of_fmap_2.
Qed.

Lemma grows_trans l1 l2 l3 : grows l1 l2 → grows l2 l3 → grows l1 l3.
Proof.
  intros H12 (g & e2 & -> & Hg & He2). pose proof H12 as (f & e1 & -> & Hf & He1). exists (fun r => g (f r)), ((g <$> e1) ++ e2).
  rewrite fmap_app, <-list_fmap_compose, app_assoc. split; [done|]. split.
  - intros r. destruct (Hf r) as [Hk Ha], (Hg (f r)) as [Hk' Ha']. split; [congruence|auto].
  - apply Forall_app. split.
    + apply Forall_fmap. eapply Forall_impl; [exact He1|]. intros x Hx. cbn. by destruct (key_id _ _ (proj1 (Hg x))) as [-> _].
    + eapply Forall_impl; [exact He2|]. intros x Hx Hin. apply Hx. by eapply grows_ids.
Qed.

(** A row of the later table comes from an earlier one or is new. *)
Lemma grows_elem l l' r' : grows l l' → r' ∈ l' → ob_id r' ∉ (ob_id <$> l) ∨ ∃ r, r ∈ l ∧ key r' = key r ∧ (ob_applied r ≠ None → ob_applied r' ≠ None).
Proof.
  intros (f & extra & -> & Hf & He) [Hr|Hr]%elem_of_app.
  - right. apply list_elem_of_fmap in Hr as (r & -> & Hr). exists r. destruct (Hf r). done.
  - left. rewrite Forall_forall in He. by apply He.
Qed.

Lemma settled_evolves e u w : evolves u w → settled e u → settled e w.
Proof.
  intros (_ & _ & Hg & _ & _) [Hk Hr]. split; [intros id Hid; unfold row_ids in *; eapply grows_ids; [exact Hg|by apply Hk]|].
  intros r' Hr' Hf. destruct (grows_elem _ _ _ Hg Hr') as [Hn|(r & Hin & Hkey & Ha)].
  - exfalso. apply Hn. apply Hk. by apply for_row_id.
  - apply Ha, Hr; [done|]. by eapply for_row_key.
Qed.

Lemma fact_evolves f u w : evolves u w → fact_holds u f → fact_holds w f.
Proof.
  intros Hev. pose proof Hev as (_ & Hn & Hg & Hnew & Hold). destruct f as [e|e|r|id]; cbn.
  - intros (Hlt & Huniq & Hk). split; [lia|]. split.
    + intros e' He' Hid. destruct (Hnew e' He') as [?|?]; [by apply Huniq|lia].
    + intros id Hid. unfold row_ids in *. eapply grows_ids; [exact Hg|by apply Hk].
  - by apply settled_evolves.
  - intros (r' & Hr & Hk). pose proof Hg as (f & extra & -> & Hf & _). exists (f r'). split; [by apply elem_of_app; left; apply list_elem_of_fmap_2|].
    by rewrite (proj1 (Hf r')).
  - intros [Hid Hr]. split; [unfold row_ids in *; by eapply grows_ids|]. intros r' Hr' Hid' Ha'.
    destruct (grows_elem _ _ _ Hg Hr') as [Hn'|(r & Hin & Hkey & Ha)]; [exfalso; apply Hn'; unfold row_ids in Hid; by rewrite Hid'|].
    destruct (ob_applied r) eqn:Er; [by destruct (Ha ltac:(done))|]. destruct (Hr r Hin) as (e & He & Hf); [destruct (key_id _ _ Hkey); congruence|done|].
    assert (for_row e r') as Hf' by (by eapply for_row_key). destruct (Hold e He) as [?|[_ Hs]]; [eauto|]. by destruct (Hs r' Hr' Hf').
Qed.

Lemma evolves_refl w : evolves w w.
Proof. split; [done|]. split; [done|]. split; [apply grows_refl|]. split; intros e He; by left. Qed.
Lemma evolves_trans u v w : evolves u v → evolves v w → evolves u w.
Proof.
  intros (Hv1 & Hn1 & Hg1 & Hs1 & Hd1) Hvw. pose proof Hvw as (Hv2 & Hn2 & Hg2 & Hs2 & Hd2).
  split; [lia|]. split; [lia|]. split; [by eapply grows_trans|]. split; intros e He.
  - destruct (Hs2 e He) as [He'|]; [|right; lia]. by destruct (Hs1 e He'); [left|right].
  - destruct (Hd1 e He) as [He'|Hs]; [|right; by eapply settled_evolves]. by apply Hd2.
Qed.

(** ** What is known of a call and what holds at all times *)

Record knowledge := mkKnow { k_deeds : list deed; k_staged : list update; k_version : nat; k_facts : list fact }.
Definition know (c : nat) (k : knowledge) (w : world) : Prop :=
  by_call c (hist w) = k_deeds k ∧ by_call c (staged w) = k_staged k ∧ (k_version k ≤ version w)%nat ∧ Forall (fact_holds w) (k_facts k).

(** The file holds the segment of the inputs, as far as its digest tells. *)
Definition shows (content : jstr) (inputs : SegmentInputs) : Prop :=
  (fun l => hashSegment (segment l)) <$> findManagedSegment content = Some (hashSegment (build localeCompare inputs)).

(** The deeds that put a row's change in the file: it holds it already, or it is
    written. *)
Definition seen_in (server content : jstr) (seen : list deed) : Prop :=
  seen = [Read server (Some content)] ∨ ∃ reads, seen = reads ++ [Wrote server content].
Definition placed (n : nat) (server : jstr) (ds : list deed) : Prop :=
  ∃ v1 v2 v3 rs ads cls content seen,
    ds = [Roles v1 rs; Admins v2 ads; Clans v3 cls] ++ seen ∧ (n ≤ v1 ≤ v2)%nat ∧ (v2 ≤ v3)%nat ∧
    shows content (mkInputs rs ads (Some cls)) ∧ seen_in server content seen.
Definition in_place (id server : jstr) (ds more : list deed) : Prop :=
  ∃ v sync, ds = [Got id server v] ++ sync ++ more ∧ placed v server sync.
Definition justified (pre : list deed) (d : deed) : Prop :=
  match d with
  | Finished id outcome =>
      outcome = js "server_removed" ∨
      ∃ server more, in_place id server pre more ∧ (outcome = js "confirmed" → more = [Reloaded server confirmed])
  | _ => True
  end.
(** No change of roles is lost: its row is finished, still to be relayed, or has
    an entry on its server's stream. *)
Definition no_row_lost (w : world) : Prop :=
  ∀ r, r ∈ outbox w → ob_applied r = None → ob_relayed r = true → ∃ e, e ∈ stream w ∧ for_row e r.
Record tables_ok (w : world) : Prop := {
  ok_ids : NoDup (row_ids w);
  ok_uuids : Forall (fun id => isUuid id = true) (row_ids w);
  ok_versions : Forall (fun r => (ob_version r ≤ version w)%nat) (outbox w);
  ok_inputs : inputs_ok (db w);
  ok_stream : Forall (fun e => (en_id e < next_entry w)%nat ∧ known_id e w) (stream w);
  ok_entries : NoDup (en_id <$> stream w);
  ok_lost : no_row_lost w;
  ok_got : ∀ c id server v, (c, Got id server v) ∈ hist w → ∃ r, r ∈ outbox w ∧ ob_id r = id ∧ ob_server r = server ∧ ob_version r = v;
  ok_finished : ∀ r o, r ∈ outbox w → ob_applied r = Some o → o = js "server_removed" ∨ ∃ c, (c, Finished (ob_id r) o) ∈ hist w;
}.
Definition Inv (w : world) : Prop := tables_ok w ∧ follows justified (hist w).
Definition Rely (c : nat) (u w : world) : Prop := evolves u w ∧ by_call c (hist w) = by_call c (hist u) ∧ by_call c (staged w) = by_call c (staged u).
Definition G (c : nat) (u w : world) : Prop := ∀ c', c ≠ c' → Rely c' u w.
Definition Env (u w : world) : Prop := ∀ c, Rely c u w.
Definition Fault (e : fault) : Prop := True.

Lemma rely_same c w : Rely c w w.
Proof. split; [apply evolves_refl|done]. Qed.
Lemma rely_chain c u v w : Rely c u v → Rely c v w → Rely c u w.
Proof. intros (H1 & H2 & H3) (H4 & H5 & H6). split; [by eapply evolves_trans|]. split; congruence. Qed.
Lemma know_kept c k u w : Rely c u w → Inv w → know c k u → know c k w.
Proof.
  intros (He & Hd & Hs) _ (Hk1 & Hk2 & Hv & Hf). split; [congruence|]. split; [congruence|]. split; [destruct He; lia|].
  eapply Forall_impl; [exact Hf|]. intros f. by apply fact_evolves.
Qed.

(** ** What a call does *)

(** Deeds appended, the call's own updates changed, the tables evolved. *)
Definition moved (c : nat) (new : list deed) (st : list update) (u v : world) : Prop :=
  hist v = hist u ++ ((c,.) <$> new) ∧ by_call c (staged v) = st ∧ (∀ c', c ≠ c' → by_call c' (staged v) = by_call c' (staged u)) ∧ evolves u v.

Definition ctriple {A} (c : nat) (k : knowledge) (p : cprog A) (Post : A → knowledge → Prop) : Prop := triple Inv G Rely Fault know c k p Post.

(** The rule for a call: it may learn new facts and a higher version. *)
Lemma ctriple_moved {R} c k (op : ConfirmedAdminsCfgReloadOutcome → world → option (world * R)) (P : result fault R → knowledge → Prop) :
  (∀ i u v r, know c k u → Inv u → op i u = Some (v, r) →
     ∃ new st' lo fs, moved c new st' u v ∧ all_justified justified (k_deeds k) new ∧ tables_ok v ∧ (k_version k ≤ lo ≤ version v)%nat ∧ Forall (fact_holds v) fs ∧
       let k' := mkKnow (k_deeds k ++ new) st' lo (fs ++ k_facts k) in P (Ok r) k' ∧ ∀ e, P (Throw e) k') →
  (∀ e, P (Throw e) k) → ctriple c k (once op) P.
Proof.
  intros Hop He. apply (triple_once _ _ _ _ _ know_kept); [|intros e _; apply He]. intros i u v r Hk [Ht Hs] Ho.
  destruct (Hop i u v r Hk (conj Ht Hs) Ho) as (new & st' & lo & fs & (Hh & Hst & Hoth & Hev) & Hj & Hv & Hlo & Hfs & Hp & Hpe).
  destruct Hk as (Hk1 & Hk2 & Hk3 & Hk4). eexists. split; [|split; [|split; [split; [done|]|split; [exact Hp|intros e _; apply Hpe]]]].
  - split; [cbn; by rewrite Hh, by_call_app, by_call_own, Hk1|]. split; [done|]. split; [cbn; lia|]. cbn. apply Forall_app. split; [done|].
    eapply Forall_impl; [exact Hk4|]. intros f. by apply fact_evolves.
  - intros c' Hc. split; [done|]. split; [by rewrite Hh, by_call_app, by_call_other, app_nil_r|by apply Hoth].
  - rewrite Hh. apply follows_app; [done|]. by rewrite Hk1.
Qed.

(** *** Calls that leave the tables and the streams alone *)

Definition same (u v : world) : Prop :=
  version v = version u ∧ db v = db u ∧ outbox v = outbox u ∧ stream v = stream u ∧ next_entry v = next_entry u.

Lemma same_evolves u v : same u v → evolves u v.
Proof.
  intros (Hv & _ & Ho & Hs & Hn). unfold evolves. rewrite Hv, Ho, Hs, Hn. split; [done|]. split; [done|]. split; [apply grows_refl|]. split; intros e He; by left.
Qed.

Lemma same_tables c new u v : same u v → hist v = hist u ++ ((c,.) <$> new) →
  (∀ id server n, Got id server n ∈ new → ∃ r, r ∈ outbox u ∧ ob_id r = id ∧ ob_server r = server ∧ ob_version r = n) → tables_ok u → tables_ok v.
Proof.
  intros (Hv & Hd & Ho & Hs & Hn) Hh Hgot [H1 H2 H3 H4 H5 H6 H7 H8 H9]. constructor; unfold row_ids, no_row_lost, known_id in *; rewrite ?Hv, ?Hd, ?Ho, ?Hs, ?Hn; try done.
  - eapply Forall_impl; [exact H5|]. intros e. unfold known_id, row_ids. by rewrite Ho.
  - intros c' id server n. rewrite Hh, elem_of_app. intros [Hin|Hin]; [by eapply H8|]. apply Hgot. apply list_elem_of_fmap in Hin as (d & [= _ <-] & Hin). exact Hin.
  - intros r o Hr Ho'. destruct (H9 r o Hr Ho') as [?|[c' Hc]]; [by left|]. right. exists c'. rewrite Hh. by apply elem_of_app; left.
Qed.

(** Deeds that need no justification. *)
Definition plain (d : deed) : Prop := match d with Got _ _ _ | Finished _ _ => False | _ => True end.
Lemma plain_justified pre new : Forall plain new → all_justified justified pre new.
Proof. intros H. revert pre. induction H as [|d new Hd _ IH]; intros pre; [done|]. split; [by destruct d|apply IH]. Qed.

Lemma ctriple_same {R} c k (op : ConfirmedAdminsCfgReloadOutcome → world → option (world * R)) (P : result fault R → knowledge → Prop) :
  (∀ i u v r, know c k u → Inv u → op i u = Some (v, r) → same u v ∧ staged v = staged u ∧
     ∃ new lo, hist v = hist u ++ ((c,.) <$> new) ∧ Forall plain new ∧ (k_version k ≤ lo ≤ version u)%nat ∧
       let k' := mkKnow (k_deeds k ++ new) (k_staged k) lo (k_facts k) in P (Ok r) k' ∧ ∀ e, P (Throw e) k') →
  (∀ e, P (Throw e) k) → ctriple c k (once op) P.
Proof.
  intros Hop He. apply ctriple_moved; [|done]. intros i u v r Hk Hi Ho. destruct (Hop i u v r Hk Hi Ho) as (Hsame & Hst & new & lo & Hh & Hp & Hlo & HP & HPe).
  exists new, (k_staged k), lo, []. split; [|split; [by apply plain_justified|split; [|split; [by destruct Hsame as [-> _]|split; [constructor|done]]]]].
  - split; [done|]. split; [rewrite Hst; by destruct Hk as (_ & ? & _)|]. split; [by rewrite Hst|by apply same_evolves].
  - eapply same_tables; [done|done| |by destruct Hi]. intros id server n Hin. rewrite Forall_forall in Hp. by destruct (Hp _ Hin).
Qed.

(** Nothing done and nothing learnt. *)
Lemma ctriple_quiet {R} c k (op : ConfirmedAdminsCfgReloadOutcome → world → option (world * R)) :
  (∀ i u v r, op i u = Some (v, r) → same u v ∧ staged v = staged u ∧ hist v = hist u) →
  ctriple c k (once op) (fun _ k' => k' = k).
Proof.
  intros Hop. apply ctriple_same; [|done]. intros i u v r Hk Hi Ho. destruct (Hop i u v r Ho) as (Hs & Hst & Hh). split; [done|]. split; [done|].
  exists [], (k_version k). destruct Hk as (_ & _ & Hv & _). split; [by rewrite app_nil_r|]. split; [constructor|]. split; [lia|]. rewrite app_nil_r. by destruct k.
Qed.

Lemma ctriple_query {A} c k (f : world → A) :
  ctriple c k (query f) (fun r k' => k' = k ∧ ∀ a, r = Ok a → ∃ u, know c k u ∧ Inv u ∧ a = f u).
Proof.
  apply ctriple_same; [|done]. intros i u v r Hk Hi [= <- <-]. split; [done|]. split; [done|]. exists [], (k_version k).
  pose proof Hk as (_ & _ & Hv & _). split; [by rewrite app_nil_r|]. split; [constructor|]. split; [lia|]. rewrite app_nil_r. destruct k.
  split; [|by intros e]. split; [done|]. intros a [= <-]. eauto.
Qed.

(** One plain deed that only depends on the answer. *)
Lemma ctriple_deed {R} c k (op : ConfirmedAdminsCfgReloadOutcome → world → option (world * R)) (D : R → deed) :
  (∀ i u v r, op i u = Some (v, r) → same u v ∧ staged v = staged u ∧ hist v = hist u ++ [(c, D r)]) → (∀ r, plain (D r)) →
  ctriple c k (once op) (fun r k' => match r with
    | Ok r => k' = mkKnow (k_deeds k ++ [D r]) (k_staged k) (k_version k) (k_facts k)
    | Throw _ => ∃ new, k' = mkKnow (k_deeds k ++ new) (k_staged k) (k_version k) (k_facts k) ∧ (new = [] ∨ ∃ x, new = [D x])
    end).
Proof.
  intros Hop HD. apply ctriple_same.
  - intros i u v r Hk Hi Ho. destruct (Hop i u v r Ho) as (Hs & Hst & Hh). split; [done|]. split; [done|]. exists [D r], (k_version k).
    destruct Hk as (_ & _ & Hv & _). split; [done|]. split; [by repeat constructor|]. split; [lia|]. split; [done|]. intros e. exists [D r]. split; [done|]. right. eauto.
  - intros e. exists []. rewrite app_nil_r. destruct k. auto.
Qed.

Lemma ctriple_publishStatus c k server make : ctriple c k (publishStatus server make) (fun _ k' => k' = k).
Proof.
  unfold publishStatus. destruct (_ || _).
  - eapply triple_orThrow; [exact rely_same|exact rely_chain|exact know_kept|apply ctriple_query| |by intros e k' [-> _]].
    intros prev k' [-> _]. apply ctriple_quiet. by intros i u v r [= <- <-].
  - apply ctriple_quiet. by intros i u v r [= <- <-].
Qed.

Lemma ctriple_confirm c k server :
  ctriple c k (confirmReload c server) (fun o k' => ∃ o', k' = mkKnow (k_deeds k ++ o') (k_staged k) (k_version k) (k_facts k) ∧
    (o = confirmed → o' = [Reloaded server confirmed])).
Proof.
  eapply triple_andThen; [exact rely_same|exact rely_chain|apply (ctriple_deed c k _ (Reloaded server)); [by intros i u v r [= <- <-]|done]|].
  intros [o|e] k' H; apply triple_ret; [exact know_kept| |exact know_kept|].
  - exists [Reloaded server o]. split; [done|]. by intros ->.
  - destruct H as (new & -> & H). exists new. split; [done|]. by intros.
Qed.

Lemma ctriple_request c k server : ctriple c k (request_reload c server) (fun r k' => r = Ok tt ∧ ∃ new, k' = mkKnow (k_deeds k ++ new) (k_staged k) (k_version k) (k_facts k)).
Proof.
  eapply triple_andThen; [exact rely_same|exact rely_chain|apply ctriple_same with (P := fun _ k' => ∃ new, k' = mkKnow (k_deeds k ++ new) (k_staged k) (k_version k) (k_facts k))|].
  - intros i u v r Hk Hi [= <- <-]. split; [done|]. split; [done|]. exists [Reloaded server i], (k_version k). destruct Hk as (_ & _ & Hv & _).
    split; [done|]. split; [by repeat constructor|]. split; [lia|]. by eauto.
  - intros e. exists []. rewrite app_nil_r. by destruct k.
  - intros a k' Hk'. apply triple_ret; [exact know_kept|]. by split.
Qed.

Lemma ct_ret {A} c k (a : A) (Post : A → knowledge → Prop) : Post a k → ctriple c k (Ret a) Post.
Proof. intros H. apply triple_ret; [exact know_kept|exact H]. Qed.
Lemma ct_then {A B} c k (p : cprog A) (f : A → cprog B) P Q :
  ctriple c k p P → (∀ a k', P a k' → ctriple c k' (f a) Q) → ctriple c k (andThen p f) Q.
Proof. intros Hp Hf. eapply triple_andThen; [exact rely_same|exact rely_chain|exact Hp|exact Hf]. Qed.
Lemma ct_try {A B} c k (p : cprog (result fault A)) (f : A → cprog (result fault B)) P Q :
  ctriple c k p P → (∀ a k', P (Ok a) k' → ctriple c k' (f a) Q) → (∀ e k', P (Throw e) k' → Q (Throw e) k') → ctriple c k (orThrow p f) Q.
Proof. intros Hp Hf Ht. eapply triple_orThrow; [exact rely_same|exact rely_chain|exact know_kept|exact Hp|exact Hf|exact Ht]. Qed.

(** *** The tables and the file *)

Definition parts_ok (rs : list RoleEntry) (ads : list AdminEntry) (cls : list ClanPriorityEntry) : Prop := inputs_ok (mkInputs rs ads (Some cls)).

Lemma ctriple_snapshot c k :
  ctriple c k (snapshotRolesAndAdmins c) (fun r k' => match r with
    | Ok inputs => ∃ v1 v2 v3 rs ads cls, inputs = mkInputs rs ads (Some cls) ∧ inputs_ok inputs ∧ (k_version k ≤ v1 ≤ v2)%nat ∧ (v2 ≤ v3)%nat ∧
        k' = mkKnow (k_deeds k ++ [Roles v1 rs; Admins v2 ads; Clans v3 cls]) (k_staged k) v3 (k_facts k)
    | Throw _ => True
    end).
Proof.
  eapply (ct_try _ _ _ _ (fun r k' => match r with
    | Ok rs => ∃ v1, (k_version k ≤ v1)%nat ∧ (∀ r p, r ∈ rs → p ∈ squadPermissions r → plain_text p) ∧ k' = mkKnow (k_deeds k ++ [Roles v1 rs]) (k_staged k) v1 (k_facts k)
    | Throw _ => True end)); [| |done].
  { apply ctriple_same; [|done]. intros i u v r Hk [Ht _] [= <- <-]. split; [done|]. split; [done|]. exists [Roles (version u) (roles (db u))], (version u).
    destruct Hk as (_ & _ & Hv & _). split; [done|]. split; [by repeat constructor|]. split; [lia|]. split; [|done]. exists (version u). split; [done|]. split; [|done].
    by destruct (ok_inputs _ Ht). }
  intros rs k1 (v1 & Hv1 & Hrs & ->).
  eapply (ct_try _ _ _ _ (fun r k' => match r with
    | Ok ads => ∃ v2, (v1 ≤ v2)%nat ∧ (∀ a, a ∈ ads → plain_text (a_eosId a)) ∧ k' = mkKnow ((k_deeds k ++ [Roles v1 rs]) ++ [Admins v2 ads]) (k_staged k) v2 (k_facts k)
    | Throw _ => True end)); [| |done].
  { apply ctriple_same; [|done]. intros i u v r Hk [Ht _] [= <- <-]. split; [done|]. split; [done|]. exists [Admins (version u) (admins (db u))], (version u).
    destruct Hk as (_ & _ & Hv & _). cbn in Hv. split; [done|]. split; [by repeat constructor|]. cbn. split; [lia|]. split; [|done]. exists (version u). split; [lia|]. split; [|done].
    by destruct (ok_inputs _ Ht) as (_ & ? & _). }
  intros ads k2 (v2 & Hv2 & Hads & ->).
  eapply (ct_try _ _ _ _ (fun r k' => match r with
    | Ok cls => ∃ v3, (v2 ≤ v3)%nat ∧ (∀ e, e ∈ cls → plain_text (cl_eosId e)) ∧ k' = mkKnow (((k_deeds k ++ [Roles v1 rs]) ++ [Admins v2 ads]) ++ [Clans v3 cls]) (k_staged k) v3 (k_facts k)
    | Throw _ => True end)); [| |done].
  { apply ctriple_same; [|done]. intros i u v r Hk [Ht _] [= <- <-]. split; [done|]. split; [done|]. exists [Clans (version u) (clan_entries (db u))], (version u).
    destruct Hk as (_ & _ & Hv & _). cbn in Hv. split; [done|]. split; [by repeat constructor|]. cbn. split; [lia|]. split; [|done]. exists (version u). split; [lia|]. split; [|done].
    by destruct (ok_inputs _ Ht) as (_ & _ & ?). }
  intros cls k3 (v3 & Hv3 & Hcls & ->). apply ct_ret. exists v1, v2, v3, rs, ads, cls. rewrite <-!app_assoc. by split_and!.
Qed.

Lemma ctriple_read c k server :
  ctriple c k (read_file c server) (fun r k' => ∃ new, k' = mkKnow (k_deeds k ++ new) (k_staged k) (k_version k) (k_facts k) ∧
    match r with Ok text => text = [] ∨ new = [Read server (Some text)] | Throw _ => True end ∧ (new = [] ∨ ∃ answer, new = [Read server answer])).
Proof.
  eapply ct_then; [apply (ctriple_deed c k _ (Read server)); [by intros i u v r [= <- <-]|done]|].
  intros [[text|]|e] k' H; apply ct_ret.
  - exists [Read server (Some text)]. split; [done|]. split; [by right|]. right. eauto.
  - exists [Read server None]. split; [done|]. split; [|right; eauto]. destruct (missing_error missing_file) eqn:E; [by left|by vm_compute in E].
  - destruct H as (new & -> & H). exists new. split; [done|]. split; [|done]. destruct (missing_error e); [by left|done].
Qed.

Lemma ctriple_write c k server content :
  ctriple c k (write_file c server content) (fun r k' => match r with
    | Ok _ => k' = mkKnow (k_deeds k ++ [Wrote server content]) (k_staged k) (k_version k) (k_facts k)
    | Throw _ => ∃ new, k' = mkKnow (k_deeds k ++ new) (k_staged k) (k_version k) (k_facts k)
    end).
Proof.
  eapply triple_conseq; [apply (ctriple_deed c k _ (fun _ : unit => Wrote server content)); [by intros i u v r [= <- <-]|done]|].
  intros [[]|e] k' H; [done|]. destruct H as (new & -> & _). eauto.
Qed.

(** *** Transactions *)

Lemma ctriple_stage c k u : ctriple c k (stage c u) (fun r k' => match r with
    | Ok _ => k' = mkKnow (k_deeds k) (k_staged k ++ [u]) (k_version k) (k_facts k)
    | Throw _ => ∃ st, k' = mkKnow (k_deeds k) st (k_version k) (k_facts k) ∧ (st = k_staged k ∨ st = k_staged k ++ [u]) end).
Proof.
  apply ctriple_moved; [|intros e; exists (k_staged k); destruct k; auto]. intros i w v r Hk [Ht Hs] [= <- <-].
  exists [], (k_staged k ++ [u]), (k_version k), []. pose proof Hk as (_ & Hst & Hv & _).
  assert (same w (set_db (outbox w) (audits w) (staged w ++ [(c, u)]) (locks w) (claims w) (open w) w)) as Hsame by done.
  split.
  { split; [by rewrite app_nil_r|]. cbn [staged set_db]. split; [by rewrite by_call_snoc, bool_decide_eq_true_2, Hst|]. split; [|by apply same_evolves].
    intros c' Hc. by rewrite by_call_snoc, bool_decide_eq_false_2, app_nil_r. }
  split; [done|]. split; [eapply (same_tables c []); [done|by rewrite app_nil_r|by intros id server n ?%elem_of_nil|done]|]. split; [cbn; lia|]. split; [constructor|].
  rewrite app_nil_r. split; [done|]. intros e. eauto.
Qed.

Lemma by_call_not_by {A} c c' (t : list (nat * A)) : by_call c' (not_by c t) = if bool_decide (c = c') then [] else by_call c' t.
Proof.
  unfold by_call, not_by, jfilter. induction t as [|[n s] t IH]; [by case_bool_decide|]. cbn [List.filter fst]. destruct (decide (n = c)) as [->|Hn].
  - rewrite (bool_decide_eq_true_2 (c = c)) by done. cbn [negb]. rewrite IH. case_bool_decide; [done|]. done.
  - rewrite (bool_decide_eq_false_2 (n = c)) by done. cbn [negb List.filter fst]. destruct (decide (n = c')) as [->|Hn'].
    + rewrite (bool_decide_eq_true_2 (c' = c')) by done. rewrite (bool_decide_eq_false_2 (c = c')) in * by congruence. rewrite !fmap_cons. by rewrite IH.
    + rewrite (bool_decide_eq_false_2 (n = c')) by done. exact IH.
Qed.

Lemma ctriple_rollback c k : ctriple c k (rollback c) (fun _ _ => True).
Proof.
  apply ctriple_moved; [|done]. intros i w v r Hk [Ht Hs] [= <- <-]. exists [], [], (k_version k), []. pose proof Hk as (_ & _ & Hv & _).
  assert (same w (rollback_world c w)) as Hsame by done. split.
  { split; [by rewrite app_nil_r|]. cbn [staged set_db rollback_world close_tx]. rewrite by_call_not_by, bool_decide_eq_true_2 by done. split; [done|]. split; [|by apply same_evolves].
    intros c' Hc. by rewrite by_call_not_by, bool_decide_eq_false_2. }
  split; [done|]. split; [eapply (same_tables c []); [done|by rewrite app_nil_r|by intros id server n ?%elem_of_nil|done]|]. split; [cbn; lia|]. by split; [constructor|].
Qed.

Definition updated (st : list update) (r : outbox_row) : outbox_row := foldl (fun r u => apply_update u r) r st.

Lemma apply_update_ok u r : key (apply_update u r) = key r ∧ (ob_applied r ≠ None → ob_applied (apply_update u r) ≠ None) ∧
  (ob_relayed (apply_update u r) = true → ob_applied (apply_update u r) = None → ob_relayed r = true ∨ u = Relayed_row (ob_id r)).
Proof.
  unfold apply_update, on_row, unless_applied. destruct u as [id|id|id outcome|id code|a rs b af]; try (case_bool_decide; subst); cbn;
    try (destruct (ob_applied r) eqn:E; cbn); rewrite ?E; split_and!; try done; auto.
Qed.

Lemma updated_ok st r : key (updated st r) = key r ∧ (ob_applied r ≠ None → ob_applied (updated st r) ≠ None) ∧
  (ob_relayed (updated st r) = true → ob_applied (updated st r) = None → ob_relayed r = true ∨ Relayed_row (ob_id r) ∈ st).
Proof.
  revert r. induction st as [|u st IH]; intros r; [split_and!; try done; by left|]. unfold updated in *. cbn [foldl].
  destruct (IH (apply_update u r)) as (Hk & Ha & Hr), (apply_update_ok u r) as (Hk1 & Ha1 & Hr1). split; [congruence|]. split; [auto|].
  intros H1 H2. assert (ob_applied (apply_update u r) = None) as Hn.
  { destruct (ob_applied (apply_update u r)) eqn:E; [|done]. exfalso. apply (Ha ltac:(done)). exact H2. }
  destruct (Hr H1 H2) as [Hr'|Hr'].
  - destruct (Hr1 Hr' Hn) as [?| ->]; [by left|]. right. by left.
  - right. right. destruct (key_id _ _ Hk1) as [Hi _]. by rewrite <-Hi.
Qed.

Lemma updated_applied st r id outcome : Applied_row id outcome ∈ st → ob_id r = id → ob_applied (updated st r) ≠ None.
Proof.
  revert r. induction st as [|u st IH]; intros r; [by intros ?%elem_of_nil|]. intros [<-|Hin]%elem_of_cons Hid; unfold updated in *; cbn [foldl].
  - apply (updated_ok st). unfold apply_update, on_row, unless_applied. rewrite bool_decide_eq_true_2 by done. by destruct (ob_applied r) eqn:E; cbn; rewrite ?E.
  - apply IH; [done|]. destruct (apply_update_ok u r) as [Hk _]. by destruct (key_id _ _ Hk) as [-> _].
Qed.

Lemma updated_finished st r o : ob_applied (updated st r) = Some o →
  ob_applied r = Some o ∨ o = js "server_removed" ∨ Applied_row (ob_id r) o ∈ st.
Proof.
  revert r. induction st as [|u st IH]; intros r; [by left|]. unfold updated in *; cbn [foldl]. intros H.
  destruct (apply_update_ok u r) as [Hk _]. destruct (IH _ H) as [Ha|[?|Ha]].
  - unfold apply_update, on_row, unless_applied in Ha. destruct u as [id|id|id outcome|id code|a rs b af]; try (case_bool_decide; subst); cbn in Ha; auto.
    + injection Ha as <-. auto.
    + destruct (ob_applied r) eqn:E; cbn in Ha; [left; congruence|]. injection Ha as <-. right. right. by left.
    + destruct (ob_applied r) eqn:E; cbn in Ha; left; congruence.
  - by right; left.
  - right. right. right. destruct (key_id _ _ Hk) as [<- _]. done.
Qed.

Lemma evolves_rows u v f : version v = version u → stream v = stream u → next_entry v = next_entry u → outbox v = f <$> outbox u →
  (∀ r, key (f r) = key r ∧ (ob_applied r ≠ None → ob_applied (f r) ≠ None)) → evolves u v.
Proof.
  intros Hv Hs Hn Ho Hf. unfold evolves. rewrite Hv, Hs, Hn, Ho. split; [done|]. split; [done|]. split; [|split; intros e He; by left].
  exists f, []. rewrite app_nil_r. by split_and!.
Qed.

Lemma tables_rows u v f : version v = version u → db v = db u → stream v = stream u → next_entry v = next_entry u → outbox v = f <$> outbox u →
  (∀ r, key (f r) = key r ∧ (ob_applied r ≠ None → ob_applied (f r) ≠ None)) →
  (∀ r, r ∈ outbox u → ob_applied (f r) = None → ob_relayed (f r) = true → ob_relayed r = true ∨ ∃ e, e ∈ stream u ∧ for_row e r) →
  (∀ c id server n, (c, Got id server n) ∈ hist v → (c, Got id server n) ∈ hist u) → (∀ d, d ∈ hist u → d ∈ hist v) →
  (∀ r o, ob_applied (f r) = Some o → ob_applied r = Some o ∨ o = js "server_removed" ∨ ∃ c, (c, Finished (ob_id r) o) ∈ hist v) →
  tables_ok u → tables_ok v.
Proof.
  intros Hv Hd Hs Hn Ho Hf Hlost Hh Hsub Hfin [H1 H2 H3 H4 H5 H6 H7 H8 H9].
  assert (row_ids v = row_ids u) as Hids.
  { unfold row_ids. rewrite Ho, <-list_fmap_compose. apply list_fmap_ext. intros ? r _. cbn. by destruct (key_id _ _ (proj1 (Hf r))) as [-> _]. }
  assert (∀ e, known_id e v ↔ known_id e u) as Hk by (intros e; unfold known_id; by rewrite Hids).
  constructor; rewrite ?Hids, ?Hv, ?Hd, ?Hs, ?Hn; try done.
  - rewrite Ho. apply Forall_fmap. eapply Forall_impl; [exact H3|]. intros r. cbn. by destruct (key_id _ _ (proj1 (Hf r))) as (_ & _ & _ & ->).
  - eapply Forall_impl; [exact H5|]. intros e. by rewrite Hk.
  - intros r'. rewrite Ho, Hs. intros (r & -> & Hr)%list_elem_of_fmap Ha Hrel. destruct (Hf r) as [Hkey Hmono].
    assert (ob_applied r = None) as Ha' by (destruct (ob_applied r) eqn:E; [|done]; exfalso; by apply (Hmono ltac:(done))).
    assert (∃ e, e ∈ stream u ∧ for_row e r) as (e & He & Hfr) by (destruct (Hlost r Hr Ha Hrel) as [?|?]; [by apply H7|done]).
    exists e. split; [done|]. by eapply for_row_key.
  - intros c id server n Hin. destruct (H8 c id server n (Hh _ _ _ _ Hin)) as (r & Hr & <- & <- & <-). exists (f r). rewrite Ho.
    split; [by apply list_elem_of_fmap_2|]. destruct (key_id _ _ (proj1 (Hf r))) as (? & ? & _ & ?). done.
  - intros r' o. rewrite Ho. intros (r & -> & Hr)%list_elem_of_fmap Ha. destruct (key_id _ _ (proj1 (Hf r))) as [-> _].
    destruct (Hfin r o Ha) as [Hu|?]; [|done]. destruct (H9 r o Hr Hu) as [?|[c Hc]]; [by left|]. right. exists c. by apply Hsub.
Qed.

(** A commit: the rows it marks as relayed must have an entry, those it finishes
    must be justified; their entries are then settled. *)
Lemma ctriple_commit c k fs : all_justified justified (k_deeds k) (omap finished_of (k_staged k)) →
  (∀ id, Relayed_row id ∈ k_staged k → FPub id ∈ k_facts k) →
  Forall (fun f => ∃ e id outcome, f = FDone e ∧ entry_row e = Some id ∧ FEntry e ∈ k_facts k ∧ Applied_row id outcome ∈ k_staged k) fs →
  ctriple c k (commit c) (fun r k' => match r with
    | Ok _ => k' = mkKnow (k_deeds k ++ omap finished_of (k_staged k)) [] (k_version k) (fs ++ k_facts k)
    | Throw _ => True end).
Proof.
  intros Hj Hpub Hfs. eapply (ct_try _ _ _ _ (fun r k' => match r with
    | Ok true => k' = mkKnow (k_deeds k ++ omap finished_of (k_staged k)) [] (k_version k) (fs ++ k_facts k)
    | _ => True end)); [| |done].
  2:{ intros [] k' H; by apply ct_ret. }
  apply ctriple_moved; [|done]. intros i u v r Hk [Ht Hs] Ho. pose proof Hk as (_ & Hst & Hv & Hfacts). case_bool_decide.
  2:{ injection Ho as <- <-. exists [], (k_staged k), (k_version k), []. split; [|split; [done|split; [done|split; [lia|by split; [constructor|]]]]].
      split; [by rewrite app_nil_r|]. split; [done|]. split; [done|apply evolves_refl]. }
  injection Ho as <- <-. exists (omap finished_of (k_staged k)), [], (k_version k), fs.
  assert (∀ r, key (updated (k_staged k) r) = key r ∧ (ob_applied r ≠ None → ob_applied (updated (k_staged k) r) ≠ None)) as Hup by (intros r; destruct (updated_ok (k_staged k) r) as (? & ? & _); done).
  assert (outbox (commit_world c u) = updated (k_staged k) <$> outbox u) as Hrows by (unfold commit_world; cbn; by rewrite Hst).
  assert (hist (commit_world c u) = hist u ++ ((c,.) <$> omap finished_of (k_staged k))) as Hh by (unfold commit_world; cbn; by rewrite Hst).
  assert (evolves u (commit_world c u)) as Hev by (by eapply (evolves_rows _ _ (updated (k_staged k)))).
  split; [|split; [done|split; [|split; [cbn; lia|split; [|done]]]]].
  - split; [done|]. unfold commit_world. cbn [staged did close_tx set_db]. rewrite by_call_not_by, bool_decide_eq_true_2 by done. split; [done|]. split; [|exact Hev].
    intros c' Hc. by rewrite by_call_not_by, bool_decide_eq_false_2.
  - eapply (tables_rows u _ (updated (k_staged k))); try done.
    + intros r Hr Ha Hrel. destruct (updated_ok (k_staged k) r) as (_ & _ & H'). destruct (H' Hrel Ha) as [?|Hin]; [by left|]. right.
      rewrite Forall_forall in Hfacts. destruct (Hfacts _ (Hpub _ Hin)) as [_ Hp]. apply Hp; [done|done|].
      destruct (ob_applied r) eqn:E; [|done]. exfalso. apply (proj2 (Hup r)); [by rewrite E|done].
    + intros c' id server n. rewrite Hh, elem_of_app. intros [Hin|Hin]; [done|]. exfalso. apply list_elem_of_fmap in Hin as (d & [= _ <-] & Hin).
      apply list_elem_of_omap in Hin as (x & _ & Hx). by destruct x.
    + intros d Hd. rewrite Hh. by apply elem_of_app; left.
    + intros r o Ha. destruct (updated_finished _ _ _ Ha) as [?|[?|Hin]]; [by left|by right; left|]. right. right. exists c. rewrite Hh.
      apply elem_of_app. right. apply list_elem_of_fmap_2, list_elem_of_omap. eauto.
  - rewrite Forall_forall in Hfs, Hfacts |- *. intros f Hf. destruct (Hfs f Hf) as (e & id & outcome & -> & Hrow & Hin & Hap).
    destruct (Hfacts _ Hin) as (_ & _ & Hknown). split.
    + intros id' Hid'. unfold row_ids. destruct Hev as (_ & _ & Hg & _). eapply grows_ids; [exact Hg|by apply Hknown].
    + rewrite Hrows. intros r' (r & -> & Hr)%list_elem_of_fmap Hfr. eapply updated_applied; [exact Hap|].
      assert (for_row e r) as Hfr' by (eapply for_row_key; [apply Hup|done]). apply for_row_id in Hfr'. congruence.
Qed.

Lemma ct_transaction {A} c k (work : cprog (result fault A)) P Q :
  ctriple c k work P →
  (∀ a k', P (Ok a) k' → ∃ fs, all_justified justified (k_deeds k') (omap finished_of (k_staged k')) ∧
     (∀ id, Relayed_row id ∈ k_staged k' → FPub id ∈ k_facts k') ∧
     Forall (fun f => ∃ e id outcome, f = FDone e ∧ entry_row e = Some id ∧ FEntry e ∈ k_facts k' ∧ Applied_row id outcome ∈ k_staged k') fs ∧
     Q (Ok a) (mkKnow (k_deeds k' ++ omap finished_of (k_staged k')) [] (k_version k') (fs ++ k_facts k'))) →
  (∀ e k', Q (Throw e) k') → ctriple c k (in_transaction c work) Q.
Proof.
  intros Hw Hc He. eapply ct_try; [apply ctriple_quiet; by intros i u v r [= <- <-]| |intros; apply He]. intros [] k' ->.
  eapply ct_then; [exact Hw|]. intros [a|e] k' HP.
  - destruct (Hc a k' HP) as (fs & Hj & Hpub & Hfs & HQ). eapply ct_try; [by apply (ctriple_commit c k' fs)| |intros; apply He].
    intros [] k'' ->. by apply ct_ret.
  - eapply ct_then; [apply ctriple_rollback|]. intros x k'' _. apply ct_ret, He.
Qed.

Lemma ct_lock {A} c k server (work : cprog (result fault A)) P Q :
  ctriple c k work P →
  (∀ a k', P (Ok a) k' → ∃ fs, all_justified justified (k_deeds k') (omap finished_of (k_staged k')) ∧
     (∀ id, Relayed_row id ∈ k_staged k' → FPub id ∈ k_facts k') ∧
     Forall (fun f => ∃ e id outcome, f = FDone e ∧ entry_row e = Some id ∧ FEntry e ∈ k_facts k' ∧ Applied_row id outcome ∈ k_staged k') fs ∧
     Q (Ok a) (mkKnow (k_deeds k' ++ omap finished_of (k_staged k')) [] (k_version k') (fs ++ k_facts k'))) →
  (∀ e k', Q (Throw e) k') → ctriple c k (withAdminsCfgServerLock c server work) Q.
Proof.
  intros Hw Hc He. eapply (ct_transaction _ _ _ (fun r k' => match r with Ok a => P (Ok a) k' | Throw _ => True end)); [|exact Hc|exact He].
  eapply ct_try; [apply ctriple_quiet| |done].
  - intros i u v r. destruct (map_get _ _); [done|]. by intros [= <- <-].
  - intros [] k' ->. eapply triple_conseq; [exact Hw|]. by intros [a|e] k'.
Qed.

(** *** The outbox row and the entry *)

Lemma find_row w id : NoDup (row_ids w) →
  match List.find (fun r => bool_decide (ob_id r = id)) (outbox w) with
  | Some r => r ∈ outbox w ∧ ob_id r = id ∧ ∀ r', r' ∈ outbox w → ob_id r' = id → r' = r
  | None => ∀ r', r' ∈ outbox w → ob_id r' ≠ id
  end.
Proof.
  intros Hn. destruct (List.find _ _) as [r|] eqn:E.
  - apply find_some in E as [Hr%list_elem_of_In Hid]. bool_to_Prop. split; [done|]. split; [done|]. intros r' Hr' Hid'.
    eapply (NoDup_fmap_inj_elem ob_id); [exact Hn|done|done|congruence].
  - intros r' Hr' Hid. apply list_elem_of_In in Hr'. pose proof (find_none _ _ E r' Hr') as H. cbn in H. by bool_to_Prop.
Qed.

Definition finished_for (e : entry) (row : option outbox_row) : Prop :=
  match row with None => True | Some r => ob_server r ≠ en_server e ∨ ob_applied r ≠ None end.
Lemma ctriple_getOutbox c k e id : entry_row e = Some id → FEntry e ∈ k_facts k →
  ctriple c k (getAdminsCfgSyncOutboxState c id) (fun r k' => match r with
    | Ok row => ∃ new lo fs, k' = mkKnow (k_deeds k ++ new) (k_staged k) lo (fs ++ k_facts k) ∧
        (finished_for e row → fs = [FDone e]) ∧
        match row with Some r => ob_id r = id ∧ new = [Got id (ob_server r) (ob_version r)] ∧ lo = Nat.max (k_version k) (ob_version r) | None => True end
    | Throw _ => True end).
Proof.
  intros He Hf. apply ctriple_moved; [|done]. intros i u v r Hk [Ht Hs] [= <- <-]. pose proof Hk as (_ & Hst & Hv & Hfacts).
  pose proof (find_row u id (ok_ids _ Ht)) as Hfind. set (row := List.find _ _) in *.
  rewrite Forall_forall in Hfacts. pose proof (Hfacts _ Hf) as (_ & _ & Hknown).
  set (w := match row with Some r => did c [Got (ob_id r) (ob_server r) (ob_version r)] u | None => u end).
  set (new := match row with Some r => [Got (ob_id r) (ob_server r) (ob_version r)] | None => [] end).
  assert (same u w ∧ staged w = staged u ∧ hist w = hist u ++ ((c,.) <$> new)) as (Hsame & Hstw & Hh).
  { unfold w, new. destruct row; [done|]. by rewrite app_nil_r. }
  exists new, (k_staged k), (match row with Some r => Nat.max (k_version k) (ob_version r) | None => k_version k end),
    (match row with Some r => if bool_decide (ob_server r = en_server e) && bool_decide (ob_applied r = None) then [] else [FDone e] | None => [FDone e] end).
  split; [split; [done|split; [by rewrite Hstw|split; [by rewrite Hstw|by apply same_evolves]]]|].
  split; [unfold new; by destruct row|]. split.
  { eapply (same_tables c new); [exact Hsame|exact Hh| |exact Ht]. intros id' server n. unfold new. destruct row as [r|]; [|by intros ?%elem_of_nil].
    intros Hin%list_elem_of_singleton. injection Hin as -> -> ->. destruct Hfind as (Hr & _). eauto. }
  assert (version w = version u) as -> by apply Hsame. split.
  { destruct row as [r|]; [|lia]. destruct Hfind as (Hr & _). pose proof (ok_versions _ Ht) as Hvs. rewrite Forall_forall in Hvs. specialize (Hvs _ Hr). cbn in Hvs. lia. }
  split.
  - assert (finished_for e row → Forall (fact_holds w) [FDone e]) as Hdone.
    { intros Hfin. constructor; [|constructor]. destruct Hsame as (_ & _ & Ho & _). split; [intros id'; unfold row_ids; rewrite Ho; apply Hknown|].
      intros r' Hr' Hfr. rewrite Ho in Hr'. pose proof (for_row_id _ _ Hfr) as Hid. rewrite He in Hid. injection Hid as Hid.
      destruct row as [r|]; [|by destruct (Hfind r' Hr')]. destruct Hfind as (_ & _ & Huniq). assert (r' = r) as -> by (by apply Huniq).
      destruct Hfin as [Hsrv|?]; [|done]. exfalso. apply Hsrv. by destruct Hfr as [-> _]. }
    destruct row as [r|]; [|by apply Hdone]. destruct (decide (ob_server r = en_server e)) as [Hs1|Hs1]; [|rewrite bool_decide_eq_false_2 by done; apply Hdone; by left].
    rewrite bool_decide_eq_true_2 by done. destruct (decide (ob_applied r = None)) as [Ha|Ha]; [rewrite bool_decide_eq_true_2 by done; constructor|].
    rewrite bool_decide_eq_false_2 by done. apply Hdone. by right.
  - split; [|done]. eexists _, _, _. split; [reflexivity|]. split.
    + destruct row as [r|]; [|done]. intros [Hs1|Ha]; [by rewrite bool_decide_eq_false_2|]. by rewrite (bool_decide_eq_false_2 (ob_applied r = None)), andb_false_r.
    + unfold new. destruct row as [r|]; [|done]. destruct Hfind as (_ & -> & _). done.
Qed.

(** An entry whose row is settled may go. *)
Lemma ctriple_ack c k e : FEntry e ∈ k_facts k → (FDone e ∈ k_facts k ∨ entry_row e = None ∨ (∃ id, entry_row e = Some id ∧ isUuid id = false)) →
  ctriple c k (acknowledgeAndDeleteAdminsCfgEntry e) (fun _ k' => k_deeds k' = k_deeds k).
Proof.
  intros Hf Hd. apply ctriple_moved; [|done]. intros i u v r Hk [Ht Hs] [= <- <-]. pose proof Hk as (_ & Hst & Hv & Hfacts).
  rewrite Forall_forall in Hfacts. pose proof (Hfacts _ Hf) as (Hlt & Huniq & Hknown). set (w := set_stream _ _ u).
  assert (settled e u) as Hsettled.
  { destruct Hd as [Hd|[Hd|(id & Hd & Hu)]]; [exact (Hfacts _ Hd)| |]; (split; [done|]); intros r Hr Hfr%for_row_id; [congruence|].
    exfalso. pose proof (ok_uuids _ Ht) as Hus. rewrite Forall_forall in Hus. rewrite Hd in Hfr. injection Hfr as ->.
    assert (isUuid (ob_id r) = true); [|congruence]. apply Hus. by apply list_elem_of_fmap_2. }
  assert (∀ x, x ∈ stream u → x ∈ stream w ∨ x = e) as Hleft.
  { intros x Hx. destruct (decide (en_id x = en_id e)) as [Hid|Hne]; [right; by apply Huniq|]. left. apply elem_of_jfilter. split; [|done].
    by rewrite (bool_decide_eq_false_2 (en_id x = en_id e)), andb_false_r by done. }
  assert (∀ x, x ∈ stream w → x ∈ stream u) as Hsub by (intros x Hx; by apply elem_of_jfilter in Hx as [_ ?]).
  assert (evolves u w) as Hev.
  { split; [done|]. split; [done|]. split; [apply grows_refl|]. split; [intros x Hx; left; by apply Hsub|].
    intros x Hx. destruct (Hleft x Hx) as [?| ->]; [by left|by right]. }
  exists [], (k_staged k), (k_version k), []. split; [split; [by rewrite app_nil_r|done]|]. split; [done|]. split; [|split; [cbn; lia|by split; [constructor|split; [cbn; apply app_nil_r|intros; cbn; apply app_nil_r]]]].
  destruct Ht as [H1 H2 H3 H4 H5 H6 H7 H8 H9]. constructor; try done.
  - apply Forall_forall. intros x Hx. rewrite Forall_forall in H5. by apply H5, Hsub.
  - cbn. revert H6. generalize (stream u). intros l. unfold jfilter. induction l as [|x l IH]; [done|]. rewrite fmap_cons. intros Hn. apply NoDup_cons in Hn as [Hx Hl].
    cbn [List.filter]. destruct (negb _); [|by apply IH]. rewrite fmap_cons. apply NoDup_cons. split; [|by apply IH].
    intros (y & Hy & Hin)%list_elem_of_fmap. apply Hx. apply list_elem_of_fmap. exists y. split; [done|]. by apply elem_of_jfilter in Hin as [_ ?].
  - intros r Hr Ha Hrel. destruct (H7 r Hr Ha Hrel) as (x & Hx & Hfr). destruct (Hleft x Hx) as [?| ->]; [by exists x|]. by destruct (proj2 Hsettled r Hr Hfr).
Qed.

(** *** The relay *)

Lemma ctriple_claim c k failed : ctriple c k (claim c failed) (fun r k' => match r with
    | Ok (Some (r, _)) => k' = mkKnow (k_deeds k) (k_staged k) (k_version k) (FRow r :: k_facts k)
    | Ok None => k' = k
    | Throw _ => True end).
Proof.
  apply ctriple_moved; [|done]. intros i u v r Hk [Ht Hs] Ho. pose proof Hk as (_ & Hst & Hv & _).
  destruct (jsort _ _) as [|row rest] eqn:E; injection Ho as <- <-.
  - exists [], (k_staged k), (k_version k), []. split; [split; [by rewrite app_nil_r|split; [done|split; [done|apply evolves_refl]]]|].
    split; [done|]. split; [done|]. split; [lia|]. split; [constructor|]. rewrite app_nil_r. by destruct k.
  - assert (row ∈ outbox u) as Hrow.
    { assert (row ∈ jsort created_cmp (jfilter (claimable u failed) (outbox u))) as Hin by (rewrite E; by left). by apply elem_of_jsort, elem_of_jfilter in Hin as [_ ?]. }
    set (w := set_db _ _ _ _ _ _ u). assert (same u w) as Hsame by done. exists [], (k_staged k), (k_version k), [FRow row].
    split; [split; [by rewrite app_nil_r|split; [done|split; [done|by apply same_evolves]]]|]. split; [done|].
    split; [eapply (same_tables c []); [done|by rewrite app_nil_r|by intros id server n ?%elem_of_nil|done]|]. split; [cbn; lia|].
    split; [constructor; [by exists row|constructor]|]. by rewrite app_nil_r.
Qed.

Lemma event_row_relayed payload id : named_row (Some (relayed_event payload id)) = Some id.
Proof. unfold named_row, relayed_event. by rewrite map_get_set_eq. Qed.

Lemma ctriple_publish c k r : FRow r ∈ k_facts k → ctriple c k (publishRow r) (fun a k' =>
    k_deeds k' = k_deeds k ∧ k_staged k' = k_staged k ∧ match a with Ok _ => FPub (ob_id r) ∈ k_facts k' | Throw _ => True end).
Proof.
  intros Hf. unfold publishRow. destruct (plain_object (ob_payload r)) as [payload|] eqn:Ep; [|by apply ct_ret].
  assert (ob_payload r = JObj payload) as Hp by (destruct (ob_payload r); try done; cbn in Ep; congruence).
  apply ctriple_moved; [|done]. intros i u v x Hk [Ht Hs] [= <- <-]. pose proof Hk as (_ & Hst & Hv & Hfacts).
  rewrite Forall_forall in Hfacts. destruct (Hfacts _ Hf) as (r0 & Hr0 & Hkey). destruct (key_id _ _ Hkey) as (Hid & Hsrv & Hpay & _).
  set (e := mkEntry _ _ _). set (w := set_stream _ _ u).
  assert (entry_row e = Some (ob_id r)) as He by apply event_row_relayed.
  assert (ob_id r ∈ row_ids u) as Hin by (rewrite <-Hid; by apply list_elem_of_fmap_2).
  assert (evolves u w) as Hev.
  { split; [done|]. split; [cbn; lia|]. split; [apply grows_refl|]. split; [|by intros y Hy; left; apply elem_of_app; left].
    intros y [Hy|Hy%list_elem_of_singleton]%elem_of_app; [by left|]. right. by subst. }
  exists [], (k_staged k), (k_version k), [FPub (ob_id r)]. split; [split; [by rewrite app_nil_r|done]|]. split; [done|]. split; [|split; [cbn; lia|split]].
  - destruct Ht as [H1 H2 H3 H4 H5 H6 H7 H8 H9]. constructor; try done.
    + cbn. apply Forall_app. split; [eapply Forall_impl; [exact H5|]; intros y [? ?]; split; [lia|done]|]. constructor; [|constructor]. split; [cbn; lia|].
      intros id. rewrite He. by intros [= <-].
    + cbn. rewrite fmap_app. apply NoDup_app. split; [done|]. split; [|apply NoDup_singleton]. intros n (y & -> & Hy)%list_elem_of_fmap Hn%list_elem_of_singleton.
      cbn in Hn. rewrite Forall_forall in H5. destruct (H5 y Hy). lia.
    + intros r' Hr' Ha Hrel. destruct (H7 r' Hr' Ha Hrel) as (y & Hy & Hfr). exists y. split; [by apply elem_of_app; left|done].
  - constructor; [|constructor]. split; [done|]. intros r' Hr' Hid' _. exists e. split; [apply elem_of_app; right; by apply list_elem_of_singleton|].
    assert (r' = r0) as -> by (eapply (NoDup_fmap_inj_elem ob_id); [exact (ok_ids _ Ht)|done|done|congruence]).
    split; [by symmetry|]. exists payload. split; [congruence|]. by rewrite Hid'.
  - cbn. rewrite app_nil_r. split; [|done]. split; [done|]. split; [done|by left].
Qed.

Lemma ctriple_relay_step c k failed : k_staged k = [] → ctriple c k (relay_step c failed) (fun r k' => match r with Ok _ => k_staged k' = [] | Throw _ => True end).
Proof.
  intros Hst. apply (ct_transaction _ _ _ (fun r k' => match r with
    | Ok _ => omap finished_of (k_staged k') = [] ∧ ∀ id, Relayed_row id ∈ k_staged k' → FPub id ∈ k_facts k'
    | Throw _ => True end)); [| |done].
  2:{ intros a k' [Hf Hp]. exists []. rewrite Hf. by split_and!. }
  eapply ct_try; [apply ctriple_claim| |done]. intros [[r removed]|] k' ->.
  2:{ apply ct_ret. rewrite Hst. split; [done|]. by intros id ?%elem_of_nil. }
  destruct removed.
  - eapply ct_try; [apply ctriple_stage| |done]. intros [] k' ->. apply ct_ret. cbn. rewrite Hst. split; [done|]. by intros id ?%list_elem_of_singleton.
  - eapply ct_then; [apply ctriple_publish; by left|]. cbn [k_deeds k_staged]. intros [[]|e] k' (_ & Hs & Hpub).
    + eapply ct_try; [apply ctriple_stage| |done]. intros [] k'' ->. apply ct_ret. cbn. rewrite Hs, Hst. split; [done|].
      intros id Hid%list_elem_of_singleton. by injection Hid as ->.
    + apply ct_ret. rewrite Hs, Hst. split; [done|]. by intros id ?%elem_of_nil.
Qed.

Lemma ctriple_relay_loop c maxFailures turns k failed first failures relayed : k_staged k = [] →
  ctriple c k (relay_loop c maxFailures turns failed first failures relayed) (fun _ _ => True).
Proof.
  revert k failed first failures relayed. induction turns as [|turns IH]; intros k failed first failures relayed Hk; cbn [relay_loop];
    (destruct (_ <? _); [|by apply ct_ret]); [by apply ct_ret|].
  eapply ct_try; [by apply ctriple_relay_step| |done]. intros [| | |id e] k' Hk'; [by apply ct_ret|by apply IH..].
Qed.

(** *** The sync and the delivery *)

Lemma find_empty : findManagedSegment [] = None.
Proof. vm_compute. reflexivity. Qed.

Lemma splice_shows original inputs : inputs_ok inputs → shows (spliceManagedSegment original (build localeCompare inputs)) inputs.
Proof.
  intros Hin. unfold shows. rewrite spliceManagedSegment_eq, find_spliced; [done|apply outside_free|by apply buildManagedSegmentBody_segment].
Qed.

(** The call went on: it may have done more, and staged what finishes no row. *)
Definition idle (u : update) : Prop := match u with Audit _ _ _ _ | Failed_row _ _ => True | _ => False end.
Definition went_on (k k' : knowledge) (new : list deed) : Prop :=
  k_deeds k' = k_deeds k ++ new ∧ Forall idle (k_staged k') ∧ k_facts k' = k_facts k.

Lemma idle_finished st : Forall idle st → omap finished_of st = [].
Proof. induction 1 as [|u st Hu _ IH]; [done|]. by destruct u. Qed.
Lemma idle_unrelayed st id : Forall idle st → Relayed_row id ∉ st.
Proof. rewrite Forall_forall. intros H Hin. by apply (H _ Hin). Qed.

Lemma went_on_refl k : Forall idle (k_staged k) → went_on k k [].
Proof. intros H. split; [by rewrite app_nil_r|done]. Qed.
Lemma went_on_more k new lo : Forall idle (k_staged k) → went_on k (mkKnow (k_deeds k ++ new) (k_staged k) lo (k_facts k)) new.
Proof. done. Qed.
Lemma went_on_trans k k' k'' new new' : went_on k k' new → went_on k' k'' new' → went_on k k'' (new ++ new').
Proof. intros (H1 & _ & H3) (H4 & H5 & H6). split; [by rewrite app_assoc, H4, H1|]. split; [done|congruence]. Qed.

Lemma ctriple_audit c k action reason b a : Forall idle (k_staged k) →
  ctriple c k (safeAppendAudit c action reason b a) (fun r k' => r = Ok tt ∧ went_on k k' []).
Proof.
  intros Hk. eapply ct_then; [apply ctriple_stage|]. intros [x|e] k' H; apply ct_ret; (split; [done|]).
  - rewrite H. split; [by rewrite app_nil_r|]. split; [|done]. apply Forall_app. by split; [|constructor].
  - destruct H as (st & -> & Hst). split; [by rewrite app_nil_r|]. split; [|done]. destruct Hst as [-> | ->]; [done|]. apply Forall_app. by split; [|constructor].
Qed.

Definition synced (n : nat) (server : jstr) (opts : SyncOptions) (res : SyncResult) (new : list deed) : Prop :=
  so_mode opts = Some active → so_reload opts = false → sr_state res ≠ unreachable → placed n server new.

Lemma ctriple_sync c k server opts : Forall idle (k_staged k) →
  ctriple c k (syncServerAdminsCfgLocked hashSegment localeCompare c server opts) (fun r k' => match r with
    | Ok res => ∃ new, went_on k k' new ∧ synced (k_version k) server opts res new
    | Throw _ => True end).
Proof.
  intros Hst. unfold syncServerAdminsCfgLocked. eapply ct_try; [apply ctriple_publishStatus| |done]. intros [] k0 ->.
  eapply ct_try; [apply ctriple_snapshot| |done]. intros inputs k1 (v1 & v2 & v3 & rs & ads & cls & -> & Hin & Hv12 & Hv3 & ->).
  set (k1 := mkKnow _ _ _ _). set (tables := [Roles v1 rs; Admins v2 ads; Clans v3 cls]).
  assert (went_on k k1 tables) as Hk1 by done. destruct (counts localeCompare _) as [groups admins].
  eapply ct_then; [apply ctriple_read|]. intros read k2 (reads & -> & Hread & Hreads). set (k2 := mkKnow _ _ _ _).
  assert (went_on k k2 (tables ++ reads)) as Hk2 by (by apply (went_on_trans k k1)).
  destruct read as [original|message].
  2:{ eapply ct_try; [apply ctriple_publishStatus| |done]. intros [] k3 ->.
      eapply ct_try; [by apply ctriple_audit| |done]. intros [] k3 [_ Hk3]. apply ct_ret. exists ((tables ++ reads) ++ []). split; [by eapply went_on_trans|by intros _ _ []]. }
  set (inputs := mkInputs rs ads (Some cls)). set (hash := hashSegment (build localeCompare inputs)). set (currentHash := _ <$> findManagedSegment original).
  assert (∀ seen, (∃ content, shows content inputs ∧ seen_in server content seen) → placed (k_version k) server (tables ++ seen)) as Hplaced.
  { intros seen (content & Hshows & Hseen). by exists v1, v2, v3, rs, ads, cls, content, seen. }
  destruct (so_force opts || _) eqn:Eneeds; cbn [negb].
  - eapply ct_then; [apply ctriple_write|]. intros [x|e] k3 Hw.
    + rewrite Hw. set (k3' := mkKnow _ _ _ _).
      assert (went_on k k3' ((tables ++ reads) ++ [Wrote server (spliceManagedSegment original (build localeCompare inputs))])) as Hk3 by (by apply (went_on_trans k k2)).
      eapply ct_try; [apply ctriple_publishStatus| |done]. intros [] k4 ->.
      eapply (ct_try _ _ _ _ (fun r k' => ∃ more, went_on k3' k' more ∧ (so_reload opts = false → more = []))).
      { destruct (so_reload opts).
        - eapply triple_conseq; [apply ctriple_request|]. intros r k' [_ (more & ->)]. exists more. split; [by apply went_on_more|done].
        - apply ct_ret. exists []. split; [by apply went_on_refl|done]. }
      2:{ done. }
      intros [] k4 (more & Hk4 & Hmore). eapply ct_try; [apply ctriple_audit; apply Hk4| |done]. intros [] k5 [_ Hk5]. apply ct_ret.
      eexists. split; [eapply went_on_trans; [exact Hk3|eapply went_on_trans; [exact Hk4|exact Hk5]]|].
      intros _ Hre _. rewrite (Hmore Hre), app_nil_r, <-app_assoc. apply Hplaced. eexists. split; [by apply splice_shows|]. right. by exists reads.
    + destruct Hw as (new & ->). set (k3 := mkKnow _ _ _ _). assert (went_on k k3 ((tables ++ reads) ++ new)) as Hk3 by (by apply (went_on_trans k k2)).
      eapply ct_try; [apply ctriple_publishStatus| |done]. intros [] k4 ->.
      eapply ct_try; [by apply ctriple_audit| |done]. intros [] k4 [_ Hk4]. apply ct_ret. eexists. split; [eapply went_on_trans; [exact Hk3|exact Hk4]|]. by intros _ _ [].
  - destruct (bool_decide (currentHash = Some hash)) eqn:Ehash; cbn [negb] in *.
    + eapply ct_try; [apply ctriple_publishStatus| |done]. intros [] k3 ->. apply ct_ret. exists (tables ++ reads). split; [done|].
      intros _ _ _. apply Hplaced. bool_to_Prop. exists original. split; [exact Ehash|]. left. destruct Hread as [->|Hread]; [|done].
      exfalso. unfold currentHash in Ehash. by rewrite find_empty in Ehash.
    + eapply ct_try; [apply ctriple_publishStatus| |done]. intros [] k3 ->. apply ct_ret. exists (tables ++ reads). split; [done|].
      intros Hm _ _. rewrite Hm in Eneeds. by destruct (so_force opts).
Qed.

(** What a delivery leaves to commit: the row it finished and why, or nothing
    final. *)
Definition finished_one (id : jstr) (k' : knowledge) : Prop :=
  ∃ st outcome, Forall idle st ∧ k_staged k' = st ++ [Applied_row id outcome] ∧ justified (k_deeds k') (Finished id outcome).
Definition delivered (id : jstr) (d : delivery) (k' : knowledge) : Prop :=
  match d with Completed => finished_one id k' | Retry => Forall idle (k_staged k') end.

Definition left_by (id : jstr) (fs : list fact) (r : result fault delivery) (k' : knowledge) : Prop :=
  match r with Ok d => delivered id d k' ∧ k_facts k' = fs | Throw _ => True end.

Lemma ctriple_complete c k id outcome : Forall idle (k_staged k) → justified (k_deeds k) (Finished id outcome) →
  ctriple c k (complete c id outcome) (left_by id (k_facts k)).
Proof.
  intros Hst Hj. unfold complete, markAdminsCfgSyncApplied. case_bool_decide; [|by apply ct_ret].
  eapply ct_try; [apply ctriple_stage| |done]. intros [] k' ->. apply ct_ret. split; [|done]. exists (k_staged k), outcome. done.
Qed.

Lemma ctriple_fail c k id code : Forall idle (k_staged k) →
  ctriple c k (mark_retry c id code) (left_by id (k_facts k)).
Proof.
  intros Hst. unfold mark_retry, markAdminsCfgSyncFailed. case_bool_decide; [|by apply ct_ret].
  eapply ct_try; [apply ctriple_stage| |done]. intros [] k' ->. apply ct_ret. split; [|done]. apply Forall_app. by split; [|constructor].
Qed.

(** The end of a delivery: [more] is what it did since the file was in place. *)
Lemma ctriple_end c k id server ds more (live : bool) : Forall idle (k_staged k) → k_deeds k = ds ++ more → in_place id server ds [] →
  (live = true → more = [Reloaded server confirmed]) →
  ctriple c k (complete c id (if live then js "confirmed" else js "file_ready_for_restart"))
    (left_by id (k_facts k)).
Proof.
  intros Hst Hds (v & sync & -> & Hp) Hlive. apply ctriple_complete; [done|]. right. exists server, more. split.
  - exists v, sync. rewrite Hds, app_nil_r, <-app_assoc. done.
  - destruct live; [by intros _; apply Hlive|intros He; by vm_compute in He].
Qed.

Lemma ctriple_finish_reload c k id server : Forall idle (k_staged k) → in_place id server (k_deeds k) [] →
  ctriple c k (finish_reload c id server) (left_by id (k_facts k)).
Proof.
  intros Hst Hp. unfold finish_reload, readServerState. eapply ct_try; [apply ctriple_query| |done]. intros s1 k1 [-> _].
  destruct (isRemoved s1); [apply ctriple_complete; [done|by left]|].
  eapply (ct_then _ _ _ _ (fun o k' => ∃ more, went_on k k' more ∧ (o = Some confirmed → more = [Reloaded server confirmed]) ∧ (o = None → more = []))).
  { destruct (isLive s1).
    - eapply ct_then; [apply ctriple_confirm|]. intros o k' (more & -> & Hmore). apply ct_ret. exists more. split; [by apply went_on_more|]. split; [|done]. intros [= ->]. by apply Hmore.
    - apply ct_ret. exists []. split; [by apply went_on_refl|done]. }
  intros first k' (more & (Hds & Hst' & Hfs) & Hmore & Hnone). rewrite <-Hfs.
  destruct first as [[]|]; try (by apply ctriple_fail).
  - rewrite bool_decide_eq_true_2 by done. eapply ct_try; [apply ctriple_query| |done]. intros s2 k2 [-> _].
    destruct (isRemoved s2); [apply ctriple_complete; [done|by left]|]. rewrite andb_false_r. apply (ctriple_end _ _ _ _ _ _ _ Hst' Hds Hp). intros _. by apply Hmore.
  - rewrite bool_decide_eq_false_2 by by intros [].
    eapply ct_try; [apply ctriple_query| |done]. intros s2 k2 [-> _].
    destruct (isRemoved s2); [apply ctriple_complete; [done|by left]|]. rewrite andb_true_r.
    destruct (isLive s2); [|by apply (ctriple_end _ _ _ _ _ _ false Hst' Hds Hp)].
    rewrite Hnone, app_nil_r in Hds by done. clear Hmore Hnone.
    eapply ct_then; [apply ctriple_confirm|]. intros o k'' (more' & -> & Hmore'). set (k'' := mkKnow _ _ _ _).
    assert (went_on k' k'' more') as (Hds'' & Hst'' & Hfs'') by done. rewrite <-Hfs''.
    destruct o; try (by apply ctriple_fail). eapply ct_try; [apply ctriple_query| |done]. intros s3 k3 [-> _].
    destruct (isRemoved s3); [apply ctriple_complete; [done|by left]|]. rewrite Hds in Hds''.
    apply (ctriple_end _ _ _ _ _ _ _ Hst'' Hds'' Hp). intros _. by apply Hmore'.
Qed.

(** The work under the lock: the entry's row is finished in the end, or to be
    tried again. *)
Definition worked_on (e : entry) (id : jstr) (r : result fault delivery) (k' : knowledge) : Prop :=
  match r with
  | Ok d => FEntry e ∈ k_facts k' ∧ ((Forall idle (k_staged k') ∧ (d = Completed → FDone e ∈ k_facts k')) ∨ finished_one id k')
  | Throw _ => True
  end.
Lemma ctriple_apply c k e id : k_deeds k = [] → k_staged k = [] → FEntry e ∈ k_facts k → entry_row e = Some id →
  ctriple c k (apply_outbox hashSegment localeCompare c (en_server e) id) (worked_on e id).
Proof.
  intros Hds Hst Hf He. unfold apply_outbox. eapply ct_try; [by apply (ctriple_getOutbox _ _ e)| |done].
  intros row k1 (new & lo & fs & -> & Hfin & Hrow). rewrite Hds, Hst, app_nil_l. set (k1 := mkKnow _ _ _ _).
  assert (FEntry e ∈ k_facts k1) as Hf1 by (by apply elem_of_app; right).
  assert (finished_for e row → ctriple c k1 (Ret (Ok Completed)) (worked_on e id)) as Hdone.
  { intros H. apply ct_ret. split; [done|]. left. split; [constructor|]. intros _. cbn. rewrite (Hfin H). by left. }
  destruct row as [row|]; [|by apply Hdone].
  destruct (decide (ob_server row = en_server e)) as [Hs|Hs]; [|rewrite bool_decide_eq_false_2 by done; apply Hdone; by left].
  rewrite (bool_decide_eq_true_2 (ob_server row = en_server e)) by done. cbn [negb].
  destruct (ob_applied row) as [o|] eqn:Ea; [rewrite bool_decide_eq_true_2 by done; apply Hdone; right; by rewrite Ea|].
  rewrite bool_decide_eq_false_2 by by intros []. destruct Hrow as (Hid & -> & Hlo).
  eapply ct_try; [apply ctriple_sync; constructor| |done]. intros res k2 (new' & (Hds2 & Hst2 & Hf2) & Hsync).
  rewrite <-Hf2 in Hf1.
  assert (∀ (p : cprog (result fault delivery)), ctriple c k2 p (left_by id (k_facts k2)) →
    ctriple c k2 p (worked_on e id)) as Hweak.
  { intros p Hp. eapply triple_conseq; [exact Hp|]. unfold worked_on. intros [[]|x] k' H; [| |done]; destruct H as [Hd ->]; (split; [done|]); [by right|by left]. }
  assert (sr_state res ≠ unreachable → in_place id (en_server e) (k_deeds k2) []) as Hplace.
  { intros Hu. exists (ob_version row), new'. split; [rewrite Hds2, app_nil_r; unfold k1; cbn; by rewrite Hs|]. pose proof (Hsync eq_refl eq_refl Hu) as (v1 & v2 & v3 & rs & ads & cls & content & seen & ? & ? & ?).
    exists v1, v2, v3, rs, ads, cls, content, seen. cbn in *. split_and!; [done|lia|lia|tauto..]. }
  destruct (sr_state res) eqn:Er; apply Hweak; [apply ctriple_finish_reload; [done|by apply Hplace]..|by apply ctriple_fail|apply ctriple_finish_reload; [done|by apply Hplace]].
Qed.

Definition handled (e : entry) (d : delivery) (k' : knowledge) : Prop := FEntry e ∈ k_facts k' ∧ (d = Completed → FDone e ∈ k_facts k').

Lemma ctriple_locked_apply c k e id : k_deeds k = [] → k_staged k = [] → FEntry e ∈ k_facts k → entry_row e = Some id →
  ctriple c k (withAdminsCfgServerLock c (en_server e) (apply_outbox hashSegment localeCompare c (en_server e) id))
    (fun r k' => match r with Ok d => handled e d k' | Throw _ => True end).
Proof.
  intros Hds Hst Hf He. eapply ct_lock; [by apply (ctriple_apply _ _ e)| |done]. intros d k' [Hf' [[Hidle Hd]|(st & outcome & Hidle & Hst' & Hj)]].
  - exists []. rewrite idle_finished by done. split; [done|]. split; [by intros id' ?%idle_unrelayed|]. by split; [constructor|].
  - exists [FDone e]. rewrite Hst', omap_app, idle_finished by done. split; [by split|]. split.
    + intros id' [Hin|Hin%list_elem_of_singleton]%elem_of_app; [by apply idle_unrelayed in Hin|done].
    + split; [|split; [by right|intros _; by left]]. constructor; [|constructor]. exists e, id, outcome. split; [done|]. split; [done|]. split; [done|].
      apply elem_of_app. right. by apply list_elem_of_singleton.
Qed.

(** A sync of its own finishes no row. *)
Lemma ctriple_locked_sync c k server opts : k_staged k = [] →
  ctriple c k (syncServerAdminsCfg hashSegment localeCompare c server opts) (fun r k' => match r with Ok _ => ∀ f, f ∈ k_facts k → f ∈ k_facts k' | Throw _ => True end).
Proof.
  intros Hst. eapply ct_lock; [apply ctriple_sync; by rewrite Hst| |done]. intros res k' (new & (_ & Hidle & Hf) & _). exists [].
  rewrite idle_finished by done. split; [done|]. split; [by intros id' ?%idle_unrelayed|]. split; [constructor|]. cbn. by rewrite Hf.
Qed.

Lemma ctriple_handle c k e event : k_deeds k = [] → k_staged k = [] → FEntry e ∈ k_facts k → en_event e = Some event →
  ctriple c k (handleAdminsCfgSyncEntry hashSegment localeCompare isUuid c e event) (fun _ _ => True).
Proof.
  intros Hds Hst Hf Hev. unfold handleAdminsCfgSyncEntry.
  assert (∀ k', FEntry e ∈ k_facts k' → (FDone e ∈ k_facts k' ∨ entry_row e = None ∨ ∃ id, entry_row e = Some id ∧ isUuid id = false) →
    ctriple c k' (try _ := acknowledgeAndDeleteAdminsCfgEntry e in Ret (Ok Completed)) (fun _ _ => True)) as Hdrop.
  { intros k' Hf' Hd. eapply ct_try; [by apply ctriple_ack| |done]. intros [] k'' _. by apply ct_ret. }
  assert (entry_row e = match plain_object event with Some fields => match map_get fields (js "_outbox_id") with Some (JStr id) => Some id | _ => None end | None => None end) as Hrow.
  { unfold entry_row. rewrite Hev. by destruct event. }
  destruct (plain_object event) as [fields|]; [|apply Hdrop; auto]. destruct (map_get fields (js "_outbox_id")) as [v|].
  - destruct v; try (apply Hdrop; by auto). destruct (isUuid s) eqn:Eu; [|apply Hdrop; [done|right; right; eauto]].
    eapply ct_try; [by apply ctriple_locked_apply| |done]. intros d k' [Hf' Hd]. destruct d; [apply Hdrop; auto|by apply ct_ret].
  - eapply ct_try; [by apply ctriple_locked_sync| |done]. intros res k' Hfs. destruct (sr_state res); [apply Hdrop; auto..|by apply ct_ret|apply Hdrop; auto].
Qed.

Lemma ctriple_process c n lo : ctriple c (mkKnow [] [] lo []) (takeEntry hashSegment localeCompare isUuid c n) (fun _ _ => True).
Proof.
  unfold takeEntry, query.
  eapply (ct_try _ _ _ _ (fun r k' => match r with Ok (Some e) => k' = mkKnow [] [] lo [FEntry e] | Ok None => k' = mkKnow [] [] lo [] | Throw _ => True end)); [| |done].
  { apply ctriple_moved; [|done]. intros i u v r Hk [Ht Hs] [= <- <-]. pose proof Hk as (_ & Hst & Hv & _). set (row := List.find _ _).
    exists [], [], lo, (match row with Some e => [FEntry e] | None => [] end).
    split; [split; [by rewrite app_nil_r|split; [done|split; [done|apply evolves_refl]]]|]. split; [done|]. split; [done|]. split; [done|]. split; [|split; [by destruct row|done]].
    destruct row as [e|] eqn:E; [|constructor]. constructor; [|constructor]. apply find_some in E as [He%list_elem_of_In _].
    pose proof (ok_stream _ Ht) as Hstr. rewrite Forall_forall in Hstr. destruct (Hstr e He) as [Hlt Hknown]. split; [done|]. split; [|done].
    intros e' He' Hid. by eapply (NoDup_fmap_inj_elem en_id); [exact (ok_entries _ Ht)|..]. }
  intros [e|] k' ->; [|by apply ct_ret]. unfold handleEntry. destruct (en_event e) as [event|] eqn:Ee.
  - eapply ct_try; [apply ctriple_handle; [done|done|by left|done]| |done]. intros d k' _. by apply ct_ret.
  - eapply ct_try; [apply ctriple_ack; [by left|right; left; unfold entry_row; by rewrite Ee]| |done]. intros [] k' _. by apply ct_ret.
Qed.

(** *** The system *)

(** The database gives ids the worker takes for ids, and holds plain names. *)
Definition happening_ok (e : happening) : Prop :=
  match e with Mutate inputs _ _ ids => inputs_ok inputs ∧ Forall (fun id => isUuid id = true) ids | _ => True end.

Lemma outside_same u v : same u v → hist v = hist u → staged v = staged u → Inv u → Env u v ∧ Inv v.
Proof.
  intros Hs Hh Hst [Ht Hf]. split; [intros c; split; [by apply same_evolves|by rewrite Hh, Hst]|]. split; [|by rewrite Hh].
  eapply (same_tables 0 []); [done|by rewrite app_nil_r|by intros id server n ?%elem_of_nil|done].
Qed.

Lemma enqueue_ok ss now v payload serverIds ids :
  Forall (fun r => ob_id r ∈ ids ∧ ob_version r = v ∧ ob_relayed r = false ∧ ob_applied r = None) (enqueueAdminsCfgSyncForAllServers ss now v payload serverIds ids) ∧
  (NoDup ids → NoDup (ob_id <$> enqueueAdminsCfgSyncForAllServers ss now v payload serverIds ids)).
Proof.
  unfold enqueueAdminsCfgSyncForAllServers. generalize (match serverIds with Some l => l | None => active_servers ss end). intros targets. split.
  - revert targets. induction ids as [|id ids IH]; intros [|t targets]; cbn; try constructor; [split_and!; try done; by left|].
    eapply Forall_impl; [apply IH|]. intros r (H & ?). split; [by right|done].
  - revert targets. induction ids as [|id ids IH]; intros [|t targets] Hn; cbn; try constructor; apply NoDup_cons in Hn as [Hi Hn]; [|by apply IH].
    intros Hin. apply Hi. clear -Hin. revert targets Hin. induction ids as [|x ids IH]; intros [|t' targets]; cbn; try by intros ?%elem_of_nil.
    intros [->|Hin]%elem_of_cons; [by left|]. right. by eapply IH.
Qed.

Lemma mutate_ok inputs payload serverIds ids w : inputs_ok inputs → Forall (fun id => isUuid id = true) ids → Inv w →
  Env w (mutate inputs payload serverIds ids w) ∧ Inv (mutate inputs payload serverIds ids w).
Proof.
  intros Hin Hu Hi. unfold mutate. destruct (_ && _) eqn:E; [|by apply outside_same]. apply andb_true_iff in E as [Hn%bool_decide_eq_true Hfresh].
  destruct (enqueue_ok (servers w) (clock w) (S (version w)) payload serverIds ids) as [Hrows Hnr]. specialize (Hnr Hn).
  set (extra := enqueueAdminsCfgSyncForAllServers _ _ _ _ _ _) in *. destruct Hi as [Ht Hf]. set (v := set_world _ _ _ _ _ w).
  assert (Forall (fun x => ob_id x ∉ row_ids w) extra) as Hdisj.
  { eapply Forall_impl; [exact Hrows|]. intros r (Hid & _). rewrite forallb_forall in Hfresh. apply list_elem_of_In in Hid. specialize (Hfresh _ Hid). by bool_to_Prop. }
  assert (evolves w v) as Hev.
  { split; [cbn; lia|]. split; [done|]. split; [|split; intros e He; by left]. exists id, extra. rewrite list_fmap_id. by split_and!. }
  split; [by intros c; split|]. split; [|done]. destruct Ht as [H1 H2 H3 H4 H5 H6 H7 H8 H9]. rewrite Forall_forall in Hrows, Hdisj.
  assert (row_ids v = row_ids w ++ (ob_id <$> extra)) as Hids by (unfold row_ids; cbn; by rewrite fmap_app).
  constructor; try done; rewrite ?Hids.
  - apply NoDup_app. split; [done|]. split; [|done]. intros id Hid (r & -> & Hr)%list_elem_of_fmap. by apply (Hdisj r).
  - apply Forall_app. split; [done|]. apply Forall_fmap, Forall_forall. intros r Hr. rewrite Forall_forall in Hu. apply Hu. by apply Hrows.
  - cbn. apply Forall_app. split; [eapply Forall_impl; [exact H3|]; intros r; cbn; lia|]. apply Forall_forall. intros r Hr. by destruct (Hrows r Hr) as (_ & -> & _).
  - eapply Forall_impl; [exact H5|]. intros e [Hlt Hk]. split; [done|]. intros id Hid. rewrite Hids. apply elem_of_app. left. by apply Hk.
  - intros r [Hr|Hr]%elem_of_app Ha Hrel; [by apply H7|]. destruct (Hrows r Hr) as (_ & _ & Hf' & _). congruence.
  - intros c id server n Hg. destruct (H8 c id server n Hg) as (r & Hr & ?). exists r. split; [|done]. by apply elem_of_app; left.
  - intros r o [Hr|Hr]%elem_of_app Ha; [by apply H9|]. destruct (Hrows r Hr) as (_ & _ & _ & Hna). congruence.
Qed.

Lemma inject_ok server event w : Inv w → Env w (inject server event w) ∧ Inv (inject server event w).
Proof.
  intros Hi. unfold inject. destruct (match named_row event with Some _ => _ | None => _ end) eqn:E; [|by apply outside_same].
  set (v := set_stream _ _ w). destruct Hi as [Ht Hf].
  assert (evolves w v) as Hev.
  { split; [done|]. split; [cbn; lia|]. split; [apply grows_refl|]. split; [|intros e He; left; by apply elem_of_app; left].
    intros e [He|He%list_elem_of_singleton]%elem_of_app; [by left|]. right. by subst. }
  split; [by intros c; split|]. split; [|done]. destruct Ht as [H1 H2 H3 H4 H5 H6 H7 H8 H9]. constructor; try done; cbn.
  - apply Forall_app. split; [eapply Forall_impl; [exact H5|]; intros y [? ?]; split; [lia|done]|]. constructor; [|constructor]. split; [cbn; lia|].
    intros id. unfold entry_row. cbn. intros He. rewrite He in E. by bool_to_Prop.
  - rewrite fmap_app. apply NoDup_app. split; [done|]. split; [|apply NoDup_singleton]. intros n (y & -> & Hy)%list_elem_of_fmap Hn%list_elem_of_singleton.
    cbn in Hn. rewrite Forall_forall in H5. destruct (H5 y Hy). lia.
  - intros r Hr Ha Hrel. destruct (H7 r Hr Ha Hrel) as (y & Hy & Hfr). exists y. split; [by apply elem_of_app; left|done].
Qed.

Lemma remove_ok server w : Inv w → Env w (remove_server server w) ∧ Inv (remove_server server w).
Proof.
  intros [Ht Hf]. unfold remove_server. set (f := fun r => if bool_decide (ob_server r = server) then _ else r). set (v := set_world _ _ _ _ _ w).
  assert (∀ r, key (f r) = key r ∧ (ob_applied r ≠ None → ob_applied (f r) ≠ None)) as Hk.
  { intros r. unfold f, unless_applied. case_bool_decide; [|done]. destruct (ob_applied r) eqn:E; cbn; [by rewrite E|done]. }
  split; [intros c; split; [by eapply (evolves_rows _ _ f)|done]|]. split; [|done].
  eapply (tables_rows w v f); try done.
  - intros r Hr. unfold f, unless_applied. case_bool_decide; [|by left]. destruct (ob_applied r) eqn:E; cbn; [by rewrite E|done].
  - intros r o. unfold f, unless_applied. case_bool_decide; [|by left]. destruct (ob_applied r) eqn:E; cbn; [by left; congruence|]. intros [= <-]. auto.
Qed.

Lemma happening_kept e w : happening_ok e → Inv w → Env w (outside e w) ∧ Inv (outside e w).
Proof.
  intros He Hi. destruct e; cbn [outside]; try by apply outside_same.
  - destruct He. by apply mutate_ok.
  - by apply inject_ok.
  - by apply remove_ok.
Qed.

(** Nothing is recorded or open under the number of a call to come. *)
Definition Fresh (c : nat) (w : world) : Prop := by_call c (hist w) = [] ∧ by_call c (staged w) = [].

Lemma started_ok {A} c w (p : cprog A) (f : A → answer) : Inv w → Fresh c w → ctriple c (mkKnow [] [] 0 []) p (fun _ _ => True) →
  holds Inv G Rely Fault c (fun _ _ => True) w (await r := p in Ret (f r)).
Proof.
  intros Hi [Hh Hst] Hp. apply holds_andThen; [apply rely_same|apply rely_chain| |done].
  eapply holds_conseq; [|apply (Hp w); [|done]]; [by intros u a _ _|]. split; [done|]. split; [done|]. split; [cbn; lia|constructor].
Qed.

Lemma lower_ok e : happening_ok e → event_ok Inv G Rely Env Fault Fresh (fun _ _ _ => True) (lower e).
Proof.
  intros He. destruct e; try (intros w Hw; by apply (happening_kept _ w He)); try done.
  - intros c w Hi Hf. apply started_ok; [done|done|]. unfold relayAdminsCfgSyncOutbox. by apply ctriple_relay_loop.
  - intros c w Hi Hf. apply started_ok; [done|done|]. apply ctriple_process.
  - intros c w Hi Hf. apply started_ok; [done|done|]. unfold driftSweep. eapply triple_conseq; [by apply ctriple_locked_sync|done].
  - by destruct f.
Qed.

Lemma run_inv w es : Inv w → hist w = [] → staged w = [] → Forall happening_ok es → Inv (shared (sync_run w es)).
Proof.
  intros Hi Hh Hst Hes.
  assert (sys_ok Inv G Rely Fault Fresh (fun _ _ _ => True) (sync_run w es)) as [? _ _]; [|done].
  unfold sync_run. eapply (tasks_run_ok _ _ _ Env).
  - apply rely_same.
  - apply rely_chain.
  - intros c c' u v Hc HG. by apply HG.
  - intros c u v HE. apply HE.
  - intros c u v (_ & Hh' & Hst') [H1 H2]. split; congruence.
  - apply Forall_fmap. eapply Forall_impl; [exact Hes|]. apply lower_ok.
  - constructor; [done|by intros c p Hp; cbn in Hp; rewrite lookup_nil in Hp|]. intros c _. split; cbn; [by rewrite Hh|by rewrite Hst].
Qed.

(** * What the panel promises *)

(** C8: no change of roles is lost. Whatever the order in which relays,
    deliveries, drift checks, further changes, server removals and foreign
    stream entries interleave, and whatever calls fail, lose their answer or
    crash, a row of the outbox that is not finished still waits for a relay or
    has an entry on the stream of its server that carries its id and payload. *)
Theorem no_sync_lost w es r :
  tables_ok w → hist w = [] → staged w = [] → Forall happening_ok es → r ∈ outbox (shared (sync_run w es)) → ob_applied r = None →
  ob_relayed r = false ∨ ∃ e, e ∈ stream (shared (sync_run w es)) ∧ for_row e r.
Proof.
  intros Ht Hh Hst Hes Hr Ha. destruct (run_inv w es) as [Ht' _]; [split; [done|by rewrite Hh; apply follows_nil]|done..|].
  destruct (ob_relayed r) eqn:E; [|by left]. right. by apply (ok_lost _ Ht').
Qed.

(** C7: a row finished other than by the removal of its server was delivered.
    One call read the row, then read the roles, admins and clans, each at a
    version that has the row's change, then saw or wrote a file whose managed
    segment has the digest of what these give; and if the outcome is
    "confirmed" it had exactly one reload of that server, confirmed, after the
    file and before it finished the row. *)
Theorem applied_means_delivered w es r outcome :
  tables_ok w → hist w = [] → staged w = [] → Forall happening_ok es → r ∈ outbox (shared (sync_run w es)) →
  ob_applied r = Some outcome → outcome ≠ js "server_removed" →
  ∃ c post v1 v2 v3 rs ads cls content seen more,
    by_call c (hist (shared (sync_run w es))) =
      [Got (ob_id r) (ob_server r) (ob_version r); Roles v1 rs; Admins v2 ads; Clans v3 cls] ++ seen ++ more ++ Finished (ob_id r) outcome :: post ∧
    (ob_version r ≤ v1 ≤ v2)%nat ∧ (v2 ≤ v3)%nat ∧
    (fun l => hashSegment (segment l)) <$> findManagedSegment content = Some (hashSegment (build localeCompare (mkInputs rs ads (Some cls)))) ∧
    (seen = [Read (ob_server r) (Some content)] ∨ ∃ reads, seen = reads ++ [Wrote (ob_server r) content]) ∧
    (outcome = js "confirmed" → more = [Reloaded (ob_server r) confirmed]).
Proof.
  intros Ht Hh Hst Hes Hr Ha Hout. destruct (run_inv w es) as [Ht' Hf]; [split; [done|by rewrite Hh; apply follows_nil]|done..|].
  destruct (ok_finished _ Ht' r outcome Hr Ha) as [?|[c Hc]]; [done|]. set (w' := shared (sync_run w es)) in *.
  assert (Finished (ob_id r) outcome ∈ by_call c (hist w')) as Hin.
  { unfold by_call. apply list_elem_of_fmap. exists (c, Finished (ob_id r) outcome). split; [done|]. apply elem_of_jfilter. split; [by apply bool_decide_eq_true_2|done]. }
  apply list_elem_of_split in Hin as (pre & post & Hsplit). destruct (Hf c pre _ post Hsplit) as [?|(server & more & (v & sync & -> & Hp) & Hmore)]; [done|].
  destruct Hp as (v1 & v2 & v3 & rs & ads & cls & content & seen & -> & Hv1 & Hv2 & Hshows & Hseen).
  assert ((c, Got (ob_id r) server v) ∈ hist w') as Hgot.
  { assert (Got (ob_id r) server v ∈ by_call c (hist w')) as Hg by (rewrite Hsplit; by left). unfold by_call in Hg.
    apply list_elem_of_fmap in Hg as ([c' d] & Hd & Hg). cbn in Hd. subst d. apply elem_of_jfilter in Hg as [Hc' Hg]. cbn in Hc'. bool_to_Prop. by subst. }
  destruct (ok_got _ Ht' _ _ _ _ Hgot) as (r' & Hr' & Hid & <- & <-).
  assert (r' = r) as -> by (by eapply (NoDup_fmap_inj_elem ob_id); [exact (ok_ids _ Ht')|..]).
  exists c, post, v1, v2, v3, rs, ads, cls, content, seen, more. split; [|done]. rewrite Hsplit. by rewrite <-!app_assoc.
Qed.

(** *** Undisturbed *)

Lemma alone_publishStatus o w server make : ss_state (make 0) ≠ js "unreachable" →
  ∃ st s, alone o w (publishStatus server make) = Some (set_status st w, Ok tt) ∧ map_get st server = Some s ∧
    ss_state s = ss_state (make (clock w)) ∧ last_segment_hash s = last_segment_hash (make (clock w)).
Proof.
  intros Hu. unfold publishStatus. rewrite (bool_decide_eq_false_2 (_ = js "unreachable")) by done. cbn [orb].
  destruct (bool_decide (ss_state (make 0) = js "syncing")).
  - rewrite alone_orThrow. unfold query. cbn [alone once mbind option_bind]. eexists _, _. split; [reflexivity|]. rewrite map_get_set_eq. by split_and!.
  - cbn [alone once mbind option_bind]. eexists _, _. split; [reflexivity|]. rewrite map_get_set_eq. by split_and!.
Qed.

Lemma alone_read_file o w c server :
  alone o w (read_file c server) = Some (did c [Read server (map_get (files w) server)] w, Ok (default [] (map_get (files w) server))).
Proof.
  unfold read_file. rewrite alone_andThen. cbn [alone once mbind option_bind]. destruct (map_get (files w) server); [done|].
  assert (missing_error missing_file = true) as -> by (vm_compute; reflexivity). done.
Qed.

(** The state when [server] shows [content] as in sync and the call has only
    staged updates and recorded deeds. *)
Definition synced_world (w : world) (c : nat) (fs : list (jstr * jstr)) (st : list (jstr * SyncStatus)) (us : list update) (ds : list deed) : world :=
  mkWorld (clock w) (db w) (version w) (outbox w) (servers w) (audits w) (staged w ++ ((c,.) <$> us)) (locks w) (claims w) (open w) fs (stream w) (next_entry w) st
    (hist w ++ ((c,.) <$> ds)).
Definition read_tables (w : world) : SegmentInputs := mkInputs (roles (db w)) (admins (db w)) (Some (clan_entries (db w))).
(** The file after a sync: rewritten if the write is forced or its segment is
    not the one the tables give. *)
Definition synced_file (w : world) (force : bool) (original : jstr) : jstr :=
  let seg := build localeCompare (read_tables w) in
  if force || negb (bool_decide ((fun l => hashSegment (segment l)) <$> findManagedSegment original = Some (hashSegment seg)))
  then spliceManagedSegment original seg else original.

Lemma synced_did w c fs st us ds ds' : did c ds' (synced_world w c fs st us ds) = synced_world w c fs st us (ds ++ ds').
Proof. unfold did, synced_world. cbn. by rewrite fmap_app, app_assoc. Qed.

Lemma synced_stage w c fs st us ds u : let v := synced_world w c fs st us ds in
  set_db (outbox v) (audits v) (staged v ++ [(c, u)]) (locks v) (claims v) (open v) v = synced_world w c fs st (us ++ [u]) ds.
Proof. unfold set_db, synced_world. cbn. by rewrite fmap_app, app_assoc. Qed.
Lemma synced_write w c fs st us ds server text : let v := synced_world w c fs st us ds in
  did c [Wrote server text] (set_files (map_set (files v) server text) v) = synced_world w c (map_set fs server text) st us (ds ++ [Wrote server text]).
Proof. unfold did, set_files, synced_world. cbn. by rewrite fmap_app, app_assoc. Qed.

Lemma alone_sync o w c server opts : so_mode opts = Some active → so_reload opts = false →
  ∃ fs st us ds res, alone o w (syncServerAdminsCfgLocked hashSegment localeCompare c server opts) = Some (synced_world w c fs st us ds, Ok res) ∧
    sr_state res ≠ unreachable ∧ Forall (fun u => ∀ r, apply_update u r = r) us ∧
    default [] (map_get fs server) = synced_file w (so_force opts) (default [] (map_get (files w) server)) ∧
    (∀ x, x ≠ server → map_get fs x = map_get (files w) x) ∧
    ∃ s, map_get st server = Some s ∧ ss_state s = js "in_sync" ∧ last_segment_hash s = Some (hashSegment (build localeCompare (read_tables w))).
Proof.
  intros Hm Hre. unfold syncServerAdminsCfgLocked. rewrite alone_orThrow.
  destruct (alone_publishStatus o w server (fun _ => blank_status (js "syncing"))) as (st1 & s1 & -> & _); [done|]. cbn [mbind option_bind].
  unfold snapshotRolesAndAdmins. rewrite !alone_orThrow. cbn [alone once mbind option_bind].
  rewrite alone_orThrow. cbn [alone once mbind option_bind]. rewrite alone_orThrow. cbn [alone once mbind option_bind].
  set (w1 := did c [Clans _ _] _).
  assert (w1 = synced_world w c (files w) st1 [] [Roles (version w) (roles (db w)); Admins (version w) (admins (db w)); Clans (version w) (clan_entries (db w))]) as ->.
  { unfold w1, did, synced_world, set_status. cbn. by rewrite <-!app_assoc, app_nil_r. }
  destruct (counts localeCompare _) as [groups admins_]. rewrite alone_andThen, alone_read_file, synced_did. cbn [mbind option_bind].
  change (mkInputs _ _ _) with (read_tables w). change (files (synced_world _ _ _ _ _ _)) with (files w). set (original := default [] (map_get (files w) server)).
  match goal with |- context [synced_world w c (files w) st1 [] ?ds] => set (tables := ds) end. set (w2 := synced_world _ _ _ _ _ tables). set (shown := _ <$> findManagedSegment original). rewrite Hm, Hre. cbn [negb andb].
  set (hash := hashSegment (build localeCompare (read_tables w))).
  destruct (so_force opts || negb (bool_decide (shown = Some hash))) eqn:En; cbn [negb].
  - rewrite alone_andThen. unfold write_file. cbn [alone once mbind option_bind]. rewrite alone_orThrow. set (text := spliceManagedSegment _ _).
    unfold w2. rewrite synced_write. set (w3 := synced_world _ _ _ _ _ _).
    match goal with |- context [publishStatus server ?make] => destruct (alone_publishStatus o w3 server make) as (st2 & s2 & Hst & Hs2 & Hss & Hsh); [by vm_compute|rewrite Hst] end.
    cbn [mbind option_bind]. rewrite alone_orThrow. cbn [alone mbind option_bind]. rewrite alone_orThrow. unfold safeAppendAudit. rewrite alone_andThen. unfold stage.
    cbn [alone once mbind option_bind]. change (set_status st2 w3) with (synced_world w c (map_set (files w) server text) st2 [] (tables ++ [Wrote server text])).
    rewrite synced_stage. eexists _, _, _, _, _. split; [reflexivity|].
    split; [done|]. split; [by repeat constructor|]. split; [|split; [intros x Hx; by rewrite map_get_set_ne|]].
    + rewrite map_get_set_eq. unfold synced_file. cbv zeta. fold hash shown. by rewrite En.
    + exists s2. by split_and!.
  - apply orb_false_iff in En as [Ef Eh]. rewrite Eh. rewrite alone_orThrow.
    match goal with |- context [publishStatus server ?make] => destruct (alone_publishStatus o w2 server make) as (st2 & s2 & Hst & Hs2 & Hss & Hsh); [by vm_compute|rewrite Hst] end.
    cbn [alone mbind option_bind]. eexists (files w), st2, [], _, _. split; [reflexivity|]. split; [done|]. split; [constructor|]. split; [|split; [done|exists s2; by split_and!]].
    unfold synced_file. cbv zeta. fold hash shown original. by rewrite Ef, Eh.
Qed.

Lemma map_get_released (m : list (jstr * nat)) k c : map_get m k = None → map_get (not_held c (map_set m k c)) k = None.
Proof.
  unfold not_held, jfilter. induction m as [|[k' v] m IH]; cbn [map_get map_set List.filter].
  - intros _. cbn. by rewrite bool_decide_eq_true_2.
  - destruct (bool_decide (k' = k)) eqn:E; [done|]. intros Hm. cbn [List.filter snd]. destruct (negb _); cbn [map_get]; [rewrite E|]; by apply IH.
Qed.

(** The end of a delivery with the file in place on a live server. *)
Lemma alone_finish_reload w c id server s : map_get (servers w) server = Some s → isLive (Some s) = true →
  alone confirmed w (finish_reload c id server) =
    Some (set_db (outbox w) (audits w) (staged w ++ [(c, Applied_row id (js "confirmed"))]) (locks w) (claims w) (open w) (did c [Reloaded server confirmed] w), Ok Completed).
Proof.
  intros Hs Hl. assert (isRemoved (Some s) = false) as Hr by (cbn in *; by destruct (srv_removed s)).
  unfold finish_reload, readServerState, query. rewrite alone_orThrow. cbn [alone once mbind option_bind]. rewrite Hs, Hr, Hl. rewrite !alone_andThen. unfold confirmReload.
  rewrite alone_andThen. cbn [alone once mbind option_bind]. rewrite (bool_decide_eq_true_2 (is_Some (Some confirmed))) by done. cbn zeta.
  rewrite alone_orThrow. cbn [alone once mbind option_bind]. change (servers (did _ _ w)) with (servers w). rewrite Hs, Hr, Hl. cbn [andb negb].
  unfold complete. rewrite alone_orThrow. unfold markAdminsCfgSyncApplied. rewrite bool_decide_eq_true_2 by by left. unfold stage. reflexivity.
Qed.

(** The work under the lock for a row that is still to be applied. *)
Lemma alone_apply w c r s : List.find (fun x => bool_decide (ob_id x = ob_id r)) (outbox w) = Some r → ob_applied r = None →
  map_get (servers w) (ob_server r) = Some s → isLive (Some s) = true →
  ∃ fs st us ds, alone confirmed w (apply_outbox hashSegment localeCompare c (ob_server r) (ob_id r)) =
      Some (synced_world w c fs st (us ++ [Applied_row (ob_id r) (js "confirmed")]) ds, Ok Completed) ∧ Forall (fun u => ∀ r, apply_update u r = r) us ∧
    default [] (map_get fs (ob_server r)) =
      synced_file w (so_force (syncParameters (ob_payload r) (Some active) false)) (default [] (map_get (files w) (ob_server r))) ∧
    (∀ x, x ≠ ob_server r → map_get fs x = map_get (files w) x) ∧
    ∃ s, map_get st (ob_server r) = Some s ∧ ss_state s = js "in_sync" ∧ last_segment_hash s = Some (hashSegment (build localeCompare (read_tables w))).
Proof.
  intros Hr Ha Hs Hl. unfold apply_outbox. rewrite alone_orThrow. unfold getAdminsCfgSyncOutboxState. cbn [alone once mbind option_bind].
  rewrite Hr, Ha. rewrite (bool_decide_eq_true_2 (ob_server r = ob_server r)), (bool_decide_eq_false_2 (is_Some None)) by (done || by intros []). cbn [negb].
  rewrite alone_orThrow. set (w1 := did c _ w).
  destruct (alone_sync confirmed w1 c (ob_server r) (syncParameters (ob_payload r) (Some active) false)) as (fs & st & us & ds & res & -> & Hres & Hus & Hfile & Hrest & Hst); [done|done|].
  cbn [mbind option_bind]. set (w2 := synced_world w1 c fs st us ds).
  assert (alone confirmed w2 (match sr_state res with unreachable => mark_retry c (ob_id r) (js "unavailable") | _ => finish_reload c (ob_id r) (ob_server r) end) =
    alone confirmed w2 (finish_reload c (ob_id r) (ob_server r))) as -> by (by destruct (sr_state res)).
  rewrite (alone_finish_reload w2 c _ _ s) by done.
  exists fs, st, us, ([Got (ob_id r) (ob_server r) (ob_version r)] ++ ds ++ [Reloaded (ob_server r) confirmed]). split; [|done].
  f_equal. f_equal. unfold w2, w1, set_db, did, synced_world. cbn [clock db version outbox servers audits staged locks claims open files stream next_entry status hist].
  rewrite !fmap_app, <-!app_assoc. reflexivity.
Qed.

(** C27: a delivery that is left alone does its work: with the lock free, the
    server live and the reload confirmed, taking the entry of a pending row ends
    with the server's file rewritten from the tables as they are (unless it
    shows them already), no other file touched, the row confirmed, the entry
    off its stream, the lock free and the status "in_sync". *)
Theorem delivery_alone w c n e r s :
  List.find (fun e => bool_decide (en_id e = n)) (stream w) = Some e → for_row e r → isUuid (ob_id r) = true →
  List.find (fun x => bool_decide (ob_id x = ob_id r)) (outbox w) = Some r → ob_applied r = None →
  map_get (servers w) (ob_server r) = Some s → isLive (Some s) = true →
  map_get (locks w) (ob_server r) = None → by_call c (staged w) = [] →
  ∃ w', alone confirmed w (takeEntry hashSegment localeCompare isUuid c n) = Some (w', Ok (Some Completed)) ∧
    default [] (map_get (files w') (ob_server r)) =
      synced_file w (so_force (syncParameters (ob_payload r) (Some active) false)) (default [] (map_get (files w) (ob_server r))) ∧
    (∀ x, x ≠ ob_server r → map_get (files w') x = map_get (files w) x) ∧
    outbox w' = on_row (ob_id r) (unless_applied (set_applied (js "confirmed"))) <$> outbox w ∧
    stream w' = jfilter (fun x => negb (bool_decide (en_server x = en_server e) && bool_decide (en_id x = en_id e))) (stream w) ∧
    map_get (locks w') (ob_server r) = None ∧
    (∃ s, map_get (status w') (ob_server r) = Some s ∧ ss_state s = js "in_sync" ∧ last_segment_hash s = Some (hashSegment (build localeCompare (read_tables w)))).
Proof.
  intros He (Hsrv & payload & Hp & Hev) Hu Hr Ha Hs Hl Hlock Hst. unfold takeEntry, query. rewrite alone_orThrow. cbn [alone once mbind option_bind]. rewrite He.
  unfold handleEntry. rewrite Hev, alone_orThrow. unfold handleAdminsCfgSyncEntry, relayed_event. cbn [plain_object]. rewrite map_get_set_eq, Hu, alone_orThrow, Hsrv.
  unfold withAdminsCfgServerLock, in_transaction. rewrite alone_orThrow. cbn [alone once begin_tx mbind option_bind]. rewrite alone_andThen, alone_orThrow.
  cbn [alone once mbind option_bind locks set_db]. rewrite Hlock. cbn [mbind option_bind]. set (w1 := set_db _ _ _ (map_set _ _ _) _ _ _).
  destruct (alone_apply w1 c r s Hr Ha Hs Hl) as (fs & st & us & ds & -> & Hus & Hfile & Hrest & Hstatus).
  cbn [mbind option_bind]. set (w2 := synced_world _ _ _ _ _ _). rewrite alone_orThrow. unfold commit. rewrite alone_orThrow. cbn [alone once mbind option_bind].
  rewrite (bool_decide_eq_true_2 (c ∈ open w2)) by by left. cbn [alone once mbind option_bind]. rewrite alone_orThrow.
  unfold acknowledgeAndDeleteAdminsCfgEntry. cbn [alone once mbind option_bind]. eexists. split; [reflexivity|].
  split; [exact Hfile|]. split; [exact Hrest|]. split; [|split; [by rewrite <-Hsrv|split; [by apply map_get_released|exact Hstatus]]].
  assert (by_call c (staged w2) = us ++ [Applied_row (ob_id r) (js "confirmed")]) as Hmine.
  { unfold w2, synced_world, w1. cbn [staged set_db]. by rewrite by_call_app, by_call_own, Hst. }
  cbn [outbox set_stream commit_world did close_tx set_db]. rewrite Hmine. change (outbox w2) with (outbox w). apply list_fmap_ext. intros i x _.
  clear -Hus. rewrite foldl_app. cbn. f_equal. revert x. induction Hus as [|u us Hu _ IH]; intros x; [done|]. cbn. by rewrite Hu.
Qed.
End System.

(** ** The backoff *)

(** After [n] failures in a row a server is skipped for 5 seconds times two to
    the [n], five minutes at most; a success ends it. *)
Lemma backoff_delays backoff server ts t : map_get backoff server = None →
  let delay := Z.min (5000 * 2 ^ Z.of_nat (S (length ts))) 300000 in
  map_get (foldl (fun b t => recordOutcome b t server false) backoff (ts ++ [t])) server = Some (delay, t + delay).
Proof.
  intros Hb. revert t. induction ts as [|u ts IH] using rev_ind; intros t.
  - cbn [app foldl length]. unfold recordOutcome. rewrite Hb, map_get_set_eq. done.
  - rewrite foldl_app. cbn [foldl]. unfold recordOutcome at 1. rewrite IH, map_get_set_eq. rewrite length_app. cbn [length].
    replace (S (length ts + 1)) with (S (S (length ts))) by lia.
    rewrite (Nat2Z.inj_succ (S _)), Z.pow_succ_r by lia. f_equal. assert (0 < 2 ^ Z.of_nat (S (length ts))) by (apply Z.pow_pos_nonneg; lia).
    f_equal; lia.
Qed.
Lemma backoff_ends backoff now now' server : map_ok backoff → shouldSkip (recordOutcome backoff now server true) now' server = false.
Proof. intros Hb. unfold shouldSkip, recordOutcome. rewrite map_get_delete by done. by rewrite bool_decide_eq_true_2. Qed.

(** ** Concrete runs *)

Definition ex_isUuid (s : jstr) : bool := negb (bool_decide (s = [])).
Definition ex_payload : json := JObj [(js "reason", JStr (js "role.update"))].
Definition ex_world : world :=
  mkWorld 1000 (mkInputs [] [] None) 0 [] [(js "s1", mkServer (js "running") false true)] [] [] [] [] [] [(js "s1", js "Group=Old:ban")] [] 0 [] [].

(** A change of roles, its relay, a delivery that crashes before its commit,
    and the next one, which finds the file in place. *)
Definition ex_steps (c n : nat) : list happening := replicate n (StepOf c Done confirmed).
Definition ex_events : list happening :=
  [Mutate ex_inputs ex_payload None [js "r1"]; Relay 3] ++ ex_steps 0 12 ++ [Deliver 0] ++ ex_steps 1 15 ++ [CrashOf 1; Lost 1; Ticks 5000; Deliver 0] ++ ex_steps 2 20.
Notation ex_end := (shared (sync_run (fun s => s) str_cmp ex_isUuid ex_world ex_events)).

Example ex_end_rows : (ob_applied <$> outbox ex_end, length (stream ex_end), locks ex_end) = ([Some (js "confirmed")], 0%nat, []).
Proof. vm_compute. reflexivity. Qed.
Example ex_end_file : files ex_end = [(js "s1", spliceManagedSegment (js "Group=Old:ban") (build str_cmp ex_inputs))].
Proof. vm_compute. reflexivity. Qed.

Lemma ex_world_ok : tables_ok ex_isUuid ex_world.
Proof.
  constructor; try (by constructor); cbn.
  - split_and!; cbn; [by intros r p ?%elem_of_nil|by intros a ?%elem_of_nil|by intros e ?%elem_of_nil].
  - by intros r ?%elem_of_nil.
  - by intros c id server v ?%elem_of_nil.
  - by intros r o ?%elem_of_nil.
Qed.
Lemma ex_events_ok : Forall (happening_ok ex_isUuid) ex_events.
Proof.
  unfold ex_events. rewrite !Forall_app. split_and!; try (by apply Forall_replicate).
  - constructor; [split; [apply ex_inputs_ok|by repeat constructor]|by repeat constructor].
  - by repeat constructor.
  - by repeat constructor.
Qed.

Lemma no_sync_lost_witness :
  Forall (fun r => ob_relayed r = false ∨ ∃ e, e ∈ stream ex_end ∧ for_row e r) (jfilter (fun r => bool_decide (ob_applied r = None)) (outbox ex_end)).
Proof.
  apply Forall_forall. intros r Hr. apply elem_of_jfilter in Hr as [Ha Hr]. apply bool_decide_eq_true in Ha.
  exact (no_sync_lost (fun s => s) str_cmp ex_isUuid ex_world ex_events r ex_world_ok eq_refl eq_refl ex_events_ok Hr Ha).
Defined.

Lemma applied_means_delivered_witness : ∃ r c post v1 v2 v3 rs ads cls content seen more,
  r ∈ outbox ex_end ∧
  by_call c (hist ex_end) =
    [Got (ob_id r) (ob_server r) (ob_version r); Roles v1 rs; Admins v2 ads; Clans v3 cls] ++ seen ++ more ++ Finished (ob_id r) (js "confirmed") :: post ∧
  (ob_version r ≤ v1 ≤ v2)%nat ∧ (v2 ≤ v3)%nat ∧
  (fun l => segment l) <$> findManagedSegment content = Some (build str_cmp (mkInputs rs ads (Some cls))) ∧
  (seen = [Read (ob_server r) (Some content)] ∨ ∃ reads, seen = reads ++ [Wrote (ob_server r) content]) ∧ more = [Reloaded (ob_server r) confirmed].
Proof.
  assert (∃ r, r ∈ outbox ex_end ∧ ob_applied r = Some (js "confirmed")) as (r & Hr & Ha).
  { assert (ob_applied <$> outbox ex_end = [Some (js "confirmed")]) as H by (vm_compute; reflexivity).
    apply (f_equal (fun l => l !! 0%nat)) in H. rewrite list_lookup_fmap in H. destruct (outbox _ !! 0%nat) as [r|] eqn:E; [|done].
    exists r. split; [by eapply list_elem_of_lookup_2|]. by injection H. }
  destruct (applied_means_delivered (fun s => s) str_cmp ex_isUuid ex_world ex_events r (js "confirmed") ex_world_ok eq_refl eq_refl ex_events_ok Hr Ha)
    as (c & post & v1 & v2 & v3 & rs & ads & cls & content & seen & more & H1 & H2 & H3 & H4 & H5 & H6); [done|].
  exists r, c, post, v1, v2, v3, rs, ads, cls, content, seen, more. split; [done|]. split; [done|]. split; [done|]. split; [done|]. split; [done|].
  split; [done|]. by apply H6.
Defined.

(** The change is relayed and its delivery is left alone. *)
Definition ex_relayed : world :=
  mkWorld 1000 ex_inputs 1 [mkRow (js "r1") (js "s1") ex_payload 900 1 true None None] [(js "s1", mkServer (js "running") false true)] [] [] [] [] []
    [(js "s1", js "Group=Old:ban")] [mkEntry (js "s1") 0 (Some (relayed_event [(js "reason", JStr (js "role.update"))] (js "r1")))] 1 [] [].

Lemma delivery_alone_witness : ∃ w', alone confirmed ex_relayed (takeEntry (fun s => s) str_cmp ex_isUuid 0 0) = Some (w', Ok (Some Completed)) ∧
  default [] (map_get (files w') (js "s1")) = spliceManagedSegment (js "Group=Old:ban") (build str_cmp ex_inputs) ∧
  ob_applied <$> outbox w' = [Some (js "confirmed")] ∧ stream w' = [].
Proof.
  set (r := mkRow (js "r1") (js "s1") ex_payload 900 1 true None None).
  set (e := mkEntry (js "s1") 0 (Some (relayed_event [(js "reason", JStr (js "role.update"))] (js "r1")))).
  destruct (delivery_alone (fun s => s) str_cmp ex_isUuid ex_relayed 0 0 e r (mkServer (js "running") false true)) as (w' & H1 & H2 & _ & H4 & H5 & _);
    [reflexivity| |reflexivity..|].
  { split; [reflexivity|]. by eexists. }
  exists w'. split; [exact H1|]. split; [etrans; [exact H2|vm_compute; reflexivity]|]. split; [rewrite H4; vm_compute; reflexivity|]. rewrite H5. vm_compute. reflexivity.
Defined.
