(* ===== verification/LiveSocket.v ===== *)
(** [apps/api/src/routes/live.ts], with [lib/server-ring-buffer.ts], [lib/ws-send.ts]
    and the tables of [plugins/live-bus.ts]: the push channel of the API, one
    socket with its subscriptions, its permissions, its keep-alive and the tails
    it is sent. *)
From S2P Require Import Prelude JsString JsMap JsJson Rbac.

(** * Events *)

Record LiveEvent := mkEvent { ev_type : jstr; ev_ts : jstr; ev_data : list (jstr * json) }.

Inductive audience := To_server | To_combat.
Inductive delivery_kind := Broadcast | Opt_in.

Definition tagged {A} (a : A) (l : list string) : list (jstr * A) := (fun t => (js t, a)) <$> l.

Definition LIVE_EVENT_AUDIENCE : list (jstr * audience) :=
  tagged To_server ["server.status"; "server.deleted"; "server.restored"; "rcon.status"; "server.events.appended"; "rcon.roster";
      "server.seeding"; "bridge.connection"; "note.created"; "note.updated"; "note.deleted"; "mark_type.changed"; "session.revoked"; "issue.created";
      "issue.updated"; "issue.comment.created"; "mark.changed"; "chat.message"]%string
  ++ tagged To_combat ["combat.event"; "combat.vehicle"]%string
  ++ tagged To_server ["vote.ended"; "report.created"; "report.updated"; "appeal.created"; "appeal.updated"; "server.map.changed";
      "externalban.matched"; "media.uploaded"; "alert.triggered"]%string.
Definition EVENT_DELIVERY : list (jstr * delivery_kind) :=
  tagged Broadcast ["alert.triggered"; "appeal.created"; "appeal.updated"; "bridge.connection"]%string
  ++ tagged Opt_in ["chat.message"; "combat.event"; "combat.vehicle"; "externalban.matched"]%string
  ++ tagged Broadcast ["issue.comment.created"; "issue.created"; "issue.updated"; "mark.changed"; "mark_type.changed"; "media.uploaded";
      "note.created"; "note.deleted"; "note.updated"]%string
  ++ [(js "rcon.roster", Opt_in)]
  ++ tagged Broadcast ["rcon.status"; "report.created"; "report.updated"; "server.deleted"; "server.events.appended"; "server.map.changed";
      "server.restored"; "server.seeding"; "server.status"; "session.revoked"; "vote.ended"]%string.
Definition isBroadcast (t : jstr) : bool := match map_get EVENT_DELIVERY t with Some Broadcast => true | _ => false end.
Definition isLiveEventType (t : jstr) : bool := map_has LIVE_EVENT_AUDIENCE t.

(** [toLiveFrame]: what is forwarded of a frame another process published. *)
Definition toLiveFrame (frame : json) : option (LiveEvent * option json) :=
  match frame with
  | JObj fields =>
      match map_get fields (js "type"), map_get fields (js "ts"), map_get fields (js "data") with
      | Some (JStr t), Some (JStr ts), Some (JObj data) =>
          if isLiveEventType t then Some (mkEvent t ts data, map_get fields (js "_origin")) else None
      | _, _, _ => None
      end
  | _ => None
  end.

(** ** The bus *)

(** [{ ...event, _origin }], as [publish] puts it on Redis. *)
Definition wire (instanceId : jstr) (e : LiveEvent) : json :=
  JObj [(js "type", JStr (ev_type e)); (js "ts", JStr (ev_ts e)); (js "data", JObj (ev_data e)); (js "_origin", JStr instanceId)].
(** A message of another process or of our own, parsed: what is emitted here. *)
Definition onBusMessage (instanceId : jstr) (parsed : option json) : option LiveEvent :=
  match parsed with
  | None => None
  | Some raw =>
      match toLiveFrame raw with
      | None => None
      | Some (e, origin) => match origin with Some (JStr o) => if bool_decide (o = instanceId) then None else Some e | _ => Some e end
      end
  end.
(** [publish]: emitted here, and put on Redis for everyone. *)
Definition publish (instanceId : jstr) (e : LiveEvent) : LiveEvent * json := (e, wire instanceId e).

(** * The tails *)

(** A ring keeps the last events of one type per server. *)
Definition ring := list (jstr * list LiveEvent).
Definition text_field (data : list (jstr * json)) (k : jstr) : option jstr := match map_get data k with Some (JStr s) => Some s | _ => None end.
Definition server_of (e : LiveEvent) : jstr := default [] (text_field (ev_data e) (js "server_id")).
Definition ring_push (eventType : jstr) (capacity : nat) (e : LiveEvent) (b : ring) : ring :=
  if bool_decide (ev_type e = js "server.deleted") then map_delete b (server_of e)
  else if negb (bool_decide (ev_type e = eventType)) then b
  else
    let bucket := default [] (map_get b (server_of e)) ++ [e] in
    map_set b (server_of e) (drop (length bucket - capacity) bucket).
Definition ring_tail (b : ring) : list LiveEvent := concat b.*2.

(** * One socket *)

Definition PING_INTERVAL_MS : Z := 10000.
Definition PONG_TIMEOUT_MS : Z := 30000.
Definition DEFAULT_REVALIDATE_INTERVAL_MS : Z := 30000.
Definition MAX_BUFFERED_BYTES : Z := 4 * 1024 * 1024.
Definition WS_MAX_BUFFERED_BYTES : Z := 4 * 1024 * 1024.
Definition CHAT_BUFFER_PER_SERVER : nat := 100.
Definition COMBAT_BUFFER_PER_SERVER : nat := 100.
Definition MAX_CLIENT_FRAMES_PER_INTERVAL : Z := 20.
Definition WS_CLOSE_POLICY_VIOLATION : Z := 1008.
Definition MAX_SUBSCRIPTION_EVENTS : nat := 64.
Definition MAX_EVENT_TYPE_LENGTH : nat := 64.
Definition WS_CLOSE_SESSION_REVOKED : Z := 4001.
Definition WS_CLOSE_FORBIDDEN : Z := 4003.

(** Who is connected: the ids of the upgrade. *)
Record connection := mkConnection { connectionPlayerId : option jstr; connectionSessionId : option jstr; connectionApiTokenId : option jstr }.

Inductive frame := Live (e : LiveEvent) | Ping (ts : Z) | Subscribed (events : list jstr) | Unsubscribed (events : list jstr).
Inductive socket_output := Sent (f : frame) | Closed (code : Z) | Terminated.

(** The API's two rings and the state of the socket; [buffered] is what it has
    not sent to the network. *)
Record live_state := mkLive {
  chatBuffer : ring;
  combatBuffer : ring;
  closed : bool;
  forwarding : bool;
  lastPongAt : Z;
  clientFramesThisInterval : Z;
  canViewCombat : bool;
  canAssign : bool;
  subscribedEvents : list jstr;
  revalidating : bool;
  buffered : Z;
}.
Definition set_ws (st : live_state) (c : bool) (b : Z) : live_state :=
  mkLive (chatBuffer st) (combatBuffer st) c (forwarding st) (lastPongAt st) (clientFramesThisInterval st) (canViewCombat st) (canAssign st)
    (subscribedEvents st) (revalidating st) b.
Definition set_subscribed (st : live_state) (l : list jstr) : live_state :=
  mkLive (chatBuffer st) (combatBuffer st) (closed st) (forwarding st) (lastPongAt st) (clientFramesThisInterval st) (canViewCombat st) (canAssign st)
    l (revalidating st) (buffered st).
Definition set_client (st : live_state) (pong frames : Z) : live_state :=
  mkLive (chatBuffer st) (combatBuffer st) (closed st) (forwarding st) pong frames (canViewCombat st) (canAssign st)
    (subscribedEvents st) (revalidating st) (buffered st).
Definition set_access (st : live_state) (combat assign busy : bool) : live_state :=
  mkLive (chatBuffer st) (combatBuffer st) (closed st) (forwarding st) (lastPongAt st) (clientFramesThisInterval st) combat assign
    (subscribedEvents st) busy (buffered st).
Definition set_rings (st : live_state) (chat combat : ring) (fwd : bool) : live_state :=
  mkLive chat combat (closed st) fwd (lastPongAt st) (clientFramesThisInterval st) (canViewCombat st) (canAssign st)
    (subscribedEvents st) (revalidating st) (buffered st).

(** The state of a socket just upgraded. *)
Definition upgraded (chat combat : ring) (now : Z) (p : PermissionContext) : live_state :=
  mkLive chat combat false true now 0 (combatView p) (canAssignRoles p) [] false 0.

Section Socket.
(** The length of a frame on the wire and the limit the route was given. *)
Context (size : frame → Z) (maxBufferedBytes : Z).

Definition sendUnlessStalled (f : frame) (st : live_state) : live_state * list socket_output :=
  if maxBufferedBytes <? buffered st then (set_ws st true (buffered st), [Terminated])
  else (set_ws st (closed st) (buffered st + size f), [Sent f]).
Definition safeSend (f : frame) (st : live_state) : live_state * list socket_output :=
  if closed st then (st, [])
  else if MAX_BUFFERED_BYTES <? buffered st then (st, [])
  else sendUnlessStalled f st.
Fixpoint sendAll (fs : list frame) (st : live_state) : live_state * list socket_output :=
  match fs with
  | [] => (st, [])
  | f :: fs => let '(st, out) := safeSend f st in let '(st, out') := sendAll fs st in (st, out ++ out')
  end.
Definition closeSocket (code : Z) (st : live_state) : live_state * list socket_output :=
  if closed st then (st, []) else (set_ws st true (buffered st), [Closed code]).

(** ** Permissions over time *)

Inductive Revalidation := Still (permissions : PermissionContext) | Gone (code : Z).
(** [revalidate], given what the lookups answer: the session of the cookie with
    its scope, the token's scopes, the player's role. *)
Definition revalidate (conn : connection) (session : option (jstr * jstr)) (token : option (list jstr)) (role : PermissionContext) : Revalidation :=
  let check (scopes : option (list jstr)) (selfService : bool) :=
    let p := match scopes with None => role | Some s => narrowToTokenScopes role s end in
    if (selfService && negb (panelAccess p)) || negb (bool_decide (js "server:view" ∈ permissions p)) then Gone WS_CLOSE_FORBIDDEN else Still p in
  match connectionPlayerId conn with
  | None => Gone WS_CLOSE_SESSION_REVOKED
  | Some _ =>
      match connectionSessionId conn, connectionApiTokenId conn with
      | Some id, _ =>
          match session with
          | Some (sid, scope) => if bool_decide (sid = id) then check None (bool_decide (scope = js "self_service")) else Gone WS_CLOSE_SESSION_REVOKED
          | None => Gone WS_CLOSE_SESSION_REVOKED
          end
      | None, Some _ => match token with Some scopes => check (Some scopes) false | None => Gone WS_CLOSE_SESSION_REVOKED end
      | None, None => Gone WS_CLOSE_SESSION_REVOKED
      end
  end.

(** ** Forwarding *)

(** [event.data.player_id !== connectionPlayerId], negated. *)
Definition for_player (conn : connection) (e : LiveEvent) : bool :=
  match map_get (ev_data e) (js "player_id"), connectionPlayerId conn with
  | Some (JStr p), Some q => bool_decide (p = q)
  | Some JNull, None => true
  | _, _ => false
  end.
Definition event_kind (e : LiveEvent) : option jstr := text_field (ev_data e) (js "event_kind").
Definition has_kind (e : LiveEvent) (k : jstr) : bool := bool_decide (event_kind e = Some k).
Definition is_type (e : LiveEvent) (t : jstr) : bool := bool_decide (ev_type e = t).
Definition is_combat (t : jstr) : bool := match map_get LIVE_EVENT_AUDIENCE t with Some To_combat => true | _ => false end || starts_with (js "combat.") t.

(** The filters of the bus listener but for [session.revoked]. *)
Definition refused (conn : connection) (st : live_state) (e : LiveEvent) : bool :=
  (is_type e (js "alert.triggered") && (has_kind e (js "seed.call_sent") || has_kind e (js "server.seeding_started"))
     && bool_decide (is_Some (text_field (ev_data e) (js "player_id"))) && negb (for_player conn e))
  || (is_type e (js "alert.triggered") && (has_kind e (js "role_expiring") || has_kind e (js "subscription_expired")) && negb (canAssign st))
  || (is_type e (js "media.uploaded") && negb (for_player conn e))
  || (is_combat (ev_type e) && negb (canViewCombat st))
  || (negb (isBroadcast (ev_type e)) && negb (bool_decide (ev_type e ∈ subscribedEvents st))).
Definition forward (conn : connection) (e : LiveEvent) (st : live_state) : live_state * list socket_output :=
  if is_type e (js "session.revoked") then
    if negb (for_player conn e) then (st, [])
    else
      let '(st, out) := safeSend (Live e) st in
      if bool_decide (is_Some (connectionSessionId conn)) && bool_decide (text_field (ev_data e) (js "session_id") = connectionSessionId conn)
      then let '(st, out') := closeSocket WS_CLOSE_SESSION_REVOKED st in (st, out ++ out')
      else (st, out)
  else if refused conn st e then (st, [])
  else safeSend (Live e) st.

(** ** Client frames *)

Definition subscriptionEvents (v : option json) : option (list jstr) :=
  match v with
  | Some (JArr items) =>
      if (MAX_SUBSCRIPTION_EVENTS <? length items)%nat then None
      else mapM (fun v => match v with
                          | JStr s => if bool_decide (s = []) || (MAX_EVENT_TYPE_LENGTH <? length s)%nat then None else Some s
                          | _ => None
                          end) items
  | _ => None
  end.
(** One type: its tail comes with it. *)
Definition subscribeOne (t : jstr) (st : live_state) : live_state * list socket_output :=
  if bool_decide (t ∈ subscribedEvents st) then (st, [])
  else
    let st := set_subscribed st (subscribedEvents st ++ [t]) in
    if bool_decide (t = js "chat.message") then sendAll (Live <$> ring_tail (chatBuffer st)) st
    else if bool_decide (t = js "combat.event") && canViewCombat st then sendAll (Live <$> ring_tail (combatBuffer st)) st
    else (st, []).
Fixpoint subscribeAll (ts : list jstr) (st : live_state) : live_state * list socket_output :=
  match ts with
  | [] => (st, [])
  | t :: ts => let '(st, out) := subscribeOne t st in let '(st, out') := subscribeAll ts st in (st, out ++ out')
  end.
Definition subscribeEvents (ts : list jstr) (st : live_state) : live_state * list socket_output :=
  let '(st, out) := subscribeAll ts st in
  let '(st, out') := safeSend (Subscribed (subscribedEvents st)) st in (st, out ++ out').
Definition without (ts l : list jstr) : list jstr := jfilter (fun x => negb (bool_decide (x ∈ ts))) l.
Definition unsubscribeEvents (ts : list jstr) (st : live_state) : live_state * list socket_output :=
  let st := set_subscribed st (without ts (subscribedEvents st)) in safeSend (Unsubscribed (subscribedEvents st)) st.

(** A message of the client; [None] is not JSON. *)
Definition onMessage (now : Z) (raw : option json) (st : live_state) : live_state * list socket_output :=
  let st := set_client st (lastPongAt st) (clientFramesThisInterval st + 1) in
  if MAX_CLIENT_FRAMES_PER_INTERVAL <? clientFramesThisInterval st then closeSocket WS_CLOSE_POLICY_VIOLATION st
  else
    match raw with
    | Some (JObj fields) =>
        let type := text_field fields (js "type") in
        if bool_decide (type = Some (js "pong")) then (set_client st now (clientFramesThisInterval st), [])
        else
          match subscriptionEvents (map_get fields (js "events")) with
          | None => (st, [])
          | Some events =>
              if bool_decide (type = Some (js "subscribe")) then subscribeEvents events st
              else if bool_decide (type = Some (js "unsubscribe")) then unsubscribeEvents events st
              else (st, [])
          end
    | _ => (st, [])
    end.

(** ** Everything that happens to a socket *)

Inductive socket_input :=
| Event (e : LiveEvent)
| Message (now : Z) (raw : option json)
| Ping_tick (now : Z)
| Revalidate_tick
| Revalidated (session : option (jstr * jstr)) (token : option (list jstr)) (role : PermissionContext)
| Revalidation_failed
| Drained (bytes : nat)
| Disconnected.

Definition live_step (conn : connection) (i : socket_input) (st : live_state) : live_state * list socket_output :=
  match i with
  | Event e =>
      let st := set_rings st (ring_push (js "chat.message") CHAT_BUFFER_PER_SERVER e (chatBuffer st))
                             (ring_push (js "combat.event") COMBAT_BUFFER_PER_SERVER e (combatBuffer st)) (forwarding st) in
      if forwarding st then forward conn e st else (st, [])
  | Message now raw => if forwarding st then onMessage now raw st else (st, [])
  | Ping_tick now =>
      if closed st then (st, [])
      else
        let st := set_client st (lastPongAt st) 0 in
        if PONG_TIMEOUT_MS <? now - lastPongAt st then closeSocket 4000 st else safeSend (Ping now) st
  | Revalidate_tick => (if closed st || revalidating st then st else set_access st (canViewCombat st) (canAssign st) true, [])
  | Revalidated session token role =>
      if negb (revalidating st) then (st, [])
      else
        match revalidate conn session token role with
        | Gone code => let '(st, out) := closeSocket code st in (set_access st (canViewCombat st) (canAssign st) false, out)
        | Still p => (set_access st (combatView p) (canAssignRoles p) false, [])
        end
  | Revalidation_failed => (set_access st (canViewCombat st) (canAssign st) false, [])
  | Drained n => (set_ws st (closed st) (Z.max 0 (buffered st - Z.of_nat n)), [])
  | Disconnected => (set_rings (set_ws st true (buffered st)) (chatBuffer st) (combatBuffer st) false, [])
  end.
(** A run, with each step's outputs. *)
Fixpoint live_run (conn : connection) (is_ : list socket_input) (st : live_state) : live_state * list (list socket_output) :=
  match is_ with
  | [] => (st, [])
  | i :: is_ => let '(st, out) := live_step conn i st in let '(st, outs) := live_run conn is_ st in (st, out :: outs)
  end.
End Socket.

(** * What a socket is sent *)

(** Only the [ws] side of the socket moves. *)
Definition same_socket_owner (st st' : live_state) : Prop := st' = set_ws st (closed st') (buffered st').
Definition sends_only (P : frame → Prop) (out : list socket_output) : Prop := ∀ f, Sent f ∈ out → P f.

Lemma sends_only_nil P : sends_only P []. Proof. by intros f ?%not_elem_of_nil. Qed.
Lemma sends_only_app P out out' : sends_only P out → sends_only P out' → sends_only P (out ++ out').
Proof. intros H H' f [?|?]%elem_of_app; auto. Qed.
Lemma sends_only_impl (P Q : frame → Prop) out : (∀ f, P f → Q f) → sends_only P out → sends_only Q out.
Proof. intros H Hs f Hf. by apply H, Hs. Qed.
Lemma same_owner_refl st : same_socket_owner st st. Proof. by destruct st. Qed.
Lemma same_owner_trans st1 st2 st3 : same_socket_owner st1 st2 → same_socket_owner st2 st3 → same_socket_owner st1 st3.
Proof. unfold same_socket_owner. intros -> ->. done. Qed.
#[export] Hint Resolve sends_only_nil sends_only_app same_owner_refl : panel.

(** A ring holds its own type only, at most its capacity per server. *)
Definition ring_ok (t : jstr) (capacity : nat) (b : ring) : Prop :=
  ∀ s l, (s, l) ∈ b → (length l ≤ capacity)%nat ∧ ∀ e, e ∈ l → ev_type e = t.
Lemma ring_ok_get t capacity b s l :
  ring_ok t capacity b → map_get b s = Some l → (length l ≤ capacity)%nat ∧ ∀ e, e ∈ l → ev_type e = t.
Proof.
  intros Hb Hg. apply (Hb s). by apply map_get_in.
Qed.
Lemma ring_push_ok t capacity e b : ring_ok t capacity b → ring_ok t capacity (ring_push t capacity e b).
Proof.
  intros Hb. unfold ring_push. case_bool_decide as Hd.
  { intros s l Hin. apply (Hb s). eapply elem_of_sublist; [exact Hin|apply map_delete_sublist]. }
  case_bool_decide as Ht; cbn [negb]; [|done]. intros s l [->|Hin]%elem_of_map_set_inv; [|by apply (Hb s)].
  split; [rewrite length_drop; lia|]. intros x Hx. eapply elem_of_sublist in Hx; [|apply sublist_drop].
  apply elem_of_app in Hx as [Hx|Hx]; [|by apply list_elem_of_singleton in Hx as ->].
  destruct (map_get b (server_of e)) as [l'|] eqn:Hg; cbn in Hx; [|by apply not_elem_of_nil in Hx]. eapply ring_ok_get in Hg; [|done]. by apply Hg.
Qed.
Lemma ring_tail_ok t capacity b e : ring_ok t capacity b → e ∈ ring_tail b → ev_type e = t.
Proof.
  intros Hb He. unfold ring_tail in He. apply list_elem_of_In, in_concat in He as (l & Hl & He). apply list_elem_of_In in Hl.
  apply list_elem_of_fmap in Hl as ([s l'] & -> & Hin). apply (Hb s l'); [done|]. by apply list_elem_of_In.
Qed.

(** Whom an event is for, the socket's rights and subscriptions being those of [st]. *)
Record may_receive (conn : connection) (st : live_state) (e : LiveEvent) : Prop := {
  combat_right : is_combat (ev_type e) = true → canViewCombat st = true;
  asked_for : isBroadcast (ev_type e) = false → ev_type e ∈ subscribedEvents st;
  own_only : ev_type e = js "session.revoked" ∨ ev_type e = js "media.uploaded" → for_player conn e = true;
  assign_right : ev_type e = js "alert.triggered" → has_kind e (js "role_expiring") = true ∨ has_kind e (js "subscription_expired") = true →
    canAssign st = true;
  own_alert : ev_type e = js "alert.triggered" → has_kind e (js "seed.call_sent") = true ∨ has_kind e (js "server.seeding_started") = true →
    is_Some (text_field (ev_data e) (js "player_id")) → for_player conn e = true;
}.
Definition frame_ok (conn : connection) (st : live_state) (f : frame) : Prop :=
  match f with Live e => may_receive conn st e | _ => True end.

(** What does not depend on the [ws] side of the socket. *)
Definition same_view (st st' : live_state) : Prop :=
  canViewCombat st = canViewCombat st' ∧ canAssign st = canAssign st' ∧ (∀ t, t ∈ subscribedEvents st → t ∈ subscribedEvents st').
Lemma frame_ok_view conn st st' f : same_view st st' → frame_ok conn st f → frame_ok conn st' f.
Proof.
  intros (Hc & Ha & Hs). destruct f as [e|?|?|?]; cbn; [|done..]. intros [H1 H2 H3 H4 H5]. rewrite Hc in H1. rewrite Ha in H4. split; auto.
Qed.
Lemma same_view_refl st : same_view st st. Proof. by split_and!. Qed.
Lemma same_view_trans st1 st2 st3 : same_view st1 st2 → same_view st2 st3 → same_view st1 st3.
Proof. intros (H1 & H2 & H3) (K1 & K2 & K3). split_and!; [congruence..|auto]. Qed.
Lemma same_owner_view st st' : same_socket_owner st st' → same_view st st'.
Proof. intros ->. by split_and!. Qed.

Lemma not_refused conn st e : ev_type e ≠ js "session.revoked" → refused conn st e = false → may_receive conn st e.
Proof.
  intros Hne Hr. unfold refused, is_type in Hr. repeat rewrite orb_false_iff in Hr. destruct Hr as ((((H1 & H2) & H3) & H4) & H5). split.
  - intros Hc. rewrite Hc in H4. by apply negb_false_iff in H4.
  - intros Hb. rewrite Hb in H5. apply negb_false_iff, bool_decide_eq_true in H5. done.
  - intros [?|Ht]; [done|]. rewrite Ht in H3. cbn [andb] in H3. rewrite bool_decide_true in H3 by done. by apply negb_false_iff in H3.
  - intros Ht Hk. rewrite Ht in H2. rewrite bool_decide_true in H2 by done. destruct (canAssign st); [done|]. cbn [andb negb] in H2.
    rewrite andb_true_r in H2. apply orb_false_iff in H2 as [E1 E2]. destruct Hk; congruence.
  - intros Ht Hk Hp. rewrite Ht in H1. rewrite (bool_decide_true (js "alert.triggered" = _)), (bool_decide_true (is_Some _)) in H1 by done.
    destruct (for_player conn e); [done|]. cbn [andb negb] in H1. rewrite !andb_true_r in H1. apply orb_false_iff in H1 as [E1 E2]. destruct Hk; congruence.
Qed.

Definition same_rings (st st' : live_state) : Prop :=
  chatBuffer st' = chatBuffer st ∧ combatBuffer st' = combatBuffer st ∧ forwarding st' = forwarding st.
(** The invariant of a socket. *)
Record socket_ok (st : live_state) : Prop := {
  chat_ok : ring_ok (js "chat.message") CHAT_BUFFER_PER_SERVER (chatBuffer st);
  combat_ok : ring_ok (js "combat.event") COMBAT_BUFFER_PER_SERVER (combatBuffer st);
  gone_closed : forwarding st = false → closed st = true;
}.
Lemma upgraded_ok now p : socket_ok (upgraded [] [] now p).
Proof. split; [by intros s l ?%not_elem_of_nil..|done]. Qed.

Lemma socket_ok_like st st1 : socket_ok st → same_rings st st1 → closed st1 = closed st → socket_ok st1.
Proof. intros [H1 H2 H3] (R1 & R2 & R3) Hc. split; [by rewrite R1|by rewrite R2|by rewrite R3, Hc]. Qed.

Section Socket_facts.
Context (size : frame → Z) (maxBufferedBytes : Z) (conn : connection).
Notation safeSend := (safeSend size maxBufferedBytes).
Notation sendAll := (sendAll size maxBufferedBytes).
Notation live_step := (live_step size maxBufferedBytes conn).
Notation live_run := (live_run size maxBufferedBytes conn).

(** What holds of every send: the same owner, only the frame asked for, and
    nothing from a closed socket. *)
Definition sends (P : frame → Prop) (st : live_state) (r : live_state * list socket_output) : Prop :=
  same_socket_owner st r.1 ∧ sends_only P r.2 ∧ (closed st = true → r.2 = [] ∧ closed r.1 = true).
Lemma sends_nothing P st : sends P st (st, []).
Proof. split_and!; cbn; auto with panel. Qed.
Lemma safeSend_sends P f st : P f → sends P st (safeSend f st).
Proof.
  intros Hf. unfold LiveSocket.safeSend, sendUnlessStalled. destruct (closed st) eqn:Hc; [apply sends_nothing|].
  case (_ <? _); [apply sends_nothing|]. case (_ <? _); split_and!; try done; cbn; rewrite ?Hc; try done.
  - by intros g [= ]%list_elem_of_singleton.
  - by intros g [= ->]%list_elem_of_singleton.
Qed.
Lemma closeSocket_sends P code st : sends P st (closeSocket code st).
Proof.
  unfold closeSocket. destruct (closed st) eqn:Hc; [apply sends_nothing|]. split_and!; try done; cbn; [|congruence].
  by intros g [= ]%list_elem_of_singleton.
Qed.
Lemma sends_seq P st r (k : live_state → live_state * list socket_output) :
  sends P st r → sends P r.1 (k r.1) → sends P st ((k r.1).1, r.2 ++ (k r.1).2).
Proof.
  intros (H1 & H2 & H3) (K1 & K2 & K3). split_and!; cbn; eauto using same_owner_trans with panel.
  intros Hc. destruct (H3 Hc) as [-> Hc']. by destruct (K3 Hc').
Qed.
Lemma sendAll_sends (P : frame → Prop) fs st : (∀ f, f ∈ fs → P f) → sends P st (sendAll fs st).
Proof.
  revert st. induction fs as [|f fs IH]; intros st Hfs; [apply sends_nothing|]. cbn [LiveSocket.sendAll].
  pose proof (sends_seq P st (safeSend f st) (sendAll fs)) as H. destruct (safeSend f st) as [s1 o1] eqn:E1. cbn in H.
  destruct (sendAll fs s1) as [s2 o2] eqn:E2. apply H.
  - rewrite <- E1. apply safeSend_sends, Hfs. by left.
  - rewrite <- E2. apply IH. intros g Hg. apply Hfs. by right.
Qed.
Lemma sends_impl (P Q : frame → Prop) st r : (∀ f, P f → Q f) → sends P st r → sends Q st r.
Proof. intros H (H1 & H2 & H3). split_and!; [done|by eapply sends_only_impl|done]. Qed.

(** What one thing that happens may do. *)
Definition delivers (st : live_state) (r : live_state * list socket_output) : Prop :=
  same_view st r.1 ∧ same_rings st r.1 ∧ sends_only (frame_ok conn r.1) r.2 ∧ (closed st = true → r.2 = [] ∧ closed r.1 = true).
Lemma sends_delivers st r : sends (frame_ok conn st) st r → delivers st r.
Proof.
  intros (H1 & H2 & H3). split_and!; [by apply same_owner_view|by rewrite H1|..|done].
  eapply sends_only_impl; [|exact H2]. intros f. apply frame_ok_view. by apply same_owner_view.
Qed.
Lemma delivers_seq st r (k : live_state → live_state * list socket_output) :
  delivers st r → delivers r.1 (k r.1) → delivers st ((k r.1).1, r.2 ++ (k r.1).2).
Proof.
  intros (H1 & H2 & H3 & H4) (K1 & K2 & K3 & K4). split_and!; cbn.
  - by eapply same_view_trans.
  - destruct H2 as (? & ? & ?), K2 as (? & ? & ?). split_and!; congruence.
  - apply sends_only_app; [|done]. eapply sends_only_impl; [|exact H3]. intros f. by apply frame_ok_view.
  - intros Hc. destruct (H4 Hc) as [-> Hc']. by destruct (K4 Hc').
Qed.
Lemma delivers_ok st r : delivers st r → socket_ok st → socket_ok r.1.
Proof.
  intros (_ & (H1 & H2 & H3) & _ & H4) [K1 K2 K3]. split; [by rewrite H1|by rewrite H2|]. rewrite H3. intros ?%K3. by apply H4.
Qed.

Lemma forward_sends e st : sends (frame_ok conn st) st (forward size maxBufferedBytes conn e st).
Proof.
  unfold forward. destruct (is_type e (js "session.revoked")) eqn:Ht.
  - apply bool_decide_eq_true in Ht. destruct (for_player conn e) eqn:Hp; cbn [negb]; [|apply sends_nothing].
    assert (frame_ok conn st (Live e)) as Hok.
    { split; rewrite Ht; [intros [=]|intros [=]|done|intros [=]|intros [=]]. }
    pose proof (safeSend_sends (frame_ok conn st) (Live e) st Hok) as Hs. pose proof (sends_seq (frame_ok conn st) st (safeSend (Live e) st) (closeSocket WS_CLOSE_SESSION_REVOKED)) as Hq.
    destruct (safeSend (Live e) st) as [s1 o1]. case (_ && _); [|done]. cbn in Hq.
    pose proof (closeSocket_sends (frame_ok conn st) WS_CLOSE_SESSION_REVOKED s1) as Hc.
    destruct (closeSocket WS_CLOSE_SESSION_REVOKED s1) as [s2 o2]. by apply Hq.
  - apply bool_decide_eq_false in Ht. destruct (refused conn st e) eqn:Hr; [apply sends_nothing|]. apply safeSend_sends. by apply not_refused.
Qed.

Lemma tail_ok t capacity b st f :
  t = js "chat.message" ∨ t = js "combat.event" ∧ canViewCombat st = true → t ∈ subscribedEvents st → ring_ok t capacity b →
  f ∈ Live <$> ring_tail b → frame_ok conn st f.
Proof.
  intros Ht Hs Hb (e & -> & He)%list_elem_of_fmap. eapply ring_tail_ok in He; [|done].
  destruct Ht as [->|[-> Hc]]; split; rewrite He; try done; try (by intros [[=]|[=]]); try (by intros [=]).
Qed.
Lemma subscribeOne_delivers t st : socket_ok st → delivers st (subscribeOne size maxBufferedBytes t st).
Proof.
  intros [H1 H2 _]. unfold subscribeOne. case_bool_decide as Hin; [apply sends_delivers, sends_nothing|].
  assert (delivers st (set_subscribed st (subscribedEvents st ++ [t]), [])) as H0.
  { split; [split_and!; cbn; [done..|]; intros x; rewrite elem_of_app; by left|]. split; [done|]. split; [apply sends_only_nil|done]. }
  assert (t ∈ subscribedEvents (set_subscribed st (subscribedEvents st ++ [t]))) as Ht by (cbn; rewrite elem_of_app, list_elem_of_singleton; by right).
  set (st1 := set_subscribed st _) in *.
  assert (∀ fs, (∀ f, f ∈ fs → frame_ok conn st1 f) → delivers st (sendAll fs st1)) as Hseq.
  { intros fs Hfs. pose proof (delivers_seq st (st1, []) (sendAll fs) H0) as H. cbn in H. destruct (sendAll fs st1) as [s2 o2] eqn:E.
    apply H. rewrite <- E. by apply sends_delivers, sendAll_sends. }
  case_bool_decide as Hchat; [|case_bool_decide as Hcombat; cbn [andb]; [destruct (canViewCombat st1) eqn:Hv|]]; try done; apply Hseq; intros f Hf.
  - apply (tail_ok (js "chat.message") CHAT_BUFFER_PER_SERVER (chatBuffer st1)); [by left|by rewrite Hchat in Ht|exact H1|done].
  - apply (tail_ok (js "combat.event") COMBAT_BUFFER_PER_SERVER (combatBuffer st1)); [by right|by rewrite Hcombat in Ht|exact H2|done].
Qed.
Lemma subscribeAll_delivers ts st : socket_ok st → delivers st (subscribeAll size maxBufferedBytes ts st).
Proof.
  revert st. induction ts as [|t ts IH]; intros st Hok; cbn [subscribeAll]; [apply sends_delivers, sends_nothing|].
  pose proof (subscribeOne_delivers t st Hok) as H1. pose proof (delivers_seq st _ (subscribeAll size maxBufferedBytes ts) H1) as Hq.
  pose proof (IH _ (delivers_ok _ _ H1 Hok)) as H2. destruct (subscribeOne size maxBufferedBytes t st) as [s1 o1]. cbn in Hq, H2.
  destruct (subscribeAll size maxBufferedBytes ts s1) as [s2 o2]. by apply Hq.
Qed.

(** Every step: what is sent is for this socket, a closed socket is silent and
    stays closed, and the invariant holds again. *)
Definition step_sound (st : live_state) (r : live_state * list socket_output) : Prop :=
  sends_only (frame_ok conn r.1) r.2 ∧ (closed st = true → r.2 = [] ∧ closed r.1 = true) ∧ socket_ok r.1.
Lemma delivers_sound st r : socket_ok st → delivers st r → step_sound st r.
Proof. intros Hok H. split; [by apply H|split; [by apply H|by eapply delivers_ok]]. Qed.
(** Fields that [delivers] does not look at. *)
Lemma sound_from st st1 r : closed st1 = closed st → step_sound st1 r → step_sound st r.
Proof. intros Hc (H1 & H2 & H3). split; [done|split; [by rewrite <- Hc|done]]. Qed.

Lemma onMessage_sound now raw st : socket_ok st → step_sound st (onMessage size maxBufferedBytes now raw st).
Proof.
  intros Hok. unfold onMessage. set (st1 := set_client st _ _). apply (sound_from st st1); [done|].
  assert (socket_ok st1) as Hok1 by (by destruct Hok).
  assert (step_sound st1 (st1, [])) as H0 by (apply delivers_sound; [done|apply sends_delivers, sends_nothing]).
  case_match; [apply delivers_sound; [done|]; apply sends_delivers, closeSocket_sends|].
  destruct raw as [[]|]; try done. cbv zeta. case_bool_decide.
  { split; [apply sends_only_nil|split; [done|by destruct Hok1]]. }
  destruct (subscriptionEvents _) as [events|]; [|done]. case_bool_decide; [|case_bool_decide; [|done]].
  - apply delivers_sound; [done|]. unfold subscribeEvents. pose proof (subscribeAll_delivers events st1 Hok1) as D1.
    pose proof (delivers_seq st1 _ (λ s, safeSend (Subscribed (subscribedEvents s)) s) D1) as Hq.
    destruct (subscribeAll _ _ events st1) as [s1 o1]. cbn in Hq.
    pose proof (sends_delivers s1 _ (safeSend_sends (frame_ok conn s1) (Subscribed (subscribedEvents s1)) s1 I)) as D2.
    destruct (safeSend _ s1) as [s2 o2]. by apply Hq.
  - unfold unsubscribeEvents. set (st2 := set_subscribed st1 _). assert (socket_ok st2) as Hok2 by (destruct Hok1 as [? ? Hgone]; split; [done..|exact Hgone]).
    apply (sound_from st1 st2); [done|]. apply delivers_sound; [done|]. by apply sends_delivers, safeSend_sends.
Qed.
Lemma sound_quiet st st1 : socket_ok st → same_rings st st1 → closed st1 = closed st → step_sound st (st1, []).
Proof. intros Hok Hr Hc. split; [apply sends_only_nil|]. split; [cbn; split; congruence|]. by eapply socket_ok_like. Qed.
Lemma live_step_sound i st : socket_ok st → step_sound st (live_step i st).
Proof.
  intros Hok. assert (step_sound st (st, [])) as Hnothing by (by apply sound_quiet).
  destruct i as [e|now raw|now| |session token role| |n|]; cbn [LiveSocket.live_step].
  - set (st1 := set_rings st _ _ _). assert (socket_ok st1) as H1 by (destruct Hok; split; cbn; [by apply ring_push_ok..|done]).
    apply (sound_from st st1); [done|]. destruct (forwarding st1); [apply delivers_sound; [done|]; apply sends_delivers, forward_sends|by apply sound_quiet].
  - destruct (forwarding st); [by apply onMessage_sound|done].
  - destruct (closed st); [done|]. set (st1 := set_client st _ _). apply (sound_from st st1); [done|].
    apply delivers_sound; [by apply (socket_ok_like st)|]. case (_ <? _); apply sends_delivers; [apply closeSocket_sends|by apply safeSend_sends].
  - apply sound_quiet; [done|by destruct (_ || _)..].
  - destruct (negb _); [done|]. destruct (revalidate _ _ _ _) as [p|code]; [by apply sound_quiet|].
    pose proof (closeSocket_sends (frame_ok conn st) code st) as H%sends_delivers%delivers_sound; [|done].
    destruct (closeSocket code st) as [s1 o1]. destruct H as (H1 & H2 & H3). split; [|split; [exact H2|by apply (socket_ok_like s1)]].
    intros f Hf. eapply frame_ok_view; [|exact (H1 f Hf)]. by split_and!.
  - by apply sound_quiet.
  - by apply sound_quiet.
  - split; [apply sends_only_nil|split; [done|]]. by destruct Hok; split.
Qed.

Lemma live_run_app is1 is2 st :
  live_run (is1 ++ is2) st = ((live_run is2 (live_run is1 st).1).1, (live_run is1 st).2 ++ (live_run is2 (live_run is1 st).1).2).
Proof.
  revert st. induction is1 as [|i is1 IH]; intros st; cbn [LiveSocket.live_run app fst snd]; [by case (live_run is2 st)|].
  destruct (live_step i st) as [s1 o1]. rewrite IH. by destruct (live_run is1 s1).
Qed.
Lemma live_run_ok is_ st : socket_ok st → socket_ok (live_run is_ st).1.
Proof.
  revert st. induction is_ as [|i is_ IH]; intros st Hok; cbn [LiveSocket.live_run]; [done|].
  destruct (live_step_sound i st Hok) as (_ & _ & H). destruct (live_step i st) as [s1 o1]. cbn in H. specialize (IH s1 H). by destruct (live_run is_ s1).
Qed.
Lemma closed_silent is_ st : socket_ok st → closed st = true → closed (live_run is_ st).1 = true ∧ ∀ out, out ∈ (live_run is_ st).2 → out = [].
Proof.
  revert st. induction is_ as [|i is_ IH]; intros st Hok Hc; cbn [LiveSocket.live_run]; [split; [done|cbn; by intros ? ?%not_elem_of_nil]|].
  destruct (live_step_sound i st Hok) as (_ & H & Hok1). destruct (H Hc) as [Ho Hc1]. destruct (live_step i st) as [s1 o1]. cbn in Hok1, Ho, Hc1.
  destruct (IH s1 Hok1 Hc1) as [H1 H2]. destruct (live_run is_ s1) as [s2 o2]. split; [done|]. intros out [->|Hin]%elem_of_cons; [done|by apply H2].
Qed.
End Socket_facts.

(** ** Rights over time *)

(** The permissions of the last check that succeeded, the upgrade's first. *)
Definition checked (conn : connection) (st : live_state) (i : socket_input) (p : PermissionContext) : PermissionContext :=
  match i with
  | Revalidated session token role =>
      if revalidating st then match revalidate conn session token role with Still p' => p' | Gone _ => p end else p
  | _ => p
  end.
Fixpoint last_check size lim conn (is_ : list socket_input) (st : live_state) (p : PermissionContext) : PermissionContext :=
  match is_ with
  | [] => p
  | i :: is_ => last_check size lim conn is_ (live_step size lim conn i st).1 (checked conn st i p)
  end.
Definition rights_of (st : live_state) : bool * bool := (canViewCombat st, canAssign st).

(** What every send, close and change of the socket's own fields respects,
    every step does but for the outcome of a check. *)
Section Parts.
Context (size : frame → Z) (lim : Z) (R : live_state → live_state * list socket_output → Prop).
Context (R_seq : ∀ st r r', R st r → R r.1 r' → R st (r'.1, r.2 ++ r'.2)).
Context (R_send : ∀ f st, R st (safeSend size lim f st)) (R_close : ∀ code st, R st (closeSocket code st)).
Context (R_subscribed : ∀ st l, R st (set_subscribed st l, [])) (R_client : ∀ st p n, R st (set_client st p n, [])).

Lemma R_nothing st : R st (st, []). Proof. destruct st. apply (R_client (mkLive _ _ _ _ _ _ _ _ _ _ _)). Qed.
Lemma R_then st r k s' o' : R st r → k r.1 = (s', o') → R r.1 (k r.1) → R st (s', r.2 ++ o').
Proof. intros H1 E H2. rewrite E in H2. by apply (R_seq st r (s', o')). Qed.
Lemma R_from st st1 r : R st (st1, []) → R st1 r → R st r.
Proof. intros H1 H2. destruct r as [s o]. by apply (R_seq st (st1, []) (s, o)). Qed.
Lemma R_sendAll fs st : R st (sendAll size lim fs st).
Proof.
  revert st. induction fs as [|f fs IH]; intros st; cbn [sendAll]; [apply R_nothing|]. pose proof (R_send f st) as H.
  destruct (safeSend size lim f st) as [s1 o1]. destruct (sendAll size lim fs s1) as [s2 o2] eqn:E. eapply (R_then st (s1, o1)); [done..|apply IH].
Qed.
Lemma R_subscribeAll ts st : R st (subscribeAll size lim ts st).
Proof.
  revert st. induction ts as [|t ts IH]; intros st; cbn [subscribeAll]; [apply R_nothing|].
  assert (R st (subscribeOne size lim t st)) as H.
  { unfold subscribeOne. case_match; [apply R_nothing|]. eapply R_from; [apply R_subscribed|]. repeat case_match; first [apply R_sendAll|apply R_nothing]. }
  destruct (subscribeOne size lim t st) as [s1 o1]. destruct (subscribeAll size lim ts s1) as [s2 o2] eqn:E. eapply (R_then st (s1, o1)); [done..|apply IH].
Qed.
Lemma R_onMessage now raw st : R st (onMessage size lim now raw st).
Proof.
  unfold onMessage. cbv zeta. set (st1 := set_client st _ _). apply (R_from st st1); [apply R_client|]. case_match; [apply R_close|].
  destruct raw as [[]|]; try apply R_nothing. cbv zeta. case_match; [apply R_client|]. destruct (subscriptionEvents _) as [events|]; [|apply R_nothing].
  case_match; [|case_match; [unfold unsubscribeEvents; eapply R_from; [apply R_subscribed|apply R_send]|apply R_nothing]].
  unfold subscribeEvents. pose proof (R_subscribeAll events st1) as Hs. destruct (subscribeAll _ _ events st1) as [s1 o1].
  destruct (safeSend _ _ _ s1) as [s2 o2] eqn:E. eapply (R_then st1 (s1, o1) (λ s, safeSend size lim (Subscribed (subscribedEvents s)) s)); [done..|apply R_send].
Qed.
Lemma R_forward conn e st : R st (forward size lim conn e st).
Proof.
  unfold forward. case_match; [|case_match; [apply R_nothing|apply R_send]]. case_match; [apply R_nothing|].
  pose proof (R_send (Live e) st) as Hs. destruct (safeSend size lim (Live e) st) as [s1 o1]. case_match; [|done].
  destruct (closeSocket _ s1) as [s2 o2] eqn:E. eapply (R_then st (s1, o1)); [done..|apply R_close].
Qed.
End Parts.

Definition keeps_rights (st : live_state) (r : live_state * list socket_output) : Prop := rights_of r.1 = rights_of st.
Lemma rights_seq st r r' : keeps_rights st r → keeps_rights r.1 r' → keeps_rights st (r'.1, r.2 ++ r'.2).
Proof. unfold keeps_rights. cbn. congruence. Qed.
Lemma rights_safeSend size lim f st : keeps_rights st (safeSend size lim f st).
Proof. unfold keeps_rights, safeSend, sendUnlessStalled. by repeat case_match. Qed.
Lemma rights_closeSocket code st : keeps_rights st (closeSocket code st).
Proof. unfold keeps_rights, closeSocket. by case_match. Qed.
Lemma rights_onMessage size lim now raw st : keeps_rights st (onMessage size lim now raw st).
Proof. apply R_onMessage; [apply rights_seq|apply rights_safeSend|apply rights_closeSocket|done..]. Qed.
Lemma rights_forward size lim conn e st : keeps_rights st (forward size lim conn e st).
Proof. apply R_forward; [apply rights_seq|apply rights_safeSend|apply rights_closeSocket|done..]. Qed.
Lemma rights_step size lim conn i st p :
  rights_of st = (combatView p, canAssignRoles p) →
  let p' := checked conn st i p in rights_of (live_step size lim conn i st).1 = (combatView p', canAssignRoles p').
Proof.
  intros Hp. destruct i as [e|now raw|now| |session token role| |n|]; cbn [live_step checked].
  - set (st1 := set_rings st _ _ _). case_match; [|done]. by rewrite rights_forward.
  - case_match; [|done]. by rewrite rights_onMessage.
  - case_match; [done|]. case_match; [by rewrite rights_closeSocket|by rewrite rights_safeSend].
  - by case_match.
  - destruct (revalidating st); cbn [negb]; [|done]. destruct (revalidate _ _ _ _) as [q|code]; [done|].
    pose proof (rights_closeSocket code st) as Hc. destruct (closeSocket code st). cbn in *. rewrite <- Hp, <- Hc. done.
  - done.
  - done.
  - done.
Qed.
Lemma rights_run size lim conn is_ st p :
  rights_of st = (combatView p, canAssignRoles p) →
  let p' := last_check size lim conn is_ st p in rights_of (live_run size lim conn is_ st).1 = (combatView p', canAssignRoles p').
Proof.
  revert st p. induction is_ as [|i is_ IH]; intros st p Hp; cbn [live_run last_check]; [done|].
  pose proof (rights_step size lim conn i st p Hp) as H1. destruct (live_step size lim conn i st) as [s1 o1] eqn:E. cbn [fst] in *.
  specialize (IH s1 _ H1). by destruct (live_run size lim conn is_ s1).
Qed.

Definition ring_after (t : jstr) (capacity : nat) (history : list LiveEvent) : ring := foldl (fun b e => ring_push t capacity e b) [] history.
Lemma ring_after_ok t capacity history : ring_ok t capacity (ring_after t capacity history).
Proof.
  unfold ring_after. assert (ring_ok t capacity []) as H by (by intros s l ?%not_elem_of_nil). revert H. generalize (@nil (jstr * list LiveEvent)).
  induction history as [|e es IH]; intros b Hb; cbn [foldl]; [done|]. by apply IH, ring_push_ok.
Qed.
(** A socket upgraded when the API has published [history]. *)
Definition connected (history : list LiveEvent) (now : Z) (p : PermissionContext) : live_state :=
  upgraded (ring_after (js "chat.message") CHAT_BUFFER_PER_SERVER history) (ring_after (js "combat.event") COMBAT_BUFFER_PER_SERVER history) now p.
Lemma connected_ok history now p : socket_ok (connected history now p).
Proof. split; [apply ring_after_ok..|done]. Qed.

(** C9: Whatever happened before, an event that reaches a socket is for it: a
    combat event (from the bus or from the tail) only if the last check of the
    session that succeeded, or the upgrade, gave the combat view; role reminders
    only with the right to assign roles; a type that is not broadcast only if
    the socket subscribed to it; revocations, uploads and personal alerts only
    for its own player. *)
Theorem only_the_audience size lim conn history now p is_ i e :
  let start := connected history now p in
  let st := (live_run size lim conn is_ start).1 in
  let r := live_step size lim conn i st in
  Sent (Live e) ∈ r.2 →
  may_receive conn r.1 e ∧
  rights_of r.1 = (combatView (checked conn st i (last_check size lim conn is_ start p)),
                   canAssignRoles (checked conn st i (last_check size lim conn is_ start p))).
Proof.
  intros start st r He. assert (socket_ok st) as Hok by apply live_run_ok, connected_ok.
  destruct (live_step_sound size lim conn i st Hok) as (H & _). split; [by apply (H (Live e))|]. apply rights_step. by apply rights_run.
Qed.

(** ** Tokens *)

Definition no_combat (p : PermissionContext) : Prop := combatView p = false.
Lemma token_check conn st i p :
  connectionSessionId conn = None → no_combat p → no_combat (checked conn st i p).
Proof.
  intros Hs Hp. destruct i; cbn [checked]; try done. destruct (revalidating st); [|done]. destruct (revalidate _ _ _ _) as [q|] eqn:E; [|done].
  unfold revalidate in E. rewrite Hs in E. destruct (connectionPlayerId conn); [|done]. destruct (connectionApiTokenId conn); [|done].
  destruct token; [|done]. case_match; [done|]. by injection E as <-.
Qed.
(** A connection of an API token is never sent combat data, whatever role
    its player has, and whatever was re-checked. *)
Theorem token_sees_no_combat size lim conn history now role scopes is_ e :
  connectionSessionId conn = None →
  (∃ out, out ∈ (live_run size lim conn is_ (connected history now (narrowToTokenScopes role scopes))).2 ∧ Sent (Live e) ∈ out) →
  is_combat (ev_type e) = false.
Proof.
  intros Hs (out & Hout & He). set (p := narrowToTokenScopes role scopes) in *. assert (no_combat p) as Hp by done.
  pose proof (connected_ok history now p) as Hok. assert (rights_of (connected history now p) = (combatView p, canAssignRoles p)) as Hr by done.
  clearbody p. revert Hok Hr Hp Hout. generalize (connected history now p). revert p.
  induction is_ as [|i is_ IH]; intros p st Hok Hr Hp Hout; cbn [live_run] in Hout; [by apply not_elem_of_nil in Hout|].
  pose proof (rights_step size lim conn i st p Hr) as Hr1. pose proof (token_check conn st i p Hs Hp) as Hp1.
  destruct (live_step_sound size lim conn i st Hok) as (Hf & _ & Hok1). destruct (live_step size lim conn i st) as [s1 o1]. cbn in *.
  destruct (live_run size lim conn is_ s1) as [s2 o2] eqn:E. apply elem_of_cons in Hout as [->|Hout].
  - destruct (Hf (Live e) He) as [Hc _ _ _ _]. destruct (is_combat (ev_type e)); [|done]. unfold no_combat in Hp1.
    injection Hr1 as Hr1 _. rewrite Hc in Hr1 by done. congruence.
  - eapply (IH _ s1); [done|exact Hr1|done|]. by rewrite E.
Qed.

(** ** A session that ended *)

(** What ends the connection: its session is revoked, or a check finds it gone. *)
Definition ends (conn : connection) (st : live_state) (i : socket_input) : Prop :=
  match i with
  | Event e => ev_type e = js "session.revoked" ∧ for_player conn e = true ∧ is_Some (connectionSessionId conn) ∧
               text_field (ev_data e) (js "session_id") = connectionSessionId conn
  | Revalidated session token role => revalidating st = true ∧ ∃ code, revalidate conn session token role = Gone code
  | Disconnected => True
  | _ => False
  end.
Lemma closeSocket_closes code st : closed (closeSocket code st).1 = true.
Proof. unfold closeSocket. by destruct (closed st) eqn:E. Qed.
(** C34: When the session of a socket is revoked, or a check finds the session
    or token gone or server:view lost, the socket is closed, and nothing is
    sent on it afterwards, whatever happens. *)
Theorem ended_session_is_silent size lim conn history now p is1 i is2 :
  let st := (live_run size lim conn is1 (connected history now p)).1 in
  ends conn st i →
  let r := live_step size lim conn i st in
  closed r.1 = true ∧ closed (live_run size lim conn is2 r.1).1 = true ∧ ∀ out, out ∈ (live_run size lim conn is2 r.1).2 → out = [].
Proof.
  intros st He r. assert (socket_ok st) as Hok by apply live_run_ok, connected_ok.
  destruct (live_step_sound size lim conn i st Hok) as (_ & Hcl & Hok1). fold r in Hcl, Hok1. clearbody st. assert (closed r.1 = true) as Hc.
  { destruct (closed st) eqn:Hst; [by apply Hcl|]. clear Hok1 Hcl. subst r. destruct i as [e| | | |session token role| | |]; try done; cbn [live_step].
    - destruct He as (Ht & Hp & Hs & Hid). case_match eqn:Hfw; [|by cbn in Hfw; rewrite (gone_closed _ Hok Hfw) in Hst].
      unfold forward, is_type. rewrite bool_decide_true, Hp by done. cbn [negb]. destruct (safeSend _ _ _ _) as [s1 o1].
      rewrite !bool_decide_true by done. cbn [andb]. pose proof (closeSocket_closes WS_CLOSE_SESSION_REVOKED s1). by destruct (closeSocket _ s1).
    - destruct He as (Hr & code & Hg). rewrite Hr, Hg. cbn [negb]. pose proof (closeSocket_closes code st). by destruct (closeSocket code st). }
  split; [done|]. by apply closed_silent.
Qed.

(** ** Memory *)

Definition in_bound (largest : Z) (st : live_state) : Prop := 0 ≤ buffered st ≤ MAX_BUFFERED_BYTES + largest.
Definition bounded_part (lim largest : Z) (st : live_state) (r : live_state * list socket_output) : Prop :=
  in_bound largest st → in_bound largest r.1 ∧ (MAX_BUFFERED_BYTES ≤ lim → Terminated ∉ r.2).
Section Memory.
Context (size : frame → Z) (lim largest : Z) (Hsize : ∀ f, 0 ≤ size f ≤ largest).
Notation bounded_part := (bounded_part lim largest).

Lemma bounded_quiet st st1 : buffered st1 = buffered st → bounded_part st (st1, []).
Proof. intros Hb H. unfold in_bound in *. rewrite <- Hb in H. split; [done|]. intros _. apply not_elem_of_nil. Qed.
Lemma bounded_seq st r r' : bounded_part st r → bounded_part r.1 r' → bounded_part st (r'.1, r.2 ++ r'.2).
Proof. intros H1 H2 H. destruct (H1 H) as [K1 K2], (H2 K1) as [K3 K4]. split; [done|]. intros Hl. cbn. rewrite not_elem_of_app. auto. Qed.
Lemma bounded_safeSend f st : bounded_part st (safeSend size lim f st).
Proof.
  unfold safeSend, sendUnlessStalled. destruct (closed st); [by apply bounded_quiet|]. destruct (MAX_BUFFERED_BYTES <? buffered st) eqn:E1; [by apply bounded_quiet|].
  intros Hb. specialize (Hsize f). unfold in_bound in *. destruct (lim <? buffered st) eqn:E2; cbn; (split; [lia|]); intros Hl; [lia|].
  by intros [=]%list_elem_of_singleton.
Qed.
Lemma bounded_closeSocket code st : bounded_part st (closeSocket code st).
Proof. unfold closeSocket. case_match; [by apply bounded_quiet|]. intros Hb. split; [done|]. by intros _ [=]%list_elem_of_singleton. Qed.
Lemma bounded_onMessage now raw st : bounded_part st (onMessage size lim now raw st).
Proof. apply R_onMessage; [apply bounded_seq|apply bounded_safeSend|apply bounded_closeSocket|by intros; apply bounded_quiet..]. Qed.
Lemma bounded_forward conn e st : bounded_part st (forward size lim conn e st).
Proof. apply R_forward; [apply bounded_seq|apply bounded_safeSend|apply bounded_closeSocket|by intros; apply bounded_quiet..]. Qed.
Lemma bounded_from st st1 r : buffered st1 = buffered st → bounded_part st1 r → bounded_part st r.
Proof. unfold LiveSocket.bounded_part, in_bound. by intros ->. Qed.
Lemma bounded_step conn i st : bounded_part st (live_step size lim conn i st).
Proof.
  destruct i as [e|now raw|now| |session token role| |n|]; cbn [live_step].
  - set (st1 := set_rings st _ _ _). apply (bounded_from st st1); [done|]. case_match; [apply bounded_forward|by apply bounded_quiet].
  - case_match; [apply bounded_onMessage|by apply bounded_quiet].
  - case_match; [by apply bounded_quiet|]. set (st1 := set_client st _ _). apply (bounded_from st st1); [done|].
    case_match; [apply bounded_closeSocket|apply bounded_safeSend].
  - apply bounded_quiet. by case_match.
  - case_match; [by apply bounded_quiet|]. case_match; [by apply bounded_quiet|]. pose proof (bounded_closeSocket code st) as H1.
    destruct (closeSocket code st) as [s1 o1]. exact H1.
  - by apply bounded_quiet.
  - unfold LiveSocket.bounded_part, in_bound. cbn. intros H. split; [lia|]. intros _. apply not_elem_of_nil.
  - by apply bounded_quiet.
Qed.
Lemma bounded_run conn is_ st : in_bound largest st →
  in_bound largest (live_run size lim conn is_ st).1 ∧ (MAX_BUFFERED_BYTES ≤ lim → ∀ out, out ∈ (live_run size lim conn is_ st).2 → Terminated ∉ out).
Proof.
  revert st. induction is_ as [|i is_ IH]; intros st Hb; cbn [live_run]; [split; [done|]; intros _ out; cbn; by intros ?%not_elem_of_nil|].
  destruct (bounded_step conn i st Hb) as [H1 H2]. destruct (live_step size lim conn i st) as [s1 o1]. destruct (IH s1 H1) as [H3 H4].
  destruct (live_run size lim conn is_ s1) as [s2 o2]. split; [done|]. intros Hl out [->|Hin]%elem_of_cons; auto.
Qed.
End Memory.

(** What a socket queues is bounded: at most four mebibytes and a frame,
    however slow the client is and whatever tails it asks for; and with the
    default limit no client is ever dropped for being slow, its frames are left
    out instead. *)
Theorem queue_bounded size largest conn history now p is_ :
  (∀ f, 0 ≤ size f ≤ largest) →
  let run := live_run size WS_MAX_BUFFERED_BYTES conn is_ (connected history now p) in
  0 ≤ buffered run.1 ≤ MAX_BUFFERED_BYTES + largest ∧ ∀ out, out ∈ run.2 → Terminated ∉ out.
Proof.
  intros Hs run. destruct (bounded_run size WS_MAX_BUFFERED_BYTES largest Hs conn is_ (connected history now p)) as [H1 H2].
  { specialize (Hs (Ping 0)). unfold in_bound, MAX_BUFFERED_BYTES. cbn. lia. }
  split; [done|]. by apply H2.
Qed.

(** ** A run *)

Definition ex_permissions (combat : bool) : PermissionContext :=
  mkContext [js "server:view"] [] None None true false false false false false false false false false false combat false.
Definition ex_conn : connection := mkConnection (Some (js "p1")) (Some (js "s1")) None.
Definition ex_event (t : string) (d : list (jstr * json)) : LiveEvent := mkEvent (js t) (js "2026-01-01T00:00:00Z") ((js "server_id", JStr (js "srv1")) :: d).
Definition ex_subscribe (l : list string) : json := JObj [(js "type", JStr (js "subscribe")); (js "events", JArr ((fun t => JStr (js t)) <$> l))].
Definition ex_revoked : LiveEvent := ex_event "session.revoked" [(js "player_id", JStr (js "p1")); (js "session_id", JStr (js "s1"))].
Definition ex_inputs : list socket_input :=
  [Event (ex_event "chat.message" []); Revalidate_tick; Revalidated (Some (js "s1", js "full")) None (ex_permissions true)].
Notation ex_live := (live_run (fun _ => 100) WS_MAX_BUFFERED_BYTES ex_conn ex_inputs (connected [ex_event "combat.event" []] 0 (ex_permissions false))).

Lemma only_the_audience_witness :
  may_receive ex_conn (live_step (fun _ => 100) WS_MAX_BUFFERED_BYTES ex_conn (Message 5 (Some (ex_subscribe ["combat.event"]))) ex_live.1).1
    (ex_event "combat.event" []).
Proof.
  apply (only_the_audience (fun _ => 100) WS_MAX_BUFFERED_BYTES ex_conn [ex_event "combat.event" []] 0 (ex_permissions false) ex_inputs
    (Message 5 (Some (ex_subscribe ["combat.event"])))). vm_compute. left.
Defined.
Lemma token_sees_no_combat_witness : is_combat (js "chat.message") = false.
Proof.
  apply (token_sees_no_combat (fun _ => 100) WS_MAX_BUFFERED_BYTES (mkConnection (Some (js "p1")) None (Some (js "t1"))) [ex_event "chat.message" []; ex_event "combat.event" []] 0
    (ex_permissions true) [js "server:view"] [Message 5 (Some (ex_subscribe ["combat.event"; "chat.message"]))] (ex_event "chat.message" [])); [done|].
  eexists. split; [left|]. vm_compute. left.
Defined.
Lemma ended_session_is_silent_witness :
  closed (live_step (fun _ => 100) WS_MAX_BUFFERED_BYTES ex_conn (Event ex_revoked) ex_live.1).1 = true.
Proof.
  apply (ended_session_is_silent (fun _ => 100) WS_MAX_BUFFERED_BYTES ex_conn [ex_event "combat.event" []] 0 (ex_permissions false) ex_inputs (Event ex_revoked)
    [Event (ex_event "server.status" [])]). vm_compute. eauto.
Defined.
Lemma queue_bounded_witness : 0 ≤ buffered ex_live.1 ≤ MAX_BUFFERED_BYTES + 100.
Proof.
  apply (queue_bounded (fun _ => 100) 100 ex_conn [ex_event "combat.event" []] 0 (ex_permissions false) ex_inputs). intros f. lia.
Defined.

(** * Instances *)

(** What instance [me] emits of what all instances publish, each message read
    by every instance, the publisher's own too. *)
Definition emits (me : jstr) (p : jstr * LiveEvent) : list LiveEvent :=
  (if bool_decide (p.1 = me) then [(publish p.1 p.2).1] else []) ++ option_list (onBusMessage me (Some (publish p.1 p.2).2)).
Definition emitted (me : jstr) (publications : list (jstr * LiveEvent)) : list LiveEvent := concat (emits me <$> publications).
Lemma onBusMessage_wire me o e : isLiveEventType (ev_type e) = true → onBusMessage me (Some (wire o e)) = if bool_decide (o = me) then None else Some e.
Proof. intros Ht. 
  unfold onBusMessage, toLiveFrame, wire. set (fields := [_; _; _; _]). change (map_get fields (js "type")) with (Some (JStr (ev_type e))).
  change (map_get fields (js "ts")) with (Some (JStr (ev_ts e))). change (map_get fields (js "data")) with (Some (JObj (ev_data e))).
  change (map_get fields (js "_origin")) with (Some (JStr o)). cbv beta iota. rewrite Ht. by destruct e. Qed.
(** Every instance emits every publication once: the publisher when it
    publishes, the others when they read it, and no instance its own echo. *)
Theorem published_once_everywhere me publications :
  (∀ p, p ∈ publications → isLiveEventType (ev_type p.2) = true) → emitted me publications = publications.*2.
Proof.
  unfold emitted. induction publications as [|[o e] ps IH]; intros Hp; [done|]. rewrite !fmap_cons. cbn [concat].
  rewrite IH by (intros; apply Hp; by right). unfold emits. cbn [fst snd publish].
  rewrite onBusMessage_wire by (apply (Hp (o, e)); by left). by case_bool_decide.
Qed.
Lemma published_once_everywhere_witness : emitted (js "b") [(js "a", ex_event "note.created" []); (js "b", ex_event "chat.message" [])] =
  [ex_event "note.created" []; ex_event "chat.message" []].
Proof. apply published_once_everywhere. intros p [->|[->|?%not_elem_of_nil]%elem_of_cons]%elem_of_cons; done. Defined.
