(* ===== verification/LiveBus.v ===== *)
(** [apps/web/src/lib/live-bus.ts] and [ws-backoff.ts]: the one socket of a tab,
    shared by every component that listens; it opens with the first listener,
    reconnects with a growing delay, probes the session when that keeps failing,
    re-declares the subscriptions and closes when nobody listens. *)
From S2P Require Import Prelude JsString JsMap JsJson LiveSocket.

(** * Delays *)

Definition BASE_MS : Z := 1000.
Definition CAP_MS : Z := 30000.
(** [nextBackoffMs] on a count of attempts. *)
Definition nextBackoffMs (attempts : nat) : Z := Z.min (BASE_MS * 2 ^ Z.of_nat attempts) CAP_MS.

(** * The state of the bus *)

Definition IDLE_CLOSE_DELAY_MS : Z := 5000.
Definition SESSION_PROBE_AFTER_ATTEMPTS : nat := 3.

Inductive LiveBusState := Connecting | Open | Shut.
#[export] Instance LiveBusState_eq_dec : EqDecision LiveBusState. Proof. solve_decision. Defined.
(** [readyState] of the socket, as long as the bus holds it. *)
Inductive readyState := CONNECTING | OPEN | CLOSING.
#[export] Instance readyState_eq_dec : EqDecision readyState. Proof. solve_decision. Defined.

(** Callbacks are numbered by their identity, [retain]s by their handle. *)
Record bus := mkBus {
  eventSubs : list nat;
  stateSubs : list nat;
  typeRefs : list (jstr * Z);
  retainCount : Z;
  unreleased : list nat;
  socket : option readyState;
  connState : LiveBusState;
  attempts : nat;
  reconnectTimer : option Z;
  idleTimer : bool;
  started : bool;
  probes : nat;
  at_login : bool;
}.
Definition makeLiveBus : bus := mkBus [] [] [] 0 [] None Shut 0 None false false 0 false.

Inductive client_request := Subscribe_to (events : list jstr) | Unsubscribe_from (events : list jstr) | Pong.
(** What the bus does to the outside. *)
Inductive bus_effect :=
| New_socket
| Close_socket
| Send (r : client_request)
| Deliver (cb : nat) (e : LiveEvent)
| Notify (cb : nat) (s : LiveBusState).

Definition with_subs (b : bus) (ev st : list nat) : bus :=
  mkBus ev st (typeRefs b) (retainCount b) (unreleased b) (socket b) (connState b) (attempts b) (reconnectTimer b) (idleTimer b) (started b) (probes b) (at_login b).
Definition with_types (b : bus) (m : list (jstr * Z)) : bus :=
  mkBus (eventSubs b) (stateSubs b) m (retainCount b) (unreleased b) (socket b) (connState b) (attempts b) (reconnectTimer b) (idleTimer b) (started b) (probes b) (at_login b).
Definition with_retained (b : bus) (n : Z) (l : list nat) : bus :=
  mkBus (eventSubs b) (stateSubs b) (typeRefs b) n l (socket b) (connState b) (attempts b) (reconnectTimer b) (idleTimer b) (started b) (probes b) (at_login b).
Definition with_socket (b : bus) (s : option readyState) : bus :=
  mkBus (eventSubs b) (stateSubs b) (typeRefs b) (retainCount b) (unreleased b) s (connState b) (attempts b) (reconnectTimer b) (idleTimer b) (started b) (probes b) (at_login b).
Definition with_conn (b : bus) (s : LiveBusState) : bus :=
  mkBus (eventSubs b) (stateSubs b) (typeRefs b) (retainCount b) (unreleased b) (socket b) s (attempts b) (reconnectTimer b) (idleTimer b) (started b) (probes b) (at_login b).
Definition with_retry (b : bus) (n : nat) (t : option Z) : bus :=
  mkBus (eventSubs b) (stateSubs b) (typeRefs b) (retainCount b) (unreleased b) (socket b) (connState b) n t (idleTimer b) (started b) (probes b) (at_login b).
Definition with_idle (b : bus) (i : bool) : bus :=
  mkBus (eventSubs b) (stateSubs b) (typeRefs b) (retainCount b) (unreleased b) (socket b) (connState b) (attempts b) (reconnectTimer b) i (started b) (probes b) (at_login b).
Definition with_started (b : bus) (s : bool) : bus :=
  mkBus (eventSubs b) (stateSubs b) (typeRefs b) (retainCount b) (unreleased b) (socket b) (connState b) (attempts b) (reconnectTimer b) (idleTimer b) s (probes b) (at_login b).
Definition with_probes (b : bus) (n : nat) (l : bool) : bus :=
  mkBus (eventSubs b) (stateSubs b) (typeRefs b) (retainCount b) (unreleased b) (socket b) (connState b) (attempts b) (reconnectTimer b) (idleTimer b) (started b) n l.

Definition refCount (b : bus) : Z := Z.of_nat (length (eventSubs b)) + Z.of_nat (length (stateSubs b)) + retainCount b.

(** A step of the bus: its new state and what it did, in order. *)
Definition act := bus → bus * list bus_effect.
Definition skip : act := fun b => (b, []).
Definition then_ (f g : act) : act := fun b => let '(b, out) := f b in let '(b, out') := g b in (b, out ++ out').
Declare Scope act_scope.
Infix "⨾" := then_ (at level 60, right associativity) : act_scope.
Local Open Scope act_scope.
Definition change (f : bus → bus) : act := fun b => (f b, []).

Definition setState (next : LiveBusState) : act := fun b =>
  if bool_decide (connState b = next) then (b, []) else (with_conn b next, (fun cb => Notify cb next) <$> stateSubs b).
Definition sendFrame (r : client_request) : act := fun b => (b, if bool_decide (socket b = Some OPEN) then [Send r] else []).
Definition addTypeRef (t : jstr) : act := fun b =>
  let next := default 0 (map_get (typeRefs b) t) + 1 in
  let b := with_types b (map_set (typeRefs b) t next) in
  if next =? 1 then sendFrame (Subscribe_to [t]) b else (b, []).
Definition releaseTypeRef (t : jstr) : act := fun b =>
  let next := default 0 (map_get (typeRefs b) t) - 1 in
  if 0 <? next then (with_types b (map_set (typeRefs b) t next), [])
  else sendFrame (Unsubscribe_from [t]) (with_types b (map_delete (typeRefs b) t)).
Definition clearReconnect : act := change (fun b => with_retry b (attempts b) None).
Definition clearIdle : act := change (fun b => with_idle b false).
Definition teardownSocket : act := fun b =>
  (with_socket b None, match socket b with Some OPEN | Some CONNECTING => [Close_socket] | _ => [] end).
(** The delay is that of [nextBackoffMs]; a random factor scales it. *)
Definition scheduleReconnect : act := fun b =>
  if refCount b =? 0 then (b, []) else (with_retry b (S (attempts b)) (Some (nextBackoffMs (attempts b))), []).
(** [open]; [ok] is whether the constructor of [WebSocket] throws. *)
Definition open (ok : bool) : act :=
  teardownSocket ⨾ setState Connecting ⨾
  if ok then (fun b => (with_socket b (Some CONNECTING), [New_socket])) else setState Shut ⨾ scheduleReconnect.
Definition stop : act :=
  change (fun b => with_started b false) ⨾ clearReconnect ⨾ teardownSocket ⨾ setState Shut ⨾ change (fun b => with_retry b 0 (reconnectTimer b)).
Definition ensureStarted (ok : bool) : act := fun b => if started b then (b, []) else open ok (with_started b true).
Definition scheduleIdleClose : act := clearIdle ⨾ fun b => (if 0 <? refCount b then b else with_idle b true, []).
Definition retain (ok : bool) : act := clearIdle ⨾ ensureStarted ok.
Definition release : act := fun b => if refCount b =? 0 then scheduleIdleClose b else (b, []).

(** [reconnect] up to the answer of the probe, and from there. *)
Definition reconnect (ok : bool) : act := fun b =>
  if (SESSION_PROBE_AFTER_ATTEMPTS <=? attempts b)%nat then (with_probes b (S (probes b)) (at_login b), []) else open ok b.
Definition probed (sessionExpired ok : bool) : act := fun b =>
  let b := with_probes b (pred (probes b)) (at_login b) in
  if negb (started b) then (b, [])
  else if sessionExpired then (stop ⨾ change (fun b => with_probes b (probes b) true)) b else open ok b.

(** * The handle *)

Definition add (x : nat) (l : list nat) : list nat := if bool_decide (x ∈ l) then l else l ++ [x].
Definition remove (x : nat) (l : list nat) : list nat := jfilter (fun y => negb (bool_decide (y = x))) l.
Definition when_some {A} (o : option A) (f : A → act) : act := match o with Some a => f a | None => skip end.

Definition subscribe (cb : nat) (eventType : option jstr) (ok : bool) : act :=
  change (fun b => with_subs b (add cb (eventSubs b)) (stateSubs b)) ⨾ when_some eventType addTypeRef ⨾ retain ok.
Definition unsubscribe (cb : nat) (eventType : option jstr) : act :=
  change (fun b => with_subs b (remove cb (eventSubs b)) (stateSubs b)) ⨾ when_some eventType releaseTypeRef ⨾ release.
Definition onStateChange (cb : nat) (ok : bool) : act :=
  change (fun b => with_subs b (eventSubs b) (add cb (stateSubs b))) ⨾ retain ok.
Definition offStateChange (cb : nat) : act :=
  change (fun b => with_subs b (eventSubs b) (remove cb (stateSubs b))) ⨾ release.
Definition retain_handle (h : nat) (ok : bool) : act := change (fun b => with_retained b (retainCount b + 1) (h :: unreleased b)) ⨾ retain ok.
Definition release_handle (h : nat) : act := fun b =>
  if bool_decide (h ∈ unreleased b) then (change (fun b => with_retained b (retainCount b - 1) (remove h (unreleased b))) ⨾ release) b else (b, []).
Definition forceReconnect (ok : bool) : act :=
  clearReconnect ⨾ change (fun b => with_retry b 0 (reconnectTimer b)) ⨾ teardownSocket ⨾ setState Shut ⨾
  fun b => if 0 <? refCount b then open ok b else (b, []).

(** * The socket's callbacks *)

Definition onopen : act :=
  change (fun b => with_socket b (Some OPEN)) ⨾ change (fun b => with_retry b 0 (reconnectTimer b)) ⨾
  (fun b => if (0 <? length (typeRefs b))%nat then sendFrame (Subscribe_to (map_keys (typeRefs b))) b else (b, [])) ⨾
  setState Open.
Definition onmessage (raw : option json) : act := fun b =>
  match raw with
  | Some (JObj fields) =>
      match map_get fields (js "type") with
      | Some (JStr t) =>
          if bool_decide (t = js "subscribed") || bool_decide (t = js "unsubscribed") then (b, [])
          else if bool_decide (t = js "ping") then sendFrame Pong b
          else
            match map_get fields (js "ts"), map_get fields (js "data") with
            | Some (JStr ts), Some (JObj data) => (b, (fun cb => Deliver cb (mkEvent t ts data)) <$> eventSubs b)
            | _, _ => (b, [])
            end
      | _ => (b, [])
      end
  | _ => (b, [])
  end.
Definition onclose : act := change (fun b => with_socket b None) ⨾ setState Shut ⨾ scheduleReconnect.

(** * Everything that happens to a bus *)

Inductive bus_happening :=
| Subscribe (cb : nat) (eventType : option jstr) (ok : bool)
| Unsubscribe (cb : nat) (eventType : option jstr)
| On_state (cb : nat) (ok : bool)
| Off_state (cb : nat)
| Retain (h : nat) (ok : bool)
| Release (h : nat)
| Force_reconnect (ok : bool)
| Socket_opened
| Socket_message (raw : option json)
| Socket_closing
| Socket_closed
| Reconnect_due (ok : bool)
| Idle_due
| Probe_answered (sessionExpired ok : bool).

(** Whether it can happen: sockets and timers only act while the bus holds them. *)
Definition can_happen (h : bus_happening) (b : bus) : bool :=
  match h with
  | Retain h _ => bool_decide (h ∉ unreleased b)
  | Socket_opened => bool_decide (socket b = Some CONNECTING)
  | Socket_message _ | Socket_closing | Socket_closed => bool_decide (is_Some (socket b))
  | Reconnect_due _ => bool_decide (is_Some (reconnectTimer b))
  | Idle_due => idleTimer b
  | Probe_answered _ _ => (0 <? probes b)%nat
  | _ => true
  end.
Definition happens (h : bus_happening) : act :=
  match h with
  | Subscribe cb t ok => subscribe cb t ok
  | Unsubscribe cb t => unsubscribe cb t
  | On_state cb ok => onStateChange cb ok
  | Off_state cb => offStateChange cb
  | Retain h ok => retain_handle h ok
  | Release h => release_handle h
  | Force_reconnect ok => forceReconnect ok
  | Socket_opened => onopen
  | Socket_message raw => onmessage raw
  | Socket_closing => change (fun b => with_socket b (Some CLOSING))
  | Socket_closed => onclose
  | Reconnect_due ok => clearReconnect ⨾ reconnect ok
  | Idle_due => clearIdle ⨾ fun b => if refCount b =? 0 then stop b else (b, [])
  | Probe_answered expired ok => probed expired ok
  end.
(** A history of the bus. *)
Fixpoint bus_run (hs : list bus_happening) (b : bus) : bus * list bus_effect :=
  match hs with
  | [] => (b, [])
  | h :: hs => let '(b, out) := happens h b in let '(b, out') := bus_run hs b in (b, out ++ out')
  end.
Fixpoint possible (hs : list bus_happening) (b : bus) : bool :=
  match hs with [] => true | h :: hs => can_happen h b && possible hs (happens h b).1 end.

(** * Steps, by their states *)

Lemma then_1 f g b : ((f ⨾ g) b).1 = (g (f b).1).1.
Proof. unfold then_. destruct (f b) as [b1 o1]. cbn. by destruct (g b1). Qed.
Lemma then_2 f g b : ((f ⨾ g) b).2 = (f b).2 ++ (g (f b).1).2.
Proof. unfold then_. destruct (f b) as [b1 o1]. cbn. by destruct (g b1). Qed.
Lemma setState_1 s b : (setState s b).1 = with_conn b s.
Proof. unfold setState. case_bool_decide as H; [|done]. rewrite <- H. by destruct b. Qed.
Lemma types_1 (o : option jstr) f b : (f = addTypeRef ∨ f = releaseTypeRef) → ∃ m, (when_some o f b).1 = with_types b m.
Proof.
  intros Hf. destruct o as [t|]; cbn; [|exists (typeRefs b); by destruct b]. unfold addTypeRef, releaseTypeRef, sendFrame in Hf.
  destruct Hf as [->| ->]; case_match; by eexists.
Qed.
Lemma scheduleReconnect_1 b :
  (scheduleReconnect b).1 = if refCount b =? 0 then b else with_retry b (S (attempts b)) (Some (nextBackoffMs (attempts b))).
Proof. unfold scheduleReconnect. by case_match. Qed.
Lemma stop_1 b : (stop b).1 = with_retry (with_conn (with_socket (with_retry (with_started b false) (attempts b) None) None) Shut) 0 None.
Proof. unfold stop. by rewrite !then_1, setState_1. Qed.

(** Who listens, whatever the socket and its retries. *)
Definition same_listeners (b b' : bus) : Prop :=
  eventSubs b' = eventSubs b ∧ stateSubs b' = stateSubs b ∧ retainCount b' = retainCount b ∧ unreleased b' = unreleased b ∧
  idleTimer b' = idleTimer b ∧ started b' = started b ∧ at_login b' = at_login b.
(** Something is under way that ends in a connection or in the next try. *)
Definition alive (b : bus) : Prop := is_Some (socket b) ∨ is_Some (reconnectTimer b) ∨ (0 < probes b)%nat.

Lemma refCount_same b b' : same_listeners b b' → refCount b' = refCount b.
Proof. intros (H1 & H2 & H3 & _). unfold refCount. by rewrite H1, H2, H3. Qed.
Lemma open_facts ok b : same_listeners b (open ok b).1 ∧ (ok = true ∨ refCount b ≠ 0 → alive (open ok b).1).
Proof.
  unfold open. rewrite !then_1, setState_1. destruct ok; cbn [fst]; [by split; [split_and!|intros _; left; eexists]|].
  rewrite then_1, setState_1, scheduleReconnect_1. case_match; (split; [by split_and!|]).
  - intros [?|Hn]; [done|]. exfalso. apply Hn. by apply Z.eqb_eq.
  - intros _. right. left. by eexists.
Qed.

(** * The invariant *)

Record bus_ok (b : bus) : Prop := {
  retained : retainCount b = Z.of_nat (length (unreleased b));
  handles_once : NoDup (unreleased b);
  idle_armed : refCount b = 0 → started b = true → idleTimer b = true;
  listened_started : 0 < refCount b → started b = true ∨ at_login b = true;
}.
Lemma bus_ok_start : bus_ok makeLiveBus.
Proof. by split; [|apply NoDup_nil|..]. Qed.
Lemma refCount_nonneg b : bus_ok b → 0 ≤ refCount b.
Proof. intros [H _ _ _]. unfold refCount. rewrite H. lia. Qed.
Lemma bus_ok_same b b' : bus_ok b → same_listeners b b' → bus_ok b'.
Proof.
  intros [H1 H2 H3 H4] Hs. pose proof (refCount_same b b' Hs) as Hr. destruct Hs as (S1 & S2 & S3 & S4 & S5 & S6 & S7).
  split; rewrite ?S3, ?S4, ?S5, ?S6, ?S7, ?Hr; done.
Qed.

(** The steps of the handle, up to their last call. *)
Record listening (b : bus) : Prop := {
  l_retained : retainCount b = Z.of_nat (length (unreleased b));
  l_once : NoDup (unreleased b);
  l_started : 0 < refCount b → started b = true ∨ at_login b = true;
}.
Definition same_connection (b b' : bus) : Prop := socket b' = socket b ∧ reconnectTimer b' = reconnectTimer b ∧ probes b' = probes b ∧ started b' = started b.
Definition running (b : bus) : Prop := started b = true → alive b.
Lemma alive_same b b' : same_connection b b' → running b → running b'.
Proof. unfold running, alive. intros (-> & -> & -> & ->). done. Qed.

Lemma retain_facts ok b :
  retainCount b = Z.of_nat (length (unreleased b)) → NoDup (unreleased b) → 0 < refCount b →
  bus_ok (retain ok b).1 ∧ (running b → alive (retain ok b).1).
Proof.
  intros H1 H2 Hr. unfold retain, clearIdle, change. rewrite then_1. cbn [fst]. set (b1 := with_idle b false). assert (0 < refCount b1) as Hr1 by done.
  unfold ensureStarted. destruct (started b1) eqn:Hs; cbn [fst].
  - split; [|intros Ha; by apply Ha]. split; [done..| |by left]. intros H0. rewrite H0 in Hr1. done.
  - set (b2 := with_started b1 true). destruct (open_facts ok b2) as [Ho Ha]. split; [|intros _; apply Ha; right; cbn in Hr1; change (refCount b2) with (refCount b1); lia].
    eapply bus_ok_same; [|exact Ho]. split; [done..| |by left]. intros H0. change (refCount b2) with (refCount b1) in H0. lia.
Qed.
Lemma release_facts b : listening b → bus_ok (release b).1 ∧ same_connection b (release b).1.
Proof.
  intros [H1 H2 H4]. unfold release. destruct (refCount b =? 0) eqn:E; [apply Z.eqb_eq in E|apply Z.eqb_neq in E]; [|by split; [split|]].
  unfold scheduleIdleClose, clearIdle, change. rewrite then_1. cbn [fst]. change (refCount (with_idle b false)) with (refCount b). rewrite E. cbn [Z.ltb Z.compare].
  split; [|done]. by split.
Qed.
Lemma stop_facts b : bus_ok b → (refCount b = 0 ∨ at_login b = true) → bus_ok (stop b).1 ∧ started (stop b).1 = false.
Proof.
  intros [H1 H2 H3 H4] Hr. rewrite stop_1. split; [|done]. split; [done..| ].
  cbn. unfold refCount in *. cbn. destruct Hr as [Hr|Hl]; [lia|by right].
Qed.

Lemma length_remove (x : nat) l : NoDup l → x ∈ l → S (length (remove x l)) = length l.
Proof.
  intros Hn Hx. induction Hn as [|y l Hy Hn IH]; [by apply not_elem_of_nil in Hx|]. unfold remove, jfilter in *. cbn [List.filter].
  case_bool_decide as E; cbn [negb length].
  - subst y. f_equal. change (length (jfilter (fun y => negb (bool_decide (y = x))) l) = length l). rewrite jfilter_all; [done|].
    intros z Hz. apply negb_true_iff, bool_decide_eq_false. by intros ->.
  - apply elem_of_cons in Hx as [->|Hx]; [done|]. by rewrite IH.
Qed.
Lemma remove_NoDup (x : nat) l : NoDup l → NoDup (remove x l).
Proof. intros H. eapply sublist_NoDup; [exact H|]. apply jfilter_sublist. Qed.
Lemma length_add x l : (0 < length (add x l))%nat.
Proof. unfold add. case_bool_decide as H; [destruct l; [by apply not_elem_of_nil in H|cbn; lia]|]. rewrite length_app. cbn. lia. Qed.
Lemma length_remove_le x l : (length (remove x l) ≤ length l)%nat.
Proof. apply sublist_length, jfilter_sublist. Qed.

(** What a step keeps: the invariant, and unless the connection is lost while
    nobody listens, that something is under way. *)
Definition idle_loss (h : bus_happening) (b : bus) : bool :=
  (refCount b =? 0) && match h with Force_reconnect _ | Socket_closed | Reconnect_due false | Probe_answered _ false => true | _ => false end.
Definition good_step (h : bus_happening) (b : bus) (r : bus) : Prop := bus_ok r ∧ (idle_loss h b = false → running b → running r).
Lemma good_released h b b1 : listening b1 → same_connection b b1 → good_step h b (release b1).1.
Proof.
  intros Hl Hc. destruct (release_facts b1 Hl) as [H1 H2]. split; [done|]. intros _ Hr. eapply alive_same; [exact H2|]. by eapply alive_same.
Qed.
Lemma good_retained h b b1 ok :
  retainCount b1 = Z.of_nat (length (unreleased b1)) → NoDup (unreleased b1) → 0 < refCount b1 → same_connection b b1 → good_step h b (retain ok b1).1.
Proof.
  intros H1 H2 H3 Hc. destruct (retain_facts ok b1 H1 H2 H3) as [K1 K2]. split; [done|]. intros _ Hr _. apply K2. by eapply alive_same.
Qed.
Lemma listening_of b : bus_ok b → listening b. Proof. intros []. by split. Qed.

Lemma open_good h b b1 ok :
  bus_ok b → same_listeners b b1 → (idle_loss h b = false → ok = true ∨ refCount b ≠ 0) → good_step h b (open ok b1).1.
Proof.
  intros Hok Hs Hl. destruct (open_facts ok b1) as [H1 H2]. rewrite (refCount_same b b1 Hs) in H2. split.
  - eapply bus_ok_same; [|exact H1]. by eapply bus_ok_same.
  - intros Hi _ _. by apply H2, Hl.
Qed.
Lemma force_good ok b : bus_ok b → good_step (Force_reconnect ok) b (forceReconnect ok b).1.
Proof.
  intros Hok. unfold forceReconnect. rewrite !then_1, setState_1. cbn [change clearReconnect teardownSocket fst]. set (b1 := with_conn _ _).
  assert (same_listeners b b1) as Hs by (by split_and!). rewrite (refCount_same b b1 Hs). pose proof (refCount_nonneg b Hok). case_match.
  - apply open_good; [done..|]. intros _. right. lia.
  - split; [by eapply bus_ok_same|]. unfold idle_loss. replace (refCount b) with 0 by lia. done.
Qed.
Lemma step_good h b : bus_ok b → can_happen h b = true → good_step h b (happens h b).1.
Proof.
  intros Hok Hcan. pose proof (refCount_nonneg b Hok) as Hnn. pose proof Hok as [H1 H2 H3 H4].
  destruct h as [cb t ok|cb t|cb ok|cb|h ok|h|ok| |raw| | |ok| |ex ok]; cbn [happens can_happen] in *.
  - unfold subscribe. rewrite !then_1. cbn [change fst]. set (b1 := with_subs b _ _).
    destruct (types_1 t addTypeRef b1) as [m ->]; [by left|]. apply good_retained; [done..| |done].
    unfold refCount. cbn. pose proof (length_add cb (eventSubs b)). lia.
  - unfold unsubscribe. rewrite !then_1. cbn [change fst]. set (b1 := with_subs b _ _).
    destruct (types_1 t releaseTypeRef b1) as [m ->]; [by right|]. apply good_released; [|done]. split; [done..|].
    intros Hr. apply H4. unfold refCount in *. cbn in Hr. pose proof (length_remove_le cb (eventSubs b)). lia.
  - unfold onStateChange. rewrite !then_1. cbn [change fst]. set (b1 := with_subs b _ _). apply good_retained; [done..| |done].
    unfold refCount. cbn. pose proof (length_add cb (stateSubs b)). lia.
  - unfold offStateChange. rewrite !then_1. cbn [change fst]. set (b1 := with_subs b _ _). apply good_released; [|done]. split; [done..|].
    intros Hr. apply H4. unfold refCount in *. cbn in Hr. pose proof (length_remove_le cb (stateSubs b)). lia.
  - apply bool_decide_eq_true in Hcan. unfold retain_handle. rewrite then_1. cbn [change fst]. apply good_retained; [| | |done].
    + cbn. lia.
    + cbn. by apply NoDup_cons.
    + unfold refCount in *. cbn. lia.
  - unfold release_handle. case_bool_decide as Hin; [|by split]. rewrite then_1. cbn [change fst]. pose proof (length_remove h (unreleased b) H2 Hin) as Hl.
    apply good_released; [|done]. split; cbn; [lia|by apply remove_NoDup|]. intros Hr. apply H4. unfold refCount in *. cbn in Hr. lia.
  - apply force_good; done.
  - unfold onopen. rewrite !then_1, setState_1. cbn [change fst]. set (b1 := with_retry (with_socket b _) _ _).
    assert (∀ b', b' = b1 → good_step Socket_opened b (with_conn b' Open)) as Hg.
    { intros b' ->. split; [eapply bus_ok_same; [exact Hok|by split_and!]|]. intros _ _ _. left. by eexists. }
    apply Hg. by case_match.
  - assert ((onmessage raw b).1 = b) as ->; [|by split]. unfold onmessage, sendFrame. by repeat case_match.
  - split; [eapply bus_ok_same; [exact Hok|by split_and!]|]. intros _ _ _. left. by eexists.
  - unfold onclose. rewrite !then_1, setState_1, scheduleReconnect_1. cbn [change fst]. set (b1 := with_conn (with_socket b _) _).
    assert (bus_ok b1) as Hok1 by (eapply bus_ok_same; [exact Hok|by split_and!]). change (refCount b1) with (refCount b). unfold good_step, idle_loss.
    destruct (refCount b =? 0); cbn [andb]; [by split|]. split; [eapply bus_ok_same; [exact Hok1|by split_and!]|]. intros _ _ _. right. left. by eexists.
  - rewrite then_1. cbn [clearReconnect change fst]. set (b1 := with_retry b _ _). unfold reconnect. case_match; cbn [fst].
    + split; [eapply bus_ok_same; [exact Hok|by split_and!]|]. intros _ _ _. right. right. cbn. lia.
    + apply open_good; [done|by split_and!|]. unfold idle_loss. destruct ok; [by left|]. rewrite andb_true_r. intros ?%Z.eqb_neq. by right.
  - rewrite then_1. cbn [clearIdle change fst]. change (refCount (with_idle b false)) with (refCount b). case_match eqn:E.
    + apply Z.eqb_eq in E. set (b1 := with_idle b false). rewrite stop_1. split; [|by intros _ _ [=]]. split; [done..|]. cbn. unfold refCount in *. cbn. lia.
    + apply Z.eqb_neq in E. split; [|by intros _]. split; [done..|]. done.
  - unfold probed. set (b1 := with_probes b _ _). assert (bus_ok b1) as Hok1 by (eapply bus_ok_same; [exact Hok|by split_and!]).
    change (started b1) with (started b). destruct (started b) eqn:Hs; cbn [negb]; [|by split; [|intros _ _; unfold running; cbn; rewrite Hs]].
    destruct ex; [|apply open_good; [done|by split_and!|]].
    + rewrite then_1, stop_1. cbn [change fst]. split; [|by intros _ _ [=]]. split; [done..|]. by right.
    + unfold idle_loss. destruct ok; [by left|]. rewrite andb_true_r. intros ?%Z.eqb_neq. by right.
Qed.

(** * Connecting *)

Fixpoint calm (hs : list bus_happening) (b : bus) : bool :=
  match hs with [] => true | h :: hs => negb (idle_loss h b) && calm hs (happens h b).1 end.
Lemma bus_run_cons h hs b : (bus_run (h :: hs) b).1 = (bus_run hs (happens h b).1).1.
Proof. cbn [bus_run]. destruct (happens h b) as [b1 o1]. cbn [fst]. by destruct (bus_run hs b1). Qed.
Lemma bus_run_ok hs b : bus_ok b → possible hs b = true → bus_ok (bus_run hs b).1 ∧ (calm hs b = true → running b → running (bus_run hs b).1).
Proof.
  revert b. induction hs as [|h hs IH]; intros b Hok Hp; [done|]. rewrite bus_run_cons. cbn [possible calm] in *. apply andb_true_iff in Hp as [H1 H2].
  destruct (step_good h b Hok H1) as [K1 K2]. destruct (IH _ K1 H2) as [I1 I2]. split; [done|]. intros [L1%negb_true_iff L2]%andb_true_iff Hr. auto.
Qed.

(** As long as the connection is not lost, and no attempt fails at once,
    while nobody listens, a bus somebody listens to is never stranded: it has a
    socket, or a timer for the next attempt, or a probe under way, unless the
    session expired and the tab has gone to the login page. *)
Theorem never_stranded hs :
  let b := (bus_run hs makeLiveBus).1 in
  possible hs makeLiveBus = true → calm hs makeLiveBus = true → 0 < refCount b → alive b ∨ at_login b = true.
Proof.
  intros b Hp Hc Hr. destruct (bus_run_ok hs _ bus_ok_start Hp) as [H1 H2]. fold b in H1, H2.
  destruct (listened_started _ H1 Hr) as [Hs|Hl]; [|by right]. left. by apply H2.
Qed.
(** Whatever happened, a started bus nobody listens to has its idle timer
    armed, and when it fires the bus has no socket, no attempt pending, and is
    as if never started. *)
Theorem unused_bus_closes hs :
  let b := (bus_run hs makeLiveBus).1 in
  possible hs makeLiveBus = true → refCount b = 0 → started b = true →
  can_happen Idle_due b = true ∧
  let b' := (happens Idle_due b).1 in started b' = false ∧ socket b' = None ∧ reconnectTimer b' = None ∧ connState b' = Shut ∧ attempts b' = 0%nat.
Proof.
  intros b Hp Hr Hs. destruct (bus_run_ok hs _ bus_ok_start Hp) as [H1 _]. fold b in H1. split; [by apply H1|]. cbn [happens]. rewrite then_1.
  cbn [clearIdle change fst]. change (refCount (with_idle b false)) with (refCount b). rewrite Hr. cbn [Z.eqb]. by rewrite stop_1.
Qed.

(** A bus that waits for nothing. *)
Definition stranded (b : bus) : Prop := started b = true ∧ ¬ alive b ∧ 0 < refCount b ∧ idleTimer b = false.
(** The connection is lost in the five seconds after the last listener left, and
    then one comes: no attempt is scheduled, and none is started. *)
Theorem idle_loss_strands :
  let hs := [Subscribe 1 None true; Socket_opened; Unsubscribe 1 None; Socket_closed; Subscribe 2 None true] in
  possible hs makeLiveBus = true ∧ stranded (bus_run hs makeLiveBus).1.
Proof. split; [done|]. split; [done|]. split; [|done]. by intros [[? [=]]|[[? [=]]|?%Nat.lt_irrefl]]. Qed.
Lemma bounded_delay attempts : BASE_MS ≤ nextBackoffMs attempts ≤ CAP_MS.
Proof. unfold nextBackoffMs, BASE_MS, CAP_MS. pose proof (Z.pow_pos_nonneg 2 (Z.of_nat attempts)). lia. Qed.
Lemma retain_stranded b b1 ok :
  stranded b → same_connection b b1 → 0 < refCount b1 → stranded (retain ok b1).1.
Proof.
  intros (Hs & Ha & _ & _) (C1 & C2 & C3 & C4) Hr. unfold retain, clearIdle, change. rewrite then_1. cbn [fst]. unfold ensureStarted.
  change (started (with_idle b1 false)) with (started b1). rewrite C4, Hs. split; [cbn; congruence|]. unfold alive in *. cbn. rewrite C1, C2, C3. done.
Qed.
Lemma release_stranded b b1 : stranded b → same_connection b b1 → idleTimer b1 = false → 0 ≤ refCount b1 → stranded (release b1).1 ∨ refCount (release b1).1 = 0.
Proof.
  intros (Hs & Ha & _ & _) (C1 & C2 & C3 & C4) Hi Hr. unfold release. destruct (refCount b1 =? 0) eqn:E.
  - right. apply Z.eqb_eq in E. unfold scheduleIdleClose, clearIdle, change. rewrite then_1. cbn [fst]. change (refCount (with_idle b1 false)) with (refCount b1). by rewrite E.
  - left. apply Z.eqb_neq in E. cbn [fst]. split; [congruence|]. unfold alive in *. rewrite C1, C2, C3. split_and!; try done. lia.
Qed.
(** A stranded bus stays so, whoever comes and whoever leaves, until the user
    forces a reconnect or the last listener has left. *)
Lemma stranded_stays h b :
  bus_ok b → stranded b → can_happen h b = true → (∀ ok, h ≠ Force_reconnect ok) → stranded (happens h b).1 ∨ refCount (happens h b).1 = 0.
Proof.
  intros Hok Hst Hcan Hnf. pose proof Hok as [H1 H2 H3 H4]. pose proof Hst as (Hs & Ha & Hr & Hi). unfold alive in Ha.
  destruct h as [cb t ok|cb t|cb ok|cb|h ok|h|ok| |raw| | |ok| |ex ok]; cbn [happens can_happen] in *; try (by destruct (Hnf ok));
    try (apply bool_decide_eq_true in Hcan); try congruence; try (by exfalso; apply Ha; auto).
  - left. unfold subscribe. rewrite !then_1. cbn [change fst]. set (b1 := with_subs b _ _). destruct (types_1 t addTypeRef b1) as [m ->]; [by left|].
    apply (retain_stranded b); [done..|]. unfold refCount. cbn. pose proof (length_add cb (eventSubs b)). lia.
  - unfold unsubscribe. rewrite !then_1. cbn [change fst]. set (b1 := with_subs b _ _). destruct (types_1 t releaseTypeRef b1) as [m ->]; [by right|].
    apply (release_stranded b); [done..|]. unfold refCount. cbn. lia.
  - left. unfold onStateChange. rewrite !then_1. cbn [change fst]. apply (retain_stranded b); [done..|]. unfold refCount. cbn. pose proof (length_add cb (stateSubs b)). lia.
  - unfold offStateChange. rewrite !then_1. cbn [change fst]. apply (release_stranded b); [done..|]. unfold refCount. cbn. lia.
  - left. unfold retain_handle. rewrite then_1. cbn [change fst]. apply (retain_stranded b); [done..|]. unfold refCount in *. cbn. lia.
  - unfold release_handle. case_bool_decide as Hin; [|by left]. rewrite then_1. cbn [change fst]. pose proof (length_remove h (unreleased b) H2 Hin) as Hl.
    apply (release_stranded b); [done..|]. unfold refCount in *. cbn. lia.
  - exfalso. apply Ha. right. right. by apply Nat.ltb_lt.
Qed.

(** * Declared interest *)

(** The requests sent on the socket the bus has now. *)
Definition on_this_socket (rs : list client_request) (e : bus_effect) : list client_request :=
  match e with New_socket => [] | Send r => rs ++ [r] | _ => rs end.
Definition sent_now (out : list bus_effect) : list client_request := foldl on_this_socket [] out.
(** What they declare. *)
Definition declare_ (l : list jstr) (r : client_request) : list jstr :=
  match r with
  | Subscribe_to ts => l ++ ts
  | Unsubscribe_from ts => without ts l
  | Pong => l
  end.
Definition declared (rs : list client_request) : list jstr := foldl declare_ [] rs.
Definition live_types (ts : list jstr) : Prop := NoDup ts ∧ ∀ t, t ∈ ts → isLiveEventType t = true.
Definition typed_request (r : client_request) : Prop := match r with Subscribe_to ts | Unsubscribe_from ts => live_types ts | Pong => True end.
(** Components ask for types of [LiveEvent]. *)
Definition typed (h : bus_happening) : bool :=
  match h with Subscribe _ (Some t) _ | Unsubscribe _ (Some t) => isLiveEventType t | _ => true end.

Record interest (b : bus) (rs : list client_request) : Prop := {
  types_ok : map_ok (typeRefs b) ∧ ∀ t, t ∈ map_keys (typeRefs b) → isLiveEventType t = true;
  requests_ok : Forall typed_request rs;
  fresh_silent : socket b = Some CONNECTING → rs = [];
  open_agrees : socket b = Some OPEN → ∀ t, t ∈ declared rs ↔ t ∈ map_keys (typeRefs b);
}.
Lemma interest_same b b' rs : interest b rs → typeRefs b' = typeRefs b → socket b' = socket b → interest b' rs.
Proof. intros [H1 H2 H3 H4] E1 E2. by split; rewrite ?E1, ?E2. Qed.
Definition keeps (f : act) : Prop := ∀ b rs, interest b rs → interest (f b).1 (foldl on_this_socket rs (f b).2).
Lemma keeps_then f g : keeps f → keeps g → keeps (f ⨾ g).
Proof. intros Hf Hg b rs H. rewrite then_1, then_2, foldl_app. by apply Hg, Hf. Qed.
Lemma keeps_at f g b rs : interest (f b).1 (foldl on_this_socket rs (f b).2) → keeps g → interest ((f ⨾ g) b).1 (foldl on_this_socket rs ((f ⨾ g) b).2).
Proof. intros Hf Hg. rewrite then_1, then_2, foldl_app. by apply Hg. Qed.
(** Nothing but timers, listeners and counts. *)
Lemma keeps_change f : (∀ b, typeRefs (f b) = typeRefs b ∧ socket (f b) = socket b) → keeps (change f).
Proof. intros Hf b rs H. destruct (Hf b) as [E1 E2]. by apply (interest_same b). Qed.
Lemma keeps_skip : keeps skip. Proof. by intros b rs H. Qed.
Lemma keeps_setState s : keeps (setState s).
Proof.
  intros b rs H. rewrite setState_1. assert (foldl on_this_socket rs (setState s b).2 = rs) as ->; [|by apply (interest_same b)].
  unfold setState. case_match; [done|]. cbn [snd]. induction (stateSubs b) as [|x l IH]; [done|]. exact IH.
Qed.
Lemma keeps_pong : keeps (sendFrame Pong).
Proof.
  intros b rs [H1 H2 H3 H4]. unfold sendFrame. case_bool_decide as Ho; [|by split]. cbn. split; [done| | |].
  - apply Forall_app. by split; [|constructor].
  - rewrite Ho. by intros [=].
  - intros _. unfold declared. rewrite foldl_app. by apply H4.
Qed.
Lemma keeps_scheduleReconnect : keeps scheduleReconnect.
Proof. intros b rs H. unfold scheduleReconnect. case_match; [done|]. by apply (interest_same b). Qed.
Lemma keeps_teardown : keeps teardownSocket.
Proof.
  intros b rs [H1 H2 H3 H4]. unfold teardownSocket. cbn [fst snd].
  assert (∀ out, out = [] ∨ out = [Close_socket] → foldl on_this_socket rs out = rs) as Ho by (by intros out [->| ->]).
  rewrite Ho by (destruct (socket b) as [[]|]; auto). by split.
Qed.
Lemma keeps_open ok : keeps (open ok).
Proof.
  unfold open. repeat apply keeps_then; [apply keeps_teardown|apply keeps_setState|]. destruct ok.
  - intros b rs [H1 H2 H3 H4]. by split; [|constructor|..].
  - apply keeps_then; [apply keeps_setState|apply keeps_scheduleReconnect].
Qed.
Lemma keeps_stop : keeps stop.
Proof. unfold stop. repeat apply keeps_then; first [apply keeps_teardown|apply keeps_setState|by apply keeps_change]. Qed.
Lemma keeps_retain ok : keeps (retain ok).
Proof.
  unfold retain. apply keeps_then; [by apply keeps_change|]. intros b rs H. unfold ensureStarted. case_match; [done|]. apply keeps_open. by apply (interest_same b).
Qed.
Lemma keeps_release : keeps release.
Proof. intros b rs H. unfold release. case_match; [|done]. unfold scheduleIdleClose. apply keeps_then; [by apply keeps_change| |done].
  clear. intros b rs H. cbn [fst snd foldl]. apply (interest_same b); [done|by case_match..].
Qed.

Lemma map_keys_delete (m : list (jstr * Z)) k t : map_ok m → t ∈ map_keys (map_delete m k) ↔ t ∈ map_keys m ∧ t ≠ k.
Proof.
  intros Hm. rewrite <- !map_has_key. unfold map_has. rewrite map_get_delete by done. rewrite !bool_decide_eq_true.
  case_bool_decide; naive_solver.
Qed.
Lemma elem_of_map_keys_set (m : list (jstr * Z)) k v t : t ∈ map_keys (map_set m k v) ↔ t = k ∨ t ∈ map_keys m.
Proof.
  rewrite <- !map_has_key. unfold map_has. rewrite map_get_set, !bool_decide_eq_true. case_bool_decide as E; [|naive_solver].
  subst. split; [by left|]. intros _. by eexists.
Qed.
Lemma elem_of_without ts l t : t ∈ without ts l ↔ t ∈ l ∧ t ∉ ts.
Proof. unfold without. rewrite elem_of_jfilter, negb_true_iff, bool_decide_eq_false. tauto. Qed.
(** A request about types, sent when the socket is open. *)
Lemma keeps_send r b b' rs :
  interest b rs → socket b' = socket b → typed_request r → map_ok (typeRefs b') → (∀ t, t ∈ map_keys (typeRefs b') → isLiveEventType t = true) →
  (∀ l, (∀ t, t ∈ l ↔ t ∈ map_keys (typeRefs b)) → ∀ t, t ∈ declare_ l r ↔ t ∈ map_keys (typeRefs b')) →
  interest (sendFrame r b').1 (foldl on_this_socket rs (sendFrame r b').2).
Proof.
  intros [H1 H2 H3 H4] Hs Hr Hm Hl Hd. unfold sendFrame. rewrite Hs. case_bool_decide as Ho; cbn [fst snd foldl on_this_socket].
  - split; [done|by apply Forall_app; split; [|constructor]|by rewrite Hs, Ho|]. intros _ t. unfold declared. rewrite foldl_app. by apply Hd, H4.
  - split; [done|done|by rewrite Hs|by rewrite Hs].
Qed.
Lemma keeps_addTypeRef t : isLiveEventType t = true → keeps (addTypeRef t).
Proof.
  intros Ht b rs H. pose proof H as [[H1 H1'] H2 H3 H4]. unfold addTypeRef. set (m := map_set (typeRefs b) t _).
  assert (map_ok m) as Hm by (by apply map_set_ok). assert (∀ x, x ∈ map_keys m ↔ x = t ∨ x ∈ map_keys (typeRefs b)) as Hk by (intros; apply elem_of_map_keys_set).
  assert (∀ x, x ∈ map_keys m → isLiveEventType x = true) as Hl by (intros x [->|?]%Hk; auto). case_match eqn:E.
  - apply (keeps_send _ b); try done.
    + split; [apply NoDup_singleton|]. by intros x ->%list_elem_of_singleton.
    + intros l Hd x. cbn. rewrite elem_of_app, list_elem_of_singleton, Hd, Hk. tauto.
  - cbn. split; try done. intros Ho x. rewrite (H4 Ho), Hk. split; [by right|]. intros [->|?]; [|done]. apply map_has_key. unfold map_has.
    rewrite bool_decide_eq_true. destruct (map_get (typeRefs b) t); [by eexists|done].
Qed.
Lemma keeps_releaseTypeRef t : isLiveEventType t = true → keeps (releaseTypeRef t).
Proof.
  intros Ht b rs H. pose proof H as [[H1 H1'] H2 H3 H4]. unfold releaseTypeRef. case_match eqn:E.
  - assert (t ∈ map_keys (typeRefs b)) as Hin.
    { apply map_has_key. unfold map_has. rewrite bool_decide_eq_true. destruct (map_get (typeRefs b) t); [by eexists|done]. }
    cbn [fst snd foldl]. split; [split; [by apply map_set_ok|]|done|done|]; cbn [typeRefs with_types socket].
    + intros x [->|?]%elem_of_map_keys_set; auto.
    + intros Ho x. rewrite (H4 Ho), elem_of_map_keys_set. split; [by right|]. by intros [->|?].
  - apply (keeps_send _ b); cbn [typeRefs with_types declare_]; try done.
    + split; [apply NoDup_singleton|]. by intros x ->%list_elem_of_singleton.
    + by apply map_delete_ok.
    + intros x [? _]%map_keys_delete; auto.
    + intros l Hd x. rewrite elem_of_without, list_elem_of_singleton, Hd, map_keys_delete by done. done.
Qed.
Lemma keeps_when t f : (∀ x, isLiveEventType x = true → keeps (f x)) → (match t with Some x => isLiveEventType x | None => true end) = true → keeps (when_some t f).
Proof. intros Hf Ht. destruct t as [x|]; [by apply Hf|apply keeps_skip]. Qed.
Lemma keeps_onopen b rs : interest b rs → socket b = Some CONNECTING → interest (onopen b).1 (foldl on_this_socket rs (onopen b).2).
Proof.
  intros H Hs. pose proof H as [[H1 H1'] H2 H3 H4]. specialize (H3 Hs) as ->. unfold onopen. rewrite !then_1, !then_2, !foldl_app.
  cbn [change fst snd foldl]. set (b1 := with_retry (with_socket b _) _ _). apply keeps_setState. case_match eqn:E.
  - unfold sendFrame. cbn. split; [done| |done|]; cbn.
    + constructor; [|done]. split; [exact H1|done].
    + intros _ t. rewrite ?app_nil_l. done.
  - cbn. split; [done|done|done|]. intros _ t. cbn in *. destruct (typeRefs b); [done|by cbn in E].
Qed.
Lemma keeps_happens h b rs : typed h = true → can_happen h b = true → interest b rs → interest (happens h b).1 (foldl on_this_socket rs (happens h b).2).
Proof.
  intros Ht Hcan H. destruct h as [cb t ok|cb t|cb ok|cb|h ok|h|ok| |raw| | |ok| |ex ok]; cbn [happens can_happen typed] in *.
  - apply keeps_then; [by apply keeps_change|apply keeps_then; [|apply keeps_retain]|exact H]. apply keeps_when; [apply keeps_addTypeRef|done].
  - apply keeps_then; [by apply keeps_change|apply keeps_then; [|apply keeps_release]|done]. apply keeps_when; [apply keeps_releaseTypeRef|done].
  - apply keeps_then; [by apply keeps_change|apply keeps_retain|done].
  - apply keeps_then; [by apply keeps_change|apply keeps_release|done].
  - apply keeps_then; [by apply keeps_change|apply keeps_retain|done].
  - unfold release_handle. case_match; [|done]. apply keeps_then; [by apply keeps_change|apply keeps_release|done].
  - refine (keeps_then _ _ _ (keeps_then _ _ _ (keeps_then _ _ keeps_teardown (keeps_then _ _ (keeps_setState _) _))) b rs H); [by apply keeps_change..|].
    clear. intros b rs H. case_match; [by apply keeps_open|done].
  - apply keeps_onopen; [done|]. by apply bool_decide_eq_true in Hcan.
  - unfold onmessage. repeat (case_match; try done); [by apply keeps_pong|]. cbn [fst snd].
    assert (∀ e l, foldl on_this_socket rs ((fun cb => Deliver cb e) <$> l) = rs) as -> by (intros e l; induction l as [|x l IH]; [done|exact IH]). done.
  - destruct H as [H1 H2 H3 H4]. by split.
  - refine (keeps_then _ _ _ (keeps_then _ _ (keeps_setState _) keeps_scheduleReconnect) b rs H). clear. intros b rs [H1 H2 H3 H4]. by split.
  - refine (keeps_then _ _ _ _ b rs H); [by apply keeps_change|]. clear. intros b rs H. unfold reconnect. case_match; [|by apply keeps_open].
    by apply (interest_same b).
  - refine (keeps_then _ _ _ _ b rs H); [by apply keeps_change|]. clear. intros b rs H. case_match; [by apply keeps_stop|done].
  - unfold probed. set (b1 := with_probes b _ _). assert (interest b1 rs) as H1 by (by apply (interest_same b)). case_match; [done|]. destruct ex; [|by apply keeps_open].
    apply keeps_then; [apply keeps_stop|by apply keeps_change|done].
Qed.

Lemma run_interest hs b rs :
  Forall (fun h => typed h = true) hs → possible hs b = true → interest b rs → interest (bus_run hs b).1 (foldl on_this_socket rs (bus_run hs b).2).
Proof.
  intros Ht. revert b rs. induction Ht as [|h hs Hh Ht IH]; intros b rs Hp H; [done|]. cbn [possible bus_run] in *. apply andb_true_iff in Hp as [P1 P2].
  pose proof (keeps_happens h b rs Hh P1 H) as K. destruct (happens h b) as [b1 o1]. cbn [fst snd] in *. specialize (IH b1 _ P2 K).
  destruct (bus_run hs b1) as [b2 o2]. cbn [fst snd] in *. by rewrite foldl_app.
Qed.
Lemma interest_start : interest makeLiveBus [].
Proof. split; [split; [by apply NoDup_nil|by intros t ?%not_elem_of_nil]|done..]. Qed.

(** * With the server *)

(** A request as JSON. *)
Definition encode (r : client_request) : json :=
  match r with
  | Subscribe_to ts => JObj [(js "type", JStr (js "subscribe")); (js "events", JArr (JStr <$> ts))]
  | Unsubscribe_from ts => JObj [(js "type", JStr (js "unsubscribe")); (js "events", JArr (JStr <$> ts))]
  | Pong => JObj [(js "type", JStr (js "pong"))]
  end.

Lemma live_types_short ts : live_types ts → (length ts ≤ MAX_SUBSCRIPTION_EVENTS)%nat ∧ ∀ t, t ∈ ts → t ≠ [] ∧ (length t ≤ MAX_EVENT_TYPE_LENGTH)%nat.
Proof.
  intros [Hn Hl]. split.
  - transitivity (length (map_keys LIVE_EVENT_AUDIENCE)); [|apply Nat.leb_le; vm_compute; reflexivity]. apply submseteq_length, NoDup_submseteq; [done|].
    intros t Ht. apply map_has_key. by apply Hl.
  - intros t Ht. assert (Forall (fun k => k ≠ [] ∧ (length k ≤ MAX_EVENT_TYPE_LENGTH)%nat) (map_keys LIVE_EVENT_AUDIENCE)) as Hf.
    { unfold MAX_EVENT_TYPE_LENGTH. repeat (apply Forall_cons; split; [split; [done|apply Nat.leb_le; vm_compute; reflexivity]|]). apply Forall_nil. done. }
    rewrite Forall_forall in Hf. apply Hf, map_has_key. by apply Hl.
Qed.
Lemma subscriptionEvents_encoded ts : live_types ts → subscriptionEvents (Some (JArr (JStr <$> ts))) = Some ts.
Proof.
  intros [H1 H2]%live_types_short. unfold subscriptionEvents. rewrite length_fmap. replace (_ <? _)%nat with false by (symmetry; by apply Nat.ltb_ge).
  apply mapM_Some. clear H1. induction ts as [|t ts IH]; [constructor|]. constructor; [|apply IH; intros; apply H2; by right].
  destruct (H2 t) as [K1 K2]; [by left|]. rewrite (bool_decide_false (t = [])) by done. replace (_ <? _)%nat with false by (symmetry; by apply Nat.ltb_ge). done.
Qed.

Section Server.
Context (size : frame → Z) (lim : Z) (conn : connection).

Lemma subs_safeSend f st : subscribedEvents (safeSend size lim f st).1 = subscribedEvents st.
Proof. destruct (safeSend_sends size lim (fun _ => True) f st I) as (-> & _). done. Qed.
Lemma subs_sendAll fs st : subscribedEvents (sendAll size lim fs st).1 = subscribedEvents st.
Proof. destruct (sendAll_sends size lim (fun _ => True) fs st) as (-> & _); done. Qed.
Lemma subs_subscribeOne t st x : x ∈ subscribedEvents (subscribeOne size lim t st).1 ↔ x ∈ subscribedEvents st ∨ x = t.
Proof.
  unfold subscribeOne. case_bool_decide as Hin; cbn [fst].
  - split; [by left|]. by intros [?| ->].
  - set (st1 := set_subscribed st _). transitivity (x ∈ subscribedEvents st1).
    + case_match; [by rewrite subs_sendAll|]. case_match; [by rewrite subs_sendAll|done].
    + cbn. by rewrite elem_of_app, list_elem_of_singleton.
Qed.
Lemma subs_subscribeAll ts st x : x ∈ subscribedEvents (subscribeAll size lim ts st).1 ↔ x ∈ subscribedEvents st ∨ x ∈ ts.
Proof.
  revert st. induction ts as [|t ts IH]; intros st; cbn [subscribeAll].
  - cbn [fst]. split; [by left|]. by intros [?|?%not_elem_of_nil].
  - pose proof (subs_subscribeOne t st x) as H1. destruct (subscribeOne size lim t st) as [s1 o1]. specialize (IH s1).
    destruct (subscribeAll size lim ts s1) as [s2 o2]. cbn [fst] in *. rewrite IH, H1, elem_of_cons. tauto.
Qed.
Lemma subs_message now r st x :
  closed (onMessage size lim now (Some (encode r)) st).1 = false → typed_request r →
  x ∈ subscribedEvents (onMessage size lim now (Some (encode r)) st).1 ↔ x ∈ declare_ (subscribedEvents st) r.
Proof.
  unfold onMessage. set (st1 := set_client st _ _). case_match; [by rewrite closeSocket_closes|]. intros _ Hr. change (subscribedEvents st) with (subscribedEvents st1).
  destruct r as [ts|ts|]; cbn [encode typed_request declare_] in *.
  - change (text_field _ (js "type")) with (Some (js "subscribe")). change (map_get _ (js "events")) with (Some (JArr (JStr <$> ts))). cbv zeta.
    change (bool_decide (Some (js "subscribe") = Some (js "pong"))) with false. change (bool_decide (Some (js "subscribe") = Some (js "subscribe"))) with true.
    rewrite subscriptionEvents_encoded by done. cbv iota. unfold subscribeEvents.
    pose proof (subs_subscribeAll ts st1 x) as H1. destruct (subscribeAll size lim ts st1) as [s1 o1]. pose proof (subs_safeSend (Subscribed (subscribedEvents s1)) s1) as H2.
    destruct (safeSend _ _ _ s1) as [s2 o2]. cbn [fst] in *. by rewrite H2, H1, elem_of_app.
  - change (text_field _ (js "type")) with (Some (js "unsubscribe")). change (map_get _ (js "events")) with (Some (JArr (JStr <$> ts))). cbv zeta.
    change (bool_decide (Some (js "unsubscribe") = Some (js "pong"))) with false. change (bool_decide (Some (js "unsubscribe") = Some (js "subscribe"))) with false.
    change (bool_decide (Some (js "unsubscribe") = Some (js "unsubscribe"))) with true. rewrite subscriptionEvents_encoded by done. cbv iota. unfold unsubscribeEvents. by rewrite subs_safeSend.
  - change (text_field _ (js "type")) with (Some (js "pong")). cbv zeta.
    by change (bool_decide (Some (js "pong") = Some (js "pong"))) with true.
Qed.
Lemma subs_other i st : (∀ now raw, i ≠ Message now raw) → subscribedEvents (live_step size lim conn i st).1 = subscribedEvents st.
Proof.
  intros Hi. destruct i as [e|now raw|now| |session token role| |n|]; cbn [live_step]; try done; [| by destruct (Hi now raw)|..].
  - set (st1 := set_rings st _ _ _). case_match; [|done]. destruct (forward_sends size lim conn e st1) as (-> & _). done.
  - case_match; [done|]. case_match; [|by rewrite subs_safeSend]. unfold closeSocket. by case_match.
  - by case_match.
  - case_match; [done|]. case_match; [done|]. unfold closeSocket. by destruct (closed st).
Qed.

(** The messages a socket was sent by its client. *)
Definition messages (is_ : list socket_input) : list (option json) :=
  concat ((fun i => match i with Message _ raw => [raw] | _ => [] end) <$> is_).
Lemma declare_same l l' r : (∀ t, t ∈ l ↔ t ∈ l') → ∀ t, t ∈ declare_ l r ↔ t ∈ declare_ l' r.
Proof. intros H t. destruct r; cbn; rewrite ?elem_of_app, ?elem_of_without, H; done. Qed.
Lemma declared_same rs l l' : (∀ t, t ∈ l ↔ t ∈ l') → ∀ t, t ∈ foldl declare_ l rs ↔ t ∈ foldl declare_ l' rs.
Proof. revert l l'. induction rs as [|r rs IH]; intros l l' H; cbn [foldl]; [done|]. by apply IH, declare_same. Qed.
Lemma server_declared is_ rs st :
  socket_ok st → messages is_ = Some ∘ encode <$> rs → Forall typed_request rs → closed (live_run size lim conn is_ st).1 = false →
  ∀ t, t ∈ subscribedEvents (live_run size lim conn is_ st).1 ↔ t ∈ foldl declare_ (subscribedEvents st) rs.
Proof.
  revert rs st. induction is_ as [|i is_ IH]; intros rs st Hok Hm Hr Hc t; cbn [live_run] in *.
  { destruct rs; [done|discriminate]. }
  destruct (live_step_sound size lim conn i st Hok) as (_ & Hcl & Hok1).
  destruct (live_step size lim conn i st) as [s1 o1] eqn:E. cbn [fst] in *.
  assert (closed s1 = false) as Hc1.
  { apply not_true_iff_false. intros Hc1. destruct (closed_silent size lim conn is_ s1 Hok1 Hc1) as [H _]. destruct (live_run size lim conn is_ s1). cbn in *. congruence. }
  assert (closed st = false) as Hc0 by (apply not_true_iff_false; intros H; destruct (Hcl H); congruence).
  specialize (IH (match i with Message _ _ => tail rs | _ => rs end) s1 Hok1). destruct (live_run size lim conn is_ s1) as [s2 o2]. cbn [fst] in *.
  assert (subscribedEvents s1 = (live_step size lim conn i st).1.(subscribedEvents)) as Hs1 by (by rewrite E).
  destruct i as [e|now raw|now| |session token role| |n|]; try (rewrite IH by done; apply declared_same; by rewrite Hs1, subs_other).
  destruct rs as [|r rs]; [discriminate|]. cbn [messages fmap list_fmap concat app] in Hm. injection Hm as -> Hm. apply Forall_cons in Hr as [Hr0 Hr].
  cbn [live_step] in E. destruct (forwarding st) eqn:Hf; [|by rewrite (gone_closed _ Hok Hf) in Hc0].
  rewrite IH by done. cbn [tail foldl]. apply declared_same. intros x. rewrite <- (subs_message now r st); rewrite ?E; done.
Qed.
End Server.


(** * A history *)

Notation ex_history :=
  [Subscribe 1 (Some (js "chat.message")) false; Reconnect_due true; Socket_opened; Subscribe 2 (Some (js "rcon.roster")) true;
   Subscribe 3 (Some (js "chat.message")) true; Unsubscribe 1 (Some (js "chat.message")); Unsubscribe 2 (Some (js "rcon.roster"))].
Lemma never_stranded_witness : alive (bus_run ex_history makeLiveBus).1 ∨ at_login (bus_run ex_history makeLiveBus).1 = true.
Proof. apply (never_stranded ex_history); vm_compute; reflexivity. Defined.
Lemma unused_bus_closes_witness : can_happen Idle_due (bus_run (ex_history ++ [Unsubscribe 3 None]) makeLiveBus).1 = true.
Proof. apply (unused_bus_closes (ex_history ++ [Unsubscribe 3 None])); vm_compute; reflexivity. Defined.
Notation ex_requests := [Message 1 (Some (encode (Subscribe_to [js "chat.message"]))); Event (ex_event "chat.message" []);
  Message 2 (Some (encode (Subscribe_to [js "rcon.roster"]))); Ping_tick 9; Message 3 (Some (encode (Unsubscribe_from [js "rcon.roster"])))].
