(* ===== verification/Automation.v ===== *)
(** The trigger rules: [automation.ts], [automation-engine.ts] and
    [automation-actions.ts] of [packages/shared-types], and [rules/runtime.ts]
    and [rules/deps.ts] of the automation worker: how rules are read and
    evaluated, which of them fire, what they do and what is recorded. *)
From S2P Require Import Prelude JsString JsMap JsJson JsDate OperatorCommand.

(** * Rules *)

Inductive AutomationConditionType := Chat_keyword | Player_count | Time_of_day | Player_flag.
#[export] Instance AutomationConditionType_eq_dec : EqDecision AutomationConditionType. Proof. solve_decision. Defined.
Inductive AutomationActionType := Rcon_command | Kick | Warn | Notify_admin.
#[export] Instance AutomationActionType_eq_dec : EqDecision AutomationActionType. Proof. solve_decision. Defined.
Inductive AutomationRunStatus := Matched | No_match | Executed | Failed | Skipped.
#[export] Instance AutomationRunStatus_eq_dec : EqDecision AutomationRunStatus. Proof. solve_decision. Defined.

Inductive keyword_match := Contains | Exact | Word.
Record ChatKeywordCondition := mkChatKeyword { keyword : jstr; kw_match : keyword_match; caseSensitive : bool }.
Inductive count_operator := Gte | Lte | Gt | Lt | Eq_.
Record PlayerCountCondition := mkPlayerCount { operator : count_operator; threshold : Z }.
Record TimeOfDayCondition := mkTimeOfDay { startMinute : Z; endMinute : Z; timezone : jstr; weekdays : option (list Z) }.
Record PlayerFlagCondition := mkPlayerFlag { flag : jstr; present : bool }.
Inductive AutomationCondition :=
| On_chat (c : ChatKeywordCondition)
| On_count (c : PlayerCountCondition)
| On_time (c : TimeOfDayCondition)
| On_flag (c : PlayerFlagCondition).
Inductive AutomationAction :=
| Do_command (command : RconOperatorCommandName) (args : list jstr)
| Do_kick (reason : jstr)
| Do_warn (message : jstr)
| Do_notify (message : jstr) (channels : list jstr).

Record AutomationRuleInput := mkRule {
  rule_id : jstr;
  rule_server : option jstr;
  rule_name : jstr;
  conditionType : AutomationConditionType;
  condition : json;
  actionType : AutomationActionType;
  action : json;
  enabled : bool;
}.
Record AutomationPlayerRef := mkPlayerRef { pl_playerId : option jstr; pl_steamId64 : option jstr; pl_eosId : option jstr; pl_name : option jstr }.
(** [now] in milliseconds. *)
Record AutomationTriggerInput := mkTrigger {
  tr_server : option jstr;
  tr_now : Z;
  chatMessage : option jstr;
  playerCount : option Z;
  playerFlags : option (list jstr);
  tr_player : option AutomationPlayerRef;
}.
Record AutomationMatch := mkMatch {
  m_rule : jstr;
  m_name : jstr;
  m_server : option jstr;
  m_condition : AutomationConditionType;
  m_matched : list (jstr * json);
  m_player : option AutomationPlayerRef;
  m_action : AutomationAction;
}.

(** What JavaScript's library decides: the integer a JSON number is, zones and
    the time in one as [Intl] formats it, lower case, and which code points are
    letters, numbers or the underscore. *)
Class AutomationEnv := {
  int_of : jstr → option Z;
  isKnownTimeZone : jstr → bool;
  zone_parts : Z → jstr → Z * Z * nat;
  toLowerCase : jstr → jstr;
  word_char : Z → bool;
}.

Section Engine.
Context `{AutomationEnv}.

(** ** Schemas *)

Definition trimmed_between (lo hi : nat) (v : json) : option jstr :=
  match v with
  | JStr s => let t := trim s in if (lo <=? length t)%nat && (length t <=? hi)%nat then Some t else None
  | _ => None
  end.
Definition int_between (lo hi : Z) (v : json) : option Z :=
  match v with JNum t => n ← int_of t; if (lo <=? n) && (n <=? hi) then Some n else None | _ => None end.
Definition boolean (v : json) : option bool := match v with JBool b => Some b | _ => None end.
Definition one_of {A} (names : list (jstr * A)) (v : json) : option A := match v with JStr s => map_get names s | _ => None end.
Definition array_of {A} (p : json → option A) (most : nat) (v : json) : option (list A) :=
  match v with JArr l => if (length l <=? most)%nat then mapM p l else None | _ => None end.
Definition with_default {A} (d : A) (p : json → option A) (v : option json) : option A := match v with None => Some d | Some v => p v end.
Definition strict (keys : list string) (fs : list (jstr * json)) : bool := forallb (fun e => bool_decide (e.1 ∈ js <$> keys)) fs.

Definition match_names : list (jstr * keyword_match) := [(js "contains", Contains); (js "exact", Exact); (js "word", Word)].
Definition operator_names : list (jstr * count_operator) := [(js "gte", Gte); (js "lte", Lte); (js "gt", Gt); (js "lt", Lt); (js "eq", Eq_)].
Definition match_text (m : keyword_match) : jstr := match m with Contains => js "contains" | Exact => js "exact" | Word => js "word" end.
Definition operator_text (o : count_operator) : jstr :=
  match o with Gte => js "gte" | Lte => js "lte" | Gt => js "gt" | Lt => js "lt" | Eq_ => js "eq" end.
Definition channel_names : list (jstr * jstr) := [(js "email", js "email"); (js "webpush", js "webpush")].
Definition command_names : list (jstr * RconOperatorCommandName) := (fun c => (command_text c, c)) <$> RCON_OPERATOR_COMMANDS.
Definition RCON_TEXT_MAX : nat := 300.

Definition chatKeywordConditionSchema (fs : list (jstr * json)) : option ChatKeywordCondition :=
  k ← map_get fs (js "keyword") ≫= trimmed_between 1 128;
  m ← with_default Contains (one_of match_names) (map_get fs (js "match"));
  c ← with_default false boolean (map_get fs (js "caseSensitive"));
  if strict ["keyword"; "match"; "caseSensitive"]%string fs then Some (mkChatKeyword k m c) else None.
Definition playerCountConditionSchema (fs : list (jstr * json)) : option PlayerCountCondition :=
  o ← with_default Gte (one_of operator_names) (map_get fs (js "operator"));
  t ← map_get fs (js "threshold") ≫= int_between 0 200;
  if strict ["operator"; "threshold"]%string fs then Some (mkPlayerCount o t) else None.
Definition timezone_schema (v : json) : option jstr := t ← trimmed_between 1 64 v; if isKnownTimeZone t then Some t else None.
Definition timeOfDayConditionSchema (fs : list (jstr * json)) : option TimeOfDayCondition :=
  s ← map_get fs (js "startMinute") ≫= int_between 0 1439;
  e ← map_get fs (js "endMinute") ≫= int_between 0 1439;
  tz ← with_default (js "UTC") timezone_schema (map_get fs (js "timezone"));
  w ← with_default None (fun v => Some <$> array_of (int_between 0 6) 7 v) (map_get fs (js "weekdays"));
  if strict ["startMinute"; "endMinute"; "timezone"; "weekdays"]%string fs then Some (mkTimeOfDay s e tz w) else None.
Definition playerFlagConditionSchema (fs : list (jstr * json)) : option PlayerFlagCondition :=
  f ← map_get fs (js "flag") ≫= trimmed_between 1 64;
  p ← with_default true boolean (map_get fs (js "present"));
  if strict ["flag"; "present"]%string fs then Some (mkPlayerFlag f p) else None.
Definition parseAutomationCondition (type : AutomationConditionType) (raw : json) : option AutomationCondition :=
  match raw with
  | JObj fs =>
      match type with
      | Chat_keyword => On_chat <$> chatKeywordConditionSchema fs
      | Player_count => On_count <$> playerCountConditionSchema fs
      | Time_of_day => On_time <$> timeOfDayConditionSchema fs
      | Player_flag => On_flag <$> playerFlagConditionSchema fs
      end
  | _ => None
  end.

Definition rconCommandActionSchema (fs : list (jstr * json)) : option AutomationAction :=
  c ← map_get fs (js "command") ≫= one_of command_names;
  a ← with_default [] (array_of (trimmed_between 1 300) 8) (map_get fs (js "args"));
  if strict ["command"; "args"]%string fs && (length a =? RCON_OPERATOR_COMMAND_ARG_COUNTS c)%nat then Some (Do_command c a) else None.
Definition kickActionSchema (fs : list (jstr * json)) : option AutomationAction :=
  r ← map_get fs (js "reason") ≫= trimmed_between 1 RCON_TEXT_MAX; if strict ["reason"]%string fs then Some (Do_kick r) else None.
Definition warnActionSchema (fs : list (jstr * json)) : option AutomationAction :=
  m ← map_get fs (js "message") ≫= trimmed_between 1 RCON_TEXT_MAX; if strict ["message"]%string fs then Some (Do_warn m) else None.
Definition notifyAdminActionSchema (fs : list (jstr * json)) : option AutomationAction :=
  m ← map_get fs (js "message") ≫= trimmed_between 1 512;
  c ← with_default [] (array_of (one_of channel_names) 2) (map_get fs (js "channels"));
  if strict ["message"; "channels"]%string fs then Some (Do_notify m c) else None.
Definition parseAutomationAction (type : AutomationActionType) (raw : json) : option AutomationAction :=
  match raw with
  | JObj fs =>
      match type with
      | Rcon_command => rconCommandActionSchema fs
      | Kick => kickActionSchema fs
      | Warn => warnActionSchema fs
      | Notify_admin => notifyAdminActionSchema fs
      end
  | _ => None
  end.

(** ** Evaluation *)

Definition zoneMinuteAndWeekday (now : Z) (tz : jstr) : Z * Z :=
  let '(hour, minute, weekday) := zone_parts now tz in (hour mod 24 * 60 + minute, Z.of_nat weekday).
Definition inWindow (minute start end_ : Z) : bool :=
  if start <=? end_ then (start <=? minute) && (minute <=? end_) else (start <=? minute) || (minute <=? end_).

(** A text as code points, as a regular expression with the flag u sees it. *)
Fixpoint code_points (s : jstr) : list Z :=
  match s with
  | hi :: (lo :: rest) as tl =>
      if (55296 <=? hi) && (hi <=? 56319) && (56320 <=? lo) && (lo <=? 57343) then (65536 + (hi - 55296) * 1024 + (lo - 56320)) :: code_points rest
      else hi :: code_points tl
  | _ => s
  end.
(** Somewhere from here on stands [needle], with no word character after it;
    [before] is the character before. *)
Fixpoint word_at (needle : list Z) (before : option Z) (s : list Z) : bool :=
  let boundary c := match c with None => true | Some c => negb (word_char c) end in
  (boundary before && starts_with needle s && boundary (head (drop (length needle) s)))
  || match s with [] => false | c :: s => word_at needle (Some c) s end.

Definition matchChatKeyword (input : AutomationTriggerInput) (c : ChatKeywordCondition) : option (list (jstr * json)) :=
  message ← chatMessage input;
  let haystack := if caseSensitive c then message else toLowerCase message in
  let needle := if caseSensitive c then keyword c else toLowerCase (keyword c) in
  let hit := match kw_match c with
             | Exact => bool_decide (trim haystack = needle)
             | Word => word_at (code_points needle) None (code_points haystack)
             | Contains => includes needle haystack
             end in
  if hit then Some [(js "keyword", JStr (keyword c)); (js "match", JStr (match_text (kw_match c))); (js "message", JStr message)] else None.
Definition compare (observed : Z) (o : count_operator) (threshold : Z) : bool :=
  match o with
  | Gte => threshold <=? observed
  | Lte => observed <=? threshold
  | Gt => threshold <? observed
  | Lt => observed <? threshold
  | Eq_ => observed =? threshold
  end.
Definition matchPlayerCount (input : AutomationTriggerInput) (c : PlayerCountCondition) : option (list (jstr * json)) :=
  observed ← playerCount input;
  if compare observed (operator c) (threshold c) 
  then Some [(js "operator", JStr (operator_text (operator c))); (js "threshold", JNum (int_str (threshold c))); (js "observed", JNum (int_str observed))]
  else None.
Definition matchTimeOfDay (input : AutomationTriggerInput) (c : TimeOfDayCondition) : option (list (jstr * json)) :=
  let '(minute, weekday) := zoneMinuteAndWeekday (tr_now input) (timezone c) in
  let crossesMidnight := endMinute c <? startMinute c in
  let windowWeekday := if crossesMidnight && (minute <=? endMinute c) then (weekday + 6) mod 7 else weekday in
  if match weekdays c with Some w => (0 <? length w)%nat && negb (bool_decide (windowWeekday ∈ w)) | None => false end then None
  else if negb (inWindow minute (startMinute c) (endMinute c)) then None
  else Some [(js "minute", JNum (int_str minute)); (js "weekday", JNum (int_str weekday)); (js "startMinute", JNum (int_str (startMinute c)));
             (js "endMinute", JNum (int_str (endMinute c))); (js "timezone", JStr (timezone c))].
Definition matchPlayerFlag (input : AutomationTriggerInput) (c : PlayerFlagCondition) : option (list (jstr * json)) :=
  flags ← playerFlags input;
  let has := bool_decide (flag c ∈ flags) in
  if eqb has (present c) then Some [(js "flag", JStr (flag c)); (js "present", JBool (present c)); (js "has", JBool has)] else None.
Definition evaluateCondition (input : AutomationTriggerInput) (rule : AutomationRuleInput) : option (list (jstr * json)) :=
  match parseAutomationCondition (conditionType rule) (condition rule) with
  | Some (On_chat c) => matchChatKeyword input c
  | Some (On_count c) => matchPlayerCount input c
  | Some (On_time c) => matchTimeOfDay input c
  | Some (On_flag c) => matchPlayerFlag input c
  | None => None
  end.
Definition buildMatch (rule : AutomationRuleInput) (input : AutomationTriggerInput) (matched : list (jstr * json)) : option AutomationMatch :=
  a ← parseAutomationAction (actionType rule) (action rule);
  Some (mkMatch (rule_id rule) (rule_name rule) (tr_server input) (conditionType rule) matched (tr_player input) a).
Definition scopeMatches (rule : AutomationRuleInput) (input : AutomationTriggerInput) : bool :=
  match rule_server rule with None => true | Some s => bool_decide (tr_server input = Some s) end.
Definition evaluate_rule (input : AutomationTriggerInput) (rule : AutomationRuleInput) : option AutomationMatch :=
  if negb (enabled rule) then None
  else if negb (scopeMatches rule input) then None
  else matched ← evaluateCondition input rule; buildMatch rule input matched.
Definition evaluate (input : AutomationTriggerInput) (rules : list AutomationRuleInput) : list AutomationMatch := omap (evaluate_rule input) rules.
End Engine.

(** * Firing *)

Record RconDispatch := mkDispatch { rd_server : jstr; rd_command : RconOperatorCommandName; rd_args : list jstr }.
Record AutomationRunDraft := mkRun {
  run_rule : jstr;
  run_server : option jstr;
  run_matched : list (jstr * json);
  run_result : json;
  run_dry : bool;
  run_status : AutomationRunStatus;
}.
Record AutomationAuditDraft := mkAudit {
  au_rule : jstr;
  au_server : option jstr;
  au_dry : bool;
  au_status : AutomationRunStatus;
  au_action : AutomationActionType;
  au_intent : json;
}.
(** One call of [runMatch]: when, and how it ended. *)
Record firing := mkFiring { f_at : Z; f_match : AutomationMatch; f_status : option AutomationRunStatus }.

(** The keys of Redis with the time they expire, the commands enqueued, the two
    tables, the number of calls made, and the firings, for the record. *)
Record world := mkWorld {
  clock : Z;
  keys : list (jstr * Z);
  sent : list (jstr * RconCommandRequest);
  runs : list AutomationRunDraft;
  audits : list AutomationAuditDraft;
  calls : nat;
  firings : list firing;
}.
Definition set_keys (w : world) (k : list (jstr * Z)) : world := mkWorld (clock w) k (sent w) (runs w) (audits w) (calls w) (firings w).
Definition set_sent (w : world) (l : list (jstr * RconCommandRequest)) : world := mkWorld (clock w) (keys w) l (runs w) (audits w) (calls w) (firings w).
Definition set_runs (w : world) (l : list AutomationRunDraft) : world := mkWorld (clock w) (keys w) (sent w) l (audits w) (calls w) (firings w).
Definition set_audits (w : world) (l : list AutomationAuditDraft) : world := mkWorld (clock w) (keys w) (sent w) (runs w) l (calls w) (firings w).
Definition set_calls (w : world) (n : nat) : world := mkWorld (clock w) (keys w) (sent w) (runs w) (audits w) n (firings w).
Definition set_firings (w : world) (l : list firing) : world := mkWorld (clock w) (keys w) (sent w) (runs w) (audits w) (calls w) l.

(** A program that may throw; [luck n] is what becomes of the call numbered [n]. *)
Inductive fate := Fine | Refused | Answer_lost.
Definition M (A : Type) : Type := world → world * result jstr A.
Definition ret {A} (a : A) : M A := fun w => (w, Ok a).
Definition throw {A} (e : jstr) : M A := fun w => (w, Throw e).
Definition bind {A B} (m : M A) (f : A → M B) : M B := fun w => match m w with (w, Ok a) => f a w | (w, Throw e) => (w, Throw e) end.
Definition catch {A} (m : M A) (h : jstr → M A) : M A := fun w => match m w with (w, Ok a) => (w, Ok a) | (w, Throw e) => h e w end.
Notation "'do!' x ':=' m 'in' k" := (bind m (fun x => k)) (at level 10, x pattern, m at level 100, k at level 200) : panel_scope.

Class AutomationWorld := {
  luck : nat → fate;
  uuidv7 : nat → jstr;
}.

Section Actions.
Context `{AutomationEnv} `{CommandEnv} `{AutomationWorld}.

Definition call {R} (f : world → world * R) : M R := fun w =>
  let w := set_calls w (S (calls w)) in
  match luck (calls w) with
  | Fine => let '(w, r) := f w in (w, Ok r)
  | Refused => (w, Throw (js "connection lost"))
  | Answer_lost => let '(w, _) := f w in (w, Throw (js "connection lost"))
  end.

(** Keys of Redis. *)
Definition live (w : world) (k : jstr) : bool := match map_get (keys w) k with Some t => clock w <? t | None => false end.
Definition set_nx (k : jstr) (seconds : Z) : M bool :=
  call (fun w => if live w k then (w, false) else (set_keys w (map_set (keys w) k (clock w + seconds * 1000)), true)).
Definition expire (k : jstr) (seconds : Z) : M unit :=
  call (fun w => (if live w k then set_keys w (map_set (keys w) k (clock w + seconds * 1000)) else w, tt)).
Definition del (ks : list jstr) : M unit := call (fun w => (set_keys w (foldl map_delete (keys w) ks), tt)).

Definition strings (l : list jstr) : json := JArr (JStr <$> l).
Definition json_opt (o : option jstr) : json := match o with Some s => JStr s | None => JNull end.
Definition action_type (a : AutomationAction) : AutomationActionType :=
  match a with Do_command _ _ => Rcon_command | Do_kick _ => Kick | Do_warn _ => Warn | Do_notify _ _ => Notify_admin end.
Definition action_text (t : AutomationActionType) : jstr :=
  match t with Rcon_command => js "rcon_command" | Kick => js "kick" | Warn => js "warn" | Notify_admin => js "notify_admin" end.

Definition resolveTarget (m : AutomationMatch) : option jstr :=
  p ← m_player m; match pl_steamId64 p with Some s => Some s | None => pl_eosId p end.
(** [Throw] is an [{ error }], [Ok None] the [null] of a notification; an empty
    target is no target. *)
Definition buildRconDispatch (m : AutomationMatch) : result jstr (option RconDispatch) :=
  match m_server m with
  | None => Throw (js "no_server")
  | Some server =>
      let aimed c text :=
        match resolveTarget m with
        | Some target => if bool_decide (target = []) then Throw (js "no_target") else Ok (Some (mkDispatch server c [target; text]))
        | None => Throw (js "no_target")
        end in
      match m_action m with
      | Do_command c args => Ok (Some (mkDispatch server c args))
      | Do_kick reason => aimed AdminKick reason
      | Do_warn message => aimed AdminWarn message
      | Do_notify _ _ => Ok None
      end
  end.
Definition describeIntent (m : AutomationMatch) : json :=
  match m_action m with
  | Do_notify message channels => JObj [(js "kind", JStr (js "notify_admin")); (js "message", JStr message); (js "channels", strings channels)]
  | a =>
      match buildRconDispatch m with
      | Ok (Some d) => JObj [(js "kind", JStr (js "rcon")); (js "command", JStr (command_text (rd_command d))); (js "args", strings (rd_args d));
                             (js "serverId", JStr (rd_server d))]
      | Ok None => JObj [(js "kind", JStr (action_text (action_type a))); (js "error", JStr (js "unbuildable"))]
      | Throw e => JObj [(js "kind", JStr (action_text (action_type a))); (js "error", JStr e)]
      end
  end.

(** ** The worker's calls *)

Definition rconCommandStream (serverId : jstr) : jstr := js "rcon:commands:" ++ serverId.
Definition queued_request (w : world) (d : RconDispatch) : json :=
  JObj [(js "request_id", JStr (uuidv7 (calls w))); (js "command", JStr (command_text (rd_command d))); (js "args", strings (rd_args d));
        (js "actor_player_id", JNull); (js "enqueued_at", JStr (to_iso_string (clock w)))].
Definition sendRconCommand (d : RconDispatch) : M unit := fun w =>
  match rconCommandRequestSchema (queued_request w d) with
  | None => throw (js "ZodError") w
  | Some r => call (fun w => (set_sent w (sent w ++ [(rconCommandStream (rd_server d), r)]), tt)) w
  end.
(** [notifyAdmin] only logs: nothing reaches an operator. *)
Definition notifyAdmin (message : jstr) (channels : list jstr) : M (bool * json) :=
  ret (false, JObj [(js "channels", strings channels); (js "via", JStr (js "audit_log"))]).
Definition recordRun (d : AutomationRunDraft) : M unit := call (fun w => (set_runs w (runs w ++ [d]), tt)).
Definition writeAudit (d : AutomationAuditDraft) : M unit := call (fun w => (set_audits w (audits w ++ [d]), tt)).

(** ** [runMatch] *)

Definition perform_action (m : AutomationMatch) (dryRun : bool) : M (AutomationRunStatus * json) :=
  let intent := describeIntent m in
  let failed e := ret (Failed, JObj [(js "intent", intent); (js "error", JStr e)]) in
  if dryRun then ret (Matched, JObj [(js "skipped", JBool true); (js "dryRun", JBool true); (js "intent", intent)])
  else
    match m_action m with
    | Do_notify message channels =>
        catch (do! outcome := notifyAdmin message channels in
               if outcome.1
               then ret (Executed, JObj [(js "executed", JBool true); (js "intent", intent); (js "delivered", JBool true); (js "detail", outcome.2)])
               else ret (Skipped, JObj [(js "intent", intent); (js "reason", JStr (js "not_delivered")); (js "delivered", JBool false); (js "detail", outcome.2)]))
              failed
    | _ =>
        match buildRconDispatch m with
        | Throw e => ret (Skipped, JObj [(js "intent", intent); (js "reason", JStr e)])
        | Ok None => ret (Skipped, JObj [(js "intent", intent); (js "reason", JStr (js "unbuildable"))])
        | Ok (Some d) =>
            catch (do! _ := sendRconCommand d in ret (Executed, JObj [(js "executed", JBool true); (js "intent", intent)])) failed
        end
    end.
Definition runMatch (m : AutomationMatch) (dryRun : bool) : M AutomationRunDraft :=
  do! x := perform_action m dryRun in
  let draft := mkRun (m_rule m) (m_server m) (m_matched m) x.2 dryRun x.1 in
  do! _ := recordRun draft in
  do! _ := writeAudit (mkAudit (m_rule m) (m_server m) dryRun x.1 (action_type (m_action m)) (describeIntent m)) in
  ret draft.

(** ** The runtime of the worker *)

Definition DEFAULT_TIME_OF_DAY_COOLDOWN_SECONDS : Z := 3600.
Definition PLAYER_COUNT_LATCH_TTL_SECONDS : Z := 600.

(** The envelope as far as rules look at it. *)
Record AutomationEnvelope := mkEvent { env_id : jstr; env_type : jstr; env_server : option jstr; env_payload : option json; env_actor : option jstr }.
Definition readPlayerCount (payload : option json) : option Z :=
  match payload with
  | Some (JObj fs) => match map_get fs (js "players") with Some (JArr l) => Some (Z.of_nat (length l)) | _ => None end
  | _ => None
  end.
Definition string_field (fs : list (jstr * json)) (k : jstr) : option jstr := match map_get fs k with Some (JStr s) => Some s | _ => None end.
(** The ids and the name of the player; arrays have none, other values give nothing. *)
Definition readConnectedPlayer (payload : option json) : option (option jstr * option jstr * option jstr) :=
  match payload with
  | Some (JObj fs) => Some (string_field fs (js "steam_id64"), string_field fs (js "eos_id"), string_field fs (js "name"))
  | Some (JArr _) => Some (None, None, None)
  | _ => None
  end.

(** The players' table, as [resolvePlayerFlags] reads it. *)
Record flag_row := mkPlayer { p_steam : option Z; p_eos : option jstr; steamEosConflict : bool; roleId : option jstr; roleExpiresAt : option Z }.
Definition STEAM_ID64_PATTERN (s : jstr) : bool := (length s =? 17)%nat && forallb is_digit s.
Definition row_flags (now : Z) (r : flag_row) : list jstr :=
  (if steamEosConflict r then [js "steam_eos_conflict"] else [])
  ++ (match roleId r with Some i => if bool_decide (i = []) then [] else [js "has_role"] | None => [] end)
  ++ (match roleExpiresAt r with Some t => if t <? now then [js "role_expired"] else [] | None => [] end).
Definition resolvePlayerFlags (players : list flag_row) (steamId64 eosId : option jstr) : M (list jstr) :=
  let by_steam := match steamId64 with
                  | Some s => if STEAM_ID64_PATTERN s then Some (fun r => bool_decide (p_steam r = Some (digits_value s))) else None
                  | None => None
                  end in
  let by_eos := match eosId with Some s => if bool_decide (s = []) then None else Some (fun r => bool_decide (p_eos r = Some s)) | None => None end in
  let look (f : option (flag_row → bool)) : M (option flag_row) :=
    match f with Some f => call (fun w => (w, List.find f players)) | None => ret None end in
  do! a := look by_steam in
  do! row := (match a with Some r => ret (Some r) | None => look by_eos end) in
  fun w => (w, Ok (match row with Some r => row_flags (clock w) r | None => [] end)).

Context (cooldown_seconds : Z) (players : list flag_row) (rules : list AutomationRuleInput).

Definition loadRules : M (list AutomationRuleInput) := call (fun w => (w, jfilter enabled rules)).
Definition buildTriggerInput (e : AutomationEnvelope) (now : Z) (rules : list AutomationRuleInput) : M AutomationTriggerInput :=
  let base := mkTrigger (env_server e) now None None None None in
  if bool_decide (env_type e = js "rcon.players_polled") then ret (mkTrigger (env_server e) now None (readPlayerCount (env_payload e)) None None)
  else if bool_decide (env_type e = js "player.connected") then
    match readConnectedPlayer (env_payload e) with
    | None => ret base
    | Some (steam, eos, name) =>
        do! flags := (if existsb (fun r => bool_decide (conditionType r = Player_flag)) rules then resolvePlayerFlags players steam eos else ret []) in
        ret (mkTrigger (env_server e) now None None (Some flags) (Some (mkPlayerRef (env_actor e) steam eos name)))
    end
  else ret base.

Definition slot (serverId : option jstr) : jstr := default (js "global") serverId.
Definition timeOfDayCooldownKey (m : AutomationMatch) : jstr := js "automation:tod:" ++ m_rule m ++ js ":" ++ slot (m_server m).
Definition playerCountLatchKey (ruleId : jstr) (serverId : option jstr) : jstr := js "automation:pc:" ++ ruleId ++ js ":" ++ slot serverId.
Definition claimTimeOfDayCooldown (m : AutomationMatch) : M bool := set_nx (timeOfDayCooldownKey m) cooldown_seconds.
Definition claimPlayerCountEdge (m : AutomationMatch) : M bool :=
  let key := playerCountLatchKey (m_rule m) (m_server m) in
  do! claimed := set_nx key PLAYER_COUNT_LATCH_TTL_SECONDS in
  if claimed then ret true else do! _ := expire key PLAYER_COUNT_LATCH_TTL_SECONDS in ret false.
Definition rearmPlayerCountRules (input : AutomationTriggerInput) (rules : list AutomationRuleInput) (matches : list AutomationMatch) : M unit :=
  match playerCount input with
  | None => ret tt
  | Some _ =>
      let stale r := enabled r && bool_decide (conditionType r = Player_count)
                     && match rule_server r with None => true | Some s => bool_decide (tr_server input = Some s) end
                     && negb (bool_decide (rule_id r ∈ m_rule <$> matches)) in
      let ks := (fun r => playerCountLatchKey (rule_id r) (tr_server input)) <$> jfilter stale rules in
      if bool_decide (ks = []) then ret tt else del ks
  end.
Definition needsServer (m : AutomationMatch) : bool := negb (bool_decide (action_type (m_action m) = Notify_admin)).

(** [runMatch], its end put on record. *)
Definition run_recorded (m : AutomationMatch) : M AutomationRunDraft := fun w =>
  let '(w', r) := runMatch m false w in
  (set_firings w' (firings w' ++ [mkFiring (clock w) m (match r with Ok d => Some (run_status d) | Throw _ => None end)]), r).
Definition fireMatch (m : AutomationMatch) : M (option AutomationRunDraft) :=
  let gated := bool_decide (m_condition m = Time_of_day) in
  let edgeTriggered := bool_decide (m_condition m = Player_count) in
  let latchKey := playerCountLatchKey (m_rule m) (m_server m) in
  if gated && bool_decide (m_server m = None) && needsServer m then ret None
  else
    do! claimed := (if gated then claimTimeOfDayCooldown m else ret true) in
    if negb claimed then ret None
    else
      do! edge := (if edgeTriggered then claimPlayerCountEdge m else ret true) in
      if negb edge then ret None
      else
        catch
          (do! draft := run_recorded m in
           let failed := bool_decide (run_status draft = Failed) in
           do! _ := (if gated && failed then del [timeOfDayCooldownKey m] else ret tt) in
           do! _ := (if edgeTriggered && failed then del [latchKey] else ret tt) in
           ret (Some draft))
          (fun _ =>
             do! _ := (if gated then catch (del [timeOfDayCooldownKey m]) (fun _ => ret tt) else ret tt) in
             do! _ := (if edgeTriggered then catch (del [latchKey]) (fun _ => ret tt) else ret tt) in
             ret None).
Fixpoint fire_all (ms : list AutomationMatch) : M (list AutomationRunDraft) :=
  match ms with
  | [] => ret []
  | m :: ms => do! d := fireMatch m in do! ds := fire_all ms in ret (option_list d ++ ds)
  end.
Definition processAutomationEnvelope (e : AutomationEnvelope) : M (list AutomationRunDraft) := fun w =>
  (do! loaded := loadRules in
   do! input := buildTriggerInput e (clock w) loaded in
   let matches := evaluate input loaded in
   do! _ := rearmPlayerCountRules input loaded matches in
   fire_all matches) w.

(** Envelopes one after the other, each some milliseconds after the last; what
    each ends with. *)
Definition advance (ms : N) (w : world) : world := mkWorld (clock w + Z.of_N ms) (keys w) (sent w) (runs w) (audits w) (calls w) (firings w).
Fixpoint process_all (es : list (N * AutomationEnvelope)) (w : world) : world * list (result jstr (list AutomationRunDraft)) :=
  match es with
  | [] => (w, [])
  | (ms, e) :: es =>
      let '(w, r) := processAutomationEnvelope e (advance ms w) in let '(w, rs) := process_all es w in (w, r :: rs)
  end.
End Actions.

(** * Time windows *)

Section Windows.
Context `{AutomationEnv}.

(** How long a window lasts after its first minute. *)
Definition window_length (c : TimeOfDayCondition) : Z := (endMinute c - startMinute c) mod 1440.
(** The minute of the week lies in the window that starts on [day]. *)
Definition in_window_of (c : TimeOfDayCondition) (day minute_of_week : Z) : Prop :=
  (minute_of_week - (day * 1440 + startMinute c)) mod 10080 ≤ window_length c.
Definition day_allowed (c : TimeOfDayCondition) (day : Z) : Prop := match weekdays c with Some (d :: l) => day ∈ d :: l | _ => True end.

Lemma week_cases s e m w day :
  0 ≤ s < 1440 → 0 ≤ e < 1440 → 0 ≤ m < 1440 → 0 ≤ w < 7 → 0 ≤ day < 7 →
  (w * 1440 + m - (day * 1440 + s)) mod 10080 ≤ (e - s) mod 1440 ↔
  (if (e <? s) && (m <=? e) then (w + 6) mod 7 else w) = day ∧ inWindow m s e = true.
Proof.
  intros Hs He Hm Hw Hd. unfold inWindow.
  assert ((e - s) mod 1440 = if e <? s then e - s + 1440 else e - s) as ->.
  { destruct (Z.ltb_spec e s) as [E|E]; [|apply Z.mod_small; lia].
    transitivity ((e - s + 1 * 1440) mod 1440); [symmetry; apply Z_mod_plus_full|]. rewrite Z.mod_small; lia. }
  assert ((w + 6) mod 7 = if w =? 0 then 6 else w - 1) as ->.
  { destruct (Z.eqb_spec w 0) as [E|E]; [by subst w|].
    transitivity ((w - 1 + 1 * 7) mod 7); [f_equal; lia|]. rewrite Z_mod_plus_full. apply Z.mod_small. lia. }
  pose proof (Z.div_mod (w * 1440 + m - (day * 1440 + s)) 10080 ltac:(lia)) as Hq. pose proof (Z.mod_pos_bound (w * 1440 + m - (day * 1440 + s)) 10080 ltac:(lia)) as Hr.
  set (q := _ / 10080) in Hq. set (r := _ mod 10080) in *. assert (q = 0 ∨ q = -1) as Hq' by lia. clearbody q r.
  destruct (Z.ltb_spec e s), (Z.leb_spec m e), (Z.eqb_spec w 0), (Z.leb_spec s e), (Z.leb_spec s m); cbn; try lia;
    (split; [intros ?; split; [|done || lia]|intros [? ?]; try done]); try lia.
Qed.
Lemma zone_minute_range now tz : (let '(h, m, w) := zone_parts now tz in 0 ≤ m < 60 ∧ (w < 7)%nat) →
  let '(minute, weekday) := zoneMinuteAndWeekday now tz in 0 ≤ minute < 1440 ∧ 0 ≤ weekday < 7.
Proof.
  unfold zoneMinuteAndWeekday. destruct (zone_parts now tz) as [[h m] w]. intros [H1 H2]. pose proof (Z.mod_pos_bound h 24 ltac:(lia)). lia.
Qed.

(** A time condition holds exactly in the minutes of its windows: it starts
    on each allowed weekday (every day when none is named) at its start minute
    of its zone, and lasts through its end minute, past midnight and past the
    end of the week if that comes before. *)
Theorem time_window_exact input c :
  0 ≤ startMinute c < 1440 → 0 ≤ endMinute c < 1440 →
  (let '(h, m, w) := zone_parts (tr_now input) (timezone c) in 0 ≤ m < 60 ∧ (w < 7)%nat) →
  let '(minute, weekday) := zoneMinuteAndWeekday (tr_now input) (timezone c) in
  is_Some (matchTimeOfDay input c) ↔ ∃ day, 0 ≤ day < 7 ∧ day_allowed c day ∧ in_window_of c day (weekday * 1440 + minute).
Proof.
  intros Hs He Hz. pose proof (zone_minute_range (tr_now input) (timezone c) Hz) as Hr. unfold matchTimeOfDay, in_window_of, window_length.
  destruct (zoneMinuteAndWeekday (tr_now input) (timezone c)) as [m w]. destruct Hr as [Hm Hw].
  set (day := if (endMinute c <? startMinute c) && (m <=? endMinute c) then (w + 6) mod 7 else w).
  assert (0 ≤ day < 7) as Hday by (subst day; pose proof (Z.mod_pos_bound (w + 6) 7 ltac:(lia)); destruct (_ && _); lia).
  assert (match weekdays c with Some l => (0 <? length l)%nat && negb (bool_decide (day ∈ l)) | None => false end = false ↔ day_allowed c day) as Hallow.
  { unfold day_allowed. destruct (weekdays c) as [[|d l]|]; [done| |done]. cbn [length]. change (0 <? S _)%nat with true. cbn [andb].
    rewrite negb_false_iff, bool_decide_eq_true. done. }
  split.
  - destruct (match weekdays c with Some l => _ | None => false end); [by intros [? ?]|]. destruct (inWindow m (startMinute c) (endMinute c)) eqn:Ew; [|by intros [? ?]].
    intros _. exists day. split; [done|]. split; [by apply Hallow|]. by apply week_cases.
  - intros (d & Hd & Ha & Hin). apply (week_cases (startMinute c) (endMinute c) m w d Hs He Hm Hw Hd) in Hin as [Hdd Hin]. fold day in Hdd. rewrite Hdd in *.
    apply Hallow in Ha. rewrite Ha, Hin. by eexists.
Qed.
End Windows.

(** * What a run leaves behind *)

Section Firing.
Context `{AutomationEnv} `{CommandEnv} `{AutomationWorld}.

(** A call succeeds with its effect, or throws, with or without it. *)
Lemma call_inv {R} (f : world → world * R) w w' r : call f w = (w', r) →
  let w1 := set_calls w (S (calls w)) in
  (w' = (f w1).1 ∧ (r = Ok (f w1).2 ∨ r = Throw (js "connection lost"))) ∨ (w' = w1 ∧ r = Throw (js "connection lost")).
Proof.
  unfold call. cbn zeta. destruct (f (set_calls w (S (calls w)))) as [w1 r1]. destruct (luck _); intros E; apply pair_equal_spec in E as [<- <-]; auto.
Qed.
Lemma call_succeeded {R} (f : world → world * R) w w' r : call f w = (w', Ok r) → f (set_calls w (S (calls w))) = (w', r).
Proof. unfold call. cbn zeta. destruct (f _) as [w1 r1]. destruct (luck _); intros E; by simplify_eq. Qed.

Definition with_intent (r : json) : Prop := match r with JObj fs => is_Some (map_get fs (js "intent")) | _ => False end.
(** What a run of [m] may put on the streams, by the status it ends with. *)
Definition commands_sent (m : AutomationMatch) (s : AutomationRunStatus) (new : list (jstr * RconCommandRequest)) : Prop :=
  let the_command := ∃ d w r, buildRconDispatch m = Ok (Some d) ∧ rconCommandRequestSchema (queued_request w d) = Some r ∧ new = [(rconCommandStream (rd_server d), r)] in
  match s with
  | Executed => the_command
  | Failed => new = [] ∨ the_command
  | _ => new = []
  end.
Record untouched_but_streams (w w' : world) : Prop := {
  ubs_clock : clock w' = clock w;
  ubs_keys : keys w' = keys w;
  ubs_runs : runs w' = runs w;
  ubs_audits : audits w' = audits w;
  ubs_firings : firings w' = firings w;
}.
Lemma send_result d w w' r : sendRconCommand d w = (w', r) →
  untouched_but_streams w w' ∧ ∃ new, sent w' = sent w ++ new ∧
  let the_command := ∃ q, rconCommandRequestSchema (queued_request w d) = Some q ∧ new = [(rconCommandStream (rd_server d), q)] in
  match r with Ok _ => the_command | Throw _ => new = [] ∨ the_command end.
Proof.
  unfold sendRconCommand. destruct (rconCommandRequestSchema (queued_request w d)) as [q|] eqn:E; [|intros [= <- <-]; split; [done|]; exists []; rewrite app_nil_r; auto].
  intros [(-> & [-> | ->])|(-> & ->)]%call_inv; cbn; (split; [done|]); [eexists; eauto|eexists; eauto|].
  exists []. rewrite app_nil_r. auto.
Qed.
Lemma perform_result m dry w w' x : perform_action m dry w = (w', Ok x) →
  untouched_but_streams w w' ∧ with_intent x.2 ∧ x.1 ≠ No_match ∧ (dry = true ↔ x.1 = Matched) ∧
  ∃ new, sent w' = sent w ++ new ∧ commands_sent m x.1 new.
Proof.
  assert (∀ w s j, s ≠ No_match → (s = Executed → False) → with_intent j → (dry = true ↔ s = Matched) → ret (s, j) w = (w', Ok x) →
    untouched_but_streams w w' ∧ with_intent x.2 ∧ x.1 ≠ No_match ∧ (dry = true ↔ x.1 = Matched) ∧ ∃ new, sent w' = sent w ++ new ∧ commands_sent m x.1 new) as Hret.
  { intros w0 s j K1 K2 K3 K4 [= <- <-]. split_and!; try done; try apply K4. exists []. rewrite app_nil_r. split; [done|]. destruct s; cbn; auto. destruct (K2 eq_refl). }
  unfold perform_action. destruct dry; [by apply Hret; [| |eexists|]|].
  destruct (m_action m) as [c a|reason|message|message ch] eqn:Ea; [| | |by apply Hret; [| |eexists|]].
  all: destruct (buildRconDispatch m) as [[d|]|e] eqn:Ed; [|by apply Hret; [| |eexists|]|by apply Hret; [| |eexists|]].
  all: unfold catch, bind; destruct (sendRconCommand d w) as [w1 r] eqn:Es; apply send_result in Es as (Hu & new & Hs & Hnew); destruct r as [[]|e].
  all: intros [= <- <-]; (split; [done|]); (split; [by eexists|]); (split; [done|]); (split; [done|]); exists new; (split; [done|]); cbn.
  all: try (destruct Hnew as [Hnew|Hnew]; [by left|right]); destruct Hnew as (q & Hq & ->); by exists d, w, q.
Qed.

Lemma runMatch_inv m dry w w' d : runMatch m dry w = (w', Ok d) → ∃ w1 x, perform_action m dry w = (w1, Ok x) ∧
  d = mkRun (m_rule m) (m_server m) (m_matched m) x.2 dry x.1 ∧ runs w' = runs w1 ++ [d] ∧
  audits w' = audits w1 ++ [mkAudit (m_rule m) (m_server m) dry x.1 (action_type (m_action m)) (describeIntent m)] ∧ keys w' = keys w1 ∧ sent w' = sent w1.
Proof.
  unfold runMatch, bind. destruct (perform_action m dry w) as [w1 [x|e]]; [|done]. destruct (recordRun _ w1) as [w2 [[]|e]] eqn:Er; [|done]. apply call_succeeded in Er as [= <-].
  destruct (writeAudit _ _) as [w3 [[]|e]] eqn:Ew; [|done]. apply call_succeeded in Ew as [= <-]. intros [= <- <-]. by exists w1, x.
Qed.

(** C29: The history tells what was done: a completed run of a match appends
    exactly one row of the history and one entry of the audit log, of the same
    rule, status and intent; it changes no key, and what it puts on the command
    streams is: nothing on a dry run, which is recorded as matched and nothing
    else is; the one command built of the match when recorded as executed;
    nothing when skipped; and when failed nothing, or that command, whose
    acknowledgment was lost. *)
Theorem history_truthful m dry w w' d : runMatch m dry w = (w', Ok d) →
  runs w' = runs w ++ [d] ∧ run_rule d = m_rule m ∧ run_matched d = m_matched m ∧ run_dry d = dry ∧
  audits w' = audits w ++ [mkAudit (m_rule m) (m_server m) dry (run_status d) (action_type (m_action m)) (describeIntent m)] ∧
  keys w' = keys w ∧ with_intent (run_result d) ∧ run_status d ≠ No_match ∧ (dry = true ↔ run_status d = Matched) ∧
  ∃ new, sent w' = sent w ++ new ∧ commands_sent m (run_status d) new.
Proof.
  intros (w1 & x & Hp & -> & -> & -> & -> & ->)%runMatch_inv. apply perform_result in Hp as ([Hcl Hk Hr Ha Hf] & Hi & Hn & Hd & new & Hs & Hc).
  cbn. rewrite Hr, Ha, Hk, Hs. split_and!; try done; try apply Hd. by exists new.
Qed.

Lemma mapM_strings (l : list jstr) k : mapM (string_between 0 RCON_ARG_MAX_LENGTH) (JStr <$> l) = Some k → k = l.
Proof.
  revert k. induction l as [|s l IH]; intros k; [by intros [= <-]|]. cbn. destruct (_ <=? _)%nat; [|done]. cbn.
  destruct (mapM _ _) as [l'|]; [|done]. cbn. intros [= <-]. by rewrite (IH l' eq_refl).
Qed.
Lemma request_parsed w d q : rconCommandRequestSchema (queued_request w d) = Some q → command q = rd_command d ∧ args q = rd_args d.
Proof.
  unfold queued_request, rconCommandRequestSchema. set (fs := [_; _; _; _; _]).
  change (map_get fs (js "command")) with (Some (JStr (command_text (rd_command d)))). change (map_get fs (js "args")) with (Some (strings (rd_args d))).
  destruct (map_get fs (js "request_id") ≫= _); [|done]. cbn [mbind option_bind]. replace (rconOperatorCommandNameSchema _) with (Some (rd_command d)) by (by destruct (rd_command d)).
  cbn [mbind option_bind]. unfold strings, args_schema. destruct (_ <=? _)%nat; [|done]. destruct (mapM _ _) as [ks|] eqn:El; [|done]. apply mapM_strings in El as ->.
  cbn [mbind option_bind]. destruct (actor_schema _); [|done]. destruct (datetime_schema _); [|done]. cbn [mbind option_bind]. destruct (forallb _ _); [|done]. by intros [= <-].
Qed.

(** The text a kick or a warning carries to the player. *)
Definition player_text (a : AutomationAction) : option jstr := match a with Do_kick t | Do_warn t => Some t | _ => None end.

(** A kick or warning whose text has a line break inside is accepted by the
    action's schema, and a run of it recorded as executed; but the request it
    put on the stream is one the RCON worker refuses. *)
Theorem broken_text_never_runs m w w' d t : player_text (m_action m) = Some t → existsb is_line_break (trim t) = true →
  runMatch m false w = (w', Ok d) → run_status d = Executed →
  ∃ rd w0 q, sent w' = sent w ++ [(rconCommandStream (rd_server rd), q)] ∧ rconCommandRequestSchema (queued_request w0 rd) = Some q ∧
  ∀ cmd, buildOperatorCommand (queued_request w0 rd) ≠ Ok cmd.
Proof.
  intros Ht Hb (w1 & x & Hp & -> & _ & _ & _ & ->)%runMatch_inv Hs. apply perform_result in Hp as (_ & _ & _ & _ & new & -> & Hc). cbn in Hs. rewrite Hs in Hc.
  destruct Hc as (rd & w0 & q & Hd & Hq & ->). exists rd, w0, q. split; [done|]. split; [done|]. intros cmd. rewrite (build_accepts _ _ _ Hq). intros [Hargs _].
  destruct (request_parsed _ _ _ Hq) as [Hc Ha]. rewrite Hc, Ha in Hargs. assert (∃ target c, rd = mkDispatch (rd_server rd) c [target; t] ∧ signature c = [Target; Text]) as (target & c & Hrd & Hsig).
  { revert Hd. unfold buildRconDispatch. destruct (m_server m) as [s|]; [|done]. destruct (m_action m); try done; injection Ht as ->; destruct (resolveTarget m); try done; case_bool_decide; try done; intros [= <-]; by eexists _, _. }
  rewrite Hrd in Hargs. cbn in Hargs. rewrite Hsig in Hargs. apply Forall2_cons_1 in Hargs as [_ Hargs]. apply Forall2_cons_1 in Hargs as [(_ & _ & Hno) _]. congruence.
Qed.
End Firing.

(** * The cooldown of a time rule *)

Section Cooldown.
Context `{AutomationEnv} `{CommandEnv} `{AutomationWorld} (cooldown_seconds : Z) (players : list flag_row) (rules : list AutomationRuleInput).

Definition fired_on_time (f : firing) (k : jstr) : Prop :=
  m_condition (f_match f) = Time_of_day ∧ timeOfDayCooldownKey (f_match f) = k ∧ ∃ s, f_status f = Some s ∧ s ≠ Failed.
Definition rests_until (f : firing) : Z := f_at f + cooldown_seconds * 1000.
Definition free (w : world) (k : jstr) : Prop := ∀ f, f ∈ firings w → fired_on_time f k → rests_until f ≤ clock w.
(** A firing that still rests has its key, and two of one key are a cooldown apart. *)
Record cooldown_inv (w : world) : Prop := {
  ci_past : ∀ f, f ∈ firings w → f_at f ≤ clock w;
  ci_key : ∀ f k, f ∈ firings w → fired_on_time f k → clock w < rests_until f → ∃ t, map_get (keys w) k = Some t ∧ rests_until f ≤ t;
  ci_apart : ∀ i j f g k, (i < j)%nat → firings w !! i = Some f → firings w !! j = Some g → fired_on_time f k → m_condition (f_match g) = Time_of_day →
    timeOfDayCooldownKey (f_match g) = k → rests_until f ≤ f_at g;
}.

Lemma key_kinds m r o : timeOfDayCooldownKey m ≠ playerCountLatchKey r o.
Proof. intros E. apply (f_equal (fun l => l !! 11%nat)) in E. unfold timeOfDayCooldownKey, playerCountLatchKey in E. vm_compute in E. done. Qed.

#[local] Arguments timeOfDayCooldownKey : simpl never.
#[local] Arguments playerCountLatchKey : simpl never.

(** Steps that leave the clock, the firings and the keys of time rules alone. *)
Record aside (w w' : world) : Prop := {
  as_clock : clock w' = clock w;
  as_firings : firings w' = firings w;
  as_keys : ∀ m, map_get (keys w') (timeOfDayCooldownKey m) = map_get (keys w) (timeOfDayCooldownKey m);
}.
#[local] Instance aside_po : PreOrder aside.
Proof. split; [done|]. intros a b c [H1a H1b H1c] [H2a H2b H2c]. split; [congruence|congruence|]. intros m. by rewrite H2c. Qed.
Definition keeps {A} (m : M A) : Prop := ∀ w, aside w (m w).1.
Lemma ret_keeps {A} (a : A) : keeps (ret a). Proof. done. Qed.
Lemma keeps_bind {A B} (m : M A) (f : A → M B) : keeps m → (∀ a, keeps (f a)) → keeps (bind m f).
Proof. intros Hm Hf w. unfold bind. specialize (Hm w). destruct (m w) as [w1 [a|e]]; [|done]. etrans; [done|apply Hf]. Qed.
Lemma keeps_catch {A} (m : M A) (h : jstr → M A) : keeps m → (∀ e, keeps (h e)) → keeps (catch m h).
Proof. intros Hm Hf w. unfold catch. specialize (Hm w). destruct (m w) as [w1 [a|e]]; [done|]. etrans; [done|apply Hf]. Qed.
Lemma keeps_call {R} (f : world → world * R) : (∀ w, aside w (f w).1) → keeps (call f).
Proof.
  intros Hf w. pose proof (Hf (set_calls w (S (calls w)))) as [Ha Hb Hc]. destruct (call f w) as [w' r] eqn:E. apply call_inv in E as [(-> & _)|(-> & _)]; done.
Qed.
Lemma keeps_set r o t w : aside w (set_keys w (map_set (keys w) (playerCountLatchKey r o) t)).
Proof. split; [done..|]. intros m. cbn. apply map_get_set_ne. intros E. by apply (key_kinds m r o). Qed.
Lemma keeps_del ks : (∀ k, k ∈ ks → ∃ r o, k = playerCountLatchKey r o) → keeps (del ks).
Proof.
  intros Hks. apply keeps_call. intros w. split; [done..|]. intros m. cbn. generalize (keys w). induction ks as [|k ks IH]; intros l; [done|]. cbn [foldl].
  rewrite IH by (intros; apply Hks; by right). destruct (Hks k ltac:(by left)) as (r & o & ->). apply map_get_delete_ne. intros E. by apply (key_kinds m r o).
Qed.
Lemma keeps_look {R} (r : world → R) : keeps (call (fun w => (w, r w))). Proof. by apply keeps_call. Qed.
Lemma keeps_runMatch m dry : keeps (runMatch m dry).
Proof.
  apply keeps_bind; [|intros x; apply keeps_bind; [by apply keeps_call|intros _; apply keeps_bind; [by apply keeps_call|done]]].
  assert (∀ d, keeps (sendRconCommand d)) as Hsend by (intros d w; unfold sendRconCommand; case_match; [by apply keeps_call|done]).
  unfold perform_action. destruct dry; [done|]. destruct (m_action m); [| | |apply keeps_catch; done]; destruct (buildRconDispatch m) as [[d|]|e]; try done; apply keeps_catch; try done;
    (apply keeps_bind; [apply Hsend|done]).
Qed.
Lemma keeps_claim_edge m : keeps (claimPlayerCountEdge m).
Proof.
  apply keeps_bind; [|intros []; [done|apply keeps_bind; [|done]]]; apply keeps_call; intros w; case_match; cbn; try done; apply keeps_set.
Qed.
Lemma keeps_input e now rs : keeps (buildTriggerInput players e now rs).
Proof.
  unfold buildTriggerInput. case_bool_decide; [done|]. case_bool_decide; [|done]. destruct (readConnectedPlayer (env_payload e)) as [[[steam eos] name]|]; [|done].
  apply keeps_bind; [|done]. case_match; [|done]. unfold resolvePlayerFlags. apply keeps_bind; [case_match; [apply keeps_look|done]|].
  intros a. apply keeps_bind; [|done]. destruct a; [done|]. case_match; [apply keeps_look|done].
Qed.
Lemma keeps_rearm input rs ms : keeps (rearmPlayerCountRules input rs ms).
Proof.
  unfold rearmPlayerCountRules. case_match; [|done]. case_bool_decide; [done|]. apply keeps_del. intros k (r & -> & _)%list_elem_of_fmap. by eexists _, _.
Qed.

Lemma inv_aside w w' : aside w w' → cooldown_inv w → cooldown_inv w'.
Proof.
  intros [Hc Hf Hk] [Hp Hkey Ha]. split; rewrite ?Hc, ?Hf; [done| |done]. intros f k Hin Hfire Hlt. destruct (Hkey f k Hin Hfire Hlt) as (t & Ht & Hle).
  exists t. split; [|done]. destruct Hfire as (_ & <- & _). by rewrite Hk.
Qed.
Lemma free_aside w w' k : aside w w' → free w k → free w' k.
Proof. intros [Hc Hf _] Hfree f. rewrite Hc, Hf. apply Hfree. Qed.

Lemma inv_delete w m w' r : cooldown_inv w → free w (timeOfDayCooldownKey m) → del [timeOfDayCooldownKey m] w = (w', r) →
  cooldown_inv w' ∧ clock w' = clock w ∧ free w' (timeOfDayCooldownKey m).
Proof.
  intros [Hp Hkey Ha] Hfree [(-> & _)|(-> & _)]%call_inv; [|done]. cbn. split; [|done]. split; cbn; [done| |done].
  intros f k Hin Hfire Hlt. destruct (decide (k = timeOfDayCooldownKey m)) as [->|Hne]; [specialize (Hfree f Hin Hfire); lia|].
  rewrite map_get_delete_ne by done. by apply Hkey.
Qed.
Lemma inv_claim w m w' r : cooldown_inv w → claimTimeOfDayCooldown cooldown_seconds m w = (w', r) →
  cooldown_inv w' ∧ clock w' = clock w ∧
  (r = Ok true → free w' (timeOfDayCooldownKey m) ∧ map_get (keys w') (timeOfDayCooldownKey m) = Some (clock w' + cooldown_seconds * 1000)).
Proof.
  intros [Hp Hkey Ha] Hcall. apply call_inv in Hcall as [(-> & Hr)|(-> & ->)]; [|done]. cbn zeta.
  destruct (live (set_calls w (S (calls w))) (timeOfDayCooldownKey m)) eqn:El; [split; [done|]; split; [done|]; by destruct Hr as [->| ->]|].
  assert (free w (timeOfDayCooldownKey m)) as Hfree.
  { intros f Hin Hfire. destruct (decide (clock w < rests_until f)) as [Hlt|]; [|lia]. destruct (Hkey f _ Hin Hfire Hlt) as (t & Ht & Hle).
    change (live w (timeOfDayCooldownKey m) = false) in El. unfold live in El. rewrite Ht in El. apply Z.ltb_ge in El. lia. }
  cbn. split; [|split; [done|intros _; split; [done|apply map_get_set_eq]]]. split; cbn; [done| |done].
  intros f k Hin Hfire Hlt. destruct (decide (k = timeOfDayCooldownKey m)) as [->|Hne]; [specialize (Hfree f Hin Hfire); lia|].
  rewrite map_get_set_ne by done. by apply Hkey.
Qed.

Lemma fired_last w x k f : f ∈ firings w ++ [x] → fired_on_time f k → f ∈ firings w ∨ f = x.
Proof. by intros [?| ->%list_elem_of_singleton]%elem_of_app; [left|right]. Qed.
Lemma inv_record w m w' r : cooldown_inv w →
  (m_condition m = Time_of_day → free w (timeOfDayCooldownKey m) ∧ map_get (keys w) (timeOfDayCooldownKey m) = Some (clock w + cooldown_seconds * 1000)) →
  run_recorded m w = (w', r) →
  cooldown_inv w' ∧ clock w' = clock w ∧
  (m_condition m = Time_of_day → (match r with Ok d => run_status d = Failed | Throw _ => True end) → free w' (timeOfDayCooldownKey m)).
Proof.
  intros Hinv Hkey0. unfold run_recorded. pose proof (keeps_runMatch m false w) as Has. destruct (runMatch m false w) as [w1 r1]. cbn [fst] in Has. intros [= <- <-].
  apply (inv_aside _ _ Has) in Hinv as [Hp Hkey Ha]. set (x := mkFiring _ _ _). assert (clock w1 = clock w) as Hcw by (by destruct Has).
  assert (m_condition m = Time_of_day → free w1 (timeOfDayCooldownKey m) ∧ map_get (keys w1) (timeOfDayCooldownKey m) = Some (clock w1 + cooldown_seconds * 1000)) as Hkey1.
  { intros Ht. destruct (Hkey0 Ht) as [Hf Hk]. split; [by apply (free_aside w)|]. destruct Has as [-> _ Hk']. by rewrite Hk'. }
  split; [|split; [by destruct Has|]].
  - split; cbn.
    + intros f [Hin| ->%list_elem_of_singleton]%elem_of_app; [by apply Hp|cbn; lia].
    + intros f k Hin Hfire Hlt. destruct (fired_last _ _ _ _ Hin Hfire) as [Hold| ->]; [by apply Hkey|]. destruct Hfire as (Ht & <- & _). cbn in Ht.
      destruct (Hkey1 Ht) as [_ Hk1]. eexists. split; [exact Hk1|]. unfold rests_until. cbn. lia.
    + intros i j f g k Hij Hi Hj Hfire Hg Hgk. assert (j < length (firings w1 ++ [x]))%nat as Hjl by (by eapply lookup_lt_Some). rewrite length_app in Hjl. cbn in Hjl.
      rewrite lookup_app_l in Hi by lia. destruct (decide (j < length (firings w1))%nat) as [Hlt|Hge]; [rewrite lookup_app_l in Hj by done; by eapply (Ha i j f g k)|].
      rewrite lookup_app_r in Hj by lia. replace (j - length (firings w1))%nat with 0%nat in Hj by lia. injection Hj as <-. cbn in Hg, Hgk.
      destruct (Hkey1 Hg) as [Hfree _]. cbn. rewrite <- Hcw. apply Hfree; [by eapply list_elem_of_lookup_2|by rewrite Hgk].
  - intros Ht Hbad. destruct (Hkey1 Ht) as [Hfree _]. intros f Hin Hfire. destruct (fired_last _ _ _ _ Hin Hfire) as [Hold| ->]; [by apply Hfree|].
    destruct Hfire as (_ & _ & s & Hs & Hne). cbn in Hs. destruct r1; [|done]. injection Hs as <-. done.
Qed.

Lemma fire_time w m w' r : m_condition m = Time_of_day → cooldown_inv w → fireMatch cooldown_seconds m w = (w', r) → cooldown_inv w' ∧ clock w' = clock w.
Proof.
  intros Ht Hinv. unfold fireMatch.
  rewrite (bool_decide_eq_true_2 _ Ht), (bool_decide_eq_false_2 (m_condition m = Player_count)) by congruence. cbn [andb].
    destruct (_ && _); [by intros [= <- <-]|]. unfold bind at 1. destruct (claimTimeOfDayCooldown cooldown_seconds m w) as [w1 r1] eqn:Ec.
    apply (inv_claim _ _ _ _ Hinv) in Ec as (Hinv1 & Hc1 & Hk1). destruct r1 as [[]|e]; [|by intros [= <- <-]|by intros [= <- <-]].
    cbn [negb]. unfold bind at 1, ret at 1. cbn [negb]. unfold catch, bind. destruct (run_recorded m w1) as [w2 r2] eqn:Er.
    apply (inv_record _ _ _ _ Hinv1) in Er as (Hinv2 & Hc2 & Hf2); [|by intros _; apply Hk1]. specialize (Hf2 Ht).
    assert (∀ w3 r3, del [timeOfDayCooldownKey m] w2 = (w3, r3) → free w2 (timeOfDayCooldownKey m) → cooldown_inv w3 ∧ clock w3 = clock w ∧ free w3 (timeOfDayCooldownKey m)) as Hdel.
    { intros w3 r3 Hd Hf. apply (inv_delete _ _ _ _ Hinv2 Hf) in Hd as (? & -> & ?). split; [done|]. split; [congruence|done]. }
    destruct r2 as [d|e].
  - case_bool_decide as Hfail; [|intros [= <- <-]; by split; [|congruence]]. specialize (Hf2 Hfail).
    destruct (del [timeOfDayCooldownKey m] w2) as [w3 [[]|e]] eqn:Ed; destruct (Hdel _ _ eq_refl Hf2) as (Hinv3 & Hc3 & Hf3); [by intros [= <- <-]|].
    destruct (del [timeOfDayCooldownKey m] w3) as [w4 r4] eqn:Ed2. apply (inv_delete _ _ _ _ Hinv3 Hf3) in Ed2 as (? & ? & _).
    destruct r4; intros [= <- <-]; (split; [done|congruence]).
  - destruct (del [timeOfDayCooldownKey m] w2) as [w3 r3] eqn:Ed. destruct (Hdel _ _ eq_refl (Hf2 I)) as (Hinv3 & Hc3 & _). destruct r3; by intros [= <- <-].
Qed.

(** Programs that keep the invariant and take no time. *)
Definition steady {A} (m : M A) : Prop := ∀ w, cooldown_inv w → cooldown_inv (m w).1 ∧ clock (m w).1 = clock w.
Lemma steady_keeps {A} (m : M A) : keeps m → steady m.
Proof. intros Hm w Hinv. pose proof (Hm w) as Has. split; [by apply (inv_aside w)|by destruct Has]. Qed.
Lemma steady_bind {A B} (m : M A) (f : A → M B) : steady m → (∀ a, steady (f a)) → steady (bind m f).
Proof.
  intros Hm Hf w Hinv. unfold bind. destruct (Hm w Hinv) as [Hi Hc]. destruct (m w) as [w1 [a|e]]; [|done]. destruct (Hf a w1 Hi) as [? ->]. done.
Qed.
Lemma steady_catch {A} (m : M A) (h : jstr → M A) : steady m → (∀ e, steady (h e)) → steady (catch m h).
Proof.
  intros Hm Hf w Hinv. unfold catch. destruct (Hm w Hinv) as [Hi Hc]. destruct (m w) as [w1 [a|e]]; [done|]. destruct (Hf e w1 Hi) as [? ->]. done.
Qed.
Lemma steady_record m : m_condition m ≠ Time_of_day → steady (run_recorded m).
Proof.
  intros Ht w Hinv. destruct (run_recorded m w) as [w' r] eqn:E. by apply (inv_record _ _ _ _ Hinv) in E as (? & ? & _).
Qed.
Lemma fire_other m : m_condition m ≠ Time_of_day → steady (fireMatch cooldown_seconds m).
Proof.
  intros Ht. unfold fireMatch. rewrite (bool_decide_eq_false_2 _ Ht). cbn [andb].
  assert (∀ b, keeps (if b : bool then del [playerCountLatchKey (m_rule m) (m_server m)] else ret tt)) as Hlatch.
  { intros []; [|done]. apply keeps_del. intros k ->%list_elem_of_singleton. by eexists _, _. }
  apply steady_bind; [by apply steady_keeps|]. intros []; [cbn [negb]|by apply steady_keeps].
  apply steady_bind; [apply steady_keeps; case_bool_decide; [apply keeps_claim_edge|done]|]. intros []; [cbn [negb]|by apply steady_keeps].
  apply steady_catch.
  - apply steady_bind; [by apply steady_record|]. intros d. apply steady_keeps. apply keeps_bind; [done|]. intros _. apply keeps_bind; [apply Hlatch|done].
  - intros _. apply steady_keeps. apply keeps_bind; [done|]. intros _. apply keeps_bind; [|done]. case_bool_decide; [|done]. apply keeps_catch; [apply (Hlatch true)|done].
Qed.
Lemma fire_steady m : steady (fireMatch cooldown_seconds m).
Proof.
  destruct (decide (m_condition m = Time_of_day)) as [Ht|Ht]; [|by apply fire_other]. intros w Hinv.
  destruct (fireMatch cooldown_seconds m w) as [w' r] eqn:E. by apply fire_time in E.
Qed.
Lemma process_steady e : steady (processAutomationEnvelope cooldown_seconds players rules e).
Proof.
  intros w. unfold processAutomationEnvelope. apply steady_bind; [by apply steady_keeps, keeps_look|]. intros rs.
  apply steady_bind; [apply steady_keeps, keeps_input|]. intros input. apply steady_bind; [apply steady_keeps, keeps_rearm|]. intros _.
  induction (evaluate input rs) as [|m ms IH]; [by apply steady_keeps|]. cbn. apply steady_bind; [apply fire_steady|]. intros d.
  apply steady_bind; [done|]. intros ds. by apply steady_keeps.
Qed.
Lemma process_all_inv es w : cooldown_inv w → cooldown_inv (process_all cooldown_seconds players rules es w).1.
Proof.
  revert w. induction es as [|[ms e] es IH]; intros w Hinv; [done|]. cbn [process_all].
  assert (cooldown_inv (advance ms w)) as Hadv.
  { destruct Hinv as [Hp Hk Ha]. split; cbn; [intros f Hin; specialize (Hp f Hin); lia| |done]. intros f k Hin Hf Hlt. apply Hk; [done|done|lia]. }
  destruct (process_steady e _ Hadv) as [Hi _]. destruct (processAutomationEnvelope _ _ _ e _) as [w1 r]. specialize (IH w1 Hi).
  destruct (process_all _ _ _ es w1) as [w2 r2]. exact IH.
Qed.

(** C28: A rule on the time of day rests: whatever events come, whenever, and
    whichever calls to Redis, the database or the streams fail or lose their
    answer, two firings of such a rule on one server are a cooldown apart unless
    the first failed. *)
Theorem cooldown_respected es w w' rs : firings w = [] → process_all cooldown_seconds players rules es w = (w', rs) →
  ∀ i j f g s, (i < j)%nat → firings w' !! i = Some f → firings w' !! j = Some g →
    m_condition (f_match f) = Time_of_day → m_condition (f_match g) = Time_of_day → timeOfDayCooldownKey (f_match f) = timeOfDayCooldownKey (f_match g) →
    f_status f = Some s → s ≠ Failed →
    f_at f + cooldown_seconds * 1000 ≤ f_at g.
Proof.
  intros He Hrun i j f g s Hij Hi Hj Hf Hg Hk Hs Hne. assert (cooldown_inv w) as Hinv.
  { split; rewrite He; [by intros f0 ?%elem_of_nil|by intros f0 k ?%elem_of_nil|done]. }
  apply (process_all_inv es) in Hinv. rewrite Hrun in Hinv. destruct Hinv as [_ _ Ha]. cbn in Ha.
  eapply (Ha i j f g _ Hij Hi Hj); [split; [done|split; [done|by eexists]]|done|done].
Qed.
End Cooldown.

(** * Example runs *)

Section Examples.
#[local] Instance plain_automation : AutomationEnv := {
  int_of t := if forallb is_digit t then Some (digits_value t) else None;
  isKnownTimeZone _ := true;
  zone_parts ms _ := ((ms / 3600000) mod 24, (ms / 60000) mod 60, Z.to_nat ((4 + ms / 86400000) mod 7));
  toLowerCase s := s;
  word_char c := negb (c =? 32);
}.
#[local] Instance plain_commands : CommandEnv := { is_datetime _ := true; issues_of _ := [] }.
Definition lucky : AutomationWorld := {| luck _ := Fine; uuidv7 n := js "id" |}.
(** Only the call numbered [n] fails. *)
Definition unlucky (n : nat) : AutomationWorld := {| luck k := if (k =? n)%nat then Refused else Fine; uuidv7 _ := js "id" |}.

Definition ex_event (type : string) (payload : json) : AutomationEnvelope := mkEvent (js "e") (js type) (Some (js "s1")) (Some payload) None.
Definition ex_window : json := JObj [(js "startMinute", JNum (js "60")); (js "endMinute", JNum (js "120"))].
Definition ex_notify : json := JObj [(js "message", JStr (js "night"))].
Definition ex_time_rule : AutomationRuleInput := mkRule (js "r1") None (js "night watch") Time_of_day ex_window Notify_admin ex_notify true.
Definition ex_warn : json := JObj [(js "message", JStr (js "mind the rules"))].
Definition ex_flag : json := JObj [(js "flag", JStr (js "has_role")); (js "present", JBool false)].
Definition ex_flag_rule : AutomationRuleInput := mkRule (js "r2") None (js "greet") Player_flag ex_flag Warn ex_warn true.
Definition ex_polled (ms : N) : N * AutomationEnvelope := (ms, ex_event "rcon.players_polled" (JObj [(js "players", JArr [])])).
Definition ex_connected (ms : N) : N * AutomationEnvelope := (ms, ex_event "player.connected" (JObj [(js "steam_id64", JStr (js "76561198000000001"))])).
(** At 01:00. *)
Definition ex_start : world := mkWorld 3600000 [] [] [] [] 0 [].

(** Three polls twenty minutes apart fire the rule once; one of the next day's
    fires it again. *)
Notation ex_nights := (process_all (H1 := lucky) 3600 [] [ex_time_rule] [ex_polled 0; ex_polled 1200000; ex_polled 1200000; ex_polled 84000000] ex_start).
Example nights_fired : f_at <$> firings ex_nights.1 = [3600000; 90000000].
Proof. vm_compute. reflexivity. Qed.
Lemma cooldown_respected_witness : ∃ f g, firings ex_nights.1 !! 0%nat = Some f ∧ firings ex_nights.1 !! 1%nat = Some g ∧ f_at f + 3600 * 1000 ≤ f_at g.
Proof.
  eexists _, _. split; [vm_compute; reflexivity|]. split; [vm_compute; reflexivity|].
  eapply (cooldown_respected (H1 := lucky) 3600 [] [ex_time_rule] _ ex_start ex_nights.1 ex_nights.2 eq_refl (surjective_pairing _) 0 1 _ _ Skipped ltac:(lia)); vm_compute; try reflexivity; done.
Defined.

(** A claim that Redis refuses makes the whole envelope fail, after an earlier
    match has fired: served again, the player is warned a second time. *)
Notation ex_served_twice := (process_all (H1 := unlucky 6) 3600 [] [ex_flag_rule; ex_time_rule] [ex_connected 0; ex_connected 1000] ex_start).
Example claim_failure_repeats : (match ex_served_twice.2 with [Throw _; Ok _] => True | _ => False end) ∧
  (fun s => args s.2) <$> sent ex_served_twice.1 = [[js "76561198000000001"; js "mind the rules"]; [js "76561198000000001"; js "mind the rules"]].
Proof. vm_compute. done. Qed.

Lemma time_window_exact_witness :
  let c := mkTimeOfDay 1380 60 (js "UTC") (Some [6]) in
  let input := mkTrigger None (259200000 + 1800000) None None None None in
  zoneMinuteAndWeekday (tr_now input) (timezone c) = (30, 0) ∧
  (is_Some (matchTimeOfDay input c) ↔ ∃ day, 0 ≤ day < 7 ∧ day_allowed c day ∧ in_window_of c day (0 * 1440 + 30)) ∧ is_Some (matchTimeOfDay input c).
Proof.
  cbv zeta. split; [vm_compute; reflexivity|]. split; [|vm_compute; by eexists].
  assert (0 ≤ 1380 < 1440 ∧ 0 ≤ 60 < 1440) as [Ha Hb] by lia. assert (0 ≤ 30 ∧ 30 < 60 ∧ (0 < 7)%nat) as (Hz1 & Hz2 & Hz3) by lia.
  exact (time_window_exact (mkTrigger None (259200000 + 1800000) None None None None) (mkTimeOfDay 1380 60 (js "UTC") (Some [6])) Ha Hb (conj (conj Hz1 Hz2) Hz3)).
Defined.

Definition ex_match (a : AutomationAction) : AutomationMatch :=
  mkMatch (js "r2") (js "greet") (Some (js "s1")) Player_flag [] (Some (mkPlayerRef None (Some (js "76561198000000001")) None None)) a.
Notation ex_run a := (runMatch (H1 := lucky) (ex_match a) false ex_start).
Lemma history_truthful_witness : ∃ w d, ex_run (Do_warn (js "mind the rules")) = (w, Ok d) ∧ run_status d = Executed ∧ runs w = [d] ∧
  ∃ new, sent w = new ∧ commands_sent (H1 := lucky) (ex_match (Do_warn (js "mind the rules"))) (run_status d) new.
Proof.
  assert (∃ w d, ex_run (Do_warn (js "mind the rules")) = (w, Ok d) ∧ run_status d = Executed) as (w & d & E & Hs) by (eexists _, _; split; vm_compute; reflexivity).
  exists w, d. split; [exact E|]. split; [exact Hs|].
  destruct (history_truthful (H1 := lucky) _ _ _ _ _ E) as (Hr & _ & _ & _ & _ & _ & _ & _ & _ & new & Hsent & Hc).
  split; [exact Hr|]. exists new. split; [exact Hsent|exact Hc].
Defined.
(** A reason of two lines, as the editor of rules accepts it. *)
Definition two_lines : jstr := js "be nice" ++ [10] ++ js "please".
Example two_lines_accepted : parseAutomationAction Kick (JObj [(js "reason", JStr two_lines)]) = Some (Do_kick two_lines) ∧
  run_status <$> runs (ex_run (Do_kick two_lines)).1 = [Executed].
Proof. vm_compute. done. Qed.
End Examples.
