(* ===== verification/LogTails.v ===== *)
(** Following the logs of game servers: [line-splitter.ts], [ssh-tail.ts],
    [manager.ts], [bounded-chain.ts] of the log-ingest worker, and the vote
    assembler of its [parser/vote.ts]. *)
From S2P Require Import Prelude JsString JsMap Bytes.

(** * Lines of a stream of chunks *)

Definition MAX_PENDING_LINE_CHARS : Z := 64 * 1024.

Record splitter := mkSplitter { pending : jstr; discardingUntilNewline : bool }.
Definition createLineSplitter : splitter := mkSplitter [] false.

(** The calls of [onLine] for one part of a chunk. *)
Definition line_calls (skipped : bool) (text : jstr) : list jstr :=
  let line := strip_cr text in if skipped || (length line =? 0)%nat then [] else [line].
Fixpoint for_each_part (index : nat) (parts : list jstr) (s : splitter) : splitter * list jstr :=
  match parts with
  | [] => (s, [])
  | part :: parts =>
      let text := if (index =? 0)%nat then pending s ++ part else part in
      let skipped := (index =? 0)%nat && discardingUntilNewline s in
      let '(s', lines) := for_each_part (S index) parts (mkSplitter [] false) in
      (s', line_calls skipped text ++ lines)
  end.
(** A chunk, the lines it completes, and whether an oversized line is given up. *)
Definition split_chunk (s : splitter) (chunk : jstr) : splitter * (list jstr * bool) :=
  let all := split_on 10 chunk in
  let unterminated := List.last all [] in
  let parts := removelast all in
  let '(s, lines) := for_each_part 0 parts s in
  let carried := if bool_decide (parts = []) then pending s ++ unterminated else unterminated in
  if discardingUntilNewline s || (MAX_PENDING_LINE_CHARS <? Z.of_nat (length carried))
  then (mkSplitter [] true, (lines, negb (discardingUntilNewline s)))
  else (mkSplitter carried (discardingUntilNewline s), (lines, false)).
Fixpoint split_chunks (s : splitter) (chunks : list jstr) : splitter * list jstr :=
  match chunks with
  | [] => (s, [])
  | chunk :: chunks => let '(s, (lines, _)) := split_chunk s chunk in let '(s, more) := split_chunks s chunks in (s, lines ++ more)
  end.

(** ** What a text holds *)

Definition terminated (text : jstr) : list jstr := removelast (split_on 10 text).
Definition unfinished (text : jstr) : jstr := List.last (split_on 10 text) [].
(** The non-empty lines, without a CR at their end. *)
Definition shown (lines : list jstr) : list jstr := concat (line_calls false <$> lines).
(** The lines of a text with some left out, all of them oversized. *)
Inductive delivers : list jstr → list jstr → Prop :=
| delivers_nil : delivers [] []
| delivers_shown l ls out : delivers ls out → delivers (l :: ls) (line_calls false l ++ out)
| delivers_dropped l ls out : MAX_PENDING_LINE_CHARS < Z.of_nat (length l) → delivers ls out → delivers (l :: ls) out.

Lemma split_on_concat a b : split_on 10 (a ++ b) =
  removelast (split_on 10 a) ++ (List.last (split_on 10 a) [] ++ hd [] (split_on 10 b)) :: tl (split_on 10 b).
Proof.
  induction a as [|c a IH]; [cbn; pose proof (split_on_nonempty 10 b); by destruct (split_on 10 b)|].
  cbn [app split_on]. pose proof (split_on_nonempty 10 a) as Hne. destruct (c =? 10).
  - rewrite IH. by destruct (split_on 10 a).
  - rewrite IH. by destruct (split_on 10 a) as [|w [|w' ws]].
Qed.
Lemma unfinished_clean text : 10 ∉ unfinished text.
Proof.
  unfold unfinished. induction text as [|c text IH]; [by apply not_elem_of_nil|]. cbn [split_on]. pose proof (split_on_nonempty 10 text) as Hne. destruct (Z.eqb_spec c 10) as [E|E].
  - by destruct (split_on 10 text).
  - destruct (split_on 10 text) as [|w [|w' ws]]; [done| |done]. cbn in *. by intros [?|?]%elem_of_cons.
Qed.
Lemma last_cons_ne {A} (x d : A) l : l ≠ [] → List.last (x :: l) d = List.last l d.
Proof. by destruct l. Qed.
Lemma list_last_app {A} (l : list A) x k d : List.last (l ++ x :: k) d = List.last (x :: k) d.
Proof. induction l as [|y l IH]; [done|]. cbn [app]. rewrite last_cons_ne; [done|]. by destruct l. Qed.
Lemma removelast_cons_ne {A} (x : A) l : l ≠ [] → removelast (x :: l) = x :: removelast l.
Proof. by destruct l. Qed.
Lemma terminated_app a b : terminated (a ++ b) = terminated a ++ terminated (unfinished a ++ b).
Proof.
  unfold terminated at 1. rewrite split_on_concat. rewrite removelast_app by done. f_equal. unfold terminated.
  rewrite (split_on_concat (unfinished a) b), (split_on_no_sep 10 (unfinished a)) by apply unfinished_clean. done.
Qed.
Lemma unfinished_app a b : unfinished (a ++ b) = unfinished (unfinished a ++ b).
Proof.
  unfold unfinished at 1. rewrite split_on_concat. rewrite list_last_app. unfold unfinished at 1.
  rewrite (split_on_concat (unfinished a) b), (split_on_no_sep 10 (unfinished a)) by apply unfinished_clean. done.
Qed.

(** What the splitter knows of the text so far. *)
Record splitter_at (s : splitter) (text : jstr) : Prop := {
  sa_bound : Z.of_nat (length (pending s)) ≤ MAX_PENDING_LINE_CHARS;
  sa_rest : if discardingUntilNewline s then pending s = [] ∧ MAX_PENDING_LINE_CHARS < Z.of_nat (length (unfinished text)) else pending s = unfinished text;
}.
Lemma for_each_later parts n : for_each_part (S n) parts (mkSplitter [] false) = (mkSplitter [] false, shown parts).
Proof. revert n. induction parts as [|p parts IH]; intros n; [done|]. cbn [for_each_part Nat.eqb andb]. rewrite IH. done. Qed.
Lemma delivers_all ls : delivers ls (shown ls).
Proof. induction ls as [|l ls IH]; [constructor|]. by apply (delivers_shown l). Qed.
Lemma delivers_app a oa b ob : delivers a oa → delivers b ob → delivers (a ++ b) (oa ++ ob).
Proof. intros Ha Hb. induction Ha; [done|rewrite <- app_assoc; by constructor|by constructor]. Qed.

Lemma delivers_short ls out : delivers ls out → Forall (fun l => Z.of_nat (length l) ≤ MAX_PENDING_LINE_CHARS) ls → out = shown ls.
Proof.
  intros Hd. induction Hd as [|l ls out _ IH|l ls out Hl _ IH]; intros Hall; [done| |].
  - apply Forall_cons_1 in Hall as [_ Hall]. by rewrite (IH Hall).
  - apply Forall_cons_1 in Hall as [Hlen _]. lia.
Qed.
Lemma cut_chunk u chunk parts un : 10 ∉ u → split_on 10 chunk = parts ++ [un] →
  terminated (u ++ chunk) = match parts with [] => [] | p :: ps => (u ++ p) :: ps end ∧
  unfinished (u ++ chunk) = match parts with [] => u ++ un | _ => un end.
Proof.
  intros Hu Hsplit. unfold terminated, unfinished. rewrite split_on_concat, (split_on_no_sep 10 u), Hsplit by done.
  destruct parts as [|p ps]; [done|].
  change (removelast (((u ++ p) :: ps) ++ [un]) = (u ++ p) :: ps ∧ List.last (((u ++ p) :: ps) ++ [un]) [] = un). by rewrite removelast_last, last_last.
Qed.

Lemma split_chunk_at s text chunk s' lines o : splitter_at s text → split_chunk s chunk = (s', (lines, o)) →
  splitter_at s' (text ++ chunk) ∧ delivers (terminated (unfinished text ++ chunk)) lines.
Proof.
  intros [Hb Hr]. unfold split_chunk. destruct (exists_last (split_on_nonempty 10 chunk)) as (parts & un & Hsplit).
  destruct (cut_chunk (unfinished text) chunk parts un (unfinished_clean text) Hsplit) as [Ht Hu]. rewrite Hsplit, removelast_last, last_last, Ht.
  assert (∀ carried lines0, (if discardingUntilNewline s && bool_decide (parts = []) then MAX_PENDING_LINE_CHARS < Z.of_nat (length (unfinished (text ++ chunk))) else carried = unfinished (text ++ chunk)) →
    (if (discardingUntilNewline s && bool_decide (parts = [])) || (MAX_PENDING_LINE_CHARS <? Z.of_nat (length carried)) then (mkSplitter [] true, (lines0, negb (discardingUntilNewline s && bool_decide (parts = []))))
     else (mkSplitter carried (discardingUntilNewline s && bool_decide (parts = [])), (lines0, false))) = (s', (lines, o)) → splitter_at s' (text ++ chunk) ∧ lines = lines0) as Hend.
  { intros carried lines0 Hc. destruct (discardingUntilNewline s && bool_decide (parts = [])); cbn [orb].
    - intros [= <- <- <-]. split; [|done]. split; cbn; [unfold MAX_PENDING_LINE_CHARS; lia|done].
    - subst carried. destruct (Z.ltb_spec MAX_PENDING_LINE_CHARS (Z.of_nat (length (unfinished (text ++ chunk))))); intros [= <- <- <-]; (split; [|done]); by split. }
  rewrite unfinished_app, Hu in Hend. destruct parts as [|p ps].
  - cbn [for_each_part]. rewrite bool_decide_eq_true_2, andb_true_r in Hend by done. rewrite bool_decide_eq_true_2 by done. intros E.
    apply Hend in E as [? ->]; [split; [done|constructor]|]. destruct (discardingUntilNewline s); [|by rewrite Hr]. destruct Hr as [_ Hr]. rewrite length_app. lia.
  - rewrite bool_decide_eq_false_2, andb_false_r in Hend by done. cbn [for_each_part Nat.eqb]. rewrite for_each_later, bool_decide_eq_false_2 by done. cbn [andb discardingUntilNewline pending].
    intros E. apply Hend in E as [? ->]; [|done]. split; [done|]. destruct (discardingUntilNewline s).
    + apply delivers_dropped; [|apply delivers_all]. destruct Hr as [_ Hr]. rewrite length_app. lia.
    + rewrite Hr. apply delivers_shown, delivers_all.
Qed.

(** C31: However the text of a log is cut into chunks, the splitter delivers, in
    order, its non-empty complete lines without their CR, with only lines of
    more than 64 Ki characters left out; what it keeps is at most that long and,
    unless it is skipping such a line, is the unfinished end of the text. *)
Theorem lines_independent_of_chunks chunks s lines : split_chunks createLineSplitter chunks = (s, lines) →
  delivers (terminated (concat chunks)) lines ∧
  (Forall (fun l => Z.of_nat (length l) ≤ MAX_PENDING_LINE_CHARS) (terminated (concat chunks)) → lines = shown (terminated (concat chunks))) ∧
  Z.of_nat (length (pending s)) ≤ MAX_PENDING_LINE_CHARS ∧
  (Z.of_nat (length (unfinished (concat chunks))) ≤ MAX_PENDING_LINE_CHARS → pending s = unfinished (concat chunks)).
Proof.
  assert (∀ chunks s0 text s lines, splitter_at s0 text → split_chunks s0 chunks = (s, lines) →
    splitter_at s (text ++ concat chunks) ∧ delivers (terminated (unfinished text ++ concat chunks)) lines) as Hrun.
  { clear. induction chunks as [|c chunks IH]; intros s0 text s lines Hs; cbn [split_chunks concat].
    - intros [= <- <-]. rewrite !app_nil_r. split; [done|]. unfold terminated. rewrite split_on_no_sep by apply unfinished_clean. constructor.
    - destruct (split_chunk s0 c) as [s1 [l1 o]] eqn:Ef. destruct (split_chunks s1 chunks) as [s2 more] eqn:Ea. intros [= <- <-].
      destruct (split_chunk_at _ _ _ _ _ _ Hs Ef) as [Hs1 Hl1]. destruct (IH _ _ _ _ Hs1 Ea) as [Hs2 Hl2]. split; [by rewrite app_assoc|].
      rewrite app_assoc, terminated_app. apply delivers_app; [done|]. by rewrite <- unfinished_app. }
  assert (splitter_at createLineSplitter []) as H0 by (split; cbn; [unfold MAX_PENDING_LINE_CHARS; lia|done]).
  intros [[Hb Hr] Hd]%(Hrun _ _ _ _ _ H0). change ([] ++ concat chunks) with (concat chunks) in *. change (unfinished []) with (@nil Z) in Hd. change ([] ++ concat chunks) with (concat chunks) in *. split; [done|]. split; [|split; [done|]].
  - by apply delivers_short.
  - intros Hlen. destruct (discardingUntilNewline s); [destruct Hr; lia|done].
Qed.

(** * The manager of tails *)

Inductive TailSource :=
| Container_source
| Ssh_source (host : jstr) (port : Z) (username logPath : jstr) (keyVersion : Z).
Record TailWanted := mkWanted { w_server : jstr; beaconPort : Z; source : TailSource }.
Definition tailSourceKey (w : TailWanted) : jstr :=
  match source w with
  | Container_source => js "container:" ++ int_str (beaconPort w)
  | Ssh_source host port username logPath keyVersion =>
      join (js "|") [js "ssh"; int_str (beaconPort w); host; int_str port; username; logPath; int_str keyVersion]
  end.

(** What the factory was asked for, and whether the tail still follows. *)
Record tail := mkTail { t_server : jstr; t_key : jstr; t_alive : bool }.
(** How a start ends: the tail runs, reports its death before the factory has
    returned, or the factory throws. *)
Inductive start_result := Runs | Dies_at_once | Refuses.
(** [aborters] name tails by the number of their start; [tails] is the record of
    all tails started, [starts] the calls of the factory. *)
Record manager := mkManager { aborters : list (jstr * nat); mkeys : list (jstr * jstr); tails : list tail; starts : nat }.
Definition new_manager : manager := mkManager [] [] [] 0.
Definition forget (m : manager) (id : jstr) : manager := mkManager (map_delete (aborters m) id) (map_delete (mkeys m) id) (tails m) (starts m).
Definition silence (h : nat) (l : list tail) : list tail := alter (fun t => mkTail (t_server t) (t_key t) false) h l.
Definition abort (m : manager) (h : nat) : manager := mkManager (aborters m) (mkeys m) (silence h (tails m)) (starts m).

Section Manager.
Context (factory : nat → start_result).

(** One server of the loop over what is wanted: the new state, whether its tail
    was replaced and whether one was added; [None] when the factory threw. *)
Definition replace_stale (m : manager) (id key : jstr) : manager * bool :=
  match map_get (aborters m) id with
  | Some h =>
      if bool_decide (map_get (mkeys m) id = Some key) then (m, false)
      else let m := abort m h in (mkManager (map_delete (aborters m) id) (mkeys m) (tails m) (starts m), true)
  | None => (m, false)
  end.
Definition start_missing (m : manager) (id key : jstr) (replaced : bool) : manager * option bool :=
  if map_has (aborters m) id then (m, Some false)
  else
    let outcome := factory (starts m) in
    let m := mkManager (aborters m) (mkeys m) (tails m) (S (starts m)) in
    match outcome with
    | Refuses => (m, None)
    | Dies_at_once => (mkManager (aborters m) (mkeys m) (tails m ++ [mkTail id key false]) (starts m), Some false)
    | Runs =>
        let h := length (tails m) in
        (mkManager (map_set (aborters m) id h) (map_set (mkeys m) id key) (tails m ++ [mkTail id key true]) (starts m), Some (negb replaced))
    end.
Record report := mkReport { added : list jstr; removed : list jstr; replaced : list jstr; total : nat }.
Fixpoint serve_wanted (incoming : list (jstr * TailWanted)) (m : manager) : manager * option (list jstr * list jstr) :=
  match incoming with
  | [] => (m, Some ([], []))
  | (id, t) :: incoming =>
      let '(m, rep) := replace_stale m id (tailSourceKey t) in
      match start_missing m id (tailSourceKey t) rep with
      | (m, None) => (m, None)
      | (m, Some add) =>
          match serve_wanted incoming m with
          | (m, Some (a, r)) => (m, Some ((if add : bool then [id] else []) ++ a, (if rep : bool then [id] else []) ++ r))
          | (m, None) => (m, None)
          end
      end
  end.
Fixpoint drop_unwanted (ids : list jstr) (incoming : list (jstr * TailWanted)) (m : manager) : manager * list jstr :=
  match ids with
  | [] => (m, [])
  | id :: ids =>
      if map_has incoming id then drop_unwanted ids incoming m
      else
        let m := match map_get (aborters m) id with Some h => abort m h | None => m end in
        let '(m, removed) := drop_unwanted ids incoming (forget m id) in (m, id :: removed)
  end.
Definition incoming_of (wanted : list TailWanted) : list (jstr * TailWanted) := foldl (fun acc t => map_set acc (w_server t) t) [] wanted.
(** The state stays as it was when the factory throws half-way. *)
Definition reconcile (m : manager) (wanted : list TailWanted) : manager * option report :=
  let incoming := incoming_of wanted in
  match serve_wanted incoming m with
  | (m, None) => (m, None)
  | (m, Some (added, replaced)) =>
      let '(m, removed) := drop_unwanted (map_keys (aborters m)) incoming m in
      (m, Some (mkReport added removed replaced (length (aborters m))))
  end.
(** [onDead] of a tail whose start has returned. *)
Definition onDead (m : manager) (h : nat) : manager :=
  match tails m !! h with
  | None => m
  | Some t =>
      let m := abort m h in
      if bool_decide (map_get (aborters m) (t_server t) = Some h) then forget m (t_server t) else m
  end.
Definition stopAll (m : manager) : manager := mkManager [] [] (foldr silence (tails m) (aborters m).*2) (starts m).

Inductive manager_event := Reconcile (wanted : list TailWanted) | Dead (h : nat) | Stop_all.
Definition manager_step (m : manager) (e : manager_event) : manager :=
  match e with Reconcile wanted => (reconcile m wanted).1 | Dead h => onDead m h | Stop_all => stopAll m end.

(** ** Its state *)

(** The tails that follow are exactly those the manager can abort, each under
    its own server and with the key on record. *)
Record manager_ok (m : manager) : Prop := {
  mo_map : map_ok (aborters m);
  mo_live : ∀ h t, tails m !! h = Some t → t_alive t = true → map_get (aborters m) (t_server t) = Some h;
  mo_known : ∀ id h, map_get (aborters m) id = Some h → ∃ k, tails m !! h = Some (mkTail id k true) ∧ map_get (mkeys m) id = Some k;
}.

Lemma lookup_silence h l i : silence h l !! i = (if decide (i = h) then (fun t => mkTail (t_server t) (t_key t) false) <$> l !! i else l !! i).
Proof. unfold silence. rewrite list_lookup_alter. destruct (decide (h = i)), (decide (i = h)); congruence. Qed.
Lemma ok_new : manager_ok new_manager.
Proof. split; [apply NoDup_nil_2|by intros h t; cbn; rewrite lookup_nil|done]. Qed.
(** Aborting the tail of a server and forgetting it, with or without its key. *)
Lemma ok_drop m id h keys' : manager_ok m → map_get (aborters m) id = Some h → (∀ k, k ≠ id → map_get keys' k = map_get (mkeys m) k) →
  manager_ok (mkManager (map_delete (aborters m) id) keys' (silence h (tails m)) (starts m)).
Proof.
  intros [Hm Hl Hk] Hid Hkeys. split; cbn; [by apply map_delete_ok| |].
  - intros i t. rewrite lookup_silence. case_decide as E.
    + intros (t0 & _ & ->)%fmap_Some. done.
    + intros Ht Ha. pose proof (Hl _ _ Ht Ha) as Hg. rewrite map_get_delete_ne; [done|]. intros Eid. congruence.
  - intros id' h'. rewrite map_get_delete by done. case_bool_decide as E; [done|]. intros Hg. destruct (Hk _ _ Hg) as (k & Ht & Hkey). exists k.
    rewrite Hkeys, lookup_silence by congruence. case_decide as Eh; [|done]. subst h'. destruct (Hk _ _ Hid) as (k' & Ht' & _). rewrite Ht in Ht'. congruence.
Qed.
Lemma ok_key_irrelevant m keys' : manager_ok m → (∀ id, map_has (aborters m) id = true → map_get keys' id = map_get (mkeys m) id) →
  ∀ n, manager_ok (mkManager (aborters m) keys' (tails m) n).
Proof.
  intros [Hm Hl Hk] Hkeys n. split; cbn; [done|done|]. intros id h Hg. destruct (Hk _ _ Hg) as (k & Ht & Hkey). exists k. split; [done|].
  rewrite Hkeys; [done|]. unfold map_has. rewrite Hg. by apply bool_decide_eq_true_2.
Qed.
Lemma ok_start m id key n alive : manager_ok m → map_get (aborters m) id = None →
  manager_ok (if alive : bool then mkManager (map_set (aborters m) id (length (tails m))) (map_set (mkeys m) id key) (tails m ++ [mkTail id key true]) n
              else mkManager (aborters m) (mkeys m) (tails m ++ [mkTail id key false]) n).
Proof.
  intros [Hm Hl Hk] Hnone.
  assert (∀ i h, map_get (aborters m) i = Some h → (h < length (tails m))%nat) as Hlt by (intros i h (k & Ht & _)%Hk; by apply lookup_lt_Some in Ht).
  destruct alive; split; cbn; [by apply map_set_ok| | |done| |].
  - intros h t [Ht|[Hge Ht]]%lookup_app_Some Ha.
    + pose proof (Hl _ _ Ht Ha) as Hg. rewrite map_get_set_ne; [done|]. intros Eid. congruence.
    + apply list_lookup_singleton_Some in Ht as [Hz <-]. cbn. rewrite map_get_set_eq. f_equal. lia.
  - intros i h. rewrite !map_get_set. case_bool_decide as E.
    + intros [= <-]. subst. exists key. split; [|done]. by rewrite lookup_app_r, Nat.sub_diag by lia.
    + intros Hg. destruct (Hk _ _ Hg) as (k & Ht & Hkey). exists k. split; [|done]. rewrite lookup_app_l by (by eapply Hlt). done.
  - intros h t [Ht|[Hge Ht]]%lookup_app_Some Ha; [by apply Hl|]. by apply list_lookup_singleton_Some in Ht as [_ <-].
  - intros i h Hg. destruct (Hk _ _ Hg) as (k & Ht & Hkey). exists k. split; [|done]. rewrite lookup_app_l by (by eapply Hlt). done.
Qed.
Lemma ok_replace m id key : manager_ok m → manager_ok (replace_stale m id key).1.
Proof.
  intros Hok. unfold replace_stale. destruct (map_get (aborters m) id) as [h|] eqn:Eg; [|done]. case_bool_decide; [done|]. cbn. by apply ok_drop.
Qed.
Lemma ok_start_missing m id key rep : manager_ok m → manager_ok (start_missing m id key rep).1.
Proof.
  intros Hok. unfold start_missing. destruct (map_has (aborters m) id) eqn:Eh; [done|].
  assert (map_get (aborters m) id = None) as Hnone by (unfold map_has in Eh; apply bool_decide_eq_false in Eh; by destruct (map_get (aborters m) id); [destruct Eh|]).
  destruct (factory (starts m)); cbn; [by apply (ok_start m id key _ true)|by apply (ok_start m id key _ false)|by apply ok_key_irrelevant].
Qed.
Lemma ok_serve incoming m : manager_ok m → manager_ok (serve_wanted incoming m).1.
Proof.
  revert m. induction incoming as [|[id t] incoming IH]; intros m Hok; [done|]. cbn [serve_wanted].
  pose proof (ok_replace m id (tailSourceKey t) Hok) as H1. destruct (replace_stale m id (tailSourceKey t)) as [m1 rep].
  pose proof (ok_start_missing m1 id (tailSourceKey t) rep H1) as H2. destruct (start_missing m1 id (tailSourceKey t) rep) as [m2 [add|]]; [|done].
  specialize (IH m2 H2). destruct (serve_wanted incoming m2) as [m3 [[a r]|]]; done.
Qed.
Lemma ok_forget m id : manager_ok m → manager_ok (forget (match map_get (aborters m) id with Some h => abort m h | None => m end) id).
Proof.
  intros Hok. destruct (map_get (aborters m) id) as [h|] eqn:Eg; [apply (ok_drop m id h (map_delete (mkeys m) id)); [done|done|]; intros k Hk; apply map_get_delete_ne; congruence|].
  unfold forget. replace (map_delete (aborters m) id) with (aborters m); [apply ok_key_irrelevant; [done|]|].
  - intros i Hi. apply map_get_delete_ne. intros <-. unfold map_has in Hi. by rewrite Eg in Hi.
  - symmetry. apply map_get_None in Eg. clear -Eg. induction (aborters m) as [|[k v] l IH]; [done|]. cbn in *. rewrite bool_decide_eq_false_2 by set_solver. f_equal. apply IH. set_solver.
Qed.
Lemma ok_unwanted ids incoming m : manager_ok m → manager_ok (drop_unwanted ids incoming m).1.
Proof.
  revert m. induction ids as [|id ids IH]; intros m Hok; [done|]. cbn [drop_unwanted]. destruct (map_has incoming id); [by apply IH|].
  specialize (IH _ (ok_forget m id Hok)). by destruct (drop_unwanted ids incoming _).
Qed.
Lemma ok_dead m h : manager_ok m → manager_ok (onDead m h).
Proof.
  intros Hok. unfold onDead. destruct (tails m !! h) as [t|] eqn:Et; [|done]. case_bool_decide as Eg.
  - apply (ok_drop m (t_server t) h (map_delete (mkeys m) (t_server t)) Hok Eg). intros k Hk. apply map_get_delete_ne. congruence.
  - assert (silence h (tails m) = tails m) as Hs; [|by destruct m; cbn in *; unfold abort; cbn; rewrite Hs].
    apply list_eq. intros i. rewrite lookup_silence. case_decide as E; [subst i|done]. rewrite Et. cbn. destruct t as [s k []]; [|done].
    destruct Eg. by apply (mo_live m Hok h (mkTail s k true)).
Qed.
Lemma alive_silenced hs l i t : foldr silence l hs !! i = Some t → t_alive t = true → i ∉ hs ∧ l !! i = Some t.
Proof.
  induction hs as [|h hs IH]; cbn [foldr]; [intros Ht _; split; [by apply not_elem_of_nil|done]|]. rewrite lookup_silence. case_decide as E.
  - intros (t0 & _ & ->)%fmap_Some. done.
  - intros Ht Ha. destruct (IH Ht Ha) as [Hn Hl]. split; [|done]. by intros [?|?]%elem_of_cons.
Qed.
Lemma ok_stop m : manager_ok m → manager_ok (stopAll m).
Proof.
  intros Hok. split; cbn; [apply NoDup_nil_2| |done]. intros h t Ht Ha. destruct (alive_silenced _ _ _ _ Ht Ha) as [Hn Hl]. destruct Hn.
  pose proof (mo_live m Hok _ _ Hl Ha) as Hg. apply map_get_in in Hg. apply list_elem_of_fmap. by exists (t_server t, h).
Qed.
Lemma ok_reconcile m wanted : manager_ok m → manager_ok (reconcile m wanted).1.
Proof.
  intros Hok. unfold reconcile. pose proof (ok_serve (incoming_of wanted) m Hok) as H1. destruct (serve_wanted _ m) as [m1 [[a r]|]]; [|done].
  pose proof (ok_unwanted (map_keys (aborters m1)) (incoming_of wanted) m1 H1) as H2. by destruct (drop_unwanted _ _ m1).
Qed.

(** C32: One tail per server: whatever is wanted when, whichever tails die, early
    or late, and even when a start throws half-way, the tails that follow a log
    are exactly those the manager holds, so no server is followed twice and
    none is left behind when it is stopped. *)
Theorem one_tail_per_server es : let m := foldl manager_step new_manager es in
  (∀ h t, tails m !! h = Some t → t_alive t = true → map_get (aborters m) (t_server t) = Some h) ∧
  (∀ h h' t t', tails m !! h = Some t → tails m !! h' = Some t' → t_alive t = true → t_alive t' = true → t_server t = t_server t' → h = h') ∧
  (∀ id h, map_get (aborters m) id = Some h → ∃ key, tails m !! h = Some (mkTail id key true)) ∧
  (∀ h t, tails (stopAll m) !! h = Some t → t_alive t = false).
Proof.
  assert (∀ m0, manager_ok m0 → manager_ok (foldl manager_step m0 es)) as Hrun.
  { induction es as [|e es IH]; intros m0 H0; [done|]. apply IH. destruct e; [by apply ok_reconcile|by apply ok_dead|by apply ok_stop]. }
  cbn zeta. specialize (Hrun new_manager ok_new). destruct Hrun as [Hm Hl Hk]. split; [done|]. split; [|split].
  - intros h h' t t' Ht Ht' Ha Ha' Hs. pose proof (Hl _ _ Ht Ha) as E1. pose proof (Hl _ _ Ht' Ha') as E2. rewrite Hs in E1. congruence.
  - intros id h (k & Ht & _)%Hk. by exists k.
  - intros h t Ht. destruct (t_alive t) eqn:Ha; [|done]. assert (manager_ok (foldl manager_step new_manager es)) as Hok by done.
    pose proof (mo_live _ (ok_stop _ Hok) _ _ Ht Ha). done.
Qed.

(** ** What a pass does *)

(** Nothing changed for one server. *)
Record kept (id : jstr) (m m' : manager) : Prop := {
  kp_aborters : map_get (aborters m') id = map_get (aborters m) id;
  kp_tails : ∀ h t, tails m !! h = Some t → t_server t = id → tails m' !! h = Some t;
  kp_grows : (length (tails m) ≤ length (tails m'))%nat;
}.
#[local] Instance kept_po id : PreOrder (kept id).
Proof. split; [by split|]. intros a b c [H1a H1b H1c] [H2a H2b H2c]. split; [congruence|auto|lia]. Qed.
(** The tail of [id] has this key, be it the one there was or a new one. *)
Definition follows (m0 m : manager) (id key : jstr) : Prop :=
  (∃ h, map_get (aborters m) id = Some h ∧ tails m !! h = Some (mkTail id key true) ∧
    ((h < length (tails m0))%nat → map_get (aborters m0) id = Some h)) ∨
  (map_get (aborters m) id = None ∧ ∃ h, (length (tails m0) ≤ h)%nat ∧ tails m !! h = Some (mkTail id key false)).
Lemma follows_kept m0 m m' id key : follows m0 m id key → kept id m m' → follows m0 m' id key.
Proof.
  intros [(h & Ha & Ht & Hn)|(Ha & h & Hn & Ht)] [Ka Kt Kg].
  - left. exists h. rewrite Ka. split; [done|]. split; [by apply Kt|done].
  - right. rewrite Ka. split; [done|]. exists h. split; [done|by apply Kt].
Qed.
Lemma follows_from m0 m m' id key : kept id m0 m → follows m m' id key → follows m0 m' id key.
Proof.
  intros [Ka Kt Kg] [(h & Ha & Ht & Hn)|(Ha & h & Hn & Ht)]; [left; exists h|right; split; [done|]; exists h; split; [lia|done]].
  split; [done|]. split; [done|]. intros Hlt. rewrite <- Ka. apply Hn. lia.
Qed.

Lemma kept_silenced m i id h k keys' : manager_ok m → i ≠ id → map_get (aborters m) id = Some h → k = map_delete (aborters m) id →
  kept i m (mkManager k keys' (silence h (tails m)) (starts m)).
Proof.
  intros Hok Hi Hg ->. split; cbn; [by apply map_get_delete_ne|intros h' t Ht Hs|by unfold silence; rewrite length_alter].
  rewrite lookup_silence. case_decide as E; [|done]. subst h'. destruct (mo_known m Hok _ _ Hg) as (key & Ht' & _). rewrite Ht in Ht'. injection Ht' as ->. done.
Qed.
Lemma kept_replace m id key i : manager_ok m → i ≠ id → kept i m (replace_stale m id key).1.
Proof.
  intros Hok Hi. unfold replace_stale. destruct (map_get (aborters m) id) as [h|] eqn:Eg; [|done]. case_bool_decide; [done|]. cbn. by apply (kept_silenced m i id h).
Qed.
Lemma kept_start m id key rep i : i ≠ id → kept i m (start_missing m id key rep).1.
Proof.
  intros Hi. unfold start_missing. destruct (map_has (aborters m) id); [done|].
  destruct (factory (starts m)); split; cbn; rewrite ?length_app; try done; try lia; try (by apply map_get_set_ne; congruence); intros h t Ht _; try done;
    rewrite lookup_app_l; [done|by eapply lookup_lt_Some| |]; try done; by eapply lookup_lt_Some.
Qed.
Lemma follows_start m id key m' add : manager_ok m →
  start_missing (replace_stale m id key).1 id key (replace_stale m id key).2 = (m', Some add) → follows m m' id key.
Proof.
  intros Hok. assert ((replace_stale m id key).1 = m ∧ (∃ h, map_get (aborters m) id = Some h ∧ map_get (mkeys m) id = Some key) ∨
    map_get (aborters (replace_stale m id key).1) id = None ∧ length (tails (replace_stale m id key).1) = length (tails m)) as Hrep.
  { unfold replace_stale. destruct (map_get (aborters m) id) as [h|] eqn:Eg; [|by right]. case_bool_decide as Ek; [left; split; [done|by exists h]|right].
    cbn. rewrite map_get_delete, bool_decide_eq_true_2 by (done || apply Hok). unfold silence. by rewrite length_alter. }
  destruct Hrep as [(-> & h & Hg & Hk)|[Hg Hlen]]; unfold start_missing.
  - unfold map_has. rewrite Hg, bool_decide_eq_true_2 by done. intros [= <- <-]. left. exists h. split; [done|]. split; [|done].
    destruct (mo_known m Hok _ _ Hg) as (k & Ht & Hk'). congruence.
  - unfold map_has. rewrite Hg, bool_decide_eq_false_2 by (by intros [? ?]). destruct (factory _); [intros [= <- <-]; unfold follows; cbn|intros [= <- <-]; unfold follows; cbn|done].
    + left. exists (length (tails (replace_stale m id key).1)). rewrite map_get_set_eq, Hlen. split; [done|]. split; [|lia].
      rewrite <- Hlen, lookup_app_r, Nat.sub_diag by lia. done.
    + right. split; [done|]. exists (length (tails (replace_stale m id key).1)). split; [lia|]. by rewrite lookup_app_r, Nat.sub_diag by lia.
Qed.
Lemma serve_kept incoming m i : manager_ok m → i ∉ incoming.*1 → kept i m (serve_wanted incoming m).1.
Proof.
  revert m. induction incoming as [|[id t] incoming IH]; intros m Hok Hi; [done|]. cbn [serve_wanted fmap list_fmap fst] in *.
  apply not_elem_of_cons in Hi as [Hne Hi]. pose proof (ok_replace m id (tailSourceKey t) Hok) as H1. pose proof (kept_replace m id (tailSourceKey t) i Hok Hne) as K1.
  destruct (replace_stale m id (tailSourceKey t)) as [m1 rep]. pose proof (ok_start_missing m1 id (tailSourceKey t) rep H1) as H2.
  pose proof (kept_start m1 id (tailSourceKey t) rep i Hne) as K2. destruct (start_missing m1 id (tailSourceKey t) rep) as [m2 [add|]]; [|by etrans].
  specialize (IH m2 H2 Hi). destruct (serve_wanted incoming m2) as [m3 [[a r]|]]; (etrans; [exact K1|]); by etrans.
Qed.
Lemma serve_follows incoming m m' x : manager_ok m → NoDup incoming.*1 → serve_wanted incoming m = (m', Some x) →
  ∀ id t, (id, t) ∈ incoming → follows m m' id (tailSourceKey t).
Proof.
  revert m x. induction incoming as [|[id t] incoming IH]; intros m x Hok Hnd; [by intros _ ? ? ?%elem_of_nil|]. cbn [serve_wanted fmap list_fmap fst] in *.
  apply NoDup_cons in Hnd as [Hid Hnd]. pose proof (ok_replace m id (tailSourceKey t) Hok) as H1. rewrite (surjective_pairing (replace_stale m id (tailSourceKey t))).
  set (m1 := (replace_stale m id (tailSourceKey t)).1) in *. pose proof (ok_start_missing m1 id (tailSourceKey t) (replace_stale m id (tailSourceKey t)).2 H1) as H2.
  destruct (start_missing m1 id (tailSourceKey t) (replace_stale m id (tailSourceKey t)).2) as [m2 [add|]] eqn:Es; [|done]. cbn [fst] in H2.
  pose proof (serve_kept incoming m2) as Hkept. destruct (serve_wanted incoming m2) as [m3 [[a r]|]] eqn:Ew; [|done]. intros [= <- <-] i u [[= -> ->]|Hin]%elem_of_cons.
  - eapply follows_kept; [by eapply follows_start|]. by apply (Hkept id).
  - assert (i ≠ id) as Hne by (intros ->; apply Hid, list_elem_of_fmap; by exists (id, u)).
    eapply follows_from; [|by eapply (IH m2)]. etrans; [by apply (kept_replace m id (tailSourceKey t))|]. fold m1.
    pose proof (kept_start m1 id (tailSourceKey t) (replace_stale m id (tailSourceKey t)).2 i Hne) as K. by rewrite Es in K.
Qed.
Lemma unwanted_result ids incoming m : manager_ok m → let m' := (drop_unwanted ids incoming m).1 in
  (∀ i, map_has incoming i = true → kept i m m') ∧
  (∀ i, map_has incoming i = false → i ∈ ids ∨ map_get (aborters m) i = None → map_get (aborters m') i = None).
Proof.
  revert m. induction ids as [|id ids IH]; intros m Hok; cbn zeta; [split; [done|by intros i _ [?%elem_of_nil|?]]|]. cbn [drop_unwanted].
  destruct (map_has incoming id) eqn:Eh.
  - destruct (IH m Hok) as [Hk Hn]. split; [done|]. intros i Hi [[->|?]%elem_of_cons|?]; [congruence|apply Hn; auto|apply Hn; auto].
  - pose proof (ok_forget m id Hok) as Hok'. destruct (IH _ Hok') as [Hk Hn]. destruct (drop_unwanted ids incoming _) as [m3 l]. cbn [fst] in *.
    assert (∀ i, i ≠ id → kept i m (forget (match map_get (aborters m) id with Some h => abort m h | None => m end) id)) as Hf.
    { intros i Hi. destruct (map_get (aborters m) id) as [h|] eqn:Eg; [by apply (kept_silenced m i id h)|]. split; cbn; [by apply map_get_delete_ne|done|done]. }
    split; [intros i Hi; etrans; [apply Hf; congruence|by apply Hk]|]. intros i Hi Hor. apply Hn; [done|]. destruct (decide (i = id)) as [->|Hne].
    + right. destruct (map_get (aborters m) id); cbn; rewrite map_get_delete by apply Hok; by rewrite bool_decide_eq_true_2.
    + destruct Hor as [[?|?]%elem_of_cons|Hnone]; [done|by left|right]. by rewrite (kp_aborters _ _ _ (Hf i Hne)).
Qed.
Lemma incoming_ok wanted : NoDup (incoming_of wanted).*1.
Proof.
  unfold incoming_of. change (map_ok (foldl (fun acc t => map_set acc (w_server t) t) [] wanted)). assert (map_ok (K := jstr) (V := TailWanted) []) as H0 by apply NoDup_nil_2.
  revert H0. generalize (@nil (jstr * TailWanted)). induction wanted as [|t wanted IH]; intros l Hl; [done|]. by apply IH, map_set_ok.
Qed.

(** A pass that returns leaves each wanted server with a tail of its wanted
    source, the one it had if the source is unchanged and otherwise a new one,
    unless the new one died while it was started, and every other server
    without. *)
Theorem reconcile_exact m wanted m' r : manager_ok m → reconcile m wanted = (m', Some r) →
  (∀ id t, map_get (incoming_of wanted) id = Some t → follows m m' id (tailSourceKey t)) ∧
  (∀ id, map_get (incoming_of wanted) id = None → map_get (aborters m') id = None) ∧
  total r = length (aborters m').
Proof.
  intros Hok. unfold reconcile. pose proof (ok_serve (incoming_of wanted) m Hok) as H1. pose proof (serve_follows (incoming_of wanted) m) as Hf.
  destruct (serve_wanted (incoming_of wanted) m) as [m1 [[a rp]|]]; [|done]. cbn [fst] in H1. destruct (unwanted_result (map_keys (aborters m1)) (incoming_of wanted) m1 H1) as [Hk Hn].
  destruct (drop_unwanted _ _ m1) as [m2 l]. cbn [fst] in *. intros [= <- <-]. split; [|split; [|done]].
  - intros id t Hg. eapply follows_kept; [apply (Hf m1 (a, rp) Hok (incoming_ok wanted) eq_refl); by apply map_get_in|]. apply Hk. unfold map_has. rewrite Hg. by apply bool_decide_eq_true_2.
  - intros id Hg. apply Hn; [unfold map_has; rewrite Hg; by apply bool_decide_eq_false_2; intros [? ?]|].
    destruct (map_get (aborters m1) id) as [h|] eqn:E; [left; by apply map_get_Some_key in E|by right].
Qed.
End Manager.

(** * Following a log over SSH *)

Class SshEnv := {
  (** The digest of a host key in base64. *)
  sha256_base64 : bytes → jstr;
  (** What [client.connect] of the client so numbered throws, if it throws. *)
  connect_throws : nat → option jstr;
  initialBackoff : Z;
  maxBackoff : Z;
}.

(** [/=+$/] cut off. *)
Fixpoint strip_padding (s : jstr) : jstr :=
  match s with [] => [] | c :: s => match strip_padding s with [] => if c =? 61 then [] else [c] | t => c :: t end end.
Inductive SshTailState := Connecting | Connected.
Record client := mkClient { settled : bool; hostKeyRejected : option jstr; splitLines : splitter }.
(** [armed] are the delays of the timers that have not fired; [retryTimer] says
    whether the variable of that name holds the last of them. *)
Record ssh_tail := mkTailSsh {
  aborted : bool;
  attempt : Z;
  conn : option nat;
  retryTimer : bool;
  armed : list Z;
  expectedFingerprint : option jstr;
  lastFingerprint : option jstr;
  clients : list client;
}.
Inductive ssh_effect :=
| Status (state : SshTailState) (error fingerprint : option jstr)
| Line (line : jstr)
| Pinned (fingerprint : jstr)
| Accepts (c : nat) (fingerprint : jstr)
| Rejects (c : nat) (fingerprint : jstr)
| Ends (c : nat).

Section Ssh.
Context `{SshEnv}.

Definition hostKeyFingerprint (key : bytes) : jstr := js "SHA256:" ++ strip_padding (sha256_base64 key).

Definition is_path_char (c : Z) : bool :=
  is_digit c || ((65 <=? c) && (c <=? 90)) || ((97 <=? c) && (c <=? 122)) || bool_decide (c ∈ [46; 95; 47; 45]).
Definition tailCommand (logPath : jstr) (lines : Z) : result jstr jstr :=
  if negb (match logPath with 47 :: _ :: _ => forallb is_path_char logPath | _ => false end) || bool_decide (js ".." ∈ split_on 47 logPath)
  then Throw (js "refusing to tail unsafe path")
  else Ok (js "tail -n " ++ int_str (Z.max 0 lines) ++ js " -F -- '" ++ logPath ++ js "'").

Definition ssh_result := (ssh_tail * list ssh_effect)%type.
Definition alter_client (c : nat) (f : client → client) (s : ssh_tail) : ssh_tail :=
  mkTailSsh (aborted s) (attempt s) (conn s) (retryTimer s) (armed s) (expectedFingerprint s) (lastFingerprint s) (alter f c (clients s)).
Definition set_conn (o : option nat) (s : ssh_tail) : ssh_tail :=
  mkTailSsh (aborted s) (attempt s) o (retryTimer s) (armed s) (expectedFingerprint s) (lastFingerprint s) (clients s).

Definition report_status (state : SshTailState) (error : option jstr) (s : ssh_tail) : list ssh_effect :=
  if aborted s then [] else [Status state error (lastFingerprint s)].
Definition retry_delay (s : ssh_tail) : Z := Z.min maxBackoff (initialBackoff * 2 ^ Z.min (attempt s) 10).
Definition scheduleReconnect_ssh (reason : jstr) (s : ssh_tail) : ssh_result :=
  if aborted s then (s, [])
  else (mkTailSsh (aborted s) (attempt s + 1) (conn s) true (armed s ++ [retry_delay s]) (expectedFingerprint s) (lastFingerprint s) (clients s),
        report_status Connecting (Some reason) s).
Definition fail_client (c : nat) (reason : jstr) (s : ssh_tail) : ssh_result :=
  match clients s !! c with
  | Some cl =>
      if settled cl then (s, [])
      else
        let s := alter_client c (fun cl => mkClient true (hostKeyRejected cl) (splitLines cl)) s in
        let s := if bool_decide (conn s = Some c) then set_conn None s else s in
        let '(s, es) := scheduleReconnect_ssh reason s in (s, Ends c :: es)
  | None => (s, [])
  end.
Definition connect_ssh (s : ssh_tail) : ssh_result :=
  if aborted s then (s, [])
  else
    let c := length (clients s) in
    let es := report_status Connecting None s in
    let s := mkTailSsh (aborted s) (attempt s) (Some c) false (armed s) (expectedFingerprint s) (lastFingerprint s)
               (clients s ++ [mkClient false None createLineSplitter]) in
    match connect_throws c with
    | Some e => let '(s, more) := fail_client c (js "connect_ssh threw: " ++ e) s in (s, es ++ more)
    | None => (s, es)
    end.
(** The callback of [exec]. *)
Definition on_exec (c : nat) (err : option jstr) (s : ssh_tail) : ssh_result :=
  match err with
  | Some e => fail_client c (js "exec failed: " ++ e) s
  | None =>
      (mkTailSsh (aborted s) 0 (conn s) (retryTimer s) (armed s) (expectedFingerprint s) (lastFingerprint s) (clients s), report_status Connected None s)
  end.
Definition on_stream_data (c : nat) (chunk : bytes) (s : ssh_tail) : ssh_result :=
  if aborted s then (s, [])
  else
    match clients s !! c with
    | Some cl =>
        let '(sp, (lines, _)) := split_chunk (splitLines cl) (utf8_decode chunk) in
        (alter_client c (fun cl => mkClient (settled cl) (hostKeyRejected cl) sp) s, Line <$> lines)
    | None => (s, [])
    end.
Definition truthy (o : option jstr) : bool := match o with Some (_ :: _) => true | _ => false end.
(** [hostVerifier] *)
Definition hostVerifier (c : nat) (key : bytes) (s : ssh_tail) : ssh_result :=
  let fp := hostKeyFingerprint key in
  let s := mkTailSsh (aborted s) (attempt s) (conn s) (retryTimer s) (armed s) (expectedFingerprint s) (Some fp) (clients s) in
  if truthy (expectedFingerprint s) && negb (bool_decide (expectedFingerprint s = Some fp)) then
    (alter_client c (fun cl => mkClient (settled cl) (Some (js "host key changed: expected " ++ default [] (expectedFingerprint s) ++ js ", got " ++ fp)) (splitLines cl)) s,
     [Rejects c fp])
  else if negb (truthy (expectedFingerprint s)) then
    (mkTailSsh (aborted s) (attempt s) (conn s) (retryTimer s) (armed s) (Some fp) (Some fp) (clients s), [Pinned fp; Accepts c fp])
  else (s, [Accepts c fp]).
Definition on_client_error (c : nat) (message : jstr) (s : ssh_tail) : ssh_result :=
  fail_client c (match clients s !! c with Some cl => default message (hostKeyRejected cl) | None => message end) s.
Definition stop_tail (s : ssh_tail) : ssh_result :=
  (mkTailSsh true (attempt s) None false (if retryTimer s then removelast (armed s) else armed s) (expectedFingerprint s) (lastFingerprint s) (clients s),
   match conn s with Some c => [Ends c] | None => [] end).

(** What the network, the clock and the manager do. *)
Inductive ssh_event :=
| Retry_due
| Exec_done (c : nat) (err : option jstr)
| Chunk (c : nat) (chunk : bytes)
| Stream_closed (c : nat) (code : option Z)
| Client_error (c : nat) (message : jstr)
| Client_closed (c : nat)
| Host_key (c : nat) (key : bytes)
| Stopped.
Definition ssh_step (s : ssh_tail) (e : ssh_event) : ssh_result :=
  match e with
  | Retry_due =>
      match armed s with
      | [] => (s, [])
      | _ :: rest => connect_ssh (mkTailSsh (aborted s) (attempt s) (conn s) (retryTimer s) rest (expectedFingerprint s) (lastFingerprint s) (clients s))
      end
  | Exec_done c err => on_exec c err s
  | Chunk c chunk => on_stream_data c chunk s
  | Stream_closed c code => fail_client c (js "tail exited (code " ++ match code with Some n => int_str n | None => js "null" end ++ js ")") s
  | Client_error c message => on_client_error c message s
  | Client_closed c => fail_client c (js "connection closed") s
  | Host_key c key => hostVerifier c key s
  | Stopped => stop_tail s
  end.
Fixpoint ssh_run (es : list ssh_event) (s : ssh_tail) : ssh_result :=
  match es with
  | [] => (s, [])
  | e :: es => let '(s, now) := ssh_step s e in let '(s, later) := ssh_run es s in (s, now ++ later)
  end.
Definition tailSshLog (expected : option jstr) : ssh_result := connect_ssh (mkTailSsh false 0 None false [] expected None []).
Definition tail_run (expected : option jstr) (es : list ssh_event) : ssh_result :=
  let '(s, now) := tailSshLog expected in let '(s, later) := ssh_run es s in (s, now ++ later).

(** ** One session at a time *)

Definition unsettled (s : ssh_tail) (c : nat) : Prop := ∃ cl, clients s !! c = Some cl ∧ settled cl = false.
(** While it is not stopped a tail has one unsettled client, its connection, and
    no timer, or none and one timer, of a delay within the limit. *)
Record ssh_ok (s : ssh_tail) : Prop := {
  so_attempt : 0 ≤ attempt s;
  so_live : aborted s = false →
    (∃ c, conn s = Some c ∧ unsettled s c ∧ (∀ c', unsettled s c' → c' = c) ∧ armed s = []) ∨
    (conn s = None ∧ (∀ c, ¬ unsettled s c) ∧ retryTimer s = true ∧ ∃ d, armed s = [d] ∧ d ≤ maxBackoff);
  so_stopped : aborted s = true → conn s = None ∧ retryTimer s = false ∧ armed s = [];
}.
Lemma unsettled_alter s c f c' : unsettled (alter_client c f s) c' ↔ ∃ cl, clients s !! c' = Some cl ∧ settled (if decide (c = c') then f cl else cl) = false.
Proof.
  unfold unsettled, alter_client. cbn. setoid_rewrite list_lookup_alter. destruct (decide (c = c')) as [->|]; [|done]. split.
  - intros (cl & (cl0 & Hc & ->)%fmap_Some & Hs). by exists cl0.
  - intros (cl & Hc & Hs). exists (f cl). by rewrite Hc.
Qed.
Lemma unsettled_unchanged s c f c' : (∀ cl, settled (f cl) = settled cl) → unsettled (alter_client c f s) c' ↔ unsettled s c'.
Proof.
  intros Hf. rewrite unsettled_alter. unfold unsettled. split; intros (cl & Hc & Hs); exists cl; (split; [done|]); destruct (decide (c = c')); rewrite ?Hf in *; done.
Qed.
(** Changes of a client that do not settle it, and of the fingerprints. *)
Lemma ok_same s s' : ssh_ok s → aborted s' = aborted s → 0 ≤ attempt s' → conn s' = conn s → retryTimer s' = retryTimer s → armed s' = armed s →
  (∀ c, unsettled s' c ↔ unsettled s c) → ssh_ok s'.
Proof.
  intros [Ha Hl Hs] Eab Hat Ec Er Earm Hun. split; rewrite ?Eab, ?Ec, ?Er, ?Earm; [done| |done]. intros Hab. destruct (Hl Hab) as [(c & Hc & Hu & Hone & He)|(Hc & Hu & Hd)].
  - left. exists c. rewrite Hun. split; [done|]. split; [done|]. split; [|done]. intros c' Hc'%Hun. by apply Hone.
  - right. split; [done|]. split; [|done]. intros c Hc'%Hun. by apply (Hu c).
Qed.
Lemma ok_fail c reason s : ssh_ok s → ssh_ok (fail_client c reason s).1.
Proof.
  intros Hok. unfold fail_client. destruct (clients s !! c) as [cl|] eqn:Ec; [|done]. destruct (settled cl) eqn:Es; [done|].
  assert (unsettled s c) as Hu by (by exists cl). set (s1 := alter_client c _ s). assert (∀ c', unsettled s1 c' ↔ c' ≠ c ∧ unsettled s c') as H1.
  { intros c'. unfold s1. rewrite unsettled_alter. unfold unsettled. destruct (decide (c = c')) as [->|]; [split; [by intros (? & _ & ?)|by intros [? _]]|]. split; [|by intros [_ ?]]. intros ?. split; congruence. }
  destruct Hok as [Ha Hl Hst]. unfold scheduleReconnect_ssh. destruct (aborted s) eqn:Eab.
  - destruct (Hst eq_refl) as (Hc & Hr & Harm). rewrite bool_decide_eq_false_2 by (cbn; congruence). cbn. rewrite Eab. cbn. split; cbn; [done|by rewrite Eab|done].
  - destruct (Hl eq_refl) as [(c0 & Hc & Hu0 & Hone & He)|(_ & Hno & _)]; [|by destruct (Hno c)]. rewrite (Hone c Hu) in *. rewrite bool_decide_eq_true_2 by done. cbn. rewrite Eab. cbn.
    split; cbn; [lia| |by rewrite ?Eab]. intros _. right. split; [done|]. split; [|split; [done|]].
    + intros c' (? & Hc'%Hone)%(H1 c'). done.
    + rewrite He. eexists. split; [reflexivity|]. unfold retry_delay. lia.
Qed.
Lemma ok_connect s : 0 ≤ attempt s → armed s = [] → (aborted s = true → conn s = None ∧ retryTimer s = false) → (∀ c, ¬ unsettled s c) → ssh_ok (connect_ssh s).1.
Proof.
  intros Ha Harm Hab Hu. unfold connect_ssh. destruct (aborted s) eqn:Eab.
  - destruct (Hab eq_refl). split; cbn; [done|by rewrite ?Eab|done].
  - set (s1 := mkTailSsh _ _ _ _ _ _ _ _). assert (ssh_ok s1) as H1.
    { split; cbn; [done| |by rewrite ?Eab]. intros _. left. exists (length (clients s)). split; [done|]. split; [eexists; split; [cbn; by rewrite lookup_app_r, Nat.sub_diag by lia|done]|]. split; [|done].
      intros c' (cl & [Hc|[Hge Hc]]%lookup_app_Some & Hs); [destruct (Hu c'); by exists cl|]. apply list_lookup_singleton_Some in Hc as [Hz _]. lia. }
    destruct (connect_throws _) as [e|]; [|done]. pose proof (ok_fail (length (clients s)) (js "connect_ssh threw: " ++ e) s1 H1). by destruct (fail_client _ _ s1).
Qed.
Lemma ok_ssh_step s e : ssh_ok s → ssh_ok (ssh_step s e).1.
Proof.
  intros Hok. destruct e as [|c err|c chunk|c code|c message|c|c key|]; cbn [ssh_step].
  - destruct Hok as [Ha Hl Hst]. destruct (armed s) as [|d rest] eqn:Earm; [split; cbn; rewrite ?Earm; auto|]. destruct (aborted s) eqn:Eab; [by destruct (Hst eq_refl) as (_ & _ & ?)|].
    destruct (Hl eq_refl) as [(c & _ & _ & _ & ?)|(Hc & Hu & Hr & d' & Hd & _)]; [done|]. injection Hd as -> ->. apply ok_connect; cbn; [done|done|congruence|done].
  - unfold on_exec. destruct err; [by apply ok_fail|]. by eapply ok_same.
  - unfold on_stream_data. destruct (aborted s) eqn:Eab; [done|]. destruct (clients s !! c) as [cl|] eqn:Ec; [|done]. destruct (split_chunk _ _) as [sp [lines o]].
    eapply ok_same; [exact Hok|done|apply Hok|done..|]. intros c1. by apply unsettled_unchanged.
  - by apply ok_fail.
  - unfold on_client_error. by apply ok_fail.
  - by apply ok_fail.
  - unfold hostVerifier. cbn [expectedFingerprint]. destruct (_ && _); [|destruct (negb _)]; (eapply ok_same; [exact Hok|done|apply Hok|done..|]); [|done|done].
    intros c'. by apply (unsettled_unchanged (mkTailSsh _ _ _ _ _ _ _ (clients s))).
  - unfold stop_tail. destruct Hok as [Ha Hl Hst]. split; cbn; [done|done|]. intros _. split; [done|]. split; [done|]. destruct (aborted s) eqn:Eab.
    + destruct (Hst eq_refl) as (_ & -> & ->). done.
    + destruct (Hl eq_refl) as [(c & _ & _ & _ & ->)|(_ & _ & -> & d & -> & _)]; [by destruct (retryTimer s)|done].
Qed.
Lemma ok_ssh_run es s : ssh_ok s → ssh_ok (ssh_run es s).1.
Proof.
  revert s. induction es as [|e es IH]; intros s Hok; [done|]. cbn [ssh_run]. pose proof (ok_ssh_step s e Hok) as H1. destruct (ssh_step s e) as [s1 now].
  specialize (IH s1 H1). by destruct (ssh_run es s1).
Qed.
Lemma ok_tail_run expected es : ssh_ok (tail_run expected es).1.
Proof.
  unfold tail_run, tailSshLog. set (s0 := mkTailSsh _ _ _ _ _ _ _ _). assert (ssh_ok (connect_ssh s0).1) as H0.
  { apply ok_connect; [done..|]. intros c (cl & Hc & _). cbn in Hc; by rewrite lookup_nil in Hc. }
  destruct (connect_ssh s0) as [s1 now]. pose proof (ok_ssh_run es s1 H0) as H1. by destruct (ssh_run es s1).
Qed.

(** One session at a time: whatever the network does, in whatever order its
    callbacks come, a tail that is not stopped has either one client that has
    not failed, and no timer, or no such client and one timer for the next
    attempt, within the limit of the retry_delay; a stopped one has neither
    connection nor timer. *)
Theorem one_session_or_one_timer expected es : let s := (tail_run expected es).1 in
  (aborted s = false →
     (∃ c, conn s = Some c ∧ unsettled s c ∧ (∀ c', unsettled s c' → c' = c) ∧ armed s = []) ∨
     (conn s = None ∧ (∀ c, ¬ unsettled s c) ∧ ∃ d, armed s = [d] ∧ d ≤ maxBackoff)) ∧
  (aborted s = true → conn s = None ∧ armed s = []).
Proof.
  cbn zeta. destruct (ok_tail_run expected es) as [_ Hl Hs]. split; [intros [?|(? & ? & _ & ?)]%Hl; auto|intros (? & _ & ?)%Hs; done].
Qed.

(** ** Host keys *)

Definition pinned_by (es : list ssh_effect) : list jstr := omap (fun e => match e with Pinned fp => Some fp | _ => None end) es.
Definition accepted_by (es : list ssh_effect) : list jstr := omap (fun e => match e with Accepts _ fp => Some fp | _ => None end) es.
(** What a step or a run from a state in which [expected] is known does about
    the key: all that is accepted is what is expected in the end, and a key is
    pinned when none was expected. *)
Definition keys_handled (expected expected' : option jstr) (es : list ssh_effect) : Prop :=
  if truthy expected then expected' = expected ∧ pinned_by es = [] ∧ ∀ fp, fp ∈ accepted_by es → expected = Some fp
  else (expected' = expected ∧ pinned_by es = [] ∧ accepted_by es = []) ∨
       (∃ fp, expected' = Some fp ∧ truthy expected' = true ∧ pinned_by es = [fp] ∧ ∀ fp', fp' ∈ accepted_by es → fp' = fp).
Lemma keys_quiet expected es : pinned_by es = [] → accepted_by es = [] → keys_handled expected expected es.
Proof. intros Hp Ha. unfold keys_handled. rewrite Hp, Ha. destruct (truthy expected); [|by left]. split; [done|]. split; [done|]. by intros fp ?%elem_of_nil. Qed.
Lemma keys_trans a b c es es' : keys_handled a b es → keys_handled b c es' → keys_handled a c (es ++ es').
Proof.
  unfold keys_handled, pinned_by, accepted_by. rewrite !omap_app. destruct (truthy a) eqn:Ea.
  - intros (-> & -> & H1). rewrite Ea. intros (-> & -> & H2). split; [done|]. split; [done|]. intros fp [?|?]%elem_of_app; auto.
  - intros [(-> & -> & ->)|(fp & -> & Ht & -> & H1)].
    + rewrite Ea. done.
    + rewrite Ht. intros (-> & -> & H2). right. exists fp. split; [done|]. split; [done|]. split; [done|]. intros fp' [?|Hin]%elem_of_app; [auto|]. specialize (H2 _ Hin). congruence.
Qed.
(** Steps that leave the expected key alone and do nothing about keys. *)
Definition quiet (s : ssh_tail) (r : ssh_result) : Prop := expectedFingerprint r.1 = expectedFingerprint s ∧ pinned_by r.2 = [] ∧ accepted_by r.2 = [].
Lemma quiet_status state e s : pinned_by (report_status state e s) = [] ∧ accepted_by (report_status state e s) = [].
Proof. unfold report_status. by destruct (aborted s). Qed.
Lemma quiet_fail c reason s : quiet s (fail_client c reason s).
Proof.
  unfold fail_client. destruct (clients s !! c) as [cl|]; [|done]. destruct (settled cl); [done|]. unfold scheduleReconnect_ssh, report_status.
  destruct (bool_decide _); cbn; destruct (aborted s) eqn:Eab; cbn; rewrite ?Eab; by repeat split.
Qed.
Lemma quiet_connect s : quiet s (connect_ssh s).
Proof.
  unfold connect_ssh. destruct (aborted s) eqn:Eab; [done|]. destruct (quiet_status Connecting None s) as [Hp Ha].
  destruct (connect_throws _) as [e|]; [|by split]. set (s1 := mkTailSsh _ _ _ _ _ _ _ _). destruct (quiet_fail (length (clients s)) (js "connect_ssh threw: " ++ e) s1) as (He & Hp' & Ha').
  destruct (fail_client _ _ s1) as [s2 more]. unfold quiet, pinned_by, accepted_by in *. cbn [fst snd] in *. rewrite !omap_app, Hp, Ha, Hp', Ha'. by split.
Qed.
Lemma fingerprint_truthy key : truthy (Some (hostKeyFingerprint key)) = true. Proof. done. Qed.
Lemma keys_step s e : keys_handled (expectedFingerprint s) (expectedFingerprint (ssh_step s e).1) (ssh_step s e).2.
Proof.
  assert (∀ r, quiet s r → keys_handled (expectedFingerprint s) (expectedFingerprint r.1) r.2) as Hq by (intros r (-> & Hp & Ha); by apply keys_quiet).
  destruct e as [|c err|c chunk|c code|c message|c|c key|]; cbn [ssh_step]; try (apply Hq, quiet_fail).
  - destruct (armed s); [by apply Hq|]. apply Hq. apply (quiet_connect (mkTailSsh _ _ _ _ _ (expectedFingerprint s) _ _)).
  - unfold on_exec. destruct err; [apply Hq, quiet_fail|]. apply Hq. by destruct (quiet_status Connected None s).
  - apply Hq. unfold on_stream_data. destruct (aborted s); [done|]. destruct (clients s !! c) as [cl|]; [|done]. destruct (split_chunk _ _) as [sp [lines o]].
    split; [done|]. cbn. clear. induction lines as [|l lines IH]; [done|]. exact IH.
  - unfold hostVerifier, keys_handled. cbn [expectedFingerprint]. destruct (truthy (expectedFingerprint s)) eqn:Et; cbn [andb negb fst snd expectedFingerprint].
    + case_bool_decide as E; cbn [negb]; (split; [done|]; split; [done|]); [|by intros fp ?%elem_of_nil]. cbn. rewrite E. by intros fp ->%list_elem_of_singleton.
    + right. exists (hostKeyFingerprint key). split; [done|]. split; [done|]. split; [done|]. cbn. by intros fp' ->%list_elem_of_singleton.
  - unfold stop_tail. apply Hq. destruct (conn s); by repeat split.
Qed.
Lemma keys_run es s : keys_handled (expectedFingerprint s) (expectedFingerprint (ssh_run es s).1) (ssh_run es s).2.
Proof.
  revert s. induction es as [|e es IH]; intros s; [by apply keys_quiet|]. cbn [ssh_run]. pose proof (keys_step s e) as H1. destruct (ssh_step s e) as [s1 now].
  specialize (IH s1). destruct (ssh_run es s1) as [s2 later]. by eapply keys_trans.
Qed.
Lemma keys_tail expected es : keys_handled expected (expectedFingerprint (tail_run expected es).1) (tail_run expected es).2.
Proof.
  unfold tail_run, tailSshLog. set (s0 := mkTailSsh _ _ _ _ _ _ _ _). destruct (quiet_connect s0) as (He & Hp & Ha). destruct (connect_ssh s0) as [s1 now]. cbn [fst snd] in *.
  pose proof (keys_run es s1) as Hr. destruct (ssh_run es s1) as [s2 later]. rewrite He in Hr. eapply keys_trans; [by apply keys_quiet|exact Hr].
Qed.

(** Trust on first use: whatever happens, all host keys a tail ever accepts
    have one fingerprint: the pinned one if there was a pin; otherwise the
    fingerprint it reports for pinning, which it does at most once, and never
    when there was a pin. *)
Theorem host_key_never_changes expected es : let effects := (tail_run expected es).2 in
  (∀ fp fp', fp ∈ accepted_by effects → fp' ∈ accepted_by effects → fp = fp') ∧
  (truthy expected = true → pinned_by effects = [] ∧ ∀ fp, fp ∈ accepted_by effects → expected = Some fp) ∧
  (truthy expected = false → (length (pinned_by effects) ≤ 1)%nat ∧ ∀ fp, fp ∈ accepted_by effects → pinned_by effects = [fp]).
Proof.
  cbn zeta. pose proof (keys_tail expected es) as Hk. unfold keys_handled in Hk. destruct (truthy expected).
  - destruct Hk as (_ & Hp & Ha). split; [|by split]. intros fp fp' H1%Ha H2%Ha. congruence.
  - destruct Hk as [(_ & Hp & Ha)|(fp & _ & _ & Hp & Ha)]; rewrite Hp.
    + rewrite Ha. split; [by intros fp fp' ?%elem_of_nil|]. split; [done|]. intros _. split; [cbn; lia|]. by intros fp ?%elem_of_nil.
    + split; [intros f f' ->%Ha ->%Ha; done|]. split; [done|]. intros _. split; [cbn; lia|]. by intros fp' ->%Ha.
Qed.

(** ** After the stop *)

Definition calls_back (e : ssh_effect) : bool := match e with Status _ _ _ | Line _ => true | _ => false end.
Definition silent_stop (s : ssh_tail) (r : ssh_result) : Prop :=
  aborted r.1 = true ∧ length (clients r.1) = length (clients s) ∧ forallb (fun e => negb (calls_back e)) r.2 = true.
Lemma stopped_fail c reason s : aborted s = true → silent_stop s (fail_client c reason s).
Proof.
  intros Hab. unfold fail_client. destruct (clients s !! c) as [cl|]; [|done]. destruct (settled cl); [done|].
  assert (∀ s1, aborted s1 = true → scheduleReconnect_ssh reason s1 = (s1, [])) as Hno by (intros s1 E; unfold scheduleReconnect_ssh; by rewrite E).
  destruct (bool_decide _); rewrite Hno by done; (split; [done|]; split; [cbn; apply length_alter|done]).
Qed.
Lemma stopped_step s e : aborted s = true → silent_stop s (ssh_step s e).
Proof.
  intros Hab. destruct e as [|c err|c chunk|c code|c message|c|c key|]; cbn [ssh_step]; try (by apply stopped_fail).
  - destruct (armed s); [done|]. unfold connect_ssh. cbn. by rewrite Hab.
  - unfold on_exec. destruct err; [by apply stopped_fail|]. unfold report_status. by rewrite Hab.
  - unfold on_stream_data. by rewrite Hab.
  - unfold hostVerifier. cbn [expectedFingerprint]. destruct (_ && _); [|by destruct (negb _)]. split; [done|]. split; [cbn; apply length_alter|done].
  - unfold stop_tail. split; [done|]. split; [done|]. by destruct (conn s).
Qed.

(** Once stopped a tail delivers no line and no status and opens no
    connection, whatever the network still does. *)
Theorem stopped_tail_is_silent s es : aborted s = true →
  aborted (ssh_run es s).1 = true ∧ length (clients (ssh_run es s).1) = length (clients s) ∧ forallb (fun e => negb (calls_back e)) (ssh_run es s).2 = true.
Proof.
  revert s. induction es as [|e es IH]; intros s Hab; [done|]. cbn [ssh_run]. destruct (stopped_step s e Hab) as (H1 & H2 & H3). destruct (ssh_step s e) as [s1 now].
  destruct (IH s1 H1) as (H4 & H5 & H6). destruct (ssh_run es s1) as [s2 later]. cbn [fst snd] in *. rewrite forallb_app, H3, H6. split; [done|]. split; [congruence|done].
Qed.
End Ssh.

(** * A bounded chain of work *)

(** [rejected]: the promise at the end of the chain is a rejected one, since a
    handler of errors threw. The last four are the record of what was done. *)
Record chain := mkChain {
  depth : nat;
  waiting : list nat;
  in_flight : option nat;
  rejected : bool;
  accepted : list nat;
  dropped : list nat;
  started : list nat;
  finished : list nat;
}.
Definition new_chain : chain := mkChain 0 [] None false [] [] [] [].
Definition queued_items (c : chain) : nat := depth c.

(** An item comes, the next callback of the chain runs, the work in flight ends;
    [throws] says whether the handler of its error throws. *)
Inductive chain_event := Enqueue (item : nat) | Turn (throws : bool) | Settle (fails throws : bool).

Section Chain.
Context (maxDepth : nat).

Definition enqueue (item : nat) (c : chain) : chain :=
  if (maxDepth <=? depth c)%nat
  then mkChain (depth c) (waiting c) (in_flight c) (rejected c) (accepted c) (dropped c ++ [item]) (started c) (finished c)
  else mkChain (S (depth c)) (waiting c ++ [item]) (in_flight c) (rejected c) (accepted c ++ [item]) (dropped c) (started c) (finished c).
Definition chain_step (c : chain) (e : chain_event) : chain :=
  match e with
  | Enqueue item => enqueue item c
  | Turn throws =>
      match in_flight c, waiting c with
      | None, item :: rest =>
          if rejected c then
            (* the work is skipped and its handler told the old error *)
            if throws then mkChain (depth c) rest None true (accepted c) (dropped c) (started c) (finished c)
            else mkChain (pred (depth c)) rest None false (accepted c) (dropped c) (started c) (finished c)
          else mkChain (depth c) rest (Some item) false (accepted c) (dropped c) (started c ++ [item]) (finished c)
      | _, _ => c
      end
  | Settle fails throws =>
      match in_flight c with
      | Some item =>
          if fails && throws then mkChain (depth c) (waiting c) None true (accepted c) (dropped c) (started c) (finished c ++ [item])
          else mkChain (pred (depth c)) (waiting c) None false (accepted c) (dropped c) (started c) (finished c ++ [item])
      | None => c
      end
  end.

(** When the handlers of errors return, what a chain takes on is started in
    the order it came, one piece at a time, each after all before it have ended,
    whether they failed or not; never more than the limit is under way or
    waiting, and a piece is dropped only when that many are. *)
Theorem chain_runs_in_order es : Forall (fun e => match e with Enqueue _ => True | Turn throws | Settle _ throws => throws = false end) es →
  let c := foldl chain_step new_chain es in
  accepted c = started c ++ waiting c ∧ started c = finished c ++ option_list (in_flight c) ∧
  queued_items c = (length (option_list (in_flight c)) + length (waiting c))%nat ∧ (queued_items c ≤ maxDepth)%nat ∧ rejected c = false ∧
  ∀ item, dropped (enqueue item c) = dropped c ++ [item] ↔ (maxDepth ≤ length (option_list (in_flight c)) + length (waiting c))%nat.
Proof.
  intros Hes. cbn zeta.
  assert (∀ c, accepted c = started c ++ waiting c ∧ started c = finished c ++ option_list (in_flight c) ∧
    queued_items c = (length (option_list (in_flight c)) + length (waiting c))%nat ∧ (queued_items c ≤ maxDepth)%nat ∧ rejected c = false →
    let c := foldl chain_step c es in accepted c = started c ++ waiting c ∧ started c = finished c ++ option_list (in_flight c) ∧
    queued_items c = (length (option_list (in_flight c)) + length (waiting c))%nat ∧ (queued_items c ≤ maxDepth)%nat ∧ rejected c = false) as Hrun.
  { induction Hes as [|e es He Hes IH]; intros c Hc; [done|]. apply IH. destruct c as [dp wt fl rj ac dr st fi]. unfold queued_items in *. cbn in *.
    destruct Hc as (Ha & Hs & Hq & Hle & ->). destruct e as [item|throws|fails throws]; cbn.
    - unfold enqueue. cbn. destruct (Nat.leb_spec maxDepth dp); cbn; [by split_and!|]. rewrite Ha, <- app_assoc, length_app. cbn. split_and!; [done|done|lia|lia|done].
    - subst throws. destruct fl as [i|]; [by split_and!|]. destruct wt as [|i wt]; [by split_and!|]. cbn in *. rewrite <- app_assoc. rewrite app_nil_r in Hs. rewrite <- Hs. split_and!; [done|done|lia|lia|done].
    - subst throws. destruct fl as [i|]; [|by split_and!]. rewrite andb_false_r. cbn in *. rewrite app_nil_r. split_and!; [done|done|lia|lia|done]. }
  destruct (Hrun new_chain) as (H1 & H2 & H3 & H4 & H5); [by split_and!; [..|apply Nat.le_0_l|]|]. split_and!; [done..|]. intros item. rewrite <- H3. unfold enqueue, queued_items in *.
  destruct (Nat.leb_spec maxDepth (depth (foldl chain_step new_chain es))); cbn; split; intros Hd; try done; [|lia].
  apply (f_equal length) in Hd. rewrite length_app in Hd. cbn in Hd. lia.
Qed.
End Chain.
(** The count includes the work in flight. *)
Example queued_counts_in_flight : let c := foldl (chain_step 500) new_chain [Enqueue 7; Turn false] in
  in_flight c = Some 7%nat ∧ waiting c = [] ∧ queued_items c = 1%nat.
Proof. done. Qed.
Lemma chain_runs_in_order_witness :
  let c := foldl (chain_step 2) new_chain [Enqueue 1; Turn false; Enqueue 2; Enqueue 3; Settle true false; Turn false; Enqueue 4] in
  dropped c = [3%nat] ∧ accepted c = started c ++ waiting c ∧ started c = [1%nat; 2%nat] ∧ waiting c = [4%nat].
Proof.
  cbv zeta. split; [reflexivity|]. split; [|split; reflexivity].
  exact (proj1 (chain_runs_in_order 2 [Enqueue 1; Turn false; Enqueue 2; Enqueue 3; Settle true false; Turn false; Enqueue 4] ltac:(by repeat constructor))).
Defined.

(** * Votes *)

Inductive VoteType := Map_skip | Map_change | Admin_vote.
Inductive VoteChoice := Yes | No.
Inductive VoteResult := Passed | Failed_vote | Cancelled.
Record VoteIdentity := mkVoter { v_eos : option jstr; v_steam : option jstr; v_name : jstr }.
Record ParsedVoteStart := mkStart {
  vs_ts : jstr; vs_type : VoteType; vs_initiator : option VoteIdentity;
  vs_current : option jstr; vs_next : option jstr; vs_target : option jstr; vs_required : Z;
}.
Record ParsedVoteBallot := mkBallot { vb_ts : jstr; vb_voter : VoteIdentity; vb_choice : VoteChoice }.
(** [ve_result] is never [Cancelled]. *)
Record ParsedVoteEnd := mkEnd { ve_ts : jstr; ve_result : VoteResult; ve_collected : Z; ve_required : Z }.
Record VoteRecordCommand := mkVoteRecord {
  vr_server : jstr;
  vr_start : ParsedVoteStart;
  vr_collected : Z;
  vr_required : Z;
  vr_result : VoteResult;
  vr_ended : jstr;
  vr_ballots : list ParsedVoteBallot;
}.
(** The open vote: what its start said and its ballots by voter. *)
Record OpenVote := mkOpen { ov_start : ParsedVoteStart; ov_ballots : list (jstr * ParsedVoteBallot) }.

Section Votes.
Context (toLowerCase : jstr → jstr) (serverId : jstr).

Definition ballotKey (v : VoteIdentity) : jstr :=
  if truthy (v_eos v) then js "eos:" ++ default [] (v_eos v)
  else if truthy (v_steam v) then js "steam:" ++ default [] (v_steam v)
  else js "name:" ++ toLowerCase (trim (v_name v)).
Definition is_yes (b : ParsedVoteBallot) : bool := match vb_choice b with Yes => true | No => false end.
Definition buildCancelled (o : OpenVote) (ts : jstr) : VoteRecordCommand :=
  let ballots := (ov_ballots o).*2 in
  mkVoteRecord serverId (ov_start o) (Z.of_nat (length (jfilter is_yes ballots))) (vs_required (ov_start o)) Cancelled ts ballots.
Definition onVoteStart (start : ParsedVoteStart) (open_ : option OpenVote) : option OpenVote * list VoteRecordCommand :=
  (Some (mkOpen start []), match open_ with Some o => [buildCancelled o (vs_ts start)] | None => [] end).
Definition onVoteBallot (b : ParsedVoteBallot) (open_ : option OpenVote) : option OpenVote * list VoteRecordCommand :=
  match open_ with Some o => (Some (mkOpen (ov_start o) (map_set (ov_ballots o) (ballotKey (vb_voter b)) b)), []) | None => (None, []) end.
Definition onVoteEnd (e : ParsedVoteEnd) (open_ : option OpenVote) : option OpenVote * list VoteRecordCommand :=
  match open_ with
  | Some o =>
      (None, [mkVoteRecord serverId (ov_start o) (ve_collected e) (if ve_required e =? 0 then vs_required (ov_start o) else ve_required e) (ve_result e) (ve_ts e) (ov_ballots o).*2])
  | None => (None, [])
  end.
Definition onServerDown (ts : jstr) (open_ : option OpenVote) : option OpenVote * list VoteRecordCommand :=
  match open_ with Some o => (None, [buildCancelled o ts]) | None => (None, []) end.

Inductive vote_event := Vote_start (s : ParsedVoteStart) | Vote_ballot (b : ParsedVoteBallot) | Vote_end (e : ParsedVoteEnd) | Server_down (ts : jstr).
Definition vote_step (e : vote_event) : option OpenVote → option OpenVote * list VoteRecordCommand :=
  match e with Vote_start s => onVoteStart s | Vote_ballot b => onVoteBallot b | Vote_end e => onVoteEnd e | Server_down ts => onServerDown ts end.
Fixpoint vote_run (es : list vote_event) (o : option OpenVote) : option OpenVote * list VoteRecordCommand :=
  match es with
  | [] => (o, [])
  | e :: es => let '(o, now) := vote_step e o in let '(o, later) := vote_run es o in (o, now ++ later)
  end.

Definition starts_of (es : list vote_event) : list ParsedVoteStart := omap (fun e => match e with Vote_start s => Some s | _ => None end) es.

(** The votes, taken apart without the machine: each start with the ballots up
    to the next event that closes it, and that event. *)
Fixpoint ballots_until (es : list vote_event) : list ParsedVoteBallot * option vote_event :=
  match es with
  | [] => ([], None)
  | Vote_ballot b :: es => let '(bs, close) := ballots_until es in (b :: bs, close)
  | e :: _ => ([], Some e)
  end.
(** The last ballot of each voter, in the order of their first. *)
Definition last_ballots (bs : list ParsedVoteBallot) : list ParsedVoteBallot :=
  (foldl (fun m b => map_set m (ballotKey (vb_voter b)) b) [] bs).*2.
Definition close_vote (s : ParsedVoteStart) (bs : list ParsedVoteBallot) (e : vote_event) : VoteRecordCommand :=
  match e with
  | Vote_end e => mkVoteRecord serverId s (ve_collected e) (if ve_required e =? 0 then vs_required s else ve_required e) (ve_result e) (ve_ts e) (last_ballots bs)
  | Vote_start s' => mkVoteRecord serverId s (Z.of_nat (length (jfilter is_yes (last_ballots bs)))) (vs_required s) Cancelled (vs_ts s') (last_ballots bs)
  | Server_down ts => mkVoteRecord serverId s (Z.of_nat (length (jfilter is_yes (last_ballots bs)))) (vs_required s) Cancelled ts (last_ballots bs)
  | Vote_ballot _ => mkVoteRecord serverId s 0 0 Cancelled [] []
  end.
Fixpoint votes_of (es : list vote_event) : list VoteRecordCommand :=
  match es with
  | [] => []
  | Vote_start s :: es => (let '(bs, close) := ballots_until es in match close with Some e => [close_vote s bs e] | None => [] end) ++ votes_of es
  | _ :: es => votes_of es
  end.

Lemma vote_run_open es s bs0 :
  (vote_run es (Some (mkOpen s (foldl (fun m b => map_set m (ballotKey (vb_voter b)) b) [] bs0)))).2 =
  (let '(bs, close) := ballots_until es in match close with Some e => [close_vote s (bs0 ++ bs) e] | None => [] end) ++ votes_of es ∧
  (vote_run es None).2 = votes_of es.
Proof.
  revert s bs0. induction es as [|e es IH]; intros s bs0; [done|]. destruct e as [s'|b|e|ts]; cbn [vote_run vote_step ballots_until votes_of onVoteStart onVoteBallot onVoteEnd onServerDown ov_start ov_ballots].
  - specialize (IH s' []) as [IH _]. cbn [foldl app] in IH. destruct (vote_run es (Some (mkOpen s' []))) as [o later]. cbn [snd] in *. subst later. by rewrite app_nil_r.
  - specialize (IH s (bs0 ++ [b])) as [IH IHn]. rewrite foldl_app in IH. cbn [foldl] in IH. destruct (vote_run es (Some _)) as [o later]. destruct (vote_run es None) as [o' later']. cbn [snd app] in *.
    split; [|done]. subst later. destruct (ballots_until es) as [bs close]. by rewrite <- app_assoc.
  - specialize (IH s []) as [_ IHn]. destruct (vote_run es None) as [o later]. cbn [snd app] in *. subst later. by rewrite app_nil_r.
  - specialize (IH s []) as [_ IHn]. destruct (vote_run es None) as [o later]. cbn [snd app] in *. subst later. by rewrite app_nil_r.
Qed.

(** Every vote that starts is recorded exactly once, when it ends, when the
    next one starts or when the server goes down, with the last ballot of each
    voter, and what comes outside a vote is not counted; only a vote still open
    at the end is not on record. *)
Theorem votes_recorded_once es : (vote_run es None).2 = votes_of es ∧
  starts_of es = (vr_start <$> (vote_run es None).2) ++ option_list (ov_start <$> (vote_run es None).1).
Proof.
  split; [exact (proj2 (vote_run_open es (mkStart [] Admin_vote None None None None 0) []))|].
  assert (∀ o, option_list (ov_start <$> o) ++ starts_of es = (vr_start <$> (vote_run es o).2) ++ option_list (ov_start <$> (vote_run es o).1)) as H; [|exact (H None)].
  induction es as [|e es IH]; intros o; [cbn; by rewrite app_nil_r|]. cbn [vote_run]. destruct e as [s'|b|e|ts]; cbn [vote_step onVoteStart onVoteBallot onVoteEnd onServerDown].
  - specialize (IH (Some (mkOpen s' []))). change (starts_of (Vote_start s' :: es)) with (s' :: starts_of es).
    destruct (vote_run es (Some (mkOpen s' []))) as [o' later]. cbn in IH. destruct o; cbn; by rewrite IH.
  - change (starts_of (Vote_ballot b :: es)) with (starts_of es).
    destruct o as [o|]; [specialize (IH (Some (mkOpen (ov_start o) (map_set (ov_ballots o) (ballotKey (vb_voter b)) b))))|specialize (IH None)]; cbn in *; by destruct (vote_run es _) as [o' later].
  - specialize (IH None). change (starts_of (Vote_end e :: es)) with (starts_of es). destruct o as [o|]; cbn; destruct (vote_run es None) as [o' later]; cbn in *; by rewrite IH.
  - specialize (IH None). change (starts_of (Server_down ts :: es)) with (starts_of es). destruct o as [o|]; cbn; destruct (vote_run es None) as [o' later]; cbn in *; by rewrite IH.
Qed.
(** A voter's ballot on record is the last one. *)
Lemma last_ballots_exact bs k : map_get (foldl (fun m b => map_set m (ballotKey (vb_voter b)) b) [] bs) k = last (jfilter (fun b => bool_decide (ballotKey (vb_voter b) = k)) bs).
Proof.
  induction bs as [|b bs IH] using rev_ind; [done|]. rewrite foldl_app, jfilter_app. cbn [foldl]. rewrite map_get_set. unfold jfilter at 2. cbn.
  case_bool_decide; [by rewrite last_snoc|]. by rewrite app_nil_r.
Qed.
End Votes.

(** * Example runs *)

Lemma lines_independent_of_chunks_witness :
  let chunks := [js "one" ++ [13]; [10; 10] ++ js "tw"; js "o" ++ [10] ++ js "thr"] in
  (split_chunks createLineSplitter chunks).2 = [js "one"; js "two"] ∧ pending (split_chunks createLineSplitter chunks).1 = js "thr" ∧
  delivers (terminated (concat chunks)) (split_chunks createLineSplitter chunks).2.
Proof.
  cbv zeta. split; [vm_compute; reflexivity|]. split; [vm_compute; reflexivity|].
  exact (proj1 (lines_independent_of_chunks [js "one" ++ [13]; [10; 10] ++ js "tw"; js "o" ++ [10] ++ js "thr"] _ _ (surjective_pairing _))).
Defined.

Definition ex_wanted (id : string) (port : Z) : TailWanted := mkWanted (js id) port Container_source.
(** The third start dies at once. *)
Definition ex_factory (n : nat) : start_result := if (n =? 2)%nat then Dies_at_once else Runs.
Definition ex_manager : manager := (reconcile ex_factory new_manager [ex_wanted "a" 1; ex_wanted "b" 2]).1.
Lemma reconcile_exact_witness : ∃ r, (reconcile ex_factory ex_manager [ex_wanted "b" 2; ex_wanted "c" 3; ex_wanted "d" 4]).2 = Some r ∧
  added r = [js "d"] ∧ removed r = [js "a"] ∧ total r = 2%nat ∧
  follows ex_manager (reconcile ex_factory ex_manager [ex_wanted "b" 2; ex_wanted "c" 3; ex_wanted "d" 4]).1 (js "b") (js "container:2").
Proof.
  eexists. split; [vm_compute; reflexivity|]. split; [reflexivity|]. split; [reflexivity|]. split; [reflexivity|].
  destruct (reconcile_exact ex_factory ex_manager [ex_wanted "b" 2; ex_wanted "c" 3; ex_wanted "d" 4]
    (reconcile ex_factory ex_manager [ex_wanted "b" 2; ex_wanted "c" 3; ex_wanted "d" 4]).1 (mkReport [js "d"] [js "a"] [] 2)
    (ok_reconcile ex_factory new_manager _ ok_new) ltac:(vm_compute; reflexivity)) as [H _].
  exact (H (js "b") (ex_wanted "b" 2) ltac:(vm_compute; reflexivity)).
Defined.

Section Ssh_examples.
#[local] Instance plain_ssh : SshEnv := { sha256_base64 key := key; connect_throws _ := None; initialBackoff := 1000; maxBackoff := 60000 }.
Notation ex_tail := (tail_run None).

(** A character of two bytes that arrives in two chunks is lost. *)
Example character_cut_in_two :
  (ex_tail [Chunk 0 [208; 150; 10]]).2 = [Status Connecting None None; Line [1046]] ∧
  (ex_tail [Chunk 0 [208]; Chunk 0 [150; 10]]).2 = [Status Connecting None None; Line [replacement; replacement]].
Proof. vm_compute. done. Qed.
(** A host key that comes after the stop is still reported for pinning. *)
Example pinned_after_stop : (ex_tail [Stopped; Host_key 0 [75]]).2 = [Status Connecting None None; Ends 0; Pinned (js "SHA256:K"); Accepts 0 (js "SHA256:K")].
Proof. vm_compute. done. Qed.
Example reconnects : let s := (ex_tail [Exec_done 0 None; Client_error 0 []; Client_closed 0; Retry_due; Host_key 1 [75]; Client_closed 1]).1 in
  armed s = [2000] ∧ conn s = None ∧ length (clients s) = 2%nat.
Proof. vm_compute. done. Qed.
Lemma stopped_tail_is_silent_witness : aborted (ex_tail [Stopped]).1 = true ∧
  forallb (fun e => negb (calls_back e)) (ssh_run [Chunk 0 [65; 10]; Exec_done 0 None; Client_closed 0; Retry_due] (ex_tail [Stopped]).1).2 = true.
Proof.
  split; [reflexivity|].
  exact (proj2 (proj2 (stopped_tail_is_silent (H := plain_ssh) (ex_tail [Stopped]).1 [Chunk 0 [65; 10]; Exec_done 0 None; Client_closed 0; Retry_due] eq_refl))).
Defined.
End Ssh_examples.
