(* ===== verification/WorkerKit.v ===== *)
(** The life of a worker: [packages/worker-kit/src/run-worker.ts] and
    [overlap.ts] with the shutdown controller of
    [packages/shared-config/src/graceful-shutdown.ts], as a machine on signals,
    timers and the ends of what it awaits. *)
From S2P Require Import Prelude.

Inductive signal := SIGINT | SIGTERM.
Inductive overlap_policy := Skip | Warn | Overlap_allowed.
Record TickJob := mkJob { overlap : overlap_policy; firstRunFatal : bool }.

(** What [startWorker] waits for; [Failed_start] once it has thrown. *)
Inductive main_phase :=
| Emitting_started
| Before_first_tick
| First_pass (job : nat)
| Marking_ready
| Returned
| Failed_start.
(** What the cleanup waits for. *)
Inductive cleanup_phase := Emitting_stopped | Ending_sql | Quitting_redis.
#[export] Instance main_phase_eq_dec : EqDecision main_phase. Proof. solve_decision. Defined.

Inductive worker_effect :=
| Cleanup_begins (s : signal)
| Heartbeat_stops
| Pass_begins (job : nat)
| Skip_warned (job : nat)
| Failure_logged (job : nat)
| Cleanup_error_logged
| Exits (code : Z).

(** [running] are the passes under way, [exited] the code the process ended with. *)
Record worker := mkWorker {
  phase : main_phase;
  ready : bool;
  requestedSignal : option signal;
  cleanup : option cleanup_phase;
  timers : list nat;
  inFlight : list bool;
  running : list nat;
  exited : option Z;
}.

Section Worker.
Context (ticks : list TickJob) (lifecycleDiag : bool).

Definition guarded (job : nat) : bool := match ticks !! job with Some j => match overlap j with Overlap_allowed => false | _ => true end | None => false end.
Definition warns (job : nat) : bool := match ticks !! job with Some j => match overlap j with Warn => true | _ => false end | None => false end.
Definition fatal (job : nat) : bool := match ticks !! job with Some j => firstRunFatal j | None => false end.

Definition exit (code : Z) (w : worker) : worker * list worker_effect :=
  (mkWorker (phase w) (ready w) (requestedSignal w) (cleanup w) (timers w) (inFlight w) (running w) (Some code), [Exits code]).
Definition set_phase (p : main_phase) (w : worker) : worker :=
  mkWorker p (ready w) (requestedSignal w) (cleanup w) (timers w) (inFlight w) (running w) (exited w).

(** ** The controller *)

Definition stop_heartbeat (w : worker) : worker * list worker_effect :=
  (mkWorker (phase w) (ready w) (requestedSignal w) (Some Ending_sql) (timers w) (inFlight w) (running w) (exited w), [Heartbeat_stops]).
(** [cleanup] of [startWorker], up to what it awaits first. *)
Definition begin_cleanup (s : signal) (w : worker) : worker * list worker_effect :=
  let w := mkWorker (phase w) (ready w) (requestedSignal w) (Some Emitting_stopped) [] (inFlight w) (running w) (exited w) in
  if lifecycleDiag then (w, [Cleanup_begins s]) else let '(w, es) := stop_heartbeat w in (w, Cleanup_begins s :: es).
Definition runCleanup (w : worker) : worker * list worker_effect :=
  match cleanup w, requestedSignal w with
  | None, Some s => if ready w then begin_cleanup s w else (w, [])
  | _, _ => (w, [])
  end.
Definition request_shutdown (s : signal) (w : worker) : worker * list worker_effect :=
  runCleanup (mkWorker (phase w) (ready w) (match requestedSignal w with Some s => Some s | None => Some s end) (cleanup w) (timers w) (inFlight w) (running w) (exited w)).
Definition markReady (w : worker) : worker * list worker_effect :=
  let w := mkWorker (phase w) true (requestedSignal w) (cleanup w) (timers w) (inFlight w) (running w) (exited w) in
  match requestedSignal w with Some _ => runCleanup w | None => (w, []) end.
Definition cleanup_settles (ok : bool) (w : worker) : worker * list worker_effect :=
  match cleanup w with
  | None => (w, [])
  | Some Emitting_stopped => if ok then stop_heartbeat w else let '(w, es) := exit 1 w in (w, Cleanup_error_logged :: es)
  | Some Ending_sql =>
      if ok then (mkWorker (phase w) (ready w) (requestedSignal w) (Some Quitting_redis) (timers w) (inFlight w) (running w) (exited w), [])
      else let '(w, es) := exit 1 w in (w, Cleanup_error_logged :: es)
  | Some Quitting_redis => exit 0 w
  end.

(** ** Passes *)

Definition begin_pass (job : nat) (w : worker) : worker * list worker_effect :=
  (mkWorker (phase w) (ready w) (requestedSignal w) (cleanup w) (timers w) (if guarded job then <[job := true]> (inFlight w) else inFlight w) (running w ++ [job]) (exited w),
   [Pass_begins job]).
(** One call of [run]: [guardAgainstOverlap], unless overlaps are allowed. *)
Definition run_pass (job : nat) (w : worker) : worker * list worker_effect :=
  if guarded job && default false (inFlight w !! job) then (w, if warns job then [Skip_warned job] else [])
  else begin_pass job w.
Fixpoint remove_first (job : nat) (l : list nat) : list nat :=
  match l with [] => [] | j :: l => if (j =? job)%nat then l else j :: remove_first job l end.
Definition end_pass (job : nat) (w : worker) : worker :=
  mkWorker (phase w) (ready w) (requestedSignal w) (cleanup w) (timers w) (if guarded job then <[job := false]> (inFlight w) else inFlight w)
    (remove_first job (running w)) (exited w).

(** ** [startWorker], from one wait to the next *)

Definition next_pass (job : nat) (w : worker) : worker * list worker_effect :=
  if (job <? length ticks)%nat then run_pass job (set_phase (First_pass job) w)
  else markReady (set_phase Marking_ready w).
Definition main_settles (ok : bool) (w : worker) : worker * list worker_effect :=
  let fails w := exit 1 (set_phase Failed_start w) in
  match phase w with
  | Emitting_started => if ok then (set_phase Before_first_tick w, []) else fails w
  | Before_first_tick => if ok then next_pass 0 w else fails w
  | First_pass job =>
      let w := if bool_decide (job ∈ running w) then end_pass job w else w in
      if ok then next_pass (S job) w
      else if fatal job then fails w
      else let '(w, es) := next_pass (S job) w in (w, Failure_logged job :: es)
  | Marking_ready =>
      match requestedSignal w with
      | Some _ => (set_phase Returned w, [])
      | None => (mkWorker Returned (ready w) (requestedSignal w) (cleanup w) (seq 0 (length ticks)) (inFlight w) (running w) (exited w), [])
      end
  | _ => (w, [])
  end.

(** A signal, the end of what the start or the cleanup waits for, a timer, and
    the end of a pass a timer began. *)
Inductive worker_event := Signalled (s : signal) | Main_settles (ok : bool) | Cleanup_settles (ok : bool) | Timer (job : nat) | Pass_ends (job : nat) (ok : bool).
Definition worker_step (w : worker) (e : worker_event) : worker * list worker_effect :=
  if bool_decide (is_Some (exited w)) then (w, [])
  else
    match e with
    | Signalled s => request_shutdown s w
    | Main_settles ok => main_settles ok w
    | Cleanup_settles ok => cleanup_settles ok w
    | Timer job => if bool_decide (job ∈ timers w) then run_pass job w else (w, [])
    | Pass_ends job ok =>
        if bool_decide (job ∈ running w) && negb (bool_decide (phase w = First_pass job))
        then (end_pass job w, if ok then [] else [Failure_logged job]) else (w, [])
    end.
Fixpoint worker_run (es : list worker_event) (w : worker) : worker * list worker_effect :=
  match es with
  | [] => (w, [])
  | e :: es => let '(w, now) := worker_step w e in let '(w, later) := worker_run es w in (w, now ++ later)
  end.
(** After [setup] and [createGracefulShutdownController]. *)
Definition startWorker : worker :=
  mkWorker (if lifecycleDiag then Emitting_started else Before_first_tick) false None None [] (replicate (length ticks) false) [] None.

(** ** The state of a worker *)

Definition count (job : nat) (l : list nat) : nat := length (jfilter (fun j => (j =? job)%nat) l).
Definition under_way (job : nat) (w : worker) : nat := count job (running w).
Record worker_ok (w : worker) : Prop := {
  wo_flags : length (inFlight w) = length ticks;
  wo_guard : ∀ job, guarded job = true → under_way job w = if default false (inFlight w !! job) then 1%nat else 0%nat;
  wo_timers : is_Some (requestedSignal w) → timers w = [];
  wo_phase : phase w ≠ Returned → timers w = [];
  wo_cleanup : is_Some (cleanup w) → ready w = true ∧ is_Some (requestedSignal w);
  wo_ready : phase w = Marking_ready ∨ phase w = Returned → ready w = true;
  wo_begun : ready w = true → is_Some (requestedSignal w) → is_Some (cleanup w);
}.
#[local] Arguments count : simpl never.
#[local] Arguments under_way : simpl never.
Lemma count_snoc job k l : count job (l ++ [k]) = (count job l + if (k =? job)%nat then 1 else 0)%nat.
Proof. unfold count. rewrite jfilter_app, length_app. unfold jfilter at 2. cbn. by destruct (k =? job)%nat. Qed.
Lemma count_remove job k l : count job (remove_first k l) = (count job l - if (k =? job)%nat && bool_decide (k ∈ l) then 1 else 0)%nat.
Proof.
  unfold count. induction l as [|j l IH]; [cbn; by rewrite andb_false_r|]. cbn [remove_first]. destruct (Nat.eqb_spec j k) as [->|Hne].
  - rewrite (bool_decide_eq_true_2 (k ∈ k :: l)) by set_solver. unfold jfilter. cbn. destruct (k =? job)%nat; cbn; lia.
  - rewrite (bool_decide_ext (k ∈ j :: l) (k ∈ l)) by set_solver. unfold jfilter in *. cbn. destruct (Nat.eqb_spec j job); cbn; [|done].
    rewrite IH. destruct (Nat.eqb_spec k job); [lia|]. cbn. lia.
Qed.
Lemma count_in job l : job ∈ l → (0 < count job l)%nat.
Proof.
  intros Hin. unfold count. assert (job ∈ jfilter (fun j => (j =? job)%nat) l) as H by (apply elem_of_jfilter; split; [apply Nat.eqb_refl|done]).
  destruct (jfilter _ l); [by apply not_elem_of_nil in H|cbn; lia].
Qed.
Lemma guarded_lt job : guarded job = true → (job < length ticks)%nat.
Proof. unfold guarded. destruct (ticks !! job) eqn:E; [intros _; by eapply lookup_lt_Some|done]. Qed.

Lemma ok_begin job w : worker_ok w → (guarded job = true → default false (inFlight w !! job) = false) → worker_ok (begin_pass job w).1.
Proof.
  intros [Hf Hg Ht Hp Hc Hr Hb] Hfree. split; cbn; [by destruct (guarded job); rewrite ?length_insert| |done..]. intros j Hj. unfold under_way. cbn [running].
  rewrite count_snoc. specialize (Hg j Hj). unfold under_way in Hg. rewrite Hg. pose proof (guarded_lt j Hj) as Hlt. destruct (Nat.eqb_spec job j) as [->|Hne].
  - rewrite Hj, (Hfree Hj), list_lookup_insert_eq by lia. done.
  - destruct (guarded job); [rewrite list_lookup_insert_ne by done|]; lia.
Qed.
Lemma ok_pass job w : worker_ok w → worker_ok (run_pass job w).1.
Proof.
  intros Hok. unfold run_pass. destruct (guarded job) eqn:Eg; cbn [andb]; [destruct (default false (inFlight w !! job)) eqn:Ef; [done|]|]; apply ok_begin; congruence.
Qed.
Lemma ok_end job w : worker_ok w → job ∈ running w → worker_ok (end_pass job w).
Proof.
  intros [Hf Hg Ht Hp Hc Hr Hb] Hin. split; cbn; [by destruct (guarded job); rewrite ?length_insert| |done..]. intros j Hj. unfold under_way. cbn [running end_pass].
  rewrite count_remove, (bool_decide_eq_true_2 _ Hin), andb_true_r. specialize (Hg j Hj). unfold under_way in Hg. pose proof (guarded_lt j Hj) as Hlt.
  destruct (Nat.eqb_spec job j) as [->|Hne].
  - apply count_in in Hin. rewrite Hj, list_lookup_insert_eq by lia. cbn. destruct (default false (inFlight w !! j)); lia.
  - rewrite Hg. destruct (guarded job); [rewrite list_lookup_insert_ne by done|]; lia.
Qed.
Lemma ok_set_phase p w : worker_ok w → timers w = [] → (p = Marking_ready ∨ p = Returned → ready w = true) → worker_ok (set_phase p w).
Proof. intros [Hf Hg Ht Hp Hc Hr Hb] Hnone Hp'. by split. Qed.
Lemma ok_exit code w : worker_ok w → worker_ok (exit code w).1.
Proof. intros [Hf Hg Ht Hp Hc Hr Hb]. by split. Qed.
Lemma ok_heartbeat w : worker_ok w → is_Some (cleanup w) → worker_ok (stop_heartbeat w).1.
Proof. intros [Hf Hg Ht Hp Hc Hr Hb] Hcl. split; cbn; [done|done|done|done|intros _; by apply Hc|done|intros; by eexists]. Qed.
(** All that [runCleanup] relies on. *)
Record cleanup_pre (w : worker) : Prop := {
  cp_flags : length (inFlight w) = length ticks;
  cp_guard : ∀ job, guarded job = true → under_way job w = if default false (inFlight w !! job) then 1%nat else 0%nat;
  cp_phase : phase w ≠ Returned → timers w = [];
  cp_ready : phase w = Marking_ready ∨ phase w = Returned → ready w = true;
  cp_cleanup : is_Some (cleanup w) → ready w = true ∧ is_Some (requestedSignal w) ∧ timers w = [];
  cp_unready : is_Some (requestedSignal w) → ready w = false → timers w = [];
}.
Lemma ok_cleanup w : cleanup_pre w → worker_ok (runCleanup w).1.
Proof.
  intros [Hf Hg Hp Hrd Hc Hu]. unfold runCleanup. destruct (cleanup w) as [c|] eqn:Ec; [|destruct (requestedSignal w) as [s|] eqn:Es; [destruct (ready w) eqn:Er|]].
  - destruct (Hc ltac:(by eexists)) as (Hr & Hs & Ht). split; cbn; [done|done|done|done|done|done|]. intros _ _. by rewrite Ec.
  - unfold begin_cleanup. destruct lifecycleDiag; split; cbn; rewrite ?Es; try done; intros; try (by eexists); (split; [done|by eexists]).
  - split; cbn; rewrite ?Es, ?Ec, ?Er; try done. intros _. by apply Hu.
  - split; cbn; rewrite ?Es, ?Ec; try done; by intros [? ?].
Qed.
Lemma ok_markReady w : worker_ok w → timers w = [] → worker_ok (markReady (set_phase Marking_ready w)).1.
Proof.
  intros [Hf Hg Ht Hp Hc Hr Hb] Hnone. unfold markReady. set (w1 := mkWorker _ _ _ _ _ _ _ _).
  assert (cleanup_pre w1) as H1 by (split; cbn; try done; by intros (? & ?)%Hc).
  destruct (requestedSignal (set_phase Marking_ready w)) as [s|] eqn:Es; [by apply ok_cleanup|]. cbn in Es.
  split; cbn; rewrite ?Es; try done; try (by intros _ [? ?]). intros (_ & [? ?])%Hc; congruence.
Qed.
Lemma timers_pass job w : timers (run_pass job w).1 = timers w.
Proof. unfold run_pass. by destruct (_ && _). Qed.
Lemma ok_next job w : worker_ok w → timers w = [] → worker_ok (next_pass job w).1.
Proof.
  intros Hok Hnone. unfold next_pass. destruct (_ <? _)%nat; [|by apply ok_markReady]. apply ok_pass, ok_set_phase; [done|done|]. by intros [?|?].
Qed.
Lemma ok_main ok w : worker_ok w → worker_ok (main_settles ok w).1.
Proof.
  intros Hok. pose proof (wo_phase w Hok) as Hp. unfold main_settles.
  assert (∀ w, worker_ok w → timers w = [] → worker_ok (exit 1 (set_phase Failed_start w)).1) as Hfail by (intros w0 H0 Hn; apply ok_exit, ok_set_phase; [done|done|by intros [?|?]]).
  destruct (phase w) as [| |job| | |] eqn:Ep; [| | | |done|done].
  - destruct ok; [apply ok_set_phase; [done|by apply Hp|by intros [?|?]]|by apply Hfail, Hp].
  - destruct ok; [by apply ok_next, Hp|by apply Hfail, Hp].
  - set (w1 := if bool_decide (job ∈ running w) then end_pass job w else w). assert (worker_ok w1 ∧ timers w1 = []) as [H1 Hn].
    { subst w1. case_bool_decide; [split; [by apply ok_end|]|split; [done|]]; by apply Hp. }
    destruct ok; [by apply ok_next|]. destruct (fatal job); [by apply Hfail|]. pose proof (ok_next (S job) w1 H1 Hn) as H2. by destruct (next_pass (S job) w1).
  - destruct Hok as [Hf Hg Ht _ Hc Hr Hb]. assert (ready w = true) as Hready by (apply Hr; by left). destruct (requestedSignal w) as [s|] eqn:Es.
    + split; cbn; rewrite ?Es; try done.
    + split; cbn; rewrite ?Es; try done; by intros [? ?].
Qed.
Lemma ok_worker_step w e : worker_ok w → worker_ok (worker_step w e).1.
Proof.
  intros Hok. unfold worker_step. case_bool_decide; [done|]. destruct e as [s|ok|ok|job|job ok].
  - destruct Hok as [Hf Hg Ht Hp Hc Hr Hb]. apply ok_cleanup. split; cbn; try done.
    + intros Hcl. destruct (Hc Hcl) as [? Hs]. split; [done|]. split; [by destruct (requestedSignal w)|by apply Ht].
    + intros _ Hnr. apply Hp. intros E. rewrite Hr in Hnr by (by right). done.
  - by apply ok_main.
  - unfold cleanup_settles. destruct (cleanup w) as [c|] eqn:Ec; [|done].
    assert (worker_ok (mkWorker (phase w) (ready w) (requestedSignal w) (Some Quitting_redis) (timers w) (inFlight w) (running w) (exited w))) as H1.
    { destruct Hok as [Hf Hg Ht Hp Hc Hr Hb]. split; cbn; try done; try (by intros; eexists). intros _. apply Hc. by eexists. }
    destruct c, ok; try done; try (by apply ok_exit). apply ok_heartbeat; [done|by eexists].
  - case_bool_decide; [by apply ok_pass|done].
  - destruct (bool_decide _) eqn:E1; [|done]. destruct (negb _); [|done]. apply bool_decide_eq_true in E1. by apply ok_end.
Qed.
Lemma ok_worker_run es w : worker_ok w → worker_ok (worker_run es w).1.
Proof.
  revert w. induction es as [|e es IH]; intros w Hok; [done|]. cbn [worker_run]. pose proof (ok_worker_step w e Hok) as H1. destruct (worker_step w e) as [w1 now].
  specialize (IH w1 H1). by destruct (worker_run es w1).
Qed.
Lemma ok_startWorker : worker_ok startWorker.
Proof.
  unfold startWorker. split; cbn; [apply length_replicate| |by intros [? ?]|done|by intros [? ?]| |done].
  - intros job Hj. pose proof (guarded_lt job Hj). rewrite lookup_replicate_2 by done. done.
  - destruct lifecycleDiag; by intros [?|?].
Qed.

(** ** Shutdown *)

Definition begins_of (es : list worker_effect) : list signal := omap (fun e => match e with Cleanup_begins s => Some s | _ => None end) es.
(** A step begins the cleanup, with the signal on record, when it had not begun. *)
Definition at_most_begins (w : worker) (r : worker * list worker_effect) : Prop :=
  (begins_of r.2 = [] ∧ cleanup w = None ↔ cleanup r.1 = None) ∧
  (begins_of r.2 = [] ∨ cleanup w = None ∧ ∃ s, requestedSignal r.1 = Some s ∧ begins_of r.2 = [s]) ∧
  (∀ s, requestedSignal w = Some s → requestedSignal r.1 = Some s).
Lemma begins_cleanup w : at_most_begins w (runCleanup w).
Proof.
  unfold runCleanup, at_most_begins. destruct (cleanup w) eqn:Ec; [|destruct (requestedSignal w) as [s|] eqn:Es; [destruct (ready w)|]].
  - cbn. rewrite Ec. split; [split; [by intros [_ ?]|done]|]. split; [by left|done].
  - unfold begin_cleanup. destruct lifecycleDiag; cbn; rewrite Es; (split; [split; [by intros [? _]|done]|]); (split; [right; split; [done|]; by exists s|done]).
  - cbn. rewrite Ec. split; [split; [done|by split]|]. split; [by left|]. intros ? ?. congruence.
  - cbn. rewrite Ec. split; [split; [done|by split]|]. split; [by left|]. intros ? ?. congruence.
Qed.
Lemma begins_nothing w r : begins_of r.2 = [] → cleanup r.1 = cleanup w → requestedSignal r.1 = requestedSignal w → at_most_begins w r.
Proof. unfold at_most_begins. intros -> -> ->. split; [split; [by intros [_ ?]|done]|]. split; [by left|done]. Qed.
Lemma begins_pass job w : at_most_begins w (run_pass job w).
Proof. unfold run_pass. destruct (_ && _); [destruct (warns job)|]; by apply begins_nothing. Qed.
Lemma begins_same w w' r : at_most_begins w' r → cleanup w' = cleanup w → requestedSignal w' = requestedSignal w → at_most_begins w r.
Proof. unfold at_most_begins. by intros H <- <-. Qed.
Lemma begins_next job w : at_most_begins w (next_pass job w).
Proof.
  unfold next_pass. destruct (_ <? _)%nat; [by eapply begins_same; [apply begins_pass|..]|]. unfold markReady. set (w1 := mkWorker _ _ _ _ _ _ _ _).
  change (requestedSignal (set_phase Marking_ready w)) with (requestedSignal w1). destruct (requestedSignal w1) eqn:E; [by eapply begins_same; [apply begins_cleanup|..]|by apply begins_nothing].
Qed.
Lemma begins_logged w w' es e : at_most_begins w (w', es) → begins_of [e] = [] → at_most_begins w (w', e :: es).
Proof. intros H He. unfold at_most_begins in *. cbn [fst snd] in *. replace (begins_of (e :: es)) with (begins_of es); [done|]. unfold begins_of in *. cbn in *. by destruct e. Qed.
Lemma begins_main ok w : at_most_begins w (main_settles ok w).
Proof.
  unfold main_settles. destruct (phase w) as [| |job| | |]; [| | | |by apply begins_nothing..].
  - destruct ok; by apply begins_nothing.
  - destruct ok; [apply begins_next|by apply begins_nothing].
  - set (w1 := if bool_decide (job ∈ running w) then end_pass job w else w). assert (cleanup w1 = cleanup w ∧ requestedSignal w1 = requestedSignal w) as [H1 H2] by (subst w1; by case_bool_decide).
    destruct ok; [by eapply begins_same; [apply begins_next|..]|]. destruct (fatal job); [by apply begins_nothing|]. pose proof (begins_next (S job) w1) as H3. destruct (next_pass (S job) w1) as [w2 es].
    apply begins_logged; [|done]. by eapply begins_same.
  - destruct (requestedSignal w) eqn:E; apply begins_nothing; cbn; by rewrite ?E.
Qed.
Lemma begins_step w e : at_most_begins w (worker_step w e).
Proof.
  unfold worker_step. case_bool_decide; [by apply begins_nothing|]. destruct e as [s|ok|ok|job|job ok].
  - pose proof (begins_cleanup (mkWorker (phase w) (ready w) (match requestedSignal w with Some s => Some s | None => Some s end) (cleanup w) (timers w) (inFlight w) (running w) (exited w))) as (H1 & H2 & H3).
    unfold request_shutdown. split; [exact H1|]. split; [exact H2|]. intros s0 Hs. apply H3. cbn. by rewrite Hs.
  - apply begins_main.
  - unfold cleanup_settles. destruct (cleanup w) as [c|] eqn:Ec; [|by apply begins_nothing]. unfold at_most_begins. rewrite Ec.
    destruct c, ok; cbn; (split; [split; [by intros [_ ?]|by rewrite ?Ec]|]); (split; [by left|done]).
  - case_bool_decide; [apply begins_pass|by apply begins_nothing].
  - destruct (_ && _); [destruct ok|]; by apply begins_nothing.
Qed.
Lemma begins_run es w : at_most_begins w (worker_run es w).
Proof.
  revert w. induction es as [|e es IH]; intros w; [by apply begins_nothing|]. cbn [worker_run]. pose proof (begins_step w e) as (H1 & H2 & H3). destruct (worker_step w e) as [w1 now].
  specialize (IH w1) as (H4 & H5 & H6). destruct (worker_run es w1) as [w2 later]. unfold at_most_begins, begins_of in *. cbn [fst snd] in *. rewrite omap_app.
  split; [|split; [|auto]].
  - rewrite <- H4, <- H1. split; [intros [[Ha Hb]%app_nil Hc]; auto|intros [Hb [Ha Hc]]; by rewrite Ha, Hb].
  - destruct H2 as [-> |(Hn & s & Hs & Hes)].
    + destruct H5 as [-> |(Hn & s & Hs & ->)]; [by left|right]. split; [by apply H1|]. by exists s.
    + right. split; [done|]. exists s. split; [by apply H6|]. rewrite Hes. destruct H5 as [-> |(Hn' & _)]; [done|]. apply H1 in Hn' as [Hx _]. by rewrite Hes in Hx.
Qed.

(** C30: However signals, timers, failures and the ends of passes interleave:
    the cleanup begins at most once, with the first signal and only when the
    start is through; from the first signal on no interval is armed, also when
    it comes during the start; and passes of a job that does not allow it never
    overlap. *)
Theorem worker_stops_once es : let '(w, effects) := worker_run es startWorker in
  (begins_of effects = [] ∨ ∃ s, requestedSignal w = Some s ∧ begins_of effects = [s] ∧ ready w = true) ∧
  (is_Some (requestedSignal w) → timers w = [] ∧ (ready w = true → begins_of effects ≠ [])) ∧
  (phase w ≠ Returned → timers w = []) ∧
  ∀ job, guarded job = true → (under_way job w ≤ 1)%nat.
Proof.
  pose proof (ok_worker_run es _ ok_startWorker) as [Hf Hg Ht Hp Hc Hr Hb]. pose proof (begins_run es startWorker) as (H1 & H2 & H3). destruct (worker_run es startWorker) as [w effects]. cbn [fst snd] in *.
  split; [|split; [|split; [done|]]].
  - destruct H2 as [?|(_ & s & Hs & He)]; [by left|right]. exists s. split; [done|]. split; [done|]. apply Hc. destruct (cleanup w); [by eexists|]. destruct H1 as [_ H1]. destruct (H1 eq_refl). congruence.
  - intros Hs. split; [by apply Ht|]. intros Hready Hnone. destruct (Hb Hready Hs) as [c Hcl]. destruct H1 as [H1 _]. rewrite (H1 (conj Hnone eq_refl)) in Hcl. done.
  - intros job Hj. rewrite (Hg job Hj). destruct (default false _); lia.
Qed.

(** ** Its end *)

Definition steps_left (w : worker) : nat :=
  match exited w, cleanup w with
  | Some _, _ => 0 | None, None => 4 | None, Some Emitting_stopped => 3 | None, Some Ending_sql => 2 | None, Some Quitting_redis => 1
  end.
Definition settles_cleanup (e : worker_event) : bool := match e with Cleanup_settles _ => true | _ => false end.
Lemma steps_left_step w e : is_Some (cleanup w) → is_Some (cleanup (worker_step w e).1) ∧
  (steps_left (worker_step w e).1 ≤ steps_left w - (if settles_cleanup e then 1 else 0))%nat.
Proof.
  intros Hcl. unfold worker_step. case_bool_decide as Hex; [split; [done|]; cbn [fst]; unfold steps_left; destruct Hex as [? ->]; cbn; lia|].
  assert (exited w = None) as Hne by (destruct (exited w); [by destruct Hex|done]). destruct Hcl as [c Hc].
  assert (∀ r : worker * list worker_effect, cleanup r.1 = cleanup w → is_Some (cleanup r.1) ∧ (steps_left r.1 ≤ steps_left w - 0)%nat) as Hsame.
  { intros r E. rewrite E, Hc. split; [done|]. unfold steps_left. rewrite E, Hc, Hne. destruct (exited r.1); destruct c; lia. }
  destruct e as [s|ok|ok|job|job ok]; cbn [settles_cleanup].
  - apply Hsame. unfold request_shutdown, runCleanup. cbn. by rewrite Hc.
  - apply Hsame.
    assert (∀ job w0, cleanup w0 = Some c → cleanup (next_pass job w0).1 = Some c) as Hnext.
    { intros job w0 E. unfold next_pass, markReady, runCleanup, run_pass. destruct (_ <? _)%nat; [by destruct (_ && _)|]. cbn. destruct (requestedSignal w0); cbn; by rewrite ?E. }
    unfold main_settles. destruct (phase w) as [| |job| | |]; try done.
    + by destruct ok.
    + destruct ok; [rewrite Hc; by apply Hnext|done].
    + set (w1 := if bool_decide (job ∈ running w) then end_pass job w else w). assert (cleanup w1 = Some c) as H1 by (subst w1; by case_bool_decide).
      destruct ok; [rewrite Hc; by apply Hnext|]. destruct (fatal job); [cbn; congruence|]. pose proof (Hnext (S job) w1 H1) as H2. destruct (next_pass (S job) w1). cbn in *. congruence.
    + by destruct (requestedSignal w).
  - unfold cleanup_settles. rewrite Hc. unfold steps_left at 2. rewrite Hne, Hc.
    destruct c, ok; cbn; (split; [by eexists|]); unfold steps_left; cbn; rewrite ?Hne; lia.
  - case_bool_decide; apply Hsame; [|done]. unfold run_pass. by destruct (_ && _).
  - destruct (_ && _); by apply Hsame.
Qed.

(** A worker that has begun its cleanup exits: three answers to what the
    cleanup waits for, of any kind, and whatever comes between them, are enough. *)
Theorem begun_cleanup_exits es w : is_Some (cleanup w) → (3 ≤ length (jfilter settles_cleanup es))%nat → is_Some (exited (worker_run es w).1).
Proof.
  intros Hcl Hn. assert (steps_left w ≤ length (jfilter settles_cleanup es))%nat as Hle.
  { etrans; [|exact Hn]. unfold steps_left. destruct Hcl as [c ->]. destruct (exited w), c; lia. }
  clear Hn. revert w Hcl Hle. induction es as [|e es IH]; intros w Hcl Hle; cbn in Hle |- *.
  - unfold steps_left in Hle. destruct Hcl as [c Hc]. rewrite Hc in Hle. destruct (exited w); [by eexists|]. destruct c; lia.
  - destruct (steps_left_step w e Hcl) as [Hcl' Hle']. destruct (worker_step w e) as [w1 now]. specialize (IH w1 Hcl'). destruct (worker_run es w1) as [w2 later]. apply IH. cbn in *. unfold jfilter.
    destruct (settles_cleanup e); cbn in *; lia.
Qed.
End Worker.

(** * Example runs *)

Definition ex_ticks : list TickJob := [mkJob Warn true; mkJob Overlap_allowed false].
Notation ex_life es := (worker_run ex_ticks true es (startWorker ex_ticks true)).
(** Both first passes, then the intervals; a slow pass is skipped once. *)
Example slow_pass_skipped :
  (ex_life [Main_settles true; Main_settles true; Main_settles true; Main_settles false; Main_settles true; Timer 0; Timer 0; Timer 1; Timer 1; Pass_ends 0 true; Timer 0]).2
  = [Pass_begins 0; Pass_begins 1; Failure_logged 1; Pass_begins 0; Skip_warned 0; Pass_begins 1; Pass_begins 1; Pass_begins 0].
Proof. reflexivity. Qed.
(** A signal during the first pass is remembered; no interval is ever armed. *)
Definition ex_early : list worker_event := [Main_settles true; Main_settles true; Signalled SIGTERM; Signalled SIGINT; Main_settles true; Main_settles true].
Example early_signal : (ex_life (ex_early ++ [Timer 0; Cleanup_settles true; Cleanup_settles true; Cleanup_settles false])).2 =
  [Pass_begins 0; Pass_begins 1; Cleanup_begins SIGTERM; Heartbeat_stops; Exits 0].
Proof. reflexivity. Qed.
(** When a first pass that is fatal fails after a signal, the process ends
    without the cleanup. *)
Example fatal_start_skips_cleanup : (ex_life [Main_settles true; Main_settles true; Signalled SIGTERM; Main_settles false; Cleanup_settles true]).2 = [Pass_begins 0; Exits 1].
Proof. reflexivity. Qed.
Lemma begun_cleanup_exits_witness : is_Some (cleanup (ex_life ex_early).1) ∧
  is_Some (exited (worker_run ex_ticks true [Cleanup_settles true; Signalled SIGINT; Cleanup_settles false; Main_settles true; Cleanup_settles true] (ex_life ex_early).1).1).
Proof.
  assert (is_Some (cleanup (ex_life ex_early).1)) as H by (vm_compute; by eexists). split; [exact H|].
  apply (begun_cleanup_exits ex_ticks true [Cleanup_settles true; Signalled SIGINT; Cleanup_settles false; Main_settles true; Cleanup_settles true] (ex_life ex_early).1 H).
  vm_compute. lia.
Defined.
