(* ===== verification/RconPoller.v ===== *)
(** What a supervised game server's poller does while its connection is up:
    [supervisor/server-poller.ts], [status-publisher.ts] and
    [roster-parse-guard.ts] of the RCON worker. *)
From S2P Require Import Prelude JsMap JsJson.

#[export] Instance json_eq_dec : EqDecision json.
Proof.
  refine (fix go (a b : json) : {a = b} + {a ≠ b} :=
    match a, b with
    | JNull, JNull => left eq_refl
    | JBool x, JBool y => cast_if (decide (x = y))
    | JNum x, JNum y | JStr x, JStr y => cast_if (decide (x = y))
    | JArr x, JArr y => cast_if (@list_eq_dec _ go x y)
    | JObj x, JObj y => cast_if (@list_eq_dec _ (@prod_eq_dec _ _ _ go) x y)
    | _, _ => right _
    end); congruence.
Defined.

(** * Who holds the client *)

Module Gate.
Inductive RconRefreshScope := Roster | Info.
#[export] Instance scope_eq_dec : EqDecision RconRefreshScope.
Proof. solve_decision. Defined.

(** The calls that hold the client between [pollInFlight = true] and their
    [finally]. A roster refresh started by [drainHints] goes on, when it has
    finished, with the info refresh if that was asked for too. A full poll
    clears its failures when it has its replies, and counts one when it throws,
    before or after. *)
Inductive poll_stage := Reading | Read_all | Threw.
Inductive op := Refresh_roster (drain : option bool) | Refresh_info | Full_poll (at_ : poll_stage).
#[export] Instance stage_eq_dec : EqDecision poll_stage.
Proof. solve_decision. Defined.
#[export] Instance op_eq_dec : EqDecision op.
Proof. solve_decision. Defined.

(** What happened, for the statements below: a hint that was accepted, a tick of
    the full poll, a read that began, and the end of a connection. *)
Inductive mark := Hinted (c : RconRefreshScope) | Ticked | Began (o : op) | Dropped.

Record poller := mkPoller {
  client : bool; stopped : bool; pollInFlight : bool; fullPollPending : bool; pendingHints : list RconRefreshScope;
  hintTimer : bool; followUpTimer : bool;
  (** [pollTimer], [rosterTimer] and [infoTimer] are set and cleared together. *)
  intervals : bool;
  consecutivePollFails : Z;
  (** The calls in flight, and the history. *)
  ops : list op; trail : list mark;
}.
Definition fresh : poller := mkPoller false false false false [] false false false 0 [] [].

Definition note (m : mark) (p : poller) : poller :=
  mkPoller (client p) (stopped p) (pollInFlight p) (fullPollPending p) (pendingHints p) (hintTimer p) (followUpTimer p) (intervals p) (consecutivePollFails p) (ops p) (trail p ++ [m]).
Definition with_hints (pending : list RconRefreshScope) (timer : bool) (p : poller) : poller :=
  mkPoller (client p) (stopped p) (pollInFlight p) (fullPollPending p) pending timer (followUpTimer p) (intervals p) (consecutivePollFails p) (ops p) (trail p).
Definition with_follow_up (armed : bool) (p : poller) : poller :=
  mkPoller (client p) (stopped p) (pollInFlight p) (fullPollPending p) (pendingHints p) (hintTimer p) armed (intervals p) (consecutivePollFails p) (ops p) (trail p).
Definition with_intervals (armed : bool) (p : poller) : poller :=
  mkPoller (client p) (stopped p) (pollInFlight p) (fullPollPending p) (pendingHints p) (hintTimer p) (followUpTimer p) armed (consecutivePollFails p) (ops p) (trail p).
Definition with_pending_poll (b : bool) (p : poller) : poller :=
  mkPoller (client p) (stopped p) (pollInFlight p) b (pendingHints p) (hintTimer p) (followUpTimer p) (intervals p) (consecutivePollFails p) (ops p) (trail p).
Definition with_flight (b : bool) (os : list op) (p : poller) : poller :=
  mkPoller (client p) (stopped p) b (fullPollPending p) (pendingHints p) (hintTimer p) (followUpTimer p) (intervals p) (consecutivePollFails p) os (trail p).
Definition with_client (b : bool) (p : poller) : poller :=
  mkPoller b (stopped p) (pollInFlight p) (fullPollPending p) (pendingHints p) (hintTimer p) (followUpTimer p) (intervals p) (consecutivePollFails p) (ops p) (trail p).
Definition with_stopped (p : poller) : poller :=
  mkPoller (client p) true (pollInFlight p) (fullPollPending p) (pendingHints p) (hintTimer p) (followUpTimer p) (intervals p) (consecutivePollFails p) (ops p) (trail p).
Definition with_fails (n : Z) (p : poller) : poller :=
  mkPoller (client p) (stopped p) (pollInFlight p) (fullPollPending p) (pendingHints p) (hintTimer p) (followUpTimer p) (intervals p) n (ops p) (trail p).

Definition add_scope (l : list RconRefreshScope) (c : RconRefreshScope) : list RconRefreshScope := if decide (c ∈ l) then l else l ++ [c].
Definition clearTimers (p : poller) : poller := with_intervals false (with_follow_up false (with_hints [] false p)).
Definition requestRefresh (scopes : list RconRefreshScope) (p : poller) : poller :=
  if negb (client p) || stopped p then p
  else
    let p := foldl (fun p c => note (Hinted c) p) p scopes in
    with_hints (foldl add_scope (pendingHints p) scopes) true p.
Definition begin (o : op) (p : poller) : poller := note (Began o) (with_flight true (ops p ++ [o]) p).
Definition refreshRoster (drain : option bool) (p : poller) : poller :=
  if negb (client p) || pollInFlight p then p else begin (Refresh_roster drain) p.
Definition refreshInfo (p : poller) : poller := if negb (client p) || pollInFlight p then p else begin Refresh_info p.
Definition runFullPoll (p : poller) : poller :=
  if negb (client p) then p
  else if pollInFlight p then with_pending_poll true p
  else begin (Full_poll Reading) (with_pending_poll false p).
Definition resumeDeferredPoll (p : poller) : poller := if fullPollPending p && negb (stopped p) then runFullPoll p else p.
Definition drainHints (p : poller) : poller :=
  let p := with_hints (pendingHints p) false p in
  if negb (client p) || stopped p || bool_decide (pendingHints p = []) then p
  else if pollInFlight p then with_hints (pendingHints p) true p
  else
    let scopes := pendingHints p in
    let p := with_hints [] false p in
    if decide (Roster ∈ scopes) then refreshRoster (Some (bool_decide (Info ∈ scopes))) p
    else if decide (Info ∈ scopes) then refreshInfo p else p.
(** The rest of [drainHints]. It runs in the microtasks after the refresh has
    returned, before anything else comes in. *)
Definition drain_goes_on (info : bool) (p : poller) : poller := let p := with_follow_up true p in if info then refreshInfo p else p.

(** ** Its events *)

Inductive event :=
| Dial | Authenticated (** the client is made; the connection is up *)
| Hint (scopes : list RconRefreshScope)
| Roster_tick | Info_tick | Poll_tick | Hint_due | Follow_up_due
| Replied (k : nat) | Throws (k : nat) | Settles (k : nat) (** of the call [ops !! k] *)
| Timers_cleared | Client_gone (** the teardown of a connection *)
| Stop.

Definition op_settles (k : nat) (o : op) (p : poller) : poller :=
  let p := with_flight false (delete k (ops p)) p in
  match o with
  | Refresh_roster None | Refresh_info => resumeDeferredPoll p
  | Refresh_roster (Some info) => drain_goes_on info (resumeDeferredPoll p)
  | Full_poll _ => p
  end.
(** The [catch] of a full poll, with the teardown after three failures. *)
Definition strike (p : poller) : poller :=
  let p := with_fails (consecutivePollFails p + 1) p in
  if 3 <=? consecutivePollFails p then note Dropped (with_client false (with_fails 0 p)) else p.
(** [None] when the event cannot happen. *)
Definition step (p : poller) (e : event) : option poller :=
  match e with
  | Dial => if client p || intervals p then None else Some (with_client true p)
  | Authenticated => if client p && negb (intervals p) then Some (requestRefresh [Roster; Info] (with_intervals true p)) else None
  | Hint scopes => Some (requestRefresh scopes p)
  | Roster_tick => if intervals p then Some (refreshRoster None p) else None
  | Info_tick => if intervals p then Some (if pollInFlight p then requestRefresh [Info] p else refreshInfo p) else None
  | Poll_tick => if intervals p then Some (runFullPoll (if client p then note Ticked p else p)) else None
  | Hint_due => if hintTimer p then Some (drainHints p) else None
  | Follow_up_due => if followUpTimer p then Some (refreshRoster None (with_follow_up false p)) else None
  | Replied k =>
      match ops p !! k with
      | Some (Full_poll Reading) => Some (with_fails 0 (with_flight (pollInFlight p) (<[k := Full_poll Read_all]> (ops p)) p))
      | _ => None
      end
  | Throws k =>
      match ops p !! k with
      | Some (Full_poll Reading) | Some (Full_poll Read_all) => Some (strike (with_flight (pollInFlight p) (<[k := Full_poll Threw]> (ops p)) p))
      | _ => None
      end
  | Settles k =>
      match ops p !! k with
      | Some (Full_poll Reading) | None => None
      | Some o => Some (op_settles k o p)
      end
  | Timers_cleared => Some (note Dropped (clearTimers p))
  | Client_gone => if intervals p then None else Some (note Dropped (with_client false p))
  | Stop => Some (note Dropped (with_stopped p))
  end.
Fixpoint run (p : poller) (es : list event) : option poller := match es with [] => Some p | e :: es => p ← step p e; run p es end.

(** ** What is owed *)

Definition covers (o : op) (c : RconRefreshScope) : bool :=
  match o, c with Refresh_roster _, Roster | Refresh_info, Info | Full_poll _, _ => true | _, _ => false end.
(** The scopes of hints no later read has covered, on this connection, and
    whether a tick is still owed its full poll. *)
Definition owed_step (acc : list RconRefreshScope) (m : mark) : list RconRefreshScope :=
  match m with Hinted c => c :: acc | Began o => jfilter (fun c => negb (covers o c)) acc | Dropped => [] | Ticked => acc end.
Definition owed (p : poller) : list RconRefreshScope := foldl owed_step [] (trail p).
Definition owed_poll_step (acc : bool) (m : mark) : bool := match m with Ticked => true | Began (Full_poll _) => false | _ => acc end.
Definition owed_poll (p : poller) : bool := foldl owed_poll_step false (trail p).

(** Where an owed scope is kept: with the hints, whose timer is set, or by a
    roster refresh that will go on with it. *)
Definition kept_for (p : poller) (c : RconRefreshScope) : Prop :=
  client p = true ∧ stopped p = false ∧ ((c ∈ pendingHints p ∧ hintTimer p = true) ∨ (c = Info ∧ Refresh_roster (Some true) ∈ ops p)).
Record gate_ok (p : poller) : Prop := {
  go_alone : (length (ops p) ≤ 1)%nat;
  go_flag : pollInFlight p = bool_decide (ops p ≠ []);
  go_owed : ∀ c, c ∈ owed p → kept_for p c;
  go_poll : owed_poll p = true → fullPollPending p = true;
}.

Lemma owed_note m p : owed (note m p) = owed_step (owed p) m.
Proof. unfold owed. cbn. by rewrite foldl_app. Qed.
Lemma owed_poll_note m p : owed_poll (note m p) = owed_poll_step (owed_poll p) m.
Proof. unfold owed_poll. cbn. by rewrite foldl_app. Qed.

Lemma elem_of_uncovered o l c : c ∈ jfilter (fun c => negb (covers o c)) l ↔ covers o c = false ∧ c ∈ l.
Proof. rewrite elem_of_jfilter. destruct (covers o c); naive_solver. Qed.
Lemma kept_ext p q c : client q = client p → stopped q = stopped p → pendingHints q = pendingHints p → hintTimer q = hintTimer p → ops q = ops p → kept_for p c → kept_for q c.
Proof. unfold kept_for. by intros -> -> -> -> ->. Qed.
(** Changing what the promises do not mention. *)
Lemma gate_ext p q : client q = client p → stopped q = stopped p → pollInFlight q = pollInFlight p → fullPollPending q = fullPollPending p → pendingHints q = pendingHints p →
  hintTimer q = hintTimer p → ops q = ops p → trail q = trail p → gate_ok p → gate_ok q.
Proof.
  intros Hc Hs Hf Hp Hh Ht Ho Htr [H1 H2 H3 H4]. split; [by rewrite Ho|rewrite Hf, Ho; exact H2| |].
  - intros c. unfold owed. rewrite Htr. intros Hin. by eapply kept_ext, H3.
  - unfold owed_poll. rewrite Htr, Hp. done.
Qed.
Lemma gate_dropped p : (length (ops p) ≤ 1)%nat → pollInFlight p = bool_decide (ops p ≠ []) → (owed_poll p = true → fullPollPending p = true) → gate_ok (note Dropped p).
Proof. intros H1 H2 H3. split; [done|done| |]; [intros c; rewrite owed_note; by intros ?%elem_of_nil|by rewrite owed_poll_note]. Qed.
Lemma gate_begin o p : ops p = [] → (∀ c, c ∈ owed p → covers o c = false → kept_for (begin o p) c) →
  (owed_poll p = true → fullPollPending p = true ∨ match o with Full_poll _ => True | _ => False end) → gate_ok (begin o p).
Proof.
  intros He Hc Hp. split; [cbn; by rewrite He|cbn; by rewrite He| |].
  - intros c. unfold begin at 1. rewrite owed_note. change (owed (with_flight true (ops p ++ [o]) p)) with (owed p). cbn [owed_step].
    rewrite elem_of_uncovered. intros [Hco Hin]. by apply Hc.
  - unfold begin at 1. rewrite owed_poll_note. change (owed_poll (with_flight true (ops p ++ [o]) p)) with (owed_poll p).
    destruct o; cbn; (done || (intros Ho; by destruct (Hp Ho))).
Qed.
Lemma idle_ops p : pollInFlight p = bool_decide (ops p ≠ []) → pollInFlight p = false → ops p = [].
Proof. intros -> H%bool_decide_eq_false. destruct (decide (ops p = [])); [done|]. by destruct H. Qed.
Lemma gate_foldl_hinted scopes p : client p = true → stopped p = false → hintTimer p = true → gate_ok p → (∀ c, c ∈ scopes → c ∈ pendingHints p) →
  gate_ok (foldl (fun p c => note (Hinted c) p) p scopes).
Proof.
  revert p. induction scopes as [|c scopes IH]; intros p Hc Hs Ht Hok Hin; [done|]. cbn. apply IH; [done|done|done| |intros c' Hc'; apply Hin; by right].
  destruct Hok as [H1 H2 H3 H4]. split; [done|done| |by rewrite owed_poll_note]. intros c'. rewrite owed_note. cbn. intros [->|Ho]%elem_of_cons; [|by apply H3].
  split_and!; [done|done|left]. split; [apply Hin; by left|done].
Qed.
Lemma elem_of_add_scope l c x : x ∈ add_scope l c ↔ x = c ∨ x ∈ l.
Proof. unfold add_scope. case_decide; set_solver. Qed.
Lemma elem_of_add_scopes l scopes x : x ∈ foldl add_scope l scopes ↔ x ∈ scopes ∨ x ∈ l.
Proof. revert l. induction scopes as [|c scopes IH]; intros l; cbn; [set_solver|]. rewrite IH, elem_of_add_scope. set_solver. Qed.
Lemma foldl_hinted_with scopes l t p : with_hints l t (foldl (fun p c => note (Hinted c) p) p scopes) = foldl (fun p c => note (Hinted c) p) (with_hints l t p) scopes.
Proof. revert p. induction scopes as [|c scopes IH]; intros p; [done|]. cbn. by rewrite IH. Qed.
Lemma foldl_hinted_pending scopes p : pendingHints (foldl (fun p c => note (Hinted c) p) p scopes) = pendingHints p.
Proof. revert p. induction scopes as [|c scopes IH]; intros p; [done|]. cbn. by rewrite IH. Qed.

Lemma gate_requestRefresh scopes p : gate_ok p → gate_ok (requestRefresh scopes p).
Proof.
  intros Hok. unfold requestRefresh. destruct (client p) eqn:Ec; [|done]. destruct (stopped p) eqn:Es; [done|]. cbn [negb orb].
  rewrite foldl_hinted_with, foldl_hinted_pending. apply gate_foldl_hinted; [done|done|done| |].
  - destruct Hok as [H1 H2 H3 H4]. split; [done|done| |done]. intros c Hc. destruct (H3 c Hc) as (_ & _ & [[Hp _]|Hr]); (split_and!; [done|done|]); [left|by right].
    split; [|done]. apply elem_of_add_scopes. by right.
  - intros c Hc. apply elem_of_add_scopes. by left.
Qed.
Lemma gate_refreshRoster d p : gate_ok p → gate_ok (refreshRoster d p).
Proof.
  intros Hok. unfold refreshRoster. destruct (client p) eqn:Ec; [|done]. destruct (pollInFlight p) eqn:Ef; [done|]. cbn [negb orb].
  pose proof (idle_ops p (go_flag _ Hok) Ef) as He. apply gate_begin; [done| |intros Ho; left; by apply (go_poll _ Hok)].
  intros c Hc _. destruct (go_owed _ Hok c Hc) as (H1 & H2 & [Hp|[_ Hr]]); [by split_and!; [..|left]|]. rewrite He in Hr. by apply elem_of_nil in Hr.
Qed.
(** The info refresh, when an info scope may be owed with no other keeper. *)
Lemma gate_refreshInfo p : (length (ops p) ≤ 1)%nat → pollInFlight p = bool_decide (ops p ≠ []) → (∀ c, c ∈ owed p → kept_for p c ∨ c = Info ∧ client p = true ∧ pollInFlight p = false) →
  (owed_poll p = true → fullPollPending p = true) → gate_ok (refreshInfo p).
Proof.
  intros H1 H2 H3 H4. unfold refreshInfo. destruct (client p) eqn:Ec; cbn [negb orb].
  - destruct (pollInFlight p) eqn:Ef.
    + split; [done|by rewrite Ef| |done]. intros c Hc. destruct (H3 c Hc) as [?|(_ & _ & ?)]; done.
    + pose proof (idle_ops p ltac:(by rewrite Ef) Ef) as He. apply gate_begin; [done| |intros Ho; left; by apply H4].
      intros c Hc Hco. destruct (H3 c Hc) as [(Hx & Hy & [Hp|[-> Hr]])|(-> & _)]; [by split_and!; [..|left]| |done]. done.
  - split; [done|done| |done]. intros c Hc. by destruct (H3 c Hc) as [?|(_ & ? & _)].
Qed.
Lemma gate_runFullPoll p : (length (ops p) ≤ 1)%nat → pollInFlight p = bool_decide (ops p ≠ []) →
  (∀ c, c ∈ owed p → kept_for p c ∨ pollInFlight p = false ∧ client p = true) → (owed_poll p = true → fullPollPending p = true ∨ client p = true) → gate_ok (runFullPoll p).
Proof.
  intros H1 H2 H3 H4. unfold runFullPoll. destruct (client p) eqn:Ec; cbn [negb].
  - destruct (pollInFlight p) eqn:Ef.
    + split; [done|by cbn; rewrite Ef| |done]. intros c Hc. by destruct (H3 c Hc) as [?|[? _]].
    + pose proof (idle_ops p ltac:(by rewrite Ef) Ef) as He. apply gate_begin; [done| |by right]. intros c _ Hco. by destruct c.
  - split; [done|done| |]; [intros c Hc; by destruct (H3 c Hc) as [?|[_ ?]]|intros Ho; by destruct (H4 Ho)].
Qed.
Lemma gate_weaken_poll p : gate_ok p → gate_ok (runFullPoll p).
Proof.
  intros [H1 H2 H3 H4]. apply gate_runFullPoll; [done|done| |]; [intros c Hc; left; by apply H3|intros Ho; left; by apply H4].
Qed.
Lemma gate_resume p : gate_ok p → gate_ok (resumeDeferredPoll p).
Proof. intros Hok. unfold resumeDeferredPoll. destruct (_ && _); [by apply gate_weaken_poll|done]. Qed.
Lemma gate_drainHints p : gate_ok p → hintTimer p = true → gate_ok (drainHints p).
Proof.
  intros Hok Ht. pose proof Hok as [H1 H2 H3 H4]. unfold drainHints. cbn [client stopped pendingHints pollInFlight with_hints].
  destruct (negb (client p) || stopped p || bool_decide (pendingHints p = [])) eqn:Eg.
  - split; [done|done| |done]. intros c Hc. destruct (H3 c Hc) as (Hx & Hy & [[Hp _]|Hr]); [exfalso|by split_and!; [..|right]].
    rewrite Hx, Hy in Eg. apply bool_decide_eq_true in Eg. rewrite Eg in Hp. by apply elem_of_nil in Hp.
  - apply orb_false_iff in Eg as [[Ec%negb_false_iff Es]%orb_false_iff _]. destruct (pollInFlight p) eqn:Ef; [by apply (gate_ext p)|].
    pose proof (idle_ops p ltac:(congruence) Ef) as He.
    assert (∀ c, c ∈ owed p → c ∈ pendingHints p) as Hin.
    { intros c Hc. destruct (H3 c Hc) as (_ & _ & [[Hp _]|[_ Hr]]); [done|]. rewrite He in Hr. by apply elem_of_nil in Hr. }
    set (p' := with_hints [] false _). case_decide as Hr.
    + unfold refreshRoster. cbn [client pollInFlight p' with_hints]. rewrite Ec, Ef. cbn [negb orb].
      apply gate_begin; [done| |intros Ho; left; by apply H4]. intros c Hc Hco. destruct c; [done|].
      split_and!; [done|done|right; split; [done|]]. cbn. rewrite He, bool_decide_eq_true_2 by by apply Hin. by left.
    + assert (∀ c, c ∈ owed p → c = Info) as Hinfo by (intros c Hc; destruct c; [by destruct Hr; apply Hin|done]).
      case_decide as Hi; [apply gate_refreshInfo; [done|by cbn; rewrite Ef| |done]; intros c Hc; right; by split_and!; [apply Hinfo|..]|].
      split; [done|cbn; congruence| |done]. intros c Hc. destruct Hi. rewrite <- (Hinfo c Hc). by apply Hin.
Qed.
Lemma sole_op p k o : (length (ops p) ≤ 1)%nat → ops p !! k = Some o → ops p = [o] ∧ k = 0%nat.
Proof. destruct (ops p) as [|o1 [|o2 l]]; cbn; [by rewrite lookup_nil|intros _; by destruct k; [intros [= ->]|]|lia]. Qed.
Lemma gate_drained_none p : gate_ok p → gate_ok (drain_goes_on false p).
Proof. by apply gate_ext. Qed.
Lemma gate_settle p k o : gate_ok p → ops p !! k = Some o → gate_ok (op_settles k o p).
Proof.
  intros [H1 H2 H3 H4] Hk. destruct (sole_op p k o H1 Hk) as [Ho ->]. unfold op_settles. rewrite Ho. change (delete 0%nat [o]) with (@nil op). set (p1 := with_flight false [] p).
  assert (o ≠ Refresh_roster (Some true) → gate_ok p1) as Hidle.
  { intros Hne. split; [cbn; lia|done| |done]. intros c Hc. destruct (H3 c Hc) as (Hx & Hy & [Hp|[_ Hr]]); [by split_and!; [..|left]|].
    rewrite Ho in Hr. by apply list_elem_of_singleton in Hr as <-. }
  destruct o as [[[]|]| |st]; [|apply gate_drained_none, gate_resume; by apply Hidle|by apply gate_resume, Hidle|by apply gate_resume, Hidle|by apply Hidle].
  (* a drain_goes_on roster refresh that goes on with the info refresh *)
  assert (∀ c, c ∈ owed p → kept_for p1 c ∨ c = Info ∧ client p1 = true ∧ pollInFlight p1 = false) as Howed.
  { intros c Hc. destruct (H3 c Hc) as (Hx & Hy & [Hp|[-> _]]); [left; by split_and!; [..|left]|by right]. }
  unfold drain_goes_on, resumeDeferredPoll. destruct (fullPollPending p1 && negb (stopped p1)) eqn:Eg.
  - assert (gate_ok (runFullPoll p1)) as Hok.
    { apply gate_runFullPoll; [cbn; lia|done| |intros Hq; left; by apply H4]. intros c Hc. destruct (Howed c Hc) as [?|(_ & ? & ?)]; [by left|by right]. }
    apply gate_refreshInfo; [apply Hok|apply Hok| |apply Hok]. intros c Hc. left. by apply (go_owed _ Hok).
  - apply gate_refreshInfo; [cbn; lia|done|exact Howed|done].
Qed.
Lemma gate_strike p : gate_ok p → gate_ok (strike p).
Proof.
  intros Hok. unfold strike. cbv zeta. destruct (3 <=? _); [|by apply (gate_ext p)]. destruct Hok as [H1 H2 H3 H4]. by apply gate_dropped.
Qed.
(** A call that stays in flight. *)
Lemma gate_stage p k st st' : gate_ok p → ops p !! k = Some (Full_poll st) → gate_ok (with_flight (pollInFlight p) (<[k := Full_poll st']> (ops p)) p).
Proof.
  intros [H1 H2 H3 H4] Hk. destruct (sole_op p k _ H1 Hk) as [Ho ->]. split; [cbn; by rewrite length_insert|cbn; rewrite H2, Ho; done| |done].
  intros c Hc. destruct (H3 c Hc) as (Hx & Hy & [Hp|[_ Hr]]); [by split_and!; [..|left]|]. rewrite Ho in Hr. by apply list_elem_of_singleton in Hr.
Qed.
Lemma gate_step p e p' : gate_ok p → step p e = Some p' → gate_ok p'.
Proof.
  intros Hok. pose proof Hok as [H1 H2 H3 H4]. destruct e as [| |scopes| | | | | |k|k|k| | |]; cbn [step].
  - destruct (client p) eqn:Ec; [done|]. destruct (intervals p); [done|]. cbn. intros [= <-]. split; [done|done| |done]. intros c Hc. by destruct (H3 c Hc) as (? & _); congruence.
  - destruct (client p && _); [|done]. intros [= <-]. apply gate_requestRefresh. by apply (gate_ext p).
  - intros [= <-]. by apply gate_requestRefresh.
  - destruct (intervals p); [|done]. intros [= <-]. by apply gate_refreshRoster.
  - destruct (intervals p); [|done]. intros [= <-]. destruct (pollInFlight p) eqn:Ef; [by apply gate_requestRefresh|].
    apply gate_refreshInfo; [done|by rewrite Ef| |done]. intros c Hc. left. by apply H3.
  - destruct (intervals p); [|done]. intros [= <-]. destruct (client p) eqn:Ec; [|by apply gate_weaken_poll]. apply gate_runFullPoll; [done|done| |intros _; by right].
    intros c Hc. left. rewrite owed_note in Hc. by apply H3.
  - destruct (hintTimer p) eqn:Et; [|done]. intros [= <-]. by apply gate_drainHints.
  - destruct (followUpTimer p); [|done]. intros [= <-]. apply gate_refreshRoster. by apply (gate_ext p).
  - destruct (ops p !! k) as [[| |[]]|] eqn:Ek; try done. intros [= <-]. eapply (gate_ext (with_flight _ _ p)), gate_stage; try done; exact Ek.
  - destruct (ops p !! k) as [[| |[]]|] eqn:Ek; try done; intros [= <-]; (eapply gate_strike, gate_stage; [done|exact Ek]).
  - destruct (ops p !! k) as [[| |[]]|] eqn:Ek; try done; intros E; apply Some_inj in E as <-; by apply gate_settle.
  - intros [= <-]. by apply gate_dropped.
  - destruct (intervals p); [done|]. intros [= <-]. by apply gate_dropped.
  - intros [= <-]. by apply gate_dropped.
Qed.
Lemma gate_run es p p' : gate_ok p → run p es = Some p' → gate_ok p'.
Proof.
  revert p. induction es as [|e es IH]; intros p Hok; cbn; [by intros [= <-]|]. destruct (step p e) as [p1|] eqn:E; [|done]. apply IH. by eapply gate_step.
Qed.
Lemma gate_fresh : gate_ok fresh.
Proof. split; [cbn; lia|done| |done]. by intros c ?%elem_of_nil. Qed.

Lemma owed_begin o p c : c ∈ owed (begin o p) ↔ covers o c = false ∧ c ∈ owed p.
Proof. unfold begin. rewrite owed_note. apply elem_of_uncovered. Qed.
Lemma begins_info p : client p = true → pollInFlight p = false → refreshInfo p = begin Refresh_info p.
Proof. unfold refreshInfo. by intros -> ->. Qed.
Lemma busy_info p : pollInFlight p = true → refreshInfo p = p.
Proof. unfold refreshInfo. intros ->. by rewrite orb_true_r. Qed.
Lemma begins_roster d p : client p = true → pollInFlight p = false → refreshRoster d p = begin (Refresh_roster d) p.
Proof. unfold refreshRoster. by intros -> ->. Qed.
Lemma begins_poll p : client p = true → pollInFlight p = false → runFullPoll p = begin (Full_poll Reading) (with_pending_poll false p).
Proof. unfold runFullPoll. by intros -> ->. Qed.
(** The end of a drain_goes_on roster refresh that also owes the info. *)
Lemma info_follows p : ops p = [Refresh_roster (Some true)] → client p = true → ∃ p', step p (Settles 0) = Some p' ∧ Info ∉ owed p'.
Proof.
  intros Ho Hc. eexists. split; [cbn [step]; by rewrite Ho|]. cbn [op_settles]. rewrite Ho. change (delete 0%nat [Refresh_roster (Some true)]) with (@nil op).
  unfold drain_goes_on, resumeDeferredPoll. destruct (_ && _).
  - rewrite begins_poll, busy_info by done. match goal with |- _ ∉ owed (with_follow_up true ?q) => change (Info ∉ owed q) end. rewrite owed_begin. by intros [? _].
  - rewrite begins_info by done. rewrite owed_begin. by intros [? _].
Qed.
Lemma served_when_idle p c : gate_ok p → c ∈ owed p → ops p = [] →
  ∃ later p', (later = [Hint_due] ∨ later = [Hint_due; Settles 0]) ∧ run p later = Some p' ∧ c ∉ owed p'.
Proof.
  intros Hok Hin He. destruct (go_owed _ Hok c Hin) as (Hc & Hs & [[Hp Ht]|[_ Hr]]); [|rewrite He in Hr; by apply elem_of_nil in Hr].
  assert (pollInFlight p = false) as Hf by by rewrite (go_flag _ Hok), He.
  assert (step p Hint_due = Some (drainHints p)) as Hstep by by cbn; rewrite Ht.
  unfold drainHints in Hstep. cbn [client stopped pendingHints pollInFlight with_hints] in Hstep. rewrite Hc, Hs, Hf in Hstep. cbn [negb orb] in Hstep.
  rewrite bool_decide_eq_false_2 in Hstep by (intros E; rewrite E in Hp; by apply elem_of_nil in Hp).
  case_decide as Hro.
  - rewrite begins_roster in Hstep by done. destruct c; [eexists _, _; split; [by left|]; cbn [run]; rewrite Hstep; split; [done|]; rewrite owed_begin; by intros [? _]|].
    rewrite bool_decide_eq_true_2 in Hstep by done. set (q := begin _ _) in Hstep.
    destruct (info_follows q) as (p' & Hs' & Hn); [by unfold q; cbn; rewrite He|done|].
    eexists _, p'. split; [by right|]. cbn [run]. rewrite Hstep. cbn [mbind option_bind]. by rewrite Hs'.
  - destruct c; [done|]. case_decide; [|done]. rewrite begins_info in Hstep by done.
    eexists _, _. split; [by left|]. cbn [run]. rewrite Hstep. split; [done|]. rewrite owed_begin. by intros [? _].
Qed.
Lemma poll_follows p k p' : gate_ok p → (∃ d, ops p !! k = Some (Refresh_roster d)) ∨ ops p !! k = Some Refresh_info → client p = true → stopped p = false →
  step p (Settles k) = Some p' → fullPollPending p = true → ops p' = [Full_poll Reading] ∧ owed_poll p' = false.
Proof.
  intros Hok Hk Hc Hs Hstep Hp.
  assert (resumeDeferredPoll (with_flight false [] p) = begin (Full_poll Reading) (with_pending_poll false (with_flight false [] p))) as Er.
  { unfold resumeDeferredPoll. cbn. rewrite Hp, Hs. by apply begins_poll. }
  assert (∀ o, ops p !! k = Some o → delete k (ops p) = []) as Hd by (intros o E; by destruct (sole_op p k o (go_alone _ Hok) E) as [-> ->]).
  destruct Hk as [[d Hk]|Hk]; cbn [step] in Hstep; rewrite Hk in Hstep; apply Some_inj in Hstep as <-; unfold op_settles; rewrite (Hd _ Hk), Er.
  - destruct d as [[]|].
    + unfold drain_goes_on. rewrite busy_info by done. split; [done|]. unfold owed_poll. cbn. by rewrite foldl_app.
    + split; [done|]. unfold owed_poll. cbn. by rewrite foldl_app.
    + split; [done|]. unfold owed_poll. cbn. by rewrite foldl_app.
  - split; [done|]. unfold owed_poll. cbn. by rewrite foldl_app.
Qed.

(** C19: In any interleaving of timers, hints, replies, disconnects and stops, at
    most one refresh or poll holds the RCON client; a hinted scope that no later
    read has covered on this connection is kept, and once the client is free
    the hint timer, with at most the end of the read it starts, has it read; a
    tick of the full poll that found the client taken is kept, and the poll
    starts the moment a lighter refresh ends while the server is connected. *)
Theorem refreshes_served es p : run fresh es = Some p →
  (length (ops p) ≤ 1)%nat ∧
  (∀ c, c ∈ owed p → kept_for p c ∧ (ops p = [] → ∃ later p', (later = [Hint_due] ∨ later = [Hint_due; Settles 0]) ∧ run p later = Some p' ∧ c ∉ owed p')) ∧
  (owed_poll p = true → fullPollPending p = true ∧
    ∀ k p', (∃ d, ops p !! k = Some (Refresh_roster d)) ∨ ops p !! k = Some Refresh_info → client p = true → stopped p = false → step p (Settles k) = Some p' →
      ops p' = [Full_poll Reading] ∧ owed_poll p' = false).
Proof.
  intros Hok%gate_run; [|exact gate_fresh]. pose proof Hok as [H1 H2 H3 H4]. split_and!; [done| |].
  - intros c Hc. split; [by apply H3|]. intros He. by apply served_when_idle.
  - intros Ho. split; [by apply H4|]. intros k p' Hk Hcl Hs. intros Hst. eapply poll_follows; [done|exact Hk|done|done|exact Hst|by apply H4].
Qed.
End Gate.

(** * What the panel is told *)

Module Status.
Inductive connection_state := Connected | Disconnected | Connecting.
#[export] Instance connection_eq_dec : EqDecision connection_state.
Proof. solve_decision. Defined.
Definition PUBLISHED_STATUS_FIELDS : list jstr :=
  [js "player_count"; js "squad_count"; js "current_map"; js "next_level"; js "next_layer"; js "game_mode"; js "public_queue"; js "roster_parse_error"].

Record RosterEntry := mkEntry {
  rcon_id : Z; eos_id : jstr; steam_id64 : option jstr; name : jstr; team_id : option Z; squad_id : option Z; is_leader : bool; role : option jstr; first_seen_at : Z;
}.
(** A signature is compared as the text [JSON.stringify] gives for it; such
    texts are equal exactly when the values are. *)
Definition status_signature := list json.
Definition roster_signature : Type := list (Z * jstr * jstr * option Z * option Z * bool * option jstr).
Record publisher := mkPublisher { connectedStatus : list (jstr * json); lastPublishedStatus : option status_signature; lastPublishedRoster : option roster_signature }.
Definition new_publisher : publisher := mkPublisher [] None None.

(** The keys in Redis and the messages that reached it, oldest first. *)
Record StatusValue := mkStatus { st_state : connection_state; st_body : list (jstr * json) }.
Record Announcement := mkAnnouncement { an_state : connection_state; an_count : option json; an_fields : option status_signature }.
Record panel_redis := mkRedis {
  status_key : option StatusValue; roster_key : option (list RosterEntry);
  announced : list Announcement; rosters_announced : list (list RosterEntry);
}.
Definition empty_redis : panel_redis := mkRedis None None [] [].

Definition merge_field (m : list (jstr * json)) (e : jstr * option json) : list (jstr * json) := match e.2 with Some v => map_set m e.1 v | None => m end.
Definition panel_fields (status : list (jstr * json)) : status_signature := (fun f => default JNull (map_get status f)) <$> PUBLISHED_STATUS_FIELDS.
(** Only the values that are not [undefined] are serialised. *)
Definition defined_fields (extra : list (jstr * option json)) : list (jstr * json) := omap (fun e => pair e.1 <$> e.2) extra.
(** Whether the SET and the PUBLISH go through is the environment's choice. *)
Record fate := mkFate { set_ok : bool; publish_ok : bool }.
Definition is_number (v : json) : bool := match v with JNum _ => true | _ => false end.
Definition player_count_of (body : list (jstr * json)) : option json := v ← map_get body (js "player_count"); if is_number v then Some v else None.

Definition writeStatus (state : connection_state) (extra : list (jstr * option json)) (f : fate) (p : publisher) (r : panel_redis) : publisher * panel_redis :=
  let connected := if decide (state = Connected) then foldl merge_field (connectedStatus p) extra else [] in
  let body := if decide (state = Connected) then connected else defined_fields extra in
  let signature := if decide (state = Connected) then Some (panel_fields connected) else None in
  let r := if set_ok f then mkRedis (Some (mkStatus state body)) (roster_key r) (announced r) (rosters_announced r) else r in
  if bool_decide (signature ≠ None) && bool_decide (signature = lastPublishedStatus p) then (mkPublisher connected (lastPublishedStatus p) (lastPublishedRoster p), r)
  else if publish_ok f
  then (mkPublisher connected signature (lastPublishedRoster p), mkRedis (status_key r) (roster_key r) (announced r ++ [mkAnnouncement state (player_count_of body) signature]) (rosters_announced r))
  else (mkPublisher connected None (lastPublishedRoster p), r).

Definition signature_row (e : RosterEntry) : Z * jstr * jstr * option Z * option Z * bool * option jstr :=
  (rcon_id e, eos_id e, name e, team_id e, squad_id e, is_leader e, role e).
Definition signature_of (entries : list RosterEntry) : roster_signature :=
  let row_id (x : Z * jstr * jstr * option Z * option Z * bool * option jstr) := x.1.1.1.1.1.1 in
  jsort (fun a b => row_id a - row_id b) (signature_row <$> entries).
Definition writeRoster (entries : list RosterEntry) (f : fate) (p : publisher) (r : panel_redis) : publisher * panel_redis :=
  let r := if set_ok f then mkRedis (status_key r) (Some entries) (announced r) (rosters_announced r) else r in
  let signature := signature_of entries in
  if bool_decide (Some signature = lastPublishedRoster p) then (p, r)
  else if publish_ok f
  then (mkPublisher (connectedStatus p) (lastPublishedStatus p) (Some signature), mkRedis (status_key r) (roster_key r) (announced r) (rosters_announced r ++ [entries]))
  else (mkPublisher (connectedStatus p) (lastPublishedStatus p) None, r).

Inductive write := Write_status (state : connection_state) (extra : list (jstr * option json)) | Write_roster (entries : list RosterEntry).
Definition write_one (w : write) (f : fate) (p : publisher) (r : panel_redis) : publisher * panel_redis :=
  match w with Write_status state extra => writeStatus state extra f p r | Write_roster entries => writeRoster entries f p r end.
Fixpoint writes (ws : list (write * fate)) (p : publisher) (r : panel_redis) : publisher * panel_redis :=
  match ws with [] => (p, r) | (w, f) :: ws => let '(p, r) := write_one w f p r in writes ws p r end.

(** ** What holds after any writes *)

(** The patches that count for the connected fields: those since the last write
    of another state. *)
Definition patches_step (acc : list (jstr * option json)) (w : write * fate) : list (jstr * option json) :=
  match w.1 with Write_status Connected extra => acc ++ extra | Write_status _ _ => [] | Write_roster _ => acc end.
Definition patches (ws : list (write * fate)) : list (jstr * option json) := foldl patches_step [] ws.
Record publisher_ok (ws : list (write * fate)) (p : publisher) (r : panel_redis) : Prop := {
  po_fields : connectedStatus p = foldl merge_field [] (patches ws);
  po_status : ∀ s, lastPublishedStatus p = Some s → ∃ n, last (announced r) = Some (mkAnnouncement Connected n (Some s));
  po_roster : ∀ s, lastPublishedRoster p = Some s → ∃ es, last (rosters_announced r) = Some es ∧ signature_of es = s;
}.
Lemma publisher_write ws w f p r : publisher_ok ws p r →
  let '(p', r') := write_one w f p r in publisher_ok (ws ++ [(w, f)]) p' r'.
Proof.
  intros [H1 H2 H3]. destruct w as [state extra|entries]; cbn [write_one].
  - unfold writeStatus. cbv zeta.
    assert (∀ p0, (if decide (state = Connected) then foldl merge_field (connectedStatus p) extra else []) = p0 → p0 = foldl merge_field [] (patches (ws ++ [(Write_status state extra, f)]))) as Hf.
    { intros p0 <-. unfold patches. rewrite foldl_snoc. unfold patches_step at 1. cbn. destruct state; cbn; [|done..]. rewrite foldl_app. by rewrite H1. }
    specialize (Hf _ eq_refl). destruct (_ && _) eqn:Eg; [|destruct (publish_ok f)].
    + split; [done| |]; by destruct (set_ok f).
    + split; [done| |by destruct (set_ok f)]. cbn. intros s. case_decide as Es; [|done]. intros [= <-]. subst state. eexists. by rewrite last_snoc.
    + split; [done|done|by destruct (set_ok f)].
  - unfold writeRoster. cbv zeta.
    assert (patches (ws ++ [(Write_roster entries, f)]) = patches ws) as Hp by (unfold patches; by rewrite foldl_snoc).
    case_bool_decide as Eg; [|destruct (publish_ok f)].
    + split; [by rewrite Hp| |]; by destruct (set_ok f).
    + split; [by rewrite Hp|by destruct (set_ok f)|]. cbn. intros s [= <-]. exists entries. by rewrite last_snoc.
    + split; [by rewrite Hp|by destruct (set_ok f)|done].
Qed.
Lemma writes_app ws ws' p r : writes (ws ++ ws') p r = let '(p, r) := writes ws p r in writes ws' p r.
Proof. revert p r. induction ws as [|[w f] ws IH]; intros p r; [done|]. cbn. destruct (write_one w f p r). apply IH. Qed.
Lemma publisher_writes ws : let '(p, r) := writes ws new_publisher empty_redis in publisher_ok ws p r.
Proof.
  induction ws as [|[w f] ws IH] using rev_ind; [by split|]. rewrite writes_app. destruct (writes ws _ _) as [p r]. cbn.
  pose proof (publisher_write ws w f p r IH) as Hw. by destruct (write_one w f p r).
Qed.

(** After any sequence of status and roster writes, whatever Redis refused
    on the way, a status write whose message is not refused leaves the panel's
    last message about this server with the state and the published fields now
    in force, whether or not it sent one; so does a roster write with the
    composition of the roster. Each field in force is the last one read since
    the connection came up. *)
Theorem panel_told ws w f p r : writes (ws ++ [(w, f)]) new_publisher empty_redis = (p, r) → publish_ok f = true →
  match w with
  | Write_status state extra =>
      (∃ n, last (announced r) = Some (mkAnnouncement state n (if decide (state = Connected) then Some (panel_fields (connectedStatus p)) else None))) ∧
      connectedStatus p = foldl merge_field [] (patches (ws ++ [(w, f)])) ∧
      (set_ok f = true → status_key r = Some (mkStatus state (if decide (state = Connected) then connectedStatus p else defined_fields extra)))
  | Write_roster entries => (∃ es, last (rosters_announced r) = Some es ∧ signature_of es = signature_of entries) ∧ (set_ok f = true → roster_key r = Some entries)
  end.
Proof.
  intros Hrun Hf. pose proof (publisher_writes (ws ++ [(w, f)])) as Hok'. rewrite Hrun in Hok'. rewrite writes_app in Hrun.
  pose proof (publisher_writes ws) as Hok. destruct (writes ws _ _) as [p0 r0]. cbn in Hrun. destruct w as [state extra|entries]; cbn [write_one] in Hrun.
  - destruct (writeStatus state extra f p0 r0) as [p1 r1] eqn:Ew. injection Hrun as -> ->. split; [|split; [apply Hok'|]].
    + revert Ew. unfold writeStatus. cbv zeta. rewrite Hf. case_decide as Es.
      * subst state. rewrite (bool_decide_eq_true_2 (Some _ ≠ None)) by done. cbn [andb]. case_bool_decide as E2; intros [= <- <-]; cbn.
        -- destruct (po_status _ _ _ Hok _ (eq_sym E2)) as [n Hn]. exists n. by destruct (set_ok f).
        -- eexists. by rewrite last_snoc.
      * rewrite bool_decide_eq_false_2 by tauto. cbn. intros [= <- <-]. eexists. cbn. by rewrite last_snoc.
    + intros Hset. revert Ew. unfold writeStatus. cbv zeta. rewrite Hf, Hset. destruct (_ && _); intros [= <- <-]; cbn; by case_decide.
  - destruct (writeRoster entries f p0 r0) as [p1 r1] eqn:Ew. injection Hrun as -> ->. revert Ew. unfold writeRoster. cbv zeta. rewrite Hf.
    case_bool_decide as E; intros [= <- <-]; (split; [|by intros ->]); cbn.
    + destruct (po_roster _ _ _ Hok _ (eq_sym E)) as (es & Hl & Hs). exists es. by destruct (set_ok f).
    + exists entries. by rewrite last_snoc.
Qed.
End Status.

(** * What a reply is worth *)

Module Roster.
Record RconPlayer := mkPlayer {
  rcon_id : Z; eos_id : jstr; steam_id64 : option jstr; name : jstr; team_id : option Z; squad_id : option Z; is_leader : option bool; role : option jstr;
}.
(** What the parsers return: what they read, the rows the reply had and those
    they could not read. Squads are left to the parser. *)
Record ListPlayersParse := mkPlayersParse { players : list RconPlayer; activeRows : Z; unparsedPlayers : list jstr }.
Record ListSquadsParse (squad : Type) := mkSquadsParse { squads : list squad; squadRows : Z; unparsedSquads : list jstr }.
#[global] Arguments mkSquadsParse {squad}. #[global] Arguments squads {squad}. #[global] Arguments squadRows {squad}. #[global] Arguments unparsedSquads {squad}.
Inductive RosterParseProblem := Problem_players | Problem_squads.
Record RosterRead (squad : Type) := mkRead { rd_players : list RconPlayer; rd_squads : list squad; playersOk : bool; squadsOk : bool; problems : option (list RosterParseProblem) }.
#[global] Arguments mkRead {squad}. #[global] Arguments rd_players {squad}. #[global] Arguments rd_squads {squad}.
#[global] Arguments playersOk {squad}. #[global] Arguments squadsOk {squad}. #[global] Arguments problems {squad}.

(** ** The guard and its warnings *)

Definition WARN_INTERVAL_MS : Z := 60000.
Record guard := mkGuard { lastWarnAt : list (jstr * Z); warned : list (jstr * Z) }.
Definition new_guard : guard := mkGuard [] [].
Definition warn (key : jstr) (now : Z) (g : guard) : guard :=
  match map_get (lastWarnAt g) key with
  | Some at_ => if now - at_ <? WARN_INTERVAL_MS then g else mkGuard (map_set (lastWarnAt g) key now) (warned g ++ [(key, now)])
  | None => mkGuard (map_set (lastWarnAt g) key now) (warned g ++ [(key, now)])
  end.
Definition inspect {squad} (ps : ListPlayersParse) (ss : ListSquadsParse squad) (now : Z) (g : guard) : guard * RosterRead squad :=
  let no_players := (0 <? activeRows ps) && bool_decide (length (players ps) = 0%nat) in
  let no_squads := (0 <? squadRows ss) && bool_decide (length (squads ss) = 0%nat) in
  let g := if no_players then warn (js "players") now g else g in
  let g := if no_squads then warn (js "squads") now g else g in
  let found := (if no_players then [Problem_players] else []) ++ (if no_squads then [Problem_squads] else []) in
  (g, mkRead (players ps) (squads ss) (negb no_players) (negb no_squads) (if bool_decide (found = []) then None else Some found)).
Section Guard.
Context (trim : jstr → jstr).
Definition inspectServerInfo (rawInfo : jstr) (map_name : option jstr) (now : Z) (g : guard) : guard :=
  if bool_decide (trim rawInfo = []) || match map_name with Some m => negb (bool_decide (m = [])) | None => false end then g else warn (js "server_info") now g.
Definition inspectNextMap (rawNextMap : jstr) (parsed : bool) (now : Z) (g : guard) : guard :=
  if bool_decide (trim rawNextMap = []) || parsed then g else warn (js "next_map") now g.
End Guard.

(** ** The roster and when each player was first seen *)

Record snapshot := mkSnapshot { entries : list Status.RosterEntry; firstSeen : list (jstr * Z) }.
Fixpoint build_entries (ps : list RconPlayer) (previous : list (jstr * Z)) (polledAt : Z) (seen : list (jstr * Z)) : list Status.RosterEntry * list (jstr * Z) :=
  match ps with
  | [] => ([], seen)
  | p :: ps =>
      let seenAt := default polledAt (map_get previous (eos_id p)) in
      let '(es, seen) := build_entries ps previous polledAt (map_set seen (eos_id p) seenAt) in
      (Status.mkEntry (rcon_id p) (eos_id p) (steam_id64 p) (name p) (team_id p) (squad_id p) (default false (is_leader p)) (role p) seenAt :: es, seen)
  end.
Definition buildRoster (ps : list RconPlayer) (previous : list (jstr * Z)) (polledAt : Z) : snapshot :=
  let '(es, seen) := build_entries ps previous polledAt [] in mkSnapshot es seen.

Lemma build_entries_seen ps previous polledAt seen k :
  map_get (build_entries ps previous polledAt seen).2 k =
  if bool_decide (k ∈ eos_id <$> ps) then Some (default polledAt (map_get previous k)) else map_get seen k.
Proof.
  revert seen. induction ps as [|p ps IH]; intros seen; [done|]. cbn [build_entries]. specialize (IH (map_set seen (eos_id p) (default polledAt (map_get previous (eos_id p))))).
  destruct (build_entries ps previous polledAt _) as [es m]. cbn [snd] in *. rewrite IH, map_get_set. cbn [fmap list_fmap].
  repeat case_bool_decide; set_solver.
Qed.
Lemma buildRoster_seen ps previous polledAt k :
  map_get (firstSeen (buildRoster ps previous polledAt)) k = if bool_decide (k ∈ eos_id <$> ps) then Some (default polledAt (map_get previous k)) else None.
Proof. unfold buildRoster. pose proof (build_entries_seen ps previous polledAt [] k) as E. by destruct (build_entries _ _ _ _). Qed.

(** ** The alarms of a full poll *)

(** Three polls in a row whose tickrate is below four fifths of the configured
    one, and each further one, emit [performance.degraded] with their number;
    [below] is the comparison, [None] when the reply carried no tickrate. *)
Definition low_tick (below : option bool) (consecutiveLowTick : Z) : Z * option Z :=
  match below with
  | None => (consecutiveLowTick, None)
  | Some true => (consecutiveLowTick + 1, if 3 <=? consecutiveLowTick + 1 then Some (consecutiveLowTick + 1) else None)
  | Some false => (0, None)
  end.
End Roster.

(** * Example runs *)

(** A hint and a tick come while the refresh of a new connection is running. *)
Notation ex_busy := [Gate.Dial; Gate.Authenticated; Gate.Hint_due; Gate.Poll_tick; Gate.Hint [Gate.Roster]; Gate.Hint_due].
Lemma refreshes_served_witness : ∃ p, Gate.run Gate.fresh ex_busy = Some p ∧ Gate.owed p = [Gate.Roster; Gate.Info] ∧ Gate.kept_for p Gate.Roster ∧
  ∃ p', Gate.step p (Gate.Settles 0) = Some p' ∧ Gate.ops p' = [Gate.Full_poll Gate.Reading].
Proof.
  eexists. split; [vm_compute; reflexivity|]. match goal with |- _ ∧ Gate.kept_for ?p _ ∧ _ => set (q := p) end.
  destruct (Gate.refreshes_served ex_busy q eq_refl) as (_ & Hk & Hp). split; [reflexivity|]. split; [apply Hk; vm_compute; left|].
  destruct (Hp eq_refl) as [_ Hend]. destruct (Gate.step q (Gate.Settles 0)) as [p'|] eqn:E; [|discriminate E]. exists p'. split; [reflexivity|].
  apply (Hend 0%nat p'); [left; exists (Some true); reflexivity|reflexivity|reflexivity|exact E].
Defined.

(** The first message is refused; the second write says the same and is sent,
    the third is not. *)
Notation ex_patch := [(js "player_count", Some (JNum (js "40"))); (js "current_map", Some (JStr (js "Narva")))].
Notation ex_writes := [(Status.Write_status Status.Connected ex_patch, Status.mkFate true false); (Status.Write_status Status.Connected [], Status.mkFate false true)].
Notation ex_last := (Status.Write_status Status.Connected [(js "tickrate_rt", Some (JNum (js "49"))); (js "current_map", None)], Status.mkFate true true).
Notation ex_end := (Status.writes (ex_writes ++ [ex_last]) Status.new_publisher Status.empty_redis).
Lemma panel_told_witness : length (Status.announced ex_end.2) = 1%nat ∧
  ∃ n, last (Status.announced ex_end.2) = Some (Status.mkAnnouncement Status.Connected n (Some (Status.panel_fields (Status.connectedStatus ex_end.1)))).
Proof.
  split; [vm_compute; reflexivity|].
  exact (proj1 (Status.panel_told ex_writes ex_last.1 ex_last.2 ex_end.1 ex_end.2 (surjective_pairing _) eq_refl)).
Defined.
