(* ===== verification/PlayerIdentity.v ===== *)
(** Who a player is: the writers of the [players] table that find a person by
    EOS id and SteamID, create the row and fill what is missing:
    [apps/workers/rcon/src/persist.ts], the log-ingest worker's
    [player-identity/store.ts], [create-player.ts] and [combat/store.ts], and
    the login of [apps/api/src/lib/authenticated-player.ts]. They run
    interleaved, on the stale rows they have read. *)
From S2P Require Import Prelude JsString Interleave.

(** * Normal names *)

(** What the language knows of letters: [\p{L}] of a code point, and
    [toLowerCase]. *)
Class Letters := { is_letter : Z → bool; toLowerCase : jstr → jstr }.

Section Names.
Context `{Letters}.

(** The first code point, and the units after it. *)
Definition next_point (s : jstr) : option (Z * jstr) :=
  match s with
  | [] => None
  | h :: (l :: rest) as all =>
      if (0xD800 <=? h) && (h <=? 0xDBFF) && (0xDC00 <=? l) && (l <=? 0xDFFF) then Some (0x10000 + (h - 0xD800) * 0x400 + (l - 0xDC00), rest) else Some (h, l :: rest)
  | c :: rest => Some (c, rest)
  end.
Definition is_open (c : Z) : bool := (c =? 91) || (c =? 40) || (c =? 60).
Definition is_close (c : Z) : bool := (c =? 93) || (c =? 41) || (c =? 62).
Fixpoint after_close (s : jstr) : option jstr := match s with [] => None | c :: s => if is_close c then Some s else after_close s end.
(** [replace(LEADING_CLAN_TAG, '')] *)
Definition drop_tag (s : jstr) : jstr :=
  match trim_start s with
  | o :: rest => if is_open o then match after_close rest with Some rest => trim_start rest | None => s end else s
  | [] => s
  end.
(** [replace(LEADING_NON_LETTERS, '')] *)
Fixpoint drop_non_letters (fuel : nat) (s : jstr) : jstr :=
  match fuel, next_point s with
  | S fuel, Some (c, rest) => if is_letter c || is_open c then s else drop_non_letters fuel rest
  | _, _ => s
  end.
Definition strip_once (s : jstr) : jstr := let s := drop_tag s in drop_non_letters (length s) s.
(** The loop; [None] when the fuel is spent. *)
Fixpoint strip_loop (fuel : nat) (s : jstr) : option jstr :=
  match fuel with
  | O => None
  | S fuel => let s' := strip_once s in if bool_decide (s' ≠ s) && (0 <? length s')%nat then strip_loop fuel s' else Some s'
  end.
(** [replace(/\s+/g, ' ')] *)
Fixpoint squeeze (in_run : bool) (s : jstr) : jstr :=
  match s with
  | [] => []
  | c :: s => if is_space c then (if in_run then squeeze true s else 32 :: squeeze true s) else c :: squeeze false s
  end.
Definition plain_name (s : jstr) : jstr := trim (squeeze false (toLowerCase s)).
Definition normalizePlayerName (rawName : jstr) : option jstr :=
  stripped ← strip_loop (S (length rawName)) rawName;
  Some (if (0 <? length (plain_name stripped))%nat then plain_name stripped else plain_name rawName).

Lemma trim_start_length s : (length (trim_start s) ≤ length s)%nat.
Proof. induction s as [|c s IH]; [done|]. cbn. destruct (is_space c); cbn in *; lia. Qed.
Lemma after_close_length s t : after_close s = Some t → (length t < length s)%nat.
Proof. induction s as [|c s IH]; cbn; [done|]. destruct (is_close c); [intros [= ->]; lia|]. intros E%IH. lia. Qed.
Lemma drop_tag_length s : drop_tag s = s ∨ (length (drop_tag s) < length s)%nat.
Proof.
  unfold drop_tag. pose proof (trim_start_length s) as Hs. destruct (trim_start s) as [|o rest] eqn:E; [by left|]. destruct (is_open o); [|by left].
  destruct (after_close rest) as [t|] eqn:Ea; [|by left]. apply after_close_length in Ea. pose proof (trim_start_length t). cbn in Hs. right. lia.
Qed.
Lemma next_point_length s c rest : next_point s = Some (c, rest) → (length rest < length s)%nat.
Proof. destruct s as [|h [|l s]]; cbn; [done|intros [= _ <-]; cbn; lia|]. destruct (_ && _); intros [= _ <-]; cbn; lia. Qed.
Lemma drop_non_letters_length fuel s : drop_non_letters fuel s = s ∨ (length (drop_non_letters fuel s) < length s)%nat.
Proof.
  revert s. induction fuel as [|fuel IH]; intros s; [by left|]. cbn. destruct (next_point s) as [[c rest]|] eqn:E; [|by left]. destruct (_ || _); [by left|].
  apply next_point_length in E. destruct (IH rest) as [->|]; [by right|right; lia].
Qed.
Lemma strip_once_length s : strip_once s = s ∨ (length (strip_once s) < length s)%nat.
Proof.
  unfold strip_once. destruct (drop_tag_length s) as [E|E]; destruct (drop_non_letters_length (length (drop_tag s)) (drop_tag s)) as [E'|E'].
  - left. by rewrite E', E.
  - right. rewrite E in *. done.
  - right. by rewrite E'.
  - right. lia.
Qed.
(** Each turn of the loop that is not the last shortens the name. *)
Lemma strip_loop_ends fuel s : (length s < fuel)%nat → is_Some (strip_loop fuel s).
Proof.
  revert s. induction fuel as [|fuel IH]; intros s Hl; [lia|]. cbn. destruct (strip_once_length s) as [E|E].
  - rewrite bool_decide_eq_false_2 by tauto. by eexists.
  - destruct (_ && _); [apply IH; lia|by eexists].
Qed.
Lemma normalizePlayerName_total rawName : is_Some (normalizePlayerName rawName).
Proof. unfold normalizePlayerName. destruct (strip_loop_ends (S (length rawName)) rawName) as [s ->]; [lia|]. by eexists. Qed.
Definition normalized (rawName : jstr) : jstr := default rawName (normalizePlayerName rawName).
End Names.

(** * The tables *)

(** The columns that identify a player; the times are left out. A SteamID is its
    number, an EOS id is not empty. *)
Record players_row := mkRow { p_id : jstr; p_steam : option Z; p_eos : option jstr; p_name : jstr; p_normalized : jstr; p_conflict : bool }.
Record name_row := mkName { n_player : jstr; n_name : jstr; n_normalized : jstr; n_count : Z }.
Inductive audit_entry :=
| Created (label : jstr) (id : jstr) (steam : option Z) (eos : option jstr) (name : jstr)
| Steam_linked (label : jstr) (id : jstr) (steam : option Z) (eos : option jstr)
| Eos_steam_conflict (label : jstr) (id : jstr) (eos : option jstr) (stored observed : option Z).
(** Addresses seen, with their count, and each player's last one. *)
Record world := mkWorld { players : list players_row; name_history : list name_row; audit_log : list audit_entry; addresses : list (jstr * jstr * Z); last_ip : list (jstr * jstr) }.

(** What the surroundings put into a call: a new id. *)
Definition input := jstr.
Inductive fault := Unique_violation | Database_error.
#[export] Instance fault_eq_dec : EqDecision fault.
Proof. solve_decision. Defined.
Definition iprog (A : Type) : Type := prog world input fault A.

Definition same_key {A} `{EqDecision A} (x y : option A) : bool := match x, y with Some a, Some b => bool_decide (a = b) | _, _ => false end.
(** A row with the same primary key, or the same value under a unique index. *)
Definition clashes (r r' : players_row) : bool := bool_decide (p_id r = p_id r') || same_key (p_steam r) (p_steam r') || same_key (p_eos r) (p_eos r').
Definition add_player (w : world) (r : players_row) : option world :=
  if existsb (clashes r) (players w) then None else Some (mkWorld (players w ++ [r]) (name_history w) (audit_log w) (addresses w) (last_ip w)).
(** [UPDATE players ... WHERE id = id]: [None] for a unique violation. *)
Definition change_player (w : world) (id : jstr) (f : players_row → players_row) : option world :=
  match find_index (fun r => bool_decide (p_id r = id)) (players w) with
  | None => Some w
  | Some i =>
      let others := delete i (players w) in
      match players w !! i with
      | Some r => if existsb (clashes (f r)) others then None else Some (mkWorld (<[i := f r]> (players w)) (name_history w) (audit_log w) (addresses w) (last_ip w))
      | None => Some w
      end
  end.
Definition add_audits (es : list audit_entry) (w : world) : world := mkWorld (players w) (name_history w) (audit_log w ++ es) (addresses w) (last_ip w).
Definition set_names (ns : list name_row) (w : world) : world := mkWorld (players w) ns (audit_log w) (addresses w) (last_ip w).
Definition is_name (id norm : jstr) (n : name_row) : bool := bool_decide (n_player n = id) && bool_decide (n_normalized n = norm).
(** An insert into the history, and with what becomes of a name it already has. *)
Definition record_name (on_conflict : name_row → name_row) (id name norm : jstr) (w : world) : world :=
  if existsb (is_name id norm) (name_history w) then set_names ((fun n => if is_name id norm n then on_conflict n else n) <$> name_history w) w
  else set_names (name_history w ++ [mkName id name norm 1]) w.
Definition counted (n : name_row) : name_row := mkName (n_player n) (n_name n) (n_normalized n) (n_count n + 1).

Definition select_players (p : players_row → bool) : iprog (result fault (list players_row)) := once (fun _ w => Some (w, jfilter p (players w))).
(** One transaction: what it answers, or the error that rolls it back. *)
Definition commit {A} (f : input → world → option (world * A)) : iprog (result fault A) :=
  andThen (once (fun i w => match f i w with Some (w, a) => Some (w, Ok a) | None => Some (w, Throw Unique_violation) end))
    (fun r => Ret (match r with Ok r => r | Throw e => Throw e end)).

Record updates := mkUpdates { u_eos : option jstr; u_steam : option Z; u_conflict : bool; u_name : option (jstr * jstr) }.
Definition apply_updates (u : updates) (r : players_row) : players_row :=
  mkRow (p_id r) (match u_steam u with Some s => Some s | None => p_steam r end) (match u_eos u with Some e => Some e | None => p_eos r end)
    (match u_name u with Some (n, _) => n | None => p_name r end) (match u_name u with Some (_, n) => n | None => p_normalized r end) (u_conflict u || p_conflict r).

Definition eos_is (eos : jstr) (r : players_row) : bool := bool_decide (p_eos r = Some eos).
Definition steam_is (steam : Z) (r : players_row) : bool := bool_decide (p_steam r = Some steam).
Definition find_row (p : players_row → bool) (rows : list players_row) : option players_row := find_index p rows ≫= fun i => rows !! i.

(** * The writers *)

(** An entry of a [ListPlayers] reply, a [player.connected] event, and a
    combatant the log names. *)
Module Rcon.
Record RconPlayer := mkPlayer { eos_id : jstr; steam_id64 : option Z; name : jstr }.
Definition RCON_LABEL : jstr := js "rcon-sync".
End Rcon.
Module Connect.
Record PlayerConnectedPayload := mkPayload { steam_id64 : option Z; eos_id : option jstr; name : jstr; ip : option jstr }.
Inductive outcome := Ignored | Created (playerId : jstr) | Updated (playerId : jstr) (nameChanged steamLinked conflict : bool).
Definition SYSTEM_LABEL : jstr := js "log-ingest".
End Connect.
Module Combat.
Record CombatIdentity := mkIdentity { eosId : option jstr; steamId64 : option Z; name : jstr }.
Record IdentityMatch := mkMatch { m_row : players_row; conflicting : bool }.
Definition COMBAT_LABEL : jstr := js "log-ingest-combat".
End Combat.

Section Writers.
Context `{Letters}.

(** ** The poll of the RCON worker *)

Definition lookupIdentity_rcon (p : Rcon.RconPlayer) : iprog (result fault (option (players_row * bool))) :=
  try rows := select_players (fun r => eos_is (Rcon.eos_id p) r || match Rcon.steam_id64 p with Some s => steam_is s r | None => false end) in
  let eosRow := find_row (eos_is (Rcon.eos_id p)) rows in
  let steamRow := s ← Rcon.steam_id64 p; find_row (steam_is s) rows in
  Ret (Ok (row ← match eosRow with Some r => Some r | None => steamRow end;
           Some (row, match steamRow with Some r => negb (bool_decide (p_id r = p_id row)) | None => false end))).
Definition rcon_updates (p : Rcon.RconPlayer) (row : players_row) (steamHeldElsewhere : bool) : updates :=
  mkUpdates (if p_eos row then None else Some (Rcon.eos_id p))
    (if p_steam row then None else if steamHeldElsewhere then None else Rcon.steam_id64 p)
    (steamHeldElsewhere && negb (p_conflict row)) (Some (Rcon.name p, normalized (Rcon.name p))).
Definition rcon_audits (p : Rcon.RconPlayer) (row : players_row) (u : updates) : list audit_entry :=
  (if u_steam u then [Steam_linked Rcon.RCON_LABEL (p_id row) (Rcon.steam_id64 p) (Some (Rcon.eos_id p))] else []) ++
  (if u_conflict u then [Eos_steam_conflict Rcon.RCON_LABEL (p_id row) (Some (Rcon.eos_id p)) (p_steam row) (Rcon.steam_id64 p)] else []).
(** The reads run in the transaction of the writes, but under READ COMMITTED:
    they do not keep others from committing in between. *)
Definition fold_onto (p : Rcon.RconPlayer) (row : players_row) (steamHeldElsewhere : bool) : iprog (result fault unit) :=
  let u := rcon_updates p row steamHeldElsewhere in
  commit (fun _ w => w ← change_player w (p_id row) (apply_updates u);
    Some (record_name counted (p_id row) (Rcon.name p) (normalized (Rcon.name p)) (add_audits (rcon_audits p row u) w), ())).
Definition upsertPlayer (p : Rcon.RconPlayer) : iprog (result fault unit) :=
  try identity := lookupIdentity_rcon p in
  match identity with
  | Some (row, elsewhere) => fold_onto p row elsewhere
  | None =>
      try created := commit (fun id w =>
        match add_player w (mkRow id (Rcon.steam_id64 p) (Some (Rcon.eos_id p)) (Rcon.name p) (normalized (Rcon.name p)) false) with
        | Some w => Some (add_audits [Created Rcon.RCON_LABEL id (Rcon.steam_id64 p) (Some (Rcon.eos_id p)) (Rcon.name p)]
                     (set_names (name_history w ++ [mkName id (Rcon.name p) (normalized (Rcon.name p)) 1]) w), true)
        | None => Some (w, false)
        end) in
      if created : bool then Ret (Ok ())
      else
        try identity := lookupIdentity_rcon p in
        match identity with
        | Some (row, elsewhere) => fold_onto p row elsewhere
        | None => Ret (Throw Database_error)
        end
  end.
(** A player whose transaction fails is reported, and the loop goes on. *)
Fixpoint upsertPlayers (incoming : list Rcon.RconPlayer) : iprog (list (Rcon.RconPlayer * fault)) :=
  match incoming with
  | [] => Ret []
  | p :: incoming =>
      await r := upsertPlayer p in
      await failed := upsertPlayers incoming in
      Ret (match r with Ok _ => failed | Throw e => (p, e) :: failed end)
  end.

(** ** The connect handler of log-ingest *)

Definition lookupIdentity (eosId : option jstr) (steamId64 : option Z) : iprog (result fault (option players_row)) :=
  try byEos := match eosId with Some e => select_players (eos_is e) | None => Ret (Ok []) end in
  match byEos with
  | r :: _ => Ret (Ok (Some r))
  | [] =>
      try bySteam := match steamId64 with Some s => select_players (steam_is s) | None => Ret (Ok []) end in
      Ret (Ok (head bySteam))
  end.
Definition recordIpObservation (playerId ip : jstr) : iprog (result fault unit) :=
  try _ := once (fun _ w =>
    let seen (e : jstr * jstr * Z) := bool_decide (e.1 = (playerId, ip)) in
    let ads := if existsb seen (addresses w) then (fun e => if seen e then (e.1, e.2 + 1) else e) <$> addresses w else addresses w ++ [(playerId, ip, 1)] in
    Some (mkWorld (players w) (name_history w) (audit_log w) ads (last_ip w), ())) in
  once (fun _ w => Some (mkWorld (players w) (name_history w) (audit_log w) (addresses w)
    (jfilter (fun e => negb (bool_decide (e.1 = playerId))) (last_ip w) ++ [(playerId, ip)]), ())).
Definition observe (playerId : jstr) (ip : option jstr) : iprog (result fault unit) :=
  match ip with Some (_ :: _ as ip) => recordIpObservation playerId ip | _ => Ret (Ok ()) end.

(** What is done about the SteamID of the event: the column to set, whether the
    flag is raised, and the two outcomes. *)
Definition connect_steam (row : players_row) (steamId64 : option Z) (ownedByOther : option jstr) : option Z * bool * bool * bool :=
  match steamId64 with
  | Some s =>
      if bool_decide (p_steam row = Some s) then (None, false, false, false)
      else if match ownedByOther with Some o => negb (bool_decide (o = p_id row)) | None => false end then (None, negb (p_conflict row), false, true)
      else match p_steam row with
           | None => (Some s, false, true, false)
           | Some _ => (Some s, negb (p_conflict row), false, true)
           end
  | None => (None, false, false, false)
  end.
Definition applyToExisting (row : players_row) (payload : Connect.PlayerConnectedPayload) : iprog (result fault Connect.outcome) :=
  let steamId64 := Connect.steam_id64 payload in
  let name := Connect.name payload in
  try owners := match steamId64 with
                | Some s => if bool_decide (p_steam row = Some s) then Ret (Ok []) else select_players (steam_is s)
                | None => Ret (Ok [])
                end in
  let '(steam, raise, steamLinked, conflict) := connect_steam row steamId64 (p_id <$> head owners) in
  let nameChanged := negb (bool_decide (p_name row = name)) in
  let u := mkUpdates (if p_eos row then None else Connect.eos_id payload) steam raise (if nameChanged then Some (name, normalized name) else None) in
  let audits :=
    (if steamLinked then [Steam_linked Connect.SYSTEM_LABEL (p_id row) steamId64 (Connect.eos_id payload)] else []) ++
    (if conflict then [Eos_steam_conflict Connect.SYSTEM_LABEL (p_id row) (Connect.eos_id payload) (p_steam row) steamId64] else []) in
  try _ := commit (fun _ w => w ← change_player w (p_id row) (apply_updates u);
    let w := if nameChanged then record_name counted (p_id row) name (normalized name) w else w in Some (add_audits audits w, ())) in
  try _ := observe (p_id row) (Connect.ip payload) in
  Ret (Ok (Connect.Updated (p_id row) nameChanged steamLinked conflict)).
Definition handlePlayerConnected (payload : Connect.PlayerConnectedPayload) : iprog (result fault Connect.outcome) :=
  let eosId := Connect.eos_id payload in
  let steamId64 := Connect.steam_id64 payload in
  let name := Connect.name payload in
  if bool_decide (eosId = None) && bool_decide (steamId64 = None) then Ret (Ok Connect.Ignored)
  else
    try existing := lookupIdentity eosId steamId64 in
    match existing with
    | Some row => applyToExisting row payload
    | None =>
        try created := commit (fun id w =>
          match add_player w (mkRow id steamId64 eosId name (normalized name) false) with
          | Some w => Some (add_audits [Created Connect.SYSTEM_LABEL id steamId64 eosId name] (record_name (fun n => n) id name (normalized name) w), Some id)
          | None => Some (w, None)
          end) in
        match created with
        | None =>
            try raced := lookupIdentity eosId steamId64 in
            match raced with Some row => applyToExisting row payload | None => Ret (Ok Connect.Ignored) end
        | Some playerId =>
            try _ := observe playerId (Connect.ip payload) in
            Ret (Ok (Connect.Created playerId))
        end
    end.

(** ** Combat events *)

Definition resolveByIdentity (eosId : option jstr) (steamId64 : option Z) : iprog (result fault (option Combat.IdentityMatch)) :=
  if bool_decide (eosId = None) && bool_decide (steamId64 = None) then Ret (Ok None)
  else
    try rows := select_players (fun r => match eosId with Some e => eos_is e r | None => false end || match steamId64 with Some s => steam_is s r | None => false end) in
    let rows := take 2 rows in
    let byEos := e ← eosId; find_row (eos_is e) rows in
    Ret (Ok (chosen ← match byEos with Some r => Some r | None => head rows end; Some (Combat.mkMatch chosen (1 <? length rows)%nat))).
(** With the choices of the database for the rows of a [LIMIT 2]: the first. *)
Definition resolveByName (rawName : jstr) : iprog (result fault (option jstr)) :=
  let norm := normalized rawName in
  if bool_decide (norm = []) then Ret (Ok None)
  else
    try direct := select_players (fun r => bool_decide (p_normalized r = norm)) in
    match take 2 direct with
    | [r] => Ret (Ok (Some (p_id r)))
    | _ :: _ => Ret (Ok None)
    | [] =>
        try historical := once (fun _ w => Some (w, take 2 (remove_dups (n_player <$> jfilter (fun n => bool_decide (n_normalized n = norm)) (name_history w))))) in
        Ret (Ok (match historical with [id] => Some id | _ => None end))
    end.
(** [None] for a unique violation; any other error is thrown. *)
Definition createPlayerWithHistory (eos : option jstr) (steam : option Z) (name label : jstr) : iprog (result fault (option jstr)) :=
  await r := commit (fun id w => w ← add_player w (mkRow id steam eos name (normalized name) false);
    Some (add_audits [Created label id steam eos name] (set_names (name_history w ++ [mkName id name (normalized name) 1]) w), id)) in
  Ret (match r with Ok id => Ok (Some id) | Throw Unique_violation => Ok None | Throw e => Throw e end).
Definition createPlayer (identity : Combat.CombatIdentity) : iprog (result fault (option jstr)) :=
  try created := createPlayerWithHistory (Combat.eosId identity) (Combat.steamId64 identity) (Combat.name identity) Combat.COMBAT_LABEL in
  match created with
  | Some id => Ret (Ok (Some id))
  | None =>
      try existing := resolveByIdentity (Combat.eosId identity) (Combat.steamId64 identity) in
      Ret (Ok ((fun m => p_id (Combat.m_row m)) <$> existing))
  end.
Definition backfillIdentity (existing : Combat.IdentityMatch) (identity : Combat.CombatIdentity) : iprog (result fault unit) :=
  let row := Combat.m_row existing in
  if Combat.conflicting existing then Ret (Ok ())
  else
    let u := mkUpdates (if p_eos row then None else Combat.eosId identity) (if p_steam row then None else Combat.steamId64 identity) false None in
    if bool_decide (u_eos u = None) && bool_decide (u_steam u = None) then Ret (Ok ())
    else
      await r := commit (fun _ w => w ← change_player w (p_id row) (apply_updates u); Some (w, ())) in
      Ret (match r with Throw Unique_violation => Ok () | r => r end).
(** A member of the cached roster, and who the roster says a bare name is. *)
Definition identityFromRoster (identity : Combat.CombatIdentity) (roster : list Combat.CombatIdentity) : option Combat.CombatIdentity :=
  if negb (bool_decide (Combat.eosId identity = None)) || negb (bool_decide (Combat.steamId64 identity = None)) then Some identity
  else
    let norm := normalized (Combat.name identity) in
    match jfilter (fun m => negb (bool_decide (Combat.name m = [])) && bool_decide (normalized (Combat.name m) = norm)) roster with
    | _ :: _ :: _ => None
    | [m] => if bool_decide (Combat.eosId m = None) && bool_decide (Combat.steamId64 m = None) then Some identity
             else Some (Combat.mkIdentity (Combat.eosId m) (Combat.steamId64 m) (Combat.name identity))
    | [] => Some identity
    end.
Definition resolveOrCreatePlayer (combatant : option Combat.CombatIdentity) (roster : list Combat.CombatIdentity) : iprog (result fault (option jstr)) :=
  match combatant ≫= (fun c => identityFromRoster c roster) with
  | None => Ret (Ok None)
  | Some identity =>
      if bool_decide (Combat.eosId identity = None) && bool_decide (Combat.steamId64 identity = None) then resolveByName (Combat.name identity)
      else
        try existing := resolveByIdentity (Combat.eosId identity) (Combat.steamId64 identity) in
        match existing with
        | Some m =>
            try _ := backfillIdentity m identity in
            Ret (Ok (Some (p_id (Combat.m_row m))))
        | None => createPlayer identity
        end
  end.

(** ** Logging in through Steam *)

(** The upsert of a session's player; the rest of the login is not here. *)
Definition login_upsert (steam : Z) (name : jstr) (nameIsPlaceholder : bool) : iprog (result fault jstr) :=
  let norm := normalized name in
  commit (fun id w =>
    match find_row (steam_is steam) (players w) with
    | Some r =>
        w ← change_player w (p_id r) (apply_updates (mkUpdates None None false (if nameIsPlaceholder then None else Some (name, norm)))); Some (w, p_id r)
    | None => w ← add_player w (mkRow id (Some steam) None name norm false); Some (w, id)
    end).
End Writers.

(** * Every writer keeps identities together *)

Section Consistency.
Context `{Letters}.
(** The EOS account of a Steam account, as the game reports it. *)
Context (eos_of : Z → jstr).

Definition matches_ids (eos : option jstr) (steam : option Z) : Prop := ∀ e s, eos = Some e → steam = Some s → e = eos_of s.
Definition consistent (r : players_row) : Prop := matches_ids (p_eos r) (p_steam r).
(** Two rows never share an id, a SteamID or an EOS id, and a row's two ids are
    those of one person. *)
Record rows_ok (rows : list players_row) : Prop := {
  ro_unique : ∀ i j r r', rows !! i = Some r → rows !! j = Some r' → clashes r r' = true → i = j;
  ro_consistent : ∀ r, r ∈ rows → consistent r;
}.
(** What becomes of a row: it keeps its id and its EOS id, a missing EOS id is
    only filled with that of its SteamID, and its flag stays up. *)
Record evolves (r r' : players_row) : Prop := {
  ev_id : p_id r' = p_id r;
  ev_conflict : p_conflict r = true → p_conflict r' = true;
  ev_eos : match p_eos r with Some e => p_eos r' = Some e | None => (p_eos r' = None ∧ p_steam r' = p_steam r) ∨ ∃ s, p_steam r = Some s ∧ p_eos r' = Some (eos_of s) end;
  ev_steam : is_Some (p_steam r) → is_Some (p_steam r');
}.
Definition evolve (rows rows' : list players_row) : Prop := ∀ i r, rows !! i = Some r → ∃ r', rows' !! i = Some r' ∧ evolves r r'.

Definition Inv (w : world) : Prop := rows_ok (players w).
Definition Rely (c : nat) (u w : world) : Prop := evolve (players u) (players w).
Definition AnyFault (e : fault) : Prop := True.
(** The rows a program has read. *)
Definition know (c : nat) (k : list players_row) (w : world) : Prop := ∀ r, r ∈ k → ∃ i r', players w !! i = Some r' ∧ evolves r r'.

Lemma row_evolves_refl r : evolves r r.
Proof. split; [done|done|destruct (p_eos r); auto|done]. Qed.
Lemma row_evolves_trans a b d : evolves a b → evolves b d → evolves a d.
Proof.
  intros [H1 H2 H3 H4] [K1 K2 K3 K4]. split; [congruence|auto| |auto]. destruct (p_eos a) as [e|]; [by rewrite H3 in K3|].
  destruct H3 as [[He Hs]|(s & Hs & He)]; rewrite He in K3; [|right; by exists s]. rewrite Hs in K3. exact K3.
Qed.
Lemma evolve_refl rows : evolve rows rows.
Proof. intros i r Hr. exists r. split; [done|apply row_evolves_refl]. Qed.
Lemma evolve_trans a b d : evolve a b → evolve b d → evolve a d.
Proof.
  intros H1 H2 i r Hr. destruct (H1 i r Hr) as (r' & Hr' & E1). destruct (H2 i r' Hr') as (r'' & Hr'' & E2). exists r''. split; [done|by eapply row_evolves_trans].
Qed.
Lemma rows_stay_known c k u w : Rely c u w → Inv w → know c k u → know c k w.
Proof.
  intros Hr _ Hk r Hin. destruct (Hk r Hin) as (i & r' & Hi & He). destruct (Hr i r' Hi) as (r'' & Hi'' & He'). exists i, r''. split; [done|by eapply row_evolves_trans].
Qed.

Lemma same_key_sym {A} `{EqDecision A} (x y : option A) : same_key x y = same_key y x.
Proof. destruct x, y; cbn; [|done..]. apply bool_decide_ext. naive_solver. Qed.
Lemma clashes_sym a b : clashes a b = clashes b a.
Proof.
  unfold clashes. rewrite (same_key_sym (p_steam a)), (same_key_sym (p_eos a)). f_equal. f_equal. apply bool_decide_ext. naive_solver.
Qed.
Lemma no_clash r rows i r' : existsb (clashes r) rows = false → rows !! i = Some r' → clashes r r' = false.
Proof.
  intros He Hi. apply not_true_iff_false. intros Hc. apply not_true_iff_false in He. destruct He. apply existsb_exists. exists r'. split; [|done].
  by apply list_elem_of_In, list_elem_of_lookup_2 with i.
Qed.
Lemma rows_add rows r : rows_ok rows → consistent r → existsb (clashes r) rows = false → rows_ok (rows ++ [r]) ∧ evolve rows (rows ++ [r]).
Proof.
  intros [Hu Hc] Hr He. split; [split|].
  - intros i j a b [Ha|[Hia Ha]]%lookup_app_Some [Hb|[Hib Hb]]%lookup_app_Some Hcl.
    + by eapply Hu.
    + apply list_lookup_singleton_Some in Hb as [_ <-]. rewrite clashes_sym in Hcl. by rewrite (no_clash r rows i a He Ha) in Hcl.
    + apply list_lookup_singleton_Some in Ha as [_ <-]. by rewrite (no_clash r rows j b He Hb) in Hcl.
    + apply list_lookup_singleton_Some in Ha as [? _], Hb as [? _]. lia.
  - intros a [Ha|Ha]%elem_of_app; [by apply Hc|]. by apply list_elem_of_singleton in Ha as ->.
  - intros i a Ha. exists a. split; [by apply lookup_app_l_Some|apply row_evolves_refl].
Qed.
Lemma rows_change rows i r r' : rows_ok rows → rows !! i = Some r → consistent r' → evolves r r' → existsb (clashes r') (delete i rows) = false →
  rows_ok (<[i := r']> rows) ∧ evolve rows (<[i := r']> rows).
Proof.
  intros [Hu Hc] Hi Hr Hev He. pose proof (lookup_lt_Some _ _ _ Hi) as Hl.
  assert (∀ j b, j ≠ i → rows !! j = Some b → clashes r' b = false) as Hno.
  { intros j b Hne Hj. assert (j < i ∨ i < j)%nat as [Hlt|Hlt] by lia.
    - apply (no_clash r' _ j b He). by rewrite list_lookup_delete_lt.
    - apply (no_clash r' _ (j - 1) b He). rewrite list_lookup_delete_ge by lia. by replace (S (j - 1)) with j by lia. }
  split; [split|].
  - intros j k a b. destruct (decide (j = i)) as [->|Hj], (decide (k = i)) as [->|Hk].
    + done.
    + rewrite list_lookup_insert_eq, list_lookup_insert_ne by done. intros [= <-] Hb Hcl. by rewrite (Hno k b) in Hcl.
    + rewrite list_lookup_insert_eq, list_lookup_insert_ne by done. intros Ha [= <-] Hcl. rewrite clashes_sym in Hcl. by rewrite (Hno j a) in Hcl.
    + rewrite !list_lookup_insert_ne by done. apply Hu.
  - intros a [j Hj]%list_elem_of_lookup_1. destruct (decide (j = i)) as [->|Hne].
    + rewrite list_lookup_insert_eq in Hj by done. by injection Hj as <-.
    + rewrite list_lookup_insert_ne in Hj by done. by apply Hc, list_elem_of_lookup_2 with j.
  - intros j a Hj. destruct (decide (j = i)) as [->|Hne].
    + exists r'. rewrite list_lookup_insert_eq by done. split; [done|]. congruence.
    + exists a. rewrite list_lookup_insert_ne by done. split; [done|apply row_evolves_refl].
Qed.
Lemma add_player_ok w r w' : Inv w → consistent r → add_player w r = Some w' → Inv w' ∧ evolve (players w) (players w').
Proof. unfold add_player, Inv. intros Hi Hr. destruct (existsb _ _) eqn:E; [done|]. intros [= <-]. by apply rows_add. Qed.
Lemma change_player_ok w id f w' : Inv w → (∀ r, r ∈ players w → p_id r = id → consistent (f r) ∧ evolves r (f r)) → change_player w id f = Some w' →
  Inv w' ∧ evolve (players w) (players w').
Proof.
  unfold change_player, Inv. intros Hi Hf. destruct (find_index _ _) as [i|] eqn:Ef; [|intros [= <-]; split; [done|apply evolve_refl]].
  apply find_index_Some in Ef as ((r & Hr & Hid) & _). rewrite Hr. apply bool_decide_eq_true in Hid. destruct (existsb _ _) eqn:Ee; [done|]. intros [= <-].
  destruct (Hf r) as [Hc He]; [by apply list_elem_of_lookup_2 with i|done|]. by apply rows_change with r.
Qed.
Lemma players_record_name f id name norm w : players (record_name f id name norm w) = players w.
Proof. unfold record_name. by destruct (existsb _ _). Qed.

(** ** What each program does *)

Definition found (eos : option jstr) (steam : option Z) (row : players_row) : Prop :=
  (∃ e, eos = Some e ∧ p_eos row = Some e) ∨ (∃ s, steam = Some s ∧ p_steam row = Some s).
Definition good_updates (row : players_row) (eos : option jstr) (steam : option Z) (u : updates) : Prop :=
  (u_eos u = None ∨ p_eos row = None ∧ u_eos u = eos) ∧ (u_steam u = None ∨ p_steam row ≠ steam ∧ u_steam u = steam).
Lemma update_ok c k row eos steam u w w' : Inv w → know c k w → row ∈ k → consistent row → found eos steam row → matches_ids eos steam → good_updates row eos steam u →
  change_player w (p_id row) (apply_updates u) = Some w' → Inv w' ∧ evolve (players w) (players w').
Proof.
  intros Hi Hk Hin Hrow Hfound Hreq [Hue Hus]. apply change_player_ok; [done|]. intros r Hr Hid.
  destruct (Hk row Hin) as (i & r' & Hi' & [Eid Ec Ee Es]). apply list_elem_of_lookup_1 in Hr as [j Hj].
  assert (j = i) as -> by (apply (ro_unique _ Hi j i r r' Hj Hi'); unfold clashes; by rewrite bool_decide_eq_true_2 by congruence).
  assert (r' = r) as -> by congruence. clear Hj. pose proof (ro_consistent _ Hi r (list_elem_of_lookup_2 _ _ _ Hi')) as Hr.
  (* the EOS id, when it is set *)
  assert (∀ e, u_eos u = Some e → (p_eos row = None ∧ ∃ s, steam = Some s ∧ p_steam row = Some s ∧ e = eos_of s) ∧ u_steam u = None) as He.
  { intros e E. destruct Hue as [?|[Hnone Heq]]; [congruence|]. destruct Hfound as [(e' & _ & ?)|(s & Hs & Hps)]; [congruence|]. split.
    - split; [done|]. exists s. split_and!; [done|done|]. apply Hreq; congruence.
    - destruct Hus as [?|[? _]]; congruence. }
  (* the SteamID, when it is set *)
  assert (∀ s, u_steam u = Some s → p_eos r = Some (eos_of s) ∨ p_eos r = None ∧ p_eos row = None ∧ steam = None) as Hsteam.
  { intros s E. destruct Hus as [?|[Hne Heq]]; [congruence|]. destruct Hfound as [(e & Heos & Hpe)|(s' & Hs & Hps)]; [|congruence]. left. rewrite Hpe in Ee. rewrite Ee. f_equal. apply Hreq; congruence. }
  unfold apply_updates. split.
  - intros e s. cbn. destruct (u_eos u) as [e0|] eqn:E1.
    + destruct (He _ eq_refl) as [(Hnone & s1 & Hs1 & Hps1 & ->) E2]. rewrite E2. intros [= <-]. rewrite Hnone in Ee. intros Hs.
      destruct Ee as [[_ Hsame]|(s2 & Hs2 & Hr2)]; [congruence|]. rewrite Hps1 in Hs2. injection Hs2 as <-. by apply (Hr _ _ Hr2).
    + destruct (u_steam u) as [s0|] eqn:E2; [|apply Hr]. intros Hpe [= <-]. destruct (Hsteam _ eq_refl) as [Hx|(Hx & _)]; congruence.
  - split; cbn; [done| | |].
    + intros ->. by destruct (u_conflict u).
    + destruct (p_eos r) as [er|] eqn:Er.
      * destruct (u_eos u) as [e0|] eqn:E1; [|done]. destruct (He _ eq_refl) as [(Hnone & s1 & Hs1 & Hps1 & ->) _]. rewrite Hnone in Ee.
        destruct Ee as [[? _]|(s2 & Hs2 & Hr2)]; congruence.
      * destruct (u_eos u) as [e0|] eqn:E1.
        -- destruct (He _ eq_refl) as [(Hnone & s1 & Hs1 & Hps1 & ->) _]. rewrite Hnone in Ee. destruct Ee as [[_ Hsame]|(s2 & _ & ?)]; [|congruence].
           right. exists s1. split; [congruence|done].
        -- left. split; [done|]. destruct (u_steam u) as [s0|] eqn:E2; [|done]. destruct (Hsteam _ eq_refl) as [?|(_ & _ & ?)]; [congruence|]. destruct Hus as [?|[_ ?]]; congruence.
    + intros Hs. destruct (u_steam u); [by eexists|done].
Qed.

Notation T := (triple Inv Rely Rely AnyFault know).
Definition safe {A} (p : iprog A) : Prop := ∀ c k, T c k p (fun _ _ => True).

Lemma safe_ret {A} (a : A) : safe (Ret a).
Proof. intros c k. apply triple_ret; [exact rows_stay_known|done]. Qed.
Lemma T_conseq_safe {A} c k (p : iprog A) P : T c k p P → T c k p (fun _ _ => True).
Proof. intros Hp. eapply triple_conseq; [exact Hp|done]. Qed.
Lemma rows_rely_refl c w : Rely c w w.
Proof. apply evolve_refl. Qed.
Lemma rows_rely_trans c u v w : Rely c u v → Rely c v w → Rely c u w.
Proof. apply evolve_trans. Qed.
Lemma T_orThrow {A B} c k (p : iprog (result fault A)) (f : A → iprog (result fault B)) P :
  T c k p P → (∀ a k', P (Ok a) k' → T c k' (f a) (fun _ _ => True)) → T c k (orThrow p f) (fun _ _ => True).
Proof. intros Hp Hf. eapply (triple_orThrow Inv Rely Rely AnyFault know rows_rely_refl rows_rely_trans rows_stay_known); [exact Hp|exact Hf|done]. Qed.
Lemma safe_orThrow {A B} (p : iprog (result fault A)) (f : A → iprog (result fault B)) : safe p → (∀ a, safe (f a)) → safe (orThrow p f).
Proof. intros Hp Hf c k. eapply T_orThrow; [apply Hp|]. intros a k' _. apply Hf. Qed.
Lemma T_andThen {A B} c k (p : iprog A) (f : A → iprog B) P Q : T c k p P → (∀ a k', P a k' → T c k' (f a) Q) → T c k (andThen p f) Q.
Proof. exact (triple_andThen Inv Rely Rely AnyFault know rows_rely_refl rows_rely_trans c k p f P Q). Qed.

(** The rows of a read are known from then on. *)
Definition read_post (p : players_row → bool) (k : list players_row) (r : result fault (list players_row)) (k' : list players_row) : Prop :=
  k ⊆ k' ∧ match r with Ok rows => ∀ row, row ∈ rows → row ∈ k' ∧ consistent row ∧ p row = true | Throw _ => True end.
Lemma T_select c k p : T c k (select_players p) (read_post p k).
Proof.
  apply triple_once; [exact rows_stay_known| |by split]. intros i u v r Hk Hi [= <- <-]. exists (k ++ jfilter p (players u)). split_and!.
  - intros row [Hin|Hin]%elem_of_app; [by apply Hk|]. apply elem_of_jfilter in Hin as [_ Hin]. apply list_elem_of_lookup_1 in Hin as [j Hj].
    exists j, row. split; [done|apply row_evolves_refl].
  - apply rows_rely_refl.
  - done.
  - split; [set_solver|]. intros row Hin. split; [set_solver|]. apply elem_of_jfilter in Hin as [Hp Hin]. split; [by apply (ro_consistent _ Hi)|done].
  - intros e _. split; [set_solver|done].
Qed.
Lemma T_commit {A} c k (f : input → world → option (world * A)) :
  (∀ i u v a, know c k u → Inv u → f i u = Some (v, a) → Inv v ∧ evolve (players u) (players v)) → T c k (commit f) (fun _ k' => k' = k).
Proof.
  intros Hf. apply (T_andThen c k _ _ (fun _ k' => k' = k)); [|intros a k' ->; apply triple_ret; [exact rows_stay_known|done]].
  apply (triple_once Inv Rely Rely AnyFault know rows_stay_known c k _ (fun _ k' => k' = k)); [|done]. intros i u v r Hk Hi Ho. exists k. destruct (f i u) as [[w a]|] eqn:E; injection Ho as <- <-.
  - destruct (Hf i u w a Hk Hi E) as [Hi' He]. split_and!; [by eapply rows_stay_known|exact He|done|done|done].
  - split_and!; [done|apply rows_rely_refl|done|done|done].
Qed.
Lemma find_row_Some p rows r : find_row p rows = Some r → r ∈ rows ∧ p r = true.
Proof.
  unfold find_row. destruct (find_index p rows) as [i|] eqn:E; [|done]. cbn. intros Hi. apply find_index_Some in E as ((x & Hx & Hp) & _).
  rewrite Hx in Hi. injection Hi as <-. split; [by apply list_elem_of_lookup_2 with i|done].
Qed.
Lemma found_eos e s row : eos_is e row = true → found (Some e) s row.
Proof. intros E%bool_decide_eq_true. left. by exists e. Qed.
Lemma found_steam e s row : steam_is s row = true → found e (Some s) row.
Proof. intros E%bool_decide_eq_true. right. by exists s. Qed.
(** A row that was read and found for these ids. *)
Definition known_for (eos : option jstr) (steam : option Z) (k : list players_row) (row : players_row) : Prop := row ∈ k ∧ consistent row ∧ found eos steam row.

(** Writing a known row, whatever else is written with it. *)
Lemma T_update {A} c k row eos steam u (rest : world → world) (a : A) : known_for eos steam k row → matches_ids eos steam → good_updates row eos steam u →
  (∀ w, players (rest w) = players w) → T c k (commit (fun _ w => w ← change_player w (p_id row) (apply_updates u); Some (rest w, a))) (fun _ k' => k' = k).
Proof.
  intros (Hin & Hc & Hf) Hreq Hu Hrest. apply T_commit. intros i w v b Hk Hi. destruct (change_player _ _ _) as [w'|] eqn:E; [|done]. cbn. intros [= <- <-].
  unfold Inv. rewrite Hrest. by apply (update_ok c k row eos steam u).
Qed.
(** Creating one. *)
Lemma T_create {A} c k (row : jstr → players_row) (f : jstr → world → option (world * A)) : (∀ i, consistent (row i)) →
  (∀ i u v a, f i u = Some (v, a) → players v = players u ∨ ∃ w, add_player u (row i) = Some w ∧ players v = players w) → T c k (commit f) (fun _ k' => k' = k).
Proof.
  intros Hrow Hf. apply T_commit. intros i u v a Hk Hi E. unfold Inv. destruct (Hf i u v a E) as [->|(w & Ew & ->)]; [split; [done|apply evolve_refl]|].
  by apply (add_player_ok u (row i)).
Qed.

Lemma T_lookup_rcon c k p : T c k (lookupIdentity_rcon p)
  (fun r k' => match r with Ok (Some (row, _)) => known_for (Some (Rcon.eos_id p)) (Rcon.steam_id64 p) k' row | _ => True end).
Proof.
  eapply (triple_orThrow Inv Rely Rely AnyFault know rows_rely_refl rows_rely_trans rows_stay_known); [apply T_select| |done]. intros rows k' [_ Hrows]. apply triple_ret; [exact rows_stay_known|].
  destruct (match find_row (eos_is (Rcon.eos_id p)) rows with Some r => Some r | None => _ end) as [row|] eqn:E; [|done]. cbn.
  destruct (find_row (eos_is (Rcon.eos_id p)) rows) as [r|] eqn:Ef.
  - injection E as ->. apply find_row_Some in Ef as [Hin He]. destruct (Hrows _ Hin) as (? & ? & _). split_and!; [done|done|by apply found_eos].
  - destruct (Rcon.steam_id64 p) as [s|]; [|done]. cbn in E. apply find_row_Some in E as [Hin He]. destruct (Hrows _ Hin) as (? & ? & _). split_and!; [done|done|by apply found_steam].
Qed.
Lemma rcon_updates_good p row b : good_updates row (Some (Rcon.eos_id p)) (Rcon.steam_id64 p) (rcon_updates p row b).
Proof.
  unfold good_updates, rcon_updates. cbn. split; [destruct (p_eos row); auto|]. destruct (p_steam row) as [s|] eqn:Es; [by left|]. destruct b; [by left|].
  destruct (Rcon.steam_id64 p); [right; by rewrite ?Es|by left].
Qed.
Lemma safe_upsertPlayer p : matches_ids (Some (Rcon.eos_id p)) (Rcon.steam_id64 p) → safe (upsertPlayer p).
Proof.
  intros Hreq c k. unfold upsertPlayer.
  assert (∀ k' row b, known_for (Some (Rcon.eos_id p)) (Rcon.steam_id64 p) k' row → T c k' (fold_onto p row b) (fun _ _ => True)) as Hfold.
  { intros k' row b Hrow. eapply T_conseq_safe. apply (T_update c k' row (Some (Rcon.eos_id p)) (Rcon.steam_id64 p) (rcon_updates p row b)
      (fun w => record_name counted (p_id row) (Rcon.name p) (normalized (Rcon.name p)) (add_audits (rcon_audits p row (rcon_updates p row b)) w)) ()).
    - done. - done. - apply rcon_updates_good. - intros w. by rewrite players_record_name. }
  eapply T_orThrow; [apply T_lookup_rcon|]. intros [[row b]|] k1 Hrow; [by apply Hfold|]. eapply T_orThrow.
  - apply (T_create c k1 (fun id => mkRow id (Rcon.steam_id64 p) (Some (Rcon.eos_id p)) (Rcon.name p) (normalized (Rcon.name p)) false)); [by intros i e s; apply Hreq|].
    intros i u v a. destruct (add_player u _) as [w|]; intros [= <- <-]; [right; by exists w|by left].
  - intros [] k2 ->; [apply safe_ret|]. eapply T_orThrow; [apply T_lookup_rcon|]. intros [[row b]|] k3 Hrow3; [by apply Hfold|apply safe_ret].
Qed.
Lemma writer_andThen {A B} (p : iprog A) (f : A → iprog B) : safe p → (∀ a, safe (f a)) → safe (andThen p f).
Proof. intros Hp Hf c k. eapply T_andThen; [apply Hp|]. intros a k' _. apply Hf. Qed.
Lemma safe_upsertPlayers ps : Forall (fun p => matches_ids (Some (Rcon.eos_id p)) (Rcon.steam_id64 p)) ps → safe (upsertPlayers ps).
Proof.
  induction 1 as [|p ps Hp _ IH]; [apply safe_ret|]. apply writer_andThen; [by apply safe_upsertPlayer|]. intros r. apply writer_andThen; [done|]. intros failed. apply safe_ret.
Qed.

(** Calls that leave the players alone. *)
Lemma safe_aside {A} (f : input → world → world * A) : (∀ i w, players (f i w).1 = players w) → safe (once (fun i w => Some (f i w))).
Proof.
  intros Hf c k. apply triple_once; [exact rows_stay_known| |done]. intros i u v r Hk Hi Ho. specialize (Hf i u). destruct (f i u) as [w a]. injection Ho as <- <-. cbn in Hf.
  exists k. assert (Rely c u w) as Hr by (unfold Rely; rewrite Hf; apply evolve_refl). assert (Inv w) as Hi' by (unfold Inv; by rewrite Hf).
  split_and!; [by eapply rows_stay_known|exact Hr|done|done|done].
Qed.
Lemma safe_observe id ip : safe (observe id ip).
Proof.
  unfold observe. destruct ip as [[|x ip]|]; [apply safe_ret| |apply safe_ret]. unfold recordIpObservation. apply safe_orThrow; [by apply safe_aside|]. intros []. by apply safe_aside.
Qed.

Definition head_post (eos : option jstr) (steam : option Z) (r : result fault (option players_row)) (k : list players_row) : Prop :=
  match r with Ok (Some row) => known_for eos steam k row | _ => True end.
Lemma T_orThrow' {A B} c k (p : iprog (result fault A)) (f : A → iprog (result fault B)) P Q :
  T c k p P → (∀ a k', P (Ok a) k' → T c k' (f a) Q) → (∀ e k', P (Throw e) k' → Q (Throw e) k') → T c k (orThrow p f) Q.
Proof. exact (triple_orThrow Inv Rely Rely AnyFault know rows_rely_refl rows_rely_trans rows_stay_known c k p f P Q). Qed.
Lemma T_select_opt {A} c k (x : option A) (p : A → players_row → bool) :
  T c k (match x with Some a => select_players (p a) | None => Ret (Ok []) end)
    (fun r k' => match r with Ok rows => ∀ row, row ∈ rows → row ∈ k' ∧ consistent row ∧ ∃ a, x = Some a ∧ p a row = true | _ => True end).
Proof.
  destruct x as [a|]; [|apply triple_ret; [exact rows_stay_known|by intros ? ?%elem_of_nil]]. eapply triple_conseq; [apply T_select|]. intros [rows|e] k' [_ Hr]; [|done].
  intros row Hin. destruct (Hr row Hin) as (? & ? & ?). eauto.
Qed.
Lemma T_lookup c k eos steam : T c k (lookupIdentity eos steam) (head_post eos steam).
Proof.
  eapply T_orThrow'; [apply (T_select_opt c k eos (fun e => eos_is e))| |done]. intros [|r rs] k1 Hr.
  - eapply T_orThrow'; [apply (T_select_opt c k1 steam (fun s => steam_is s))| |done]. intros rows k2 Hrows. apply triple_ret; [exact rows_stay_known|].
    destruct rows as [|row rows]; [done|]. destruct (Hrows row ltac:(by left)) as (? & ? & s & -> & Hs). split_and!; [done|done|by apply found_steam].
  - apply triple_ret; [exact rows_stay_known|]. destruct (Hr r ltac:(by left)) as (? & ? & e & -> & He). split_and!; [done|done|by apply found_eos].
Qed.
Lemma connect_steam_good row steam owner : let '(u, _, _, _) := connect_steam row steam owner in u = None ∨ p_steam row ≠ steam ∧ u = steam.
Proof.
  unfold connect_steam. destruct steam as [s|]; [|by left]. case_bool_decide as E; [by left|]. destruct (match owner with Some o => _ | None => false end); [by left|].
  destruct (p_steam row); right; done.
Qed.
Lemma safe_applyToExisting c k row payload : known_for (Connect.eos_id payload) (Connect.steam_id64 payload) k row → matches_ids (Connect.eos_id payload) (Connect.steam_id64 payload) →
  T c k (applyToExisting row payload) (fun _ _ => True).
Proof.
  intros (Hin & Hc & Hf) Hreq. unfold applyToExisting.
  set (steam := Connect.steam_id64 payload) in *. set (name := Connect.name payload).
  apply (T_orThrow c k _ _ (fun _ k' => k ⊆ k')).
  { destruct steam as [s|]; [|by apply triple_ret; [exact rows_stay_known|]]. case_bool_decide; [by apply triple_ret; [exact rows_stay_known|]|]. eapply triple_conseq; [apply T_select|]. by intros r k' [? _]. }
  intros owners k1 Hk1. pose proof (connect_steam_good row steam (p_id <$> head owners)) as Hgood. destruct (connect_steam _ _ _) as [[[u raise] linked] conflict].
  eapply T_orThrow.
  - cbv zeta. eapply (T_update c k1 row (Connect.eos_id payload) steam); [split_and!; [by apply Hk1|done|done]|done| |].
    + split; cbn; [|done]. destruct (p_eos row); [by left|by right].
    + intros w. cbn. destruct (negb _); [by rewrite players_record_name|done].
  - intros [] k2 ->. apply safe_orThrow; [apply safe_observe|]. intros []. apply safe_ret.
Qed.
Lemma safe_handlePlayerConnected payload : matches_ids (Connect.eos_id payload) (Connect.steam_id64 payload) → safe (handlePlayerConnected payload).
Proof.
  intros Hreq c k. unfold handlePlayerConnected. destruct (_ && _); [apply safe_ret|]. eapply T_orThrow; [apply T_lookup|]. intros [row|] k1 Hrow; [by apply safe_applyToExisting|].
  set (name := Connect.name payload). eapply T_orThrow.
  - apply (T_create c k1 (fun id => mkRow id (Connect.steam_id64 payload) (Connect.eos_id payload) name (normalized name) false)); [by intros i e s; apply Hreq|].
    intros i u v a. destruct (add_player u _) as [w|]; intros [= <- <-]; [right; exists w; split; [done|]; cbn; by rewrite players_record_name|by left].
  - intros [id|] k2 ->.
    + apply safe_orThrow; [apply safe_observe|]. intros []. apply safe_ret.
    + eapply T_orThrow; [apply T_lookup|]. intros [row|] k3 Hrow3; [by apply safe_applyToExisting|apply safe_ret].
Qed.
Lemma T_resolveByIdentity c k eos steam : T c k (resolveByIdentity eos steam)
  (fun r k' => match r with Ok (Some m) => known_for eos steam k' (Combat.m_row m) | _ => True end).
Proof.
  unfold resolveByIdentity. destruct (_ && _); [by apply triple_ret; [exact rows_stay_known|]|]. eapply T_orThrow'; [apply T_select| |done]. intros rows k1 [_ Hrows].
  apply triple_ret; [exact rows_stay_known|]. assert (∀ r, r ∈ take 2 rows → known_for eos steam k1 r) as Hk.
  { intros r Hin. assert (r ∈ rows) as Hr by (rewrite <- (take_drop 2 rows); apply elem_of_app; by left). destruct (Hrows r Hr) as (Hin' & Hc & Hp). split_and!; [done|done|].
    apply orb_true_iff in Hp as [Hp|Hp]; [destruct eos as [e|]; [by apply found_eos|done]|destruct steam as [s|]; [by apply found_steam|done]]. }
  destruct (match (e ← eos; find_row (eos_is e) (take 2 rows)) with Some r => Some r | None => _ end) as [r|] eqn:E; [|done]. cbn. apply Hk.
  destruct (e ← eos; find_row (eos_is e) (take 2 rows)) as [r'|] eqn:E'.
  - injection E as ->. destruct eos as [e|]; [|done]. by apply find_row_Some in E' as [? _].
  - destruct (take 2 rows) as [|x l]; [done|]. injection E as ->. by left.
Qed.
Lemma safe_backfillIdentity c k m identity : known_for (Combat.eosId identity) (Combat.steamId64 identity) k (Combat.m_row m) → matches_ids (Combat.eosId identity) (Combat.steamId64 identity) →
  T c k (backfillIdentity m identity) (fun _ _ => True).
Proof.
  intros Hk Hreq. unfold backfillIdentity. destruct (Combat.conflicting m); [apply safe_ret|]. cbv zeta. destruct (bool_decide _ && _); [apply safe_ret|].
  eapply T_andThen; [|intros r k' _; apply safe_ret].
  eapply (T_update c k (Combat.m_row m) (Combat.eosId identity) (Combat.steamId64 identity) _ (fun w => w)); [done|done| |done]. split; cbn.
  - destruct (p_eos _); [by left|by right].
  - destruct (p_steam _) as [s|] eqn:Es; [by left|]. destruct (Combat.steamId64 identity); [right; by rewrite ?Es|by left].
Qed.
Lemma safe_createPlayer identity : matches_ids (Combat.eosId identity) (Combat.steamId64 identity) → safe (createPlayer identity).
Proof.
  intros Hreq. apply safe_orThrow.
  - unfold createPlayerWithHistory. apply writer_andThen; [|intros r; apply safe_ret]. intros c k. eapply T_conseq_safe.
    apply (T_create c k (fun id => mkRow id (Combat.steamId64 identity) (Combat.eosId identity) (Combat.name identity) (normalized (Combat.name identity)) false)); [by intros i e s; apply Hreq|].
    intros i u v a. destruct (add_player u _) as [w|]; [|done]. cbn. intros [= <- <-]. right. by exists w.
  - intros [id|]; [apply safe_ret|]. intros c k. eapply T_orThrow; [apply T_resolveByIdentity|]. intros. apply safe_ret.
Qed.
Lemma safe_select p : safe (select_players p).
Proof. intros c k. eapply T_conseq_safe, T_select. Qed.
Lemma safe_resolveByName name : safe (resolveByName name).
Proof.
  unfold resolveByName. cbv zeta. case_bool_decide; [apply safe_ret|]. apply safe_orThrow; [apply safe_select|]. intros direct. destruct (take 2 direct) as [|r [|r' l]]; [|apply safe_ret..].
  apply safe_orThrow; [by apply safe_aside|]. intros. apply safe_ret.
Qed.
Lemma safe_resolveOrCreatePlayer combatant roster : (∀ i, combatant ≫= (fun c => identityFromRoster c roster) = Some i → matches_ids (Combat.eosId i) (Combat.steamId64 i)) →
  safe (resolveOrCreatePlayer combatant roster).
Proof.
  intros Hreq. unfold resolveOrCreatePlayer. destruct (combatant ≫= _) as [identity|]; [|apply safe_ret]. specialize (Hreq _ eq_refl). destruct (_ && _); [apply safe_resolveByName|].
  intros c k. eapply T_orThrow; [apply T_resolveByIdentity|]. intros [m|] k1 Hm; [|by apply safe_createPlayer].
  eapply T_orThrow; [by apply safe_backfillIdentity|]. intros []. intros. apply safe_ret.
Qed.
Lemma identityFromRoster_matches c roster i : matches_ids (Combat.eosId c) (Combat.steamId64 c) → Forall (fun m => matches_ids (Combat.eosId m) (Combat.steamId64 m)) roster →
  identityFromRoster c roster = Some i → matches_ids (Combat.eosId i) (Combat.steamId64 i).
Proof.
  intros Hc Hroster. unfold identityFromRoster. destruct (_ || _); [by intros [= <-]|]. cbv zeta.
  destruct (jfilter _ roster) as [|m [|m' l]] eqn:E; [by intros [= <-]| |done]. assert (m ∈ roster) as Hm by (assert (m ∈ [m]) as Hin by (by left); rewrite <- E in Hin; by apply elem_of_jfilter in Hin as [_ ?]).
  rewrite Forall_forall in Hroster. destruct (_ && _); intros [= <-]; [done|]. cbn. by apply Hroster.
Qed.
Lemma safe_login steam name b : safe (login_upsert steam name b).
Proof.
  intros c k. eapply T_conseq_safe, T_commit. intros i u v a Hk Hi. destruct (find_row (steam_is steam) (players u)) as [r|] eqn:E.
  - destruct (change_player u (p_id r) _) as [w|] eqn:Ec; [|done]. cbn. intros [= <- <-]. revert Ec. apply change_player_ok; [done|]. intros r' Hr' _.
    pose proof (ro_consistent _ Hi r' Hr') as Hc. split; [done|]. split; cbn; [done|done|destruct (p_eos r'); auto|done].
  - destruct (add_player u _) as [w|] eqn:Ea; [|done]. cbn. intros [= <- <-]. eapply add_player_ok; [done| |exact Ea]. by intros e s [=].
Qed.

(** ** Any number of them *)

(** A writer of the table; each of its reports gives a Steam account with the
    EOS account it belongs to, when it gives both. *)
Inductive writer : iprog unit → Prop :=
| Poll ps : Forall (fun p => matches_ids (Some (Rcon.eos_id p)) (Rcon.steam_id64 p)) ps → writer (await _ := upsertPlayers ps in Ret ())
| Joined payload : matches_ids (Connect.eos_id payload) (Connect.steam_id64 payload) → writer (await _ := handlePlayerConnected payload in Ret ())
| Fought combatant roster : matches_ids (Combat.eosId combatant) (Combat.steamId64 combatant) → Forall (fun m => matches_ids (Combat.eosId m) (Combat.steamId64 m)) roster →
    writer (await _ := resolveOrCreatePlayer (Some combatant) roster in Ret ())
| Logged_in steam name placeholder : writer (await _ := login_upsert steam name placeholder in Ret ()).
(** Others change what does not identify a player, or add history. *)
Definition writer_event (e : event world input fault unit) : Prop :=
  match e with
  | Other f => ∀ w, players (f w) = players w
  | Start p => ∀ c, writer (p c)
  | Step _ _ _ | Crash _ => True
  end.
Lemma writer_safe p : writer p → safe p.
Proof.
  destruct 1; (apply writer_andThen; [|intros; apply safe_ret]); [by apply safe_upsertPlayers|by apply safe_handlePlayerConnected| |apply safe_login].
  apply safe_resolveOrCreatePlayer. cbn. intros i. by apply identityFromRoster_matches.
Qed.

Definition system_ok : system world input fault unit → Prop := sys_ok Inv Rely Rely AnyFault (fun _ _ => True) (fun _ _ _ => True).
Lemma writer_event_ok e : writer_event e → event_ok Inv Rely Rely (fun u v => players v = players u) AnyFault (fun _ _ => True) (fun _ _ _ => True) e.
Proof.
  destruct e as [f|p|c f i|c]; cbn; [|intros He c w Hi _|by destruct f|done].
  - intros He w Hi. split; [done|]. unfold Inv. by rewrite He.
  - pose proof (writer_safe _ (He c) c [] w ltac:(by intros r ?%elem_of_nil) Hi) as Hs. eapply holds_conseq; [|exact Hs]. done.
Qed.
Lemma writers_next s e : system_ok s → writer_event e → system_ok (next s e) ∧ evolve (players (shared s)) (players (shared (next s e))).
Proof.
  intros Hs He. split.
  - eapply (tasks_next_ok Inv Rely Rely (fun u v => players v = players u) AnyFault rows_rely_refl rows_rely_trans); [done| |done|by apply writer_event_ok|done].
    intros c u v Huv. unfold Rely. rewrite Huv. apply evolve_refl.
  - destruct e as [f|p|c f i|c]; cbn in *; [rewrite He; apply evolve_refl|apply evolve_refl| |apply evolve_refl].
    destruct (tasks s !! c) as [[p|]|] eqn:Ec; [|apply evolve_refl..]. destruct (step f i (shared s) p) as [[v p']|] eqn:Es; [|apply evolve_refl].
    destruct (step_holds Inv Rely Rely AnyFault rows_rely_refl c (fun _ _ => True) f i _ _ _ _ (ok_inv _ _ _ _ _ _ _ Hs) ltac:(by destruct f) (ok_tasks _ _ _ _ _ _ _ Hs c p Ec) Es) as (_ & _ & [Hg| ->]);
      [exact Hg|apply evolve_refl].
Qed.

Lemma writers_run es s : system_ok s → Forall writer_event es → rows_ok (players (shared (run s es))) ∧ evolve (players (shared s)) (players (shared (run s es))).
Proof.
  intros Hs Hes. revert s Hs. unfold run. induction Hes as [|e es He _ IH]; intros s Hs; [split; [apply Hs|apply evolve_refl]|].
  destruct (writers_next s e Hs He) as [Hs' Hev]. destruct (IH _ Hs') as [Hfin Hev']. split; [done|by eapply evolve_trans].
Qed.

(** C12: However polls, joins, fights and logins interleave, on whatever they
    have read before, and whichever of their calls fail, lose their answer or
    never come: as long as no report gives a Steam account with a foreign EOS
    account, no row ever holds the ids of two people and no two rows share an
    id, a SteamID or an EOS id; a row stays in its place with its EOS id, its
    SteamID is never lost, and its conflict flag never goes down. *)
Theorem identities_never_mixed es w : rows_ok (players w) → Forall writer_event es →
  let w' := shared (run (mkSystem w []) es) in rows_ok (players w') ∧ evolve (players w) (players w').
Proof.
  intros Hok Hes. assert (system_ok (mkSystem w [])) as Hs by (split; [done|by intros c p|done]).
  exact (writers_run es _ Hs Hes).
Qed.
End Consistency.

(** * One player of a poll, undisturbed *)

Section Exact.
Context `{Letters}.

Lemma find_row_cons p r rows : find_row p (r :: rows) = if p r then Some r else find_row p rows.
Proof. unfold find_row. cbn. destruct (p r); [done|]. by destruct (find_index p rows). Qed.
(** Among the rows of a wider read. *)
Lemma find_row_jfilter p q rows : (∀ r, p r = true → q r = true) → find_row p (jfilter q rows) = find_row p rows.
Proof.
  intros Hpq. induction rows as [|r rows IH]; [done|]. rewrite find_row_cons. unfold jfilter in *. cbn [List.filter]. destruct (q r) eqn:Eq.
  - rewrite find_row_cons. by rewrite IH.
  - destruct (p r) eqn:Ep; [by rewrite Hpq in Eq|done].
Qed.
Lemma find_row_None p rows : find_row p rows = None ↔ ∀ r, r ∈ rows → p r = false.
Proof.
  induction rows as [|r rows IH]; [split; [by intros _ r ?%elem_of_nil|done]|]. rewrite find_row_cons. destruct (p r) eqn:E; [|rewrite IH; set_solver].
  split; [done|]. intros Hall. rewrite Hall in E; [done|by left].
Qed.

(** What the database holds for a player of a poll: the row with the EOS id, the
    one with the SteamID. *)
Definition eos_row (p : Rcon.RconPlayer) (w : world) : option players_row := find_row (eos_is (Rcon.eos_id p)) (players w).
Definition steam_row (p : Rcon.RconPlayer) (w : world) : option players_row := s ← Rcon.steam_id64 p; find_row (steam_is s) (players w).
(** Whether the SteamID is another row's than the one with the EOS id. *)
Definition split_identity (p : Rcon.RconPlayer) (w : world) : bool :=
  match eos_row p w, steam_row p w with Some a, Some b => negb (bool_decide (p_id b = p_id a)) | _, _ => false end.
Definition upserted_row (p : Rcon.RconPlayer) (w : world) (row : players_row) : players_row :=
  mkRow (p_id row) (match p_steam row with Some s => Some s | None => if split_identity p w then None else Rcon.steam_id64 p end)
    (Some (default (Rcon.eos_id p) (p_eos row))) (Rcon.name p) (normalized (Rcon.name p)) (p_conflict row || split_identity p w).
Definition audits_after (p : Rcon.RconPlayer) (w : world) (row : players_row) : list audit_entry :=
  (if bool_decide (p_steam row = None) && bool_decide (is_Some (Rcon.steam_id64 p)) && negb (split_identity p w)
   then [Steam_linked Rcon.RCON_LABEL (p_id row) (Rcon.steam_id64 p) (Some (Rcon.eos_id p))] else []) ++
  (if split_identity p w && negb (p_conflict row)
   then [Eos_steam_conflict Rcon.RCON_LABEL (p_id row) (Some (Rcon.eos_id p)) (p_steam row) (Rcon.steam_id64 p)] else []).
Definition unique_rows (w : world) : Prop := ∀ i j r r', players w !! i = Some r → players w !! j = Some r' → clashes r r' = true → i = j.

Lemma alone_lookup_rcon id w p : alone id w (lookupIdentity_rcon p) =
  Some (w, Ok (row ← match eos_row p w with Some r => Some r | None => steam_row p w end; Some (row, split_identity p w))).
Proof.
  unfold lookupIdentity_rcon. rewrite alone_orThrow. cbn [alone select_players once mbind option_bind].
  rewrite find_row_jfilter by (by intros r ->). fold (eos_row p w).
  assert ((s ← Rcon.steam_id64 p; find_row (steam_is s) (jfilter (fun r => eos_is (Rcon.eos_id p) r || match Rcon.steam_id64 p with Some s => steam_is s r | None => false end) (players w))) = steam_row p w) as ->.
  { unfold steam_row. destruct (Rcon.steam_id64 p) as [s|]; [|done]. cbn. apply find_row_jfilter. intros r ->. apply orb_true_r. }
  unfold split_identity. destruct (eos_row p w) as [a|]; [cbn; by destruct (steam_row p w)|]. destruct (steam_row p w) as [b|]; [|done]. cbn. by rewrite bool_decide_eq_true_2.
Qed.
Lemma change_player_at w i r f : unique_rows w → players w !! i = Some r → (∀ r', clashes (f r) r' = true → r' ∈ delete i (players w) → False) →
  change_player w (p_id r) f = Some (mkWorld (<[i := f r]> (players w)) (name_history w) (audit_log w) (addresses w) (last_ip w)).
Proof.
  intros Hu Hi Hno. unfold change_player. destruct (find_index (fun r0 => bool_decide (p_id r0 = p_id r)) (players w)) as [j|] eqn:Ef.
  - apply find_index_Some in Ef as ((x & Hx & Hid%bool_decide_eq_true) & _). assert (j = i) as ->.
    { apply (Hu j i x r Hx Hi). unfold clashes. by rewrite bool_decide_eq_true_2. }
    rewrite Hx. assert (x = r) as -> by congruence. destruct (existsb _ _) eqn:E; [|done]. apply existsb_exists in E as (y & Hy & Hc). exfalso.
    apply (Hno y Hc). by apply list_elem_of_In.
  - rewrite find_index_None in Ef. specialize (Ef r (list_elem_of_lookup_2 _ _ _ Hi)). by rewrite bool_decide_eq_true_2 in Ef.
Qed.
Lemma rcon_row_after p w row : apply_updates (rcon_updates p row (split_identity p w)) row = upserted_row p w row.
Proof.
  unfold apply_updates, rcon_updates, upserted_row. cbn. destruct (p_eos row), (p_steam row), (split_identity p w), (p_conflict row), (Rcon.steam_id64 p); done.
Qed.
Lemma rcon_audits_after p w row : rcon_audits p row (rcon_updates p row (split_identity p w)) = audits_after p w row.
Proof.
  unfold rcon_audits, rcon_updates, audits_after. cbn.
  destruct (p_steam row), (split_identity p w), (p_conflict row), (Rcon.steam_id64 p) as [s|]; cbn; try done;
  (rewrite (bool_decide_eq_true_2 (is_Some (Some s))) by (by eexists)) || (rewrite (bool_decide_eq_false_2 (is_Some None)) by (by intros [? ?])); done.
Qed.
Lemma same_key_true {A} `{EqDecision A} (x y : option A) : same_key x y = true → ∃ a, x = Some a ∧ y = Some a.
Proof. destruct x, y; cbn; [|done..]. intros ->%bool_decide_eq_true. eauto. Qed.
Lemma clash_cases r r' : clashes r r' = true → p_id r = p_id r' ∨ (∃ s, p_steam r = Some s ∧ p_steam r' = Some s) ∨ (∃ e, p_eos r = Some e ∧ p_eos r' = Some e).
Proof. unfold clashes. intros [[E%bool_decide_eq_true|E%same_key_true]%orb_true_iff|E%same_key_true]%orb_true_iff; auto. Qed.
Lemma clash_by_id r r' : p_id r = p_id r' → clashes r r' = true.
Proof. intros E. unfold clashes. by rewrite bool_decide_eq_true_2. Qed.
Lemma clash_by_steam r r' s : p_steam r = Some s → p_steam r' = Some s → clashes r r' = true.
Proof. intros E E'. unfold clashes. rewrite E, E'. cbn. rewrite (bool_decide_eq_true_2 (s = s)) by done. by rewrite orb_true_r. Qed.
Lemma clash_by_eos r r' e : p_eos r = Some e → p_eos r' = Some e → clashes r r' = true.
Proof. intros E E'. unfold clashes. rewrite E, E'. cbn. rewrite (bool_decide_eq_true_2 (e = e)) by done. by rewrite orb_true_r. Qed.
Definition identity_row (p : Rcon.RconPlayer) (w : world) : option players_row := match eos_row p w with Some r => Some r | None => steam_row p w end.
Lemma row_after_apart p w row i r' : unique_rows w → identity_row p w = Some row → players w !! i = Some row → clashes (upserted_row p w row) r' = true → r' ∈ delete i (players w) → False.
Proof.
  intros Hu Hrow Hi Hcl [j Hj]%list_elem_of_lookup_1.
  assert (∃ k, k ≠ i ∧ players w !! k = Some r') as (k & Hk & Hr').
  { rewrite list_lookup_delete in Hj. case_decide; [by exists j; split; [lia|]|exists (S j); split; [lia|done]]. }
  assert (clashes row r' = true → False) as Hapart by (intros E; by rewrite (Hu i k row r') in Hk).
  apply clash_cases in Hcl as [E|[(s & Es & Es')|(e & Ee & Ee')]].
  - by apply Hapart, clash_by_id.
  - unfold upserted_row in Es. cbn in Es. destruct (p_steam row) as [s0|] eqn:Ep; [apply Hapart; eapply clash_by_steam; [exact Ep|congruence]|].
    destruct (split_identity p w) eqn:Esp; [done|]. assert (∃ b, steam_row p w = Some b ∧ p_steam b = Some s ∧ b ∈ players w) as (b & Hb & Hbs & Hbin).
    { unfold steam_row. rewrite Es. cbn. destruct (find_row (steam_is s) (players w)) as [b|] eqn:Eb.
      - exists b. apply find_row_Some in Eb as [? E%bool_decide_eq_true]. done.
      - rewrite find_row_None in Eb. specialize (Eb r' (list_elem_of_lookup_2 _ _ _ Hr')). unfold steam_is in Eb. by rewrite bool_decide_eq_true_2 in Eb. }
    apply list_elem_of_lookup_1 in Hbin as [m Hm]. assert (m = k) as -> by (apply (Hu m k b r' Hm Hr'); by eapply clash_by_steam). assert (b = r') as -> by congruence.
    unfold identity_row in Hrow. unfold split_identity in Esp. destruct (eos_row p w) as [a|] eqn:Ea; [|congruence]. injection Hrow as ->. rewrite Hb in Esp.
    apply negb_false_iff, bool_decide_eq_true in Esp. by apply Hapart, clash_by_id.
  - unfold upserted_row in Ee. cbn in Ee. destruct (p_eos row) as [e0|] eqn:Ep; [apply Hapart; eapply clash_by_eos; [exact Ep|cbn in Ee; congruence]|]. cbn in Ee.
    unfold identity_row in Hrow. destruct (eos_row p w) as [a|] eqn:Ea.
    + injection Hrow as ->. apply find_row_Some in Ea as [_ E%bool_decide_eq_true]. congruence.
    + unfold eos_row in Ea. rewrite find_row_None in Ea. specialize (Ea r' (list_elem_of_lookup_2 _ _ _ Hr')). unfold eos_is in Ea. rewrite bool_decide_eq_true_2 in Ea; [done|congruence].
Qed.
Lemma identity_row_in p w row : identity_row p w = Some row → row ∈ players w.
Proof.
  unfold identity_row, eos_row, steam_row. destruct (find_row _ _) as [a|] eqn:E; [intros [= <-]; by apply find_row_Some in E as [? _]|].
  destruct (Rcon.steam_id64 p) as [s|]; [|done]. cbn. intros E'. by apply find_row_Some in E' as [? _].
Qed.
Lemma name_recorded f id name norm w : (∀ n, n_player (f n) = n_player n ∧ n_normalized (f n) = n_normalized n) → ∃ n, n ∈ name_history (record_name f id name norm w) ∧ n_player n = id ∧ n_normalized n = norm.
Proof.
  intros Hf. unfold record_name. destruct (existsb _ _) eqn:E.
  - apply existsb_exists in E as (n & Hn & Hid). exists (f n). cbn. split.
    + apply list_elem_of_fmap. exists n. rewrite Hid. split; [done|by apply list_elem_of_In].
    + apply andb_true_iff in Hid as [H1%bool_decide_eq_true H2%bool_decide_eq_true]. destruct (Hf n) as [-> ->]. done.
  - eexists. split; [cbn; apply elem_of_app; right; by left|done].
Qed.

Lemma new_row_clashes p w id name norm : identity_row p w = None →
  existsb (clashes (mkRow id (Rcon.steam_id64 p) (Some (Rcon.eos_id p)) name norm false)) (players w) = bool_decide (id ∈ p_id <$> players w).
Proof.
  unfold identity_row. destruct (eos_row p w) as [|] eqn:Ee; [done|]. unfold eos_row in Ee. rewrite find_row_None in Ee. unfold steam_row. intros Es.
  apply eq_true_iff_eq. rewrite existsb_exists, bool_decide_eq_true, list_elem_of_fmap. split.
  - intros (r & Hr & Hc). apply list_elem_of_In in Hr. apply clash_cases in Hc as [E|[(s & E & E')|(e & E & E')]]; [by exists r| |]; cbn in E.
    + rewrite E in Es. cbn in Es. rewrite find_row_None in Es. specialize (Es r Hr). unfold steam_is in Es. by rewrite bool_decide_eq_true_2 in Es.
    + specialize (Ee r Hr). unfold eos_is in Ee. rewrite bool_decide_eq_true_2 in Ee; [done|congruence].
  - intros (r & -> & Hr). exists r. split; [by apply list_elem_of_In|by apply clash_by_id].
Qed.

End Exact.

(** * Example runs *)

Section Examples.
#[local] Instance plain_letters : Letters := {
  is_letter c := (65 <=? c) && (c <=? 90) || (97 <=? c) && (c <=? 122);
  toLowerCase s := (fun c => if (65 <=? c) && (c <=? 90) then c + 32 else c) <$> s;
}.
Example normalize_clan_tag : normalizePlayerName (js " [ABC] -(x)> Ann  Lee ") = Some (js "ann lee") ∧ normalizePlayerName (js "[1]") = Some (js "[1]").
Proof. vm_compute. done. Qed.

Definition ex_eos : jstr := js "eos1".
Definition ex_players_rows : list players_row := [mkRow (js "a") None (Some ex_eos) (js "Ann") (js "ann") false; mkRow (js "b") (Some 7) None (js "Bob") (js "bob") false].
Definition ex_players : world := mkWorld ex_players_rows [] [] [] [].
Definition ex_poll : Rcon.RconPlayer := Rcon.mkPlayer ex_eos (Some 7) (js "Ann").
Definition ex_join : Connect.PlayerConnectedPayload := Connect.mkPayload (Some 7) (Some ex_eos) (js "Ann") None.
Definition ex_eos_of (s : Z) : jstr := ex_eos.
Lemma ex_rows_ok : rows_ok ex_eos_of ex_players_rows.
Proof.
  split; [|intros r Hr e s He Hs; repeat (apply elem_of_cons in Hr as [->|Hr]; [by cbn in *; simplify_eq|]); by apply elem_of_nil in Hr].
  intros [|[|i]] [|[|j]] r r' Hi Hj; cbn in Hi, Hj; simplify_eq; vm_compute; try done.
Qed.

(** A split identity is flagged once; the poll audits it once, and every join
    audits it again. *)
Notation ex_joined_twice := (alone (js "n") ex_players (await _ := handlePlayerConnected ex_join in handlePlayerConnected ex_join)).
Example repeated_join_audits_again : ∃ w r, ex_joined_twice = Some (w, r) ∧
  audit_log w = replicate 2 (Eos_steam_conflict Connect.SYSTEM_LABEL (js "a") (Some ex_eos) None (Some 7)) ∧ p_conflict <$> players w = [true; false].
Proof. eexists _, _. vm_compute. done. Qed.

(** The poll and the join of one player read the row before either has linked
    its SteamID: both links are audited. *)
Definition ex_alone_row : world := mkWorld [mkRow (js "a") None (Some ex_eos) (js "Ann") (js "ann") false] [] [] [] [].
Notation ex_race := [
  Start (fun _ => await _ := upsertPlayers [ex_poll] in Ret ()); Start (fun _ => await _ := handlePlayerConnected ex_join in Ret ());
  Step 0 Done (js "n"); Step 1 Done (js "n"); Step 1 Done (js "n"); Step 0 Done (js "n"); Step 1 Done (js "n")].
Example link_audited_twice : let w := shared (run (mkSystem ex_alone_row []) ex_race) in
  audit_log w = [Steam_linked Rcon.RCON_LABEL (js "a") (Some 7) (Some ex_eos); Steam_linked Connect.SYSTEM_LABEL (js "a") (Some 7) (Some ex_eos)].
Proof. vm_compute. done. Qed.

Lemma identities_never_mixed_witness : let w' := shared (run (mkSystem ex_players []) ex_race) in rows_ok ex_eos_of (players w') ∧ p_conflict <$> players w' = [true; false].
Proof.
  split; [|vm_compute; reflexivity].
  refine (proj1 (identities_never_mixed ex_eos_of ex_race ex_players ex_rows_ok _)).
  apply Forall_cons_2; [intros c; apply Poll; apply Forall_cons_2; [intros e s He _; cbn in He; injection He as <-; reflexivity|apply Forall_nil_2]|].
  apply Forall_cons_2; [intros c; apply Joined; intros e s He _; cbn in He; injection He as <-; reflexivity|]. repeat apply Forall_cons_2; try exact I. apply Forall_nil_2.
Defined.
End Examples.
